(* ===== verification/_CoqProject ===== *)
-Q . S2P
Prelude.v
JsString.v
JsMap.v
JsTime.v
Sql.v
Json.v
Queue.v
QueueInv.v
QueueDiscard.v
QueueProps.v
QueueOps.v
Cache.v
CacheProps.v
CacheFlight.v
Scheduler.v
SchedulerProps.v
Workflows.v
Authz.v
RateLimit.v
RateLimitProps.v
RateLimitSpec.v
Router.v
RouterProps.v
FileRoutes.v
FileRoutesProps.v
FileRoutesOrder.v
FileRoutesSpec.v
FileRoutesScan.v
Migrate.v
MigrateProps.v
Base64.v
ChannelToken.v
PubSub.v
PubSubProps.v
JsNumber.v
JsJson.v
LiveShape.v
LiveShapeProps.v
LiveOrder.v
LiveDiff.v
LiveClassify.v
LiveClassifyProps.v
LiveResume.v
LiveEngine.v
LiveEngineProps.v
LiveSystem.v
PgOutput.v
LiveFrames.v
LiveStore.v
LiveOutbox.v
LiveOutboxProps.v
LiveOffline.v
NodeCrypto.v
Web.v
Csrf.v
CsrfProps.v
Cors.v
IpAddress.v
Webhooks.v
AddressProps.v
WebhooksProps.v
Totp.v
Sessions.v
Passwords.v
PasswordsProps.v
Async.v
Identity.v
IdentityProps.v
IdentityFlows.v
IdentityRaces.v
Realtime.v
RealtimeProps.v
RealtimeStreams.v
MailingLists.v
MailingConsent.v
MailingListsProps.v
QueryClient.v
QueryClientProps.v
QueryClientLive.v
