(* ===== verification/Prelude.v ===== *)
(** * Lesto: a verification development

    Lesto is a full-stack TypeScript framework: a set of packages under [packages/] that an
    application wires together. This development models the packages whose own logic
    carries the guarantees the framework makes (durable jobs, caching, scheduling, rate
    limiting, accounts and sessions, authorization, request guards, routing, migrations,
    messaging, live queries, mailing lists, webhooks, workflows) and proves those
    guarantees about definitions translated from the source, one definition per method,
    handler or helper, under the names the source uses.

    ** The parts, and where they are

    A component is a data-and-operations file, and files of theorems and of concrete runs
    beside it.

    - Shared: [Prelude] (this file: fallible code as [outcome] with [let!], lemmas on
      lists, the tactics [bools] and [case_test], the hint database [lesto]); [JsString]
      (the [String.prototype] methods, with [split]/[join] as inverses), [JsMap]
      (insertion-ordered [Map]s), [JsNumber] (IEEE doubles, their texts and their
      arithmetic), [JsJson] (JSON values, [parse] and [stringify]), [JsTime] (ISO time
      strings and the calendar), [Sql] (single-table statements on row lists), [Json] (the
      JSON codec as an interface, for the files that only store and read back), [Base64],
      [NodeCrypto] (UTF-8, hexadecimal text, constant-time comparison, hashes as an
      interface), [IpAddress] (texts of addresses), [Async] (programs that interleave at
      their awaits and can be cut short).
    - The job queue, [packages/queue/src/queue.ts], [types.ts], [time.ts], [errors.ts]:
      [Queue] has a row type for each table and an operation for each method ([enqueue],
      [enqueueBatch], [claimRow], [complete], [fail], [discard], [retry], [reclaim],
      [prune], [runOnce]...); [QueueInv] the table invariant and the system of concurrent
      workers as a step relation over single statements and transactions; [QueueDiscard]
      the discard cascade; [QueueProps] what holds in every reachable state; [QueueOps]
      what each operation does on every branch, and concrete runs.
    - The schedulers over it, [scheduler.ts] and [retention.ts]: [Scheduler] sees the queue
      through the class [JobSink]; [SchedulerProps] gives cron expressions their meaning,
      what a tick enqueues, and one firing per matching minute.
    - The TTL cache, [packages/cache/src]: [Cache] is written against the class
      [CacheStore], which both stores implement; [CacheProps]; [CacheFlight] every
      interleaving of the single-flight [remember] with invalidations.
    - The rate limiter, [packages/ratelimit/src]: [RateLimit]; [RateLimitProps] for any
      rounding of the arithmetic; [RateLimitSpec] the stores against the abstract one and
      the limits enforced.
    - Authorization, [packages/authz/src]: [Authz].
    - Accounts: [packages/auth/src] in [Totp] (one-time passwords), [Sessions] (opaque and
      signed sessions, their stores), [Passwords] (hash formats and recovery codes),
      [PasswordsProps]; [packages/identity/src] over them in [Identity] (registration,
      verification, login, second factors, resets), [IdentityProps], [IdentityFlows]
      (from one operation to the next), [IdentityRaces] (operations in flight).
    - The request pipeline, [packages/web/src/middleware.ts], [types.ts], [harden.ts]: [Web];
      [packages/csrf/src] in [Csrf], [CsrfProps]; [packages/cors/src] in [Cors].
    - Webhooks, [packages/webhooks/src]: [Webhooks] (signatures, judged destinations,
      deliveries), [AddressProps] (the textual judgements against blocks of addresses),
      [WebhooksProps].
    - Routing, [packages/router/src]: [Router], [RouterProps]; [FileRoutes] (the file
      convention), [FileRoutesProps] (the language of the derived patterns),
      [FileRoutesOrder] (acceptance and order), [FileRoutesSpec] (what the convention
      promises, through the route table), [FileRoutesScan].
    - Migrations, [packages/migrate/src/migrator.ts]: [Migrate], [MigrateProps].
    - Messaging, [packages/pubsub/src]: [PubSub], [ChannelToken], [PubSubProps].
    - Realtime, [packages/realtime/src]: [Realtime] (replay ring, frames, topic selection,
      connections, the process, the Postgres transport), [RealtimeProps], [RealtimeStreams]
      (whole servers over time).
    - Live queries: [packages/live-protocol/src] in [LiveShape] ([shape.ts]) and
      [LiveFrames] ([frames.ts]); [packages/live-server/src] in [LiveDiff], [LiveClassify],
      [LiveResume], [LiveEngine], [PgOutput] (the replication wire), [LiveFrames] (the
      connection); [packages/live/src] in [LiveStore], [LiveOutbox], [LiveFrames]
      (decoding). Theorems in [LiveShapeProps], [LiveOrder], [LiveClassifyProps],
      [LiveEngineProps], [LiveSystem], [LiveOutboxProps], [LiveOffline].
    - Mailing lists, [packages/mailing-lists/src] and the mailer's [send]:
      [MailingLists], [MailingConsent], [MailingListsProps].
    - Client data, [packages/ui/src/data-client.ts] and [live.ts]: [QueryClient],
      [QueryClientProps], [QueryClientLive] (from the realtime server's streams to a
      page's readers).
    - Workflows, [packages/workflows/src/engine.ts]: [Workflows].

    How they interact: the schedulers, the webhooks and the mailing lists call the queue;
    the queue, the cache, the limiter, the workflow journal, the accounts and the migrator
    each own tables of one SQL database, reached through single statements and
    transactions, between which other processes run; identity composes the sessions,
    passwords, one-time codes and limiters; the file convention fills the route table; the
    live engine reads the replication wire and writes frames that the client's stores
    merge under its outbox; the realtime process publishes through the hub to streams
    that the query client reads; the application's HTTP layer (not modelled) calls the
    table, the guards and the limiter.

    ** How the code is represented

    - State is explicit: a method takes the database, store or table it works on and
      returns the one it leaves, with its result; a call that may throw returns [outcome],
      with the source's error codes as constructors. In [Migrate] a small state-and-error
      monad keeps the state a throw leaves; in [Web] a computation is its events and its
      outcome; in [Passwords] it is the derivations it asks for.
    - Concurrency is a step relation or a tree of atomic actions: in [QueueInv] a worker's
      statements and transactions interleave with every other worker's, in [CacheFlight]
      the awaits of [remember], in [MigrateProps] a fleet of booting instances, in
      [RateLimitSpec] the statements between the two of an optimistic update, in
      [LiveSystem] statements, messages, failovers and subscribe calls that are at any of
      their awaits, in [LiveOffline] transactions that fail and reloads at any moment. [Identity] and [MailingLists] are written as [Async]
      programs: a theorem about operations in flight is proved action by action
      ([secured], [steps_secured]: each action keeps an invariant that the others rely
      on), and [crash] cuts a program short after any number of its actions.
    - Strings are lists of code units below 256. Times are integers of milliseconds, or
      the strings [JsTime] gives them. A JavaScript number is exact in [JsNumber]; those of
      the limiter are rationals under an arbitrary rounding, of which [RoundingLaws] asks
      that it be monotone and keep zero, and [rate_is_enforced] also a bound [errs_by] on
      the error of one operation; counters that the code keeps far from 2^53 are [Z].
    - The platform is a parameter with its documented laws: JSON where only the round trip
      matters ([JsonCodec], [JsonRoundTrip], met by [JsJson]), the time zone, percent coding
      ([UriCodec], [UriLaws]), collation ([Collation]), HMAC, SHA-256 and key derivation,
      the URL parser, the decoding of UTF-8, the driver's errors. Each law is met by a
      concrete instance where a theorem is applied.
    - A compiled [RegExp] is the list of the pieces of its source, matched greedily with
      backtracking and anchored at both ends, as JavaScript does; the fixed expressions of
      other packages are the predicates they stand for.

    ** What the theorems show

    - Invariants of every reachable state ([queue_invariant], [queue_exclusive_owner],
      [queue_blocked_jobs_wait], [hub_refines_sets], [one_request_per_key]).
    - Safety under interleaving ([queue_stale_report], [remember_single_flight],
      [invalidation_wins], [fleet_applies_once], [only_consenting_addresses_are_mailed],
      [streams_stay_scoped], [invalidation_is_fresh], and the races of [IdentityRaces]).
    - Confidentiality and authenticity: no row outside a subscription's slice reaches its
      client ([LiveClassifyProps], [LiveSystem]); a session takes its credentials
      ([IdentityProps]); requests are vouched for ([CsrfProps]), deliveries judged and
      believed ([WebhooksProps]), tokens verified ([PubSubProps], [Sessions]).
    - Liveness as results that are reached ([remember_settles], [resume_completes],
      [passes_converge], [crashed_broadcast_is_finished], [no_heard_topic_is_lost]).
    - Refinement of a specification ([eviction_invisible], [sql_store_refines],
      [allows_spec], [cronMatches_spec], [registry_is_the_mounted_readers]), meaning of a
      language ([match_is_substitution], [same_shape_same_urls], [most_specific_wins],
      [guards_run]), round trips ([path_round_trip], [mint_then_verify],
      [rollback_undoes_migrate], the frames and the wire of [LiveFrames] and [PgOutput]),
      and the functional behaviour of operations on every branch.
    - Composition across packages ([QueryClientLive]: what a server hears ends in a
      request of every reader; [WebhooksProps]: through the queue's store;
      [IdentityFlows]; [MailingListsProps]).

    Some theorems state a defect: where the code does not do what its comments say, the
    theorem says what it does (among them [wait_is_honest], [optional_catchall_spec],
    [rolesFor_misses_wildcards], [quiet_stream_loses], [gap_is_silent],
    [cut_recording_forgets], [invalidation_in_flight_is_lost]). Where a theorem holds only
    under a condition the code does not enforce, the condition is a definition with the
    reason beside it ([fenced] in [LiveSystem], [announces] in [Cors], [unforced] in
    [QueryClientProps], [spared] in [LiveOutboxProps]), and theorems
    beside it show what happens without it.

    ** Bounds and fuel

    The discard cascade runs with as many rounds as there are jobs and one more, and is
    proved to end within them; role resolution with the depth bound of the declared roles,
    proved enough; a greedy capture tries at most the length of the remaining path, all
    there is; the scan of a directory tree takes the depth as fuel, and is proved to return
    on every tree less deep; the readers of numbers, JSON and wire messages take the length
    of their text; the microtasks of the realtime process take as many turns as there are
    listeners left, proved enough; [chunk] as many as there are items, proved enough for a
    positive size, and to have no end otherwise. No theorem rests on fuel running out.

    ** What is not modelled

    Strings with code units above 255; keys such as [__proto__] of objects used as maps
    (except where a theorem is about them); timers, sockets and polling loops
    ([Queue.work], [Scheduler.start], heartbeats are events); callbacks and listeners that
    call back into their caller; observers, log sinks and warnings; the range errors of
    dates and fractions of milliseconds; floating point in the limiter beyond an arbitrary
    rounding; SQL beyond the statements issued, the order of rows a statement leaves
    open, statements that fail other than by a unique index, and the drivers; a second
    [start] of the realtime transport; the carriage return as a line end of an event
    stream; what application callbacks do, which are parameters; the schema builder of the
    migrator; the replication sources and the HTTP handlers of the live server, the leader
    election and the workers of the live client; the rendering library, of whose hooks only
    the effects are operations; type-level code. The packages left out are those that do
    I/O or wrap third-party code (runtime, CLI, bundling, content pipeline, model
    providers, hosting) and small libraries that generate text (storage's request signing,
    forms, feeds, search metadata, the query builder), which are next. *)
From Stdlib Require Export ZArith Lia Bool.
From Stdlib Require Export String Ascii.
From stdpp Require Export base decidable strings gmap list.

#[export] Set Warnings "-clear-no-such-hyp".

Declare Scope lesto_scope.
Delimit Scope lesto_scope with lesto.
#[global] Open Scope Z_scope.

(** ** Fallible code *)

(** A JavaScript call that may throw: the value it returns or the error it throws. *)
Inductive outcome (E A : Type) : Type :=
| Ok (a : A)
| Throw (e : E).
Arguments Ok {E A} a.
Arguments Throw {E A} e.

Definition outcome_bind {E A B} (m : outcome E A) (k : A -> outcome E B) : outcome E B :=
  match m with
  | Ok a => k a
  | Throw e => Throw e
  end.

#[export] Instance outcome_eq_dec {E A} `{!EqDecision E, !EqDecision A} : EqDecision (outcome E A).
Proof. solve_decision. Defined.

Notation "'let!' x ':=' m 'in' k" := (outcome_bind m (fun x => k))
  (at level 10, x pattern, m at level 100, k at level 200) : lesto_scope.
#[global] Open Scope lesto_scope.

(** ** Generic lemmas on lists *)

Section Lists.
Context {A B : Type}.

Lemma filter_negb_In (p : A -> bool) l x :
  In x (List.filter (fun y => negb (p y)) l) <-> In x l /\ p x = false.
Proof. rewrite filter_In, negb_true_iff. reflexivity. Qed.

Lemma filter_sub (p : A -> bool) l x : In x (List.filter p l) -> In x l.
Proof. by intros [? _]%filter_In. Qed.

Lemma existsb_false (p : A -> bool) l :
  existsb p l = false <-> forall x, In x l -> p x = false.
Proof.
  split.
  - intros H x Hx. destruct (p x) eqn:E; [|done].
    assert (existsb p l = true) by (apply existsb_exists; eauto). congruence.
  - induction l as [|a l IH]; simpl; intros H; [done|].
    rewrite (H a), IH; auto.
Qed.

Lemma NoDup_map_filter (f : A -> B) (p : A -> bool) l :
  List.NoDup (map f l) -> List.NoDup (map f (List.filter p l)).
Proof.
  induction l as [|a l IH]; simpl; intros H; [constructor|].
  inversion H as [|? ? Hn Hd]; subst.
  destruct (p a); simpl; [|auto].
  constructor; [|auto].
  rewrite in_map_iff in *. intros (x & Hx & Hin). apply Hn.
  exists x. split; [done|]. apply filter_In in Hin. tauto.
Qed.

Lemma NoDup_map_inj_in (f : A -> B) l x y :
  List.NoDup (map f l) -> In x l -> In y l -> f x = f y -> x = y.
Proof.
  induction l as [|a l IH]; simpl; intros H Hx Hy E; [done|].
  inversion H as [|? ? Hn Hd]; subst.
  destruct Hx as [<-|Hx], Hy as [<-|Hy]; [done| | |auto].
  - exfalso. apply Hn. rewrite E. by apply in_map.
  - exfalso. apply Hn. rewrite <- E. by apply in_map.
Qed.

Lemma map_filter_comm (f : A -> B) (p : A -> bool) (q : B -> bool) l :
  (forall x, In x l -> p x = q (f x)) ->
  map f (List.filter p l) = List.filter q (map f l).
Proof.
  induction l as [|a l IH]; simpl; intros H; [done|].
  rewrite <- (H a) by auto. destruct (p a); simpl; rewrite IH; auto.
Qed.
End Lists.

Lemma filter_none {A} (p : A -> bool) l : (forall x, In x l -> p x = false) -> List.filter p l = [].
Proof. induction l as [|a l IH]; simpl; intros H; [done|]. rewrite (H a) by (by left). auto. Qed.

(** *** Ends of lists *)

Lemma NoDup_snoc {A} (l : list A) x : List.NoDup l -> ~ In x l -> List.NoDup (l ++ [x]).
Proof.
  intros Hl Hx. apply (Permutation.Permutation_NoDup (l := x :: l)); [apply Permutation.Permutation_cons_append|by constructor].
Qed.

Lemma firstn_In {A} (l : list A) n x : In x (firstn n l) -> In x l.
Proof. intros H. rewrite <- (firstn_skipn n l). apply in_app_iff. by left. Qed.

Lemma skipn_In {A} (l : list A) n x : In x (skipn n l) -> In x l.
Proof. intros H. rewrite <- (firstn_skipn n l). apply in_app_iff. by right. Qed.

Lemma firstn_mono {A} (l : list A) n n' x : (n <= n')%nat -> In x (firstn n l) -> In x (firstn n' l).
Proof. intros Hn H. apply (firstn_In _ n). by rewrite firstn_firstn, Nat.min_l. Qed.

(** ** Automation *)

(** Split every boolean test of the context and the goal into the propositions it decides. *)
Ltac bools :=
  repeat match goal with
  | H : _ && _ = true |- _ => apply andb_true_iff in H; destruct H
  | H : _ || _ = false |- _ => apply orb_false_iff in H; destruct H
  | H : negb _ = true |- _ => apply negb_true_iff in H
  | H : negb _ = false |- _ => apply negb_false_iff in H
  | H : (_ =? _) = true |- _ => apply Z.eqb_eq in H
  | H : (_ =? _) = false |- _ => apply Z.eqb_neq in H
  | H : (_ <=? _) = true |- _ => apply Z.leb_le in H
  | H : (_ <=? _) = false |- _ => apply Z.leb_gt in H
  | H : (_ <? _) = true |- _ => apply Z.ltb_lt in H
  | H : (_ <? _) = false |- _ => apply Z.ltb_ge in H
  | H : String.eqb _ _ = true |- _ => apply String.eqb_eq in H
  | H : String.eqb _ _ = false |- _ => apply String.eqb_neq in H
  end.

(** Destruct the innermost test of the goal. *)
Ltac case_test :=
  match goal with
  | |- context [if ?b then _ else _] =>
      lazymatch b with
      | context [if _ then _ else _] => fail
      | _ => let E := fresh "Etest" in destruct b eqn:E
      end
  end.

Create HintDb lesto.
#[export] Hint Resolve NoDup_map_filter NoDup_snoc : lesto.
