(* ===== verification/JsString.v ===== *)
(** * JavaScript strings

    The [String.prototype] methods the packages call, on strings of code units below
    256, and the laws of [split] that the parsers rely on. *)
From S2P Require Import Prelude.
#[local] Open Scope string_scope.
#[local] Open Scope Z_scope.

(** [String.append] computes on constructors (stdpp keeps it folded). *)
#[global] Arguments String.append !_%_string _%_string / : simpl nomatch.

(** [s.split(sep)] for a one-character separator: never empty. *)
Fixpoint split (sep : ascii) (s : string) : list string :=
  match s with
  | EmptyString => [EmptyString]
  | String c s' =>
      if Ascii.eqb c sep then EmptyString :: split sep s'
      else match split sep s' with
           | [] => []
           | p :: ps => String c p :: ps
           end
  end.

(** [parts.join(sep)]. *)
Fixpoint join (sep : string) (parts : list string) : string :=
  match parts with
  | [] => EmptyString
  | [p] => p
  | p :: ps => String.append p (String.append sep (join sep ps))
  end.

(** [s.startsWith(prefix)]. *)
Fixpoint startsWith (prefix s : string) : bool :=
  match prefix, s with
  | EmptyString, _ => true
  | String a p, String b s' => Ascii.eqb a b && startsWith p s'
  | _, _ => false
  end.

Fixpoint has_char (c : ascii) (s : string) : bool :=
  match s with
  | EmptyString => false
  | String a s' => Ascii.eqb a c || has_char c s'
  end.

(** The part of [s] before the first [c] ([s.slice(0, s.indexOf(c))] when it occurs)
    and the part after it. *)
Fixpoint cut (c : ascii) (s : string) : option (string * string) :=
  match s with
  | EmptyString => None
  | String a s' =>
      if Ascii.eqb a c then Some (EmptyString, s')
      else match cut c s' with Some (x, y) => Some (String a x, y) | None => None end
  end.

(** [s.slice(n)]. *)
Fixpoint drop_chars (n : nat) (s : string) : string :=
  match n, s with
  | S n', String _ s' => drop_chars n' s'
  | _, _ => s
  end.

(** White space of [trim] and of [\s], below U+0100. *)
Definition is_space (c : ascii) : bool :=
  let n := nat_of_ascii c in
  ((9 <=? n) && (n <=? 13) || (n =? 32) || (n =? 160))%nat.

Fixpoint trim_start (s : string) : string :=
  match s with
  | String c s' => if is_space c then trim_start s' else s
  | EmptyString => EmptyString
  end.

Fixpoint trim_end (s : string) : string :=
  match s with
  | EmptyString => EmptyString
  | String c s' =>
      match trim_end s' with
      | EmptyString => if is_space c then EmptyString else String c EmptyString
      | t => String c t
      end
  end.

Definition trim (s : string) : string := trim_end (trim_start s).

(** [s.split(/\s+/)]; [run]: inside a run of white space already split on. *)
Fixpoint split_spaces (run : bool) (s : string) : list string :=
  match s with
  | EmptyString => [EmptyString]
  | String c s' =>
      if is_space c then
        if run then split_spaces true s' else EmptyString :: split_spaces true s'
      else match split_spaces false s' with
           | [] => []
           | p :: ps => String c p :: ps
           end
  end.

(** ** Laws *)

Fixpoint all_chars (p : ascii -> bool) (s : string) : bool :=
  match s with
  | EmptyString => true
  | String c s' => p c && all_chars p s'
  end.

Lemma compare_refl s : String.compare s s = Eq.
Proof.
  induction s as [|c s IH]; simpl; [done|]. unfold Ascii.compare. by rewrite N.compare_refl.
Qed.

Lemma append_nil_r s : String.append s EmptyString = s.
Proof. induction s as [|c s IH]; simpl; [done|by rewrite IH]. Qed.

Lemma append_assoc a b c : String.append (String.append a b) c = String.append a (String.append b c).
Proof. induction a as [|x a IH]; simpl; [done|by f_equal]. Qed.

Lemma length_append a b : String.length (String.append a b) = (String.length a + String.length b)%nat.
Proof. induction a as [|x a IH]; simpl; auto. Qed.

Lemma all_chars_app p a b : all_chars p (String.append a b) = all_chars p a && all_chars p b.
Proof. induction a as [|c a IH]; simpl; [done|]. by rewrite IH, andb_assoc. Qed.

Lemma all_chars_impl (p q : ascii -> bool) s :
  (forall c, p c = true -> q c = true) -> all_chars p s = true -> all_chars q s = true.
Proof.
  intros H. induction s as [|c s IH]; simpl; [done|]. intros [? ?]%andb_true_iff.
  apply andb_true_iff. auto.
Qed.

Lemma has_char_app c a b : has_char c (String.append a b) = has_char c a || has_char c b.
Proof. induction a as [|x a IH]; simpl; [done|]. by rewrite IH, orb_assoc. Qed.

Lemma has_char_all c s : has_char c s = negb (all_chars (fun a => negb (Ascii.eqb a c)) s).
Proof. induction s as [|x s IH]; simpl; [done|]. rewrite IH. by destruct (Ascii.eqb x c). Qed.

Lemma substring_app n a b : (n <= String.length a)%nat -> substring 0 n (String.append a b) = substring 0 n a.
Proof.
  revert n. induction a as [|c a IH]; intros n H; simpl in *.
  - assert (n = 0%nat) as -> by lia. by destruct b.
  - destruct n as [|n]; [done|]. rewrite IH by lia. done.
Qed.

Lemma substring_all s : substring 0 (String.length s) s = s.
Proof. induction s as [|c s IH]; simpl; [done|by rewrite IH]. Qed.

Lemma cut_app c a b :
  has_char c a = false -> cut c (String.append a (String c b)) = Some (a, b).
Proof.
  induction a as [|x a IH]; simpl; [by rewrite Ascii.eqb_refl|].
  intros [Hx Ha]%orb_false_iff. by rewrite Hx, IH.
Qed.

Lemma cut_none c s : cut c s = None <-> has_char c s = false.
Proof.
  induction s as [|x s IH]; simpl; [done|]. destruct (Ascii.eqb x c); simpl; [done|].
  destruct (cut c s) as [[? ?]|]; naive_solver.
Qed.

Lemma split_cons sep s : exists p ps, split sep s = p :: ps.
Proof.
  induction s as [|c s (p & ps & E)]; simpl; [eauto|]. destruct (Ascii.eqb c sep); [eauto|].
  rewrite E. eauto.
Qed.

Lemma split_none sep s : has_char sep s = false -> split sep s = [s].
Proof.
  induction s as [|c s IH]; simpl; [done|]. intros [E H]%orb_false_iff. by rewrite E, IH.
Qed.

Lemma split_app sep a b :
  has_char sep a = false -> split sep (String.append a (String sep b)) = a :: split sep b.
Proof.
  induction a as [|c a IH]; simpl; [by rewrite Ascii.eqb_refl|].
  intros [E H]%orb_false_iff. by rewrite E, IH.
Qed.

(** [split] undoes [join] on parts free of the separator. *)
Lemma split_join sep parts :
  parts <> [] -> Forall (fun p => has_char sep p = false) parts ->
  split sep (join (String sep EmptyString) parts) = parts.
Proof.
  intros Hn H. induction H as [|p ps Hp Hps IH]; [done|].
  destruct ps as [|q ps]; [by apply split_none|].
  change (split sep (String.append p (String sep (join (String sep EmptyString) (q :: ps)))) = p :: q :: ps).
  rewrite split_app by done. by rewrite IH.
Qed.

Lemma split_parts sep s : Forall (fun p => has_char sep p = false) (split sep s).
Proof.
  induction s as [|c s IH]; simpl; [by repeat constructor|].
  destruct (Ascii.eqb c sep) eqn:E; [by constructor|].
  destruct (split sep s) as [|p ps]; [done|]. inversion IH; subst.
  constructor; [simpl; by rewrite E|done].
Qed.

(** [join] undoes [split]. *)
Lemma join_split sep s : join (String sep EmptyString) (split sep s) = s.
Proof.
  induction s as [|c s IH]; simpl; [done|]. destruct (split_cons sep s) as (p & ps & E).
  rewrite E in *. destruct (Ascii.eqb c sep) eqn:Ec.
  - apply Ascii.eqb_eq in Ec as ->. simpl in *. by rewrite IH.
  - rewrite <- IH. by destruct ps.
Qed.

Definition no_space (s : string) : bool := all_chars (fun c => negb (is_space c)) s.

Lemma split_spaces_none run s :
  no_space s = true -> s <> EmptyString \/ run = false -> split_spaces run s = [s].
Proof.
  assert (H : forall s, no_space s = true -> split_spaces false s = [s]).
  { clear. intros s. induction s as [|c s IH]; simpl; [done|]. intros [E H]%andb_true_iff.
    apply negb_true_iff in E. by rewrite E, IH. }
  intros Hs [Hn| ->]; [|auto]. destruct run; [|auto]. destruct s as [|c s]; [done|].
  simpl in *. apply andb_true_iff in Hs as [E Hs]. apply negb_true_iff in E. by rewrite E, H.
Qed.

Lemma split_spaces_app run a b :
  a <> EmptyString -> no_space a = true ->
  split_spaces run (String.append a (String " " b)) = a :: split_spaces true b.
Proof.
  assert (H : forall a, no_space a = true ->
    split_spaces false (String.append a (String " " b)) = a :: split_spaces true b).
  { clear. intros a. induction a as [|c a IH]; simpl; [done|]. intros [E H]%andb_true_iff.
    apply negb_true_iff in E. by rewrite E, IH. }
  intros Hn Ha. destruct run; [|auto]. destruct a as [|c a]; [done|].
  simpl in *. apply andb_true_iff in Ha as [E Ha]. apply negb_true_iff in E. by rewrite E, H.
Qed.

(** A word: non-empty, no white space. *)
Definition word (s : string) : bool :=
  match s with EmptyString => false | _ => no_space s end.

Lemma wordE s : word s = true -> s <> EmptyString /\ no_space s = true.
Proof. by destruct s. Qed.

Lemma trim_end_app a b : word b = true -> trim_end (String.append a b) = String.append a b.
Proof.
  intros H. assert (E : trim_end b = b).
  { destruct b as [|c b]; [done|]. simpl in H. revert c H.
    induction b as [|d b IH]; intros c [Hc H]%andb_true_iff.
    - simpl. by rewrite (proj1 (negb_true_iff _) Hc).
    - change (trim_end (String c (String d b))) with
        (match trim_end (String d b) with
         | EmptyString => if is_space c then EmptyString else String c EmptyString
         | t => String c t end). by rewrite IH. }
  induction a as [|c a IH]; [done|]. simpl. rewrite IH.
  destruct (String.append a b) eqn:Eab; [|done].
  destruct a; simpl in Eab; [|done]. subst b. done.
Qed.

Lemma trim_start_word a b : word a = true -> trim_start (String.append a b) = String.append a b.
Proof.
  destruct a as [|c a]; [done|]. simpl. intros [Hc _]%andb_true_iff.
  by rewrite (proj1 (negb_true_iff _) Hc).
Qed.

(** Words joined by single spaces are what [trim] and [split(/\s+/)] give back. *)
Lemma split_words ws :
  ws <> [] -> Forall (fun w => word w = true) ws -> split_spaces false (trim (join " " ws)) = ws.
Proof.
  intros Hn H.
  assert (T : forall run, split_spaces run (join " " ws) = ws).
  { induction H as [|w ws Hw Hws IH]; [done|].
    apply wordE in Hw as [Hne Hw]. intros run. destruct ws as [|w' ws]; [by apply split_spaces_none; auto|].
    change (split_spaces run (String.append w (String " " (join " " (w' :: ws)))) = w :: w' :: ws).
    rewrite split_spaces_app by done. rewrite IH; done. }
  replace (trim (join " " ws)) with (join " " ws); [done|]. unfold trim.
  assert (E : exists a w, word w = true /\ join " " ws = String.append a w).
  { clear T. induction H as [|w ws Hw Hws IH]; [done|]. destruct ws as [|w' ws]; [by exists EmptyString, w|].
    destruct IH as (a & x & Hx & E); [done|].
    exists (String.append w (String.append " " a)), x. split; [done|].
    change (join " " (w :: w' :: ws)) with (String.append w (String.append " " (join " " (w' :: ws)))).
    by rewrite E, !append_assoc. }
  destruct E as (a & w & Hw & E). rewrite E. rewrite <- E.
  replace (trim_start (join " " ws)) with (join " " ws); [by rewrite E, trim_end_app|].
  inversion H as [|w1 ws1 Hw1 ?]; subst; [done|]. destruct ws1 as [|w2 ws1].
  - simpl. rewrite <- (append_nil_r w1). by rewrite trim_start_word.
  - change (join " " (w1 :: w2 :: ws1)) with (String.append w1 (String.append " " (join " " (w2 :: ws1)))).
    by rewrite trim_start_word.
Qed.
