(* ===== verification/JsMap.v ===== *)
(** * JavaScript maps

    A [Map] keyed by strings, in insertion order: the operations the stores use and
    their laws. *)
From S2P Require Import Prelude.

Section Maps.
Context {V : Type}.

(** A JavaScript [Map]: its entries in insertion order. *)
Definition JsMap : Type := list (string * V).

Definition map_get (k : string) (m : JsMap) : option (V) :=
  option_map snd (List.find (fun kv => String.eqb (fst kv) k) m).

Definition map_delete (k : string) (m : JsMap) : JsMap :=
  List.filter (fun kv => negb (String.eqb (fst kv) k)) m.

(** [Map.set] on an absent key appends; on a present one it keeps the position. *)
Definition map_set (k : string) (e : V) (m : JsMap) : JsMap :=
  if existsb (fun kv => String.eqb (fst kv) k) m then
    map (fun kv => if String.eqb (fst kv) k then (k, e) else kv) m
  else m ++ [(k, e)].

Implicit Types (m : JsMap) (k : string).

Lemma map_get_app k m m' :
  map_get k (m ++ m') = match map_get k m with Some e => Some e | None => map_get k m' end.
Proof.
  unfold map_get. induction m as [|[k0 e0] m IH]; simpl; [done|].
  destruct (String.eqb k0 k); [done|exact IH].
Qed.

Lemma map_get_delete k k' m :
  map_get k' (map_delete k m) = if String.eqb k' k then None else map_get k' m.
Proof.
  unfold map_get, map_delete. induction m as [|[k0 e0] m IH]; simpl; [by destruct (String.eqb k' k)|].
  destruct (String.eqb k0 k) eqn:E; simpl.
  - rewrite IH. bools. subst. rewrite (String.eqb_sym k k'). by destruct (String.eqb k' k).
  - destruct (String.eqb k0 k') eqn:E'; [|exact IH].
    bools. subst. apply String.eqb_neq in E. by rewrite E.
Qed.

Lemma map_set_fresh k e m : map_set k e (map_delete k m) = map_delete k m ++ [(k, e)].
Proof.
  unfold map_set. replace (existsb _ _) with false; [done|].
  symmetry. apply existsb_false. intros kv [_ H]%filter_negb_In. exact H.
Qed.

Lemma map_get_Some_In k e m : map_get k m = Some e -> In (k, e) m.
Proof.
  unfold map_get. destruct (List.find _ m) as [[k0 e0]|] eqn:E; [|done].
  apply List.find_some in E as [H Hk]. simpl in *. bools. intros [= <-]. by subst.
Qed.

Lemma map_get_In k e m : List.NoDup (map fst m) -> In (k, e) m -> map_get k m = Some e.
Proof.
  intros Hnd Hin. unfold map_get. destruct (List.find _ m) as [[k0 e0]|] eqn:E.
  - apply List.find_some in E as [H Hk]. simpl in *. bools. subst.
    pose proof (NoDup_map_inj_in fst m _ _ Hnd H Hin eq_refl) as [= ->]. done.
  - apply (List.find_none _ _) with (x := (k, e)) in E; [|done]. simpl in E.
    by rewrite String.eqb_refl in E.
Qed.

(** Filtering keeps or forgets an entry, and never changes one. *)
Lemma map_get_sub k e (p : string * V -> bool) m :
  List.NoDup (map fst m) ->
  map_get k (List.filter p m) = Some e <-> map_get k m = Some e /\ p (k, e) = true.
Proof.
  intros Hnd. split.
  - intros H%map_get_Some_In. apply filter_In in H as [H Hp]. split; [by apply map_get_In|done].
  - intros [H Hp]. apply map_get_In; [by apply NoDup_map_filter|].
    apply filter_In. split; [by apply map_get_Some_In|done].
Qed.

Lemma map_delete_NoDup k m : List.NoDup (map fst m) -> List.NoDup (map fst (map_delete k m)).
Proof. apply NoDup_map_filter. Qed.

Lemma map_append_NoDup k e m :
  List.NoDup (map fst m) -> List.NoDup (map fst (map_delete k m ++ [(k, e)])).
Proof.
  intros H. rewrite map_app. apply List.NoDup_app; [by apply map_delete_NoDup|repeat constructor; auto|].
  intros x (kv & <- & Hin)%in_map_iff [E|[]]. apply filter_negb_In in Hin as [_ Hk].
  simpl in E. rewrite <- E, String.eqb_refl in Hk. done.
Qed.

Lemma map_delete_length k m : (length (map_delete k m) <= length m)%nat.
Proof. unfold map_delete. apply List.filter_length_le. Qed.

(** A present key's deletion really shortens the map. *)
Lemma map_touch_length k e m :
  map_get k m = Some e -> (length (map_delete k m) < length m)%nat.
Proof.
  intros H%map_get_Some_In. unfold map_delete. induction m as [|a m IH]; [done|].
  destruct H as [->|H]; simpl.
  - rewrite String.eqb_refl. simpl. pose proof (map_delete_length k m). unfold map_delete in *. lia.
  - specialize (IH H). destruct (negb _); simpl; lia.
Qed.

Lemma skipn_sub (n : nat) (m : JsMap) x : In x (skipn n m) -> In x m.
Proof. intros H. rewrite <- (firstn_skipn n m). apply in_app_iff. by right. Qed.

Lemma NoDup_map_skipn (n : nat) (m : JsMap) :
  List.NoDup (map fst m) -> List.NoDup (map fst (skipn n m)).
Proof.
  intros H. rewrite <- (firstn_skipn n m), map_app in H. by apply List.NoDup_app_remove_l in H.
Qed.

Lemma map_get_None k m : map_get k m = None -> forall e, ~ In (k, e) m.
Proof.
  unfold map_get. destruct (List.find _ m) eqn:E; [done|]. intros _ e Hin.
  apply (List.find_none _ _ E) in Hin. simpl in Hin. by rewrite String.eqb_refl in Hin.
Qed.

Lemma map_has k m : existsb (fun kv => String.eqb (fst kv) k) m = bool_decide (is_Some (map_get k m)).
Proof.
  unfold map_get. induction m as [|[k0 e0] m IH]; simpl; [done|].
  destruct (String.eqb k0 k); simpl; [done|exact IH].
Qed.

Lemma map_get_set k k' e m :
  map_get k' (map_set k e m) = if String.eqb k' k then Some e else map_get k' m.
Proof.
  unfold map_set. rewrite map_has. case_bool_decide as Hk.
  - unfold map_get in *. induction m as [|[k0 e0] m IH]; simpl in *; [by destruct Hk|].
    destruct (String.eqb k0 k) eqn:E0; simpl.
    + apply String.eqb_eq in E0 as ->. rewrite (String.eqb_sym k' k).
      destruct (String.eqb k k') eqn:E1; [done|].
      clear IH Hk. induction m as [|[k1 e1] m IH]; simpl; [done|].
      destruct (String.eqb k1 k) eqn:E2; simpl.
      * apply String.eqb_eq in E2 as ->. by rewrite E1.
      * by destruct (String.eqb k1 k').
    + specialize (IH Hk). destruct (String.eqb k0 k') eqn:E1; [|exact IH].
      apply String.eqb_eq in E1 as ->. by rewrite E0.
  - rewrite map_get_app. assert (map_get k m = None) as Hn by (destruct (map_get k m); [by destruct Hk|done]).
    unfold map_get at 2. simpl. rewrite (String.eqb_sym k' k). destruct (String.eqb k k') eqn:E.
    + apply String.eqb_eq in E as <-. by rewrite Hn.
    + by destruct (map_get k' m).
Qed.

Lemma map_set_keys k e m :
  map fst (map_set k e m) = if bool_decide (is_Some (map_get k m)) then map fst m else map fst m ++ [k].
Proof.
  unfold map_set. rewrite map_has. case_bool_decide; [|by rewrite map_app].
  rewrite map_map. apply map_ext. intros [k0 e0]. simpl. destruct (String.eqb k0 k) eqn:E; [|done].
  apply String.eqb_eq in E. by subst.
Qed.

Lemma map_set_NoDup k e m : List.NoDup (map fst m) -> List.NoDup (map fst (map_set k e m)).
Proof.
  intros H. rewrite map_set_keys. case_bool_decide as Hk; [done|].
  apply List.NoDup_app; [done|repeat constructor; auto|]. intros x Hx [<-|[]].
  apply in_map_iff in Hx as ([k0 e0] & <- & Hin). apply Hk. simpl. by rewrite (map_get_In _ _ _ H Hin).
Qed.

Lemma map_set_length k e m :
  (length (map_set k e m) <= length m + 1)%nat.
Proof.
  rewrite <- (length_map fst), map_set_keys, <- (length_map fst m).
  case_bool_decide; rewrite ?length_app; simpl; lia.
Qed.
End Maps.
Arguments JsMap V : clear implicits.

Lemma map_set_absent {V} k (e : V) m : k ∉ map fst m -> map_set k e m = m ++ [(k, e)].
Proof.
  intros H. unfold map_set. replace (existsb _ m) with false; [done|].
  symmetry. apply existsb_false. intros [k0 e0] Hin. apply String.eqb_neq. simpl. intros ->.
  apply H, list_elem_of_In, in_map_iff. by exists (k, e0).
Qed.

Lemma fold_set_fresh {V} (fields acc : list (string * V)) :
  NoDup (map fst (acc ++ fields)) -> fold_left (fun m kv => map_set kv.1 kv.2 m) fields acc = (acc ++ fields).
Proof.
  revert acc. induction fields as [|[k v] fields IH]; intros acc H; simpl; [by rewrite app_nil_r|].
  assert (k ∉ map fst acc).
  { rewrite map_app in H. apply NoDup_app in H as (_ & H & _). intros Hk. by apply (H k Hk), elem_of_cons; left. }
  rewrite map_set_absent by done. rewrite IH; by rewrite <- app_assoc.
Qed.

(** Setting a key that is there, to a function of its value: the entry changes in place. *)
Lemma map_set_update {V} k (f : V -> V) (e : V) m :
  List.NoDup (map fst m) -> map_get k m = Some e ->
  map_set k (f e) m = map (fun kv => if String.eqb (fst kv) k then (fst kv, f (snd kv)) else kv) m.
Proof.
  intros Hn He. unfold map_set. rewrite map_has, He. rewrite bool_decide_eq_true_2 by (by eexists).
  apply map_ext_in. intros [k0 e0] Hin. simpl. destruct (String.eqb_spec k0 k) as [->|]; [|done].
  rewrite (map_get_In _ _ _ Hn Hin) in He. by injection He as <-.
Qed.
