(* ===== verification/JsTime.v ===== *)
(** * Time strings

    The part of the JavaScript [Date] that the queue's clock helpers
    ([packages/queue/src/time.ts]) rely on: the calendar of ECMAScript
    (DayFromYear, YearFromTime, MonthFromTime, DateFromTime), [toISOString],
    and the ordering of its results. *)
From S2P Require Import Prelude.

Definition msPerDay : Z := 86400000.

(** ** The ECMAScript calendar *)

Definition DayFromYear (y : Z) : Z :=
  365 * (y - 1970) + (y - 1969) / 4 - (y - 1901) / 100 + (y - 1601) / 400.

(** The year [y] with [DayFromYear y <= d < DayFromYear (y + 1)]. *)
Definition YearFromDay (d : Z) : Z :=
  let y := 1970 + d * 400 / 146097 in
  if d <? DayFromYear y then y - 1
  else if DayFromYear (y + 1) <=? d then y + 1
  else y.

Definition isLeap (y : Z) : bool := DayFromYear (y + 1) - DayFromYear y =? 366.

(** Days of the year before month [m] (0-based). *)
Definition DaysBeforeMonth (leap : bool) (m : Z) : Z :=
  let l := if leap then 1 else 0 in
  match m with
  | 0 => 0 | 1 => 31 | 2 => 59 + l | 3 => 90 + l | 4 => 120 + l | 5 => 151 + l
  | 6 => 181 + l | 7 => 212 + l | 8 => 243 + l | 9 => 273 + l | 10 => 304 + l
  | _ => 334 + l
  end.

Fixpoint month_search (leap : bool) (k : nat) (n : Z) : Z :=
  match k with
  | O => 0
  | S k' => if DaysBeforeMonth leap (Z.of_nat k) <=? n then Z.of_nat k
            else month_search leap k' n
  end.

Definition MonthFromDayInYear (leap : bool) (n : Z) : Z := month_search leap 11 n.

(** ** Formatting *)

Definition digit (n : Z) : ascii := ascii_of_nat (48 + Z.to_nat (n mod 10)).

(** [pad k n]: the last [k] decimal digits of [n], leading zeros kept. *)
Fixpoint pad (k : nat) (n : Z) : string :=
  match k with
  | O => EmptyString
  | S k' => String (digit (n / 10 ^ Z.of_nat k')) (pad k' n)
  end.

Definition isoYear (y : Z) : string :=
  if (0 <=? y) && (y <=? 9999) then pad 4 y
  else String.append (if y <? 0 then "-" else "+") (pad 6 (Z.abs y)).

(** [Date.prototype.toISOString] of the time value [t] (epoch milliseconds). *)
Definition toISOString (t : Z) : string :=
  let d := t / msPerDay in
  let ms := t mod msPerDay in
  let y := YearFromDay d in
  let n := d - DayFromYear y in
  let m := MonthFromDayInYear (isLeap y) n in
  let dt := n - DaysBeforeMonth (isLeap y) m + 1 in
  String.append (isoYear y) (String.append "-" (String.append (pad 2 (m + 1))
  (String.append "-" (String.append (pad 2 dt) (String.append "T"
  (String.append (pad 2 (ms / 3600000)) (String.append ":"
  (String.append (pad 2 (ms / 60000 mod 60)) (String.append ":"
  (String.append (pad 2 (ms / 1000 mod 60)) (String.append "."
  (String.append (pad 3 (ms mod 1000)) "Z")))))))))))).

(** ** [time.ts] *)

Definition nowIso (clock : Z) : string := toISOString clock.

Definition isoAfter (clock ms : Z) : string := toISOString (clock + ms).

Example iso_epoch : toISOString 0 = "1970-01-01T00:00:00.000Z"%string.
Proof. reflexivity. Qed.

Example iso_leap : toISOString 1709210096789 = "2024-02-29T12:34:56.789Z"%string.
Proof. reflexivity. Qed.

Example iso_far : toISOString 253402300800000 = "+010000-01-01T00:00:00.000Z"%string.
Proof. reflexivity. Qed.

Example iso_year_zero : toISOString (-62167219200001) = "-000001-12-31T23:59:59.999Z"%string.
Proof. reflexivity. Qed.

Lemma DayFromYear_step y : 365 <= DayFromYear (y + 1) - DayFromYear y <= 366.
Proof. unfold DayFromYear. Z.to_euclidean_division_equations. lia. Qed.

Lemma YearFromDay_spec d :
  DayFromYear (YearFromDay d) <= d < DayFromYear (YearFromDay d + 1).
Proof.
  unfold YearFromDay.
  assert (Hlo : DayFromYear (1970 + d * 400 / 146097 - 1) <= d).
  { unfold DayFromYear. Z.to_euclidean_division_equations. lia. }
  assert (Hhi : d < DayFromYear (1970 + d * 400 / 146097 + 2)).
  { unfold DayFromYear. Z.to_euclidean_division_equations. lia. }
  set (y := 1970 + d * 400 / 146097) in *.
  repeat case_test; bools.
  - replace (y - 1 + 1) with y by lia. lia.
  - replace (y + 1 + 1) with (y + 2) by lia. lia.
  - lia.
Qed.

Lemma YearFromDay_mono d d' : d <= d' -> YearFromDay d <= YearFromDay d'.
Proof.
  intros H. pose proof (YearFromDay_spec d). pose proof (YearFromDay_spec d').
  destruct (Z_le_gt_dec (YearFromDay d) (YearFromDay d')) as [|Hgt]; [done|exfalso].
  assert (DayFromYear (YearFromDay d' + 1) <= DayFromYear (YearFromDay d)); [|lia].
  unfold DayFromYear. Z.to_euclidean_division_equations. lia.
Qed.

Lemma day_in_year d : 0 <= d - DayFromYear (YearFromDay d) < 366.
Proof.
  pose proof (YearFromDay_spec d). pose proof (DayFromYear_step (YearFromDay d)). lia.
Qed.

Lemma DaysBeforeMonth_cases leap m :
  0 <= m <= 11 ->
  DaysBeforeMonth leap m = nth (Z.to_nat m)
    (if leap then [0;31;60;91;121;152;182;213;244;274;305;335]
     else [0;31;59;90;120;151;181;212;243;273;304;334]) 0.
Proof.
  intros H. destruct leap;
    (assert (m = 0 \/ m = 1 \/ m = 2 \/ m = 3 \/ m = 4 \/ m = 5 \/ m = 6 \/ m = 7 \/ m = 8
      \/ m = 9 \/ m = 10 \/ m = 11) as HH by lia;
     repeat (destruct HH as [->|HH]; [reflexivity|]); subst; reflexivity).
Qed.

Lemma DaysBeforeMonth_step leap m :
  0 <= m <= 10 -> 28 <= DaysBeforeMonth leap (m + 1) - DaysBeforeMonth leap m <= 31.
Proof.
  intros H. rewrite !DaysBeforeMonth_cases by lia.
  assert (m = 0 \/ m = 1 \/ m = 2 \/ m = 3 \/ m = 4 \/ m = 5 \/ m = 6 \/ m = 7 \/ m = 8
      \/ m = 9 \/ m = 10) as HH by lia.
  repeat (destruct HH as [->|HH]; [destruct leap; simpl; lia|]); subst;
    destruct leap; simpl; lia.
Qed.

Lemma DaysBeforeMonth_mono leap m m' :
  0 <= m -> m <= m' <= 11 -> DaysBeforeMonth leap m <= DaysBeforeMonth leap m'.
Proof.
  intros Hm [H1 H2]. revert H2.
  apply (Zlt_lower_bound_ind (fun m' => m' <= 11 -> DaysBeforeMonth leap m <= DaysBeforeMonth leap m') m); [|done].
  intros x IH Hx Hle. destruct (decide (x = m)) as [->|]; [lia|].
  pose proof (IH (x - 1) ltac:(lia) ltac:(lia)).
  pose proof (DaysBeforeMonth_step leap (x - 1) ltac:(lia)) as Hs.
  replace (x - 1 + 1) with x in Hs by lia. lia.
Qed.

Lemma month_search_spec leap k n :
  0 <= n -> Z.of_nat k <= 11 ->
  let m := month_search leap k n in
  0 <= m <= Z.of_nat k /\ DaysBeforeMonth leap m <= n /\
  (m < Z.of_nat k -> n < DaysBeforeMonth leap (m + 1)).
Proof.
  intros Hn. induction k as [|k IH]; intros Hk; cbn -[DaysBeforeMonth Z.of_nat].
  - cbn. lia.
  - case_test; bools; [cbn -[DaysBeforeMonth Z.of_nat]; lia|].
    destruct (IH ltac:(lia)) as (Hm & Hlo & Hhi). repeat split; [lia|lia|done|].
    intros Hlt. destruct (decide (month_search leap k n < Z.of_nat k)); [auto|].
    replace (month_search leap k n + 1) with (Z.of_nat (S k)) by lia. done.
Qed.

Lemma MonthFromDayInYear_spec leap n :
  0 <= n -> let m := MonthFromDayInYear leap n in
  0 <= m <= 11 /\ DaysBeforeMonth leap m <= n /\ (m < 11 -> n < DaysBeforeMonth leap (m + 1)).
Proof. intros H. apply (month_search_spec leap 11 n H). lia. Qed.

(** ** Lexicographic comparison *)

Definition lex (c k : comparison) : comparison :=
  match c with Eq => k | Lt => Lt | Gt => Gt end.

Lemma lex_ext c k k' : (c = Eq -> k = k') -> lex c k = lex c k'.
Proof. destruct c; simpl; auto. Qed.

Lemma lex_assoc c k k' : lex (lex c k) k' = lex c (lex k k').
Proof. by destruct c. Qed.

Lemma compare_app a a' b b' :
  String.length a = String.length a' ->
  String.compare (String.append a b) (String.append a' b') =
  lex (String.compare a a') (String.compare b b').
Proof.
  revert a'. induction a as [|c a IH]; intros [|c' a'] H; try done.
  injection H as H. simpl. destruct (Ascii.compare c c'); simpl; auto.
Qed.

Lemma lex_div_mod k x y :
  0 < k -> lex (x / k ?= y / k) (x mod k ?= y mod k) = (x ?= y).
Proof.
  intros Hk. pose proof (Z.div_mod x k ltac:(lia)). pose proof (Z.div_mod y k ltac:(lia)).
  pose proof (Z.mod_pos_bound x k Hk). pose proof (Z.mod_pos_bound y k Hk).
  destruct (Z.compare_spec (x / k) (y / k)) as [E|E|E]; simpl.
  - rewrite E in *. destruct (Z.compare_spec (x mod k) (y mod k)); symmetry;
      [apply Z.compare_eq_iff|apply Z.compare_lt_iff|apply Z.compare_gt_iff]; lia.
  - symmetry. apply Z.compare_lt_iff. nia.
  - symmetry. apply Z.compare_gt_iff. nia.
Qed.

Lemma digit_compare x y :
  0 <= x < 10 -> 0 <= y < 10 -> Ascii.compare (digit x) (digit y) = (x ?= y).
Proof.
  intros Hx Hy.
  assert (x = 0 \/ x = 1 \/ x = 2 \/ x = 3 \/ x = 4 \/ x = 5 \/ x = 6 \/ x = 7 \/ x = 8 \/ x = 9) as HH by lia.
  assert (y = 0 \/ y = 1 \/ y = 2 \/ y = 3 \/ y = 4 \/ y = 5 \/ y = 6 \/ y = 7 \/ y = 8 \/ y = 9) as HH' by lia.
  repeat (destruct HH as [->|HH]; [repeat (destruct HH' as [->|HH']; [reflexivity|]); subst; reflexivity|]);
  subst; repeat (destruct HH' as [->|HH']; [reflexivity|]); subst; reflexivity.
Qed.

Lemma digit_mod x : digit x = digit (x mod 10).
Proof. unfold digit. by rewrite Zmod_mod. Qed.

Lemma pad_length k n : String.length (pad k n) = k.
Proof. induction k; simpl; auto. Qed.

Lemma pad_compare_mod k x y :
  String.compare (pad k x) (pad k y) =
  (x mod 10 ^ Z.of_nat k ?= y mod 10 ^ Z.of_nat k).
Proof.
  induction k as [|k IH]; [cbn; by rewrite !Z.mod_1_r|].
  assert (Hp : 0 < 10 ^ Z.of_nat k) by (apply Z.pow_pos_nonneg; lia).
  cbn [pad String.compare]. rewrite IH.
  rewrite (digit_mod (x / _)), (digit_mod (y / _)), digit_compare by (apply Z.mod_pos_bound; lia).
  change (lex (x / 10 ^ Z.of_nat k mod 10 ?= y / 10 ^ Z.of_nat k mod 10)
    (x mod 10 ^ Z.of_nat k ?= y mod 10 ^ Z.of_nat k) = (x mod 10 ^ Z.of_nat (S k) ?= y mod 10 ^ Z.of_nat (S k))).
  rewrite <- (lex_div_mod (10 ^ Z.of_nat k) (x mod 10 ^ Z.of_nat (S k))) by done.
  replace (10 ^ Z.of_nat (S k)) with (10 ^ Z.of_nat k * 10) by (rewrite Nat2Z.inj_succ, Z.pow_succ_r; lia).
  rewrite !Z.rem_mul_r by lia.
  rewrite !(Z.mul_comm (10 ^ Z.of_nat k)), !Z.div_add, !(Z.div_small (_ mod _)), !Z.mod_add, !Zmod_mod
    by (lia || apply Z.mod_pos_bound; lia).
  done.
Qed.

Lemma pad_compare k x y :
  0 <= x < 10 ^ Z.of_nat k -> 0 <= y < 10 ^ Z.of_nat k ->
  String.compare (pad k x) (pad k y) = (x ?= y).
Proof. intros. rewrite pad_compare_mod, !Z.mod_small; auto. Qed.

(** ** The order of the strings is the order of time *)

(** The time values whose ISO string has a four-digit year (years 0 to 9999). *)
Definition fourDigitYear (t : Z) : Prop := -62167219200000 <= t < 253402300800000.

Lemma fourDigitYear_year t : fourDigitYear t -> 0 <= YearFromDay (t / msPerDay) <= 9999.
Proof.
  intros [Hl Hh]. assert (-719528 <= t / msPerDay <= 2932896) as [H1 H2].
  { unfold msPerDay. Z.to_euclidean_division_equations. lia. }
  split.
  - apply (YearFromDay_mono (-719528)) in H1. exact H1.
  - apply YearFromDay_mono in H2. exact H2.
Qed.

Lemma compare_shift a x y : (x + a ?= y + a) = (x ?= y).
Proof. destruct (Z.compare_spec x y), (Z.compare_spec (x + a) (y + a)); auto; lia. Qed.

Lemma month_date_lex leap n n' :
  0 <= n -> 0 <= n' ->
  let m := MonthFromDayInYear leap n in let m' := MonthFromDayInYear leap n' in
  lex (m + 1 ?= m' + 1)
      (n - DaysBeforeMonth leap m + 1 ?= n' - DaysBeforeMonth leap m' + 1) = (n ?= n').
Proof.
  intros Hn Hn' m m'.
  destruct (MonthFromDayInYear_spec leap n Hn) as (R & L & U).
  destruct (MonthFromDayInYear_spec leap n' Hn') as (R' & L' & U'). fold m in R, L, U. fold m' in R', L', U'. clearbody m m'.
  rewrite compare_shift. destruct (Z.compare_spec m m') as [E|E|E]; simpl.
  - rewrite E, compare_shift. unfold Z.sub. apply compare_shift.
  - symmetry. apply Z.compare_lt_iff.
    pose proof (DaysBeforeMonth_mono leap (m + 1) m' ltac:(lia) ltac:(lia)). lia.
  - symmetry. apply Z.compare_gt_iff.
    pose proof (DaysBeforeMonth_mono leap (m' + 1) m ltac:(lia) ltac:(lia)). lia.
Qed.

Lemma year_day_lex d d' :
  lex (YearFromDay d ?= YearFromDay d')
      (d - DayFromYear (YearFromDay d) ?= d' - DayFromYear (YearFromDay d')) = (d ?= d').
Proof.
  destruct (Z.compare_spec (YearFromDay d) (YearFromDay d')) as [E|E|E]; simpl.
  - rewrite E. unfold Z.sub. apply compare_shift.
  - symmetry. apply Z.compare_lt_iff. destruct (Z_lt_le_dec d d') as [|H]; [done|].
    apply YearFromDay_mono in H. lia.
  - symmetry. apply Z.compare_gt_iff. destruct (Z_lt_le_dec d' d) as [|H]; [lia|].
    apply YearFromDay_mono in H. lia.
Qed.

Lemma time_of_day_lex x y :
  lex (x / 3600000 ?= y / 3600000)
    (lex (x / 60000 mod 60 ?= y / 60000 mod 60)
       (lex (x / 1000 mod 60 ?= y / 1000 mod 60) (x mod 1000 ?= y mod 1000))) = (x ?= y).
Proof.
  replace (x / 3600000) with (x / 60000 / 60) by (rewrite Z.div_div; [done|lia|lia]).
  replace (y / 3600000) with (y / 60000 / 60) by (rewrite Z.div_div; [done|lia|lia]).
  rewrite <- lex_assoc, lex_div_mod by lia.
  replace (x / 60000) with (x / 1000 / 60) by (rewrite Z.div_div; [done|lia|lia]).
  replace (y / 60000) with (y / 1000 / 60) by (rewrite Z.div_div; [done|lia|lia]).
  rewrite <- lex_assoc, !lex_div_mod by lia. done.
Qed.

(** toISOString sorts chronologically: inside the four-digit years, comparing two
    ISO strings byte by byte gives the order of the instants. *)
Lemma toISOString_compare t t' :
  fourDigitYear t -> fourDigitYear t' ->
  String.compare (toISOString t) (toISOString t') = (t ?= t').
Proof.
  intros Ht Ht'.
  pose proof (fourDigitYear_year t Ht) as Hy. pose proof (fourDigitYear_year t' Ht') as Hy'.
  rewrite <- (lex_div_mod msPerDay t t') by (unfold msPerDay; lia).
  rewrite <- year_day_lex.
  rewrite <- (time_of_day_lex (t mod msPerDay)).
  unfold toISOString.
  pose proof (Z.mod_pos_bound t msPerDay ltac:(unfold msPerDay; lia)) as Hm.
  pose proof (Z.mod_pos_bound t' msPerDay ltac:(unfold msPerDay; lia)) as Hm'.
  pose proof (day_in_year (t / msPerDay)) as Hn.
  pose proof (day_in_year (t' / msPerDay)) as Hn'.
  set (d := t / msPerDay) in *. set (d' := t' / msPerDay) in *.
  set (ms := t mod msPerDay) in *. set (ms' := t' mod msPerDay) in *.
  unfold msPerDay in Hm, Hm'.
  assert (Hiso : forall y, 0 <= y <= 9999 -> isoYear y = pad 4 y).
  { intros y Hyy. unfold isoYear.
    replace ((0 <=? y) && (y <=? 9999)) with true; [done|].
    symmetry. apply andb_true_iff. split; apply Z.leb_le; lia. }
  rewrite !Hiso by done.
  assert (Hdt : forall l n, 0 <= n < 366 ->
    0 <= MonthFromDayInYear l n + 1 < 10 ^ Z.of_nat 2 /\
    0 <= n - DaysBeforeMonth l (MonthFromDayInYear l n) + 1 < 10 ^ Z.of_nat 2).
  { intros l n Hln. destruct (MonthFromDayInYear_spec l n ltac:(lia)) as (R & L & U).
    change (10 ^ Z.of_nat 2) with 100. split; [lia|].
    destruct (decide (MonthFromDayInYear l n < 11)) as [Hlt|Hge].
    - pose proof (DaysBeforeMonth_step l (MonthFromDayInYear l n) ltac:(lia)).
      specialize (U Hlt). lia.
    - replace (MonthFromDayInYear l n) with 11 in * by lia.
      destruct l; cbn in *; lia. }
  destruct (Hdt (isLeap (YearFromDay d)) _ Hn) as [Hm1 Hd1].
  destruct (Hdt (isLeap (YearFromDay d')) _ Hn') as [Hm1' Hd1'].
  rewrite !compare_app by (rewrite ?pad_length; reflexivity).
  rewrite (pad_compare 4) by (change (10 ^ Z.of_nat 4) with 10000; lia).
  rewrite !(pad_compare 2) by (done || (change (10 ^ Z.of_nat 2) with 100; Z.to_euclidean_division_equations; lia)).
  rewrite (pad_compare 3) by (change (10 ^ Z.of_nat 3) with 1000; Z.to_euclidean_division_equations; lia).
  change (String.compare "-" "-") with Eq. change (String.compare "T" "T") with Eq.
  change (String.compare ":" ":") with Eq. change (String.compare "." ".") with Eq.
  change (String.compare "Z" "Z") with Eq. cbn [lex].
  rewrite lex_assoc. apply lex_ext. intros Ey%Z.compare_eq.
  rewrite <- lex_assoc. rewrite Ey in *.
  rewrite (month_date_lex _ _ _ (proj1 Hn) (proj1 Hn')).
  apply lex_ext. intros _. repeat (apply lex_ext; intros _).
  by destruct (_ ?= _).
Qed.

Lemma isoYear_late y : 9999 < y -> exists s, isoYear y = String "+" s.
Proof.
  intros H. unfold isoYear. replace (y <=? 9999) with false by lia. rewrite andb_false_r.
  replace (y <? 0) with false by lia. eauto.
Qed.

(** Past year 9999 the string starts with a sign, and sorts before every four-digit year. *)
Lemma toISOString_late t t' :
  fourDigitYear t -> 253402300800000 <= t' ->
  String.compare (toISOString t') (toISOString t) = Lt.
Proof.
  intros Ht Ht'.
  assert (Hy : 9999 < YearFromDay (t' / msPerDay)).
  { assert (2932897 <= t' / msPerDay) as H%YearFromDay_mono
      by (unfold msPerDay; Z.to_euclidean_division_equations; lia).
    change (YearFromDay 2932897) with 10000 in H. lia. }
  pose proof (fourDigitYear_year t Ht) as Hy'.
  unfold toISOString. cbv zeta. destruct (isoYear_late _ Hy) as [s ->].
  unfold isoYear at 1. replace (0 <=? _) with true by lia. replace (_ <=? 9999) with true by lia.
  cbn [andb]. cbn [pad String.append String.compare].
  set (n := YearFromDay (t / msPerDay) / 10 ^ Z.of_nat 3).
  rewrite (digit_mod n). pose proof (Z.mod_pos_bound n 10 ltac:(lia)).
  assert (n mod 10 = 0 \/ n mod 10 = 1 \/ n mod 10 = 2 \/ n mod 10 = 3 \/ n mod 10 = 4 \/
    n mod 10 = 5 \/ n mod 10 = 6 \/ n mod 10 = 7 \/ n mod 10 = 8 \/ n mod 10 = 9) as HH by lia.
  repeat (destruct HH as [->|HH]; [reflexivity|]). rewrite HH. reflexivity.
Qed.

(** Fact: ISO-8601 strings sort chronologically: for instants in the years 0 to 9999,
    comparing [nowIso] deadlines as text, as the SQL does, is comparing the instants. *)
Theorem nowIso_chronological t t' :
  fourDigitYear t -> fourDigitYear t' ->
  String.compare (nowIso t) (nowIso t') = (t ?= t').
Proof. apply toISOString_compare. Qed.

Lemma nowIso_chronological_witness :
  String.compare (nowIso 951782399999) (nowIso 951782400000) = Lt.
Proof.
  apply (nowIso_chronological 951782399999 951782400000); unfold fourDigitYear; lia.
Defined.
