(* ===== verification/Sql.v ===== *)
(** * SQL tables

    The semantics of the single-table statements the packages under
    [packages/] issue, on a table held as the list of its rows in rowid order:
    [UPDATE ... WHERE], [DELETE ... WHERE] (both with the driver's [changes]
    count), [SELECT ... ORDER BY ... LIMIT], comparisons with NULL. *)
From S2P Require Import Prelude.

(** ** Comparisons: a NULL operand makes the condition unknown, so the row is not selected *)

Definition sql_lt (a : option string) (b : string) : bool :=
  match a with Some x => String.ltb x b | None => false end.

Definition sql_eq (a b : option string) : bool :=
  match a, b with Some x, Some y => String.eqb x y | _, _ => false end.

Definition is_not_null {A} (a : option A) : bool :=
  match a with Some _ => true | None => false end.

Section Statements.
Context {R : Type}.

(** [UPDATE t SET f WHERE p]: the new table and [changes]. *)
Definition update_where (p : R -> bool) (f : R -> R) (t : list R) : list R * Z :=
  (map (fun r => if p r then f r else r) t, Z.of_nat (length (List.filter p t))).

(** [DELETE FROM t WHERE p]. *)
Definition delete_where (p : R -> bool) (t : list R) : list R * Z :=
  (List.filter (fun r => negb (p r)) t, Z.of_nat (length (List.filter p t))).

(** [ORDER BY ... LIMIT 1] over already filtered rows: the first row of the order. *)
Fixpoint first_by (before : R -> R -> bool) (t : list R) : option R :=
  match t with
  | [] => None
  | r :: t' =>
      match first_by before t' with
      | None => Some r
      | Some s => if before s r then Some s else Some r
      end
  end.

(** [ORDER BY]: stable insertion sort by the strict order [before]. *)
Fixpoint insert_by (before : R -> R -> bool) (x : R) (t : list R) : list R :=
  match t with
  | [] => [x]
  | r :: t' => if before r x then r :: insert_by before x t' else x :: t
  end.

Definition order_by (before : R -> R -> bool) (t : list R) : list R :=
  fold_right (insert_by before) [] t.

Lemma In_update p f t r :
  In r (fst (update_where p f t)) <->
  exists r0, In r0 t /\ r = if p r0 then f r0 else r0.
Proof. simpl. rewrite in_map_iff. firstorder. Qed.

Lemma In_delete p t r :
  In r (fst (delete_where p t)) <-> In r t /\ p r = false.
Proof. apply filter_negb_In. Qed.

(** An UPDATE that leaves a column alone leaves its list of values alone. *)
Lemma map_update {B} (g : R -> B) p f t :
  (forall r, g (f r) = g r) -> map g (fst (update_where p f t)) = map g t.
Proof.
  intros Hg. simpl. rewrite map_map. apply map_ext. intros r.
  destruct (p r); auto.
Qed.

Lemma update_none p f t :
  (forall r, In r t -> p r = false) -> update_where p f t = (t, 0).
Proof.
  intros H. unfold update_where. f_equal.
  - rewrite <- (map_id t) at 2. apply map_ext_in. intros r Hr. by rewrite H.
  - replace (List.filter p t) with (@nil R); [done|].
    symmetry. induction t as [|a t IH]; simpl; [done|].
    rewrite H by (left; done). apply IH. intros; apply H; by right.
Qed.

Lemma changes_pos p f t :
  (snd (update_where p f t) >? 0) = existsb p t.
Proof.
  simpl. induction t as [|a t IH]; simpl; [done|].
  destruct (p a); simpl; done.
Qed.

Lemma delete_changes_zero p t :
  (snd (delete_where p t) =? 0) = negb (existsb p t).
Proof.
  simpl. induction t as [|a t IH]; simpl; [done|].
  destruct (p a); simpl; done.
Qed.

Lemma first_by_None before t : first_by before t = None <-> t = [].
Proof.
  destruct t as [|r t]; simpl; [done|].
  destruct (first_by before t) as [s|]; [destruct (before s r)|]; split; done.
Qed.

Lemma first_by_In before t r : first_by before t = Some r -> In r t.
Proof.
  revert r. induction t as [|a t IH]; simpl; intros r H; [done|].
  destruct (first_by before t) as [s|]; [|injection H; auto].
  destruct (before s a); injection H as <-; auto.
Qed.

(** The row returned is minimal, whenever the order is a strict weak order. *)
Lemma first_by_least before t r :
  (forall a b c, before a b = false -> before b c = false -> before a c = false) ->
  (forall a b, before a b = true -> before b a = false) ->
  first_by before t = Some r -> forall s, In s t -> before s r = false.
Proof.
  intros Htr Hasym. revert r. induction t as [|a t IH]; simpl; intros r H s Hs; [done|].
  assert (Hirr : forall x, before x x = false).
  { intros x. destruct (before x x) eqn:E; [|done]. pose proof (Hasym _ _ E). congruence. }
  destruct (first_by before t) as [m|] eqn:Em.
  - destruct (before m a) eqn:Ema; injection H as <-; destruct Hs as [<-|Hs]; auto.
    eapply Htr; [eapply IH; eauto|done].
  - injection H as <-. apply first_by_None in Em. subst t. destruct Hs as [<-|[]]; auto.
Qed.

Lemma insert_by_In before x t y : In y (insert_by before x t) <-> y = x \/ In y t.
Proof.
  induction t as [|a t IH]; simpl; [firstorder|].
  destruct (before a x); simpl; rewrite ?IH; firstorder.
Qed.

Lemma order_by_In before t y : In y (order_by before t) <-> In y t.
Proof.
  induction t as [|a t IH]; simpl; [done|]. rewrite insert_by_In, IH. firstorder.
Qed.
End Statements.

