(* ===== verification/Json.v ===== *)
(** * JSON

    The platform's JSON codec, as the packages use it: [JSON.stringify] to store a
    value in a TEXT column, [JSON.parse] to read it back. *)
From S2P Require Import Prelude.

(** [json_parse] is [None] where [JSON.parse] throws a SyntaxError. *)
Class JsonCodec (Json : Type) := {
  json_stringify : Json -> string;
  json_parse : string -> option Json;
  json_null : Json;
  json_empty_object : Json
}.

(** What the packages rely on: a JSON value survives the round trip. *)
Class JsonRoundTrip (Json : Type) `{!JsonCodec Json} : Prop :=
  json_parse_stringify : forall v, json_parse (json_stringify v) = Some v.
