(* ===== verification/Queue.v ===== *)
(** * The durable job queue: data and operations

    [packages/queue/src/queue.ts], one definition per method of [Queue]. A
    method takes the database it runs on and one time value per clock reading,
    and returns the database it leaves. *)
From S2P Require Import Prelude Json JsTime Sql.

(** ** Vocabulary ([packages/queue/src/types.ts]) *)

Inductive JobStatus := Blocked | Ready | Running | Done | Failed.

#[export] Instance JobStatus_eq_dec : EqDecision JobStatus.
Proof. solve_decision. Defined.

Definition status_is (a b : JobStatus) : bool := bool_decide (a = b).

Inductive BatchState := Pending | Completed | BatchFailed.

Inductive RunOutcome := ODone | ORetry | OFailed.

(** A row of [lesto_jobs]. *)
Record Row := mkRow {
  row_id : Z;
  row_queue : string;
  row_name : string;
  row_payload : string;
  row_status : JobStatus;
  row_priority : Z;
  row_attempts : Z;
  row_max_attempts : Z;
  row_run_at : string;
  row_locked_until : option string;
  row_last_error : option string;
  row_batch_id : option Z;
  row_created_at : string;
  row_updated_at : string;
  row_finished_at : option string
}.

(** A row of [lesto_job_batches]. *)
Record BatchRow := mkBatchRow {
  b_id : Z;
  b_name : string;
  b_total : Z;
  b_created_at : string
}.

(** The three tables, [lesto_job_deps] as pairs [(job_id, depends_on_id)], and the
    two AUTOINCREMENT counters. *)
Record DB := mkDB {
  jobs : list Row;
  batches : list BatchRow;
  deps : list (Z * Z);
  next_job_id : Z;
  next_batch_id : Z
}.

(** The tables as [installSchema] creates them. *)
Definition installSchema : DB := mkDB [] [] [] 1 1.

Definition with_jobs (js : list Row) (d : DB) : DB :=
  mkDB js (batches d) (deps d) (next_job_id d) (next_batch_id d).

Definition with_deps (es : list (Z * Z)) (d : DB) : DB :=
  mkDB (jobs d) (batches d) es (next_job_id d) (next_batch_id d).

Definition with_batches (bs : list BatchRow) (d : DB) : DB :=
  mkDB (jobs d) bs (deps d) (next_job_id d) (next_batch_id d).

(** Column assignments of the UPDATE statements. *)
Section Columns.
Variable r : Row.

Definition set_status (s : JobStatus) : Row :=
  mkRow (row_id r) (row_queue r) (row_name r) (row_payload r) s (row_priority r)
    (row_attempts r) (row_max_attempts r) (row_run_at r) (row_locked_until r)
    (row_last_error r) (row_batch_id r) (row_created_at r) (row_updated_at r) (row_finished_at r).

Definition set_attempts (n : Z) : Row :=
  mkRow (row_id r) (row_queue r) (row_name r) (row_payload r) (row_status r) (row_priority r)
    n (row_max_attempts r) (row_run_at r) (row_locked_until r)
    (row_last_error r) (row_batch_id r) (row_created_at r) (row_updated_at r) (row_finished_at r).

Definition set_run_at (t : string) : Row :=
  mkRow (row_id r) (row_queue r) (row_name r) (row_payload r) (row_status r) (row_priority r)
    (row_attempts r) (row_max_attempts r) t (row_locked_until r)
    (row_last_error r) (row_batch_id r) (row_created_at r) (row_updated_at r) (row_finished_at r).

Definition set_locked_until (t : option string) : Row :=
  mkRow (row_id r) (row_queue r) (row_name r) (row_payload r) (row_status r) (row_priority r)
    (row_attempts r) (row_max_attempts r) (row_run_at r) t
    (row_last_error r) (row_batch_id r) (row_created_at r) (row_updated_at r) (row_finished_at r).

Definition set_last_error (e : option string) : Row :=
  mkRow (row_id r) (row_queue r) (row_name r) (row_payload r) (row_status r) (row_priority r)
    (row_attempts r) (row_max_attempts r) (row_run_at r) (row_locked_until r)
    e (row_batch_id r) (row_created_at r) (row_updated_at r) (row_finished_at r).

Definition set_updated_at (t : string) : Row :=
  mkRow (row_id r) (row_queue r) (row_name r) (row_payload r) (row_status r) (row_priority r)
    (row_attempts r) (row_max_attempts r) (row_run_at r) (row_locked_until r)
    (row_last_error r) (row_batch_id r) (row_created_at r) t (row_finished_at r).

Definition set_finished_at (t : option string) : Row :=
  mkRow (row_id r) (row_queue r) (row_name r) (row_payload r) (row_status r) (row_priority r)
    (row_attempts r) (row_max_attempts r) (row_run_at r) (row_locked_until r)
    (row_last_error r) (row_batch_id r) (row_created_at r) (row_updated_at r) t.
End Columns.

(** ** Errors *)

Inductive QueueError :=
| QUEUE_BATCH_EMPTY (name : string)
| QUEUE_BATCH_FORWARD_DEPENDENCY (name : string) (step dependsOn : Z)
| QUEUE_BATCH_NOT_FOUND (id : Z)
| QUEUE_POISON_PAYLOAD (id : Z)
| QUEUE_HANDLER_NOT_FOUND (name : string)
| DriverConstraint.  (** the driver's own constraint or binding error *)

Section Queue.
Context {Json : Type} `{!JsonCodec Json}.

(** What [hydrateMeta] and [hydrate] build. *)
Record Job := mkJob {
  j_id : Z;
  j_queue : string;
  j_name : string;
  j_payload : Json;
  j_status : JobStatus;
  j_priority : Z;
  j_attempts : Z;
  j_maxAttempts : Z;
  j_runAt : string;
  j_lockedUntil : option string;
  j_lastError : option string;
  j_batchId : option Z;
  j_createdAt : string;
  j_updatedAt : string;
  j_finishedAt : option string
}.

Definition hydrateMeta (row : Row) : Job :=
  mkJob (row_id row) (row_queue row) (row_name row) json_null (row_status row)
    (row_priority row) (row_attempts row) (row_max_attempts row) (row_run_at row)
    (row_locked_until row) (row_last_error row) (row_batch_id row)
    (row_created_at row) (row_updated_at row) (row_finished_at row).

Definition with_payload (m : Job) (p : Json) : Job :=
  mkJob (j_id m) (j_queue m) (j_name m) p (j_status m) (j_priority m) (j_attempts m)
    (j_maxAttempts m) (j_runAt m) (j_lockedUntil m) (j_lastError m) (j_batchId m)
    (j_createdAt m) (j_updatedAt m) (j_finishedAt m).

Definition hydrate (row : Row) : outcome QueueError Job :=
  let meta := hydrateMeta row in
  match json_parse (row_payload row) with
  | None => Throw (QUEUE_POISON_PAYLOAD (j_id meta))
  | Some p => Ok (with_payload meta p)
  end.

(** [rows.map(hydrate)]: the first poison payload throws. *)
Fixpoint hydrate_all (rows : list Row) : outcome QueueError (list Job) :=
  match rows with
  | [] => Ok []
  | r :: rows' => let! j := hydrate r in let! js := hydrate_all rows' in Ok (j :: js)
  end.

Record QueueOptions := mkOptions {
  defaultQueue : string;
  baseBackoffMs : Z;
  maxBackoffMs : Z
}.

(** The constructor's defaults. *)
Definition default_options : QueueOptions := mkOptions "default" 1000 60000.

Variable this : QueueOptions.

(** ** Enqueue *)

Record EnqueueOptions := mkEnqueueOptions {
  o_queue : option string;
  o_priority : option Z;
  o_maxAttempts : option Z;
  o_delayMs : option Z;
  o_runAt : option Z
}.

Definition no_options : EnqueueOptions := mkEnqueueOptions None None None None None.

Definition eligibleAt (clock : Z) (options : EnqueueOptions) : string :=
  match o_runAt options with
  | Some date => toISOString date
  | None =>
      match o_delayMs options with
      | Some ms => if ms =? 0 then nowIso clock else isoAfter clock ms
      | None => nowIso clock
      end
  end.

(** INSERT INTO lesto_jobs: the AUTOINCREMENT id, and the column defaults. *)
Definition insert_job (q nm pl : string) (st : JobStatus) (prio maxA : Z)
    (run_at : string) (batch : option Z) (now : string) (d : DB) : DB * Z :=
  let r := mkRow (next_job_id d) q nm pl st prio 0 maxA run_at None None batch now now None in
  (mkDB (jobs d ++ [r]) (batches d) (deps d) (next_job_id d + 1) (next_batch_id d),
   next_job_id d).

Definition enqueue (clock clock' : Z) (nm : string) (pl : Json) (options : EnqueueOptions)
    (d : DB) : DB * Z :=
  let now := nowIso clock in
  let run_at := eligibleAt clock' options in
  insert_job (default (defaultQueue this) (o_queue options)) nm (json_stringify pl) Ready
    (default 0 (o_priority options)) (default 5 (o_maxAttempts options)) run_at None now d.

Record BatchStep := mkBatchStep {
  s_name : string;
  s_payload : option Json;
  s_options : option EnqueueOptions;
  s_dependsOn : option (list Z)
}.

Record BatchHandle := mkBatchHandle { h_id : Z; h_jobIds : list Z }.

(** The eager check of [enqueueBatch]: every edge points backwards. *)
Fixpoint check_step (nm : string) (index : Z) (ds : list Z) : option QueueError :=
  match ds with
  | [] => None
  | dep :: ds' =>
      if index <=? dep then Some (QUEUE_BATCH_FORWARD_DEPENDENCY nm index dep)
      else check_step nm index ds'
  end.

Fixpoint check_steps (nm : string) (index : Z) (steps : list BatchStep) : option QueueError :=
  match steps with
  | [] => None
  | s :: steps' =>
      match check_step nm index (default [] (s_dependsOn s)) with
      | Some e => Some e
      | None => check_steps nm (index + 1) steps'
      end
  end.

(** [jobIds[dep]]: [undefined] outside the array. *)
Definition js_index {A} (l : list A) (i : Z) : option A :=
  if i <? 0 then None else nth_error l (Z.to_nat i).

Definition edge_eqb (e f : Z * Z) : bool := (fst e =? fst f) && (snd e =? snd f).

(** INSERT INTO lesto_job_deps, once per prerequisite of the step: [undefined]
    violates NOT NULL, a repeated pair violates the primary key. *)
Fixpoint insert_edges (jobId : Z) (jobIds : list Z) (ds : list Z) (d : DB) : outcome QueueError DB :=
  match ds with
  | [] => Ok d
  | dep :: ds' =>
      match js_index jobIds dep with
      | None => Throw DriverConstraint
      | Some p =>
          if existsb (edge_eqb (jobId, p)) (deps d) then Throw DriverConstraint
          else insert_edges jobId jobIds ds' (with_deps (deps d ++ [(jobId, p)]) d)
      end
  end.

(** The loop over [steps]; [clock i] is the reading of step [i]. *)
Fixpoint insert_steps (clock : nat -> Z) (i : nat) (now : string) (batch : Z)
    (steps : list BatchStep) (jobIds : list Z) (d : DB) : outcome QueueError (DB * list Z) :=
  match steps with
  | [] => Ok (d, jobIds)
  | s :: steps' =>
      let options := default no_options (s_options s) in
      let ds := default [] (s_dependsOn s) in
      let blocked := 0 <? Z.of_nat (length ds) in
      let '(d1, jobId) :=
        insert_job (default (defaultQueue this) (o_queue options)) (s_name s)
          (json_stringify (default json_empty_object (s_payload s)))
          (if blocked then Blocked else Ready)
          (default 0 (o_priority options)) (default 5 (o_maxAttempts options))
          (eligibleAt (clock i) options) (Some batch) now d in
      let jobIds' := jobIds ++ [jobId] in
      let! d2 := insert_edges jobId jobIds' ds d1 in
      insert_steps clock (S i) now batch steps' jobIds' d2
  end.

(** One transaction: on a throw the database is the one it started from. *)
Definition enqueueBatch (clock : Z) (clock' : nat -> Z) (nm : string) (steps : list BatchStep)
    (d : DB) : DB * outcome QueueError BatchHandle :=
  if Z.of_nat (length steps) =? 0 then (d, Throw (QUEUE_BATCH_EMPTY nm))
  else
    match check_steps nm 0 steps with
    | Some e => (d, Throw e)
    | None =>
        let now := nowIso clock in
        let batch := next_batch_id d in
        let d1 := mkDB (jobs d)
          (batches d ++ [mkBatchRow batch nm (Z.of_nat (length steps)) now])
          (deps d) (next_job_id d) (next_batch_id d + 1) in
        match insert_steps clock' 0 now batch steps [] d1 with
        | Throw e => (d, Throw e)
        | Ok (d2, jobIds) => (d2, Ok (mkBatchHandle batch jobIds))
        end
    end.

(** ** Claiming *)

(** The WHERE of the claim's subselect. *)
Definition eligible (q now : string) (r : Row) : bool :=
  status_is (row_status r) Ready && String.eqb (row_queue r) q && String.leb (row_run_at r) now.

(** ORDER BY priority DESC, run_at ASC, id ASC. *)
Definition claim_before (a b : Row) : bool :=
  if row_priority a =? row_priority b then
    match String.compare (row_run_at a) (row_run_at b) with
    | Lt => true
    | Gt => false
    | Eq => row_id a <? row_id b
    end
  else row_priority b <? row_priority a.

Definition claim_candidate (q now : string) (d : DB) : option Row :=
  first_by claim_before (List.filter (eligible q now) (jobs d)).

Definition claim_set (lock now : string) (r : Row) : Row :=
  set_updated_at (set_locked_until (set_attempts (set_status r Running) (row_attempts r + 1))
    (Some lock)) now.

(** UPDATE ... WHERE id = (SELECT ... LIMIT 1) RETURNING *: one atomic statement. *)
Definition claimRow (clock clock' : Z) (q : string) (visibilityMs : Z) (d : DB) : DB * option Row :=
  let now := nowIso clock in
  let lock := isoAfter clock' visibilityMs in
  match claim_candidate q now d with
  | None => (d, None)
  | Some c =>
      let js := fst (update_where (fun r => row_id r =? row_id c) (claim_set lock now) (jobs d)) in
      (with_jobs js d, List.find (fun r => row_id r =? row_id c) js)
  end.

Definition claim (clock clock' : Z) (q : option string) (visibilityMs : option Z) (d : DB)
    : DB * outcome QueueError (option Job) :=
  let '(d1, row) := claimRow clock clock' (default (defaultQueue this) q)
    (default 30000 visibilityMs) d in
  match row with
  | None => (d1, Ok None)
  | Some r => (d1, let! j := hydrate r in Ok (Some j))
  end.

(** ** Dependency release *)

(** The prerequisite rows of [r] that exist and are not done (the NOT EXISTS subquery). *)
Definition unsettled (d : DB) (r : Row) : bool :=
  existsb (fun e => (fst e =? row_id r) &&
    existsb (fun p => (row_id p =? snd e) && negb (status_is (row_status p) Done)) (jobs d))
    (deps d).

Definition depends_on (d : DB) (jobId : Z) (r : Row) : bool :=
  existsb (fun e => (snd e =? jobId) && (fst e =? row_id r)) (deps d).

Definition releasable (d : DB) (jobId : Z) (r : Row) : bool :=
  status_is (row_status r) Blocked && depends_on d jobId r && negb (unsettled d r).

Definition releaseReadyDependents (clock : Z) (jobId : Z) (d : DB) : DB :=
  let now := nowIso clock in
  with_jobs (fst (update_where (releasable d jobId)
    (fun r => set_updated_at (set_status r Ready) now) (jobs d))) d.

(** ** The terminal transitions, fenced by the claim generation *)

Definition fence (job : Job) (r : Row) : bool :=
  (row_id r =? j_id job) && status_is (row_status r) Running
  && sql_eq (row_locked_until r) (j_lockedUntil job) && (row_attempts r =? j_attempts job).

Definition complete_set (now : string) (r : Row) : Row :=
  set_updated_at (set_finished_at (set_locked_until (set_status r Done) None) (Some now)) now.

Definition complete (clock clock' : Z) (job : Job) (d : DB) : DB :=
  let now := nowIso clock in
  let '(js, changes) := update_where (fence job) (complete_set now) (jobs d) in
  let d1 := with_jobs js d in
  if changes >? 0 then releaseReadyDependents clock' (j_id job) d1 else d1.

(** What [fail] reads of the thrown value: its message, the permanent mark. *)
Record JsError := mkJsError { message : string; permanent : bool }.

Definition backoffMs (n : Z) : Z :=
  let exponential := baseBackoffMs this * 2 ^ (n - 1) in
  Z.min (maxBackoffMs this) exponential.

Definition retire_set (err now : string) (r : Row) : Row :=
  set_updated_at (set_finished_at (set_locked_until (set_last_error (set_status r Failed)
    (Some err)) None) (Some now)) now.

Definition requeue_set (err runAt now : string) (r : Row) : Row :=
  set_updated_at (set_run_at (set_locked_until (set_last_error (set_status r Ready)
    (Some err)) None) runAt) now.

Definition fail (clock clock' : Z) (job : Job) (error : JsError) (d : DB) : DB * RunOutcome :=
  let now := nowIso clock in
  if (j_maxAttempts job <=? j_attempts job) || permanent error then
    (with_jobs (fst (update_where (fence job) (retire_set (message error) now) (jobs d))) d, OFailed)
  else
    (with_jobs (fst (update_where (fence job)
      (requeue_set (message error) (isoAfter clock' (backoffMs (j_attempts job))) now) (jobs d))) d,
     ORetry).

(** ** The worker: claim and run one job *)

(** A registered handler: the database when it settles (its own writes and those of
    everyone else during its await), and the error it threw, if any. *)
Definition Handler := Job -> DB -> DB * option JsError.

Record RunResult := mkRunResult { res_job : Job; res_outcome : RunOutcome }.

(** The clock readings of one pass: two by the claim, two by the terminal write. *)
Record Readings := mkReadings { t_claim : Z; t_lock : Z; t_end : Z; t_end' : Z }.

Variable poison_error : Z -> JsError.
Variable no_handler_error : string -> JsError.

Definition runOnce (handlers : gmap string Handler) (t : Readings) (q : option string)
    (visibilityMs : option Z) (d : DB) : DB * option RunResult :=
  let '(d1, row) := claimRow (t_claim t) (t_lock t) (default (defaultQueue this) q)
    (default 30000 visibilityMs) d in
  match row with
  | None => (d1, None)
  | Some r =>
      let meta := hydrateMeta r in
      match json_parse (row_payload r) with
      | None =>
          let '(d2, o) := fail (t_end t) (t_end' t) meta (poison_error (j_id meta)) d1 in
          (d2, Some (mkRunResult meta o))
      | Some p =>
          let job := with_payload meta p in
          match handlers !! j_name job with
          | None =>
              let '(d2, o) := fail (t_end t) (t_end' t) job (no_handler_error (j_name job)) d1 in
              (d2, Some (mkRunResult job o))
          | Some handler =>
              match handler job d1 with
              | (d2, None) =>
                  (complete (t_end t) (t_end' t) job d2, Some (mkRunResult job ODone))
              | (d2, Some e) =>
                  let '(d3, o) := fail (t_end t) (t_end' t) job e d2 in
                  (d3, Some (mkRunResult job o))
              end
          end
      end
  end.

(** ** Reclaim, retention, and the operator surface *)

Definition STALLED_ERROR : string :=
  "Job exceeded maxAttempts by repeatedly stalling its worker (no outcome reported before the visibility deadline lapsed).".

Definition stranded (now : string) (r : Row) : bool :=
  status_is (row_status r) Running && is_not_null (row_locked_until r)
  && sql_lt (row_locked_until r) now.

Definition reclaim_set (now : string) (r : Row) : Row :=
  set_updated_at (set_locked_until (set_status r Ready) None) now.

Definition reclaim (clock : Z) (d : DB) : DB * Z :=
  let now := nowIso clock in
  let '(js1, retired) :=
    update_where (fun r => stranded now r && (row_max_attempts r <=? row_attempts r))
      (retire_set STALLED_ERROR now) (jobs d) in
  let '(js2, reclaimed) :=
    update_where (fun r => stranded now r && (row_attempts r <? row_max_attempts r))
      (reclaim_set now) js1 in
  (with_jobs js2 d, retired + reclaimed).

Definition job_exists (js : list Row) (i : Z) : bool := existsb (fun r => row_id r =? i) js.

Definition prunable (cutoff : string) (r : Row) : bool :=
  (status_is (row_status r) Done || status_is (row_status r) Failed)
  && is_not_null (row_finished_at r) && sql_lt (row_finished_at r) cutoff.

Definition has_batch (b : Z) (r : Row) : bool :=
  match row_batch_id r with Some b' => b' =? b | None => false end.

Definition prune (clock olderThanMs : Z) (d : DB) : DB * Z :=
  let cutoff := isoAfter clock (- Z.max 0 olderThanMs) in
  let '(js, changes) := delete_where (prunable cutoff) (jobs d) in
  let '(es, _) := delete_where
    (fun e => negb (job_exists js (fst e)) || negb (job_exists js (snd e))) (deps d) in
  let '(bs, _) := delete_where
    (fun b => negb (existsb (has_batch (b_id b)) js)) (batches d) in
  (with_batches bs (with_deps es (with_jobs js d)), changes).

Definition retry_set (now : string) (r : Row) : Row :=
  set_updated_at (set_run_at (set_finished_at (set_locked_until (set_last_error
    (set_attempts (set_status r Ready) 0) None) None) None) now) now.

Definition retry (clock : Z) (i : Z) (d : DB) : DB * bool :=
  let now := nowIso clock in
  let '(js, changes) := update_where
    (fun r => (row_id r =? i) && status_is (row_status r) Failed) (retry_set now) (jobs d) in
  (with_jobs js d, changes >? 0).

(** SELECT d.job_id ... JOIN ... WHERE d.depends_on_id = ? AND j.status = 'blocked'. *)
Definition blocked_dependents (prereqId : Z) (d : DB) : list Z :=
  map fst (List.filter (fun e => (snd e =? prereqId) &&
    existsb (fun j => (row_id j =? fst e) && status_is (row_status j) Blocked) (jobs d))
    (deps d)).

(** One turn of the cascade: pop, read the blocked dependents, sweep the edges,
    delete and push the dependents. The head of [frontier] is the array's last element. *)
Definition discard_turn (prereqId : Z) (rest : list Z) (d : DB) : list Z * DB :=
  let dependents := blocked_dependents prereqId d in
  let es := fst (delete_where (fun e => (fst e =? prereqId) || (snd e =? prereqId)) (deps d)) in
  let js := fold_left (fun js dep => fst (delete_where (fun r => row_id r =? dep) js))
    dependents (jobs d) in
  (rev dependents ++ rest, with_jobs js (with_deps es d)).

Fixpoint discard_loop (fuel : nat) (frontier : list Z) (d : DB) : option DB :=
  match frontier with
  | [] => Some d
  | prereqId :: rest =>
      match fuel with
      | O => None
      | S fuel' =>
          let '(frontier', d') := discard_turn prereqId rest d in
          discard_loop fuel' frontier' d'
      end
  end.

(** [None]: the loop has not ended within its bound, one turn per job row. *)
Definition discard (i : Z) (d : DB) : option (DB * bool) :=
  let '(js, changes) := delete_where
    (fun r => (row_id r =? i) && negb (status_is (row_status r) Running)) (jobs d) in
  if changes =? 0 then Some (d, false)
  else
    match discard_loop (S (length (jobs d))) [i] (with_jobs js d) with
    | Some d' => Some (d', true)
    | None => None
    end.

(** ** Reads *)

(** SELECT status, COUNT( * ) ... GROUP BY status: absent when no row has the status. *)
Definition count_status (p : Row -> bool) (d : DB) (s : JobStatus) : option Z :=
  let n := Z.of_nat (length (List.filter (fun r => p r && status_is (row_status r) s) (jobs d))) in
  if n =? 0 then None else Some n.

Definition batchState (counts : JobStatus -> option Z) (total : Z) : BatchState :=
  if default 0 (counts Failed) >? 0 then BatchFailed
  else if default 0 (counts Done) =? total then Completed else Pending.

Record BatchSummary := mkBatchSummary {
  bs_id : Z;
  bs_name : string;
  bs_total : Z;
  bs_counts : JobStatus -> option Z;
  bs_state : BatchState;
  bs_createdAt : string
}.

Definition batch (i : Z) (d : DB) : outcome QueueError BatchSummary :=
  match List.find (fun b => b_id b =? i) (batches d) with
  | None => Throw (QUEUE_BATCH_NOT_FOUND i)
  | Some b =>
      let counts := count_status (has_batch i) d in
      Ok (mkBatchSummary (b_id b) (b_name b) (b_total b) counts
            (batchState counts (b_total b)) (b_created_at b))
  end.

Record QueueStats := mkQueueStats {
  st_counts : JobStatus -> option Z;
  st_depth : Z;
  st_oldest : option string  (** the oldest eligible [run_at], from which the age is taken *)
}.

Definition stats (clock : Z) (q : option string) (d : DB) : QueueStats :=
  let q := default (defaultQueue this) q in
  let now := nowIso clock in
  let backlog := List.filter (eligible q now) (jobs d) in
  mkQueueStats (count_status (fun r => String.eqb (row_queue r) q) d)
    (Z.of_nat (length backlog))
    (option_map row_run_at
       (first_by (fun a b => String.ltb (row_run_at a) (row_run_at b)) backlog)).

Definition find_job (i : Z) (d : DB) : outcome QueueError (option Job) :=
  match List.find (fun r => row_id r =? i) (jobs d) with
  | None => Ok None
  | Some r => let! j := hydrate r in Ok (Some j)
  end.

(** ORDER BY updated_at DESC, id DESC. *)
Definition list_before (a b : Row) : bool :=
  match String.compare (row_updated_at a) (row_updated_at b) with
  | Gt => true
  | Lt => false
  | Eq => row_id b <? row_id a
  end.

Definition list_jobs (st : option JobStatus) (q : option string) (limit offset : option nat) (d : DB)
    : outcome QueueError (list Job) :=
  let selected r :=
    match st with Some s => status_is (row_status r) s | None => true end &&
    match q with Some q => String.eqb (row_queue r) q | None => true end in
  hydrate_all (firstn (default 50%nat limit)
    (skipn (default 0%nat offset) (order_by list_before (List.filter selected (jobs d))))).
End Queue.
