(* ===== verification/QueueInv.v ===== *)
(** * The durable job queue: invariants

    The table invariant of [Queue], the system of concurrent workers as a step
    relation over single statements and transactions, and the preservation lemmas
    the queue's theorems rest on. *)
From S2P Require Import Prelude Json JsTime Sql Queue.

(** ** The invariant *)

Definition terminal (s : JobStatus) : Prop := s = Done \/ s = Failed.

Definition row_ok (r : Row) : Prop :=
  (row_status r = Running <-> row_locked_until r <> None) /\
  (terminal (row_status r) <-> row_finished_at r <> None) /\
  0 <= row_attempts r <= Z.max 1 (row_max_attempts r) /\
  (row_status r = Blocked \/ row_status r = Ready ->
   row_attempts r < Z.max 1 (row_max_attempts r)).

Record db_ok (d : DB) : Prop := {
  ok_next : 1 <= next_job_id d;
  ok_ids : List.NoDup (map row_id (jobs d));
  ok_bound : forall r, In r (jobs d) -> 1 <= row_id r < next_job_id d;
  ok_rows : forall r, In r (jobs d) -> row_ok r;
  ok_edges : List.NoDup (deps d);
  ok_backward : forall e, In e (deps d) -> 1 <= snd e < fst e /\ fst e < next_job_id d;
  ok_endpoints : forall e i, In e (deps d) -> i = fst e \/ i = snd e ->
    exists r, In r (jobs d) /\ row_id r = i /\ row_batch_id r <> None;
  (* a job past [blocked] has no prerequisite row that is not done *)
  ok_order : forall r, In r (jobs d) -> row_status r <> Blocked -> unsettled d r = false
}.

(** Every blocked job waits for some prerequisite row that is not done. *)
Definition live (d : DB) : Prop :=
  forall r, In r (jobs d) -> row_status r = Blocked -> unsettled d r = true.

(** ** The system of workers *)

Section System.
Context {Json : Type} `{!JsonCodec Json}.
Variable this : QueueOptions.

(** The database and every job object a claim ever handed to a worker. *)
Record Sys := mkSys { sys_db : DB; sys_claims : list (@Job Json) }.

Inductive label := LEnqueue | LBatch | LClaim | LComplete | LFail | LReclaim | LPrune | LRetry | LDiscard.

(** One statement or transaction of one client; the clock is unconstrained. A worker
    may report an outcome for any claim it ever held, any number of times. *)
Inductive qstep : label -> Sys -> Sys -> Prop :=
| step_enqueue c c' nm pl o d cl :
    qstep LEnqueue (mkSys d cl) (mkSys (fst (enqueue this c c' nm pl o d)) cl)
| step_batch c c' nm steps d cl :
    qstep LBatch (mkSys d cl) (mkSys (fst (enqueueBatch this c c' nm steps d)) cl)
| step_claim c c' q v d cl d' r p :
    claimRow c c' q v d = (d', Some r) ->
    qstep LClaim (mkSys d cl) (mkSys d' (with_payload (hydrateMeta r) p :: cl))
| step_complete c c' j d cl :
    In j cl -> qstep LComplete (mkSys d cl) (mkSys (complete c c' j d) cl)
| step_fail c c' j e d cl :
    In j cl -> qstep LFail (mkSys d cl) (mkSys (fst (fail this c c' j e d)) cl)
| step_reclaim c d cl :
    qstep LReclaim (mkSys d cl) (mkSys (fst (reclaim c d)) cl)
| step_prune c ms d cl :
    qstep LPrune (mkSys d cl) (mkSys (fst (prune c ms d)) cl)
| step_retry c i d cl :
    qstep LRetry (mkSys d cl) (mkSys (fst (retry c i d)) cl)
| step_discard i d cl d' b :
    discard i d = Some (d', b) ->
    qstep LDiscard (mkSys d cl) (mkSys d' cl).

(** Reachability from the installed schema by steps whose label is allowed. *)
Inductive reachable (allow : label -> bool) : Sys -> Prop :=
| reach_init : reachable allow (mkSys installSchema [])
| reach_step l s s' : reachable allow s -> allow l = true -> qstep l s s' -> reachable allow s'.
End System.

(** ** Statement-level lemmas *)

Lemma status_is_true a b : status_is a b = true <-> a = b.
Proof. apply bool_decide_eq_true. Qed.

Lemma status_is_false a b : status_is a b = false <-> a <> b.
Proof. apply bool_decide_eq_false. Qed.

(** Reflect the status tests of the hypotheses. *)
Ltac statuses :=
  repeat match goal with
  | H : status_is _ _ = true |- _ => apply status_is_true in H
  | H : status_is _ _ = false |- _ => apply status_is_false in H
  end.

Lemma unsettled_true d r :
  unsettled d r = true <->
  exists p, In (row_id r, row_id p) (deps d) /\ In p (jobs d) /\ row_status p <> Done.
Proof.
  unfold unsettled. rewrite existsb_exists. split.
  - intros ([a b] & Hin & H). bools. simpl in *.
    match goal with H : existsb _ _ = true |- _ => apply existsb_exists in H as (p & Hp & H) end.
    bools. statuses. subst. eauto.
  - intros (p & He & Hp & Hs). exists (row_id r, row_id p). split; [done|]. simpl.
    rewrite Z.eqb_refl. apply existsb_exists. exists p. split; [done|].
    apply status_is_false in Hs. by rewrite Z.eqb_refl, Hs.
Qed.

Lemma unsettled_mono d d' r r' :
  row_id r = row_id r' ->
  (forall e, In e (deps d') -> In e (deps d)) ->
  (forall q', In q' (jobs d') -> row_status q' <> Done ->
     exists q, In q (jobs d) /\ row_id q = row_id q' /\ row_status q <> Done) ->
  unsettled d' r' = true -> unsettled d r = true.
Proof.
  intros Hid He Hq. rewrite !unsettled_true. intros (p & Hin & Hp & Hs).
  destruct (Hq p Hp Hs) as (q & Hq1 & Hq2 & Hq3).
  exists q. rewrite Hid, Hq2. auto.
Qed.

Lemma depends_on_true d i r :
  depends_on d i r = true <-> In (row_id r, i) (deps d).
Proof.
  unfold depends_on. rewrite existsb_exists. split.
  - intros ([a b] & Hin & H). bools. simpl in *. by subst.
  - intros H. exists (row_id r, i). simpl. rewrite !Z.eqb_refl. auto.
Qed.

Lemma releasable_true d i r :
  releasable d i r = true <->
  row_status r = Blocked /\ In (row_id r, i) (deps d) /\ unsettled d r = false.
Proof.
  unfold releasable. rewrite !andb_true_iff, status_is_true, depends_on_true, negb_true_iff. tauto.
Qed.

Lemma fence_true {Json} (j : @Job Json) r :
  fence j r = true <->
  row_id r = j_id j /\ row_status r = Running /\
  (exists l, row_locked_until r = Some l /\ j_lockedUntil j = Some l) /\
  row_attempts r = j_attempts j.
Proof.
  unfold fence. rewrite !andb_true_iff, !Z.eqb_eq, status_is_true.
  assert (sql_eq (row_locked_until r) (j_lockedUntil j) = true <->
    exists l, row_locked_until r = Some l /\ j_lockedUntil j = Some l) as ->; [|tauto].
  destruct (row_locked_until r) as [a|], (j_lockedUntil j) as [b|]; simpl;
    try (split; [done|intros (? & ? & ?); done]).
  rewrite String.eqb_eq. split; [intros ->; eauto|intros (? & [= ->] & [= ->]); done].
Qed.

Lemma stranded_true now r :
  stranded now r = true <->
  row_status r = Running /\ exists l, row_locked_until r = Some l /\ String.ltb l now = true.
Proof.
  unfold stranded. rewrite !andb_true_iff, status_is_true.
  destruct (row_locked_until r) as [l|]; simpl; [|naive_solver].
  split; [intros [[? _] ?]; eauto|intros [? (? & [= <-] & ?)]; auto].
Qed.

Lemma job_exists_true js i : job_exists js i = true <-> exists r, In r js /\ row_id r = i.
Proof.
  unfold job_exists. rewrite existsb_exists. by setoid_rewrite Z.eqb_eq.
Qed.

(** An UPDATE of the jobs table keeps the invariant when it keeps ids and batches,
    keeps [done] rows done and releases no job with an unsettled prerequisite. *)
Lemma update_db_ok p f d :
  db_ok d ->
  (forall r, row_id (f r) = row_id r) ->
  (forall r, row_batch_id (f r) = row_batch_id r) ->
  (forall r, In r (jobs d) -> p r = true -> row_ok (f r)) ->
  (forall r, In r (jobs d) -> p r = true -> row_status r = Done -> row_status (f r) = Done) ->
  (forall r, In r (jobs d) -> p r = true -> row_status (f r) <> Blocked ->
     row_status r <> Blocked \/ unsettled d r = false) ->
  db_ok (with_jobs (fst (update_where p f (jobs d))) d).
Proof.
  intros OK Hid Hb Hrow Hdone Hrel. destruct OK. split; cbn [jobs deps next_job_id with_jobs].
  - done.
  - by rewrite map_update.
  - intros r (r0 & Hin & ->)%In_update. destruct (p r0); rewrite ?Hid; auto.
  - intros r (r0 & Hin & ->)%In_update. destruct (p r0) eqn:E; auto.
  - done.
  - done.
  - intros e i He Hi. destruct (ok_endpoints0 e i He Hi) as (r & Hr & <- & Hn).
    exists (if p r then f r else r). rewrite In_update. split; [eauto|].
    destruct (p r); rewrite ?Hid, ?Hb; auto.
  - intros r (r0 & Hin & ->)%In_update Hs.
    destruct (unsettled _ _) eqn:E; [exfalso|done].
    assert (unsettled d r0 = true) as Hu.
    { revert E. apply unsettled_mono; [destruct (p r0); rewrite ?Hid; done|done|].
      intros q' (q & Hq & ->)%In_update Hqs. exists q. split; [done|].
      destruct (p q) eqn:Ep; rewrite ?Hid; split; auto. }
    destruct (p r0) eqn:Ep.
    + destruct (Hrel r0 Hin Ep Hs) as [Hnb|Hnu]; [|congruence].
      rewrite ok_order0 in Hu by done. done.
    + rewrite ok_order0 in Hu by done. done.
Qed.

(** ... and keeps every blocked job waiting when it neither blocks nor finishes a job. *)
Lemma update_live p f d :
  live d ->
  (forall r, row_id (f r) = row_id r) ->
  (forall r, In r (jobs d) -> p r = true -> row_status (f r) <> Blocked) ->
  (forall r, In r (jobs d) -> p r = true -> row_status (f r) = Done -> row_status r = Done) ->
  live (with_jobs (fst (update_where p f (jobs d))) d).
Proof.
  intros L Hid Hnb Hnd r (r0 & Hin & ->)%In_update Hs.
  destruct (p r0) eqn:Ep; [by destruct (Hnb r0 Hin Ep)|].
  specialize (L r0 Hin Hs). revert L. apply unsettled_mono; [done|done|].
  intros q Hq Hqs. exists (if p q then f q else q). cbn [jobs with_jobs].
  rewrite In_update. split; [eauto|]. destruct (p q) eqn:E; rewrite ?Hid; eauto.
Qed.

(** Deleting job rows and sweeping edges keeps the invariant. *)
Lemma delete_db_ok js es bs d :
  db_ok d ->
  (exists p, js = List.filter p (jobs d)) ->
  (exists p, es = List.filter p (deps d)) ->
  (forall e i, In e es -> i = fst e \/ i = snd e -> job_exists js i = true) ->
  db_ok (with_batches bs (with_deps es (with_jobs js d))).
Proof.
  intros OK [p ->] [q ->] Hend. destruct OK.
  split; cbn [jobs deps next_job_id with_jobs with_deps with_batches].
  - done.
  - by apply NoDup_map_filter.
  - intros r [Hr _]%filter_In. auto.
  - intros r [Hr _]%filter_In. auto.
  - by apply List.NoDup_filter.
  - intros e [He _]%filter_In. auto.
  - intros e i He Hi.
    destruct (proj1 (job_exists_true _ _) (Hend e i He Hi)) as (r & Hr & Hri).
    exists r. split; [done|]. split; [done|].
    apply filter_In in He as [He _]. destruct (ok_endpoints0 e i He Hi) as (r' & Hr' & Hri' & Hb).
    apply filter_In in Hr as [Hr _].
    rewrite (NoDup_map_inj_in row_id (jobs d) r r' ok_ids0 Hr Hr') by congruence. done.
  - intros r [Hr _]%filter_In Hs.
    destruct (unsettled _ _) eqn:E; [exfalso|done].
    assert (unsettled d r = true); [|rewrite ok_order0 in *; done].
    revert E. apply unsettled_mono; [done| |].
    + intros e [He _]%filter_In. done.
    + intros r' [Hr' _]%filter_In Hs'. eauto.
Qed.

(** ** Inserting jobs and edges *)

Lemma insert_job_db_ok q nm pl st prio maxA ra b now d :
  db_ok d -> st = Ready \/ st = Blocked ->
  db_ok (fst (insert_job q nm pl st prio maxA ra b now d)).
Proof.
  intros OK Hst. destruct OK.
  assert (Hfresh : forall e, In e (deps d) -> fst e <> next_job_id d /\ snd e <> next_job_id d).
  { intros e He. specialize (ok_backward0 e He). lia. }
  split; cbn [fst insert_job jobs deps next_job_id].
  - lia.
  - rewrite map_app. cbn [map row_id].
    apply List.NoDup_app; [done|repeat constructor; auto|].
    intros x Hx [<-|[]]. apply in_map_iff in Hx as (r & E & Hr).
    specialize (ok_bound0 r Hr). lia.
  - intros r [Hr|[<-|[]]]%in_app_iff; [specialize (ok_bound0 r Hr); lia|simpl; lia].
  - intros r [Hr|[<-|[]]]%in_app_iff; [auto|].
    unfold row_ok, terminal. simpl. destruct Hst as [->| ->]; naive_solver lia.
  - done.
  - intros e He. specialize (ok_backward0 e He). lia.
  - intros e i He Hi. destruct (ok_endpoints0 e i He Hi) as (r & Hr & ?).
    exists r. rewrite in_app_iff. auto.
  - intros r Hr Hs. destruct (unsettled _ _) eqn:E; [exfalso|done].
    apply unsettled_true in E as (p & He & Hp & Hps).
    destruct (Hfresh _ He) as [H1 H2]. simpl in H1, H2, He.
    apply in_app_iff in Hr as [Hr|[<-|[]]]; [|done].
    apply in_app_iff in Hp as [Hp|[<-|[]]]; [|done].
    assert (unsettled d r = true) by (apply unsettled_true; eauto).
    rewrite ok_order0 in *; done.
Qed.

(** An edge from an existing blocked job back to an existing job of a batch. *)
Lemma insert_edge_db_ok j p d :
  db_ok d -> ~ In (j, p) (deps d) -> 1 <= p < j ->
  (exists r, In r (jobs d) /\ row_id r = j /\ row_batch_id r <> None /\ row_status r = Blocked) ->
  (exists r, In r (jobs d) /\ row_id r = p /\ row_batch_id r <> None) ->
  db_ok (with_deps (deps d ++ [(j, p)]) d).
Proof.
  intros OK Hnew Hpj (rj & Hrj & Ej & Hbj & Hsj) (rp & Hrp & Ep & Hbp). destruct OK.
  split; cbn [jobs deps next_job_id with_deps]; try done.
  - apply List.NoDup_app; [done|repeat constructor; auto|]. intros x Hx [<-|[]]. done.
  - intros e [He|[<-|[]]]%in_app_iff; [auto|]. simpl. specialize (ok_bound0 rj Hrj). lia.
  - intros e i [He|[<-|[]]]%in_app_iff Hi; [eauto|].
    simpl in Hi. destruct Hi as [->| ->]; eauto.
  - intros r Hr Hs. destruct (unsettled _ _) eqn:E; [exfalso|done].
    apply unsettled_true in E as (q & He & Hq & Hqs). cbn [deps jobs with_deps] in *.
    apply in_app_iff in He as [He|[[= E1 E2]|[]]].
    + assert (unsettled d r = true) by (apply unsettled_true; eauto).
      rewrite ok_order0 in *; done.
    + rewrite (NoDup_map_inj_in row_id (jobs d) r rj ok_ids0 Hr Hrj) in Hs by congruence. done.
Qed.

Lemma js_index_In {A} (l : list A) i x : js_index l i = Some x -> In x l.
Proof. unfold js_index. case_test; [done|]. apply nth_error_In. Qed.

Section Preservation.
Context {Json : Type} `{!JsonCodec Json}.
Variable this : QueueOptions.

(** What the loop of [enqueueBatch] keeps about the jobs it has written. *)
Definition batch_jobs (d : DB) (jobIds : list Z) : Prop :=
  forall i, In i jobIds -> exists r, In r (jobs d) /\ row_id r = i /\
    row_batch_id r <> None /\ row_status r <> Done.

Lemma insert_edges_spec j ids ds d d' :
  insert_edges j ids ds d = Ok d' ->
  jobs d' = jobs d /\ next_job_id d' = next_job_id d /\
  (forall e, In e (deps d') <->
     In e (deps d) \/ exists dep p, In dep ds /\ js_index ids dep = Some p /\ e = (j, p)) /\
  (forall dep, In dep ds -> exists p, js_index ids dep = Some p).
Proof.
  revert d. induction ds as [|dep ds IH]; simpl; intros d H.
  { injection H as <-. naive_solver. }
  destruct (js_index ids dep) as [p|] eqn:Ep; [|done].
  destruct (existsb _ _) eqn:Ex; [done|].
  apply IH in H as (Ej & En & Ee & Ed). cbn [jobs deps next_job_id with_deps] in *.
  split; [done|]. split; [done|]. split.
  - intros e. rewrite Ee, in_app_iff. simpl. naive_solver.
  - naive_solver.
Qed.

Lemma insert_edges_db_ok j ids ds d d' :
  db_ok d -> batch_jobs d ids ->
  (exists r, In r (jobs d) /\ row_id r = j /\ row_batch_id r <> None /\ row_status r = Blocked) ->
  (forall dep i, In dep ds -> js_index ids dep = Some i -> 1 <= i < j) ->
  insert_edges j ids ds d = Ok d' -> db_ok d'.
Proof.
  revert d. induction ds as [|dep ds IH]; simpl; intros d OK Hids Hj Hlt H.
  { injection H as <-. auto. }
  destruct (js_index ids dep) as [p|] eqn:Ep; [|done].
  destruct (existsb _ _) eqn:Ex; [done|].
  apply IH in H; [auto| | | |].
  - apply insert_edge_db_ok; auto.
    + intros Hin. rewrite existsb_false in Ex. specialize (Ex _ Hin).
      unfold edge_eqb in Ex. by rewrite !Z.eqb_refl in Ex.
    + eapply Hlt; eauto.
    + destruct (Hids p) as (r & ?); [by eapply js_index_In|]. naive_solver.
  - done.
  - done.
  - eauto.
Qed.

Lemma check_step_None nm index ds :
  check_step nm index ds = None <-> forall dep, In dep ds -> dep < index.
Proof.
  induction ds as [|dep ds IH]; simpl; [naive_solver|].
  case_test; bools; [naive_solver lia|]. rewrite IH. naive_solver lia.
Qed.

Lemma js_index_before {A} (l l' : list A) i x :
  i < Z.of_nat (length l) -> js_index (l ++ l') i = Some x -> js_index l i = Some x.
Proof.
  unfold js_index. case_test; [done|]. bools. intros H. rewrite nth_error_app1 by lia. done.
Qed.

Lemma batch_jobs_insert q nm pl st prio maxA ra b now d ids :
  st <> Done -> batch_jobs d ids ->
  batch_jobs (fst (insert_job q nm pl st prio maxA ra (Some b) now d)) (ids ++ [next_job_id d]).
Proof.
  intros Hst H i [Hi|[<-|[]]]%in_app_iff; simpl.
  - destruct (H i Hi) as (r & Hr & ?). exists r. rewrite in_app_iff. auto.
  - eexists. rewrite in_app_iff. split; [right; left; done|]. done.
Qed.

(** Both invariants through one step of the loop of [enqueueBatch]. *)
Lemma batch_step_ok q nm pl prio maxA ra b now ids ds d d2 :
  db_ok d -> batch_jobs d ids ->
  (forall dep, In dep ds -> dep < Z.of_nat (length ids)) ->
  let st := if 0 <? Z.of_nat (length ds) then Blocked else Ready in
  let d1 := fst (insert_job q nm pl st prio maxA ra (Some b) now d) in
  let ids' := ids ++ [next_job_id d] in
  insert_edges (next_job_id d) ids' ds d1 = Ok d2 ->
  db_ok d2 /\ (live d -> live d2) /\ batch_jobs d2 ids'.
Proof.
  intros OK B Hlt st d1 ids' H.
  assert (Hst : st = Ready \/ st = Blocked) by (unfold st; case_test; auto).
  assert (OK1 : db_ok d1) by (by apply insert_job_db_ok).
  assert (B1 : batch_jobs d1 ids') by (apply batch_jobs_insert; [by destruct Hst as [-> | ->]|done]).
  pose proof (insert_edges_spec _ _ _ _ _ H) as (Ej & En & Ee & Ed).
  assert (Hbefore : forall dep p, In dep ds -> js_index ids' dep = Some p ->
    exists r, In r (jobs d) /\ row_id r = p /\ row_batch_id r <> None /\ row_status r <> Done).
  { intros dep p Hdep Hp. apply js_index_before in Hp; [|auto]. apply B. by eapply js_index_In. }
  split; [|split].
  - destruct ds as [|dep0 ds0]; [simpl in H; by injection H as <-|].
    eapply insert_edges_db_ok; [exact OK1|exact B1| | |exact H].
    + eexists. split; [apply in_app_iff; right; left; done|]. done.
    + intros dep i Hdep Hi. destruct (Hbefore dep i Hdep Hi) as (r & Hr & <- & _).
      by apply (ok_bound _ OK).
  - intros L r Hr Hs. rewrite Ej in Hr. apply in_app_iff in Hr as [Hr|[<-|[]]].
    + specialize (L r Hr Hs). revert L. apply unsettled_mono; [done| |].
      * intros e He. apply Ee. by left.
      * intros p Hp Hps. exists p. rewrite Ej. split; [apply in_app_iff; by left|done].
    + destruct ds as [|dep0 ds0]; [done|].
      destruct (Ed dep0 (or_introl eq_refl)) as [p Hp].
      destruct (Hbefore dep0 p (or_introl eq_refl) Hp) as (r & Hr & <- & _ & Hsr).
      apply unsettled_true. exists r. rewrite Ee, Ej. split; [|split; [apply in_app_iff; by left|done]].
      right. exists dep0, (row_id r). split; [by left|]. done.
  - intros i Hi. rewrite Ej. by apply B1.
Qed.

Lemma insert_steps_ok clock i now b nm steps ids d d' ids' :
  db_ok d -> batch_jobs d ids ->
  check_steps nm (Z.of_nat (length ids)) steps = None ->
  insert_steps this clock i now b steps ids d = Ok (d', ids') ->
  db_ok d' /\ (live d -> live d').
Proof.
  revert i ids d. induction steps as [|s steps IH]; intros i ids d OK B Hc H.
  { simpl in H. injection H as <- <-. auto. }
  cbn [check_steps] in Hc. destruct (check_step _ _ _) eqn:Ec; [done|].
  rewrite check_step_None in Ec.
  cbn [insert_steps] in H. unfold insert_job in H at 1. cbv zeta in H.
  destruct (insert_edges _ _ _ _) as [d2|e] eqn:Ei; [|done]. simpl in H.
  apply (batch_step_ok _ _ _ _ _ _ _ _ ids) in Ei as (OK2 & L2 & B2); [|done..].
  edestruct IH as [OK' L']; [exact OK2|exact B2| |exact H|auto].
  rewrite length_app. simpl. by rewrite Nat2Z.inj_add.
Qed.

Lemma enqueueBatch_ok c c' nm steps d :
  db_ok d ->
  let d' := fst (enqueueBatch this c c' nm steps d) in db_ok d' /\ (live d -> live d').
Proof.
  intros OK. unfold enqueueBatch. case_test; [done|].
  destruct (check_steps _ _ _) eqn:Ec; [done|].
  destruct (insert_steps _ _ _ _ _ _ _ _) as [[d2 ids]|e] eqn:Ei; [|done]. simpl.
  apply (insert_steps_ok _ _ _ _ nm) in Ei; [exact Ei| | |done].
  - destruct OK. split; done.
  - intros i [].
Qed.

Lemma enqueue_ok c c' nm pl o d :
  db_ok d ->
  let d' := fst (enqueue this c c' nm pl o d) in db_ok d' /\ (live d -> live d').
Proof.
  intros OK. split; [apply insert_job_db_ok; auto|].
  intros L r [Hr|[<-|[]]]%in_app_iff Hs; [|done].
  specialize (L r Hr Hs). revert L. apply unsettled_mono; [done|done|].
  intros q Hq Hqs. exists q. split; [apply in_app_iff; by left|done].
Qed.

Lemma candidate_In q now d r :
  claim_candidate q now d = Some r -> In r (jobs d) /\ eligible q now r = true.
Proof. intros H%first_by_In. by apply filter_In in H. Qed.

Lemma eligible_true q now r :
  eligible q now r = true <->
  row_status r = Ready /\ row_queue r = q /\ String.leb (row_run_at r) now = true.
Proof. unfold eligible. rewrite !andb_true_iff, status_is_true, String.eqb_eq. tauto. Qed.

(** The claim is an UPDATE of the candidate row, and returns it. *)
Lemma claimRow_Some c c' q v d d' r :
  db_ok d -> claimRow c c' q v d = (d', Some r) ->
  exists r0, claim_candidate q (nowIso c) d = Some r0 /\ In r0 (jobs d) /\
    row_status r0 = Ready /\ r = claim_set (isoAfter c' v) (nowIso c) r0 /\
    d' = with_jobs (fst (update_where (fun x => row_id x =? row_id r0)
           (claim_set (isoAfter c' v) (nowIso c)) (jobs d))) d.
Proof.
  intros OK. unfold claimRow. destruct (claim_candidate _ _ _) as [r0|] eqn:Ec; [|done].
  intros H. injection H as <- H. exists r0.
  destruct (candidate_In _ _ _ _ Ec) as [Hin He]. apply eligible_true in He as (Hs & _).
  do 3 (split; [done|]). split; [|done].
  apply List.find_some in H as [H Hid]. bools.
  apply In_update in H as (r1 & Hr1 & ->).
  destruct (row_id r1 =? row_id r0) eqn:E; bools; [|congruence].
  by rewrite (NoDup_map_inj_in row_id (jobs d) r1 r0 (ok_ids _ OK) Hr1 Hin E).
Qed.

Lemma claimRow_ok c c' q v d :
  db_ok d ->
  let d' := fst (claimRow c c' q v d) in db_ok d' /\ (live d -> live d').
Proof.
  intros OK. unfold claimRow. destruct (claim_candidate _ _ _) as [r0|] eqn:Ec; [|done].
  destruct (candidate_In _ _ _ _ Ec) as [Hin (Hs & _)%eligible_true]. cbn [fst].
  assert (Hone : forall r, In r (jobs d) -> (row_id r =? row_id r0) = true -> r = r0).
  { intros r Hr E. bools. exact (NoDup_map_inj_in row_id (jobs d) r r0 (ok_ids _ OK) Hr Hin E). }
  split.
  - apply update_db_ok; try done; intros r Hr E; rewrite (Hone r Hr E) in *; simpl; try congruence.
    + destruct (ok_rows _ OK r0 Hin) as (H1 & H2 & H3 & H4). unfold row_ok, terminal in *.
      simpl. rewrite Hs in *. naive_solver lia.
    + left. congruence.
  - intros L. apply update_live; try done; intros r Hr E; by rewrite (Hone r Hr E).
Qed.

(** The facts an UPDATE of a running row to [s] needs. *)
Lemma running_update_ok (p : Row -> bool) f d :
  db_ok d ->
  (forall r, In r (jobs d) -> p r = true -> row_status r = Running) ->
  (forall r, row_id (f r) = row_id r) -> (forall r, row_batch_id (f r) = row_batch_id r) ->
  (forall r, In r (jobs d) -> p r = true -> row_ok (f r)) ->
  db_ok (with_jobs (fst (update_where p f (jobs d))) d).
Proof.
  intros OK Hp Hid Hb Hok. apply update_db_ok; try done; intros r Hr E; rewrite (Hp r Hr E).
  - done.
  - intros _. by left.
Qed.

Lemma retire_row_ok err now r : row_ok r -> row_ok (retire_set err now r).
Proof. intros (H1 & H2 & H3 & H4). unfold row_ok, terminal in *. simpl. naive_solver lia. Qed.

Lemma requeue_row_ok err ra now r :
  row_ok r -> row_status r = Running -> row_attempts r < row_max_attempts r ->
  row_ok (requeue_set err ra now r).
Proof.
  intros (H1 & H2 & H3 & H4) Hs Hlt. unfold row_ok, terminal in *. simpl. rewrite Hs in *.
  naive_solver lia.
Qed.

Lemma reclaim_row_ok now r :
  row_ok r -> row_status r = Running -> row_attempts r < row_max_attempts r ->
  row_ok (reclaim_set now r).
Proof.
  intros (H1 & H2 & H3 & H4) Hs Hlt. unfold row_ok, terminal in *. simpl. rewrite Hs in *.
  naive_solver lia.
Qed.

Lemma complete_row_ok now r : row_ok r -> row_ok (complete_set now r).
Proof. intros (H1 & H2 & H3 & H4). unfold row_ok, terminal in *. simpl. naive_solver lia. Qed.

Lemma ready_row_ok now r :
  row_ok r -> row_status r = Blocked -> row_ok (set_updated_at (set_status r Ready) now).
Proof.
  intros (H1 & H2 & H3 & H4) Hs. unfold row_ok, terminal in *. simpl. rewrite Hs in *. naive_solver.
Qed.

(** The token and the rows agree on the attempt budget. *)
Definition token_ok (d : DB) (j : @Job Json) : Prop :=
  1 <= j_id j < next_job_id d /\
  forall r, In r (jobs d) -> row_id r = j_id j -> row_max_attempts r = j_maxAttempts j.

Lemma fail_ok c c' j e d :
  db_ok d -> token_ok d j ->
  let d' := fst (fail this c c' j e d) in db_ok d' /\ (live d -> live d').
Proof.
  intros OK [_ Hmax]. unfold fail.
  assert (Hf : forall r, In r (jobs d) -> fence j r = true -> row_status r = Running)
    by (intros r _ H%fence_true; tauto).
  destruct (_ || _) eqn:E; cbn [fst].
  - split; [|intros L; by apply update_live].
    apply running_update_ok; try done. intros r Hr _. apply retire_row_ok, OK, Hr.
  - split; [|intros L; by apply update_live].
    apply running_update_ok; try done. intros r Hr H. bools.
    apply fence_true in H as (Hid & Hs & _ & Ha).
    apply requeue_row_ok; [by apply OK|done|]. rewrite (Hmax r Hr Hid). lia.
Qed.

Lemma release_ok c i d :
  db_ok d -> db_ok (releaseReadyDependents c i d).
Proof.
  intros OK. apply update_db_ok; try done.
  - intros r Hr (Hs & _)%releasable_true. apply ready_row_ok; [by apply OK|done].
  - intros r Hr (Hs & _)%releasable_true. congruence.
  - intros r Hr (_ & _ & Hu)%releasable_true _. by right.
Qed.

(** After the release, only a job waiting elsewhere is still blocked. *)
Lemma release_live c i d :
  (forall r, In r (jobs d) -> row_status r = Blocked ->
     unsettled d r = true \/ In (row_id r, i) (deps d)) ->
  live (releaseReadyDependents c i d).
Proof.
  intros H r (r0 & Hr & ->)%In_update Hs.
  destruct (releasable d i r0) eqn:E; [done|].
  assert (Hu : unsettled d r0 = true).
  { destruct (H r0 Hr Hs) as [|Hd]; [done|].
    destruct (unsettled d r0) eqn:Eu; [done|].
    assert (releasable d i r0 = true) by (apply releasable_true; auto). congruence. }
  revert Hu. apply unsettled_mono; [done|done|].
  intros q Hq Hqs. eexists. split; [apply In_update; eauto|].
  destruct (releasable d i q); done.
Qed.

Lemma complete_ok c c' (j : @Job Json) d :
  db_ok d ->
  let d' := complete c c' j d in db_ok d' /\ (live d -> live d').
Proof.
  intros OK. unfold complete.
  destruct (update_where (fence j) _ (jobs d)) as [js ch] eqn:Eu.
  set (now := nowIso c) in *.
  assert (Ejs : js = fst (update_where (fence j) (complete_set now) (jobs d))) by (by rewrite Eu).
  assert (Ech : (ch >? 0) = existsb (fence j) (jobs d)).
  { rewrite <- (changes_pos (fence j) (complete_set now)), Eu. done. }
  assert (OK1 : db_ok (with_jobs js d)).
  { rewrite Ejs. apply running_update_ok; try done.
    - intros r _ H%fence_true. tauto.
    - intros r Hr _. by apply complete_row_ok, OK. }
  rewrite Ech. destruct (existsb (fence j) (jobs d)) eqn:Ef; cbv zeta.
  - split; [by apply release_ok|]. intros L. apply release_live.
    intros r Hr Hs. cbn [jobs with_jobs] in Hr. rewrite Ejs in Hr.
    apply In_update in Hr as (r0 & Hr0 & ->).
    destruct (fence j r0) eqn:Efr; [done|]. specialize (L r0 Hr0 Hs).
    apply unsettled_true in L as (p & He & Hp & Hps).
    destruct (decide (row_id p = j_id j)) as [Ei|Ei]; [right; by rewrite <- Ei|left].
    apply unsettled_true. exists p. split; [done|]. split; [|done].
    cbn [jobs with_jobs]. rewrite Ejs. apply In_update. exists p. split; [done|].
    destruct (fence j p) eqn:Efp; [|done]. apply fence_true in Efp. tauto.
  - split; [done|]. intros L. replace js with (jobs d); [by destruct d|].
    rewrite Ejs, update_none; [done|]. by rewrite existsb_false in Ef.
Qed.

Lemma reclaim_ok c d :
  db_ok d -> let d' := fst (reclaim c d) in db_ok d' /\ (live d -> live d').
Proof.
  intros OK. unfold reclaim. set (now := nowIso c).
  destruct (update_where _ _ (jobs d)) as [js1 n1] eqn:E1.
  assert (Ejs1 : js1 = fst (update_where (fun r => stranded now r && (row_max_attempts r <=? row_attempts r))
      (retire_set STALLED_ERROR now) (jobs d))) by (by rewrite E1).
  assert (OK1 : db_ok (with_jobs js1 d)).
  { rewrite Ejs1. apply running_update_ok; try done.
    - intros r _ H. bools. by apply stranded_true in H as [? _].
    - intros r Hr _. by apply retire_row_ok, OK. }
  destruct (update_where _ _ js1) as [js2 n2] eqn:E2. cbn [fst].
  assert (Ejs2 : js2 = fst (update_where (fun r => stranded now r && (row_attempts r <? row_max_attempts r))
      (reclaim_set now) js1)) by (by rewrite E2).
  rewrite Ejs2. change js1 with (jobs (with_jobs js1 d)) at 1 2.
  change (with_jobs (fst ?u) d) with (with_jobs (fst u) (with_jobs js1 d)). split.
  - apply running_update_ok; try done.
    + intros r _ H. bools. by apply stranded_true in H as [? _].
    + intros r Hr H. bools. apply stranded_true in H as [Hs _].
      apply reclaim_row_ok; [by apply OK1|done|done].
  - intros L. apply update_live; try done.
    rewrite Ejs1. by apply update_live.
Qed.

Lemma retry_row_ok now r : row_ok r -> row_ok (retry_set now r).
Proof. intros (H1 & H2 & H3 & H4). unfold row_ok, terminal in *. simpl. naive_solver lia. Qed.

Lemma retry_ok c i d :
  db_ok d -> let d' := fst (retry c i d) in db_ok d' /\ (live d -> live d').
Proof.
  intros OK. unfold retry. cbn [update_where fst].
  match goal with |- context [with_jobs (map ?g (jobs d)) d] =>
    change (map g (jobs d)) with (fst (update_where
      (fun r => (row_id r =? i) && status_is (row_status r) Failed) (retry_set (nowIso c)) (jobs d))) end.
  split; [|intros L; by apply update_live].
  apply update_db_ok; try done.
  - intros r Hr _. by apply retry_row_ok, OK.
  - intros r Hr E. bools. statuses. congruence.
  - intros r Hr E _. bools. statuses. left. congruence.
Qed.

Lemma prune_ok c ms d : db_ok d -> db_ok (fst (prune c ms d)).
Proof.
  intros OK. unfold prune. cbn [delete_where fst].
  eapply delete_db_ok; [done|eauto|eauto|].
  intros e i He%filter_negb_In Hi. destruct He as [He E]. bools.
  by destruct Hi as [-> | ->].
Qed.
End Preservation.
