(* ===== verification/QueueDiscard.v ===== *)
(** * The durable job queue: the discard cascade

    [Queue.discard] deletes a job and walks the dependency edges forward. The loop
    invariant of the walk, its termination, and what is left when it ends. *)
From S2P Require Import Prelude Json JsTime Sql Queue QueueInv.

(** The jobs a discard of [root] takes: [root], and every blocked job with an edge
    to a job it takes. *)
Inductive cascades (d : DB) (root : Z) : Z -> Prop :=
| cascade_root : cascades d root root
| cascade_dep r k :
    cascades d root k -> In r (jobs d) -> row_status r = Blocked ->
    In (row_id r, k) (deps d) -> cascades d root (row_id r).

(** The state of the walk: [d0] is the database before the discard, [d] the current
    one, [frontier] the deleted jobs whose dependents are still to be looked at. *)
Record walk (d0 : DB) (root : Z) (frontier : list Z) (d : DB) : Prop := {
  w_jobs : exists p, jobs d = List.filter p (jobs d0);
  w_deps : exists p, deps d = List.filter p (deps d0);
  w_rest : batches d = batches d0 /\ next_job_id d = next_job_id d0 /\ next_batch_id d = next_batch_id d0;
  w_gone : forall i, In i frontier -> job_exists (jobs d) i = false;
  w_endpoint : forall e i, In e (deps d) -> i = fst e \/ i = snd e ->
    job_exists (jobs d) i = true \/ In i frontier;
  (* a surviving blocked job still has all its edges, to jobs alive or on the frontier *)
  w_keep : forall r e, In r (jobs d) -> row_status r = Blocked -> In e (deps d0) -> fst e = row_id r ->
    In e (deps d) /\ (job_exists (jobs d) (snd e) = true \/ In (snd e) frontier);
  w_sound : forall i, In i frontier -> cascades d0 root i;
  w_root : job_exists (jobs d) root = false;
  w_lost : forall r, In r (jobs d0) -> In r (jobs d) \/ cascades d0 root (row_id r)
}.

Lemma filter_filter {A} (p q : A -> bool) l :
  List.filter p (List.filter q l) = List.filter (fun x => q x && p x) l.
Proof.
  induction l as [|a l IH]; simpl; [done|].
  destruct (q a); simpl; [destruct (p a)|]; rewrite ?IH; done.
Qed.

Lemma filter_true {A} (l : list A) : List.filter (fun _ => true) l = l.
Proof. induction l; simpl; congruence. Qed.

Lemma fold_delete ds js :
  fold_left (fun js dep => fst (delete_where (fun r => row_id r =? dep) js)) ds js =
  List.filter (fun r => negb (existsb (Z.eqb (row_id r)) ds)) js.
Proof.
  revert js. induction ds as [|x ds IH]; simpl; intros js; [by rewrite filter_true|].
  rewrite IH, filter_filter. apply filter_ext. intros r. by rewrite negb_orb.
Qed.

Lemma existsb_eqb_In i ds : existsb (Z.eqb i) ds = true <-> In i ds.
Proof. rewrite existsb_exists. setoid_rewrite Z.eqb_eq. naive_solver. Qed.

Lemma In_fold_delete ds js r :
  In r (fold_left (fun js dep => fst (delete_where (fun r => row_id r =? dep) js)) ds js) <->
  In r js /\ ~ In (row_id r) ds.
Proof.
  rewrite fold_delete, filter_In, negb_true_iff, <- existsb_eqb_In.
  by rewrite not_true_iff_false.
Qed.

Lemma blocked_dependents_In i d k :
  In k (blocked_dependents i d) <->
  In (k, i) (deps d) /\ exists r, In r (jobs d) /\ row_id r = k /\ row_status r = Blocked.
Proof.
  unfold blocked_dependents. rewrite in_map_iff. setoid_rewrite filter_In. split.
  - intros ([a b] & <- & Hin & H). bools. simpl in *. subst. split; [done|].
    match goal with H : existsb _ _ = true |- _ => apply existsb_exists in H as (r & Hr & H) end.
    bools. statuses. eauto.
  - intros (Hin & r & Hr & <- & Hs). exists (row_id r, i). split; [done|]. split; [done|].
    simpl. rewrite Z.eqb_refl. apply existsb_exists. exists r. split; [done|].
    apply status_is_true in Hs. by rewrite Z.eqb_refl, Hs.
Qed.

Lemma job_exists_false js i : job_exists js i = false <-> forall r, In r js -> row_id r <> i.
Proof. unfold job_exists. rewrite existsb_false. by setoid_rewrite Z.eqb_neq. Qed.

(** One turn of the loop keeps the invariant. *)
Lemma walk_turn d0 root i rest d :
  walk d0 root (i :: rest) d ->
  let '(frontier', d') := discard_turn i rest d in walk d0 root frontier' d'.
Proof.
  intros W. unfold discard_turn. set (ds := blocked_dependents i d).
  assert (Hds : forall k, In k (rev ds ++ rest) <-> In k ds \/ In k rest)
    by (intros k; rewrite in_app_iff, <- in_rev; done).
  assert (Halive : forall js k, js = jobs d -> job_exists js k = true ->
    job_exists (fold_left (fun js dep => fst (delete_where (fun r => row_id r =? dep) js)) ds js) k = true
    \/ In k ds).
  { intros js k -> (r & Hr & <-)%job_exists_true.
    destruct (in_dec Z.eq_dec (row_id r) ds); [by right|left].
    apply job_exists_true. exists r. by rewrite In_fold_delete. }
  destruct W. destruct w_jobs0 as [pj Ej], w_deps0 as [pd Ed].
  split; cbn [jobs deps batches next_job_id next_batch_id with_jobs with_deps].
  - rewrite fold_delete, Ej, filter_filter. eauto.
  - cbn [delete_where fst]. rewrite Ed, filter_filter. eauto.
  - done.
  - intros k Hk%Hds. apply job_exists_false. intros r (Hr & Hn)%In_fold_delete <-.
    destruct Hk as [Hk|Hk]; [done|].
    assert (job_exists (jobs d) (row_id r) = false) as Hf by (apply w_gone0; by right).
    by apply (proj1 (job_exists_false _ _) Hf r).
  - intros e k [He E]%In_delete Hk. bools. rewrite Hds.
    destruct (w_endpoint0 e k He Hk) as [Hx|[<-|Hx]]; [|destruct Hk; congruence|tauto].
    destruct (Halive _ k eq_refl Hx); tauto.
  - intros r e (Hr & Hnd)%In_fold_delete Hs He0 Hfst.
    destruct (w_keep0 r e Hr Hs He0 Hfst) as [He Hsnd].
    assert (Hsi : snd e <> i).
    { intros <-. apply Hnd. apply blocked_dependents_In. split; [|eauto].
      rewrite <- Hfst. by destruct e. }
    assert (Hfi : fst e <> i).
    { rewrite Hfst. intros <-.
      assert (job_exists (jobs d) (row_id r) = false) as Hf by (apply w_gone0; by left).
      by apply (proj1 (job_exists_false _ _) Hf r). }
    split.
    + apply In_delete. split; [done|]. apply Z.eqb_neq in Hsi, Hfi. by rewrite Hsi, Hfi.
    + rewrite Hds. destruct Hsnd as [Hx|[Hx|Hx]]; [|congruence|tauto].
      destruct (Halive _ _ eq_refl Hx); tauto.
  - intros k Hk%Hds. destruct Hk as [Hk|Hk]; [|apply w_sound0; by right].
    apply blocked_dependents_In in Hk as (He & r & Hr & <- & Hs).
    apply (cascade_dep d0 root r i); [apply w_sound0; by left| |done|].
    + rewrite Ej in Hr. by apply filter_sub in Hr.
    + rewrite Ed in He. by apply filter_sub in He.
  - apply job_exists_false. intros r (Hr & _)%In_fold_delete.
    by apply (proj1 (job_exists_false _ _) w_root0).
  - intros r Hr. destruct (w_lost0 r Hr) as [Hin|]; [|by right].
    destruct (in_dec Z.eq_dec (row_id r) ds) as [Hk|Hk]; [right|left; by rewrite In_fold_delete].
    apply blocked_dependents_In in Hk as (He & r' & Hr' & Eid & Hs).
    rewrite <- Eid in *. apply (cascade_dep d0 root r' i); [apply w_sound0; by left| |done|].
    + rewrite Ej in Hr'. by apply filter_sub in Hr'.
    + rewrite Ed in He. by apply filter_sub in He.
Qed.

Lemma blocked_dependents_NoDup i d :
  List.NoDup (deps d) -> List.NoDup (blocked_dependents i d).
Proof.
  intros H. unfold blocked_dependents.
  assert (Hs : forall e, In e (List.filter (fun e => (snd e =? i) &&
      existsb (fun j => (row_id j =? fst e) && status_is (row_status j) Blocked) (jobs d)) (deps d)) ->
      snd e = i) by (intros e [_ E]%filter_In; by bools).
  apply (List.NoDup_filter (fun e => (snd e =? i) &&
      existsb (fun j => (row_id j =? fst e) && status_is (row_status j) Blocked) (jobs d))) in H.
  induction H as [|[a b] l Hn H IH]; simpl; constructor.
  - rewrite in_map_iff. intros ([a' b'] & E & Hin). simpl in E. subst a'. apply Hn.
    assert (b = i) as -> by (apply (Hs (a, b)); by left).
    assert (b' = i) as -> by (apply (Hs (a, b')); by right). done.
  - apply IH. intros e He. apply Hs. by right.
Qed.

(** Each job pushed on the frontier leaves the table: the loop's measure goes down. *)
Lemma turn_measure i rest d :
  List.NoDup (deps d) ->
  let '(frontier', d') := discard_turn i rest d in
  (length frontier' + length (jobs d') <= length rest + length (jobs d))%nat
  /\ List.NoDup (deps d').
Proof.
  intros Hnd. unfold discard_turn. cbn [jobs deps with_jobs with_deps fst delete_where].
  split; [|by apply List.NoDup_filter].
  rewrite length_app, length_rev, fold_delete. set (ds := blocked_dependents i d).
  assert (Hlen : (length ds <= length (List.filter (fun r => existsb (Z.eqb (row_id r)) ds) (jobs d)))%nat).
  { rewrite <- (length_map row_id). apply NoDup_incl_length; [by apply blocked_dependents_NoDup|].
    intros k Hk. pose proof Hk as (_ & r & Hr & <- & _)%blocked_dependents_In.
    apply in_map. apply filter_In. split; [done|]. by apply existsb_eqb_In. }
  pose proof (filter_length (fun r => existsb (Z.eqb (row_id r)) ds) (jobs d)). lia.
Qed.

Lemma discard_loop_walk d0 root fuel frontier d :
  walk d0 root frontier d -> List.NoDup (deps d) ->
  (length frontier + length (jobs d) <= fuel)%nat ->
  exists d', discard_loop fuel frontier d = Some d' /\ walk d0 root [] d'.
Proof.
  revert frontier d. induction fuel as [|fuel IH]; intros [|i rest] d W Hnd Hf;
    try (simpl in Hf; lia); try (exists d; by split).
  cbn [discard_loop]. pose proof (walk_turn _ _ _ _ _ W) as W'.
  pose proof (turn_measure i rest d Hnd) as Hm.
  destruct (discard_turn i rest d) as [frontier' d'].
  destruct Hm as [Hm Hnd']. apply IH; [done|done|]. simpl in Hf. lia.
Qed.

(** The walk that starts when the root row has been deleted. *)
Lemma walk_start d root r :
  db_ok d -> In r (jobs d) -> row_id r = root -> row_status r <> Running ->
  walk d root [root]
    (with_jobs (fst (delete_where (fun x => (row_id x =? root) && negb (status_is (row_status x) Running)) (jobs d))) d).
Proof.
  intros OK Hin Hid Hs.
  assert (Hdel : forall x, In x (fst (delete_where (fun x => (row_id x =? root)
      && negb (status_is (row_status x) Running)) (jobs d))) <-> In x (jobs d) /\ row_id x <> root).
  { intros x. rewrite In_delete. split; intros [Hx E]; (split; [done|]).
    - intros Ex. assert (x = r) as ->
        by (apply (NoDup_map_inj_in row_id (jobs d)); [apply OK|done|done|congruence]).
      apply status_is_false in Hs. by rewrite Hid, Z.eqb_refl, Hs in E.
    - apply Z.eqb_neq in E. by rewrite E. }
  assert (Halive : forall e i, In e (deps d) -> i = fst e \/ i = snd e ->
    job_exists (fst (delete_where (fun x => (row_id x =? root)
      && negb (status_is (row_status x) Running)) (jobs d))) i = true \/ In i [root]).
  { intros e i He Hi. destruct (ok_endpoints _ OK e i He Hi) as (x & Hx & <- & _).
    destruct (decide (row_id x = root)) as [->|]; [right; by left|left].
    apply job_exists_true. exists x. by rewrite Hdel. }
  split; cbn [jobs deps batches next_job_id next_batch_id with_jobs].
  - eexists. done.
  - exists (fun _ => true). by rewrite filter_true.
  - done.
  - intros i [<-|[]]. apply job_exists_false. intros x [_ Hx]%Hdel. done.
  - exact Halive.
  - intros x e _ _ He _. split; [done|]. apply (Halive e); auto.
  - intros i [<-|[]]. constructor.
  - apply job_exists_false. intros x [_ Hx]%Hdel. done.
  - intros x Hx. destruct (decide (row_id x = root)) as [->|]; [right; constructor|left].
    by rewrite Hdel.
Qed.

(** What the finished walk leaves. *)
Lemma walk_end_ok d root d' : db_ok d -> walk d root [] d' -> db_ok d'.
Proof.
  intros OK W. destruct W. destruct w_rest0 as (Eb & En & Enb).
  replace d' with (with_batches (batches d') (with_deps (deps d') (with_jobs (jobs d') d)))
    by (destruct d'; unfold with_batches, with_deps, with_jobs; simpl in *; congruence).
  apply delete_db_ok; auto.
  intros e i He Hi. destruct (w_endpoint0 e i He Hi) as [|[]]; done.
Qed.

Lemma walk_end_live d root d' : db_ok d -> walk d root [] d' -> live d -> live d'.
Proof.
  intros OK W L r Hr Hs. destruct W. destruct w_jobs0 as [p Ej].
  assert (Hr0 : In r (jobs d)) by (rewrite Ej in Hr; by apply filter_sub in Hr).
  specialize (L r Hr0 Hs). apply unsettled_true in L as (q & He & Hq & Hqs).
  destruct (w_keep0 r _ Hr Hs He eq_refl) as [He' [Hx|[]]].
  apply job_exists_true in Hx as (q' & Hq' & Eq'). simpl in Eq'.
  apply unsettled_true. exists q. split; [done|]. split; [|done].
  assert (In q' (jobs d)) as Hq0 by (rewrite Ej in Hq'; by apply filter_sub in Hq').
  by rewrite <- (NoDup_map_inj_in row_id (jobs d) q' q (ok_ids _ OK) Hq0 Hq Eq').
Qed.

Lemma walk_end_rows d root d' r :
  db_ok d -> walk d root [] d' -> In r (jobs d) ->
  In r (jobs d') <-> ~ cascades d root (row_id r).
Proof.
  intros OK W Hr. destruct W. split.
  - assert (Hc : forall i, cascades d root i -> job_exists (jobs d') i = false).
    { induction 1 as [|x k Hk IH Hx Hs He]; [done|].
      apply job_exists_false. intros x' Hx' Eid. destruct w_jobs0 as [p Ej].
      assert (In x' (jobs d)) as Hx0 by (rewrite Ej in Hx'; by apply filter_sub in Hx').
      rewrite (NoDup_map_inj_in row_id (jobs d) x' x (ok_ids _ OK) Hx0 Hx Eid) in Hx'.
      destruct (w_keep0 x _ Hx' Hs He eq_refl) as [_ [Hex|[]]]. simpl in Hex. congruence. }
    intros Hin Hcas. specialize (Hc _ Hcas). by apply (proj1 (job_exists_false _ _) Hc r).
  - intros Hn. by destruct (w_lost0 r Hr).
Qed.

(** [discard] always ends, and either changes nothing or ends a walk from its target. *)
Lemma discard_spec i d :
  db_ok d ->
  (discard i d = Some (d, false) /\
     forall r, In r (jobs d) -> row_id r = i -> row_status r = Running) \/
  (exists d' r, discard i d = Some (d', true) /\ walk d i [] d' /\
     In r (jobs d) /\ row_id r = i /\ row_status r <> Running).
Proof.
  intros OK. unfold discard.
  destruct (delete_where _ (jobs d)) as [js n] eqn:E.
  pose proof (delete_changes_zero (fun x => (row_id x =? i) && negb (status_is (row_status x) Running)) (jobs d)) as Hz.
  rewrite E in Hz. cbn [snd] in Hz. rewrite Hz.
  destruct (existsb _ (jobs d)) eqn:Ex; cbn [negb].
  - right. apply existsb_exists in Ex as (r & Hr & Hp). bools. statuses.
    pose proof (walk_start d i r OK Hr ltac:(done) ltac:(done)) as W. rewrite E in W. cbn [fst] in W.
    assert (Hlen : (length js < length (jobs d))%nat).
    { pose proof (filter_length (fun x => (row_id x =? i) && negb (status_is (row_status x) Running)) (jobs d)) as Hl.
      unfold delete_where in E. injection E as <- <-. apply Z.eqb_neq in Hz. lia. }
    destruct (discard_loop_walk d i (S (length (jobs d))) [i] _ W) as (d' & Hd & W').
    + apply OK.
    + cbn [length jobs with_jobs]. lia.
    + rewrite Hd. eauto 10.
  - left. split; [done|]. intros r Hr Eid.
    rewrite existsb_false in Ex. specialize (Ex r Hr). apply Z.eqb_eq in Eid. rewrite Eid in Ex.
    simpl in Ex. bools. by statuses.
Qed.
