(* ===== verification/QueueProps.v ===== *)
(** * The durable job queue: correctness

    The theorems about [Queue]: what holds in every state concurrent workers can
    reach, and what each operation does on every branch. *)
From S2P Require Import Prelude Json JsTime Sql Queue QueueInv QueueDiscard.

Section SystemInvariant.
Context {Json : Type} `{!JsonCodec Json}.
Variable this : QueueOptions.

(** What every step keeps about the claims handed out. *)
Definition sys_ok (s : @Sys Json) : Prop :=
  db_ok (sys_db s) /\ forall j, In j (sys_claims s) -> token_ok (sys_db s) j.

(** Tokens survive a step that mints ids only above the counter and keeps budgets. *)
Lemma tokens_update (p : Row -> bool) f d (j : @Job Json) :
  (forall r, row_id (f r) = row_id r) ->
  (forall r, row_max_attempts (f r) = row_max_attempts r) ->
  token_ok d j -> token_ok (with_jobs (fst (update_where p f (jobs d))) d) j.
Proof.
  intros Hid Hmax [Hb Hj]. split; [done|].
  intros r (r0 & Hr & ->)%In_update. destruct (p r0); rewrite ?Hid, ?Hmax; auto.
Qed.

Lemma tokens_sub d d' (j : @Job Json) :
  next_job_id d' = next_job_id d -> (forall r, In r (jobs d') -> In r (jobs d)) ->
  token_ok d j -> token_ok d' j.
Proof. intros En Hs [Hb Hj]. split; [by rewrite En|auto]. Qed.

Lemma tokens_insert q nm pl st prio maxA ra b now d (j : @Job Json) :
  token_ok d j -> token_ok (fst (insert_job q nm pl st prio maxA ra b now d)) j.
Proof.
  intros [Hb Hj]. split; [simpl; lia|].
  intros r [Hr|[<-|[]]]%in_app_iff E; [auto|simpl in E; lia].
Qed.

Lemma tokens_insert_steps clock i now b steps ids d d' ids' (j : @Job Json) :
  token_ok d j -> insert_steps this clock i now b steps ids d = Ok (d', ids') -> token_ok d' j.
Proof.
  revert i ids d. induction steps as [|s steps IH]; intros i ids d Hj H.
  { simpl in H. by injection H as <- <-. }
  cbn [insert_steps] in H. unfold insert_job in H at 1. cbv zeta in H.
  destruct (insert_edges _ _ _ _) as [d2|e] eqn:Ei; [|done]. simpl in H.
  apply insert_edges_spec in Ei as (Ej & En & _).
  apply IH in H; [done|]. eapply tokens_sub; [exact En|by rewrite Ej|].
  by apply tokens_insert.
Qed.

Lemma tokens_batch c c' nm steps d (j : @Job Json) :
  token_ok d j -> token_ok (fst (enqueueBatch this c c' nm steps d)) j.
Proof.
  intros Hj. unfold enqueueBatch. case_test; [done|].
  destruct (check_steps _ _ _); [done|].
  destruct (insert_steps _ _ _ _ _ _ _ _) as [[d2 ids]|e] eqn:Ei; [|done]. simpl.
  by eapply tokens_insert_steps in Ei.
Qed.

Lemma tokens_complete c c' (i j : @Job Json) d : token_ok d j -> token_ok (complete c c' i d) j.
Proof.
  intros Hj. unfold complete, releaseReadyDependents.
  assert (H : token_ok (with_jobs (fst (update_where (fence i) (complete_set (nowIso c)) (jobs d))) d) j)
    by (by apply tokens_update).
  cbn [update_where] in *. cbv zeta. case_test; [|exact H].
  exact (tokens_update _ (fun r => set_updated_at (set_status r Ready) (nowIso c')) _ j
    (fun _ => eq_refl) (fun _ => eq_refl) H).
Qed.

Lemma tokens_fail c c' (i j : @Job Json) e d : token_ok d j -> token_ok (fst (fail this c c' i e d)) j.
Proof. intros Hj. unfold fail. case_test; by apply tokens_update. Qed.

Lemma tokens_reclaim c d (j : @Job Json) : token_ok d j -> token_ok (fst (reclaim c d)) j.
Proof.
  intros Hj. exact (tokens_update _ (reclaim_set (nowIso c)) _ j (fun _ => eq_refl) (fun _ => eq_refl)
    (tokens_update _ (retire_set STALLED_ERROR (nowIso c)) _ j (fun _ => eq_refl) (fun _ => eq_refl) Hj)).
Qed.

Lemma discard_walk i d d' b :
  db_ok d -> discard i d = Some (d', b) -> d' = d \/ walk d i [] d'.
Proof.
  intros OK H. destruct (discard_spec i d OK) as [[E _]|(d2 & r & E & W & _)];
    rewrite E in H; injection H as <- <-; auto.
Qed.

Lemma qstep_ok l (s s' : @Sys Json) : sys_ok s -> qstep this l s s' -> sys_ok s'.
Proof.
  intros [OK Hcl] Hst. destruct Hst; cbn [sys_db sys_claims] in *; split; cbn [sys_db sys_claims].
  - by destruct (enqueue_ok this c c' nm pl o d OK) as [? L']; auto.
  - intros j Hj. by apply tokens_insert, Hcl.
  - by destruct (enqueueBatch_ok this c c' nm steps d OK) as [? L']; auto.
  - intros j Hj. by apply tokens_batch, Hcl.
  - pose proof (claimRow_ok c c' q v d OK) as [OK' _]. by rewrite H in OK'.
  - pose proof (claimRow_Some c c' q v d d' r OK H) as (r0 & _ & Hr0 & _ & -> & ->).
    intros j [<-|Hj]; [|by apply tokens_update, Hcl].
    split; [exact (ok_bound _ OK r0 Hr0)|]. intros x (x0 & Hx & ->)%In_update. simpl.
    destruct (row_id x0 =? row_id r0) eqn:E; bools; simpl; intros Ex; [|congruence].
    by rewrite (NoDup_map_inj_in row_id (jobs d) x0 r0 (ok_ids _ OK) Hx Hr0 Ex).
  - by destruct (complete_ok c c' j d OK) as [? L']; auto.
  - intros j' Hj'. by apply tokens_complete, Hcl.
  - by destruct (fail_ok this c c' j e d OK (Hcl j H)) as [? L']; auto.
  - intros j' Hj'. by apply tokens_fail, Hcl.
  - by destruct (reclaim_ok c d OK) as [? L']; auto.
  - intros j' Hj'. by apply tokens_reclaim, Hcl.
  - by apply prune_ok.
  - intros j' Hj'. eapply tokens_sub; [| |by apply Hcl]; [done|].
    intros r Hr. by apply filter_sub in Hr.
  - by destruct (retry_ok c i d OK) as [? L']; auto.
  - intros j' Hj'. exact (tokens_update _ (retry_set (nowIso c)) _ j' (fun _ => eq_refl) (fun _ => eq_refl) (Hcl j' Hj')).
  - destruct (discard_walk _ _ _ _ OK H) as [->|W]; [done|]. by eapply walk_end_ok.
  - destruct (discard_walk _ _ _ _ OK H) as [->|W]; [done|].
    intros j' Hj'. destruct W. destruct w_jobs as [p Ej], w_rest as (_ & En & _).
    eapply tokens_sub; [exact En| |by apply Hcl]. rewrite Ej. intros r Hr. by apply filter_sub in Hr.
Qed.

Lemma installSchema_ok : db_ok installSchema.
Proof. split; simpl; try done; try lia; constructor. Qed.

Lemma reachable_ok allow (s : @Sys Json) : reachable this allow s -> sys_ok s.
Proof.
  induction 1 as [|l s s' _ IH _ Hst]; [|by eapply qstep_ok].
  split; [apply installSchema_ok|]. intros j [].
Qed.

Lemma qstep_live l (s s' : @Sys Json) :
  sys_ok s -> l <> LPrune -> qstep this l s s' -> live (sys_db s) -> live (sys_db s').
Proof.
  intros [OK Hcl] Hl Hst L. destruct Hst; cbn [sys_db sys_claims] in *.
  - by destruct (enqueue_ok this c c' nm pl o d OK) as [? L']; auto.
  - by destruct (enqueueBatch_ok this c c' nm steps d OK) as [? L']; auto.
  - pose proof (claimRow_ok c c' q v d OK) as [_ L']. rewrite H in L'. auto.
  - by destruct (complete_ok c c' j d OK) as [? L']; auto.
  - by destruct (fail_ok this c c' j e d OK (Hcl j H)) as [? L']; auto.
  - by destruct (reclaim_ok c d OK) as [? L']; auto.
  - done.
  - by destruct (retry_ok c i d OK) as [? L']; auto.
  - destruct (discard_walk _ _ _ _ OK H) as [->|W]; [done|]. by eapply walk_end_live.
Qed.
End SystemInvariant.

(** ** Ownership of a running job *)

Section Ownership.
Context {Json : Type} `{!JsonCodec Json}.
Variable this : QueueOptions.

(** Holds as long as no operator retry resets an attempt counter. *)
Record owned (s : @Sys Json) : Prop := {
  o_attempts : forall j r, In j (sys_claims s) -> In r (jobs (sys_db s)) ->
    row_id r = j_id j -> j_attempts j <= row_attempts r;
  o_unique : List.NoDup (map (fun j => (j_id j, j_attempts j)) (sys_claims s));
  o_owner : forall r, In r (jobs (sys_db s)) -> row_status r = Running ->
    exists j, In j (sys_claims s) /\ fence j r = true
}.

(** An UPDATE that keeps attempts and leaves its rows out of [running]. *)
Lemma owned_update p f d cl :
  (forall r, row_id (f r) = row_id r) -> (forall r, row_attempts (f r) = row_attempts r) ->
  (forall r, row_status (f r) <> Running) ->
  owned (mkSys d cl) -> owned (mkSys (with_jobs (fst (update_where p f (jobs d))) d) cl).
Proof.
  intros Hid Ha Hs O. destruct O. split; cbn [sys_db sys_claims jobs with_jobs] in *; [|done|].
  - intros j r Hj (r0 & Hr & ->)%In_update. destruct (p r0); rewrite ?Hid, ?Ha; eauto.
  - intros r (r0 & Hr & ->)%In_update. destruct (p r0); [|eauto]. intros Hr'. by destruct (Hs r0).
Qed.

Lemma owned_sub d d' cl :
  (forall r, In r (jobs d') -> In r (jobs d)) -> owned (mkSys d cl) -> owned (mkSys d' cl).
Proof. intros Hs O. destruct O. split; cbn [sys_db sys_claims] in *; eauto. Qed.

Lemma owned_insert q nm pl st prio maxA ra b now d cl :
  st <> Running -> (forall j, In j cl -> token_ok d j) -> owned (mkSys d cl) ->
  owned (mkSys (fst (insert_job q nm pl st prio maxA ra b now d)) cl).
Proof.
  intros Hst Ht O. destruct O. split; cbn [sys_db sys_claims] in *; [|done|].
  - intros j r Hj [Hr|[<-|[]]]%in_app_iff E; [eauto|].
    destruct (Ht j Hj) as [Hb _]. simpl in E. lia.
  - intros r [Hr|[<-|[]]]%in_app_iff Hs; [eauto|done].
Qed.

Lemma owned_insert_steps clock i now b steps ids d d' ids' cl :
  (forall j, In j cl -> token_ok d j) -> owned (mkSys d cl) ->
  insert_steps this clock i now b steps ids d = Ok (d', ids') -> owned (mkSys d' cl).
Proof.
  revert i ids d. induction steps as [|s steps IH]; intros i ids d Ht O H.
  { simpl in H. by injection H as <- <-. }
  cbn [insert_steps] in H. unfold insert_job in H at 1. cbv zeta in H.
  destruct (insert_edges _ _ _ _) as [d2|e] eqn:Ei; [|done]. simpl in H.
  apply insert_edges_spec in Ei as (Ej & En & _).
  apply IH in H; [done| |].
  - intros j Hj. eapply tokens_sub; [exact En|by rewrite Ej|]. by apply tokens_insert, Ht.
  - eapply owned_sub; [rewrite Ej; intros r Hr; exact Hr|].
    apply owned_insert; [by case_test|done|done].
Qed.

Lemma owned_complete c c' (j : @Job Json) d cl :
  owned (mkSys d cl) -> owned (mkSys (complete c c' j d) cl).
Proof.
  intros O. unfold complete, releaseReadyDependents.
  assert (H : owned (mkSys (with_jobs (fst (update_where (fence j) (complete_set (nowIso c)) (jobs d))) d) cl))
    by (by apply owned_update).
  cbn [update_where] in *. cbv zeta. case_test; [|exact H].
  exact (owned_update _ (fun r => set_updated_at (set_status r Ready) (nowIso c')) _ cl
    (fun _ => eq_refl) (fun _ => eq_refl) ltac:(done) H).
Qed.

Lemma owned_claim c c' q v d cl d' r p :
  sys_ok (mkSys d cl) -> owned (mkSys d cl) -> claimRow c c' q v d = (d', Some r) ->
  owned (mkSys d' (with_payload (hydrateMeta r) p :: cl)).
Proof.
  intros [OK Ht] O H.
  pose proof (claimRow_Some c c' q v d d' r OK H) as (r0 & _ & Hr0 & Hs0 & -> & ->).
  assert (Hone : forall x, In x (jobs d) -> (row_id x =? row_id r0) = true -> x = r0).
  { intros x Hx E. bools. exact (NoDup_map_inj_in row_id (jobs d) x r0 (ok_ids _ OK) Hx Hr0 E). }
  destruct O. cbn [sys_db sys_claims] in *. split; cbn [sys_db sys_claims].
  - intros j x Hj (x0 & Hx & ->)%In_update. destruct (row_id x0 =? row_id r0) eqn:E.
    + rewrite (Hone x0 Hx E) in *. destruct Hj as [<-|Hj]; simpl; [lia|].
      intros Ej. specialize (o_attempts0 j r0 Hj Hr0 Ej). lia.
    + destruct Hj as [<-|Hj]; [|eauto]. simpl. intros Ej. bools. congruence.
  - cbn [map]. constructor; [|done]. intros (j & E & Hj)%in_map_iff. simpl in E.
    injection E as E1 E2. specialize (o_attempts0 j r0 Hj Hr0 (eq_sym E1)). lia.
  - intros x (x0 & Hx & ->)%In_update. destruct (row_id x0 =? row_id r0) eqn:E.
    + rewrite (Hone x0 Hx E). intros _. eexists. split; [by left|].
      apply fence_true. simpl. split; [done|]. split; [done|]. eauto.
    + intros Hs. destruct (o_owner0 x0 Hx Hs) as (j & Hj & Hf). exists j. split; [by right|done].
Qed.

Lemma qstep_owned l (s s' : @Sys Json) :
  sys_ok s -> l <> LRetry -> qstep this l s s' -> owned s -> owned s'.
Proof.
  intros [OK Ht] Hl Hst O. destruct Hst; cbn [sys_db sys_claims] in *.
  - by apply owned_insert.
  - unfold enqueueBatch. case_test; [done|]. destruct (check_steps _ _ _); [done|].
    destruct (insert_steps _ _ _ _ _ _ _ _) as [[d2 ids]|e] eqn:Ei; [|done]. simpl.
    eapply owned_insert_steps in Ei; [exact Ei|exact Ht|].
    eapply owned_sub; [|exact O]. done.
  - by eapply owned_claim.
  - by apply owned_complete.
  - unfold fail. case_test; by apply owned_update.
  - exact (owned_update _ (reclaim_set (nowIso c)) _ cl (fun _ => eq_refl) (fun _ => eq_refl) ltac:(done)
      (owned_update _ (retire_set STALLED_ERROR (nowIso c)) _ cl (fun _ => eq_refl) (fun _ => eq_refl) ltac:(done) O)).
  - eapply owned_sub; [|exact O]. intros r Hr. by apply filter_sub in Hr.
  - done.
  - destruct (discard_walk _ _ _ _ OK H) as [->|W]; [done|]. destruct W. destruct w_jobs as [p Ej].
    eapply owned_sub; [|exact O]. rewrite Ej. intros r Hr. by apply filter_sub in Hr.
Qed.

Lemma reachable_owned allow (s : @Sys Json) :
  allow LRetry = false -> reachable this allow s -> owned s.
Proof.
  intros Ha. induction 1 as [|l s s' Hr IH Hl Hst].
  - split; simpl; [done|constructor|done].
  - eapply qstep_owned; [by eapply reachable_ok| |done|done]. intros ->. congruence.
Qed.

(** A report whose claim generation is over touches nothing. *)
Lemma stale_fence (j j' : @Job Json) (s : @Sys Json) :
  owned s -> In j' (sys_claims s) -> j_id j' = j_id j -> j_attempts j < j_attempts j' ->
  forall r, In r (jobs (sys_db s)) -> fence j r = false.
Proof.
  intros O Hj' Eid Hlt r Hr. destruct (fence j r) eqn:E; [|done].
  apply fence_true in E as (Hid & _ & _ & Ha).
  pose proof (o_attempts s O j' r Hj' Hr ltac:(congruence)). lia.
Qed.
End Ownership.

(** ** The lifecycle of a job *)

(** The moves of a job's status, by the kind of step that makes them. *)
Inductive lifecycle : label -> JobStatus -> JobStatus -> Prop :=
| life_stay l s : lifecycle l s s
| life_release : lifecycle LComplete Blocked Ready
| life_claim : lifecycle LClaim Ready Running
| life_done : lifecycle LComplete Running Done
| life_requeue : lifecycle LFail Running Ready
| life_retire : lifecycle LFail Running Failed
| life_reclaim : lifecycle LReclaim Running Ready
| life_stall : lifecycle LReclaim Running Failed
| life_retry : lifecycle LRetry Failed Ready.

Section Lifecycle.
Context {Json : Type} `{!JsonCodec Json}.
Variable this : QueueOptions.

Lemma lifecycle_update l p f d r r' :
  db_ok d -> (forall x, row_id (f x) = row_id x) ->
  In r (jobs d) -> In r' (fst (update_where p f (jobs d))) -> row_id r' = row_id r ->
  (p r = true -> lifecycle l (row_status r) (row_status (f r))) ->
  lifecycle l (row_status r) (row_status r').
Proof.
  intros OK Hid Hr (r0 & Hr0 & ->)%In_update E Hl.
  assert (r0 = r) as ->.
  { apply (NoDup_map_inj_in row_id (jobs d)); [apply OK|done|done|].
    destruct (p r0); rewrite ?Hid in E; congruence. }
  destruct (p r) eqn:Ep; [auto|constructor].
Qed.

Lemma lifecycle_sub l d d' r r' :
  db_ok d -> (forall x, In x (jobs d') -> row_id x = row_id r -> In x (jobs d)) ->
  In r (jobs d) -> In r' (jobs d') -> row_id r' = row_id r ->
  lifecycle l (row_status r) (row_status r').
Proof.
  intros OK Hs Hr Hr' E.
  rewrite (NoDup_map_inj_in row_id (jobs d) r' r (ok_ids _ OK)); [constructor|auto|done|done].
Qed.

Lemma insert_steps_old clock i now b steps ids d d' ids' r :
  insert_steps this clock i now b steps ids d = Ok (d', ids') ->
  next_job_id d <= next_job_id d' /\
  (In r (jobs d') -> row_id r < next_job_id d -> In r (jobs d)).
Proof.
  revert i ids d. induction steps as [|s steps IH]; intros i ids d H.
  { simpl in H. injection H as <- <-. split; [lia|done]. }
  cbn [insert_steps] in H. unfold insert_job in H at 1. cbv zeta in H.
  destruct (insert_edges _ _ _ _) as [d2|e] eqn:Ei; [|done]. simpl in H.
  apply insert_edges_spec in Ei as (Ej & En & _). cbn [jobs next_job_id] in *.
  apply IH in H as [Hn Hin]. split; [lia|]. intros Hr Hlt. specialize (Hin Hr ltac:(lia)).
  rewrite Ej in Hin. apply in_app_iff in Hin as [|[<-|[]]]; [done|]. simpl in Hlt. lia.
Qed.

Lemma enqueueBatch_old c c' nm steps d r :
  In r (jobs (fst (enqueueBatch this c c' nm steps d))) -> row_id r < next_job_id d ->
  In r (jobs d).
Proof.
  unfold enqueueBatch. case_test; [done|]. destruct (check_steps _ _ _); [done|].
  destruct (insert_steps _ _ _ _ _ _ _ _) as [[d2 ids]|e] eqn:Ei; [|done]. simpl.
  by eapply insert_steps_old in Ei as [_ H].
Qed.

Lemma complete_lifecycle c c' (j : @Job Json) d r r' :
  db_ok d -> In r (jobs d) -> In r' (jobs (complete c c' j d)) -> row_id r' = row_id r ->
  lifecycle LComplete (row_status r) (row_status r').
Proof.
  intros OK Hr Hr' E. unfold complete in Hr'. cbn [update_where] in Hr'. cbv zeta in Hr'.
  set (now := nowIso c) in *.
  assert (Hstep : forall x, In x (fst (update_where (fence j) (complete_set now) (jobs d))) ->
    row_id x = row_id r -> lifecycle LComplete (row_status r) (row_status x)).
  { intros x Hx Ex. eapply lifecycle_update; [exact OK| |exact Hr|exact Hx|exact Ex|]; [done|].
    intros (_ & Hs & _)%fence_true. rewrite Hs. constructor. }
  destruct (_ >? 0); [|by apply Hstep].
  unfold releaseReadyDependents in Hr'. apply In_update in Hr' as (x & Hx & ->).
  destruct (releasable _ _ x) eqn:Er; [|by apply Hstep].
  apply releasable_true in Er as (Hs & _). specialize (Hstep x Hx E). rewrite Hs in Hstep.
  simpl. destruct (row_status r); inversion Hstep; constructor.
Qed.
End Lifecycle.

(** ** Properties *)

Section Properties.
Context {Json : Type} `{!JsonCodec Json}.
Variable this : QueueOptions.

(** C3: In every state that concurrent clients of the queue can reach (any
    interleaving of statements and transactions, any clock readings, stale and
    repeated outcome reports included) the tables are well formed: ids are unique
    and below the counter, [locked_until] is set exactly on running jobs and
    [finished_at] exactly on terminal ones, [attempts] stays within the budget,
    every dependency edge points backwards between two existing batch jobs, and no
    job past [blocked] has an unfinished prerequisite row. *)
Theorem queue_invariant (s : @Sys Json) :
  reachable this (fun _ => true) s -> db_ok (sys_db s).
Proof. intros H. by apply reachable_ok in H as [? _]. Qed.

(** Fact: No deadlock: as long as [prune] does not run, every blocked job of a
    reachable state waits for an existing prerequisite that is not done, so it is
    released, at the latest, by the completion of its last prerequisite. *)
Theorem queue_blocked_jobs_wait (s : @Sys Json) :
  reachable this (fun l => match l with LPrune => false | _ => true end) s -> live (sys_db s).
Proof.
  induction 1 as [|l s s' Hr IH Hl Hst]; [intros r []|].
  apply (qstep_live this l s s'); [by eapply reachable_ok| |done|done].
  intros E. by subst l.
Qed.

(** C15: Exclusive ownership: while no operator retries a job, each running job of a
    reachable state answers to exactly one of the claims ever handed out, whatever
    the clocks read; two workers never hold the same job. *)
Theorem queue_exclusive_owner (s : @Sys Json) r :
  reachable this (fun l => match l with LRetry => false | _ => true end) s ->
  In r (jobs (sys_db s)) -> row_status r = Running ->
  exists j, In j (sys_claims s) /\ fence j r = true /\
    forall j', In j' (sys_claims s) -> fence j' r = true -> j' = j.
Proof.
  intros H Hr Hs. apply reachable_owned in H as O; [|done].
  destruct (o_owner _ O r Hr Hs) as (j & Hj & Hf). exists j. do 2 (split; [done|]).
  intros j' Hj' Hf'. apply fence_true in Hf as (E1 & _ & _ & E2).
  apply fence_true in Hf' as (E1' & _ & _ & E2').
  apply (NoDup_map_inj_in _ _ _ _ (o_unique _ O) Hj' Hj). congruence.
Qed.

(** C25: Fencing: a worker whose job has been claimed again since (and not retried by
    an operator) reports [done] or a failure to no effect at all. *)
Theorem queue_stale_report (s : @Sys Json) (j j' : @Job Json) c c' e :
  reachable this (fun l => match l with LRetry => false | _ => true end) s ->
  In j' (sys_claims s) -> j_id j' = j_id j -> j_attempts j < j_attempts j' ->
  complete c c' j (sys_db s) = sys_db s /\ fst (fail this c c' j e (sys_db s)) = sys_db s.
Proof.
  intros H Hj' Eid Hlt. apply reachable_owned in H as O; [|done].
  pose proof (stale_fence j j' s O Hj' Eid Hlt) as Hf.
  split.
  - unfold complete. rewrite update_none by done. by destruct s as [[] ?].
  - unfold fail. case_test; rewrite update_none by done; by destruct s as [[] ?].
Qed.

(** Fact: The job state machine: one step moves the status of a job only along
    blocked -> ready -> running -> done | failed, running -> ready (a failed attempt
    or a reclaim) and failed -> ready (an operator retry), each by its own
    operation; [done] is final. *)
Theorem queue_lifecycle l (s s' : @Sys Json) r r' :
  sys_ok s -> qstep this l s s' ->
  In r (jobs (sys_db s)) -> In r' (jobs (sys_db s')) -> row_id r' = row_id r ->
  lifecycle l (row_status r) (row_status r').
Proof.
  intros [OK Ht] Hst Hr Hr' E. destruct Hst; cbn [sys_db] in *.
  - apply in_app_iff in Hr' as [Hr'|[<-|[]]].
    + rewrite (NoDup_map_inj_in row_id _ r' r (ok_ids _ OK) Hr' Hr E). constructor.
    + pose proof (ok_bound _ OK r Hr). simpl in E. lia.
  - eapply lifecycle_sub; [exact OK| |exact Hr|exact Hr'|exact E].
    intros x Hx Ex. apply enqueueBatch_old in Hx; [done|].
    rewrite Ex. by apply (ok_bound _ OK).
  - pose proof (claimRow_Some c c' q v d d' r0 OK H) as (r1 & _ & Hr1 & Hs1 & _ & ->).
    eapply lifecycle_update; [exact OK| |exact Hr|exact Hr'|exact E|]; [done|].
    intros Ex%Z.eqb_eq. rewrite (NoDup_map_inj_in row_id _ r r1 (ok_ids _ OK) Hr Hr1 Ex), Hs1. constructor.
  - by eapply complete_lifecycle.
  - unfold fail in Hr'. destruct (_ || _);
      (eapply lifecycle_update; [exact OK| |exact Hr|exact Hr'|exact E|]; [done|];
       intros (_ & Hs & _)%fence_true; rewrite Hs; constructor).
  - unfold reclaim in Hr'. cbn [update_where] in Hr'. apply in_map_iff in Hr' as (x & <- & Hx).
    assert (H : lifecycle LReclaim (row_status r) (row_status x)).
    { eapply (lifecycle_update _ _ (retire_set STALLED_ERROR (nowIso c)));
        [exact OK| |exact Hr|exact Hx|by destruct (_ && _)|]; [done|].
      intros [Ex _]%andb_true_iff. apply stranded_true in Ex as [Hs _]. rewrite Hs. constructor. }
    destruct (_ && _) eqn:Ex; [|done]. apply andb_true_iff in Ex as [[Hs _]%stranded_true _].
    rewrite Hs in H. simpl. destruct (row_status r); inversion H; constructor.
  - eapply lifecycle_sub; [exact OK| |exact Hr|exact Hr'|exact E].
    intros x Hx _. by apply filter_sub in Hx.
  - eapply (lifecycle_update _ _ (retry_set (nowIso c)));
      [exact OK| |exact Hr|exact Hr'|exact E|]; [done|].
    intros [_ Ex%status_is_true]%andb_true_iff. rewrite Ex. constructor.
  - destruct (discard_walk _ _ _ _ OK H) as [->|W].
    + rewrite (NoDup_map_inj_in row_id _ r' r (ok_ids _ OK) Hr' Hr E). constructor.
    + destruct W. destruct w_jobs as [p Ej].
      eapply lifecycle_sub; [exact OK| |exact Hr|exact Hr'|exact E].
      intros x Hx _. rewrite Ej in Hx. by apply filter_sub in Hx.
Qed.
End Properties.
