(* ===== verification/QueueOps.v ===== *)
(** * The durable job queue: what each operation does

    Functional theorems about the operations of [Queue], on every branch, and the
    worker's pass as a run of the step relation. *)
From S2P Require Import Prelude JsTime Sql Json Queue QueueInv QueueDiscard QueueProps.

(** ** The claim order *)

Definition str_lt (a b : string) : Prop := String.compare a b = Lt.

(** [a] is served before [b]: higher priority, then earlier [run_at], then lower id. *)
Definition served_before (a b : Row) : Prop :=
  row_priority b < row_priority a \/
  (row_priority a = row_priority b /\
   (str_lt (row_run_at a) (row_run_at b) \/
    (row_run_at a = row_run_at b /\ row_id a < row_id b))).

Lemma str_compare_refl a : String.compare a a = Eq.
Proof. pose proof (String.compare_antisym a a). by destruct (String.compare a a). Qed.

Lemma str_lt_trans a b c : str_lt a b -> str_lt b c -> str_lt a c.
Proof.
  unfold str_lt. intros H1 H2.
  assert (L1 : String.le a b) by (unfold String.le, String.leb; by rewrite H1).
  assert (L2 : String.le b c) by (unfold String.le, String.leb; by rewrite H2).
  assert (L3 : String.le a c) by (etransitivity; eassumption).
  unfold String.le, String.leb in L3. destruct (String.compare a c) eqn:E; [|done|done].
  apply String.compare_eq_iff in E as ->.
  rewrite String.compare_antisym, H2 in H1. done.
Qed.

Lemma str_trichotomy a b : str_lt a b \/ a = b \/ str_lt b a.
Proof.
  unfold str_lt. destruct (String.compare a b) eqn:E; auto.
  - apply String.compare_eq_iff in E. auto.
  - right; right. by rewrite String.compare_antisym, E.
Qed.

Lemma str_lt_irrefl a : ~ str_lt a a.
Proof. unfold str_lt. by rewrite str_compare_refl. Qed.

Lemma claim_before_true a b : claim_before a b = true <-> served_before a b.
Proof.
  unfold claim_before, served_before, str_lt.
  destruct (row_priority a =? row_priority b) eqn:E; bools.
  - rewrite E. destruct (String.compare _ _) eqn:Ec.
    + apply String.compare_eq_iff in Ec. rewrite Z.ltb_lt. naive_solver lia.
    + naive_solver lia.
    + split; [done|]. intros [?|[_ [?|[Er ?]]]]; [lia|done|].
      rewrite Er, str_compare_refl in Ec. done.
  - rewrite Z.ltb_lt. naive_solver lia.
Qed.

(** The reflexive order: not served after. *)
Definition served_by (a b : Row) : Prop :=
  row_priority b < row_priority a \/
  (row_priority a = row_priority b /\
   (str_lt (row_run_at a) (row_run_at b) \/
    (row_run_at a = row_run_at b /\ row_id a <= row_id b))).

Lemma claim_before_false a b : claim_before a b = false <-> served_by b a.
Proof.
  rewrite <- not_true_iff_false, claim_before_true. unfold served_before, served_by. split.
  - intros H. destruct (Z.lt_trichotomy (row_priority a) (row_priority b)) as [?|[?|?]]; [auto| |tauto].
    right. split; [done|].
    destruct (str_trichotomy (row_run_at a) (row_run_at b)) as [?|[?|?]]; [tauto| |auto].
    right. split; [done|]. destruct (Z_le_gt_dec (row_id b) (row_id a)); [done|].
    destruct H. right. split; [done|]. right. split; [done|lia].
  - intros [H|(H & [H1|[E H1]])] [H'|(H' & [H2|[E' H2]])]; try lia.
    + by apply (str_lt_irrefl (row_run_at a)), (str_lt_trans _ (row_run_at b)).
    + rewrite E' in H1. by apply str_lt_irrefl in H1.
    + rewrite E in H2. by apply str_lt_irrefl in H2.
Qed.

Lemma served_by_trans a b c : served_by a b -> served_by b c -> served_by a c.
Proof.
  unfold served_by. intros [H|(H & H1)] [H'|(H' & H1')]; try (left; lia).
  right. split; [lia|]. destruct H1 as [H1|[E H1]], H1' as [H1'|[E' H1']].
  - left. by eapply str_lt_trans.
  - left. by rewrite <- E'.
  - left. by rewrite E.
  - right. split; [congruence|lia].
Qed.

Lemma claim_before_weak a b c :
  claim_before a b = false -> claim_before b c = false -> claim_before a c = false.
Proof. rewrite !claim_before_false. eauto using served_by_trans. Qed.

Lemma claim_before_asym a b : claim_before a b = true -> claim_before b a = false.
Proof.
  rewrite claim_before_true, claim_before_false. unfold served_before, served_by.
  intros [?|(? & [?|[? ?]])]; [by left|right; auto|right; split; [done|right; split; [done|lia]]].
Qed.

(** ** Batches *)

(** A batch the code accepts: some steps, each edge to an earlier step, no edge twice. *)
Definition well_formed_edges (index : Z) (ds : list Z) : Prop :=
  List.NoDup ds /\ forall dep, In dep ds -> 0 <= dep < index.

Lemma js_index_lt {A} (l : list A) i :
  0 <= i < Z.of_nat (length l) <-> exists x, js_index l i = Some x.
Proof.
  unfold js_index. split.
  - intros H. case_test; bools; [lia|].
    destruct (nth_error l (Z.to_nat i)) eqn:E; [eauto|]. apply nth_error_None in E. lia.
  - intros [x H]. destruct (i <? 0) eqn:Et; [done|]. bools.
    assert (nth_error l (Z.to_nat i) <> None) as Hn by congruence.
    apply nth_error_Some in Hn. lia.
Qed.

Lemma js_index_inj {A} (l : list A) i k x :
  List.NoDup l -> js_index l i = Some x -> js_index l k = Some x -> i = k.
Proof.
  unfold js_index. intros Hnd. repeat case_test; try done. bools. intros Hi Hk.
  assert (Z.to_nat i = Z.to_nat k); [|lia].
  eapply (proj1 (List.NoDup_nth_error l)); [done| |congruence].
  apply nth_error_Some. congruence.
Qed.

Section BatchAcceptance.
Context {Json : Type} `{!JsonCodec Json}.
Variable this : QueueOptions.

Lemma insert_edges_accepts j ids ds d :
  List.NoDup ids -> (forall e, In e (deps d) -> fst e = j ->
    forall dep, In dep ds -> js_index ids dep <> Some (snd e)) ->
  (exists d', insert_edges j ids ds d = Ok d') <->
  List.NoDup ds /\ forall dep, In dep ds -> 0 <= dep < Z.of_nat (length ids).
Proof.
  intros Hids. revert d. induction ds as [|dep ds IH]; intros d Hfresh.
  { simpl. split; [intros _; split; [constructor|done]|eauto]. }
  cbn [insert_edges]. destruct (js_index ids dep) as [p|] eqn:Ep.
  - destruct (existsb _ _) eqn:Ex.
    + exfalso. apply existsb_exists in Ex as (e & He & Heq). unfold edge_eqb in Heq. bools. simpl in *.
      apply (Hfresh e He ltac:(congruence) dep); [by left|congruence].
    + assert (Hlt : 0 <= dep < Z.of_nat (length ids)) by (apply js_index_lt; eauto).
      destruct (in_dec Z.eq_dec dep ds) as [Hin|Hnin].
      * split; [|intros [Hnd _]; by inversion Hnd].
        intros [d' H]. exfalso. clear IH Hfresh Ex.
        assert (Hd : In (j, p) (deps (with_deps (deps d ++ [(j, p)]) d)))
          by (apply in_app_iff; right; by left).
        revert H Hd. generalize (with_deps (deps d ++ [(j, p)]) d) as d0.
        induction ds as [|dep' ds IHds]; [done|]. intros d0. cbn [insert_edges].
        destruct (decide (dep' = dep)) as [->|Hne].
        -- rewrite Ep. intros H Hd. destruct (existsb _ _) eqn:E0; [done|].
           rewrite existsb_false in E0. specialize (E0 _ Hd). unfold edge_eqb in E0.
           by rewrite !Z.eqb_refl in E0.
        -- destruct Hin as [?|Hin]; [done|].
           destruct (js_index ids dep') as [p'|]; [|done]. destruct (existsb _ _); [done|].
           intros H Hd. eapply IHds; [done|exact H|]. apply in_app_iff. by left.
      * rewrite IH.
        -- split; intros [Hnd Hb].
           ++ split; [by constructor|]. intros x [<-|Hx]; auto.
           ++ inversion Hnd; subst. split; [done|]. intros x Hx. apply Hb. by right.
        -- intros e [He|[<-|[]]]%in_app_iff Hf dep' Hdep'.
           ++ apply (Hfresh e He Hf). by right.
           ++ simpl. intros Ep'. apply Hnin. by rewrite (js_index_inj ids dep dep' p Hids Ep Ep').
  - split; [by intros [? ?]|]. intros [_ Hb].
    destruct (proj1 (js_index_lt ids dep) (Hb dep (or_introl eq_refl))) as [x Hx]. congruence.
Qed.

(** The ids the loop hands out are the next ones of the counter, in order. *)
Fixpoint ids_from (n : Z) (k : nat) : list Z :=
  match k with O => [] | S k' => n :: ids_from (n + 1) k' end.

(** Steps [index], [index + 1], ... of a batch have well-formed edges. *)
Fixpoint well_formed_steps (index : Z) (steps : list (@BatchStep Json)) : Prop :=
  match steps with
  | [] => True
  | s :: steps' =>
      well_formed_edges index (default [] (s_dependsOn s)) /\ well_formed_steps (index + 1) steps'
  end.

Lemma insert_steps_accepts clock i now b nm steps ids d :
  List.NoDup ids -> (forall k, In k ids -> k < next_job_id d) ->
  (forall e, In e (deps d) -> fst e < next_job_id d) ->
  check_steps nm (Z.of_nat (length ids)) steps = None ->
  ((exists d', insert_steps this clock i now b steps ids d = Ok (d', ids ++ ids_from (next_job_id d) (length steps)))
     <-> well_formed_steps (Z.of_nat (length ids)) steps) /\
  ((exists r, insert_steps this clock i now b steps ids d = Ok r) <->
     well_formed_steps (Z.of_nat (length ids)) steps).
Proof.
  revert i ids d. induction steps as [|s steps IH]; intros i ids d Hnd Hlt He Hc.
  { simpl. rewrite app_nil_r. split; split; eauto. }
  cbn [check_steps] in Hc. destruct (check_step _ _ _) eqn:Ec; [done|].
  rewrite check_step_None in Ec.
  assert (Hnd' : List.NoDup (ids ++ [next_job_id d])).
  { apply List.NoDup_app; [done|repeat constructor; auto|].
    intros x Hx [<-|[]]. specialize (Hlt _ Hx). lia. }
  cbn [insert_steps well_formed_steps length ids_from]. unfold insert_job. cbv zeta.
  match goal with |- context [insert_edges ?j ?l ?ds ?d1] =>
    pose proof (insert_edges_accepts j l ds d1 Hnd') as Hacc; cbn [deps] in Hacc end.
  assert (Hwf : (List.NoDup (default [] (s_dependsOn s)) /\
      forall dep, In dep (default [] (s_dependsOn s)) -> 0 <= dep < Z.of_nat (length (ids ++ [next_job_id d])))
    <-> well_formed_edges (Z.of_nat (length ids)) (default [] (s_dependsOn s))).
  { unfold well_formed_edges. rewrite length_app. simpl. split; intros [H1 H2]; (split; [done|]);
      intros dep Hdep; specialize (H2 dep Hdep); specialize (Ec dep Hdep); lia. }
  rewrite Hwf in Hacc. clear Hwf.
  specialize (Hacc ltac:(intros e Hin Hf; specialize (He e Hin); lia)).
  destruct (insert_edges _ _ _ _) as [d2|e] eqn:Ei.
  - apply insert_edges_spec in Ei as (Ej & En & Ee & _). cbn [jobs deps next_job_id outcome_bind] in *.
    destruct (IH (S i) (ids ++ [next_job_id d]) d2) as [IH1 IH2].
    + done.
    + rewrite En. intros k [Hk|[<-|[]]]%in_app_iff; [specialize (Hlt k Hk)|]; lia.
    + rewrite En. intros e He'. apply Ee in He' as [He'|(dep & p & _ & _ & ->)];
        [specialize (He e He')|simpl]; lia.
    + rewrite length_app, Nat2Z.inj_add. exact Hc.
    + rewrite length_app, Nat2Z.inj_add in IH1, IH2. simpl (Z.of_nat (length [_])) in *.
      rewrite En, <- app_assoc in IH1. split; [rewrite IH1|rewrite IH2]; naive_solver.
  - simpl. split; (split; [by intros [? ?]|]); intros [H _]; apply Hacc in H as [? ?]; done.
Qed.

Lemma check_steps_None nm index (steps : list (@BatchStep Json)) :
  well_formed_steps index steps -> check_steps nm index steps = None.
Proof.
  revert index. induction steps as [|s steps IH]; intros index; [done|].
  cbn [well_formed_steps check_steps]. intros [[_ Hb] H].
  assert (check_step nm index (default [] (s_dependsOn s)) = None) as ->.
  { apply check_step_None. intros dep Hdep. by apply Hb. }
  auto.
Qed.
End BatchAcceptance.

Section Operations.
Context {Json : Type} `{!JsonCodec Json}.
Variable this : QueueOptions.

(** Fact: The claim: it returns nothing exactly when no ready job of the queue is due,
    and then changes nothing; otherwise it takes the one eligible job served before
    every other (highest priority, then earliest [run_at], then lowest id), marks
    it running with one more attempt and the new deadline, and touches no other row. *)
Theorem claimRow_spec c c' q v d :
  db_ok d ->
  match claimRow c c' q v d with
  | (d', None) => d' = d /\ forall r, In r (jobs d) -> eligible q (nowIso c) r = false
  | (d', Some r) =>
      exists r0, In r0 (jobs d) /\ eligible q (nowIso c) r0 = true /\
        (forall s, In s (jobs d) -> eligible q (nowIso c) s = true -> s <> r0 -> served_before r0 s) /\
        r = claim_set (isoAfter c' v) (nowIso c) r0 /\
        (forall x, In x (jobs d') <-> x = r \/ (In x (jobs d) /\ x <> r0)) /\
        deps d' = deps d /\ batches d' = batches d
  end.
Proof.
  intros OK. destruct (claimRow c c' q v d) as [d' [r|]] eqn:E.
  - apply claimRow_Some in E as (r0 & Hc & Hr0 & _ & -> & ->); [|done].
    exists r0. destruct (candidate_In _ _ _ _ Hc) as [_ He]. do 2 (split; [done|]).
    assert (Huniq : forall x, In x (jobs d) -> row_id x = row_id r0 -> x = r0)
      by (intros x Hx; apply (NoDup_map_inj_in row_id (jobs d)); [apply OK|done|done]).
    split; [|split; [done|split; [|done]]].
    + intros s Hs Hes Hne.
      assert (Hle : claim_before s r0 = false).
      { eapply first_by_least; [apply claim_before_weak|apply claim_before_asym|exact Hc|].
        by apply filter_In. }
      apply claim_before_false in Hle.
      assert (row_id r0 <> row_id s) by (intros Eid; by apply Hne, Huniq).
      unfold served_by, served_before in *. naive_solver lia.
    + intros x. cbn [jobs with_jobs]. rewrite In_update. split.
      * intros (x0 & Hx & ->). destruct (row_id x0 =? row_id r0) eqn:Ex; bools.
        -- left. by rewrite (Huniq x0 Hx Ex).
        -- right. split; [done|]. by intros ->.
      * intros [->|[Hx Hne]].
        -- exists r0. by rewrite Z.eqb_refl.
        -- exists x. split; [done|].
           destruct (row_id x =? row_id r0) eqn:Ex; bools; [|done]. by destruct Hne; apply Huniq.
  - unfold claimRow in E. destruct (claim_candidate _ _ _) as [r0|] eqn:Ec.
    + injection E as _ E. apply candidate_In in Ec as [Hr0 _].
      eapply (List.find_none _ _) in E; [|apply In_update; exists r0; split; [done|reflexivity]].
      rewrite Z.eqb_refl in E. simpl in E. by rewrite Z.eqb_refl in E.
    + injection E as <-. split; [done|]. intros r Hr.
      apply first_by_None in Ec. destruct (eligible _ _ r) eqn:He; [|done].
      assert (In r (List.filter (eligible q (nowIso c)) (jobs d))) as Hin by (by apply filter_In).
      unfold claim_candidate in *. by rewrite Ec in Hin.
Qed.

(** Fact: The discard cascade: [discard] always ends; on an unknown or running target it
    changes nothing and reports [false]; otherwise it deletes exactly the target and
    the jobs blocked on it, transitively, and every blocked job it leaves still has
    all its dependency edges, each to a job that still exists. *)
Theorem discard_cascade i d :
  db_ok d ->
  (discard i d = Some (d, false) /\
     forall r, In r (jobs d) -> row_id r = i -> row_status r = Running) \/
  (exists d', discard i d = Some (d', true) /\
     (forall r, In r (jobs d) -> In r (jobs d') <-> ~ cascades d i (row_id r)) /\
     (forall r, In r (jobs d') -> In r (jobs d)) /\
     (forall r e, In r (jobs d') -> row_status r = Blocked -> In e (deps d) -> fst e = row_id r ->
        In e (deps d') /\ job_exists (jobs d') (snd e) = true) /\
     batches d' = batches d).
Proof.
  intros OK. destruct (discard_spec i d OK) as [H|(d' & r & E & W & _)]; [by left|right].
  exists d'. split; [done|]. split; [intros; by eapply walk_end_rows|].
  destruct W. destruct w_jobs as [p Ej], w_rest as (Eb & _). split; [|split; [|done]].
  - rewrite Ej. intros x Hx. by apply filter_sub in Hx.
  - intros x e Hx Hs He Hf. destruct (w_keep x e Hx Hs He Hf) as [? [?|[]]]. done.
Qed.

(** Fact: [enqueueBatch] is all-or-nothing: it succeeds exactly on a non-empty list of
    steps whose edges each name an earlier step once, then returning the batch id
    and one fresh job id per step in order; in every other case (an empty batch, a
    forward or self edge, a negative index, a repeated edge) it throws and the
    database is the one it was called on. *)
Theorem enqueueBatch_accepts c c' nm steps d :
  db_ok d ->
  (steps <> [] /\ well_formed_steps 0 steps /\
     exists d', enqueueBatch this c c' nm steps d =
       (d', Ok (mkBatchHandle (next_batch_id d) (ids_from (next_job_id d) (length steps))))) \/
  (~ (steps <> [] /\ well_formed_steps 0 steps) /\
     exists e, enqueueBatch this c c' nm steps d = (d, Throw e)).
Proof.
  intros OK. unfold enqueueBatch.
  destruct steps as [|s steps]; [right; split; [naive_solver|eexists; done]|].
  change (Z.of_nat (length (s :: steps)) =? 0) with false. cbv iota.
  destruct (check_steps nm 0 (s :: steps)) as [e|] eqn:Ec.
  { right. split; [|eauto]. intros [_ H]. apply (check_steps_None nm) in H. congruence. }
  cbv zeta. match goal with |- context [insert_steps this c' 0 ?now ?b ?st [] ?d1] =>
    destruct (insert_steps_accepts this c' 0 now b nm st [] d1) as [H1 H2] end.
  - constructor.
  - intros k [].
  - intros e He. by apply (ok_backward _ OK).
  - exact Ec.
  - simpl (Z.of_nat (length [])) in *. cbn [next_job_id app] in H1.
    destruct (insert_steps _ _ _ _ _ _ _ _) as [r|e] eqn:Ei.
    + left. split; [done|]. assert (W : well_formed_steps 0 (s :: steps)) by (apply H2; eauto).
      split; [done|]. apply H1 in W as [d' [= ->]]. eauto.
    + right. split; [|eauto]. intros [_ W]. apply H2 in W as [? ?]. done.
Qed.

(** What a sweep makes of one row. *)
Definition reclaimed (now : string) (r : Row) : Row :=
  if stranded now r then
    if row_max_attempts r <=? row_attempts r then retire_set STALLED_ERROR now r else reclaim_set now r
  else r.

Lemma stranded_retired err now r : stranded now (retire_set err now r) = false.
Proof. done. Qed.

(** Fact: The reclaim sweep: its two statements together rewrite each stranded row once (a
    row whose deadline lapsed with budget to spare returns to [ready], one that has
    burned it is dead-lettered with the stall reason), leave every other row alone,
    report how many rows were stranded, and leave none. *)
Theorem reclaim_spec c d :
  let '(d', n) := reclaim c d in
  jobs d' = map (reclaimed (nowIso c)) (jobs d) /\
  n = Z.of_nat (length (List.filter (stranded (nowIso c)) (jobs d))) /\
  (forall r, In r (jobs d') -> stranded (nowIso c) r = false) /\
  deps d' = deps d /\ batches d' = batches d.
Proof.
  unfold reclaim. cbn [update_where]. set (now := nowIso c). cbn [jobs deps batches with_jobs].
  assert (Hjobs : forall js, map (fun r => if stranded now r && (row_attempts r <? row_max_attempts r) then reclaim_set now r else r)
    (map (fun r => if stranded now r && (row_max_attempts r <=? row_attempts r)
      then retire_set STALLED_ERROR now r else r) js) = map (reclaimed now) js).
  { intros js. rewrite map_map. apply map_ext. intros r. unfold reclaimed.
    destruct (stranded now r) eqn:Es; cbn [andb]; [|by rewrite Es].
    destruct (_ <=? _) eqn:E; cbn [andb]; [done|].
    rewrite Es. cbn [andb]. bools. by replace (_ <? _) with true by (symmetry; apply Z.ltb_lt; lia). }
  rewrite Hjobs. split; [done|]. split; [|split; [|done]].
  - rewrite <- Nat2Z.inj_add. f_equal. induction (jobs d) as [|r js IH]; [done|].
    cbn [List.filter map]. destruct (stranded now r) eqn:Es; cbn [andb].
    + destruct (_ <=? _) eqn:E; cbn [andb length].
      * rewrite stranded_retired. cbn [andb]. lia.
      * rewrite Es. bools. cbn [andb].
        replace (_ <? _) with true by (symmetry; apply Z.ltb_lt; lia). cbn [length]. lia.
    + rewrite Es. cbn [andb]. exact IH.
  - intros r (r0 & <- & Hr)%in_map_iff. unfold reclaimed.
    destruct (stranded now r0) eqn:Es; [|done]. by destruct (_ <=? _).
Qed.

(** Fact: A batchless job's completion is a single fenced write: no dependency edge can
    name it, so the release that follows touches nothing, and skipping the
    transaction for such jobs loses no atomicity. *)
Theorem complete_batchless c c' (j : @Job Json) d :
  db_ok d -> (forall r, In r (jobs d) -> row_id r = j_id j -> row_batch_id r = None) ->
  complete c c' j d = with_jobs (fst (update_where (fence j) (complete_set (nowIso c)) (jobs d))) d.
Proof.
  intros OK Hb. unfold complete. destruct (update_where _ _ (jobs d)) as [js n] eqn:E.
  destruct (n >? 0); [|done]. unfold releaseReadyDependents.
  rewrite update_none; [by destruct d|].
  intros r Hr. destruct (releasable _ _ r) eqn:Er; [exfalso|done].
  apply releasable_true in Er as (_ & He & _). cbn [deps with_jobs] in He.
  destruct (ok_endpoints _ OK _ _ He (or_intror eq_refl)) as (x & Hx & Ex & Hn).
  by apply Hn, Hb.
Qed.

(** Fact: Dependency release: when a worker's completion lands, a blocked job becomes
    ready exactly when it depends on the finished job and all its other
    prerequisites that still exist are done; it is left untouched otherwise. *)
Theorem complete_releases c c' (j : @Job Json) d r :
  db_ok d -> (exists x, In x (jobs d) /\ fence j x = true) ->
  In r (jobs d) -> row_status r = Blocked ->
  let waiting := exists p, In (row_id r, row_id p) (deps d) /\ In p (jobs d) /\
    row_id p <> j_id j /\ row_status p <> Done in
  (In (row_id r, j_id j) (deps d) /\ ~ waiting /\
     In (set_updated_at (set_status r Ready) (nowIso c')) (jobs (complete c c' j d))) \/
  ((~ In (row_id r, j_id j) (deps d) \/ waiting) /\ In r (jobs (complete c c' j d))).
Proof.
  intros OK (x & Hx & Hfx) Hr Hs waiting. unfold complete.
  destruct (update_where (fence j) _ (jobs d)) as [js n] eqn:E.
  assert ((n >? 0) = true) as ->.
  { pose proof (changes_pos (fence j) (complete_set (nowIso c)) (jobs d)) as Hc. rewrite E in Hc.
    cbn [snd] in Hc. rewrite Hc. apply existsb_exists. eauto. }
  assert (Ejs : js = fst (update_where (fence j) (complete_set (nowIso c)) (jobs d))) by (by rewrite E).
  assert (Hr' : In r js).
  { rewrite Ejs. apply In_update. exists r. split; [done|].
    destruct (fence j r) eqn:Ef; [|done]. apply fence_true in Ef as (_ & Er & _). congruence. }
  assert (Hu : unsettled (with_jobs js d) r = true <-> waiting).
  { rewrite unsettled_true. cbn [deps jobs with_jobs]. rewrite Ejs. setoid_rewrite In_update.
    apply fence_true in Hfx as Hfx'. destruct Hfx' as (Eid & _). split.
    - intros (p & He & (p0 & Hp & ->) & Hps). destruct (fence j p0) eqn:Ef; [done|].
      exists p0. do 2 (split; [done|]). split; [|done]. intros Ep.
      rewrite (NoDup_map_inj_in row_id _ p0 x (ok_ids _ OK) Hp Hx) in Ef by congruence. congruence.
    - intros (p & He & Hp & Hne & Hps). exists p. split; [done|]. split; [|done].
      exists p. split; [done|]. destruct (fence j p) eqn:Ef; [|done].
      by apply fence_true in Ef as (? & _). }
  unfold releaseReadyDependents. cbn [jobs with_jobs].
  destruct (releasable (with_jobs js d) (j_id j) r) eqn:Er.
  - left. pose proof Er as (_ & He & Hn)%releasable_true. split; [done|]. split.
    + intros W. apply Hu in W. congruence.
    + apply In_update. exists r. by rewrite Er.
  - right. split; [|apply In_update; exists r; by rewrite Er].
    destruct (unsettled (with_jobs js d) r) eqn:Eu; [right; by apply Hu|left].
    intros He. assert (releasable (with_jobs js d) (j_id j) r = true); [|congruence].
    by apply releasable_true.
Qed.

(** Fact: A failure report: the retry delay never exceeds the cap, never shrinks as
    attempts grow, and doubles until it reaches the cap. *)
Theorem backoffMs_bounds n :
  0 <= baseBackoffMs this -> 1 <= n ->
  backoffMs this n <= maxBackoffMs this /\
  backoffMs this n <= backoffMs this (n + 1) /\
  backoffMs this 1 = Z.min (maxBackoffMs this) (baseBackoffMs this) /\
  backoffMs this (n + 1) = Z.min (maxBackoffMs this)
    (if baseBackoffMs this * 2 ^ (n - 1) <=? maxBackoffMs this
     then 2 * backoffMs this n else maxBackoffMs this).
Proof.
  intros Hb Hn. unfold backoffMs. replace (n + 1 - 1) with (Z.succ (n - 1)) by lia.
  rewrite Z.pow_succ_r by lia. pose proof (Z.pow_nonneg 2 (n - 1) ltac:(lia)).
  assert (0 <= baseBackoffMs this * 2 ^ (n - 1)) by nia.
  replace (baseBackoffMs this * (2 * 2 ^ (n - 1))) with (2 * (baseBackoffMs this * 2 ^ (n - 1))) by ring.
  replace (1 - 1) with 0 by lia. rewrite Z.pow_0_r, Z.mul_1_r.
  set (e := baseBackoffMs this * 2 ^ (n - 1)) in *. clearbody e.
  case_test; bools; lia.
Qed.

(** Runs of the system, whoever takes the steps. *)
Definition runs : @Sys Json -> @Sys Json -> Prop := rtc (fun s s' => exists l, qstep this l s s').

Lemma runs_one l s s' : qstep this l s s' -> runs s s'.
Proof. intros H. apply rtc_once. by exists l. Qed.

(** A handler settles after some run of the system, its own claims and others included. *)
Definition handler_runs (h : @Handler Json) : Prop :=
  forall job d cl, exists cl', runs (mkSys d cl) (mkSys (fst (h job d)) cl') /\ (forall j, In j cl -> In j cl').

(** Fact: A worker's pass refines the step relation: [runOnce] is one atomic claim, the
    handler's own run, and one fenced report (completion, retry or retirement, a
    poison payload and a missing handler included); so every invariant of the step
    relation holds of passes, and an idle pass changes nothing. *)
Theorem runOnce_refines_steps pe ne handlers t q v d cl :
  db_ok d -> (forall n h, handlers !! n = Some h -> handler_runs h) ->
  match runOnce this pe ne handlers t q v d with
  | (d', None) => d' = d
  | (d', Some res) => exists cl', runs (mkSys d cl) (mkSys d' cl') /\ In (res_job res) cl' /\
      j_status (res_job res) = Running
  end.
Proof.
  intros OK Hh. unfold runOnce.
  destruct (claimRow _ _ _ _ d) as [d1 [r|]] eqn:Ec.
  2: { unfold claimRow in Ec.
       destruct (claim_candidate _ _ _) as [r0|] eqn:E0; [|by injection Ec as <-].
       injection Ec as <- Ec. apply candidate_In in E0 as [Hr0 _].
       eapply (List.find_none _ _) in Ec; [|apply In_update; exists r0; split; [done|reflexivity]].
       rewrite Z.eqb_refl in Ec. simpl in Ec. by rewrite Z.eqb_refl in Ec. }
  assert (Hclaim : forall p, runs (mkSys d cl) (mkSys d1 (with_payload (hydrateMeta r) p :: cl)))
    by (intros p; eapply runs_one, step_claim, Ec).
  assert (Hst : row_status r = Running).
  { apply claimRow_Some in Ec as (r0 & _ & _ & _ & -> & _); done. }
  assert (Hfail : forall cl0 (j : @Job Json) e, In j cl0 ->
    runs (mkSys d1 cl0) (mkSys (fst (fail this (t_end t) (t_end' t) j e d1)) cl0))
    by (intros; eapply runs_one, step_fail; done).
  destruct (json_parse (row_payload r)) as [p|].
  2: { specialize (Hfail (hydrateMeta r :: cl) (hydrateMeta r) (pe (j_id (hydrateMeta r))) (or_introl eq_refl)).
       destruct (fail _ _ _ _ _ _) as [d2 o]. exists (hydrateMeta r :: cl). split; [|split; [by left|done]].
       etransitivity; [apply (Hclaim json_null)|exact Hfail]. }
  set (job := with_payload (hydrateMeta r) p) in *. specialize (Hclaim p). fold job in Hclaim.
  destruct (handlers !! j_name job) as [h|] eqn:Eh.
  2: { specialize (Hfail (job :: cl) job (ne (j_name job)) (or_introl eq_refl)).
       destruct (fail _ _ _ _ _ _) as [d2 o]. exists (job :: cl). split; [|split; [by left|done]].
       etransitivity; [apply Hclaim|exact Hfail]. }
  destruct (Hh _ h Eh job d1 (job :: cl)) as (cl' & Hrun & Hsub).
  destruct (h job d1) as [d2 [e|]]; cbn [fst] in Hrun.
  - destruct (fail this (t_end t) (t_end' t) job e d2) as [d3 o] eqn:Ef.
    exists cl'. split; [|split; [apply Hsub; by left|done]].
    etransitivity; [exact Hclaim|]. etransitivity; [exact Hrun|].
    replace d3 with (fst (fail this (t_end t) (t_end' t) job e d2)) by (by rewrite Ef).
    eapply runs_one, step_fail, Hsub. by left.
  - exists cl'. split; [|split; [apply Hsub; by left|done]].
    etransitivity; [exact Hclaim|]. etransitivity; [exact Hrun|].
    eapply runs_one, step_complete, Hsub. by left.
Qed.

(** A failure report lands on at most the row the worker holds: with the budget
    burned or a permanent error the row is retired with the message, otherwise it
    returns to [ready], due after the backoff; the outcome reported says which, and
    all other rows are untouched. *)
Lemma fail_spec c c' (j : @Job Json) e d :
  let last := (j_maxAttempts j <=? j_attempts j) || permanent e in
  let '(d', o) := fail this c c' j e d in
  o = (if last then OFailed else ORetry) /\
  jobs d' = map (fun r => if fence j r then
      if last then retire_set (message e) (nowIso c) r
      else requeue_set (message e) (isoAfter c' (backoffMs this (j_attempts j))) (nowIso c) r
    else r) (jobs d) /\
  deps d' = deps d.
Proof. unfold fail. by destruct (_ || _). Qed.

(** Fact: Retention: [prune] deletes exactly the terminal jobs finished before the cutoff
    and reports their number, never a blocked, ready or running one; it keeps exactly
    the edges between two surviving jobs and the batches that keep a job; a negative
    age counts as zero. *)
Theorem prune_spec c ms d :
  db_ok d ->
  let cutoff := isoAfter c (- Z.max 0 ms) in
  let '(d', n) := prune c ms d in
  (forall r, In r (jobs d) -> In r (jobs d') <->
     ~ (terminal (row_status r) /\ exists t, row_finished_at r = Some t /\ str_lt t cutoff)) /\
  n = Z.of_nat (length (jobs d)) - Z.of_nat (length (jobs d')) /\
  (forall e, In e (deps d') <-> In e (deps d) /\
     job_exists (jobs d') (fst e) = true /\ job_exists (jobs d') (snd e) = true) /\
  (forall b, In b (batches d') <-> In b (batches d) /\
     exists r, In r (jobs d') /\ row_batch_id r = Some (b_id b)).
Proof.
  intros OK cutoff. unfold prune. cbn [delete_where]. fold cutoff.
  cbn [jobs deps batches with_jobs with_deps with_batches].
  split; [|split; [|split]].
  - intros r Hr. rewrite filter_negb_In. unfold prunable.
    assert (Hp : (status_is (row_status r) Done || status_is (row_status r) Failed)
        && is_not_null (row_finished_at r) && sql_lt (row_finished_at r) cutoff = true <->
      terminal (row_status r) /\ exists t, row_finished_at r = Some t /\ str_lt t cutoff).
    { rewrite !andb_true_iff, orb_true_iff, !status_is_true. unfold terminal, str_lt, sql_lt, is_not_null.
      destruct (row_finished_at r) as [t|]; [|split; [intros [_ ?]; done|intros [_ (? & ? & _)]; done]].
      unfold String.ltb. split.
      - intros [[Ht _] Hlt]. split; [done|]. exists t. by destruct (String.compare t cutoff).
      - intros [Ht (t' & [= <-] & ->)]. done. }
    rewrite <- Hp, not_true_iff_false. tauto.
  - pose proof (filter_length (prunable cutoff) (jobs d)). lia.
  - intros e. rewrite filter_negb_In, orb_false_iff, !negb_false_iff. done.
  - intros b. rewrite filter_negb_In, negb_false_iff, existsb_exists.
    split; (intros [Hb (r & Hr & E)]; split; [done|]; exists r; split; [done|]).
    + unfold has_batch in E. destruct (row_batch_id r) as [x|]; [|done]. bools. by subst.
    + unfold has_batch. rewrite E. apply Z.eqb_refl.
Qed.

(** Fact: A job scheduled for a date past year 9999 is due at once: its ISO string starts
    with a sign, sorts before every four-digit year, and the claim's text comparison
    takes it for overdue. *)
Theorem far_future_job_is_due date clock now q (r : Row) o :
  o_runAt o = Some date -> 253402300800000 <= date -> fourDigitYear now ->
  row_status r = Ready -> row_queue r = q -> row_run_at r = eligibleAt clock o ->
  eligible q (nowIso now) r = true.
Proof.
  intros Eo Hd Hn Hs Hq Hr. apply eligible_true. do 2 (split; [done|]).
  rewrite Hr. unfold eligibleAt. rewrite Eo. unfold String.leb, nowIso.
  by rewrite toISOString_late.
Qed.
End Operations.

(** * The durable job queue: runs

    Concrete runs of the queue: the behaviours the modelling brought to light, and
    the instances at which the queue's theorems are applied. *)
(** A codec for the runs: payloads are their own text, [!] does not parse. *)
#[local] Instance text_codec : JsonCodec string := {
  json_stringify s := s;
  json_parse s := if String.eqb s "!" then None else Some s;
  json_null := "null"%string;
  json_empty_object := "{}"%string
}.

Definition q0 : QueueOptions := default_options.

Definition step_after (nm : string) (ds : list Z) : @BatchStep string :=
  mkBatchStep nm None None (Some ds).

Definition once : EnqueueOptions := mkEnqueueOptions None None (Some 1) None None.

(** Three steps: [a] with a single attempt, [b], and [c] after both. *)
Definition fan_in : list (@BatchStep string) :=
  [mkBatchStep "a" None (Some once) None; step_after "b" []; step_after "c" [0; 1]].

Definition seeded : DB :=
  Eval vm_compute in fst (enqueueBatch q0 0 (fun _ => 0) "fan-in" fan_in installSchema).

Lemma seeded_eq : seeded = fst (enqueueBatch q0 0 (fun _ => 0) "fan-in" fan_in installSchema).
Proof. vm_compute. reflexivity. Qed.

Definition no_row : Row := mkRow 0 "" "" "" Ready 0 0 0 "" None None None "" "" None.

Definition claimed (clock : Z) (d : DB) : DB * @Job string :=
  let '(d', row) := claimRow clock clock "default" 30000 d in
  (d', hydrateMeta (default no_row row)).

Lemma claimed_step clock d cl d' j :
  claimed clock d = (d', j) -> snd (claimRow clock clock "default" 30000 d) <> None ->
  qstep q0 LClaim (mkSys d cl) (mkSys d' (j :: cl)).
Proof.
  unfold claimed. destruct (claimRow _ _ _ _ d) as [d1 [r|]] eqn:E; [|done].
  intros H _. injection H as <- <-.
  exact (step_claim q0 clock clock "default" 30000 d cl d1 r json_null E).
Qed.

Definition boom : JsError := mkJsError "boom" false.

(** [a] is claimed and fails for good, [b] is claimed and still running. *)
Definition a_failed : DB * @Job string :=
  let '(d1, a) := claimed 0 seeded in
  claimed 0 (fst (fail q0 0 0 a boom d1)).

Definition status_of (i : Z) (d : DB) : option JobStatus :=
  option_map row_status (List.find (fun r => row_id r =? i) (jobs d)).

(** Fact: Without a prune, the completion of [b] leaves [c] blocked behind the failed [a];
    a prune between the two sweeps the edge to [a], and the same completion then
    releases [c], whose prerequisite never succeeded. *)
Theorem prune_releases_behind_a_failure :
  let '(d, b) := a_failed in
  status_of 1 d = Some Failed /\ status_of 2 d = Some Running /\ status_of 3 d = Some Blocked /\
  status_of 3 (complete 10 10 b d) = Some Blocked /\
  status_of 3 (complete 10 10 b (fst (prune 10 5 d))) = Some Ready.
Proof. vm_compute. repeat split; reflexivity. Qed.

(** One job, claimed by a first worker that never reports. *)
Definition stalled : DB * @Job string :=
  claimed 0 (fst (enqueue q0 0 0 "job" "{}"%string once installSchema)).

(** ... dead-lettered by a reclaim, retried by an operator, claimed by a second worker
    on a clock set back to the first claim's reading. *)
Definition reissued : DB * @Job string :=
  let d1 := fst (reclaim 40000 (fst stalled)) in
  claimed 0 (fst (retry 0 1 d1)).

(** Fact: An operator retry resets the attempt counter, so a claim after it can carry the
    very generation of a claim before it: here the second worker's claim equals the
    first one's in id, deadline and attempts, and the first worker's late [done]
    finishes the job the second one is running. *)
Theorem retry_reissues_a_generation :
  let '(d, second) := reissued in
  let first := snd stalled in
  j_attempts first = j_attempts second /\ j_lockedUntil first = j_lockedUntil second /\
  status_of 1 d = Some Running /\ status_of 1 (complete 50 50 first d) = Some Done.
Proof. vm_compute. repeat split; reflexivity. Qed.

(** ** Instances of the theorems *)

Definition sys_seeded : @Sys string := mkSys seeded [].

Lemma sys_seeded_reachable allow : allow LBatch = true -> reachable q0 allow sys_seeded.
Proof.
  intros H. unfold sys_seeded. rewrite seeded_eq.
  eapply reach_step; [apply reach_init|exact H|apply step_batch].
Qed.

Definition first_claim : DB * @Job string := Eval vm_compute in claimed 0 seeded.

Definition sys_claimed : @Sys string := mkSys (fst first_claim) [snd first_claim].

Lemma sys_claimed_step : qstep q0 LClaim sys_seeded sys_claimed.
Proof. apply (claimed_step 0); [vm_compute; reflexivity|vm_compute; discriminate]. Qed.

Lemma sys_claimed_reachable allow :
  allow LBatch = true -> allow LClaim = true -> reachable q0 allow sys_claimed.
Proof.
  intros H1 H2. eapply reach_step; [by apply sys_seeded_reachable|exact H2|apply sys_claimed_step].
Qed.

Lemma seeded_ok : db_ok seeded.
Proof. exact (proj1 (reachable_ok q0 (fun _ => true) sys_seeded (sys_seeded_reachable _ eq_refl))). Qed.

Lemma claimed_ok : db_ok (fst first_claim).
Proof. exact (proj1 (reachable_ok q0 (fun _ => true) sys_claimed (sys_claimed_reachable _ eq_refl eq_refl))). Qed.

Lemma queue_invariant_witness : db_ok (fst first_claim).
Proof.
  apply (queue_invariant q0 sys_claimed). by apply sys_claimed_reachable.
Defined.

Lemma queue_blocked_jobs_wait_witness : live seeded.
Proof.
  apply (queue_blocked_jobs_wait q0 sys_seeded). by apply sys_seeded_reachable.
Defined.

Lemma queue_exclusive_owner_witness :
  exists j, In j [snd first_claim] /\ fence j (nth 0 (jobs (fst first_claim)) no_row) = true.
Proof.
  destruct (queue_exclusive_owner q0 sys_claimed
    (nth 0 (jobs (fst first_claim)) no_row))
    as (j & Hj & Hf & _).
  - by apply sys_claimed_reachable.
  - vm_compute. by left.
  - vm_compute. reflexivity.
  - exists j. split; [exact Hj|exact Hf].
Defined.

(** A worker stalls, its job is reclaimed and claimed again: two generations. *)
Definition plain : DB := Eval vm_compute in fst (enqueue q0 0 0 "job" "{}"%string no_options installSchema).
Definition plain_db : DB := Eval vm_compute in fst (claimed 0 plain).
Definition gen1 : @Job string := Eval vm_compute in snd (claimed 0 plain).
Definition reclaimed_db : DB := Eval vm_compute in fst (reclaim 40000 plain_db).
Definition gen2_db : DB := Eval vm_compute in fst (claimed 50000 reclaimed_db).
Definition gen2 : @Job string := Eval vm_compute in snd (claimed 50000 reclaimed_db).

Lemma plain_eq : plain = fst (enqueue q0 0 0 "job" "{}"%string no_options installSchema).
Proof. vm_compute. reflexivity. Qed.

Lemma reclaimed_db_eq : reclaimed_db = fst (reclaim 40000 plain_db).
Proof. vm_compute. reflexivity. Qed.

Lemma gen1_reachable allow :
  allow LEnqueue = true -> allow LClaim = true -> reachable q0 allow (mkSys plain_db [gen1]).
Proof.
  intros H1 H2. apply (reach_step q0 _ LClaim (mkSys plain [])); [|exact H2|].
  - rewrite plain_eq. eapply (reach_step q0 _ LEnqueue); [apply reach_init|exact H1|apply step_enqueue].
  - apply (claimed_step 0); [vm_compute; reflexivity|vm_compute; discriminate].
Qed.

Lemma gen2_reachable :
  reachable q0 (fun l => match l with LRetry => false | _ => true end) (mkSys gen2_db [gen2; gen1]).
Proof.
  apply (reach_step q0 _ LClaim (mkSys reclaimed_db [gen1])); [|reflexivity|].
  - rewrite reclaimed_db_eq.
    eapply (reach_step q0 _ LReclaim); [by apply gen1_reachable|reflexivity|apply step_reclaim].
  - apply (claimed_step 50000); [vm_compute; reflexivity|vm_compute; discriminate].
Qed.

Lemma queue_stale_report_witness :
  complete 60000 60000 gen1 gen2_db = gen2_db /\ fst (fail q0 60000 60000 gen1 boom gen2_db) = gen2_db.
Proof.
  apply (queue_stale_report q0 (mkSys gen2_db [gen2; gen1]) gen1 gen2).
  - exact gen2_reachable.
  - by left.
  - vm_compute. reflexivity.
  - vm_compute. reflexivity.
Defined.

Lemma queue_lifecycle_witness :
  let r := nth 0 (jobs seeded) no_row in
  let r' := nth 0 (jobs (fst first_claim)) no_row in
  lifecycle LClaim (row_status r) (row_status r').
Proof.
  apply (queue_lifecycle q0 LClaim sys_seeded sys_claimed).
  - exact (reachable_ok q0 (fun _ => true) sys_seeded (sys_seeded_reachable _ eq_refl)).
  - exact sys_claimed_step.
  - vm_compute. by left.
  - vm_compute. by left.
  - vm_compute. reflexivity.
Defined.

Lemma claimRow_spec_witness :
  match claimRow 0 0 "default" 30000 seeded with
  | (_, None) => False
  | (d', Some r) => exists r0, In r0 (jobs seeded) /\ eligible "default" (nowIso 0) r0 = true
  end.
Proof.
  pose proof (claimRow_spec 0 0 "default" 30000 seeded seeded_ok) as H.
  destruct (claimRow 0 0 "default" 30000 seeded) as [d' [r|]] eqn:E.
  - destruct H as (r0 & H1 & H2 & _). exists r0. split; [exact H1|exact H2].
  - vm_compute in E. discriminate E.
Defined.

Lemma discard_cascade_witness :
  exists d', discard 1 seeded = Some (d', true) /\
    (forall r, In r (jobs seeded) -> In r (jobs d') <-> ~ cascades seeded 1 (row_id r)).
Proof.
  destruct (discard_cascade 1 seeded seeded_ok) as [[H _]|(d' & H1 & H2 & _)].
  - vm_compute in H. discriminate H.
  - exists d'. split; [exact H1|exact H2].
Defined.

Lemma enqueueBatch_accepts_witness :
  exists d', enqueueBatch q0 0 (fun _ => 0) "again" fan_in seeded = (d', Ok (mkBatchHandle 2 [4; 5; 6])).
Proof.
  destruct (enqueueBatch_accepts q0 0 (fun _ => 0) "again" fan_in seeded seeded_ok)
    as [(_ & _ & d' & H)|[_ [e H]]].
  - exists d'. exact H.
  - vm_compute in H. discriminate H.
Defined.

Lemma plain_ok : db_ok plain_db.
Proof. exact (proj1 (reachable_ok q0 _ _ (gen1_reachable (fun _ => true) eq_refl eq_refl))). Qed.

Lemma complete_batchless_witness :
  complete 5 5 gen1 plain_db = with_jobs (fst (update_where (fence gen1) (complete_set (nowIso 5)) (jobs plain_db))) plain_db.
Proof.
  apply (complete_batchless 5 5 gen1 plain_db plain_ok).
  intros r Hr _. vm_compute in Hr. destruct Hr as [<-|[]]. reflexivity.
Defined.

(** [a] completes while [c] still waits for [b]. *)
Lemma complete_releases_witness :
  exists r, In r (jobs (fst first_claim)) /\ row_status r = Blocked /\
    In r (jobs (complete 5 5 (snd first_claim) (fst first_claim))).
Proof.
  set (c := nth 2 (jobs (fst first_claim)) no_row).
  exists c.
  destruct (complete_releases 5 5 (snd first_claim) (fst first_claim) c claimed_ok) as [(_ & Hw & _)|[_ H]].
  - exists (nth 0 (jobs (fst first_claim)) c). split; [vm_compute; by left|vm_compute; reflexivity].
  - vm_compute. right; right; by left.
  - vm_compute. reflexivity.
  - exfalso. apply Hw. exists (nth 1 (jobs (fst first_claim)) c).
    split; [vm_compute; by right; left|]. split; [vm_compute; by right; left|].
    split; vm_compute; discriminate.
  - split; [vm_compute; right; right; by left|]. split; [vm_compute; reflexivity|exact H].
Defined.

Lemma backoffMs_bounds_witness : backoffMs q0 3 <= backoffMs q0 4 /\ backoffMs q0 4 = 8000.
Proof.
  destruct (backoffMs_bounds q0 3) as (_ & H & _); [vm_compute; discriminate|vm_compute; discriminate|].
  split; [exact H|vm_compute; reflexivity].
Defined.

Definition quiet_handler : @Handler string := fun _ d => (d, None).

Lemma runOnce_refines_steps_witness :
  match runOnce q0 (fun _ => boom) (fun _ => boom) {["a"%string := quiet_handler]}
          (mkReadings 0 0 5 5) None None seeded with
  | (_, None) => False
  | (d', Some res) => exists cl', runs q0 (mkSys seeded []) (mkSys d' cl') /\ In (res_job res) cl'
  end.
Proof.
  assert (Hh : forall n h, ({["a"%string := quiet_handler]} : gmap string Handler) !! n = Some h ->
    handler_runs q0 h).
  { intros n h [_ <-]%lookup_singleton_Some job d cl. exists cl. split; [apply rtc_refl|done]. }
  pose proof (runOnce_refines_steps q0 (fun _ => boom) (fun _ => boom) {["a"%string := quiet_handler]}
    (mkReadings 0 0 5 5) None None seeded [] seeded_ok Hh) as H.
  destruct (runOnce _ _ _ _ _ _ _ seeded) as [d' [res|]] eqn:E.
  - destruct H as (cl' & H1 & H2 & _). exists cl'. split; [exact H1|exact H2].
  - vm_compute in E. discriminate E.
Defined.

Lemma prune_spec_witness : In (3, 1) (deps (fst (prune 10 5 seeded))).
Proof.
  pose proof (prune_spec 10 5 seeded seeded_ok) as H.
  destruct (prune 10 5 seeded) as [d' n] eqn:E. destruct H as (_ & _ & He & _).
  apply (proj2 (He (3, 1))). vm_compute in E. injection E as <- <-.
  split; [vm_compute; by left|split; reflexivity].
Defined.

Lemma far_future_job_is_due_witness :
  eligible "default" (nowIso 1700000000000)
    (mkRow 1 "default" "job" "{}" Ready 0 0 5
      (eligibleAt 0 (mkEnqueueOptions None None None None (Some 253402300800000)))
      None None None "" "" None) = true.
Proof.
  apply (far_future_job_is_due 253402300800000 0 1700000000000 "default" _
    (mkEnqueueOptions None None None None (Some 253402300800000)));
    [reflexivity|lia|unfold fourDigitYear; lia|reflexivity|reflexivity|reflexivity].
Defined.
