(* ===== verification/Cache.v ===== *)
(** * The TTL cache

    [packages/cache/src]: the stores ([memory-store.ts], [sql-store.ts]), the
    interface the cache asks of a store, and [Cache] itself ([cache.ts]) with the
    interleavings of its asynchronous single-flight [remember]. *)
From S2P Require Import Prelude JsMap Json Sql.

Section Entries.
Context {V : Type}.

(** [StoredEntry]: [None] never expires. *)
Record StoredEntry := mkEntry { value : V; expiresAt : option Z }.

(** The expiry test of the cache: dead from its deadline on. *)
Definition expired (now : Z) (e : StoredEntry) : bool :=
  match expiresAt e with None => false | Some t => t <=? now end.
End Entries.
Arguments StoredEntry V : clear implicits.

(** ** The interface *)

(** What [Cache] asks of a store: an abstract content, reads that report it, deletes
    that are exact, and writes that never invent an entry and keep a live one. *)
Class CacheStore (V S : Type) := {
  store_get : string -> S -> S * option (StoredEntry V);
  store_set : Z -> string -> StoredEntry V -> S -> S;
  store_delete : string -> S -> S;
  store_clear : S -> S;
  store_wf : S -> Prop;
  store_content : S -> string -> option (StoredEntry V)
}.

Class CacheStoreLaws (V S : Type) `{!CacheStore V S} : Prop := {
  law_get k s : store_wf s -> snd (store_get k s) = store_content s k /\
    (forall k', store_content (fst (store_get k s)) k' = store_content s k') /\ store_wf (fst (store_get k s));
  law_set now k e s : store_wf s -> store_wf (store_set now k e s) /\
    (forall k' x, store_content (store_set now k e s) k' = Some x ->
       if String.eqb k' k then x = e else store_content s k' = Some x) /\
    (expired now e = false -> store_content (store_set now k e s) k = Some e);
  law_delete k s : store_wf s -> store_wf (store_delete k s) /\
    forall k', store_content (store_delete k s) k' = if String.eqb k' k then None else store_content s k';
  law_clear s : store_wf s -> store_wf (store_clear s) /\ forall k, store_content (store_clear s) k = None
}.

(** ** The in-memory store *)

Section MemoryStore.
Context {V : Type}.

Record MemoryStore := mkMemoryStore { entries : JsMap (StoredEntry V); maxEntries : Z }.

(** The constructor, on an integer cap. *)
Definition newMemoryStore (cap : option Z) : outcome string MemoryStore :=
  let cap := default 10000 cap in
  if cap <? 1 then Throw "MemoryStore maxEntries must be a positive integer"%string
  else Ok (mkMemoryStore [] cap).

Definition mem_get (key : string) (s : MemoryStore) : MemoryStore * option (StoredEntry V) :=
  match map_get key (entries s) with
  | None => (s, None)
  | Some e => (mkMemoryStore (map_set key e (map_delete key (entries s))) (maxEntries s), Some e)
  end.

(** The eviction loop over the keys: pop from the front while over the cap. *)
Fixpoint pop_overflow (overflow : Z) (m : JsMap (StoredEntry V)) : JsMap (StoredEntry V) :=
  match m with
  | [] => []
  | kv :: m' => if overflow <=? 0 then m else pop_overflow (overflow - 1) m'
  end.

Definition evictOverflow (now : Z) (s : MemoryStore) : MemoryStore :=
  if Z.of_nat (length (entries s)) <=? maxEntries s then s
  else
    let live := List.filter (fun kv => negb (expired now (snd kv))) (entries s) in
    mkMemoryStore (pop_overflow (Z.of_nat (length live) - maxEntries s) live) (maxEntries s).

Definition mem_set (now : Z) (key : string) (e : StoredEntry V) (s : MemoryStore) : MemoryStore :=
  evictOverflow now (mkMemoryStore (map_set key e (map_delete key (entries s))) (maxEntries s)).

Definition mem_delete (key : string) (s : MemoryStore) : MemoryStore :=
  mkMemoryStore (map_delete key (entries s)) (maxEntries s).

Definition mem_clear (s : MemoryStore) : MemoryStore := mkMemoryStore [] (maxEntries s).

(** Keys are unique, and the store is within its cap. *)
Definition mem_wf (s : MemoryStore) : Prop :=
  List.NoDup (map fst (entries s)) /\ 1 <= maxEntries s /\
  Z.of_nat (length (entries s)) <= maxEntries s.

#[export] Instance memory_store : CacheStore V MemoryStore := {
  store_get := mem_get;
  store_set := mem_set;
  store_delete := mem_delete;
  store_clear := mem_clear;
  store_wf := mem_wf;
  store_content s k := map_get k (entries s)
}.
End MemoryStore.
Arguments MemoryStore V : clear implicits.

(** ** The SQL store *)

Section SqlStore.
Context {V : Type} `{!JsonCodec V}.

(** A row of [lesto_cache]; [key] is the primary key. *)
Record CacheRow := mkCacheRow { c_key : string; c_value : string; c_expires_at : option Z }.

Definition sql_get (key : string) (t : list CacheRow) : option (option (StoredEntry V)) :=
  match List.find (fun r => String.eqb (c_key r) key) t with
  | None => Some None
  | Some r =>
      match json_parse (c_value r) with
      | None => None
      | Some v => Some (Some (mkEntry v (c_expires_at r)))
      end
  end.

(** INSERT ... ON CONFLICT(key) DO UPDATE. *)
Definition sql_set (key : string) (e : StoredEntry V) (t : list CacheRow) : list CacheRow :=
  let r := mkCacheRow key (json_stringify (value e)) (expiresAt e) in
  if existsb (fun r => String.eqb (c_key r) key) t
  then fst (update_where (fun r => String.eqb (c_key r) key) (fun _ => r) t)
  else t ++ [r].

Definition sql_delete (key : string) (t : list CacheRow) : list CacheRow :=
  fst (delete_where (fun r => String.eqb (c_key r) key) t).

Definition sql_clear (t : list CacheRow) : list CacheRow := [].

(** DELETE ... WHERE expires_at IS NOT NULL AND expires_at < ?. *)
Definition sweep (now : Z) (t : list CacheRow) : list CacheRow * Z :=
  delete_where (fun r => match c_expires_at r with Some d => d <? now | None => false end) t.

#[export] Instance sql_store : CacheStore V (list CacheRow) := {
  store_get k t := (t, default None (sql_get k t));
  store_set _ := sql_set;
  store_delete := sql_delete;
  store_clear := sql_clear;
  store_wf t := List.NoDup (map c_key t) /\ forall r, In r t -> json_parse (c_value r) <> None;
  store_content t k := default None (sql_get k t)
}.
End SqlStore.

(** ** The cache *)

Section Cache.
Context {V S : Type} `{!CacheStore V S}.

Definition read (clock : Z) (key : string) (s : S) : S * option V :=
  match store_get key s with
  | (s1, None) => (s1, None)
  | (s1, Some e) => if expired clock e then (store_delete key s1, None) else (s1, Some (value e))
  end.

Definition entry_at (clock : Z) (v : V) (ttlMs : option Z) : StoredEntry V :=
  mkEntry v (match ttlMs with None => None | Some ms => Some (clock + ms) end).

(** [clock] is read for the deadline, [clock'] by the store that writes. *)
Definition write (clock clock' : Z) (key : string) (v : V) (ttlMs : option Z) (s : S) : S :=
  store_set clock' key (entry_at clock v ttlMs) s.

(** [produce] runs between the read and the write, and may touch the store. *)
Definition fetch (clock clock' clock'' : Z) (key : string) (produce : S -> S * option V)
    (ttlMs : option Z) (s : S) : S * option V :=
  match read clock key s with
  | (s1, Some v) => (s1, Some v)
  | (s1, None) =>
      match produce s1 with
      | (s2, None) => (s2, None)
      | (s2, Some v) => (write clock' clock'' key v ttlMs s2, Some v)
      end
  end.

(** *** The single-flight [remember], [delete] and [clear], await by await *)

(** Where a call is suspended. A leader goes from [Computing] to [Settling]. *)
Inductive Call :=
| Got (key : string) (ttl : option Z) (r : option (StoredEntry V))  (* awaiting store.get *)
| Evicting (key : string) (ttl : option Z)        (* awaiting the delete of an expired entry *)
| Joined (key : string) (token : nat)             (* awaiting the leader's promise *)
| Computing (key : string) (ttl : option Z) (token : nat)
| Computed (key : string) (ttl : option Z) (token : nat) (v : V)  (* compute resolved *)
| Writing (key : string) (token : nat) (v : V)    (* awaiting store.set *)
| Settling (key : string) (token : nat) (r : option V)  (* the finally callback is next *)
| Deleting (key : string)                         (* awaiting store.delete *)
| Clearing                                        (* awaiting store.clear *)
| Returned (r : option V)                         (* None: rejected *)
| Deleted.

(** The store, the ledger [inFlight] (its promise is named by its token), the promises
    settled so far, and the calls of all clients. *)
Record World := mkWorld {
  w_store : S;
  inFlight : gmap string nat;
  settled : gmap nat (option V);
  next_token : nat;
  calls : gmap nat Call
}.

Inductive Event :=
| CallRemember (pid : nat) (key : string) (ttl : option Z)
| CallDelete (pid : nat) (key : string)
| CallClear (pid : nat)
| Resume (pid : nat) (clock clock' : Z)      (* the awaited operation of [pid] resolves *)
| Resolve (pid : nat) (v : V)                (* the compute of [pid] resolves *)
| Reject (pid : nat).                        (* the compute of [pid] rejects *)

Definition set_call (pid : nat) (c : Call) (w : World) : World :=
  mkWorld (w_store w) (inFlight w) (settled w) (next_token w) (<[pid := c]> (calls w)).

Definition set_store (s : S) (w : World) : World :=
  mkWorld s (inFlight w) (settled w) (next_token w) (calls w).

Definition set_ledger (l : gmap string nat) (w : World) : World :=
  mkWorld (w_store w) l (settled w) (next_token w) (calls w).

(** After a miss: join the computation in flight, or lead one under a fresh token. *)
Definition join_or_lead (pid : nat) (key : string) (ttl : option Z) (w : World) : World :=
  match inFlight w !! key with
  | Some token => set_call pid (Joined key token) w
  | None =>
      let token := next_token w in
      mkWorld (w_store w) (<[key := token]> (inFlight w)) (settled w) (token + 1)%nat
        (<[pid := Computing key ttl token]> (calls w))
  end.

Definition owns (w : World) (key : string) (token : nat) : bool :=
  bool_decide (inFlight w !! key = Some token).

(** One event; [None] when the call is not in a state where it can happen. *)
Definition cache_step (e : Event) (w : World) : option World :=
  match e with
  | CallRemember pid key ttl =>
      match calls w !! pid with
      | Some _ => None
      | None => let '(s, r) := store_get key (w_store w) in
                Some (set_call pid (Got key ttl r) (set_store s w))
      end
  | CallDelete pid key =>
      match calls w !! pid with
      | Some _ => None
      | None => Some (set_call pid (Deleting key) (set_store (store_delete key (w_store w)) w))
      end
  | CallClear pid =>
      match calls w !! pid with
      | Some _ => None
      | None => Some (set_call pid Clearing (set_store (store_clear (w_store w)) w))
      end
  | Resolve pid v =>
      match calls w !! pid with
      | Some (Computing key ttl token) => Some (set_call pid (Computed key ttl token v) w)
      | _ => None
      end
  | Reject pid =>
      match calls w !! pid with
      | Some (Computing key ttl token) => Some (set_call pid (Settling key token None) w)
      | _ => None
      end
  | Resume pid clock clock' =>
      match calls w !! pid with
      | Some (Got key ttl None) => Some (join_or_lead pid key ttl w)
      | Some (Got key ttl (Some x)) =>
          if expired clock x
          then Some (set_call pid (Evicting key ttl) (set_store (store_delete key (w_store w)) w))
          else Some (set_call pid (Returned (Some (value x))) w)
      | Some (Evicting key ttl) => Some (join_or_lead pid key ttl w)
      | Some (Computed key ttl token v) =>
          if owns w key token
          then Some (set_call pid (Writing key token v)
                       (set_store (write clock clock' key v ttl (w_store w)) w))
          else Some (set_call pid (Settling key token (Some v)) w)
      | Some (Writing key token v) => Some (set_call pid (Settling key token (Some v)) w)
      | Some (Settling key token r) =>
          let l := if owns w key token then delete key (inFlight w) else inFlight w in
          Some (mkWorld (w_store w) l (<[token := r]> (settled w)) (next_token w)
                  (<[pid := Returned r]> (calls w)))
      | Some (Joined key token) =>
          match settled w !! token with
          | Some r => Some (set_call pid (Returned r) w)
          | None => None
          end
      | Some (Deleting key) => Some (set_call pid Deleted (set_ledger (delete key (inFlight w)) w))
      | Some Clearing => Some (set_call pid Deleted (set_ledger ∅ w))
      | _ => None
      end
  end.

Fixpoint cache_run (es : list Event) (w : World) : option World :=
  match es with
  | [] => Some w
  | e :: es' => match cache_step e w with Some w' => cache_run es' w' | None => None end
  end.

Definition cache_init (s : S) : World := mkWorld s ∅ ∅ 0 ∅.
End Cache.
Arguments World V S : clear implicits.
Arguments Event V : clear implicits.
Arguments Call V : clear implicits.
