(* ===== verification/CacheProps.v ===== *)
(** * The TTL cache: correctness

    The stores implement the interface the cache relies on; the in-memory one is
    bounded and evicts expired entries first, then the least recently used; the cache
    over any store returns only live values; [remember] is single-flight, and what
    invalidation guarantees against a compute in flight. *)
From S2P Require Import Prelude JsMap Json Sql Cache.

(** ** The in-memory store *)

Section MemoryProps.
Context {V : Type}.
Implicit Types (s : MemoryStore V).

(** The eviction loop pops exactly the overflow off the front. *)
Lemma pop_overflow_skipn n (m : JsMap (StoredEntry V)) : pop_overflow n m = skipn (Z.to_nat n) m.
Proof.
  revert n. induction m as [|a m IH]; intros n; simpl; [by rewrite skipn_nil|].
  case_test; bools.
  - by replace (Z.to_nat n) with 0%nat by lia.
  - rewrite IH. replace (Z.to_nat n) with (S (Z.to_nat (n - 1))) by lia. done.
Qed.

(** The entries after a write, before the eviction. *)
Definition written key (e : StoredEntry V) s : JsMap (StoredEntry V) := map_delete key (entries s) ++ [(key, e)].

Lemma written_length key e s :
  mem_wf s -> Z.of_nat (length (written key e s)) <= maxEntries s + 1.
Proof.
  intros (_ & _ & H). unfold written. rewrite length_app. simpl.
  pose proof (map_delete_length key (entries s)). lia.
Qed.

(** Fact: The in-memory store is bounded and evicts in order: a write moves its key to the
    recent end; within the cap nothing is lost; past the cap every expired entry goes,
    and only if none had expired does one live entry go, the least recently used. *)
Theorem mem_set_evicts now key e s :
  mem_wf s ->
  let w := written key e s in
  let dead := existsb (fun kv => expired now (snd kv)) w in
  maxEntries (mem_set now key e s) = maxEntries s /\
  entries (mem_set now key e s) =
    (if Z.of_nat (length w) <=? maxEntries s then w
     else if dead then List.filter (fun kv => negb (expired now (snd kv))) w
     else skipn 1 w).
Proof.
  intros W w dead. pose proof (written_length key e s W) as Hlen. fold w in Hlen.
  unfold mem_set. rewrite map_set_fresh. fold (written key e s). fold w.
  unfold evictOverflow. cbn [entries maxEntries].
  case_test; [done|]. split; [done|]. cbn [entries]. rewrite pop_overflow_skipn. bools.
  set (live := List.filter _ w). assert (Hfl : (length live <= length w)%nat) by apply List.filter_length_le.
  destruct dead eqn:Ed.
  - assert (Hlt : (length live < length w)%nat).
    { unfold dead in Ed. apply existsb_exists in Ed as (kv & Hin & Hx). unfold live. clear -Hin Hx.
      induction w as [|a w IH]; [done|]. destruct Hin as [->|Hin]; simpl.
      - rewrite Hx. simpl. pose proof (List.filter_length_le (fun kv => negb (expired now (snd kv))) w). lia.
      - specialize (IH Hin). destruct (negb _); simpl; lia. }
    replace (Z.to_nat _) with 0%nat by lia. done.
  - assert (live = w) as ->.
    { unfold live, dead in *. rewrite existsb_false in Ed. clear -Ed. induction w as [|a w IH]; [done|].
      simpl. rewrite (Ed a) by (by left). simpl. f_equal. apply IH. intros x Hx. apply Ed. by right. }
    replace (Z.to_nat _) with 1%nat by lia. done.
Qed.

Lemma mem_set_wf now key e s : mem_wf s -> mem_wf (mem_set now key e s).
Proof.
  intros W. pose proof (written_length key e s W) as Hlen. pose proof W as (Hnd & Hmax & Hle).
  unfold mem_set. rewrite map_set_fresh. fold (written key e s).
  assert (Hw : List.NoDup (map fst (written key e s))) by (by apply map_append_NoDup).
  unfold evictOverflow. cbn [entries maxEntries]. case_test; bools; [done|].
  set (live := List.filter _ _). rewrite pop_overflow_skipn.
  split; [|split; [done|]]; cbn [entries maxEntries].
  - by apply NoDup_map_skipn, NoDup_map_filter.
  - rewrite length_skipn. lia.
Qed.

Lemma mem_set_sound now key e s k x :
  mem_wf s -> map_get k (entries (mem_set now key e s)) = Some x ->
  if String.eqb k key then x = e else map_get k (entries s) = Some x.
Proof.
  intros W H%map_get_Some_In. unfold mem_set in H. rewrite map_set_fresh in H.
  assert (Hin : In (k, x) (written key e s)).
  { unfold evictOverflow in H. cbn [entries maxEntries] in H. revert H. case_test; [done|].
    rewrite pop_overflow_skipn. intros H%skipn_sub. by apply filter_sub in H. }
  apply map_get_In in Hin; [|apply map_append_NoDup, W].
  unfold written in Hin. rewrite map_get_app, map_get_delete in Hin.
  destruct (String.eqb k key) eqn:E.
  - unfold map_get in Hin. simpl in Hin. rewrite String.eqb_sym, E in Hin. simpl in Hin. congruence.
  - destruct (map_get k (entries s)); [done|]. unfold map_get in Hin. simpl in Hin.
    rewrite String.eqb_sym, E in Hin. done.
Qed.

Lemma mem_set_live now key e s :
  mem_wf s -> expired now e = false -> map_get key (entries (mem_set now key e s)) = Some e.
Proof.
  intros W He. apply map_get_In; [apply mem_set_wf, W|].
  destruct (mem_set_evicts now key e s W) as [_ ->].
  assert (Hin : In (key, e) (written key e s)) by (apply in_app_iff; right; by left).
  case_test; [done|]. case_test; [apply filter_In; split; [done|by simpl; rewrite He]|].
  unfold written in *. destruct (map_delete key (entries s)) as [|a m] eqn:Ed.
  - simpl in Etest. destruct W as (_ & ? & _). bools. lia.
  - simpl. apply in_app_iff. right. by left.
Qed.

#[export] Instance memory_store_laws : CacheStoreLaws V (MemoryStore V).
Proof.
  split; cbn [store_get store_set store_delete store_clear store_wf store_content memory_store].
  - intros k s W. unfold mem_get. destruct (map_get k (entries s)) as [e|] eqn:E; [|done].
    cbn [fst snd entries]. rewrite map_set_fresh. split; [done|]. split.
    + intros k'. rewrite map_get_app, map_get_delete. destruct (String.eqb k' k) eqn:Ek.
      * bools. subst. unfold map_get at 1. simpl. by rewrite String.eqb_refl.
      * destruct (map_get k' (entries s)); [done|]. unfold map_get. simpl. by rewrite String.eqb_sym, Ek.
    + destruct W as (Hnd & Hmax & Hle). split; [by apply map_append_NoDup|]. split; [done|].
      cbn [entries maxEntries]. rewrite length_app. simpl. pose proof (map_touch_length k e _ E). lia.
  - intros now k e s W. split; [by apply mem_set_wf|]. split; [intros; by eapply mem_set_sound|].
    by apply mem_set_live.
  - intros k s (Hnd & Hmax & Hle). split.
    + split; [by apply map_delete_NoDup|]. split; [done|]. cbn [entries maxEntries mem_delete].
      pose proof (map_delete_length k (entries s)). lia.
    + intros k'. apply map_get_delete.
  - intros s (Hnd & Hmax & Hle). split; [|done]. split; [constructor|]. split; [done|]. simpl. lia.
Qed.
End MemoryProps.

(** ** The SQL store *)

Section SqlProps.
Context {V : Type} `{!JsonCodec V, !JsonRoundTrip V}.
Implicit Types (t : list CacheRow).

(** The store's content, row by row. *)
Lemma sql_content_Some t k e :
  List.NoDup (map c_key t) ->
  default None (sql_get k t) = Some e <->
  exists r, In r t /\ c_key r = k /\ json_parse (c_value r) = Some (value e) /\ c_expires_at r = expiresAt e.
Proof.
  intros Hnd. unfold sql_get. destruct (List.find _ t) as [r|] eqn:E.
  - apply List.find_some in E as [Hr Hk]. bools.
    assert (Huniq : forall r', In r' t -> c_key r' = k -> r' = r)
      by (intros r' Hr' Ek; apply (NoDup_map_inj_in c_key t); congruence).
    split.
    + destruct (json_parse (c_value r)) as [v|] eqn:Ev; [|done]. intros [= <-]. exists r. done.
    + intros (r' & Hr' & Ek & Ev & Ex). rewrite (Huniq r' Hr' Ek) in *. rewrite Ev.
      destruct e. simpl in *. by subst.
  - split; [done|]. intros (r & Hr & Hk & _).
    apply (List.find_none _ _) with (x := r) in E; [|done]. subst. by rewrite String.eqb_refl in E.
Qed.

Lemma sql_set_rows key e t r :
  In r (sql_set key e t) <->
  r = mkCacheRow key (json_stringify (value e)) (expiresAt e) \/ (In r t /\ c_key r <> key).
Proof.
  unfold sql_set. case_test.
  - rewrite In_update. split.
    + intros (r0 & Hr0 & ->). destruct (String.eqb (c_key r0) key) eqn:E; [by left|].
      bools. by right.
    + apply existsb_exists in Etest as (r0 & Hr0 & E0). intros [->|[Hr Hk]].
      * exists r0. by rewrite E0.
      * exists r. apply String.eqb_neq in Hk. by rewrite Hk.
  - rewrite existsb_false in Etest. rewrite in_app_iff. simpl. split.
    + intros [Hr|[<-|[]]]; [right|by left]. split; [done|]. specialize (Etest r Hr). by bools.
    + intros [->|[Hr _]]; auto.
Qed.

Lemma sql_set_keys key e t :
  List.NoDup (map c_key t) -> List.NoDup (map c_key (sql_set key e t)).
Proof.
  intros Hnd. unfold sql_set. case_test.
  - cbn [update_where fst]. rewrite map_map.
    rewrite (map_ext_in _ c_key); [done|]. intros r _.
    destruct (String.eqb (c_key r) key) eqn:E; [|done]. bools. by subst.
  - rewrite map_app. apply List.NoDup_app; [done|repeat constructor; auto|].
    intros x (r & <- & Hr)%in_map_iff [E|[]]. rewrite existsb_false in Etest.
    specialize (Etest r Hr). bools. simpl in E. congruence.
Qed.

#[export] Instance sql_store_laws : CacheStoreLaws V (list CacheRow).
Proof.
  split; cbn [store_get store_set store_delete store_clear store_wf store_content sql_store].
  - done.
  - intros now k e t [Hnd Hp].
    assert (Hnd' := sql_set_keys k e t Hnd). split; [split; [done|]|split].
    + intros r [->|[Hr _]]%sql_set_rows; [|auto]. simpl. by rewrite json_parse_stringify.
    + intros k' x (r & Hr & Hk & Hv & Hx)%sql_content_Some; [|done].
      apply sql_set_rows in Hr as [->|[Hr Hne]].
      * simpl in *. subst k'. rewrite String.eqb_refl. rewrite json_parse_stringify in Hv.
        destruct e, x; simpl in *. congruence.
      * subst k'. apply String.eqb_neq in Hne. rewrite Hne.
        apply sql_content_Some; [done|]. eauto.
    + intros _. apply sql_content_Some; [done|]. eexists. rewrite sql_set_rows.
      split; [by left|]. simpl. by rewrite json_parse_stringify.
  - intros k t [Hnd Hp]. assert (Hnd' : List.NoDup (map c_key (sql_delete k t))) by (by apply NoDup_map_filter).
    split; [split; [done|intros r Hr%filter_sub; auto]|].
    intros k'. destruct (default None (sql_get k' (sql_delete k t))) as [e|] eqn:E.
    + apply sql_content_Some in E as (r & [Hr Hk]%In_delete & <- & Hv & Hx); [|done].
      rewrite Hk. symmetry. apply sql_content_Some; eauto.
    + destruct (String.eqb k' k) eqn:Ek; [done|].
      destruct (default None (sql_get k' t)) as [e|] eqn:E'; [|done]. exfalso.
      apply sql_content_Some in E' as (r & Hr & <- & Hv & Hx); [|done].
      assert (default None (sql_get (c_key r) (sql_delete k t)) = Some e); [|congruence].
      apply sql_content_Some; [done|]. exists r. split; [by apply In_delete|done].
  - intros t _. split; [split; [constructor|done]|done].
Qed.

(** Fact: The SQL sweep deletes no entry a read would still return, and counts what it
    deletes; it keeps an entry whose deadline is exactly now, which a read at that
    same instant already treats as dead. *)
Theorem sweep_spec now t :
  (forall r, In r (fst (sweep now t)) <-> In r t /\ (forall d, c_expires_at r = Some d -> now <= d)) /\
  (forall r (e : StoredEntry V), In r t -> expiresAt e = c_expires_at r -> expired now e = false ->
     In r (fst (sweep now t))) /\
  snd (sweep now t) = Z.of_nat (length t) - Z.of_nat (length (fst (sweep now t))) /\
  (forall r (e : StoredEntry V), In r t -> expiresAt e = c_expires_at r -> c_expires_at r = Some now ->
     In r (fst (sweep now t)) /\ expired now e = true).
Proof.
  assert (H : forall r, In r (fst (sweep now t)) <-> In r t /\ (forall d, c_expires_at r = Some d -> now <= d)).
  { intros r. unfold sweep. rewrite In_delete. destruct (c_expires_at r) as [d|].
    - rewrite Z.ltb_ge. naive_solver.
    - naive_solver. }
  split; [exact H|split; [|split]].
  - intros r e Hr Ee Hx. apply H. split; [done|]. intros d Ed. unfold expired in Hx.
    rewrite Ee, Ed in Hx. bools. lia.
  - unfold sweep. cbn [delete_where fst snd].
    pose proof (filter_length (fun r => match c_expires_at r with Some d => d <? now | None => false end) t). lia.
  - intros r e Hr Ee Er. split.
    + apply H. split; [done|]. intros d Ed. rewrite Er in Ed. injection Ed as <-. lia.
    + unfold expired. rewrite Ee, Er. apply Z.leb_refl.
Qed.
End SqlProps.

(** ** The cache over any store *)

Section CacheSpec.
Context {V S : Type} `{!CacheStore V S, !CacheStoreLaws V S}.

(** Fact: Over any store that keeps the interface's laws, [read] returns the value of a key
    exactly when an entry is stored and its deadline lies in the future; an expired
    entry is a miss and leaves the store; every other key is untouched. *)
Theorem read_spec clock key (s : S) :
  store_wf s ->
  snd (read clock key s) =
    match store_content s key with
    | Some e => if expired clock e then None else Some (value e)
    | None => None
    end /\
  store_wf (fst (read clock key s)) /\
  forall k, store_content (fst (read clock key s)) k =
    match store_content s key with
    | Some e => if expired clock e && String.eqb k key then None else store_content s k
    | None => store_content s k
    end.
Proof.
  intros W. unfold read. destruct (law_get key s W) as (Hr & Hc & W').
  destruct (store_get key s) as [s1 r]. cbn [fst snd] in *. subst r.
  destruct (store_content s key) as [e|] eqn:E; [|done].
  destruct (expired clock e) eqn:Ex; cbn [fst snd]; [|done].
  destruct (law_delete key s1 W') as [W2 Hd]. split; [done|]. split; [done|].
  intros k. rewrite Hd. cbn [andb]. by destruct (String.eqb k key).
Qed.

(** Fact: A value written with a time-to-live is read back at every instant before its
    deadline, and from the deadline on never again; without one it does not expire. *)
Theorem write_then_read clock clock' clock'' key v ttl (s : S) :
  store_wf s -> expired clock' (entry_at clock v ttl) = false ->
  snd (read clock'' key (write clock clock' key v ttl s)) =
    match ttl with
    | None => Some v
    | Some ms => if clock'' <? clock + ms then Some v else None
    end.
Proof.
  intros W Hlive. unfold write. destruct (law_set clock' key (entry_at clock v ttl) s W) as (W' & _ & Hset).
  destruct (read_spec clock'' key _ W') as [-> _]. rewrite (Hset Hlive).
  unfold entry_at, expired. cbn [expiresAt value]. destruct ttl as [ms|]; [|done].
  rewrite Z.leb_antisym. by destruct (clock'' <? clock + ms).
Qed.
End CacheSpec.
