(* ===== verification/CacheFlight.v ===== *)
(** * The TTL cache: interleavings of [remember], [delete] and [clear]

    The single-flight ledger of [Cache.remember] over every interleaving of its
    awaits: one leader per key, joiners always settle, and what an invalidation
    guarantees against a compute in flight. *)
From S2P Require Import Prelude JsMap Sql Json Cache CacheProps.

Section Flight.
Context {V S : Type} `{!CacheStore V S}.
Implicit Types (w : World V S) (c : Call V) (e : Event V).

(** The key and token a call leads. *)
Definition lead_of c : option (string * nat) :=
  match c with
  | Computing k _ t | Computed k _ t _ | Writing k t _ | Settling k t _ => Some (k, t)
  | _ => None
  end.

Definition finished c : bool :=
  match c with Returned _ | Deleted => true | _ => false end.

Definition leads w pid key token : Prop :=
  exists c, calls w !! pid = Some c /\ lead_of c = Some (key, token).

Definition invalidates e : bool :=
  match e with CallDelete _ _ | CallClear _ => true | _ => false end.

Definition invalidating c : bool :=
  match c with Deleting _ | Clearing => true | _ => false end.

(** The ledger and the promises agree with the calls. *)
Record flight_inv w : Prop := {
  fi_ledger : forall k t, inFlight w !! k = Some t -> exists pid, leads w pid k t;
  fi_lead : forall pid k t, leads w pid k t -> (t < next_token w)%nat /\ settled w !! t = None;
  fi_unique : forall p q k k' t, leads w p k t -> leads w q k' t -> p = q;
  fi_join : forall pid k t, calls w !! pid = Some (Joined k t) ->
    (t < next_token w)%nat /\ ((exists q, leads w q k t) \/ is_Some (settled w !! t));
  fi_settled : forall t r, settled w !! t = Some r -> (t < next_token w)%nat
}.

(** The step is a function of the suspended call of one client. *)
Lemma leads_set w w' pid c :
  calls w' = <[pid := c]> (calls w) ->
  forall q k t, leads w' q k t <-> (q = pid /\ lead_of c = Some (k, t)) \/ (q <> pid /\ leads w q k t).
Proof.
  intros E q k t. unfold leads. rewrite E. destruct (decide (q = pid)) as [->|N].
  - rewrite lookup_insert_eq. naive_solver.
  - rewrite lookup_insert_ne by done. naive_solver.
Qed.

(** A step that changes neither who leads what nor the promises, and only drops
    ledger entries, keeps the invariant. *)
Lemma flight_same w w' pid c :
  flight_inv w ->
  calls w' = <[pid := c]> (calls w) -> next_token w' = next_token w -> settled w' = settled w ->
  (forall k t, inFlight w' !! k = Some t -> inFlight w !! k = Some t) ->
  (forall k t, lead_of c = Some (k, t) <-> leads w pid k t) ->
  (forall k t, c = Joined k t ->
     (t < next_token w)%nat /\ ((exists q, leads w q k t) \/ is_Some (settled w !! t))) ->
  flight_inv w'.
Proof.
  intros [H1 H2 H3 H4 H5] Ec En Es El Hl Hj.
  assert (L : forall q k t, leads w' q k t <-> leads w q k t).
  { intros q k t. rewrite (leads_set w w' pid c) by done. rewrite Hl.
    destruct (decide (q = pid)); naive_solver. }
  split; rewrite ?En, ?Es.
  - intros k t [p Hp]%El%H1. exists p. by apply L.
  - intros p k t Hp%L. eauto.
  - intros p q k k' t Hp%L Hq%L. eauto.
  - intros p k t Hp. rewrite Ec in Hp. setoid_rewrite L.
    destruct (decide (p = pid)) as [->|N].
    + rewrite lookup_insert_eq in Hp. naive_solver.
    + rewrite lookup_insert_ne in Hp by done. eauto.
  - done.
Qed.

Lemma flight_lead w pid key ttl :
  flight_inv w -> inFlight w !! key = None ->
  (forall k t, ~ leads w pid k t) ->
  flight_inv (mkWorld (w_store w) (<[key := next_token w]> (inFlight w)) (settled w)
                (next_token w + 1)%nat (<[pid := Computing key ttl (next_token w)]> (calls w))).
Proof.
  intros [H1 H2 H3 H4 H5] Hk Hn. set (w' := mkWorld _ _ _ _ _).
  assert (L : forall q k t, leads w' q k t <->
    (q = pid /\ (key, next_token w) = (k, t)) \/ (q <> pid /\ leads w q k t)).
  { intros q k t. rewrite (leads_set w w' pid (Computing key ttl (next_token w))) by done.
    simpl. naive_solver. }
  assert (L' : forall q k t, leads w q k t -> leads w' q k t).
  { intros q k t Hq. apply L. right. split; [|done]. intros ->. by eapply Hn. }
  split; simpl.
  - intros k t. destruct (decide (k = key)) as [->|N].
    + rewrite lookup_insert_eq. intros [= <-]. exists pid. apply L. by left.
    + rewrite lookup_insert_ne by done. intros [q Hq]%H1. eauto.
  - intros p k t Hp%L. destruct Hp as [[-> [= <- <-]]|[_ Hp]].
    + split; [lia|]. destruct (settled w !! next_token w) eqn:E; [|done]. apply H5 in E. lia.
    + apply H2 in Hp. split; [lia|tauto].
  - intros p q k k' t Hp%L Hq%L.
    destruct Hp as [[-> [= <- <-]]|[_ Hp]], Hq as [[-> Eq]|[_ Hq]]; [done|..|eauto].
    + apply H2 in Hq. lia.
    + injection Eq as <- <-. apply H2 in Hp. lia.
  - intros p k t Hp. destruct (decide (p = pid)) as [->|N].
    + by rewrite lookup_insert_eq in Hp.
    + rewrite lookup_insert_ne in Hp by done. apply H4 in Hp as [? [[q Hq]|?]]; [|split; [lia|auto]].
      split; [lia|left; eauto].
  - intros t r Hr%H5. lia.
Qed.

Lemma flight_settle w w' pid key token r :
  flight_inv w -> calls w !! pid = Some (Settling key token r) ->
  w' = mkWorld (w_store w) (if owns w key token then delete key (inFlight w) else inFlight w)
         (<[token := r]> (settled w)) (next_token w) (<[pid := Returned r]> (calls w)) ->
  flight_inv w'.
Proof.
  intros [H1 H2 H3 H4 H5] Hc Ew.
  assert (P : leads w pid key token) by (eexists; split; [exact Hc|done]).
  assert (L : forall q k t, leads w' q k t <-> q <> pid /\ leads w q k t).
  { intros q k t. rewrite (leads_set w w' pid (Returned r)) by by subst w'. simpl. naive_solver. }
  subst w'. split; simpl.
  - intros k t Hk.
    assert (inFlight w !! k = Some t /\ (k = key -> t <> token)) as [Hk' Ht].
    { unfold owns in Hk. case_bool_decide as Ho.
      - apply lookup_delete_Some in Hk. naive_solver.
      - split; [done|]. intros -> ->. done. }
    apply H1 in Hk' as [q Hq]. exists q. apply L. split; [|done]. intros ->.
    destruct Hq as (c & Hq & Hl). rewrite Hc in Hq. injection Hq as <-. injection Hl as <- <-.
    by apply Ht.
  - intros p k t [N Hp]%L. pose proof (H2 _ _ _ Hp) as [? ?]. split; [done|].
    rewrite lookup_insert_ne; [done|]. intros ->. apply N. eauto.
  - intros p q k k' t [_ Hp]%L [_ Hq]%L. eauto.
  - intros p k t Hp. destruct (decide (p = pid)) as [->|N]; [by rewrite lookup_insert_eq in Hp|].
    rewrite lookup_insert_ne in Hp by done. apply H4 in Hp as [? Hd]. split; [done|].
    destruct (decide (t = token)) as [->|Nt]; [right; rewrite lookup_insert_eq; eauto|].
    rewrite lookup_insert_ne by done. destruct Hd as [[q Hq]|Hd]; [left|by right].
    exists q. apply L. split; [|done]. intros ->.
    destruct Hq as (c & Hq & Hl). rewrite Hc in Hq. injection Hq as <-. by injection Hl as <- <-.
  - intros t r'. destruct (decide (t = token)) as [->|Nt].
    + intros _. apply H2 in P. lia.
    + rewrite lookup_insert_ne by done. eauto.
Qed.

Lemma join_or_lead_inv w pid key ttl c :
  flight_inv w -> calls w !! pid = Some c -> lead_of c = None ->
  flight_inv (join_or_lead pid key ttl w).
Proof.
  intros Hi Hc Hl. unfold join_or_lead.
  assert (N : forall k t, ~ leads w pid k t) by (intros k t (c' & ? & ?); congruence).
  destruct (inFlight w !! key) as [t|] eqn:E; [|by apply flight_lead].
  eapply (flight_same w _ pid (Joined key t)); try done.
  - simpl. intros k t'. split; [done|]. by intros ?%N.
  - intros k t' [= <- <-]. apply (fi_ledger _ Hi) in E as [q Hq].
    split; [by eapply fi_lead|eauto].
Qed.

(** Solves the steps covered by [flight_same]. *)
Ltac same :=
  eapply flight_same; [eassumption|reflexivity|reflexivity|reflexivity|simpl; try done| |done];
  intros k0 t0; unfold leads; simpl; split; [intros ?; eexists; split; [eassumption|done]|];
  intros (c0 & ? & ?); simplify_eq; simpl in *; congruence.

Lemma flight_step w w' e : flight_inv w -> cache_step e w = Some w' -> flight_inv w'.
Proof.
  intros Hi. destruct e as [pid key ttl|pid key|pid|pid ck ck'|pid v|pid]; simpl;
    destruct (calls w !! pid) as [c|] eqn:Hc; try done.
  - destruct (store_get key (w_store w)) as [s r]. intros [= <-].
    eapply flight_same; try done. intros k t. split; [done|]. intros (? & ? & ?). congruence.
  - intros [= <-]. eapply flight_same; try done.
    intros k t. split; [done|]. intros (? & ? & ?). congruence.
  - intros [= <-]. eapply flight_same; try done.
    intros k t. split; [done|]. intros (? & ? & ?). congruence.
  - destruct c as [key ttl [x|]|key ttl|key t|key ttl t|key ttl t v|key t v|key t r|key| |r|]; try done.
    + destruct (expired ck x); intros [= <-]; same.
    + intros [= <-]. by eapply join_or_lead_inv.
    + intros [= <-]. by eapply join_or_lead_inv.
    + destruct (settled w !! t) as [r|]; [|done]. intros [= <-]. same.
    + destruct (owns w key t); intros [= <-]; same.
    + intros [= <-]. same.
    + intros [= <-]. by eapply flight_settle.
    + intros [= <-]. eapply flight_same; try done.
      * simpl. intros k t. rewrite lookup_delete_Some. tauto.
      * intros k t. split; [done|]. intros (? & ? & ?). by simplify_eq.
    + intros [= <-]. eapply flight_same; try done.
      intros k t. split; [done|]. intros (? & ? & ?). by simplify_eq.
  - destruct c; try done. intros [= <-]. same.
  - destruct c; try done. intros [= <-]. same.
Qed.

Lemma flight_init (s : S) : flight_inv (cache_init s).
Proof.
  split; simpl; try (intros *; rewrite lookup_empty; done);
    intros *; unfold leads; simpl; setoid_rewrite lookup_empty; naive_solver.
Qed.

Lemma flight_run es w w' : flight_inv w -> cache_run es w = Some w' -> flight_inv w'.
Proof.
  revert w. induction es as [|e es IH]; simpl; intros w Hi; [by intros [= <-]|].
  destruct (cache_step e w) eqn:E; [|done]. intros Hr. eauto using flight_step.
Qed.

(** ** What one step can change *)

(** Every case of a step, with the new state explicit. *)
Ltac step_cases H :=
  repeat match type of H with
  | context [match ?x with _ => _ end] => destruct x eqn:?
  | Some _ = Some _ => injection H as <-
  | None = Some _ => discriminate H
  end.

Definition actor e : nat :=
  match e with
  | CallRemember p _ _ | CallDelete p _ | CallClear p | Resume p _ _ | Resolve p _ | Reject p => p
  end.

Lemma step_other e w w' q : cache_step e w = Some w' -> q <> actor e -> calls w' !! q = calls w !! q.
Proof.
  intros H N. destruct e; simpl in *; unfold join_or_lead in H; step_cases H; simpl;
    by rewrite ?lookup_insert_ne by done.
Qed.

Lemma step_finished e w w' q c :
  cache_step e w = Some w' -> calls w !! q = Some c -> finished c = true -> calls w' !! q = Some c.
Proof.
  intros H Hq Hc. destruct (decide (q = actor e)) as [->|N]; [|by rewrite (step_other e w w')].
  destruct e; simpl in *; rewrite Hq in H; try done; by destruct c.
Qed.

Lemma step_settled e w w' t r :
  flight_inv w -> cache_step e w = Some w' -> settled w !! t = Some r -> settled w' !! t = Some r.
Proof.
  intros Hi H Ht. destruct e; simpl in *; unfold join_or_lead in H; step_cases H; simpl; try done;
    (rewrite lookup_insert_ne; [done|]; intros ->;
     match goal with Hc : calls w !! _ = Some (Settling ?k ?t ?r) |- _ =>
       destruct (fi_lead _ Hi pid k t) as [_ ?]; [eexists; split; [exact Hc|done]|congruence] end).
Qed.

Lemma step_lead e w w' q k t :
  cache_step e w = Some w' -> leads w q k t ->
  leads w' q k t \/ exists r, calls w' !! q = Some (Returned r) /\ settled w' !! t = Some r.
Proof.
  intros H (c & Hq & Hc). destruct (decide (q = actor e)) as [->|N].
  - destruct e; simpl in *; rewrite Hq in H; try done; destruct c; try done; simpl in Hc;
      injection Hc as <- <-; step_cases H;
      (left; eexists; split; [apply lookup_insert_eq|done]) ||
      (right; eexists; split; apply lookup_insert_eq).
  - left. exists c. by rewrite (step_other e w w').
Qed.

Lemma step_joined e w w' p k t :
  cache_step e w = Some w' -> calls w !! p = Some (Joined k t) ->
  calls w' !! p = Some (Joined k t) \/
  exists r, calls w' !! p = Some (Returned r) /\ settled w' !! t = Some r.
Proof.
  intros H Hp. destruct (decide (p = actor e)) as [->|N].
  - destruct e; simpl in *; rewrite Hp in H; try done. step_cases H.
    right. eexists. split; [apply lookup_insert_eq|done].
  - left. by rewrite (step_other e w w').
Qed.

(** Ledger entries are added only under fresh tokens. *)
Lemma step_ledger e w w' k t :
  cache_step e w = Some w' -> inFlight w' !! k = Some t ->
  inFlight w !! k = Some t \/ t = next_token w.
Proof.
  intros H. destruct e; simpl in *; unfold join_or_lead in H; step_cases H; simpl; auto;
    try (intros Ht; left; apply lookup_delete_Some in Ht; tauto).
  all: first [by rewrite lookup_empty | intros [[-> <-]|[_ ?]]%lookup_insert_Some; auto].
Qed.

(** ** Single flight *)

(** While nobody invalidates, every leader owns the entry of its key. *)
Record undisturbed w : Prop := {
  un_owner : forall p k t, leads w p k t -> inFlight w !! k = Some t;
  un_calls : forall p c, calls w !! p = Some c -> invalidating c = false
}.

Lemma undisturbed_step e w w' :
  flight_inv w -> undisturbed w -> invalidates e = false -> cache_step e w = Some w' ->
  undisturbed w'.
Proof.
  intros Hi [Ho Hc] He H. split.
  - intros p k t Hp. destruct (decide (p = actor e)) as [->|N].
    + destruct Hp as (c & Hp & Hl).
      destruct e; try done; simpl in *; unfold join_or_lead in H; step_cases H; simpl in *;
        rewrite lookup_insert_eq in Hp; injection Hp as <-; simpl in Hl; try done;
        injection Hl as <- <-; rewrite ?lookup_insert_eq; try done;
        eapply Ho; eexists; (split; [eassumption|done]).
    + assert (P : leads w p k t).
      { destruct Hp as (c & Hp & Hl). exists c. by rewrite <- (step_other e w w'). }
      specialize (Ho _ _ _ P) as Q.
      destruct e; try done; simpl in *; unfold join_or_lead in H; step_cases H; simpl; try done;
        try (specialize (Hc _ _ Heqo); done).
      all: try (rewrite lookup_insert_ne; [done|]; intros ->; congruence).
      rewrite lookup_delete_ne; [done|]. intros ->.
      match goal with E : owns _ _ _ = true |- _ =>
        apply bool_decide_eq_true in E; rewrite Q in E; injection E as -> end.
      apply N. eapply (fi_unique _ Hi); [exact P|]. by eexists; split; [exact Heqo|].
  - intros p c Hp. destruct (decide (p = actor e)) as [->|N].
    + destruct e; try done; simpl in *; unfold join_or_lead in H; step_cases H; simpl in *;
        rewrite lookup_insert_eq in Hp; by injection Hp as <-.
    + rewrite (step_other e w w') in Hp by done. eauto.
Qed.

Lemma undisturbed_run es w w' :
  flight_inv w -> undisturbed w -> forallb (fun e => negb (invalidates e)) es = true ->
  cache_run es w = Some w' -> undisturbed w'.
Proof.
  revert w. induction es as [|e es IH]; simpl; intros w Hi Hu He; [by intros [= <-]|].
  bools. destruct (cache_step e w) eqn:E; [|done].
  eauto using undisturbed_step, flight_step.
Qed.

(** C29: single flight, over every interleaving: as long as nobody invalidates, the
    calls leading a computation of one key are one call; and a call that joined a
    leader returns what the leader returned, value or rejection. *)
Theorem remember_single_flight (s : S) es w :
  cache_run es (cache_init s) = Some w ->
  (forallb (fun e => negb (invalidates e)) es = true ->
   forall p q k t t', leads w p k t -> leads w q k t' -> p = q) /\
  (forall p q k t es' w' r,
     calls w !! p = Some (Joined k t) -> leads w q k t ->
     cache_run es' w = Some w' -> calls w' !! p = Some (Returned r) ->
     calls w' !! q = Some (Returned r)).
Proof.
  intros Hr. assert (Hi : flight_inv w) by eauto using flight_run, flight_init. split.
  - intros He p q k t t' Hp Hq.
    assert (Hu : undisturbed w).
    { eapply undisturbed_run; [apply flight_init| |done|done].
      split; simpl; intros *; unfold leads; simpl; setoid_rewrite lookup_empty; naive_solver. }
    assert (t = t') as <- by (apply (un_owner _ Hu) in Hp, Hq; congruence).
    by eapply (fi_unique _ Hi).
  - intros p q k t es' w' r Hp Hq.
    assert (J : calls w !! p = Some (Joined k t) \/
      exists r, calls w !! p = Some (Returned r) /\ settled w !! t = Some r) by auto.
    assert (L : leads w q k t \/
      exists r, calls w !! q = Some (Returned r) /\ settled w !! t = Some r) by auto.
    clear Hp Hq Hr. revert w Hi J L. induction es' as [|e es' IH]; simpl; intros w Hi J L.
    + intros [= <-] Hp. destruct J as [J|(r1 & J & Jt)]; [congruence|].
      destruct L as [L|(r2 & L & Lt)]; [|congruence]. apply (fi_lead _ Hi) in L as [_ L]. congruence.
    + destruct (cache_step e w) as [w1|] eqn:E; [|done]. apply IH; [by eapply flight_step|..].
      * destruct J as [J|(r1 & J & Jt)]; [by eapply step_joined|].
        right. exists r1. split; [by eapply step_finished|by eapply step_settled].
      * destruct L as [L|(r1 & L & Lt)]; [by eapply step_lead|].
        right. exists r1. split; [by eapply step_finished|by eapply step_settled].
Qed.

(** ** Progress *)

Lemma leader_finishes w q k t :
  leads w q k t -> exists es w' r, cache_run es w = Some w' /\
    calls w' !! q = Some (Returned r) /\ settled w' !! t = Some r /\
    forall p, p <> q -> calls w' !! p = calls w !! p.
Proof.
  intros (c & Hq & Hl).
  assert (Fin : forall w0 r, calls w0 !! q = Some (Settling k t r) ->
    (forall p, p <> q -> calls w0 !! p = calls w !! p) ->
    exists w', cache_run [Resume q 0 0] w0 = Some w' /\
    calls w' !! q = Some (Returned r) /\ settled w' !! t = Some r /\
    forall p, p <> q -> calls w' !! p = calls w !! p).
  { intros w0 r H0 Ho. simpl. rewrite H0. eexists. split; [reflexivity|]. simpl.
    rewrite !lookup_insert_eq. split_and!; [done..|].
    intros p N. rewrite lookup_insert_ne by done. auto. }
  assert (Set_ : forall w0 r, w0 = set_call q (Settling k t r) (set_store (w_store w0) w) ->
    exists w', cache_run [Resume q 0 0] w0 = Some w' /\
    calls w' !! q = Some (Returned r) /\ settled w' !! t = Some r /\
    forall p, p <> q -> calls w' !! p = calls w !! p).
  { intros w0 r E. apply Fin; rewrite E; simpl; [by rewrite lookup_insert_eq|].
    intros p N. by rewrite lookup_insert_ne. }
  destruct c as [| | |k' ttl t'|k' ttl t' v|k' t' v|k' t' r| | | |]; try done; injection Hl as -> ->.
  - destruct (Set_ (set_call q (Settling k t None) w) None) as (w' & ? & ?); [by destruct w|].
    exists [Reject q; Resume q 0 0], w', None. simpl in *. by rewrite Hq.
  - destruct (owns w k t) eqn:Eo.
    + set (w1 := set_call q (Settling k t (Some v))
        (set_store (write 0 0 k v ttl (w_store w)) w)).
      destruct (Set_ w1 (Some v)) as (w' & Hw' & ?); [done|].
      exists [Resume q 0 0; Resume q 0 0; Resume q 0 0], w', (Some v).
      simpl in *. rewrite Hq, Eo. simpl. rewrite lookup_insert_eq.
      unfold set_call in *. simpl in *. by rewrite insert_insert_eq.
    + destruct (Set_ (set_call q (Settling k t (Some v)) w) (Some v)) as (w' & ? & ?); [by destruct w|].
      exists [Resume q 0 0; Resume q 0 0], w', (Some v). simpl in *. by rewrite Hq, Eo.
  - destruct (Set_ (set_call q (Settling k t (Some v)) w) (Some v)) as (w' & ? & ?); [by destruct w|].
    exists [Resume q 0 0; Resume q 0 0], w', (Some v). simpl in *. by rewrite Hq.
  - destruct (Fin w r) as (w' & ? & ?); [done..|]. exists [Resume q 0 0], w', r. done.
Qed.
Lemma run_app es es' w w1 : cache_run es w = Some w1 -> cache_run (es ++ es') w = cache_run es' w1.
Proof.
  revert w. induction es as [|e es IH]; simpl; intros w H; [by injection H as <-|].
  destruct (cache_step e w); [auto|done].
Qed.

(** A call that is neither leading nor joined needs only its own resumption to get
    on: to finish, to join or to lead. *)
Lemma call_advances w p c :
  calls w !! p = Some c -> finished c = false -> lead_of c = None ->
  (forall k t, c <> Joined k t) ->
  exists es w' c', cache_run es w = Some w' /\ calls w' !! p = Some c' /\
    (finished c' = true \/ (exists k t, lead_of c' = Some (k, t)) \/ exists k t, c' = Joined k t).
Proof.
  assert (J : forall w0 k ttl, exists c', calls (join_or_lead p k ttl w0) !! p = Some c' /\
    (finished c' = true \/ (exists k t, lead_of c' = Some (k, t)) \/ exists k t, c' = Joined k t)).
  { intros w0 k ttl. unfold join_or_lead. destruct (inFlight w0 !! k); simpl;
      eexists; (split; [apply lookup_insert_eq|naive_solver]). }
  intros Hp Hf Hl Hj. destruct c as [k ttl [x|]|k ttl|k t| | | | |k| | |]; try done.
  - destruct (expired 0 x) eqn:E.
    + destruct (J (set_call p (Evicting k ttl) (set_store (store_delete k (w_store w)) w)) k ttl)
        as (c' & Hc' & ?).
      exists [Resume p 0 0; Resume p 0 0]. simpl. rewrite Hp, E. simpl.
      rewrite lookup_insert_eq. eauto.
    + exists [Resume p 0 0]. simpl. rewrite Hp, E. eexists _, _.
      split; [done|]. simpl. rewrite lookup_insert_eq. split; [done|by left].
  - exists [Resume p 0 0]. simpl. rewrite Hp. destruct (J w k ttl) as (c' & ? & ?). eauto.
  - exists [Resume p 0 0]. simpl. rewrite Hp. destruct (J w k ttl) as (c' & ? & ?). eauto.
  - by destruct (Hj k t).
  - exists [Resume p 0 0]. simpl. rewrite Hp. eexists _, _. split; [done|]. simpl.
    rewrite lookup_insert_eq. split; [done|by left].
  - exists [Resume p 0 0]. simpl. rewrite Hp. eexists _, _. split; [done|]. simpl.
    rewrite lookup_insert_eq. split; [done|by left].
Qed.

(** Fact: no call of [remember], [delete] or [clear] is ever stuck: from every state
    the cache reaches, some continuation finishes it (a joiner's leader is still
    running or has settled; nobody waits on a promise that was abandoned). *)
Theorem remember_settles (s : S) es w p c :
  cache_run es (cache_init s) = Some w -> calls w !! p = Some c ->
  exists es' w' c', cache_run es' w = Some w' /\ calls w' !! p = Some c' /\ finished c' = true.
Proof.
  intros Hr. assert (Hi : flight_inv w) by eauto using flight_run, flight_init.
  clear Hr. intros Hp.
  assert (Main : forall w c, flight_inv w -> calls w !! p = Some c ->
    (finished c = true \/ (exists k t, lead_of c = Some (k, t)) \/ exists k t, c = Joined k t) ->
    exists es' w' c', cache_run es' w = Some w' /\ calls w' !! p = Some c' /\ finished c' = true).
  { clear w c Hi Hp. intros w c Hi Hp [Hf|[(k & t & Hl)|(k & t & ->)]].
    - by exists [], w, c.
    - destruct (leader_finishes w p k t) as (es1 & w1 & r & ? & ? & _); [by exists c|].
      by exists es1, w1, (Returned r).
    - assert (D : forall w1 r, settled w1 !! t = Some r -> calls w1 !! p = Some (Joined k t) ->
        exists w', cache_run [Resume p 0 0] w1 = Some w' /\ calls w' !! p = Some (Returned r)).
      { intros w1 r Ht H1. simpl. rewrite H1, Ht. eexists. split; [done|apply lookup_insert_eq]. }
      destruct (fi_join _ Hi _ _ _ Hp) as [_ [[q Hq]|[r Ht]]].
      + destruct (leader_finishes _ _ _ _ Hq) as (es1 & w1 & r & H1 & _ & Ht & Ho).
        destruct (D w1 r) as (w2 & H2 & ?); [done| |].
        { rewrite Ho; [done|]. intros ->. destruct Hq as (c & ? & ?). by simplify_eq. }
        exists (es1 ++ [Resume p 0 0]), w2, (Returned r). by rewrite (run_app _ _ _ _ H1).
      + destruct (D w r) as (w2 & H2 & ?); [done..|]. by exists [Resume p 0 0], w2, (Returned r). }
  destruct (finished c) eqn:Hf; [by exists [], w, c|].
  destruct (lead_of c) as [[k t]|] eqn:Hl; [apply (Main w c); eauto|].
  assert ((exists k t, c = Joined k t) \/ (forall k t, c <> Joined k t)) as [J|J]
    by (destruct c; naive_solver); [apply (Main w c); eauto|].
  destruct (call_advances w p c) as (es1 & w1 & c1 & H1 & Hp1 & Hd); [done..|].
  destruct (Main w1 c1) as (es2 & w2 & c2 & ? & ?); [by eapply flight_run|done..|].
  exists (es1 ++ es2), w2, c2. by rewrite (run_app _ _ _ _ H1).
Qed.
(** ** Invalidation *)

(** [q] led the computation [t] of [k], which the ledger no longer names. *)
Definition superseded w q k t : Prop :=
  (t < next_token w)%nat /\ inFlight w !! k <> Some t /\
  (leads w q k t \/ exists c, calls w !! q = Some c /\ finished c = true).

Lemma step_next e w w' : cache_step e w = Some w' -> (next_token w <= next_token w')%nat.
Proof. intros H. destruct e; simpl in *; unfold join_or_lead in H; step_cases H; simpl; lia. Qed.

Lemma superseded_step e w w' q k t :
  cache_step e w = Some w' -> superseded w q k t -> superseded w' q k t.
Proof.
  intros H (Ht & Hn & Hq). split_and!.
  - apply step_next in H. lia.
  - intros Hk. destruct (step_ledger _ _ _ _ _ H Hk); [done|lia].
  - destruct Hq as [Hq|(c & Hq & Hf)].
    + destruct (step_lead _ _ _ _ _ _ H Hq) as [?|(r & ? & _)]; [by left|right].
      by exists (Returned r).
    + right. exists c. split; [by eapply step_finished|done].
Qed.

Lemma superseded_store e w w' q k t :
  superseded w q k t -> actor e = q -> cache_step e w = Some w' -> w_store w' = w_store w.
Proof.
  intros (Ht & Hn & Hq) <- H. destruct Hq as [(c & Hq & Hl)|(c & Hq & Hf)].
  - destruct e; simpl in *; rewrite Hq in H; try done; destruct c; try done; simpl in Hl;
      injection Hl as -> ->; step_cases H; try done.
    exfalso. apply Hn. by eapply bool_decide_eq_true_1.
  - destruct e; simpl in *; rewrite Hq in H; try done; by destruct c.
Qed.

(** Fact: invalidation wins over a computation in flight, from the moment [delete] or
    [clear] resumes from the store: whoever leads a computation of the key then
    (before its write or after it) never touches the store again, in any
    continuation, so the value it computed is not written back. *)
Theorem invalidation_wins (s : S) es w d c ck ck' w1 q k t es' w2 e w3 :
  cache_run es (cache_init s) = Some w ->
  calls w !! d = Some c -> c = Deleting k \/ c = Clearing ->
  cache_step (Resume d ck ck') w = Some w1 -> leads w1 q k t ->
  cache_run es' w1 = Some w2 -> actor e = q -> cache_step e w2 = Some w3 ->
  w_store w3 = w_store w2.
Proof.
  intros Hr Hd Hc H1 Hq H2 He H3.
  assert (Hi : flight_inv w1) by eauto using flight_step, flight_run, flight_init.
  assert (Hs : superseded w1 q k t).
  { split_and!; [by eapply fi_lead| |by left].
    simpl in H1. rewrite Hd in H1. destruct Hc as [-> | ->]; injection H1 as <-; simpl.
    - by rewrite lookup_delete_eq.
    - by rewrite lookup_empty. }
  assert (Hs2 : superseded w2 q k t).
  { clear - Hs H2. revert w1 H2 Hs. induction es' as [|e' es IH]; simpl; intros w1 H2 Hs.
    - by injection H2 as <-.
    - destruct (cache_step e' w1) eqn:E; [|done]. eauto using superseded_step. }
  by eapply superseded_store.
Qed.

(** ** Failure *)

(** Fact: a failed computation is not cached: it leaves the store as it was, rejects
    its caller and every call that joined it, and frees the ledger entry of the key
    (unless an invalidation already gave it away), so that the next call computes
    again. *)
Theorem remember_failure (s : S) es w p k ttl t :
  cache_run es (cache_init s) = Some w -> calls w !! p = Some (Computing k ttl t) ->
  exists w', cache_run [Reject p; Resume p 0 0] w = Some w' /\
    w_store w' = w_store w /\ calls w' !! p = Some (Returned None) /\
    inFlight w' !! k = (if owns w k t then None else inFlight w !! k) /\
    (forall k', k' <> k -> inFlight w' !! k' = inFlight w !! k') /\
    forall j, calls w !! j = Some (Joined k t) ->
      exists w'', cache_step (Resume j 0 0) w' = Some w'' /\
                  calls w'' !! j = Some (Returned None) /\ w_store w'' = w_store w.
Proof.
  intros Hr Hp. simpl. rewrite Hp. simpl. rewrite lookup_insert_eq.
  eexists. split; [reflexivity|]. unfold owns. simpl.
  split_and!; [done|by rewrite lookup_insert_eq|..].
  - case_bool_decide; [by rewrite lookup_delete_eq|done].
  - intros k' N. case_bool_decide; [by rewrite lookup_delete_ne|done].
  - intros j Hj. assert (j <> p) by congruence.
    rewrite insert_insert_eq, lookup_insert_ne by done. rewrite Hj.
    rewrite lookup_insert_eq. eexists. split; [done|]. simpl. by rewrite lookup_insert_eq.
Qed.
End Flight.

(** * The TTL cache at concrete runs

    Runs of the caches that meet the hypotheses of the theorems, and the run in which
    an invalidation loses against a computation in flight. *)
#[local] Open Scope string_scope.
#[local] Open Scope Z_scope.

(** A codec of strings, for the SQL store. *)
#[local] Instance plain_codec : JsonCodec string := {
  json_stringify s := s; json_parse s := Some s; json_null := "null"; json_empty_object := "{}"
}.
#[local] Instance plain_round_trip : JsonRoundTrip string.
Proof. by intros v. Defined.

Definition m2 : MemoryStore string :=
  mkMemoryStore [("a", mkEntry "1" (Some 10)); ("b", mkEntry "2" None)] 2.

Lemma m2_wf : store_wf (CacheStore := memory_store) m2.
Proof.
  split; simpl; [|lia]. repeat constructor; simpl; intros H; intuition discriminate.
Defined.

Lemma mem_set_evicts_witness :
  mem_wf m2 /\
  entries (mem_set 10 "c" (mkEntry "3" None) m2) = [("b", mkEntry "2" None); ("c", mkEntry "3" None)].
Proof.
  split; [exact m2_wf|].
  destruct (mem_set_evicts 10 "c" (mkEntry "3" None) m2 m2_wf) as [_ H]. rewrite H. reflexivity.
Defined.

Lemma read_spec_witness :
  store_wf (m2 : MemoryStore string) /\ snd (read 9 "a" m2) = Some "1" /\ snd (read 10 "a" m2) = None.
Proof.
  split; [exact m2_wf|]. split.
  - destruct (read_spec (V:=string) (S:=MemoryStore string) 9 "a" m2 m2_wf) as [H _]. rewrite H. reflexivity.
  - destruct (read_spec (V:=string) (S:=MemoryStore string) 10 "a" m2 m2_wf) as [H _]. rewrite H. reflexivity.
Defined.

Lemma write_then_read_witness :
  store_wf ([] : list CacheRow) /\
  snd (read (S := list CacheRow) 104 "k" (write 100 100 "k" "v" (Some 5) [])) = Some "v" /\
  snd (read (S := list CacheRow) 105 "k" (write 100 100 "k" "v" (Some 5) [])) = None.
Proof.
  assert (W : store_wf ([] : list CacheRow)) by (split; [constructor|intros r []]).
  split; [exact W|]. split.
  - rewrite (write_then_read (V:=string) 100 100 104 "k" "v" (Some 5) [] W eq_refl). reflexivity.
  - rewrite (write_then_read (V:=string) 100 100 105 "k" "v" (Some 5) [] W eq_refl). reflexivity.
Defined.

(** Two clients miss the key; the first leads, the second joins. *)
Definition herd : list (Event string) :=
  [CallRemember 0%nat "k" None; CallRemember 1%nat "k" None; Resume 0%nat 0 0; Resume 1%nat 0 0].

Definition run_of (es : list (Event string)) (w : World string (list CacheRow)) :=
  default w (cache_run es w).

Definition herd_world := Eval vm_compute in run_of herd (cache_init []).

Lemma herd_run : cache_run herd (cache_init ([] : list CacheRow)) = Some herd_world.
Proof. vm_compute. reflexivity. Defined.

Definition settle : list (Event string) :=
  [Resolve 0%nat "7"; Resume 0%nat 0 0; Resume 0%nat 0 0; Resume 0%nat 0 0; Resume 1%nat 0 0].

Definition settled_world := Eval vm_compute in run_of settle herd_world.

Lemma remember_single_flight_witness :
  calls settled_world !! 1%nat = Some (Returned (Some "7")) /\
  calls settled_world !! 0%nat = Some (Returned (Some "7")).
Proof.
  split; [reflexivity|].
  destruct (remember_single_flight [] herd herd_world herd_run) as [_ H].
  apply (H 1%nat 0%nat "k" 0%nat settle); [reflexivity| |reflexivity|reflexivity].
  exists (Computing "k" None 0%nat). split; reflexivity.
Defined.

Lemma remember_settles_witness :
  exists es' w' c', cache_run es' herd_world = Some w' /\ calls w' !! 1%nat = Some c' /\
    finished c' = true.
Proof. apply (remember_settles [] herd herd_world 1%nat (Joined "k" 0%nat) herd_run). reflexivity. Defined.

Lemma remember_failure_witness :
  exists w', cache_run [Reject 0%nat; Resume 0%nat 0 0] herd_world = Some w' /\
    calls w' !! 0%nat = Some (Returned None) /\ inFlight w' !! "k" = None.
Proof.
  destruct (remember_failure [] herd herd_world 0%nat "k" None 0%nat herd_run eq_refl)
    as (w' & H1 & _ & H2 & H3 & _).
  exists w'. split; [exact H1|]. split; [exact H2|]. rewrite H3. reflexivity.
Defined.

(** A delete that resumes before the leader resolves. *)
Definition dropping : list (Event string) := herd ++ [CallDelete 2%nat "k"].
Definition dropping_world := Eval vm_compute in run_of dropping (cache_init []).
Definition dropped_world := Eval vm_compute in run_of [Resume 2%nat 0 0] dropping_world.
Definition late_world := Eval vm_compute in run_of [Resolve 0%nat "7"] dropped_world.
Definition late_world' := Eval vm_compute in run_of [Resume 0%nat 0 0] late_world.

Lemma invalidation_wins_witness : w_store late_world' = w_store late_world.
Proof.
  apply (invalidation_wins [] dropping dropping_world 2%nat (Deleting "k") 0 0 dropped_world 0%nat "k"
    0%nat [Resolve 0%nat "7"] late_world (Resume 0%nat 0 0) late_world'); try reflexivity.
  - by left.
  - exists (Computing "k" None 0%nat). split; reflexivity.
Defined.

(** Fact: The window of [delete]: it empties the store first and drops the ledger entry
    only when the store has answered. A computation that resolves in between still
    owns the entry and writes; the delete then completes, and the value it was to
    forget is back in the store, without expiry, and is served to the next reader. *)
Theorem delete_loses_in_its_window :
  exists w : World string (list CacheRow),
    cache_run (herd ++ [CallDelete 2%nat "k"; Resolve 0%nat "7"; Resume 0%nat 0 0; Resume 2%nat 0 0])
      (cache_init []) = Some w /\
    calls w !! 2%nat = Some Deleted /\
    store_content (w_store w) "k" = Some (mkEntry "7" None) /\
    snd (read 0 "k" (w_store w)) = Some "7".
Proof. eexists. split; [vm_compute; reflexivity|]. split_and!; reflexivity. Qed.
