(* ===== verification/Scheduler.v ===== *)
(** * The schedulers

    [packages/queue/src/scheduler.ts] (cron expressions, [Scheduler.tick]) and
    [retention.ts] ([RetentionScheduler.tick]), over any queue: the client sees the
    queue through [JobSink]. *)
From Stdlib Require Import QArith.
From S2P Require Import Prelude JsString JsTime Json Queue.
#[local] Open Scope Z_scope.

(** ** Numbers *)

(** A JavaScript number: a finite double by its exact value. *)
Inductive js_number := NaN | Finite (q : Q) | Infinite (negative : bool).

Definition is_digit (c : ascii) : bool :=
  let n := nat_of_ascii c in ((48 <=? n) && (n <=? 57))%nat.

Definition digits (s : string) : bool :=
  match s with EmptyString => false | _ => all_chars is_digit s end.

Fixpoint decimal_from (acc : Z) (s : string) : Z :=
  match s with
  | EmptyString => acc
  | String c s' => decimal_from (acc * 10 + (Z.of_nat (nat_of_ascii c) - 48)) s'
  end.
Definition decimal (s : string) : Z := decimal_from 0 s.

(** The global [Number] on a string, and what the cron syntax relies on: short runs of
    digits denote their decimal value. *)
Class NumberParser := { Number : string -> js_number }.
Class NumberLaws `{!NumberParser} : Prop :=
  Number_digits : forall s, digits s = true -> (String.length s <= 15)%nat ->
    Number s = Finite (inject_Z (decimal s)).

(** [v % n === 0], [v >= n], [v <= n] and [n === v] for an integer [v]. *)
Definition rem_is_zero (v : Z) (n : js_number) : bool :=
  match n with
  | NaN => false
  | Infinite _ => v =? 0
  | Finite q => if Qeq_bool q 0 then false
                else let r := (inject_Z v / q)%Q in Qnum r mod Zpos (Qden r) =? 0
  end.

Definition num_ge (v : Z) (n : js_number) : bool :=
  match n with NaN => false | Infinite neg => neg | Finite q => Qle_bool q (inject_Z v) end.

Definition num_le (v : Z) (n : js_number) : bool :=
  match n with NaN => false | Infinite neg => negb neg | Finite q => Qle_bool (inject_Z v) q end.

Definition num_eq (v : Z) (n : js_number) : bool :=
  match n with Finite q => Qeq_bool q (inject_Z v) | _ => false end.

(** ** Local time *)

(** The offset of local time from UTC at an instant, in milliseconds. *)
Class TimeZone := { tz_offset : Z -> Z }.

Section Cron.
Context `{np : !NumberParser, tz : !TimeZone}.

Definition getMinutes (t : Z) : Z := (t + tz_offset t) mod msPerDay / 60000 mod 60.
Definition getHours (t : Z) : Z := (t + tz_offset t) mod msPerDay / 3600000.
Definition getMonth (t : Z) : Z :=
  let d := (t + tz_offset t) / msPerDay in
  let y := YearFromDay d in MonthFromDayInYear (isLeap y) (d - DayFromYear y).
Definition getDate (t : Z) : Z :=
  let d := (t + tz_offset t) / msPerDay in
  let y := YearFromDay d in
  let n := d - DayFromYear y in n - DaysBeforeMonth (isLeap y) (MonthFromDayInYear (isLeap y) n) + 1.
Definition getDay (t : Z) : Z := ((t + tz_offset t) / msPerDay + 4) mod 7.

(** ** Cron expressions *)

Definition matchPart (part : string) (value : Z) : bool :=
  if String.eqb part "*" then true
  else if startsWith "*/" part then rem_is_zero value (Number (drop_chars 2 part))
  else match cut "-" part with
       | Some (low, high) => num_ge value (Number low) && num_le value (Number high)
       | None => num_eq value (Number part)
       end.

Definition matchField (field : string) (value : Z) : bool :=
  existsb (fun part => matchPart part value) (split "," field).

Inductive SchedulerError :=
| QUEUE_INVALID_CRON_EXPRESSION (expression : string)
| ENQUEUE_REJECTED.

Definition cronMatches (expression : string) (date : Z) : outcome SchedulerError bool :=
  match split_spaces false (trim expression) with
  | [minute; hour; day; month; weekday] =>
      Ok (matchField minute (getMinutes date) && matchField hour (getHours date) &&
          matchField day (getDate date) && matchField month (getMonth date + 1) &&
          matchField weekday (getDay date))
  | _ => Throw (QUEUE_INVALID_CRON_EXPRESSION expression)
  end.

(** ** The queue as the scheduler sees it *)

(** [enqueue] at an instant: the new state of the queue, and whether it resolved. *)
Class JobSink (P S : Type) := { sink_enqueue : Z -> string -> P -> S -> S * bool }.

Context {P S : Type} `{sink : !JobSink P S}.

Record CronEntry := mkCron {
  cr_expression : string; cr_name : string; cr_payload : P; lastMinuteKey : option string
}.
Record IntervalEntry := mkInterval {
  everyMs : Z; iv_name : string; iv_payload : P; lastRunAt : option Z
}.
Record Scheduler := mkScheduler { crons : list CronEntry; intervals : list IntervalEntry }.

Definition newScheduler : Scheduler := mkScheduler [] [].

Definition cron (clock : Z) (expression name : string) (payload : P) (sch : Scheduler)
    : outcome SchedulerError Scheduler :=
  let! _ := cronMatches expression clock in
  Ok (mkScheduler (crons sch ++ [mkCron expression name payload None]) (intervals sch)).

Definition every (ms : Z) (name : string) (payload : P) (sch : Scheduler) : Scheduler :=
  mkScheduler (crons sch) (intervals sch ++ [mkInterval ms name payload None]).

Definition minuteKey (now : Z) : string := substring 0 16 (toISOString now).

(** The test of the cron filter; [&&] stops before [cronMatches] when the key is the last one. *)
Definition cron_due (now : Z) (e : CronEntry) : outcome SchedulerError bool :=
  if bool_decide (lastMinuteKey e = Some (minuteKey now)) then Ok false
  else cronMatches (cr_expression e) now.

(** [this.crons.filter(...)]: the indices of the entries due, from index [i] on. *)
Fixpoint dueCrons (now : Z) (i : nat) (es : list CronEntry) : outcome SchedulerError (list nat) :=
  match es with
  | [] => Ok []
  | e :: es' =>
      let! b := cron_due now e in
      let! rest := dueCrons now (i + 1) es' in
      Ok (if b then i :: rest else rest)
  end.

Definition interval_due (now : Z) (e : IntervalEntry) : bool :=
  match lastRunAt e with None => true | Some last => everyMs e <=? now - last end.

(** The indices at which a test holds, from index [i] on. *)
Fixpoint indices {A} (p : A -> bool) (i : nat) (es : list A) : list nat :=
  match es with
  | [] => []
  | e :: es' => let rest := indices p (i + 1) es' in if p e then i :: rest else rest
  end.

Definition dueIntervals (now : Z) (es : list IntervalEntry) : list nat :=
  indices (interval_due now) 0 es.

Definition stamp_cron (now : Z) (e : CronEntry) : CronEntry :=
  mkCron (cr_expression e) (cr_name e) (cr_payload e) (Some (minuteKey now)).
Definition stamp_interval (now : Z) (e : IntervalEntry) : IntervalEntry :=
  mkInterval (everyMs e) (iv_name e) (iv_payload e) (Some now).

(** The firing loops: stamp the entry, then await its enqueue; a rejection ends the tick. *)
Fixpoint fire {A} (enqueue : A -> S -> S * bool) (stamp : A -> A) (due : list nat)
    (es : list A) (s : S) : list A * S * bool :=
  match due with
  | [] => (es, s, true)
  | i :: due' =>
      match es !! i with
      | None => (es, s, true)
      | Some e =>
          match enqueue e s with
          | (s', true) => fire enqueue stamp due' (<[i := stamp e]> es) s'
          | (s', false) => (<[i := stamp e]> es, s', false)
          end
      end
  end.

Definition enqueue_cron (now : Z) (e : CronEntry) : S -> S * bool :=
  sink_enqueue now (cr_name e) (cr_payload e).
Definition enqueue_interval (now : Z) (e : IntervalEntry) : S -> S * bool :=
  sink_enqueue now (iv_name e) (iv_payload e).

Definition fire_crons (now : Z) := fire (enqueue_cron now) (stamp_cron now).
Definition fire_intervals (now : Z) := fire (enqueue_interval now) (stamp_interval now).

Definition tick (now : Z) (sch : Scheduler) (s : S) : Scheduler * S * outcome SchedulerError Z :=
  match dueCrons now 0 (crons sch) with
  | Throw e => (sch, s, Throw e)
  | Ok due =>
      match fire_crons now due (crons sch) s with
      | (cs, s1, false) => (mkScheduler cs (intervals sch), s1, Throw ENQUEUE_REJECTED)
      | (cs, s1, true) =>
          let dueI := dueIntervals now (intervals sch) in
          match fire_intervals now dueI (intervals sch) s1 with
          | (ivs, s2, false) => (mkScheduler cs ivs, s2, Throw ENQUEUE_REJECTED)
          | (ivs, s2, true) => (mkScheduler cs ivs, s2, Ok (Z.of_nat (length due + length dueI)))
          end
      end
  end.

End Cron.
Arguments CronEntry P : clear implicits.
Arguments IntervalEntry P : clear implicits.
Arguments Scheduler P : clear implicits.

(** The SQL queue is such a sink: every enqueue resolves. *)
#[export] Instance queue_sink `{!JsonCodec Json} (this : QueueOptions) : JobSink Json DB := {
  sink_enqueue now name payload d := (fst (enqueue this now now name payload no_options d), true)
}.

(** ** Retention *)

Section Retention.
Context {S : Type}.

(** A task: its cadence, and its sweep (the rows it deleted; [None]: it rejects). *)
Record RetentionTask := mkTask { t_everyMs : Z; run : Z -> S -> S * option Z }.
Record TaskState := mkTaskState { task : RetentionTask; t_lastRunAt : option Z }.
Record RetentionResult := mkResult { ran : Z; deleted : Z }.

Definition newRetention (tasks : list RetentionTask) : list TaskState :=
  map (fun t => mkTaskState t None) tasks.

Definition task_due (now : Z) (st : TaskState) : bool :=
  match t_lastRunAt st with None => true | Some last => t_everyMs (task st) <=? now - last end.

(** The loop of the tick: [None] when a sweep rejects. *)
Fixpoint retention_tick (now : Z) (sts : list TaskState) (s : S) (acc : RetentionResult)
    : list TaskState * S * option RetentionResult :=
  match sts with
  | [] => ([], s, Some acc)
  | st :: sts' =>
      if task_due now st then
        let st' := mkTaskState (task st) (Some now) in
        match run (task st) now s with
        | (s', None) => (st' :: sts', s', None)
        | (s', Some n) =>
            let '(rest, s'', r) :=
              retention_tick now sts' s' (mkResult (ran acc + 1) (deleted acc + n)) in
            (st' :: rest, s'', r)
        end
      else
        let '(rest, s'', r) := retention_tick now sts' s acc in (st :: rest, s'', r)
  end.
End Retention.
Arguments RetentionTask S : clear implicits.
Arguments TaskState S : clear implicits.
