(* ===== verification/SchedulerProps.v ===== *)
(** * The schedulers: correctness

    The cron syntax means what it says; a tick enqueues the entries due, in order;
    each cron entry fires once per matching minute; what a rejected enqueue or sweep
    costs. *)
From Stdlib Require Import QArith Sorting.Sorted.
From S2P Require Import Prelude JsString JsTime Json Queue Scheduler.
#[local] Open Scope Z_scope.

(** ** Minute keys *)

(** The part of an ISO string before the seconds, a function of the minute. *)
Definition iso_prefix (m : Z) : string :=
  let d := m / 1440 in
  let y := YearFromDay d in
  let n := d - DayFromYear y in
  let mo := MonthFromDayInYear (isLeap y) n in
  let dt := n - DaysBeforeMonth (isLeap y) mo + 1 in
  String.append (isoYear y) (String.append "-" (String.append (pad 2 (mo + 1))
  (String.append "-" (String.append (pad 2 dt) (String.append "T"
  (String.append (pad 2 (m mod 1440 / 60)) (String.append ":" (pad 2 (m mod 1440 mod 60))))))))).

Definition iso_suffix (t : Z) : string :=
  String.append ":" (String.append (pad 2 (t mod msPerDay / 1000 mod 60)) (String.append "."
  (String.append (pad 3 (t mod msPerDay mod 1000)) "Z"))).

Lemma toISOString_split t : toISOString t = String.append (iso_prefix (t / 60000)) (iso_suffix t).
Proof.
  unfold toISOString, iso_prefix, iso_suffix. cbv zeta. rewrite !append_assoc.
  replace (t / 60000 / 1440) with (t / msPerDay)
    by (rewrite Z.div_div by lia; reflexivity).
  replace (t / 60000 mod 1440 / 60) with (t mod msPerDay / 3600000)
    by (unfold msPerDay; Z.to_euclidean_division_equations; lia).
  replace (t / 60000 mod 1440 mod 60) with (t mod msPerDay / 60000 mod 60)
    by (unfold msPerDay; Z.to_euclidean_division_equations; lia).
  reflexivity.
Qed.

Lemma iso_prefix_length m : (16 <= String.length (iso_prefix m))%nat.
Proof.
  unfold iso_prefix. cbv zeta. rewrite !length_append, !pad_length. simpl.
  assert (4 <= String.length (isoYear (YearFromDay (m / 1440))))%nat; [|lia].
  unfold isoYear. case_test; rewrite ?length_append, !pad_length; lia.
Qed.

Lemma minuteKey_prefix t : minuteKey t = substring 0 16 (iso_prefix (t / 60000)).
Proof.
  unfold minuteKey. rewrite toISOString_split. apply substring_app, iso_prefix_length.
Qed.

Lemma minuteKey_minute t t' : t / 60000 = t' / 60000 -> minuteKey t = minuteKey t'.
Proof. intros E. by rewrite !minuteKey_prefix, E. Qed.

Lemma fourDigit_prefix t : fourDigitYear t -> minuteKey t = iso_prefix (t / 60000).
Proof.
  intros H. rewrite minuteKey_prefix. rewrite <- (substring_all (iso_prefix (t / 60000))) at 2.
  f_equal. unfold iso_prefix. cbv zeta. rewrite !length_append, !pad_length. simpl.
  replace (t / 60000 / 1440) with (t / msPerDay) by (rewrite Z.div_div by lia; reflexivity).
  apply fourDigitYear_year in H. unfold isoYear.
  replace ((0 <=? _) && (_ <=? 9999)) with true; [by rewrite pad_length|].
  symmetry. apply andb_true_iff. split; apply Z.leb_le; lia.
Qed.

(** Inside the four-digit years two instants have the same key exactly when they lie in
    the same minute. *)
Lemma minuteKey_inj t t' :
  fourDigitYear t -> fourDigitYear t' -> minuteKey t = minuteKey t' -> t / 60000 = t' / 60000.
Proof.
  intros Ht Ht' E. rewrite !fourDigit_prefix in E by done.
  set (f := fun t => t / 60000 * 60000).
  assert (Hf : forall t, fourDigitYear t -> fourDigitYear (f t)).
  { clear. intros t. unfold fourDigitYear, f. Z.to_euclidean_division_equations. lia. }
  assert (Hd : forall t, f t / 60000 = t / 60000) by (intros ?; apply Z.div_mul; lia).
  assert (Hs : forall t, iso_suffix (f t) = iso_suffix 0).
  { intros t0. unfold iso_suffix.
    replace (f t0 mod msPerDay / 1000 mod 60) with 0
      by (unfold f, msPerDay; Z.to_euclidean_division_equations; lia).
    replace (f t0 mod msPerDay mod 1000) with 0
      by (unfold f, msPerDay; Z.to_euclidean_division_equations; lia).
    reflexivity. }
  assert (C : String.compare (toISOString (f t)) (toISOString (f t')) = Eq).
  { by rewrite !toISOString_split, !Hd, !Hs, E, compare_refl. }
  rewrite toISOString_compare in C by auto. apply Z.compare_eq in C.
  rewrite <- (Hd t), <- (Hd t'). by rewrite C.
Qed.

(** ** The cron syntax *)

(** A part of a field: [*], [*/n], [a-b] or [a], with its digits as written. *)
Inductive CronPart := Any | Step (n : string) | Range (a b : string) | Exactly (a : string).

Definition print_part (p : CronPart) : string :=
  match p with
  | Any => "*"
  | Step n => String.append "*/" n
  | Range a b => String.append a (String "-" b)
  | Exactly a => a
  end.

Definition print_field (ps : list CronPart) : string := join "," (map print_part ps).

Definition number_ok (s : string) : bool := digits s && (String.length s <=? 15)%nat.

Definition part_ok (p : CronPart) : bool :=
  match p with
  | Any => true
  | Step n | Exactly n => number_ok n
  | Range a b => number_ok a && number_ok b
  end.

Definition field_ok (ps : list CronPart) : bool :=
  match ps with [] => false | _ => forallb part_ok ps end.

(** What a part means; a step of zero never matches. *)
Definition part_matches (v : Z) (p : CronPart) : bool :=
  match p with
  | Any => true
  | Step n => negb (decimal n =? 0) && (v mod decimal n =? 0)
  | Range a b => (decimal a <=? v) && (v <=? decimal b)
  | Exactly a => decimal a =? v
  end.

Section CronSyntax.
Context `{np : !NumberParser, nl : !NumberLaws, tz : !TimeZone}.

Lemma decimal_from_nonneg s acc : all_chars is_digit s = true -> 0 <= acc -> 0 <= decimal_from acc s.
Proof.
  revert acc. induction s as [|c s IH]; simpl; intros acc; [done|].
  intros [Hc Hs]%andb_true_iff Ha. apply IH; [done|].
  unfold is_digit in Hc. apply andb_true_iff in Hc as [Hc _]. apply Nat.leb_le in Hc. lia.
Qed.

Lemma number_okE s :
  number_ok s = true ->
  digits s = true /\ all_chars is_digit s = true /\ s <> EmptyString /\ 0 <= decimal s /\
  Number s = Finite (inject_Z (decimal s)).
Proof.
  unfold number_ok. intros [Hd Hl%Nat.leb_le]%andb_true_iff.
  assert (A : all_chars is_digit s = true) by by destruct s.
  split_and!; [done|done|by destruct s|by apply decimal_from_nonneg|by apply Number_digits].
Qed.

(** No separator of the syntax is a digit. *)
Lemma digits_no_char c s : is_digit c = false -> all_chars is_digit s = true -> has_char c s = false.
Proof.
  intros Hc Hs. rewrite has_char_all. apply negb_false_iff. eapply all_chars_impl; [|exact Hs].
  intros a Ha. apply negb_true_iff. destruct (Ascii.eqb_spec a c) as [->|]; [congruence|done].
Qed.

Lemma digits_no_space s : all_chars is_digit s = true -> no_space s = true.
Proof.
  apply all_chars_impl. intros c. unfold is_digit, is_space.
  intros H. apply andb_true_iff in H as [Hl Hh]. apply Nat.leb_le in Hl, Hh.
  apply negb_true_iff, orb_false_iff. split; [|apply Nat.eqb_neq; lia].
  apply orb_false_iff. split; [|apply Nat.eqb_neq; lia].
  apply andb_false_iff. right. apply Nat.leb_gt. lia.
Qed.

Lemma rem_is_zero_int v n :
  0 <= n -> rem_is_zero v (Finite (inject_Z n)) = negb (n =? 0) && (v mod n =? 0).
Proof.
  intros Hn. unfold rem_is_zero. destruct n as [|p|p]; [done| |lia]. simpl.
  unfold Qdiv, Qmult, Qinv, inject_Z. simpl. by rewrite Z.mul_1_r.
Qed.

Lemma num_int v n :
  num_ge v (Finite (inject_Z n)) = (n <=? v) /\ num_le v (Finite (inject_Z n)) = (v <=? n) /\
  num_eq v (Finite (inject_Z n)) = (n =? v).
Proof.
  unfold num_ge, num_le, num_eq, Qle_bool, Qeq_bool, inject_Z. simpl. rewrite !Z.mul_1_r.
  by split_and!.
Qed.

(** The first character of a number is neither [*] nor [-]. *)
Lemma number_head s : number_ok s = true -> exists c s', s = String c s' /\ is_digit c = true.
Proof.
  intros (_ & A & N & _)%number_okE. destruct s as [|c s]; [done|].
  simpl in A. apply andb_true_iff in A as [? _]. eauto.
Qed.

Lemma matchPart_number c s :
  is_digit c = true -> (String.eqb (String c s) "*" = false) /\ startsWith "*/" (String c s) = false.
Proof.
  intros H. cbn [String.eqb startsWith]. rewrite (Ascii.eqb_sym "*" c).
  destruct (Ascii.eqb_spec c "*") as [->|N]; [done|].
  by split.
Qed.

Lemma matchPart_print v p : part_ok p = true -> matchPart (print_part p) v = part_matches v p.
Proof.
  unfold matchPart. destruct p as [|n|a b|a]; cbn [part_ok print_part part_matches].
  - done.
  - intros H. destruct (number_head _ H) as (c & s & -> & Hc). simpl.
    apply number_okE in H as (_ & _ & _ & Hn & E). by rewrite E, rem_is_zero_int.
  - intros [Ha Hb]%andb_true_iff. destruct (number_head _ Ha) as (c & s & E & Hc).
    rewrite E. cbn [String.append].
    destruct (matchPart_number c (String.append s (String "-" b)) Hc) as [-> ->].
    change (String c (String.append s (String "-" b))) with (String.append (String c s) (String "-" b)).
    rewrite <- E. apply number_okE in Ha as (_ & Aa & _ & _ & Ea), Hb as (_ & _ & _ & _ & Eb).
    rewrite cut_app by by apply digits_no_char. rewrite Ea, Eb.
    destruct (num_int v (decimal a)) as (-> & _ & _), (num_int v (decimal b)) as (_ & -> & _). done.
  - intros Ha. destruct (number_head _ Ha) as (c & s & E & Hc). rewrite E.
    destruct (matchPart_number c s Hc) as [-> ->]. rewrite <- E.
    apply number_okE in Ha as (_ & Aa & _ & _ & Ea).
    rewrite (proj2 (cut_none _ _)) by by apply digits_no_char. rewrite Ea.
    by destruct (num_int v (decimal a)) as (_ & _ & ->).
Qed.

Lemma print_part_chars c p :
  part_ok p = true -> is_digit c = false -> has_char c "*/-" = false -> has_char c (print_part p) = false.
Proof.
  intros Hp Hc Hs. simpl in Hs. apply orb_false_iff in Hs as [H1 Hs].
  apply orb_false_iff in Hs as [H2 Hs]. apply orb_false_iff in Hs as [H3 _].
  destruct p as [|n|a b|a]; cbn [part_ok print_part] in *.
  - simpl. by rewrite H1.
  - apply number_okE in Hp as (_ & A & _). simpl. rewrite H1, H2. by apply digits_no_char.
  - apply andb_true_iff in Hp as [Ha Hb]. apply number_okE in Ha as (_ & Aa & _), Hb as (_ & Ab & _).
    rewrite has_char_app. simpl. rewrite H3. by rewrite !digits_no_char.
  - apply number_okE in Hp as (_ & A & _). by apply digits_no_char.
Qed.

Lemma matchField_print ps v :
  field_ok ps = true -> matchField (print_field ps) v = existsb (part_matches v) ps.
Proof.
  intros H. unfold matchField, print_field.
  assert (Hp : Forall (fun p => part_ok p = true) ps).
  { destruct ps; [done|]. by apply Forall_forall; intros; eapply forallb_forall in H; [|apply list_elem_of_In]. }
  rewrite split_join.
  - clear H. induction Hp as [|p ps Hp _ IH]; simpl; [done|]. by rewrite matchPart_print, IH.
  - by destruct ps.
  - apply Forall_map. eapply Forall_impl; [exact Hp|]. intros p. simpl. intros. by apply print_part_chars.
Qed.

Lemma print_field_word ps : field_ok ps = true -> word (print_field ps) = true.
Proof.
  intros H. unfold print_field.
  assert (W : Forall (fun p => word (print_part p) = true) ps).
  { destruct ps; [done|]. apply Forall_forall. intros p Hp%list_elem_of_In.
    eapply forallb_forall in H; [|exact Hp]. destruct p as [|n|a b|a]; cbn [part_ok print_part] in *.
    - done.
    - apply number_okE in H as (_ & A & _). exact (digits_no_space _ A).
    - apply andb_true_iff in H as [Ha Hb].
      apply number_okE in Ha as (_ & Aa & Na & _), Hb as (_ & Ab & _).
      destruct a as [|x a]; [done|]. change (no_space (String.append (String x a) (String "-" b)) = true).
      unfold no_space. rewrite all_chars_app. apply andb_true_iff. split; [by apply digits_no_space|].
      simpl. by apply digits_no_space.
    - apply number_okE in H as (_ & A & N & _). destruct a; [done|]. exact (digits_no_space _ A). }
  destruct ps as [|p ps]; [done|]. clear H.
  assert (N : forall q qs, Forall (fun p => word (print_part p) = true) (q :: qs) ->
    word (join "," (map print_part (q :: qs))) = true).
  { clear. intros q qs. revert q. induction qs as [|r qs IH]; intros q H.
    - inversion H. done.
    - inversion H as [|? ? Hq Hqs]; subst. specialize (IH r Hqs).
      apply wordE in Hq as [Hn Hq], IH as [_ IH].
      change (word (String.append (print_part q) (String "," (join "," (map print_part (r :: qs))))) = true).
      destruct (print_part q) as [|c s]; [done|].
      change (no_space (String.append (String c s) (String "," (join "," (map print_part (r :: qs))))) = true).
      unfold no_space. rewrite all_chars_app. apply andb_true_iff. split; [exact Hq|]. exact IH. }
  by apply N.
Qed.

(** Fact: The cron syntax means what it says: an expression of five fields, each a comma
    list of [*], [*/n], [a-b] and [a], matches an instant exactly when in every field
    some part holds of the local minute, hour, day, month (from 1) and weekday. *)
Theorem cronMatches_spec mi ho da mo we date :
  forallb field_ok [mi; ho; da; mo; we] = true ->
  cronMatches (join " " (map print_field [mi; ho; da; mo; we])) date =
  Ok (existsb (part_matches (getMinutes date)) mi && existsb (part_matches (getHours date)) ho &&
      existsb (part_matches (getDate date)) da && existsb (part_matches (getMonth date + 1)) mo &&
      existsb (part_matches (getDay date)) we).
Proof.
  intros H. unfold cronMatches. rewrite split_words.
  - simpl in H. repeat match goal with H : _ && _ = true |- _ => apply andb_true_iff in H as [? ?] end.
    cbn [map]. by rewrite !matchField_print.
  - done.
  - apply Forall_forall. intros w Hw%list_elem_of_In. apply in_map_iff in Hw as (ps & <- & Hp).
    apply print_field_word. by eapply forallb_forall in H.
Qed.
End CronSyntax.

(** ** Ticks *)

Section Ticks.
Context `{np : !NumberParser, tz : !TimeZone} {P S : Type} `{sink : !JobSink P S}.
Implicit Types (sch : Scheduler P) (s : S) (now t : Z).

(** The expression matches the instant. *)
Definition hits (e : CronEntry P) (t : Z) : bool :=
  match cronMatches (cr_expression e) t with Ok b => b | Throw _ => false end.

(** Every expression has its five fields, as [Scheduler.cron] ensures. *)
Definition valid (e : CronEntry P) : Prop := forall t, cronMatches (cr_expression e) t = Ok (hits e t).

(** The cron entries a tick at [now] fires, and the interval entries. *)
Definition cron_fires (now : Z) (e : CronEntry P) : bool :=
  negb (bool_decide (lastMinuteKey e = Some (minuteKey now))) && hits e now.

Lemma cron_valid clock expression name payload sch sch' :
  cron clock expression name payload sch = Ok sch' ->
  Forall valid (crons sch) -> Forall valid (crons sch') /\ intervals sch' = intervals sch /\
  crons sch' = (crons sch ++ [mkCron expression name payload None])%list.
Proof.
  unfold cron. destruct (cronMatches expression clock) eqn:E; simpl; intros [= <-] H; split; [|done].
  simpl. apply Forall_app. split; [done|]. constructor; [|done].
  intros t. unfold hits. cbn [cr_expression]. revert E. unfold cronMatches.
  destruct (split_spaces false (trim expression)) as [|? [|? [|? [|? [|? [|? ?]]]]]]; done.
Qed.

Lemma dueCrons_valid now i es :
  Forall valid es -> dueCrons now i es = Ok (indices (cron_fires now) i es).
Proof.
  intros H. revert i. induction H as [|e es He Hes IH]; intros i; simpl; [done|].
  assert (cron_due now e = Ok (cron_fires now e)) as ->.
  { unfold cron_due, cron_fires. case_bool_decide; [done|]. simpl. by rewrite He. }
  simpl. by rewrite IH.
Qed.

Lemma indices_spec {A} (p : A -> bool) i es :
  List.NoDup (indices p i es) /\
  forall j, In j (indices p i es) <-> exists k e, j = (i + k)%nat /\ es !! k = Some e /\ p e = true.
Proof.
  revert i. induction es as [|e es IH]; intros i; simpl.
  - split; [constructor|]. intros j. split; [done|]. intros (k & e & _ & Hk & _). done.
  - destruct (IH (i + 1)%nat) as (Hn & Hin). clear IH.
    assert (Hi : forall j, In j (indices p (i + 1) es) -> (i < j)%nat)
      by (intros j (k & ? & -> & _)%Hin; lia).
    split.
    + destruct (p e); [|done]. constructor; [|done]. intros H%Hi. lia.
    + intros j. transitivity ((j = i /\ p e = true) \/ In j (indices p (i + 1) es)).
      { destruct (p e); simpl; naive_solver. }
      rewrite Hin. split.
      * intros [[-> Hf]|(k & e' & -> & Hk & Hf)].
        -- exists 0%nat, e. split_and!; [lia|done|done].
        -- exists (Datatypes.S k), e'. split_and!; [lia|done|done].
      * intros ([|k] & e' & -> & Hk & Hf); [left|right].
        -- injection Hk as ->. split; [lia|done].
        -- exists k, e'. split_and!; [lia|done|done].
Qed.

Lemma indices_lookup {A} (p : A -> bool) es i :
  In i (indices p 0 es) <-> exists e, es !! i = Some e /\ p e = true.
Proof.
  destruct (indices_spec p 0 es) as [_ H]. rewrite H. split.
  - intros (k & e & -> & ?). eauto.
  - intros (e & ?). by exists i, e.
Qed.

(** The entries that satisfy [p], stamped. *)
Definition stamp_due {A} (p : A -> bool) (stamp : A -> A) (es : list A) : list A :=
  map (fun e => if p e then stamp e else e) es.

(** The enqueues of the entries that satisfy [p], in registration order. *)
Definition enqueue_due {A} (p : A -> bool) (enqueue : A -> S -> S * bool) (es : list A) (s : S) : S :=
  fold_left (fun s e => fst (enqueue e s)) (List.filter p es) s.

Lemma fire_spec {A} (enqueue : A -> S -> S * bool) (stamp : A -> A) (p : A -> bool) es s :
  (forall e s, snd (enqueue e s) = true) ->
  fire enqueue stamp (indices p 0 es) es s =
  (stamp_due p stamp es, enqueue_due p enqueue es s, true).
Proof.
  intros R. unfold stamp_due, enqueue_due.
  enough (G : forall pre, fire enqueue stamp (indices p (length pre) es) (pre ++ es)%list s =
    (pre ++ map (fun e => if p e then stamp e else e) es,
     fold_left (fun s e => fst (enqueue e s)) (List.filter p es) s, true)) by apply (G []).
  revert s. induction es as [|e es IH]; intros s pre; simpl; [done|].
  assert (Hl : length (pre ++ [e]) = (length pre + 1)%nat) by (rewrite length_app; done).
  destruct (p e) eqn:Ep; simpl.
  - rewrite list_lookup_middle by done. pose proof (R e s) as Hr.
    destruct (enqueue e s) as [s' b]. simpl in Hr. subst b. simpl.
    rewrite insert_app_r_alt, Nat.sub_diag by done. simpl.
    specialize (IH s' (pre ++ [stamp e])). rewrite length_app, <- !app_assoc in IH. exact IH.
  - specialize (IH s (pre ++ [e])). rewrite length_app, <- !app_assoc in IH. exact IH.
Qed.

(** The queue never rejects. *)
Definition reliable : Prop := forall now name payload s, snd (sink_enqueue now name payload s) = true.

(** Fact: A tick over a queue that accepts enqueues exactly the cron entries due and
    then exactly the interval entries due, in registration order, stamps them and no
    others, and returns how many fired. *)
Theorem tick_spec now sch s :
  reliable -> Forall valid (crons sch) ->
  tick now sch s =
  (mkScheduler (stamp_due (cron_fires now) (stamp_cron now) (crons sch))
               (stamp_due (interval_due now) (stamp_interval now) (intervals sch)),
   enqueue_due (interval_due now) (enqueue_interval now) (intervals sch)
     (enqueue_due (cron_fires now) (enqueue_cron now) (crons sch) s),
   Ok (Z.of_nat (length (List.filter (cron_fires now) (crons sch)) +
                 length (List.filter (interval_due now) (intervals sch))))).
Proof.
  intros R Hv. unfold tick, fire_crons, fire_intervals, dueIntervals.
  rewrite (dueCrons_valid now 0 _ Hv). rewrite fire_spec by (intros; apply R).
  rewrite fire_spec by (intros; apply R).
  assert (L : forall A (p : A -> bool) i es, length (indices p i es) = length (List.filter p es)).
  { intros A p i es. revert i. induction es as [|e es IH]; intros i; simpl; [done|].
    destruct (p e); simpl; by rewrite IH. }
  by rewrite !L.
Qed.

(** *** Once per minute *)

(** The ticks at [ts], in order; a rejection is swallowed, as [start] does. *)
Definition run_ticks (ts : list Z) sch s : Scheduler P * S :=
  fold_left (fun x t => fst (tick t (fst x) (snd x))) ts (sch, s).

(** The key an entry remembers: that of the last instant it matched. *)
Definition last_key (e : CronEntry P) (ts : list Z) : option string :=
  minuteKey <$> last (List.filter (hits e) ts).

Lemma run_ticks_keys ts sch s :
  reliable -> Forall valid (crons sch) -> Forall (fun e => lastMinuteKey e = None) (crons sch) ->
  crons (fst (run_ticks ts sch s)) =
  map (fun e => mkCron (cr_expression e) (cr_name e) (cr_payload e) (last_key e ts)) (crons sch).
Proof.
  intros R Hv Hn. induction ts as [|t ts IH] using rev_ind.
  - simpl. symmetry. rewrite <- (map_id (crons sch)) at 2. apply map_ext_Forall.
    eapply Forall_impl; [exact Hn|]. intros [x n p k] Hk. simpl in *. by subst.
  - unfold run_ticks in *. rewrite fold_left_app. simpl.
    set (x := fold_left _ ts (sch, s)) in *. destruct x as [sch1 s1]. simpl in *.
    assert (Hv1 : Forall valid (crons sch1)).
    { rewrite IH. apply Forall_map. eapply Forall_impl; [exact Hv|]. intros e He t'. exact (He t'). }
    rewrite tick_spec by done. simpl. unfold stamp_due. rewrite IH, map_map. apply map_ext.
    intros e.
    assert (Ef : forall k, cron_fires t (mkCron (cr_expression e) (cr_name e) (cr_payload e) k) =
      negb (bool_decide (k = Some (minuteKey t))) && hits e t) by done.
    rewrite Ef. unfold last_key. rewrite List.filter_app, last_app. simpl.
    destruct (hits e t) eqn:Eh; simpl; [|by rewrite andb_false_r].
    rewrite andb_true_r. case_bool_decide as Hk; simpl; [|done]. by rewrite Hk.
Qed.

Lemma last_In (A : Type) (l : list A) x : last l = Some x -> In x l.
Proof. intros H. apply last_Some in H as [l' ->]. apply in_app_iff. right. by left. Qed.

Lemma StronglySorted_snoc l t :
  StronglySorted Z.le (l ++ [t])%list -> StronglySorted Z.le l /\ forall x, In x l -> x <= t.
Proof.
  induction l as [|a l IH]; simpl; intros H; [split; [constructor|done]|].
  inversion H as [|? ? Hl Hf]; subst. destruct (IH Hl) as [H1 H2].
  rewrite Forall_app in Hf. destruct Hf as [Hf Ha]. inversion Ha; subst.
  split; [by constructor|]. intros x [<-|Hx]; auto.
Qed.

Lemma StronglySorted_filter (p : Z -> bool) l :
  StronglySorted Z.le l -> StronglySorted Z.le (List.filter p l).
Proof.
  induction 1 as [|a l Hl IH Hf]; simpl; [constructor|]. destruct (p a); [|done].
  constructor; [done|]. apply Forall_forall. intros x Hx%list_elem_of_In.
  apply filter_In in Hx as [Hx _]. eapply Forall_forall in Hf; [exact Hf|]. by apply list_elem_of_In.
Qed.

(** In a sorted history, what satisfied a test lies before the last that did. *)
Lemma last_filter_between (p : Z -> bool) l t x y :
  StronglySorted Z.le (l ++ [t])%list -> In x (List.filter p l) -> last (List.filter p l) = Some y ->
  x <= y <= t.
Proof.
  intros [Hl Ht]%StronglySorted_snoc Hx Hy. split.
  - apply (StronglySorted_filter p) in Hl. apply last_Some in Hy as [l' E]. rewrite E in Hl, Hx.
    apply StronglySorted_snoc in Hl as [_ Hl]. apply in_app_iff in Hx as [?|[->|[]]]; [auto|lia].
  - apply Ht. apply last_In in Hy. by eapply filter_sub.
Qed.

(** Fact: Exactly once per matching minute: after any ticks at non-decreasing instants (in
    the years 0 to 9999) of a scheduler built by [cron], the next tick fires an entry
    exactly when its expression matches and no earlier tick matched in that minute. *)
Theorem cron_once_per_minute sch s ts t i e :
  reliable -> Forall valid (crons sch) -> Forall (fun e => lastMinuteKey e = None) (crons sch) ->
  Forall fourDigitYear (ts ++ [t])%list -> StronglySorted Z.le (ts ++ [t])%list ->
  crons sch !! i = Some e ->
  (exists e', crons (fst (run_ticks ts sch s)) !! i = Some e' /\ cron_fires t e' = true) <->
  hits e t = true /\ ~ exists t', In t' ts /\ hits e t' = true /\ t' / 60000 = t / 60000.
Proof.
  intros R Hv Hn Hy Hs Hi.
  rewrite run_ticks_keys by done.
  rewrite list_lookup_fmap, Hi. simpl. fold (cron_fires t).
  assert (Hk : last_key e ts = Some (minuteKey t) <->
    exists t', In t' ts /\ hits e t' = true /\ t' / 60000 = t / 60000).
  { apply Forall_app in Hy as [Hy Ht]. inversion Ht as [|? ? Hyt _]; subst. unfold last_key. split.
    - destruct (last (List.filter (hits e) ts)) as [t0|] eqn:El; [|done]. intros [= Ek].
      apply last_In, filter_In in El as [Hin Hh]. exists t0. split_and!; [done|done|].
      apply minuteKey_inj; [|done|done]. eapply Forall_forall; [exact Hy|]. by apply list_elem_of_In.
    - intros (t' & Hin & Hh & Em).
      assert (H' : In t' (List.filter (hits e) ts)) by by apply filter_In.
      destruct (last (List.filter (hits e) ts)) as [t0|] eqn:El.
      + simpl. f_equal. apply minuteKey_minute. rewrite <- Em.
        destruct (last_filter_between _ _ _ _ _ Hs H' El) as [H1 H2].
        apply Z.le_antisymm; [rewrite Em; by apply Z.div_le_mono|by apply Z.div_le_mono].
      + apply last_None in El. rewrite El in H'. done. }
  rewrite <- Hk. unfold cron_fires. split.
  - intros (e' & [= <-] & [H1 H2]%andb_true_iff). cbn in H1, H2.
    apply negb_true_iff, bool_decide_eq_false in H1. by split.
  - intros [Hh Hne]. eexists. split; [reflexivity|]. apply andb_true_iff. cbn.
    split; [|exact Hh]. by apply negb_true_iff, bool_decide_eq_false.
Qed.

(** *** A rejected enqueue *)

Lemma fire_rejected {A} (enqueue : A -> S -> S * bool) (stamp : A -> A) due es s es' s' :
  List.NoDup due -> fire enqueue stamp due es s = (es', s', false) ->
  exists i e, In i due /\ es !! i = Some e /\ es' !! i = Some (stamp e) /\
    exists s0, enqueue e s0 = (s', false).
Proof.
  intros Hn. revert es s. induction Hn as [|i due Hi Hn IH]; simpl; intros es s; [done|].
  destruct (es !! i) as [e|] eqn:He; [|done].
  destruct (enqueue e s) as [s1 [|]] eqn:Es.
  - intros (j & e' & Hj & He' & Hs & Hr)%IH. exists j, e'.
    assert (j <> i) by (intros ->; done). rewrite list_lookup_insert_ne in He' by done.
    split_and!; [by right|done|done|done].
  - intros [= <- <-]. exists i, e. split_and!; [by left|done| |by exists s].
    apply list_lookup_insert_eq. by eapply lookup_lt_Some.
Qed.

(** Fact: A tick that ends on a rejected enqueue has already stamped the entry whose
    enqueue was rejected: no later tick of the same minute fires that cron entry, and
    no tick before its whole period fires that interval entry again. *)
Theorem rejected_enqueue_is_stamped now sch s sch' s' :
  Forall valid (crons sch) -> tick now sch s = (sch', s', Throw ENQUEUE_REJECTED) ->
  (exists i e e' s0, crons sch !! i = Some e /\ cron_fires now e = true /\
     enqueue_cron now e s0 = (s', false) /\ crons sch' !! i = Some e' /\
     forall now', now' / 60000 = now / 60000 -> cron_fires now' e' = false) \/
  (exists i e e' s0, intervals sch !! i = Some e /\ interval_due now e = true /\
     enqueue_interval now e s0 = (s', false) /\ intervals sch' !! i = Some e' /\
     forall now', now' < now + everyMs e -> interval_due now' e' = false).
Proof.
  intros Hv. unfold tick. rewrite dueCrons_valid by done.
  destruct (fire_crons _ _ _ _) as [[cs s1] [|]] eqn:Ec.
  - destruct (fire_intervals _ _ _ _) as [[ivs s2] [|]] eqn:Ei; [done|]. intros [= <- <-]. right.
    apply fire_rejected in Ei as (i & e & Hi & He & He' & s0 & Hr); [|apply indices_spec].
    apply indices_lookup in Hi as (e0 & He0 & Hd). simplify_eq.
    exists i, e0, (stamp_interval now e0), s0. split_and!; [done..|].
    intros now' Hn. unfold interval_due. simpl. apply Z.leb_gt. lia.
  - intros [= <- <-]. left.
    apply fire_rejected in Ec as (i & e & Hi & He & He' & s0 & Hr); [|apply indices_spec].
    apply indices_lookup in Hi as (e0 & He0 & Hd). simplify_eq.
    exists i, e0, (stamp_cron now e0), s0. split_and!; [done..|].
    intros now' Hm. unfold cron_fires. simpl. rewrite (minuteKey_minute now' now) by done.
    by rewrite bool_decide_eq_true_2.
Qed.
End Ticks.

(** ** Retention *)

Section RetentionProps.
Context {S : Type}.
Implicit Types (sts : list (TaskState S)) (s : S).

Definition stamp_task (now : Z) (st : TaskState S) : TaskState S := mkTaskState (task st) (Some now).

(** Fact: A retention tick runs the due tasks in order and stamps exactly those. When a
    sweep rejects, the tick ends there: the tasks before it keep their stamps, those
    after it are untouched whether due or not, and the failed task is stamped too, so
    that it is not due again before its whole cadence has passed. *)
Theorem retention_tick_spec now sts s acc sts' s' r :
  retention_tick now sts s acc = (sts', s', r) ->
  match r with
  | Some res =>
      sts' = map (fun st => if task_due now st then stamp_task now st else st) sts /\
      ran res = ran acc + Z.of_nat (length (List.filter (task_due now) sts))
  | None =>
      exists pre st post, sts = pre ++ st :: post /\ task_due now st = true /\
        sts' = map (fun st => if task_due now st then stamp_task now st else st) pre ++
               stamp_task now st :: post /\
        forall now', now' < now + t_everyMs (task st) -> task_due now' (stamp_task now st) = false
  end.
Proof.
  revert s acc sts' s' r. induction sts as [|st sts IH]; simpl; intros s acc sts' s' r.
  - intros [= <- <- <-]. simpl. split; [done|lia].
  - destruct (task_due now st) eqn:Ed.
    + destruct (run (task st) now s) as [s1 [n|]].
      * destruct (retention_tick now sts s1 _) as [[rest s2] r2] eqn:Er. intros [= <- <- <-].
        apply IH in Er. destruct r2 as [res|].
        -- destruct Er as [-> Er]. split; [done|]. simpl in *. lia.
        -- destruct Er as (pre & st0 & post & -> & H1 & -> & H2).
           exists (st :: pre), st0, post. simpl. by rewrite Ed.
      * intros [= <- <- <-]. exists [], st, sts. split_and!; [done|done|done|].
        intros now' Hn. unfold task_due, stamp_task. simpl. apply Z.leb_gt. lia.
    + destruct (retention_tick now sts s acc) as [[rest s2] r2] eqn:Er. intros [= <- <- <-].
      apply IH in Er. destruct r2 as [res|].
      * destruct Er as [-> Er]. split; [done|]. simpl in *. lia.
      * destruct Er as (pre & st0 & post & -> & H1 & -> & H2).
        exists (st :: pre), st0, post. simpl. by rewrite Ed.
Qed.
End RetentionProps.

(** * The schedulers at concrete inputs *)
#[local] Open Scope string_scope.
#[local] Open Scope Z_scope.

(** [Number] on runs of digits and the empty string; UTC; a queue that logs, and one
    that rejects its first call. *)
#[local] Instance digit_numbers : NumberParser := {
  Number s := if digits s then Finite (inject_Z (decimal s))
              else if String.eqb s EmptyString then Finite 0 else NaN
}.
#[local] Instance digit_laws : NumberLaws.
Proof. intros s H _. simpl. by rewrite H. Defined.
#[local] Instance utc : TimeZone := { tz_offset _ := 0 }.
Definition log_sink : JobSink unit (list string) := {| sink_enqueue _ name _ s := ((s ++ [name])%list, true) |}.
Definition flaky_sink : JobSink unit (list string) := {|
  sink_enqueue _ name _ s := ((s ++ [name])%list, negb (Nat.eqb (length s) 0)) |}.

(** 2024-02-29T12:30:05Z, a Thursday. *)
Definition leap_noon : Z := 1709209805000.

Lemma cronMatches_spec_witness :
  cronMatches "*/15 9-17 29 2,3 *" leap_noon = Ok true.
Proof.
  transitivity (cronMatches (join " " (map print_field
    [[Step "15"]; [Range "9" "17"]; [Exactly "29"]; [Exactly "2"; Exactly "3"]; [Any]])) leap_noon);
    [reflexivity|].
  rewrite (cronMatches_spec [Step "15"] [Range "9" "17"] [Exactly "29"] [Exactly "2"; Exactly "3"] [Any]
    leap_noon eq_refl). vm_compute. reflexivity.
Defined.

(** Entries that match every minute and every hour, and an interval of a minute. *)
Definition sched : Scheduler unit :=
  every 60000 "sweep" tt (mkScheduler [mkCron "* * * * *" "minutely" tt None; mkCron "30 * * * *" "hourly" tt None] []).

Lemma sched_valid : Forall valid (crons sched).
Proof. repeat constructor; intros t; unfold hits; reflexivity. Defined.

Lemma tick_spec_witness :
  Forall valid (crons sched) /\
  snd (fst (tick (sink := log_sink) leap_noon sched [])) = ["minutely"; "hourly"; "sweep"] /\
  snd (tick (sink := log_sink) leap_noon sched []) = Ok 3.
Proof.
  split; [exact sched_valid|].
  rewrite (tick_spec (sink := log_sink) leap_noon sched [] (fun _ _ _ _ => eq_refl) sched_valid).
  split; vm_compute; reflexivity.
Defined.

Definition two_ticks : list Z := [leap_noon; leap_noon + 60000].

Lemma cron_once_per_minute_witness :
  (exists e', crons (fst (run_ticks (sink := log_sink) two_ticks sched [])) !! 0%nat = Some e' /\
     cron_fires (leap_noon + 70000) e' = true) <->
  hits (mkCron "* * * * *" "minutely" tt None) (leap_noon + 70000) = true /\
  ~ exists t', In t' two_ticks /\ hits (mkCron "* * * * *" "minutely" tt None) t' = true /\
      t' / 60000 = (leap_noon + 70000) / 60000.
Proof.
  apply (cron_once_per_minute (sink := log_sink) sched [] two_ticks (leap_noon + 70000) 0%nat).
  - intros ????. reflexivity.
  - exact sched_valid.
  - by repeat constructor.
  - unfold two_ticks, leap_noon. repeat constructor; unfold fourDigitYear; lia.
  - unfold two_ticks, leap_noon. repeat constructor; lia.
  - reflexivity.
Defined.

(** The first enqueue is rejected; the entry is not retried in that minute. *)
Definition after_rejection := Eval vm_compute in fst (tick (sink := flaky_sink) leap_noon sched []).

Lemma rejected_enqueue_is_stamped_witness :
  (exists i e e' s0, crons sched !! i = Some e /\ cron_fires leap_noon e = true /\
     enqueue_cron (sink := flaky_sink) leap_noon e s0 = (snd after_rejection, false) /\
     crons (fst after_rejection) !! i = Some e' /\
     forall now', now' / 60000 = leap_noon / 60000 -> cron_fires now' e' = false) \/
  (exists i e e' s0, intervals sched !! i = Some e /\ interval_due leap_noon e = true /\
     enqueue_interval (sink := flaky_sink) leap_noon e s0 = (snd after_rejection, false) /\
     intervals (fst after_rejection) !! i = Some e' /\
     forall now', now' < leap_noon + everyMs e -> interval_due now' e' = false).
Proof.
  apply (rejected_enqueue_is_stamped (sink := flaky_sink) leap_noon sched []); [exact sched_valid|].
  vm_compute. reflexivity.
Defined.

(** Three sweeps; the second rejects. *)
Definition sweeps : list (TaskState nat) :=
  newRetention [mkTask 1000 (fun _ s => (Datatypes.S s, Some 4)); mkTask 5000 (fun _ s => (s, None));
                mkTask 1000 (fun _ s => (Datatypes.S s, Some 1))].

Lemma retention_tick_spec_witness :
  exists pre st post, sweeps = (pre ++ st :: post)%list /\ task_due 7 st = true /\
    [mkTaskState (mkTask 1000 (fun _ s => (Datatypes.S s, Some 4))) (Some 7);
     mkTaskState (mkTask 5000 (fun _ s => (s, None))) (Some 7);
     mkTaskState (mkTask 1000 (fun _ s => (Datatypes.S s, Some 1))) None] =
    (map (fun st => if task_due 7 st then stamp_task 7 st else st) pre ++ stamp_task 7 st :: post)%list /\
    forall now', now' < 7 + t_everyMs (task st) -> task_due now' (stamp_task 7 st) = false.
Proof. apply (retention_tick_spec 7 sweeps 0%nat (mkResult 0 0) _ 1%nat None). reflexivity. Defined.
