(* ===== verification/Workflows.v ===== *)
(** * Workflows

    [packages/workflows/src/engine.ts]: the step journal, [ctx.step] and [Engine.run],
    for workflows given as the tree of their awaits; and two passes of one step racing
    on the journal. *)
From S2P Require Import Prelude Json.

(** [lesto_workflow_steps]: [result] under its primary key [(run_id, step_key)]. *)
Abbreviation Journal := (gmap (string * string) string).

Section Workflows.
(** [V]: JSON values; [W]: the world the steps act on; [E]: what they throw. *)
Context {V W E : Type} `{codec : !JsonCodec V}.

(** What a step returns: a value, or [None] for undefined. *)
Definition JsValue : Type := option V.

Inductive WorkflowError :=
| WORKFLOW_UNKNOWN (name : string)
| Thrown (e : E)
| BadJson.

Definition read_step (runId key : string) (j : Journal) : option string := j !! (runId, key).

(** INSERT ... ON CONFLICT DO NOTHING: whether this call inserted. *)
Definition write_step (runId key result : string) (j : Journal) : Journal * bool :=
  match j !! (runId, key) with
  | Some _ => (j, false)
  | None => (<[(runId, key) := result]> j, true)
  end.

(** [JSON.stringify(result ?? null)]. *)
Definition encode (r : JsValue) : string := json_stringify (default json_null r).

Definition decode (text : string) : outcome WorkflowError JsValue :=
  match json_parse text with Some v => Ok (Some v) | None => Throw BadJson end.

(** A step's function, on the world. *)
Definition StepFn : Type := W -> W * outcome E JsValue.

(** [ctx.step], with no other pass of the step running. *)
Definition step (runId key : string) (fn : StepFn) (j : Journal) (w : W)
    : Journal * W * outcome WorkflowError JsValue :=
  match read_step runId key j with
  | Some text => (j, w, decode text)
  | None =>
      match fn w with
      | (w', Throw e) => (j, w', Throw (Thrown e))
      | (w', Ok result) =>
          match write_step runId key (encode result) j with
          | (j', true) => (j', w', Ok result)
          | (j', false) =>
              match read_step runId key j' with
              | Some text => (j', w', decode text)
              | None => (j', w', Throw BadJson)
              end
          end
      end
  end.

(** A workflow function: what it does between two awaits is a function of the results
    it has seen. *)
Inductive Workflow (O : Type) :=
| Return (o : O)
| Raise (e : E)
| Step (key : string) (fn : StepFn) (k : JsValue -> Workflow O)
| Sleep (ms : Z) (k : Workflow O).
Arguments Return {O} o.
Arguments Raise {O} e.
Arguments Step {O} key fn k.
Arguments Sleep {O} ms k.

Fixpoint exec {O} (runId : string) (wf : Workflow O) (j : Journal) (w : W)
    : Journal * W * outcome WorkflowError O :=
  match wf with
  | Return o => (j, w, Ok o)
  | Raise e => (j, w, Throw (Thrown e))
  | Sleep _ k => exec runId k j w
  | Step key fn k =>
      match step runId key fn j w with
      | (j', w', Throw e) => (j', w', Throw e)
      | (j', w', Ok r) => exec runId (k r) j' w'
      end
  end.

(** The same, interrupted after [n] passes of [ctx.step]; [None] when a step threw. *)
Fixpoint exec_until {O} (n : nat) (runId : string) (wf : Workflow O) (j : Journal) (w : W)
    : option (Journal * W) :=
  match wf, n with
  | Return _, _ | Raise _, _ | Step _ _ _, 0%nat => Some (j, w)
  | Sleep _ k, _ => exec_until n runId k j w
  | Step key fn k, Datatypes.S n' =>
      match step runId key fn j w with
      | (_, _, Throw _) => None
      | (j', w', Ok r) => exec_until n' runId (k r) j' w'
      end
  end.

(** [Engine.run] over the registry of workflows. *)
Definition run {I O} (workflows : gmap string (I -> Workflow O)) (name runId : string) (input : I)
    (j : Journal) (w : W) : Journal * W * outcome WorkflowError O :=
  match workflows !! name with
  | None => (j, w, Throw (WORKFLOW_UNKNOWN name))
  | Some fn => exec runId (fn input) j w
  end.

(** ** Concurrent passes of one step *)

(** Where a pass of [ctx.step] is suspended. *)
Inductive Pass :=
| Reading
| Executing
| Writing (result : JsValue)
| Rereading
| Finished (result : outcome WorkflowError JsValue).

Inductive PassEvent :=
| Resumes (p : nat)                            (* a read or a write of pass [p] happens *)
| Executed (p : nat) (r : outcome E JsValue).  (* its [fn] settles *)

Definition pass_step (runId key : string) (e : PassEvent) (x : Journal * gmap nat Pass)
    : option (Journal * gmap nat Pass) :=
  let '(j, ps) := x in
  match e with
  | Resumes p =>
      match ps !! p with
      | Some Reading =>
          match read_step runId key j with
          | Some text => Some (j, <[p := Finished (decode text)]> ps)
          | None => Some (j, <[p := Executing]> ps)
          end
      | Some (Writing result) =>
          match write_step runId key (encode result) j with
          | (j', true) => Some (j', <[p := Finished (Ok result)]> ps)
          | (j', false) => Some (j', <[p := Rereading]> ps)
          end
      | Some Rereading =>
          match read_step runId key j with
          | Some text => Some (j, <[p := Finished (decode text)]> ps)
          | None => Some (j, <[p := Finished (Throw BadJson)]> ps)
          end
      | _ => None
      end
  | Executed p r =>
      match ps !! p with
      | Some Executing =>
          match r with
          | Ok result => Some (j, <[p := Writing result]> ps)
          | Throw e => Some (j, <[p := Finished (Throw (Thrown e))]> ps)
          end
      | _ => None
      end
  end.

Fixpoint run_passes (runId key : string) (es : list PassEvent) (x : Journal * gmap nat Pass)
    : option (Journal * gmap nat Pass) :=
  match es with
  | [] => Some x
  | e :: es' => match pass_step runId key e x with
                | Some x' => run_passes runId key es' x' | None => None end
  end.
End Workflows.
Arguments WorkflowError E : clear implicits.
Arguments Workflow V W E O : clear implicits.
Arguments Pass V E : clear implicits.
Arguments PassEvent V E : clear implicits.
Arguments Return {V W E O} o.
Arguments Raise {V W E O} e.
Arguments Step {V W E O} key fn k.
Arguments Sleep {V W E O} ms k.

(** ** Correctness *)

Section WorkflowProps.
Context {V W E : Type} `{codec : !JsonCodec V, rt : !JsonRoundTrip V}.
Implicit Types (j : Journal) (w : W).

(** What a replay returns for a step that returned [r]: undefined comes back as null. *)
Definition replayed (r : JsValue (V := V)) : JsValue (V := V) := Some (default json_null r).

Lemma decode_encode (r : JsValue (V := V)) : decode (E := E) (encode r) = Ok (replayed r).
Proof. unfold decode, encode. by rewrite json_parse_stringify. Qed.

Lemma step_journal runId key (fn : StepFn) j w j' w' (r : outcome (WorkflowError E) JsValue) :
  step runId key fn j w = (j', w', r) ->
  match j !! (runId, key) with
  | Some text => j' = j /\ w' = w /\ r = decode text
  | None => w' = fst (fn w) /\
      match snd (fn w) with
      | Ok v => j' = <[(runId, key) := encode v]> j /\ r = Ok v
      | Throw e => j' = j /\ r = Throw (Thrown e)
      end
  end.
Proof.
  unfold step, read_step, write_step. destruct (j !! (runId, key)) eqn:Ej; [naive_solver|].
  destruct (fn w) as [w1 [v|e]]; [|naive_solver]. rewrite ?Ej. naive_solver.
Qed.

Lemma step_grows runId key (fn : StepFn) j w j' w' (r : outcome (WorkflowError E) JsValue) :
  step runId key fn j w = (j', w', r) -> j ⊆ j'.
Proof.
  intros H%step_journal. destruct (j !! (runId, key)) eqn:Ej; [by destruct H as (-> & _)|].
  destruct H as [_ H]. destruct (snd (fn w)); destruct H as [-> _]; [|done]. by apply insert_subseteq.
Qed.

(** A journal only grows. *)
Lemma exec_until_grows {O} n runId (wf : Workflow V W E O) j w j' w' :
  exec_until n runId wf j w = Some (j', w') -> j ⊆ j'.
Proof.
  revert n j w. induction wf as [o|e|key fn k IH|ms k IH]; intros [|n] j w; simpl;
    try (by intros [= <- <-]); try (by intros H; eapply IH).
  destruct (step runId key fn j w) as [[j1 w1] [v|e]] eqn:Es; [|done].
  intros H. etrans; [by eapply step_grows|by eapply IH].
Qed.

(** Every step function returns values a replay returns unchanged: no undefined. *)
Inductive stable {O} : Workflow V W E O -> Prop :=
| stable_return o : stable (Return o)
| stable_raise e : stable (Raise e)
| stable_sleep ms k : stable k -> stable (Sleep ms k)
| stable_step key (fn : StepFn) k :
    (forall w, snd (fn w) <> Ok None) -> (forall r, stable (k r)) -> stable (Step key fn k).

Lemma step_replays runId key (fn fn' : StepFn) j w j' w' v w'' :
  (forall w, snd (fn w) <> Ok None) ->
  step (E := E) runId key fn j w = (j', w', Ok v) -> forall j'', j' ⊆ j'' ->
  step (E := E) runId key fn' j'' w'' = (j'', w'', Ok v).
Proof.
  intros Hs H j'' Hsub. apply step_journal in H.
  assert (exists text, j' !! (runId, key) = Some text /\ decode (E := E) text = Ok v) as (text & Hj & Hd).
  { destruct (j !! (runId, key)) as [text|] eqn:Ej.
    - destruct H as (-> & -> & H). by exists text.
    - destruct H as [_ H]. specialize (Hs w). destruct (snd (fn w)) as [v0|e].
      + destruct H as [-> [= ->]]. exists (encode v0). rewrite lookup_insert_eq.
        split; [done|]. rewrite decode_encode. destruct v0; [done|]. by destruct Hs.
      + by destruct H. }
  unfold step, read_step. rewrite (lookup_weaken _ _ _ _ Hj Hsub). by rewrite Hd.
Qed.

(** Fact: Resumption: re-running a workflow under the same run id after it was interrupted
    between steps, anywhere, ends with the journal, the world and the result of an
    uninterrupted run, so that no completed step is executed again (for steps that do
    not return undefined). *)
Theorem resume_completes {O} n runId (wf : Workflow V W E O) j w j1 w1 :
  stable wf -> exec_until n runId wf j w = Some (j1, w1) ->
  exec runId wf j1 w1 = exec runId wf j w.
Proof.
  intros Hs. revert n j w. induction Hs as [o|e|ms k Hk IH|key fn k Hfn Hk IH]; intros n j w.
  - destruct n; by intros [= <- <-].
  - destruct n; by intros [= <- <-].
  - destruct n; simpl; apply IH.
  - destruct n as [|n]; [by intros [= <- <-]|]. simpl.
    destruct (step runId key fn j w) as [[j' w'] [v|e]] eqn:Es; [|done]. intros H.
    rewrite (step_replays _ _ _ fn _ _ _ _ _ w1 Hfn Es j1) by by eapply exec_until_grows.
    by eapply IH.
Qed.

(** Fact: What a step does: on the first pass it runs its function once and journals the
    value exactly when the function returns, and a failed step leaves no row, so a
    later run executes it again; any later pass, in whatever world and with whatever
    function, leaves the world alone and returns the journaled value. *)
Theorem step_memoizes runId key (fn fn' : StepFn) j w w2 :
  j !! (runId, key) = None ->
  match fn w with
  | (w', Ok v) =>
      exists j', step (E := E) runId key fn j w = (j', w', Ok v) /\
        j' !! (runId, key) = Some (encode v) /\
        (forall k, k <> (runId, key) -> j' !! k = j !! k) /\
        step (E := E) runId key fn' j' w2 = (j', w2, Ok (replayed v))
  | (w', Throw e) => step runId key fn j w = (j, w', Throw (Thrown e))
  end.
Proof.
  intros Hj. destruct (step (E := E) runId key fn j w) as [[j' w'] r] eqn:Es.
  apply step_journal in Es. rewrite Hj in Es. destruct Es as [-> Es].
  destruct (fn w) as [w1 [v|e]]; simpl in *; destruct Es as [-> ->]; [|done].
  eexists. split; [reflexivity|]. split_and!.
  - apply lookup_insert_eq.
  - intros k N. by rewrite lookup_insert_ne.
  - unfold step, read_step. rewrite lookup_insert_eq. by rewrite decode_encode.
Qed.

(** ** Racing passes *)

(** Before the first write nobody has finished with a value; after it the row is [v]'s,
    and everyone that finished returns [v] as it was computed or as it is replayed. *)
Definition pass_ok (j : Journal) (runId key : string) (p : Pass V E) : Prop :=
  match p with
  | Finished (Ok r) => exists v, j !! (runId, key) = Some (encode v) /\ replayed r = replayed v
  | Finished (Throw BadJson) => False
  | Rereading => exists v, j !! (runId, key) = Some (encode v)
  | _ => True
  end.

Definition race_ok (runId key : string) (x : Journal * gmap nat (Pass V E)) : Prop :=
  (forall text, fst x !! (runId, key) = Some text -> exists v, text = encode v) /\
  forall p c, snd x !! p = Some c -> pass_ok (fst x) runId key c.

Lemma race_insert runId key j (ps : gmap nat (Pass V E)) p c :
  race_ok runId key (j, ps) -> pass_ok j runId key c -> race_ok runId key (j, <[p := c]> ps).
Proof.
  intros [H1 H2] Hc. split; [done|]. intros q c'. simpl.
  intros [[-> <-]|[_ Hq]]%lookup_insert_Some; [done|by eapply H2].
Qed.

Lemma pass_step_ok runId key e x x' :
  race_ok runId key x -> pass_step runId key e x = Some x' -> race_ok runId key x'.
Proof.
  destruct x as [j ps]. intros Hok. unfold pass_step, read_step, write_step.
  assert (Hr : forall p text, j !! (runId, key) = Some text ->
    race_ok runId key (j, <[p := Finished (decode (E := E) text)]> ps)).
  { intros p text Hj. apply race_insert; [done|].
    destruct (proj1 Hok _ Hj) as [v ->]. rewrite decode_encode. by exists v. }
  destruct e as [p|p r]; destruct (ps !! p) as [c|] eqn:Hp; try done; destruct c as [| |result| |res]; try done.
  - destruct (j !! (runId, key)) eqn:Hj; intros [= <-]; [by apply Hr|by apply race_insert].
  - destruct (j !! (runId, key)) as [text|] eqn:Hj; intros [= <-].
    + apply race_insert; [done|]. destruct (proj1 Hok _ Hj) as [v ->]. by exists v.
    + destruct Hok as [H1 H2]. split; simpl.
      * intros text. rewrite lookup_insert_eq. intros [= <-]. eauto.
      * intros q c. intros [[-> <-]|[_ Hq]]%lookup_insert_Some.
        -- exists result. by rewrite lookup_insert_eq.
        -- specialize (H2 _ _ Hq). simpl in H2. destruct c as [| |r0| |[r0|[| |]]]; simpl in *; try done;
             naive_solver.
  - destruct (j !! (runId, key)) eqn:Hj; intros [= <-]; [by apply Hr|].
    destruct (proj2 Hok _ _ Hp) as [v Hv]. simpl in Hv. congruence.
  - destruct r; intros [= <-]; by apply race_insert.
Qed.

(** Fact: Convergence: however the passes of one step of one run interleave on the
    journal, the ones that return a value return the same one (as a replay returns it,
    the one the journal holds), and none fails on the race. *)
Theorem passes_converge runId key es j0 n x p q r r' :
  j0 !! (runId, key) = None ->
  run_passes runId key es (j0, gset_to_gmap (Reading : Pass V E) (set_seq 0 n)) = Some x ->
  snd x !! p = Some (Finished (Ok r)) -> snd x !! q = Some (Finished (Ok r')) ->
  replayed r = replayed r' /\ fst x !! (runId, key) = Some (encode r).
Proof.
  intros Hj Hrun Hp Hq.
  assert (Hok : race_ok runId key (j0, gset_to_gmap (Reading : Pass V E) (set_seq 0 n))).
  { split; simpl; [congruence|]. intros p0 c Hc. apply lookup_gset_to_gmap_Some in Hc as [_ <-]. done. }
  clear Hj. revert Hrun Hok. generalize (j0, gset_to_gmap (Reading : Pass V E) (set_seq 0 n)).
  induction es as [|e es IH]; simpl; intros y.
  - intros [= ->] [H1 H2]. destruct (H2 _ _ Hp) as (v & Hv & E1), (H2 _ _ Hq) as (v' & Hv' & E2).
    assert (encode v = encode v') as Ev by congruence.
    assert (replayed v = replayed v') as Er.
    { pose proof (decode_encode v) as D. rewrite Ev, decode_encode in D. congruence. }
    split; [congruence|]. rewrite Hv. f_equal. unfold replayed, encode in *. congruence.
  - destruct (pass_step runId key e y) as [y'|] eqn:Ey; [|done]. eauto using pass_step_ok.
Qed.
End WorkflowProps.

(** ** Concrete runs *)

#[local] Instance plain_codec : JsonCodec string := {
  json_stringify s := s; json_parse s := Some s; json_null := "null"; json_empty_object := "{}"
}.
#[local] Instance plain_round_trip : JsonRoundTrip string.
Proof. by intros v. Defined.

(** Charge, then send a receipt; the world logs what really happened. *)
Definition checkout : Workflow string (list string) string string :=
  Step "charge" (fun w => ((w ++ ["charged"%string])%list, Ok (Some "ch_1"%string))) (fun c =>
  Sleep 1000 (
  Step "receipt" (fun w => ((w ++ [String.append "sent " (default EmptyString c)])%list, Ok (Some "ok"%string))) (fun r =>
  Return (default EmptyString r)))).

Lemma checkout_stable : stable checkout.
Proof. repeat (constructor; try (intros w; discriminate); intros). Defined.

Definition interrupted : Journal * list string :=
  Eval vm_compute in default (∅, []) (exec_until 1 "r1" checkout ∅ []).

Lemma interrupted_run : exec_until 1 "r1" checkout ∅ [] = Some interrupted.
Proof. vm_compute. reflexivity. Defined.

Lemma resume_completes_witness :
  snd (fst (exec "r1" checkout (fst interrupted) (snd interrupted))) = ["charged"; "sent ch_1"]%string.
Proof.
  rewrite (resume_completes 1 "r1" checkout ∅ [] (fst interrupted) (snd interrupted) checkout_stable interrupted_run).
  reflexivity.
Defined.

Lemma step_memoizes_witness :
  (∅ : Journal) !! ("r"%string, "k"%string) = None /\
  exists j', step (E := string) "r" "k" (fun w => (Datatypes.S w, Ok (Some "v"%string))) ∅ 0%nat =
             (j', 1%nat, Ok (Some "v"%string)) /\
    step (E := string) "r" "k" (fun w => (w, Throw "never"%string)) j' 7%nat = (j', 7%nat, Ok (Some "v"%string)).
Proof.
  split; [reflexivity|].
  destruct (step_memoizes (E := string) "r" "k" (fun w => (Datatypes.S w, Ok (Some "v"%string)))
    (fun w => (w, Throw "never"%string)) ∅ 0%nat 7%nat (lookup_empty _)) as (j' & H1 & _ & _ & H2).
  exists j'. split; [exact H1|exact H2].
Defined.

Definition race : list (PassEvent string string) :=
  [Resumes 0; Resumes 1; Executed 0 (Ok (Some "a"%string)); Executed 1 (Ok (Some "b"%string));
   Resumes 1; Resumes 0; Resumes 0]%nat.
Definition race_end :=
  Eval vm_compute in default (∅, ∅) (run_passes "r" "k" race (∅, gset_to_gmap Reading (set_seq 0 2))).

Lemma passes_converge_witness :
  snd race_end !! 0%nat = Some (Finished (Ok (Some "b"%string))) /\
  fst race_end !! ("r"%string, "k"%string) = Some "b"%string.
Proof.
  split; [reflexivity|].
  apply (passes_converge (E := string) "r" "k" race ∅ 2 race_end 0%nat 1%nat (Some "b"%string) (Some "b"%string));
    vm_compute; reflexivity.
Defined.

(** Fact: A step that returns undefined returns undefined on the pass that runs it and
    null on every replay. *)
Theorem void_step_changes_value :
  exists j, step (V := string) (E := string) "r" "k" (fun w : nat => (w, Ok None)) ∅ 0%nat = (j, 0%nat, Ok None) /\
    step (V := string) (E := string) "r" "k" (fun w : nat => (w, Ok None)) j 0%nat = (j, 0%nat, Ok (Some "null"%string)).
Proof. eexists. split; reflexivity. Qed.
