(* ===== verification/Authz.v ===== *)
(** * Authorization

    [packages/authz/src]: [definePolicy] with its fail-fast validation, wildcard grants,
    cycle-safe inheritance and memoized resolution ([policy.ts]), the guard
    ([guard.ts]) and the principal resolver ([principal.ts]). *)
From S2P Require Import Prelude JsString.

(** ** Policies *)

Record PolicyConfig := mkPolicyConfig {
  roles : list string;
  can : list (string * list string);                (* Object.entries(config.can) *)
  inherits : option (list (string * list string))   (* Object.entries(config.inherits) *)
}.

(** [AUTHZ_UNKNOWN_ROLE] with its details. *)
Inductive AuthzError :=
| UNKNOWN_GRANTEE (permission role : string)
| UNKNOWN_HEIR (role : string)
| UNKNOWN_PARENT (role parent : string).

(** [s.endsWith(suffix)]. *)
Definition endsWith (suffix s : string) : bool :=
  (String.length suffix <=? String.length s)%nat &&
  String.eqb (drop_chars (String.length s - String.length suffix) s) suffix.

Definition grantCovers (grant requested : string) : bool :=
  if String.eqb grant "*" then true
  else if endsWith ":*" grant
       then startsWith (substring 0 (String.length grant - 1) grant) requested
       else String.eqb grant requested.

Definition member (x : string) (l : list string) : bool := existsb (String.eqb x) l.

(** The two validation passes. *)
Fixpoint check_grantees (declared : list string) (permission : string) (rs : list string)
    : option AuthzError :=
  match rs with
  | [] => None
  | role :: rs' =>
      if negb (member role declared) then Some (UNKNOWN_GRANTEE permission role)
      else check_grantees declared permission rs'
  end.

Fixpoint check_can (declared : list string) (es : list (string * list string)) : option AuthzError :=
  match es with
  | [] => None
  | (permission, rs) :: es' =>
      match check_grantees declared permission rs with
      | Some e => Some e
      | None => check_can declared es'
      end
  end.

Fixpoint check_parents (declared : list string) (role : string) (ps : list string)
    : option AuthzError :=
  match ps with
  | [] => None
  | parent :: ps' =>
      if negb (member parent declared) then Some (UNKNOWN_PARENT role parent)
      else check_parents declared role ps'
  end.

(** The loop over the inheritance edges: validate, then [parentsOf.set]. *)
Fixpoint read_inherits (declared : list string) (es : list (string * list string))
    (parentsOf : gmap string (list string)) : outcome AuthzError (gmap string (list string)) :=
  match es with
  | [] => Ok parentsOf
  | (role, parents) :: es' =>
      if negb (member role declared) then Throw (UNKNOWN_HEIR role)
      else match check_parents declared role parents with
           | Some e => Throw e
           | None => read_inherits declared es' (<[role := parents]> parentsOf)
           end
  end.

(** [directGrants]: push the permission on the list of each of its roles. *)
Definition push_grant (permission : string) (m : gmap string (list string)) (role : string)
    : gmap string (list string) :=
  <[role := default [] (m !! role) ++ [permission]]> m.

Definition collect_grants (es : list (string * list string)) : gmap string (list string) :=
  fold_left (fun m e => fold_left (push_grant (fst e)) (snd e) m) es ∅.

(** What [definePolicy] closes over. *)
Record Policy := mkPolicy {
  config : PolicyConfig;
  parentsOf : gmap string (list string);
  directGrants : gmap string (list string)
}.

Definition definePolicy (cfg : PolicyConfig) : outcome AuthzError Policy :=
  match check_can (roles cfg) (can cfg) with
  | Some e => Throw e
  | None =>
      let! parents := read_inherits (roles cfg) (default [] (inherits cfg)) ∅ in
      Ok (mkPolicy cfg parents (collect_grants (can cfg)))
  end.

Definition permissions (p : Policy) : list string := map fst (can (config p)).

Definition rolesFor (p : Policy) (permission : string) : list string :=
  match List.find (fun e => String.eqb (fst e) permission) (can (config p)) with
  | Some e => snd e
  | None => []
  end.

(** The state of [collect]: [seen] and [grants], two sets. *)
Abbreviation Found := (gset string * gset string)%type.

Section Resolution.
Variable p : Policy.

Definition parents (name : string) : list string := default [] (parentsOf p !! name).
Definition direct (name : string) : list string := default [] (directGrants p !! name).

(** [collect]; the fuel bounds the depth of the recursion. *)
Fixpoint collect (fuel : nat) (name : string) (st : Found) : option Found :=
  match fuel with
  | O => None
  | S fuel' =>
      if bool_decide (name ∈ fst st) then Some st
      else
        fold_left (fun r parent => match r with Some st => collect fuel' parent st | None => None end)
          (parents name)
          (Some ({[name]} ∪ fst st, list_to_set (direct name) ∪ snd st))
  end.

(** A depth no resolution exceeds: every role is entered once. *)
Definition depth_bound : nat := length (map_to_list (parentsOf p)) + 2.

Definition resolve (role : string) : option (gset string) := snd <$> collect depth_bound role (∅, ∅).

(** [resolveGrants], memoized in [resolved]. *)
Definition resolveGrants (role : string) (resolved : gmap string (gset string))
    : option (gmap string (gset string) * gset string) :=
  match resolved !! role with
  | Some cached => Some (resolved, cached)
  | None => match resolve role with
            | Some grants => Some (<[role := grants]> resolved, grants)
            | None => None
            end
  end.

(** The loop of [allows] over the subject's roles, with its early return. *)
Fixpoint allows_loop (permission : string) (subject : list string)
    (resolved : gmap string (gset string)) : option (gmap string (gset string) * bool) :=
  match subject with
  | [] => Some (resolved, false)
  | role :: rest =>
      match resolveGrants role resolved with
      | None => None
      | Some (resolved', grants) =>
          if existsb (fun g => grantCovers g permission) (elements grants) then Some (resolved', true)
          else allows_loop permission rest resolved'
      end
  end.

Definition allows (subjectRoles : option (list string)) (permission : string)
    (resolved : gmap string (gset string)) : option (gmap string (gset string) * bool) :=
  match subjectRoles with
  | None => Some (resolved, false)
  | Some subject => allows_loop permission subject resolved
  end.
End Resolution.

(** ** The guard and the principal resolver *)

Record Principal := mkPrincipal { actor : string; actorRoles : list string }.

(** The context variables the two middlewares share. *)
Record Ctx := mkCtx { roles_var : option (list string); principal_var : option Principal }.

(** How a chain ends: a handler ran on a context, a refusal, or a throw. *)
Inductive ChainEnd :=
| Handled (c : Ctx)
| Denied (permission : string)
| Aborted.

(** [createGuard(policy).can(permission)] with the default [rolesOf]. *)
Definition guard_can (p : Policy) (permission : string) (next : Ctx -> ChainEnd)
    (resolved : gmap string (gset string)) (c : Ctx) : ChainEnd :=
  match allows p (roles_var c) permission resolved with
  | Some (_, true) => next c
  | Some (_, false) => Denied permission
  | None => Aborted
  end.

(** [createPrincipalResolver]: [verifySession] gives the user id or undefined, [rolesOf] the
    roles; [None] outside: the call throws. *)
Definition principal_resolver (verifySession : Ctx -> option (option string))
    (rolesOf : string -> option (list string)) (next : Ctx -> ChainEnd) (c : Ctx) : ChainEnd :=
  match verifySession c with
  | None => Aborted
  | Some None => next (mkCtx (Some []) (principal_var c))
  | Some (Some userId) =>
      match rolesOf userId with
      | None => Aborted
      | Some rs => next (mkCtx (Some rs) (Some (mkPrincipal userId rs)))
      end
  end.

Definition getPrincipal (c : Ctx) : option Principal := principal_var c.

(** * Authorization: correctness

    Resolution always ends and finds exactly the grants of the roles reachable by
    inheritance; [allows] is the deny-by-default rule it documents, whatever was asked
    before; a policy is accepted exactly when it names declared roles; a request gets
    past resolver and guard exactly when its user may. *)
#[local] Open Scope string_scope.

Lemma member_In x l : member x l = true <-> In x l.
Proof.
  unfold member. rewrite existsb_exists. split.
  - intros (y & Hy & E%String.eqb_eq). by subst.
  - intros H. exists x. split; [done|apply String.eqb_refl].
Qed.

(** ** Declaration *)

(** Every role a configuration names is declared. *)
Definition well_declared (cfg : PolicyConfig) : Prop :=
  (forall e role, In e (can cfg) -> In role (snd e) -> In role (roles cfg)) /\
  (forall e, In e (default [] (inherits cfg)) ->
     In (fst e) (roles cfg) /\ forall parent, In parent (snd e) -> In parent (roles cfg)).

Lemma check_grantees_none declared permission rs :
  check_grantees declared permission rs = None <-> forall role, In role rs -> In role declared.
Proof.
  induction rs as [|r rs IH]; simpl; [naive_solver|].
  destruct (member r declared) eqn:E; simpl.
  - rewrite IH. apply member_In in E. naive_solver.
  - split; [done|]. intros H. specialize (H r (or_introl eq_refl)). apply member_In in H. congruence.
Qed.

Lemma check_can_none declared es :
  check_can declared es = None <-> forall e role, In e es -> In role (snd e) -> In role declared.
Proof.
  induction es as [|[perm rs] es IH]; simpl; [naive_solver|].
  destruct (check_grantees declared perm rs) eqn:E.
  - split; [done|]. intros H. rewrite (proj2 (check_grantees_none declared perm rs)) in E; [done|].
    intros role. by apply (H (perm, rs)); left.
  - rewrite IH. pose proof (proj1 (check_grantees_none _ _ _) E) as Hg. split.
    + intros H e role [<-|He]; [apply Hg|by apply H].
    + intros H e role He. apply H. by right.
Qed.

Lemma check_parents_none declared role ps :
  check_parents declared role ps = None <-> forall parent, In parent ps -> In parent declared.
Proof.
  induction ps as [|r ps IH]; simpl; [naive_solver|].
  destruct (member r declared) eqn:E; simpl.
  - rewrite IH. apply member_In in E. naive_solver.
  - split; [done|]. intros H. specialize (H r (or_introl eq_refl)). apply member_In in H. congruence.
Qed.

Lemma read_inherits_ok declared es m :
  (exists m', read_inherits declared es m = Ok m') <->
  forall e, In e es -> In (fst e) declared /\ forall parent, In parent (snd e) -> In parent declared.
Proof.
  revert m. induction es as [|[role ps] es IH]; simpl; intros m; [naive_solver|].
  destruct (member role declared) eqn:E; simpl.
  - apply member_In in E. destruct (check_parents declared role ps) eqn:Ep.
    + split; [by intros [? ?]|]. intros H.
      rewrite (proj2 (check_parents_none declared role ps)) in Ep; [done|].
      by apply (H (role, ps)); left.
    + pose proof (proj1 (check_parents_none _ _ _) Ep) as Hp. rewrite IH. split.
      * intros H e [<-|He]; [done|by apply H].
      * intros H e He. apply H. by right.
  - split; [by intros [? ?]|]. intros H. destruct (H (role, ps) (or_introl eq_refl)) as [Hr _].
    apply member_In in Hr. simpl in Hr. congruence.
Qed.

(** Fact: A policy is compiled exactly when every role named by a grant or on either side
    of an inheritance edge is declared; otherwise the declaration throws. *)
Theorem definePolicy_accepts cfg :
  (exists p, definePolicy cfg = Ok p) <-> well_declared cfg.
Proof.
  unfold definePolicy, well_declared.
  rewrite <- check_can_none, <- (read_inherits_ok _ _ ∅).
  destruct (check_can _ _); [naive_solver|].
  destruct (read_inherits _ _ _); simpl; naive_solver.
Qed.

(** What the compiled maps hold. *)
Lemma definePolicy_maps cfg p :
  definePolicy cfg = Ok p ->
  config p = cfg /\ directGrants p = collect_grants (can cfg) /\
  read_inherits (roles cfg) (default [] (inherits cfg)) ∅ = Ok (parentsOf p).
Proof.
  unfold definePolicy. destruct (check_can _ _); [done|].
  destruct (read_inherits _ _ _) eqn:E; simpl; [|done]. by intros [= <-].
Qed.

Lemma push_grants_In perm rs m role g :
  In g (default [] (fold_left (push_grant perm) rs m !! role)) <->
  In g (default [] (m !! role)) \/ (g = perm /\ In role rs).
Proof.
  revert m. induction rs as [|r rs IH]; intros m; simpl; [naive_solver|].
  rewrite IH. unfold push_grant. destruct (decide (r = role)) as [->|N].
  - rewrite lookup_insert_eq. simpl. rewrite in_app_iff. simpl. naive_solver.
  - rewrite lookup_insert_ne by done. naive_solver.
Qed.

Lemma collect_grants_In es role g :
  In g (default [] (collect_grants es !! role)) <-> exists rs, In (g, rs) es /\ In role rs.
Proof.
  unfold collect_grants.
  enough (G : forall m, In g (default [] (fold_left (fun m e => fold_left (push_grant (fst e)) (snd e) m) es m !! role) ) <->
    In g (default [] (m !! role)) \/ exists rs, In (g, rs) es /\ In role rs).
  { rewrite G, lookup_empty. simpl. naive_solver. }
  induction es as [|[perm rs] es IH]; intros m; simpl; [naive_solver|].
  rewrite IH, push_grants_In. simpl. split.
  - intros [[H|[-> H]]|(rs' & H & H')]; [by left|right; eauto|right; eauto].
  - intros [H|(rs' & [[= -> ->]|H] & H')]; eauto.
Qed.

Lemma read_inherits_lookup declared es m m' :
  NoDup (map fst es) -> read_inherits declared es m = Ok m' ->
  forall role, m' !! role =
    match List.find (fun e => String.eqb (fst e) role) es with
    | Some e => Some (snd e) | None => m !! role end.
Proof.
  revert m. induction es as [|[r ps] es IH]; simpl; intros m Hn; [by intros [= ->]|].
  inversion Hn as [|? ? Hr Hn']; subst.
  destruct (negb _); [done|]. destruct (check_parents _ _ _); [done|]. intros H role.
  rewrite (IH _ Hn' H). destruct (String.eqb_spec r role) as [->|N].
  - destruct (List.find _ es) as [e|] eqn:E; [|by rewrite lookup_insert_eq].
    apply List.find_some in E as [Hin Hf%String.eqb_eq]. destruct Hr.
    apply list_elem_of_In, in_map_iff. eauto.
  - destruct (List.find _ es); [done|]. by rewrite lookup_insert_ne.
Qed.

(** ** Resolution *)

Section Resolution.
Variable p : Policy.

Definition edge (x y : string) : Prop := y ∈ parents p x.
Definition inherits_from : string -> string -> Prop := rtc edge.

(** What a run of [collect] from [st] adds, for the names [ns] it was asked to enter. *)
Definition collected (ns : list string) (st st' : Found) : Prop :=
  fst st ⊆ fst st' /\ (forall n, In n ns -> n ∈ fst st') /\
  (forall x, x ∈ fst st' -> x ∉ fst st ->
     (exists n, In n ns /\ inherits_from n x) /\ forall y, edge x y -> y ∈ fst st') /\
  (forall g, g ∈ snd st' <-> g ∈ snd st \/ exists x, (x ∈ fst st') /\ (x ∉ fst st) /\ In g (direct p x)).

Lemma collected_trans n ns st st1 st2 :
  collected [n] st st1 -> collected ns st1 st2 -> collected (n :: ns) st st2.
Proof.
  intros (S1 & N1 & X1 & G1) (S2 & N2 & X2 & G2). split_and!.
  - set_solver.
  - intros m [->|Hm]; [apply S2, N1; by left|by apply N2].
  - intros x Hx Hn. destruct (decide (x ∈ fst st1)) as [H1|H1].
    + destruct (X1 x H1 Hn) as [(m & [<-|[]] & Hm) He]. split; [exists n; split; [by left|done]|].
      intros y Hy. by apply S2, He.
    + destruct (X2 x Hx H1) as [(m & Hm & Hr) He]. split; [exists m; split; [by right|done]|done].
  - intros g. rewrite G2, G1. split.
    + intros [[H|(x & H1 & H2 & H3)]|(x & H1 & H2 & H3)]; [by left|right; exists x|right; exists x];
        (split_and!; [set_solver..|done]).
    + intros [H|(x & H1 & H2 & H3)]; [by left; left|].
      destruct (decide (x ∈ fst st1)); [left; right|right]; exists x; done.
Qed.

(** The parents with an edge of their own that resolution has still to enter. *)
Definition pending (st : Found) : nat := size (dom (parentsOf p) ∖ fst st).

Lemma collect_spec fuel name st :
  (pending st < fuel)%nat -> exists st', collect p fuel name st = Some st' /\ collected [name] st st'.
Proof.
  revert name st. induction fuel as [|fuel IH]; intros name st Hf; [lia|]. simpl.
  case_bool_decide as Hin.
  { exists st. split; [done|]. split_and!; [done| |naive_solver|naive_solver]. by intros n [<-|[]]. }
  set (st0 := ({[name]} ∪ fst st, list_to_set (direct p name) ∪ snd st) : Found).
  assert (Loop : forall ps st1, fst st0 ⊆ fst st1 -> (ps = [] \/ (pending st1 < fuel)%nat) ->
    exists st', fold_left (fun r parent => match r with Some st => collect p fuel parent st | None => None end)
      ps (Some st1) = Some st' /\ collected ps st1 st').
  { induction ps as [|q ps IHps]; intros st1 Hsub Hp; simpl.
    - exists st1. split; [done|]. split_and!; naive_solver.
    - destruct Hp as [?|Hp]; [done|]. destruct (IH q st1 Hp) as (st2 & -> & H2).
      assert (Hle : (pending st2 <= pending st1)%nat).
      { unfold pending. apply subseteq_size. destruct H2 as [S2 _]. set_solver. }
      destruct (IHps st2) as (st3 & -> & H3).
      + destruct H2 as [S2 _]. by etrans.
      + right. lia.
      + exists st3. split; [done|]. by eapply collected_trans. }
  destruct (Loop (parents p name) st0) as (st' & -> & (S1 & N1 & X1 & G1)); [done| |].
  { unfold parents. destruct (parentsOf p !! name) as [ps|] eqn:Ep; [right|by left].
    assert (Hlt : (pending st0 < pending st)%nat); [|lia].
    unfold pending. apply subset_size. simpl. apply elem_of_dom_2 in Ep. set_solver. }
  exists st'. split; [done|]. simpl in *. split_and!.
  - set_solver.
  - intros n [<-|[]]. set_solver.
  - intros x Hx Hn. destruct (decide (x = name)) as [->|Nx].
    + split; [exists name; split; [by left|apply rtc_refl]|].
      intros y Hy. apply N1. by apply list_elem_of_In.
    + destruct (X1 x Hx ltac:(set_solver)) as [(q & Hq & Hr) He]. split; [|done].
      exists name. split; [by left|]. eapply rtc_l; [|exact Hr]. unfold edge. by apply list_elem_of_In.
  - intros g. rewrite G1. rewrite elem_of_union, elem_of_list_to_set, list_elem_of_In. split.
    + intros [[H|H]|(x & H1 & H2 & H3)]; [right; exists name|by left|right; exists x].
      * split_and!; [set_solver|done|done].
      * split_and!; [done|set_solver|done].
    + intros [H|(x & H1 & H2 & H3)]; [by left; right|].
      destruct (decide (x = name)) as [->|Nx]; [by left; left|].
      right. exists x. split_and!; [done|set_solver|done].
Qed.

(** Resolution always ends, and its grants are those of the roles reached by inheritance. *)
Lemma resolve_spec role :
  exists grants, resolve p role = Some grants /\
    forall g, g ∈ grants <-> exists r, inherits_from role r /\ In g (direct p r).
Proof.
  unfold resolve. destruct (collect_spec (depth_bound p) role (∅, ∅)) as (st' & -> & (_ & N & X & G)).
  { unfold pending, depth_bound. simpl. rewrite difference_empty_L, size_dom.
    rewrite <- length_map_to_list. lia. }
  exists (snd st'). split; [done|]. intros g. rewrite G. simpl. split.
  - intros [H|(x & Hx & _ & Hg)]; [set_solver|].
    destruct (X x Hx ltac:(set_solver)) as [(n & [<-|[]] & Hr) _]. eauto.
  - intros (r & Hr & Hg). right. exists r. split_and!; [|set_solver|done].
    assert (Hn : role ∈ fst st') by (apply N; by left).
    assert (He : forall x y, x ∈ fst st' -> edge x y -> y ∈ fst st').
    { intros x y Hx. by destruct (X x Hx ltac:(set_solver)) as [_ He]; apply He. }
    clear - Hr Hn He. induction Hr as [x|x y z Hxy Hyz IH]; eauto.
Qed.

(** Some role the subject holds, directly or by inheritance, has a covering grant. *)
Definition permitted (subject : list string) (permission : string) : Prop :=
  exists role r g, In role subject /\ inherits_from role r /\ In g (direct p r) /\
                   grantCovers g permission = true.

(** The memo holds resolved sets. *)
Definition memo_ok (resolved : gmap string (gset string)) : Prop :=
  forall role grants, resolved !! role = Some grants -> resolve p role = Some grants.

Lemma resolveGrants_spec role resolved :
  memo_ok resolved -> exists resolved' grants, resolveGrants p role resolved = Some (resolved', grants) /\
    memo_ok resolved' /\ resolve p role = Some grants.
Proof.
  intros H. unfold resolveGrants. destruct (resolved !! role) as [c|] eqn:E; [eauto 6|].
  destruct (resolve_spec role) as (g & Hg & _). rewrite Hg.
  eexists _, _. split; [done|]. split; [|done].
  intros r gs [[<- <-]|[_ Hr]]%lookup_insert_Some; [done|by apply H].
Qed.

Lemma allows_loop_spec permission subject resolved :
  memo_ok resolved -> exists resolved' b, allows_loop p permission subject resolved = Some (resolved', b) /\
    memo_ok resolved' /\ (b = true <-> permitted subject permission).
Proof.
  revert resolved. induction subject as [|role rest IH]; intros resolved H; simpl.
  - exists resolved, false. split_and!; [done|done|]. split; [done|]. by intros (? & ? & ? & [] & _).
  - destruct (resolveGrants_spec role resolved H) as (res1 & gs & -> & H1 & Hr).
    destruct (resolve_spec role) as (gs' & Hr' & Hgs). assert (gs' = gs) as -> by congruence.
    destruct (existsb _ _) eqn:Ex.
    + exists res1, true. split_and!; [done|done|]. split; [intros _|done].
      apply existsb_exists in Ex as (g & Hg & Hc). apply list_elem_of_In, elem_of_elements in Hg.
      apply Hgs in Hg as (r & Hir & Hd). exists role, r, g. split_and!; [by left|done..].
    + destruct (IH res1 H1) as (res2 & b & -> & H2 & Hb). exists res2, b. split_and!; [done|done|].
      rewrite Hb. split.
      * intros (ro & r & g & Hin & ?). exists ro, r, g. split; [by right|done].
      * intros (ro & r & g & [<-|Hin] & Hir & Hd & Hc); [|by exists ro, r, g].
        exfalso. assert (Hg : g ∈ gs) by (apply Hgs; eauto).
        apply elem_of_elements, list_elem_of_In in Hg.
        assert (existsb (fun g => grantCovers g permission) (elements gs) = true); [|congruence].
        apply existsb_exists. eauto.
Qed.

(** Any questions asked before leave the memo sound. *)
Fixpoint ask (qs : list (option (list string) * string)) (resolved : gmap string (gset string))
    : option (gmap string (gset string)) :=
  match qs with
  | [] => Some resolved
  | (subject, permission) :: qs' =>
      match allows p subject permission resolved with
      | Some (resolved', _) => ask qs' resolved'
      | None => None
      end
  end.

Lemma ask_ok qs resolved : memo_ok resolved -> exists r, ask qs resolved = Some r /\ memo_ok r.
Proof.
  revert resolved. induction qs as [|[subject permission] qs IH]; intros resolved H; simpl; [eauto|].
  destruct subject as [subject|]; simpl; [|by apply IH].
  destruct (allows_loop_spec permission subject resolved H) as (r & b & -> & Hr & _). by apply IH.
Qed.

Lemma allows_answers qs subject permission :
  exists resolved resolved' b, ask qs ∅ = Some resolved /\
    allows p (Some subject) permission resolved = Some (resolved', b) /\
    (b = true <-> permitted subject permission).
Proof.
  destruct (ask_ok qs ∅) as (res & -> & H); [by intros ? ? ?%lookup_empty_Some|].
  destruct (allows_loop_spec permission subject res H) as (r & b & E & _ & Hb). eauto 6.
Qed.
End Resolution.

(** A policy over a configuration: inheritance and grants as the configuration lists them. *)
Definition heir (cfg : PolicyConfig) (x y : string) : Prop :=
  exists ps, In (x, ps) (default [] (inherits cfg)) /\ In y ps.

Lemma edge_heir cfg p x y :
  NoDup (map fst (default [] (inherits cfg))) -> definePolicy cfg = Ok p ->
  edge p x y <-> heir cfg x y.
Proof.
  intros Hn Hd. apply definePolicy_maps in Hd as (_ & _ & Hi).
  pose proof (read_inherits_lookup _ _ _ _ Hn Hi x) as Hl.
  unfold edge, parents. rewrite Hl, lookup_empty, list_elem_of_In.
  destruct (List.find _ _) as [[x' ps]|] eqn:Ef.
  - apply List.find_some in Ef as [Hin Hx%String.eqb_eq]. simpl in *. subst x'. split.
    + intros Hy. by exists ps.
    + intros (ps' & Hin' & Hy).
      assert ((x, ps) = (x, ps')) as [= ->]; [|done].
      eapply (NoDup_map_inj_in fst); [|exact Hin|exact Hin'|done]. by apply NoDup_ListNoDup.
  - simpl. split; [done|]. intros (ps & Hin & _). eapply List.find_none in Ef; [|exact Hin].
    simpl in Ef. by rewrite String.eqb_refl in Ef.
Qed.

(** Fact: Deny by default, exactly: whatever was asked of the policy before, [allows]
    answers, and it answers yes exactly when the subject has roles and one of them
    reaches, along the declared inheritance (cycles included), a role that a grant
    covering the permission names. *)
Theorem allows_spec cfg p qs subject permission :
  NoDup (map fst (default [] (inherits cfg))) -> definePolicy cfg = Ok p ->
  exists resolved resolved' b, ask p qs ∅ = Some resolved /\
    allows p subject permission resolved = Some (resolved', b) /\
    (b = true <-> exists rs role r pattern grantees,
       subject = Some rs /\ In role rs /\ rtc (heir cfg) role r /\
       In (pattern, grantees) (can cfg) /\ In r grantees /\ grantCovers pattern permission = true).
Proof.
  intros Hn Hd.
  assert (Hp : forall rs, permitted p rs permission <-> exists role r pattern grantees,
    In role rs /\ rtc (heir cfg) role r /\ In (pattern, grantees) (can cfg) /\ In r grantees /\
    grantCovers pattern permission = true).
  { intros rs. unfold permitted, inherits_from.
    assert (Hr : forall a b, rtc (edge p) a b <-> rtc (heir cfg) a b).
    { intros a b. split; apply rtc_subrel; intros x y; by apply (edge_heir cfg p). }
    apply definePolicy_maps in Hd as (_ & Eg & _).
    assert (Hg : forall r g, In g (direct p r) <-> exists rs, In (g, rs) (can cfg) /\ In r rs).
    { intros r g. unfold direct. rewrite Eg. apply collect_grants_In. }
    split.
    - intros (role & r & g & H1 & H2%Hr & (rs' & H3 & H4)%Hg & H5). by exists role, r, g, rs'.
    - intros (role & r & g & rs' & H1 & H2%Hr & H3 & H4 & H5). exists role, r, g.
      split_and!; [done|done|apply Hg; eauto|done]. }
  destruct subject as [rs|].
  - destruct (allows_answers p qs rs permission) as (r1 & r2 & b & H1 & H2 & H3).
    exists r1, r2, b. split_and!; [done|done|]. rewrite H3, Hp. split.
    + intros (role & r & g & rs' & ?). by exists rs, role, r, g, rs'.
    + intros (rs0 & role & r & g & rs' & [= <-] & ?). by exists role, r, g, rs'.
  - destruct (ask_ok p qs ∅) as (r1 & H1 & _); [by intros ? ? ?%lookup_empty_Some|].
    exists r1, r1, false. split_and!; [done|done|]. split; [done|].
    by intros (rs0 & ? & ? & ? & ? & ? & _).
Qed.

(** Fact: End to end: behind the principal resolver, a guarded handler runs exactly when
    the session verifies, its user's roles load and the policy allows them, and then it
    sees the user as the actor; without a session it is refused, and a resolver that
    throws lets nobody through. *)
Theorem guarded_chain p permission verifySession rolesOf resolved c c' :
  memo_ok p resolved ->
  principal_resolver verifySession rolesOf (guard_can p permission Handled resolved) c = Handled c' <->
  exists user rs, verifySession c = Some (Some user) /\ rolesOf user = Some rs /\
    permitted p rs permission /\
    c' = mkCtx (Some rs) (Some (mkPrincipal user rs)).
Proof.
  intros Hm. unfold principal_resolver, guard_can.
  destruct (verifySession c) as [[user|]|]; simpl; [|by split; [|intros (? & ? & ? & _)]..].
  destruct (rolesOf user) as [rs|] eqn:Er; simpl;
    [|by split; [|intros (u & rs & [= <-] & E & _); rewrite Er in E]].
  destruct (allows_loop_spec p permission rs resolved Hm) as (r & b & -> & _ & Hb).
  destruct b.
  - split.
    + intros [= <-]. exists user, rs. split_and!; [done|done|by apply Hb|done].
    + intros (u & rs' & [= <-] & E & _ & ->). rewrite Er in E. by injection E as <-.
  - split; [done|]. intros (u & rs' & [= <-] & E & H & _). rewrite Er in E. injection E as <-.
    by apply Hb in H.
Qed.

(** ** A concrete policy *)

(** Two roles that inherit from each other, a wildcard, and a resource grant. *)
Definition blog : PolicyConfig :=
  mkPolicyConfig ["admin"; "staff"; "writer"]
    [("*", ["admin"]); ("posts:*", ["writer"]); ("posts:read", ["staff"])]
    (Some [("admin", ["staff"]); ("staff", ["admin"])]).

Definition blog_policy : Policy := Eval vm_compute in
  match definePolicy blog with Ok p => p | Throw _ => mkPolicy blog ∅ ∅ end.

Lemma blog_defined : definePolicy blog = Ok blog_policy.
Proof. vm_compute. reflexivity. Defined.

Lemma allows_spec_witness :
  exists resolved resolved' b,
    ask blog_policy [(Some ["staff"], "billing:refund")] ∅ = Some resolved /\
    allows blog_policy (Some ["writer"; "ghost"]) "posts:delete" resolved = Some (resolved', b) /\ b = true.
Proof.
  destruct (allows_spec blog blog_policy [(Some ["staff"], "billing:refund")]
    (Some ["writer"; "ghost"]) "posts:delete") as (r & r' & b & H1 & H2 & H3).
  - simpl. repeat constructor; set_solver.
  - exact blog_defined.
  - exists r, r', b. split; [exact H1|]. split; [exact H2|]. apply H3.
    exists ["writer"; "ghost"], "writer", "writer", "posts:*", ["writer"].
    split_and!; [done|by left|apply rtc_refl|by right; left|by left|reflexivity].
Defined.

Lemma guarded_chain_witness :
  principal_resolver (fun _ => Some (Some "u1")) (fun _ => Some ["writer"])
    (guard_can blog_policy "posts:delete" Handled ∅) (mkCtx None None) =
  Handled (mkCtx (Some ["writer"]) (Some (mkPrincipal "u1" ["writer"]))).
Proof.
  apply (guarded_chain blog_policy "posts:delete" (fun _ => Some (Some "u1")) (fun _ => Some ["writer"]) ∅).
  - intros r g H. by rewrite lookup_empty in H.
  - exists "u1", ["writer"]. split_and!; [done|done| |done].
    exists "writer", "writer", "posts:*".
    split_and!; [by left|apply rtc_refl|vm_compute; auto|reflexivity].
Defined.

(** Fact: The audit list of a permission is not the set of roles that hold it: a role with
    the global wildcard is allowed [posts:read] and is missing from [rolesFor]. *)
Theorem rolesFor_misses_wildcards :
  rolesFor blog_policy "posts:read" = ["staff"] /\
  exists resolved, allows blog_policy (Some ["admin"]) "posts:read" ∅ = Some (resolved, true).
Proof. split; [reflexivity|]. eexists. vm_compute. reflexivity. Qed.
