(* ===== verification/RateLimit.v ===== *)
(** * The rate limiter

    [packages/ratelimit/src]: the refill formula ([refill.ts]), the token bucket
    ([limiter.ts]), the interface it asks of a store ([types.ts]) and its stores: the
    bounded in-memory one ([store.ts]) and the SQL one ([sql-store.ts]). *)
From Stdlib Require Import QArith Qround.
From S2P Require Import Prelude JsMap Sql.
#[local] Open Scope Z_scope.

(** ** Arithmetic *)

(** Rounding of a result to a number the platform represents: binary64 for JavaScript,
    on finite values. *)
Class Rounding := { rnd : Q -> Q }.

(** What holds of every rounding to nearest. *)
Class RoundingLaws `{rounding : !Rounding} : Prop := {
  rnd_mono : forall x y, (x <= y)%Q -> (rnd x <= rnd y)%Q;
  rnd_zero : (rnd 0 == 0)%Q
}.

(** [Math.min] and [Math.max] on finite numbers. *)
Definition js_min (a b : Q) : Q := if Qle_bool a b then a else b.

(** [buckets]' values; [updatedAt] in epoch milliseconds. *)
Record BucketState := mkBucket { tokens : Q; updatedAt : Z }.

Section RateLimit.
Context `{R : !Rounding}.

Definition refilledTokens (state : BucketState) (now : Z) (capacity refillPerSecond : Q) : Q :=
  let elapsedSeconds := rnd (inject_Z (Z.max 0 (now - updatedAt state)) / 1000) in
  js_min capacity (rnd (tokens state + rnd (elapsedSeconds * refillPerSecond))).

(** ** The store interface *)

Inductive StoreError := RATELIMIT_STORE_CONFLICT (key : string) | STORE_FAILED.

(** [update] at a reading of the store's clock; [mutate] also yields the verdict that its
    last run leaves in the caller. *)
Class RateLimitStore (S : Type) := {
  store_update : forall {A}, Z -> string -> (option BucketState -> BucketState * A) -> S -> S * outcome StoreError A
}.

(** ** The limiter *)

(** [retryAfterMs]: infinite when nothing refills. *)
Inductive Wait := Ms (ms : Z) | Forever.

Record RateLimitResult := mkRateLimitResult { allowed : bool; remaining : Z; retryAfterMs : Wait }.

Record Policy := mkLimits { capacity : Q; refillPerSecond : Q }.

(** [RateLimiter.refilled]. *)
Definition refilled (l : Policy) (existing : option BucketState) (now : Z) : Q :=
  match existing with
  | None => capacity l
  | Some state => refilledTokens state now (capacity l) (refillPerSecond l)
  end.

(** The function [check] hands to the store. *)
Definition spend (l : Policy) (now : Z) (cost : Q) (existing : option BucketState)
    : BucketState * RateLimitResult :=
  let t := refilled l existing now in
  if Qle_bool cost t then
    let rest := rnd (t - cost) in
    (mkBucket rest now, mkRateLimitResult true (Qfloor rest) (Ms 0))
  else
    let deficit := rnd (cost - t) in
    let wait := if Qeq_bool (refillPerSecond l) 0 then Forever
                else Ms (Qceiling (rnd (rnd (deficit / refillPerSecond l) * 1000))) in
    (mkBucket t now, mkRateLimitResult false (Qfloor t) wait).

Definition check {S} `{!RateLimitStore S} (l : Policy) (now clock : Z) (key : string) (cost : Q) (s : S)
    : S * outcome StoreError RateLimitResult :=
  store_update clock key (spend l now cost) s.

(** ** The in-memory store *)

(** The store's options as its constructor keeps them; a clock is a function, named here
    by a number (the same function, the same number). *)
Record StoreOptions := mkStoreOptions {
  s_capacity : option Q; s_refillPerSecond : option Q; maxBuckets : Z; s_clock : nat
}.

Record MemoryRateLimitStore := mkMemoryStore {
  options : StoreOptions;
  buckets : JsMap BucketState;
  saturationCount : Z;
  saturationWarned : bool
}.

Definition newMemoryRateLimitStore (o : StoreOptions) : outcome string MemoryRateLimitStore :=
  if maxBuckets o <? 1
  then Throw "MemoryRateLimitStore maxBuckets must be a positive integer"%string
  else Ok (mkMemoryStore o [] 0 false).

(** How full the eviction takes a bucket to be. *)
Definition fullness (o : StoreOptions) (now : Z) (state : BucketState) : Q :=
  match s_capacity o, s_refillPerSecond o with
  | Some c, Some r => refilledTokens state now c r
  | _, _ => tokens state
  end.

(** The sweep of refilled buckets. *)
Definition sweep_refilled (o : StoreOptions) (now : Z) (m : JsMap BucketState) : JsMap BucketState :=
  match s_capacity o, s_refillPerSecond o with
  | Some c, Some r => List.filter (fun kv => negb (Qle_bool c (refilledTokens (snd kv) now c r))) m
  | _, _ => m
  end.

(** The victim scan: the closest to full, the later one of a tie. *)
Fixpoint pick_victim (o : StoreOptions) (now : Z) (m : JsMap BucketState)
    (victim : option (string * Q)) : option (string * Q) :=
  match m with
  | [] => victim
  | (key, state) :: m' =>
      let f := fullness o now state in
      let better := match victim with None => true | Some (_, vf) => Qle_bool vf f end in
      pick_victim o now m' (if better then Some (key, f) else victim)
  end.

Definition evictToBound (now : Z) (s : MemoryRateLimitStore) : MemoryRateLimitStore :=
  let swept := sweep_refilled (options s) now (buckets s) in
  if Z.of_nat (length swept) <=? maxBuckets (options s)
  then mkMemoryStore (options s) swept (saturationCount s) (saturationWarned s)
  else
    let victimKey := match pick_victim (options s) now swept None with
                     | Some (k, _) => k | None => EmptyString end in
    mkMemoryStore (options s) (map_delete victimKey swept) (saturationCount s + 1) true.

Definition memory_update {A} (clock : Z) (key : string)
    (mutate : option BucketState -> BucketState * A) (s : MemoryRateLimitStore)
    : MemoryRateLimitStore * outcome StoreError A :=
  let '(next, a) := mutate (map_get key (buckets s)) in
  let with_buckets m := mkMemoryStore (options s) m (saturationCount s) (saturationWarned s) in
  if match s_capacity (options s) with Some c => Qle_bool c (tokens next) | None => false end
  then (with_buckets (map_delete key (buckets s)), Ok a)
  else
    let s1 := with_buckets (map_set key next (buckets s)) in
    (if maxBuckets (options s) <? Z.of_nat (length (buckets s1)) then evictToBound clock s1 else s1, Ok a).

#[export] Instance memory_rate_store : RateLimitStore MemoryRateLimitStore := {
  store_update A := memory_update
}.

(** ** The limiter's constructor *)

Inductive RateLimitError :=
| RATELIMIT_STORE_CAPACITY_MISMATCH
| RATELIMIT_STORE_REFILL_MISMATCH
| RATELIMIT_STORE_CLOCK_MISMATCH.

Definition differs (a : option Q) (b : Q) : bool :=
  match a with Some x => negb (Qeq_bool x b) | None => false end.

(** The guards on an injected in-memory store. *)
Definition check_pairing (l : Policy) (clock : nat) (o : StoreOptions) : option RateLimitError :=
  if differs (s_capacity o) (capacity l) then Some RATELIMIT_STORE_CAPACITY_MISMATCH
  else if differs (s_refillPerSecond o) (refillPerSecond l) then Some RATELIMIT_STORE_REFILL_MISMATCH
  else match s_capacity o, s_refillPerSecond o with
       | Some _, Some _ => if Nat.eqb (s_clock o) clock then None else Some RATELIMIT_STORE_CLOCK_MISMATCH
       | _, _ => None
       end.

(** The in-memory store the limiter ends up with: the injected one, or its own. *)
Definition newRateLimiter (l : Policy) (clock : nat) (injected : option MemoryRateLimitStore)
    : outcome RateLimitError MemoryRateLimitStore :=
  match injected with
  | Some s => match check_pairing l clock (options s) with
              | Some e => Throw e
              | None => Ok s
              end
  | None => Ok (mkMemoryStore (mkStoreOptions (Some (capacity l)) (Some (refillPerSecond l)) 10000 clock)
                  [] 0 false)
  end.

(** ** The SQL store *)

(** A row of [lesto_rate_limits]; [key] is the primary key. *)
Record RateLimitRow := mkRateLimitRow { r_key : string; r_tokens : Q; r_updated_at : Z }.

Definition row_of (key : string) (t : list RateLimitRow) : option BucketState :=
  option_map (fun r => mkBucket (r_tokens r) (r_updated_at r))
    (List.find (fun r => String.eqb (r_key r) key) t).

(** One transaction: the SELECT sees [seen]; a row it finds is locked, so the UPDATE sees
    it too; the INSERT of an absent one runs on [t], where another transaction may have
    inserted since. [None]: the primary key is violated. *)
Definition attempt {A} (key : string) (mutate : option BucketState -> BucketState * A)
    (seen t : list RateLimitRow) : option (list RateLimitRow * A) :=
  match row_of key seen with
  | Some current =>
      let '(next, a) := mutate (Some current) in
      Some (fst (update_where (fun r => String.eqb (r_key r) key)
             (fun r => mkRateLimitRow (r_key r) (tokens next) (updatedAt next)) t), a)
  | None =>
      let '(next, a) := mutate None in
      if existsb (fun r => String.eqb (r_key r) key) t then None
      else Some (t ++ [mkRateLimitRow key (tokens next) (updatedAt next)], a)
  end.

(** [update]: one retry after a conflict; [others] is what other transactions do to the
    table between the four statements. *)
Definition sql_update {A} (others : nat -> list RateLimitRow -> list RateLimitRow) (key : string)
    (mutate : option BucketState -> BucketState * A) (t : list RateLimitRow)
    : list RateLimitRow * outcome StoreError A :=
  match attempt key mutate t (others 0%nat t) with
  | Some (t', a) => (t', Ok a)
  | None =>
      let t1 := others 1%nat (others 0%nat t) in
      match attempt key mutate t1 (others 2%nat t1) with
      | Some (t', a) => (t', Ok a)
      | None => (others 2%nat t1, Throw (RATELIMIT_STORE_CONFLICT key))
      end
  end.

(** DELETE ... WHERE updated_at < ?. *)
Definition sql_sweep (before : Z) (t : list RateLimitRow) : list RateLimitRow * Z :=
  delete_where (fun r => r_updated_at r <? before) t.

(** Alone on the table. *)
#[export] Instance sql_rate_store : RateLimitStore (list RateLimitRow) := {
  store_update A _ := sql_update (fun _ t => t)
}.

(** ** The middleware *)

(** [rateLimit]'s answer to a request under [key]: let through, or 429 with a
    [Retry-After] in whole seconds. *)
Inductive Answer := Passed | TooManyRequests (retryAfterSeconds : Wait) | Errored.

Definition rateLimit {S} `{!RateLimitStore S} (l : Policy) (now clock : Z) (key : string) (s : S) : S * Answer :=
  match check l now clock key 1 s with
  | (s', Throw _) => (s', Errored)
  | (s', Ok r) =>
      if allowed r then (s', Passed)
      else (s', TooManyRequests match retryAfterMs r with
                                | Ms ms => Ms (Qceiling (rnd (inject_Z ms / 1000))) | Forever => Forever end)
  end.
End RateLimit.
