(* ===== verification/RateLimitProps.v ===== *)
(** * The rate limiter: correctness

    Whatever the rounding of its arithmetic, the in-memory store is bounded and sheds the
    fullest bucket; runs of checks, the refill formula and the abstract store the other
    results compare the real ones with. *)
From Stdlib Require Import QArith Qround Lqa.
From S2P Require Import Prelude JsMap Sql RateLimit.
#[local] Open Scope Z_scope.

(** The abstract store: one bucket per key ever checked, never evicted. *)
#[export] Instance plain_store : RateLimitStore (gmap string BucketState) := {
  store_update A _ key mutate m :=
    let '(next, a) := mutate (m !! key) in (<[key := next]> m, Ok a)
}.

(** A run of checks: (the limiter's clock, the store's, the key, the cost). *)
Definition Request : Type := Z * Z * string * Q.

Section Runs.
Context `{R : !Rounding}.

Fixpoint run_checks {S} `{!RateLimitStore S} (l : Policy) (es : list Request) (s : S)
    : S * list (outcome StoreError RateLimitResult) :=
  match es with
  | [] => (s, [])
  | (now, clock, key, cost) :: es' =>
      let '(s1, r) := check l now clock key cost s in
      let '(s2, rs) := run_checks l es' s1 in (s2, r :: rs)
  end.

(** Clocks that do not run backwards, from [t] on. *)
Fixpoint forward (t : Z) (es : list Request) : Prop :=
  match es with
  | [] => True
  | (now, clock, _, _) :: es' => t <= now /\ now <= clock /\ forward clock es'
  end.
End Runs.

(** ** The refill formula *)

Section Refill.
Context `{R : !Rounding, RL : !RoundingLaws}.

#[export] Instance rnd_proper : Proper (Qeq ==> Qeq) rnd.
Proof. intros x y E. apply Qle_antisym; apply rnd_mono; lra. Qed.

Lemma rnd_nonneg x : (0 <= x)%Q -> (0 <= rnd x)%Q.
Proof. intros H%rnd_mono. rewrite rnd_zero in H. exact H. Qed.

Lemma Qle_bool_false a b : Qle_bool a b = false <-> (b < a)%Q.
Proof.
  split.
  - intros H. apply Qnot_le_lt. intros L%Qle_bool_iff. congruence.
  - intros H. destruct (Qle_bool a b) eqn:E; [|done]. apply Qle_bool_iff in E. lra.
Qed.

Lemma js_min_spec a b :
  (Qle a b /\ js_min a b = a) \/ (Qlt b a /\ js_min a b = b).
Proof.
  unfold js_min. destruct (Qle_bool a b) eqn:E.
  - left. split; [by apply Qle_bool_iff|done].
  - right. split; [by apply Qle_bool_false|done].
Qed.

Definition earned (st : BucketState) (now : Z) (rate : Q) : Q :=
  rnd (tokens st + rnd (rnd (inject_Z (Z.max 0 (now - updatedAt st)) / 1000) * rate)).

Lemma earned_mono st now now' rate :
  (0 <= rate)%Q -> now <= now' -> (earned st now rate <= earned st now' rate)%Q.
Proof.
  intros Hr Hn. unfold earned. apply rnd_mono, Qplus_le_r, rnd_mono, Qmult_le_compat_r; [|done].
  apply rnd_mono. unfold Qdiv. apply Qmult_le_compat_r; [|done]. rewrite <- Zle_Qle. lia.
Qed.

Lemma earned_nonneg st now rate :
  (0 <= rate)%Q -> (rnd (tokens st) <= earned st now rate)%Q.
Proof.
  intros Hr. unfold earned. apply rnd_mono.
  assert (0 <= rnd (rnd (inject_Z (Z.max 0 (now - updatedAt st)) / 1000) * rate))%Q; [|lra].
  apply rnd_nonneg, Qmult_le_0_compat; [|done]. apply rnd_nonneg. unfold Qdiv.
  apply Qmult_le_0_compat; [|done]. change 0%Q with (inject_Z 0). rewrite <- Zle_Qle. lia.
Qed.

Lemma refilled_le st now cap rate : (refilledTokens st now cap rate <= cap)%Q.
Proof. unfold refilledTokens. destruct (js_min_spec cap (earned st now rate)) as [[_ E]|[H E]];
  unfold earned in *; rewrite E; lra. Qed.

(** A bucket that is full is full from then on, and reads as exactly the capacity. *)
Lemma refilled_full st now now' cap rate :
  (0 <= rate)%Q -> now <= now' -> (cap <= refilledTokens st now cap rate)%Q ->
  refilledTokens st now' cap rate = cap.
Proof.
  intros Hr Hn H. pose proof (earned_mono st now now' rate Hr Hn).
  unfold refilledTokens in *. fold (earned st now rate) in *. fold (earned st now' rate).
  destruct (js_min_spec cap (earned st now rate)) as [[H1 E1]|[H1 E1]]; [|rewrite E1 in H; lra].
  destruct (js_min_spec cap (earned st now' rate)) as [[H2 E2]|[H2 E2]]; [done|]. lra.
Qed.

(** A bucket written at the ceiling is full at once. *)
Lemma refilled_ceiling st now cap rate :
  (0 <= rate)%Q -> (rnd cap == cap)%Q -> (cap <= tokens st)%Q -> refilledTokens st now cap rate = cap.
Proof.
  intros Hr Hc H. unfold refilledTokens. fold (earned st now rate).
  destruct (js_min_spec cap (earned st now rate)) as [[H1 E1]|[H1 E1]]; [done|].
  pose proof (earned_nonneg st now rate Hr). apply rnd_mono in H. rewrite Hc in H. lra.
Qed.

Lemma refilled_proper st now cap cap' rate rate' :
  (cap == cap')%Q -> (rate == rate')%Q ->
  (refilledTokens st now cap rate == refilledTokens st now cap' rate')%Q.
Proof.
  intros Hc Hr. unfold refilledTokens. fold (earned st now rate) (earned st now rate').
  assert (E : (earned st now rate == earned st now rate')%Q) by (unfold earned; by rewrite Hr).
  destruct (js_min_spec cap (earned st now rate)) as [[H1 E1]|[H1 E1]],
    (js_min_spec cap' (earned st now rate')) as [[H2 E2]|[H2 E2]]; rewrite E1, E2; lra.
Qed.
End Refill.

(** ** The bounded store *)

Section Memory.
Context `{R : !Rounding, RL : !RoundingLaws}.
Implicit Types (s : MemoryRateLimitStore).

Lemma pick_victim_spec o now m v :
  pick_victim o now m v = v /\ (m = [] \/ exists k f, v = Some (k, f) /\
     forall kv, In kv m -> (fullness o now (snd kv) < f)%Q) \/
  exists pre k st post, m = pre ++ (k, st) :: post /\
    pick_victim o now m v = Some (k, fullness o now st) /\
    (forall kv, In kv pre -> (fullness o now (snd kv) <= fullness o now st)%Q) /\
    (forall kv, In kv post -> (fullness o now (snd kv) < fullness o now st)%Q) /\
    (forall k0 f0, v = Some (k0, f0) -> (f0 <= fullness o now st)%Q).
Proof.
  revert v. induction m as [|[k st] m IH]; intros v; simpl; [left; split; [done|by left]|].
  set (better := match v with None => true | Some (_, vf) => Qle_bool vf (fullness o now st) end).
  destruct better eqn:Eb; subst better.
  - assert (Hv : forall k0 f0, v = Some (k0, f0) -> (f0 <= fullness o now st)%Q).
    { intros k0 f0 ->. by apply Qle_bool_iff. }
    right. destruct (IH (Some (k, fullness o now st))) as [[-> H]|(pre & k1 & st1 & post & -> & -> & H1 & H2 & H3)].
    + exists [], k, st, m. split_and!; [done|done|by intros ? []| |done].
      destruct H as [->|(k0 & f0 & [= <- <-] & H)]; [by intros ? []|exact H].
    + pose proof (H3 _ _ eq_refl) as H3'.
      exists ((k, st) :: pre), k1, st1, post. split_and!; [done|done| |done|].
      * intros kv [<-|Hin]; [exact H3'|by apply H1].
      * intros k0 f0 E. specialize (Hv _ _ E). lra.
  - destruct v as [[vk vf]|]; [|done]. apply Qle_bool_false in Eb.
    destruct (IH (Some (vk, vf))) as [[-> H]|(pre & k1 & st1 & post & -> & -> & H1 & H2 & H3)].
    + left. split; [done|]. right. exists vk, vf. split; [done|]. intros kv [<-|Hin]; [exact Eb|].
      destruct H as [->|(k0 & f0 & [= <- <-] & H)]; [done|by apply H].
    + right. pose proof (H3 _ _ eq_refl) as H3'.
      exists ((k, st) :: pre), k1, st1, post. split_and!; [done|done| |done|].
      * intros kv [<-|Hin]; [simpl; lra|by apply H1].
      * intros k0 f0 [= <- <-]. exact H3'.
Qed.

Lemma sweep_refilled_sub o now m : forall kv, In kv (sweep_refilled o now m) -> In kv m.
Proof. unfold sweep_refilled. destruct (s_capacity o), (s_refillPerSecond o); try done. intros kv. apply filter_sub. Qed.

Lemma sweep_refilled_NoDup o now m :
  List.NoDup (map fst m) -> List.NoDup (map fst (sweep_refilled o now m)).
Proof. unfold sweep_refilled. destruct (s_capacity o), (s_refillPerSecond o); try done. apply NoDup_map_filter. Qed.

Lemma sweep_refilled_length o now m : (length (sweep_refilled o now m) <= length m)%nat.
Proof. unfold sweep_refilled. destruct (s_capacity o), (s_refillPerSecond o); try done. apply List.filter_length_le. Qed.

Definition store_ok s : Prop :=
  List.NoDup (map fst (buckets s)) /\ 1 <= maxBuckets (options s) /\
  Z.of_nat (length (buckets s)) <= maxBuckets (options s).

(** Fact: When sweeping the refilled buckets does not bring the store back to its bound, one
    bucket goes and no other: the one closest to full, the later inserted of a tie; the
    shedding is counted. Otherwise exactly the refilled buckets go. *)
Theorem evictToBound_spec now s :
  List.NoDup (map fst (buckets s)) -> 1 <= maxBuckets (options s) ->
  let kept := sweep_refilled (options s) now (buckets s) in
  if Z.of_nat (length kept) <=? maxBuckets (options s)
  then buckets (evictToBound now s) = kept /\ saturationCount (evictToBound now s) = saturationCount s
  else exists pre k st post, kept = pre ++ (k, st) :: post /\
    buckets (evictToBound now s) = pre ++ post /\
    saturationCount (evictToBound now s) = saturationCount s + 1 /\
    (forall kv, In kv pre -> (fullness (options s) now (snd kv) <= fullness (options s) now st)%Q) /\
    (forall kv, In kv post -> (fullness (options s) now (snd kv) < fullness (options s) now st)%Q).
Proof.
  intros Hn Hm kept. unfold evictToBound. fold kept. case_test; [done|]. bools.
  destruct (pick_victim_spec (options s) now kept None) as [[E [K|(k & f & ? & _)]]|H]; [..|done|].
  { rewrite K in Etest. simpl in Etest. lia. }
  destruct H as (pre & k & st & post & E & Ev & H1 & H2 & _).
  exists pre, k, st, post. rewrite Ev. simpl. split_and!; [done| |done|done|done].
  assert (Hk : List.NoDup (map fst kept)) by by apply sweep_refilled_NoDup.
  rewrite E in Hk |- *. clear - Hk. rewrite map_app in Hk. simpl in Hk.
  apply List.NoDup_remove in Hk as [_ Hk]. rewrite in_app_iff in Hk.
  unfold map_delete. rewrite List.filter_app. simpl. rewrite String.eqb_refl. simpl.
  assert (F : forall l : JsMap BucketState, ~ In k (map fst l) ->
    List.filter (fun kv => negb (String.eqb (fst kv) k)) l = l).
  { induction l as [|[k0 s0] l IH]; simpl; intros H; [done|].
    destruct (String.eqb_spec k0 k) as [->|]; simpl; [tauto|]. rewrite IH; tauto. }
  by rewrite !F by tauto.
Qed.

Lemma evictToBound_ok now s :
  List.NoDup (map fst (buckets s)) -> 1 <= maxBuckets (options s) ->
  Z.of_nat (length (buckets s)) <= maxBuckets (options s) + 1 -> store_ok (evictToBound now s).
Proof.
  intros Hn Hm Hl. pose proof (evictToBound_spec now s Hn Hm) as H. simpl in H.
  pose proof (sweep_refilled_length (options s) now (buckets s)) as Hsl.
  pose proof (sweep_refilled_NoDup (options s) now (buckets s) Hn) as Hsn.
  assert (Ho : options (evictToBound now s) = options s) by (unfold evictToBound; by case_test).
  unfold store_ok. rewrite Ho. destruct (_ <=? _) eqn:E in H; bools.
  - destruct H as [-> _]. by split_and!.
  - destruct H as (pre & k & st & post & Ek & -> & _). rewrite Ek in *.
    rewrite map_app in Hsn. simpl in Hsn. apply List.NoDup_remove in Hsn as [Hsn _].
    rewrite <- map_app in Hsn. rewrite length_app in *. simpl in Hsl. split_and!; [done|done|lia].
Qed.

(** Fact: The in-memory store never holds more than [maxBuckets] buckets, whatever keys are
    checked at whatever cost. *)
Theorem memory_store_bounded l es s :
  store_ok s -> store_ok (fst (run_checks l es s)).
Proof.
  revert s. induction es as [|[[[now clock] key] cost] es IH]; intros s H; cbn [run_checks]; [done|].
  destruct (check l now clock key cost s) as [s1 r] eqn:Ec.
  destruct (run_checks l es s1) as [s2 rs] eqn:Er.
  specialize (IH s1). rewrite Er in IH. apply IH. clear IH Er.
  unfold check, store_update, memory_rate_store, memory_update in Ec.
  destruct (spend _ _ _ _) as [next a]. destruct H as (Hn & Hm & Hl).
  pose proof (map_set_length key next (buckets s)) as Hsl.
  pose proof (map_set_NoDup key next (buckets s) Hn) as Hsn.
  destruct (match s_capacity (options s) with Some c => _ | None => _ end).
  - injection Ec as <- <-. split_and!; simpl; [by apply map_delete_NoDup|done|].
    pose proof (map_delete_length key (buckets s)). lia.
  - simpl in Ec. destruct (_ <? _) eqn:E; injection Ec as <- <-; bools.
    + apply evictToBound_ok; simpl; [done|done|lia].
    + by split_and!.
Qed.
End Memory.
