(* ===== verification/RateLimitSpec.v ===== *)
(** * The rate limiter: refinement and limits

    The stores against the abstract one (eviction and sweeping are invisible, the SQL
    store loses no update), what a limiter over either store grants with its arithmetic
    rounded, and in exact arithmetic the waits it announces. *)
From Stdlib Require Import QArith Qround Lqa.
From S2P Require Import Prelude JsMap Sql RateLimit RateLimitProps.
#[local] Open Scope Z_scope.

(** ** Eviction is invisible *)

Section Eviction.
Context `{R : !Rounding, RL : !RoundingLaws}.
Context (l : Policy) (Hrate : (0 <= refillPerSecond l)%Q) (Hcap : (rnd (capacity l) == capacity l)%Q).
Implicit Types (s : MemoryRateLimitStore) (m : gmap string BucketState).

(** A bucket that reads as a fresh one from [t] on. *)
Definition full_from (t : Z) (b : BucketState) : Prop :=
  forall now, t <= now -> refilled l (Some b) now = capacity l.

(** The store holds what the abstract one holds, except for buckets full by now. *)
Definition agrees (t : Z) s m : Prop :=
  store_ok s /\
  forall k, map_get k (buckets s) = m !! k \/
    (map_get k (buckets s) = None /\ exists b, m !! k = Some b /\ full_from t b).

Lemma agrees_later t t' s m : t <= t' -> agrees t s m -> agrees t' s m.
Proof.
  intros Ht [Hok H]. split; [done|]. intros k. destruct (H k) as [?|(? & b & ? & Hb)]; [by left|].
  right. split; [done|]. exists b. split; [done|]. intros now Hn. apply Hb. lia.
Qed.

(** Both stores show the limiter the same bucket. *)
Lemma agrees_spend t s m k now cost :
  agrees t s m -> t <= now -> spend l now cost (map_get k (buckets s)) = spend l now cost (m !! k).
Proof.
  intros [_ H] Ht. destruct (H k) as [->|(-> & b & -> & Hb)]; [done|].
  unfold spend. by rewrite (Hb now Ht).
Qed.

(** What the store's options and the limiter's limits say of fullness agree. *)
Definition paired s : Prop :=
  differs (s_capacity (options s)) (capacity l) = false /\
  differs (s_refillPerSecond (options s)) (refillPerSecond l) = false.

Lemma differs_Some x y : differs (Some x) y = false -> (x == y)%Q.
Proof. simpl. intros H%negb_false_iff. by apply Qeq_bool_iff. Qed.

Lemma swept_full s now m k b :
  paired s -> List.NoDup (map fst (buckets s)) -> map_get k (buckets s) = Some b ->
  map_get k (sweep_refilled (options s) now (buckets s)) = Some b \/
  (map_get k (sweep_refilled (options s) now (buckets s)) = None /\ full_from now b).
Proof.
  intros [Hc Hr] Hn Hk. unfold sweep_refilled.
  destruct (s_capacity (options s)) as [c|], (s_refillPerSecond (options s)) as [r|]; try by left.
  apply differs_Some in Hc, Hr.
  destruct (Qle_bool c (refilledTokens b now c r)) eqn:E.
  - right. split.
    + destruct (map_get k (List.filter _ _)) as [b'|] eqn:E'; [|done].
      apply map_get_sub in E' as [E1 E2]; [|done]. simpl in E2.
      rewrite Hk in E1. injection E1 as <-. by rewrite E in E2.
    + intros now' Hn'. apply Qle_bool_iff in E. simpl.
      rewrite (refilled_proper b now c (capacity l) r (refillPerSecond l) Hc Hr) in E.
      rewrite Hc in E. by eapply refilled_full.
  - left. apply map_get_sub; [done|]. split; [done|]. simpl. by rewrite E.
Qed.

Lemma spend_tokens now cost existing : updatedAt (fst (spend l now cost existing)) = now.
Proof. unfold spend. by case_test. Qed.

(** One check, with nothing shed: the same verdict, and agreement at the store's clock. *)
Lemma check_agrees t now clock key cost s m s' r :
  paired s -> agrees t s m -> t <= now -> now <= clock ->
  check l now clock key cost s = (s', r) -> saturationCount s' = saturationCount s ->
  check l now clock key cost m = (<[key := fst (spend l now cost (m !! key))]> m, r) /\
  agrees clock s' (<[key := fst (spend l now cost (m !! key))]> m) /\ options s' = options s.
Proof.
  intros Hp Ha Ht Hc. unfold check, store_update, memory_rate_store, plain_store, memory_update.
  rewrite (agrees_spend _ _ _ _ _ _ Ha Ht).
  destruct (spend l now cost (m !! key)) as [next a] eqn:Es. cbn [fst].
  pose proof Ha as [(Hn & Hm & Hl) Hag].
  assert (Hother : forall k b, m !! k = Some b -> full_from t b -> full_from clock b).
  { intros k b _ Hb n Hn'. apply Hb. lia. }
  case_test.
  - intros [= <- <-] _. split; [done|]. split; [|done]. split.
    { split_and!; simpl; [by apply map_delete_NoDup|done|].
      pose proof (map_delete_length key (buckets s)). lia. }
    intros k. cbn [buckets]. rewrite map_get_delete. destruct (String.eqb_spec k key) as [->|N].
    + right. split; [done|]. exists next. rewrite lookup_insert_eq. split; [done|].
      intros n Hn'. simpl. apply refilled_ceiling; [done|done|].
      destruct (s_capacity (options s)) as [c|] eqn:Eo; [|done]. apply Qle_bool_iff in Etest.
      destruct Hp as [Hp _]. rewrite Eo in Hp. apply differs_Some in Hp. by rewrite <- Hp.
    + rewrite lookup_insert_ne by done. destruct (Hag k) as [->|(-> & b & -> & Hb)]; [by left|].
      right. split; [done|]. exists b. split; [done|]. intros n Hn'. apply Hb. lia.
  - set (s1 := mkMemoryStore (options s) (map_set key next (buckets s)) (saturationCount s) (saturationWarned s)).
    assert (Hset : forall k, map_get k (buckets s1) = <[key := next]> m !! k \/
      (map_get k (buckets s1) = None /\ exists b, <[key := next]> m !! k = Some b /\ full_from clock b)).
    { intros k. simpl. rewrite map_get_set. destruct (String.eqb_spec k key) as [->|N].
      - left. by rewrite lookup_insert_eq.
      - rewrite lookup_insert_ne by done. destruct (Hag k) as [->|(-> & b & -> & Hb)]; [by left|].
        right. split; [done|]. exists b. split; [done|]. intros n Hn'. apply Hb. lia. }
    pose proof (map_set_NoDup key next (buckets s) Hn) as Hsn.
    pose proof (map_set_length key next (buckets s)) as Hsl.
    case_test; intros [= <- <-] Hsat; bools; (split; [done|]); (split; [|by unfold evictToBound; try case_test]).
    + split; [apply evictToBound_ok; simpl; [done|done|lia]|].
      pose proof (evictToBound_spec clock s1 Hsn Hm) as He. simpl in He. fold s1 in He.
      destruct (_ <=? _) eqn:Eb in He; [|destruct He as (? & ? & ? & ? & _ & _ & He & _); simpl in *; lia].
      destruct He as [-> _]. intros k.
      destruct (Hset k) as [Hk|(Hk & b & Hb & Hf)].
      * destruct (map_get k (buckets s1)) as [b|] eqn:Eg.
        -- destruct (swept_full s1 clock m k b Hp Hsn Eg) as [H1|[H1 H2]]; simpl in H1.
           ++ left. by rewrite H1, <- Hk.
           ++ right. split; [exact H1|]. exists b. by rewrite <- Hk.
        -- left. rewrite <- Hk. destruct (map_get k (sweep_refilled _ _ _)) as [b|] eqn:E1; [|done].
           apply map_get_Some_In, sweep_refilled_sub in E1. by apply (map_get_None _ _ Eg) in E1.
      * right. split; [|by exists b]. destruct (map_get k (sweep_refilled _ _ _)) as [b'|] eqn:E1; [|done].
        apply map_get_Some_In, sweep_refilled_sub in E1. by apply (map_get_None _ _ Hk) in E1.
    + split; [by split_and!|]. exact Hset.
Qed.

Lemma check_saturation now clock key cost s s' r :
  check l now clock key cost s = (s', r) -> saturationCount s <= saturationCount s'.
Proof.
  unfold check, store_update, memory_rate_store, memory_update.
  destruct (spend _ _ _ _) as [next a]. case_test; [intros [= <- <-]; simpl; lia|].
  case_test; intros [= <- <-]; simpl; [|lia]. unfold evictToBound. case_test; simpl; lia.
Qed.

Lemma run_saturation es s : saturationCount s <= saturationCount (fst (run_checks l es s)).
Proof.
  revert s. induction es as [|[[[now clock] key] cost] es IH]; intros s; cbn [run_checks]; [simpl; lia|].
  destruct (check l now clock key cost s) as [s1 r] eqn:Ec. apply check_saturation in Ec.
  specialize (IH s1). destruct (run_checks l es s1) as [s2 rs]. simpl in *. lia.
Qed.

Lemma run_agrees es t s m :
  paired s -> agrees t s m -> forward t es ->
  saturationCount (fst (run_checks l es s)) = saturationCount s ->
  snd (run_checks l es s) = snd (run_checks l es m).
Proof.
  revert t s m. induction es as [|[[[now clock] key] cost] es IH]; intros t s m Hp Ha Hf Hs;
    cbn [run_checks] in *; [done|]. destruct Hf as (H1 & H2 & H3).
  destruct (check l now clock key cost s) as [s1 r] eqn:Ec.
  pose proof (run_saturation es s1) as Hsat. pose proof (check_saturation _ _ _ _ _ _ _ Ec) as Hsat1.
  destruct (run_checks l es s1) as [s2 rs] eqn:Er. simpl in Hs, Hsat.
  destruct (check_agrees t now clock key cost s m s1 r Hp Ha H1 H2 Ec ltac:(lia)) as (-> & Ha1 & Ho).
  specialize (IH clock s1 (<[key:=fst (spend l now cost (m !! key))]> m)).
  rewrite Er in IH. destruct (run_checks l es (<[_:=_]> m)) as [m2 rs']. simpl in *.
  rewrite IH; [done|by unfold paired; rewrite Ho|done|done|lia].
Qed.

(** Fact: Eviction is invisible: a limiter over its own in-memory store, or over an injected
    one its constructor accepts, gives on every run of checks (clocks not running
    backwards) the verdicts of a store that never forgets a bucket, as long as the
    hard cap has shed no throttled one; whatever the rounding of the arithmetic. *)
Theorem eviction_invisible clock injected s0 es t :
  newRateLimiter l clock injected = Ok s0 ->
  buckets s0 = [] -> 1 <= maxBuckets (options s0) ->
  forward t es -> saturationCount (fst (run_checks l es s0)) = saturationCount s0 ->
  snd (run_checks l es s0) = snd (run_checks l es (∅ : gmap string BucketState)).
Proof.
  intros Hnew Hb Hm Hf Hs. eapply run_agrees; [|split|exact Hf|exact Hs].
  - unfold newRateLimiter in Hnew. destruct injected as [s|].
    + unfold check_pairing in Hnew. unfold paired.
      destruct (differs (s_capacity (options s)) (capacity l)) eqn:E1; [done|].
      destruct (differs (s_refillPerSecond (options s)) (refillPerSecond l)) eqn:E2; [done|].
      assert (s = s0) as <- by (destruct (s_capacity (options s)), (s_refillPerSecond (options s));
        try destruct (Nat.eqb _ _); by simplify_eq). by split.
    + injection Hnew as <-. split; simpl; apply negb_false_iff, Qeq_bool_iff; reflexivity.
  - split_and!; rewrite ?Hb; simpl; [constructor|done|lia].
  - intros k. left. rewrite Hb, lookup_empty. done.
Qed.
End Eviction.

(** ** The SQL store *)

Section Sql.
Context `{R : !Rounding}.
Implicit Types (t : list RateLimitRow).

Lemma row_of_update key b t k :
  row_of k (fst (update_where (fun r => String.eqb (r_key r) key)
    (fun r => mkRateLimitRow (r_key r) (tokens b) (updatedAt b)) t)) =
  if String.eqb k key then match row_of key t with Some _ => Some b | None => None end else row_of k t.
Proof.
  unfold row_of, update_where. simpl. induction t as [|r t IH]; simpl; [by case_test|].
  destruct (String.eqb_spec (r_key r) key) as [E|N]; simpl.
  - rewrite E. destruct (String.eqb_spec key k) as [->|N'].
    + rewrite String.eqb_refl. simpl. by destruct b.
    + rewrite (proj2 (String.eqb_neq k key)) in * by done. exact IH.
  - destruct (String.eqb_spec (r_key r) k) as [E'|N']; [|exact IH].
    rewrite E' in N. by rewrite (proj2 (String.eqb_neq k key) N).
Qed.

Lemma row_of_has key t : existsb (fun r => String.eqb (r_key r) key) t = bool_decide (is_Some (row_of key t)).
Proof.
  unfold row_of. induction t as [|r t IH]; simpl; [done|]. destruct (String.eqb (r_key r) key); simpl; [done|exact IH].
Qed.

Lemma row_of_app key t r :
  row_of key (t ++ [r]) = match row_of key t with
    | Some b => Some b
    | None => if String.eqb (r_key r) key then Some (mkBucket (r_tokens r) (r_updated_at r)) else None end.
Proof.
  unfold row_of. induction t as [|r0 t IH]; simpl; [by case_test|].
  destruct (String.eqb (r_key r0) key); simpl; [done|exact IH].
Qed.

(** Alone, the SQL store is the abstract store. *)
Lemma sql_alone {A} key (mutate : option BucketState -> BucketState * A) t (m : gmap string BucketState) :
  (forall k, row_of k t = m !! k) ->
  snd (sql_update (fun _ t => t) key mutate t) = Ok (snd (mutate (m !! key))) /\
  forall k, row_of k (fst (sql_update (fun _ t => t) key mutate t)) = <[key := fst (mutate (m !! key))]> m !! k.
Proof.
  intros H. unfold sql_update, attempt. rewrite H. destruct (m !! key) as [b|] eqn:Em.
  - destruct (mutate (Some b)) as [next a]. cbn [fst snd]. split; [done|]. intros k.
    rewrite row_of_update, H, Em. destruct (String.eqb_spec k key) as [->|N].
    + by rewrite lookup_insert_eq.
    + by rewrite lookup_insert_ne, H.
  - destruct (mutate None) as [next a]. simpl. rewrite row_of_has, H, Em. simpl. split; [done|]. intros k.
    rewrite row_of_app, H. simpl. rewrite (String.eqb_sym key k). destruct (String.eqb_spec k key) as [->|N].
    + rewrite Em, lookup_insert_eq. by destruct next.
    + rewrite lookup_insert_ne by done. by destruct (m !! k).
Qed.

(** Fact: The SQL store refines the abstract one: alone on the table it gives the verdicts
    of a store that never forgets a bucket, on every run of checks. *)
Theorem sql_store_refines l es t (m : gmap string BucketState) :
  (forall k, row_of k t = m !! k) ->
  snd (run_checks l es t) = snd (run_checks l es m).
Proof.
  revert t m. induction es as [|[[[now clock] key] cost] es IH]; intros t m H; cbn [run_checks]; [done|].
  unfold check, store_update, sql_rate_store, plain_store.
  destruct (sql_alone key (spend l now cost) t m H) as [H1 H2].
  destruct (sql_update _ key (spend l now cost) t) as [t1 r]. simpl in H1, H2. subst r.
  destruct (spend l now cost (m !! key)) as [next a]. simpl in H2.
  specialize (IH t1 (<[key := next]> m) H2).
  destruct (run_checks l es t1), (run_checks l es (<[key := next]> m)). simpl in *. by rewrite IH.
Qed.

(** Fact: Under concurrency the SQL store refuses an update only if, twice, a row of the key
    was there at the INSERT and had not been there at the SELECT: with transactions that
    delete no row it never refuses, and the caller's function is applied to a row that
    was really there, or to none. *)
Theorem sql_conflict_needs_a_delete {A} (others : nat -> list RateLimitRow -> list RateLimitRow)
    key (mutate : option BucketState -> BucketState * A) t :
  match snd (sql_update others key mutate t) with
  | Throw e => e = RATELIMIT_STORE_CONFLICT key /\
      exists t1, is_Some (row_of key (others 0%nat t)) /\ t1 = others 1%nat (others 0%nat t) /\
                 row_of key t1 = None
  | Ok a => exists seen, a = snd (mutate seen) /\
      (seen = None \/ seen = row_of key t \/ seen = row_of key (others 1%nat (others 0%nat t)))
  end.
Proof.
  unfold sql_update, attempt. destruct (row_of key t) as [b|] eqn:E0.
  - destruct (mutate (Some b)) as [n a] eqn:Em. simpl. exists (Some b). rewrite Em. auto.
  - destruct (mutate None) as [n a] eqn:Em. rewrite row_of_has.
    case_bool_decide as H0; [|simpl; exists None; rewrite Em; auto].
    set (t1 := others 1%nat (others 0%nat t)).
    destruct (row_of key t1) as [b|] eqn:E1.
    + destruct (mutate (Some b)) as [n' a'] eqn:Em'. simpl. exists (Some b). rewrite Em'. auto.
    + rewrite row_of_has. case_bool_decide as H1; simpl; [|exists None; rewrite Em; auto].
      split; [done|]. by exists t1.
Qed.
End Sql.

(** ** The limit, with rounding errors *)

(** What a run granted to [key]. *)
Fixpoint granted (key : string) (es : list Request) (rs : list (outcome StoreError RateLimitResult)) : Q :=
  match es, rs with
  | (_, _, k, cost) :: es', r :: rs' =>
      match r with
      | Ok res => if String.eqb k key && allowed res then cost + granted key es' rs' else granted key es' rs'
      | Throw _ => granted key es' rs'
      end
  | _, _ => 0
  end.

(** Every check reads a clock of at most [T], and costs are not negative. *)
Fixpoint ends_by (T : Z) (es : list Request) : Prop :=
  match es with
  | [] => True
  | (now, _, _, cost) :: es' => now <= T /\ (0 <= cost)%Q /\ ends_by T es'
  end.

(** The checks of [key] in a run. *)
Definition checks_of (key : string) (es : list Request) : nat :=
  length (List.filter (fun e => String.eqb (snd (fst e)) key) es).

(** Tokens that accrue in [ms] milliseconds. *)
Definition accrual (l : Policy) (ms : Z) : Q := inject_Z ms / 1000 * refillPerSecond l.

Lemma accrual_add l a b : (accrual l (a + b) == accrual l a + accrual l b)%Q.
Proof. unfold accrual, Qdiv. rewrite inject_Z_plus. ring. Qed.

Lemma accrual_mono l a b : (0 <= refillPerSecond l)%Q -> a <= b -> (accrual l a <= accrual l b)%Q.
Proof.
  intros Hr H. unfold accrual, Qdiv. apply Qmult_le_compat_r; [|done]. apply Qmult_le_compat_r; [|done].
  by rewrite <- Zle_Qle.
Qed.

Lemma accrual_0 l : (accrual l 0 == 0)%Q.
Proof. unfold accrual. reflexivity. Qed.

Lemma js_min_mono a b c : (b <= c)%Q -> (js_min a b <= js_min a c)%Q.
Proof. destruct (js_min_spec a b) as [[? ->]|[? ->]], (js_min_spec a c) as [[? ->]|[? ->]]; intros; lra. Qed.

(** The operations' errors: relative at most [u], and [eta] where numbers underflow. *)
Definition errs_by `{R : !Rounding} (u eta : Q) : Prop :=
  (0 <= u)%Q /\ (0 <= eta)%Q /\ forall x, (0 <= x)%Q -> (rnd x <= x * (1 + u) + eta)%Q.

(** What the roundings of one check can add to a bucket. *)
Definition drift (l : Policy) (u eta : Q) : Q :=
  2 * u * capacity l + eta * (refillPerSecond l * (1 + u) * (1 + u) + (1 + u) + 2).

Section Enforced.
Context `{R : !Rounding, RL : !RoundingLaws}.
Context (l : Policy) (Hrate : (0 <= refillPerSecond l)%Q) (Hcap : (0 <= capacity l)%Q).
Context (u eta : Q) (Herr : errs_by u eta).

Definition above0 (x : Q) : Q := if Qle_bool x 0 then 0 else x.

Lemma above0_spec x : (0 <= x)%Q /\ (above0 x == x)%Q \/ (x < 0)%Q /\ (above0 x == 0)%Q.
Proof.
  unfold above0. destruct (Qle_bool x 0) eqn:E; [apply Qle_bool_iff in E|apply Qle_bool_false in E; left; lra].
  destruct (Qlt_le_dec x 0); [right|left]; lra.
Qed.

Lemma rnd_above0 x : (rnd x <= above0 x * (1 + u) + eta)%Q.
Proof.
  destruct Herr as (Hu & He & Hx). destruct (above0_spec x) as [[H E]|[H E]]; rewrite E; [by apply Hx|].
  assert (rnd x <= rnd 0)%Q by (apply rnd_mono; lra). pose proof rnd_zero. lra.
Qed.

(** The accrual at the rate the roundings can raise it to. *)
Definition swollen (ms : Z) : Q := (1 + u) * (1 + u) * (1 + u) * accrual l ms.

Lemma swollen_add a b : (swollen (a + b) == swollen a + swollen b)%Q.
Proof. unfold swollen. rewrite accrual_add. ring. Qed.

Lemma swollen_mono a b : a <= b -> (swollen a <= swollen b)%Q.
Proof.
  destruct Herr as (Hu & _). intros H. unfold swollen. rewrite !(Qmult_comm _ (accrual _ _)). apply Qmult_le_compat_r; [by apply accrual_mono|].
  apply Qmult_le_0_compat; [apply Qmult_le_0_compat|]; lra.
Qed.

Lemma swollen_nonneg a : 0 <= a -> (0 <= swollen a)%Q.
Proof. intros H%swollen_mono. unfold swollen in *. rewrite accrual_0 in H. lra. Qed.

(** What the bucket holds at [now], were nothing rounded but the rate. *)
Definition holds (existing : option BucketState) (now : Z) : Q :=
  match existing with
  | None => capacity l
  | Some st => js_min (capacity l) (above0 (tokens st) + swollen (Z.max 0 (now - updatedAt st)))
  end.

Lemma holds_nonneg existing now : (0 <= holds existing now)%Q.
Proof.
  destruct existing as [st|]; [|done]. cbn [holds]. pose proof (swollen_nonneg (Z.max 0 (now - updatedAt st)) ltac:(lia)).
  destruct (above0_spec (tokens st)) as [[? E]|[? E]];
    destruct (js_min_spec (capacity l) (above0 (tokens st) + swollen (Z.max 0 (now - updatedAt st)))) as [[? ->]|[? ->]]; lra.
Qed.

Lemma holds_cap existing now : (holds existing now <= capacity l)%Q.
Proof. destruct existing as [st|]; [|simpl; lra]. unfold holds. destruct (js_min_spec (capacity l) (above0 (tokens st) + swollen (Z.max 0 (now - updatedAt st)))) as [[? ->]|[? ->]]; lra. Qed.

Lemma holds_lipschitz existing t now : t <= now -> (holds existing now <= holds existing t + swollen (now - t))%Q.
Proof.
  intros Ht. pose proof (swollen_nonneg (now - t) ltac:(lia)) as H0. destruct existing as [st|]; [|simpl; lra]. unfold holds.
  set (a := Z.max 0 (now - updatedAt st)). set (b := Z.max 0 (t - updatedAt st)).
  assert (H1 : (swollen a <= swollen b + swollen (now - t))%Q) by (rewrite <- swollen_add; apply swollen_mono; unfold a, b; lia).
  destruct (js_min_spec (capacity l) (above0 (tokens st) + swollen a)) as [[? ->]|[? ->]],
    (js_min_spec (capacity l) (above0 (tokens st) + swollen b)) as [[? ->]|[? ->]]; lra.
Qed.

(** A check reads at most a rounding more than that. *)
Lemma refilled_holds existing now :
  (refilled l existing now <= holds existing now + u * capacity l + eta * (refillPerSecond l * (1 + u) * (1 + u) + (1 + u) + 1))%Q.
Proof.
  pose proof Herr as (Hu & He & Hx).
  assert (Hup : forall x, (0 <= x)%Q -> (0 <= u * x)%Q) by (intros; by apply Qmult_le_0_compat).
  assert (Hep : forall x, (0 <= x)%Q -> (0 <= eta * x)%Q) by (intros; by apply Qmult_le_0_compat).
  pose proof (Hup _ Hcap) as Huc. pose proof (Hup _ Hrate) as Hur. pose proof (Hup _ Hur) as Huur.
  assert (He1 : (0 <= eta * (refillPerSecond l * (1 + u) * (1 + u) + (1 + u) + 1))%Q) by (apply Hep; lra).
  destruct existing as [st|]; [|simpl; lra]. unfold refilled, refilledTokens, holds.
  set (ms := Z.max 0 (now - updatedAt st)). set (el := rnd (inject_Z ms / 1000)). set (er := rnd (el * refillPerSecond l)).
  assert (Hms : (0 <= inject_Z ms / 1000)%Q).
  { unfold Qdiv. apply Qmult_le_0_compat; [|done]. change 0%Q with (inject_Z 0). rewrite <- Zle_Qle. lia. }
  assert (Hel0 : (0 <= el)%Q) by (by apply rnd_nonneg). assert (Her0 : (0 <= er)%Q) by (by apply rnd_nonneg, Qmult_le_0_compat).
  assert (Hel : (el * refillPerSecond l <= (inject_Z ms / 1000 * (1 + u) + eta) * refillPerSecond l)%Q) by (apply Qmult_le_compat_r; [by apply Hx|done]).
  assert (Her : (er <= el * refillPerSecond l * (1 + u) + eta)%Q) by (by apply Hx, Qmult_le_0_compat).
  assert (Hel' : (el * refillPerSecond l * (1 + u) <= (inject_Z ms / 1000 * (1 + u) + eta) * refillPerSecond l * (1 + u))%Q)
    by (apply Qmult_le_compat_r; [done|lra]).
  assert (Her' : (er * (1 + u) <= ((inject_Z ms / 1000 * (1 + u) + eta) * refillPerSecond l * (1 + u) + eta) * (1 + u))%Q)
    by (apply Qmult_le_compat_r; lra).
  assert (Hab : (above0 (tokens st + er) <= above0 (tokens st) + er)%Q)
    by (destruct (above0_spec (tokens st + er)) as [[? ->]|[? ->]], (above0_spec (tokens st)) as [[? ->]|[? ->]]; lra).
  assert (Hab' : (above0 (tokens st + er) * (1 + u) <= (above0 (tokens st) + er) * (1 + u))%Q) by (apply Qmult_le_compat_r; lra).
  pose proof (rnd_above0 (tokens st + er)) as Hr.
  assert (Hsw : (swollen ms == inject_Z ms / 1000 * (1 + u) * refillPerSecond l * (1 + u) * (1 + u))%Q) by (unfold swollen, accrual; ring).
  pose proof (swollen_nonneg ms ltac:(unfold ms; lia)) as Hs0.
  assert (Hh : (js_min (capacity l) (above0 (tokens st) + swollen ms) == capacity l \/
    above0 (tokens st) + swollen ms <= capacity l /\ js_min (capacity l) (above0 (tokens st) + swollen ms) == above0 (tokens st) + swollen ms)%Q).
  { destruct (js_min_spec (capacity l) (above0 (tokens st) + swollen ms)) as [[? ->]|[? ->]]; [by left|right]. split; [lra|reflexivity]. }
  destruct Hh as [->|[Hle ->]].
  - destruct (js_min_spec (capacity l) (rnd (tokens st + er))) as [[? ->]|[? ->]]; lra.
  - assert (Hut : (u * above0 (tokens st) <= u * capacity l)%Q).
    { rewrite !(Qmult_comm u). apply Qmult_le_compat_r; [lra|done]. }
    assert (rnd (tokens st + er) <= above0 (tokens st) + swollen ms + u * capacity l + eta * (refillPerSecond l * (1 + u) * (1 + u) + (1 + u) + 1))%Q by (rewrite Hsw; lra).
    destruct (js_min_spec (capacity l) (rnd (tokens st + er))) as [[? ->]|[? ->]]; lra.
Qed.

Lemma swollen_0 : (swollen 0 == 0)%Q.
Proof. unfold swollen. rewrite accrual_0. ring. Qed.

Lemma holds_at_once x now : (holds (Some (mkBucket x now)) now <= above0 x)%Q.
Proof.
  unfold holds. cbn [tokens updatedAt]. replace (Z.max 0 (now - now)) with 0 by lia. pose proof swollen_0.
  destruct (js_min_spec (capacity l) (above0 x + swollen 0)) as [[? ->]|[? ->]]; lra.
Qed.

Lemma holds_written x now : (0 <= x)%Q -> (holds (Some (mkBucket x now)) now <= x)%Q.
Proof. intros Hx. pose proof (holds_at_once x now). destruct (above0_spec x) as [[? E]|[? _]]; lra. Qed.

(** One check, granted or denied, against what the bucket held. *)
Lemma spend_holds now cost existing :
  (0 <= cost)%Q ->
  (holds (Some (fst (spend l now cost existing))) now + (if allowed (snd (spend l now cost existing)) then cost else 0)
    <= holds existing now + drift l u eta)%Q.
Proof.
  intros Hcost. pose proof Herr as (Hu & He & Hx). pose proof (refilled_holds existing now) as HR. pose proof (holds_nonneg existing now) as H0.
  assert (Hc : (refilled l existing now <= capacity l)%Q) by (destruct existing; [apply refilled_le|simpl; lra]).
  assert (Huc : (0 <= u * capacity l)%Q) by (by apply Qmult_le_0_compat).
  assert (Hd : (0 <= eta * (refillPerSecond l * (1 + u) * (1 + u) + (1 + u) + 1))%Q).
  { pose proof (Qmult_le_0_compat _ _ Hu Hrate). pose proof (Qmult_le_0_compat _ _ Hu H). apply Qmult_le_0_compat; [done|]. lra. }
  unfold spend, drift. destruct (Qle_bool cost (refilled l existing now)) eqn:Ec; cbn [fst snd allowed].
  - apply Qle_bool_iff in Ec. set (rest := (refilled l existing now - cost)%Q) in *.
    assert (Hrest : (0 <= rest)%Q) by (unfold rest; lra). pose proof (holds_written (rnd rest) now (rnd_nonneg _ Hrest)) as HW.
    pose proof (Hx rest Hrest). assert (rest * u <= capacity l * u)%Q by (apply Qmult_le_compat_r; [unfold rest; lra|done]).
    unfold rest in *. lra.
  - destruct (above0_spec (refilled l existing now)) as [[Hp _]|[Hn _]].
    + pose proof (holds_written _ now Hp). lra.
    + pose proof (holds_at_once (refilled l existing now) now).
      destruct (above0_spec (refilled l existing now)) as [[? ?]|[_ ?]]; lra.
Qed.

Lemma granted_holds key es t T (m : gmap string BucketState) :
  forward t es -> ends_by T es -> t <= T ->
  (granted key es (snd (run_checks l es m)) <=
   holds (m !! key) t + swollen (T - t) + inject_Z (Z.of_nat (checks_of key es)) * drift l u eta)%Q.
Proof.
  revert t m. induction es as [|[[[now clock] k] cost] es IH]; intros t m Hf He HT.
  { change (0 <= holds (m !! key) t + swollen (T - t) + 0 * drift l u eta)%Q. pose proof (holds_nonneg (m !! key) t). pose proof (swollen_nonneg (T - t) ltac:(lia)). lra. }
  destruct Hf as (H1 & H2 & H3), He as (H4 & Hcost & H5). cbn [run_checks].
  unfold check, store_update, plain_store.
  assert (Hf' : forward now es).
  { destruct es as [|[[[n c] k'] co] es]; [done|]. simpl in *. destruct H3 as (? & ? & ?). split_and!; [lia|done..]. }
  assert (HA : (swollen (T - t) == swollen (now - t) + swollen (T - now))%Q) by (rewrite <- swollen_add; unfold swollen; f_equiv; f_equiv; lia).
  pose proof (holds_lipschitz (m !! key) t now H1) as HL. pose proof (spend_holds now cost (m !! k) Hcost) as HS.
  destruct (spend l now cost (m !! k)) as [b res]. cbn [fst snd] in HS.
  specialize (IH now (<[k := b]> m) Hf' H5 H4). destruct (run_checks l es (<[k := b]> m)) as [m2 rs]. cbn [snd granted] in *.
  unfold checks_of in *. cbn [List.filter fst snd]. destruct (String.eqb_spec k key) as [->|N]; cbn [andb length].
  - rewrite lookup_insert_eq in IH. rewrite Nat2Z.inj_succ, <- Z.add_1_l, inject_Z_plus, Qmult_plus_distr_l. change (inject_Z 1) with 1%Q.
    destruct (allowed res); lra.
  - rewrite lookup_insert_ne in IH by done. lra.
Qed.

(** The rows as the abstract store holds them. *)
Lemma rows_as_map (rows : list RateLimitRow) : exists m : gmap string BucketState, forall k, row_of k rows = m !! k.
Proof.
  exists (foldr (fun r m => <[r_key r := mkBucket (r_tokens r) (r_updated_at r)]> m) ∅ rows). intros k.
  induction rows as [|r rows IH]; [cbn [foldr]; by rewrite lookup_empty|]. unfold row_of in *. cbn [List.find foldr].
  destruct (String.eqb_spec (r_key r) k) as [->|N]; [by rewrite lookup_insert_eq|by rewrite lookup_insert_ne].
Qed.

(** C38: The limit, with the arithmetic rounded: over any run of checks between two instants,
    clocks not running backwards and costs not negative, what is granted to a key is at
    most the burst, plus what the rate accrues in between, plus a rounding error for each
    of the key's checks (none in exact arithmetic); for a limiter over any SQL table, and
    over its own empty in-memory store or an injected one its constructor accepts, as long
    as the hard cap sheds no throttled bucket. *)
Theorem rate_is_enforced key es t T :
  (rnd (capacity l) == capacity l)%Q -> forward t es -> ends_by T es -> t <= T ->
  let bound := (capacity l + (1 + u) * (1 + u) * (1 + u) * (inject_Z (T - t) / 1000 * refillPerSecond l) +
    inject_Z (Z.of_nat (checks_of key es)) * drift l u eta)%Q in
  (forall rows : list RateLimitRow, (granted key es (snd (run_checks l es rows)) <= bound)%Q) /\
  (forall clock injected s0, newRateLimiter l clock injected = Ok s0 -> buckets s0 = [] -> 1 <= maxBuckets (options s0) ->
     saturationCount (fst (run_checks l es s0)) = saturationCount s0 ->
     (granted key es (snd (run_checks l es s0)) <= bound)%Q).
Proof.
  intros Hc Hf He HT bound.
  assert (B : forall m : gmap string BucketState, (granted key es (snd (run_checks l es m)) <= bound)%Q).
  { intros m. pose proof (granted_holds key es t T m Hf He HT) as H. pose proof (holds_cap (m !! key) t). unfold swollen, accrual in H. unfold bound. lra. }
  split.
  - intros rows. destruct (rows_as_map rows) as [m Hm]. by rewrite (sql_store_refines l es rows m Hm).
  - intros clock injected s0 Hnew Hb Hm Hs. by rewrite (eviction_invisible l Hrate Hc clock injected s0 es t Hnew Hb Hm Hf Hs).
Qed.
End Enforced.

(** ** Exact arithmetic *)

(** No rounding: what the formulas compute on numbers small enough to be exact. *)
Definition exact : Rounding := {| rnd x := x |}.
#[export] Instance exact_laws : RoundingLaws (rounding := exact).
Proof. split; [done|reflexivity]. Qed.

Section Exact.
#[local] Existing Instance exact.
Context (l : Policy) (Hrate : (0 <= refillPerSecond l)%Q).

Lemma refilled_exact st now :
  refilled l (Some st) now = js_min (capacity l) (tokens st + accrual l (Z.max 0 (now - updatedAt st))).
Proof. reflexivity. Qed.

Lemma refilled_cap existing now : (refilled l existing now <= capacity l)%Q.
Proof.
  destruct existing as [st|]; [|simpl; lra]. rewrite refilled_exact.
  destruct (js_min_spec (capacity l) (tokens st + accrual l (Z.max 0 (now - updatedAt st)))) as [[? ->]|[? ->]]; lra.
Qed.

(** Fact: The announced wait is honest: a denied check that could ever succeed (its cost is
    within the capacity) succeeds at any instant from the announced wait on, if nothing
    spent the bucket in between; and a cost above the capacity is denied at every
    instant, though a finite wait is announced for it. *)
Theorem wait_is_honest now cost existing b res :
  (0 < refillPerSecond l)%Q -> spend l now cost existing = (b, res) -> allowed res = false ->
  exists ms, retryAfterMs res = Ms ms /\ 0 <= ms /\
    ((cost <= capacity l)%Q -> forall now', now + ms <= now' -> allowed (snd (spend l now' cost (Some b))) = true) /\
    ((capacity l < cost)%Q -> forall now' existing', allowed (snd (spend l now' cost existing')) = false).
Proof.
  intros Hr. unfold spend at 1. destruct (Qle_bool cost (refilled l existing now)) eqn:Ec; intros [= <- <-]; [done|].
  intros _. apply Qle_bool_false in Ec. simpl.
  assert (Hz : Qeq_bool (refillPerSecond l) 0 = false).
  { destruct (Qeq_bool _ _) eqn:E; [|done]. apply Qeq_bool_iff in E. lra. }
  rewrite Hz. set (t := refilled l existing now) in *.
  set (w := ((cost - t) / refillPerSecond l * 1000)%Q).
  assert (Hw : (0 < w)%Q).
  { unfold w. apply Qmult_lt_0_compat; [|done]. apply Qlt_shift_div_l; [done|]. lra. }
  exists (Qceiling w). split; [done|]. pose proof (Qle_ceiling w) as Hcw.
  assert (Hms : 0 <= Qceiling w).
  { rewrite Zle_Qle. change (inject_Z 0) with 0%Q. lra. }
  split; [done|]. split.
  - intros Hc now' Hn. unfold spend.
    assert (Hle : (cost <= refilled l (Some (mkBucket t now)) now')%Q).
    { rewrite refilled_exact. cbn [tokens updatedAt].
      assert (HA : (cost - t <= accrual l (Z.max 0 (now' - now)))%Q).
      { apply (Qle_trans _ (accrual l (Qceiling w))); [|apply accrual_mono; [done|lia]].
        unfold accrual. assert (E : (cost - t == w / 1000 * refillPerSecond l)%Q) by (unfold w; field; lra).
        rewrite E. apply Qmult_le_compat_r; [|lra]. unfold Qdiv. by apply Qmult_le_compat_r. }
      destruct (js_min_spec (capacity l) (t + accrual l (Z.max 0 (now' - now)))) as [[? ->]|[? ->]]; lra. }
    apply Qle_bool_iff in Hle. by rewrite Hle.
  - intros Hc now' existing'. unfold spend. pose proof (refilled_cap existing' now').
    destruct (Qle_bool cost (refilled l existing' now')) eqn:E; [|done]. apply Qle_bool_iff in E. lra.
Qed.

(** Fact: Sweeping rows idle for a full refill is invisible: deleting the rows older than
    [before], when [before] lies at least [capacity / refillPerSecond] seconds back,
    changes no verdict at any later instant. *)
Theorem sweep_is_invisible before now t key cost now' :
  (0 < refillPerSecond l)%Q ->
  (capacity l / refillPerSecond l * 1000 <= inject_Z (now - before))%Q -> now <= now' ->
  List.NoDup (map r_key t) -> (forall r, In r t -> (0 <= r_tokens r)%Q) ->
  spend l now' cost (row_of key (fst (sql_sweep before t))) = spend l now' cost (row_of key t).
Proof.
  intros Hr Hb Hn Hnd Htok.
  assert (Hrow : row_of key (fst (sql_sweep before t)) =
    match List.find (fun r => String.eqb (r_key r) key) t with
    | Some r => if r_updated_at r <? before then None else Some (mkBucket (r_tokens r) (r_updated_at r))
    | None => None end).
  { clear Htok Hb. unfold sql_sweep, delete_where, row_of. simpl. induction t as [|r t' IH]; simpl; [done|].
    inversion Hnd as [|? ? Hnin Hnd']; subst. specialize (IH Hnd').
    destruct (r_updated_at r <? before) eqn:Eb; simpl.
    - destruct (String.eqb_spec (r_key r) key) as [E|N]; [|exact IH]. rewrite Eb.
      destruct (List.find _ (List.filter _ t')) as [r'|] eqn:E'; [|done].
      apply List.find_some in E' as [Hin Hk%String.eqb_eq]. destruct Hnin.
      rewrite E, <- Hk. apply in_map. by eapply filter_sub.
    - destruct (String.eqb_spec (r_key r) key) as [E|N]; [by rewrite Eb|exact IH]. }
  rewrite Hrow. unfold row_of. destruct (List.find _ t) as [r|] eqn:Ef; simpl; [|done].
  destruct (r_updated_at r <? before) eqn:Eb; [|done]. apply Z.ltb_lt in Eb.
  apply List.find_some in Ef as [Hin _]. specialize (Htok r Hin).
  unfold spend. replace (refilled l (Some (mkBucket (r_tokens r) (r_updated_at r))) now') with (capacity l); [done|].
  rewrite refilled_exact. cbn [tokens updatedAt].
  assert (HA : (capacity l <= accrual l (Z.max 0 (now' - r_updated_at r)))%Q).
  { apply (Qle_trans _ (accrual l (now - before))); [|apply accrual_mono; [done|lia]].
    assert (E : (capacity l == capacity l / refillPerSecond l * 1000 / 1000 * refillPerSecond l)%Q) by (field; lra).
    rewrite E. unfold accrual. apply Qmult_le_compat_r; [|lra]. by apply Qmult_le_compat_r. }
  destruct (js_min_spec (capacity l) (r_tokens r + accrual l (Z.max 0 (now' - r_updated_at r)))) as [[? ->]|[? ->]];
    [done|lra].
Qed.
End Exact.

(** * The rate limiter at concrete runs *)
#[local] Open Scope string_scope.
#[local] Open Scope Z_scope.
#[local] Existing Instance exact.

(** A burst of two, one token a second. *)
Definition two_per_second : Policy := mkLimits 2 1.

(** [a] spends its burst and is denied; [b] peeks; [a] comes back after a second. *)
Definition traffic : list Request :=
  [(0, 0, "a", 1%Q); (10, 10, "a", 1%Q); (20, 20, "a", 1%Q); (30, 31, "b", 0%Q); (1500, 1500, "a", 1%Q)].

Lemma traffic_forward : forward 0 traffic.
Proof. unfold traffic. simpl. repeat split; lia. Defined.

Definition own_store : MemoryRateLimitStore :=
  mkMemoryStore (mkStoreOptions (Some 2%Q) (Some 1%Q) 10000 7) [] 0 false.

Lemma eviction_invisible_witness :
  newRateLimiter two_per_second 7 (Some own_store) = Ok own_store /\
  snd (run_checks two_per_second traffic own_store) =
  snd (run_checks two_per_second traffic (∅ : gmap string BucketState)).
Proof.
  split; [reflexivity|].
  apply (eviction_invisible two_per_second ltac:(discriminate) ltac:(reflexivity) 7 (Some own_store) own_store
    traffic 0); [reflexivity|reflexivity|simpl; lia|exact traffic_forward|vm_compute; reflexivity].
Defined.

Lemma memory_store_bounded_witness :
  store_ok own_store /\ store_ok (fst (run_checks two_per_second traffic own_store)).
Proof.
  assert (H : store_ok own_store) by (split; [constructor|simpl; lia]).
  split; [exact H|]. apply (memory_store_bounded two_per_second traffic own_store H).
Defined.

(** Three throttled buckets over a cap of two. *)
Definition crowded : MemoryRateLimitStore :=
  mkMemoryStore (mkStoreOptions (Some 2%Q) (Some 1%Q) 2 7)
    [("a", mkBucket 0 0); ("b", mkBucket 1 0); ("c", mkBucket 1 0)] 0 false.

Lemma evictToBound_spec_witness :
  List.NoDup (map fst (buckets crowded)) /\
  exists pre k st post, buckets crowded = (pre ++ (k, st) :: post)%list /\
    buckets (evictToBound 100 crowded) = (pre ++ post)%list.
Proof.
  assert (N : List.NoDup (map fst (buckets crowded))).
  { repeat constructor; simpl; intros H; intuition discriminate. }
  split; [exact N|].
  destruct (evictToBound_spec 100 crowded N ltac:(simpl; lia)) as (pre & k & st & post & H1 & H2 & _).
  exists pre, k, st, post. split; [exact H1|exact H2].
Defined.

Lemma sql_store_refines_witness :
  snd (run_checks two_per_second traffic ([] : list RateLimitRow)) =
  snd (run_checks two_per_second traffic (∅ : gmap string BucketState)).
Proof. apply (sql_store_refines two_per_second traffic [] ∅). intros k. by rewrite lookup_empty. Defined.

(** Rounding to the nearest multiple of 2^-40. *)
Definition grid : Rounding := {| rnd x := (inject_Z (Qfloor (x * 1099511627776 + (1 # 2))) / 1099511627776)%Q |}.

Lemma grid_laws : RoundingLaws (rounding := grid).
Proof.
  split; cbn [rnd grid]; [|vm_compute; reflexivity]. intros x y H. unfold Qdiv. apply Qmult_le_compat_r; [|done].
  rewrite <- Zle_Qle. apply Qfloor_resp_le. lra.
Qed.

Lemma grid_errs : errs_by (R := grid) 0 (1 # 2199023255552).
Proof.
  split; [done|]. split; [done|]. intros x _. cbn [rnd grid]. pose proof (Qfloor_le (x * 1099511627776 + (1 # 2))) as H.
  apply Qle_shift_div_r; [done|]. lra.
Qed.

(** Three tokens and a third of one a second. *)
Definition by_thirds : Policy := mkLimits 3 (1 # 3).

Lemma rate_is_enforced_witness :
  (granted "a" traffic (snd (run_checks (R := grid) by_thirds traffic [mkRateLimitRow "a" 2 (-7); mkRateLimitRow "b" 1 0])) <=
   3 + (inject_Z 1500 / 1000 * (1 # 3)) + 4 * (3334 # 1000) * (1 # 2199023255552))%Q.
Proof.
  destruct (rate_is_enforced (R := grid) (RL := grid_laws) by_thirds ltac:(discriminate) ltac:(discriminate) 0 (1 # 2199023255552) grid_errs "a" traffic 0 1500
    ltac:(vm_compute; reflexivity) traffic_forward ltac:(unfold traffic; simpl; repeat split; (lia || discriminate)) ltac:(lia)) as [H _].
  eapply Qle_trans; [apply H|]. vm_compute. discriminate.
Defined.

Lemma wait_is_honest_witness :
  exists ms, retryAfterMs (snd (spend two_per_second 20 1 (Some (mkBucket 0 10)))) = Ms ms /\ 0 <= ms.
Proof.
  destruct (wait_is_honest two_per_second ltac:(discriminate) 20 1 (Some (mkBucket 0 10)) _ _
    ltac:(reflexivity) eq_refl ltac:(reflexivity)) as (ms & H1 & H2 & _).
  exists ms. split; [exact H1|exact H2].
Defined.

Definition idle_rows : list RateLimitRow := [mkRateLimitRow "a" 0 100; mkRateLimitRow "b" 1 9000].

Lemma sweep_is_invisible_witness :
  fst (sql_sweep 5000 idle_rows) = [mkRateLimitRow "b" 1 9000] /\
  spend two_per_second 9500 1 (row_of "a" (fst (sql_sweep 5000 idle_rows))) =
  spend two_per_second 9500 1 (row_of "a" idle_rows).
Proof.
  split; [reflexivity|].
  apply (sweep_is_invisible two_per_second ltac:(discriminate) 5000 9000 idle_rows "a" 1 9500).
  - reflexivity.
  - discriminate.
  - lia.
  - repeat constructor; simpl; intros H; intuition discriminate.
  - intros r [<-|[<-|[]]]; discriminate.
Defined.
