(* ===== verification/Router.v ===== *)
(** * The router

    [packages/router/src]: compiling a path pattern ([compile.ts]), the route table and
    reverse routing ([table.ts]). The regular expression [compile] builds is kept as the
    list of the pieces its source is made of, with the matching of a JavaScript [RegExp]:
    greedy, backtracking, anchored at both ends. *)
From S2P Require Import Prelude JsString.
#[local] Open Scope string_scope.

Definition nonempty (s : string) : bool := match s with EmptyString => false | _ => true end.

(** ** Tokens *)

(** [[A-Za-z_]] and [[A-Za-z0-9_]]. *)
Definition ident_start (c : ascii) : bool :=
  let n := nat_of_ascii c in
  ((65 <=? n) && (n <=? 90) || (97 <=? n) && (n <=? 122) || (n =? 95))%nat.
Definition ident_char (c : ascii) : bool :=
  let n := nat_of_ascii c in ident_start c || ((48 <=? n) && (n <=? 57))%nat.

Definition starts_ident (s : string) : bool :=
  match s with String c _ => ident_start c | EmptyString => false end.

(** A match of [PARAM_TOKEN]: [:name], [*name] or [*name?]. *)
Inductive Token := Single (name : string) | Rest (name : string) (optional : bool).

(** The state of the scan: inside literal text, or inside a name. *)
Inductive Scan := InText (text : string) | InSingle (text name : string) | InRest (text name : string).

Definition snoc (s : string) (c : ascii) : string := String.append s (String c EmptyString).

(** Read [c] outside a name, [s] being what follows. *)
Definition text_step (text : string) (c : ascii) (s : string) : Scan :=
  if Ascii.eqb c ":" && starts_ident s then InSingle text EmptyString
  else if Ascii.eqb c "*" && starts_ident s then InRest text EmptyString
  else InText (snoc text c).

(** [pattern.matchAll(PARAM_TOKEN)]: each token with the text between it and the one
    before, and the text after the last. *)
Fixpoint scan (st : Scan) (s : string) : list (string * Token) * string :=
  match s with
  | EmptyString =>
      match st with
      | InText text => ([], text)
      | InSingle text name => ([(text, Single name)], EmptyString)
      | InRest text name => ([(text, Rest name false)], EmptyString)
      end
  | String c s' =>
      match st with
      | InText text => scan (text_step text c s') s'
      | InSingle text name =>
          if ident_char c then scan (InSingle text (snoc name c)) s'
          else let '(ts, trailing) := scan (text_step EmptyString c s') s' in
               ((text, Single name) :: ts, trailing)
      | InRest text name =>
          if ident_char c then scan (InRest text (snoc name c)) s'
          else if Ascii.eqb c "?"
          then let '(ts, trailing) := scan (InText EmptyString) s' in
               ((text, Rest name true) :: ts, trailing)
          else let '(ts, trailing) := scan (text_step EmptyString c s') s' in
               ((text, Rest name false) :: ts, trailing)
      end
  end.

Definition tokens (pattern : string) : list (string * Token) * string := scan (InText EmptyString) pattern.

(** ** Regular expressions *)

(** The pieces of a compiled source: an escaped literal, [([^/]+)], the catch-all capture
    [((?:[^/]+/)*[^/]+)], that capture followed by [?], and [(?:/CAPTURE)?]. *)
Inductive Piece := Lit (s : string) | Seg | CatchAll | OptCatchAll | OptSlashCatchAll.

Definition seg_ok (s : string) : bool := nonempty s && negb (has_char "/" s).
Definition run_ok (s : string) : bool := forallb nonempty (split "/" s).

(** Strip a literal. *)
Fixpoint strip (l s : string) : option string :=
  match l, s with
  | EmptyString, _ => Some s
  | String a l', String b s' => if Ascii.eqb a b then strip l' s' else None
  | _, _ => None
  end.

(** A greedy capture: the longest prefix of at most [n] characters that satisfies [ok] and
    lets the rest match. *)
Fixpoint greedy (ok : string -> bool) (k : string -> option (list (option string))) (n : nat)
    (s : string) : option (list (option string)) :=
  match n with
  | O => None
  | S n' =>
      let x := substring 0 n s in
      if ok x then match k (drop_chars n s) with
                   | Some caps => Some (Some x :: caps)
                   | None => greedy ok k n' s
                   end
      else greedy ok k n' s
  end.

(** [regExp.exec(path)]: the captures; an optional group that did not take part gives [None]. *)
Fixpoint exec (ps : list Piece) (s : string) : option (list (option string)) :=
  match ps with
  | [] => if nonempty s then None else Some []
  | Lit l :: ps' => match strip l s with Some s' => exec ps' s' | None => None end
  | Seg :: ps' => greedy seg_ok (exec ps') (String.length s) s
  | CatchAll :: ps' => greedy run_ok (exec ps') (String.length s) s
  | OptCatchAll :: ps' =>
      match greedy run_ok (exec ps') (String.length s) s with
      | Some caps => Some caps
      | None => cons None <$> exec ps' s
      end
  | OptSlashCatchAll :: ps' =>
      match (match s with
             | String c s' => if Ascii.eqb c "/" then greedy run_ok (exec ps') (String.length s') s' else None
             | EmptyString => None end) with
      | Some caps => Some caps
      | None => cons None <$> exec ps' s
      end
  end.

(** ** [compile] *)

(** The coded refusals, and the two plain errors the code can let escape. *)
Inductive RouterError :=
| ROUTER_CATCHALL_NOT_LAST
| ROUTER_AMBIGUOUS_SEGMENT (param : string)
| ROUTER_CATCHALL_NOT_SEGMENT (param : string)
| ROUTER_MALFORMED_PARAM (param raw : string)
| ROUTER_MISSING_PARAM (param : string)
| ROUTER_FILE_BAD_SEGMENT (segment : string)
| ROUTER_FILE_CATCHALL_POSITION (segment : string)
| ROUTER_FILE_DUPLICATE_ROUTE (shape : string)
| ROUTER_FILE_DUPLICATE_PARAM (param : string)
| ROUTER_FILE_ORPHAN_MIDDLEWARE (dir : string)
| URI_ERROR
| TYPE_ERROR.

Record CompiledPattern := mkCompiled {
  regExp : list Piece;
  paramNames : list string;
  catchAllParams : list string
}.

Definition ends_with_slash (s : string) : bool :=
  String.eqb (drop_chars (String.length s - 1) s) "/".

(** [s.slice(0, -1)]. *)
Definition chop (s : string) : string := substring 0 (String.length s - 1) s.

(** The loop over the tokens, from one on. *)
Fixpoint compile_loop (ts : list (string * Token)) (trailing : string) (sawParam sawCatchAll : bool)
    : outcome RouterError CompiledPattern :=
  match ts with
  | [] =>
      if sawCatchAll && nonempty trailing then Throw ROUTER_CATCHALL_NOT_LAST
      else Ok (mkCompiled [Lit trailing] [] [])
  | (between, token) :: ts' =>
      if sawCatchAll then Throw ROUTER_CATCHALL_NOT_LAST
      else
        match token with
        | Single name =>
            if sawParam && negb (has_char "/" between) then Throw (ROUTER_AMBIGUOUS_SEGMENT name)
            else
              let! c := compile_loop ts' trailing true sawCatchAll in
              Ok (mkCompiled (Lit between :: Seg :: regExp c) (name :: paramNames c) (catchAllParams c))
        | Rest name optional =>
            if negb (ends_with_slash between) then Throw (ROUTER_CATCHALL_NOT_SEGMENT name)
            else
              let! c := compile_loop ts' trailing true true in
              let source :=
                if optional then
                  if String.eqb between "/" then [Lit "/"; OptCatchAll]
                  else [Lit (chop between); OptSlashCatchAll]
                else [Lit between; CatchAll] in
              Ok (mkCompiled (source ++ regExp c)%list (name :: paramNames c) (name :: catchAllParams c))
        end
  end.

Definition compile (pattern : string) : outcome RouterError CompiledPattern :=
  let '(ts, trailing) := tokens pattern in compile_loop ts trailing false false.

(** ** The route table *)

(** A captured param: a string, or the run of segments of a catch-all. *)
Inductive Param := One (v : string) | Many (vs : list string).

(** [encodeURIComponent] and [decodeURIComponent]; [None] where they throw a URIError. *)
Class UriCodec := {
  encodeURIComponent : string -> option string;
  decodeURIComponent : string -> option string
}.

(** What they guarantee: encoding is undone by decoding, escapes every slash, and empties
    nothing. *)
Class UriLaws `{uri : !UriCodec} : Prop := {
  decode_encode v e : encodeURIComponent v = Some e -> decodeURIComponent e = Some v;
  encode_no_slash v e : encodeURIComponent v = Some e -> has_char "/" e = false;
  encode_nonempty v e : encodeURIComponent v = Some e -> v <> EmptyString -> e <> EmptyString
}.

Section Table.
Context `{uri : !UriCodec} {T : Type}.

Record Entry := mkEntry {
  e_method : string; e_pattern : string; e_compiled : CompiledPattern; e_value : T
}.

Definition Match : Type := T * gmap string Param.

Definition decodeParam (paramName raw : string) : outcome RouterError string :=
  match decodeURIComponent raw with
  | Some v => Ok v
  | None => Throw (ROUTER_MALFORMED_PARAM paramName raw)
  end.

Fixpoint decodeAll (paramName : string) (raws : list string) : outcome RouterError (list string) :=
  match raws with
  | [] => Ok []
  | raw :: raws' =>
      let! v := decodeParam paramName raw in
      let! vs := decodeAll paramName raws' in
      Ok (v :: vs)
  end.

(** The value of one param from its capture. *)
Definition param_value (catchAlls : list string) (paramName : string) (raw : option string)
    : outcome RouterError Param :=
  if existsb (String.eqb paramName) catchAlls then
    match raw with
    | None => Ok (Many [])
    | Some raw => let! vs := decodeAll paramName (split "/" raw) in Ok (Many vs)
    end
  else let! v := decodeParam paramName (default "undefined" raw) in Ok (One v).

(** The [forEach] over the param names, aligned with the captures. *)
Fixpoint read_params (catchAlls : list string) (names : list string) (caps : list (option string))
    (params : gmap string Param) : outcome RouterError (gmap string Param) :=
  match names with
  | [] => Ok params
  | name :: names' =>
      let! v := param_value catchAlls name (match caps with c :: _ => c | [] => None end) in
      read_params catchAlls names' (tl caps) (<[name := v]> params)
  end.

Definition add (method pattern : string) (value : T) (entries : list Entry)
    : outcome RouterError (list Entry) :=
  let! c := compile pattern in Ok (entries ++ [mkEntry method pattern c value])%list.

Fixpoint match_route (method path : string) (entries : list Entry)
    : outcome RouterError (option Match) :=
  match entries with
  | [] => Ok None
  | e :: entries' =>
      if negb (String.eqb (e_method e) method) then match_route method path entries'
      else
        match exec (regExp (e_compiled e)) path with
        | None => match_route method path entries'
        | Some caps =>
            let! params := read_params (catchAllParams (e_compiled e)) (paramNames (e_compiled e)) caps ∅ in
            Ok (Some (e_value e, params))
        end
  end.

Fixpoint allowed_loop (path : string) (entries : list Entry) (methods : list string) : list string :=
  match entries with
  | [] => methods
  | e :: entries' =>
      match exec (regExp (e_compiled e)) path with
      | None => allowed_loop path entries' methods
      | Some _ =>
          allowed_loop path entries'
            (if existsb (String.eqb (e_method e)) methods then methods else (methods ++ [e_method e])%list)
      end
  end.

Definition allowedMethods (path : string) (entries : list Entry) : list string := allowed_loop path entries [].

Definition list_routes (entries : list Entry) : list (string * string) :=
  map (fun e => (e_method e, e_pattern e)) entries.

(** ** Reverse routing *)

Definition encode (s : string) : outcome RouterError string :=
  match encodeURIComponent s with Some e => Ok e | None => Throw URI_ERROR end.

Fixpoint encodeAll (l : list string) : outcome RouterError (list string) :=
  match l with
  | [] => Ok []
  | s :: l' => let! e := encode s in let! es := encodeAll l' in Ok (e :: es)
  end.

(** What one token contributes to the path. *)
Definition token_path (params : gmap string Param) (between : string) (token : Token)
    : outcome RouterError string :=
  match token with
  | Single name =>
      match params !! name with
      | Some (One v) =>
          if nonempty v then let! e := encode v in Ok (String.append between e)
          else Throw (ROUTER_MISSING_PARAM name)
      | _ => Throw (ROUTER_MISSING_PARAM name)
      end
  | Rest name optional =>
      match params !! name with
      | Some (Many []) =>
          if optional then Ok (if String.eqb between "/" then "/" else chop between)
          else Throw (ROUTER_MISSING_PARAM name)
      | Some (Many vs) =>
          if existsb (fun v => negb (nonempty v)) vs then Throw (ROUTER_MISSING_PARAM name)
          else let! es := encodeAll vs in Ok (String.append between (join "/" es))
      | _ => Throw (ROUTER_MISSING_PARAM name)
      end
  end.

Fixpoint path_loop (params : gmap string Param) (ts : list (string * Token)) (trailing : string)
    : outcome RouterError string :=
  match ts with
  | [] => Ok trailing
  | (between, token) :: ts' =>
      let! p := token_path params between token in
      let! rest := path_loop params ts' trailing in
      Ok (String.append p rest)
  end.

Definition pathFor (pattern : string) (params : gmap string Param) : outcome RouterError string :=
  let '(ts, trailing) := tokens pattern in path_loop params ts trailing.
End Table.
Arguments Entry T : clear implicits.

Example tokens_mixed :
  tokens "/u/:id.json/x*/:n/*rest?" =
  ([("/u/", Single "id"); (".json/x*/", Single "n"); ("/", Rest "rest" true)], EmptyString).
Proof. reflexivity. Qed.

Example exec_backtracks : exec [Lit "/files/"; Seg; Lit ".json"] "/files/a.json.json" = Some [Some "a.json"].
Proof. reflexivity. Qed.
