(* ===== verification/RouterProps.v ===== *)
(** * The router: correctness

    The matcher finds a match exactly when the path fits the pattern, and the fit is
    unique for every pattern [compile] accepts; reverse routing and matching are
    inverse; the table answers with the first route that fits. *)
From S2P Require Import Prelude JsString Router.
#[local] Open Scope string_scope.

(** ** Strings *)

Lemma substring_drop n s : String.append (substring 0 n s) (drop_chars n s) = s.
Proof.
  revert s. induction n as [|n IH]; intros [|c s]; simpl; try done. by rewrite IH.
Qed.

Lemma substring_app_exact a b : substring 0 (String.length a) (String.append a b) = a.
Proof. rewrite substring_app by done. apply substring_all. Qed.

Lemma drop_app_exact a b : drop_chars (String.length a) (String.append a b) = b.
Proof. induction a as [|c a IH]; simpl; [by destruct b|done]. Qed.

Lemma append_inj_l a b c : String.append a b = String.append a c -> b = c.
Proof. induction a as [|x a IH]; simpl; [done|]. intros [= H]. auto. Qed.

Lemma append_inj_r a b c : String.append a c = String.append b c -> a = b.
Proof.
  intros H. rewrite <- (substring_app_exact a c), <- (substring_app_exact b c).
  rewrite H. f_equal. apply (f_equal String.length) in H. rewrite !length_append in H. lia.
Qed.

Lemma strip_app l s : strip l (String.append l s) = Some s.
Proof. induction l as [|c l IH]; simpl; [done|]. by rewrite Ascii.eqb_refl. Qed.

Lemma strip_Some l s s' : strip l s = Some s' <-> s = String.append l s'.
Proof.
  split; [|intros ->; apply strip_app]. revert s.
  induction l as [|c l IH]; intros s; simpl; [by intros [= ->]|].
  destruct s as [|d s]; [done|]. destruct (Ascii.eqb_spec c d) as [->|]; [|done].
  intros H%IH. by subst.
Qed.

Lemma nonempty_false s : nonempty s = false <-> s = EmptyString.
Proof. by destruct s. Qed.

(** The text up to the first slash. *)
Fixpoint upto (s : string) : string :=
  match s with
  | EmptyString => EmptyString
  | String c s' => if Ascii.eqb c "/" then EmptyString else String c (upto s')
  end.

Lemma upto_app x s : has_char "/" x = false -> upto (String.append x s) = String.append x (upto s).
Proof. induction x as [|c x IH]; simpl; [done|]. intros [E H]%orb_false_iff. by rewrite E, IH. Qed.

Lemma upto_slash b s : has_char "/" b = true -> upto (String.append b s) = upto b.
Proof.
  induction b as [|c b IH]; simpl; [done|]. destruct (Ascii.eqb c "/"); simpl; [done|].
  intros H. by rewrite IH.
Qed.

Lemma upto_none x : has_char "/" x = false -> upto x = x.
Proof. induction x as [|c x IH]; simpl; [done|]. intros [E H]%orb_false_iff. by rewrite E, IH. Qed.

Lemma has_slash_snoc b : ends_with_slash b = true -> b = String.append (chop b) "/".
Proof.
  unfold ends_with_slash, chop. intros H%String.eqb_eq.
  rewrite <- H. symmetry. apply substring_drop.
Qed.

(** ** Matching *)

(** The path [s] is the pieces with [caps] in the place of the captures. *)
Fixpoint fits (ps : list Piece) (caps : list (option string)) (s : string) : Prop :=
  match ps with
  | [] => caps = [] /\ s = EmptyString
  | Lit l :: ps' => exists s', s = String.append l s' /\ fits ps' caps s'
  | Seg :: ps' =>
      exists x caps' s', caps = Some x :: caps' /\ seg_ok x = true /\ s = String.append x s' /\ fits ps' caps' s'
  | CatchAll :: ps' =>
      exists x caps' s', caps = Some x :: caps' /\ run_ok x = true /\ s = String.append x s' /\ fits ps' caps' s'
  | OptCatchAll :: ps' =>
      (exists x caps' s', caps = Some x :: caps' /\ run_ok x = true /\ s = String.append x s' /\ fits ps' caps' s') \/
      (exists caps', caps = None :: caps' /\ fits ps' caps' s)
  | OptSlashCatchAll :: ps' =>
      (exists x caps' s', caps = Some x :: caps' /\ run_ok x = true /\
         s = String.append "/" (String.append x s') /\ fits ps' caps' s') \/
      (exists caps', caps = None :: caps' /\ fits ps' caps' s)
  end.

Lemma greedy_sound ok k n s caps :
  greedy ok k n s = Some caps ->
  exists x caps' s', caps = Some x :: caps' /\ ok x = true /\ s = String.append x s' /\ k s' = Some caps'.
Proof.
  induction n as [|n IH]; cbn [greedy]; [done|].
  destruct (ok (substring 0 (S n) s)) eqn:E; [|done].
  destruct (k (drop_chars (S n) s)) as [caps'|] eqn:Ek; [|done]. intros [= <-].
  exists (substring 0 (S n) s), caps', (drop_chars (S n) s). split_and!; [done|done|by rewrite substring_drop|done].
Qed.

Lemma greedy_complete ok k x s :
  ok x = true -> ok EmptyString = false -> is_Some (k s) ->
  forall n, (String.length x <= n)%nat -> is_Some (greedy ok k n (String.append x s)).
Proof.
  intros Hx H0 Hk n. induction n as [|n IH]; intros Hn.
  - destruct x; [congruence|simpl in Hn; lia].
  - cbn [greedy]. destruct (decide (String.length x = S n)) as [E|N].
    + rewrite <- E, substring_app_exact, drop_app_exact, Hx. destruct Hk as [c ->]. eauto.
    + destruct (ok (substring 0 (S n) _)); [destruct (k (drop_chars (S n) _)); [eauto|]|]; apply IH; lia.
Qed.

(** The matcher and the fit agree. *)
Lemma exec_sound ps s caps : exec ps s = Some caps -> fits ps caps s.
Proof.
  revert s caps. induction ps as [|p ps IH]; intros s caps; [simpl; destruct s; [by intros [= <-]|done]|].
  destruct p as [l| | | |]; cbn [exec fits].
  - destruct (strip l s) as [s'|] eqn:E; [|done]. intros H. exists s'. split; [by apply strip_Some|auto].
  - intros (x & c & s' & -> & Ho & -> & Hk)%greedy_sound. exists x, c, s'. auto.
  - intros (x & c & s' & -> & Ho & -> & Hk)%greedy_sound. exists x, c, s'. auto.
  - destruct (greedy _ _ _ _) as [g|] eqn:E.
    + intros [= <-]. apply greedy_sound in E as (x & c & s' & -> & Ho & -> & Hk). left. exists x, c, s'. auto.
    + destruct (exec ps s) as [c|] eqn:Ec; [|done]. intros [= <-]. right. eauto.
  - destruct (match s with String _ _ => _ | EmptyString => None end) as [g|] eqn:E.
    + intros [= <-]. destruct s as [|a s]; [done|]. destruct (Ascii.eqb_spec a "/") as [->|]; [|done].
      apply greedy_sound in E as (x & c & s' & -> & Ho & -> & Hk). left. exists x, c, s'. auto.
    + destruct (exec ps s) as [c|] eqn:Ec; [|done]. intros [= <-]. right. eauto.
Qed.

Lemma exec_complete ps s caps : fits ps caps s -> is_Some (exec ps s).
Proof.
  revert s caps. induction ps as [|p ps IH]; intros s caps; [by intros [-> ->]; eexists|].
  assert (G : forall ok x s' c, ok x = true -> ok EmptyString = false -> fits ps c s' ->
    is_Some (greedy ok (exec ps) (String.length (String.append x s')) (String.append x s'))).
  { intros ok x s' c Hx H0 Hf. apply greedy_complete; [done|done|by eapply IH|].
    rewrite length_append. lia. }
  destruct p as [l| | | |]; cbn [exec fits].
  - intros (s' & -> & H). rewrite strip_app. by eapply IH.
  - intros (x & c & s' & -> & Ho & -> & Hk). by eapply G.
  - intros (x & c & s' & -> & Ho & -> & Hk). by eapply G.
  - intros [(x & c & s' & -> & Ho & -> & Hk)|(c & -> & Hk)].
    + destruct (G run_ok x s' c Ho eq_refl Hk) as [g ->]. eauto.
    + destruct (greedy _ _ _ _); [eauto|]. destruct (IH _ _ Hk) as [g ->]. eauto.
  - intros [(x & c & s' & -> & Ho & -> & Hk)|(c & -> & Hk)].
    + cbn [String.append]. rewrite Ascii.eqb_refl.
      destruct (G run_ok x s' c Ho eq_refl Hk) as [g ->]. eauto.
    + destruct (match s with String _ _ => _ | EmptyString => None end); [eauto|].
      destruct (IH _ _ Hk) as [g ->]. eauto.
Qed.

(** ** What [compile] accepts is unambiguous *)

(** After a catch-all, nothing. *)
Lemma compile_after_catchall ts trailing c :
  compile_loop ts trailing true true = Ok c -> ts = [] /\ trailing = EmptyString /\ regExp c = [Lit EmptyString].
Proof.
  destruct ts as [|[b t] ts]; simpl; [|done]. destruct trailing; simpl; [by intros [= <-]|done].
Qed.

(** The text up to the next slash that follows a capture is fixed by the pattern. *)
Lemma upto_fixed ts trailing sc c caps caps' s s' :
  compile_loop ts trailing true sc = Ok c -> fits (regExp c) caps s -> fits (regExp c) caps' s' ->
  upto s = upto s'.
Proof.
  assert (Hb : forall b t t', has_char "/" b = true -> upto (String.append b t) = upto (String.append b t')).
  { intros b t t' Hb. by rewrite !upto_slash. }
  destruct ts as [|[b [name|name opt]] ts]; cbn [compile_loop].
  - destruct (_ && _); [done|]. intros [= <-]. simpl.
    intros (t & -> & _ & ->) (t' & -> & _ & ->). done.
  - destruct sc; [done|]. destruct (has_char "/" b) eqn:Eb; [|done]. simpl.
    destruct (compile_loop ts trailing true false); [|done]. intros [= <-]. simpl.
    intros (t & -> & _) (t' & -> & _). by apply Hb.
  - destruct sc; [done|]. destruct (ends_with_slash b) eqn:Es; [|done]. simpl.
    destruct (compile_loop ts trailing true true) as [c'|] eqn:Ec; [|done].
    apply compile_after_catchall in Ec as (-> & -> & Er). intros [= <-]. cbn [regExp]. rewrite Er.
    pose proof (has_slash_snoc b Es) as Eb.
    destruct opt; [destruct (String.eqb_spec b "/") as [->|N]|]; cbn [app fits].
    + intros (t & -> & _) (t' & -> & _). by apply Hb.
    + assert (T : forall t cs, ((exists x caps' s', cs = Some x :: caps' /\ run_ok x = true /\
          t = String.append "/" (String.append x s') /\ exists s'', s' = String.append EmptyString s'' /\ caps' = [] /\ s'' = EmptyString) \/
        (exists caps', cs = None :: caps' /\ exists s'', t = String.append EmptyString s'' /\ caps' = [] /\ s'' = EmptyString)) ->
        t = EmptyString \/ exists t0, t = String "/" t0).
      { intros t cs [(x & c1 & s1 & _ & _ & -> & _)|(c1 & _ & s1 & -> & _ & ->)]; [right|by left].
        eexists. reflexivity. }
      intros (t & -> & Ht) (t' & -> & Ht'). apply T in Ht, Ht'.
      destruct (has_char "/" (chop b)) eqn:Ech; [by apply Hb|].
      rewrite !upto_app by done.
      destruct Ht as [->|[t0 ->]], Ht' as [->|[t0' ->]]; done.
    + intros (t & -> & _) (t' & -> & _). apply Hb. rewrite Eb, has_char_app. apply orb_true_r.
Qed.

(** A path fits a pattern in one way at most. *)
Lemma fits_unique ts trailing sp sc c caps caps' s :
  compile_loop ts trailing sp sc = Ok c -> fits (regExp c) caps s -> fits (regExp c) caps' s -> caps = caps'.
Proof.
  revert sp sc c caps caps' s.
  induction ts as [|[b [name|name opt]] ts IH]; cbn [compile_loop]; intros sp sc c caps caps' s.
  - destruct (_ && _); [done|]. intros [= <-]. simpl.
    intros (t & -> & -> & ->) (t' & _ & -> & _). done.
  - destruct sc; [done|]. destruct (sp && _); [done|].
    destruct (compile_loop ts trailing true false) as [c'|] eqn:Ec; [|done]. simpl. intros [= <-]. cbn [regExp fits].
    intros (t & -> & x & c1 & s1 & -> & Hx & -> & H1) (t' & Et & x' & c2 & s2 & -> & Hx' & -> & H2).
    apply append_inj_l in Et. unfold seg_ok in Hx, Hx'.
    apply andb_true_iff in Hx as [_ Hx], Hx' as [_ Hx']. apply negb_true_iff in Hx, Hx'.
    pose proof (f_equal upto Et) as Eu. rewrite !upto_app in Eu by done.
    rewrite (upto_fixed _ _ _ _ _ _ _ _ Ec H1 H2) in Eu. apply append_inj_r in Eu as <-.
    apply append_inj_l in Et as <-. f_equal. by eapply IH.
  - destruct sc; [done|]. destruct (negb _); [done|].
    destruct (compile_loop ts trailing true true) as [c'|] eqn:Ec; [|done].
    apply compile_after_catchall in Ec as (-> & -> & Er). simpl. intros [= <-]. cbn [regExp]. rewrite Er.
    destruct opt; [destruct (String.eqb b "/")|]; cbn [app fits]; simpl.
    + intros (t & -> & [(x & c1 & s1 & -> & Hx & -> & s2 & -> & -> & ->)|(c1 & -> & s2 & -> & -> & ->)])
        (t' & Et & [(x' & c1' & s1' & -> & Hx' & -> & s2' & -> & -> & ->)|(c1' & -> & s2' & -> & -> & ->)]);
        try (injection Et as Et); rewrite ?append_nil_r in Et; subst; done.
    + intros (t & -> & [(x & c1 & s1 & -> & Hx & -> & s2 & -> & -> & ->)|(c1 & -> & s2 & -> & -> & ->)])
        (t' & Et & [(x' & c1' & s1' & -> & Hx' & -> & s2' & -> & -> & ->)|(c1' & -> & s2' & -> & -> & ->)]);
        apply append_inj_l in Et; simpl in Et; try done.
      injection Et as Et. rewrite ?append_nil_r in Et. by subst.
    + intros (t & -> & x & c1 & s1 & -> & Hx & -> & s2 & -> & -> & ->)
        (t' & Et & x' & c1' & s1' & -> & Hx' & -> & s2' & -> & -> & ->).
      apply append_inj_l in Et. simpl in Et. rewrite ?append_nil_r in Et. by subst.
Qed.

Lemma exec_iff_fits ts trailing c path caps :
  compile_loop ts trailing false false = Ok c ->
  exec (regExp c) path = Some caps <-> fits (regExp c) caps path.
Proof.
  intros Hc. split; [apply exec_sound|]. intros H.
  destruct (exec_complete _ _ _ H) as [caps' E]. rewrite E.
  f_equal. apply exec_sound in E. by eapply fits_unique.
Qed.

(** ** What a pattern stands for

    Read off the pattern's own text, without the compiled form. *)

Definition token_text (t : Token) : string :=
  match t with
  | Single name => String ":" name
  | Rest name optional => String "*" (String.append name (if optional then "?" else EmptyString))
  end.

(** The pattern that has these tokens. *)
Fixpoint spelled (ts : list (string * Token)) (trailing : string) : string :=
  match ts with
  | [] => trailing
  | (between, t) :: ts' => String.append between (String.append (token_text t) (spelled ts' trailing))
  end.

(** A segment of a path. *)
Definition segment (s : string) : Prop := s <> EmptyString /\ has_char "/" s = false.

(** The path [s] is the pattern with a segment for each param and a run of segments for a
    catch-all. An optional one may have no segment at all: then the slash before it goes
    too, unless it is the whole path. *)
Fixpoint stands_for (first : bool) (ts : list (string * Token)) (trailing : string) (caps : list (option string)) (s : string) : Prop :=
  match ts with
  | [] => caps = [] /\ s = trailing
  | (between, Single _) :: ts' =>
      exists x caps' s', caps = Some x :: caps' /\ segment x /\ s = String.append between (String.append x s') /\
        stands_for false ts' trailing caps' s'
  | (between, Rest _ optional) :: ts' =>
      exists segs caps' s', stands_for false ts' trailing caps' s' /\
        (segs <> [] /\ Forall segment segs /\ caps = Some (join "/" segs) :: caps' /\ s = String.append between (String.append (join "/" segs) s') \/
         optional = true /\ segs = [] /\ caps = None :: caps' /\
           s = String.append (if first && String.eqb between "/" then "/" else chop between) s')
  end.

(** An optional catch-all that directly follows a param. *)
Fixpoint after_param (first : bool) (ts : list (string * Token)) : bool :=
  match ts with
  | [] => false
  | (between, Rest _ true) :: ts' => negb first && String.eqb between "/" || after_param false ts'
  | _ :: ts' => after_param false ts'
  end.

(** What a scan still owes. *)
Definition pending (st : Scan) : string :=
  match st with
  | InText text => text
  | InSingle text name => String.append text (String ":" name)
  | InRest text name => String.append text (String "*" name)
  end.

Lemma pending_text text c s : pending (text_step text c s) = snoc text c.
Proof.
  unfold text_step, snoc. destruct (Ascii.eqb c ":" && starts_ident s) eqn:E1.
  { apply andb_true_iff in E1 as [->%Ascii.eqb_eq _]. done. }
  destruct (Ascii.eqb c "*" && starts_ident s) eqn:E2; [|done].
  apply andb_true_iff in E2 as [->%Ascii.eqb_eq _]. done.
Qed.

Lemma scan_spelled st s : spelled (scan st s).1 (scan st s).2 = String.append (pending st) s.
Proof.
  revert st. induction s as [|c s IH]; intros st; cbn [scan].
  - destruct st as [text|text name|text name]; cbn [fst snd spelled token_text pending]; rewrite ?append_nil_r; done.
  - assert (forall text n, String.append (String.append text (snoc n c)) s = String.append (String.append text n) (String c s)) as Sn
      by (intros; unfold snoc; by rewrite !append_assoc).
    destruct st as [text|text name|text name]; [rewrite IH, pending_text; unfold snoc; by rewrite append_assoc| |].
    + destruct (ident_char c); [rewrite IH; cbn [pending]; apply (Sn text (String ":" name))|].
      specialize (IH (text_step EmptyString c s)). rewrite pending_text in IH. destruct (scan _ s) as [ts trailing]. cbn [fst snd spelled token_text] in *.
      rewrite IH. cbn [pending]. by rewrite !append_assoc.
    + destruct (ident_char c); [rewrite IH; cbn [pending]; apply (Sn text (String "*" name))|].
      destruct (Ascii.eqb_spec c "?") as [->|].
      * specialize (IH (InText EmptyString)). destruct (scan _ s) as [ts trailing]. cbn [fst snd spelled token_text pending] in *.
        rewrite IH. cbn [String.append]. rewrite !append_assoc. cbn [String.append]. by rewrite ?append_assoc.
      * specialize (IH (text_step EmptyString c s)). rewrite pending_text in IH. destruct (scan _ s) as [ts trailing]. cbn [fst snd spelled token_text] in *.
        rewrite IH. cbn [pending]. by rewrite append_nil_r, !append_assoc.
Qed.

(** No token begins inside [text] where [rest] comes after it. *)
Fixpoint open_text (text rest : string) : Prop :=
  match text with
  | EmptyString => True
  | String c text' =>
      ((c = ":"%char \/ c = "*"%char) -> starts_ident (String.append text' rest) = false) /\ open_text text' rest
  end.

Definition stops (ok : ascii -> bool) (rest : string) : Prop :=
  match rest with String c _ => ok c = false | EmptyString => True end.

(** A whole name: [[A-Za-z_][A-Za-z0-9_]*], as long as the text goes on with it. *)
Definition whole_name (name rest : string) : Prop :=
  starts_ident name = true /\ all_chars ident_char name = true /\ stops ident_char rest.

(** The tokens are those of the pattern: each is whole, an optional mark belongs to it, and
    between them nothing begins one. *)
Fixpoint read_off (ts : list (string * Token)) (trailing : string) : Prop :=
  match ts with
  | [] => open_text trailing EmptyString
  | (between, t) :: ts' =>
      let rest := spelled ts' trailing in
      open_text between (String.append (token_text t) rest) /\
      match t with
      | Single name => whole_name name rest
      | Rest name false => whole_name name rest /\ stops (Ascii.eqb "?") rest
      | Rest name true => whole_name name EmptyString
      end /\
      read_off ts' trailing
  end.

Lemma open_text_snoc text c rest :
  open_text text (String c rest) -> ((c = ":"%char \/ c = "*"%char) -> starts_ident rest = false) -> open_text (snoc text c) rest.
Proof.
  unfold snoc. induction text as [|d text IH]; cbn [open_text String.append]; [done|]. intros [H Ho] Hc. rewrite append_assoc. auto.
Qed.

(** What a state of the scan has read. *)
Definition reading (st : Scan) (s : string) : Prop :=
  match st with
  | InText text => open_text text s
  | InSingle text name => open_text text (String ":" (String.append name s)) /\ all_chars ident_char name = true /\ starts_ident (String.append name s) = true
  | InRest text name => open_text text (String "*" (String.append name s)) /\ all_chars ident_char name = true /\ starts_ident (String.append name s) = true
  end.

Lemma text_step_reading text c s : open_text text (String c s) -> reading (text_step text c s) s.
Proof.
  intros H. unfold text_step. destruct (Ascii.eqb c ":" && starts_ident s) eqn:E1.
  { apply andb_true_iff in E1 as [->%Ascii.eqb_eq E]. done. }
  destruct (Ascii.eqb c "*" && starts_ident s) eqn:E2.
  { apply andb_true_iff in E2 as [->%Ascii.eqb_eq E]. done. }
  apply open_text_snoc; [done|]. intros [->| ->]; [exact E1|exact E2].
Qed.

Lemma name_read name s :
  all_chars ident_char name = true -> starts_ident (String.append name s) = true -> stops ident_char s -> whole_name name s.
Proof.
  intros Ha Hs Hn. split; [|done]. destruct name as [|c name]; [|done]. destruct s as [|c s]; [done|].
  cbn in *. unfold ident_char in Hn. by rewrite Hs in Hn.
Qed.

Lemma all_chars_snoc p name c : all_chars p name = true -> p c = true -> all_chars p (snoc name c) = true.
Proof. intros H Hc. unfold snoc. rewrite all_chars_app, H. cbn. by rewrite Hc. Qed.

Lemma scan_reads st s : reading st s -> read_off (scan st s).1 (scan st s).2.
Proof.
  revert st. induction s as [|c s IH]; intros st R; cbn [scan].
  { destruct st as [text|text name|text name]; cbn [fst snd read_off reading spelled token_text] in *; [done| |];
      destruct R as (Ho & Ha & Hs); rewrite ?append_nil_r in *; (split; [done|]); split; [|done| |done];
      [|split; [|done]]; apply name_read; rewrite ?append_nil_r; done. }
  assert (forall name, String.append (snoc name c) s = String.append name (String c s)) as Sn
    by (intros; unfold snoc; by rewrite append_assoc).
  destruct st as [text|text name|text name]; cbn [reading] in R.
  - apply IH. by apply text_step_reading.
  - destruct R as (Ho & Ha & Hs). destruct (ident_char c) eqn:Ec.
    { apply IH. cbn [reading]. rewrite Sn. split_and!; [done|by apply all_chars_snoc|done]. }
    specialize (IH (text_step EmptyString c s) (text_step_reading EmptyString c s I)).
    pose proof (scan_spelled (text_step EmptyString c s) s) as Sp. rewrite pending_text in Sp.
    destruct (scan (text_step EmptyString c s) s) as [ts trailing]. cbn [fst snd read_off token_text] in *. rewrite Sp.
    split; [done|]. split; [|done]. by apply name_read.
  - destruct R as (Ho & Ha & Hs). destruct (ident_char c) eqn:Ec.
    { apply IH. cbn [reading]. rewrite Sn. split_and!; [done|by apply all_chars_snoc|done]. }
    destruct (name_read name (String c s) Ha Hs Ec) as (Hn & _).
    destruct (Ascii.eqb_spec c "?") as [->|Nq].
    + specialize (IH (InText EmptyString) I). pose proof (scan_spelled (InText EmptyString) s) as Sp. cbn [pending String.append] in Sp.
      destruct (scan (InText EmptyString) s) as [ts trailing]. cbn [fst snd read_off token_text] in *. rewrite Sp.
      split; [|done]. cbn [String.append]. by rewrite append_assoc.
    + specialize (IH (text_step EmptyString c s) (text_step_reading EmptyString c s I)).
      pose proof (scan_spelled (text_step EmptyString c s) s) as Sp. rewrite pending_text in Sp.
      destruct (scan (text_step EmptyString c s) s) as [ts trailing]. cbn [fst snd read_off token_text] in *. rewrite Sp, append_nil_r.
      split; [done|]. split; [|done]. split; [done|]. apply Ascii.eqb_neq. congruence.
Qed.

Lemma seg_ok_segment x : seg_ok x = true <-> segment x.
Proof. unfold seg_ok, segment. rewrite andb_true_iff, negb_true_iff. destruct x; cbn; intuition congruence. Qed.

Lemma run_ok_segments x : run_ok x = true <-> exists segs, segs <> [] /\ Forall segment segs /\ x = join "/" segs.
Proof.
  unfold run_ok. split.
  - intros H. exists (split "/" x). split; [destruct (split_cons "/" x) as (p & ps & ->); done|]. split; [|by rewrite (join_split "/")].
    pose proof (split_parts "/" x) as P. revert H P. generalize (split "/" x). induction l as [|p l IH]; [constructor|]. cbn [forallb].
    intros [Hp Hl]%andb_true_iff P. inversion P; subst. constructor; [split; [by destruct p|done]|by apply IH].
  - intros (segs & Ne & F & ->). rewrite (split_join "/"); [|done|by apply (Forall_impl _ _ _ F); intros p []].
    apply forallb_forall. intros p Hp. rewrite Forall_forall in F. destruct (F p) as [Hn _]; [by apply list_elem_of_In|]. by destruct p.
Qed.

Lemma fits_stands ts trailing sp sc c first caps s :
  compile_loop ts trailing sp sc = Ok c -> after_param first ts = false -> fits (regExp c) caps s <-> stands_for first ts trailing caps s.
Proof.
  revert sp sc c first caps s. induction ts as [|[b [name|name opt]] ts IH]; cbn [compile_loop]; intros sp sc c first caps s.
  - destruct (_ && _); [done|]. intros [= <-] _. cbn. split; [intros (t & -> & -> & ->); by rewrite append_nil_r|].
    intros [-> ->]. exists EmptyString. by rewrite append_nil_r.
  - destruct sc; [done|]. destruct (sp && _); [done|]. destruct (compile_loop ts trailing true false) as [c'|] eqn:Ec; [|done]. cbn [outcome_bind].
    intros [= <-] A. cbn [regExp fits stands_for]. cbn [after_param] in A. split.
    + intros (t & -> & x & caps' & s' & -> & Hx & -> & F). exists x, caps', s'. rewrite seg_ok_segment in Hx. by rewrite (IH _ _ _ false _ _ Ec A) in F.
    + intros (x & caps' & s' & -> & Hx & -> & F). eexists. split; [done|]. exists x, caps', s'. rewrite seg_ok_segment. by rewrite (IH _ _ _ false _ _ Ec A).
  - destruct sc; [done|]. destruct (ends_with_slash b) eqn:Es; [|done]. cbn [negb]. destruct (compile_loop ts trailing true true) as [c'|] eqn:Ec; [|done].
    pose proof (compile_after_catchall _ _ _ Ec) as (-> & -> & Er). cbn [outcome_bind]. intros [= <-] A. cbn [regExp stands_for]. rewrite Er.
    assert (forall t cs, fits [Lit EmptyString] cs t <-> cs = [] /\ t = EmptyString) as End.
    { intros t cs. cbn. split; [by intros (t' & -> & -> & ->)|]. intros [-> ->]. by exists EmptyString. }
    destruct opt; cbn [after_param] in A; [destruct (String.eqb_spec b "/") as [->|N]|]; cbn [app fits]; setoid_rewrite End; cbn [andb].
    + assert (first = true) as -> by (by destruct first). cbn [andb]. split.
      * intros (t & -> & [(x & cs & s' & -> & (segs & Ne & F & ->)%run_ok_segments & -> & -> & ->)|(cs & -> & -> & ->)]).
        -- exists segs, [], EmptyString. split; [done|]. by left.
        -- exists [], [], EmptyString. split; [done|]. by right.
      * intros (segs & cs & s' & [-> ->] & [(Ne & F & -> & ->)|(_ & _ & -> & ->)]); eexists; (split; [reflexivity|]); [left|right; by exists []].
        eexists _, [], EmptyString. split; [done|]. split; [|done]. apply run_ok_segments. by exists segs.
    + rewrite ?andb_false_r. cbn. assert (forall t, String.append b t = String.append (chop b) (String.append "/" t)) as Eb.
      { intros t. rewrite (has_slash_snoc b Es) at 1. by rewrite append_assoc. }
      split.
      * intros (t & -> & [(x & cs & s' & -> & (segs & Ne & F & ->)%run_ok_segments & -> & -> & ->)|(cs & -> & -> & ->)]).
        -- exists segs, [], EmptyString. split; [done|]. left. by rewrite Eb.
        -- exists [], [], EmptyString. split; [done|]. by right.
      * intros (segs & cs & s' & [-> ->] & [(Ne & F & -> & ->)|(_ & _ & -> & ->)]); [rewrite Eb|]; eexists; (split; [reflexivity|]); [left|right; by exists []].
        eexists _, [], EmptyString. split; [done|]. split; [|done]. apply run_ok_segments. by exists segs.
    + split.
      * intros (t & -> & x & cs & s' & -> & (segs & Ne & F & ->)%run_ok_segments & -> & -> & ->). exists segs, [], EmptyString. split; [done|]. by left.
      * intros (segs & cs & s' & [-> ->] & [(Ne & F & -> & ->)|(? & _)]); [|done]. eexists. split; [reflexivity|].
        eexists _, [], EmptyString. split; [done|]. split; [|done]. apply run_ok_segments. by exists segs.
Qed.

(** C39: Matching is the pattern's meaning: a pattern that compiles matches a path exactly
    when the path is the pattern's own text with a segment of a path in the place of each
    param and a run of segments in the place of the catch-all, or for an optional one
    nothing, its slash gone; the captures are those texts, and the path determines them, so
    backtracking never has a choice. Patterns whose optional catch-all directly follows a
    param are excepted (they are [optional_catchall_spec]'s). *)
Theorem match_is_substitution pattern c path caps :
  compile pattern = Ok c ->
  let '(ts, trailing) := tokens pattern in
  spelled ts trailing = pattern /\ read_off ts trailing /\
  (after_param true ts = false ->
     (exec (regExp c) path = Some caps <-> stands_for true ts trailing caps path) /\
     forall caps', stands_for true ts trailing caps path -> stands_for true ts trailing caps' path -> caps = caps').
Proof.
  unfold compile. pose proof (scan_spelled (InText EmptyString) pattern) as Sp.
  pose proof (scan_reads (InText EmptyString) pattern I) as Rd. fold (tokens pattern) in Sp, Rd.
  destruct (tokens pattern) as [ts trailing]. intros Hc. split; [exact Sp|]. split; [exact Rd|]. intros A. split.
  - rewrite <- (fits_stands _ _ _ _ _ _ _ _ Hc A). by eapply exec_iff_fits.
  - intros caps' H H'. eapply fits_unique; [exact Hc|by apply (fits_stands _ _ _ _ _ _ _ _ Hc A)..].
Qed.

(** ** Optional catch-alls *)

Lemma fits_app ps qs caps s :
  fits (ps ++ qs)%list caps s <->
  exists c1 c2 s1 s2, caps = (c1 ++ c2)%list /\ s = String.append s1 s2 /\ fits ps c1 s1 /\ fits qs c2 s2.
Proof.
  revert caps s. induction ps as [|p ps IH]; intros caps s.
  { simpl. split.
    - intros H. exists [], caps, EmptyString, s. by repeat split.
    - intros (c1 & c2 & s1 & s2 & -> & -> & [-> ->] & H). done. }
  destruct p; cbn [app fits]; setoid_rewrite IH; split.
  - intros (s' & -> & c1 & c2 & s1 & s2 & -> & -> & H1 & H2).
    exists c1, c2, (String.append s0 s1), s2. rewrite append_assoc. eauto 10.
  - intros (c1 & c2 & s1 & s2 & -> & -> & (s' & -> & H1) & H2). rewrite append_assoc. eauto 10.
  - intros (x & caps' & s' & -> & Hx & -> & c1 & c2 & s1 & s2 & -> & -> & H1 & H2).
    exists (Some x :: c1), c2, (String.append x s1), s2. rewrite append_assoc. eauto 12.
  - intros (c1 & c2 & s1 & s2 & -> & -> & (x & c & s' & -> & Hx & -> & H1) & H2).
    rewrite append_assoc. exists x, (c ++ c2)%list. eauto 12.
  - intros (x & caps' & s' & -> & Hx & -> & c1 & c2 & s1 & s2 & -> & -> & H1 & H2).
    exists (Some x :: c1), c2, (String.append x s1), s2. rewrite append_assoc. eauto 12.
  - intros (c1 & c2 & s1 & s2 & -> & -> & (x & c & s' & -> & Hx & -> & H1) & H2).
    rewrite append_assoc. exists x, (c ++ c2)%list. eauto 12.
  - intros [(x & caps' & s' & -> & Hx & -> & c1 & c2 & s1 & s2 & -> & -> & H1 & H2)|
            (caps' & -> & c1 & c2 & s1 & s2 & -> & -> & H1 & H2)].
    + exists (Some x :: c1), c2, (String.append x s1), s2. rewrite append_assoc. split_and!; eauto 10.
    + exists (None :: c1), c2, s1, s2. split_and!; eauto.
  - intros (c1 & c2 & s1 & s2 & -> & -> & [(x & c & s' & -> & Hx & -> & H1)|(c & -> & H1)] & H2).
    + left. rewrite append_assoc. exists x, (c ++ c2)%list. eauto 12.
    + right. exists (c ++ c2)%list. eauto 10.
  - intros [(x & caps' & s' & -> & Hx & -> & c1 & c2 & s1 & s2 & -> & -> & H1 & H2)|
            (caps' & -> & c1 & c2 & s1 & s2 & -> & -> & H1 & H2)].
    + exists (Some x :: c1), c2, (String.append "/" (String.append x s1)), s2.
      rewrite !append_assoc. split_and!; eauto 10.
    + exists (None :: c1), c2, s1, s2. split_and!; eauto.
  - intros (c1 & c2 & s1 & s2 & -> & -> & [(x & c & s' & -> & Hx & -> & H1)|(c & -> & H1)] & H2).
    + left. rewrite !append_assoc. exists x, (c ++ c2)%list. eauto 12.
    + right. exists (c ++ c2)%list. eauto 10.
Qed.

(** The pieces of a pattern that ends in an optional catch-all, beside those of the
    pattern without that segment. *)
Lemma compile_optional ts b name sp c :
  compile_loop (ts ++ [(b, Rest name true)])%list EmptyString sp false = Ok c ->
  exists P c0, compile_loop ts (chop b) sp false = Ok c0 /\ regExp c0 = (P ++ [Lit (chop b)])%list /\
    regExp c = (P ++ (if String.eqb b "/" then [Lit "/"; OptCatchAll] else [Lit (chop b); OptSlashCatchAll]) ++
                [Lit EmptyString])%list.
Proof.
  revert sp c. induction ts as [|[b' [name'|name' opt]] ts IH]; cbn [app compile_loop]; intros sp c.
  - destruct (negb _); [done|]. simpl. intros [= <-]. eexists [], _. split; [done|]. split; [done|].
    simpl. by destruct (String.eqb b "/").
  - destruct (sp && _); [done|]. destruct (compile_loop (ts ++ _)%list _ _ _) as [c'|] eqn:E; [|done].
    destruct (IH _ _ E) as (P & c0 & E0 & R0 & R). rewrite E0. simpl. intros [= <-].
    exists (Lit b' :: Seg :: P), (mkCompiled (Lit b' :: Seg :: regExp c0) (name' :: paramNames c0) (catchAllParams c0)).
    cbn [regExp app]. rewrite R0, R. done.
  - destruct (negb _); [done|]. by destruct ts as [|[? ?] ?].
Qed.

(** Fact: An optional catch-all that takes nothing: after more text than a slash the path
    is the pattern's without the whole segment, its slash included, so the bare prefix
    matches; but where nothing but the slash precedes it, at the root and also right
    after a param, the slash stays required. *)
Theorem optional_catchall_spec pattern ts b name c c0 path caps :
  tokens pattern = ((ts ++ [(b, Rest name true)])%list, EmptyString) ->
  compile pattern = Ok c -> compile_loop ts (chop b) false false = Ok c0 ->
  exec (regExp c) path = Some (caps ++ [None])%list <->
  if String.eqb b "/" then exists path', path = String.append path' "/" /\ exec (regExp c0) path' = Some caps
  else exec (regExp c0) path = Some caps.
Proof.
  unfold compile. intros -> Hc H0. rewrite (exec_iff_fits _ _ _ _ _ Hc).
  pose proof (fun p k => exec_iff_fits _ _ _ p k H0) as Q.
  destruct (compile_optional _ _ _ _ _ Hc) as (P & c0' & E & R0 & R).
  rewrite H0 in E. injection E as <-. rewrite R. destruct (String.eqb_spec b "/") as [->|_].
  - setoid_rewrite Q. rewrite R0. setoid_rewrite fits_app. cbn [app fits]. change (chop "/") with EmptyString. split.
    + intros (c1 & c2 & s1 & s2 & Ec & -> & H1 & (s' & -> & [(x & k & u & -> & _ & _ & w & _ & -> & _)|(k & -> & w & -> & -> & ->)])).
      { by apply app_inj_2 in Ec as [_ [=]]. }
      apply app_inj_2 in Ec as [-> _]; [|done]. exists s1. split; [by simpl|].
      exists c1, [], s1, EmptyString. rewrite app_nil_r, append_nil_r. eauto 8.
    + intros (path' & -> & c1 & c2 & s1 & s2 & -> & -> & H1 & (s' & -> & -> & ->)).
      exists c1, [None], s1, "/". rewrite app_nil_r. simpl. rewrite append_nil_r. split_and!; [done..|].
      exists EmptyString. split; [done|]. right. eauto 8.
  - rewrite Q, R0, !fits_app. cbn [app fits]. split.
    + intros (c1 & c2 & s1 & s2 & Ec & -> & H1 & (s' & -> & [(x & k & u & -> & _ & _ & w & _ & -> & _)|(k & -> & w & -> & -> & ->)])).
      { by apply app_inj_2 in Ec as [_ [=]]. }
      apply app_inj_2 in Ec as [-> _]; [|done].
      exists c1, [], s1, (String.append (chop b) EmptyString). rewrite app_nil_r. eauto 8.
    + intros (c1 & c2 & s1 & s2 & -> & -> & H1 & (s' & -> & -> & ->)).
      exists c1, [None], s1, (String.append (chop b) EmptyString). rewrite app_nil_r. split_and!; [done..|].
      exists EmptyString. split; [done|]. right. eauto 8.
Qed.

(** ** Reverse routing *)

Section RoundTrip.
Context `{uri : !UriCodec, laws : !UriLaws}.

Lemma encodeAll_spec vs es name :
  encodeAll vs = Ok es -> existsb (fun v => negb (nonempty v)) vs = false ->
  length es = length vs /\ Forall (fun e => has_char "/" e = false) es /\ forallb nonempty es = true /\
  decodeAll name es = Ok vs.
Proof.
  revert es. induction vs as [|v vs IH]; simpl; intros es; [intros [= <-] _; repeat split; constructor|].
  unfold encode. destruct (encodeURIComponent v) as [e|] eqn:Ee; [|done]. simpl.
  destruct (encodeAll vs) as [es'|] eqn:Ees; [|done]. intros [= <-] [Hv Hvs]%orb_false_iff.
  apply negb_false_iff in Hv. destruct (IH _ eq_refl Hvs) as (H1 & H2 & H3 & H4).
  assert (Hne : nonempty e = true).
  { destruct e; [|done]. exfalso. eapply encode_nonempty; [exact Ee| |done]. by intros ->. }
  simpl. rewrite Hne. unfold decodeParam. rewrite (decode_encode _ _ Ee). simpl. rewrite H4.
  split_and!; [by f_equal|constructor; [by eapply encode_no_slash|done]|done|done].
Qed.

Lemma run_of_join es :
  es <> [] -> Forall (fun e => has_char "/" e = false) es -> forallb nonempty es = true ->
  run_ok (join "/" es) = true /\ split "/" (join "/" es) = es.
Proof.
  intros Hn Hs Hne. assert (E : split "/" (join "/" es) = es) by by apply split_join.
  unfold run_ok. by rewrite E.
Qed.

(** The params the loop reads back: those of the pattern's names. *)
Definition reads (params : gmap string Param) (CA names : list string) (caps : list (option string)) : Prop :=
  forall acc, exists r, read_params CA names caps acc = Ok r /\
    forall n, r !! n = if existsb (String.eqb n) names then params !! n else acc !! n.

Lemma reads_cons params CA name names cap caps v :
  params !! name = Some v -> param_value CA name cap = Ok v -> reads params CA names caps ->
  reads params CA (name :: names) (cap :: caps).
Proof.
  intros Hp Hv Hr acc. simpl. rewrite Hv. simpl. destruct (Hr (<[name := v]> acc)) as (r & -> & H).
  exists r. split; [done|]. intros n. rewrite H. destruct (String.eqb_spec n name) as [->|N]; simpl.
  - rewrite lookup_insert_eq. by destruct (existsb _ _).
  - by rewrite lookup_insert_ne.
Qed.

Lemma path_fits params ts trailing sp sc c path CA :
  compile_loop ts trailing sp sc = Ok c -> path_loop params ts trailing = Ok path ->
  (forall n, In n CA -> exists vs, params !! n = Some (Many vs)) ->
  (forall n, In n (catchAllParams c) -> In n CA) ->
  exists caps, fits (regExp c) caps path /\ reads params CA (paramNames c) caps.
Proof.
  intros Hc Hp HCA. revert sp sc c path Hc Hp.
  induction ts as [|[b [name|name opt]] ts IH]; cbn [compile_loop path_loop]; intros sp sc c path.
  - destruct (_ && _); [done|]. intros [= <-] [= <-] _. exists []. simpl. split.
    + exists EmptyString. by rewrite append_nil_r.
    + intros acc. exists acc. simpl. split; [done|]. done.
  - destruct sc; [done|]. destruct (sp && _); [done|].
    destruct (compile_loop ts trailing true false) as [c'|] eqn:Ec; [|done]. simpl. intros [= <-].
    destruct (params !! name) as [[v|]|] eqn:En; try done. destruct (nonempty v) eqn:Env; [|done].
    unfold encode. destruct (encodeURIComponent v) as [e|] eqn:Ee; [|done]. simpl.
    destruct (path_loop params ts trailing) as [rest|] eqn:Er; [|done]. simpl. intros [= <-] Hsub.
    destruct (IH _ _ _ _ Ec eq_refl Hsub) as (caps & Hf & Hr). exists (Some e :: caps). simpl. split.
    + exists (String.append e rest). split; [by rewrite append_assoc|]. exists e, caps, rest.
      split_and!; [done| |done|done]. unfold seg_ok. apply andb_true_iff. split.
      * destruct e; [|done]. exfalso. eapply encode_nonempty; [exact Ee| |done]. by intros ->.
      * by rewrite (encode_no_slash _ _ Ee).
    + eapply reads_cons; [exact En| |exact Hr]. unfold param_value.
      assert (Hno : existsb (String.eqb name) CA = false).
      { apply existsb_false. intros n Hn. apply String.eqb_neq. intros <-.
        destruct (HCA _ Hn) as [vs Hvs]. congruence. }
      rewrite Hno. unfold decodeParam. simpl. by rewrite (decode_encode _ _ Ee).
  - destruct sc; [done|]. destruct (ends_with_slash b) eqn:Es; [|done].
    destruct (compile_loop ts trailing true true) as [c'|] eqn:Ec; [|done].
    apply compile_after_catchall in Ec as HH. destruct HH as (-> & -> & Ereg).
    simpl in Ec. injection Ec as <-. pose proof (has_slash_snoc b Es) as Eb.
    cbn [path_loop outcome_bind negb]. intros [= <-]. cbn [regExp paramNames catchAllParams token_path].
    destruct (params !! name) as [[|vs]|] eqn:En; try done. intros Hp Hsub.
    assert (Hin : existsb (String.eqb name) CA = true).
    { apply existsb_exists. exists name. split; [apply Hsub; by left|apply String.eqb_refl]. }
    assert (R0 : reads params CA [] []) by (intros acc; exists acc; done).
    destruct vs as [|v vs].
    + destruct opt; [|done]. injection Hp as <-. rewrite append_nil_r. exists [None]. split.
      * destruct (String.eqb b "/"); cbn [app fits].
        -- exists EmptyString. split; [done|]. right. exists []. split; [done|]. by exists EmptyString.
        -- exists EmptyString. split; [by rewrite append_nil_r|]. right. exists []. split; [done|]. by exists EmptyString.
      * eapply reads_cons; [exact En| |exact R0]. unfold param_value. by rewrite Hin.
    + destruct (existsb (fun v => negb (nonempty v)) (v :: vs)) eqn:Ene; [done|].
      destruct (encodeAll (v :: vs)) as [es|] eqn:Ees; [|done].
      destruct (encodeAll_spec _ _ name Ees Ene) as (Hl & Hs & Hne & Hd).
      assert (Hes : es <> []) by by destruct es.
      destruct (run_of_join es Hes Hs Hne) as [Hrun Hsplit]. injection Hp as <-. rewrite append_nil_r.
      exists [Some (join "/" es)]. split.
      * assert (Tail : fits [Lit EmptyString] [] EmptyString) by (exists EmptyString; done).
        destruct opt; [destruct (String.eqb_spec b "/") as [->|N]|]; cbn [app fits].
        -- exists (join "/" es). split; [done|]. left. exists (join "/" es), [], EmptyString.
           split_and!; [done|done|by rewrite append_nil_r|exact Tail].
        -- exists (String.append "/" (join "/" es)). split; [by rewrite <- append_assoc, <- Eb|].
           left. exists (join "/" es), [], EmptyString.
           split_and!; [done|done|by rewrite append_nil_r|exact Tail].
        -- exists (join "/" es). split; [done|]. exists (join "/" es), [], EmptyString.
           split_and!; [done|done|by rewrite append_nil_r|exact Tail].
      * eapply reads_cons; [exact En| |exact R0]. unfold param_value. by rewrite Hin, Hsplit, Hd.
Qed.

(** The catch-all names of a pattern are given arrays by any params that build a path. *)
Lemma path_many params ts trailing sp sc c path n :
  compile_loop ts trailing sp sc = Ok c -> path_loop params ts trailing = Ok path ->
  In n (catchAllParams c) -> exists vs, params !! n = Some (Many vs).
Proof.
  revert sp sc c path. induction ts as [|[b [name|name opt]] ts IH]; cbn [compile_loop path_loop]; intros sp sc c path.
  - destruct (_ && _); [done|]. by intros [= <-] _ [].
  - destruct sc; [done|]. destruct (sp && _); [done|].
    destruct (compile_loop ts trailing true false) as [c'|] eqn:Ec; [|done]. simpl. intros [= <-].
    destruct (match params !! name with Some _ => _ | None => _ end); [|done]. simpl.
    destruct (path_loop params ts trailing) eqn:Er; [|done]. intros _. by eapply IH.
  - destruct sc; [done|]. destruct (negb _); [done|].
    destruct (compile_loop ts trailing true true) as [c'|] eqn:Ec; [|done]. simpl. intros [= <-]. simpl.
    destruct (params !! name) as [[|vs]|] eqn:En; try done.
    destruct (match vs with [] => _ | _ => _ end); [|done]. simpl.
    destruct (path_loop params ts trailing) eqn:Er; [|done]. intros _ [<-|H]; [eauto|by eapply IH].
Qed.

(** C37: Reverse routing round-trips: a path built by [pathFor] for a pattern [compile]
    accepts is matched by that route, and the match gives back, decoded, exactly the
    params the pattern names. *)
Theorem path_round_trip {T} method pattern (value : T) entries params path :
  add method pattern value [] = Ok entries -> pathFor pattern params = Ok path ->
  exists c m, compile pattern = Ok c /\ match_route method path entries = Ok (Some (value, m)) /\
    forall n, m !! n = if existsb (String.eqb n) (paramNames c) then params !! n else None.
Proof.
  unfold add, pathFor. destruct (compile pattern) as [c|] eqn:Ec; [|done]. intros [= <-] Hp.
  unfold compile in Ec. destruct (tokens pattern) as [ts trailing].
  destruct (path_fits params ts trailing _ _ c path (catchAllParams c) Ec Hp) as (caps & Hf & Hr);
    [intros n; by eapply path_many|done|].
  destruct (exec_complete _ _ _ Hf) as [caps' E].
  assert (caps' = caps) as -> by (eapply fits_unique; [exact Ec|by apply exec_sound|done]).
  destruct (Hr ∅) as (m & Hm & Hl). exists c, m. split; [done|].
  cbn [match_route]. rewrite String.eqb_refl. cbn [negb e_compiled e_value]. rewrite E, Hm. split; [done|].
  intros n. by rewrite Hl, lookup_empty.
Qed.
End RoundTrip.

(** ** The table *)

Section Table.
Context `{uri : !UriCodec} {T : Type}.
Implicit Types (entries : list (Entry T)).

Definition answers (path : string) (e : Entry T) : bool :=
  match exec (regExp (e_compiled e)) path with Some _ => true | None => false end.

Lemma allowed_loop_In path entries methods m :
  In m (allowed_loop path entries methods) <->
  In m methods \/ exists e, In e entries /\ answers path e = true /\ e_method e = m.
Proof.
  revert methods. induction entries as [|e entries IH]; intros methods; simpl; [naive_solver|].
  destruct (exec (regExp (e_compiled e)) path) as [caps|] eqn:E; rewrite IH.
  - assert (A : answers path e = true) by (unfold answers; by rewrite E).
    destruct (existsb _ methods) eqn:Ex.
    + apply existsb_exists in Ex as (m' & Hm' & Em%String.eqb_eq). subst m'.
      split; [intros [?|(e' & ? & ?)]; eauto|]. intros [?|(e' & [<-|?] & Ha & <-)]; eauto.
    + rewrite in_app_iff. simpl. split.
      * intros [[?|[<-|[]]]|(e' & ? & ?)]; eauto 6.
      * intros [?|(e' & [<-|?] & Ha & <-)]; eauto 6.
  - assert (A : answers path e = false) by (unfold answers; by rewrite E).
    split; [intros [?|(e' & ? & ?)]; eauto|]. intros [?|(e' & [<-|?] & Ha & <-)]; [by left|congruence|eauto].
Qed.

(** The first route, in order, whose verb and pattern both fit. *)
Definition wins (method path : string) entries (e : Entry T) : Prop :=
  exists pre post, entries = (pre ++ e :: post)%list /\ e_method e = method /\ answers path e = true /\
    forall e', In e' pre -> e_method e' = method -> answers path e' = false.

Lemma wins_cons method path e0 entries e :
  (e_method e0 = method -> answers path e0 = false) -> wins method path entries e -> wins method path (e0 :: entries) e.
Proof.
  intros H0 (pre & post & -> & Em & Ha & Hpre). exists (e0 :: pre), post. split; [done|].
  split; [done|]. split; [done|]. intros e' [<-|H]; auto.
Qed.

(** [match] computes the winner's params, and nothing else. *)
Lemma match_route_wins method path entries :
  match match_route method path entries with
  | Ok None => forall e, In e entries -> e_method e = method -> answers path e = false
  | r => exists e caps, wins method path entries e /\ exec (regExp (e_compiled e)) path = Some caps /\
      r = let! params := read_params (catchAllParams (e_compiled e)) (paramNames (e_compiled e)) caps ∅ in
          Ok (Some (e_value e, params))
  end.
Proof.
  induction entries as [|e entries IH]; simpl; [done|].
  assert (Skip : (e_method e = method -> answers path e = false) ->
    match match_route method path entries with
    | Ok None => forall e', e = e' \/ In e' entries -> e_method e' = method -> answers path e' = false
    | r => exists e' caps, wins method path (e :: entries) e' /\ exec (regExp (e_compiled e')) path = Some caps /\
        r = let! params := read_params (catchAllParams (e_compiled e')) (paramNames (e_compiled e')) caps ∅ in
            Ok (Some (e_value e', params))
    end).
  { intros H. destruct (match_route method path entries) as [[m|]|err].
    - destruct IH as (e' & caps & W & R). eauto 10 using wins_cons.
    - intros e' [<-|He']; auto.
    - destruct IH as (e' & caps & W & R). eauto 10 using wins_cons. }
  destruct (String.eqb_spec (e_method e) method) as [Em|Nm]; simpl; [|by apply Skip].
  destruct (exec (regExp (e_compiled e)) path) as [caps|] eqn:Ex.
  - assert (W : wins method path (e :: entries) e)
      by (exists [], entries; split_and!; [done|done|unfold answers; by rewrite Ex|done]).
    destruct (read_params _ _ _ _) as [params|err] eqn:Er; simpl; exists e, caps; rewrite Er; auto.
  - apply Skip. intros _. unfold answers. by rewrite Ex.
Qed.

(** Fact: The table answers with the first route, in registration order, whose verb and
    pattern both fit, and with its params; it answers nothing exactly when no route fits,
    that is, when the verb is not among [allowedMethods] (405), which is empty exactly
    when no pattern fits at all (404); and [allowedMethods] never throws. *)
Theorem first_match_wins method path entries :
  match match_route method path entries with
  | Ok None => ~ In method (allowedMethods path entries)
  | r => In method (allowedMethods path entries) /\
      exists e caps, wins method path entries e /\ exec (regExp (e_compiled e)) path = Some caps /\
        r = let! params := read_params (catchAllParams (e_compiled e)) (paramNames (e_compiled e)) caps ∅ in
            Ok (Some (e_value e, params))
  end /\
  (allowedMethods path entries = [] <-> forall e, In e entries -> answers path e = false).
Proof.
  assert (HW : forall e, wins method path entries e -> In method (allowedMethods path entries)).
  { intros e (pre & post & -> & Em & Ha & _). apply allowed_loop_In. right. exists e.
    rewrite in_app_iff. simpl. auto. }
  split.
  - pose proof (match_route_wins method path entries) as M.
    destruct (match_route method path entries) as [[m|]|err].
    + destruct M as (e & caps & W & R). eauto 10.
    + intros H. apply allowed_loop_In in H as [[]|(e & He & Ha & Em)]. specialize (M e He Em). congruence.
    + destruct M as (e & caps & W & R). eauto 10.
  - unfold allowedMethods. split.
    + intros E e He. destruct (answers path e) eqn:Ea; [|done].
      assert (H : In (e_method e) (allowed_loop path entries [])); [|by rewrite E in H].
      apply allowed_loop_In. right. eauto.
    + intros H. destruct (allowed_loop path entries []) as [|m l] eqn:E; [done|].
      assert (Hin : In m (allowed_loop path entries [])) by (rewrite E; by left).
      apply allowed_loop_In in Hin as [[]|(e & He & Ha & _)]. specialize (H e He). congruence.
Qed.
End Table.

(** * The router: concrete runs

    A percent-encoding codec that satisfies the laws the table relies on, and the
    router's theorems on concrete patterns and paths. *)
#[local] Open Scope string_scope.

(** ** Percent encoding *)

Definition unreserved (c : ascii) : bool := ident_char c || existsb (Ascii.eqb c) (list_ascii_of_string "-.!~*'()").

Definition hex_digit (n : nat) : ascii := ascii_of_nat (if (n <? 10)%nat then 48 + n else 55 + n).
Definition hex_value (c : ascii) : option nat :=
  let n := nat_of_ascii c in
  if ((48 <=? n) && (n <=? 57))%nat then Some (n - 48)%nat
  else if ((65 <=? n) && (n <=? 70))%nat then Some (n - 55)%nat else None.

Definition encode_char (c : ascii) (s : string) : string :=
  if unreserved c then String c s
  else let n := nat_of_ascii c in String "%" (String (hex_digit (n / 16)) (String (hex_digit (n mod 16)) s)).

Fixpoint percent_encode (s : string) : string :=
  match s with EmptyString => EmptyString | String c s' => encode_char c (percent_encode s') end.

Fixpoint percent_decode (s : string) : option string :=
  match s with
  | EmptyString => Some EmptyString
  | String c s' =>
      if Ascii.eqb c "%" then
        match s' with
        | String a (String b s'') =>
            match hex_value a, hex_value b with
            | Some x, Some y => String (ascii_of_nat (16 * x + y)) <$> percent_decode s''
            | _, _ => None
            end
        | _ => None
        end
      else String c <$> percent_decode s'
  end.

#[export] Instance percent_codec : UriCodec :=
  {| encodeURIComponent s := Some (percent_encode s); decodeURIComponent := percent_decode |}.

Lemma decode_encode_char c s : percent_decode (encode_char c s) = String c <$> percent_decode s.
Proof. destruct c as [[] [] [] [] [] [] [] []]; reflexivity. Qed.

Lemma encode_char_slash c s : has_char "/" (encode_char c s) = has_char "/" s.
Proof. destruct c as [[] [] [] [] [] [] [] []]; reflexivity. Qed.

#[export] Instance percent_laws : UriLaws.
Proof.
  split; cbn.
  - intros v e [= <-]. induction v as [|c v IH]; [done|]. cbn [percent_encode].
    by rewrite decode_encode_char, IH.
  - intros v e [= <-]. induction v as [|c v IH]; [done|]. cbn [percent_encode].
    by rewrite encode_char_slash.
  - intros v e [= <-]. destruct v as [|c v]; [done|]. intros _. cbn [percent_encode].
    unfold encode_char. by destruct (unreserved c).
Qed.

(** ** Patterns *)

Definition compiled (p : string) : CompiledPattern :=
  match compile p with Ok c => c | Throw _ => mkCompiled [] [] [] end.

Definition repo_pattern : string := "/repos/:owner/:name/blob/*path".
Definition repo_compiled : CompiledPattern := Eval vm_compute in compiled repo_pattern.

Lemma match_is_substitution_witness :
  compile repo_pattern = Ok repo_compiled /\
  exec (regExp repo_compiled) "/repos/a/b/blob/x/y.ts" = Some [Some "a"; Some "b"; Some "x/y.ts"] /\
  stands_for true [("/repos/", Single "owner"); ("/", Single "name"); ("/blob/", Rest "path" false)] EmptyString
    [Some "a"; Some "b"; Some "x/y.ts"] "/repos/a/b/blob/x/y.ts".
Proof.
  split; [vm_compute; reflexivity|]. split; [vm_compute; reflexivity|].
  destruct (match_is_substitution repo_pattern repo_compiled "/repos/a/b/blob/x/y.ts" [Some "a"; Some "b"; Some "x/y.ts"] ltac:(vm_compute; reflexivity)) as (_ & _ & H).
  apply H; vm_compute; reflexivity.
Defined.

Example patterns_refused :
  compile "/:a:b" = Throw (ROUTER_AMBIGUOUS_SEGMENT "b") /\
  compile "/shop*rest" = Throw (ROUTER_CATCHALL_NOT_SEGMENT "rest") /\
  compile "/*rest/edit" = Throw ROUTER_CATCHALL_NOT_LAST /\
  compile "/*a/:b" = Throw ROUTER_CATCHALL_NOT_LAST.
Proof. vm_compute. auto. Qed.

Definition repo_params : gmap string Param :=
  <["owner" := One "a/b"]> (<["name" := One "x y"]> (<["path" := Many ["src"; "100%.ts"]]> ∅)).
Definition repo_entries : list (Entry nat) := [mkEntry "GET" repo_pattern repo_compiled 7%nat].

Lemma path_round_trip_witness :
  pathFor repo_pattern repo_params = Ok "/repos/a%2Fb/x%20y/blob/src/100%25.ts" /\
  exists c m, compile repo_pattern = Ok c /\
    match_route "GET" "/repos/a%2Fb/x%20y/blob/src/100%25.ts" repo_entries = Ok (Some (7%nat, m)) /\
    forall n, m !! n = if existsb (String.eqb n) (paramNames c) then repo_params !! n else None.
Proof.
  split; [vm_compute; reflexivity|].
  apply (path_round_trip "GET" repo_pattern 7%nat repo_entries repo_params); vm_compute; reflexivity.
Defined.

(** The optional catch-all right after a param: the bare prefix is no match, and the path
    reverse routing builds for it keeps the slash. *)
Definition user_files : string := "/u/:id/*rest?".
Definition user_files_compiled : CompiledPattern := Eval vm_compute in compiled user_files.
Definition user_compiled : CompiledPattern := Eval vm_compute in compiled "/u/:id".

Lemma optional_catchall_spec_witness :
  exec (regExp user_files_compiled) "/u/5" = None /\
  exec (regExp user_files_compiled) "/u/5/" = Some [Some "5"; None] /\
  pathFor user_files (<["id" := One "5"]> (<["rest" := Many []]> ∅)) = Ok "/u/5/" /\
  exec (regExp (compiled "/u/id/*rest?")) "/u/id" = Some [None] /\
  (exec (regExp user_files_compiled) "/u/5/" = Some ([Some "5"] ++ [None])%list <->
   exists path', "/u/5/" = String.append path' "/" /\ exec (regExp user_compiled) path' = Some [Some "5"]).
Proof.
  split; [vm_compute; reflexivity|]. split; [vm_compute; reflexivity|].
  split; [vm_compute; reflexivity|]. split; [vm_compute; reflexivity|].
  apply (optional_catchall_spec user_files [("/u/", Single "id")] "/" "rest" user_files_compiled user_compiled "/u/5/" [Some "5"]);
    vm_compute; reflexivity.
Defined.

(** ** A table *)

Definition app_routes : list (Entry nat) :=
  [mkEntry "GET" "/posts/new" (compiled "/posts/new") 1%nat;
   mkEntry "GET" "/posts/:id" (compiled "/posts/:id") 2%nat;
   mkEntry "POST" "/posts/:id" (compiled "/posts/:id") 3%nat].

Example table_runs :
  match_route "GET" "/posts/new" app_routes = Ok (Some (1%nat, ∅)) /\
  match_route "GET" "/posts/%zz" app_routes = Throw (ROUTER_MALFORMED_PARAM "id" "%zz") /\
  match_route "PUT" "/posts/4" app_routes = Ok None /\
  allowedMethods "/posts/4" app_routes = ["GET"; "POST"] /\
  allowedMethods "/nowhere" app_routes = [].
Proof. vm_compute. auto 6. Qed.
