(* ===== verification/FileRoutes.v ===== *)
(** * File-based routing

    [packages/router/src/file-routes.ts] and [scan.ts]: the scan of a convention
    directory, the grammar of its directory names, and the compilation of what was found
    into the ordered routes the table is filled with. *)
From S2P Require Import Prelude JsString Router.
#[local] Open Scope string_scope.

(** ** What a scan finds *)

(** The kinds of a route file. [inherited] is a value [ROUTE_FILE_NAMES[base]] reads that
    is no kind: a member the object has from [Object.prototype]. *)
Inductive FileRouteKind :=
| page | layout | middleware | loading | error | not_found
| inherited (member : string).

#[export] Instance FileRouteKind_dec : EqDecision FileRouteKind.
Proof. solve_decision. Defined.

Record DiscoveredFile := mkFile { f_kind : FileRouteKind; f_segments : list string }.

Definition object_prototype : list string :=
  ["constructor"; "__defineGetter__"; "__defineSetter__"; "hasOwnProperty"; "__lookupGetter__";
   "__lookupSetter__"; "isPrototypeOf"; "propertyIsEnumerable"; "toString"; "valueOf";
   "__proto__"; "toLocaleString"].

(** [ROUTE_FILE_NAMES[base]]. *)
Definition ROUTE_FILE_NAMES (base : string) : option FileRouteKind :=
  if String.eqb base "page" then Some page
  else if String.eqb base "layout" then Some layout
  else if String.eqb base "middleware" then Some middleware
  else if String.eqb base "loading" then Some loading
  else if String.eqb base "error" then Some error
  else if String.eqb base "not-found" then Some not_found
  else if existsb (String.eqb base) object_prototype then Some (inherited base)
  else None.

(** [{ base, rest }]. *)
Definition baseAndExt (name : string) : string * string :=
  match cut "." name with
  | Some (base, rest) => if nonempty base then (base, rest) else (name, EmptyString)
  | None => (name, EmptyString)
  end.

Definition kindOf (name : string) : option FileRouteKind :=
  let '(base, rest) := baseAndExt name in
  match ROUTE_FILE_NAMES base with
  | None => None
  | Some kind => if String.eqb rest EmptyString || has_char "." rest then None else Some kind
  end.

Record DirEntry := mkEntryOf { d_name : string; d_isDirectory : bool }.

Definition joinPath (dir name : string) : string :=
  if ends_with_slash dir then String.append dir name else String.append dir (String.append "/" name).

(** [Promise.all] over the subdirectories: what each walk found, after what was found. *)
Fixpoint walk_all (f : DirEntry -> option (list DiscoveredFile)) (es : list DirEntry) (found : list DiscoveredFile)
    : option (list DiscoveredFile) :=
  match es with
  | [] => Some found
  | e :: es' => match f e with Some sub => walk_all f es' (found ++ sub)%list | None => None end
  end.

(** The walk, [fuel] directories deep at most; the files of a directory come before those
    of its subdirectories, which the code walks concurrently: of the orders it can
    produce, the one where each walk runs to its end. [None] when the fuel runs out. *)
Fixpoint walk (readDir : string -> list DirEntry) (fuel : nat) (path : string) (segments : list string)
    : option (list DiscoveredFile) :=
  match fuel with
  | O => None
  | S fuel' =>
      let entries := readDir path in
      let own := omap (fun e => if d_isDirectory e then None
                                else (fun k => mkFile k segments) <$> kindOf (d_name e)) entries in
      let subdirs := List.filter d_isDirectory entries in
      walk_all (fun e => walk readDir fuel' (joinPath path (d_name e)) (segments ++ [d_name e])%list) subdirs own
  end.

Definition scanRoutes (readDir : string -> list DirEntry) (fuel : nat) (root : string)
    : option (list DiscoveredFile) := walk readDir fuel root [].

(** ** The grammar of a directory name *)

Definition is_ident (s : string) : bool := starts_ident s && all_chars ident_char s.

(** [s] between an opening and a closing text. *)
Definition enclosed (o c s : string) : option string :=
  match strip o s with
  | None => None
  | Some r =>
      let n := (String.length r - String.length c)%nat in
      if String.eqb (drop_chars n r) c then Some (substring 0 n r) else None
  end.

Definition ident_in (o c s : string) : option string :=
  match enclosed o c s with Some n => if is_ident n then Some n else None | None => None end.

Definition DYNAMIC_SEGMENT : string -> option string := ident_in "[" "]".
Definition CATCH_ALL_SEGMENT : string -> option string := ident_in "[..." "]".
Definition OPTIONAL_CATCH_ALL_SEGMENT : string -> option string := ident_in "[[..." "]]".

Definition group_char (c : ascii) : bool := ident_char c || Ascii.eqb c "-".
Definition GROUP_SEGMENT (s : string) : bool :=
  match enclosed "(" ")" s with Some n => nonempty n && all_chars group_char n | None => false end.

Definition static_char (c : ascii) : bool := ident_char c || Ascii.eqb c "." || Ascii.eqb c "-".
Definition STATIC_SEGMENT (s : string) : bool := nonempty s && all_chars static_char s.

Definition isGroupSegment (s : string) : bool := GROUP_SEGMENT s.

Definition is_some {A} (o : option A) : bool := match o with Some _ => true | None => false end.

Definition isCatchAllSegment (s : string) : bool :=
  is_some (CATCH_ALL_SEGMENT s) || is_some (OPTIONAL_CATCH_ALL_SEGMENT s).

Definition paramNameOf (segment : string) : option string :=
  match OPTIONAL_CATCH_ALL_SEGMENT segment with
  | Some n => Some n
  | None =>
      match CATCH_ALL_SEGMENT segment with
      | Some n => Some n
      | None => DYNAMIC_SEGMENT segment
      end
  end.

Definition compileSegment (segment : string) : outcome RouterError string :=
  match OPTIONAL_CATCH_ALL_SEGMENT segment with
  | Some n => Ok (String.append "*" (String.append n "?"))
  | None =>
      match CATCH_ALL_SEGMENT segment with
      | Some n => Ok (String.append "*" n)
      | None =>
          match DYNAMIC_SEGMENT segment with
          | Some n => Ok (String.append ":" n)
          | None => if STATIC_SEGMENT segment then Ok segment else Throw (ROUTER_FILE_BAD_SEGMENT segment)
          end
      end
  end.

Fixpoint compileSegments (segments : list string) : outcome RouterError (list string) :=
  match segments with
  | [] => Ok []
  | s :: segments' =>
      let! p := compileSegment s in
      let! ps := compileSegments segments' in
      Ok (p :: ps)
  end.

Definition url_segments (segments : list string) : list string :=
  List.filter (fun s => negb (isGroupSegment s)) segments.

Definition patternFor (segments : list string) : outcome RouterError string :=
  match url_segments segments with
  | [] => Ok "/"
  | urls => let! ps := compileSegments urls in Ok (String.append "/" (join "/" ps))
  end.

Definition dirKey (segments : list string) : string := join "/" segments.

(** ** The match shape *)

(** [s.replace(/MARK[A-Za-z_][A-Za-z0-9_]*/g, by)], with [\??] at the end where [opt];
    [inside] a name being dropped. *)
Fixpoint replace_tokens (mark : ascii) (opt : bool) (by_ : string) (inside : bool) (s : string) : string :=
  match s with
  | EmptyString => EmptyString
  | String c s' =>
      if inside && ident_char c then replace_tokens mark opt by_ true s'
      else if inside && opt && Ascii.eqb c "?" then replace_tokens mark opt by_ false s'
      else if Ascii.eqb c mark && starts_ident s'
      then String.append by_ (replace_tokens mark opt by_ true s')
      else String c (replace_tokens mark opt by_ false s')
  end.

Definition matchShape (pattern : string) : string :=
  replace_tokens ":" false "*" false (replace_tokens "*" true "**" false pattern).

(** ** The guards *)

Fixpoint assertNoDuplicateParam (segments : list string) (seen : gset string) : outcome RouterError unit :=
  match segments with
  | [] => Ok tt
  | s :: segments' =>
      match paramNameOf s with
      | None => assertNoDuplicateParam segments' seen
      | Some name =>
          if bool_decide (name ∈ seen) then Throw (ROUTER_FILE_DUPLICATE_PARAM name)
          else assertNoDuplicateParam segments' ({[name]} ∪ seen)
      end
  end.

Fixpoint assertCatchAllTerminal (urlSegments : list string) : outcome RouterError unit :=
  match urlSegments with
  | [] | [_] => Ok tt
  | s :: urlSegments' =>
      if isCatchAllSegment s then Throw (ROUTER_FILE_CATCHALL_POSITION s)
      else assertCatchAllTerminal urlSegments'
  end.

(** ** Compiled routes *)

Record BoundaryDepths := mkBoundaries { b_loading : option nat; b_error : option nat; b_not_found : option nat }.

Record FileRoute := mkRoute {
  kind : FileRouteKind;
  pattern : string;
  segments : list string;
  layoutDepth : list nat;
  middlewareDepth : list nat;
  boundaries : BoundaryDepths
}.

Definition no_boundaries : BoundaryDepths := mkBoundaries None None None.

Definition guards_page (middlewareKey : string) (pageKeys : list string) : bool :=
  if String.eqb middlewareKey EmptyString then negb (Nat.eqb (length pageKeys) 0)
  else existsb (fun k => String.eqb k middlewareKey || startsWith (String.append middlewareKey "/") k) pageKeys.

Fixpoint assertNoOrphanMiddleware (files : list DiscoveredFile) (pageKeys : list string) : outcome RouterError unit :=
  match files with
  | [] => Ok tt
  | file :: files' =>
      if bool_decide (f_kind file = middleware)
      then if guards_page (dirKey (f_segments file)) pageKeys then assertNoOrphanMiddleware files' pageKeys
           else Throw (ROUTER_FILE_ORPHAN_MIDDLEWARE (dirKey (f_segments file)))
      else assertNoOrphanMiddleware files' pageKeys
  end.

(** [Record<BoundaryKind, Set<string>>]. *)
Definition BoundaryKeys : Type := FileRouteKind -> gset string.

(** [byKind[file.kind].add(...)] throws where the kind is no key of the record. *)
Fixpoint boundaryKeysByKind_loop (files : list DiscoveredFile) (byKind : BoundaryKeys)
    : outcome RouterError BoundaryKeys :=
  match files with
  | [] => Ok byKind
  | file :: files' =>
      match f_kind file with
      | page => boundaryKeysByKind_loop files' byKind
      | inherited _ => Throw TYPE_ERROR
      | k => boundaryKeysByKind_loop files'
               (fun k' => if bool_decide (k' = k) then {[dirKey (f_segments file)]} ∪ byKind k' else byKind k')
      end
  end.

Definition boundaryKeysByKind (files : list DiscoveredFile) : outcome RouterError BoundaryKeys :=
  boundaryKeysByKind_loop files (fun _ => ∅).

(** The depths [depth, ..., length pageSegments], [n] of them, whose directory has the file. *)
Definition layoutDepthsFor (pageSegments : list string) (layoutKeys : gset string) : list nat :=
  List.filter (fun depth => bool_decide (dirKey (firstn depth pageSegments) ∈ layoutKeys))
    (List.seq 0 (S (length pageSegments))).

Definition boundariesFor (pageSegments : list string) (keysByKind : BoundaryKeys) : BoundaryDepths :=
  let nearest k := list.last (layoutDepthsFor pageSegments (keysByKind k)) in
  mkBoundaries (nearest loading) (nearest error) (nearest not_found).

(** ** Specificity *)

Definition urlPatternSegments (pattern : string) : list string :=
  if String.eqb pattern "/" then [] else split "/" (drop_chars 1 pattern).

Definition isCatchAllPattern (pattern : string) : bool := has_char "*" pattern.

Definition segmentRank (segment : string) : Z :=
  if startsWith "*" segment then 2 else if startsWith ":" segment then 1 else 0.

Fixpoint compare_ranks (a b : list string) : Z :=
  match a, b with
  | x :: a', y :: b' =>
      let rank := segmentRank x - segmentRank y in
      if Z.eqb rank 0 then compare_ranks a' b' else rank
  | _, _ => 0
  end.

Definition comparePageSpecificity (a b : FileRoute) : Z :=
  let aCatchAll := isCatchAllPattern (pattern a) in
  let bCatchAll := isCatchAllPattern (pattern b) in
  if negb (Bool.eqb aCatchAll bCatchAll) then (if aCatchAll then 1 else -1)
  else
    let aSegments := urlPatternSegments (pattern a) in
    let bSegments := urlPatternSegments (pattern b) in
    if negb (Nat.eqb (length aSegments) (length bSegments))
    then Z.of_nat (length bSegments) - Z.of_nat (length aSegments)
    else
      let rank := compare_ranks aSegments bSegments in
      if Z.eqb rank 0 then (if String.ltb (pattern a) (pattern b) then -1 else 1) else rank.

(** [Array.prototype.sort] with a consistent comparator: the stable sort. *)
Fixpoint sort_insert (cmp : FileRoute -> FileRoute -> Z) (x : FileRoute) (l : list FileRoute) : list FileRoute :=
  match l with
  | [] => [x]
  | y :: l' => if Z.leb (cmp x y) 0 then x :: l else y :: sort_insert cmp x l'
  end.

Definition sort (cmp : FileRoute -> FileRoute -> Z) (l : list FileRoute) : list FileRoute :=
  foldr (sort_insert cmp) [] l.

(** ** [compileFileRoutes] *)

(** The loop over the files: the shapes seen so far go in, the descriptors of the
    boundaries and of the pages come out. *)
Fixpoint compile_files (boundaryKeys : BoundaryKeys) (files : list DiscoveredFile) (seenShape : gset string)
    : outcome RouterError (list FileRoute * list FileRoute) :=
  match files with
  | [] => Ok ([], [])
  | file :: files' =>
      let! pattern := patternFor (f_segments file) in
      if negb (bool_decide (f_kind file = page)) then
        let! (bs, pages) := compile_files boundaryKeys files' seenShape in
        Ok (mkRoute (f_kind file) pattern (f_segments file) [] [] no_boundaries :: bs, pages)
      else
        let urls := url_segments (f_segments file) in
        let! _ := assertCatchAllTerminal urls in
        let shape := matchShape pattern in
        if bool_decide (shape ∈ seenShape) then Throw (ROUTER_FILE_DUPLICATE_ROUTE shape)
        else
          let! _ := assertNoDuplicateParam urls ∅ in
          let! (bs, pages) := compile_files boundaryKeys files' ({[shape]} ∪ seenShape) in
          Ok (bs, mkRoute page pattern (f_segments file)
                    (layoutDepthsFor (f_segments file) (boundaryKeys layout))
                    (layoutDepthsFor (f_segments file) (boundaryKeys middleware))
                    (boundariesFor (f_segments file) boundaryKeys) :: pages)
  end.

Definition compileFileRoutes (files : list DiscoveredFile) : outcome RouterError (list FileRoute) :=
  let! boundaryKeys := boundaryKeysByKind files in
  let! (bs, pages) := compile_files boundaryKeys files ∅ in
  let! _ := assertNoOrphanMiddleware files (map (fun p => dirKey (segments p)) pages) in
  Ok (sort (fun a b => Z.of_nat (length (segments a)) - Z.of_nat (length (segments b))) bs ++
      sort comparePageSpecificity pages)%list.
