(* ===== verification/FileRoutesProps.v ===== *)
(** * File-based routing: segments and patterns

    What the grammar of directory names accepts, the patterns the accepted ones make, and
    what those patterns match. *)
From Stdlib Require Import Sorting.Permutation.
From S2P Require Import Prelude JsString Router RouterProps FileRoutes.
#[local] Open Scope string_scope.

(** ** Accepted segments *)

(** What a directory name that is no group stands for. *)
Inductive Seg_ := Static (s : string) | Dyn (n : string) | Tail (n : string) (optional : bool).

Definition show (u : Seg_) : string :=
  match u with
  | Static s => s
  | Dyn n => String ":" n
  | Tail n optional => String "*" (String.append n (if optional then "?" else EmptyString))
  end.

Definition seg_wf (u : Seg_) : bool :=
  match u with Static s => STATIC_SEGMENT s | Dyn n | Tail n _ => is_ident n end.

Definition parse_segment (s : string) : option Seg_ :=
  match OPTIONAL_CATCH_ALL_SEGMENT s with
  | Some n => Some (Tail n true)
  | None =>
      match CATCH_ALL_SEGMENT s with
      | Some n => Some (Tail n false)
      | None =>
          match DYNAMIC_SEGMENT s with
          | Some n => Some (Dyn n)
          | None => if STATIC_SEGMENT s then Some (Static s) else None
          end
      end
  end.

Lemma ident_in_wf o c s n : ident_in o c s = Some n -> is_ident n = true.
Proof. unfold ident_in. destruct (enclosed o c s) as [m|]; [|done]. destruct (is_ident m) eqn:E; [|done]. by intros [= <-]. Qed.

Lemma parse_segment_wf s u : parse_segment s = Some u -> seg_wf u = true.
Proof.
  unfold parse_segment.
  destruct (OPTIONAL_CATCH_ALL_SEGMENT s) as [n|] eqn:E1; [intros [= <-]; by eapply ident_in_wf|].
  destruct (CATCH_ALL_SEGMENT s) as [n|] eqn:E2; [intros [= <-]; by eapply ident_in_wf|].
  destruct (DYNAMIC_SEGMENT s) as [n|] eqn:E3; [intros [= <-]; by eapply ident_in_wf|].
  destruct (STATIC_SEGMENT s) eqn:E4; [|done]. by intros [= <-].
Qed.

Lemma compileSegment_parse s p :
  compileSegment s = Ok p <-> exists u, parse_segment s = Some u /\ p = show u.
Proof.
  unfold compileSegment, parse_segment.
  destruct (OPTIONAL_CATCH_ALL_SEGMENT s) as [n|]; [simpl; naive_solver|].
  destruct (CATCH_ALL_SEGMENT s) as [n|]; [simpl; split;
    [intros [= <-]; exists (Tail n false); simpl; by rewrite append_nil_r
    |intros (u & [= <-] & ->); simpl; by rewrite append_nil_r]|].
  destruct (DYNAMIC_SEGMENT s) as [n|]; [simpl; naive_solver|].
  destruct (STATIC_SEGMENT s); naive_solver.
Qed.

Lemma compileSegments_parse segs ps :
  compileSegments segs = Ok ps <-> exists us, mapM parse_segment segs = Some us /\ ps = map show us.
Proof.
  revert ps. induction segs as [|s segs IH]; intros ps; simpl.
  { split; [intros [= <-]; by exists []|by intros (us & [= <-] & ->)]. }
  destruct (compileSegment s) as [p|] eqn:E; simpl.
  - apply compileSegment_parse in E as (u & Hu & ->). rewrite Hu. simpl.
    destruct (compileSegments segs) as [ps'|] eqn:Es; simpl.
    + destruct (proj1 (IH ps') eq_refl) as (us & -> & ->).
      split; [intros [= <-]; by exists (u :: us)|by intros (us' & [= <-] & ->)].
    + split; [done|]. intros (us & Hus & ->).
      destruct (mapM parse_segment segs) as [us'|] eqn:Em; [|done].
      pose proof (proj2 (IH (map show us')) (ex_intro _ us' (conj eq_refl eq_refl))) as N. done.
  - split; [done|]. intros (us & Hus & _).
    destruct (parse_segment s) as [u|] eqn:Hu; [|done].
    rewrite (proj2 (compileSegment_parse s (show u))) in E by eauto. done.
Qed.

Lemma mapM_wf segs us : mapM parse_segment segs = Some us -> Forall (fun u => seg_wf u = true) us.
Proof.
  intros H%mapM_Some. induction H as [|s u segs us Hp _ IH]; constructor; [by eapply parse_segment_wf|done].
Qed.

(** ** Patterns *)

Fixpoint pat (us : list Seg_) : string :=
  match us with [] => EmptyString | u :: us' => String "/" (String.append (show u) (pat us')) end.

Definition show_path (us : list Seg_) : string := match us with [] => "/" | _ => pat us end.

Lemma pat_join us : us <> [] -> pat us = String "/" (join "/" (map show us)).
Proof.
  induction us as [|u [|v us] IH]; intros H; [done|simpl; by rewrite append_nil_r|].
  cbn [pat map join] in *. rewrite IH by done. done.
Qed.

Lemma patternFor_parse segs p :
  patternFor segs = Ok p <->
  exists us, mapM parse_segment (url_segments segs) = Some us /\ p = show_path us.
Proof.
  unfold patternFor. destruct (url_segments segs) as [|s urls] eqn:E.
  { split; [intros [= <-]; by exists []|by intros (us & [= <-] & ->)]. }
  destruct (compileSegments (s :: urls)) as [ps|e] eqn:Es.
  - apply compileSegments_parse in Es as (us & Hm & ->). rewrite Hm. simpl.
    assert (Hne : us <> []) by (intros ->; apply mapM_Some in Hm; inversion Hm).
    assert (Hp : show_path us = String "/" (join "/" (map show us))) by (destruct us; [done|by apply pat_join]).
    split; [intros [= <-]; eauto|]. intros (us' & [= <-] & ->). by rewrite Hp.
  - simpl. split; [done|]. intros (us & Hm & _).
    rewrite (proj2 (compileSegments_parse _ (map show us))) in Es by eauto. done.
Qed.

(** ** Characters *)

Lemma ident_start_char c : ident_start c = true -> ident_char c = true.
Proof. unfold ident_char. by intros ->. Qed.

Lemma ident_no c d n : ident_char d = false -> is_ident n = true -> c = d -> has_char c n = false.
Proof.
  unfold is_ident. intros Hd [_ H]%andb_true_iff ->. rewrite has_char_all. apply negb_false_iff.
  eapply all_chars_impl; [|exact H]. intros a Ha. destruct (Ascii.eqb_spec a d) as [->|]; [congruence|done].
Qed.

Lemma static_no c s : static_char c = false -> STATIC_SEGMENT s = true -> has_char c s = false.
Proof.
  unfold STATIC_SEGMENT. intros Hc [_ H]%andb_true_iff. rewrite has_char_all. apply negb_false_iff.
  eapply all_chars_impl; [|exact H]. intros a Ha. destruct (Ascii.eqb_spec a c) as [->|]; [congruence|done].
Qed.

Lemma show_no_slash u : seg_wf u = true -> has_char "/" (show u) = false.
Proof.
  destruct u as [s|n|n opt]; cbn [seg_wf show has_char]; intros H.
  - by apply static_no.
  - by apply (ident_no "/" "/").
  - simpl. rewrite has_char_app, (ident_no "/" "/" n) by done. by destruct opt.
Qed.

Lemma show_nonempty u : seg_wf u = true -> nonempty (show u) = true.
Proof. destruct u; simpl; try done. unfold STATIC_SEGMENT. by intros [? _]%andb_true_iff. Qed.

(** ** Scanning a pattern *)

(** What follows a segment in a pattern. *)
Definition rest_ok (r : string) : Prop := r = EmptyString \/ exists r', r = String "/" r'.

Lemma pat_rest us : rest_ok (pat us).
Proof. destruct us; [by left|right; eexists; reflexivity]. Qed.

Lemma scan_text t x r :
  has_char ":" x = false -> has_char "*" x = false -> scan (InText t) (String.append x r) = scan (InText (String.append t x)) r.
Proof.
  revert t. induction x as [|c x IH]; intros t; simpl; [by rewrite append_nil_r|].
  intros [E1 H1]%orb_false_iff [E2 H2]%orb_false_iff.
  assert (T : text_step t c (String.append x r) = InText (snoc t c)) by (unfold text_step; by rewrite E1, E2).
  rewrite T, IH by done. unfold snoc. by rewrite append_assoc.
Qed.

Lemma scan_name t name x r :
  all_chars ident_char x = true -> rest_ok r ->
  scan (InSingle t name) (String.append x r) =
  let '(ts, trailing) := scan (InText EmptyString) r in ((t, Single (String.append name x)) :: ts, trailing).
Proof.
  revert name. induction x as [|c x IH]; intros name Hx Hr; simpl.
  - rewrite append_nil_r. by destruct Hr as [->|[r' ->]].
  - simpl in Hx. apply andb_true_iff in Hx as [Hc Hx]. rewrite Hc, IH by done.
    unfold snoc. by rewrite append_assoc.
Qed.

Lemma scan_rest_name t name x (opt : bool) :
  all_chars ident_char x = true ->
  scan (InRest t name) (String.append x (if opt then "?" else EmptyString)) =
  ([(t, Rest (String.append name x) opt)], EmptyString).
Proof.
  revert name. induction x as [|c x IH]; intros name Hx; simpl.
  - rewrite append_nil_r. by destruct opt.
  - simpl in Hx. apply andb_true_iff in Hx as [Hc Hx]. rewrite Hc, IH by done.
    unfold snoc. by rewrite append_assoc.
Qed.

Lemma is_ident_cons n : is_ident n = true -> exists c n', n = String c n' /\ ident_start c = true /\ all_chars ident_char n = true.
Proof. unfold is_ident. intros [H1 H2]%andb_true_iff. destruct n as [|c n]; [done|]. eauto. Qed.

Lemma scan_static t s us :
  STATIC_SEGMENT s = true ->
  scan (InText t) (pat (Static s :: us)) = scan (InText (String.append t (String "/" s))) (pat us).
Proof.
  intros H. cbn [pat show]. change (String "/" (String.append s (pat us))) with (String.append (String "/" s) (pat us)).
  apply scan_text; simpl; by apply static_no.
Qed.

Lemma scan_dyn t n us :
  is_ident n = true ->
  scan (InText t) (pat (Dyn n :: us)) =
  let '(ts, trailing) := scan (InText EmptyString) (pat us) in ((String.append t "/", Single n) :: ts, trailing).
Proof.
  intros (c & n' & -> & Hs & Ha)%is_ident_cons. cbn [pat show].
  change (String "/" (String.append (String ":" (String c n')) (pat us)))
    with (String.append "/" (String ":" (String.append (String c n') (pat us)))).
  rewrite scan_text by done. cbn [scan String.append].
  assert (T : text_step (String.append t "/") ":" (String c (String.append n' (pat us))) = InSingle (String.append t "/") EmptyString)
    by (unfold text_step; simpl; by rewrite Hs).
  rewrite T. change (String c (String.append n' (pat us))) with (String.append (String c n') (pat us)).
  pose proof (scan_name (String.append t "/") EmptyString _ _ Ha (pat_rest us)) as Q. exact Q.
Qed.

Lemma scan_tail t n opt :
  is_ident n = true -> scan (InText t) (pat [Tail n opt]) = ([(String.append t "/", Rest n opt)], EmptyString).
Proof.
  intros (c & n' & -> & Hs & Ha)%is_ident_cons. cbn [pat show]. rewrite append_nil_r.
  change (String "/" (String "*" (String.append (String c n') (if opt then "?" else EmptyString))))
    with (String.append "/" (String "*" (String.append (String c n') (if opt then "?" else EmptyString)))).
  rewrite scan_text by done. cbn [scan].
  assert (T : text_step (String.append t "/") "*" (String.append (String c n') (if opt then "?" else EmptyString))
    = InRest (String.append t "/") EmptyString) by (unfold text_step; simpl; by rewrite Hs).
  by rewrite T, scan_rest_name.
Qed.

(** ** What a pattern matches *)

Definition is_tail (u : Seg_) : bool := match u with Tail _ _ => true | _ => false end.

Fixpoint tail_last (us : list Seg_) : bool :=
  match us with [] | [_] => true | u :: us' => negb (is_tail u) && tail_last us' end.

Definition valid (us : list Seg_) : Prop := Forall (fun u => seg_wf u = true) us /\ tail_last us = true.

Definition name_of (u : Seg_) : option string :=
  match u with Static _ => None | Dyn n | Tail n _ => Some n end.

(** The paths of a list of segments; [bare] where nothing but a slash separates the first
    from the start or from a param. *)
Fixpoint accepts (bare : bool) (us : list Seg_) (s : string) : Prop :=
  match us with
  | [] => s = EmptyString
  | Static x :: us' => exists s', s = String "/" (String.append x s') /\ accepts false us' s'
  | Dyn _ :: us' => exists x s', seg_ok x = true /\ s = String "/" (String.append x s') /\ accepts true us' s'
  | Tail _ optional :: _ =>
      (exists x, run_ok x = true /\ s = String "/" x) \/
      (optional = true /\ s = if bare then "/" else EmptyString)
  end.

Definition path_accepts (us : list Seg_) (path : string) : Prop :=
  match us with [] => path = "/" | _ => accepts true us path end.

Lemma ends_slash t : ends_with_slash (String.append t "/") = true.
Proof.
  unfold ends_with_slash. rewrite length_append. simpl.
  replace (String.length t + 1 - 1)%nat with (String.length t) by lia. by rewrite drop_app_exact.
Qed.

Lemma chop_slash t : chop (String.append t "/") = t.
Proof.
  unfold chop. rewrite length_append. simpl.
  replace (String.length t + 1 - 1)%nat with (String.length t) by lia. apply substring_app_exact.
Qed.

Lemma eqb_slash t : String.eqb (String.append t "/") "/" = negb (nonempty t).
Proof. destruct t as [|c t]; [done|]. simpl. destruct (Ascii.eqb c "/"); [|done]. by destruct t. Qed.

Lemma valid_cons u us : valid (u :: us) -> seg_wf u = true /\ valid us /\ (is_tail u = true -> us = []).
Proof.
  intros [H1 H2]. inversion H1 as [|? ? Hu Hus]; subst. split; [done|]. destruct us as [|v us]; [done|].
  cbn [tail_last] in H2. apply andb_true_iff in H2 as [H2 H3]. split; [done|].
  destruct (is_tail u); done.
Qed.

(** Compiling the pattern of segments whose first follows the text [t]. *)
Lemma compile_pat us t sp :
  valid us ->
  exists c, compile_loop (fst (scan (InText t) (pat us))) (snd (scan (InText t) (pat us))) sp false = Ok c /\
    paramNames c = omap name_of us /\
    forall s, (exists caps, fits (regExp c) caps s) <->
      exists s', s = String.append t s' /\ accepts (negb (nonempty t)) us s'.
Proof.
  revert t sp. induction us as [|u us IH]; intros t sp H.
  { simpl. eexists. split; [done|]. split; [done|]. intros s. cbn [regExp fits].
    split; [intros (caps & s' & -> & _ & ->); eauto|intros (s' & -> & ->); eauto 6]. }
  apply valid_cons in H as (Hw & Hv & Ht). destruct u as [x|n|n opt]; cbn [seg_wf] in Hw.
  - rewrite scan_static by done. destruct (IH (String.append t (String "/" x)) sp Hv) as (c & Ec & Hn & Hf).
    exists c. split; [done|]. split; [done|]. intros s. rewrite Hf. cbn [accepts].
    assert (E : negb (nonempty (String.append t (String "/" x))) = false) by by destruct t.
    rewrite E. setoid_rewrite append_assoc. cbn [String.append]. split.
    + intros (s' & -> & Ha). eexists. split; [reflexivity|]. eauto.
    + intros (s' & -> & s'' & -> & Ha). eauto.
  - rewrite scan_dyn by done. destruct (IH EmptyString true Hv) as (c & Ec & Hn & Hf).
    destruct (scan (InText EmptyString) (pat us)) as [ts tr]. cbn [fst snd] in *. cbn [compile_loop].
    rewrite has_char_app, orb_true_r, andb_false_r, Ec. simpl. eexists. split; [done|].
    split; [simpl; by rewrite Hn|]. intros s. cbn [regExp fits accepts]. split.
    + intros (caps & s1 & -> & x & caps' & s2 & -> & Hx & -> & Hc).
      destruct (proj1 (Hf s2)) as (s3 & -> & Ha); [eauto|]. rewrite append_assoc. eexists. split; [reflexivity|].
      simpl. exists x, s3. auto.
    + intros (s1 & -> & x & s2 & Hx & -> & Ha). destruct (proj2 (Hf s2)) as (caps & Hc); [eauto|].
      exists (Some x :: caps), (String.append x s2). rewrite append_assoc. split; [done|]. eauto 8.
  - rewrite (Ht eq_refl) in *. rewrite scan_tail by done. cbn [fst snd compile_loop]. rewrite ends_slash. simpl.
    eexists. split; [done|]. split; [done|]. intros s. cbn [regExp accepts].
    rewrite chop_slash, eqb_slash. destruct opt; [destruct t as [|a t]|]; cbn [nonempty negb app fits].
    + split.
      * intros (caps & s1 & -> & [(x & c1 & s2 & -> & Hx & -> & s3 & -> & -> & ->)|(c1 & -> & s3 & -> & -> & ->)]).
        -- eexists. split; [reflexivity|]. left. exists x. simpl. by rewrite !append_nil_r.
        -- eexists. split; [reflexivity|]. by right.
      * intros (s1 & -> & [(x & Hx & ->)|(_ & ->)]).
        -- exists [Some x], x. split; [done|]. left. exists x, [], EmptyString. rewrite append_nil_r. eauto 8.
        -- exists [None], EmptyString. split; [done|]. right. eauto 8.
    + split.
      * intros (caps & s1 & -> & [(x & c1 & s2 & -> & Hx & -> & s3 & -> & -> & ->)|(c1 & -> & s3 & -> & -> & ->)]).
        -- eexists. split; [reflexivity|]. left. exists x. simpl. by rewrite !append_nil_r.
        -- eexists. split; [reflexivity|]. by right.
      * intros (s1 & -> & [(x & Hx & ->)|(_ & ->)]).
        -- exists [Some x], (String "/" x). split; [done|]. left. exists x, [], EmptyString. simpl. rewrite append_nil_r. eauto 8.
        -- exists [None], EmptyString. split; [done|]. right. eauto 8.
    + split.
      * intros (caps & s1 & -> & x & c1 & s2 & -> & Hx & -> & s3 & -> & -> & ->).
        rewrite append_assoc. eexists. split; [reflexivity|]. left. exists x. simpl. by rewrite append_nil_r.
      * intros (s1 & -> & [(x & Hx & ->)|([=] & _)]).
        exists [Some x], x. rewrite append_assoc. split; [done|]. exists x, [], EmptyString.
        rewrite append_nil_r. eauto 8.
Qed.

(** The router accepts the pattern, whose params are the names, and its matches are the
    segments' paths. *)
Lemma page_language us :
  valid us ->
  exists c, compile (show_path us) = Ok c /\ paramNames c = omap name_of us /\
    forall path, is_Some (exec (regExp c) path) <-> path_accepts us path.
Proof.
  intros Hv.
  assert (X : forall c path, is_Some (exec (regExp c) path) <-> exists caps, fits (regExp c) caps path).
  { intros c path. split; [intros [caps H]; exists caps; by apply exec_sound|intros [caps H]; by eapply exec_complete]. }
  destruct us as [|u us].
  { eexists. split; [done|]. split; [done|]. intros path. rewrite X. cbn [regExp fits path_accepts].
    split; [by intros (caps & s & -> & _ & ->)|intros ->; exists [], EmptyString; auto]. }
  destruct (compile_pat (u :: us) EmptyString false Hv) as (c & Ec & Hn & Hf). exists c.
  change (show_path (u :: us)) with (pat (u :: us)). unfold compile, tokens.
  destruct (scan (InText EmptyString) (pat (u :: us))) as [ts tr]. split; [done|]. split; [done|].
  intros path. rewrite X, Hf. cbn [negb nonempty path_accepts]. split; [by intros (s' & -> & H)|eauto].
Qed.

(** ** Segments of two patterns that share a path *)

Definition rank (u : Seg_) : Z := match u with Static _ => 0 | Dyn _ => 1 | Tail _ _ => 2 end.

(** A segment up to the name of its param. *)
Definition norm (u : Seg_) : Seg_ :=
  match u with Static s => Static s | Dyn _ => Dyn EmptyString | Tail _ _ => Tail EmptyString false end.

Lemma accepts_rest b us s : b = false \/ existsb is_tail us = false -> accepts b us s -> rest_ok s.
Proof.
  unfold rest_ok. destruct us as [|[x|n|n opt] us]; simpl; intros Hb; [auto|..].
  - intros (s' & -> & _). eauto.
  - intros (x & s' & _ & -> & _). eauto.
  - intros [(x & _ & ->)|[_ ->]]; [eauto|]. destruct b; eauto.
Qed.

Lemma rest_upto s : rest_ok s -> upto s = EmptyString.
Proof. by intros [->|[r ->]]. Qed.

Lemma first_segment x y s s' :
  has_char "/" x = false -> has_char "/" y = false -> rest_ok s -> rest_ok s' ->
  String "/" (String.append x s) = String "/" (String.append y s') -> x = y /\ s = s'.
Proof.
  intros Hx Hy Hs Hs' [= E]. pose proof (f_equal upto E) as U.
  rewrite !upto_app, !rest_upto, !append_nil_r in U by done. subst y. split; [done|]. by eapply append_inj_l.
Qed.

Lemma accepts_any_rest b us s : accepts b us s -> rest_ok s.
Proof.
  unfold rest_ok. destruct us as [|[x|n|n opt] us]; simpl; [auto|..].
  - intros (s' & -> & _). eauto.
  - intros (x & s' & _ & -> & _). eauto.
  - intros [(x & _ & ->)|[_ ->]]; [eauto|]. destruct b; eauto.
Qed.

Lemma seg_ok_no_slash x : seg_ok x = true -> has_char "/" x = false /\ x <> EmptyString.
Proof. unfold seg_ok. intros [H1 H2]%andb_true_iff. split; [by apply negb_true_iff|by destruct x]. Qed.

Lemma static_spec s : STATIC_SEGMENT s = true -> has_char "/" s = false /\ s <> EmptyString.
Proof. intros H. split; [by apply static_no|]. apply andb_true_iff in H as [H _]. by destruct s. Qed.

(** Peel the first segment of a path two patterns accept. *)
Ltac first_seg :=
  match goal with
  | E : String "/" (String.append ?x ?s) = String "/" (String.append ?y ?s'), A : accepts _ _ ?s, A' : accepts _ _ ?s' |- _ =>
      apply first_segment in E;
      [destruct E; subst| | |exact (accepts_any_rest _ _ _ A)|exact (accepts_any_rest _ _ _ A')];
      [|first [by apply static_spec|by apply seg_ok_no_slash]..]
  end.

Lemma same_ranks_same_norm us vs b b' s :
  valid us -> valid vs -> map rank us = map rank vs -> accepts b us s -> accepts b' vs s -> map norm us = map norm vs.
Proof.
  revert vs b b' s. induction us as [|u us IH]; intros [|v vs] b b' s Hu Hv Hr; try done.
  apply valid_cons in Hu as (Wu & Vu & Tu), Hv as (Wv & Vv & Tv). injection Hr as Hr Hrs.
  destruct u as [x|n|n opt], v as [y|m|m opt']; try done; cbn [accepts map norm seg_wf] in *.
  - intros (s1 & -> & A) (s2 & E & A'). first_seg. f_equal. by eapply IH.
  - intros (x & s1 & Hx & -> & A) (y & s2 & Hy & E & A'). first_seg. f_equal. by eapply IH.
  - by rewrite (Tu eq_refl), (Tv eq_refl).
Qed.

Lemma same_depth us vs b b' s :
  valid us -> valid vs -> existsb is_tail us = false -> existsb is_tail vs = false ->
  accepts b us s -> accepts b' vs s -> length us = length vs.
Proof.
  revert vs b b' s. induction us as [|u us IH]; intros [|v vs] b b' s Hu Hv Nu Nv.
  - done.
  - apply valid_cons in Hv as (Wv & _). simpl. intros ->. destruct v; [intros (s' & ? & _)|intros (x & s' & _ & ? & _)|]; done.
  - simpl. intros A ->. destruct u; [destruct A as (s' & ? & _)|destruct A as (x & s' & _ & ? & _)|]; done.
  - apply valid_cons in Hu as (Wu & Vu & Tu), Hv as (Wv & Vv & Tv).
    cbn [existsb] in Nu, Nv. apply orb_false_iff in Nu as [Nu Nus], Nv as [Nv Nvs].
    destruct u as [x|n|n opt], v as [y|m|m opt']; try done; cbn [accepts length seg_wf] in *.
    + intros (s1 & -> & A) (s2 & E & A'). first_seg. f_equal. by eapply IH.
    + intros (s1 & -> & A) (y & s2 & Hy & E & A'). first_seg. f_equal. by eapply IH.
    + intros (x & s1 & Hx & -> & A) (s2 & E & A'). first_seg. f_equal. by eapply IH.
    + intros (x & s1 & Hx & -> & A) (y & s2 & Hy & E & A'). first_seg. f_equal. by eapply IH.
Qed.

(** ** The match shape *)

Definition show_norm (u : Seg_) : string := match u with Static s => s | Dyn _ => "*" | Tail _ _ => "**" end.

Fixpoint shape_pat (us : list Seg_) : string :=
  match us with [] => EmptyString | u :: us' => String "/" (String.append (show_norm u) (shape_pat us')) end.

Definition shape_path (us : list Seg_) : string := match us with [] => "/" | _ => shape_pat us end.

Lemma replace_text mark opt by_ x r :
  has_char mark x = false ->
  replace_tokens mark opt by_ false (String.append x r) = String.append x (replace_tokens mark opt by_ false r).
Proof. induction x as [|c x IH]; simpl; [done|]. intros [E H]%orb_false_iff. by rewrite E, IH. Qed.

Lemma replace_name mark opt by_ x r :
  all_chars ident_char x = true ->
  replace_tokens mark opt by_ true (String.append x r) = replace_tokens mark opt by_ true r.
Proof. induction x as [|c x IH]; simpl; [done|]. intros [E H]%andb_true_iff. by rewrite E, IH. Qed.

Lemma replace_rest mark opt by_ r :
  rest_ok r -> replace_tokens mark opt by_ true r = replace_tokens mark opt by_ false r.
Proof. intros [->|[r' ->]]; [done|]. simpl. by rewrite andb_false_r. Qed.

Lemma replace_mark mark opt by_ n r :
  is_ident n = true ->
  replace_tokens mark opt by_ false (String mark (String.append n r)) =
  String.append by_ (replace_tokens mark opt by_ true (String.append n r)).
Proof. intros (c & n' & -> & Hs & _)%is_ident_cons. simpl. by rewrite Ascii.eqb_refl, Hs. Qed.

(** Between the two replacements: catch-alls are gone, params are not. *)
Fixpoint half_pat (us : list Seg_) : string :=
  match us with
  | [] => EmptyString
  | u :: us' => String "/" (String.append (match u with Tail _ _ => "**" | _ => show u end) (half_pat us'))
  end.

Lemma half_rest us : rest_ok (half_pat us).
Proof. destruct us; [by left|right; eexists; reflexivity]. Qed.

Lemma ident_chars n : is_ident n = true -> all_chars ident_char n = true.
Proof. unfold is_ident. by intros [_ ?]%andb_true_iff. Qed.

Lemma replace_stars us : valid us -> replace_tokens "*" true "**" false (pat us) = half_pat us.
Proof.
  induction us as [|u us IH]; intros H; [done|]. apply valid_cons in H as (Hw & Hv & Ht). specialize (IH Hv).
  cbn [pat half_pat]. destruct u as [x|n|n opt]; cbn [seg_wf show] in *.
  - change (String "/" (String.append x (pat us))) with (String.append (String "/" x) (pat us)).
    rewrite replace_text, IH; [done|]. simpl. by apply static_no.
  - change (String "/" (String.append (String ":" n) (pat us))) with (String.append (String "/" (String ":" n)) (pat us)).
    rewrite replace_text, IH; [done|]. simpl. by apply (ident_no "*" "*").
  - rewrite (Ht eq_refl). cbn [pat half_pat]. rewrite append_nil_r.
    change (String "/" (String "*" (String.append n (if opt then "?" else EmptyString))))
      with (String.append "/" (String "*" (String.append n (if opt then "?" else EmptyString)))).
    rewrite replace_text, replace_mark, replace_name by (done || by apply ident_chars). by destruct opt.
Qed.

Lemma replace_colons us : valid us -> replace_tokens ":" false "*" false (half_pat us) = shape_pat us.
Proof.
  induction us as [|u us IH]; intros H; [done|]. apply valid_cons in H as (Hw & Hv & Ht). specialize (IH Hv).
  cbn [half_pat shape_pat]. destruct u as [x|n|n opt]; cbn [seg_wf show show_norm] in *.
  - change (String "/" (String.append x (half_pat us))) with (String.append (String "/" x) (half_pat us)).
    rewrite replace_text, IH; [done|]. simpl. by apply static_no.
  - change (String "/" (String.append (String ":" n) (half_pat us)))
      with (String.append "/" (String ":" (String.append n (half_pat us)))).
    rewrite replace_text, replace_mark, replace_name, replace_rest, IH by (done || apply half_rest || by apply ident_chars).
    done.
  - change (String "/" (String.append "**" (half_pat us))) with (String.append "/**" (half_pat us)).
    by rewrite replace_text, IH.
Qed.

Lemma matchShape_pat us : valid us -> matchShape (show_path us) = shape_path us.
Proof.
  unfold matchShape. destruct us as [|u us]; [done|]. intros H.
  change (show_path (u :: us)) with (pat (u :: us)). by rewrite replace_stars, replace_colons.
Qed.

Lemma shape_rest us : rest_ok (shape_pat us).
Proof. destruct us; [by left|right; eexists; reflexivity]. Qed.

Lemma show_norm_spec u : seg_wf u = true -> has_char "/" (show_norm u) = false /\ show_norm u <> EmptyString.
Proof. destruct u; simpl; [apply static_spec|done..]. Qed.

Lemma shape_pat_inj us vs : valid us -> valid vs -> shape_pat us = shape_pat vs -> map norm us = map norm vs.
Proof.
  revert vs. induction us as [|u us IH]; intros [|v vs] Hu Hv; try done.
  apply valid_cons in Hu as (Wu & Vu & _), Hv as (Wv & Vv & _). cbn [shape_pat map]. intros E.
  apply first_segment in E as [E1 E2]; [|by apply show_norm_spec|by apply show_norm_spec|apply shape_rest|apply shape_rest].
  f_equal; [|by apply IH]. assert (S : forall x, STATIC_SEGMENT x = true -> has_char "*" x = false) by (intros; by apply static_no).
  destruct u as [x|n|n opt], v as [y|m|m opt']; cbn [show_norm norm seg_wf] in *; try done;
    try (apply S in Wu; by subst); try (apply S in Wv; by subst).
Qed.

Lemma shape_path_inj us vs : valid us -> valid vs -> shape_path us = shape_path vs <-> map norm us = map norm vs.
Proof.
  intros Hu Hv. split.
  - assert (N : forall w ws, valid (w :: ws) -> shape_pat (w :: ws) <> "/").
    { intros w ws (Ww & _)%valid_cons. apply show_norm_spec in Ww as [_ Ww]. simpl. intros [= E].
      by destruct (show_norm w). }
    destruct us as [|u us], vs as [|v vs]; [done|intros E|intros E|by apply shape_pat_inj].
    + by destruct (N _ _ Hv).
    + by destruct (N _ _ Hu).
  - intros E. assert (F : forall ws, shape_pat ws = shape_pat (map norm ws)).
    { induction ws as [|w ws IHw]; [done|]. cbn [map shape_pat]. rewrite IHw. by destruct w. }
    destruct us as [|u us], vs as [|v vs]; try done. unfold shape_path. by rewrite F, E, <- F.
Qed.
