(* ===== verification/FileRoutesOrder.v ===== *)
(** * File-based routing: the compiled routes

    Which files [compileFileRoutes] accepts and what it makes of them: every middleware
    runs for the pages below it, no two pages tie on a path, the order of the scan does
    not matter. *)
From Stdlib Require Import Sorting.Permutation Sorting.Sorted OrderedTypeEx.
From S2P Require Import Prelude JsString Router RouterProps FileRoutes FileRoutesProps.
#[local] Open Scope string_scope.

(** ** Raw directory names *)

Lemma enclosed_spec o c s n : enclosed o c s = Some n -> s = String.append o (String.append n c).
Proof.
  unfold enclosed. destruct (strip o s) as [r|] eqn:E; [|done]. apply strip_Some in E as ->.
  destruct (String.eqb_spec (drop_chars (String.length r - String.length c) r) c) as [E|]; [|done].
  intros [= <-]. f_equal.
  transitivity (String.append (substring 0 (String.length r - String.length c) r) (drop_chars (String.length r - String.length c) r));
    [by rewrite substring_drop|by rewrite E].
Qed.

Definition raw_ok (s : string) : Prop := has_char "/" s = false /\ s <> EmptyString.

Lemma ident_in_raw o c s n :
  has_char "/" o = false -> has_char "/" c = false -> o <> EmptyString -> ident_in o c s = Some n -> raw_ok s.
Proof.
  unfold ident_in. intros Ho Hc Ne. destruct (enclosed o c s) as [m|] eqn:E; [|done].
  destruct (is_ident m) eqn:I; [|done]. intros _. apply enclosed_spec in E as ->.
  unfold raw_ok. rewrite !has_char_app, Ho, Hc, (ident_no "/" "/" m) by done. split; [done|]. by destruct o.
Qed.

Lemma parse_raw s u : parse_segment s = Some u -> raw_ok s.
Proof.
  unfold parse_segment.
  destruct (OPTIONAL_CATCH_ALL_SEGMENT s) as [n|] eqn:E1; [intros _; by eapply (ident_in_raw "[[..." "]]")|].
  destruct (CATCH_ALL_SEGMENT s) as [n|] eqn:E2; [intros _; by eapply (ident_in_raw "[..." "]")|].
  destruct (DYNAMIC_SEGMENT s) as [n|] eqn:E3; [intros _; by eapply (ident_in_raw "[" "]")|].
  destruct (STATIC_SEGMENT s) eqn:E4; [|done]. intros _. by apply static_spec.
Qed.

Lemma group_raw s : isGroupSegment s = true -> raw_ok s.
Proof.
  unfold isGroupSegment, GROUP_SEGMENT. destruct (enclosed "(" ")" s) as [n|] eqn:E; [|done].
  apply enclosed_spec in E as ->. intros [Hn Ha]%andb_true_iff. split; [|done].
  rewrite !has_char_app. simpl. rewrite orb_false_r, has_char_all. apply negb_false_iff.
  eapply all_chars_impl; [|exact Ha]. intros a Hac. by destruct (Ascii.eqb_spec a "/") as [->|].
Qed.

Lemma segments_raw segs us :
  mapM parse_segment (url_segments segs) = Some us -> Forall raw_ok segs.
Proof.
  intros H%mapM_Some. apply List.Forall_forall. intros s Hs.
  destruct (isGroupSegment s) eqn:G; [by apply group_raw|].
  assert (Hin : In s (url_segments segs)) by (apply filter_negb_In; auto).
  clear -H Hin. induction H as [|s0 u l us Hp _ IH]; [done|].
  destruct Hin as [->|Hin]; [by eapply parse_raw|auto].
Qed.

(** ** Directory keys *)

Lemma split_dirKey segs : Forall raw_ok segs -> segs <> [] -> split "/" (dirKey segs) = segs.
Proof.
  intros H N. apply split_join; [done|]. eapply List.Forall_impl; [|exact H]. by intros s [? _].
Qed.

Lemma split_cat sep a b : split sep (String.append a (String sep b)) = (split sep a ++ split sep b)%list.
Proof.
  induction a as [|c a IH]; simpl; [by rewrite Ascii.eqb_refl|]. destruct (Ascii.eqb c sep); [by rewrite IH|].
  rewrite IH. destruct (split_cons sep a) as (p & ps & ->). done.
Qed.

Lemma dirKey_nil segs : Forall raw_ok segs -> dirKey segs = EmptyString <-> segs = [].
Proof.
  intros H. split; [|by intros ->]. destruct segs as [|s [|t segs]]; [done|..]; unfold dirKey; simpl.
  - inversion H as [|? ? [_ Hs] _]; subst. done.
  - inversion H as [|? ? [_ Hs] _]; subst. by destruct s.
Qed.

Lemma dirKey_inj a b : Forall raw_ok a -> Forall raw_ok b -> dirKey a = dirKey b -> a = b.
Proof.
  intros Ha Hb E. destruct (decide (a = [])) as [->|Na].
  - symmetry. by apply dirKey_nil.
  - destruct (decide (b = [])) as [->|Nb]; [by apply dirKey_nil|].
    by rewrite <- (split_dirKey a), <- (split_dirKey b), E.
Qed.

Lemma dirKey_app a s b : a <> [] -> dirKey (a ++ s :: b)%list = String.append (dirKey a) (String "/" (dirKey (s :: b))).
Proof.
  unfold dirKey. induction a as [|x [|y a] IH]; intros N; [done|done|].
  cbn [app join] in *. rewrite IH by done. by rewrite !append_assoc.
Qed.

Lemma startsWith_spec p s : startsWith p s = true <-> exists r, s = String.append p r.
Proof.
  revert s. induction p as [|c p IH]; intros s; simpl; [split; eauto|].
  destruct s as [|d s]; [split; [done|by intros [r [=]]]|].
  destruct (Ascii.eqb_spec c d) as [->|N]; simpl.
  - rewrite IH. split; intros [r E]; exists r; [by subst|by injection E].
  - split; [done|]. intros [r [= E _]]. congruence.
Qed.

(** A middleware's key guards a page exactly when its directory is on the page's path. *)
Lemma guards_page_spec m pages :
  Forall raw_ok m -> Forall (Forall raw_ok) pages ->
  guards_page (dirKey m) (map dirKey pages) = true <-> exists p, In p pages /\ firstn (length m) p = m.
Proof.
  intros Hm Hp. rewrite List.Forall_forall in Hp. unfold guards_page.
  destruct (String.eqb_spec (dirKey m) EmptyString) as [E|N].
  - apply dirKey_nil in E as ->; [|done]. rewrite length_map. destruct pages as [|p pages]; simpl.
    + split; [done|]. by intros (p & [] & _).
    + split; [|done]. intros _. exists p. auto.
  - assert (Nm : m <> []) by (intros ->; by apply N). rewrite existsb_exists. split.
    + intros (k & Hk & T). apply in_map_iff in Hk as (p & <- & Hin). exists p. split; [done|].
      specialize (Hp p Hin). apply orb_true_iff in T as [T|T].
      * apply String.eqb_eq, dirKey_inj in T as ->; [|done..]. apply firstn_all.
      * apply startsWith_spec in T as [r T]. rewrite append_assoc in T. cbn [String.append] in T.
        assert (Np : p <> []) by (intros ->; by destruct (dirKey m)).
        rewrite <- (split_dirKey p), T, split_cat, split_dirKey by done.
        rewrite firstn_app, firstn_all, Nat.sub_diag. simpl. by rewrite app_nil_r.
    + intros (p & Hin & E). exists (dirKey p). split; [by apply in_map|]. apply orb_true_iff.
      rewrite <- (firstn_skipn (length m) p), E. destruct (skipn (length m) p) as [|s b].
      * left. rewrite app_nil_r. apply String.eqb_refl.
      * right. apply startsWith_spec. rewrite dirKey_app by done. exists (dirKey (s :: b)).
        by rewrite append_assoc.
Qed.

(** ** Accepted files *)

Lemma paramNameOf_name s u : parse_segment s = Some u -> paramNameOf s = name_of u.
Proof.
  unfold parse_segment, paramNameOf.
  destruct (OPTIONAL_CATCH_ALL_SEGMENT s); [by intros [= <-]|]. destruct (CATCH_ALL_SEGMENT s); [by intros [= <-]|].
  destruct (DYNAMIC_SEGMENT s); [by intros [= <-]|]. destruct (STATIC_SEGMENT s); [by intros [= <-]|done].
Qed.

Lemma isCatchAll_tail s u : parse_segment s = Some u -> isCatchAllSegment s = is_tail u.
Proof.
  unfold parse_segment, isCatchAllSegment.
  destruct (OPTIONAL_CATCH_ALL_SEGMENT s); [intros [= <-]; apply orb_true_r|]. destruct (CATCH_ALL_SEGMENT s); [by intros [= <-]|].
  destruct (DYNAMIC_SEGMENT s); [by intros [= <-]|]. destruct (STATIC_SEGMENT s); [by intros [= <-]|done].
Qed.

Lemma terminal_spec segs us :
  mapM parse_segment segs = Some us -> assertCatchAllTerminal segs = Ok tt <-> tail_last us = true.
Proof.
  intros H%mapM_Some. induction H as [|s u segs us Hp H IH]; [done|].
  destruct H as [|s' u' segs us Hp' H]; [done|]. cbn [assertCatchAllTerminal tail_last].
  rewrite (isCatchAll_tail _ _ Hp). destruct (is_tail u); [done|]. exact IH.
Qed.

Lemma duplicates_spec segs us seen :
  mapM parse_segment segs = Some us ->
  assertNoDuplicateParam segs seen = Ok tt <->
  List.NoDup (omap name_of us) /\ forall n, In n (omap name_of us) -> n ∉ seen.
Proof.
  intros H%mapM_Some. revert seen. induction H as [|s u segs us Hp H IH]; intros seen.
  { simpl. split; [intros _; split; [constructor|done]|done]. }
  cbn [assertNoDuplicateParam]. rewrite (paramNameOf_name _ _ Hp). simpl.
  destruct (name_of u) as [n|]; [|apply IH]. case_bool_decide as D.
  - split; [done|]. intros [_ N]. exfalso. by apply (N n); [left|].
  - rewrite IH. split.
    + intros [Hd Hn]. split; [constructor; [intros Hin; apply Hn in Hin; set_solver|done]|].
      intros m [<-|Hm]; [done|]. apply Hn in Hm. set_solver.
    + intros [Hd Hn]. inversion Hd as [|? ? Hni Hd']; subst. split; [done|]. intros m Hm.
      assert (m <> n) by (by intros ->). assert (m ∉ seen) by (apply Hn; by right). set_solver.
Qed.

Definition is_page (f : DiscoveredFile) : bool := bool_decide (f_kind f = page).

Definition pattern_of (f : DiscoveredFile) : string :=
  match patternFor (f_segments f) with Ok p => p | Throw _ => EmptyString end.

(** The URL segments of a file, and what a page's must satisfy. *)
Definition segs_of (f : DiscoveredFile) : list Seg_ :=
  default [] (mapM parse_segment (url_segments (f_segments f))).

Definition file_ok (f : DiscoveredFile) : Prop :=
  is_Some (mapM parse_segment (url_segments (f_segments f))) /\
  (is_page f = true -> tail_last (segs_of f) = true /\ List.NoDup (omap name_of (segs_of f))).

Definition boundary_route (f : DiscoveredFile) : FileRoute :=
  mkRoute (f_kind f) (pattern_of f) (f_segments f) [] [] no_boundaries.

Definition page_route (bk : BoundaryKeys) (f : DiscoveredFile) : FileRoute :=
  mkRoute page (pattern_of f) (f_segments f)
    (layoutDepthsFor (f_segments f) (bk layout)) (layoutDepthsFor (f_segments f) (bk middleware))
    (boundariesFor (f_segments f) bk).

Definition page_files (files : list DiscoveredFile) : list DiscoveredFile := List.filter is_page files.
Definition other_files (files : list DiscoveredFile) : list DiscoveredFile :=
  List.filter (fun f => negb (is_page f)) files.
Definition shape_of (f : DiscoveredFile) : string := matchShape (pattern_of f).

Lemma file_pattern f : is_Some (mapM parse_segment (url_segments (f_segments f))) ->
  patternFor (f_segments f) = Ok (pattern_of f) /\ pattern_of f = show_path (segs_of f).
Proof.
  intros [us H]. unfold pattern_of, segs_of. rewrite H. simpl.
  assert (E : patternFor (f_segments f) = Ok (show_path us)) by (apply patternFor_parse; eauto). by rewrite E.
Qed.

Lemma outcome_unit {E} (o : outcome E unit) (P : Prop) : (o = Ok tt <-> P) -> (exists e, o = Throw e) /\ ~ P \/ o = Ok tt /\ P.
Proof.
  intros H. destruct o as [[]|e]; [right; split; [done|by apply H]|left]. split; [eauto|].
  intros HP. by apply H in HP.
Qed.

(** What the loop accepts, and what it returns. *)
Lemma compile_files_spec bk files seen bs ps :
  compile_files bk files seen = Ok (bs, ps) <->
  (Forall file_ok files /\ List.NoDup (map shape_of (page_files files)) /\
   (forall s, In s (map shape_of (page_files files)) -> s ∉ seen)) /\
  bs = map boundary_route (other_files files) /\ ps = map (page_route bk) (page_files files).
Proof.
  revert seen bs ps. induction files as [|f files IH]; intros seen bs ps.
  { simpl. split; [intros [= <- <-]; repeat split; (done || constructor)|by intros (_ & -> & ->)]. }
  cbn [compile_files].
  destruct (patternFor (f_segments f)) as [p|e] eqn:Ep; simpl.
  2: { split; [done|]. intros ((Hf & _) & _). inversion Hf as [|? ? [Hp _] _]; subst.
       apply file_pattern in Hp as [Hp _]. congruence. }
  assert (Epo : pattern_of f = p) by (unfold pattern_of; by rewrite Ep).
  apply patternFor_parse in Ep as (us & Hm & Ep).
  assert (Eus : segs_of f = us) by (unfold segs_of; by rewrite Hm).
  unfold other_files, page_files. cbn [List.filter]. change (bool_decide (f_kind f = page)) with (is_page f).
  destruct (is_page f) eqn:Pg; simpl.
  - destruct (outcome_unit _ _ (terminal_spec _ _ Hm)) as [[[e ->] N]|[-> Ht]]; simpl.
    { split; [done|]. intros ((Hf & _) & _). inversion Hf as [|? ? [_ Hp] _]; subst. by destruct (Hp Pg). }
    case_bool_decide as D.
    { split; [done|]. intros ((_ & _ & Hs) & _). exfalso. apply (Hs (shape_of f)); [by left|].
      unfold shape_of. by rewrite Epo. }
    destruct (outcome_unit _ _ (duplicates_spec _ _ ∅ Hm)) as [[[e ->] N]|[-> [Hd _]]]; simpl.
    { split; [done|]. intros ((Hf & _) & _). exfalso. inversion Hf as [|? ? [_ Hp] _]; subst.
      destruct (Hp Pg) as [_ Hd]. apply N. split; [done|]. set_solver. }
    assert (Hok : file_ok f) by (split; [by rewrite Hm|]; intros _; by rewrite Eus).
    assert (Esh : shape_of f = matchShape p) by (unfold shape_of; by rewrite Epo). unfold page_route at 1. rewrite Epo, Esh.
    destruct (compile_files bk files _) as [[bs' ps']|e] eqn:Ec; simpl.
    + apply IH in Ec as ((H1 & H2 & H3) & -> & ->). split.
      * intros [= <- <-]. split; [|done]. split; [by constructor|]. split.
        -- constructor; [|done]. intros Hin. apply H3 in Hin. set_solver.
        -- intros s [<-|Hs]; [done|]. apply H3 in Hs. set_solver.
      * by intros (_ & -> & ->).
    + split; [done|]. intros ((Hf & Hnd & Hs) & _). exfalso. apply Forall_cons in Hf as [_ Hf].
      apply List.NoDup_cons_iff in Hnd as [Hni Hnd].
      assert (X : Throw e = Ok (map boundary_route (other_files files), map (page_route bk) (page_files files))); [|done].
      rewrite <- Ec. apply IH. split; [|done]. split; [done|]. split; [done|]. intros s Hin.
      assert (s ∉ seen) by (apply Hs; by right). assert (s <> matchShape p) by (intros ->; by apply Hni). set_solver.
  - assert (Hok : file_ok f) by (split; [by rewrite Hm|]; by rewrite Pg). unfold boundary_route at 1. rewrite Epo.
    destruct (compile_files bk files seen) as [[bs' ps']|e] eqn:Ec; simpl.
    + apply IH in Ec as ((H1 & H2 & H3) & -> & ->). split.
      * intros [= <- <-]. split; [|done]. split; [by constructor|]. done.
      * by intros (_ & -> & ->).
    + split; [done|]. intros ((Hf & Hnd & Hs) & _). exfalso. apply Forall_cons in Hf as [_ Hf].
      assert (X : Throw e = Ok (map boundary_route (other_files files), map (page_route bk) (page_files files))); [|done].
      rewrite <- Ec. apply IH. done.
Qed.

(** ** The directories of the boundaries *)

Definition no_inherited (files : list DiscoveredFile) : Prop :=
  Forall (fun f => match f_kind f with inherited _ => False | _ => True end) files.

Lemma boundary_loop_ok files bk : (exists bk', boundaryKeysByKind_loop files bk = Ok bk') <-> no_inherited files.
Proof.
  revert bk. induction files as [|f files IH]; intros bk; simpl; [split; [constructor|eauto]|].
  unfold no_inherited. rewrite Forall_cons. fold (no_inherited files).
  destruct (f_kind f); try (rewrite IH; tauto). split; [by intros [? ?]|tauto].
Qed.

Lemma boundary_loop_In files bk bk' k key :
  boundaryKeysByKind_loop files bk = Ok bk' -> k <> page ->
  key ∈ bk' k <-> key ∈ bk k \/ exists f, In f files /\ f_kind f = k /\ dirKey (f_segments f) = key.
Proof.
  revert bk. induction files as [|f files IH]; intros bk; simpl; [intros [= <-]; naive_solver|].
  intros H Nk.
  assert (Step : boundaryKeysByKind_loop files (fun k' => if bool_decide (k' = f_kind f)
      then {[dirKey (f_segments f)]} ∪ bk k' else bk k') = Ok bk' ->
    key ∈ bk' k <-> key ∈ bk k \/ exists f0, (f = f0 \/ In f0 files) /\ f_kind f0 = k /\ dirKey (f_segments f0) = key).
  { clear H. intros H. rewrite (IH _ H Nk). case_bool_decide as D; [subst k|]; set_solver. }
  destruct (f_kind f) eqn:Ek; try (by apply Step).
  rewrite (IH _ H Nk). split; [naive_solver|]. intros [?|(f0 & [<-|?] & ? & ?)]; [by left|congruence|eauto].
Qed.

(** [boundaryKeysByKind] as a function of the set of the files. *)
Definition keys_are (files : list DiscoveredFile) (bk : BoundaryKeys) : Prop :=
  forall k key, k <> page -> key ∈ bk k <-> exists f, In f files /\ f_kind f = k /\ dirKey (f_segments f) = key.

Lemma boundaryKeys_are files bk : boundaryKeysByKind files = Ok bk -> keys_are files bk.
Proof. intros H k key Nk. rewrite (boundary_loop_In _ _ _ _ _ H Nk). set_solver. Qed.

Lemma page_route_ext files bk bk' f : keys_are files bk -> keys_are files bk' -> page_route bk f = page_route bk' f.
Proof.
  intros H H'. assert (E : forall k, k <> page -> bk k = bk' k).
  { intros k Nk. apply set_eq. intros key. by rewrite (H k key Nk), (H' k key Nk). }
  unfold page_route, boundariesFor. by rewrite !E.
Qed.

Lemma orphan_spec files keys :
  assertNoOrphanMiddleware files keys = Ok tt <->
  forall f, In f files -> f_kind f = middleware -> guards_page (dirKey (f_segments f)) keys = true.
Proof.
  induction files as [|f files IH]; simpl; [done|]. case_bool_decide as D.
  - destruct (guards_page _ _) eqn:G; [rewrite IH|].
    + split; [intros H f0 [<-|?]; auto|auto].
    + split; [done|]. intros H. specialize (H f (or_introl eq_refl) D). congruence.
  - rewrite IH. split; [intros H f0 [<-|?]; [done|auto]|auto].
Qed.

Definition by_depth (a b : FileRoute) : Z := Z.of_nat (length (segments a)) - Z.of_nat (length (segments b)).

(** [compileFileRoutes] as a specification. *)
Lemma compileFileRoutes_spec files routes :
  compileFileRoutes files = Ok routes <->
  exists bk, boundaryKeysByKind files = Ok bk /\ Forall file_ok files /\
    List.NoDup (map shape_of (page_files files)) /\
    (forall f, In f files -> f_kind f = middleware ->
       guards_page (dirKey (f_segments f)) (map dirKey (map f_segments (page_files files))) = true) /\
    routes = (sort by_depth (map boundary_route (other_files files)) ++
              sort comparePageSpecificity (map (page_route bk) (page_files files)))%list.
Proof.
  unfold compileFileRoutes. destruct (boundaryKeysByKind files) as [bk|e] eqn:Eb; simpl; [|naive_solver].
  destruct (compile_files bk files ∅) as [[bs ps]|e] eqn:Ec; simpl.
  - apply compile_files_spec in Ec as ((Hf & Hd & _) & -> & ->).
    rewrite map_map. cbn [segments page_route].
    assert (Ek : map (fun f => dirKey (f_segments f)) (page_files files) = map dirKey (map f_segments (page_files files)))
      by (by rewrite map_map).
    rewrite Ek. pose proof (orphan_spec files (map dirKey (map f_segments (page_files files)))) as HO.
    destruct (outcome_unit _ _ HO) as [[[e ->] N]|[-> Ho]]; simpl.
    + split; [done|]. intros (? & _ & _ & _ & Ho & _). done.
    + split; [intros [= <-]; eauto 8|]. by intros (? & [= <-] & _ & _ & _ & ->).
  - split; [done|]. intros (? & [= <-] & Hf & Hd & _). exfalso.
    assert (X : Throw e = Ok (map boundary_route (other_files files), map (page_route bk) (page_files files))); [|done].
    rewrite <- Ec. apply compile_files_spec. split; [|done]. split; [done|]. split; [done|]. set_solver.
Qed.

(** ** Sorting *)

Section Sort.
Variable cmp : FileRoute -> FileRoute -> Z.

Lemma sort_insert_perm x l : Permutation (sort_insert cmp x l) (x :: l).
Proof.
  induction l as [|y l IH]; simpl; [done|]. destruct (Z.leb _ _); [done|].
  rewrite IH. apply perm_swap.
Qed.

Lemma sort_perm l : Permutation (sort cmp l) l.
Proof. induction l as [|x l IH]; simpl; [done|]. by rewrite sort_insert_perm, IH. Qed.

(** A comparator that is a strict order on the elements it is given. *)
Definition strict_on (l : list FileRoute) : Prop :=
  (forall x y, In x l -> In y l -> x <> y -> (cmp x y < 0)%Z /\ (0 < cmp y x)%Z \/ (cmp y x < 0)%Z /\ (0 < cmp x y)%Z) /\
  (forall x y z, In x l -> In y l -> In z l -> (cmp x y < 0)%Z -> (cmp y z < 0)%Z -> (cmp x z < 0)%Z).

Definition before (x y : FileRoute) : Prop := (cmp x y < 0)%Z.

Lemma sort_insert_sorted x l all :
  strict_on all -> (forall y, In y (x :: l) -> In y all) -> ~ In x l ->
  StronglySorted before l -> StronglySorted before (sort_insert cmp x l).
Proof.
  intros [Tot Tr] Sub Nx. induction l as [|y l IH]; simpl; intros Hs; [by repeat constructor|].
  inversion Hs as [|? ? Hs' Hall]; subst.
  assert (Nxy : x <> y) by (intros ->; apply Nx; by left).
  assert (Ix : In x all) by (apply Sub; by left). assert (Iy : In y all) by (apply Sub; right; by left).
  destruct (Z.leb_spec (cmp x y) 0) as [L|G].
  - assert (Bxy : before x y) by (destruct (Tot x y Ix Iy Nxy) as [[? _]|[_ ?]]; unfold before; lia).
    constructor; [done|]. constructor; [done|]. rewrite List.Forall_forall in *. intros z Hz.
    apply (Tr x y z); [done|done|apply Sub; right; by right|done|by apply Hall].
  - assert (Byx : before y x) by (destruct (Tot x y Ix Iy Nxy) as [[? _]|[? _]]; unfold before; lia).
    constructor.
    + apply IH; [|intros H; apply Nx; by right|done]. intros z [<-|Hz]; [done|]. apply Sub. right. by right.
    + rewrite List.Forall_forall in *. intros z Hz.
      apply (Permutation_in _ (sort_insert_perm x l)) in Hz as [<-|Hz]; auto.
Qed.

Lemma sort_sorted l : strict_on l -> List.NoDup l -> StronglySorted before (sort cmp l).
Proof.
  intros S. assert (H : forall l', (forall y, In y l' -> In y l) -> List.NoDup l' -> StronglySorted before (sort cmp l')).
  { induction l' as [|x l' IH]; intros Sub Hd; simpl; [constructor|].
    apply List.NoDup_cons_iff in Hd as [Hx Hd]. apply (sort_insert_sorted x (sort cmp l') l); [done| | |].
    - intros y [<-|Hy]; apply Sub; [by left|]. right. by eapply Permutation_in; [apply sort_perm|].
    - intros Hin. apply Hx. by eapply Permutation_in; [apply sort_perm|].
    - apply IH; [|done]. intros y Hy. apply Sub. by right. }
  by apply H.
Qed.

(** Sorted strictly, a permutation has one arrangement. *)
Lemma sorted_unique l l' :
  (forall x y, In x l -> In y l -> before x y -> before y x -> False) ->
  Permutation l l' -> StronglySorted before l -> StronglySorted before l' -> l = l'.
Proof.
  revert l'. induction l as [|x l IH]; intros l' As P S S'; [by apply Permutation_nil in P|].
  destruct l' as [|y l']; [by apply Permutation_sym, Permutation_nil in P|].
  inversion S as [|? ? Sl Hx]; inversion S' as [|? ? Sl' Hy]; subst. rewrite List.Forall_forall in Hx, Hy.
  assert (x = y) as ->.
  { assert (Ix : In x (y :: l')) by (eapply Permutation_in; [exact P|by left]).
    assert (Iy : In y (x :: l)) by (eapply Permutation_in; [symmetry; exact P|by left]).
    destruct Ix as [->|Ix]; [done|]. destruct Iy as [->|Iy]; [done|].
    destruct (As x y); [by left|by right|by apply Hx|by apply Hy]. }
  f_equal. apply IH; [|by eapply Permutation_cons_inv|done|done].
  intros a b Ha Hb. apply As; by right.
Qed.
End Sort.

(** ** The comparator *)

Fixpoint crank (a b : list Z) : Z :=
  match a, b with
  | x :: a', y :: b' => if Z.eqb (x - y) 0 then crank a' b' else (x - y)%Z
  | _, _ => 0%Z
  end.

Lemma crank_antisym a b : crank b a = (- crank a b)%Z.
Proof.
  revert b. induction a as [|x a IH]; intros [|y b]; simpl; try done.
  destruct (Z.eqb_spec (y - x) 0), (Z.eqb_spec (x - y) 0); try lia. apply IH.
Qed.

Lemma crank_zero a b : length a = length b -> crank a b = 0%Z -> a = b.
Proof.
  revert b. induction a as [|x a IH]; intros [|y b]; simpl; try done.
  destruct (Z.eqb_spec (x - y) 0); [|lia]. intros [= L] H. f_equal; [lia|auto].
Qed.

Lemma crank_trans a b c :
  length a = length b -> length b = length c -> (crank a b <= 0)%Z -> (crank b c <= 0)%Z ->
  (crank a c <= 0)%Z /\ (crank a c = 0%Z -> crank a b = 0%Z /\ crank b c = 0%Z).
Proof.
  revert b c. induction a as [|x a IH]; intros [|y b] [|z c]; simpl; try done.
  intros [= L1] [= L2]. specialize (IH b c L1 L2).
  destruct (Z.eqb_spec (x - y) 0), (Z.eqb_spec (y - z) 0), (Z.eqb_spec (x - z) 0); intros; lia || auto.
Qed.

(** Where two rank vectors first differ. *)
Lemma crank_negative a b :
  (crank a b < 0)%Z ->
  exists i x y, firstn i a = firstn i b /\ a !! i = Some x /\ b !! i = Some y /\ (x < y)%Z.
Proof.
  revert b. induction a as [|x a IH]; intros [|y b]; simpl; try lia.
  destruct (Z.eqb_spec (x - y) 0) as [E|N]; intros H.
  - destruct (IH b H) as (i & x' & y' & F & Hx & Hy & L). exists (S i), x', y'. simpl. rewrite F.
    split_and!; [f_equal; lia|done..].
  - exists 0%nat, x, y. split_and!; [done..|lia].
Qed.

Lemma show_path_slash u us : seg_wf u = true -> show_path (u :: us) <> "/".
Proof. intros H E. injection E as E. apply show_nonempty in H. by destruct (show u). Qed.

Lemma urlPatternSegments_path us : valid us -> urlPatternSegments (show_path us) = map show us.
Proof.
  unfold urlPatternSegments. intros [Hw _]. destruct us as [|u us]; [done|].
  inversion Hw as [|? ? Hu Hus]; subst.
  destruct (String.eqb_spec (show_path (u :: us)) "/") as [E|_]; [by apply show_path_slash in E|].
  change (show_path (u :: us)) with (pat (u :: us)). rewrite pat_join by done. cbn [drop_chars].
  rewrite split_join; [done|done|]. apply Forall_map. eapply List.Forall_impl; [|exact Hw].
  intros v Hv. by apply show_no_slash.
Qed.

Lemma isCatchAllPattern_path us : valid us -> isCatchAllPattern (show_path us) = existsb is_tail us.
Proof.
  unfold isCatchAllPattern. intros [Hw _]. destruct us as [|u us]; [done|].
  change (show_path (u :: us)) with (pat (u :: us)).
  induction Hw as [|v vs Hv _ IH]; [done|]. cbn [pat has_char existsb]. simpl. rewrite has_char_app, IH. f_equal.
  destruct v as [s|n|n opt]; cbn [seg_wf show is_tail] in *; [by apply static_no|simpl; by apply (ident_no "*" "*")|done].
Qed.

Lemma segmentRank_show u : seg_wf u = true -> segmentRank (show u) = rank u.
Proof.
  unfold segmentRank. destruct u as [s|n|n opt]; cbn [seg_wf show rank]; intros H; [|done|done].
  pose proof (static_no "*" s eq_refl H) as H1. pose proof (static_no ":" s eq_refl H) as H2.
  destruct s as [|c s]; [done|]. cbn [has_char] in *. apply orb_false_iff in H1 as [H1 _], H2 as [H2 _].
  cbn [startsWith]. by rewrite (Ascii.eqb_sym "*" c), (Ascii.eqb_sym ":" c), H1, H2.
Qed.

Lemma compare_ranks_show us vs :
  Forall (fun u => seg_wf u = true) us -> Forall (fun u => seg_wf u = true) vs ->
  compare_ranks (map show us) (map show vs) = crank (map rank us) (map rank vs).
Proof.
  intros Hu. revert vs. induction Hu as [|u us Wu Hu IH]; intros vs Hv; [done|].
  destruct Hv as [|v vs Wv Hv]; [done|]. cbn [map compare_ranks crank].
  rewrite !segmentRank_show by done. by rewrite IH.
Qed.

(** The comparator on the segments of two patterns. *)
Definition seg_less (us vs : list Seg_) : Prop :=
  existsb is_tail us = false /\ existsb is_tail vs = true \/
  existsb is_tail us = existsb is_tail vs /\
    ((length vs < length us)%nat \/
     length us = length vs /\
       ((crank (map rank us) (map rank vs) < 0)%Z \/
        crank (map rank us) (map rank vs) = 0%Z /\ String_as_OT.lt (show_path us) (show_path vs))).

Lemma compare_seg_less a b us vs :
  valid us -> valid vs -> pattern a = show_path us -> pattern b = show_path vs ->
  (comparePageSpecificity a b < 0)%Z <-> seg_less us vs.
Proof.
  intros Hu Hv Ea Eb. unfold comparePageSpecificity, seg_less. rewrite Ea, Eb.
  rewrite !isCatchAllPattern_path, !urlPatternSegments_path, !length_map by done.
  rewrite compare_ranks_show by (apply Hu || apply Hv).
  assert (L : String.ltb (show_path us) (show_path vs) = true <-> String_as_OT.lt (show_path us) (show_path vs)).
  { rewrite <- String_as_OT.cmp_lt. unfold String_as_OT.cmp, String.ltb. by destruct (String.compare _ _). }
  destruct (existsb is_tail us), (existsb is_tail vs); cbn [negb Bool.eqb]; try (intuition (lia || done)).
  all: destruct (Nat.eqb_spec (length us) (length vs)) as [El|Nl]; cbn [negb]; [|intuition lia].
  all: destruct (Z.eqb_spec (crank (map rank us) (map rank vs)) 0) as [Er|Nr]; [|intuition lia].
  all: destruct (String.ltb _ _); intuition (lia || done).
Qed.

Lemma seg_less_trans us vs ws : seg_less us vs -> seg_less vs ws -> seg_less us ws.
Proof.
  unfold seg_less.
  intros [[Hu Hv]|[Huv [L1|[L1 C1]]]] [[Hv' Hw]|[Hvw [L2|[L2 C2]]]]; try (left; split; congruence);
    right; (split; [congruence|]); try (left; lia).
  right. split; [lia|].
  destruct (crank_trans (map rank us) (map rank vs) (map rank ws)) as [T1 T2]; rewrite ?length_map; try lia.
  destruct (Z.eq_dec (crank (map rank us) (map rank ws)) 0) as [E|N]; [|left; lia]. right. split; [done|].
  destruct (T2 E) as [E1 E2]. destruct C1 as [?|[_ S1]], C2 as [?|[_ S2]]; try lia.
  by eapply String_as_OT.lt_trans.
Qed.

Lemma seg_less_irrefl us : ~ seg_less us us.
Proof.
  unfold seg_less. intros [[? ?]|[_ [?|[_ [H|[_ H]]]]]]; [congruence|lia| |].
  - pose proof (crank_antisym (map rank us) (map rank us)). lia.
  - by apply String_as_OT.lt_not_eq in H.
Qed.

Lemma seg_less_total us vs : show_path us <> show_path vs -> seg_less us vs \/ seg_less vs us.
Proof.
  unfold seg_less. intros N. destruct (existsb is_tail us), (existsb is_tail vs); auto.
  all: destruct (Nat.lt_trichotomy (length us) (length vs)) as [L|[L|L]]; auto 6.
  all: rewrite (crank_antisym (map rank us) (map rank vs)).
  all: destruct (Z.lt_trichotomy (crank (map rank us) (map rank vs)) 0) as [C|[C|C]]; [solve [auto 10]|rewrite C|right; right; split; [done|right; split; [lia|left; lia]]].
  all: destruct (String.compare (show_path us) (show_path vs)) eqn:S;
    [by apply String_as_OT.cmp_eq in S
    |left; right; split; [done|]; right; split; [done|]; right; split; [done|]; by apply String_as_OT.cmp_lt
    |right; right; split; [done|]; right; split; [lia|]; right; split; [done|]; apply String_as_OT.cmp_lt;
     unfold String_as_OT.cmp; rewrite String.compare_antisym, S; done].
Qed.
