(* ===== verification/FileRoutesSpec.v ===== *)
(** * File-based routing: what the convention promises

    The theorems about a compiled tree of route files, through the route table. *)
From Stdlib Require Import Sorting.Permutation Sorting.Sorted OrderedTypeEx.
From S2P Require Import Prelude JsString Router RouterProps FileRoutes FileRoutesProps FileRoutesOrder.
#[local] Open Scope string_scope.

(** The pages of the compiled routes, in order. *)
Definition pages (routes : list FileRoute) : list FileRoute :=
  List.filter (fun r => bool_decide (kind r = page)) routes.

(** ** The pages are strictly ordered *)

Lemma page_file_valid f : file_ok f -> is_page f = true -> valid (segs_of f) /\ pattern_of f = show_path (segs_of f).
Proof.
  intros [Hs Hp] Pg. destruct (Hp Pg) as [Ht _]. split; [|by apply file_pattern].
  split; [|done]. unfold segs_of. destruct Hs as [us H]. rewrite H. simpl. by eapply mapM_wf.
Qed.

Lemma comparePage_nonzero a b : comparePageSpecificity a b <> 0%Z.
Proof.
  unfold comparePageSpecificity. destruct (negb (Bool.eqb _ _)); [by destruct (isCatchAllPattern _)|].
  destruct (Nat.eqb_spec (length (urlPatternSegments (pattern a))) (length (urlPatternSegments (pattern b)))); simpl; [|lia].
  destruct (Z.eqb_spec (compare_ranks (urlPatternSegments (pattern a)) (urlPatternSegments (pattern b))) 0); [|done].
  by destruct (String.ltb _ _).
Qed.

Section Compiled.
Context (files : list DiscoveredFile) (bk : BoundaryKeys).
Context (Hok : Forall file_ok files) (Hnd : List.NoDup (map shape_of (page_files files))).

Lemma in_pages p :
  In p (map (page_route bk) (page_files files)) ->
  exists f, In f (page_files files) /\ p = page_route bk f /\ valid (segs_of f) /\ pattern p = show_path (segs_of f).
Proof.
  intros (f & <- & Hf)%in_map_iff. exists f. split; [done|]. split; [done|].
  apply filter_In in Hf as [Hin Pg]. rewrite List.Forall_forall in Hok.
  apply page_file_valid; auto.
Qed.

Lemma pages_shape_inj p q :
  In p (map (page_route bk) (page_files files)) -> In q (map (page_route bk) (page_files files)) ->
  matchShape (pattern p) = matchShape (pattern q) -> p = q.
Proof.
  intros (f & <- & Hf)%in_map_iff (g & <- & Hg)%in_map_iff E. f_equal.
  by eapply (NoDup_map_inj_in shape_of).
Qed.

Lemma pages_NoDup : List.NoDup (map (page_route bk) (page_files files)).
Proof.
  apply (List.NoDup_map_inv (fun r => matchShape (pattern r))). rewrite map_map. exact Hnd.
Qed.

Lemma pages_strict : strict_on comparePageSpecificity (map (page_route bk) (page_files files)).
Proof.
  split.
  - intros x y Hx Hy N.
    destruct (in_pages _ Hx) as (f & _ & _ & Vf & Ef), (in_pages _ Hy) as (g & _ & _ & Vg & Eg).
    pose proof (compare_seg_less x y _ _ Vf Vg Ef Eg) as L1. pose proof (compare_seg_less y x _ _ Vg Vf Eg Ef) as L2.
    pose proof (comparePage_nonzero x y). pose proof (comparePage_nonzero y x).
    assert (Nl : ~ (seg_less (segs_of f) (segs_of g) /\ seg_less (segs_of g) (segs_of f))).
    { intros [A B]. by eapply seg_less_irrefl, seg_less_trans. }
    destruct (seg_less_total (segs_of f) (segs_of g)) as [L|L]; [|left|right].
    + rewrite <- Ef, <- Eg. intros E. apply N, (pages_shape_inj x y Hx Hy). by rewrite E.
    + assert (~ (comparePageSpecificity y x < 0)%Z) by tauto. apply L1 in L. lia.
    + assert (~ (comparePageSpecificity x y < 0)%Z) by tauto. apply L2 in L. lia.
  - intros x y z Hx Hy Hz.
    destruct (in_pages _ Hx) as (f & _ & _ & Vf & Ef), (in_pages _ Hy) as (g & _ & _ & Vg & Eg),
      (in_pages _ Hz) as (h & _ & _ & Vh & Eh).
    rewrite (compare_seg_less x y _ _ Vf Vg Ef Eg), (compare_seg_less y z _ _ Vg Vh Eg Eh), (compare_seg_less x z _ _ Vf Vh Ef Eh).
    apply seg_less_trans.
Qed.
End Compiled.

Lemma filter_sorted_boundaries fs :
  Forall (fun f => is_page f = false) fs -> pages (sort by_depth (map boundary_route fs)) = [].
Proof.
  intros H. unfold pages.
  assert (N : forall r, In r (sort by_depth (map boundary_route fs)) -> bool_decide (kind r = page) = false).
  { intros r Hr. apply (Permutation_in _ (sort_perm _ _)), in_map_iff in Hr as (f & <- & Hf).
    rewrite List.Forall_forall in H. by apply H. }
  induction (sort by_depth (map boundary_route fs)) as [|r l IH]; [done|]. simpl.
  rewrite N by (by left). apply IH. intros r' Hr'. apply N. by right.
Qed.

Lemma pages_all l : Forall (fun r => kind r = page) l -> pages l = l.
Proof. induction 1 as [|r l Hr _ IH]; simpl; [done|]. by rewrite Hr, bool_decide_eq_true_2, IH. Qed.

(** The pages of what [compileFileRoutes] returns. *)
Lemma compiled_pages bk files :
  pages (sort by_depth (map boundary_route (other_files files)) ++
         sort comparePageSpecificity (map (page_route bk) (page_files files)))%list =
  sort comparePageSpecificity (map (page_route bk) (page_files files)).
Proof.
  unfold pages. rewrite List.filter_app. fold (pages (sort by_depth (map boundary_route (other_files files)))).
  rewrite filter_sorted_boundaries; [apply pages_all|].
  - apply List.Forall_forall. intros r Hr. by apply (Permutation_in _ (sort_perm _ _)), in_map_iff in Hr as (f & <- & _).
  - apply List.Forall_forall. intros f Hf. apply filter_In in Hf as [_ Hf]. by apply negb_true_iff.
Qed.

Lemma perm_filter {A} (p : A -> bool) l l' : Permutation l l' -> Permutation (List.filter p l) (List.filter p l').
Proof.
  induction 1 as [|x l l' _ IH|x y l|l l' l'' _ IH _ IH']; simpl; [done|..].
  - destruct (p x); [by constructor|done].
  - destruct (p x), (p y); try done. apply perm_swap.
  - by etransitivity.
Qed.

(** Fact: The order in which the scan discovers the files does not matter: whatever
    permutation it yields, the compiler accepts it too, returns the same pages in the same
    order and the same boundary descriptors. *)
Theorem order_irrelevant files files' routes :
  Permutation files files' -> compileFileRoutes files = Ok routes ->
  exists routes', compileFileRoutes files' = Ok routes' /\ pages routes' = pages routes /\ Permutation routes routes'.
Proof.
  intros P (bk & Eb & Hok & Hnd & Ho & ->)%compileFileRoutes_spec.
  assert (Hin : no_inherited files') by (unfold no_inherited; rewrite <- P; apply (boundary_loop_ok _ (fun _ => ∅)); eauto).
  apply (boundary_loop_ok _ (fun _ => ∅)) in Hin as (bk' & Eb').
  assert (Pp : Permutation (page_files files) (page_files files')) by (unfold page_files; by apply perm_filter).
  assert (Po : Permutation (other_files files) (other_files files')) by (unfold other_files; by apply perm_filter).
  assert (Hok' : Forall file_ok files') by (by rewrite <- P).
  assert (Hnd' : List.NoDup (map shape_of (page_files files'))).
  { eapply Permutation_NoDup; [|exact Hnd]. by apply Permutation_map. }
  assert (Ek : forall f, page_route bk f = page_route bk' f).
  { intros f. apply (page_route_ext files); [by apply boundaryKeys_are|].
    intros k key Nk. rewrite (boundaryKeys_are _ _ Eb' k key Nk).
    split; intros (f0 & Hf0 & R); exists f0; (split; [|done]); by eapply Permutation_in; [|exact Hf0]. }
  set (routes' := (sort by_depth (map boundary_route (other_files files')) ++
                   sort comparePageSpecificity (map (page_route bk') (page_files files')))%list).
  exists routes'. split; [|split].
  - apply compileFileRoutes_spec. exists bk'. split; [done|]. split; [done|]. split; [done|]. split; [|done].
    intros f Hf Hm. rewrite <- (Ho f); [|by eapply Permutation_in; [symmetry; exact P|]|done].
    unfold guards_page. case_match; [by rewrite !length_map, Pp|].
    apply eq_iff_eq_true. rewrite !existsb_exists.
    split; intros (k & Hk & T); exists k; (split; [|done]); (eapply Permutation_in; [|exact Hk]);
      do 2 apply Permutation_map; done.
  - unfold routes'. rewrite !compiled_pages. rewrite <- (map_ext _ _ Ek).
    set (l := map (page_route bk) (page_files files)). set (l' := map (page_route bk) (page_files files')).
    assert (Pl : Permutation l' l) by (unfold l, l'; by rewrite Pp).
    pose proof (pages_strict files bk Hok Hnd) as S. pose proof (pages_strict files' bk Hok' Hnd') as S'.
    apply (sorted_unique comparePageSpecificity).
    + unfold before. intros x y Hx Hy B B'. apply (Permutation_in _ (sort_perm _ _)) in Hx, Hy.
      destruct S' as [Tot _]. destruct (decide (comparePageSpecificity x y = comparePageSpecificity y x)) as [E|N].
      * destruct (Tot x y Hx Hy) as [[? ?]|[? ?]]; [|lia..]. intros ->. pose proof (comparePage_nonzero y y).
        destruct (in_pages _ _ Hok' _ Hy) as (g & _ & _ & Vg & Eg).
        apply (compare_seg_less y y _ _ Vg Vg Eg Eg) in B. by apply seg_less_irrefl in B.
      * destruct (Tot x y Hx Hy) as [[? ?]|[? ?]]; [|lia..]. by intros ->.
    + by rewrite !sort_perm.
    + apply sort_sorted; [done|by apply pages_NoDup].
    + apply sort_sorted; [done|by apply pages_NoDup].
  - unfold routes'. rewrite !sort_perm. rewrite <- (map_ext _ _ Ek). by rewrite Pp, Po.
Qed.

(** ** Guards, layouts and boundaries *)

Lemma seq_filter_In (p : nat -> bool) n d : In d (List.filter p (List.seq 0 n)) <-> (d < n)%nat /\ p d = true.
Proof. rewrite filter_In, in_seq. intuition lia. Qed.

Lemma files_raw files f : Forall file_ok files -> In f files -> Forall raw_ok (f_segments f).
Proof. rewrite List.Forall_forall. intros H Hf. destruct (H f Hf) as [[us Hs] _]. by eapply segments_raw. Qed.

(** The depths of a kind above a page: the prefixes of its directory with such a file. *)
Lemma depths_spec files bk k segs d :
  keys_are files bk -> Forall file_ok files -> k <> page -> Forall raw_ok segs ->
  In d (layoutDepthsFor segs (bk k)) <-> (d <= length segs)%nat /\ In (mkFile k (firstn d segs)) files.
Proof.
  intros HK Hok Nk Hr. unfold layoutDepthsFor. rewrite seq_filter_In, bool_decide_eq_true, (HK k _ Nk).
  split; intros [Hd H]; (split; [lia|]).
  - destruct H as (f & Hf & Ek & E). apply dirKey_inj in E; [|by eapply files_raw|by apply Forall_take].
    destruct f as [k' s']. simpl in *. by subst.
  - eexists. split; [exact H|done].
Qed.

Lemma layoutDepthsFor_sorted segs keys : StronglySorted lt (layoutDepthsFor segs keys).
Proof.
  unfold layoutDepthsFor. generalize 0%nat as a, (S (length segs)) as n. intros a n. revert a.
  induction n as [|n IH]; intros a; simpl; [constructor|].
  destruct (bool_decide _); [|apply IH]. constructor; [apply IH|].
  rewrite List.Forall_forall. intros d [Hd _]%filter_In. apply in_seq in Hd. lia.
Qed.

(** The last of an increasing list: the greatest. *)
Lemma last_greatest l d : StronglySorted lt l -> list.last l = Some d -> In d l /\ forall d', In d' l -> (d' <= d)%nat.
Proof.
  induction 1 as [|x l Hs IH Hx]; [done|]. rewrite List.Forall_forall in Hx. destruct l as [|y l].
  - intros [= ->]. split; [by left|]. intros d' [->|[]]. lia.
  - intros E. destruct (IH E) as [Hd Hm]. split; [by right|]. intros d' [<-|Hd']; [|by apply Hm].
    specialize (Hx d Hd). lia.
Qed.

Definition nearest_of (files : list DiscoveredFile) (k : FileRouteKind) (segs : list string) (o : option nat) : Prop :=
  match o with
  | Some d => (d <= length segs)%nat /\ In (mkFile k (firstn d segs)) files /\
      forall d', (d < d' <= length segs)%nat -> ~ In (mkFile k (firstn d' segs)) files
  | None => forall d', (d' <= length segs)%nat -> ~ In (mkFile k (firstn d' segs)) files
  end.

Lemma nearest_spec files bk k segs :
  keys_are files bk -> Forall file_ok files -> k <> page -> Forall raw_ok segs ->
  nearest_of files k segs (list.last (layoutDepthsFor segs (bk k))).
Proof.
  intros HK Hok Nk Hr. pose proof (fun d => depths_spec files bk k segs d HK Hok Nk Hr) as D.
  pose proof (layoutDepthsFor_sorted segs (bk k)) as S.
  destruct (list.last _) as [d|] eqn:E; simpl.
  - apply (last_greatest _ _ S) in E as [Hd Hm]. apply D in Hd as [Hl Hf]. split_and!; [done|done|].
    intros d' [L1 L2] Hin. assert (X : In d' (layoutDepthsFor segs (bk k))) by (by apply D). apply Hm in X. lia.
  - apply last_None in E. intros d' L Hin. assert (X : In d' (layoutDepthsFor segs (bk k))) by (by apply D).
    by rewrite E in X.
Qed.

(** Fact: Every page of a compiled tree is guarded by exactly the middleware files in the
    directories on its path, outermost first, and wrapped in exactly the layouts there; its
    loading, error and not-found boundaries are the deepest files on the path; and no
    middleware is an orphan: each guards some page. *)
Theorem guards_run files routes :
  compileFileRoutes files = Ok routes ->
  (forall p, In p (pages routes) ->
     In (mkFile page (segments p)) files /\
     StronglySorted lt (middlewareDepth p) /\ StronglySorted lt (layoutDepth p) /\
     (forall d, In d (middlewareDepth p) <->
        (d <= length (segments p))%nat /\ In (mkFile middleware (firstn d (segments p))) files) /\
     (forall d, In d (layoutDepth p) <->
        (d <= length (segments p))%nat /\ In (mkFile layout (firstn d (segments p))) files) /\
     nearest_of files loading (segments p) (b_loading (boundaries p)) /\
     nearest_of files error (segments p) (b_error (boundaries p)) /\
     nearest_of files not_found (segments p) (b_not_found (boundaries p))) /\
  (forall dir, In (mkFile middleware dir) files ->
     exists p, In p (pages routes) /\ In (length dir) (middlewareDepth p) /\ firstn (length dir) (segments p) = dir).
Proof.
  intros (bk & Eb & Hok & Hnd & Ho & ->)%compileFileRoutes_spec. rewrite compiled_pages.
  pose proof (boundaryKeys_are _ _ Eb) as HK. split.
  - intros p Hp. apply (Permutation_in _ (sort_perm _ _)), in_map_iff in Hp as (f & <- & Hf).
    apply filter_In in Hf as [Hf Pg]. apply bool_decide_eq_true in Pg. pose proof (files_raw _ _ Hok Hf) as Hr.
    cbn [page_route segments middlewareDepth layoutDepth boundaries]. split; [by destruct f; simpl in *; subst|].
    split_and!; try apply layoutDepthsFor_sorted; try (intros d; by apply depths_spec); by apply nearest_spec.
  - intros dir Hm. pose proof (files_raw _ _ Hok Hm) as Hr. specialize (Ho _ Hm eq_refl). cbn [f_segments] in *.
    apply guards_page_spec in Ho as (segs & Hs & E); [|done|].
    + apply in_map_iff in Hs as (f & <- & Hf). exists (page_route bk f). split.
      * eapply Permutation_in; [symmetry; apply sort_perm|]. by apply in_map.
      * split; [|done]. cbn [page_route middlewareDepth]. apply filter_In in Hf as [Hf _].
        apply (depths_spec files bk middleware); [done..|by eapply files_raw|]. rewrite E. split; [|done].
        rewrite <- E, length_take. lia.
    + apply Forall_map, List.Forall_forall. intros f Hf. apply filter_In in Hf as [Hf _]. by eapply files_raw.
Qed.

(** ** Resolution *)

(** The pages registered in the table, in order, as the applier does. *)
Fixpoint register (ps : list FileRoute) (entries : list (Entry FileRoute)) : outcome RouterError (list (Entry FileRoute)) :=
  match ps with
  | [] => Ok entries
  | p :: ps' => let! entries' := add "GET" (pattern p) p entries in register ps' entries'
  end.

(** [p] is the more specific of two pages: explicit before catch-all, deeper before
    shallower, then literal before param at the first segment where they differ. *)
Definition more_specific (p q : FileRoute) : Prop :=
  let ps := urlPatternSegments (pattern p) in
  let qs := urlPatternSegments (pattern q) in
  isCatchAllPattern (pattern p) = false /\ isCatchAllPattern (pattern q) = true \/
  isCatchAllPattern (pattern p) = isCatchAllPattern (pattern q) /\
    ((length qs < length ps)%nat /\ isCatchAllPattern (pattern p) = true \/
     length ps = length qs /\
       exists i x y, map segmentRank (firstn i ps) = map segmentRank (firstn i qs) /\
         ps !! i = Some x /\ qs !! i = Some y /\ (segmentRank x < segmentRank y)%Z).

Lemma path_accepts_true us path : us <> [] -> path_accepts us path -> accepts true us path.
Proof. by destruct us. Qed.

Lemma less_more_specific p q us vs path :
  valid us -> valid vs -> pattern p = show_path us -> pattern q = show_path vs ->
  path_accepts us path -> path_accepts vs path -> map norm us <> map norm vs ->
  seg_less us vs -> more_specific p q.
Proof.
  intros Hu Hv Ep Eq Au Av Nn L. unfold more_specific. rewrite Ep, Eq, !isCatchAllPattern_path, !urlPatternSegments_path, !length_map by done.
  assert (Root : forall ws w, valid ws -> existsb is_tail ws = false -> path_accepts ws w -> length ws = 0%nat -> w = "/")
    by (intros [|] w; done).
  assert (Ne : forall w ws, valid (w :: ws) -> existsb is_tail (w :: ws) = false -> accepts true (w :: ws) "/" -> False).
  { intros w ws (Ww & _)%valid_cons. destruct w as [x|n|n opt]; cbn [seg_wf accepts existsb is_tail]; [| |done].
    - intros _ (s' & E & _). apply static_spec in Ww as [_ Ww]. injection E. by destruct x.
    - intros _ (x & s' & Hx & E & _). apply seg_ok_no_slash in Hx as [_ Hx]. injection E. by destruct x. }
  destruct L as [L|[Et L]]; [by left|right; split; [done|]].
  assert (Deep : existsb is_tail us = false -> length us = length vs).
  { intros Nt. rewrite Nt in Et. destruct us as [|u us], vs as [|v vs]; cbn [path_accepts] in *; [done| | |].
    - subst. exfalso. by eapply Ne.
    - subst. exfalso. by eapply Ne.
    - by eapply (same_depth (u :: us) (v :: vs)). }
  destruct L as [L|[El L]]; [destruct (existsb is_tail us); [by left|specialize (Deep eq_refl); lia]|].
  right. split; [done|]. destruct L as [L|[L _]].
  - apply crank_negative in L as (i & x & y & F & Hx & Hy & Lt).
    rewrite list_lookup_fmap in Hx, Hy. destruct (us !! i) as [u|] eqn:Eu; [|done]. destruct (vs !! i) as [v|] eqn:Ev; [|done].
    injection Hx as <-. injection Hy as <-. destruct Hu as [Wu _], Hv as [Wv _].
    pose proof (Forall_lookup_1 _ _ _ _ Wu Eu) as Wu'. pose proof (Forall_lookup_1 _ _ _ _ Wv Ev) as Wv'. simpl in Wu', Wv'.
    exists i, (show u), (show v). rewrite !list_lookup_fmap, Eu, Ev, !segmentRank_show by done. split_and!; [|done..].
    rewrite !firstn_map, !map_map in *.
    assert (R : forall ws, Forall (fun u => seg_wf u = true) ws ->
      map (fun u => segmentRank (show u)) (firstn i ws) = map rank (firstn i ws)).
    { intros ws Hw. apply map_ext_in. intros w Hin. apply segmentRank_show.
      rewrite List.Forall_forall in Hw. apply Hw. rewrite <- (firstn_skipn i ws). apply in_app_iff. by left. }
    by rewrite !R.
  - exfalso. apply Nn. apply crank_zero in L; [|by rewrite !length_map].
    destruct us as [|u us], vs as [|v vs]; try done. cbn [path_accepts] in *. by eapply same_ranks_same_norm.
Qed.

Definition is_entry (p : FileRoute) (e : Entry FileRoute) : Prop :=
  e_value e = p /\ e_method e = "GET" /\ compile (pattern p) = Ok (e_compiled e).

Lemma register_spec ps entries :
  Forall (fun p => exists us, valid us /\ pattern p = show_path us) ps ->
  exists es, register ps entries = Ok (entries ++ es)%list /\ Forall2 is_entry ps es.
Proof.
  intros H. revert entries. induction H as [|p ps (us & Hv & Ep) _ IH]; intros entries; simpl.
  { exists []. by rewrite app_nil_r. }
  unfold add. destruct (page_language us Hv) as (c & Ec & _ & _). rewrite Ep, Ec. simpl.
  destruct (IH (entries ++ [mkEntry "GET" (show_path us) c p])%list) as (es & -> & F).
  exists (mkEntry "GET" (show_path us) c p :: es). rewrite <- app_assoc. split; [done|].
  constructor; [|done]. split_and!; [done..|by rewrite Ep].
Qed.

Lemma sorted_after {A} (R : A -> A -> Prop) l1 x l2 y : StronglySorted R (l1 ++ x :: l2) -> In y l2 -> R x y.
Proof.
  induction l1 as [|a l1 IH]; simpl; intros S Hy; inversion S as [|? ? S' Hall]; subst; [|auto].
  rewrite List.Forall_forall in Hall. by apply Hall.
Qed.

Lemma page_answers p us c path :
  valid us -> pattern p = show_path us -> compile (pattern p) = Ok c ->
  is_Some (exec (regExp c) path) <-> path_accepts us path.
Proof.
  intros Hv Ep Ec. destruct (page_language us Hv) as (c' & Ec' & _ & H). rewrite Ep, Ec' in Ec.
  by injection Ec as <-.
Qed.

(** Fact: Resolution: the router accepts the pattern of every page of a compiled tree, and a
    request that several pages could answer goes to the most specific one: an explicit page
    before any catch-all, then the literal before the param at the first segment where the
    two differ, and among catch-alls the deeper first; no two pages ever tie. *)
Theorem most_specific_wins `{uri : !UriCodec} files routes :
  compileFileRoutes files = Ok routes ->
  exists entries, register (pages routes) [] = Ok entries /\ forall path,
    match match_route "GET" path entries with
    | Ok (Some (p, _)) =>
        In p (pages routes) /\
        forall q c, In q (pages routes) -> compile (pattern q) = Ok c -> is_Some (exec (regExp c) path) ->
          q <> p -> more_specific p q
    | Ok None => forall q c, In q (pages routes) -> compile (pattern q) = Ok c -> exec (regExp c) path = None
    | Throw _ => True
    end.
Proof.
  intros (bk & Eb & Hok & Hnd & _ & ->)%compileFileRoutes_spec. rewrite compiled_pages.
  pose proof (sort_sorted _ _ (pages_strict files bk Hok Hnd) (pages_NoDup files bk Hnd)) as Sorted.
  assert (In_l : forall q, In q (sort comparePageSpecificity (map (page_route bk) (page_files files))) ->
    In q (map (page_route bk) (page_files files))) by (intros q; apply (Permutation_in _ (sort_perm _ _))).
  set (ps := sort comparePageSpecificity (map (page_route bk) (page_files files))) in *.
  destruct (register_spec ps []) as (es & Er & F).
  { apply List.Forall_forall. intros q Hq. destruct (in_pages files bk Hok q) as (f & _ & _ & Vf & Ef); eauto. }
  exists es. split; [done|]. intros path. pose proof (match_route_wins "GET" path es) as M.
  destruct (match_route "GET" path es) as [[[p params]|]|err]; [|intros q c Hq Ec|done].
  - destruct M as (e & caps & (pre & post & -> & Em & Ha & Hpre) & Ex & R).
    apply Forall2_app_inv_r in F as (l1 & l2 & F1 & F2 & Ep). inversion F2 as [|p' ? l2' ? (Ev & _ & Ecp) F2']; subst.
    destruct (read_params _ _ _ _) as [params'|]; [|done]. injection R as -> _. rewrite Ep in *.
    split; [apply in_app_iff; right; by left|]. intros q c Hq Ec Hans Nq.
    assert (In_p : In (e_value e) (l1 ++ e_value e :: l2')) by (apply in_app_iff; right; by left).
    destruct (in_pages files bk Hok (e_value e)) as (f & _ & _ & Vf & Ef); [auto|].
    destruct (in_pages files bk Hok q) as (g & _ & _ & Vg & Eg); [auto|].
    apply in_app_iff in Hq as Hq'. destruct Hq' as [Hq'|[Hq'|Hq']]; [|by destruct Nq|].
    + exfalso. apply list_elem_of_In, list_elem_of_lookup in Hq' as [i Hi].
      destruct (Forall2_lookup_l _ _ _ _ _ F1 Hi) as (e' & He' & Ev' & Em' & Ec'). rewrite Ec in Ec'. injection Ec' as ->.
      assert (In_e : In e' pre) by (apply list_elem_of_In; by eapply list_elem_of_lookup_2).
      specialize (Hpre _ In_e Em'). unfold answers in Hpre. destruct Hans as [? Hans]. by rewrite Hans in Hpre.
    + apply (less_more_specific _ _ (segs_of f) (segs_of g) path); [done..| | | |].
      * apply (page_answers _ _ _ _ Vf Ef Ecp). rewrite Ex. eauto.
      * by apply (page_answers _ _ _ _ Vg Eg Ec).
      * rewrite <- shape_path_inj, <- !matchShape_pat by done. rewrite <- Ef, <- Eg. intros E.
        apply Nq. symmetry. eapply (pages_shape_inj files bk Hnd); auto.
      * apply (compare_seg_less _ _ _ _ Vf Vg Ef Eg). by eapply sorted_after in Hq'; [|exact Sorted].
  - apply list_elem_of_In, list_elem_of_lookup in Hq as [i Hi].
    destruct (Forall2_lookup_l _ _ _ _ _ F Hi) as (e' & He' & Ev' & Em' & Ec'). rewrite Ec in Ec'. injection Ec' as ->.
    assert (In_e : In e' es) by (apply list_elem_of_In; by eapply list_elem_of_lookup_2).
    specialize (M _ In_e Em'). unfold answers in M. by destruct (exec (regExp (e_compiled e')) path).
Qed.

(** ** The match shape *)

Lemma accepts_norm us vs b s :
  existsb is_tail us = false -> map norm us = map norm vs -> accepts b us s -> accepts b vs s.
Proof.
  revert vs b s. induction us as [|u us IH]; intros [|v vs] b s Nt E; try done. cbn [map] in E. injection E as En E.
  cbn [existsb] in Nt. apply orb_false_iff in Nt as [Nu Nt].
  destruct u as [x|n|n opt], v as [y|m|m opt']; try done; cbn [accepts].
  - injection En as ->. intros (s' & -> & A). eauto.
  - intros (x & s' & Hx & -> & A). eauto 6.
Qed.

Lemma norm_tail us vs : map norm us = map norm vs -> existsb is_tail us = existsb is_tail vs.
Proof.
  revert vs. induction us as [|u us IH]; intros [|v vs]; try done. intros [= En E].
  simpl. rewrite (IH vs E). by destruct u, v.
Qed.

(** A path that only patterns of the same shape can accept both ways. *)
Fixpoint sample (us : list Seg_) : string :=
  match us with
  | [] => EmptyString
  | u :: us' => String "/" (String.append (match u with Static s => s | _ => "*" end) (sample us'))
  end.

Lemma sample_accepts us b : existsb is_tail us = false -> accepts b us (sample us).
Proof.
  revert b. induction us as [|u us IH]; intros b Nt; [done|]. cbn [existsb] in Nt. apply orb_false_iff in Nt as [Nu Nt].
  destruct u as [x|n|n opt]; cbn [accepts sample]; [eauto| |done].
  exists "*", (sample us). split_and!; [done..|auto].
Qed.

Lemma sample_rest us : rest_ok (sample us).
Proof. destruct us; [by left|right; eexists; reflexivity]. Qed.

Lemma samples_norm us vs b b' :
  valid us -> valid vs -> existsb is_tail us = false -> existsb is_tail vs = false ->
  accepts b vs (sample us) -> accepts b' us (sample vs) -> map norm us = map norm vs.
Proof.
  revert vs b b'. induction us as [|u us IH]; intros [|v vs] b b' Hu Hv Nu Nv; [done| | |].
  - destruct v; simpl; [by intros (? & ? & _)|by intros (? & ? & _ & ? & _)|done].
  - destruct u; simpl; [by intros _ (? & ? & _)|by intros _ (? & ? & _ & ? & _)|done].
  - apply valid_cons in Hu as (Wu & Vu & _), Hv as (Wv & Vv & _).
    cbn [existsb] in Nu, Nv. apply orb_false_iff in Nu as [Nu Nus], Nv as [Nv Nvs].
    assert (Star : forall x s s' w b0, STATIC_SEGMENT x = true -> accepts b0 w s' ->
      rest_ok s -> String "/" (String.append "*" s) = String "/" (String.append x s') -> False).
    { intros x s s' w b0 Hx A Hs E. apply first_segment in E as [<- _];
        [done|done|by apply static_spec|done|by eapply accepts_any_rest]. }
    destruct u as [x|n|n opt], v as [y|m|m opt']; try done; cbn [accepts sample seg_wf] in *.
    + intros (s & E & A) (s' & E' & A'). cbn [map norm].
      apply first_segment in E as [-> <-]; [|by apply static_spec|by apply static_spec|apply sample_rest|by eapply accepts_any_rest].
      apply first_segment in E' as [_ <-]; [|by apply static_spec|by apply static_spec|apply sample_rest|by eapply accepts_any_rest].
      f_equal. by eapply IH.
    + intros _ (s' & E' & A'). exfalso. eapply Star; [exact Wu|exact A'|apply sample_rest|exact E'].
    + intros (s & E & A) _. exfalso. eapply Star; [exact Wv|exact A|apply sample_rest|exact E].
    + intros (x & s & Hx & E & A) (x' & s' & Hx' & E' & A'). cbn [map norm].
      apply first_segment in E as [_ <-]; [|done|by apply seg_ok_no_slash|apply sample_rest|by eapply accepts_any_rest].
      apply first_segment in E' as [_ <-]; [|done|by apply seg_ok_no_slash|apply sample_rest|by eapply accepts_any_rest].
      f_equal. by eapply IH.
Qed.

(** Fact: The match shape is the set of the URLs: two directories without a catch-all have
    the same shape exactly when their patterns match the same paths, so refusing a shape
    seen before refuses every pair of pages one of which could never answer, and no
    other. *)
Theorem same_shape_same_urls sa sb p q cp cq :
  patternFor sa = Ok p -> patternFor sb = Ok q -> compile p = Ok cp -> compile q = Ok cq ->
  isCatchAllPattern p = false -> isCatchAllPattern q = false ->
  matchShape p = matchShape q <->
  forall path, is_Some (exec (regExp cp) path) <-> is_Some (exec (regExp cq) path).
Proof.
  intros (us & Mu & ->)%patternFor_parse (vs & Mv & ->)%patternFor_parse Ep Eq Cp Cq.
  assert (V : forall ws segs, mapM parse_segment segs = Some ws -> isCatchAllPattern (show_path ws) = false ->
    valid ws /\ existsb is_tail ws = false).
  { intros ws segs M C. apply mapM_wf in M as W.
    assert (Nt : existsb is_tail ws = false).
    { destruct ws as [|w ws]; [done|]. change (show_path (w :: ws)) with (pat (w :: ws)) in C.
      clear M. revert C. unfold isCatchAllPattern. generalize (w :: ws) as l, W. intros l Wl.
      induction Wl as [|u l Wu _ IH]; [done|]. cbn [pat existsb]. simpl. rewrite has_char_app.
      intros [Cu C]%orb_false_iff. rewrite IH by done. by destruct u. }
    split; [|done]. split; [done|]. clear -Nt. induction ws as [|w [|w' ws] IH]; [done|done|].
    cbn [existsb] in Nt. apply orb_false_iff in Nt as [Nw Nt]. change (tail_last (w :: w' :: ws)) with (negb (is_tail w) && tail_last (w' :: ws)).
    by rewrite Nw, IH. }
  destruct (V _ _ Mu Cp) as [Vu Nu], (V _ _ Mv Cq) as [Vv Nv].
  destruct (page_language us Vu) as (c & Ec & _ & Lu). rewrite Ep in Ec. injection Ec as <-.
  destruct (page_language vs Vv) as (c & Ec & _ & Lv). rewrite Eq in Ec. injection Ec as <-.
  rewrite !matchShape_pat, shape_path_inj by done. setoid_rewrite Lu. setoid_rewrite Lv. split.
  - intros E path. destruct us as [|u us], vs as [|v vs]; try done.
    split; cbn [path_accepts]; apply accepts_norm; done.
  - assert (Ne : forall w ws, valid (w :: ws) -> sample (w :: ws) <> "/").
    { intros w ws (Ww & _)%valid_cons E. cbn [sample] in E. injection E as E.
      destruct w as [x|n|n o]; [|done..]. cbn [seg_wf] in Ww. apply static_spec in Ww as [_ Ww]. by destruct x. }
    intros H. destruct us as [|u us], vs as [|v vs].
    + done.
    + exfalso. apply (Ne _ _ Vv). apply (H (sample (v :: vs))). by apply sample_accepts.
    + exfalso. apply (Ne _ _ Vu). apply (H (sample (u :: us))). by apply sample_accepts.
    + eapply (samples_norm (u :: us) (v :: vs) true true); [done..| |];
        apply (H (sample _)); by apply sample_accepts.
Qed.
