(* ===== verification/FileRoutesScan.v ===== *)
(** * File-based routing: the scan

    The scan finds exactly the route files of the reachable directories; the names it
    takes for route files; concrete trees. *)
From Stdlib Require Import Sorting.Permutation.
From S2P Require Import Prelude JsString Router RouterProps FileRoutes FileRoutesProps FileRoutesOrder FileRoutesSpec.
#[local] Open Scope string_scope.

(** ** The walk *)

Lemma walk_all_spec f es found res :
  walk_all f es found = Some res <->
  exists subs, mapM f es = Some subs /\ res = (found ++ concat subs)%list.
Proof.
  revert found. induction es as [|e es IH]; intros found; simpl.
  { split; [intros [= <-]; exists []; by rewrite app_nil_r|]. intros (subs & [= <-] & ->). by rewrite app_nil_r. }
  destruct (f e) as [sub|]; simpl; [|split; [done|by intros (? & ? & _)]]. rewrite IH.
  destruct (mapM f es) as [subs|]; simpl; [|split; by intros (? & ? & _)]. split.
  - intros (? & [= <-] & ->). exists (sub :: subs). split; [done|]. simpl. by rewrite app_assoc.
  - intros (? & [= <-] & ->). eexists. split; [done|]. simpl. by rewrite app_assoc.
Qed.

Section Scan.
Variable readDir : string -> list DirEntry.

(** The directories the walk descends to from one. *)
Inductive Reaches (path : string) (segs : list string) : string -> list string -> Prop :=
| reaches_here : Reaches path segs path segs
| reaches_down e p s :
    In e (readDir path) -> d_isDirectory e = true ->
    Reaches (joinPath path (d_name e)) (segs ++ [d_name e])%list p s -> Reaches path segs p s.

Definition route_file (path : string) (k : FileRouteKind) : Prop :=
  exists e, In e (readDir path) /\ d_isDirectory e = false /\ kindOf (d_name e) = Some k.

Lemma own_In path segs f :
  In f (omap (fun e => if d_isDirectory e then None else (fun k => mkFile k segs) <$> kindOf (d_name e)) (readDir path)) <->
  f_segments f = segs /\ route_file path (f_kind f).
Proof.
  rewrite <- list_elem_of_In, list_elem_of_omap. unfold route_file. setoid_rewrite list_elem_of_In. split.
  - intros (e & He & E). destruct (d_isDirectory e) eqn:D; [done|]. destruct (kindOf (d_name e)) as [k|] eqn:K; [|done].
    injection E as <-. split; [done|]. eauto.
  - intros [Es (e & He & D & K)]. exists e. split; [done|]. rewrite D, K. destruct f. simpl in *. by subst.
Qed.

Lemma walk_In fuel path segs files f :
  walk readDir fuel path segs = Some files ->
  In f files <-> exists p, Reaches path segs p (f_segments f) /\ route_file p (f_kind f).
Proof.
  revert path segs files. induction fuel as [|fuel IH]; intros path segs files; cbn [walk]; [done|].
  intros (subs & M & ->)%walk_all_spec. apply mapM_Some in M. rewrite in_app_iff, own_In, in_concat. split.
  - intros [[<- R]|(sub & Hs & Hf)]; [exists path; split; [constructor|done]|].
    apply list_elem_of_In, list_elem_of_lookup in Hs as [i Hi].
    destruct (Forall2_lookup_r _ _ _ _ _ M Hi) as (e & He & W).
    assert (In_e : In e (List.filter d_isDirectory (readDir path))) by (apply list_elem_of_In; by eapply list_elem_of_lookup_2).
    apply filter_In in In_e as [In_e D]. destruct (proj1 (IH _ _ _ W) Hf) as (p & R & Hr). exists p. split; [|done].
    by eapply reaches_down.
  - intros (p & R & Hr). inversion R as [|e ? ? He D R']; subst; [by left|]. right.
    assert (In_e : In e (List.filter d_isDirectory (readDir path))) by by apply filter_In.
    apply list_elem_of_In, list_elem_of_lookup in In_e as [i Hi].
    destruct (Forall2_lookup_l _ _ _ _ _ M Hi) as (sub & Hs & W). exists sub.
    split; [apply list_elem_of_In; by eapply list_elem_of_lookup_2|]. apply (IH _ _ _ W). eauto.
Qed.

Lemma walk_total fuel path segs :
  (forall p s, Reaches path segs p s -> (length s < length segs + fuel)%nat) -> exists files, walk readDir fuel path segs = Some files.
Proof.
  revert path segs. induction fuel as [|fuel IH]; intros path segs H.
  { specialize (H _ _ (reaches_here _ _)). lia. }
  cbn [walk]. set (f := fun e => walk readDir fuel (joinPath path (d_name e)) (segs ++ [d_name e])%list).
  assert (M : is_Some (mapM f (List.filter d_isDirectory (readDir path)))).
  { apply mapM_is_Some, List.Forall_forall. intros e [He D]%filter_In. unfold f.
    destruct (IH (joinPath path (d_name e)) (segs ++ [d_name e])%list) as [fs E]; [|by exists fs].
    intros p s R. rewrite length_app. simpl. specialize (H p s (reaches_down _ _ _ _ _ He D R)). lia. }
  destruct M as [subs M]. eexists. apply walk_all_spec. eauto.
Qed.

(** Fact: The scan is complete and exact: on a tree less than [fuel] directories deep it
    returns, and what it returns are the files that name a kind in the directories reachable
    from the root, each with the names of the directories down to it. *)
Theorem scan_finds_exactly fuel root :
  (forall p s, Reaches root [] p s -> (length s < fuel)%nat) ->
  exists files, scanRoutes readDir fuel root = Some files /\
    forall k segs, In (mkFile k segs) files <-> exists p, Reaches root [] p segs /\ route_file p k.
Proof.
  intros H. destruct (walk_total fuel root []) as [files E]; [exact H|]. exists files. split; [done|].
  intros k segs. exact (walk_In _ _ _ _ (mkFile k segs) E).
Qed.
End Scan.

(** ** The names of route files *)

Lemma cut_Some c s a b : cut c s = Some (a, b) -> s = String.append a (String c b) /\ has_char c a = false.
Proof.
  revert a. induction s as [|x s IH]; intros a; simpl; [done|].
  destruct (Ascii.eqb x c) eqn:E.
  - intros [= <- <-]. apply Ascii.eqb_eq in E as ->. done.
  - destruct (cut c s) as [[a' b']|]; [|done]. intros [= <- <-]. destruct (IH a' eq_refl) as [-> H].
    simpl. by rewrite E, H.
Qed.

Lemma kindOf_spec name k :
  kindOf name = Some k <->
  exists base ext, name = String.append base (String "." ext) /\ has_char "." base = false /\
    ext <> EmptyString /\ has_char "." ext = false /\ ROUTE_FILE_NAMES base = Some k.
Proof.
  unfold kindOf, baseAndExt. destruct (cut "." name) as [[base ext]|] eqn:E.
  - apply cut_Some in E as [-> Hb]. split.
    + destruct base as [|c base]; [done|]. cbn [nonempty].
      destruct (ROUTE_FILE_NAMES (String c base)) as [k'|] eqn:K; [|done].
      destruct (_ || _) eqn:O; [done|]. intros [= <-]. apply orb_false_iff in O as [O1 O2].
      apply String.eqb_neq in O1. eauto 10.
    + intros (b & x & E & Hb' & Hx & Hd & K).
      assert (Q : Some (base, ext) = Some (b, x)) by (rewrite <- (cut_app "." base ext), <- (cut_app "." b x), E by done; done).
      injection Q as -> ->. destruct b as [|c b]; [by destruct (String.eqb_spec EmptyString "page")|].
      cbn [nonempty]. rewrite K. apply String.eqb_neq in Hx. by rewrite Hx, Hd.
  - split.
    + destruct (ROUTE_FILE_NAMES name); done.
    + intros (b & x & -> & Hb & _). by rewrite cut_app in E.
Qed.

Lemma inherited_throws files m segs : In (mkFile (inherited m) segs) files -> compileFileRoutes files = Throw TYPE_ERROR.
Proof.
  intros Hin. unfold compileFileRoutes, boundaryKeysByKind. generalize (fun _ : FileRouteKind => (∅ : gset string)) as bk.
  assert (H : forall bk, boundaryKeysByKind_loop files bk = Throw TYPE_ERROR); [|intros bk; by rewrite H].
  induction files as [|f files IH]; intros bk; [done|]. simpl.
  destruct Hin as [->|Hin]; [done|]. destruct (f_kind f); auto.
Qed.

(** Fact: A file whose name up to its extension is a member of [Object.prototype] (a
    co-located [constructor.ts], [valueOf.ts], ...) is not ignored: the scan reads the
    inherited member as its kind, and compiling the tree throws a TypeError. *)
Theorem prototype_name_breaks_compile readDir fuel root files path segs e base ext :
  scanRoutes readDir fuel root = Some files ->
  Reaches readDir root [] path segs -> In e (readDir path) -> d_isDirectory e = false ->
  d_name e = String.append base (String "." ext) -> In base object_prototype ->
  ext <> EmptyString -> has_char "." ext = false ->
  compileFileRoutes files = Throw TYPE_ERROR.
Proof.
  intros Hs R He D En Hb Hx Hd. apply (inherited_throws _ base segs).
  apply (walk_In _ _ _ _ _ (mkFile (inherited base) segs) Hs). exists path. split; [done|]. exists e.
  split; [done|]. split; [done|]. apply kindOf_spec. exists base, ext.
  repeat (destruct Hb as [<-|Hb]; [done|]). done.
Qed.

(** ** Concrete trees *)

(** A directory tree as a reader: the entries of each path. *)
Definition reader (tree : list (string * list DirEntry)) (path : string) : list DirEntry :=
  match List.find (fun kv => String.eqb (fst kv) path) tree with Some (_, es) => es | None => [] end.

Definition file (n : string) : DirEntry := mkEntryOf n false.
Definition dir (n : string) : DirEntry := mkEntryOf n true.

Definition app_tree : string -> list DirEntry := reader [
  ("app", [file "layout.tsx"; file "page.tsx"; file "page.test.tsx"; dir "posts"; dir "(admin)"]);
  ("app/posts", [file "middleware.ts"; file "error.tsx"; dir "[id]"; dir "new"; dir "[...rest]"]);
  ("app/posts/[id]", [file "page.tsx"; file "card.tsx"]);
  ("app/posts/new", [file "page.tsx"; file "error.tsx"]);
  ("app/posts/[...rest]", [file "page.tsx"]);
  ("app/(admin)", [file "middleware.ts"; dir "users"]);
  ("app/(admin)/users", [file "page.tsx"])].

Definition app_files : list DiscoveredFile := Eval vm_compute in default [] (scanRoutes app_tree 4 "app").
Definition app_compiled : list FileRoute :=
  Eval vm_compute in match compileFileRoutes app_files with Ok r => r | Throw _ => [] end.

Example app_pages :
  map (fun r => (pattern r, layoutDepth r, middlewareDepth r)) (pages app_compiled) =
  [("/posts/new", [0%nat], [1%nat]); ("/posts/:id", [0%nat], [1%nat]); ("/users", [0%nat], [1%nat]);
   ("/", [0%nat], []); ("/posts/*rest", [0%nat], [1%nat])].
Proof. vm_compute. reflexivity. Qed.

(** Follow a path of directories through a concrete tree. *)
Ltac descend :=
  match goal with
  | R : Reaches _ _ _ _ _ |- _ =>
      let He := fresh in let Hd := fresh in let R' := fresh in
      inversion R as [|? ? ? He Hd R']; clear R; subst; [simpl; lia|]; vm_compute in He;
      repeat match goal with H : _ \/ _ |- _ => destruct H | H : False |- _ => destruct H end; subst;
      try discriminate Hd; cbn [d_name] in R';
      match type of R' with Reaches _ ?p _ _ _ => let q := eval vm_compute in p in change p with q in R' end
  end.

Lemma scan_depth p s : Reaches app_tree "app" [] p s -> (length s < 4)%nat.
Proof. intros R. repeat descend. Qed.

Lemma scan_finds_exactly_witness :
  exists files, scanRoutes app_tree 4 "app" = Some files /\
    forall k segs, In (mkFile k segs) files <-> exists p, Reaches app_tree "app" [] p segs /\ route_file app_tree p k.
Proof. apply (scan_finds_exactly app_tree 4 "app"). exact scan_depth. Defined.

(** One directory with a page and a [constructor.ts] beside it. *)
Definition helper_tree : string -> list DirEntry := reader [("app", [file "page.tsx"; file "constructor.ts"])].

Lemma prototype_name_breaks_compile_witness :
  scanRoutes helper_tree 1 "app" = Some [mkFile page []; mkFile (inherited "constructor") []] /\
  compileFileRoutes [mkFile page []] <> Throw TYPE_ERROR /\
  compileFileRoutes [mkFile page []; mkFile (inherited "constructor") []] = Throw TYPE_ERROR.
Proof.
  split; [vm_compute; reflexivity|]. split; [vm_compute; discriminate|].
  apply (prototype_name_breaks_compile helper_tree 1 "app" _ "app" [] (file "constructor.ts") "constructor" "ts");
    first [vm_compute; reflexivity|apply reaches_here|simpl; auto|discriminate].
Defined.

Lemma order_irrelevant_witness :
  compileFileRoutes app_files = Ok app_compiled /\
  exists routes', compileFileRoutes (rev app_files) = Ok routes' /\ pages routes' = pages app_compiled /\
    Permutation app_compiled routes'.
Proof.
  split; [vm_compute; reflexivity|].
  apply (order_irrelevant app_files (rev app_files)); [apply Permutation_rev|vm_compute; reflexivity].
Defined.

Lemma guards_run_witness :
  In (mkFile middleware ["(admin)"]) app_files /\
  exists p, In p (pages app_compiled) /\ In 1%nat (middlewareDepth p) /\ firstn 1 (segments p) = ["(admin)"].
Proof.
  split; [vm_compute; auto 10|].
  apply (proj2 (guards_run app_files app_compiled ltac:(vm_compute; reflexivity)) ["(admin)"]). vm_compute; auto 10.
Defined.

(** [/posts/new] answers before [/posts/:id] and before the catch-all. *)
Lemma most_specific_wins_witness :
  exists entries, register (pages app_compiled) [] = Ok entries /\
    match_route "GET" "/posts/new" entries = Ok (Some (hd (mkRoute page EmptyString [] [] [] no_boundaries) (pages app_compiled), ∅)) /\
    forall path, match match_route "GET" path entries with
    | Ok (Some (p, _)) =>
        In p (pages app_compiled) /\
        forall q c, In q (pages app_compiled) -> compile (pattern q) = Ok c -> is_Some (exec (regExp c) path) ->
          q <> p -> more_specific p q
    | Ok None => forall q c, In q (pages app_compiled) -> compile (pattern q) = Ok c -> exec (regExp c) path = None
    | Throw _ => True
    end.
Proof.
  destruct (most_specific_wins app_files app_compiled ltac:(vm_compute; reflexivity)) as (entries & E & H).
  exists entries. split; [exact E|]. split; [|exact H].
  vm_compute in E. injection E as <-. vm_compute. reflexivity.
Defined.

Lemma same_shape_same_urls_witness :
  (matchShape "/files/:id" = matchShape "/files/:slug" <->
   forall path, is_Some (exec (regExp (compiled "/files/:id")) path) <-> is_Some (exec (regExp (compiled "/files/:slug")) path)).
Proof.
  apply (same_shape_same_urls ["files"; "[id]"] ["(group)"; "files"; "[slug]"]); vm_compute; reflexivity.
Defined.
