(* ===== verification/Migrate.v ===== *)
(** * The migrator

    [packages/migrate/src/migrator.ts]: applying and reversing schema migrations, with
    the [schema_migrations] table as the ledger, on SQLite (a transaction per migration)
    and on Postgres (one locked transaction around the run). *)
From S2P Require Import Prelude JsString.
#[local] Open Scope string_scope.

(** [a.localeCompare(b)]: a total preorder of strings, whatever the locale. *)
Class Collation := { localeCompare : string -> string -> Z }.
Class CollationLaws `{col : !Collation} : Prop := {
  collate_refl a : localeCompare a a = 0;
  collate_sym a b : 0 < localeCompare a b <-> localeCompare b a < 0;
  collate_trans a b c : localeCompare a b <= 0 -> localeCompare b c <= 0 -> localeCompare a c <= 0
}.

(** [l.toSorted((a, b) => key(a).localeCompare(key(b)))], a stable sort. *)
Section Sorted.
Context `{col : !Collation} {A : Type} (key : A -> string).

Fixpoint insert_sorted (x : A) (l : list A) : list A :=
  match l with
  | [] => [x]
  | y :: l' => if Z.leb (localeCompare (key x) (key y)) 0 then x :: l else y :: insert_sorted x l'
  end.

Definition toSorted (l : list A) : list A := foldr insert_sorted [] l.
End Sorted.

Inductive Dialect := sqlite | postgres.

(** The driver's errors: a key already in the table, and a table that is not there. *)
Class DriverErrors (Error : Type) := { UNIQUE_VIOLATION : Error; NO_SUCH_TABLE : Error }.

(** A handle on the database: the pool, or the connection a transaction holds. *)
Inductive Handle := pool | pinned.

Section Migrate.
Context `{col : !Collation}.

(** What the migrations change, and what they and the database can throw. *)
Context {World Error : Type} `{drv : !DriverErrors Error}.

Inductive MigrateError :=
| MIGRATE_MISSING_MIGRATION (version : string) (applied : list string)
| DbError (e : Error).

(** The database: what the migrations see, and the bookkeeping table once it exists. *)
Record Db := mkDb { world : World; schema_migrations : option (list string) }.

(** A computation on the database, which a throw leaves where it stood. *)
Definition Eff (A : Type) : Type := Db -> outcome MigrateError A * Db.

Definition ret {A} (a : A) : Eff A := fun db => (Ok a, db).
Definition throw {A} (e : MigrateError) : Eff A := fun db => (Throw e, db).
Definition bind {A B} (m : Eff A) (k : A -> Eff B) : Eff B :=
  fun db => match m db with (Ok a, db') => k a db' | (Throw e, db') => (Throw e, db') end.

Notation "'do!' x ':=' m 'in' k" := (bind m (fun x => k)) (at level 10, x pattern, m at level 100, k at level 200).

(** A schema change, which may throw halfway through. *)
Definition Change : Type := World -> outcome Error unit * World.

Record Migration := mkMigration { up : Change; down : option Change }.
Record MigrationEntry := mkEntry { version : string; migration : Migration }.

Definition change (c : Change) : Eff unit := fun db =>
  let '(r, w) := c (world db) in
  (match r with Ok tt => Ok tt | Throw e => Throw (DbError e) end, mkDb w (schema_migrations db)).

(** On the pool [transaction] commits or rolls back; on a held connection it runs flat. *)
Definition transaction {A} (h : Handle) (body : Eff A) : Eff A := fun db =>
  match h with
  | pinned => body db
  | pool => match body db with (Ok a, db') => (Ok a, db') | (Throw e, _) => (Throw e, db) end
  end.

Definition ensureTable : Eff unit := fun db =>
  (Ok tt, mkDb (world db) (Some (default [] (schema_migrations db)))).

Definition appliedVersions : Eff (list string) := fun db =>
  match schema_migrations db with
  | Some versions => (Ok versions, db)
  | None => (Throw (DbError NO_SUCH_TABLE), db)
  end.

(** [INSERT INTO schema_migrations (version)], the version being the primary key. *)
Definition insert_version (v : string) : Eff unit := fun db =>
  match schema_migrations db with
  | Some versions =>
      if existsb (String.eqb v) versions then (Throw (DbError UNIQUE_VIOLATION), db)
      else (Ok tt, mkDb (world db) (Some (versions ++ [v])%list))
  | None => (Throw (DbError NO_SUCH_TABLE), db)
  end.

Definition delete_version (v : string) : Eff unit := fun db =>
  match schema_migrations db with
  | Some versions => (Ok tt, mkDb (world db) (Some (List.filter (fun v' => negb (String.eqb v' v)) versions)))
  | None => (Throw (DbError NO_SUCH_TABLE), db)
  end.

(** ** The migrator *)

Record Migrator := mkMigrator { entries : list MigrationEntry; dialect : Dialect }.

Definition newMigrator (migrations : list MigrationEntry) (d : Dialect) : Migrator :=
  mkMigrator (toSorted version migrations) d.

Definition withMigrationLock {A} (m : Migrator) (fn : Handle -> Eff A) : Eff A :=
  match dialect m with
  | sqlite => fn pool
  | postgres => transaction pool (fn pinned)
  end.

(** One migration and its record, in a transaction. *)
Definition apply_entry (h : Handle) (e : MigrationEntry) : Eff unit :=
  transaction h (do! _ := change (up (migration e)) in insert_version (version e)).

Fixpoint apply_pending (h : Handle) (pending : list MigrationEntry) : Eff unit :=
  match pending with
  | [] => ret tt
  | e :: pending' => do! _ := apply_entry h e in apply_pending h pending'
  end.

Definition is_pending (applied : list string) (e : MigrationEntry) : bool :=
  negb (existsb (String.eqb (version e)) applied).

Definition migrate (m : Migrator) : Eff (list string) :=
  withMigrationLock m (fun h =>
    do! _ := ensureTable in
    do! applied := appliedVersions in
    let pending := List.filter (is_pending applied) (entries m) in
    do! _ := apply_pending h pending in
    ret (map version pending)).

Definition rollback (m : Migrator) : Eff (option string) :=
  do! _ := ensureTable in
  do! applied := appliedVersions in
  match list.last (toSorted (fun v => v) applied) with
  | None => ret None
  | Some latestVersion =>
      match List.find (fun e => String.eqb (version e) latestVersion) (entries m) with
      | None => throw (MIGRATE_MISSING_MIGRATION latestVersion applied)
      | Some target =>
          do! _ := transaction pool (
            do! _ := match down (migration target) with Some d => change d | None => ret tt end in
            delete_version (version target)) in
          ret (Some (version target))
      end
  end.

Definition status (m : Migrator) : Eff (list (string * bool)) :=
  do! _ := ensureTable in
  do! applied := appliedVersions in
  ret (map (fun e => (version e, existsb (String.eqb (version e)) applied)) (entries m)).
End Migrate.
Arguments MigrateError : clear implicits.
Arguments Db : clear implicits.
Arguments Eff : clear implicits.
Arguments Change : clear implicits.
Arguments Migration : clear implicits.
Arguments MigrationEntry : clear implicits.
Arguments Migrator : clear implicits.
