(* ===== verification/MigrateProps.v ===== *)
(** * The migrator: correctness

    A run applies the pending migrations in order and records exactly those it applied;
    what a failure leaves on each dialect; running again; rolling back; a fleet of
    migrators on one SQLite database. *)
From Stdlib Require Import OrderedTypeEx.
From S2P Require Import Prelude JsString Migrate.
#[local] Open Scope string_scope.

Section Migrate.
Context `{col : !Collation} {World Error : Type} `{drv : !DriverErrors Error}.
Implicit Types (db : Db World) (es : list (MigrationEntry World Error)) (m : Migrator World Error).

(** The versions recorded; none before the table exists. *)
Definition ledger db : list string := default [] (schema_migrations db).

(** Migrations applied one after the other. *)
Inductive Applied : World -> list (MigrationEntry World Error) -> World -> Prop :=
| applied_nil w : Applied w [] w
| applied_cons w e es w1 w2 :
    up (migration e) w = (Ok tt, w1) -> Applied w1 es w2 -> Applied w (e :: es) w2.

Lemma applied_app w es w1 es' w2 : Applied w es w1 -> Applied w1 es' w2 -> Applied w (es ++ es')%list w2.
Proof. induction 1 as [|w e es w0 w1 H _ IH]; intros; simpl; [done|]. econstructor; eauto. Qed.

Lemma applied_snoc w es w1 e w2 : Applied w es w1 -> up (migration e) w1 = (Ok tt, w2) -> Applied w (es ++ [e])%list w2.
Proof. intros H E. eapply applied_app; [exact H|]. econstructor; [exact E|constructor]. Qed.

(** Why the next migration, [e], fails: it throws, or its version is recorded. *)
Definition fails e (w : World) (versions : list string) (err : MigrateError Error) : Prop :=
  (exists er w', up (migration e) w = (Throw er, w') /\ err = DbError er) \/
  (exists w', up (migration e) w = (Ok tt, w') /\ In (version e) versions /\ err = DbError UNIQUE_VIOLATION).

Lemma known_In v versions : existsb (String.eqb v) versions = true <-> In v versions.
Proof.
  rewrite existsb_exists. split; [by intros (v' & H & <-%String.eqb_eq)|].
  intros H. exists v. split; [done|apply String.eqb_refl].
Qed.

(** One entry: applied and recorded, or failed, and then rolled back on the pool. *)
Lemma apply_entry_spec h e w versions :
  match apply_entry h e (mkDb w (Some versions)) with
  | (Ok _, db') => exists w', up (migration e) w = (Ok tt, w') /\ ~ In (version e) versions /\
      db' = mkDb w' (Some (versions ++ [version e])%list)
  | (Throw err, db') => fails e w versions err /\ (h = pool -> db' = mkDb w (Some versions))
  end.
Proof.
  assert (B : match bind (change (up (migration e))) (fun _ => insert_version (version e)) (mkDb w (Some versions)) with
    | (Ok _, db') => exists w', up (migration e) w = (Ok tt, w') /\ ~ In (version e) versions /\
        db' = mkDb w' (Some (versions ++ [version e])%list)
    | (Throw err, _) => fails e w versions err
    end).
  { unfold bind, change. simpl. destruct (up (migration e) w) as [[[]|er] w'] eqn:Eu; simpl; [|by left; eauto].
    unfold insert_version. simpl. destruct (existsb _ versions) eqn:K.
    - apply known_In in K. right. eauto.
    - exists w'. split; [done|]. split; [|done]. intros Hin. apply known_In in Hin. congruence. }
  unfold apply_entry, transaction. destruct (bind _ _ _) as [[a|err] db']; destruct h; auto.
  split; [done|intros [=]].
Qed.

(** The loop: the migrations before the first failure are applied and recorded. *)
Lemma apply_pending_spec h es w versions r db' :
  apply_pending h es (mkDb w (Some versions)) = (r, db') ->
  match r with
  | Ok _ => Applied w es (world db') /\ schema_migrations db' = Some (versions ++ map version es)%list
  | Throw err => exists done_ e rest w', es = (done_ ++ e :: rest)%list /\ Applied w done_ w' /\
      fails e w' (versions ++ map version done_) err /\
      (h = pool -> db' = mkDb w' (Some (versions ++ map version done_)%list))
  end.
Proof.
  revert w versions. induction es as [|e es IH]; intros w versions; simpl.
  { unfold ret. intros [= <- <-]. simpl. rewrite app_nil_r. split; [constructor|done]. }
  unfold bind. pose proof (apply_entry_spec h e w versions) as A.
  destruct (apply_entry h e _) as [[a|err] db1].
  - destruct A as (w1 & Eu & Nv & ->). intros H. specialize (IH _ _ H). destruct r as [u|err].
    + destruct IH as [Ha Hs]. rewrite <- app_assoc in Hs. split; [econstructor; eauto|done].
    + destruct IH as (d & e' & rest & w' & -> & Ha & Hf & Hp). rewrite <- app_assoc in Hf. rewrite <- app_assoc in Hp.
      exists (e :: d), e', rest, w'. split; [done|]. split; [econstructor; eauto|done].
  - destruct A as [Hf Hp]. intros [= <- <-]. exists [], e, es, w. simpl. rewrite app_nil_r.
    split_and!; [done|constructor|done|done].
Qed.

Definition pending_of m db : list (MigrationEntry World Error) := List.filter (is_pending (ledger db)) (entries m).

(** The body of the run on a handle. *)
Definition run_on (h : Handle) m : Eff World Error (list string) :=
  bind ensureTable (fun _ => bind appliedVersions (fun applied =>
    bind (apply_pending h (List.filter (is_pending applied) (entries m))) (fun _ =>
    ret (map version (List.filter (is_pending applied) (entries m)))))).

Lemma run_on_unfold h m db :
  run_on h m db =
  match apply_pending h (pending_of m db) (mkDb (world db) (Some (ledger db))) with
  | (Ok _, db') => (Ok (map version (pending_of m db)), db')
  | (Throw e, db') => (Throw e, db')
  end.
Proof. done. Qed.

Lemma migrate_unfold m db :
  migrate m db = match dialect m with sqlite => run_on pool m db | postgres => transaction pool (run_on pinned m) db end.
Proof. unfold migrate, withMigrationLock. by destruct (dialect m). Qed.

(** Fact: A run applies the pending migrations, those of unrecorded versions, in version
    order, and records exactly those it applied. When one fails (it throws, or its version
    is a duplicate), SQLite keeps those before it, applied and recorded, and nothing of the
    failing one; Postgres keeps nothing at all, not even the bookkeeping table. *)
Theorem migrate_spec m db r db' :
  migrate m db = (r, db') ->
  match r with
  | Ok versions =>
      versions = map version (pending_of m db) /\
      Applied (world db) (pending_of m db) (world db') /\
      schema_migrations db' = Some (ledger db ++ versions)%list
  | Throw err =>
      exists applied e rest w, pending_of m db = (applied ++ e :: rest)%list /\
        Applied (world db) applied w /\ fails e w (ledger db ++ map version applied) err /\
        db' = match dialect m with
              | sqlite => mkDb w (Some (ledger db ++ map version applied)%list)
              | postgres => db
              end
  end.
Proof.
  rewrite migrate_unfold.
  assert (R : forall h, match run_on h m db with
    | (Ok versions, db') => versions = map version (pending_of m db) /\
        Applied (world db) (pending_of m db) (world db') /\ schema_migrations db' = Some (ledger db ++ versions)%list
    | (Throw err, db') => exists applied e rest w, pending_of m db = (applied ++ e :: rest)%list /\
        Applied (world db) applied w /\ fails e w (ledger db ++ map version applied) err /\
        (h = pool -> db' = mkDb w (Some (ledger db ++ map version applied)%list))
    end).
  { intros h. rewrite run_on_unfold. destruct (apply_pending h _ _) as [[u|err] db1] eqn:E;
      apply apply_pending_spec in E; [destruct E; auto|exact E]. }
  destruct (dialect m).
  - intros E. specialize (R pool). rewrite E in R. destruct r as [vs|err]; [done|].
    destruct R as (a & e & rest & w & ? & ? & ? & Hd). exists a, e, rest, w. auto.
  - unfold transaction. specialize (R pinned). destruct (run_on pinned m db) as [[vs|err] db1]; intros [= <- <-]; [done|].
    destruct R as (a & e & rest & w & ? & ? & ? & _). exists a, e, rest, w. auto.
Qed.

Lemma pending_recorded m db versions :
  schema_migrations db = Some versions -> (forall e, In e (entries m) -> In (version e) versions) -> pending_of m db = [].
Proof.
  intros E H. unfold pending_of, ledger. rewrite E. simpl.
  induction (entries m) as [|e es IH]; [done|]. simpl. unfold is_pending at 1.
  rewrite (proj2 (known_In _ _) (H e (or_introl eq_refl))). simpl. apply IH. intros e' He'. apply H. by right.
Qed.

(** Fact: A run is idempotent: after one that succeeded, the next returns no version and
    leaves the database as it is, on either dialect. *)
Theorem migrate_idempotent m db versions db' :
  migrate m db = (Ok versions, db') -> migrate m db' = (Ok [], db').
Proof.
  intros H. assert (S : schema_migrations db' = Some (ledger db ++ versions)%list /\ versions = map version (pending_of m db)).
  { rewrite migrate_unfold in H. unfold transaction in H.
    assert (R : forall h, run_on h m db = (Ok versions, db') ->
      schema_migrations db' = Some (ledger db ++ versions)%list /\ versions = map version (pending_of m db)).
    { intros h. rewrite run_on_unfold. destruct (apply_pending h _ _) as [[u|err] db1] eqn:E; intros [= <- <-].
      apply apply_pending_spec in E as [_ E]. done. }
    destruct (dialect m); [by eapply R|]. destruct (run_on pinned m db) as [[vs|err] db1] eqn:E; [|done].
    injection H as -> ->. by eapply R. }
  destruct S as [S Ev]. assert (P : pending_of m db' = []).
  { eapply pending_recorded; [exact S|]. intros e He. apply in_app_iff.
    destruct (is_pending (ledger db) e) eqn:K.
    - right. rewrite Ev. apply in_map. by apply filter_In.
    - left. unfold is_pending in K. apply negb_false_iff in K. by apply known_In. }
  assert (U : forall h, run_on h m db' = (Ok [], db')).
  { intros h. rewrite run_on_unfold, P. simpl. unfold ledger. rewrite S. destruct db'. simpl in *. by subst. }
  rewrite migrate_unfold. destruct (dialect m); [apply U|]. unfold transaction. by rewrite U.
Qed.

(** ** Rolling back *)

Lemma insert_sorted_In {A} (key : A -> string) x l y : In y (insert_sorted key x l) <-> x = y \/ In y l.
Proof.
  induction l as [|z l IH]; simpl; [done|]. destruct (Z.leb _ _); simpl; [done|]. rewrite IH. tauto.
Qed.

Lemma toSorted_In {A} (key : A -> string) l y : In y (toSorted key l) <-> In y l.
Proof. induction l as [|x l IH]; simpl; [done|]. by rewrite insert_sorted_In, IH. Qed.

(** Sorted: each element collates no later than those after it. *)
Fixpoint ordered (l : list string) : Prop :=
  match l with [] => True | x :: l' => (forall y, In y l' -> (localeCompare x y <= 0)%Z) /\ ordered l' end.

Section Laws.
Context `{laws : !CollationLaws}.

Lemma insert_ordered x l : ordered l -> ordered (insert_sorted (fun v => v) x l).
Proof.
  induction l as [|z l IH]; simpl; [done|]. intros [Hz Hl].
  destruct (Z.leb_spec (localeCompare x z) 0) as [Le|Gt].
  - split; [|done]. intros y [<-|Hy]; [done|]. eapply collate_trans; [exact Le|auto].
  - split; [|auto]. intros y [<-|Hy]%insert_sorted_In; [|auto]. apply collate_sym in Gt. lia.
Qed.

Lemma toSorted_ordered l : ordered (toSorted (fun v => v) l).
Proof. induction l as [|x l IH]; [done|]. by apply insert_ordered. Qed.

Lemma ordered_last l v : ordered l -> list.last l = Some v -> In v l /\ forall v', In v' l -> (localeCompare v' v <= 0)%Z.
Proof.
  induction l as [|x l IH]; simpl; [done|]. intros [Hx Hl] E. destruct l as [|y l].
  - injection E as ->. split; [by left|]. intros v' [<-|[]]. by rewrite collate_refl.
  - destruct (IH Hl E) as [Hv Hm]. split; [by right|]. intros v' [<-|Hv']; [auto|by apply Hm].
Qed.

Lemma toSorted_last l v :
  list.last (toSorted (fun v => v) l) = Some v -> In v l /\ forall v', In v' l -> (localeCompare v' v <= 0)%Z.
Proof.
  intros E. destruct (ordered_last _ _ (toSorted_ordered l) E) as [Hv Hm].
  split; [by apply toSorted_In in Hv|]. intros v' H. apply Hm. by apply toSorted_In.
Qed.

Lemma toSorted_last_None l : list.last (toSorted (fun v : string => v) l) = None -> l = [].
Proof.
  intros E%last_None. destruct l as [|x l]; [done|].
  assert (H : In x (toSorted (fun v => v) (x :: l))) by (apply toSorted_In; by left). by rewrite E in H.
Qed.

Definition reverse e : Change World Error := match down (migration e) with Some d => d | None => fun w => (Ok tt, w) end.

Lemma rollback_found m db v e :
  list.last (toSorted (fun v => v) (ledger db)) = Some v ->
  List.find (fun e => String.eqb (version e) v) (entries m) = Some e ->
  rollback m db =
  match reverse e (world db) with
  | (Ok _, w) => (Ok (Some v), mkDb w (Some (List.filter (fun v' => negb (String.eqb v' v)) (ledger db))))
  | (Throw er, _) => (Throw (DbError er), mkDb (world db) (Some (ledger db)))
  end.
Proof.
  intros El Ef. unfold rollback, bind, ensureTable, appliedVersions. cbn [schema_migrations world].
  change (default [] (schema_migrations db)) with (ledger db). rewrite El, Ef.
  assert (Ev : version e = v) by (apply List.find_some in Ef as [_ Ef]; by apply String.eqb_eq). rewrite Ev.
  unfold transaction, reverse, change, ret, delete_version.
  destruct (down (migration e)) as [d|]; [|done]. cbn [world schema_migrations].
  destruct (d (world db)) as [[[]|er] w]; done.
Qed.

(** Fact: Rolling back reverses the recorded version that collates last, whether or not its
    migration is loaded: with nothing recorded it does nothing; it refuses when the version
    has no definition; it runs [down] and drops the record, or, when [down] throws, changes
    nothing. No other version is ever reversed. *)
Theorem rollback_spec m db r db' :
  rollback m db = (r, db') ->
  match r with
  | Ok None => ledger db = [] /\ db' = mkDb (world db) (Some [])
  | Ok (Some v) =>
      In v (ledger db) /\ (forall v', In v' (ledger db) -> (localeCompare v' v <= 0)%Z) /\
      exists e w, List.find (fun e => String.eqb (version e) v) (entries m) = Some e /\
        reverse e (world db) = (Ok tt, w) /\
        db' = mkDb w (Some (List.filter (fun v' => negb (String.eqb v' v)) (ledger db)))
  | Throw err =>
      db' = mkDb (world db) (Some (ledger db)) /\
      exists v, In v (ledger db) /\ (forall v', In v' (ledger db) -> (localeCompare v' v <= 0)%Z) /\
        match List.find (fun e => String.eqb (version e) v) (entries m) with
        | None => err = MIGRATE_MISSING_MIGRATION v (ledger db)
        | Some e => exists er w, reverse e (world db) = (Throw er, w) /\ err = DbError er
        end
  end.
Proof.
  destruct (list.last (toSorted (fun v => v) (ledger db))) as [v|] eqn:El.
  2: { unfold rollback, bind, ensureTable, appliedVersions. cbn [schema_migrations world].
       change (default [] (schema_migrations db)) with (ledger db). rewrite El. intros [= <- <-].
       apply toSorted_last_None in El. by rewrite El. }
  pose proof (toSorted_last _ _ El) as [Hv Hm].
  destruct (List.find (fun e => String.eqb (version e) v) (entries m)) as [e|] eqn:Ef.
  - rewrite (rollback_found _ _ _ _ El Ef).
    destruct (reverse e (world db)) as [[[]|er] w] eqn:Er; intros [= <- <-].
    + split; [done|]. split; [done|]. exists e, w. auto.
    + split; [done|]. exists v. rewrite Ef. eauto 6.
  - unfold rollback, bind, ensureTable, appliedVersions. cbn [schema_migrations world].
    change (default [] (schema_migrations db)) with (ledger db). rewrite El, Ef.
    intros [= <- <-]. split; [done|]. exists v. rewrite Ef. auto.
Qed.

(** Fact: Migrating and rolling back are inverse: where a run applied one migration, whose
    version collates after every recorded one and whose [down] undoes its [up], rolling back
    restores the database as it was. *)
Theorem rollback_undoes_migrate m db v db1 e :
  migrate m db = (Ok [v], db1) -> schema_migrations db = Some (ledger db) ->
  List.find (fun e => String.eqb (version e) v) (entries m) = Some e ->
  (forall v', In v' (ledger db) -> (localeCompare v' v < 0)%Z) ->
  reverse e (world db1) = (Ok tt, world db) ->
  rollback m db1 = (Ok (Some v), db).
Proof.
  intros Hm Hs Hf Hmax Hd.
  assert (S : schema_migrations db1 = Some (ledger db ++ [v])%list).
  { rewrite migrate_unfold in Hm. unfold transaction in Hm.
    assert (R : forall h, run_on h m db = (Ok [v], db1) -> schema_migrations db1 = Some (ledger db ++ [v])%list).
    { intros h. rewrite run_on_unfold. destruct (apply_pending h _ _) as [[u|err] db2] eqn:E; [|done].
      intros [= Ev ->]. apply apply_pending_spec in E as [_ E]. by rewrite Ev in E. }
    destruct (dialect m); [by eapply R|]. destruct (run_on pinned m db) as [[vs|err] db2] eqn:E; [|done].
    injection Hm as -> ->. by eapply R. }
  assert (L1 : ledger db1 = (ledger db ++ [v])%list) by (unfold ledger at 1; by rewrite S).
  destruct (list.last (toSorted (fun v => v) (ledger db1))) as [v0|] eqn:El.
  2: { apply toSorted_last_None in El. rewrite L1 in El. by destruct (ledger db). }
  pose proof (toSorted_last _ _ El) as [Hv0 Hm0]. rewrite L1 in Hv0, Hm0.
  assert (v0 = v) as ->.
  { apply in_app_iff in Hv0 as [Hv0|[->|[]]]; [|done]. specialize (Hmax _ Hv0).
    assert (L : (localeCompare v v0 <= 0)%Z) by (apply Hm0, in_app_iff; right; by left).
    apply collate_sym in Hmax. lia. }
  rewrite (rollback_found _ _ _ _ El Hf), Hd, L1. f_equal. destruct db as [w l]. cbn [world schema_migrations] in *. rewrite Hs.
  f_equal. f_equal. clear -Hmax laws. rewrite List.filter_app. simpl. rewrite String.eqb_refl, app_nil_r.
  generalize dependent (ledger (mkDb w l)). intros xs Hmax. induction xs as [|x xs IH]; [done|]. simpl.
  destruct (String.eqb_spec x v) as [->|N].
  - specialize (Hmax v (or_introl eq_refl)). rewrite collate_refl in Hmax. lia.
  - simpl. f_equal. apply IH. intros v' Hv'. apply Hmax. by right.
Qed.
End Laws.

(** ** A fleet on one SQLite database *)

(** A booting instance: before it has read the ledger, or with what it has yet to apply. *)
Inductive Proc := Booting | Running (todo : list (MigrationEntry World Error)).

Record Fleet := mkFleet { database : Db World; procs : list Proc }.

(** The instances run the same migrator; each statement, and each transaction, is atomic,
    and between them the others take theirs. An instance may disappear (a crash, a busy database):
    its open transaction is rolled back. *)
Inductive fleet_step m : Fleet -> Fleet -> Prop :=
| step_boot db db' ps :
    ensureTable (Error := Error) db = (Ok tt, db') -> fleet_step m (mkFleet db ps) (mkFleet db' (Booting :: ps))
| step_read db db' applied ps1 ps2 :
    appliedVersions (Error := Error) db = (Ok applied, db') ->
    fleet_step m (mkFleet db (ps1 ++ Booting :: ps2)%list)
                 (mkFleet db' (ps1 ++ Running (List.filter (is_pending applied) (entries m)) :: ps2)%list)
| step_apply db db' e todo ps1 ps2 :
    apply_entry pool e db = (Ok tt, db') ->
    fleet_step m (mkFleet db (ps1 ++ Running (e :: todo) :: ps2)%list) (mkFleet db' (ps1 ++ Running todo :: ps2)%list)
| step_throw db db' err e todo ps1 ps2 :
    apply_entry pool e db = (Throw err, db') ->
    fleet_step m (mkFleet db (ps1 ++ Running (e :: todo) :: ps2)%list) (mkFleet db' (ps1 ++ ps2)%list)
| step_gone db p ps1 ps2 : fleet_step m (mkFleet db (ps1 ++ p :: ps2)%list) (mkFleet db (ps1 ++ ps2)%list).

Inductive fleet_reaches m (s : Fleet) : Fleet -> Prop :=
| fleet_refl : fleet_reaches m s s
| fleet_next s1 s2 : fleet_reaches m s s1 -> fleet_step m s1 s2 -> fleet_reaches m s s2.

(** The migrations [applied] so far are the first of those pending at the start, and every
    instance is at or behind them. *)
Definition fleet_inv m db0 applied (s : Fleet) : Prop :=
  (exists rest, pending_of m db0 = (applied ++ rest)%list) /\
  Applied (world db0) applied (world (database s)) /\
  ledger (database s) = (ledger db0 ++ map version applied)%list /\
  (procs s <> [] -> schema_migrations (database s) <> None) /\
  forall todo, In (Running todo) (procs s) ->
    exists d, pending_of m db0 = (d ++ todo)%list /\ (length d <= length applied)%nat.

Lemma filter_pending_app (a b : list string) es :
  List.filter (is_pending (a ++ b)) es = List.filter (is_pending b) (List.filter (is_pending a) es).
Proof.
  induction es as [|e es IH]; [done|]. cbn [List.filter].
  assert (P : is_pending (a ++ b) e = is_pending a e && is_pending b e)
    by (unfold is_pending; by rewrite existsb_app, negb_orb).
  rewrite P. destruct (is_pending a e); cbn [andb List.filter]; [destruct (is_pending b e)|]; by rewrite IH.
Qed.

Lemma filter_rest (applied rest : list (MigrationEntry World Error)) :
  List.NoDup (map version (applied ++ rest)) -> List.filter (is_pending (map version applied)) (applied ++ rest) = rest.
Proof.
  rewrite map_app. intros Nd. rewrite List.filter_app.
  assert (A : forall l : list (MigrationEntry World Error), (forall e, In e l -> In (version e) (map version applied)) ->
    List.filter (is_pending (map version applied)) l = []).
  { induction l as [|e l IH]; intros H; [done|]. cbn [List.filter]. unfold is_pending at 1.
    rewrite (proj2 (known_In _ _) (H e (or_introl eq_refl))). apply IH. intros e' He'. apply H. by right. }
  assert (B : forall l : list (MigrationEntry World Error), (forall e, In e l -> ~ In (version e) (map version applied)) ->
    List.filter (is_pending (map version applied)) l = l).
  { induction l as [|e l IH]; intros H; [done|]. cbn [List.filter]. unfold is_pending at 1.
    destruct (existsb _ _) eqn:K; [apply known_In in K; by destruct (H e (or_introl eq_refl))|].
    cbn [negb]. f_equal. apply IH. intros e' He'. apply H. by right. }
  rewrite A, B; [done| |intros e He; by apply in_map].
  intros e He Hin. clear A B. induction applied as [|a l IH]; [done|]. simpl in *.
  apply List.NoDup_cons_iff in Nd as [Na Nd]. destruct Hin as [E|Hin]; [|by apply IH].
  apply Na. rewrite E. apply in_app_iff. right. by apply in_map.
Qed.

Lemma pending_suffix m db0 applied rest :
  List.NoDup (map version (entries m)) -> pending_of m db0 = (applied ++ rest)%list ->
  List.filter (is_pending (ledger db0 ++ map version applied)) (entries m) = rest.
Proof.
  intros Nd E. rewrite filter_pending_app. fold (pending_of m db0). rewrite E. apply filter_rest.
  rewrite <- E. unfold pending_of. by apply NoDup_map_filter.
Qed.

Lemma app_split {A} (a b c d : list A) :
  (a ++ b = c ++ d)%list -> (length a <= length c)%nat -> exists k, c = (a ++ k)%list /\ b = (k ++ d)%list.
Proof.
  revert c. induction a as [|x a IH]; intros c E L; [by exists c|]. destruct c as [|y c]; simpl in *; [lia|].
  injection E as -> E. destruct (IH c E ltac:(lia)) as (k & -> & ->). by exists k.
Qed.

(** One instance's next transaction: it applies the next pending migration of the fleet,
    or it is behind and its record is refused. *)
Lemma fleet_apply m db0 applied rest d e todo db db' r :
  pending_of m db0 = (applied ++ rest)%list -> pending_of m db0 = (d ++ e :: todo)%list -> (length d <= length applied)%nat ->
  Applied (world db0) applied (world db) -> schema_migrations db = Some (ledger db0 ++ map version applied)%list ->
  apply_entry pool e db = (r, db') ->
  match r with
  | Ok _ => exists rest', rest = e :: rest' /\ todo = rest' /\ Applied (world db0) (applied ++ [e]) (world db') /\
      schema_migrations db' = Some (ledger db0 ++ map version (applied ++ [e]))%list
  | Throw _ => db' = db
  end.
Proof.
  intros E1 E2 L Ha Hs Hr. destruct db as [w l]. simpl in Hs. subst l.
  pose proof (apply_entry_spec pool e w (ledger db0 ++ map version applied)) as S. rewrite Hr in S.
  destruct r as [u|err]; [|by apply S]. destruct S as (w' & Eu & Nv & ->).
  rewrite E1 in E2. destruct (app_split d (e :: todo) applied rest) as (k & -> & Ek); [done|done|].
  destruct k as [|e' k]; simpl in Ek.
  - exists todo. split; [done|]. split; [done|]. cbn [world schema_migrations]. rewrite app_nil_r in *. split.
    + eapply applied_snoc; eauto.
    + by rewrite map_app, app_assoc.
  - exfalso. injection Ek as <- _. apply Nv, in_app_iff. right. rewrite map_app. apply in_app_iff. right. by left.
Qed.

Lemma fleet_step_inv m db0 applied s s' :
  List.NoDup (map version (entries m)) -> fleet_inv m db0 applied s -> fleet_step m s s' ->
  exists applied', fleet_inv m db0 applied' s'.
Proof.
  intros Nd ((rest & Er) & Ha & Hl & Ht & Hp) Hstep. unfold fleet_inv.
  inversion Hstep as [db db' ps Hb|db db' vs ps1 ps2 Hb|db db' e todo ps1 ps2 Hb|db db' err e todo ps1 ps2 Hb|db p ps1 ps2];
    subst; cbn [database procs] in *.
  - injection Hb as <-. exists applied. split_and!; [by exists rest|done|done|done|].
    intros todo [[=]|H]. by apply Hp.
  - unfold appliedVersions in Hb. destruct (schema_migrations db) as [l|] eqn:Es; [|done]. injection Hb as <- <-.
    exists applied. split_and!; [by exists rest|done|done|by rewrite Es|].
    assert (El : l = (ledger db0 ++ map version applied)%list) by (rewrite <- Hl; unfold ledger; by rewrite Es).
    intros todo Hin. apply in_app_iff in Hin as [Hin|[Hin|Hin]].
    + apply Hp, in_app_iff. by left.
    + injection Hin as <-. exists applied. split; [|done]. by rewrite El, (pending_suffix _ _ _ _ Nd Er).
    + apply Hp, in_app_iff. right. by right.
  - destruct (Hp (e :: todo)) as (d & Ed & Ld); [apply in_app_iff; right; by left|].
    assert (Es : schema_migrations db = Some (ledger db0 ++ map version applied)%list).
    { rewrite <- Hl. unfold ledger. destruct (schema_migrations db) eqn:Es; [done|].
      exfalso. apply Ht; [|done]. by destruct ps1. }
    destruct (fleet_apply m db0 applied rest d e todo db db' (Ok tt)) as (rest' & -> & -> & Ha' & Hs'); [done..|].
    exists (applied ++ [e])%list. split_and!; [exists rest'; by rewrite <- app_assoc|done|by unfold ledger at 1; rewrite Hs'|by rewrite Hs'|].
    intros todo Hin. rewrite length_app. simpl. apply in_app_iff in Hin as [Hin|[Hin|Hin]].
    + destruct (Hp todo) as (d' & ? & ?); [apply in_app_iff; by left|]. exists d'. split; [done|lia].
    + injection Hin as <-. exists (applied ++ [e])%list. split; [by rewrite Er, <- app_assoc|rewrite length_app; simpl; lia].
    + destruct (Hp todo) as (d' & ? & ?); [apply in_app_iff; right; by right|]. exists d'. split; [done|lia].
  - destruct (Hp (e :: todo)) as (d & Ed & Ld); [apply in_app_iff; right; by left|].
    assert (Es : schema_migrations db = Some (ledger db0 ++ map version applied)%list).
    { rewrite <- Hl. unfold ledger. destruct (schema_migrations db) eqn:Es; [done|].
      exfalso. apply Ht; [|done]. by destruct ps1. }
    pose proof (fleet_apply m db0 applied rest d e todo db db' (Throw err) Er Ed Ld Ha Es Hb) as ->.
    exists applied. split_and!; [by exists rest|done|done|by rewrite Es|].
    intros todo' Hin. apply Hp. apply in_app_iff in Hin as [Hin|Hin]; apply in_app_iff; [by left|right; by right].
  - exists applied. split_and!; [by exists rest|done|done|intros _; apply Ht; by destruct ps1|].
    intros todo' Hin. apply Hp. apply in_app_iff in Hin as [Hin|Hin]; apply in_app_iff; [by left|right; by right].
Qed.

(** Fact: A fleet booting on one SQLite database: however the instances' reads and
    transactions interleave, the database is at every moment the one a single migrator
    would have after some of the pending migrations, in order, each applied and recorded
    once; and an instance that gets to the end finds them all applied. *)
Theorem fleet_applies_once m db0 s :
  List.NoDup (map version (entries m)) ->
  fleet_reaches m (mkFleet db0 []) s ->
  exists applied rest, pending_of m db0 = (applied ++ rest)%list /\
    Applied (world db0) applied (world (database s)) /\
    ledger (database s) = (ledger db0 ++ map version applied)%list /\
    (In (Running []) (procs s) -> rest = []).
Proof.
  intros Nd R. assert (I : exists applied, fleet_inv m db0 applied s).
  { induction R as [|s1 s2 _ (applied & IH) Hs]; [|by eapply fleet_step_inv].
    exists []. unfold fleet_inv. simpl. rewrite app_nil_r. split_and!; [by eexists|constructor|done|done|done]. }
  destruct I as (applied & (rest & Er) & Ha & Hl & _ & Hp). exists applied, rest. split_and!; [done..|].
  intros Hin. destruct (Hp [] Hin) as (d & Ed & Ld). rewrite app_nil_r in Ed. rewrite Ed in Er.
  apply (f_equal length) in Er. rewrite length_app in Er. destruct rest; [done|simpl in Er; lia].
Qed.
End Migrate.

(** * The migrator: concrete runs

    Migrations that create and drop tables, code-unit collation. *)
#[local] Open Scope string_scope.

#[export] Instance code_units : Collation :=
  {| localeCompare a b := match String.compare a b with Lt => -1 | Eq => 0 | Gt => 1 end |}.

#[export] Instance code_units_laws : CollationLaws.
Proof.
  split; cbn.
  - intros a. by rewrite compare_refl.
  - intros a b. rewrite (String.compare_antisym b a). by destruct (String.compare a b).
  - intros a b c. assert (T : forall x y, (match String.compare x y with Lt => -1 | Eq => 0 | Gt => 1 end <= 0)%Z <->
      x = y \/ String_as_OT.lt x y).
    { intros x y. rewrite <- String_as_OT.cmp_lt, <- String_as_OT.cmp_eq.
      unfold String_as_OT.cmp. destruct (String.compare x y); naive_solver lia. }
    rewrite !T. intros [->|H1] [->|H2]; auto. right. by eapply String_as_OT.lt_trans.
Qed.

Inductive SqlError := already_exists (table : string) | no_such_table (table : string) | constraint | no_ledger.
#[export] Instance sql_errors : DriverErrors SqlError := {| UNIQUE_VIOLATION := constraint; NO_SUCH_TABLE := no_ledger |}.

Definition create (t : string) : Change (list string) SqlError := fun w =>
  if existsb (String.eqb t) w then (Throw (already_exists t), w) else (Ok tt, t :: w).
Definition drop (t : string) : Change (list string) SqlError := fun w =>
  if existsb (String.eqb t) w then (Ok tt, List.filter (fun x => negb (String.eqb x t)) w) else (Throw (no_such_table t), w).

Definition entry (v t : string) : MigrationEntry (list string) SqlError := mkEntry v (mkMigration (create t) (Some (drop t))).

(** Given out of order. *)
Definition app_migrator (d : Dialect) : Migrator (list string) SqlError :=
  newMigrator [entry "003" "comments"; entry "001" "users"; entry "002" "posts"] d.

Definition fresh : Db (list string) := mkDb [] None.
Definition migrated : Db (list string) := mkDb ["comments"; "posts"; "users"] (Some ["001"; "002"; "003"]).

(** [posts] exists already: the second migration throws. *)
Definition clash : Db (list string) := mkDb ["posts"] None.

Lemma migrate_spec_witness :
  migrate (app_migrator sqlite) clash =
    (Throw (DbError (already_exists "posts")), mkDb ["users"; "posts"] (Some ["001"])) /\
  migrate (app_migrator postgres) clash = (Throw (DbError (already_exists "posts")), clash) /\
  exists applied e rest w, pending_of (app_migrator postgres) clash = (applied ++ e :: rest)%list /\
    Applied (world clash) applied w /\
    fails e w (ledger clash ++ map version applied)%list (DbError (already_exists "posts")) /\ clash = clash.
Proof.
  split; [vm_compute; reflexivity|]. split; [vm_compute; reflexivity|].
  apply (migrate_spec (app_migrator postgres) clash (Throw (DbError (already_exists "posts"))) clash).
  vm_compute. reflexivity.
Defined.

Lemma migrate_idempotent_witness :
  migrate (app_migrator postgres) fresh = (Ok ["001"; "002"; "003"], migrated) /\
  migrate (app_migrator postgres) migrated = (Ok [], migrated).
Proof.
  split; [vm_compute; reflexivity|].
  apply (migrate_idempotent (app_migrator postgres) fresh ["001"; "002"; "003"]). vm_compute. reflexivity.
Defined.

(** A migration numbered below an applied one arrives late: it is the one most recently
    applied, and rolling back reverses the other. *)
Definition late : Db (list string) := mkDb ["posts"; "comments"; "users"] (Some ["001"; "003"; "002"]).

Lemma rollback_spec_witness :
  migrate (app_migrator sqlite) (mkDb ["comments"; "users"] (Some ["001"; "003"])) = (Ok ["002"], late) /\
  rollback (app_migrator sqlite) late = (Ok (Some "003"), mkDb ["posts"; "users"] (Some ["001"; "002"])) /\
  In "003" (ledger late) /\ forall v', In v' (ledger late) -> (localeCompare v' "003" <= 0)%Z.
Proof.
  split; [vm_compute; reflexivity|]. split; [vm_compute; reflexivity|].
  assert (E : rollback (app_migrator sqlite) late = (Ok (Some "003"), mkDb ["posts"; "users"] (Some ["001"; "002"])))
    by (vm_compute; reflexivity).
  destruct (rollback_spec _ _ _ _ E) as (H1 & H2 & _).
  split; [exact H1|exact H2].
Defined.

Lemma rollback_undoes_migrate_witness :
  let db := mkDb ["posts"; "users"] (Some ["001"; "002"]) in
  migrate (app_migrator sqlite) db = (Ok ["003"], migrated) /\
  rollback (app_migrator sqlite) migrated = (Ok (Some "003"), db).
Proof.
  split; [vm_compute; reflexivity|].
  apply (rollback_undoes_migrate (app_migrator sqlite) (mkDb ["posts"; "users"] (Some ["001"; "002"])) "003" migrated
           (entry "003" "comments")); try (vm_compute; reflexivity).
  intros v' [<-|[<-|[]]]; reflexivity.
Defined.

(** Two instances: both read the empty ledger, the first applies a migration, the second
    is refused at its first. *)
Definition entries_of (d : Dialect) := entries (app_migrator d).

Lemma fleet_applies_once_witness :
  fleet_reaches (app_migrator sqlite) (mkFleet fresh []) 
    (mkFleet (mkDb ["users"] (Some ["001"])) [Running [entry "002" "posts"; entry "003" "comments"]]) /\
  exists applied rest, pending_of (app_migrator sqlite) fresh = (applied ++ rest)%list /\
    Applied (world fresh) applied ["users"] /\ ["001"] = (ledger fresh ++ map version applied)%list /\
    (In (Running []) [Running [entry "002" "posts"; entry "003" "comments"]] -> rest = []).
Proof.
  assert (R : fleet_reaches (app_migrator sqlite) (mkFleet fresh []) 
    (mkFleet (mkDb ["users"] (Some ["001"])) [Running [entry "002" "posts"; entry "003" "comments"]])).
  { eapply fleet_next; [eapply fleet_next; [eapply fleet_next; [eapply fleet_next; [eapply fleet_next; [eapply fleet_next; [apply fleet_refl|]|]|]|]|]|].
    - eapply step_boot. reflexivity.
    - eapply step_boot. reflexivity.
    - eapply (step_read _ _ _ [] [] [Booting]). reflexivity.
    - eapply (step_read _ _ _ [] [_] []). reflexivity.
    - eapply (step_apply _ _ _ _ _ []). vm_compute. reflexivity.
    - eapply (step_throw _ _ _ _ _ _ [_] []). vm_compute. reflexivity. }
  split; [exact R|].
  apply (fleet_applies_once (app_migrator sqlite) fresh _ ltac:(vm_compute; repeat constructor; simpl; intuition discriminate) R).
Defined.
