(* ===== verification/Base64.v ===== *)
(** * Base64

    The platform's [btoa] and [atob] on byte strings, and the URL-safe form without
    padding the packages put in tokens ([packages/pubsub/src/channel-token.ts]). *)
From S2P Require Import Prelude JsString.
#[local] Open Scope string_scope.

(** A byte: an integer from 0 to 255. *)
Definition is_byte (b : Z) : Prop := (0 <= b < 256)%Z.

Definition alphabet : list ascii :=
  list_ascii_of_string "ABCDEFGHIJKLMNOPQRSTUVWXYZabcdefghijklmnopqrstuvwxyz0123456789+/".

Definition digit (i : Z) : ascii := nth (Z.to_nat i) alphabet "A"%char.

(** The value of a character of the alphabet. *)
Definition digit_value (c : ascii) : option Z :=
  let n := Z.of_nat (nat_of_ascii c) in
  (if (65 <=? n) && (n <=? 90) then Some (n - 65)
   else if (97 <=? n) && (n <=? 122) then Some (n - 71)
   else if (48 <=? n) && (n <=? 57) then Some (n + 4)
   else if n =? 43 then Some 62
   else if n =? 47 then Some 63
   else None)%Z.

(** [btoa]: three bytes to four characters, the last group padded. *)
Fixpoint btoa (bytes : list Z) : string :=
  match bytes with
  | [] => EmptyString
  | [a] => String (digit (a / 4)) (String (digit (a mod 4 * 16)) "==")
  | [a; b] => String (digit (a / 4)) (String (digit (a mod 4 * 16 + b / 16)) (String (digit (b mod 16 * 4)) "="))
  | a :: b :: c :: rest =>
      String (digit (a / 4)) (String (digit (a mod 4 * 16 + b / 16))
        (String (digit (b mod 16 * 4 + c / 64)) (String (digit (c mod 64)) (btoa rest))))
  end.

(** The bytes of the characters of the alphabet, leftover bits dropped. *)
Fixpoint decode_digits (s : string) : option (list Z) :=
  match s with
  | EmptyString => Some []
  | String c1 s1 =>
      match digit_value c1, s1 with
      | Some x1, String c2 s2 =>
          match digit_value c2 with
          | Some x2 =>
              let a := (x1 * 4 + x2 / 16)%Z in
              match s2 with
              | EmptyString => Some [a]
              | String c3 s3 =>
                  match digit_value c3 with
                  | Some x3 =>
                      let b := (x2 mod 16 * 16 + x3 / 4)%Z in
                      match s3 with
                      | EmptyString => Some [a; b]
                      | String c4 s4 =>
                          match digit_value c4, decode_digits s4 with
                          | Some x4, Some rest => Some (a :: b :: (x3 mod 4 * 64 + x4)%Z :: rest)
                          | _, _ => None
                          end
                      end
                  | None => None
                  end
              end
          | None => None
          end
      | _, _ => None
      end
  end.

(** ASCII whitespace, which [atob] skips. *)
Definition base64_space (c : ascii) : bool :=
  existsb (Nat.eqb (nat_of_ascii c)) [9; 10; 12; 13; 32]%nat.

Fixpoint strip_spaces (s : string) : string :=
  match s with
  | EmptyString => EmptyString
  | String c s' => if base64_space c then strip_spaces s' else String c (strip_spaces s')
  end.

(** Up to two [=] at the end, where the length is a multiple of four. *)
Definition strip_padding (s : string) : string :=
  let n := String.length s in
  if negb (Nat.eqb (n mod 4) 0) then s
  else if String.eqb (drop_chars (n - 2) s) "==" then substring 0 (n - 2) s
  else if String.eqb (drop_chars (n - 1) s) "=" then substring 0 (n - 1) s
  else s.

(** [atob], forgiving; [None] where it throws. *)
Definition atob (s : string) : option (list Z) :=
  let s' := strip_padding (strip_spaces s) in
  if Nat.eqb (String.length s' mod 4) 1 then None else decode_digits s'.

(** [s.replaceAll(c, by)] with a character for a character, and with nothing. *)
Fixpoint replace_char (c d : ascii) (s : string) : string :=
  match s with
  | EmptyString => EmptyString
  | String x s' => String (if Ascii.eqb x c then d else x) (replace_char c d s')
  end.

Fixpoint remove_char (c : ascii) (s : string) : string :=
  match s with
  | EmptyString => EmptyString
  | String x s' => if Ascii.eqb x c then remove_char c s' else String x (remove_char c s')
  end.

Definition base64urlEncode (bytes : list Z) : string :=
  remove_char "=" (replace_char "/" "_" (replace_char "+" "-" (btoa bytes))).

Definition base64urlDecode (value : string) : option (list Z) :=
  atob (replace_char "_" "/" (replace_char "-" "+" value)).

(** ** Round trip *)

Definition url_digit (i : Z) : ascii :=
  let c := digit i in if Ascii.eqb c "+" then "-"%char else if Ascii.eqb c "/" then "_"%char else c.

Definition url_char (c : ascii) : bool :=
  negb (Ascii.eqb c "=") && negb (Ascii.eqb c ".") && negb (base64_space c) &&
  negb (Ascii.eqb c "+") && negb (Ascii.eqb c "/").

(** What the 64 characters satisfy, checked one by one. *)
Definition digit_ok (i : Z) : bool :=
  match digit_value (digit i) with Some j => Z.eqb i j | None => false end &&
  negb (Ascii.eqb (digit i) "=") && negb (base64_space (digit i)) &&
  Ascii.eqb (if Ascii.eqb (if Ascii.eqb (url_digit i) "-" then "+" else url_digit i) "_" then "/"
             else if Ascii.eqb (url_digit i) "-" then "+" else url_digit i)%char (digit i) &&
  url_char (url_digit i).

Lemma digits_ok : forallb (fun n => digit_ok (Z.of_nat n)) (List.seq 0 64) = true.
Proof. vm_compute. reflexivity. Qed.

Lemma digit_spec i : (0 <= i < 64)%Z -> digit_ok i = true.
Proof.
  intros H. pose proof (proj1 (forallb_forall _ _) digits_ok (Z.to_nat i)) as F.
  cbv beta in F. rewrite Z2Nat.id in F by lia. apply F. apply in_seq. lia.
Qed.

(** The six-bit digits of a byte string. *)
Fixpoint digits (bytes : list Z) : list Z :=
  match bytes with
  | [] => []
  | [a] => [a / 4; a mod 4 * 16]
  | [a; b] => [a / 4; a mod 4 * 16 + b / 16; b mod 16 * 4]
  | a :: b :: c :: rest => a / 4 :: (a mod 4 * 16 + b / 16) :: (b mod 16 * 4 + c / 64) :: c mod 64 :: digits rest
  end%Z.

Fixpoint of_chars (l : list ascii) : string := match l with [] => EmptyString | c :: l' => String c (of_chars l') end.

(** Induction by groups of three bytes. *)
Lemma bytes_ind (P : list Z -> Prop) :
  P [] -> (forall a, P [a]) -> (forall a b, P [a; b]) -> (forall a b c l, P l -> P (a :: b :: c :: l)) -> forall l, P l.
Proof.
  intros H0 H1 H2 H3. fix IH 1. intros [|a [|b [|c l]]]; [exact H0|apply H1|apply H2|apply H3, IH].
Qed.

Lemma digits_range bytes : Forall is_byte bytes -> Forall (fun i => 0 <= i < 64)%Z (digits bytes).
Proof.
  unfold is_byte. induction bytes as [|a|a b|a b c l IH] using bytes_ind; intros H;
    repeat match goal with H : Forall _ (_ :: _) |- _ => apply Forall_cons in H as [? H] end;
    cbn [digits]; repeat (constructor; [Z.to_euclidean_division_equations; lia|]); auto using Forall_nil.
Qed.

(** The pipeline of an encoding, up to the padding. *)
Lemma encode_digits bytes :
  Forall is_byte bytes -> base64urlEncode bytes = of_chars (map url_digit (digits bytes)).
Proof.
  intros H. pose proof (digits_range bytes H) as R. clear H.
  assert (D : forall i s, (0 <= i < 64)%Z ->
    remove_char "=" (replace_char "/" "_" (replace_char "+" "-" (String (digit i) s))) =
    String (url_digit i) (remove_char "=" (replace_char "/" "_" (replace_char "+" "-" s)))).
  { intros i s Hi. pose proof (digit_spec i Hi) as O. unfold digit_ok, url_char in O. bools.
    cbn [replace_char remove_char]. unfold url_digit in *.
    destruct (Ascii.eqb (digit i) "+") eqn:E1; [done|]. destruct (Ascii.eqb (digit i) "/") eqn:E2; [done|].
    by match goal with H : Ascii.eqb (digit i) "=" = false |- _ => rewrite H end. }
  unfold base64urlEncode.
  induction bytes as [|a|a b|a b c l IH] using bytes_ind; cbn [digits btoa map of_chars] in *;
    repeat match goal with H : Forall _ (_ :: _) |- _ => apply Forall_cons in H as [? H] end;
    rewrite ?D by done; [done..|]. by rewrite IH.
Qed.

Lemma length_of_chars l : String.length (of_chars l) = length l.
Proof. induction l as [|c l IH]; simpl; [done|by rewrite IH]. Qed.

Lemma decode_pipeline l :
  Forall (fun i => 0 <= i < 64)%Z l ->
  strip_spaces (replace_char "_" "/" (replace_char "-" "+" (of_chars (map url_digit l)))) = of_chars (map digit l).
Proof.
  induction 1 as [|i l Hi _ IH]; [done|]. cbn [map of_chars replace_char strip_spaces].
  pose proof (digit_spec i Hi) as O. unfold digit_ok in O. bools.
  match goal with H : Ascii.eqb _ (digit i) = true |- _ => apply Ascii.eqb_eq in H; rewrite H end.
  match goal with H : base64_space (digit i) = false |- _ => rewrite H end. by rewrite IH.
Qed.

(** No padding in what the encoder wrote. *)
Lemma strip_padding_none l : Forall (fun i => 0 <= i < 64)%Z l -> strip_padding (of_chars (map digit l)) = of_chars (map digit l).
Proof.
  intros H. assert (N : has_char "=" (of_chars (map digit l)) = false).
  { induction H as [|i l Hi _ IH]; [done|]. cbn [map of_chars has_char]. rewrite IH.
    pose proof (digit_spec i Hi) as O. unfold digit_ok in O. bools.
    by match goal with H : Ascii.eqb (digit i) "=" = false |- _ => rewrite H end. }
  assert (S : forall n s, has_char "=" s = false -> has_char "=" (drop_chars n s) = false).
  { induction n as [|n IHn]; intros [|c s]; simpl; try done. intros [_ ?]%orb_false_iff. auto. }
  unfold strip_padding. destruct (negb _); [done|].
  destruct (String.eqb_spec (drop_chars (String.length (of_chars (map digit l)) - 2) (of_chars (map digit l))) "==") as [E|_].
  { specialize (S (String.length (of_chars (map digit l)) - 2)%nat _ N). by rewrite E in S. }
  destruct (String.eqb_spec (drop_chars (String.length (of_chars (map digit l)) - 1) (of_chars (map digit l))) "=") as [E|_]; [|done].
  specialize (S (String.length (of_chars (map digit l)) - 1)%nat _ N). by rewrite E in S.
Qed.

Lemma digit_value_digit i : (0 <= i < 64)%Z -> digit_value (digit i) = Some i.
Proof.
  intros H%digit_spec. unfold digit_ok in H. bools. destruct (digit_value (digit i)) as [j|]; [|done]. bools. by subst.
Qed.

Lemma decode_digits_spec bytes :
  Forall is_byte bytes -> decode_digits (of_chars (map digit (digits bytes))) = Some bytes.
Proof.
  intros H. pose proof (digits_range bytes H) as R. unfold is_byte in H. revert H R.
  induction bytes as [|a|a b|a b c l IH] using bytes_ind; cbn [digits map of_chars]; intros H R;
    repeat match goal with H : Forall _ (_ :: _) |- _ => apply Forall_cons in H as [? H] end;
    cbn [decode_digits]; rewrite ?digit_value_digit by done; [done|..].
  - do 2 f_equal. Z.to_euclidean_division_equations; lia.
  - do 2 f_equal; [Z.to_euclidean_division_equations; lia|f_equal; Z.to_euclidean_division_equations; lia].
  - rewrite IH by done. f_equal. f_equal; [Z.to_euclidean_division_equations; lia|].
    f_equal; [Z.to_euclidean_division_equations; lia|]. f_equal. Z.to_euclidean_division_equations; lia.
Qed.

Lemma digits_length bytes : Nat.eqb (length (digits bytes) mod 4) 1 = false.
Proof.
  induction bytes as [|a|a b|a b c l IH] using bytes_ind; [done..|]. cbn [digits length].
  replace (S (S (S (S (length (digits l)))))) with (length (digits l) + 1 * 4)%nat by lia.
  by rewrite Nat.Div0.mod_add.
Qed.

Lemma base64url_round_trip bytes : Forall is_byte bytes -> base64urlDecode (base64urlEncode bytes) = Some bytes.
Proof.
  intros H. pose proof (digits_range bytes H) as R. unfold base64urlDecode, atob.
  rewrite encode_digits, decode_pipeline, strip_padding_none by done.
  rewrite length_of_chars, length_map, digits_length. by apply decode_digits_spec.
Qed.

(** What the encoder writes holds no dot, and is empty for the empty string only. *)
Lemma base64url_no_dot bytes : Forall is_byte bytes -> has_char "." (base64urlEncode bytes) = false.
Proof.
  intros H. rewrite encode_digits by done. pose proof (digits_range bytes H) as R.
  induction R as [|i l Hi _ IH]; [done|]. cbn [map of_chars has_char]. rewrite IH.
  pose proof (digit_spec i Hi) as O. unfold digit_ok, url_char in O. bools.
  by match goal with H : Ascii.eqb (url_digit i) "." = false |- _ => rewrite H end.
Qed.

Lemma base64url_nonempty bytes : Forall is_byte bytes -> bytes <> [] -> base64urlEncode bytes <> EmptyString.
Proof. intros H N. rewrite encode_digits by done. by destruct bytes as [|a [|b [|c l]]]. Qed.

Example btoa_hello : btoa (map Z.of_nat [104; 101; 108; 108; 111]%nat) = "aGVsbG8=".
Proof. reflexivity. Qed.
