(* ===== verification/ChannelToken.v ===== *)
(** * Channel capability tokens

    [packages/pubsub/src/channel-token.ts]: minting and verifying a signed token for one
    channel and one mode. *)
From S2P Require Import Prelude JsString Base64.
#[local] Open Scope string_scope.

#[local] Set Warnings "-register-all".

Inductive ChannelMode := subscribe_mode | publish_mode.
#[export] Instance ChannelMode_dec : EqDecision ChannelMode.
Proof. solve_decision. Defined.

Definition mode_name (m : ChannelMode) : string :=
  match m with subscribe_mode => "subscribe" | publish_mode => "publish" end.

(** A value [JSON.parse] returns; a number literal too large for a double reads as an
    infinity. Numbers are integers: the one a grant holds counts milliseconds. *)
Inductive JsonValue :=
| JNull | JBool (b : bool) | JNumber (n : Z) | JInfinity | JString (s : string)
| JArray (l : list JsonValue) | JObject (fields : list (string * JsonValue)).

(** The platform: JSON, UTF-8 text and HMAC-SHA256. [json_parse] is [None] where
    [JSON.parse] throws; [hmac] is [None] where [importKey] rejects the secret. *)
Class Platform := {
  json_stringify : JsonValue -> string;
  json_parse : string -> option JsonValue;
  text_encode : string -> list Z;
  text_decode : list Z -> string;
  hmac : string -> string -> option (list Z)
}.

(** What it guarantees: a grant survives JSON, JSON texts survive UTF-8, bytes are bytes,
    a signature is not empty, and a secret is accepted for every message or for none. *)
Class PlatformLaws `{pf : !Platform} : Prop := {
  parse_stringify channel mode exp :
    let v := JObject [("channel", JString channel); ("mode", JString (mode_name mode)); ("exp", JNumber exp)] in
    json_parse (json_stringify v) = Some v;
  decode_encode_text v : text_decode (text_encode (json_stringify v)) = json_stringify v;
  stringify_nonempty v : text_encode (json_stringify v) <> [];
  encode_bytes s : Forall is_byte (text_encode s);
  hmac_bytes secret msg sig : hmac secret msg = Some sig -> Forall is_byte sig /\ sig <> []
}.

Record ChannelGrant := mkGrant { g_channel : string; g_mode : ChannelMode; g_exp : Z }.

Inductive ChannelTokenFailure := malformed | bad_signature | expired | wrong_channel | wrong_mode.

(** [{ ok: true, grant }] or [{ ok: false, reason }]. *)
Inductive ChannelTokenResult := Granted (grant : ChannelGrant) | Refused (reason : ChannelTokenFailure).

Section Tokens.
Context `{pf : !Platform}.

Definition grant_json (g : ChannelGrant) : JsonValue :=
  JObject [("channel", JString (g_channel g)); ("mode", JString (mode_name (g_mode g))); ("exp", JNumber (g_exp g))].

(** [None] where the signing rejects, for a secret that is no key. *)
Definition mintChannelToken (grant : ChannelGrant) (secret : string) : option string :=
  let payload := base64urlEncode (text_encode (json_stringify (grant_json grant))) in
  match hmac secret payload with
  | Some sig => Some (String.append payload (String.append "." (base64urlEncode sig)))
  | None => None
  end.

(** [record[k]] of an object; [None] for [undefined]. *)
Definition field (k : string) (fields : list (string * JsonValue)) : option JsonValue :=
  option_map snd (List.find (fun kv => String.eqb (fst kv) k) fields).

Definition decodeGrant (payloadPart : string) : option ChannelGrant :=
  match base64urlDecode payloadPart with
  | None => None
  | Some bytes =>
      match json_parse (text_decode bytes) with
      | Some (JObject fields) =>
          match field "channel" fields with
          | Some (JString channel) =>
              if String.eqb channel EmptyString then None
              else
                match field "mode" fields with
                | Some (JString mode) =>
                    match (if String.eqb mode "subscribe" then Some subscribe_mode
                           else if String.eqb mode "publish" then Some publish_mode else None) with
                    | Some mode =>
                        match field "exp" fields with
                        | Some (JNumber exp) => Some (mkGrant channel mode exp)
                        | _ => None
                        end
                    | None => None
                    end
                | _ => None
                end
          | _ => None
          end
      | _ => None
      end
  end.

(** [crypto.subtle.verify], false where the secret is no key. *)
Definition verifySignature (payload : string) (signature : list Z) (secret : string) : bool :=
  match hmac secret payload with Some sig => bool_decide (sig = signature) | None => false end.

(** The parts around the only dot, both non-empty. *)
Definition token_parts (token : string) : option (string * string) :=
  match cut "." token with
  | Some (payload, rest) =>
      if String.eqb payload EmptyString || has_char "." rest || String.eqb rest EmptyString then None
      else Some (payload, rest)
  | None => None
  end.

Definition verifyChannelToken (token : string) (channel : string) (mode : ChannelMode) (now : Z) (secret : string)
    : ChannelTokenResult :=
  match token_parts token with
  | None => Refused malformed
  | Some (payloadPart, signaturePart) =>
      match decodeGrant payloadPart with
      | None => Refused malformed
      | Some grant =>
          match base64urlDecode signaturePart with
          | None => Refused malformed
          | Some signature =>
              if negb (verifySignature payloadPart signature secret) then Refused bad_signature
              else if negb (String.eqb (g_channel grant) channel) then Refused wrong_channel
              else if negb (bool_decide (g_mode grant = mode)) then Refused wrong_mode
              else if g_exp grant <=? now then Refused expired
              else Granted grant
          end
      end
  end%Z.

(** ** Correctness *)

(** A token the verifier trusts: its signature part is the secret's of its payload. *)
Definition signed (token secret : string) (grant : ChannelGrant) : Prop :=
  exists payload sigPart sig, token_parts token = Some (payload, sigPart) /\ decodeGrant payload = Some grant /\
    base64urlDecode sigPart = Some sig /\ hmac secret payload = Some sig.

Lemma verifySignature_true payload signature secret :
  verifySignature payload signature secret = true <-> hmac secret payload = Some signature.
Proof.
  unfold verifySignature. destruct (hmac secret payload) as [sig|]; [|done].
  rewrite bool_decide_eq_true. split; [by intros ->|by intros [= ->]].
Qed.

(** Fact: A token is honoured exactly when it carries a signature, under the secret, of a
    payload that grants this channel and this mode, and has not expired; the reasons that
    depend on its claims (wrong channel, wrong mode, expired) are only ever given for a
    genuinely signed one. *)
Theorem verify_spec token channel mode now secret :
  match verifyChannelToken token channel mode now secret with
  | Granted grant =>
      signed token secret grant /\ g_channel grant = channel /\ g_mode grant = mode /\ (now < g_exp grant)%Z
  | Refused wrong_channel => exists grant, signed token secret grant /\ g_channel grant <> channel
  | Refused wrong_mode => exists grant, signed token secret grant /\ g_channel grant = channel /\ g_mode grant <> mode
  | Refused expired =>
      exists grant, signed token secret grant /\ g_channel grant = channel /\ g_mode grant = mode /\ (g_exp grant <= now)%Z
  | Refused _ => forall grant, ~ signed token secret grant
  end.
Proof.
  unfold verifyChannelToken, signed.
  destruct (token_parts token) as [[payload sigPart]|]; [|by intros g (? & ? & ? & ? & _)].
  destruct (decodeGrant payload) as [grant|] eqn:Eg; [|intros g (? & ? & ? & [= <- <-] & Hd & _); congruence].
  destruct (base64urlDecode sigPart) as [sig|] eqn:Es; [|intros g (? & ? & ? & [= <- <-] & _ & Hd & _); congruence].
  destruct (verifySignature payload sig secret) eqn:Ev; cbn [negb].
  2: { intros g (? & ? & sig' & [= <- <-] & _ & Hd & Hh). rewrite Es in Hd. injection Hd as <-.
       apply verifySignature_true in Hh. congruence. }
  apply verifySignature_true in Ev.
  destruct (String.eqb_spec (g_channel grant) channel) as [Ec|]; cbn [negb]; [|eauto 12].
  destruct (decide (g_mode grant = mode)) as [Em|Nm]; [rewrite (bool_decide_eq_true_2 _ Em)|rewrite (bool_decide_eq_false_2 _ Nm)];
    cbn [negb]; [|eauto 14].
  destruct (Z.leb_spec (g_exp grant) now); eauto 14 with lia.
Qed.

Context `{laws : !PlatformLaws}.

Lemma mint_parts payload sig :
  has_char "." payload = false -> payload <> EmptyString -> has_char "." sig = false -> sig <> EmptyString ->
  token_parts (String.append payload (String.append "." sig)) = Some (payload, sig).
Proof.
  intros Hp Np Hs Ns. unfold token_parts. change (String.append "." sig) with (String "." sig).
  rewrite cut_app by done. apply String.eqb_neq in Np, Ns. by rewrite Np, Hs, Ns.
Qed.

Lemma decode_minted grant :
  g_channel grant <> EmptyString ->
  decodeGrant (base64urlEncode (text_encode (json_stringify (grant_json grant)))) = Some grant.
Proof.
  intros Nc. unfold decodeGrant. rewrite base64url_round_trip by apply encode_bytes.
  rewrite decode_encode_text. unfold grant_json. rewrite parse_stringify. simpl.
  apply String.eqb_neq in Nc. rewrite Nc. destruct grant as [c [|] e]; reflexivity.
Qed.

(** Fact: What the issuer mints the edge honours: a token minted for a non-empty channel is
    granted for that channel and mode at every instant before its expiry, and for no other
    channel, no other mode and no later instant. *)
Theorem mint_then_verify grant secret token channel mode now :
  g_channel grant <> EmptyString -> mintChannelToken grant secret = Some token ->
  verifyChannelToken token channel mode now secret =
  if negb (String.eqb (g_channel grant) channel) then Refused wrong_channel
  else if negb (bool_decide (g_mode grant = mode)) then Refused wrong_mode
  else if (g_exp grant <=? now)%Z then Refused expired
  else Granted grant.
Proof.
  intros Nc. unfold mintChannelToken. set (payload := base64urlEncode _).
  destruct (hmac secret payload) as [sig|] eqn:Eh; [|done]. intros [= <-].
  destruct (hmac_bytes _ _ _ Eh) as [Hb Hn]. unfold verifyChannelToken.
  assert (MP : token_parts (String.append payload (String "." (base64urlEncode sig))) = Some (payload, base64urlEncode sig)).
  { apply mint_parts; [apply base64url_no_dot, encode_bytes|apply base64url_nonempty; [apply encode_bytes|apply stringify_nonempty]
      |by apply base64url_no_dot|by apply base64url_nonempty]. }
  rewrite MP.
  unfold payload at 1. rewrite decode_minted by done. rewrite base64url_round_trip by done.
  assert (E : verifySignature payload sig secret = true) by by apply verifySignature_true. by rewrite E.
Qed.
End Tokens.
