(* ===== verification/PubSub.v ===== *)
(** * Publish and subscribe

    [packages/pubsub/src]: the in-process hub ([pubsub.ts]), safe fan-out over sockets
    and the socket registry ([fanout.ts]), the eviction bounds of a replay ring
    ([replay.ts]). *)
From S2P Require Import Prelude JsString JsMap ChannelToken.
#[local] Open Scope string_scope.

(** ** Channels

    A [Map] from channel names to [Set]s, both in insertion order, as the hub and the
    registry hold one. *)
Section Channels.
Context {S : Type} `{EqDecision S}.

Abbreviation Channels := (@JsMap (list S)).

Definition has (x : S) (l : list S) : bool := existsb (fun y => bool_decide (x = y)) l.

(** [Set.add] and [Set.delete]. *)
Definition set_add (x : S) (l : list S) : list S := if has x l then l else (l ++ [x])%list.
Definition set_delete (x : S) (l : list S) : list S := List.filter (fun y => negb (bool_decide (x = y))) l.

(** [PubSub.subscribe]. *)
Definition subscribe (channel : string) (listener : S) (channels : Channels) : Channels :=
  map_set channel (set_add listener (default [] (map_get channel channels))) channels.

(** [PubSub.unsubscribe], and the function [subscribe] returns. *)
Definition unsubscribe (channel : string) (listener : S) (channels : Channels) : Channels :=
  match map_get channel channels with
  | None => channels
  | Some listeners =>
      match set_delete listener listeners with
      | [] => map_delete channel channels
      | listeners' => map_set channel listeners' channels
      end
  end.

Definition subscriberCount (channel : string) (channels : Channels) : nat :=
  match map_get channel channels with Some l => length l | None => 0 end.

(** [clear(channel)], and [clear()]. *)
Definition clear (channel : option string) (channels : Channels) : Channels :=
  match channel with None => [] | Some channel => map_delete channel channels end.

(** [FanoutRegistry]. *)
Definition add (channel : string) (socket : S) (channels : Channels) : Channels :=
  map_set channel (set_add socket (default [] (map_get channel channels))) channels.

Definition socketsFor (channel : string) (channels : Channels) : list S :=
  default [] (map_get channel channels).

Definition drop (channel : string) (socket : S) (channels : Channels) : Channels :=
  match map_get channel channels with
  | None => channels
  | Some sockets =>
      match set_delete socket sockets with
      | [] => map_delete channel channels
      | sockets' => map_set channel sockets' channels
      end
  end.
End Channels.

(** ** Publishing *)

Section Publish.
Context {Listener Message Error World : Type} `{EqDecision Listener}.

(** The process: the hub and all else. *)
Definition State : Type := (@JsMap (list Listener)) * World.

(** What happens from a listener's call until it settles: it may change anything, the hub
    included, and ends by returning or by throwing. *)
Variable call : Listener -> Message -> string -> State -> outcome Error unit * State.

Record PublishResult := mkResult { delivered : Z; failed : list Error }.

Fixpoint deliver (snapshot : list Listener) (message : Message) (channel : string) (r : PublishResult) (s : State)
    : PublishResult * State :=
  match snapshot with
  | [] => (r, s)
  | listener :: snapshot' =>
      match call listener message channel s with
      | (Ok _, s') => deliver snapshot' message channel (mkResult (delivered r + 1) (failed r)) s'
      | (Throw e, s') => deliver snapshot' message channel (mkResult (delivered r) (failed r ++ [e])%list) s'
      end
  end.

Definition publish (channel : string) (message : Message) (s : State) : PublishResult * State :=
  match map_get channel (fst s) with
  | None => (mkResult 0 [], s)
  | Some listeners => deliver listeners message channel (mkResult 0 []) s
  end.
End Publish.
Arguments PublishResult : clear implicits.

(** ** Fan-out over sockets *)

Section Fanout.
(** A socket: what reading [bufferedAmount] and calling [send] do at this moment; the
    amount may be [undefined], and either may throw. *)
Record FanoutSocket := mkSocket {
  s_id : Z; bufferedAmount : outcome unit (option Z); send : string -> outcome unit unit
}.

(** [maxBufferedBytes] of the options; [None] where it is omitted. *)
Definition FanoutOptions : Type := option Z.

Definition over (maxBufferedBytes buffered : option Z) : bool :=
  match maxBufferedBytes, buffered with Some max, Some b => max <? b | _, _ => false end%Z.

(** The result, and the frames handed to a socket's [send], in order. *)
Record FanoutResult := mkFanout { f_delivered : Z; f_failed : list FanoutSocket; f_sent : list (Z * string) }.

Fixpoint fanout_loop (sockets : list FanoutSocket) (encoded : string) (opts : FanoutOptions) (r : FanoutResult)
    : FanoutResult :=
  match sockets with
  | [] => r
  | socket :: sockets' =>
      fanout_loop sockets' encoded opts
        match bufferedAmount socket with
        | Throw _ => mkFanout (f_delivered r) (f_failed r ++ [socket])%list (f_sent r)
        | Ok buffered =>
            if over opts buffered then mkFanout (f_delivered r) (f_failed r ++ [socket])%list (f_sent r)
            else
              let sent := (f_sent r ++ [(s_id socket, encoded)])%list in
              match send socket encoded with
              | Ok _ => mkFanout (f_delivered r + 1) (f_failed r) sent
              | Throw _ => mkFanout (f_delivered r) (f_failed r ++ [socket])%list sent
              end
        end
  end.

Context `{pf : !Platform}.

Record FanoutFrame := mkFrame { fr_channel : string; fr_seq : Z; fr_data : JsonValue }.

Definition encodeFrame (frame : FanoutFrame) : string :=
  json_stringify (JObject [("type", JString "message"); ("channel", JString (fr_channel frame));
                           ("seq", JNumber (fr_seq frame)); ("data", fr_data frame)]).

Definition fanout (sockets : list FanoutSocket) (frame : FanoutFrame) (opts : FanoutOptions) : FanoutResult :=
  fanout_loop sockets (encodeFrame frame) opts (mkFanout 0 [] []).
End Fanout.

Record PublishRequest := mkRequest { rq_channel : string; rq_message : JsonValue }.

(** A body as [JSON.parse] returned it. *)
Definition parsePublishBody (raw : JsonValue) : option PublishRequest :=
  match raw with
  | JObject record =>
      match field "channel" record with
      | Some (JString channel) =>
          if Nat.eqb (String.length channel) 0 then None
          else match field "message" record with Some message => Some (mkRequest channel message) | None => None end
      | _ => None
      end
  | _ => None
  end.

(** ** The replay window *)

Record ReplayRetention := mkRetention { maxEntries : Z; maxAgeMs : Z }.
Record ReplayEvictionBounds := mkBounds { seqAtOrBelow : Z; agedOutBefore : Z }.

Definition replayEvictionBounds (latestSeq now : Z) (retention : ReplayRetention) : ReplayEvictionBounds :=
  mkBounds (latestSeq - maxEntries retention) (now - maxAgeMs retention).
