(* ===== verification/PubSubProps.v ===== *)
(** * Publish and subscribe: correctness

    The hub is a map from channels to ordered sets; a publication reaches exactly the
    listeners subscribed when it began; fan-out isolates failures; what the replay window
    keeps. *)
From S2P Require Import Prelude JsString JsMap Base64 ChannelToken PubSub.
#[local] Open Scope string_scope.

(** ** The hub as a map of ordered sets *)

Section Hub.
Context {S : Type} `{EqDecision S}.
Implicit Types (x : S) (l : list S) (h : @JsMap (list S)).

(** What a hub means: the listeners of every channel, in subscription order. *)
Definition members (h : @JsMap (list S)) (channel : string) : list S := default [] (map_get channel h).

(** No channel twice, no empty channel, no listener twice on one. *)
Definition hub_wf (h : @JsMap (list S)) : Prop :=
  List.NoDup (map fst h) /\ forall channel l, map_get channel h = Some l -> l <> [] /\ List.NoDup l.

Lemma has_In x l : has x l = true <-> In x l.
Proof.
  unfold has. rewrite existsb_exists. split.
  - intros (y & Hy & E). apply bool_decide_eq_true in E. by subst.
  - intros Hx. exists x. split; [done|by apply bool_decide_eq_true].
Qed.

Lemma set_add_NoDup x l : List.NoDup l -> List.NoDup (set_add x l).
Proof.
  intros Hd. unfold set_add. destruct (has x l) eqn:E; [done|].
  apply List.NoDup_app; [done|repeat constructor; auto|]. intros y Hy [<-|[]].
  apply has_In in Hy. congruence.
Qed.

Lemma set_add_nonempty x l : set_add x l <> [].
Proof. unfold set_add. destruct (has x l) eqn:E; [by intros ->|by destruct l]. Qed.

Lemma set_delete_NoDup x l : List.NoDup l -> List.NoDup (set_delete x l).
Proof. apply List.NoDup_filter. Qed.

Lemma members_subscribe channel x h c :
  members (subscribe channel x h) c = if String.eqb c channel then set_add x (members h channel) else members h c.
Proof. unfold members, subscribe. rewrite map_get_set. by destruct (String.eqb c channel). Qed.

Lemma members_unsubscribe channel x h c :
  members (unsubscribe channel x h) c = if String.eqb c channel then set_delete x (members h channel) else members h c.
Proof.
  unfold unsubscribe, members. destruct (map_get channel h) as [l|] eqn:E.
  - destruct (set_delete x l) as [|y l'] eqn:D; [rewrite map_get_delete|rewrite map_get_set];
      destruct (String.eqb_spec c channel) as [->|]; simpl; rewrite ?D; done.
  - destruct (String.eqb_spec c channel) as [->|]; [by rewrite E|done].
Qed.

Lemma members_clear channel h c :
  members (clear channel h) c =
  match channel with
  | None => []
  | Some channel => if String.eqb c channel then [] else members h c
  end.
Proof. destruct channel as [channel|]; [|done]. unfold members. simpl. rewrite map_get_delete. by destruct (String.eqb _ _). Qed.

Lemma subscribe_wf channel x h : hub_wf h -> hub_wf (subscribe channel x h).
Proof.
  intros [Hk Hl]. unfold subscribe. split; [by apply map_set_NoDup|]. intros c l.
  rewrite map_get_set. destruct (String.eqb c channel); [|apply Hl]. intros [= <-].
  split; [apply set_add_nonempty|]. apply set_add_NoDup.
  destruct (map_get channel h) as [l|] eqn:E; [by apply (Hl channel)|constructor].
Qed.

Lemma unsubscribe_wf channel x h : hub_wf h -> hub_wf (unsubscribe channel x h).
Proof.
  intros [Hk Hl]. unfold unsubscribe. destruct (map_get channel h) as [l0|] eqn:E; [|done].
  destruct (Hl _ _ E) as [_ Hd]. destruct (set_delete x l0) as [|y l'] eqn:D.
  - split; [by apply map_delete_NoDup|]. intros c l. rewrite map_get_delete. destruct (String.eqb c channel); [done|apply Hl].
  - split; [by apply map_set_NoDup|]. intros c l. rewrite map_get_set. destruct (String.eqb c channel); [|apply Hl].
    intros [= <-]. split; [done|]. rewrite <- D. by apply set_delete_NoDup.
Qed.

Lemma clear_wf channel h : hub_wf h -> hub_wf (clear channel h).
Proof.
  intros [Hk Hl]. destruct channel as [channel|]; [|split; [constructor|done]]. split; [by apply map_delete_NoDup|].
  intros c l. simpl. rewrite map_get_delete. destruct (String.eqb c channel); [done|apply Hl].
Qed.

Lemma map_set_set {V} k (e : V) m : map_set k e (map_set k e m) = map_set k e m.
Proof.
  assert (P : existsb (fun kv => String.eqb (fst kv) k) (map_set k e m) = true).
  { rewrite map_has. apply bool_decide_eq_true. rewrite map_get_set, String.eqb_refl. eauto. }
  unfold map_set at 1. rewrite P. rewrite <- (map_id (map_set k e m)) at 2. apply map_ext_in.
  intros [k' e'] Hin. simpl. destruct (String.eqb_spec k' k) as [->|]; [|done].
  unfold map_set in Hin. destruct (existsb (fun kv => String.eqb (fst kv) k) m) eqn:E.
  - apply in_map_iff in Hin as ([k0 e0] & Eq & _). simpl in Eq. destruct (String.eqb_spec k0 k); congruence.
  - apply in_app_iff in Hin as [Hin|[Eq|[]]]; [|congruence].
    pose proof (proj1 (existsb_false _ _) E _ Hin) as N. simpl in N. by rewrite String.eqb_refl in N.
Qed.

(** Fact: The hub refines a map from channels to ordered sets: subscribing adds a listener at
    the end of its channel (or leaves it where it is), unsubscribing removes exactly it, and
    clearing empties one channel or all, with every other channel untouched; a channel is in
    the table exactly when it has a listener, none is listed twice, and the count is the
    size of the set. *)
Theorem hub_refines_sets h channel x :
  hub_wf h ->
  (hub_wf (subscribe channel x h) /\ hub_wf (unsubscribe channel x h) /\ forall o, hub_wf (clear o h)) /\
  (forall c, members (subscribe channel x h) c = if String.eqb c channel then set_add x (members h channel) else members h c) /\
  (forall c, members (unsubscribe channel x h) c =
     if String.eqb c channel then set_delete x (members h channel) else members h c) /\
  (forall o c, members (clear o h) c = match o with None => [] | Some d => if String.eqb c d then [] else members h c end) /\
  (forall c, subscriberCount c h = length (members h c) /\ (map_get c h = None <-> members h c = [])) /\
  (~ In x (members h channel) -> forall c, members (unsubscribe channel x (subscribe channel x h)) c = members h c) /\
  unsubscribe channel x (unsubscribe channel x h) = unsubscribe channel x h.
Proof.
  intros W. split_and!; auto using subscribe_wf, unsubscribe_wf, members_subscribe, members_unsubscribe, members_clear.
  - intros o. by apply clear_wf.
  - intros c. unfold subscriberCount, members. destruct W as [_ Hl]. destruct (map_get c h) as [l|] eqn:E; [|done].
    split; [done|]. simpl. split; [done|]. intros ->. by destruct (Hl _ _ E).
  - intros N c. rewrite members_unsubscribe, !members_subscribe, String.eqb_refl.
    destruct (String.eqb_spec c channel) as [->|]; [|done]. unfold set_add.
    destruct (has x (members h channel)) eqn:E; [apply has_In in E; done|].
    unfold set_delete. rewrite List.filter_app. simpl. rewrite bool_decide_eq_true_2 by done. simpl. rewrite app_nil_r.
    apply forallb_filter_id. apply forallb_forall. intros y Hy. apply negb_true_iff, bool_decide_eq_false. by intros ->.
  - unfold unsubscribe. destruct (map_get channel h) as [l|] eqn:E; [|by rewrite E].
    destruct (set_delete x l) as [|y l'] eqn:D.
    + by rewrite map_get_delete, String.eqb_refl.
    + rewrite map_get_set, String.eqb_refl.
      assert (I : set_delete x (y :: l') = y :: l').
      { rewrite <- D. unfold set_delete. apply forallb_filter_id. apply forallb_forall.
        intros z [_ Hz]%filter_In. done. }
      rewrite I. apply map_set_set.
Qed.
End Hub.

(** ** Publishing *)

Section Publish.
Context {Listener Message Error World : Type} `{EqDecision Listener}.
Variable call : Listener -> Message -> string -> @State Listener World -> outcome Error unit * @State Listener World.

(** Listeners called one after the other, each settled before the next, with the outcome
    of each. *)
Inductive Settled (message : Message) (channel : string) :
    list Listener -> @State Listener World -> list (outcome Error unit) -> @State Listener World -> Prop :=
| settled_nil s : Settled message channel [] s [] s
| settled_cons l ls s o s1 os s2 :
    call l message channel s = (o, s1) -> Settled message channel ls s1 os s2 ->
    Settled message channel (l :: ls) s (o :: os) s2.

Definition oks (os : list (outcome Error unit)) : Z :=
  Z.of_nat (length (List.filter (fun o => match o with Ok _ => true | Throw _ => false end) os)).
Definition throws (os : list (outcome Error unit)) : list Error :=
  omap (fun o => match o with Ok _ => None | Throw e => Some e end) os.

Lemma deliver_settled ls message channel r s :
  exists os s', Settled message channel ls s os s' /\ length os = length ls /\
    deliver call ls message channel r s = (mkResult (delivered r + oks os) (failed r ++ throws os)%list, s').
Proof.
  revert r s. induction ls as [|l ls IH]; intros r s; simpl.
  { exists [], s. split; [constructor|]. split; [done|]. unfold oks. simpl. rewrite app_nil_r, Z.add_0_r. by destruct r. }
  destruct (call l message channel s) as [[[]|e] s1] eqn:Ec.
  - destruct (IH (mkResult (delivered r + 1) (failed r)) s1) as (os & s2 & Hs & Hl & E).
    exists (Ok tt :: os), s2. split; [by econstructor|]. split; [simpl; by rewrite Hl|]. rewrite E. f_equal. f_equal.
    unfold oks. simpl. lia.
  - destruct (IH (mkResult (delivered r) (failed r ++ [e])%list) s1) as (os & s2 & Hs & Hl & E).
    exists (Throw e :: os), s2. split; [by econstructor|]. split; [simpl; by rewrite Hl|]. rewrite E. simpl.
    by rewrite <- app_assoc.
Qed.

(** Fact: A publication hands the message to exactly the listeners subscribed when it began,
    in subscription order, each settled before the next, whatever they and others do to the
    hub meanwhile; a listener that throws stops nothing, and the result counts those that
    returned and lists the errors of those that threw, in order. *)
Theorem publish_delivers channel message s :
  exists os s', Settled message channel (members (fst s) channel) s os s' /\
    length os = length (members (fst s) channel) /\
    publish call channel message s = (mkResult (oks os) (throws os), s').
Proof.
  unfold publish, members. destruct (map_get channel (fst s)) as [ls|]; simpl.
  - destruct (deliver_settled ls message channel (mkResult 0 []) s) as (os & s' & Hs & Hl & E). eauto 6.
  - exists [], s. split; [constructor|]. done.
Qed.
End Publish.

(** ** Fan-out *)

(** A socket fan-out hands the frame to: its backlog is readable and within the bound. *)
Definition offered (opts : FanoutOptions) (socket : FanoutSocket) : bool :=
  match bufferedAmount socket with Ok buffered => negb (over opts buffered) | Throw _ => false end.

Definition reached (opts : FanoutOptions) (encoded : string) (socket : FanoutSocket) : bool :=
  offered opts socket && match send socket encoded with Ok _ => true | Throw _ => false end.

Lemma fanout_loop_spec sockets encoded opts r :
  fanout_loop sockets encoded opts r =
  mkFanout (f_delivered r + Z.of_nat (length (List.filter (reached opts encoded) sockets)))
    (f_failed r ++ List.filter (fun s => negb (reached opts encoded s)) sockets)%list
    (f_sent r ++ map (fun s => (s_id s, encoded)) (List.filter (offered opts) sockets))%list.
Proof.
  revert r. induction sockets as [|s sockets IH]; intros r; simpl.
  { rewrite !app_nil_r, Z.add_0_r. by destruct r. }
  rewrite IH. clear IH.
  assert (O : offered opts s = match bufferedAmount s with Ok b => negb (over opts b) | Throw _ => false end) by done.
  assert (R : reached opts encoded s = offered opts s && match send s encoded with Ok _ => true | Throw _ => false end) by done.
  rewrite R, O. destruct (bufferedAmount s) as [b|u]; [destruct (over opts b); [|destruct (send s encoded)]|];
    cbn [negb andb f_delivered f_failed f_sent List.filter map length]; rewrite <- ?app_assoc; f_equal; lia.
Qed.

(** Fact: Fan-out isolates failures: every socket whose backlog can be read and is within the
    bound is sent the one encoded frame, once, in order; those whose send returned are
    counted, and the others, slow, dead or throwing, are exactly the ones reported. *)
Theorem fanout_isolates `{pf : !Platform} sockets frame opts :
  let r := fanout sockets frame opts in
  let encoded := encodeFrame frame in
  f_sent r = map (fun s => (s_id s, encoded)) (List.filter (offered opts) sockets) /\
  f_delivered r = Z.of_nat (length (List.filter (reached opts encoded) sockets)) /\
  f_failed r = List.filter (fun s => negb (reached opts encoded s)) sockets /\
  f_delivered r + Z.of_nat (length (f_failed r)) = Z.of_nat (length sockets).
Proof.
  cbv zeta. unfold fanout. rewrite fanout_loop_spec. simpl. split_and!; [done..|].
  induction sockets as [|s sockets IH]; [done|]. simpl. destruct (reached opts (encodeFrame frame) s); simpl; lia.
Qed.

(** ** The replay window *)
#[local] Open Scope Z_scope.

(** A row of the ring, and the two deletes the bounds are for. *)
Record Row := mkRow { seq : Z; at_ : Z }.

Definition evict (b : ReplayEvictionBounds) (ring : list Row) : list Row :=
  List.filter (fun r => negb (at_ r <? agedOutBefore b)) (List.filter (fun r => negb (seq r <=? seqAtOrBelow b)) ring).

(** Fact: After the two deletes the ring holds exactly the rows among the newest [maxEntries]
    and no older than [maxAgeMs], at most [maxEntries] of them. *)
Theorem replay_window ring latestSeq now retention :
  0 <= maxEntries retention -> List.NoDup (map seq ring) -> Forall (fun r => seq r <= latestSeq) ring ->
  let kept := evict (replayEvictionBounds latestSeq now retention) ring in
  (forall r, In r kept <-> In r ring /\ latestSeq - seq r < maxEntries retention /\ now - at_ r <= maxAgeMs retention) /\
  Z.of_nat (length kept) <= maxEntries retention.
Proof.
  intros Hm Hd Hle kept.
  assert (HI : forall r, In r kept <-> In r ring /\ latestSeq - seq r < maxEntries retention /\ now - at_ r <= maxAgeMs retention).
  { intros r. unfold kept, evict, replayEvictionBounds. rewrite !filter_In, !negb_true_iff, Z.ltb_ge, Z.leb_gt. simpl. intuition lia. }
  split; [exact HI|].
  assert (Hk : List.NoDup (map seq kept)) by (unfold kept, evict; auto with lesto).
  rewrite List.Forall_forall in Hle.
  assert (Hin : forall z, In z (map seq kept) -> In z (map (fun n => latestSeq - Z.of_nat n) (List.seq 0 (Z.to_nat (maxEntries retention))))).
  { intros z (r & <- & Hr)%in_map_iff. apply HI in Hr as (Hr & H1 & _). specialize (Hle r Hr).
    apply in_map_iff. exists (Z.to_nat (latestSeq - seq r)). split; [lia|]. apply in_seq. lia. }
  pose proof (List.NoDup_incl_length Hk Hin) as L. rewrite !length_map, length_seq in L. lia.
Qed.

(** * Publish and subscribe: concrete runs

    A platform that satisfies the laws the tokens rely on, tokens minted and verified on
    it, a hub whose listeners unsubscribe and throw. *)
#[local] Open Scope string_scope.

(** ** A platform *)

(** A text of a grant: the sign and the unary digits of the expiry, the mode, the channel. *)
Fixpoint unary (n : nat) (s : string) : string := match n with O => s | S n' => String "x" (unary n' s) end.

Definition toy_stringify (v : JsonValue) : string :=
  match v with
  | JObject fields =>
      match field "channel" fields, field "mode" fields, field "exp" fields with
      | Some (JString c), Some (JString m), Some (JNumber e) =>
          String (if (e <? 0)%Z then "-" else "+")%char
            (unary (Z.to_nat (Z.abs e)) (String (if String.eqb m "publish" then "p" else "s")%char c))
      | _, _, _ => "?"
      end
  | _ => "?"
  end.

Fixpoint toy_count (n : Z) (s : string) : Z * string :=
  match s with
  | String c s' => if Ascii.eqb c "x" then toy_count (n + 1) s' else (n, s)
  | EmptyString => (n, EmptyString)
  end.

Definition toy_parse (s : string) : option JsonValue :=
  match s with
  | String sign s' =>
      match toy_count 0 s' with
      | (n, String m c) =>
          Some (JObject [("channel", JString c); ("mode", JString (if Ascii.eqb m "p" then "publish" else "subscribe"));
                         ("exp", JNumber (if Ascii.eqb sign "-" then - n else n))])
      | _ => None
      end
  | _ => None
  end%Z.

Definition bytes_of (s : string) : list Z := map (fun c => Z.of_nat (nat_of_ascii c)) (list_ascii_of_string s).
Definition text_of (l : list Z) : string := string_of_list_ascii (map (fun b => ascii_of_nat (Z.to_nat b)) l).

(** A checksum in the place of a MAC. *)
Definition checksum (s : string) : Z := fold_left (fun a b => (a * 31 + b) mod 251)%Z (bytes_of s) 7%Z.

#[export] Instance toy_platform : Platform := {|
  json_stringify := toy_stringify; json_parse := toy_parse; text_encode := bytes_of; text_decode := text_of;
  hmac secret msg := if String.eqb secret EmptyString then None
                     else Some [checksum (String.append secret msg); checksum (String.append msg secret)]
|}.

Lemma toy_count_unary k n m c :
  Ascii.eqb m "x" = false -> toy_count k (unary n (String m c)) = ((k + Z.of_nat n)%Z, String m c).
Proof.
  intros Hm. revert k. induction n as [|n IH]; intros k; cbn [unary toy_count].
  - rewrite Hm. f_equal. lia.
  - rewrite Ascii.eqb_refl, IH. f_equal. lia.
Qed.

Lemma checksum_byte s : is_byte (checksum s).
Proof.
  unfold checksum, is_byte. assert (H : forall l a, (0 <= a < 256)%Z -> (0 <= fold_left (fun a b => (a * 31 + b) mod 251) l a < 256)%Z).
  { induction l as [|b l IH]; intros a Ha; simpl; [done|]. apply IH. pose proof (Z.mod_pos_bound (a * 31 + b) 251). lia. }
  by apply H.
Qed.

#[export] Instance toy_laws : PlatformLaws.
Proof.
  split; cbn.
  - intros channel mode exp.
    rewrite toy_count_unary by (by destruct mode). destruct mode; simpl; do 4 f_equal; destruct (Z.ltb_spec exp 0); simpl;
      repeat f_equal; lia.
  - intros v. generalize (toy_stringify v) as s. intros s. unfold text_of, bytes_of. rewrite map_map. rewrite <- (string_of_list_ascii_of_string s) at 2. f_equal.
    rewrite <- (map_id (list_ascii_of_string s)) at 2. apply map_ext. intros c. rewrite Nat2Z.id. apply ascii_nat_embedding.
  - intros v. assert (N : exists c s, toy_stringify v = String c s); [|by destruct N as (c & s & ->)].
    destruct v as [| | | | | |f]; simpl; eauto. repeat (case_match; simpl; eauto).
  - intros s. unfold bytes_of, is_byte. apply Forall_map, List.Forall_forall. intros c _.
    pose proof (nat_ascii_bounded c). simpl. lia.
  - intros secret msg sig. destruct (String.eqb secret EmptyString); [done|]. intros [= <-].
    split; [|done]. repeat constructor; apply checksum_byte.
Qed.

(** ** Tokens *)

Definition grant : ChannelGrant := mkGrant "org:42" subscribe_mode 60.
Definition token : string := Eval vm_compute in default EmptyString (mintChannelToken grant "s3cret").

Lemma mint_then_verify_witness :
  verifyChannelToken token "org:42" subscribe_mode 59 "s3cret" = Granted grant /\
  verifyChannelToken token "org:42" subscribe_mode 60 "s3cret" = Refused expired /\
  verifyChannelToken token "org:42" subscribe_mode 59 "other" = Refused bad_signature /\
  verifyChannelToken token "org:42" publish_mode 59 "s3cret" =
    (if negb (String.eqb (g_channel grant) "org:42") then Refused wrong_channel
     else if negb (bool_decide (g_mode grant = publish_mode)) then Refused wrong_mode
     else if (g_exp grant <=? 59)%Z then Refused expired else Granted grant).
Proof.
  split; [vm_compute; reflexivity|]. split; [vm_compute; reflexivity|]. split; [vm_compute; reflexivity|].
  apply mint_then_verify; [discriminate|vm_compute; reflexivity].
Defined.

(** ** A hub *)

(** Listener 1 unsubscribes listener 2 and subscribes itself to another channel, listener 2
    throws, listener 3 returns. *)
Definition busy_call (l : Z) (message : string) (channel : string) (s : @State Z (list Z)) : outcome string unit * @State Z (list Z) :=
  let '(h, log) := s in
  if Z.eqb l 1 then (Ok tt, (subscribe "audit" 1%Z (unsubscribe channel 2%Z h), (log ++ [l])%list))
  else if Z.eqb l 2 then (Throw "boom", (h, (log ++ [l])%list))
  else (Ok tt, (h, (log ++ [l])%list)).

Definition hub : @JsMap (list Z) := Eval vm_compute in
  subscribe "orders" 3%Z (subscribe "orders" 2%Z (subscribe "orders" 1%Z [])).

Example publish_runs :
  publish busy_call "orders" "m" (hub, []) =
  (mkResult 2 ["boom"], ([("orders", [1; 3]%Z); ("audit", [1%Z])], [1; 2; 3]%Z)).
Proof. vm_compute. reflexivity. Qed.

Lemma hub_wf_subscribed : hub_wf hub.
Proof.
  change hub with (subscribe "orders" 3%Z (subscribe "orders" 2%Z (subscribe "orders" 1%Z []))).
  do 3 apply subscribe_wf. split; [constructor|done].
Qed.

Lemma hub_refines_sets_witness :
  members hub "orders" = [1; 2; 3]%Z /\
  (forall c, members (unsubscribe "orders" 2%Z hub) c = if String.eqb c "orders" then set_delete 2%Z (members hub "orders") else members hub c).
Proof. split; [vm_compute; reflexivity|]. apply (hub_refines_sets hub "orders" 2%Z hub_wf_subscribed). Defined.

(** ** A ring *)

Definition ring : list Row := [mkRow 1 100; mkRow 2 200; mkRow 3 900; mkRow 4 950; mkRow 5 990].

Lemma replay_window_witness :
  evict (replayEvictionBounds 5 1000 (mkRetention 3 60)) ring = [mkRow 4 950; mkRow 5 990] /\
  (Z.of_nat (length (evict (replayEvictionBounds 5 1000 (mkRetention 3 60)) ring)) <= 3)%Z.
Proof.
  split; [vm_compute; reflexivity|].
  apply (replay_window ring 5 1000 (mkRetention 3 60)); [discriminate| |].
  - vm_compute. repeat (constructor; [simpl; intuition discriminate|]). constructor.
  - unfold ring. repeat (constructor; [simpl; lia|]). constructor.
Defined.
