(* ===== verification/JsNumber.v ===== *)
(** * JavaScript numbers

    The [Number] type: IEEE doubles with their comparisons, [Object.is], the conversion
    of strings ([Number(s)]) and the shortest decimal text ([String(n)]).

    Every finite double is a whole number of units of 2^-1074, the smallest one, so a
    finite number is that integer: comparisons and equality are exact. Conversions round
    to 53 significant bits, ties to even, as the language does. *)
From S2P Require Import Prelude JsString.

#[local] Open Scope string_scope.
#[local] Open Scope Z_scope.

(** A number: [Units k] is k times 2^-1074, [Units 0] is +0. *)
Inductive number : Type :=
| NaN
| NegInf
| PosInf
| NegZero
| Units (k : Z).

#[export] Instance number_eq_dec : EqDecision number.
Proof. solve_decision. Defined.

(** The units in 1. *)
Definition one : Z := Z.shiftl 1 1074.

(** An integer of at most 53 bits. *)
Definition int (n : Z) : number := Units (n * one).

(** ** Comparisons *)

(** [Object.is]. *)
Definition same_value (a b : number) : bool := bool_decide (a = b).

(** [a < b]: false as soon as one of them is NaN; the zeros are equal. *)
Definition num_lt (a b : number) : bool :=
  match a, b with
  | NaN, _ | _, NaN => false
  | NegInf, NegInf => false
  | NegInf, _ => true
  | _, NegInf => false
  | PosInf, _ => false
  | _, PosInf => true
  | NegZero, NegZero => false
  | NegZero, Units k => 0 <? k
  | Units k, NegZero => k <? 0
  | Units k, Units l => k <? l
  end.

(** [a === b]. *)
Definition num_eq (a b : number) : bool :=
  match a, b with
  | NaN, _ | _, NaN => false
  | NegZero, Units k | Units k, NegZero => k =? 0
  | _, _ => same_value a b
  end.

Definition is_finite (a : number) : bool :=
  match a with NegZero | Units _ => true | _ => false end.

Definition num_neg (a : number) : number :=
  match a with
  | NaN => NaN
  | NegInf => PosInf
  | PosInf => NegInf
  | NegZero => Units 0
  | Units 0 => NegZero
  | Units k => Units (- k)
  end.

(** ** Rounding *)

(** The integer nearest to p/q, ties to even. *)
Definition round_half_even (p q : Z) : Z :=
  let f := p / q in
  let r := 2 * (p mod q) in
  if r <? q then f else if q <? r then f + 1 else if Z.even f then f else f + 1.

(** The double nearest to p/q (p not negative, q positive). *)
Definition round_pos (p q : Z) : number :=
  let P := p * one in
  let t := Z.max 0 (Z.log2 (P / q) - 52) in
  let u := Z.shiftl (round_half_even P (Z.shiftl q t)) t in
  if Z.shiftl one 1024 <=? u then PosInf else Units u.

(** ** [Number(s)] *)

Definition digit_of (c : ascii) : option Z :=
  let n := Z.of_nat (nat_of_ascii c) in
  if (48 <=? n) && (n <=? 57) then Some (n - 48)
  else if (97 <=? n) && (n <=? 122) then Some (n - 87)
  else if (65 <=? n) && (n <=? 90) then Some (n - 55)
  else None.

(** The longest run of digits of the base at the front: its value, how many, the rest. *)
Fixpoint take_digits (base acc : Z) (count : nat) (s : string) : Z * nat * string :=
  match s with
  | String c s' =>
      match digit_of c with
      | Some d => if d <? base then take_digits base (acc * base + d) (S count) s' else (acc, count, s)
      | None => (acc, count, s)
      end
  | EmptyString => (acc, count, s)
  end.

(** The exponent part: [e], an optional sign, digits to the end of the text. *)
Definition exponent_part (s : string) : option Z :=
  match s with
  | EmptyString => Some 0
  | String c s' =>
      if Ascii.eqb c "e" || Ascii.eqb c "E" then
        let '(sign, s'') :=
          match s' with
          | String "-" t => (-1, t)
          | String "+" t => (1, t)
          | _ => (1, s')
          end in
        match take_digits 10 0 0 s'' with
        | (e, S _, EmptyString) => Some (sign * e)
        | _ => None
        end
      else None
  end.

(** m times 10^e, rounded. *)
Definition scaled (m e : Z) : number :=
  if 0 <=? e then round_pos (m * 10 ^ e) 1 else round_pos m (10 ^ (- e)).

(** An unsigned decimal literal. *)
Definition unsigned_decimal (s : string) : number :=
  if String.eqb s "Infinity" then PosInf
  else
    let '(i, ni, rest) := take_digits 10 0 0 s in
    let '(m, n, rest') :=
      match rest with
      | String "." t => take_digits 10 i ni t
      | _ => (i, ni, rest)
      end in
    if Nat.eqb n 0 then NaN
    else match exponent_part rest' with
         | Some e => scaled m (e - Z.of_nat (n - ni))
         | None => NaN
         end.

(** A literal of base 2, 8 or 16: at least one digit, up to the end of the text. *)
Definition based_literal (base : Z) (s : string) : number :=
  match take_digits base 0 0 s with
  | (v, S _, EmptyString) => round_pos v 1
  | _ => NaN
  end.

Definition Number_of_string (text : string) : number :=
  let s := trim text in
  match s with
  | EmptyString => Units 0
  | String "-" t => num_neg (unsigned_decimal t)
  | String "+" t => unsigned_decimal t
  | String "0" (String "x" t) | String "0" (String "X" t) => based_literal 16 t
  | String "0" (String "o" t) | String "0" (String "O" t) => based_literal 8 t
  | String "0" (String "b" t) | String "0" (String "B" t) => based_literal 2 t
  | _ => unsigned_decimal s
  end.

(** ** [String(n)] *)

Definition digit_char (d : Z) : ascii := ascii_of_nat (Z.to_nat (d + if d <? 10 then 48 else 87)).

(** The digits of a natural number in a base, most significant first. *)
Fixpoint digits_from (fuel : nat) (base z : Z) (acc : string) : string :=
  match fuel with
  | O => acc
  | S fuel' =>
      let acc' := String (digit_char (z mod base)) acc in
      if z <? base then acc' else digits_from fuel' base (z / base) acc'
  end.
Definition digits_in (base z : Z) : string := digits_from (S (Z.to_nat (Z.log2 z))) base z EmptyString.
Definition decimal_of (z : Z) : string := digits_in 10 z.

Fixpoint zeros (n : nat) : string :=
  match n with O => EmptyString | S n' => String "0" (zeros n') end.

(** How many powers of ten the positive number u/one, below 1, is away from 1/10. *)
Fixpoint leading_zeros (fuel : nat) (u : Z) : Z :=
  match fuel with
  | O => 0
  | S fuel' => if one <=? u * 10 then 0 else 1 + leading_zeros fuel' (u * 10)
  end.

(** The exponent n of u/one = 0.ddd times 10^n. *)
Definition decimal_exponent (u : Z) : Z :=
  let i := u / one in
  if 0 <? i then Z.of_nat (String.length (decimal_of i)) else - leading_zeros 400 u.

(** s times 10^e as a double. *)
Definition denotes (s e u : Z) : bool := same_value (scaled s e) (Units u).

(** The least number of significant digits that denotes u, and those digits: the closest
    of the two candidates when both denote it. *)
Fixpoint shortest (fuel : nat) (k n u : Z) : Z * Z :=
  let e := n - k in
  let '(P, Q) := if 0 <=? e then (u, one * 10 ^ e) else (u * 10 ^ (- e), one) in
  let lo := P / Q in
  let near := if 2 * (P mod Q) <? Q then lo else if Q <? 2 * (P mod Q) then lo + 1
              else if Z.even lo then lo else lo + 1 in
  let far := if near =? lo then lo + 1 else lo in
  match fuel with
  | O => (near, k)
  | S fuel' =>
      if denotes near e u then (near, k)
      else if denotes far e u then (far, k)
      else shortest fuel' (k + 1) n u
  end.

(** Where the point of 0.digits times 10^n goes. *)
Definition place_point (digits : string) (k n : Z) : string :=
  if (k <=? n) && (n <=? 21) then digits ++ zeros (Z.to_nat (n - k))
  else if (0 <? n) && (n <=? 21) then
    substring 0 (Z.to_nat n) digits ++ "." ++ substring (Z.to_nat n) (Z.to_nat (k - n)) digits
  else if (-6 <? n) && (n <=? 0) then "0." ++ zeros (Z.to_nat (- n)) ++ digits
  else
    let e := n - 1 in
    let mantissa :=
      if k =? 1 then digits else substring 0 1 digits ++ "." ++ substring 1 (Z.to_nat (k - 1)) digits in
    mantissa ++ "e" ++ (if e <? 0 then "-" else "+") ++ decimal_of (Z.abs e).

Definition positive_to_string (u : Z) : string :=
  let n := decimal_exponent u in
  let '(s, k) := shortest 16 1 n u in
  if s =? 10 ^ k then place_point "1" 1 (n + 1) else place_point (decimal_of s) k n.

Definition number_to_string (a : number) : string :=
  match a with
  | NaN => "NaN"
  | NegInf => "-Infinity"
  | PosInf => "Infinity"
  | NegZero => "0"
  | Units k =>
      if k =? 0 then "0"
      else if k <? 0 then "-" ++ positive_to_string (- k)
      else positive_to_string k
  end.

(** ** Laws of the comparisons *)

Lemma same_value_refl a : same_value a a = true.
Proof. by apply bool_decide_eq_true_2. Qed.

Lemma same_value_eq a b : same_value a b = true <-> a = b.
Proof. apply bool_decide_eq_true. Qed.

Lemma num_lt_irrefl a : num_lt a a = false.
Proof. destruct a; simpl; [done..|apply Z.ltb_irrefl]. Qed.

Lemma num_lt_trans a b c : num_lt a b = true -> num_lt b c = true -> num_lt a c = true.
Proof.
  destruct a, b, c; simpl; try done; rewrite ?Z.ltb_lt; lia.
Qed.

Lemma num_lt_asym a b : num_lt a b = true -> num_lt b a = false.
Proof.
  intros H. destruct (num_lt b a) eqn:E; [|done].
  pose proof (num_lt_trans _ _ _ H E) as F. by rewrite num_lt_irrefl in F.
Qed.

(** Two numbers neither of which is NaN are ordered or equal up to the sign of zero. *)
Lemma num_trichotomy a b :
  a <> NaN -> b <> NaN -> num_lt a b = false -> num_lt b a = false -> num_eq a b = true.
Proof.
  destruct a, b; simpl; try done; rewrite ?Z.ltb_ge, ?Z.eqb_eq; try lia.
  intros _ _ H1 H2. apply same_value_eq. f_equal. lia.
Qed.

Lemma num_eq_trans_lt a b c : num_eq a b = true -> num_lt a c = num_lt b c /\ num_lt c a = num_lt c b.
Proof.
  destruct a, b; simpl; try done; rewrite ?Z.eqb_eq, ?same_value_eq; try (by intros ->; destruct c).
  intros [= ->]. by destruct c.
Qed.

(** * Arithmetic on JavaScript numbers

    The operators the packages apply to doubles that may be no integers: each result is the
    exact one, rounded to the nearest double. *)
#[local] Open Scope Z_scope.

(** [a - b], rounded. *)
Definition num_sub (a b : number) : number :=
  match a, b with
  | NaN, _ | _, NaN => NaN
  | PosInf, PosInf | NegInf, NegInf => NaN
  | PosInf, _ | _, NegInf => PosInf
  | NegInf, _ | _, PosInf => NegInf
  | NegZero, NegZero => Units 0
  | NegZero, Units 0 => NegZero
  | _, _ =>
      let units n := match n with Units k => k | _ => 0 end in
      let d := units a - units b in
      if d <? 0 then num_neg (round_pos (- d) one) else round_pos d one
  end.

Definition num_abs (a : number) : number :=
  match a with
  | NegZero => Units 0
  | NegInf => PosInf
  | Units k => Units (Z.abs k)
  | _ => a
  end.

(** [a + b]. *)
Definition num_add (a b : number) : number := num_sub a (num_neg b).

(** [a / b], rounded. *)
Definition num_div (a b : number) : number :=
  let sign x := match x with NegInf | NegZero => true | Units k => k <? 0 | _ => false end in
  let signed q := if xorb (sign a) (sign b) then num_neg q else q in
  match a, b with
  | NaN, _ | _, NaN => NaN
  | (PosInf | NegInf), (PosInf | NegInf) => NaN
  | (PosInf | NegInf), _ => signed PosInf
  | _, (PosInf | NegInf) => signed (Units 0)
  | _, _ =>
      let units x := match x with Units k => Z.abs k | _ => 0 end in
      if units b =? 0 then (if units a =? 0 then NaN else signed PosInf) else signed (round_pos (units a) (units b))
  end.

(** [Math.floor]. *)
Definition num_floor (a : number) : number := match a with Units k => Units (k / one * one) | _ => a end.

(** [a >= b]: false as soon as one of them is NaN. *)
Definition num_ge (a b : number) : bool := match a, b with NaN, _ | _, NaN => false | _, _ => negb (num_lt a b) end.

(** ** Digits *)

Lemma digit_of_char base d : 2 <= base <= 16 -> 0 <= d < base -> digit_of (digit_char d) = Some d.
Proof.
  intros Hb H. assert (List.In d [0; 1; 2; 3; 4; 5; 6; 7; 8; 9; 10; 11; 12; 13; 14; 15]) as Hd by (simpl; lia).
  clear H. repeat (destruct Hd as [<-|Hd]; [done|]). done.
Qed.

(** Writing some digits in front and reading them is a step of the reading. *)
Lemma digits_from_spec base fuel z acc :
  2 <= base <= 16 -> 0 <= z < base ^ Z.of_nat (S fuel) ->
  exists k, (forall a n, take_digits base a n (digits_from (S fuel) base z acc) = take_digits base (a * base ^ Z.of_nat (S k) + z) (n + S k) acc) /\
    (k = O \/ base ^ Z.of_nat k <= z).
Proof.
  intros Hb. revert z acc. induction fuel as [|fuel IH]; intros z acc Hz.
  - exists O. split; [|by left]. intros a n. change (Z.of_nat 1) with 1 in *. rewrite Z.pow_1_r in *.
    assert (z mod base = z) as Em by (apply Z.mod_small; lia). cbn [digits_from]. rewrite Em.
    replace (if z <? base then String (digit_char z) acc else String (digit_char z) acc) with (String (digit_char z) acc) by by destruct (z <? base).
    cbn [take_digits]. rewrite (digit_of_char base) by lia.
    replace (z <? base) with true by (symmetry; apply Z.ltb_lt; lia). by rewrite Nat.add_1_r.
  - remember (S fuel) as f. cbn [digits_from]. assert (0 <= z mod base < base) as Hd by (apply Z.mod_pos_bound; lia).
    assert (forall a n t, take_digits base a n (String (digit_char (z mod base)) t) = take_digits base (a * base + z mod base) (S n) t) as Ht.
    { intros a n t. cbn [take_digits]. rewrite (digit_of_char base) by lia. by replace (z mod base <? base) with true by (symmetry; apply Z.ltb_lt; lia). }
    destruct (Z.ltb_spec z base) as [Hs|Hs].
    + exists O. split; [|by left]. intros a n. rewrite Ht, Z.mod_small by lia. change (Z.of_nat 1) with 1. rewrite Z.pow_1_r. by rewrite Nat.add_1_r.
    + rewrite Nat2Z.inj_succ, Z.pow_succ_r in Hz by lia. subst f.
      destruct (IH (z / base) (String (digit_char (z mod base)) acc)) as (k & E & Hk).
      { split; [apply Z.div_pos; lia|apply Z.div_lt_upper_bound; lia]. }
      exists (S k). split.
      * intros a n. rewrite E, Ht. replace (n + S (S k))%nat with (S (n + S k)) by lia. f_equal.
        rewrite (Nat2Z.inj_succ (S k)), Z.pow_succ_r by lia. pose proof (Z.div_mod z base ltac:(lia)).
        set (p := base ^ Z.of_nat (S k)) in *. nia.
      * right. rewrite Nat2Z.inj_succ, Z.pow_succ_r by lia. destruct Hk as [->|Hk]; [change (Z.of_nat 0) with 0; rewrite Z.pow_0_r; lia|].
        pose proof (Z.mul_div_le z base ltac:(lia)). nia.
Qed.

Lemma digits_in_spec base z :
  2 <= base <= 16 -> 0 <= z ->
  exists k, take_digits base 0 0 (digits_in base z) = (z, S k, EmptyString) /\ (k = O \/ base ^ Z.of_nat k <= z).
Proof.
  intros Hb Hz. unfold digits_in. destruct (digits_from_spec base (Z.to_nat (Z.log2 z)) z EmptyString Hb) as (k & E & Hk).
  - split; [done|]. rewrite Nat2Z.inj_succ, Z2Nat.id by apply Z.log2_nonneg. destruct (Z.eq_dec z 0) as [->|].
    + apply Z.pow_pos_nonneg; [lia|]. pose proof (Z.log2_nonneg 0). lia.
    + destruct (Z.log2_spec z ltac:(lia)) as [_ L]. eapply Z.lt_le_trans; [exact L|]. apply Z.pow_le_mono_l. lia.
  - exists k. split; [|done]. rewrite E. cbn [take_digits]. by rewrite Z.mul_0_l, Z.add_0_l.
Qed.

(** What was read to the end was digits only. *)
Lemma take_digits_chars base a n s v m c :
  take_digits base a n s = (v, m, EmptyString) -> digit_of c = None -> has_char c s = false.
Proof.
  revert a n. induction s as [|d s IH]; intros a n E Hc; [done|]. cbn [take_digits has_char] in *.
  destruct (digit_of d) as [x|] eqn:D; [|done]. destruct (x <? base); [|done]. destruct (Ascii.eqb_spec d c) as [->|]; [congruence|].
  cbn [orb]. by eapply IH.
Qed.

Lemma decimal_has_no c z : digit_of c = None -> has_char c (decimal_of z) = false.
Proof.
  intros Hc. destruct (Z.lt_ge_cases z 0) as [L|G].
  - unfold decimal_of, digits_in. cbn [digits_from]. rewrite (proj2 (Z.ltb_lt z 10)) by lia. cbn [has_char]. rewrite orb_false_r. apply Ascii.eqb_neq. intros E.
    assert (0 <= z mod 10 < 10) as B by (by apply Z.mod_pos_bound). pose proof (digit_of_char 10 (z mod 10) ltac:(lia) B) as D. rewrite E in D. congruence.
  - destruct (digits_in_spec 10 z) as (k & E & _); [lia|lia|]. by eapply take_digits_chars.
Qed.

Lemma take_digits_count base a n s v m : take_digits base a n s = (v, m, EmptyString) -> m = (n + String.length s)%nat.
Proof.
  revert a n. induction s as [|c s IH]; intros a n; cbn [take_digits]; [intros [= _ <-]; simpl; lia|].
  destruct (digit_of c) as [d|]; [|done]. destruct (d <? base); [|done]. intros E%IH. simpl. lia.
Qed.

(** ** Integers and their texts *)

Lemma one_pos : 0 < one.
Proof. unfold one. rewrite Z.shiftl_mul_pow2 by lia. lia. Qed.

Lemma round_half_even_exact P q : 0 < q -> P mod q = 0 -> round_half_even P q = P / q.
Proof. intros Hq E. unfold round_half_even. rewrite E. by rewrite (proj2 (Z.ltb_lt _ _)) by lia. Qed.

(** Integers below 2^53 are doubles. *)
Lemma round_pos_int n : 0 <= n < 2 ^ 53 -> round_pos n 1 = int n.
Proof.
  intros Hn. unfold round_pos, int. rewrite Z.div_1_r. set (t := Z.max 0 (Z.log2 (n * one) - 52)).
  assert (0 <= t <= 1074) as Ht.
  { split; [lia|]. destruct (Z.eq_dec n 0) as [->|N]; [done|]. unfold t, one. rewrite Z.shiftl_mul_pow2 by lia. rewrite (Z.mul_1_l (2 ^ 1074)).
    rewrite Z.log2_mul_pow2 by lia. assert (Z.log2 n < 53); [|lia]. apply Z.log2_lt_pow2; lia. }
  rewrite (Z.shiftl_mul_pow2 1 t) by lia. rewrite (Z.mul_1_l (2 ^ t)).
  assert (one = 2 ^ (1074 - t) * 2 ^ t) as E by (unfold one; rewrite Z.shiftl_mul_pow2 by lia; rewrite (Z.mul_1_l (2 ^ 1074)); rewrite <- Z.pow_add_r by lia; f_equal; lia).
  assert (0 < 2 ^ t) as P2 by lia.
  rewrite round_half_even_exact; [|done|rewrite E, Z.mul_assoc; apply Z_mod_mult].
  rewrite (Z.shiftl_mul_pow2 (_ / _)) by lia.
  replace (n * one / 2 ^ t * 2 ^ t) with (n * one) by (rewrite E at 2; rewrite Z.mul_assoc, Z_div_mult by lia; rewrite E at 1; lia).
  rewrite (proj2 (Z.leb_gt _ _)); [done|]. rewrite Z.shiftl_mul_pow2 by lia. pose proof one_pos. nia.
Qed.

Definition safe_id (n : Z) : Prop := 0 <= n < 2 ^ 53.

Definition is_digit_char (c : ascii) : bool := match digit_of c with Some d => d <? 10 | None => false end.

Lemma take_digits_all a n s v m : take_digits 10 a n s = (v, m, EmptyString) -> all_chars is_digit_char s = true.
Proof.
  revert a n. induction s as [|c s IH]; intros a n E; [done|]. cbn [take_digits all_chars] in *. unfold is_digit_char at 1.
  destruct (digit_of c) as [d|]; [|done]. destruct (d <? 10); [|done]. by apply (IH _ _ E).
Qed.

Lemma digit_char_facts :
  forallb (fun n => let c := ascii_of_nat n in implb (is_digit_char c) (negb (is_space c) && negb (Ascii.eqb c "-") && negb (Ascii.eqb c "+") &&
     negb (Ascii.eqb c "I") && negb (existsb (Ascii.eqb c) ["x"; "X"; "o"; "O"; "b"; "B"]%char))) (List.seq 0 256) = true.
Proof. vm_compute. reflexivity. Qed.

Lemma digit_char_not c : is_digit_char c = true ->
  is_space c = false /\ c <> "-"%char /\ c <> "+"%char /\ c <> "I"%char /\ ~ In c ["x"; "X"; "o"; "O"; "b"; "B"]%char.
Proof.
  intros D. pose proof digit_char_facts as F. rewrite forallb_forall in F. specialize (F (nat_of_ascii c)).
  cbv beta zeta in F. rewrite ascii_nat_embedding, D in F. cbn [implb] in F. pose proof (nat_ascii_bounded c). specialize (F ltac:(apply in_seq; lia)).
  rewrite !andb_true_iff, !negb_true_iff in F. destruct F as ((((F1 & F2) & F3) & F4) & F5).
  split; [done|]. split; [by intros ->|]. split; [by intros ->|]. split; [by intros ->|]. intros I.
  rewrite (proj2 (existsb_exists _ _)) in F5; [done|]. exists c. split; [done|]. apply Ascii.eqb_refl.
Qed.

Lemma trim_digits s : all_chars is_digit_char s = true -> trim s = s.
Proof.
  intros A. destruct s as [|c s]; [done|]. assert (word (String c s) = true) as Hw.
  { cbn [word]. unfold no_space. apply (all_chars_impl is_digit_char); [|done]. intros d D. by destruct (digit_char_not d D) as (-> & _). }
  unfold trim. pose proof (trim_start_word (String c s) EmptyString Hw) as E1. pose proof (trim_end_app EmptyString (String c s) Hw) as E2.
  rewrite append_nil_r in E1. rewrite E1. exact E2.
Qed.

(** [Number(String(n))]. *)
Lemma Number_decimal n : safe_id n -> Number_of_string (decimal_of n) = int n.
Proof.
  intros Hn. unfold safe_id in Hn. destruct (digits_in_spec 10 n) as (k & E & _); [lia|lia|]. pose proof (take_digits_all _ _ _ _ _ E) as A.
  fold (decimal_of n) in E, A. unfold Number_of_string. rewrite (trim_digits _ A).
  assert (unsigned_decimal (decimal_of n) = int n) as U.
  { unfold unsigned_decimal. destruct (String.eqb_spec (decimal_of n) "Infinity") as [I|_].
    - rewrite I in A. exfalso. vm_compute in A. done.
    - rewrite E. cbn [Nat.eqb exponent_part]. rewrite Nat.sub_diag. change (0 - Z.of_nat 0) with 0. unfold scaled. cbn [Z.leb Z.compare].
      rewrite Z.mul_1_r. by apply round_pos_int. }
  revert U A. clear E. destruct (decimal_of n) as [|c s]; intros U A.
  - exfalso. by vm_compute in U.
  - cbn [all_chars] in A. apply andb_true_iff in A as [Dc A]. destruct (digit_char_not c Dc) as (_ & Nm & Np & _).
    assert (forall d t, s = String d t -> ~ In d ["x"; "X"; "o"; "O"; "b"; "B"]%char) as Nd.
    { intros d t ->. cbn [all_chars] in A. apply andb_true_iff in A as [Dd _]. by destruct (digit_char_not d Dd) as (_ & _ & _ & _ & ?). }
    destruct c as [[] [] [] [] [] [] [] []]; try exact U; try (exfalso; by apply Nm); try (exfalso; by apply Np).
    destruct s as [|d s]; [exact U|]. specialize (Nd d s eq_refl).
    destruct d as [[] [] [] [] [] [] [] []]; try exact U; exfalso; apply Nd; simpl; tauto.
Qed.
