(* ===== verification/JsJson.v ===== *)
(** * JSON texts

    The values of JSON, [JSON.stringify] and [JSON.parse] as the language defines them
    (strings hold code units below 256), and the round trip between the two. *)
From S2P Require Import Prelude Json JsString JsMap JsNumber.

#[local] Open Scope string_scope.
#[local] Open Scope Z_scope.
#[local] Set Warnings "-register-all".

Inductive json : Type :=
| JNull
| JBool (b : bool)
| JNum (n : number)
| JStr (s : string)
| JArr (items : list json)
| JObj (fields : list (string * json)).

(** ** [JSON.stringify] *)

Definition quote_mark : ascii := "034".
Definition backslash : ascii := "092".

(** The escape [JSON.stringify] writes for a character, if it writes one. *)
Definition escape_char (c : ascii) : string :=
  if Ascii.eqb c quote_mark then String backslash (String quote_mark EmptyString)
  else if Ascii.eqb c backslash then String backslash (String backslash EmptyString)
  else let n := Z.of_nat (nat_of_ascii c) in
  if n =? 8 then String backslash "b"
  else if n =? 9 then String backslash "t"
  else if n =? 10 then String backslash "n"
  else if n =? 12 then String backslash "f"
  else if n =? 13 then String backslash "r"
  else if n <? 32 then String backslash ("u00" ++ String (digit_char (n / 16)) (String (digit_char (n mod 16)) EmptyString))
  else String c EmptyString.

Fixpoint escape (s : string) : string :=
  match s with EmptyString => EmptyString | String c s' => escape_char c ++ escape s' end.

Definition quote (s : string) : string := String quote_mark (escape s ++ String quote_mark EmptyString).

Fixpoint stringify (v : json) : string :=
  match v with
  | JNull => "null"
  | JBool b => if b then "true" else "false"
  | JNum n => if is_finite n then number_to_string n else "null"
  | JStr s => quote s
  | JArr items => "[" ++ join "," (map stringify items) ++ "]"
  | JObj fields => "{" ++ join "," (map (fun kv => quote kv.1 ++ ":" ++ stringify kv.2) fields) ++ "}"
  end.

(** ** [JSON.parse] *)

Fixpoint skip_ws (s : string) : string :=
  match s with
  | String c s' =>
      let n := Z.of_nat (nat_of_ascii c) in
      if (n =? 32) || (n =? 9) || (n =? 10) || (n =? 13) then skip_ws s' else s
  | EmptyString => s
  end.

Definition hex_digit (c : ascii) : option Z :=
  match digit_of c with Some d => if d <? 16 then Some d else None | None => None end.

(** The character an escape letter stands for. *)
Definition unescape_letter (c : ascii) : option ascii :=
  if Ascii.eqb c quote_mark || Ascii.eqb c backslash || Ascii.eqb c "/" then Some c
  else if Ascii.eqb c "b" then Some "008"%char
  else if Ascii.eqb c "t" then Some "009"%char
  else if Ascii.eqb c "n" then Some "010"%char
  else if Ascii.eqb c "f" then Some "012"%char
  else if Ascii.eqb c "r" then Some "013"%char
  else None.

(** The rest of a string literal after its opening quote: its value and what follows. *)
Fixpoint parse_string (s : string) : option (string * string) :=
  match s with
  | EmptyString => None
  | String c s1 =>
      if Ascii.eqb c quote_mark then Some (EmptyString, s1)
      else if Ascii.eqb c backslash then
        match s1 with
        | String "u" (String h3 (String h2 (String h1 (String h0 s2)))) =>
            match hex_digit h3, hex_digit h2, hex_digit h1, hex_digit h0 with
            | Some 0, Some 0, Some a, Some b =>
                option_map (fun '(v, rest) => (String (ascii_of_nat (Z.to_nat (a * 16 + b))) v, rest))
                           (parse_string s2)
            | _, _, _, _ => None
            end
        | String e s2 =>
            match unescape_letter e with
            | Some c' => option_map (fun '(v, rest) => (String c' v, rest)) (parse_string s2)
            | None => None
            end
        | EmptyString => None
        end
      else if Z.of_nat (nat_of_ascii c) <? 32 then None
      else option_map (fun '(v, rest) => (String c v, rest)) (parse_string s1)
  end.

Definition is_digit (c : ascii) : bool :=
  let n := nat_of_ascii c in (48 <=? n)%nat && (n <=? 57)%nat.

Definition number_char (c : ascii) : bool :=
  is_digit c || Ascii.eqb c "-" || Ascii.eqb c "+" || Ascii.eqb c "." || Ascii.eqb c "e" || Ascii.eqb c "E".

Fixpoint span (p : ascii -> bool) (s : string) : string * string :=
  match s with
  | String c s' => if p c then let '(a, b) := span p s' in (String c a, b) else (EmptyString, s)
  | EmptyString => (EmptyString, EmptyString)
  end.

(** JSON's number grammar: no leading zero, a digit on both sides of a point. *)
Definition number_grammar (s : string) : bool :=
  let unsigned := match s with String "-" t => t | _ => s end in
  let '(i, rest) := span is_digit unsigned in
  match i with
  | EmptyString => false
  | String c i' =>
      (negb (Ascii.eqb c "0") || String.eqb i' EmptyString) &&
      match rest with
      | String "." t =>
          let '(f, rest') := span is_digit t in
          negb (String.eqb f EmptyString) && match exponent_part rest' with Some _ => true | None => false end
      | _ => match exponent_part rest with Some _ => true | None => false end
      end
  end.

Section Items.
Context {A : Type}.

(** The items of an array or object, after the opening bracket and up to the closing one. *)
Fixpoint items_loop (item : string -> option (A * string)) (close : ascii) (fuel : nat) (s : string)
  : option (list A * string) :=
  match fuel with
  | O => None
  | S fuel' =>
      match item s with
      | None => None
      | Some (x, rest) =>
          match skip_ws rest with
          | EmptyString => None
          | String c rest' =>
              if Ascii.eqb c "," then
                option_map (fun '(xs, tl) => (x :: xs, tl)) (items_loop item close fuel' rest')
              else if Ascii.eqb c close then Some ([x], rest') else None
          end
      end
  end.

Definition items (item : string -> option (A * string)) (close : ascii) (fuel : nat) (s : string)
  : option (list A * string) :=
  match skip_ws s with
  | String c rest => if Ascii.eqb c close then Some ([], rest) else items_loop item close fuel s
  | EmptyString => None
  end.
End Items.

Definition member (value : string -> option (json * string)) (s : string)
  : option ((string * json) * string) :=
  match skip_ws s with
  | String c s1 =>
      if Ascii.eqb c quote_mark then
        match parse_string s1 with
        | None => None
        | Some (k, s2) =>
            match skip_ws s2 with
            | String ":" s3 => option_map (fun '(v, rest) => ((k, v), rest)) (value s3)
            | _ => None
            end
        end
      else None
  | EmptyString => None
  end.

Definition literal (text : string) (v : json) (s : string) : option (json * string) :=
  if startsWith text s then Some (v, drop_chars (String.length text) s) else None.

Fixpoint parse_value (fuel : nat) (s : string) : option (json * string) :=
  match fuel with
  | O => None
  | S fuel' =>
      let s := skip_ws s in
      match s with
      | EmptyString => None
      | String c t =>
          if Ascii.eqb c quote_mark then option_map (fun '(v, rest) => (JStr v, rest)) (parse_string t)
          else if Ascii.eqb c "[" then
            option_map (fun '(l, rest) => (JArr l, rest)) (items (parse_value fuel') "]" fuel' t)
          else if Ascii.eqb c "{" then
            option_map (fun '(l, rest) => (JObj (fold_left (fun m kv => map_set kv.1 kv.2 m) l []), rest))
                       (items (member (parse_value fuel')) "}" fuel' t)
          else if Ascii.eqb c "n" then literal "null" JNull s
          else if Ascii.eqb c "t" then literal "true" (JBool true) s
          else if Ascii.eqb c "f" then literal "false" (JBool false) s
          else
            let '(text, rest) := span number_char s in
            if number_grammar text then Some (JNum (Number_of_string text), rest) else None
      end
  end.

(** [None] where [JSON.parse] throws a SyntaxError. *)
Definition parse (s : string) : option json :=
  match parse_value (S (String.length s)) s with
  | Some (v, rest) => match skip_ws rest with EmptyString => Some v | _ => None end
  | None => None
  end.

(** ** The round trip *)

(** A number whose text JSON reads back as that number: every finite double but -0 is
    meant to be one; this evaluates it. *)
Definition number_prints (n : number) : bool :=
  let text := number_to_string n in
  is_finite n && all_chars number_char text && number_grammar text && same_value (Number_of_string text) n.

(** The values that survive the wire: printable numbers, objects with distinct keys. *)
Fixpoint wire_safe (v : json) : bool :=
  match v with
  | JNum n => number_prints n
  | JArr items => forallb wire_safe items
  | JObj fields => bool_decide (NoDup (map fst fields)) && forallb (fun kv => wire_safe kv.2) fields
  | _ => true
  end.

Section Induction.
Variable P : json -> Prop.
Hypothesis Hnull : P JNull.
Hypothesis Hbool : forall b, P (JBool b).
Hypothesis Hnum : forall n, P (JNum n).
Hypothesis Hstr : forall s, P (JStr s).
Hypothesis Harr : forall l, List.Forall P l -> P (JArr l).
Hypothesis Hobj : forall l, List.Forall (fun kv => P kv.2) l -> P (JObj l).

Fixpoint json_nested_ind (v : json) : P v :=
  match v with
  | JNull => Hnull
  | JBool b => Hbool b
  | JNum n => Hnum n
  | JStr s => Hstr s
  | JArr l =>
      Harr l ((fix go (l : list json) : List.Forall P l :=
                 match l with
                 | [] => @List.Forall_nil _ _
                 | x :: l' => @List.Forall_cons _ _ _ _ (json_nested_ind x) (go l')
                 end) l)
  | JObj l =>
      Hobj l ((fix go (l : list (string * json)) : List.Forall (fun kv => P kv.2) l :=
                 match l with
                 | [] => @List.Forall_nil _ _
                 | x :: l' => @List.Forall_cons _ _ _ _ (json_nested_ind x.2) (go l')
                 end) l)
  end.
End Induction.

(** What may follow a value: nothing that would prolong a number. *)
Definition delimiter (rest : string) : Prop :=
  match rest with EmptyString => True | String c _ => number_char c = false end.

Lemma parse_escape_char c t :
  parse_string (escape_char c ++ t) = option_map (fun '(v, rest) => (String c v, rest)) (parse_string t).
Proof. destruct c as [[] [] [] [] [] [] [] []]; reflexivity. Qed.

Lemma parse_escape s rest : parse_string (escape s ++ String quote_mark rest) = Some (s, rest).
Proof.
  induction s as [|c s IH]; [done|]. cbn [escape]. rewrite append_assoc, parse_escape_char, IH. done.
Qed.

Lemma span_all p a rest :
  all_chars p a = true -> match rest with EmptyString => True | String c _ => p c = false end ->
  span p (a ++ rest) = (a, rest).
Proof.
  intros Ha Hr. induction a as [|c a IH]; simpl in *.
  - destruct rest as [|c rest]; [done|]. simpl. by rewrite Hr.
  - bools. rewrite H. by rewrite IH.
Qed.

Section Lists.
Context {A : Type} (print : A -> string) (item : string -> option (A * string)) (close : ascii).
Hypothesis close_plain : number_char close = false /\ close <> ","%char /\ skip_ws (String close EmptyString) <> EmptyString.

Lemma skip_close rest : skip_ws (String close rest) = String close rest.
Proof. destruct close_plain as (_ & _ & H). simpl in *. by destruct (_ || _ || _ || _). Qed.

Definition reads (x : A) : Prop := forall rest, delimiter rest -> item (print x ++ rest) = Some (x, rest).

Lemma items_loop_join x xs rest fuel :
  List.Forall reads (x :: xs) -> (length (x :: xs) <= fuel)%nat ->
  items_loop item close fuel (join "," (map print (x :: xs)) ++ String close rest) = Some (x :: xs, rest).
Proof.
  destruct close_plain as (Hn & Hc & _).
  revert x fuel. induction xs as [|y xs IH]; intros x fuel H Hf; (destruct fuel as [|fuel]; [simpl in Hf; lia|]).
  - cbn [map join items_loop]. inversion H as [|? ? Hx]; subst. rewrite Hx by done.
    rewrite skip_close. apply Ascii.eqb_neq in Hc. by rewrite Hc, Ascii.eqb_refl.
  - inversion H as [|? ? Hx Hl]; subst. specialize (IH y fuel Hl ltac:(simpl in *; lia)).
    change (join "," (map print (x :: y :: xs))) with (print x ++ "," ++ join "," (map print (y :: xs))).
    cbn [items_loop]. rewrite append_assoc, Hx by done.
    set (tail := (join "," (map print (y :: xs)) ++ String close rest)%string) in *.
    change (match skip_ws (String "," tail) with
            | EmptyString => None
            | String c rest' =>
                if Ascii.eqb c "," then option_map (fun '(zs, tl) => (x :: zs, tl)) (items_loop item close fuel rest')
                else if Ascii.eqb c close then Some ([x], rest') else None
            end = Some (x :: y :: xs, rest)).
    change (skip_ws (String "," tail)) with (String "," tail). cbv beta iota. by rewrite Ascii.eqb_refl, IH.
Qed.
End Lists.

Lemma items_join {A} (print : A -> string) item close xs rest fuel :
  number_char close = false /\ close <> ","%char /\ skip_ws (String close EmptyString) <> EmptyString ->
  List.Forall (reads print item) xs -> (length xs <= fuel)%nat ->
  (forall x t, List.In x xs -> exists c u, print x ++ t = String c u /\ skip_ws (String c u) = String c u /\ c <> close) ->
  items item close fuel (join "," (map print xs) ++ String close rest) = Some (xs, rest).
Proof.
  intros Hc H Hf Hstart. destruct xs as [|x xs].
  - cbn [map join String.append]. unfold items.
    rewrite (skip_close close Hc). cbv beta iota. by rewrite Ascii.eqb_refl.
  - pose proof (items_loop_join print item close Hc x xs rest fuel H Hf) as E. unfold items.
    assert (exists t, join "," (map print (x :: xs)) ++ String close rest = print x ++ t) as [t Et].
    { destruct xs as [|y xs]; [by exists (String close rest)|].
      exists (("," ++ join "," (map print (y :: xs))) ++ String close rest). by rewrite <- append_assoc. }
    rewrite Et in *. destruct (Hstart x t ltac:(by left)) as (c & u & Ec & Es & Hne). rewrite Ec in *.
    rewrite Es. apply Ascii.eqb_neq in Hne. by rewrite Hne.
Qed.

(** The first character of a value's text: never white space, never a closing bracket. *)
Definition value_start (c : ascii) : bool :=
  negb (Ascii.eqb c "]") && negb (Ascii.eqb c "}") && negb (Ascii.eqb c " ") && (32 <? Z.of_nat (nat_of_ascii c)).

Lemma skip_value_start c u : value_start c = true -> skip_ws (String c u) = String c u.
Proof.
  unfold value_start. intros H. bools. cbn [skip_ws].
  destruct (Z.eqb_spec (Z.of_nat (nat_of_ascii c)) 32); [lia|].
  destruct (Z.eqb_spec (Z.of_nat (nat_of_ascii c)) 9); [lia|].
  destruct (Z.eqb_spec (Z.of_nat (nat_of_ascii c)) 10); [lia|].
  destruct (Z.eqb_spec (Z.of_nat (nat_of_ascii c)) 13); [lia|]. done.
Qed.

Lemma number_char_start c :
  number_char c = true ->
  value_start c = true /\ Ascii.eqb c quote_mark = false /\ Ascii.eqb c "[" = false /\ Ascii.eqb c "{" = false /\
  Ascii.eqb c "n" = false /\ Ascii.eqb c "t" = false /\ Ascii.eqb c "f" = false.
Proof. destruct c as [[] [] [] [] [] [] [] []]; vm_compute; auto 10; discriminate. Qed.

Lemma stringify_start v :
  wire_safe v = true -> exists c u, stringify v = String c u /\ value_start c = true.
Proof.
  destruct v as [|[]|n|s|l|l]; cbn [stringify]; intros H; try (by eexists _, _).
  cbn [wire_safe] in H. unfold number_prints in H. bools. rewrite H.
  destruct (number_to_string n) as [|c u]; [done|]. simpl in H2. bools.
  exists c, u. split; [done|]. by apply number_char_start.
Qed.

Lemma join_length {A} (print : A -> string) xs x :
  List.In x xs -> (String.length (print x) <= String.length (join "," (map print xs)))%nat.
Proof.
  induction xs as [|y xs IH]; [done|]. intros [->|H].
  - destruct xs; [done|]. cbn [map join]. rewrite length_append. lia.
  - destruct xs as [|z xs]; [done|]. specialize (IH H).
    change (join "," (map print (y :: z :: xs))) with (print y ++ "," ++ join "," (map print (z :: xs))).
    rewrite !length_append. lia.
Qed.

Lemma join_count {A} (print : A -> string) xs :
  (length xs <= S (String.length (join "," (map print xs))))%nat.
Proof.
  induction xs as [|y [|z xs] IH]; [simpl; lia..|].
  change (join "," (map print (y :: z :: xs))) with (print y ++ "," ++ join "," (map print (z :: xs))).
  rewrite !length_append. simpl length in *. simpl String.length in *. lia.
Qed.

Lemma bracket_plain close :
  close = "]"%char \/ close = "}"%char ->
  number_char close = false /\ close <> ","%char /\ skip_ws (String close EmptyString) <> EmptyString.
Proof. by intros [-> | ->]. Qed.

Definition print_member (kv : string * json) : string := quote kv.1 ++ ":" ++ stringify kv.2.

Lemma member_reads fuel kv :
  reads stringify (parse_value fuel) kv.2 -> reads print_member (member (parse_value fuel)) kv.
Proof.
  intros H rest Hr. destruct kv as [k v]. unfold member.
  replace (print_member (k, v) ++ rest)
    with (String quote_mark (escape k ++ String quote_mark (String ":" (stringify v ++ rest)))).
  2:{ unfold print_member, quote. cbn [String.append fst snd]. f_equal. by rewrite !append_assoc. }
  change (skip_ws (String quote_mark ?t)) with (String quote_mark t). cbv beta iota.
  rewrite Ascii.eqb_refl, parse_escape. cbv beta iota.
  change (skip_ws (String ":" ?t)) with (String ":" t). cbv beta iota.
  by rewrite H.
Qed.

(** The parser after white space: the branch the first character selects. *)
Definition parse_branch (fuel : nat) (c : ascii) (t : string) : option (json * string) :=
  let s := String c t in
  if Ascii.eqb c quote_mark then option_map (fun '(v, rest) => (JStr v, rest)) (parse_string t)
  else if Ascii.eqb c "[" then
    option_map (fun '(l, rest) => (JArr l, rest)) (items (parse_value fuel) "]" fuel t)
  else if Ascii.eqb c "{" then
    option_map (fun '(l, rest) => (JObj (fold_left (fun m kv => map_set kv.1 kv.2 m) l []), rest))
               (items (member (parse_value fuel)) "}" fuel t)
  else if Ascii.eqb c "n" then literal "null" JNull s
  else if Ascii.eqb c "t" then literal "true" (JBool true) s
  else if Ascii.eqb c "f" then literal "false" (JBool false) s
  else
    let '(text, rest) := span number_char s in
    if number_grammar text then Some (JNum (Number_of_string text), rest) else None.

Lemma parse_value_start fuel c t :
  value_start c = true -> parse_value (S fuel) (String c t) = parse_branch fuel c t.
Proof. intros H. cbn [parse_value]. by rewrite skip_value_start. Qed.

Lemma parse_number fuel n rest :
  number_prints n = true -> delimiter rest ->
  parse_value (S fuel) (number_to_string n ++ rest) = Some (JNum n, rest).
Proof.
  unfold number_prints. intros H Hr. bools. apply same_value_eq in H0.
  destruct (number_to_string n) as [|c u] eqn:En; [done|].
  pose proof H2 as Hall. simpl in H2. bools. destruct (number_char_start c ltac:(done)) as (Hs & E1 & E2 & E3 & E4 & E5 & E6).
  change (String c u ++ rest) with (String c (u ++ rest)). rewrite parse_value_start by done.
  unfold parse_branch. rewrite E1, E2, E3, E4, E5, E6.
  change (String c (u ++ rest)) with (String c u ++ rest). rewrite span_all by done. by rewrite H1, H0.
Qed.

Lemma parse_literal fuel v rest :
  v = JNull \/ (exists b, v = JBool b) -> parse_value (S fuel) (stringify v ++ rest) = Some (v, rest).
Proof. by intros [-> | [[] ->]]. Qed.

Lemma parse_quoted fuel s rest : parse_value (S fuel) (quote s ++ rest) = Some (JStr s, rest).
Proof.
  change (quote s ++ rest) with (String quote_mark ((escape s ++ String quote_mark EmptyString) ++ rest)).
  rewrite parse_value_start by done. unfold parse_branch. rewrite Ascii.eqb_refl.
  rewrite append_assoc. change (String quote_mark EmptyString ++ rest) with (String quote_mark rest).
  by rewrite parse_escape.
Qed.

(** What [stringify] writes, the parser reads back, with fuel for the length of the text. *)
Definition value_reads (v : json) : Prop :=
  forall fuel, (String.length (stringify v) < fuel)%nat -> reads stringify (parse_value fuel) v.

Lemma parse_array l fuel rest :
  wire_safe (JArr l) = true -> List.Forall (fun v => wire_safe v = true -> value_reads v) l ->
  (String.length (stringify (JArr l)) < S fuel)%nat ->
  parse_value (S fuel) (stringify (JArr l) ++ rest) = Some (JArr l, rest).
Proof.
  cbn [stringify wire_safe]. intros Hw IH Hf. rewrite !length_append in Hf. cbn [String.length] in Hf.
  pose proof (proj1 (forallb_forall _ _) Hw) as Hall.
  replace (("[" ++ join "," (map stringify l) ++ "]") ++ rest)
    with (String "[" (join "," (map stringify l) ++ String "]" rest)) by (by rewrite !append_assoc).
  rewrite parse_value_start by done. unfold parse_branch. cbn [Ascii.eqb Bool.eqb quote_mark andb].
  rewrite items_join; [done|by apply bracket_plain; left| | |].
  - apply List.Forall_forall. intros v Hv. rewrite List.Forall_forall in IH. apply IH; auto.
    pose proof (join_length stringify l v Hv). lia.
  - pose proof (join_count stringify l). lia.
  - intros v t Hv. destruct (stringify_start v (Hall v Hv)) as (c & u & E & Hc).
    exists c, (u ++ t). rewrite E. split; [done|]. split; [by apply skip_value_start|].
    intros ->. done.
Qed.

Lemma parse_object l fuel rest :
  wire_safe (JObj l) = true -> List.Forall (fun kv => wire_safe kv.2 = true -> value_reads kv.2) l ->
  (String.length (stringify (JObj l)) < S fuel)%nat ->
  parse_value (S fuel) (stringify (JObj l) ++ rest) = Some (JObj l, rest).
Proof.
  cbn [stringify wire_safe]. fold print_member. intros Hw IH Hf. rewrite !length_append in Hf. cbn [String.length] in Hf.
  apply andb_true_iff in Hw as [Hnd Hw]. apply bool_decide_eq_true in Hnd.
  pose proof (proj1 (forallb_forall _ _) Hw) as Hall.
  replace (("{" ++ join "," (map print_member l) ++ "}") ++ rest)
    with (String "{" (join "," (map print_member l) ++ String "}" rest)) by (by rewrite !append_assoc).
  rewrite parse_value_start by done. unfold parse_branch. cbn [Ascii.eqb Bool.eqb quote_mark andb].
  rewrite items_join; [cbn [option_map]; by rewrite fold_set_fresh|by apply bracket_plain; right| | |].
  - apply List.Forall_forall. intros kv Hv. rewrite List.Forall_forall in IH. apply member_reads, IH; auto.
    pose proof (join_length print_member l kv Hv) as Hl. unfold print_member at 1 in Hl.
    rewrite !length_append in Hl. lia.
  - pose proof (join_count print_member l). lia.
  - intros kv t Hv. exists quote_mark, ((escape kv.1 ++ String quote_mark EmptyString) ++ (":" ++ stringify kv.2) ++ t).
    split; [|done]. unfold print_member, quote. cbn [String.append]. f_equal. by rewrite !append_assoc.
Qed.

Lemma parse_stringify_value v : wire_safe v = true -> value_reads v.
Proof.
  induction v as [| | | |l IH|l IH] using json_nested_ind; intros Hw [|fuel] Hf rest Hr; try lia.
  - apply parse_literal. by left.
  - apply parse_literal. right. by exists b.
  - cbn [stringify wire_safe] in *. replace (is_finite n) with true.
    + by apply parse_number.
    + unfold number_prints in Hw. by destruct (is_finite n).
  - apply parse_quoted.
  - by apply parse_array.
  - by apply parse_object.
Qed.

(** [JSON.parse] reads back every wire-safe value [JSON.stringify] writes. *)
Lemma parse_stringify v : wire_safe v = true -> parse (stringify v) = Some v.
Proof.
  intros H. unfold parse. pose proof (parse_stringify_value v H (S (String.length (stringify v))) ltac:(lia) EmptyString I) as E.
  rewrite append_nil_r in E. by rewrite E.
Qed.

(** The platform's codec. *)
#[export] Instance js_codec : JsonCodec json := {
  json_stringify := stringify; json_parse := parse; json_null := JNull; json_empty_object := JObj []
}.
