(* ===== verification/LiveShape.v ===== *)
(** * Live queries: shapes

    [packages/live-protocol/src/shape.ts]: the definition of a live query and its
    validation, the row filter, the order of rows, the row key, and the shape id. *)
From S2P Require Import Prelude JsString JsMap JsNumber JsJson.

#[local] Open Scope string_scope.
#[local] Open Scope Z_scope.

(** ** Rows *)

(** A cell of a row: a scalar, [undefined], or the [Date] the ORM hydrates a timestamp
    to (its time value in milliseconds). *)
Inductive cell : Type :=
| CUndefined
| CNull
| CBool (b : bool)
| CNum (n : number)
| CStr (s : string)
| CDate (ms : number).

#[export] Instance cell_eq_dec : EqDecision cell.
Proof. solve_decision. Defined.

(** A row: an object keyed by column name. *)
Definition Row : Type := JsMap cell.

(** [row[column]]. *)
Definition get_cell (row : Row) (column : string) : cell := default CUndefined (map_get column row).

(** [ToNumber]. *)
Definition to_number (c : cell) : number :=
  match c with
  | CUndefined => NaN
  | CNull => Units 0
  | CBool b => if b then int 1 else Units 0
  | CNum n | CDate n => n
  | CStr s => Number_of_string s
  end.

(** [a < b]: by code units when both are strings, numerically otherwise. *)
Definition js_lt (a b : cell) : bool :=
  match a, b with
  | CStr s, CStr t => match String.compare s t with Lt => true | _ => false end
  | _, _ => num_lt (to_number a) (to_number b)
  end.

(** [a === b] (two [Date]s are two objects). *)
Definition strict_eq (a b : cell) : bool :=
  match a, b with
  | CNum x, CNum y => num_eq x y
  | CDate _, CDate _ => false
  | _, _ => bool_decide (a = b)
  end.

(** [Object.is(a, b)]. *)
Definition object_is (a b : cell) : bool :=
  match a, b with
  | CDate _, CDate _ => false
  | _, _ => bool_decide (a = b)
  end.

(** [String(value)]; a [Date] has no place in a wire row. *)
Definition cell_string (c : cell) : string :=
  match c with
  | CUndefined => "undefined"
  | CNull => "null"
  | CBool b => if b then "true" else "false"
  | CNum n | CDate n => number_to_string n
  | CStr s => s
  end.

(** ** Shape definitions *)

Inductive FilterValue : Type :=
| FNull
| FBool (b : bool)
| FNum (n : number)
| FStr (s : string).

Inductive FilterOp : Type := OpEq | OpNe | OpGt | OpGte | OpLt | OpLte.

Inductive Direction : Type := Asc | Desc.

Record Filter : Type := mkFilter {
  f_column : string;
  f_op : FilterOp;
  f_value : FilterValue
}.

Record OrderBy : Type := mkOrderBy {
  o_column : string;
  o_direction : Direction
}.

Record ShapeDefinition : Type := mkShape {
  s_table : string;
  s_key : string;
  s_columns : list string;
  s_where : list Filter;
  s_orderBy : option OrderBy
}.

#[export] Instance FilterValue_eq_dec : EqDecision FilterValue.
Proof. solve_decision. Defined.
#[export] Instance FilterOp_eq_dec : EqDecision FilterOp.
Proof. solve_decision. Defined.
#[export] Instance Direction_eq_dec : EqDecision Direction.
Proof. solve_decision. Defined.
#[export] Instance Filter_eq_dec : EqDecision Filter.
Proof. solve_decision. Defined.
#[export] Instance OrderBy_eq_dec : EqDecision OrderBy.
Proof. solve_decision. Defined.
#[export] Instance ShapeDefinition_eq_dec : EqDecision ShapeDefinition.
Proof. solve_decision. Defined.

Inductive ShapeChange : Type :=
| SInsert (key : string) (row : Row)
| SUpdate (key : string) (row : Row)
| SDelete (key : string).

Inductive LiveProtocolError : Type :=
| LIVE_PROTOCOL_INVALID_SHAPE
| LIVE_PROTOCOL_MISSING_KEY
| LIVE_PROTOCOL_MALFORMED_FRAME.

#[export] Instance LiveProtocolError_eq_dec : EqDecision LiveProtocolError.
Proof. solve_decision. Defined.

(** ** Validation *)

(** The names of the operators and directions. *)
Definition op_name (op : FilterOp) : string :=
  match op with
  | OpEq => "eq" | OpNe => "ne" | OpGt => "gt" | OpGte => "gte" | OpLt => "lt" | OpLte => "lte"
  end.

Definition FILTER_OPS (s : string) : option FilterOp :=
  List.find (fun op => String.eqb (op_name op) s) [OpEq; OpNe; OpGt; OpGte; OpLt; OpLte].

Definition direction_name (d : Direction) : string := match d with Asc => "asc" | Desc => "desc" end.

Definition DIRECTIONS (s : string) : option Direction :=
  List.find (fun d => String.eqb (direction_name d) s) [Asc; Desc].

(** [raw[name]] of a parsed value: [None] is [undefined]. Arrays have none of the fields. *)
Definition field (raw : json) (name : string) : option json :=
  match raw with JObj fields => map_get name fields | _ => None end.

(** [typeof value === "object" && value !== null]. *)
Definition is_object (value : json) : bool :=
  match value with JArr _ | JObj _ => true | _ => false end.

Definition isFilterValue (value : option json) : option FilterValue :=
  match value with
  | Some JNull => Some FNull
  | Some (JStr s) => Some (FStr s)
  | Some (JBool b) => Some (FBool b)
  | Some (JNum n) => if is_finite n then Some (FNum n) else None
  | _ => None
  end.

Definition isName (value : option json) : option string :=
  match value with
  | Some (JStr (String _ _ as s)) => Some s
  | _ => None
  end.

Definition invalid {A} : outcome LiveProtocolError A := Throw LIVE_PROTOCOL_INVALID_SHAPE.

Definition ensure {A} (v : option A) : outcome LiveProtocolError A :=
  match v with Some a => Ok a | None => invalid end.

(** [Array.prototype.map] with a callback that may throw. *)
Fixpoint map_outcome {E A B} (f : A -> outcome E B) (l : list A) : outcome E (list B) :=
  match l with
  | [] => Ok []
  | x :: l' => let! y := f x in let! ys := map_outcome f l' in Ok (y :: ys)
  end.

Definition in_columns (columns : list string) (c : string) : bool := existsb (String.eqb c) columns.

Definition validateFilter (columns : list string) (entry : json) : outcome LiveProtocolError Filter :=
  if negb (is_object entry) then invalid else
  let! column := ensure (isName (field entry "column")) in
  if negb (in_columns columns column) then invalid else
  let! op := match field entry "op" with Some (JStr s) => ensure (FILTER_OPS s) | _ => invalid end in
  let! value := ensure (isFilterValue (field entry "value")) in
  Ok (mkFilter column op value).

Definition validateOrderBy (columns : list string) (value : option json)
  : outcome LiveProtocolError (option OrderBy) :=
  match value with
  | None | Some JNull => Ok None
  | Some raw =>
      if negb (is_object raw) then invalid else
      let! column := ensure (isName (field raw "column")) in
      if negb (in_columns columns column) then invalid else
      let! direction := match field raw "direction" with Some (JStr s) => ensure (DIRECTIONS s) | _ => invalid end in
      Ok (Some (mkOrderBy column direction))
  end.

Definition validateShapeDefinition (value : json) : outcome LiveProtocolError ShapeDefinition :=
  if negb (is_object value) then invalid else
  let! table := ensure (isName (field value "table")) in
  let! key := ensure (isName (field value "key")) in
  let! raw_columns := match field value "columns" with Some (JArr ((_ :: _) as l)) => Ok l | _ => invalid end in
  let! columns := map_outcome (fun c => ensure (isName (Some c))) raw_columns in
  if negb (in_columns columns key) then invalid else
  let! raw_where := match field value "where" with Some (JArr l) => Ok l | _ => invalid end in
  let! filters := map_outcome (validateFilter columns) raw_where in
  let! orderBy := validateOrderBy columns (field value "orderBy") in
  Ok (mkShape table key columns filters orderBy).

(** ** The wire form of a definition *)

Definition json_of_value (v : FilterValue) : json :=
  match v with FNull => JNull | FBool b => JBool b | FNum n => JNum n | FStr s => JStr s end.

Definition json_of_filter (f : Filter) : json :=
  JObj [("column", JStr (f_column f)); ("op", JStr (op_name (f_op f))); ("value", json_of_value (f_value f))].

Definition json_of_orderBy (o : OrderBy) : json :=
  JObj [("column", JStr (o_column o)); ("direction", JStr (direction_name (o_direction o)))].

(** The definition as a plain value; [JSON.stringify] leaves an [undefined] order out. *)
Definition json_of_shape (def : ShapeDefinition) : json :=
  JObj ([("table", JStr (s_table def)); ("key", JStr (s_key def));
         ("columns", JArr (map JStr (s_columns def)));
         ("where", JArr (map json_of_filter (s_where def)))] ++
        match s_orderBy def with Some o => [("orderBy", json_of_orderBy o)] | None => [] end)%list.

Definition serializeShapeDefinition (def : ShapeDefinition) : outcome LiveProtocolError string :=
  let! v := validateShapeDefinition (json_of_shape def) in Ok (stringify (json_of_shape v)).

Definition parseShapeDefinition (text : string) : outcome LiveProtocolError ShapeDefinition :=
  match parse text with
  | None => invalid
  | Some raw => validateShapeDefinition raw
  end.

(** ** The shape id *)

Definition canonical (def : ShapeDefinition) : string :=
  stringify (JArr [
    JStr (s_table def);
    JStr (s_key def);
    JArr (map JStr (s_columns def));
    JArr (map (fun f => JArr [JStr (f_column f); JStr (op_name (f_op f)); json_of_value (f_value f)]) (s_where def));
    match s_orderBy def with
    | Some o => JArr [JStr (o_column o); JStr (direction_name (o_direction o))]
    | None => JNull
    end]).

(** The hash, kept as the unsigned reading of the 32-bit integer: [Math.imul] keeps the
    low 32 bits of the product. *)
Fixpoint fnv1a32_loop (hash : Z) (text : string) : Z :=
  match text with
  | EmptyString => hash
  | String c text' =>
      fnv1a32_loop ((Z.lxor hash (Z.of_nat (nat_of_ascii c)) * 16777619) mod 4294967296) text'
  end.

(** [padStart(8, "0")]. *)
Definition pad_start (n : nat) (s : string) : string := zeros (n - String.length s) ++ s.

Definition fnv1a32 (text : string) : string := pad_start 8 (digits_in 16 (fnv1a32_loop 2166136261 text)).

Definition shapeId (def : ShapeDefinition) : string := s_table def ++ ":" ++ fnv1a32 (canonical def).

(** ** Keys, filters, order *)

Definition rowKey (row : Row) (keyColumn : string) : outcome LiveProtocolError string :=
  match get_cell row keyColumn with
  | CNull | CUndefined => Throw LIVE_PROTOCOL_MISSING_KEY
  | value => Ok (cell_string value)
  end.

Definition cell_of_value (v : FilterValue) : cell :=
  match v with FNull => CNull | FBool b => CBool b | FNum n => CNum n | FStr s => CStr s end.

(** The cell is not null and not undefined. *)
Definition is_set (c : cell) : bool :=
  match c with CNull | CUndefined => false | _ => true end.

(** [present]. *)
Definition present (c : cell) (value : FilterValue) : bool :=
  is_set c && is_set (cell_of_value value).

Definition ordered (c : cell) (value : FilterValue) : option Z :=
  if negb (present c value) then None
  else if js_lt c (cell_of_value value) then Some (-1)
  else if js_lt (cell_of_value value) c then Some 1
  else Some 0.

Definition matchesFilter (filter : Filter) (c : cell) : bool :=
  let value := f_value filter in
  let compared (test : Z -> bool) := match ordered c value with Some cmp => test cmp | None => false end in
  match f_op filter with
  | OpEq => present c value && object_is c (cell_of_value value)
  | OpNe => present c value && negb (object_is c (cell_of_value value))
  | OpGt => compared (fun cmp => 0 <? cmp)
  | OpGte => compared (fun cmp => 0 <=? cmp)
  | OpLt => compared (fun cmp => cmp <? 0)
  | OpLte => compared (fun cmp => cmp <=? 0)
  end.

Definition matchesShape (def : ShapeDefinition) (row : Row) : bool :=
  forallb (fun filter => matchesFilter filter (get_cell row (f_column filter))) (s_where def).

Definition compareCells (a b : cell) : Z :=
  if strict_eq a b then 0
  else if negb (is_set a) then -1
  else if negb (is_set b) then 1
  else if js_lt a b then -1
  else if js_lt b a then 1
  else 0.

Definition compareRows (def : ShapeDefinition) (a b : Row) : Z :=
  let by_key := compareCells (get_cell a (s_key def)) (get_cell b (s_key def)) in
  match s_orderBy def with
  | Some o =>
      let cmp := compareCells (get_cell a (o_column o)) (get_cell b (o_column o)) in
      let directed := match o_direction o with Desc => - cmp | Asc => cmp end in
      if negb (directed =? 0) then directed else by_key
  | None => by_key
  end.

(** [Array.prototype.toSorted]: stable, so an element goes before those it does not exceed. *)
Fixpoint sort_insert {A} (cmp : A -> A -> Z) (x : A) (l : list A) : list A :=
  match l with
  | [] => [x]
  | y :: l' => if cmp x y <=? 0 then x :: l else y :: sort_insert cmp x l'
  end.
Definition toSorted {A} (cmp : A -> A -> Z) (l : list A) : list A := foldr (sort_insert cmp) [] l.
