(* ===== verification/LiveShapeProps.v ===== *)
(** * Live queries: theorems about shapes

    What a validated definition is, the subscribe request read back, the filter against
    SQL's three-valued logic, and the order of a snapshot. *)
From S2P Require Import Prelude JsString JsMap JsNumber JsJson LiveShape.
From Stdlib Require Import Sorting.Permutation.

#[local] Open Scope string_scope.
#[local] Open Scope Z_scope.

(** ** Validation *)

Definition is_name (s : string) : Prop := s <> EmptyString.

(** A value a filter may bind. *)
Definition bindable (v : FilterValue) : Prop :=
  match v with FNum n => is_finite n = true | _ => True end.

(** The typing of shape definitions: names, and every column the client needs projected. *)
Record shape_ok (def : ShapeDefinition) : Prop := {
  ok_table : is_name (s_table def);
  ok_key : is_name (s_key def);
  ok_columns : List.Forall is_name (s_columns def);
  ok_key_projected : List.In (s_key def) (s_columns def);
  ok_where : List.Forall (fun f => List.In (f_column f) (s_columns def) /\ bindable (f_value f)) (s_where def);
  ok_order : forall o, s_orderBy def = Some o -> List.In (o_column o) (s_columns def)
}.

(** Split a validation that succeeded into the checks it passed. *)
Ltac checks :=
  repeat match goal with
  | H : outcome_bind ?m _ = Ok _ |- _ => let E := fresh "E" in destruct m eqn:E; [cbn [outcome_bind] in H|discriminate H]
  | H : (if ?b then _ else _) = Ok _ |- _ => let E := fresh "E" in destruct b eqn:E; [discriminate H|]
  | H : invalid = Ok _ |- _ => discriminate H
  | H : Throw _ = Ok _ |- _ => discriminate H
  | H : Ok _ = Ok _ |- _ => injection H as H
  | H : ensure ?v = Ok _ |- _ => let E := fresh "E" in destruct v eqn:E; [cbn [ensure] in H|discriminate H]
  end.

Lemma map_outcome_Forall {E A B} (f : A -> outcome E B) (P : B -> Prop) l ys :
  (forall x y, f x = Ok y -> P y) -> map_outcome f l = Ok ys -> List.Forall P ys.
Proof.
  intros Hf. revert ys. induction l as [|x l IH]; intros ys H; cbn [map_outcome] in H; checks; subst; constructor; eauto.
Qed.

Lemma map_outcome_map {E A B} (f : A -> outcome E B) (g : B -> A) l :
  List.Forall (fun y => f (g y) = Ok y) l -> map_outcome f (map g l) = Ok l.
Proof. induction 1 as [|y l Hy _ IH]; [done|]. cbn [map map_outcome]. by rewrite Hy, IH. Qed.

Lemma isName_ok v s : isName v = Some s -> v = Some (JStr s) /\ is_name s.
Proof. destruct v as [[| | |[|c s']| |]|]; try done. by intros [= <-]. Qed.

Lemma isName_name s : is_name s -> isName (Some (JStr s)) = Some s.
Proof. by destruct s. Qed.

Lemma in_columns_In columns c : in_columns columns c = true <-> List.In c columns.
Proof.
  unfold in_columns. rewrite existsb_exists. split; [intros (x & H & ->%String.eqb_eq); done|].
  intros H. exists c. by rewrite String.eqb_refl.
Qed.

(** Turn the checks passed into the facts they establish. *)
Ltac facts :=
  bools;
  repeat match goal with
  | H : in_columns _ _ = true |- _ => apply in_columns_In in H
  | H : isName _ = Some _ |- _ => apply isName_ok in H as [? ?]
  end.

Lemma validateFilter_ok columns j f :
  validateFilter columns j = Ok f -> List.In (f_column f) columns /\ bindable (f_value f).
Proof.
  unfold validateFilter. intros H. checks. subst. facts. split; [done|].
  cbn [f_value] in *. destruct (field j "value") as [[|b|n|s|l|l]|]; cbn [isFilterValue] in *; simplify_eq; try done.
  destruct (is_finite n) eqn:En; simplify_eq. done.
Qed.

Lemma validateOrderBy_ok columns j o : validateOrderBy columns j = Ok (Some o) -> List.In (o_column o) columns.
Proof.
  unfold validateOrderBy. intros H. destruct j as [[| | | | |]|]; checks; simplify_eq; facts; done.
Qed.

Lemma validate_sound j def : validateShapeDefinition j = Ok def -> shape_ok def.
Proof.
  unfold validateShapeDefinition. intros H. checks. subst. facts.
  constructor; cbn [s_table s_key s_columns s_where s_orderBy]; try done.
  - match goal with H : map_outcome (fun c => ensure _) _ = Ok _ |- _ => eapply map_outcome_Forall; [|exact H] end.
    intros x y Hy. cbv beta in Hy. checks. subst. by facts.
  - match goal with H : map_outcome (validateFilter _) _ = Ok _ |- _ => eapply map_outcome_Forall; [|exact H] end.
    intros x y Hy. by eapply validateFilter_ok.
  - intros o ->. by eapply validateOrderBy_ok.
Qed.

Lemma isFilterValue_ok v : bindable v -> isFilterValue (Some (json_of_value v)) = Some v.
Proof. destruct v; [done..| |done]. cbn. by intros ->. Qed.

Lemma FILTER_OPS_name op : FILTER_OPS (op_name op) = Some op.
Proof. by destruct op. Qed.

Lemma DIRECTIONS_name d : DIRECTIONS (direction_name d) = Some d.
Proof. by destruct d. Qed.

Lemma field_names columns c : List.Forall is_name columns -> List.In c columns -> isName (Some (JStr c)) = Some c.
Proof. intros H Hc. rewrite List.Forall_forall in H. apply isName_name. auto. Qed.

(** A well-formed definition validates to itself. *)
Lemma validate_complete def : shape_ok def -> validateShapeDefinition (json_of_shape def) = Ok def.
Proof.
  intros [Ht Hk Hc Hkey Hw Ho]. destruct def as [table key columns filters orderBy].
  cbn [s_table s_key s_columns s_where s_orderBy] in *. unfold validateShapeDefinition.
  cbn -[validateFilter isName in_columns map_outcome validateOrderBy].
  rewrite !isName_name by done. cbn [ensure outcome_bind].
  replace (match map JStr columns with _ :: _ => _ | [] => invalid end) with (Ok (E := LiveProtocolError) (map JStr columns))
    by (destruct columns; [by destruct Hkey|done]).
  cbn [outcome_bind]. rewrite map_outcome_map.
  2:{ eapply List.Forall_impl; [|exact Hc]. intros c Hn. by rewrite isName_name. }
  cbn [outcome_bind]. rewrite (proj2 (in_columns_In _ _) Hkey). cbn [negb outcome_bind].
  rewrite map_outcome_map.
  2:{ eapply List.Forall_impl; [|exact Hw]. intros [c op v] [Hin Hv]. cbn [f_column f_value] in *.
      unfold validateFilter. cbn -[isName in_columns isFilterValue FILTER_OPS op_name].
      rewrite (field_names columns c) by done. cbn [ensure outcome_bind].
      rewrite (proj2 (in_columns_In _ _) Hin). cbn [negb].
      by rewrite FILTER_OPS_name, isFilterValue_ok. }
  cbn [outcome_bind]. destruct orderBy as [[c d]|]; [|done].
  cbn -[isName in_columns DIRECTIONS direction_name]. specialize (Ho _ eq_refl). cbn [o_column] in Ho.
  rewrite (field_names columns c) by done. cbn [ensure outcome_bind].
  rewrite (proj2 (in_columns_In _ _) Ho). cbn [negb].
  by rewrite DIRECTIONS_name.
Qed.

(** Every refusal carries the one code. *)
Definition refuses {A} (m : outcome LiveProtocolError A) : Prop :=
  match m with Ok _ => True | Throw e => e = LIVE_PROTOCOL_INVALID_SHAPE end.

Lemma refuses_ensure {A} (v : option A) : refuses (ensure v).
Proof. by destruct v. Qed.

Lemma refuses_bind {A B} (m : outcome LiveProtocolError A) (k : A -> outcome LiveProtocolError B) :
  refuses m -> (forall a, refuses (k a)) -> refuses (outcome_bind m k).
Proof. by destruct m; simpl. Qed.

Lemma refuses_map {A B} (f : A -> outcome LiveProtocolError B) l :
  (forall x, refuses (f x)) -> refuses (map_outcome f l).
Proof. intros Hf. induction l as [|x l IH]; [done|]. cbn [map_outcome]. repeat (apply refuses_bind; [auto|intros ?]). done. Qed.

#[local] Hint Resolve refuses_ensure refuses_map : lesto.

(** Walk down a validation whose steps all refuse with the one code. *)
Ltac refusing :=
  repeat first
    [ apply refuses_ensure
    | apply refuses_map; intros ?
    | apply refuses_bind; [|intros ?]
    | match goal with
      | |- refuses (if ?b then _ else _) => destruct b
      | |- refuses (match ?v with _ => _ end) => destruct v
      end
    | exact I | reflexivity ].

Lemma validate_refuses j : refuses (validateShapeDefinition j).
Proof. unfold validateShapeDefinition, validateFilter, validateOrderBy. refusing. Qed.

(** Fact: validation is exactly the typing of shape definitions: whatever untrusted value it
    accepts, the definition it returns has non-empty names, projects its key, its filter
    columns and its order column, and binds only finite scalars; every such definition is
    accepted, unchanged; and a value it refuses gets the one error code. *)
Theorem validate_is_typing (value : json) :
  match validateShapeDefinition value with
  | Ok def => shape_ok def /\ validateShapeDefinition (json_of_shape def) = Ok def
  | Throw e => e = LIVE_PROTOCOL_INVALID_SHAPE /\ forall def, shape_ok def -> value <> json_of_shape def
  end.
Proof.
  pose proof (validate_refuses value) as R.
  destruct (validateShapeDefinition value) as [def|e] eqn:E.
  - pose proof (validate_sound _ _ E). split; [done|by apply validate_complete].
  - split; [exact R|]. intros def Hok ->. by rewrite validate_complete in E.
Qed.

(** ** The subscribe request *)

Definition printable (v : FilterValue) : bool :=
  match v with FNum n => number_prints n | _ => true end.

Lemma shape_wire_safe def :
  List.Forall (fun f => printable (f_value f) = true) (s_where def) -> wire_safe (json_of_shape def) = true.
Proof.
  intros H. assert (forallb wire_safe (map JStr (s_columns def)) = true) as Hc.
  { apply forallb_forall. by intros x (c & <- & _)%in_map_iff. }
  assert (forallb wire_safe (map json_of_filter (s_where def)) = true) as Hw.
  { apply forallb_forall. intros x (f & <- & Hf)%in_map_iff. rewrite List.Forall_forall in H.
    specialize (H f Hf). destruct f as [c op []]; try done. cbn in *. by rewrite H. }
  unfold json_of_shape. destruct (s_orderBy def) as [[c d]|];
    cbn -[forallb]; cbn [forallb wire_safe snd]; by rewrite Hc, Hw.
Qed.

(** Fact: the subscribe request round-trips: the text a client serializes a well-formed
    definition to is parsed and validated by the server back to that very definition. *)
Theorem shape_request_round_trip (def : ShapeDefinition) :
  shape_ok def -> List.Forall (fun f => printable (f_value f) = true) (s_where def) ->
  exists text, serializeShapeDefinition def = Ok text /\ parseShapeDefinition text = Ok def.
Proof.
  intros Hok Hp. exists (stringify (json_of_shape def)). unfold serializeShapeDefinition, parseShapeDefinition.
  rewrite validate_complete, parse_stringify by (done || by apply shape_wire_safe).
  split; [done|by apply validate_complete].
Qed.

Definition room_shape (room : string) : ShapeDefinition :=
  mkShape "messages" "id" ["id"; "room"] [mkFilter "room" OpEq (FStr room); mkFilter "id" OpGte (FNum (int 42))]
          (Some (mkOrderBy "id" Desc)).

Lemma room_shape_ok : shape_ok (room_shape "lobby").
Proof.
  constructor; cbn; [done|done|repeat constructor; done|tauto| |intros o [= <-]; cbn; tauto].
  apply List.Forall_cons; [|apply List.Forall_cons; [|done]]; (split; [cbn; tauto|done]).
Qed.

Lemma shape_request_round_trip_witness :
  exists text, serializeShapeDefinition (room_shape "lobby") = Ok text /\
               parseShapeDefinition text = Ok (room_shape "lobby").
Proof.
  apply shape_request_round_trip; [exact room_shape_ok|].
  repeat constructor; vm_compute; reflexivity.
Defined.
