(* ===== verification/LiveOrder.v ===== *)
(** * Live queries: the order of a shape

    [compareRows] is a total order on the rows of a shape whose columns are typed, so a
    snapshot's order depends on nothing but the set of rows; and the row filter is the
    [WHERE] clause a database would evaluate. *)
From S2P Require Import Prelude JsString JsMap JsNumber JsJson LiveShape.
From Stdlib Require Import OrdersEx.
From stdpp Require Import sorting.

#[local] Open Scope Z_scope.

(** ** Comparators *)

Section Comparators.
Context {A : Type}.
Implicit Types (cmp : A -> A -> Z) (P : A -> Prop).

(** A JavaScript comparator that orders the values of a domain totally. *)
Record orders P cmp : Prop := {
  cmp_antisym : forall a b, P a -> P b -> cmp b a = - cmp a b;
  cmp_trans : forall a b c, P a -> P b -> P c -> cmp a b <= 0 -> cmp b c <= 0 -> cmp a c <= 0
}.

Lemma orders_impl P Q cmp : (forall a, Q a -> P a) -> orders P cmp -> orders Q cmp.
Proof. intros H [Ha Ht]. split; [eauto|]. intros a b c ? ? ?. by apply Ht; auto. Qed.

Lemma orders_opp P cmp : orders P cmp -> orders P (fun a b => - cmp a b).
Proof.
  intros [Ha Ht]. split.
  - intros a b Pa Pb. rewrite (Ha a b) by done. lia.
  - intros a b c Pa Pb Pc H1 H2. pose proof (Ha a b Pa Pb). pose proof (Ha b c Pb Pc). pose proof (Ha a c Pa Pc).
    pose proof (Ht c b a Pc Pb Pa). lia.
Qed.

(** The second comparator breaks the ties of the first. *)
Definition then_by cmp cmp' (a b : A) : Z := if negb (cmp a b =? 0) then cmp a b else cmp' a b.

Lemma orders_then P cmp cmp' : orders P cmp -> orders P cmp' -> orders P (then_by cmp cmp').
Proof.
  intros [Ha Ht] [Ha' Ht']. unfold then_by. split.
  - intros a b Pa Pb. rewrite (Ha a b), (Ha' a b) by done. destruct (Z.eqb_spec (- cmp a b) 0), (Z.eqb_spec (cmp a b) 0); simpl; lia.
  - intros a b c Pa Pb Pc. pose proof (Ht a b c Pa Pb Pc). pose proof (Ht' a b c Pa Pb Pc).
    pose proof (Ha a b Pa Pb). pose proof (Ha b c Pb Pc). pose proof (Ha a c Pa Pc).
    pose proof (Ht b c a Pb Pc Pa). pose proof (Ht c a b Pc Pa Pb).
    destruct (Z.eqb_spec (cmp a b) 0), (Z.eqb_spec (cmp b c) 0), (Z.eqb_spec (cmp a c) 0); simpl; lia.
Qed.

(** ** [toSorted] *)

Lemma js_insert_perm cmp x l : sort_insert cmp x l ≡ₚ x :: l.
Proof. induction l as [|y l IH]; simpl; [done|]. destruct (_ <=? _); [done|]. rewrite IH. constructor. Qed.

Lemma toSorted_perm cmp l : toSorted cmp l ≡ₚ l.
Proof. induction l as [|x l IH]; simpl; [done|]. by rewrite js_insert_perm, IH. Qed.

Definition below cmp (a b : A) : Prop := cmp a b <= 0.

Lemma js_insert_sorted P cmp x l :
  orders P cmp -> P x -> List.Forall P l -> StronglySorted (below cmp) l -> StronglySorted (below cmp) (sort_insert cmp x l).
Proof.
  intros [Ha Ht] Hx Hl. induction l as [|y l IH]; simpl; [repeat constructor|].
  intros Hs. inversion Hs as [|? ? Hs' Hy]; subst. inversion Hl as [|? ? Py Pl]; subst.
  destruct (Z.leb_spec (cmp x y) 0) as [Hle|Hgt].
  - constructor; [done|]. constructor; [done|]. rewrite List.Forall_forall in *. intros z Hz.
    apply (Ht x y z); auto. by apply Hy.
  - constructor; [by apply IH|]. rewrite js_insert_perm. constructor; [|done].
    unfold below. rewrite (Ha x y) by done. lia.
Qed.

Lemma toSorted_sorted P cmp l :
  orders P cmp -> List.Forall P l -> StronglySorted (below cmp) (toSorted cmp l).
Proof.
  intros Ho. induction l as [|x l IH]; simpl; [constructor|]. intros Hl. inversion Hl; subst.
  eapply js_insert_sorted; [done|done| |auto]. by rewrite toSorted_perm.
Qed.

(** A total order that only ties an element with itself sorts a set one way. *)
Lemma toSorted_unique P cmp l l' :
  orders P cmp -> List.Forall P l -> (forall a b, a ∈ l -> b ∈ l -> cmp a b = 0 -> a = b) -> l ≡ₚ l' ->
  toSorted cmp l = toSorted cmp l'.
Proof.
  intros Ho Hl Hinj Hp.
  apply (StronglySorted_unique_strong (below cmp)).
  - intros a b. rewrite !toSorted_perm, <- Hp. intros Ia Ib H1 H2. apply Hinj; auto.
    rewrite List.Forall_forall in Hl. destruct Ho as [Ha _]. unfold below in *.
    rewrite (Ha a b) in H2 by (apply Hl; by apply list_elem_of_In). lia.
  - by eapply toSorted_sorted.
  - eapply toSorted_sorted; [done|]. by rewrite <- Hp.
  - by rewrite !toSorted_perm.
Qed.
End Comparators.

Lemma orders_map {A B} (Q : B -> Prop) (key : A -> B) c :
  orders Q c -> orders (fun a => Q (key a)) (fun a b => c (key a) (key b)).
Proof. intros [Ha Ht]. split; [auto|]. intros a b d Pa Pb Pd. by apply Ht. Qed.

(** ** Cells and rows *)

(** What a typed column holds: the values of one kind (never NaN), or null. *)
Inductive kind : Type := KBool | KNum | KStr.

Definition of_kind (k : kind) (c : cell) : Prop :=
  match k, c with
  | KBool, CBool _ | KStr, CStr _ => True
  | KNum, CNum n => n <> NaN
  | _, _ => False
  end.

Definition nullable_kind (k : kind) (c : cell) : Prop := c = CNull \/ of_kind k c.

Lemma of_kind_set k c : of_kind k c -> is_set c = true.
Proof. by destruct k, c. Qed.

(** How two values of one kind compare: [===], [<] or [>], exactly one of them. *)
Lemma kind_cases k a b :
  of_kind k a -> of_kind k b ->
  (strict_eq a b = true /\ js_lt a b = false /\ js_lt b a = false) \/
  (strict_eq a b = false /\ js_lt a b = true /\ js_lt b a = false) \/
  (strict_eq a b = false /\ js_lt a b = false /\ js_lt b a = true).
Proof.
  destruct k, a, b; try done; intros Ha Hb.
  - destruct b0, b; vm_compute; tauto.
  - unfold js_lt. cbn [strict_eq to_number of_kind] in *.
    destruct (num_lt n n0) eqn:E1, (num_lt n0 n) eqn:E2.
    + by rewrite (num_lt_asym _ _ E1) in E2.
    + right; left. split; [|done]. destruct (num_eq n n0) eqn:E; [|done].
      destruct (num_eq_trans_lt _ _ n0 E) as [H _]. rewrite num_lt_irrefl in H. congruence.
    + right; right. split; [|done]. destruct (num_eq n n0) eqn:E; [|done].
      destruct (num_eq_trans_lt _ _ n0 E) as [_ H]. rewrite num_lt_irrefl in H. congruence.
    + left. split; [|done]. by apply num_trichotomy.
  - cbn [strict_eq js_lt]. rewrite (String.compare_antisym s0 s). destruct (String.compare s s0) eqn:E; simpl.
    + left. apply String.compare_eq_iff in E as ->. by rewrite bool_decide_eq_true_2.
    + right; left. rewrite bool_decide_eq_false_2; [done|]. intros [= ->]. by rewrite compare_refl in E.
    + right; right. rewrite bool_decide_eq_false_2; [done|]. intros [= ->]. by rewrite compare_refl in E.
Qed.

Lemma kind_lt_trans k a b c :
  of_kind k a -> of_kind k b -> of_kind k c -> js_lt a b = true -> js_lt b c = true -> js_lt a c = true.
Proof.
  destruct k, a, b, c; try done; intros _ _ _; cbn [js_lt].
  - apply num_lt_trans.
  - apply num_lt_trans.
  - assert (String.compare s s0 = Lt -> String.compare s0 s1 = Lt -> String.compare s s1 = Lt) as T.
    { apply (StrictOrder_Transitive (R := String_as_OT.lt) s s0 s1). }
    destruct (String.compare s s0), (String.compare s0 s1); try done. by rewrite T.
Qed.

(** Values that are [===] compare alike with every other. *)
Lemma kind_eq_lt k a b c :
  of_kind k a -> of_kind k b -> of_kind k c -> strict_eq a b = true -> js_lt a c = js_lt b c /\ js_lt c a = js_lt c b.
Proof.
  destruct k, a, b, c; try done; intros _ _ _; cbn [js_lt strict_eq to_number]; intros E.
  - apply bool_decide_eq_true in E as [= ->]. done.
  - by apply num_eq_trans_lt.
  - apply bool_decide_eq_true in E as [= ->]. done.
Qed.

Lemma compareCells_null_l k b : of_kind k b -> compareCells CNull b = -1 /\ compareCells b CNull = 1.
Proof. by destruct k, b. Qed.

Lemma compareCells_kind k a b :
  of_kind k a -> of_kind k b ->
  compareCells a b = if strict_eq a b then 0 else if js_lt a b then -1 else if js_lt b a then 1 else 0.
Proof. intros Ha Hb. unfold compareCells. by rewrite (of_kind_set _ _ Ha), (of_kind_set _ _ Hb). Qed.

Lemma orders_kind k : orders (of_kind k) compareCells.
Proof.
  split.
  - intros a b Ha Hb. rewrite !(compareCells_kind k) by done.
    destruct (kind_cases k a b Ha Hb) as [(E & E1 & E2)|[(E & E1 & E2)|(E & E1 & E2)]];
    destruct (kind_cases k b a Hb Ha) as [(F & F1 & F2)|[(F & F1 & F2)|(F & F1 & F2)]];
    rewrite ?E, ?E1, ?E2, ?F, ?F1, ?F2; congruence || lia.
  - intros a b c Ha Hb Hc. rewrite !(compareCells_kind k) by done.
    destruct (kind_cases k a b Ha Hb) as [(E & E1 & E2)|[(E & E1 & E2)|(E & E1 & E2)]];
    destruct (kind_cases k b c Hb Hc) as [(F & F1 & F2)|[(F & F1 & F2)|(F & F1 & F2)]];
    rewrite ?E, ?E1, ?E2, ?F, ?F1, ?F2; try lia; intros _ _;
    destruct (kind_cases k a c Ha Hc) as [(G & G1 & G2)|[(G & G1 & G2)|(G & G1 & G2)]];
    rewrite ?G, ?G1, ?G2; try lia; exfalso.
    + pose proof (kind_eq_lt k a b c Ha Hb Hc E) as [X Y]. congruence.
    + pose proof (kind_eq_lt k a b c Ha Hb Hc E) as [X Y]. congruence.
    + pose proof (kind_eq_lt k b c a Hb Hc Ha F) as [X Y]. congruence.
    + pose proof (kind_lt_trans k a b c Ha Hb Hc E1 F1). congruence.
Qed.

Lemma orders_nullable k : orders (nullable_kind k) compareCells.
Proof.
  destruct (orders_kind k) as [Ha Ht]. split.
  - intros a b [->|Pa] [->|Pb]; [done| | |by apply Ha];
      by match goal with H : of_kind _ _ |- _ => destruct (compareCells_null_l _ _ H) as [-> ->] end.
  - intros a b c [->|Pa] [->|Pb] [->|Pc]; try (by apply Ht);
      repeat match goal with
      | H : of_kind _ ?v |- _ => pose proof (proj1 (compareCells_null_l _ _ H)); pose proof (proj2 (compareCells_null_l _ _ H)); clear H
      end; change (compareCells CNull CNull) with 0; lia.
Qed.

(** The rows of a table whose columns are typed: the key column never null. *)
Record typed_rows (def : ShapeDefinition) (key_kind order_kind : kind) (row : Row) : Prop := {
  typed_key : of_kind key_kind (get_cell row (s_key def));
  typed_order : forall o, s_orderBy def = Some o -> nullable_kind order_kind (get_cell row (o_column o))
}.

Lemma orders_rows def kk ok : orders (typed_rows def kk ok) (compareRows def).
Proof.
  assert (orders (typed_rows def kk ok)
            (fun a b => compareCells (get_cell a (s_key def)) (get_cell b (s_key def)))) as Hk.
  { eapply orders_impl; [|apply (orders_map _ _ _ (orders_kind kk))]. intros row H. apply H. }
  destruct (s_orderBy def) as [[column direction]|] eqn:Eo.
  - assert (orders (typed_rows def kk ok)
              (fun a b => compareCells (get_cell a column) (get_cell b column))) as Hc.
    { eapply orders_impl; [|apply (orders_map _ _ _ (orders_nullable ok))].
      intros row H. exact (typed_order _ _ _ _ H _ Eo). }
    pose proof (orders_then _ _ _ (orders_opp _ _ Hc) Hk) as Hdesc.
    pose proof (orders_then _ _ _ Hc Hk) as Hasc.
    unfold compareRows, then_by in *. rewrite Eo. cbn [o_column o_direction] in *.
    by destruct direction.
  - unfold compareRows. by rewrite Eo.
Qed.

(** Rows the order ties have one key. *)
Lemma tie_same_key def kk ok a b :
  typed_rows def kk ok a -> typed_rows def kk ok b -> compareRows def a b = 0 ->
  rowKey a (s_key def) = rowKey b (s_key def).
Proof.
  intros [Ha _] [Hb _] H.
  assert (compareCells (get_cell a (s_key def)) (get_cell b (s_key def)) = 0) as E.
  { unfold compareRows in H. destruct (s_orderBy def); [|done]. by destruct (negb _) eqn:En in H; bools. }
  rewrite (compareCells_kind kk) in E by done. unfold rowKey.
  destruct (kind_cases kk _ _ Ha Hb) as [(F & F1 & F2)|[(F & F1 & F2)|(F & F1 & F2)]]; rewrite F, ?F1, ?F2 in E; try done.
  destruct kk, (get_cell a (s_key def)), (get_cell b (s_key def)); try done; cbn [strict_eq] in F;
    try (apply bool_decide_eq_true in F; congruence).
  destruct n, n0; cbn [num_eq] in F; try done; try (apply same_value_eq in F; congruence);
    apply Z.eqb_eq in F; by subst.
Qed.

(** Fact: a snapshot's order is a function of its set of rows: on the rows of a typed table
    with distinct keys, [compareRows] is total, so the rows come out of [toSorted] in one
    order whatever order they were read or stored in, each not after the next. *)
Theorem snapshot_order_unique (def : ShapeDefinition) (kk ok : kind) (rows rows' : list Row) :
  List.Forall (typed_rows def kk ok) rows -> NoDup (map (fun row => rowKey row (s_key def)) rows) -> rows ≡ₚ rows' ->
  toSorted (compareRows def) rows = toSorted (compareRows def) rows' /\
  toSorted (compareRows def) rows ≡ₚ rows /\
  StronglySorted (fun a b => compareRows def a b <= 0) (toSorted (compareRows def) rows).
Proof.
  intros Ht Hd Hp. pose proof (orders_rows def kk ok) as Ho.
  split; [|split; [apply toSorted_perm|by eapply toSorted_sorted]].
  eapply toSorted_unique; [done..| |done]. intros a b Ia Ib E.
  rewrite List.Forall_forall in Ht. apply list_elem_of_In in Ia, Ib.
  apply (NoDup_map_inj_in (fun row => rowKey row (s_key def)) rows a b); [by apply NoDup_ListNoDup|done..|].
  by eapply tie_same_key; [apply Ht..|].
Qed.

(** ** The filter as a WHERE clause *)

(** SQL's comparison of a typed column with a bound value: unknown when either is NULL. *)
Definition sql_compare (op : FilterOp) (c : cell) (value : FilterValue) : option bool :=
  let w := cell_of_value value in
  if negb (is_set c) || negb (is_set w) then None
  else Some match op with
            | OpEq => strict_eq c w
            | OpNe => negb (strict_eq c w)
            | OpGt => js_lt w c
            | OpGte => negb (js_lt c w)
            | OpLt => js_lt c w
            | OpLte => negb (js_lt w c)
            end.

(** SQL's AND. *)
Definition sql_and (a b : option bool) : option bool :=
  match a, b with
  | Some false, _ | _, Some false => Some false
  | Some true, Some true => Some true
  | _, _ => None
  end.

(** The WHERE clause of a shape. *)
Definition sql_where (def : ShapeDefinition) (row : Row) : option bool :=
  foldr (fun f acc => sql_and (sql_compare (f_op f) (get_cell row (f_column f)) (f_value f)) acc)
        (Some true) (s_where def).

(** The value is of the column's kind, or NULL; and not a zero of the other sign. *)
Definition comparable (c : cell) (value : FilterValue) : Prop :=
  exists k, nullable_kind k c /\ nullable_kind k (cell_of_value value) /\
            (strict_eq c (cell_of_value value) = true -> c = cell_of_value value).

Lemma matchesFilter_sql f c :
  comparable c (f_value f) -> matchesFilter f c = bool_decide (sql_compare (f_op f) c (f_value f) = Some true).
Proof.
  destruct f as [column op value]. cbn [f_op f_value]. intros (k & [->|Hc] & Hv & Hz).
  - by destruct op.
  - destruct Hv as [Hv|Hv].
    { unfold sql_compare, matchesFilter, ordered, present. cbn [f_op f_value]. rewrite Hv.
      rewrite andb_false_r, orb_true_r. by destruct op. }
    unfold sql_compare, matchesFilter, ordered, present. cbn [f_op f_value].
    rewrite (of_kind_set _ _ Hc), (of_kind_set _ _ Hv). cbn [negb orb andb].
    destruct (kind_cases k _ _ Hc Hv) as [(E & E1 & E2)|[(E & E1 & E2)|(E & E1 & E2)]]; rewrite ?E, ?E1, ?E2.
    + apply Hz in E. rewrite <- E.
      assert (object_is c c = true) as -> by (destruct k, c; try done; by apply bool_decide_eq_true_2).
      by destruct op.
    + assert (object_is c (cell_of_value value) = false) as ->.
      { destruct k, c, (cell_of_value value); try done; apply bool_decide_eq_false_2; intros [= ->]; cbn in *;
          try (by rewrite bool_decide_eq_true_2 in E); by rewrite num_lt_irrefl in E1. }
      by destruct op.
    + assert (object_is c (cell_of_value value) = false) as ->.
      { destruct k, c, (cell_of_value value); try done; apply bool_decide_eq_false_2; intros [= ->]; cbn in *;
          try (by rewrite bool_decide_eq_true_2 in E); by rewrite num_lt_irrefl in E2. }
      by destruct op.
Qed.

(** Fact: the membership test is the WHERE clause: on typed columns, a row is in the shape
    exactly when SQL's three-valued conjunction of the filters is TRUE, so NULLs are left
    out by every operator, [ne] included. *)
Theorem matches_is_where (def : ShapeDefinition) (row : Row) :
  List.Forall (fun f => comparable (get_cell row (f_column f)) (f_value f)) (s_where def) ->
  matchesShape def row = true <-> sql_where def row = Some true.
Proof.
  unfold matchesShape, sql_where. intros H. induction H as [|f fs Hf _ IH]; [done|].
  cbn [forallb foldr]. rewrite (matchesFilter_sql _ _ Hf), andb_true_iff, bool_decide_eq_true, IH.
  destruct (sql_compare _ _ _) as [[]|], (foldr _ _ fs) as [[]|]; cbn; intuition congruence.
Qed.

Definition zero_shape (zero : number) : ShapeDefinition :=
  mkShape "counters" "n" ["n"%string] [mkFilter "n" OpEq (FNum zero)] None.

(** Fact: the two zeros: SQL's [=] takes them for one, [Object.is] does not, and the shape id
    does not tell the definitions that bind them apart. *)
Theorem negative_zero_filter :
  let row := [("n"%string, CNum (Units 0))] in
  sql_where (zero_shape NegZero) row = Some true /\ matchesShape (zero_shape NegZero) row = false /\
  matchesShape (zero_shape (Units 0)) row = true /\
  shapeId (zero_shape NegZero) = shapeId (zero_shape (Units 0)).
Proof. vm_compute. auto. Qed.

Definition typed_row (id body : Z) : Row := [("id"%string, CNum (int id)); ("body"%string, CNum (int body))].
Definition body_shape : ShapeDefinition :=
  mkShape "notes" "id" ["id"%string; "body"%string] [mkFilter "body" OpNe (FNum (int 3))]
          (Some (mkOrderBy "body" Desc)).

Lemma typed_row_ok id body : typed_rows body_shape KNum KNum (typed_row id body).
Proof. constructor; [done|]. intros o [= <-]. by right. Qed.

Lemma matches_is_where_witness : matchesShape body_shape (typed_row 1 2) = true <-> sql_where body_shape (typed_row 1 2) = Some true.
Proof.
  apply matches_is_where. repeat constructor. exists KNum.
  repeat split; [by right|by right|vm_compute; discriminate].
Defined.

Lemma snapshot_order_unique_witness :
  toSorted (compareRows body_shape) [typed_row 1 2; typed_row 2 9; typed_row 3 2] =
  toSorted (compareRows body_shape) [typed_row 3 2; typed_row 1 2; typed_row 2 9] /\
  toSorted (compareRows body_shape) [typed_row 1 2; typed_row 2 9; typed_row 3 2] ≡ₚ
    [typed_row 1 2; typed_row 2 9; typed_row 3 2] /\
  StronglySorted (fun a b => compareRows body_shape a b <= 0)
    (toSorted (compareRows body_shape) [typed_row 1 2; typed_row 2 9; typed_row 3 2]).
Proof.
  apply (snapshot_order_unique body_shape KNum KNum).
  - repeat (apply List.Forall_cons; [apply typed_row_ok|]). apply List.Forall_nil.
  - by apply (bool_decide_unpack _); vm_compute.
  - change [typed_row 3 2; typed_row 1 2; typed_row 2 9] with ([typed_row 3 2] ++ [typed_row 1 2; typed_row 2 9])%list.
    change [typed_row 1 2; typed_row 2 9; typed_row 3 2] with ([typed_row 1 2; typed_row 2 9] ++ [typed_row 3 2])%list.
    apply Permutation_app_comm.
Defined.
