(* ===== verification/LiveDiff.v ===== *)
(** * Live queries: the keyed diff

    [packages/live-server/src/diff.ts]: a shape's rows in wire form, the diff of two keyed
    row sets, and the theorem that applying the diff is exactly becoming the new set. *)
From S2P Require Import Prelude JsString JsMap JsNumber LiveShape.

#[local] Open Scope Z_scope.

(** ** Definitions *)

(** [projectRow]: the shape's columns, in their order. *)
Definition projectRow (row : Row) (columns : list string) : Row :=
  fold_left (fun out column => map_set column (get_cell row column) out) columns [].

Definition normalize_cell (value : cell) : cell :=
  match value with CDate ms => CNum ms | _ => value end.

Definition normalizeWire (row : Row) : Row := map (fun kv => (kv.1, normalize_cell kv.2)) row.

Definition rowEquals (a b : Row) : bool :=
  if negb (Nat.eqb (length a) (length b)) then false
  else forallb (fun kv => object_is (get_cell a kv.1) (get_cell b kv.1)) a.

(** A keyed row set: a [Map] from row key to row. *)
Definition Rows : Type := JsMap Row.

(** The loop over the next rows: the set built so far and the changes found so far. *)
Fixpoint diff_loop (def : ShapeDefinition) (prev : Rows) (nextRows : list Row) (next : Rows)
    (changes : list ShapeChange) : outcome LiveProtocolError (list ShapeChange * Rows) :=
  match nextRows with
  | [] => Ok (changes, next)
  | row :: rest =>
      let! key := rowKey row (s_key def) in
      let next' := map_set key row next in
      let changes' :=
        match map_get key prev with
        | None => changes ++ [SInsert key row]
        | Some before => if negb (rowEquals before row) then changes ++ [SUpdate key row] else changes
        end in
      diff_loop def prev rest next' changes'
  end.

(** [diffRows]: inserts and updates in next order, then the deletes in prev order. *)
Definition diffRows (def : ShapeDefinition) (prev : Rows) (nextRows : list Row)
  : outcome LiveProtocolError (list ShapeChange * Rows) :=
  let! (changes, next) := diff_loop def prev nextRows [] [] in
  let gone := List.filter (fun key => negb (existsb (fun kv => String.eqb (fst kv) key) next)) (map fst prev) in
  Ok (changes ++ map SDelete gone, next).

(** [applyChange] of [engine.ts], and of the client's store: the change's effect on a keyed set. *)
Definition applyChange (rows : Rows) (change : ShapeChange) : Rows :=
  match change with
  | SDelete key => map_delete key rows
  | SInsert key row | SUpdate key row => map_set key row rows
  end.

Definition applyAll (changes : list ShapeChange) (rows : Rows) : Rows := fold_left applyChange changes rows.

Definition change_key (c : ShapeChange) : string :=
  match c with SInsert key _ | SUpdate key _ | SDelete key => key end.

(** ** Rows that hold the same cells *)

Definition row_same (a b : Row) : Prop := forall column, get_cell a column = get_cell b column.

#[export] Instance row_same_equivalence : Equivalence row_same.
Proof.
  split; [by intros a c|intros a b H c; by rewrite H|intros a b d H H' c; by rewrite H, H'].
Qed.

(** Two keyed sets with the same keys and the same cells. *)
Definition rows_same (s t : Rows) : Prop :=
  forall key, option_relation row_same (fun _ => False) (fun _ => False) (map_get key s) (map_get key t).

#[export] Instance rows_same_equivalence : Equivalence rows_same.
Proof.
  split.
  - intros s key. by destruct (map_get key s).
  - intros s t H key. specialize (H key). by destruct (map_get key s), (map_get key t); simpl in *.
  - intros s t u H H' key. specialize (H key). specialize (H' key).
    destruct (map_get key s), (map_get key t), (map_get key u); simpl in *; try done. by etransitivity.
Qed.

Lemma applyChange_get key rows c :
  map_get key (applyChange rows c) =
  if String.eqb key (change_key c)
  then match c with SDelete _ => None | SInsert _ row | SUpdate _ row => Some row end
  else map_get key rows.
Proof. destruct c; simpl; [apply map_get_set..|]. apply map_get_delete. Qed.

#[export] Instance applyChange_proper : Proper (rows_same ==> eq ==> rows_same) applyChange.
Proof.
  intros s t H c _ <- key. rewrite !applyChange_get. destruct (String.eqb _ _); [|apply H]. by destruct c.
Qed.

#[export] Instance applyAll_proper : Proper (eq ==> rows_same ==> rows_same) applyAll.
Proof.
  intros cs _ <- s t H. unfold applyAll. revert s t H.
  induction cs as [|c cs IH]; intros s t H; [done|]. simpl. apply IH. by rewrite H.
Qed.

(** ** Wire rows *)

(** A row as [fetchRows] and the image coercer build it: one cell for each of the shape's
    columns, no [Date] left. *)
Record wire_row (columns : list string) (row : Row) : Prop := {
  wire_keys : List.NoDup (map fst row);
  wire_columns : forall c, List.In c (map fst row) <-> List.In c columns;
  wire_scalar : forall c ms, get_cell row c <> CDate ms
}.

Lemma map_set_In {V} k k' (v : V) m : List.In k (map fst (map_set k' v m)) <-> k = k' \/ List.In k (map fst m).
Proof.
  rewrite map_set_keys. case_bool_decide as Hk; [|rewrite in_app_iff; simpl; firstorder].
  split; [tauto|]. intros [-> |]; [|done]. destruct Hk as [v' Hk%map_get_Some_In].
  apply in_map_iff. by exists (k', v').
Qed.

Lemma project_loop_keys row columns out c :
  List.In c (map fst (fold_left (fun o column => map_set column (get_cell row column) o) columns out)) <->
  List.In c columns \/ List.In c (map fst out).
Proof.
  revert out. induction columns as [|d columns IH]; intros out; simpl; [tauto|]. rewrite IH, map_set_In. firstorder.
Qed.

Lemma project_loop_NoDup row columns out :
  List.NoDup (map fst out) ->
  List.NoDup (map fst (fold_left (fun o column => map_set column (get_cell row column) o) columns out)).
Proof. revert out. induction columns as [|d columns IH]; intros out H; simpl; [done|]. by apply IH, map_set_NoDup. Qed.

Lemma project_loop_get row columns out c :
  get_cell (fold_left (fun o column => map_set column (get_cell row column) o) columns out) c =
  if in_dec String.string_dec c columns then get_cell row c else get_cell out c.
Proof.
  revert out. induction columns as [|d columns IH]; intros out; simpl; [done|]. rewrite IH.
  destruct (in_dec _ c columns) as [I|I], (String.string_dec d c) as [->|N]; try done;
    unfold get_cell at 1; rewrite map_get_set.
  - by rewrite String.eqb_refl.
  - destruct (String.eqb_spec c d); [congruence|]. done.
Qed.

Lemma projectRow_get row columns c : List.In c columns -> get_cell (projectRow row columns) c = get_cell row c.
Proof. intros H. unfold projectRow. rewrite project_loop_get. by destruct (in_dec _ _ _). Qed.

Lemma normalizeWire_get row c : get_cell (normalizeWire row) c = normalize_cell (get_cell row c).
Proof.
  unfold get_cell, normalizeWire, map_get. induction row as [|[k v] row IH]; simpl; [done|].
  by destruct (String.eqb k c).
Qed.

Lemma normalize_cell_scalar v ms : normalize_cell v <> CDate ms.
Proof. by destruct v. Qed.

(** Projection and normalization make wire rows. *)
Lemma wire_row_project row columns : wire_row columns (normalizeWire (projectRow row columns)).
Proof.
  assert (map fst (normalizeWire (projectRow row columns)) = map fst (projectRow row columns)) as E.
  { unfold normalizeWire. by rewrite map_map. }
  split.
  - rewrite E. apply project_loop_NoDup. constructor.
  - intros c. rewrite E. unfold projectRow. rewrite project_loop_keys. simpl. tauto.
  - intros c ms. rewrite normalizeWire_get. apply normalize_cell_scalar.
Qed.

Lemma object_is_eq a b : (forall ms, b <> CDate ms) -> object_is a b = true <-> a = b.
Proof. intros H. destruct a, b; try apply bool_decide_eq_true. by destruct (H ms0). Qed.

Lemma get_cell_absent row column : ~ List.In column (map fst row) -> get_cell row column = CUndefined.
Proof.
  intros H. unfold get_cell. destruct (map_get column row) eqn:E; [|done]. apply map_get_Some_In in E.
  exfalso. apply H, in_map_iff. by exists (column, c).
Qed.

Lemma wire_row_length columns a b : wire_row columns a -> wire_row columns b -> length a = length b.
Proof.
  intros [Na Ca _] [Nb Cb _]. rewrite <- (length_map fst a), <- (length_map fst b).
  apply Nat.le_antisymm; apply List.NoDup_incl_length; try done; intros c; rewrite Ca, Cb; done.
Qed.

(** On the wire rows of one shape, [rowEquals] is equality cell by cell. *)
Lemma rowEquals_same columns a b :
  wire_row columns a -> wire_row columns b -> rowEquals a b = true <-> row_same a b.
Proof.
  intros Wa Wb. unfold rowEquals. rewrite (wire_row_length _ _ _ Wa Wb), Nat.eqb_refl. simpl.
  rewrite forallb_forall. split.
  - intros H c. destruct (in_dec String.string_dec c columns) as [I|I].
    + apply (wire_columns _ _ Wa), in_map_iff in I as (kv & <- & Hkv). specialize (H kv Hkv).
      apply object_is_eq in H; [done|]. intros ms. apply Wb.
    + rewrite !get_cell_absent; [done|..]; [by rewrite (wire_columns _ _ Wb)|by rewrite (wire_columns _ _ Wa)].
  - intros H kv _. apply object_is_eq; [|done]. intros ms. apply Wb.
Qed.

(** ** The last change of a key decides *)

(** What a change leaves under its key. *)
Definition payload (c : ShapeChange) : option Row :=
  match c with SDelete _ => None | SInsert _ row | SUpdate _ row => Some row end.

(** What the last change of the key leaves, if one touches it. *)
Definition last_effect (key : string) (changes : list ShapeChange) : option (option Row) :=
  fold_left (fun acc c => if String.eqb key (change_key c) then Some (payload c) else acc) changes None.

Lemma last_effect_app key cs cs' :
  last_effect key (cs ++ cs') = match last_effect key cs' with Some e => Some e | None => last_effect key cs end.
Proof.
  unfold last_effect. rewrite fold_left_app. induction cs' as [|c cs' IH] using rev_ind; [done|].
  rewrite !fold_left_app. simpl. by destruct (String.eqb key (change_key c)).
Qed.

Lemma applyAll_get key cs rows :
  map_get key (applyAll cs rows) = match last_effect key cs with Some e => e | None => map_get key rows end.
Proof.
  unfold applyAll. induction cs as [|c cs IH] using rev_ind; [done|].
  rewrite last_effect_app, fold_left_app. simpl. rewrite applyChange_get, IH.
  unfold last_effect at 2. simpl. by destruct (String.eqb _ _), c.
Qed.

Lemma last_effect_absent key cs : (forall c, List.In c cs -> change_key c <> key) -> last_effect key cs = None.
Proof.
  induction cs as [|c cs IH] using rev_ind; [done|]. intros H. rewrite last_effect_app.
  unfold last_effect at 1. simpl. destruct (String.eqb_spec key (change_key c)) as [->|].
  - by destruct (H c ltac:(apply in_app_iff; right; left; done)).
  - apply IH. intros d Hd. apply H, in_app_iff. by left.
Qed.

Lemma last_effect_present cs c :
  List.NoDup (map change_key cs) -> List.In c cs -> last_effect (change_key c) cs = Some (payload c).
Proof.
  intros Hnd Hc. apply in_split in Hc as (l1 & l2 & ->). rewrite map_app in Hnd. simpl in Hnd.
  apply List.NoDup_remove_2 in Hnd. rewrite last_effect_app.
  replace (last_effect (change_key c) (c :: l2)) with (Some (payload c)); [done|].
  change (c :: l2) with ([c] ++ l2). rewrite last_effect_app, last_effect_absent.
  - unfold last_effect. simpl. by rewrite String.eqb_refl.
  - intros d Hd E. apply Hnd, in_app_iff. right. rewrite <- E. by apply in_map.
Qed.

(** ** The diff in closed form *)

(** The rows with their keys. *)
Definition key_rows (def : ShapeDefinition) (rows : list Row) : outcome LiveProtocolError (list (string * Row)) :=
  map_outcome (fun row => let! key := rowKey row (s_key def) in Ok (key, row)) rows.

Definition row_change (prev : Rows) (kr : string * Row) : list ShapeChange :=
  match map_get kr.1 prev with
  | None => [SInsert kr.1 kr.2]
  | Some before => if negb (rowEquals before kr.2) then [SUpdate kr.1 kr.2] else []
  end.

Lemma diff_loop_closed def prev rows next changes :
  diff_loop def prev rows next changes =
  let! pairs := key_rows def rows in
  Ok (changes ++ flat_map (row_change prev) pairs, fold_left (fun m kr => map_set kr.1 kr.2 m) pairs next).
Proof.
  revert next changes. induction rows as [|row rows IH]; intros next changes.
  - simpl. by rewrite app_nil_r.
  - unfold key_rows in *. cbn [diff_loop map_outcome]. destruct (rowKey row (s_key def)) as [key|e]; [|done].
    cbn [outcome_bind]. rewrite IH. destruct (map_outcome _ rows) as [pairs|e]; [|done].
    cbn [outcome_bind flat_map fold_left fst snd]. f_equal. f_equal.
    unfold row_change at 2. simpl. destruct (map_get key prev) as [before|]; [destruct (negb _)|];
      by rewrite <- ?app_assoc.
Qed.

Lemma key_rows_In def rows pairs :
  key_rows def rows = Ok pairs ->
  map snd pairs = rows /\ forall kr, List.In kr pairs -> rowKey kr.2 (s_key def) = Ok kr.1.
Proof.
  unfold key_rows. revert pairs. induction rows as [|row rows IH]; intros pairs; cbn [map_outcome].
  - intros [= <-]. by split.
  - destruct (rowKey row (s_key def)) as [key|e] eqn:Ek; [|done]. cbn [outcome_bind].
    destruct (map_outcome _ rows) as [ps|e]; [|done]. cbn [outcome_bind]. intros [= <-].
    destruct (IH ps eq_refl) as [E Hin]. split; [simpl; by rewrite E|].
    intros kr [<-|H]; [done|by apply Hin].
Qed.

(** ** The theorem *)

(** A change is one the two sets call for. *)
Definition needed (prev next : Rows) (c : ShapeChange) : Prop :=
  match c with
  | SInsert key row => map_get key prev = None /\ map_get key next = Some row
  | SUpdate key row =>
      map_get key next = Some row /\ exists before, map_get key prev = Some before /\ ~ row_same before row
  | SDelete key => is_Some (map_get key prev) /\ map_get key next = None
  end.

Section Exact.
Context (columns : list string) (prev pairs : Rows).
Hypothesis prev_keys : List.NoDup (map fst prev).
Hypothesis prev_wire : forall kr, List.In kr prev -> wire_row columns kr.2.
Hypothesis next_keys : List.NoDup (map fst pairs).
Hypothesis next_wire : forall kr, List.In kr pairs -> wire_row columns kr.2.

(** The deletes: the keys of the previous set that are gone. *)
Definition gone_keys : list string :=
  List.filter (fun key => negb (existsb (fun kv => String.eqb (fst kv) key) pairs)) (map fst prev).

Definition all_changes : list ShapeChange := flat_map (row_change prev) pairs ++ map SDelete gone_keys.

Lemma gone_In key : List.In key gone_keys <-> is_Some (map_get key prev) /\ map_get key pairs = None.
Proof.
  unfold gone_keys. rewrite filter_In, map_has, negb_true_iff, bool_decide_eq_false, <- eq_None_not_Some.
  split; intros [H N]; (split; [|done]).
  - apply in_map_iff in H as ([k r] & <- & H). by exists r; apply map_get_In.
  - destruct H as [r H%map_get_Some_In]. apply in_map_iff. by exists (key, r).
Qed.

Lemma row_change_In key row c :
  List.In c (row_change prev (key, row)) ->
  change_key c = key /\ payload c = Some row /\ (List.In (key, row) pairs -> needed prev pairs c).
Proof.
  unfold row_change. simpl. destruct (map_get key prev) as [before|] eqn:E.
  - destruct (rowEquals before row) eqn:Er; [done|]. intros [<-|[]]. simpl. repeat split; [by apply map_get_In|].
    exists before. split; [done|]. intros S.
    apply map_get_Some_In in E. rewrite (proj2 (rowEquals_same columns before row (prev_wire _ E) (next_wire _ H))) in Er; done.
  - intros [<-|[]]. simpl. repeat split; [done|by apply map_get_In].
Qed.

Lemma all_changes_needed c : List.In c all_changes -> needed prev pairs c.
Proof.
  unfold all_changes. rewrite in_app_iff, in_flat_map, in_map_iff. intros [([key row] & Hin & Hc)|(key & <- & Hk)].
  - by apply (row_change_In _ _ _ Hc).
  - by apply gone_In.
Qed.

(** One change per key at most. *)
Lemma all_changes_keys : List.NoDup (map change_key all_changes).
Proof.
  unfold all_changes. rewrite map_app, map_map. simpl. rewrite map_id. apply List.NoDup_app.
  - clear next_wire. induction pairs as [|[key row] ps IH]; simpl in *; [constructor|].
    inversion next_keys as [|? ? Hn Hd]; subst. rewrite map_app. apply List.NoDup_app; [|by apply IH|].
    + unfold row_change. destruct (map_get _ prev); [destruct (negb _)|]; repeat constructor; simpl; tauto.
    + intros k (c & <- & Hc)%in_map_iff (c' & E & ([k' r'] & Hin & Hc')%in_flat_map)%in_map_iff.
      assert (forall kr d, List.In d (row_change prev kr) -> change_key d = kr.1) as Hkey.
      { intros [k0 r0] d. unfold row_change. simpl. destruct (map_get k0 prev); [destruct (negb _)|]; simpl; [intros [<-|[]]|done|intros [<-|[]]]; done. }
      rewrite (Hkey _ _ Hc), (Hkey _ _ Hc') in E. simpl in E. subst. apply Hn, in_map_iff. by exists (key, r').
  - by apply List.NoDup_filter.
  - intros k (c & <- & ([key row] & Hin & Hc)%in_flat_map)%in_map_iff [_ Hg]%gone_In.
    destruct (row_change_In _ _ _ Hc) as (Ek & _ & _). by rewrite Ek, (map_get_In _ _ _ next_keys Hin) in Hg.
Qed.

(** Applied to the previous set, the changes make the next one. *)
Lemma all_changes_apply : rows_same (applyAll all_changes prev) pairs.
Proof.
  intros key. rewrite applyAll_get. destruct (map_get key pairs) as [row|] eqn:En.
  - pose proof (map_get_Some_In _ _ _ En) as Hin.
    destruct (row_change prev (key, row)) as [|c cs] eqn:Ec.
    + rewrite last_effect_absent.
      * unfold row_change in Ec. simpl in Ec. destruct (map_get key prev) as [before|] eqn:Ep in Ec |- *; [|done].
        destruct (rowEquals before row) eqn:Er in Ec |- *; [|done].
        apply map_get_Some_In in Ep. simpl. apply (rowEquals_same columns before row (prev_wire _ Ep) (next_wire _ Hin)). done.
      * intros c Hc E. unfold all_changes in Hc. apply in_app_iff in Hc as [([k r] & Hk & Hc)%in_flat_map|Hc].
        -- destruct (row_change_In _ _ _ Hc) as (Ek & _ & _). rewrite Ek in E. subst k.
           apply (map_get_In _ _ _ next_keys) in Hk. rewrite En in Hk. injection Hk as ->. by rewrite Ec in Hc.
        -- apply in_map_iff in Hc as (k & <- & Hk%gone_In). simpl in E. subst. destruct Hk. congruence.
    + assert (List.In c (row_change prev (key, row))) as Hc by (rewrite Ec; by left).
      destruct (row_change_In _ _ _ Hc) as (Ek & Hp & _). rewrite <- Ek, last_effect_present, Hp; [done|apply all_changes_keys|].
      unfold all_changes. apply in_app_iff. left. apply in_flat_map. by exists (key, row).
  - destruct (map_get key prev) as [before|] eqn:Ep.
    + change key with (change_key (SDelete key)). rewrite last_effect_present; [done|apply all_changes_keys|].
      unfold all_changes. apply in_app_iff. right. apply in_map_iff. exists key. split; [done|]. by apply gone_In.
    + rewrite last_effect_absent; [done|]. intros c Hc E. pose proof (all_changes_needed c Hc) as N.
      destruct c; simpl in *; subst; destruct N as [N1 N2]; [congruence|congruence|]. rewrite Ep in N1. by destruct N1.
Qed.
End Exact.

Lemma key_rows_NoDup_next pairs : List.NoDup (map fst pairs) -> fold_left (fun m kr => map_set kr.1 kr.2 m) pairs [] = (pairs : Rows).
Proof. intros H. rewrite fold_set_fresh; [done|]. simpl. by apply NoDup_ListNoDup. Qed.

(** The rows of a table by key: distinct keys, wire rows. *)
Definition keyed (columns : list string) (rows : Rows) : Prop :=
  List.NoDup (map fst rows) /\ forall kr, List.In kr rows -> wire_row columns kr.2.

(** Fact: the diff is exact and minimal: whenever the next rows all have keys, and distinct
    ones, [diffRows] returns the next keyed set with changes that, applied to the previous
    set, make it; every change is called for (an insert's key is new, a delete's is gone,
    an update's row really differs), and no key gets two. *)
Theorem diff_exact (def : ShapeDefinition) (prev next : Rows) (rows : list Row) :
  keyed (s_columns def) prev -> key_rows def rows = Ok next -> keyed (s_columns def) next ->
  exists changes,
    diffRows def prev rows = Ok (changes, next) /\
    rows_same (applyAll changes prev) next /\
    List.NoDup (map change_key changes) /\
    forall c, List.In c changes -> needed prev next c.
Proof.
  intros [Hp Wp] Hk [Hn Wn]. exists (all_changes prev next). split; [|split; [|split]].
  - unfold diffRows. rewrite diff_loop_closed, Hk. cbn [outcome_bind]. by rewrite key_rows_NoDup_next.
  - by eapply all_changes_apply.
  - by eapply all_changes_keys.
  - intros c. by eapply all_changes_needed.
Qed.

Definition notes_shape : ShapeDefinition := mkShape "notes" "id" ["id"; "body"]%string [] None.
Definition note (id body : string) : Row := [("id", CStr id); ("body", CStr body)]%string.
Definition notes (l : list (string * string)) : Rows := map (fun kb => (kb.1, note kb.1 kb.2)) l.

Lemma notes_keyed l : List.NoDup (map fst l) -> keyed (s_columns notes_shape) (notes l).
Proof.
  intros H. split; [unfold notes; by rewrite map_map|].
  intros kr ([k b] & <- & _)%in_map_iff. split; simpl.
  - repeat constructor; simpl; intuition discriminate.
  - tauto.
  - intros c ms. unfold get_cell, map_get. cbn -[String.eqb].
    destruct (String.eqb "id" c); [discriminate|]. destruct (String.eqb "body" c); discriminate.
Qed.

Lemma diff_exact_witness :
  let prev := notes [("a", "1"); ("b", "2"); ("c", "3")]%string in
  let next := notes [("d", "4"); ("a", "1"); ("c", "5")]%string in
  exists changes,
    diffRows notes_shape prev (map snd next) = Ok (changes, next) /\
    rows_same (applyAll changes prev) next /\
    List.NoDup (map change_key changes) /\
    forall c, List.In c changes -> needed prev next c.
Proof.
  apply diff_exact; [apply notes_keyed|reflexivity|apply notes_keyed];
    repeat constructor; simpl; intuition discriminate.
Defined.
