(* ===== verification/LiveClassify.v ===== *)
(** * Live queries: classification of replicated changes

    [packages/live-server/src/classify.ts] and [coerce.ts] (with the column coercion of
    [packages/db/src/queries.ts]): how one change of the replication stream becomes one
    change of a shape. *)
From S2P Require Import Prelude JsString JsMap JsNumber LiveShape LiveDiff.

#[local] Open Scope Z_scope.

(** ** Tables and changes *)

Inductive ColumnKind : Type := Text | Integer | Real | Boolean | Timestamp.

Record ColumnSpec : Type := mkColumn {
  col_name : string;
  col_kind : ColumnKind;
  col_unique : bool;
  col_primaryKey : bool
}.

(** A table: its columns by JavaScript key, in declaration order. *)
Record Table : Type := mkTable {
  tableName : string;
  byKey : JsMap ColumnSpec
}.

(** [byColumn]: the key of a SQL name; the last declared wins. *)
Definition byColumn (table : Table) : JsMap string :=
  fold_left (fun m kv => map_set (col_name kv.2) kv.1 m) (byKey table) [].

(** A row image of the stream: SQL column name to value; [undefined] is a value that was
    not transmitted. *)
Definition RowImage : Type := Row.

Inductive OldImageKind : Type := KindFull | KindKey | KindNone.

#[export] Instance OldImageKind_eq_dec : EqDecision OldImageKind.
Proof. solve_decision. Defined.

Inductive RowOp : Type :=
| RInsert (newImage : RowImage)
| RUpdate (newImage oldImage : RowImage) (oldImageKind : OldImageKind)
| RDelete (oldImage : RowImage) (oldImageKind : OldImageKind).

(** A change stamped with the position and the identity of the database it came from. *)
Record ReplicationChange : Type := mkChange {
  ch_op : RowOp;
  ch_table : string;
  ch_commitLSN : string;
  ch_systemId : string;
  ch_timelineId : number
}.

(** The error codes of the two packages. *)
Inductive LiveError : Type :=
| Protocol (e : LiveProtocolError)
| LIVE_SERVER_UNKNOWN_TABLE
| LIVE_SERVER_UNKNOWN_COLUMN
| LIVE_SERVER_NON_UNIQUE_KEY
| LIVE_SERVER_REPLICA_IDENTITY_INSUFFICIENT
| LIVE_SERVER_OLD_IMAGE_INCOMPLETE
| LIVE_SERVER_PRIMARY_KEY_CHANGED
| LIVE_SERVER_INVALID_LSN
| LIVE_SERVER_REPLICATION_UNKNOWN_RELATION
| LIVE_SERVER_REPLICATION_MALFORMED_FRAME
| LIVE_SERVER_REPLICATION_ALREADY_STARTED
| LIVE_SERVER_REPLICATION_STOPPED
| LIVE_SERVER_REPLICATION_SLOT_DROP_TIMEOUT.

#[export] Instance LiveError_eq_dec : EqDecision LiveError.
Proof. solve_decision. Defined.

(** A [LiveProtocolError] that escapes into the server. *)
Definition lift_protocol {A} (m : outcome LiveProtocolError A) : outcome LiveError A :=
  match m with Ok a => Ok a | Throw e => Throw (Protocol e) end.

(** ** Coercion *)

(** The time value of [new Date(n)]: truncated, NaN out of range. *)
Definition time_clip (n : number) : number :=
  match n with
  | NegZero => Units 0
  | Units k => if Z.abs k <=? 8640000000000000 * one then Units (Z.quot k one * one) else NaN
  | _ => NaN
  end.

Definition coerceCell (kind : option ColumnKind) (value : cell) : cell :=
  match value with
  | CNull => CNull
  | _ =>
      match kind with
      | Some Boolean => CBool (num_eq (to_number value) (int 1))
      | Some Timestamp => CDate (time_clip (to_number value))
      | Some Integer | Some Real => CNum (to_number value)
      | Some Text | None => value
      end
  end.

(** [hydrate]: a raw row, by SQL name, to the row the ORM hands out, by key. *)
Definition hydrate (table : Table) (raw : Row) : Row :=
  fold_left (fun out kv =>
    let key := default kv.1 (map_get kv.1 (byColumn table)) in
    map_set key (coerceCell (option_map col_kind (map_get key (byKey table))) kv.2) out) raw [].

(** The SQL name and the kind of a column. A key the table does not declare (one that
    [Object.prototype] has, which [resolveTable] lets through) has no kind, and its name
    is no column's. *)
Definition spec_name (table : Table) (key : string) : string :=
  match map_get key (byKey table) with Some spec => col_name spec | None => EmptyString end.

Definition spec_kind (table : Table) (key : string) : option ColumnKind :=
  option_map col_kind (map_get key (byKey table)).

(** One projected column: its key, its SQL name, its kind. *)
Record Projection : Type := mkProjection { p_key : string; p_sqlName : string; p_kind : option ColumnKind }.

Definition project (def : ShapeDefinition) (table : Table) : list Projection :=
  map (fun key => mkProjection key (spec_name table key) (spec_kind table key)) (s_columns def).

(** [createImageCoercer]. *)
Definition coerceImage (def : ShapeDefinition) (table : Table) (image : RowImage) : Row :=
  normalizeWire (fold_left (fun row p => map_set (p_key p) (coerceCell (p_kind p) (get_cell image (p_sqlName p))) row)
                           (project def table) []).

Definition predicateNeedsOldImage (def : ShapeDefinition) (keyIsPrimaryKey : bool) : bool :=
  negb keyIsPrimaryKey || existsb (fun f => negb (String.eqb (f_column f) (s_key def))) (s_where def).

(** The catalog fact [table.byKey[def.key].primaryKey]. *)
Definition key_is_primary (def : ShapeDefinition) (table : Table) : bool :=
  match map_get (s_key def) (byKey table) with Some spec => col_primaryKey spec | None => false end.

(** [requiredOldImageColumns]: the SQL names of the key and the filter columns, once each. *)
Definition requiredOldImageColumns (def : ShapeDefinition) (table : Table) : list string :=
  if negb (predicateNeedsOldImage def (key_is_primary def table)) then []
  else map (spec_name table)
            (map fst (fold_left (fun m key => map_set key tt m) (s_key def :: map f_column (s_where def)) [])).

(** ** The guards *)

Definition assertReplicaIdentity (def : ShapeDefinition) (keyIsPrimaryKey hasFullReplicaIdentity : bool)
  : outcome LiveError unit :=
  if negb (predicateNeedsOldImage def keyIsPrimaryKey) || hasFullReplicaIdentity then Ok tt
  else Throw LIVE_SERVER_REPLICA_IDENTITY_INSUFFICIENT.

Definition assertOldImageComplete (oldImageKind : OldImageKind) (requiredColumns : list string) (oldImage : RowImage)
  : outcome LiveError unit :=
  if negb (bool_decide (oldImageKind = KindFull)) then Throw LIVE_SERVER_OLD_IMAGE_INCOMPLETE
  else if existsb (fun column => bool_decide (get_cell oldImage column = CUndefined)) requiredColumns
       then Throw LIVE_SERVER_OLD_IMAGE_INCOMPLETE
  else Ok tt.

(** ** Classification *)

(** [mergeNewOverOld]: the transmitted new values over the old ones. *)
Definition mergeNewOverOld (next prev : RowImage) : RowImage :=
  fold_left (fun merged kv => match kv.2 with CUndefined => merged | v => map_set kv.1 v merged end) next prev.

Definition hasOldImage (oldImage : RowImage) : bool := negb (Nat.eqb (length oldImage) 0).

Definition key_of (def : ShapeDefinition) (row : Row) : outcome LiveError string := lift_protocol (rowKey row (s_key def)).

Definition classifyChange (def : ShapeDefinition) (op : RowOp) (coerce : RowImage -> Row)
  : outcome LiveError (option ShapeChange) :=
  match op with
  | RInsert newImage =>
      let row := coerce newImage in
      if matchesShape def row then let! key := key_of def row in Ok (Some (SInsert key row)) else Ok None
  | RDelete oldImage _ =>
      let row := coerce oldImage in
      if matchesShape def row then let! key := key_of def row in Ok (Some (SDelete key)) else Ok None
  | RUpdate newImage oldImage _ =>
      let newRow := coerce (mergeNewOverOld newImage oldImage) in
      let oldRow := if hasOldImage oldImage then coerce oldImage else newRow in
      let wasIn := matchesShape def oldRow in
      let isIn := matchesShape def newRow in
      if isIn then
        let! newKey := key_of def newRow in
        if wasIn then
          let! oldKey := key_of def oldRow in
          if negb (String.eqb oldKey newKey) then Throw LIVE_SERVER_PRIMARY_KEY_CHANGED
          else Ok (Some (SUpdate newKey newRow))
        else Ok (Some (SInsert newKey newRow))
      else if wasIn then let! oldKey := key_of def oldRow in Ok (Some (SDelete oldKey))
      else Ok None
  end.

(** The closure [prepareShapeClassifier] returns once the registration guard has passed. *)
Definition guardedClassify (def : ShapeDefinition) (needsOldImage : bool) (coerce : RowImage -> Row)
    (requiredOldColumns : list string) (change : ReplicationChange) : outcome LiveError (option ShapeChange) :=
  let! _ :=
    match ch_op change with
    | RInsert _ => Ok tt
    | RUpdate _ oldImage kind | RDelete oldImage kind =>
        if needsOldImage then assertOldImageComplete kind requiredOldColumns oldImage else Ok tt
    end in
  classifyChange def (ch_op change) coerce.

Definition prepareShapeClassifier (def : ShapeDefinition) (keyIsPrimaryKey hasFullReplicaIdentity : bool)
    (coerce : RowImage -> Row) (requiredOldColumns : list string)
  : outcome LiveError (ReplicationChange -> outcome LiveError (option ShapeChange)) :=
  let! _ := assertReplicaIdentity def keyIsPrimaryKey hasFullReplicaIdentity in
  Ok (guardedClassify def (predicateNeedsOldImage def keyIsPrimaryKey) coerce requiredOldColumns).

(** [buildClassifier] of [engine.ts], once the catalog probe has answered. *)
Definition buildClassifier (def : ShapeDefinition) (table : Table) (hasFullReplicaIdentity : bool)
  : outcome LiveError (ReplicationChange -> outcome LiveError (option ShapeChange)) :=
  prepareShapeClassifier def (key_is_primary def table) hasFullReplicaIdentity
    (coerceImage def table) (requiredOldImageColumns def table).
