(* ===== verification/LiveClassifyProps.v ===== *)
(** * Live queries: no row leaks

    The classifier against the table: the changes it emits carry the authorized slice of
    the table before a statement to the slice after it, whatever the replica identity of
    the table, or it refuses with an error; and both change sources make the same rows. *)
From S2P Require Import Prelude JsString JsMap JsNumber LiveShape LiveDiff LiveClassify.

#[local] Open Scope Z_scope.

(** ** What Postgres emits *)

(** A statement's effect on one stored row (by SQL column name). *)
Inductive TableOp : Type :=
| OpInsert (new : Row)
| OpUpdate (old new : Row)
| OpDelete (old : Row).

(** A column of the new tuple: its value, or nothing for an unchanged out-of-line value. *)
Definition new_cell (old new : Row) (image : RowImage) (column : string) : Prop :=
  get_cell image column = get_cell new column \/
  (get_cell image column = CUndefined /\ get_cell new column = get_cell old column).

(** A column of a full old tuple: its value, or nothing for an out-of-line value. *)
Definition old_cell (old : Row) (image : RowImage) (column : string) : Prop :=
  get_cell image column = get_cell old column \/ get_cell image column = CUndefined.

(** The key tuple of the default replica identity: the primary key, nulls elsewhere. *)
Definition key_tuple (pk : string) (old : Row) (image : RowImage) : Prop :=
  get_cell image pk = get_cell old pk /\
  forall column, column <> pk -> get_cell image column = CNull \/ get_cell image column = CUndefined.

(** The decoded change of a statement on a table with primary key [pk], under replica
    identity FULL or DEFAULT; the identity columns are always transmitted. *)
Inductive emits (full : bool) (pk : string) : TableOp -> RowOp -> Prop :=
| emits_insert new newImage :
    (forall column, get_cell newImage column = get_cell new column) ->
    emits full pk (OpInsert new) (RInsert newImage)
| emits_update_full old new newImage oldImage :
    full = true ->
    List.NoDup (map fst newImage) ->
    (forall column, new_cell old new newImage column) ->
    (forall column, old_cell old oldImage column) ->
    get_cell oldImage pk = get_cell old pk ->
    (forall column, get_cell newImage column = CUndefined -> get_cell oldImage column = get_cell old column) ->
    emits full pk (OpUpdate old new) (RUpdate newImage oldImage KindFull)
| emits_update_key old new newImage oldImage :
    full = false ->
    get_cell old pk <> get_cell new pk ->
    List.NoDup (map fst newImage) ->
    (forall column, new_cell old new newImage column) ->
    key_tuple pk old oldImage ->
    emits full pk (OpUpdate old new) (RUpdate newImage oldImage KindKey)
| emits_update_none old new newImage :
    full = false ->
    get_cell old pk = get_cell new pk ->
    List.NoDup (map fst newImage) ->
    (forall column, new_cell old new newImage column) ->
    emits full pk (OpUpdate old new) (RUpdate newImage [] KindNone)
| emits_delete_full old oldImage :
    full = true ->
    (forall column, old_cell old oldImage column) ->
    get_cell oldImage pk = get_cell old pk ->
    emits full pk (OpDelete old) (RDelete oldImage KindFull)
| emits_delete_key old oldImage :
    full = false ->
    key_tuple pk old oldImage ->
    emits full pk (OpDelete old) (RDelete oldImage KindKey).

(** The statement's effect on the stored rows. *)
Inductive applies : TableOp -> list Row -> list Row -> Prop :=
| applies_insert new rows : applies (OpInsert new) rows (rows ++ [new])
| applies_update old new l1 l2 : applies (OpUpdate old new) (l1 ++ old :: l2) (l1 ++ new :: l2)
| applies_delete old l1 l2 : applies (OpDelete old) (l1 ++ old :: l2) (l1 ++ l2).

(** ** The authorized slice *)

(** The key of a row that has one. *)
Definition the_key (def : ShapeDefinition) (row : Row) : string := cell_string (get_cell row (s_key def)).

(** The rows of the table that are in the shape, in wire form, by key. *)
Definition slice (def : ShapeDefinition) (coerce : RowImage -> Row) (rows : list Row) : Rows :=
  map (fun row => (the_key def row, row)) (List.filter (matchesShape def) (map coerce rows)).

(** The stored rows all have keys, and distinct ones: the constraint [resolveTable] asks for. *)
Definition keyed_table (def : ShapeDefinition) (coerce : RowImage -> Row) (rows : list Row) : Prop :=
  List.NoDup (map (fun r => the_key def (coerce r)) rows) /\
  forall r, List.In r rows -> is_set (get_cell (coerce r) (s_key def)) = true.

Section Slice.
Context (def : ShapeDefinition) (coerce : RowImage -> Row).

Lemma slice_app l l' : slice def coerce (l ++ l') = slice def coerce l ++ slice def coerce l'.
Proof. unfold slice. by rewrite map_app, List.filter_app, map_app. Qed.

Lemma slice_get_absent key rows :
  ~ List.In key (map (fun r => the_key def (coerce r)) rows) -> map_get key (slice def coerce rows) = None.
Proof.
  intros H. destruct (map_get key _) as [row|] eqn:E; [|done]. apply map_get_Some_In in E.
  unfold slice in E. apply in_map_iff in E as (x & [= <- <-] & Hx). apply filter_In in Hx as [(r & <- & Hr)%in_map_iff _].
  exfalso. apply H, in_map_iff. by exists r.
Qed.

(** Looking a key up in the slice of a table with a given row. *)
Lemma slice_get_split key l1 r l2 :
  ~ List.In (the_key def (coerce r)) (map (fun x => the_key def (coerce x)) (l1 ++ l2)) ->
  map_get key (slice def coerce (l1 ++ r :: l2)) =
  if matchesShape def (coerce r) && String.eqb key (the_key def (coerce r)) then Some (coerce r)
  else map_get key (slice def coerce (l1 ++ l2)).
Proof.
  intros H. rewrite map_app, in_app_iff in H. rewrite !slice_app, !map_get_app.
  change (r :: l2) with ([r] ++ l2). rewrite slice_app, map_get_app.
  destruct (String.eqb_spec key (the_key def (coerce r))) as [->|N].
  - rewrite !(slice_get_absent (the_key def (coerce r))) by tauto.
    unfold slice. simpl. destruct (matchesShape def (coerce r)); simpl; [|done].
    unfold map_get. simpl. by rewrite String.eqb_refl.
  - rewrite andb_false_r. replace (map_get key (slice def coerce [r])) with (@None Row); [done|].
    symmetry. apply slice_get_absent. simpl. intros [E|[]]. by apply N.
Qed.

Lemma key_of_set row : is_set (get_cell row (s_key def)) = true -> key_of def row = Ok (the_key def row).
Proof. unfold key_of, rowKey, the_key. by destruct (get_cell row (s_key def)). Qed.

(** The rest of a keyed table does not hold a row's key. *)
Lemma keyed_split l1 r l2 :
  keyed_table def coerce (l1 ++ r :: l2) ->
  ~ List.In (the_key def (coerce r)) (map (fun x => the_key def (coerce x)) (l1 ++ l2)) /\
  is_set (get_cell (coerce r) (s_key def)) = true.
Proof.
  intros [Hn Hs]. split; [|apply Hs, in_app_iff; simpl; tauto].
  rewrite map_app in *. simpl in Hn. by apply List.NoDup_remove_2 in Hn.
Qed.
End Slice.

(** ** What the coercer reads *)

Section Coerce.
Context (def : ShapeDefinition) (table : Table).

Definition sql (key : string) : string := spec_name table key.

(** The coercer reads nothing but the projected columns. *)
Lemma coerceImage_ext image image' :
  (forall c, List.In c (s_columns def) -> get_cell image (sql c) = get_cell image' (sql c)) ->
  coerceImage def table image = coerceImage def table image'.
Proof.
  intros H. unfold coerceImage. f_equal. unfold project. generalize (@nil (string * cell)) as acc.
  induction (s_columns def) as [|c cs IH]; intros acc; [done|]. cbn [map fold_left p_key p_kind p_sqlName].
  change (spec_name table c) with (sql c). rewrite H by (by left). apply IH. intros d Hd. apply H. by right.
Qed.

Lemma coerce_loop_get image cs acc c :
  get_cell (fold_left (fun row p => map_set (p_key p) (coerceCell (p_kind p) (get_cell image (p_sqlName p))) row)
              (map (fun key => mkProjection key (spec_name table key) (spec_kind table key)) cs) acc) c =
  if in_dec String.string_dec c cs then coerceCell (spec_kind table c) (get_cell image (sql c)) else get_cell acc c.
Proof.
  revert acc. induction cs as [|d cs IH]; intros acc; [done|]. cbn [map fold_left p_key p_kind p_sqlName].
  rewrite IH. simpl. destruct (in_dec _ c cs) as [I|I], (String.string_dec d c) as [->|N]; try done;
    unfold get_cell at 1; rewrite map_get_set.
  - by rewrite String.eqb_refl.
  - destruct (String.eqb_spec c d); [congruence|]. done.
Qed.

Lemma coerceImage_get image c :
  List.In c (s_columns def) ->
  get_cell (coerceImage def table image) c = normalize_cell (coerceCell (spec_kind table c) (get_cell image (sql c))).
Proof.
  intros H. unfold coerceImage, project. rewrite normalizeWire_get, coerce_loop_get. by destruct (in_dec _ _ _).
Qed.

(** Rows that agree on the filter columns are in the shape together. *)
Lemma matches_ext image image' :
  (forall f, List.In f (s_where def) -> List.In (f_column f) (s_columns def)) ->
  (forall f, List.In f (s_where def) -> get_cell image (sql (f_column f)) = get_cell image' (sql (f_column f))) ->
  matchesShape def (coerceImage def table image) = matchesShape def (coerceImage def table image').
Proof.
  intros Hc H. unfold matchesShape. apply eq_true_iff_eq. rewrite !forallb_forall.
  split; intros A f Hf; specialize (A f Hf); rewrite coerceImage_get in * by auto; [rewrite <- H|rewrite H]; auto.
Qed.

Lemma the_key_ext image image' :
  List.In (s_key def) (s_columns def) -> get_cell image (sql (s_key def)) = get_cell image' (sql (s_key def)) ->
  the_key def (coerceImage def table image) = the_key def (coerceImage def table image') /\
  is_set (get_cell (coerceImage def table image) (s_key def)) = is_set (get_cell (coerceImage def table image') (s_key def)).
Proof. intros Hk H. unfold the_key. rewrite !coerceImage_get by done. by rewrite H. Qed.

Lemma merge_get next prev column :
  List.NoDup (map fst next) ->
  get_cell (mergeNewOverOld next prev) column =
  match get_cell next column with CUndefined => get_cell prev column | v => v end.
Proof.
  unfold mergeNewOverOld. revert prev. induction next as [|[k v] next IH]; intros prev Hn; [done|].
  simpl in Hn. inversion Hn as [|? ? Hk Hd]; subst. cbn [fold_left fst snd]. rewrite IH by done.
  unfold get_cell at 3. unfold map_get at 1. cbn [List.find fst]. destruct (String.eqb_spec k column) as [->|N].
  - rewrite (get_cell_absent next) by done. simpl.
    destruct v; unfold get_cell; rewrite ?map_get_set, ?String.eqb_refl; done.
  - fold (map_get column next). fold (get_cell next column).
    destruct (get_cell next column); try done.
    destruct v; unfold get_cell; rewrite ?map_get_set; destruct (String.eqb_spec column k); congruence.
Qed.
End Coerce.

(** ** One step *)

Section Step.
Context (def : ShapeDefinition) (coerce : RowImage -> Row).

(** What a classification must do for a table that went from [rows] to [rows']: nothing,
    or a change that carries the slice over, or a refusal of one of two kinds. *)
Definition carries (needs : bool) (op : TableOp) (rows rows' : list Row)
    (result : outcome LiveError (option ShapeChange)) : Prop :=
  match result with
  | Ok None => rows_same (slice def coerce rows') (slice def coerce rows)
  | Ok (Some c) => rows_same (slice def coerce rows') (applyChange (slice def coerce rows) c)
  | Throw e =>
      (e = LIVE_SERVER_OLD_IMAGE_INCOMPLETE /\ needs = true) \/
      (e = LIVE_SERVER_PRIMARY_KEY_CHANGED /\
       exists old new, op = OpUpdate old new /\ the_key def (coerce old) <> the_key def (coerce new))
  end.

(** A row that stands for a stored one: in the shape together, under one key. *)
Definition stands_for (row : Row) (r : Row) : Prop :=
  matchesShape def row = matchesShape def (coerce r) /\
  the_key def row = the_key def (coerce r) /\
  is_set (get_cell row (s_key def)) = is_set (get_cell (coerce r) (s_key def)).

Lemma stands_for_refl r : stands_for (coerce r) r.
Proof. by split. Qed.

Lemma stands_key row r :
  stands_for row r -> is_set (get_cell (coerce r) (s_key def)) = true -> key_of def row = Ok (the_key def (coerce r)).
Proof. intros (_ & E & S) H. rewrite <- E. apply key_of_set. by rewrite S. Qed.

Lemma same_refl (a : option Row) : option_relation row_same (fun _ => False) (fun _ => False) a a.
Proof. by destruct a. Qed.

#[local] Hint Resolve same_refl : lesto.

Lemma insert_carries needs new rows :
  keyed_table def coerce (rows ++ [new]) ->
  carries needs (OpInsert new) rows (rows ++ [new])
    (if matchesShape def (coerce new) then let! key := key_of def (coerce new) in Ok (Some (SInsert key (coerce new))) else Ok None).
Proof.
  intros H. destruct (keyed_split _ _ _ _ _ H) as [Hk Hs].
  destruct (matchesShape def (coerce new)) eqn:M; [rewrite key_of_set by done|]; cbn [outcome_bind carries]; intros key;
    rewrite ?applyChange_get, slice_get_split, M by done; simpl; rewrite app_nil_r; [|apply same_refl].
  destruct (String.eqb key _); apply same_refl.
Qed.

Lemma delete_carries needs old row l1 l2 :
  keyed_table def coerce (l1 ++ old :: l2) -> stands_for row old ->
  carries needs (OpDelete old) (l1 ++ old :: l2) (l1 ++ l2)
    (if matchesShape def row then let! key := key_of def row in Ok (Some (SDelete key)) else Ok None).
Proof.
  intros H S. destruct (keyed_split _ _ _ _ _ H) as [Hk Hs]. pose proof (proj1 S) as M.
  rewrite (stands_key _ _ S Hs). destruct (matchesShape def row); cbn [outcome_bind carries]; intros key;
    rewrite ?applyChange_get, slice_get_split, <- M by done; simpl; [|apply same_refl].
  destruct (String.eqb_spec key (the_key def (coerce old))) as [->|N]; [|apply same_refl].
  by rewrite slice_get_absent.
Qed.

Lemma update_carries needs old new oldRow l1 l2 :
  keyed_table def coerce (l1 ++ old :: l2) -> keyed_table def coerce (l1 ++ new :: l2) -> stands_for oldRow old ->
  carries needs (OpUpdate old new) (l1 ++ old :: l2) (l1 ++ new :: l2)
    (if matchesShape def (coerce new) then
       let! newKey := key_of def (coerce new) in
       if matchesShape def oldRow then
         let! oldKey := key_of def oldRow in
         if negb (String.eqb oldKey newKey) then Throw LIVE_SERVER_PRIMARY_KEY_CHANGED
         else Ok (Some (SUpdate newKey (coerce new)))
       else Ok (Some (SInsert newKey (coerce new)))
     else if matchesShape def oldRow then let! oldKey := key_of def oldRow in Ok (Some (SDelete oldKey))
     else Ok None).
Proof.
  intros H H' S. destruct (keyed_split _ _ _ _ _ H) as [Hk Hs]. destruct (keyed_split _ _ _ _ _ H') as [Hk' Hs'].
  pose proof (proj1 S) as M. rewrite (stands_key _ _ S Hs), (key_of_set _ _ Hs').
  destruct (matchesShape def (coerce new)) eqn:M', (matchesShape def oldRow); cbn [outcome_bind].
  - destruct (String.eqb_spec (the_key def (coerce old)) (the_key def (coerce new))) as [E|N]; cbn [negb].
    + intros key. rewrite applyChange_get, !slice_get_split, <- M, M' by done. simpl. rewrite E.
      destruct (String.eqb key _); apply same_refl.
    + right. split; [done|]. by exists old, new.
  - intros key. rewrite applyChange_get, !slice_get_split, <- M, M' by done. simpl.
    destruct (String.eqb key _); apply same_refl.
  - intros key. rewrite applyChange_get, !slice_get_split, <- M, M' by done. simpl.
    destruct (String.eqb_spec key (the_key def (coerce old))) as [->|N]; [|apply same_refl].
    by rewrite slice_get_absent.
  - intros key. rewrite !slice_get_split, <- M, M' by done. simpl. apply same_refl.
Qed.
End Step.

(** ** The classifier against the table *)

Section Refine.
Context (def : ShapeDefinition) (table : Table) (pk : string).
Hypothesis key_projected : List.In (s_key def) (s_columns def).
Hypothesis where_projected : forall f, List.In f (s_where def) -> List.In (f_column f) (s_columns def).
Hypothesis primary : key_is_primary def table = true -> sql table (s_key def) = pk.

Abbreviation coerce := (coerceImage def table).
Abbreviation sqlc := (sql table).
Abbreviation needs := (predicateNeedsOldImage def (key_is_primary def table)).

(** The columns the classification of an old row reads. *)
Definition decisive (c : string) : Prop := c = s_key def \/ exists f, List.In f (s_where def) /\ f_column f = c.

Lemma agree_stands image r :
  (forall c, decisive c -> get_cell image (sqlc c) = get_cell r (sqlc c)) -> stands_for def coerce (coerce image) r.
Proof.
  intros H. split; [|apply the_key_ext; [done|apply H; by left]].
  apply matches_ext; [done|]. intros f Hf. apply H. right. by exists f.
Qed.

Lemma required_In c : needs = true -> decisive c -> List.In (sqlc c) (requiredOldImageColumns def table).
Proof.
  intros Hn Hc. unfold requiredOldImageColumns. rewrite Hn. cbn [negb]. apply in_map_iff. exists c. split; [done|].
  assert (forall l acc, List.In c l \/ List.In c (map fst acc) ->
            List.In c (map fst (fold_left (fun m key => map_set key tt m) l acc))) as G.
  { induction l as [|d l IH]; intros acc [E|E]; simpl; try done; apply IH; rewrite map_set_In; firstorder. }
  apply G. left. destruct Hc as [->|(f & Hf & <-)]; [by left|]. right. by apply in_map.
Qed.

(** A shape that does not need the old image reads the primary key only. *)
Lemma key_only c : needs = false -> decisive c -> sqlc c = pk.
Proof.
  unfold predicateNeedsOldImage. intros H. bools.
  rewrite existsb_false in H0. intros [->|(f & Hf & <-)]; [by apply primary|].
  specialize (H0 f Hf). bools. rewrite H0. by apply primary.
Qed.

(** The value check of the runtime guard, spelled out. *)
Lemma complete_transmits kind image :
  assertOldImageComplete kind (requiredOldImageColumns def table) image = Ok tt ->
  kind = KindFull /\ forall c, needs = true -> decisive c -> get_cell image (sqlc c) <> CUndefined.
Proof.
  unfold assertOldImageComplete. case_bool_decide as Hk; [|done]. cbn [negb].
  destruct (existsb _ _) eqn:E; [done|]. rewrite existsb_false in E. intros _. split; [done|].
  intros c Hn Hc. specialize (E _ (required_In c Hn Hc)). by apply bool_decide_eq_false in E.
Qed.

Lemma complete_cases kind image :
  assertOldImageComplete kind (requiredOldImageColumns def table) image = Ok tt \/
  assertOldImageComplete kind (requiredOldImageColumns def table) image = Throw LIVE_SERVER_OLD_IMAGE_INCOMPLETE.
Proof. unfold assertOldImageComplete. destruct (negb _); [by right|]. destruct (existsb _ _); [by right|by left]. Qed.

(** A full old image that passed the guard agrees with the stored row where it matters. *)
Lemma full_agrees image old :
  (needs = true -> assertOldImageComplete KindFull (requiredOldImageColumns def table) image = Ok tt) ->
  (forall column, old_cell old image column) -> get_cell image pk = get_cell old pk ->
  forall c, decisive c -> get_cell image (sqlc c) = get_cell old (sqlc c).
Proof.
  intros Hg Ho Hpk c Hc. destruct needs eqn:En.
  - destruct (complete_transmits _ _ (Hg eq_refl)) as [_ T]. destruct (Ho (sqlc c)) as [|U]; [done|]. by destruct (T c En Hc).
  - by rewrite (key_only c En Hc).
Qed.

Lemma key_tuple_agrees image old :
  needs = false -> key_tuple pk old image -> forall c, decisive c -> get_cell image (sqlc c) = get_cell old (sqlc c).
Proof. intros Hn [Hpk _] c Hc. by rewrite (key_only c Hn Hc). Qed.

(** A transmitted key makes the old image one the code looks at. *)
Lemma transmitted_hasOldImage image r :
  get_cell image (sqlc (s_key def)) = get_cell r (sqlc (s_key def)) ->
  get_cell r (sqlc (s_key def)) <> CUndefined -> hasOldImage image = true.
Proof. intros E U. destruct image as [|kv image]; [|done]. by rewrite <- E in U. Qed.

(** The values the table stores: every projected column of every row has one. *)
Definition stored (r : Row) : Prop := forall c, List.In c (s_columns def) -> get_cell r (sqlc c) <> CUndefined.

(** No projected column of the new tuple is an unchanged out-of-line value: the caveat the
    coercer documents for tables that are not FULL. *)
Definition projected_sent (new : Row) (newImage : RowImage) : Prop :=
  forall c, List.In c (s_columns def) -> get_cell newImage (sqlc c) = get_cell new (sqlc c).

Lemma merged_new old new newImage oldImage :
  stored new -> List.NoDup (map fst newImage) -> (forall column, new_cell old new newImage column) ->
  (projected_sent new newImage \/
   forall column, get_cell newImage column = CUndefined -> get_cell oldImage column = get_cell old column) ->
  coerce (mergeNewOverOld newImage oldImage) = coerce new.
Proof.
  intros Hs Hnd Hn Ht. apply coerceImage_ext. intros c Hc. rewrite merge_get by done.
  specialize (Hs c Hc). destruct Ht as [Ht|Ht].
  - specialize (Ht c Hc). destruct (get_cell newImage (sqlc c)); congruence.
  - destruct (Hn (sqlc c)) as [E|[E E']].
    + destruct (get_cell newImage (sqlc c)); congruence.
    + rewrite E, (Ht _ E). done.
Qed.

(** The runtime guard, for a change with an old image. *)
Lemma guard_cases (kind : OldImageKind) (image : RowImage) (op : TableOp) (rows rows' : list Row)
    (m : outcome LiveError (option ShapeChange)) :
  ((needs = true -> assertOldImageComplete kind (requiredOldImageColumns def table) image = Ok tt) ->
   carries def coerce needs op rows rows' m) ->
  carries def coerce needs op rows rows'
    (let! _ := (if needs then assertOldImageComplete kind (requiredOldImageColumns def table) image else Ok tt) in m).
Proof.
  intros H. destruct needs; [|by apply H]. destruct (complete_cases kind image) as [E|E]; rewrite E.
  - cbn [outcome_bind]. by apply H.
  - cbn [outcome_bind carries]. by left.
Qed.

(** An old image of another kind than FULL never passes where the old image is needed. *)
Lemma not_full_passes kind image :
  kind <> KindFull ->
  (needs = true -> assertOldImageComplete kind (requiredOldImageColumns def table) image = Ok tt) -> needs = false.
Proof. intros Hk H. destruct needs; [|done]. by destruct (complete_transmits _ _ (H eq_refl)). Qed.

Lemma stored_key r : stored r -> get_cell r (sqlc (s_key def)) <> CUndefined.
Proof. intros H. by apply H. Qed.

Lemma insert_refines new newImage rows :
  keyed_table def coerce (rows ++ [new]) -> (forall column, get_cell newImage column = get_cell new column) ->
  carries def coerce needs (OpInsert new) rows (rows ++ [new]) (classifyChange def (RInsert newImage) coerce).
Proof.
  intros H E. unfold classifyChange. rewrite (coerceImage_ext def table newImage new) by auto. by apply insert_carries.
Qed.

Lemma update_refines full old new newImage oldImage kind l1 l2 :
  emits full pk (OpUpdate old new) (RUpdate newImage oldImage kind) ->
  keyed_table def coerce (l1 ++ old :: l2) -> keyed_table def coerce (l1 ++ new :: l2) -> stored old -> stored new ->
  (full = false -> projected_sent new newImage) ->
  (needs = true -> assertOldImageComplete kind (requiredOldImageColumns def table) oldImage = Ok tt) ->
  carries def coerce needs (OpUpdate old new) (l1 ++ old :: l2) (l1 ++ new :: l2)
    (classifyChange def (RUpdate newImage oldImage kind) coerce).
Proof.
  intros He H H' So Sn Ht Hg. unfold classifyChange.
  assert (exists oldRow, stands_for def coerce oldRow old /\
            (if hasOldImage oldImage then coerce oldImage else coerce (mergeNewOverOld newImage oldImage)) = oldRow /\
            coerce (mergeNewOverOld newImage oldImage) = coerce new) as (oldRow & S & E & En).
  2:{ rewrite E, En. by apply update_carries. }
  inversion He; subst.
  - pose proof (full_agrees oldImage old Hg ltac:(eassumption) ltac:(eassumption)) as A.
    exists (coerce oldImage). rewrite (transmitted_hasOldImage oldImage old (A _ ltac:(by left)) (stored_key _ So)).
    split; [by apply agree_stands|]. split; [done|]. eapply merged_new; eauto.
  - pose proof (key_tuple_agrees oldImage old (not_full_passes KindKey oldImage ltac:(discriminate) Hg) ltac:(eassumption)) as A.
    exists (coerce oldImage). rewrite (transmitted_hasOldImage oldImage old (A _ ltac:(by left)) (stored_key _ So)).
    split; [by apply agree_stands|]. split; [done|]. eapply merged_new; eauto.
  - assert (coerce (mergeNewOverOld newImage []) = coerce new) as En by (eapply merged_new; eauto).
    exists (coerce new). split; [|by split]. apply agree_stands. intros c Hc.
    rewrite (key_only c (not_full_passes KindNone [] ltac:(discriminate) Hg) Hc). done.
Qed.

Lemma delete_refines full old oldImage kind l1 l2 :
  emits full pk (OpDelete old) (RDelete oldImage kind) -> keyed_table def coerce (l1 ++ old :: l2) ->
  (needs = true -> assertOldImageComplete kind (requiredOldImageColumns def table) oldImage = Ok tt) ->
  carries def coerce needs (OpDelete old) (l1 ++ old :: l2) (l1 ++ l2) (classifyChange def (RDelete oldImage kind) coerce).
Proof.
  intros He H Hg. unfold classifyChange. apply delete_carries; [done|]. apply agree_stands. inversion He; subst.
  - by apply full_agrees.
  - apply key_tuple_agrees; [|done]. by apply (not_full_passes KindKey oldImage ltac:(discriminate) Hg).
Qed.
End Refine.

Lemma classify_carries (def : ShapeDefinition) (table : Table) (pk : string) (registered full : bool)
    (classify : ReplicationChange -> outcome LiveError (option ShapeChange))
    (op : TableOp) (rows rows' : list Row) (change : ReplicationChange) :
  List.In (s_key def) (s_columns def) ->
  (forall f, List.In f (s_where def) -> List.In (f_column f) (s_columns def)) ->
  (key_is_primary def table = true -> spec_name table (s_key def) = pk) ->
  buildClassifier def table registered = Ok classify ->
  applies op rows rows' -> emits full pk op (ch_op change) ->
  keyed_table def (coerceImage def table) rows -> keyed_table def (coerceImage def table) rows' ->
  (forall r, List.In r rows \/ List.In r rows' -> stored def table r) ->
  (forall old new newImage oldImage kind, full = false -> op = OpUpdate old new ->
     ch_op change = RUpdate newImage oldImage kind -> projected_sent def table new newImage) ->
  carries def (coerceImage def table) (predicateNeedsOldImage def (key_is_primary def table)) op rows rows' (classify change).
Proof.
  intros Hk Hw Hp Hb Ha He K K' Hs Ht. unfold buildClassifier, prepareShapeClassifier in Hb.
  destruct (assertReplicaIdentity _ _ _) as [[]|]; [|done]. injection Hb as <-. unfold guardedClassify.
  destruct Ha as [new rows|old new l1 l2|old l1 l2].
  - inversion He; subst. cbn [outcome_bind]. by apply insert_refines.
  - destruct (ch_op change) as [newImage|newImage oldImage kind|oldImage kind] eqn:Ec; try (by inversion He).
    apply guard_cases. intros Hg. eapply update_refines; eauto; apply Hs; rewrite !in_app_iff; simpl; tauto.
  - destruct (ch_op change) as [newImage|newImage oldImage kind|oldImage kind] eqn:Ec; try (by inversion He).
    apply guard_cases. intros Hg. by eapply delete_refines.
Qed.


(** ** Both change sources make the same rows *)

Lemma get_cell_cons k v row c : get_cell ((k, v) :: row) c = if String.eqb k c then v else get_cell row c.
Proof. unfold get_cell, map_get. cbn [List.find fst]. by destruct (String.eqb k c). Qed.

Section Parity.
Context (table : Table).
Hypothesis names_distinct : List.NoDup (map (fun kv => col_name kv.2) (byKey table)).
Hypothesis keys_distinct : List.NoDup (map fst (byKey table)).

Lemma byColumn_get key spec : List.In (key, spec) (byKey table) -> map_get (col_name spec) (byColumn table) = Some key.
Proof.
  unfold byColumn. clear keys_distinct.
  assert (forall l acc, List.NoDup (map (fun kv : string * ColumnSpec => col_name kv.2) l) ->
            List.In (key, spec) l \/ ((forall kv, List.In kv l -> col_name kv.2 <> col_name spec) /\ map_get (col_name spec) acc = Some key) ->
            map_get (col_name spec) (fold_left (fun m kv => map_set (col_name kv.2) kv.1 m) l acc) = Some key) as G.
  { induction l as [|[k s] l IH]; intros acc Hn [H|[H Ha]]; simpl; [done|done| |];
      simpl in Hn; inversion Hn as [|? ? Hk Hd]; subst; apply IH; try done.
    - destruct H as [[= -> ->]|H]; [right|by left]. split.
      + intros kv Hin E. apply Hk. rewrite <- E. by apply (in_map (fun kv => col_name kv.2)).
      + by rewrite map_get_set, String.eqb_refl.
    - right. split; [intros kv Hkv; apply H; by right|]. rewrite map_get_set.
      destruct (String.eqb_spec (col_name spec) (col_name s)) as [E|]; [|done].
      by destruct (H (k, s) ltac:(by left)). }
  intros H. apply G; [done|by left].
Qed.

Lemma hydrate_get raw key spec :
  List.In (key, spec) (byKey table) -> List.NoDup (map fst raw) ->
  (forall k, List.In k (map fst raw) -> exists key' spec', List.In (key', spec') (byKey table) /\ col_name spec' = k) ->
  List.In (col_name spec) (map fst raw) ->
  get_cell (hydrate table raw) key = coerceCell (Some (col_kind spec)) (get_cell raw (col_name spec)).
Proof.
  intros Hin. unfold hydrate.
  set (step := fun out kv => map_set (default kv.1 (map_get kv.1 (byColumn table)))
                 (coerceCell (option_map col_kind (map_get (default kv.1 (map_get kv.1 (byColumn table))) (byKey table))) kv.2) out).
  change (fold_left _ raw []) with (fold_left step raw []).
  assert (forall l acc, (forall k, List.In k (map fst l) -> exists key' spec', List.In (key', spec') (byKey table) /\ col_name spec' = k) ->
            List.NoDup (map fst l) ->
            get_cell (fold_left step l acc) key =
            if in_dec String.string_dec (col_name spec) (map fst l)
            then coerceCell (Some (col_kind spec)) (get_cell l (col_name spec)) else get_cell acc key) as G.
  { induction l as [|[k v] l IH]; intros acc Hd Hn; [done|]. cbn [fold_left]. simpl in Hn. inversion Hn as [|? ? Hk Hn']; subst.
    rewrite IH by (done || intros k' Hk'; apply Hd; by right).
    destruct (Hd k ltac:(by left)) as (key' & spec' & Hin' & Ek).
    unfold step. cbn [fst snd]. rewrite <- Ek, (byColumn_get _ _ Hin').
    change (default (col_name spec') (Some key')) with key'.
    rewrite (map_get_In _ _ _ keys_distinct Hin'). cbn [option_map].
    rewrite get_cell_cons. cbn [map fst].
    destruct (in_dec _ (col_name spec) (map fst l)) as [I|I].
    - destruct (String.eqb_spec (col_name spec') (col_name spec)) as [E|N]; [by rewrite <- Ek, E in Hk|].
      destruct (in_dec _ _ _) as [|N']; [done|]. destruct N'. by right.
    - unfold get_cell at 1. rewrite map_get_set. destruct (String.eqb_spec key key') as [->|N].
      + assert (spec' = spec) as -> by (pose proof (NoDup_map_inj_in fst _ _ _ keys_distinct Hin' Hin eq_refl); congruence).
        rewrite String.eqb_refl. destruct (in_dec _ _ _) as [|N']; [done|]. destruct N'. by left.
      + destruct (String.eqb_spec (col_name spec') (col_name spec)) as [E|N2].
        { pose proof (NoDup_map_inj_in (fun kv => col_name kv.2) _ _ _ names_distinct Hin' Hin E) as [= -> ->]. done. }
        destruct (in_dec _ _ _) as [[|]|]; [congruence|by destruct I|done]. }
  intros Hn Hd Hc. rewrite G by done. by destruct (in_dec _ _ _).
Qed.
End Parity.

(** A value of the read path (the driver's) and one of the replication stream (text) that
    stand for the same stored value. *)
Definition same_stored (kind : ColumnKind) (driver streamed : cell) : Prop :=
  (driver = CNull /\ streamed = CNull) \/
  (driver <> CNull /\ streamed <> CNull /\
   match kind with Text => driver = streamed | _ => to_number driver = to_number streamed end).

Lemma same_stored_coerce kind driver streamed :
  same_stored kind driver streamed -> coerceCell (Some kind) driver = coerceCell (Some kind) streamed.
Proof.
  intros [[-> ->]|(H1 & H2 & H)]; [done|]. unfold coerceCell.
  destruct driver eqn:Ed, streamed eqn:Es; try done; destruct kind; try (by rewrite H); congruence.
Qed.

Lemma hydrate_coerce (def : ShapeDefinition) (table : Table) (raw : Row) (image : RowImage) :
  List.NoDup (map (fun kv => col_name kv.2) (byKey table)) -> List.NoDup (map fst (byKey table)) ->
  List.NoDup (map fst raw) ->
  (forall name, List.In name (map fst raw) <-> exists key spec, List.In (key, spec) (byKey table) /\ col_name spec = name) ->
  (forall c, List.In c (s_columns def) ->
     exists spec, List.In (c, spec) (byKey table) /\
       same_stored (col_kind spec) (get_cell raw (col_name spec)) (get_cell image (col_name spec))) ->
  normalizeWire (projectRow (hydrate table raw) (s_columns def)) = coerceImage def table image.
Proof.
  intros Hn Hk Hr Hc Hs. unfold coerceImage. f_equal. unfold projectRow, project.
  assert (forall cs acc, (forall c, List.In c cs -> List.In c (s_columns def)) ->
            fold_left (fun out column => map_set column (get_cell (hydrate table raw) column) out) cs acc =
            fold_left (fun row p => map_set (p_key p) (coerceCell (p_kind p) (get_cell image (p_sqlName p))) row)
              (map (fun key => mkProjection key (spec_name table key) (spec_kind table key)) cs) acc) as G; [|by apply G].
  induction cs as [|c cs IH]; intros acc H; [done|]. cbn [map fold_left p_key p_kind p_sqlName].
  destruct (Hs c (H c ltac:(by left))) as (spec & Hin & Hsame).
  rewrite (hydrate_get table Hn Hk raw c spec Hin Hr) by (intros; apply Hc; eauto).
  unfold spec_name, spec_kind. rewrite (map_get_In _ _ _ Hk Hin). cbn [option_map].
  rewrite (same_stored_coerce _ _ _ Hsame). apply IH. intros d Hd. apply H. by right.
Qed.

(** Fact: wire parity: the row the poll reads (the driver's row, hydrated, projected, folded
    to wire form) and the row the replication tail makes of the same stored row (its text
    image, coerced) are identical, whatever types the driver hands numbers back in. *)
Theorem wire_parity (def : ShapeDefinition) (table : Table) (raw : Row) (image : RowImage) :
  List.NoDup (map (fun kv => col_name kv.2) (byKey table)) -> List.NoDup (map fst (byKey table)) ->
  List.NoDup (map fst raw) ->
  (forall name, List.In name (map fst raw) <-> exists key spec, List.In (key, spec) (byKey table) /\ col_name spec = name) ->
  (forall c, List.In c (s_columns def) ->
     exists spec, List.In (c, spec) (byKey table) /\
       same_stored (col_kind spec) (get_cell raw (col_name spec)) (get_cell image (col_name spec))) ->
  normalizeWire (projectRow (hydrate table raw) (s_columns def)) = coerceImage def table image.
Proof. apply hydrate_coerce. Qed.

(** ** A room that a row leaves *)

Definition messages : Table :=
  mkTable "messages" [("id", mkColumn "id" Integer false true); ("roomId", mkColumn "room_id" Integer false false);
                      ("body", mkColumn "body" Text false false)]%string.

Definition room42 : ShapeDefinition :=
  mkShape "messages" "id" ["id"; "roomId"; "body"]%string [mkFilter "roomId" OpEq (FNum (int 42))] None.

Definition message (id room body : string) : Row :=
  [("id", CStr id); ("room_id", CStr room); ("body", CStr body)]%string.

Definition moved_out : ReplicationChange :=
  mkChange (RUpdate (message "1" "7" "hi") (message "1" "42" "hi") KindFull) "messages" "0/1A" "sys" (int 1).

Definition room42_classify : ReplicationChange -> outcome LiveError (option ShapeChange) :=
  guardedClassify room42 true (coerceImage room42 messages) (requiredOldImageColumns room42 messages).

Example moved_out_deletes : room42_classify moved_out = Ok (Some (SDelete "1")).
Proof. vm_compute. reflexivity. Qed.

(** Every message of every room: a shape no old image is needed for. *)
Definition every_room : ShapeDefinition := mkShape "messages" "id" ["id"; "roomId"; "body"]%string [] None.

(** Fact: a message moves to room 7 of a table that is not FULL, and its long body, stored out
    of line and left alone, is not sent: the change the shape's clients get has no body. *)
Theorem unsent_value_is_dropped (classify : ReplicationChange -> outcome LiveError (option ShapeChange)) :
  buildClassifier every_room messages false = Ok classify ->
  classify (mkChange (RUpdate [("id", CStr "1"); ("room_id", CStr "7"); ("body", CUndefined)]%string [] KindNone) "messages" "0/1A" "sys" (int 1)) =
  Ok (Some (SUpdate "1" [("id", CNum (int 1)); ("roomId", CNum (int 7)); ("body", CUndefined)]%string)).
Proof. intros [= <-]. vm_compute. reflexivity. Qed.

Lemma message_stored id room body : stored room42 messages (message id room body).
Proof. intros c [<-|[<-|[<-|[]]]]; discriminate. Qed.


Lemma wire_parity_witness :
  normalizeWire (projectRow (hydrate messages [("id", CNum (int 1)); ("body", CStr "hi"); ("room_id", CStr "42")]%string)
                   (s_columns room42)) =
  coerceImage room42 messages (message "1" "42" "hi").
Proof.
  apply wire_parity.
  - by apply NoDup_ListNoDup, (bool_decide_unpack _).
  - by apply NoDup_ListNoDup, (bool_decide_unpack _).
  - by apply NoDup_ListNoDup, (bool_decide_unpack _).
  - intros name. split.
    + intros [<-|[<-|[<-|[]]]];
        [exists "id"%string, (mkColumn "id" Integer false true)|exists "body"%string, (mkColumn "body" Text false false)
        |exists "roomId"%string, (mkColumn "room_id" Integer false false)]; (split; [simpl; tauto|reflexivity]).
    + intros (key & spec & [[= <- <-]|[[= <- <-]|[[= <- <-]|[]]]] & <-); simpl; tauto.
  - intros c [<-|[<-|[<-|[]]]]; eexists;
      (split; [first [left; reflexivity|right; left; reflexivity|right; right; left; reflexivity]|]);
      right; (split; [discriminate|]); (split; [discriminate|]); vm_compute; reflexivity.
Defined.
