(* ===== verification/LiveResume.v ===== *)
(** * Live queries: resume cursors and the replay ring

    [packages/live-server/src/resume.ts]: the cursor a client presents when it reconnects,
    the order of log positions, and the bounded ring of recent changes it is replayed from. *)
From stdpp Require Import sorting.
From S2P Require Import Prelude JsString JsMap JsNumber LiveShape LiveDiff.

#[local] Open Scope string_scope.
#[local] Open Scope Z_scope.

(** ** Log positions *)

Definition is_hex (c : ascii) : bool :=
  match digit_of c with Some d => d <? 16 | None => false end.

Definition nonempty (s : string) : bool := negb (String.eqb s EmptyString).

(** The regular expression for hexadecimal digits, a slash, hexadecimal digits. *)
Definition isValidLsn (lsn : string) : bool :=
  match cut "/" lsn with
  | Some (high, low) => nonempty high && all_chars is_hex high && (nonempty low && all_chars is_hex low)
  | None => false
  end.

(** [BigInt] of a hexadecimal text. *)
Definition hex_value (s : string) : Z := (take_digits 16 0 0 s).1.1.

(** [lsnToBigInt]. *)
Definition lsnToBigInt (lsn : string) : Z :=
  match cut "/" lsn with
  | Some (high, low) => Z.shiftl (hex_value high) 32 + hex_value low
  | None => 0
  end.

Definition compareLsn (a b : string) : Z :=
  let av := lsnToBigInt a in
  let bv := lsnToBigInt b in
  if av <? bv then -1 else if bv <? av then 1 else 0.

(** ** Cursors *)

Record SystemIdentity : Type := mkIdentity { systemId : string; timelineId : number }.

Record ResumeCursor : Type := mkCursor { rc_identity : SystemIdentity; rc_lsn : string }.

(** The test [a.systemId === b.systemId && a.timelineId === b.timelineId]. *)
Definition same_identity (a b : SystemIdentity) : bool :=
  String.eqb (systemId a) (systemId b) && num_eq (timelineId a) (timelineId b).

Definition RESUME_VERSION : string := "v1".
Definition RESYNC_CURSOR : string := "v0:resync".

Definition encodeResumeCursor (cursor : ResumeCursor) : string :=
  RESUME_VERSION ++ ":" ++ systemId (rc_identity cursor) ++ ":" ++
  number_to_string (timelineId (rc_identity cursor)) ++ ":" ++ rc_lsn cursor.

Definition is_decimal_digit (c : ascii) : bool :=
  match digit_of c with Some d => d <? 10 | None => false end.

(** [TIMELINE_PATTERN]. *)
Definition is_timeline (s : string) : bool := nonempty s && all_chars is_decimal_digit s.

Definition decodeResumeCursor (token : option string) : option ResumeCursor :=
  match token with
  | None => None
  | Some token =>
      match split ":" token with
      | [version; system; timeline; lsn] =>
          if negb (String.eqb version RESUME_VERSION) then None
          else if String.eqb system EmptyString then None
          else if negb (is_timeline timeline) then None
          else if negb (isValidLsn lsn) then None
          else Some (mkCursor (mkIdentity system (Number_of_string timeline)) lsn)
      | _ => None
      end
  end.

(** ** The ring *)

Record RingEntry : Type := mkEntry { e_lsn : string; e_change : ShapeChange; e_at : Z }.

Record ReplayItem : Type := mkItem { i_lsn : string; i_change : ShapeChange }.

Inductive RingReconcile : Type :=
| Resync
| Replay (changes : list ReplayItem).

Record ShapeReplayRing : Type := mkRing {
  ring_maxEntries : Z;
  ring_maxAgeMs : Z;
  ring_identity : option SystemIdentity;
  ring_entries : list RingEntry;
  ring_maxEvictedLsn : option string
}.

Definition new_ring (maxEntries maxAgeMs : Z) : ShapeReplayRing := mkRing maxEntries maxAgeMs None [] None.

Definition latestLsn (ring : ShapeReplayRing) : option string := option_map e_lsn (last (ring_entries ring)).

Definition latestLsnFor (ring : ShapeReplayRing) (identity : SystemIdentity) : option string :=
  match ring_identity ring with
  | None => None
  | Some own => if same_identity own identity then latestLsn ring else None
  end.

(** How many entries at the front are older than the cutoff. *)
Fixpoint aged (cutoff : Z) (entries : list RingEntry) : nat :=
  match entries with
  | e :: entries' => if cutoff <=? e_at e then O else S (aged cutoff entries')
  | [] => O
  end.

(** [#evict], at the clock's reading [now]: the aged prefix, then the overflow. *)
Definition evict (now : Z) (ring : ShapeReplayRing) : ShapeReplayRing :=
  let entries := ring_entries ring in
  let drop := Z.of_nat (aged (now - ring_maxAgeMs ring) entries) in
  let overflow := Z.of_nat (length entries) - drop - ring_maxEntries ring in
  let n := Z.to_nat (if 0 <? overflow then drop + overflow else drop) in
  match last (firstn n entries) with
  | None => ring
  | Some e => mkRing (ring_maxEntries ring) (ring_maxAgeMs ring) (ring_identity ring) (skipn n entries) (Some (e_lsn e))
  end.

(** [record]: it reads the clock for the entry, then again to evict. *)
Definition record (identity : SystemIdentity) (lsn : string) (change : ShapeChange) (at_ now : Z)
    (ring : ShapeReplayRing) : ShapeReplayRing :=
  let ring :=
    match ring_identity ring with
    | Some own => if same_identity own identity then ring
                  else mkRing (ring_maxEntries ring) (ring_maxAgeMs ring) (Some identity) [] None
    | None => mkRing (ring_maxEntries ring) (ring_maxAgeMs ring) (Some identity) [] None
    end in
  evict now (mkRing (ring_maxEntries ring) (ring_maxAgeMs ring) (ring_identity ring)
                    (ring_entries ring ++ [mkEntry lsn change at_])%list (ring_maxEvictedLsn ring)).

Definition reconcile (ring : ShapeReplayRing) (since : ResumeCursor) : RingReconcile :=
  match ring_identity ring with
  | None => Resync
  | Some own =>
      if negb (same_identity (rc_identity since) own) then Resync
      else
        let aged_out :=
          match ring_maxEvictedLsn ring with
          | Some floor => compareLsn (rc_lsn since) floor <=? 0
          | None => false
          end in
        if aged_out then Resync
        else Replay (map (fun e => mkItem (e_lsn e) (e_change e))
                         (List.filter (fun e => 0 <=? compareLsn (e_lsn e) (rc_lsn since)) (ring_entries ring)))
  end.

(** * Live queries: resuming

    Cursors round-trip and nothing else decodes; the replay ring holds a suffix of the
    history, and what it replays brings a client exactly up to date. *)
#[local] Open Scope list_scope.
#[local] Open Scope Z_scope.

(** ** Cursors *)

(** A cursor the engine mints: a system id without a colon, a timeline that prints as
    digits and reads back, a well-formed position. *)
Record cursor_ok (c : ResumeCursor) : Prop := {
  ok_system : has_char ":" (systemId (rc_identity c)) = false /\ systemId (rc_identity c) <> EmptyString;
  ok_timeline : is_timeline (number_to_string (timelineId (rc_identity c))) = true /\
                Number_of_string (number_to_string (timelineId (rc_identity c))) = timelineId (rc_identity c);
  ok_lsn : isValidLsn (rc_lsn c) = true
}.

(** Timelines of servers that were promoted a few times print and read back. *)
Example timelines_print :
  forallb (fun n => let t := int (Z.of_nat n) in
    is_timeline (number_to_string t) && same_value (Number_of_string (number_to_string t)) t) [1; 2; 3; 10; 25]%nat = true.
Proof. vm_compute. reflexivity. Qed.

Lemma no_colon p s :
  (forall c, p c = true -> Ascii.eqb c ":" = false) -> all_chars p s = true -> has_char ":" s = false.
Proof.
  intros H Hs. rewrite has_char_all. apply negb_false_iff. eapply all_chars_impl; [|exact Hs].
  intros c Hc. by rewrite H.
Qed.

Lemma isValidLsn_parts lsn :
  isValidLsn lsn = true ->
  exists high low, cut "/" lsn = Some (high, low) /\ nonempty high = true /\ nonempty low = true /\
    all_chars is_hex high = true /\ all_chars is_hex low = true.
Proof. unfold isValidLsn. destruct (cut "/" lsn) as [[high low]|]; [|done]. intros H. bools. by exists high, low. Qed.

Lemma cut_join c s a b : cut c s = Some (a, b) -> s = String.append a (String c b).
Proof.
  revert a b. induction s as [|d s IH]; intros a b; simpl; [done|].
  destruct (Ascii.eqb_spec d c) as [->|N]; [by intros [= <- <-]|].
  destruct (cut c s) as [[a' b']|] eqn:E; [|done]. intros [= <- <-]. simpl. by rewrite (IH a' b').
Qed.

Lemma isValidLsn_no_colon lsn : isValidLsn lsn = true -> has_char ":" lsn = false.
Proof.
  intros (high & low & Ec & _ & _ & Hh & Hl)%isValidLsn_parts. rewrite (cut_join _ _ _ _ Ec), has_char_app.
  assert (forall c, is_hex c = true -> Ascii.eqb c ":" = false) as H.
  { intros c Hc. destruct (Ascii.eqb_spec c ":") as [->|]; done. }
  rewrite (no_colon _ _ H Hh). cbn [has_char]. by rewrite (no_colon _ _ H Hl).
Qed.

Lemma is_timeline_no_colon s : is_timeline s = true -> has_char ":" s = false.
Proof.
  unfold is_timeline. intros H. bools. eapply no_colon; [|eassumption].
  intros c Hc. destruct (Ascii.eqb_spec c ":") as [->|]; done.
Qed.

Lemma decodes_cursor c : cursor_ok c -> decodeResumeCursor (Some (encodeResumeCursor c)) = Some c.
Proof.
  intros [[Hs He] [Ht Hn] Hl]. unfold decodeResumeCursor.
  change (encodeResumeCursor c)
    with (JsString.join ":" [RESUME_VERSION; systemId (rc_identity c); number_to_string (timelineId (rc_identity c)); rc_lsn c]).
  rewrite split_join.
  - rewrite String.eqb_refl. cbn [negb]. apply String.eqb_neq in He. rewrite He, Ht, Hl. cbn [negb].
    rewrite Hn. by destruct c as [[]].
  - done.
  - repeat constructor; [done|by apply is_timeline_no_colon|by apply isValidLsn_no_colon].
Qed.

(** Fact: a cursor survives the client: what the engine encodes decodes to the same identity
    and position; whatever token a client presents, what decodes has a well-formed position
    (so comparing it cannot throw), a system id and the version tag; and no [v0:] token, the
    resync sentinel among them, decodes at all. *)
Theorem cursor_round_trip :
  (forall c, cursor_ok c -> decodeResumeCursor (Some (encodeResumeCursor c)) = Some c) /\
  (forall token c, decodeResumeCursor (Some token) = Some c ->
     isValidLsn (rc_lsn c) = true /\ systemId (rc_identity c) <> EmptyString /\
     exists timeline, is_timeline timeline = true /\ timelineId (rc_identity c) = Number_of_string timeline /\
       token = JsString.join ":" [RESUME_VERSION; systemId (rc_identity c); timeline; rc_lsn c]) /\
  (forall rest, decodeResumeCursor (Some (String.append "v0:" rest)) = None) /\
  decodeResumeCursor (Some RESYNC_CURSOR) = None /\ decodeResumeCursor None = None.
Proof.
  split; [exact decodes_cursor|]. split; [|split; [|done]].
  - intros token c. unfold decodeResumeCursor. pose proof (join_split ":" token) as J.
    destruct (JsString.split ":" token) as [|version [|system [|timeline [|lsn [|]]]]]; try done.
    destruct (String.eqb_spec version RESUME_VERSION) as [->|]; [|done]. cbn [negb].
    destruct (String.eqb_spec system EmptyString) as [->|Hs]; [done|].
    destruct (is_timeline timeline) eqn:Ht; [|done]. destruct (isValidLsn lsn) eqn:Hl; [|done].
    intros [= <-]. split; [done|]. split; [done|]. by exists timeline.
  - intros rest. unfold decodeResumeCursor. change (String.append "v0:" rest) with (String.append "v0" (String ":" rest)).
    rewrite split_app by done. destruct (JsString.split ":" rest) as [|? [|? [|? [|]]]]; done.
Qed.

(** ** The ring holds a suffix of the history *)

(** What was recorded: position, change, and the two readings of the clock. *)
Record Recorded : Type := mkRecorded { h_lsn : string; h_change : ShapeChange; h_at : Z; h_now : Z }.

Definition record_all (identity : SystemIdentity) (h : list Recorded) (ring : ShapeReplayRing) : ShapeReplayRing :=
  fold_left (fun r x => record identity (h_lsn x) (h_change x) (h_at x) (h_now x) r) h ring.

Definition entry_of (x : Recorded) : RingEntry := mkEntry (h_lsn x) (h_change x) (h_at x).

(** The retained entries are the history without a front part; the floor is the last
    position of that part. *)
Definition holds_suffix (identity : SystemIdentity) (h : list Recorded) (ring : ShapeReplayRing) : Prop :=
  exists n, (n <= length h)%nat /\
    ring_entries ring = map entry_of (skipn n h) /\
    ring_maxEvictedLsn ring = option_map h_lsn (last (firstn n h)) /\
    (h = [] \/ ring_identity ring = Some identity).

Lemma evict_suffix now ring :
  exists k, (k <= length (ring_entries ring))%nat /\
    ring_entries (evict now ring) = skipn k (ring_entries ring) /\
    ring_maxEvictedLsn (evict now ring) =
      match last (firstn k (ring_entries ring)) with Some e => Some (e_lsn e) | None => ring_maxEvictedLsn ring end /\
    ring_identity (evict now ring) = ring_identity ring.
Proof.
  unfold evict. set (n := Z.to_nat _). destruct (last (firstn n (ring_entries ring))) as [e|] eqn:E.
  - exists (Nat.min n (length (ring_entries ring))). split; [lia|]. cbn [ring_entries ring_maxEvictedLsn ring_identity].
    destruct (Nat.le_ge_cases n (length (ring_entries ring))) as [L|L].
    + rewrite Nat.min_l by done. by rewrite E.
    + rewrite Nat.min_r by done. rewrite firstn_all2 in E by done. rewrite firstn_all, E, skipn_all.
      by rewrite skipn_all2.
  - exists O. split; [lia|]. done.
Qed.

Lemma record_holds identity h ring x :
  same_identity identity identity = true -> holds_suffix identity h ring -> 
  (h = [] -> ring_identity ring = None) ->
  holds_suffix identity (h ++ [x]) (record identity (h_lsn x) (h_change x) (h_at x) (h_now x) ring).
Proof.
  intros Hid (n & Hn & He & Hf & Hi) Hnone. unfold record.
  set (base := match ring_identity ring with Some _ => _ | None => _ end).
  assert (ring_entries base = map entry_of (skipn n h) /\
          ring_maxEvictedLsn base = option_map h_lsn (last (firstn n h)) /\ ring_identity base = Some identity) as (Eb & Fb & Ib).
  { destruct Hi as [->|Hi].
    - unfold base. rewrite Hnone by done. by rewrite skipn_nil, firstn_nil.
    - unfold base. by rewrite Hi, Hid. }
  destruct (evict_suffix (h_now x) (mkRing (ring_maxEntries base) (ring_maxAgeMs base) (ring_identity base)
              (ring_entries base ++ [mkEntry (h_lsn x) (h_change x) (h_at x)]) (ring_maxEvictedLsn base)))
    as (k & Hk & Ee & Ef & Ei).
  cbn [ring_entries ring_maxEvictedLsn ring_identity] in *.
  assert (ring_entries base ++ [mkEntry (h_lsn x) (h_change x) (h_at x)] = map entry_of (skipn n (h ++ [x]))) as Eh.
  { rewrite Eb, skipn_app, map_app. replace (n - length h)%nat with O by lia. done. }
  rewrite Eh in *. rewrite length_map, length_skipn, length_app in Hk. simpl in Hk.
  exists (n + k)%nat. rewrite length_app. simpl. split; [lia|].
  rewrite Ee, skipn_map, skipn_skipn. split; [by rewrite Nat.add_comm|]. split; [|right; congruence].
  rewrite Ef, firstn_map, Fb, <- (take_take_drop (h ++ [x]) n k), last_app.
  assert (forall l, last (map entry_of l) = option_map entry_of (last l)) as Hlast.
  { intros l. induction l as [|a [|b l] IH]; done. }
  rewrite Hlast. destruct (last (firstn k (skipn n (h ++ [x])))) as [y|]; [done|].
  rewrite firstn_app. replace (n - length h)%nat with O by lia. by rewrite app_nil_r.
Qed.

Lemma record_all_holds identity h maxEntries maxAgeMs :
  same_identity identity identity = true -> holds_suffix identity h (record_all identity h (new_ring maxEntries maxAgeMs)).
Proof.
  intros Hid. induction h as [|x h IH] using rev_ind.
  - exists O. split; [done|]. split; [done|]. split; [done|]. by left.
  - unfold record_all in *. rewrite fold_left_app. apply record_holds; [done..|]. by intros ->.
Qed.

(** ** Replaying *)

Lemma compareLsn_le a b : compareLsn a b <= 0 <-> lsnToBigInt a <= lsnToBigInt b.
Proof.
  unfold compareLsn. destruct (Z.ltb_spec (lsnToBigInt a) (lsnToBigInt b)); [lia|].
  destruct (Z.ltb_spec (lsnToBigInt b) (lsnToBigInt a)); lia.
Qed.

Lemma compareLsn_ge a b : 0 <= compareLsn a b <-> lsnToBigInt b <= lsnToBigInt a.
Proof.
  unfold compareLsn. destruct (Z.ltb_spec (lsnToBigInt a) (lsnToBigInt b)); [lia|].
  destruct (Z.ltb_spec (lsnToBigInt b) (lsnToBigInt a)); lia.
Qed.

(** Commit order: positions never decrease. *)
Definition commit_order (h : list Recorded) : Prop :=
  StronglySorted (fun x y => lsnToBigInt (h_lsn x) <= lsnToBigInt (h_lsn y)) h.

(** In commit order, the changes at or after a position are a final part of the history. *)
Lemma since_suffix p h :
  commit_order h ->
  exists i, (i <= length h)%nat /\ List.filter (fun x => p <=? lsnToBigInt (h_lsn x)) h = skipn i h /\
    (forall x, List.In x (firstn i h) -> lsnToBigInt (h_lsn x) < p).
Proof.
  induction 1 as [|x h Hs IH Hx]; [by exists O|]. simpl.
  destruct (Z.leb_spec p (lsnToBigInt (h_lsn x))) as [L|L].
  - exists O. split; [simpl; lia|]. split; [|done]. simpl. f_equal.
    assert (forall l, List.Forall (fun y => lsnToBigInt (h_lsn x) <= lsnToBigInt (h_lsn y)) l ->
      List.filter (fun x => p <=? lsnToBigInt (h_lsn x)) l = l) as G; [|by apply G].
    induction 1 as [|y l Hy _ IHl]; [done|]. simpl. rewrite IHl. destruct (Z.leb_spec p (lsnToBigInt (h_lsn y))); [done|lia].
  - destruct IH as (i & Hi & Ei & Hlt). exists (S i). split; [simpl; lia|]. split; [done|].
    intros y [<-|Hy]; [done|auto].
Qed.

(** Applying again changes that are followed by all that came after them makes no difference. *)
Lemma replay_idempotent cs i j rows :
  (i <= j)%nat -> rows_same (applyAll (skipn i cs) (applyAll (firstn j cs) rows)) (applyAll cs rows).
Proof.
  intros Hij key. rewrite !applyAll_get.
  replace (last_effect key cs) with (last_effect key (firstn i cs ++ skipn i cs)) by (by rewrite firstn_skipn).
  rewrite last_effect_app.
  destruct (last_effect key (skipn i cs)) as [e|] eqn:E; [by destruct e|].
  replace (firstn j cs) with (firstn i cs ++ firstn (j - i) (skipn i cs)).
  2:{ rewrite take_take_drop. f_equal. lia. }
  rewrite last_effect_app, last_effect_absent.
  { destruct (last_effect key (firstn i cs)) as [e|]; [by destruct e|by destruct (map_get key rows)]. }
  rewrite <- (firstn_skipn (j - i) (skipn i cs)) in E. rewrite last_effect_app in E.
  destruct (last_effect key (skipn (j - i) (skipn i cs))); [done|].
  revert E. generalize (firstn (j - i) (skipn i cs)). intros l E.
  induction l as [|c l IH] using rev_ind; [by intros ? ?|]. rewrite last_effect_app in E.
  unfold last_effect at 1 in E. simpl in E. destruct (String.eqb_spec key (change_key c)) as [|N]; [done|].
  intros d [Hd|[<-|[]]]%in_app_iff; [by apply IH|congruence].
Qed.

Section Replay.
Context (identity : SystemIdentity) (h : list Recorded) (maxEntries maxAgeMs : Z).
Hypothesis identity_refl : same_identity identity identity = true.
Hypothesis ordered : commit_order h.

Let ring := record_all identity h (new_ring maxEntries maxAgeMs).

(** What is replayed, when it is: every change of the history from the position on. *)
Lemma reconcile_replays since items :
  reconcile ring since = Replay items ->
  map i_change items = map h_change (List.filter (fun x => lsnToBigInt (rc_lsn since) <=? lsnToBigInt (h_lsn x)) h).
Proof.
  destruct (record_all_holds identity h maxEntries maxAgeMs identity_refl) as (n & Hn & He & Hf & Hi).
  fold ring in He, Hf, Hi. unfold reconcile. destruct (ring_identity ring) as [own|]; [|done].
  destruct (negb _); [done|]. rewrite He, Hf. destruct (match option_map _ _ with Some _ => _ | None => _ end) eqn:Ea; [done|].
  intros [= <-]. rewrite map_map.
  assert (forall l, map e_change
            (List.filter (fun e => 0 <=? compareLsn (e_lsn e) (rc_lsn since)) (map entry_of l)) =
          map h_change (List.filter (fun x => lsnToBigInt (rc_lsn since) <=? lsnToBigInt (h_lsn x)) l)) as G.
  { induction l as [|x l IH]; [done|]. simpl. 
    replace (lsnToBigInt (rc_lsn since) <=? lsnToBigInt (h_lsn x)) with (0 <=? compareLsn (h_lsn x) (rc_lsn since)).
    - destruct (0 <=? _); simpl; by rewrite IH.
    - apply eq_true_iff_eq. rewrite !Z.leb_le. apply compareLsn_ge. }
  etransitivity; [apply G|]. f_equal.
  replace h with (firstn n h ++ skipn n h) at 2 by apply firstn_skipn. rewrite List.filter_app.
  replace (List.filter _ (firstn n h)) with (@nil Recorded); [done|]. symmetry.
  destruct (last (firstn n h)) as [f|] eqn:El.
  - simpl in Ea. bools. apply last_Some in El as [l El].
    assert (lsnToBigInt (h_lsn f) < lsnToBigInt (rc_lsn since)) as Hlt.
    { destruct (Z.le_gt_cases (lsnToBigInt (rc_lsn since)) (lsnToBigInt (h_lsn f))) as [L|L]; [|done].
      apply compareLsn_le in L. lia. }
    assert (forall x, List.In x (firstn n h) -> lsnToBigInt (h_lsn x) <= lsnToBigInt (h_lsn f)) as Hle.
    { rewrite El. pose proof ordered as Hs. rewrite <- (firstn_skipn n h), El in Hs.
      apply StronglySorted_app in Hs as (_ & Hs & _). apply StronglySorted_app in Hs as (Hs & _ & _).
      intros x [Hx|[<-|[]]]%in_app_iff; [|lia]. apply Hs; apply list_elem_of_In; [done|by left]. }
    revert Hle. generalize (firstn n h). intros l'. induction l' as [|x l' IH]; intros Hle; [done|]. simpl.
    pose proof (Hle x ltac:(by left)). destruct (Z.leb_spec (lsnToBigInt (rc_lsn since)) (lsnToBigInt (h_lsn x))); [lia|].
    apply IH. intros y Hy. apply Hle. by right.
  - by apply last_None in El as ->.
Qed.
End Replay.

Lemma map_skipn {A B} (f : A -> B) n l : map f (skipn n l) = skipn n (map f l).
Proof. revert l. induction n as [|n IH]; intros [|x l]; simpl; auto. Qed.

(** C33: resuming is exact. Take a ring that has recorded a history of one database in
    commit order, whatever it retains of it, and a client that applied some first part of
    that history to the rows the ring started from, with a cursor at or before everything
    it is missing (the position of the last change it applied, even in the middle of a
    commit; or 0/0). If the ring replays, the client ends with the very rows of the server;
    and the ring does replay, unless it is empty, the cursor is of another database or
    timeline, or its position is not after the last evicted one. *)
Theorem ring_replay_exact (identity : SystemIdentity) (h : list Recorded) (maxEntries maxAgeMs : Z)
    (since : ResumeCursor) (j : nat) (base : Rows) :
  same_identity identity identity = true ->
  commit_order h ->
  (forall x, List.In x (skipn j h) -> lsnToBigInt (rc_lsn since) <= lsnToBigInt (h_lsn x)) ->
  let ring := record_all identity h (new_ring maxEntries maxAgeMs) in
  let server := applyAll (map h_change h) base in
  let client := applyAll (map h_change (firstn j h)) base in
  match reconcile ring since with
  | Resync =>
      h = [] \/ same_identity (rc_identity since) identity = false \/
      exists floor, ring_maxEvictedLsn ring = Some floor /\ lsnToBigInt (rc_lsn since) <= lsnToBigInt floor
  | Replay items => rows_same (applyAll (map i_change items) client) server
  end.
Proof.
  intros Hid Ho Hj ring server client. destruct (reconcile ring since) as [|items] eqn:E.
  - destruct (record_all_holds identity h maxEntries maxAgeMs Hid) as (n & _ & _ & Hf & [->|Hi]); [by left|].
    right. fold ring in Hf, Hi. unfold reconcile in E. rewrite Hi in E.
    destruct (same_identity (rc_identity since) identity); [right|by left]. cbn [negb] in E.
    destruct (ring_maxEvictedLsn ring) as [floor|]; [|done]. exists floor. split; [done|].
    destruct (Z.leb_spec (compareLsn (rc_lsn since) floor) 0) as [L|L]; [|done]. by apply compareLsn_le.
  - rewrite (reconcile_replays identity h maxEntries maxAgeMs Hid Ho since items E).
    destruct (since_suffix (lsnToBigInt (rc_lsn since)) h Ho) as (i & Hi & Ei & Hlt). rewrite Ei.
    rewrite map_skipn. unfold client. rewrite <- firstn_map. apply replay_idempotent.
    destruct (Nat.le_gt_cases i j) as [|G]; [done|].
    assert (exists x, List.In x (skipn j h) /\ List.In x (firstn i h)) as (x & Hx & Hx').
    { destruct (nth_error h j) as [x|] eqn:En; [|apply nth_error_None in En; lia]. exists x.
      apply nth_error_split in En as (l1 & l2 & -> & <-). split.
      - rewrite skipn_app, skipn_all, Nat.sub_diag. by left.
      - rewrite firstn_app. apply in_app_iff. right. destruct (i - length l1)%nat eqn:Ei'; [lia|]. by left. }
    specialize (Hj x Hx). specialize (Hlt x Hx'). lia.
Qed.

Definition ident : SystemIdentity := mkIdentity "7301" (int 3).
Definition recorded (lsn key body : string) (at_ : Z) : Recorded :=
  mkRecorded lsn (SUpdate key (note key body)) at_ at_.
Definition a_history : list Recorded :=
  [recorded "0/1A0" "a" "1" 10; recorded "0/1B0" "b" "2" 20; recorded "0/1B0" "c" "3" 20; recorded "1/10" "a" "4" 30]%string.

Lemma ring_replay_exact_witness :
  rows_same
    (applyAll [SUpdate "b" (note "b" "2"); SUpdate "c" (note "c" "3"); SUpdate "a" (note "a" "4")]%string
       (applyAll (map h_change (firstn 2 a_history)) []))
    (applyAll (map h_change a_history) []).
Proof.
  apply (ring_replay_exact ident a_history 3 1000 (mkCursor ident "0/1B0") 2 []).
  - vm_compute. reflexivity.
  - repeat (apply SSorted_cons; [|repeat (constructor; [vm_compute; discriminate|]); constructor]). apply SSorted_nil.
  - intros x [<-|[<-|[]]]; vm_compute; discriminate.
Defined.
