(* ===== verification/LiveEngine.v ===== *)
(** * Live queries: the shape engine

    [packages/live-server/src/engine.ts]: the registry of live shapes, the poll tick, the
    replication sink, failover, subscribe and unsubscribe.

    A subscriber is the number of its [subscribe] call. Callbacks do not call back into the
    engine; whether one throws is a parameter. What the engine does to the outside is the
    list of effects each operation returns. [subscribe] is split at its awaits. *)
From S2P Require Import Prelude JsString JsMap JsNumber JsJson LiveShape LiveDiff LiveClassify LiveResume.

#[local] Open Scope string_scope.
#[local] Open Scope Z_scope.

(** One live shape. *)
Record ShapeEntry : Type := mkShapeEntry {
  en_def : ShapeDefinition;
  en_table : Table;
  en_rows : Rows;
  en_cursor : Z;
  en_subscribers : list nat;
  en_classify : option (ReplicationChange -> outcome LiveError (option ShapeChange));
  en_ring : option ShapeReplayRing
}.

Definition set_rows (rows : Rows) (e : ShapeEntry) : ShapeEntry :=
  mkShapeEntry (en_def e) (en_table e) rows (en_cursor e) (en_subscribers e) (en_classify e) (en_ring e).
Definition set_cursor (cursor : Z) (e : ShapeEntry) : ShapeEntry :=
  mkShapeEntry (en_def e) (en_table e) (en_rows e) cursor (en_subscribers e) (en_classify e) (en_ring e).
Definition set_subscribers (subs : list nat) (e : ShapeEntry) : ShapeEntry :=
  mkShapeEntry (en_def e) (en_table e) (en_rows e) (en_cursor e) subs (en_classify e) (en_ring e).
Definition set_ring (ring : option ShapeReplayRing) (e : ShapeEntry) : ShapeEntry :=
  mkShapeEntry (en_def e) (en_table e) (en_rows e) (en_cursor e) (en_subscribers e) (en_classify e) ring.

(** What the engine does to the outside. *)
Inductive Effect : Type :=
| OnChange (subscriber : nat) (change : ShapeChange) (cursor : string)
| OnResync (subscriber : nat)
| OnError (e : LiveError)
| OnThrown (subscriber : nat).

Record Engine : Type := mkEngine {
  shapes : JsMap ShapeEntry;
  polling : bool;
  ticking : bool;
  liveIdentity : option SystemIdentity;
  attached : bool;
  unsubscribed : list nat
}.

Definition set_shapes (m : JsMap ShapeEntry) (st : Engine) : Engine :=
  mkEngine m (polling st) (ticking st) (liveIdentity st) (attached st) (unsubscribed st).
Definition set_polling (b : bool) (st : Engine) : Engine :=
  mkEngine (shapes st) b (ticking st) (liveIdentity st) (attached st) (unsubscribed st).
Definition set_ticking (b : bool) (st : Engine) : Engine :=
  mkEngine (shapes st) (polling st) b (liveIdentity st) (attached st) (unsubscribed st).
Definition set_identity (i : SystemIdentity) (st : Engine) : Engine :=
  mkEngine (shapes st) (polling st) (ticking st) (Some i) (attached st) (unsubscribed st).

(** The replay options of the replication source. *)
Record ReplayOptions : Type := mkReplay { replay_maxEntries : Z; replay_maxAgeMs : Z }.

Definition DEFAULT_REPLAY : ReplayOptions := mkReplay 1024 300000.

Definition LSN_BASE : string := "0/0".

Section Engine.
(** The registered tables; the replication options, absent on the poll path; and the
    subscribers' callbacks: whether one returns or throws. *)
Context (tables : list Table) (replication : option ReplayOptions)
        (change_ok : nat -> ShapeChange -> bool) (resync_ok : nat -> bool).

(** The engine before any call. *)
Definition createShapeEngine : Engine :=
  mkEngine [] false false None (match replication with Some _ => true | None => false end) [].

Definition tableMap : JsMap Table := fold_left (fun m t => map_set (tableName t) t m) tables [].

(** The members of [Object.prototype]: what [in] finds on every object. *)
Definition inherited_members : list string :=
  ["constructor"; "__defineGetter__"; "__defineSetter__"; "hasOwnProperty"; "__lookupGetter__";
   "__lookupSetter__"; "isPrototypeOf"; "propertyIsEnumerable"; "toString"; "valueOf"; "__proto__";
   "toLocaleString"].

(** [column in table.byKey]. *)
Definition in_byKey (column : string) (table : Table) : bool :=
  match map_get column (byKey table) with Some _ => true | None => existsb (String.eqb column) inherited_members end.

Definition resolveTable (def : ShapeDefinition) : outcome LiveError Table :=
  match map_get (s_table def) tableMap with
  | None => Throw LIVE_SERVER_UNKNOWN_TABLE
  | Some table =>
      if negb (forallb (fun column => in_byKey column table) (s_columns def)) then Throw LIVE_SERVER_UNKNOWN_COLUMN
      else match map_get (s_key def) (byKey table) with
           | Some spec => if col_primaryKey spec || col_unique spec then Ok table else Throw LIVE_SERVER_NON_UNIQUE_KEY
           | None => Throw LIVE_SERVER_NON_UNIQUE_KEY
           end
  end.

(** [fetchRows], given the rows the database answered. *)
Definition fetchRows (def : ShapeDefinition) (raw : list Row) : list Row :=
  List.filter (matchesShape def) (map (fun row => normalizeWire (projectRow row (s_columns def))) raw).

(** ** Fanning out *)

(** The subscribers in turn, up to the first whose callback throws. *)
Fixpoint fan (subs : list nat) (change : ShapeChange) (cursor : string) : list Effect * bool :=
  match subs with
  | [] => ([], true)
  | s :: subs' =>
      if change_ok s change then
        let '(effects, ok) := fan subs' change cursor in (OnChange s change cursor :: effects, ok)
      else ([OnChange s change cursor; OnThrown s], false)
  end.

Fixpoint fan_all (subs : list nat) (changes : list ShapeChange) (cursor : string) : list Effect * bool :=
  match changes with
  | [] => ([], true)
  | c :: changes' =>
      let '(effects, ok) := fan subs c cursor in
      if ok then let '(effects', ok') := fan_all subs changes' cursor in ((effects ++ effects')%list, ok')
      else (effects, false)
  end.

Definition pollCursor (e : ShapeEntry) : string :=
  "v0:" ++ decimal_of (en_cursor e).

(** ** The poll path *)

(** [tickShape], once the read has answered: [None] for the error is a tick that ended well. *)
Definition tickShape (e : ShapeEntry) (raw : list Row) : outcome LiveError (ShapeEntry * list Effect * bool) :=
  let! (changes, next) := lift_protocol (diffRows (en_def e) (en_rows e) (fetchRows (en_def e) raw)) in
  let e := set_rows next e in
  match changes with
  | [] => Ok (e, [], true)
  | _ =>
      let e := set_cursor (en_cursor e + 1) e in
      let '(effects, ok) := fan_all (en_subscribers e) changes (pollCursor e) in
      Ok (e, effects, ok)
  end.

(** The loop of [runTick] over the shapes: an error ends it. *)
Fixpoint tick_loop (db : string -> list Row) (ids : list string) (st : Engine) : Engine * list Effect :=
  match ids with
  | [] => (st, [])
  | id :: ids' =>
      match map_get id (shapes st) with
      | None => tick_loop db ids' st
      | Some e =>
          match tickShape e (db (s_table (en_def e))) with
          | Throw err => (st, [OnError err])
          | Ok (e', effects, ok) =>
              let st := set_shapes (map_set id e' (shapes st)) st in
              if ok then let '(st', effects') := tick_loop db ids' st in (st', (effects ++ effects')%list)
              else (st, effects)
          end
      end
  end.

(** [runTick] against a database that does not change while it runs. *)
Definition runTick (db : string -> list Row) (st : Engine) : Engine * list Effect :=
  if ticking st then (st, [])
  else
    let '(st', effects) := tick_loop db (map fst (shapes st)) (set_ticking true st) in
    (set_ticking false st', effects).

Definition ensurePolling (st : Engine) : Engine := if polling st then st else set_polling true st.
Definition stopPolling (st : Engine) : Engine := if polling st then set_polling false st else st.

(** ** The replication path *)

Definition is_empty_map {V} (m : JsMap V) : bool := match m with [] => true | _ => false end.

(** [dropShape]: the entry first, then every subscriber is told, a throwing one isolated. *)
Definition dropShape (id : string) (e : ShapeEntry) (st : Engine) : Engine * list Effect :=
  let st := set_shapes (map_delete id (shapes st)) st in
  let st := if is_empty_map (shapes st) then stopPolling st else st in
  (st, flat_map (fun s => if resync_ok s then [OnResync s] else [OnResync s; OnThrown s]) (en_subscribers e)).

(** Drop the shapes of a list that a test selects. *)
Fixpoint drop_where (test : ShapeEntry -> bool) (l : JsMap ShapeEntry) (st : Engine) : Engine * list Effect :=
  match l with
  | [] => (st, [])
  | (id, e) :: l' =>
      let '(st1, effects1) := if test e then dropShape id e st else (st, []) in
      let '(st2, effects2) := drop_where test l' st1 in
      (st2, (effects1 ++ effects2)%list)
  end.

Definition revealIdentity (identity : SystemIdentity) (st : Engine) : Engine * list Effect :=
  let '(st', effects) :=
    match liveIdentity st with
    | Some live => if same_identity live identity then (st, []) else drop_where (fun _ => true) (shapes st) st
    | None => (st, [])
    end in
  (set_identity identity st', effects).

(** The body of the sink's loop, for one shape; [at_] and [now] are the clock's readings. *)
Definition change_shape (identity : SystemIdentity) (change : ReplicationChange) (at_ now : Z) (id : string)
    (e : ShapeEntry) (st : Engine) : Engine * list Effect :=
  if negb (String.eqb (s_table (en_def e)) (ch_table change)) then (st, [])
  else match en_classify e with
       | None => (st, [])
       | Some classify =>
           match classify change with
           | Throw err => let '(st', effects) := dropShape id e st in (st', OnError err :: effects)
           | Ok None => (st, [])
           | Ok (Some shapeChange) =>
               let e := set_rows (applyChange (en_rows e) shapeChange) e in
               let e := set_ring (option_map (record identity (ch_commitLSN change) shapeChange at_ now) (en_ring e)) e in
               let st := set_shapes (map_set id e (shapes st)) st in
               let cursor := encodeResumeCursor (mkCursor identity (ch_commitLSN change)) in
               let '(effects, ok) := fan (en_subscribers e) shapeChange cursor in
               if ok then (st, effects)
               else let '(st', effects') := dropShape id e st in (st', (effects ++ effects')%list)
           end
       end.

Fixpoint change_loop (identity : SystemIdentity) (change : ReplicationChange) (at_ now : Z)
    (l : JsMap ShapeEntry) (st : Engine) : Engine * list Effect :=
  match l with
  | [] => (st, [])
  | (id, e) :: l' =>
      let '(st1, effects1) := change_shape identity change at_ now id e st in
      let '(st2, effects2) := change_loop identity change at_ now l' st1 in
      (st2, (effects1 ++ effects2)%list)
  end.

Definition onSourceChange (change : ReplicationChange) (at_ now : Z) (st : Engine) : Engine * list Effect :=
  if negb (isValidLsn (ch_commitLSN change)) then
    let '(st', effects) :=
      drop_where (fun e => String.eqb (s_table (en_def e)) (ch_table change)) (shapes st) st in
    (st', OnError LIVE_SERVER_INVALID_LSN :: effects)
  else
    let identity := mkIdentity (ch_systemId change) (ch_timelineId change) in
    let '(st1, effects1) := revealIdentity identity st in
    let '(st2, effects2) := change_loop identity change at_ now (shapes st1) st1 in
    (st2, (effects1 ++ effects2)%list).

(** ** Subscribing *)

Inductive ShapeResume : Type :=
| ResumeSnapshot
| ResumeReplay (changes : list (ShapeChange * string)).

Definition resumeFor (e : ShapeEntry) (since : option ResumeCursor) : ShapeResume :=
  match since, en_ring e with
  | Some since, Some ring =>
      match reconcile ring since with
      | Resync => ResumeSnapshot
      | Replay items =>
          ResumeReplay (map (fun item => (i_change item, encodeResumeCursor (mkCursor (rc_identity since) (i_lsn item)))) items)
      end
  | _, _ => ResumeSnapshot
  end.

Definition snapshotCursor (e : ShapeEntry) (st : Engine) : string :=
  match en_ring e, liveIdentity st with
  | Some ring, Some live => encodeResumeCursor (mkCursor live (default LSN_BASE (latestLsnFor ring live)))
  | _, _ => pollCursor e
  end.

Record ShapeSubscription : Type := mkSubscription {
  sub_shapeId : string;
  sub_snapshot : list Row;
  sub_cursor : string;
  sub_resume : ShapeResume
}.

(** A [subscribe] call between its awaits: what it has computed so far. *)
Record Pending : Type := mkPending {
  pe_subscriber : nat;
  pe_def : ShapeDefinition;
  pe_table : Table;
  pe_id : string;
  pe_since : option ResumeCursor;
  pe_classify : option (ReplicationChange -> outcome LiveError (option ShapeChange))
}.

(** The end of [subscribe], on the entry it found or made. *)
Definition subscribe_finish (subscriber : nat) (def : ShapeDefinition) (id : string) (since : option ResumeCursor)
    (e : ShapeEntry) (st : Engine) : Engine * ShapeSubscription :=
  let e := set_subscribers (en_subscribers e ++ [subscriber])%list e in
  let st := set_shapes (map_set id e (shapes st)) st in
  (st, mkSubscription id (toSorted (compareRows def) (map snd (en_rows e))) (snapshotCursor e st) (resumeFor e since)).

Inductive SubscribeStart : Type :=
| Done (st : Engine) (subscription : ShapeSubscription)
| Await (pending : Pending).

(** Up to the first await: the gates, then the lookup. *)
Definition subscribe_start (subscriber : nat) (def : ShapeDefinition) (since : option ResumeCursor) (st : Engine)
  : outcome LiveError SubscribeStart :=
  let! validated := lift_protocol (validateShapeDefinition (json_of_shape def)) in
  let! table := resolveTable validated in
  let id := shapeId validated in
  match map_get id (shapes st) with
  | Some e => let '(st', s) := subscribe_finish subscriber validated id since e st in Ok (Done st' s)
  | None => Ok (Await (mkPending subscriber validated table id since None))
  end.

(** The catalog probe has answered (on the replication path). *)
Definition subscribe_probed (hasFullReplicaIdentity : bool) (p : Pending) : outcome LiveError Pending :=
  let! classify := buildClassifier (pe_def p) (pe_table p) hasFullReplicaIdentity in
  Ok (mkPending (pe_subscriber p) (pe_def p) (pe_table p) (pe_id p) (pe_since p) (Some classify)).

Definition new_entry (p : Pending) (rows : Rows) : ShapeEntry :=
  mkShapeEntry (pe_def p) (pe_table p) rows 0 [] (pe_classify p)
    (option_map (fun r => new_ring (replay_maxEntries r) (replay_maxAgeMs r)) replication).

(** The seed read has answered: the entry is published, whatever is there by now. *)
Definition subscribe_seeded (raw : list Row) (p : Pending) (st : Engine)
  : outcome LiveError (Engine * ShapeSubscription) :=
  let! pairs := lift_protocol (key_rows (pe_def p) (fetchRows (pe_def p) raw)) in
  let e := new_entry p (fold_left (fun m kr => map_set kr.1 kr.2 m) pairs []) in
  let st := set_shapes (map_set (pe_id p) e (shapes st)) st in
  let st := match replication with None => ensurePolling st | Some _ => st end in
  Ok (subscribe_finish (pe_subscriber p) (pe_def p) (pe_id p) (pe_since p) e st).

(** A whole [subscribe] call that nothing interleaves with. *)
Definition subscribe (subscriber : nat) (def : ShapeDefinition) (since : option ResumeCursor)
    (hasFullReplicaIdentity : bool) (raw : list Row) (st : Engine) : outcome LiveError (Engine * ShapeSubscription) :=
  let! start := subscribe_start subscriber def since st in
  match start with
  | Done st' s => Ok (st', s)
  | Await p =>
      let! p := match replication with Some _ => subscribe_probed hasFullReplicaIdentity p | None => Ok p end in
      subscribe_seeded raw p st
  end.

(** The [unsubscribe] a subscription carries: once. *)
Definition unsubscribe (subscriber : nat) (id : string) (st : Engine) : Engine :=
  if existsb (Nat.eqb subscriber) (unsubscribed st) then st
  else
    let st := mkEngine (shapes st) (polling st) (ticking st) (liveIdentity st) (attached st) (subscriber :: unsubscribed st) in
    match map_get id (shapes st) with
    | None => st
    | Some current =>
        let current := set_subscribers (List.filter (fun s => negb (Nat.eqb s subscriber)) (en_subscribers current)) current in
        let st := set_shapes (map_set id current (shapes st)) st in
        match en_subscribers current with
        | [] =>
            let st := set_shapes (map_delete id (shapes st)) st in
            if is_empty_map (shapes st) then stopPolling st else st
        | _ => st
        end
    end.

Definition activeShapes (st : Engine) : nat := length (shapes st).

Definition stop (st : Engine) : Engine :=
  let st := stopPolling st in
  mkEngine [] (polling st) (ticking st) (liveIdentity st) false (unsubscribed st).
End Engine.
