(* ===== verification/LiveEngineProps.v ===== *)
(** * Live queries: what the handlers keep

    What each handler of the engine does to every live shape and to every client's slice,
    and that the message of a statement carries them all over to the table after it; the
    lemmas of [LiveSystem]. *)
From S2P Require Import Prelude JsString JsMap JsNumber JsJson LiveShape LiveShapeProps LiveDiff LiveClassify LiveClassifyProps LiveResume LiveEngine.

#[local] Open Scope Z_scope.

(** ** What the clients hold *)

(** A client's slice, once it has a snapshot. *)
Definition Views : Type := nat -> option Rows.

Definition set_view (s : nat) (v : option Rows) (views : Views) : Views :=
  fun t => if Nat.eqb t s then v else views t.

(** A frame arrives: a change is applied, a resync purges. *)
Definition view_effect (views : Views) (e : Effect) : Views :=
  match e with
  | OnChange s c _ => set_view s (option_map (fun rows => applyChange rows c) (views s)) views
  | OnResync s => set_view s None views
  | _ => views
  end.

Definition view_effects (effects : list Effect) (views : Views) : Views := fold_left view_effect effects views.

Lemma view_effects_app es es' views : view_effects (es ++ es') views = view_effects es' (view_effects es views).
Proof. apply fold_left_app. Qed.

(** The subscriber an effect reaches. *)
Definition reaches (s : nat) (e : Effect) : Prop :=
  match e with OnChange t _ _ | OnResync t => t = s | _ => False end.

Lemma view_effects_other s es views : (forall e, List.In e es -> ~ reaches s e) -> view_effects es views s = views s.
Proof.
  revert views. induction es as [|e es IH]; intros views H; [done|]. simpl.
  rewrite IH by (intros e' He'; apply H; by right). specialize (H e ltac:(by left)).
  destruct e; simpl in *; try done; unfold set_view; destruct (Nat.eqb_spec s subscriber); try done; by destruct H.
Qed.

Section Fan.
Context (change_ok : nat -> ShapeChange -> bool) (resync_ok : nat -> bool).

Lemma fan_reaches subs c cursor e s :
  List.In e (fan change_ok subs c cursor).1 -> reaches s e -> List.In s subs.
Proof.
  induction subs as [|t subs IH]; simpl; [done|]. destruct (change_ok t c); simpl.
  - destruct (fan change_ok subs c cursor) as [es ok]. simpl in *.
    intros [<-|H] Hr; [by left|]. right. by apply IH.
  - intros [<-|[<-|[]]] Hr; [by left|done].
Qed.

(** A fan that ends well reaches every subscriber once. *)
Lemma fan_views subs c cursor views s :
  List.NoDup subs -> List.In s subs -> (fan change_ok subs c cursor).2 = true ->
  view_effects (fan change_ok subs c cursor).1 views s = option_map (fun rows => applyChange rows c) (views s).
Proof.
  revert views. induction subs as [|t subs IH]; intros views; [done|]. simpl. intros Hn Hs.
  inversion Hn as [|? ? Ht Hn']; subst. destruct (change_ok t c); [|done].
  pose proof (fan_reaches subs c cursor) as R.
  destruct (fan change_ok subs c cursor) as [es ok]. simpl in *. intros Hok.
  destruct Hs as [->|Hs].
  - rewrite view_effects_other.
    + unfold set_view. by rewrite Nat.eqb_refl.
    + intros e He Hr. apply Ht. by eapply R.
  - rewrite IH by done. unfold set_view. destruct (Nat.eqb_spec s t) as [->|]; done.
Qed.

Lemma drop_reaches id e st x s :
  List.In x (dropShape resync_ok id e st).2 -> reaches s x -> List.In s (en_subscribers e).
Proof.
  unfold dropShape. simpl. intros (t & Ht & Hx)%in_flat_map Hr.
  destruct (resync_ok t); simpl in Hx; [destruct Hx as [<-|[]]|destruct Hx as [<-|[<-|[]]]]; simpl in Hr; by subst.
Qed.

Lemma dropShape_shapes id e st : shapes (dropShape resync_ok id e st).1 = map_delete id (shapes st).
Proof. unfold dropShape. simpl. destruct (is_empty_map _); unfold stopPolling; simpl; by destruct (polling st). Qed.

Lemma drop_where_spec test l st :
  (shapes (drop_where resync_ok test l st).1 =
     fold_left (fun m kv => if test kv.2 then map_delete kv.1 m else m) l (shapes st)) /\
  (forall x s, List.In x (drop_where resync_ok test l st).2 -> reaches s x ->
     exists kv, List.In kv l /\ test kv.2 = true /\ List.In s (en_subscribers kv.2)).
Proof.
  revert st. induction l as [|[id e] l IH]; intros st; [done|]. cbn [drop_where fold_left fst snd].
  destruct (test e) eqn:T.
  - pose proof (dropShape_shapes id e st) as Hs. pose proof (drop_reaches id e st) as Hr.
    destruct (dropShape resync_ok id e st) as [st1 effects1]. simpl in *.
    destruct (IH st1) as [IH1 IH2]. destruct (drop_where resync_ok test l st1) as [st2 effects2]. simpl in *.
    split; [by rewrite IH1, Hs|]. intros x s [Hx|Hx]%in_app_iff R.
    + exists (id, e). eauto.
    + destruct (IH2 x s Hx R) as (kv & ? & ?). exists kv. auto.
  - destruct (IH st) as [IH1 IH2]. destruct (drop_where resync_ok test l st) as [st2 effects2]. simpl in *.
    split; [done|]. intros x s Hx R. destruct (IH2 x s Hx R) as (kv & ? & ?). exists kv. auto.
Qed.
End Fan.

(** ** Entries *)

Section System.
Context (tables : list Table) (options : ReplayOptions)
        (change_ok : nat -> ShapeChange -> bool) (resync_ok : nat -> bool) (pk : string -> string).

(** The stored rows of each table, by SQL column name. *)
Definition Store : Type := string -> list Row.

(** Every column of the shape is one the table declares. *)
Definition declared (def : ShapeDefinition) (table : Table) : Prop :=
  forall c, List.In c (s_columns def) -> is_Some (map_get c (byKey table)).

(** The primary keys the tables have, at most one each. *)
Definition primary_keys : Prop :=
  forall def table, resolveTable tables def = Ok table -> key_is_primary def table = true ->
    spec_name table (s_key def) = pk (s_table def).

(** The constraints of the database: on every key a shape may use, the rows have distinct
    values; and every declared column of a stored row has a value. *)
Definition constraints (store : Store) : Prop :=
  forall def table, resolveTable tables def = Ok table -> List.In (s_key def) (s_columns def) -> declared def table ->
    keyed_table def (coerceImage def table) (store (s_table def)) /\
    forall r, List.In r (store (s_table def)) -> stored def table r.

Definition authorized (store : Store) (e : ShapeEntry) : Rows :=
  slice (en_def e) (coerceImage (en_def e) (en_table e)) (store (s_table (en_def e))).

(** What an entry of the replication path is. *)
Record entry_ok (e : ShapeEntry) : Prop := {
  entry_resolves : resolveTable tables (en_def e) = Ok (en_table e);
  entry_shape : shape_ok (en_def e);
  entry_declared : declared (en_def e) (en_table e);
  entry_classify : exists classify registered,
    en_classify e = Some classify /\ buildClassifier (en_def e) (en_table e) registered = Ok classify;
  entry_subs : List.NoDup (en_subscribers e)
}.

(** Its rows are the authorized ones, one a key, and every subscriber has them. *)
Definition entry_synced (store : Store) (views : Views) (e : ShapeEntry) : Prop :=
  (List.NoDup (map fst (en_rows e)) /\ rows_same (en_rows e) (authorized store e)) /\
  forall s, List.In s (en_subscribers e) -> exists v, views s = Some v /\ rows_same v (en_rows e).

(** The entry the sink leaves in the place of another. *)
Definition evolves (e e' : ShapeEntry) : Prop :=
  en_def e' = en_def e /\ en_table e' = en_table e /\ en_classify e' = en_classify e /\
  en_subscribers e' = en_subscribers e.

Lemma evolves_ok e e' : evolves e e' -> entry_ok e -> entry_ok e'.
Proof. intros (Ed & Et & Ec & Es) [? ? ? ? ?]. split; rewrite ?Ed, ?Et, ?Ec, ?Es; done. Qed.

Lemma map_get_set_eq {V} k (v : V) m : map_get k (map_set k v m) = Some v.
Proof. by rewrite map_get_set, String.eqb_refl. Qed.

Lemma map_get_set_ne {V} k k' (v : V) m : k' <> k -> map_get k' (map_set k v m) = map_get k' m.
Proof. intros H. rewrite map_get_set. by destruct (String.eqb_spec k' k). Qed.

Lemma applyChange_NoDup rows c : List.NoDup (map fst rows) -> List.NoDup (map fst (applyChange rows c)).
Proof. destruct c; [apply map_set_NoDup..|apply map_delete_NoDup]. Qed.

Lemma map_get_delete_eq {V} k (m : JsMap V) : map_get k (map_delete k m) = None.
Proof. by rewrite map_get_delete, String.eqb_refl. Qed.

Lemma map_get_delete_ne {V} k k' (m : JsMap V) : k' <> k -> map_get k' (map_delete k m) = map_get k' m.
Proof. intros H. rewrite map_get_delete. by destruct (String.eqb_spec k' k). Qed.

Definition ids_distinct (m : JsMap ShapeEntry) : Prop := List.NoDup (map fst m).

Section Change.
Context (identity : SystemIdentity) (change : ReplicationChange) (at_ now : Z).

(** One shape's turn: only that shape and its subscribers are touched, and the entry is
    dropped, left alone, or moved on by the change it classified. *)
Lemma change_shape_spec id e classify st :
  map_get id (shapes st) = Some e -> en_classify e = Some classify ->
  let '(st', effects) := change_shape change_ok resync_ok identity change at_ now id e st in
  (forall id', id' <> id -> map_get id' (shapes st') = map_get id' (shapes st)) /\
  (ids_distinct (shapes st) -> ids_distinct (shapes st')) /\
  (forall x s, List.In x effects -> reaches s x -> List.In s (en_subscribers e)) /\
  (map_get id (shapes st') = None \/
   exists e', map_get id (shapes st') = Some e' /\ evolves e e' /\
     ((en_rows e' = en_rows e /\ effects = [] /\
       (s_table (en_def e) <> ch_table change \/ classify change = Ok None)) \/
      exists c, s_table (en_def e) = ch_table change /\ classify change = Ok (Some c) /\
        en_rows e' = applyChange (en_rows e) c /\
        (List.NoDup (en_subscribers e) -> forall views s, List.In s (en_subscribers e) ->
           view_effects effects views s = option_map (fun rows => applyChange rows c) (views s)))).
Proof.
  intros Hget Ec. unfold change_shape, ids_distinct.
  destruct (String.eqb_spec (s_table (en_def e)) (ch_table change)) as [Et|Nt]; cbn [negb].
  2:{ split; [done|]. split; [done|]. split; [done|]. right. exists e. split; [done|]. split; [by repeat split|]. auto. }
  rewrite Ec. destruct (classify change) as [[c|]|err] eqn:Ek.
  - set (e1 := set_ring _ _). pose proof (fan_reaches change_ok (en_subscribers e1) c) as R.
    pose proof (fan_views change_ok (en_subscribers e1) c) as V.
    specialize (R (encodeResumeCursor (mkCursor identity (ch_commitLSN change)))).
    specialize (V (encodeResumeCursor (mkCursor identity (ch_commitLSN change)))).
    destruct (fan change_ok (en_subscribers e1) c _) as [effects ok]. cbn [fst snd] in *.
    change (en_subscribers e1) with (en_subscribers e) in *. destruct ok.
    + cbn [shapes set_shapes]. split; [intros id' H; by rewrite map_get_set_ne|].
      split; [apply map_set_NoDup|]. split; [exact R|]. right. exists e1.
      split; [by rewrite map_get_set_eq|]. split; [by repeat split|]. right. exists c.
      split; [done|]. split; [done|]. split; [done|]. intros Hn views s Hs. by apply V.
    + pose proof (dropShape_shapes resync_ok id e1 (set_shapes (map_set id e1 (shapes st)) st)) as Hs.
      pose proof (drop_reaches resync_ok id e1 (set_shapes (map_set id e1 (shapes st)) st)) as D.
      destruct (dropShape resync_ok id e1 _) as [st' effects']. cbn [fst snd] in *. rewrite Hs. cbn [shapes set_shapes].
      split; [intros id' H; by rewrite map_get_delete_ne, map_get_set_ne|].
      split; [intros H; by apply map_delete_NoDup, map_set_NoDup|].
      split; [intros x s [Hx|Hx]%in_app_iff; [by apply R|by apply D]|]. left. apply map_get_delete_eq.
  - split; [done|]. split; [done|]. split; [done|]. right. exists e. split; [done|]. split; [by repeat split|]. auto.
  - pose proof (dropShape_shapes resync_ok id e st) as Hs. pose proof (drop_reaches resync_ok id e st) as D.
    destruct (dropShape resync_ok id e st) as [st' effects']. cbn [fst snd] in *. rewrite Hs.
    split; [intros id' H; by rewrite map_get_delete_ne|]. split; [apply map_delete_NoDup|].
    split; [intros x s [<-|Hx]; [done|by apply D]|]. left. apply map_get_delete_eq.
Qed.

(** A subscriber belongs to one shape. *)
Definition disjoint (m : JsMap ShapeEntry) : Prop :=
  forall id e id' e' s, map_get id m = Some e -> map_get id' m = Some e' ->
    List.In s (en_subscribers e) -> List.In s (en_subscribers e') -> id = id'.

Context (store store' : Store).
Hypothesis other_tables : forall t, t <> ch_table change -> store' t = store t.

(** What the classifier of an entry on the changed table does for the statement. *)
Definition carried (e : ShapeEntry) : Prop :=
  forall classify, en_classify e = Some classify -> s_table (en_def e) = ch_table change ->
    match classify change with
    | Ok None => rows_same (authorized store' e) (authorized store e)
    | Ok (Some c) => rows_same (authorized store' e) (applyChange (authorized store e) c)
    | Throw _ => True
    end.
Hypothesis all_carried : forall e, entry_ok e -> carried e.

Lemma authorized_evolves st e e' : evolves e e' -> authorized st e' = authorized st e.
Proof. intros (Ed & Et & _). unfold authorized. by rewrite Ed, Et. Qed.

(** The entry after its turn is in sync with the table after the statement. *)
Lemma turn_synced id e st views :
  map_get id (shapes st) = Some e -> entry_ok e -> entry_synced store views e ->
  let '(st', effects) := change_shape change_ok resync_ok identity change at_ now id e st in
  forall e', map_get id (shapes st') = Some e' -> entry_ok e' /\ evolves e e' /\ entry_synced store' (view_effects effects views) e'.
Proof.
  intros Hget Hok [[Hn Hr] Hv]. destruct (entry_classify e Hok) as (classify & reg & Ec & _).
  pose proof (change_shape_spec id e classify st Hget Ec) as S. pose proof (all_carried e Hok classify Ec) as C.
  destruct (change_shape _ _ _ _ _ _ _ _ _) as [st' effects]. destruct S as (_ & _ & _ & [S|(e1 & S & Hev & H)]);
    intros e' He'; rewrite S in He'; [done|]. injection He' as ->.
  split; [by eapply evolves_ok|]. split; [done|]. unfold entry_synced. rewrite (authorized_evolves store' _ _ Hev).
  pose proof Hev as (_ & _ & _ & Es). rewrite Es. destruct H as [(Er & -> & Hc)|(c & Et & Ek & Er & V)].
  - rewrite Er. split; [split; [done|]|exact Hv]. destruct Hc as [Nt|Ek].
    + unfold authorized. by rewrite other_tables.
    + destruct (String.eqb_spec (s_table (en_def e)) (ch_table change)) as [E|N].
      * specialize (C E). rewrite Ek in C. by rewrite C.
      * unfold authorized. by rewrite other_tables.
  - specialize (C Et). rewrite Ek in C. rewrite Er.
    split; [split; [by apply applyChange_NoDup|by rewrite C, Hr]|]. intros s Hs. destruct (Hv s Hs) as (v & Ev & Sv). rewrite V, Ev by (done || apply Hok).
    exists (applyChange v c). split; [done|]. by rewrite Sv.
Qed.

Lemma synced_views sto views views' e :
  (forall s, List.In s (en_subscribers e) -> views' s = views s) -> entry_synced sto views e -> entry_synced sto views' e.
Proof. intros H [Hr Hv]. split; [done|]. intros s Hs. rewrite H by done. auto. Qed.

(** After one turn, the other entries are as they were. *)
Lemma turn_disjoint id e st st1 :
  map_get id (shapes st) = Some e -> disjoint (shapes st) ->
  (forall id', id' <> id -> map_get id' (shapes st1) = map_get id' (shapes st)) ->
  (forall e', map_get id (shapes st1) = Some e' -> en_subscribers e' = en_subscribers e) -> disjoint (shapes st1).
Proof.
  intros Hget Hdis Hother Hsame i1 e1 i2 e2 s H1 H2 S1 S2.
  destruct (String.string_dec i1 id) as [->|N1], (String.string_dec i2 id) as [->|N2]; [done| | |].
  - rewrite (Hsame e1 H1) in S1. rewrite Hother in H2 by done. by eapply Hdis.
  - rewrite (Hsame e2 H2) in S2. rewrite Hother in H1 by done. by eapply Hdis.
  - rewrite Hother in H1, H2 by done. by eapply Hdis.
Qed.

(** The invariant in the middle of the loop: the shapes still to come are in sync with the
    table before the statement, the others with the table after it. *)
Definition midway (l : JsMap ShapeEntry) (st : Engine) (views : Views) : Prop :=
  List.NoDup (map fst l) /\
  (forall id e, List.In (id, e) l -> map_get id (shapes st) = Some e) /\
  (forall id e, map_get id (shapes st) = Some e ->
     entry_ok e /\ entry_synced (if in_dec String.string_dec id (map fst l) then store else store') views e) /\
  disjoint (shapes st) /\ ids_distinct (shapes st).

Lemma midway_step id e l st views :
  midway ((id, e) :: l) st views ->
  let '(st1, effects) := change_shape change_ok resync_ok identity change at_ now id e st in
  midway l st1 (view_effects effects views).
Proof.
  intros (Hnd & Hl & Hall & Hdis & Hids). simpl in Hnd. inversion Hnd as [|? ? Hid Hnd']; subst.
  pose proof (Hl id e ltac:(by left)) as Hget. destruct (Hall id e Hget) as [Hok Hsync].
  destruct (in_dec _ _ _) as [_|N]; [|by destruct N; left].
  destruct (entry_classify e Hok) as (classify & reg & Ec & _).
  pose proof (change_shape_spec id e classify st Hget Ec) as S. pose proof (turn_synced id e st views Hget Hok Hsync) as T.
  destruct (change_shape _ _ _ _ _ _ _ _ _) as [st1 effects]. destruct S as (Hother & Hids1 & Hreach & _).
  split; [done|]. split; [|split; [|split; [|by apply Hids1]]].
  - intros id' e' Hin. rewrite Hother; [by apply Hl; right|]. intros ->. apply Hid. by apply (in_map fst) in Hin.
  - intros id' e' He'. destruct (String.string_dec id' id) as [->|N].
    + destruct (in_dec _ _ _) as [I|_]; [done|]. by destruct (T e' He') as (? & _ & ?).
    + rewrite Hother in He' by done. destruct (Hall id' e' He') as [Hok' Hsync']. split; [done|].
      assert (entry_synced (if in_dec String.string_dec id' (map fst l) then store else store') views e') as G.
      { simpl in Hsync'. destruct (String.string_dec id id'); [congruence|]. by destruct (in_dec _ id' (map fst l)). }
      eapply synced_views; [|exact G]. intros s Hs. apply view_effects_other. intros x Hx Hr.
      apply N. symmetry. by eapply Hdis; [exact Hget|exact He'|by eapply Hreach|].
  - eapply turn_disjoint; [exact Hget|done..|]. intros e' He'. by destruct (T e' He') as (_ & (_ & _ & _ & ?) & _).
Qed.

Lemma change_loop_synced l st views :
  midway l st views ->
  let '(st', effects) := change_loop change_ok resync_ok identity change at_ now l st in
  midway [] st' (view_effects effects views).
Proof.
  revert st views. induction l as [|[id e] l IH]; intros st views M; [done|]. cbn [change_loop].
  pose proof (midway_step id e l st views M) as M1.
  destruct (change_shape _ _ _ _ _ _ _ _ _) as [st1 effects1]. specialize (IH st1 _ M1).
  destruct (change_loop _ _ _ _ _ _ _ _) as [st2 effects2]. by rewrite view_effects_app.
Qed.
End Change.
End System.
