(* ===== verification/LiveSystem.v ===== *)
(** * Live queries: every slice is the authorized one

    The engine on the replication path as a system of steps: the statements of the
    database with their messages, failovers, [subscribe] calls interleaved at their awaits,
    the end of a subscription and of the engine. In every state it reaches within the
    fences of [fenced] each live shape holds exactly the authorized slice of its table, and
    so does every client subscribed to it; the runs at the end leave the fences. *)
From S2P Require Import Prelude JsString JsMap JsNumber JsJson LiveShape LiveShapeProps LiveOrder LiveDiff LiveClassify LiveClassifyProps LiveResume LiveEngine LiveEngineProps.

#[local] Open Scope Z_scope.

(** ** Snapshots *)

(** The slice a client builds from a snapshot. *)
Definition snapshot_view (def : ShapeDefinition) (snapshot : list Row) : Rows :=
  fold_left (fun m row => map_set (the_key def row) row m) snapshot [].

Lemma snapshot_view_fresh def snapshot :
  List.NoDup (map (the_key def) snapshot) -> snapshot_view def snapshot = map (fun row => (the_key def row, row)) snapshot.
Proof.
  intros H. unfold snapshot_view. pose proof (fold_set_fresh (map (fun row => (the_key def row, row)) snapshot) []) as F.
  simpl in F. rewrite map_map in F. simpl in F. rewrite <- F by (by apply NoDup_ListNoDup).
  clear H F. generalize (@nil (string * Row)) as acc. induction snapshot as [|row l IH]; intros acc; [done|]. simpl. apply IH.
Qed.

(** Two lists of pairs that are permutations of each other, with distinct keys, are one map. *)
Lemma perm_rows_same (m m' : Rows) : List.NoDup (map fst m) -> m ≡ₚ m' -> rows_same m m'.
Proof.
  intros Hn Hp key.
  assert (List.NoDup (map fst m')) as Hn' by (apply NoDup_ListNoDup; rewrite <- Hp; by apply NoDup_ListNoDup).
  replace (map_get key m') with (map_get key m); [by destruct (map_get key m)|].
  destruct (map_get key m) as [v|] eqn:E; symmetry.
  - apply map_get_In; [done|]. apply map_get_Some_In in E. apply list_elem_of_In. rewrite <- Hp. by apply list_elem_of_In.
  - destruct (map_get key m') as [v'|] eqn:E'; [|done]. apply map_get_Some_In in E'.
    destruct (map_get_None _ _ E v'). apply list_elem_of_In. rewrite Hp. by apply list_elem_of_In.
Qed.

(** The key under which an entry of a slice is kept is its row's. *)
Lemma slice_keys def coerce rows key row : map_get key (slice def coerce rows) = Some row -> the_key def row = key.
Proof. intros H%map_get_Some_In. unfold slice in H. apply in_map_iff in H as (r & [= <- <-] & _). done. Qed.

(** What a client builds from the sorted rows of an entry is what the entry holds. *)
Lemma snapshot_view_rows def coerce stored_rows rows cmp :
  List.NoDup (map fst rows) -> rows_same rows (slice def coerce stored_rows) ->
  rows_same (snapshot_view def (toSorted cmp (map snd rows))) rows.
Proof.
  intros Hn Hs.
  assert (map (fun row => (the_key def row, row)) (map snd rows) = rows) as E.
  { rewrite map_map. rewrite <- (map_id rows) at 2. apply map_ext_in. intros [k row] Hin. simpl. f_equal.
    specialize (Hs k). rewrite (map_get_In _ _ _ Hn Hin) in Hs.
    destruct (map_get k (slice def coerce stored_rows)) as [r|] eqn:Er; simpl in Hs; [|done].
    apply slice_keys in Er. rewrite <- Er. unfold the_key. by rewrite Hs. }
  assert (map (fun row => (the_key def row, row)) (toSorted cmp (map snd rows)) ≡ₚ rows) as P.
  { rewrite <- E at 2. by apply Permutation_map, toSorted_perm. }
  assert (List.NoDup (map fst (map (fun row => (the_key def row, row)) (toSorted cmp (map snd rows))))) as Hn'
    by (apply NoDup_ListNoDup; rewrite P; by apply NoDup_ListNoDup).
  rewrite snapshot_view_fresh by (by rewrite map_map in Hn'). by apply perm_rows_same.
Qed.

(** ** Reading a table *)

(** A driver's row that stands for a stored one: the declared columns, each with a value
    that reads as the stored one. *)
Record reads (table : Table) (raw image : Row) : Prop := {
  reads_names : List.NoDup (map fst raw);
  reads_columns : forall name, List.In name (map fst raw) <-> exists key spec, List.In (key, spec) (byKey table) /\ col_name spec = name;
  reads_values : forall key spec, List.In (key, spec) (byKey table) ->
    same_stored (col_kind spec) (get_cell raw (col_name spec)) (get_cell image (col_name spec))
}.

(** The columns of a table: distinct keys, distinct SQL names. *)
Definition table_ok (table : Table) : Prop :=
  List.NoDup (map (fun kv => col_name kv.2) (byKey table)) /\ List.NoDup (map fst (byKey table)).

Lemma map_get_declared {V} key (m : JsMap V) : is_Some (map_get key m) -> exists v, List.In (key, v) m.
Proof. intros [v H%map_get_Some_In]. by exists v. Qed.

Lemma reads_coerce def table raw image :
  table_ok table -> declared def table -> reads table raw image ->
  normalizeWire (projectRow (hydrate table raw) (s_columns def)) = coerceImage def table image.
Proof.
  intros [Hn Hk] Hd [Rn Rc Rv]. apply hydrate_coerce; [exact Hn|exact Hk|exact Rn|exact Rc|].
  intros c Hc. destruct (map_get_declared _ _ (Hd c Hc)) as [spec Hin]. exists spec. split; [done|by eapply Rv].
Qed.

(** The rows [fetchRows] makes of a read are the slice of the table. *)
Lemma fetchRows_slice def table drivers rows :
  table_ok table -> declared def table -> Forall2 (reads table) drivers rows ->
  fetchRows def (map (hydrate table) drivers) = List.filter (matchesShape def) (map (coerceImage def table) rows).
Proof.
  intros Ht Hd H. unfold fetchRows. rewrite map_map. f_equal.
  induction H as [|raw image drivers rows Hr _ IH]; [done|]. simpl. by rewrite (reads_coerce def table raw image Ht Hd Hr), IH.
Qed.

Lemma key_rows_slice def coerce rows :
  keyed_table def coerce rows ->
  key_rows def (List.filter (matchesShape def) (map coerce rows)) = Ok (slice def coerce rows).
Proof.
  intros [_ Hs]. unfold slice, key_rows.
  assert (forall r, List.In r (List.filter (matchesShape def) (map coerce rows)) -> is_set (get_cell r (s_key def)) = true) as H.
  { intros r [(r0 & <- & Hr)%in_map_iff _]%filter_In. by apply Hs. }
  induction (List.filter _ _) as [|r l IH]; [done|]. cbn [map_outcome map].
  assert (rowKey r (s_key def) = Ok (the_key def r)) as ->.
  { specialize (H r ltac:(by left)). unfold rowKey, the_key. by destruct (get_cell r (s_key def)). }
  cbn [outcome_bind]. rewrite IH by (intros; apply H; by right). done.
Qed.

Lemma slice_NoDup def coerce rows : keyed_table def coerce rows -> List.NoDup (map fst (slice def coerce rows)).
Proof.
  intros [Hn _]. unfold slice. rewrite map_map. simpl. apply NoDup_ListNoDup.
  apply NoDup_ListNoDup in Hn. rewrite <- (map_map coerce (the_key def)) in Hn.
  revert Hn. induction (map coerce rows) as [|r l IH]; simpl; [done|]. intros [Hr Hn]%NoDup_cons.
  destruct (matchesShape def r); simpl; [|auto]. apply NoDup_cons. split; [|auto].
  intros (x & E & Hx)%list_elem_of_fmap. apply Hr. apply list_elem_of_fmap. exists x. split; [done|].
  apply list_elem_of_In. apply list_elem_of_In, filter_In in Hx. apply Hx.
Qed.

(** ** The system *)

(** A [subscribe] call that waits: for the catalog's answer, for its seed read to be sent,
    or with what the database answered. *)
Inductive Call : Type :=
| Probing (p : Pending)
| Reading (p : Pending)
| Seeding (p : Pending) (drivers : list Row).

Definition call_pending (c : Call) : Pending :=
  match c with Probing p | Reading p | Seeding p _ => p end.

(** The engine, the tables at the position the replication stream has reached, what the
    clients hold, and the calls that wait. *)
Record Sys : Type := mkSys { engine : Engine; store : Store; views : Views; calls : list Call }.

Definition set_table (t : string) (rows : list Row) (sto : Store) : Store :=
  fun t' => if String.eqb t' t then rows else sto t'.

Definition change_identity (change : ReplicationChange) : SystemIdentity :=
  mkIdentity (ch_systemId change) (ch_timelineId change).

(** What happens: a statement and its message; a TRUNCATE, which has none; the identity of
    the database told at a connect, with the tables it has; the same told by the first
    message of a promoted database; the life of [subscribe] calls; and the rest. *)
Inductive Label : Type :=
| Commit (full : bool) (op : TableOp) (change : ReplicationChange) (at_ now : Z) (rows' : list Row)
| Truncate (t : string)
| Connect (identity : SystemIdentity) (sto' : Store)
| Promoted (change : ReplicationChange) (at_ now : Z) (sto' : Store)
| Join (s : nat) (def : ShapeDefinition)
| Begin (s : nat) (def : ShapeDefinition)
| Probed (p : Pending) (full : bool)
| Read (p : Pending) (drivers : list Row)
| Publish (p : Pending) (drivers : list Row)
| Refused (c : Call)
| Unsubscribe (s : nat) (id : string)
| Stop.

Section System.
Context (tables : list Table) (options : ReplayOptions)
        (change_ok : nat -> ShapeChange -> bool) (resync_ok : nat -> bool) (pk : string -> string).

(** A new subscriber: its number names no other. *)
Definition fresh (s : nat) (st : Engine) : Prop :=
  forall id e, map_get id (shapes st) = Some e -> ~ List.In s (en_subscribers e).

(** No live shape has the id of another definition. *)
Definition no_collision (def : ShapeDefinition) (st : Engine) : Prop :=
  forall e, map_get (shapeId def) (shapes st) = Some e -> en_def e = def.

(** The new tuple of an update on a table that is not FULL has all its values. *)
Definition all_sent (full : bool) (op : TableOp) (sent : RowOp) : Prop :=
  forall old new newImage oldImage kind, full = false -> op = OpUpdate old new ->
    sent = RUpdate newImage oldImage kind -> forall column, get_cell newImage column = get_cell new column.

(** What the stream delivers to a stopped engine reaches nobody. *)
Definition heard (f : Engine -> Engine * list Effect) (st : Engine) : Engine * list Effect :=
  if attached st then f st else (st, []).

(** The handlers of the engine, with what the database and the drivers do around them. A
    seed read may answer anything here, since the database can be ahead of the stream. *)
Inductive sys_step : Label -> Sys -> Sys -> Prop :=
| step_commit full op change at_ now rows' st sto vs cs st' effects :
    applies op (sto (ch_table change)) rows' ->
    emits full (pk (ch_table change)) op (ch_op change) ->
    constraints tables (set_table (ch_table change) rows' sto) ->
    heard (onSourceChange change_ok resync_ok change at_ now) st = (st', effects) ->
    sys_step (Commit full op change at_ now rows') (mkSys st sto vs cs)
      (mkSys st' (set_table (ch_table change) rows' sto) (view_effects effects vs) cs)
| step_truncate t st sto vs cs :
    constraints tables (set_table t [] sto) ->
    sys_step (Truncate t) (mkSys st sto vs cs) (mkSys st (set_table t [] sto) vs cs)
| step_connect identity sto' st sto vs cs st' effects :
    constraints tables sto' ->
    heard (revealIdentity resync_ok identity) st = (st', effects) ->
    sys_step (Connect identity sto') (mkSys st sto vs cs) (mkSys st' sto' (view_effects effects vs) cs)
| step_promoted change at_ now sto' st sto vs cs st' effects :
    constraints tables sto' ->
    heard (onSourceChange change_ok resync_ok change at_ now) st = (st', effects) ->
    sys_step (Promoted change at_ now sto') (mkSys st sto vs cs) (mkSys st' sto' (view_effects effects vs) cs)
| step_join s def st sto vs cs st' sub :
    fresh s st -> shape_ok def ->
    subscribe_start tables s def None st = Ok (Done st' sub) ->
    sys_step (Join s def) (mkSys st sto vs cs)
      (mkSys st' sto (set_view s (Some (snapshot_view def (sub_snapshot sub))) vs) cs)
| step_begin s def st sto vs cs p :
    shape_ok def -> subscribe_start tables s def None st = Ok (Await p) ->
    sys_step (Begin s def) (mkSys st sto vs cs) (mkSys st sto vs (Probing p :: cs))
| step_probed p full p' st sto vs cs1 cs2 :
    subscribe_probed full p = Ok p' ->
    sys_step (Probed p full) (mkSys st sto vs (cs1 ++ Probing p :: cs2)) (mkSys st sto vs (cs1 ++ Reading p' :: cs2))
| step_read p drivers st sto vs cs1 cs2 :
    sys_step (Read p drivers) (mkSys st sto vs (cs1 ++ Reading p :: cs2)) (mkSys st sto vs (cs1 ++ Seeding p drivers :: cs2))
| step_publish p drivers st sto vs cs1 cs2 st' sub :
    fresh (pe_subscriber p) st ->
    subscribe_seeded (Some options) (map (hydrate (pe_table p)) drivers) p st = Ok (st', sub) ->
    sys_step (Publish p drivers) (mkSys st sto vs (cs1 ++ Seeding p drivers :: cs2))
      (mkSys st' sto (set_view (pe_subscriber p) (Some (snapshot_view (pe_def p) (sub_snapshot sub))) vs) (cs1 ++ cs2))
| step_refused c st sto vs cs1 cs2 :
    sys_step (Refused c) (mkSys st sto vs (cs1 ++ c :: cs2)) (mkSys st sto vs (cs1 ++ cs2))
| step_unsubscribe s id st sto vs cs :
    sys_step (Unsubscribe s id) (mkSys st sto vs cs) (mkSys (unsubscribe s id st) sto vs cs)
| step_stop st sto vs cs :
    sys_step Stop (mkSys st sto vs cs) (mkSys (stop st) sto vs cs).

(** The steps after which the slices are right: an update's message has all its values; the
    truncated table is watched by no shape; a changed database tells a changed identity; no
    live shape with the id has another definition; and where a call publishes its entry,
    the engine is not stopped, no other call has published one for the id, the columns are
    the table's, and the rows the seed read answered are still those at the stream's
    position. *)
Definition fenced (l : Label) (sys : Sys) : Prop :=
  match l with
  | Commit full op change _ _ _ => all_sent full op (ch_op change)
  | Truncate t => forall id e, map_get id (shapes (engine sys)) = Some e -> s_table (en_def e) <> t
  | Connect identity sto' =>
      sto' = store sys \/ exists live, liveIdentity (engine sys) = Some live /\ same_identity live identity = false
  | Promoted change _ _ _ =>
      isValidLsn (ch_commitLSN change) = true /\
      exists live, liveIdentity (engine sys) = Some live /\ same_identity live (change_identity change) = false
  | Join _ def => no_collision def (engine sys)
  | Publish p drivers =>
      attached (engine sys) = true /\ map_get (pe_id p) (shapes (engine sys)) = None /\
      declared (pe_def p) (pe_table p) /\ Forall2 (reads (pe_table p)) drivers (store sys (s_table (pe_def p)))
  | _ => True
  end.

Definition fenced_step (sys sys' : Sys) : Prop := exists l, fenced l sys /\ sys_step l sys sys'.

Definition initial (sto : Store) : Sys := mkSys (createShapeEngine (Some options)) sto (fun _ => None) [].

Definition reachable (sto : Store) (sys : Sys) : Prop := rtc fenced_step (initial sto) sys.

(** ** The invariant *)

Record synced (sto : Store) (vs : Views) (st : Engine) : Prop := {
  synced_entries : forall id e, map_get id (shapes st) = Some e -> entry_ok tables e /\ entry_synced sto vs e;
  synced_disjoint : disjoint (shapes st);
  synced_ids : ids_distinct (shapes st)
}.

Lemma midway_synced sto sto' st vs : midway tables sto sto' [] st vs -> synced sto' vs st.
Proof. intros (_ & _ & He & Hd & Hi). split; [|done|done]. intros id e H. by destruct (He id e H). Qed.

Lemma synced_midway sto sto' st vs : synced sto vs st -> midway tables sto sto' (shapes st) st vs.
Proof.
  intros [He Hd Hi]. split; [exact Hi|]. split; [intros id e Hin; by apply map_get_In|]. split; [|done].
  intros id e H. destruct (He id e H) as [Hok Hsync]. split; [done|]. destruct (in_dec _ _ _) as [_|N]; [done|].
  destruct N. apply map_get_Some_In in H. by apply (in_map fst) in H.
Qed.

Lemma fold_delete_get (test : ShapeEntry -> bool) l (m : JsMap ShapeEntry) k :
  map_get k (fold_left (fun m kv => if test kv.2 then map_delete kv.1 m else m) l m) =
  if existsb (fun kv => test kv.2 && String.eqb kv.1 k) l then None else map_get k m.
Proof.
  revert m. induction l as [|[id e] l IH]; intros m; [done|]. cbn [fold_left existsb fst snd]. rewrite IH.
  destruct (test e); [|done]. rewrite map_get_delete, (String.eqb_sym k id).
  by destruct (existsb _ l), (String.eqb id k).
Qed.

Lemma fold_delete_distinct (test : ShapeEntry -> bool) l (m : JsMap ShapeEntry) :
  ids_distinct m -> ids_distinct (fold_left (fun m kv => if test kv.2 then map_delete kv.1 m else m) l m).
Proof.
  revert m. induction l as [|kv l IH]; intros m H; [done|]. simpl. apply IH. destruct (test _); [by apply map_delete_NoDup|done].
Qed.

(** Dropping the shapes a test selects keeps the rest in sync, with any store in which
    the rest is as before. *)
Lemma drop_synced test sto sto' vs st :
  synced sto vs st -> (forall e, test e = false -> authorized sto' e = authorized sto e) ->
  let '(st', effects) := drop_where resync_ok test (shapes st) st in synced sto' (view_effects effects vs) st'.
Proof.
  intros [He Hd Hi] Hsame. destruct (drop_where_spec resync_ok test (shapes st) st) as [Hs Hr].
  destruct (drop_where resync_ok test (shapes st) st) as [st' effects]. simpl in Hs, Hr.
  assert (forall id e, map_get id (shapes st') = Some e -> map_get id (shapes st) = Some e /\ test e = false) as K.
  { intros id e H. rewrite Hs, fold_delete_get in H. destruct (existsb _ _) eqn:E; [done|]. split; [done|].
    rewrite existsb_false in E. pose proof H as Hin%map_get_Some_In. specialize (E _ Hin). simpl in E.
    rewrite String.eqb_refl in E. by destruct (test e). }
  split.
  - intros id e H. destruct (K id e H) as [Hget Hte]. destruct (He id e Hget) as [Hok Hsync]. split; [done|].
    assert (entry_synced sto' vs e) as G by (unfold entry_synced in *; by rewrite (Hsame e Hte)).
    eapply synced_views; [|exact G]. intros s Hin. apply view_effects_other. intros x Hx Hreach.
    destruct (Hr x s Hx Hreach) as ([id' e'] & Hin' & Ht' & Hs'). simpl in *.
    apply (map_get_In _ _ _ Hi) in Hin'.
    pose proof (Hd _ _ _ _ _ Hget Hin' Hin Hs') as ->. rewrite Hget in Hin'. injection Hin' as ->. by rewrite Ht' in Hte.
  - intros i1 e1 i2 e2 s H1 H2. apply K in H1 as [H1 _]. apply K in H2 as [H2 _]. by eapply Hd.
  - rewrite Hs. by apply fold_delete_distinct.
Qed.

Lemma synced_identity i sto vs st : synced sto vs st -> synced sto vs (set_identity i st).
Proof. intros [He Hd Hi]. by split. Qed.

Lemma synced_empty sto vs st : shapes st = [] -> synced sto vs st.
Proof.
  intros H. split; unfold disjoint, ids_distinct; rewrite ?H; try done. constructor.
Qed.

(** ** Statements and failovers *)

Hypothesis keys : primary_keys tables pk.

Lemma reveal_keeps identity sto vs st :
  synced sto vs st -> (forall live, liveIdentity st = Some live -> same_identity live identity = true) ->
  let '(st', effects) := revealIdentity resync_ok identity st in synced sto (view_effects effects vs) st'.
Proof.
  intros H Hl. unfold revealIdentity. destruct (liveIdentity st) as [live|]; [rewrite (Hl live eq_refl)|];
    by apply synced_identity.
Qed.

(** A change of identity drops every shape, whatever the promoted database holds. *)
Lemma reveal_drops identity live sto sto' vs st :
  synced sto vs st -> liveIdentity st = Some live -> same_identity live identity = false ->
  let '(st', effects) := revealIdentity resync_ok identity st in
  synced sto' (view_effects effects vs) st' /\ shapes st' = [].
Proof.
  intros H El En. unfold revealIdentity. rewrite El, En.
  destruct (drop_where_spec resync_ok (fun _ => true) (shapes st) st) as [Hs _].
  destruct (drop_where resync_ok _ (shapes st) st) as [st' effects]. simpl in Hs.
  assert (shapes st' = []) as E.
  { destruct (shapes st') as [|[id e] m] eqn:Em; [done|]. pose proof (fold_delete_get (fun _ => true) (shapes st) (shapes st) id) as G.
    cbn [andb] in G. rewrite <- Hs, map_has in G. unfold map_get in G at 1. simpl in G. rewrite String.eqb_refl in G.
    case_bool_decide as Hn; [done|]. rewrite <- G in Hn. destruct Hn. by eexists. }
  split; [|done]. by apply synced_identity, synced_empty.
Qed.

Lemma change_loop_nil identity change at_ now st : change_loop change_ok resync_ok identity change at_ now [] st = (st, []).
Proof. done. Qed.

Section Commit.
Context (full : bool) (op : TableOp) (change : ReplicationChange) (at_ now : Z) (rows' : list Row) (sto : Store).
Hypothesis op_applies : applies op (sto (ch_table change)) rows'.
Hypothesis op_emits : emits full (pk (ch_table change)) op (ch_op change).
Hypothesis op_sent : all_sent full op (ch_op change).
Hypothesis before_ok : constraints tables sto.
Hypothesis after_ok : constraints tables (set_table (ch_table change) rows' sto).

Lemma set_table_other t : t <> ch_table change -> set_table (ch_table change) rows' sto t = sto t.
Proof. intros H. unfold set_table. by destruct (String.eqb_spec t (ch_table change)). Qed.

Lemma set_table_same : set_table (ch_table change) rows' sto (ch_table change) = rows'.
Proof. unfold set_table. by rewrite String.eqb_refl. Qed.

Lemma commit_carried e : entry_ok tables e -> carried change sto (set_table (ch_table change) rows' sto) e.
Proof.
  intros [Er Es Ed (classify & registered & Ec & Eb) _] classify' Ec' Et. rewrite Ec in Ec'. injection Ec' as <-.
  destruct (before_ok _ _ Er (ok_key_projected _ Es) Ed) as [Kb Sb].
  destruct (after_ok _ _ Er (ok_key_projected _ Es) Ed) as [Ka Sa].
  unfold authorized. rewrite Et in *. rewrite set_table_same in *.
  assert (carries (en_def e) (coerceImage (en_def e) (en_table e))
            (predicateNeedsOldImage (en_def e) (key_is_primary (en_def e) (en_table e))) op (sto (ch_table change)) rows' (classify change)) as C.
  { apply (classify_carries _ _ (pk (ch_table change)) registered full); try done.
    - apply Es.
    - intros f Hf. pose proof (ok_where _ Es) as W. rewrite List.Forall_forall in W. by apply (W f Hf).
    - intros Hp. rewrite <- Et. by apply keys.
    - intros r [Hr|Hr]; auto.
    - intros old new newImage oldImage kind Hf Ho Hc c _. by eapply op_sent. }
  unfold carries in C. by destruct (classify change) as [[c|]|].
Qed.

Lemma loop_synced identity vs st :
  synced sto vs st ->
  let '(st', effects) := change_loop change_ok resync_ok identity change at_ now (shapes st) st in
  synced (set_table (ch_table change) rows' sto) (view_effects effects vs) st'.
Proof.
  intros H. pose proof (change_loop_synced tables change_ok resync_ok identity change at_ now sto
    (set_table (ch_table change) rows' sto) set_table_other commit_carried (shapes st) st vs (synced_midway _ _ _ _ H)) as L.
  destruct (change_loop _ _ _ _ _ _ _ _) as [st' effects]. by eapply midway_synced.
Qed.

(** A statement and its message, whatever position and identity the message carries. *)
Lemma commit_synced vs st :
  synced sto vs st ->
  let '(st', effects) := onSourceChange change_ok resync_ok change at_ now st in
  synced (set_table (ch_table change) rows' sto) (view_effects effects vs) st'.
Proof.
  intros H. unfold onSourceChange. destruct (isValidLsn (ch_commitLSN change)); cbn [negb].
  - fold (change_identity change).
    assert (let '(st', effects) := revealIdentity resync_ok (change_identity change) st in
            synced sto (view_effects effects vs) st') as R.
    { destruct (liveIdentity st) as [live|] eqn:El; [destruct (same_identity live (change_identity change)) eqn:En|].
      - apply reveal_keeps; [done|]. intros live' E. rewrite El in E. by injection E as <-.
      - pose proof (reveal_drops _ _ sto sto vs st H El En) as D. destruct (revealIdentity _ _ _) as [st' effects]. apply D.
      - apply reveal_keeps; [done|]. intros live E. by rewrite El in E. }
    destruct (revealIdentity _ _ _) as [st1 effects1]. pose proof (loop_synced (change_identity change) _ _ R) as L.
    destruct (change_loop _ _ _ _ _ _ _ _) as [st2 effects2]. by rewrite view_effects_app.
  - pose proof (drop_synced (fun e => String.eqb (s_table (en_def e)) (ch_table change)) sto
      (set_table (ch_table change) rows' sto) vs st H) as D.
    destruct (drop_where resync_ok _ (shapes st) st) as [st' effects]. apply D.
    intros e He. apply String.eqb_neq in He. unfold authorized. by rewrite set_table_other.
Qed.
End Commit.

(** ** Subscriptions *)

(** Replacing one entry's subscribers, the others' views untouched. *)
Lemma resubscribed_synced id e subs sto vs vs' st :
  synced sto vs st -> map_get id (shapes st) = Some e -> List.NoDup subs ->
  (forall s, List.In s subs -> exists v, vs' s = Some v /\ rows_same v (en_rows e)) ->
  (forall s id' e', id' <> id -> map_get id' (shapes st) = Some e' -> List.In s (en_subscribers e') ->
     vs' s = vs s /\ ~ List.In s subs) ->
  synced sto vs' (set_shapes (map_set id (set_subscribers subs e) (shapes st)) st).
Proof.
  intros [He Hd Hi] Hget Hn Hv Hother. destruct (He id e Hget) as [Hok [Hr _]].
  split; cbn [shapes set_shapes]; [| |by apply map_set_NoDup].
  - intros id' e'. rewrite map_get_set. destruct (String.eqb_spec id' id) as [->|N].
    + intros [= <-]. destruct Hok as [? ? ? ? _]. split; [by split|by split].
    + intros H. destruct (He id' e' H) as [Hok' Hsync]. split; [done|].
      eapply synced_views; [|exact Hsync]. intros s Hs. by destruct (Hother s id' e' N H Hs).
  - intros i1 e1 i2 e2 s. rewrite !map_get_set.
    destruct (String.eqb_spec i1 id) as [->|N1], (String.eqb_spec i2 id) as [->|N2]; intros H1 H2 S1 S2; [done| | |by eapply Hd].
    + injection H1 as <-. by destruct (Hother s i2 e2 N2 H2 S2).
    + injection H2 as <-. by destruct (Hother s i1 e1 N1 H1 S1).
Qed.

Lemma finish_synced s def id since e sto vs st :
  synced sto vs st -> map_get id (shapes st) = Some e -> en_def e = def -> fresh s st ->
  let '(st', sub) := subscribe_finish s def id since e st in
  synced sto (set_view s (Some (snapshot_view def (sub_snapshot sub))) vs) st'.
Proof.
  intros H Hget <- Hf. unfold subscribe_finish. cbn [sub_snapshot en_rows set_subscribers].
  destruct (synced_entries _ _ _ H id e Hget) as [Hok [[Hn Hr] Hv]].
  apply (resubscribed_synced id e _ sto vs); try done.
  - apply List.NoDup_app; [apply Hok|apply List.NoDup_cons; [by intros []|apply List.NoDup_nil]|]. intros t Ht [<-|[]]. by eapply Hf.
  - intros t [Ht|[<-|[]]]%in_app_iff; unfold set_view.
    + destruct (Nat.eqb_spec t s) as [->|N]; [exfalso; by eapply Hf|auto].
    + rewrite Nat.eqb_refl. eexists. split; [done|]. by eapply snapshot_view_rows.
  - intros t id' e' N H' Ht. unfold set_view. destruct (Nat.eqb_spec t s) as [->|Nt]; [exfalso; by eapply Hf|].
    split; [done|]. intros [Hin|[->|[]]]%in_app_iff; [|done]. apply N. by eapply (synced_disjoint _ _ _ H).
Qed.

(** A new entry, still without subscribers. *)
Lemma seeded_synced id e sto vs st :
  synced sto vs st -> map_get id (shapes st) = None -> entry_ok tables e -> en_subscribers e = [] ->
  List.NoDup (map fst (en_rows e)) -> rows_same (en_rows e) (authorized sto e) ->
  synced sto vs (set_shapes (map_set id e (shapes st)) st).
Proof.
  intros [He Hd Hi] Hget Hok Hs Hn Hr. split; cbn [shapes set_shapes]; [| |by apply map_set_NoDup].
  - intros id' e'. rewrite map_get_set. destruct (String.eqb_spec id' id) as [->|N]; [|by apply He].
    intros [= <-]. split; [done|]. split; [done|]. by rewrite Hs.
  - intros i1 e1 i2 e2 s. rewrite !map_get_set.
    destruct (String.eqb_spec i1 id) as [->|N1], (String.eqb_spec i2 id) as [->|N2]; intros H1 H2 S1 S2; [done| | |by eapply Hd].
    + injection H1 as <-. by rewrite Hs in S1.
    + injection H2 as <-. by rewrite Hs in S2.
Qed.

Hypothesis tables_ok : forall def table, resolveTable tables def = Ok table -> table_ok table.

Lemma join_synced s def sto vs st st' sub :
  synced sto vs st -> fresh s st -> no_collision def st -> shape_ok def ->
  subscribe_start tables s def None st = Ok (Done st' sub) ->
  shapes st <> [] /\ synced sto (set_view s (Some (snapshot_view def (sub_snapshot sub))) vs) st'.
Proof.
  intros H Hf Hnc Hs E. unfold subscribe_start in E. rewrite validate_complete in E by done. cbn [lift_protocol outcome_bind] in E.
  destruct (resolveTable tables def) as [table|]; [|done]. cbn [outcome_bind] in E.
  destruct (map_get (shapeId def) (shapes st)) as [e|] eqn:Hget; [|done].
  pose proof (finish_synced s def (shapeId def) None e sto vs st H Hget (Hnc e Hget) Hf) as F.
  destruct (subscribe_finish _ _ _ _ _ _). injection E as <- <-. split; [|done]. by intros E; rewrite E in Hget.
Qed.

(** What a waiting call has worked out. *)
Definition call_ok (c : Call) : Prop :=
  let p := call_pending c in
  shape_ok (pe_def p) /\ resolveTable tables (pe_def p) = Ok (pe_table p) /\
  match c with
  | Probing _ => True
  | _ => exists classify registered, pe_classify p = Some classify /\ buildClassifier (pe_def p) (pe_table p) registered = Ok classify
  end.

Lemma begin_ok s def st p : shape_ok def -> subscribe_start tables s def None st = Ok (Await p) -> call_ok (Probing p).
Proof.
  intros Hs E. unfold subscribe_start in E. rewrite validate_complete in E by done. cbn [lift_protocol outcome_bind] in E.
  destruct (resolveTable tables def) as [table|] eqn:Er; [|done]. cbn [outcome_bind] in E.
  destruct (map_get _ _); [by destruct (subscribe_finish _ _ _ _ _ _)|]. injection E as <-. done.
Qed.

Lemma probed_ok p full p' : call_ok (Probing p) -> subscribe_probed full p = Ok p' -> call_ok (Reading p').
Proof.
  intros (Hs & Er & _) E. unfold subscribe_probed in E.
  destruct (buildClassifier (pe_def p) (pe_table p) full) as [classify|] eqn:Eb; [|done]. injection E as <-.
  split; [done|]. split; [done|]. by exists classify, full.
Qed.

Lemma publish_synced p drivers sto vs st st' sub :
  synced sto vs st -> constraints tables sto -> call_ok (Seeding p drivers) -> fresh (pe_subscriber p) st ->
  map_get (pe_id p) (shapes st) = None -> declared (pe_def p) (pe_table p) ->
  Forall2 (reads (pe_table p)) drivers (sto (s_table (pe_def p))) ->
  subscribe_seeded (Some options) (map (hydrate (pe_table p)) drivers) p st = Ok (st', sub) ->
  synced sto (set_view (pe_subscriber p) (Some (snapshot_view (pe_def p) (sub_snapshot sub))) vs) st'.
Proof.
  intros H Hc (Hs & Er & classify & full & Ec & Eb) Hf Hget Hd Hreads E. cbn [call_pending] in *. unfold subscribe_seeded in E.
  destruct (Hc _ _ Er (ok_key_projected _ Hs) Hd) as [Hk _]. pose proof (tables_ok _ _ Er) as Ht.
  rewrite (fetchRows_slice _ _ drivers _ Ht Hd Hreads), (key_rows_slice _ _ _ Hk) in E.
  cbn [lift_protocol outcome_bind] in E. pose proof (slice_NoDup _ _ _ Hk) as Hn. rewrite key_rows_NoDup_next in E by done.
  match type of E with context [new_entry ?o ?p ?r] => set (e := new_entry o p r) in E end.
  assert (synced sto vs (set_shapes (map_set (pe_id p) e (shapes st)) st)) as H1.
  { apply seeded_synced; try done. split; try done; [exists classify, full; done|constructor]. }
  pose proof (finish_synced (pe_subscriber p) (pe_def p) (pe_id p) (pe_since p) e sto vs _ H1) as F. cbn [shapes set_shapes] in F.
  specialize (F (map_get_set_eq _ _ _) eq_refl). cbv zeta in E.
  destruct (subscribe_finish _ _ _ _ e _). injection E as <- <-. apply F.
  intros id' e'. cbn [shapes set_shapes]. rewrite map_get_set. destruct (String.eqb_spec id' (pe_id p)); [|by apply Hf].
  intros [= <-]. intros [].
Qed.

Lemma stopPolling_shapes st : shapes (stopPolling st) = shapes st.
Proof. unfold stopPolling. by destruct (polling st). Qed.

Lemma same_shapes_synced sto vs st st' : shapes st' = shapes st -> synced sto vs st -> synced sto vs st'.
Proof. intros E [He Hd Hi]. split; by rewrite E. Qed.

Lemma unsubscribe_synced s id sto vs st : synced sto vs st -> synced sto vs (unsubscribe s id st).
Proof.
  intros H. unfold unsubscribe. destruct (existsb _ _); [done|].
  set (st0 := mkEngine _ _ _ _ _ (s :: _)). assert (synced sto vs st0) as H0 by (eapply same_shapes_synced; [|exact H]; done).
  clearbody st0. clear H st. destruct (map_get id (shapes st0)) as [e|] eqn:Hget; [|done].
  destruct (synced_entries _ _ _ H0 id e Hget) as [Hok [_ Hv]].
  set (subs := List.filter _ _).
  assert (synced sto vs (set_shapes (map_set id (set_subscribers subs e) (shapes st0)) st0)) as H1.
  { apply (resubscribed_synced id e subs sto vs); try done.
    - apply List.NoDup_filter, Hok.
    - intros t [Ht _]%filter_In. auto.
    - intros t id' e' N H' Ht. split; [done|]. intros [Hin _]%filter_In. apply N. by eapply (synced_disjoint _ _ _ H0). }
  cbn [en_subscribers set_subscribers]. destruct subs as [|t ts]; [|exact H1].
  set (st1 := set_shapes _ st0) in *. clearbody st1.
  assert (synced sto vs (set_shapes (map_delete id (shapes st1)) st1)) as H2.
  { destruct H1 as [He Hd Hi]. split; cbn [shapes set_shapes]; [| |by apply map_delete_NoDup].
    - intros id' e'. rewrite map_get_delete. destruct (String.eqb _ _); [done|]. apply He.
    - intros i1 e1 i2 e2 x. rewrite !map_get_delete. destruct (String.eqb _ _); [done|]. destruct (String.eqb _ _); [done|]. apply Hd. }
  destruct (is_empty_map _); [|done]. eapply same_shapes_synced; [apply stopPolling_shapes|done].
Qed.

(** ** Attached or stopped *)

Lemma drop_where_attached test l st : attached (drop_where resync_ok test l st).1 = attached st.
Proof.
  revert st. induction l as [|[id e] l IH]; intros st; [done|]. cbn [drop_where].
  assert (attached (if test e then dropShape resync_ok id e st else (st, [])).1 = attached st) as E.
  { destruct (test e); [|done]. unfold dropShape. cbn [fst]. destruct (is_empty_map _); [|done]. unfold stopPolling. by destruct (polling _). }
  destruct (if test e then _ else _) as [st1 effects1]. cbn [fst] in E. specialize (IH st1).
  destruct (drop_where resync_ok test l st1). cbn [fst] in *. congruence.
Qed.

Lemma reveal_attached identity st : attached (revealIdentity resync_ok identity st).1 = attached st.
Proof.
  unfold revealIdentity. destruct (liveIdentity st) as [live|]; [|done]. destruct (same_identity live identity); [done|].
  pose proof (drop_where_attached (fun _ => true) (shapes st) st) as E. by destruct (drop_where _ _ _ _).
Qed.

Lemma change_shape_attached identity change at_ now id e st :
  attached (change_shape change_ok resync_ok identity change at_ now id e st).1 = attached st.
Proof.
  pose proof (drop_where_attached (fun _ => true)) as D. unfold change_shape. destruct (negb _); [done|]. destruct (en_classify e) as [classify|]; [|done].
  destruct (classify change) as [[c|]|err]; [|done|].
  - destruct (fan _ _ _ _) as [effects ok]. destruct ok; [done|].
    match goal with |- context [dropShape _ id ?e1 ?st1] => specialize (D [(id, e1)] st1); cbn [drop_where] in D;
      destruct (dropShape resync_ok id e1 st1) end. exact D.
  - specialize (D [(id, e)] st). cbn [drop_where] in D. destruct (dropShape resync_ok id e st). exact D.
Qed.

Lemma change_loop_attached identity change at_ now l st :
  attached (change_loop change_ok resync_ok identity change at_ now l st).1 = attached st.
Proof.
  revert st. induction l as [|[id e] l IH]; intros st; [done|]. cbn [change_loop].
  pose proof (change_shape_attached identity change at_ now id e st) as E. destruct (change_shape _ _ _ _ _ _ _ _ _) as [st1 effects1].
  specialize (IH st1). destruct (change_loop _ _ _ _ _ _ _ st1). cbn [fst] in *. congruence.
Qed.

Lemma source_attached change at_ now st : attached (onSourceChange change_ok resync_ok change at_ now st).1 = attached st.
Proof.
  unfold onSourceChange. destruct (negb _).
  - pose proof (drop_where_attached (fun e => String.eqb (s_table (en_def e)) (ch_table change)) (shapes st) st) as E.
    by destruct (drop_where _ _ _ _).
  - pose proof (reveal_attached (mkIdentity (ch_systemId change) (ch_timelineId change)) st) as E.
    destruct (revealIdentity _ _ _) as [st1 effects1]. cbn [fst] in E.
    pose proof (change_loop_attached (mkIdentity (ch_systemId change) (ch_timelineId change)) change at_ now (shapes st1) st1) as E'.
    destruct (change_loop _ _ _ _ _ _ _ st1). cbn [fst] in *. congruence.
Qed.

Lemma unsubscribe_attached s id st :
  attached (unsubscribe s id st) = attached st /\ (shapes st = [] -> shapes (unsubscribe s id st) = []).
Proof.
  unfold unsubscribe. destruct (existsb _ _); [done|]. set (st0 := mkEngine _ _ _ _ _ _).
  assert (attached st0 = attached st /\ shapes st0 = shapes st) as [E1 E2] by done. rewrite <- E1, <- E2. clearbody st0.
  destruct (map_get id (shapes st0)) as [e|] eqn:G; [|done]. split; [|by intros E; rewrite E in G].
  cbn [en_subscribers set_subscribers]. destruct (List.filter _ _); [|done].
  destruct (is_empty_map _); [|done]. unfold stopPolling. by destruct (polling _).
Qed.

(** ** The theorem *)

(** The invariant of the system: a stopped engine has no shape. *)
Record good (sys : Sys) : Prop := {
  good_constraints : constraints tables (store sys);
  good_synced : synced (store sys) (views sys) (engine sys);
  good_calls : Forall call_ok (calls sys);
  good_stopped : attached (engine sys) = false -> shapes (engine sys) = []
}.

(** A step that leaves the calls alone. *)
Lemma good_event st sto vs cs st' sto' vs' :
  good (mkSys st sto vs cs) -> constraints tables sto' -> synced sto' vs' st' ->
  (attached st' = attached st) -> (attached st = false -> shapes st' = []) -> good (mkSys st' sto' vs' cs).
Proof. intros [_ _ Hcs _] Hc Hs Ea He. split; [done|done|done|]. cbn. by rewrite Ea. Qed.

(** A handler of the stream: it keeps the slices right where it is heard. *)
Lemma good_heard f st sto vs cs st' effects sto' :
  good (mkSys st sto vs cs) -> constraints tables sto' -> heard f st = (st', effects) ->
  attached (f st).1 = attached st ->
  (synced sto vs st -> let '(st', effects) := f st in synced sto' (view_effects effects vs) st') ->
  good (mkSys st' sto' (view_effects effects vs) cs).
Proof.
  intros H Hc E Ha Hf. pose proof (good_synced _ H) as Hs. pose proof (good_stopped _ H) as Hst. cbn in Hs, Hst. unfold heard in E.
  destruct (attached st) eqn:A.
  - specialize (Hf Hs). rewrite E in Ha, Hf. cbn [fst] in Ha. eapply good_event; [exact H|done|done|congruence|by rewrite A].
  - injection E as <- <-. eapply good_event; [exact H|done|by apply synced_empty, Hst|done|by intros _; apply Hst].
Qed.

Lemma calls_replaced c cs1 cs2 (cs : list Call) : Forall call_ok (cs1 ++ c :: cs2) -> (call_ok c -> Forall call_ok cs) -> Forall call_ok (cs1 ++ cs ++ cs2).
Proof. rewrite !Forall_app, Forall_cons. intros (H1 & Hc & H2) H. auto. Qed.

Lemma step_good l sys sys' : fenced l sys -> sys_step l sys sys' -> good sys -> good sys'.
Proof.
  intros F S. inversion S as [full op change at_ now rows' st sto vs cs st' effects A Em Hc E|t st sto vs cs Hc
    |identity sto' st sto vs cs st' effects Hc E|change at_ now sto' st sto vs cs st' effects Hc E
    |s def st sto vs cs st' sub Hf Hs E|s def st sto vs cs p Hs E|p full p' st sto vs cs1 cs2 E|p drivers st sto vs cs1 cs2
    |p drivers st sto vs cs1 cs2 st' sub Hf E|c st sto vs cs1 cs2|s id st sto vs cs|st sto vs cs];
    subst; cbn [fenced engine store] in F; intros H;
    pose proof (good_constraints _ H) as Hc0; pose proof (good_synced _ H) as Hs0; pose proof (good_calls _ H) as Hcs; pose proof (good_stopped _ H) as Hst;
    cbn [engine store views calls] in *.
  - eapply good_heard; [exact H|done|exact E|apply source_attached|]. intros H'. by apply (commit_synced full op).
  - eapply good_event; [exact H|done| |done|exact Hst]. destruct Hs0 as [He Hd Hi]. split; [|done|done].
    intros id e G. destruct (He id e G) as [Hok [[Hn Hr] Hv]]. split; [done|]. split; [split; [done|]|done].
    rewrite Hr. unfold authorized, set_table. specialize (F id e G). by destruct (String.eqb_spec (s_table (en_def e)) t).
  - eapply good_heard; [exact H|done|exact E|apply reveal_attached|]. intros H'.
    destruct (liveIdentity st) as [live|] eqn:El; [destruct (same_identity live identity) eqn:En|].
    + destruct F as [->|(live' & [= <-] & F)]; [|congruence]. apply reveal_keeps; [done|]. rewrite El. by intros ? [= <-].
    + pose proof (reveal_drops identity live sto sto' vs st H' El En) as D. destruct (revealIdentity _ _ _). apply D.
    + destruct F as [->|(live' & [=] & _)]. apply reveal_keeps; [done|]. by rewrite El.
  - destruct F as (L & live & El & En). eapply good_heard; [exact H|done|exact E|apply source_attached|]. intros H'.
    unfold onSourceChange. rewrite L. cbn [negb]. fold (change_identity change).
    pose proof (reveal_drops (change_identity change) live sto sto' vs st H' El En) as D.
    destruct (revealIdentity _ _ _) as [st1 effects1]. destruct D as [D E1]. rewrite E1, change_loop_nil. by rewrite app_nil_r.
  - destruct (join_synced s def sto vs st st' sub Hs0 Hf F Hs E) as [Ne J].
    eapply good_event; [exact H|done|exact J| |by intros A; apply Hst in A].
    unfold subscribe_start in E. destruct (lift_protocol _) as [v|]; [|done]. cbn [outcome_bind] in E.
    destruct (resolveTable tables v); [|done]. cbn [outcome_bind] in E. destruct (map_get _ _); [|done]. by injection E as <- _.
  - split; cbn; [done|done| |done]. apply Forall_cons. split; [by eapply begin_ok|done].
  - split; cbn; [done|done| |done]. apply (calls_replaced (Probing p) cs1 cs2 [Reading p'] Hcs).
    intros Hp. apply Forall_singleton. by eapply probed_ok.
  - split; cbn; [done|done| |done]. apply (calls_replaced (Reading p) cs1 cs2 [Seeding p drivers] Hcs). intros Hp. by apply Forall_singleton.
  - destruct F as (A & G & Hd & Hr). rewrite Forall_app, Forall_cons in Hcs. destruct Hcs as (H1 & Hp & H2).
    pose proof (publish_synced p drivers sto vs st st' sub Hs0 Hc0 Hp Hf G Hd Hr E) as P.
    split; cbn; [done|done|by apply Forall_app|]. unfold subscribe_seeded in E.
    destruct (lift_protocol _); [|done]. cbn [outcome_bind] in E. injection E as <- _. cbn. congruence.
  - split; cbn; [done|done| |done]. by apply (calls_replaced c cs1 cs2 [] Hcs).
  - destruct (unsubscribe_attached s id st) as [Ea Ee]. eapply good_event; [exact H|done|by apply unsubscribe_synced|exact Ea|auto].
  - split; cbn; [done|by apply synced_empty|done|done].
Qed.

Lemma reachable_good sto sys : constraints tables sto -> reachable sto sys -> good sys.
Proof.
  intros Hc R. assert (good (initial sto)) as I by (split; cbn; [done|by apply synced_empty|done|done]).
  unfold reachable in R. revert I. induction R as [sys|sys sys' sys'' (l & F & S) _ IH]; [done|]. intros I. apply IH. by eapply step_good.
Qed.
End System.


(** ** Two clients in a room *)

Lemma messages_resolve def table : resolveTable [messages] def = Ok table -> table = messages /\ s_key def = "id"%string.
Proof.
  unfold resolveTable. change (tableMap [messages]) with [("messages"%string, messages)].
  unfold map_get at 1. cbn [List.find fst]. destruct (String.eqb "messages" (s_table def)); cbn [option_map snd]; [|done].
  destruct (negb _); [done|]. unfold map_get. cbn [byKey messages List.find fst].
  destruct (String.eqb_spec "id" (s_key def)) as [E|_]; [cbn; by intros [= <-]|].
  destruct (String.eqb_spec "roomId" (s_key def)) as [E|_]; [done|].
  by destruct (String.eqb_spec "body" (s_key def)).
Qed.

Lemma messages_pk : primary_keys [messages] (fun _ => "id"%string).
Proof. intros def table H _. destruct (messages_resolve _ _ H) as [-> E]. by rewrite E. Qed.

Lemma messages_ok : table_ok messages.
Proof. split; by apply NoDup_ListNoDup, (bool_decide_unpack _). Qed.

(** The messages of a store: an id that reads as a number, a room, a body. *)
Definition room_store (l : list (string * string * string)) : Store :=
  fun t => if String.eqb t "messages" then map (fun m => message m.1.1 m.1.2 m.2) l else [].

Definition message_key (id : string) : string := cell_string (CNum (Number_of_string id)).

Lemma room_store_constraints l :
  List.NoDup (map (fun m => message_key m.1.1) l) -> constraints [messages] (room_store l).
Proof.
  intros Hn def table Er Hkey Hd. destruct (messages_resolve _ _ Er) as [-> Ek]. unfold room_store.
  destruct (String.eqb _ _); [|split; [split; [constructor|by intros r []]|by intros r []]].
  assert (forall id room body, get_cell (coerceImage def messages (message id room body)) (s_key def) = CNum (Number_of_string id)) as K.
  { intros id room body. rewrite coerceImage_get by done. by rewrite Ek. }
  split; [split|].
  - rewrite map_map. unfold the_key. erewrite map_ext; [exact Hn|]. intros m. simpl. by rewrite K.
  - intros r (m & <- & _)%in_map_iff. by rewrite K.
  - intros r (m & <- & _)%in_map_iff c Hc. destruct (Hd c Hc) as [spec Hspec]. unfold sql, spec_name.
    rewrite Hspec. apply map_get_Some_In in Hspec as [[= <- <-]|[[= <- <-]|[[= <- <-]|[]]]]; discriminate.
Qed.

Definition two_messages : list (string * string * string) := [("1", "42", "hi"); ("2", "42", "yo")]%string.
Definition moved_messages : list (string * string * string) := [("1", "7", "hi"); ("2", "42", "yo")]%string.

(** What the driver answers for those messages: numbers. *)
Definition driver_row (id room : Z) (body : string) : Row :=
  [("id", CNum (int id)); ("room_id", CNum (int room)); ("body", CStr body)]%string.

Lemma driver_reads id room body ids rooms :
  Number_of_string ids = int id -> Number_of_string rooms = int room ->
  reads messages (driver_row id room body) (message ids rooms body).
Proof.
  intros Ei Er. split.
  - by apply NoDup_ListNoDup, (bool_decide_unpack _).
  - intros name. split.
    + intros [<-|[<-|[<-|[]]]];
        [exists "id"%string, (mkColumn "id" Integer false true)
        |exists "roomId"%string, (mkColumn "room_id" Integer false false)
        |exists "body"%string, (mkColumn "body" Text false false)]; (split; [simpl; tauto|reflexivity]).
    + intros (key & spec & [[= <- <-]|[[= <- <-]|[[= <- <-]|[]]]] & <-); simpl; tauto.
  - intros key spec [[= <- <-]|[[= <- <-]|[[= <- <-]|[]]]]; right; (split; [discriminate|]); (split; [discriminate|]); cbn; auto.
Qed.

Definition demo_drivers : list Row := [driver_row 1 42 "hi"; driver_row 2 42 "yo"].
Definition demo_replay : ReplayOptions := mkReplay 1024 300000.

(** Client 0's call up to its seed read, and the engine once it has subscribed to room 42. *)
Definition demo_begun : Pending :=
  match subscribe_start [messages] 0%nat room42 None (createShapeEngine (Some demo_replay)) with
  | Ok (Await p) => p
  | _ => mkPending 0 room42 messages EmptyString None None
  end.

Definition demo_probed : Pending :=
  match subscribe_probed true demo_begun with Ok p => p | Throw _ => demo_begun end.

Definition demo_subscribed : Engine * ShapeSubscription :=
  match subscribe_seeded (Some demo_replay) (map (hydrate messages) demo_drivers) demo_probed
          (createShapeEngine (Some demo_replay)) with
  | Ok r => r
  | Throw _ => (createShapeEngine None, mkSubscription EmptyString [] EmptyString ResumeSnapshot)
  end.

(** The engine after message 1 moved to another room. *)
Definition demo_moved : Engine * list Effect :=
  onSourceChange (fun _ _ => true) (fun _ => true) moved_out 0 0 demo_subscribed.1.

Definition demo_sys0 : Sys :=
  mkSys demo_subscribed.1 (room_store two_messages)
    (set_view 0%nat (Some (snapshot_view room42 (sub_snapshot demo_subscribed.2))) (fun _ => None)) [].

Definition demo_sys : Sys :=
  mkSys demo_moved.1 (set_table (ch_table moved_out) (room_store moved_messages "messages") (store demo_sys0))
    (view_effects demo_moved.2 (views demo_sys0)) [].

Example demo_views :
  map fst (snapshot_view room42 (sub_snapshot demo_subscribed.2)) = ["1"; "2"]%string /\
  option_map (map fst) (views demo_sys 0%nat) = Some ["2"]%string /\ length (shapes (engine demo_sys)) = 1%nat.
Proof. vm_compute. auto. Qed.

Lemma room42_ok : shape_ok room42.
Proof.
  constructor; cbn; [done|done|repeat constructor; done|tauto| |done].
  apply List.Forall_cons; [|done]. split; [cbn; tauto|done].
Qed.

Lemma demo_begins : subscribe_start [messages] 0%nat room42 None (createShapeEngine (Some demo_replay)) = Ok (Await demo_begun).
Proof.
  unfold demo_begun. set (r := subscribe_start _ _ _ _ _).
  assert (match r with Ok (Await _) => true | _ => false end = true) as H by (vm_compute; reflexivity).
  clearbody r. by destruct r as [[? ?|p]|].
Qed.

Lemma demo_probes : subscribe_probed true demo_begun = Ok demo_probed.
Proof.
  unfold demo_probed. set (r := subscribe_probed _ _).
  assert (match r with Ok _ => true | _ => false end = true) as H by (vm_compute; reflexivity).
  clearbody r. by destruct r.
Qed.

Lemma demo_subscribes :
  subscribe_seeded (Some demo_replay) (map (hydrate messages) demo_drivers) demo_probed
    (createShapeEngine (Some demo_replay)) = Ok (demo_subscribed.1, demo_subscribed.2).
Proof.
  unfold demo_subscribed. set (r := subscribe_seeded _ _ _ _).
  assert (match r with Ok _ => true | Throw _ => false end = true) as H by (vm_compute; reflexivity).
  clearbody r. by destruct r as [[st sub]|].
Qed.

Lemma demo_pending :
  pe_subscriber demo_probed = 0%nat /\ pe_def demo_probed = room42 /\ pe_table demo_probed = messages.
Proof. vm_compute. auto. Qed.

Lemma demo_moves :
  onSourceChange (fun _ _ => true) (fun _ => true) moved_out 0 0 demo_subscribed.1 = (demo_moved.1, demo_moved.2).
Proof. unfold demo_moved. by destruct (onSourceChange _ _ _ _ _ _). Qed.

Lemma demo_reachable :
  reachable [messages] demo_replay (fun _ _ => true) (fun _ => true) (fun _ => "id"%string) (room_store two_messages) demo_sys.
Proof.
  destruct demo_pending as (P1 & P2 & P3). set (sto := room_store two_messages). set (st := createShapeEngine (Some demo_replay)).
  apply (rtc_l _ _ (mkSys st sto (fun _ => None) [Probing demo_begun])).
  { exists (Begin 0 room42). split; [exact I|]. apply step_begin; [exact room42_ok|exact demo_begins]. }
  apply (rtc_l _ _ (mkSys st sto (fun _ => None) [Reading demo_probed])).
  { exists (Probed demo_begun true). split; [exact I|].
    apply (step_probed _ _ _ _ _ demo_begun true demo_probed st sto (fun _ => None) [] []). exact demo_probes. }
  apply (rtc_l _ _ (mkSys st sto (fun _ => None) [Seeding demo_probed demo_drivers])).
  { exists (Read demo_probed demo_drivers). split; [exact I|]. apply (step_read _ _ _ _ _ _ _ _ _ _ [] []). }
  apply (rtc_l _ _ demo_sys0); [|apply (rtc_l _ _ demo_sys); [|apply rtc_refl]].
  - exists (Publish demo_probed demo_drivers). split.
    + split; [done|]. split; [done|]. rewrite P2, P3. split; [intros c [<-|[<-|[<-|[]]]]; by eexists|].
      apply Forall2_cons. split; [apply driver_reads; vm_compute; reflexivity|]. apply Forall2_cons. split; [apply driver_reads; vm_compute; reflexivity|constructor].
    + unfold demo_sys0. rewrite <- P1, <- P2 at 1.
      apply (step_publish _ _ _ _ _ demo_probed demo_drivers st sto (fun _ => None) [] []); [by intros id e|].
      rewrite P3. exact demo_subscribes.
  - exists (Commit true (OpUpdate (message "1" "42" "hi") (message "1" "7" "hi")) moved_out 0 0 (room_store moved_messages "messages")).
    split; [by intros ? ? ? ? ? ?|]. apply step_commit.
    + apply (applies_update _ _ [] [message "2" "42" "yo"]).
    + apply emits_update_full; try reflexivity; [by apply NoDup_ListNoDup, (bool_decide_unpack _)|by left|by left].
    + assert (constraints [messages] (room_store moved_messages)) as C
        by (apply room_store_constraints, NoDup_ListNoDup, (bool_decide_unpack _); vm_compute; done).
      intros def table Er Hk Hd. specialize (C def table Er Hk Hd). revert C.
      unfold set_table, demo_sys0, moved_out. cbn [store ch_table]. unfold room_store. destruct (String.eqb (s_table def) "messages"); [done|].
      intros _. split; [split; [constructor|by intros r []]|by intros r []].
    + unfold heard. replace (attached demo_subscribed.1) with true by (vm_compute; reflexivity). exact demo_moves.
Qed.


(** * Live queries: where the engine falls short of its contract

    Concrete runs: two definitions with one shape id, a reconnect across a re-created
    replay ring, two first subscribers at once, and a column name the registry check lets
    through. *)
#[local] Open Scope Z_scope.

(** ** Runs *)

(** The rooms are texts here. *)
Definition in_room (room : string) : ShapeDefinition :=
  mkShape "messages" "id" ["id"; "room"]%string [mkFilter "room" OpEq (FStr room)] None.

Definition room_messages : Table :=
  mkTable "messages" [("id", mkColumn "id" Text false true); ("room", mkColumn "room" Text false false)]%string.

Definition post (id room : string) : Row := [("id", CStr id); ("room", CStr room)]%string.

Definition replay : ReplayOptions := mkReplay 1024 300000.
Definition always : nat -> ShapeChange -> bool := fun _ _ => true.
Definition silent : nat -> bool := fun _ => true.

(** A result, or the engine as it was before. *)
Definition engine_of {A} (st : Engine) (r : outcome LiveError (Engine * A)) : Engine :=
  match r with Ok (st', _) => st' | Throw _ => st end.
Definition subscription_of (r : outcome LiveError (Engine * ShapeSubscription)) : option ShapeSubscription :=
  match r with Ok (_, s) => Some s | Throw _ => None end.

Definition join_room (s : nat) (room : string) (since : option ResumeCursor) (database : list Row) (st : Engine) :=
  subscribe [room_messages] (Some replay) s (in_room room) since true database st.

(** ** One id, two rooms *)

Definition room_a : string := "acaaf-acaaf".
Definition room_b : string := "aecvs-aecvs".

Definition secrets : list Row := [post "1" room_a; post "2" room_b].

Definition first_joined : Engine := engine_of (createShapeEngine (Some replay))
  (join_room 0 room_a None secrets (createShapeEngine (Some replay))).

Definition ids_of (o : option ShapeSubscription) : option (list cell) :=
  option_map (fun s => map (fun row => get_cell row "id") (sub_snapshot s)) o.

(** Fact: the engine finds a live shape by its 32-bit id alone and never compares the
    definitions: with a client in room A, a client that subscribes to room B is handed room
    A's rows, is added to room A's shape, and gets none of its own; alone, it gets its own. *)
Theorem shape_id_collision_leaks :
  room_a <> room_b /\ shapeId (in_room room_a) = shapeId (in_room room_b) /\
  ids_of (subscription_of (join_room 1 room_b None secrets (createShapeEngine (Some replay)))) = Some [CStr "2"] /\
  ids_of (subscription_of (join_room 1 room_b None secrets first_joined)) = Some [CStr "1"] /\
  option_map en_subscribers (map_get (shapeId (in_room room_a))
    (shapes (engine_of first_joined (join_room 1 room_b None secrets first_joined)))) = Some [0%nat; 1%nat].
Proof. split; [discriminate|]. repeat split; vm_compute; reflexivity. Qed.

(** ** A reconnect across a re-created shape *)

Definition inserted (lsn id : string) : ReplicationChange :=
  mkChange (RInsert (post id room_a)) "messages" lsn "sys" (int 1).

Definition commit (lsn id : string) (st : Engine) : Engine * list Effect := onSourceChange always silent (inserted lsn id) 0 0 st.

(** Client 0 joins and sees message 1 ([0/10]); it leaves, and message 2 ([0/20]) is written;
    client 1 joins and sees message 3 ([0/30]); client 0 comes back with its cursor. *)
Definition gap_run : Engine :=
  let st := first_joined in
  let st := (commit "0/10" "1" st).1 in
  let st := unsubscribe 0 (shapeId (in_room room_a)) st in
  let st := (commit "0/20" "2" st).1 in
  let st := engine_of st (join_room 1 room_a None [post "1" room_a; post "2" room_a] st) in
  (commit "0/30" "3" st).1.

Definition client_cursor : ResumeCursor := mkCursor (mkIdentity "sys" (int 1)) "0/10".

(** What a reconnecting client is told to apply. *)
Definition replayed (r : outcome LiveError (Engine * ShapeSubscription)) : option (list string) :=
  match subscription_of r with
  | Some s => match sub_resume s with ResumeReplay changes => Some (map (fun c => change_key c.1) changes) | ResumeSnapshot => None end
  | None => None
  end.

(** Fact: a replay ring keeps no base position, so a ring made after the client's cursor looks
    as if it covered it: the shape went away with its last subscriber, another client made
    it again, and the returning client is told to replay message 3
    and never told of message 2, which its slice then lacks for good. *)
Theorem fresh_ring_replays_with_gap :
  match (commit "0/10" "1" first_joined).2 with
  | [OnChange 0 (SInsert key _) cursor] => key = "1"%string /\ decodeResumeCursor (Some cursor) = Some client_cursor
  | _ => False
  end /\
  replayed (join_room 2 room_a (Some client_cursor) [post "1" room_a; post "2" room_a; post "3" room_a] gap_run) = Some ["3"]%string /\
  option_map (fun e => map fst (en_rows e)) (map_get (shapeId (in_room room_a)) (shapes gap_run)) = Some ["1"; "2"; "3"]%string.
Proof. split; [vm_compute; auto|]. split; vm_compute; reflexivity. Qed.

(** ** Two first subscribers at once *)

(** Both calls find no shape; both seed; the second replaces the first one's entry. *)
Definition both_started : option (Pending * Pending) :=
  let st := createShapeEngine (Some replay) in
  let start s := match subscribe_start [room_messages] s (in_room room_a) None st with
                 | Ok (Await p) => match subscribe_probed true p with Ok p' => Some p' | Throw _ => None end
                 | _ => None
                 end in
  match start 0%nat, start 1%nat with Some p, Some q => Some (p, q) | _, _ => None end.

Definition both_joined : Engine :=
  let st := createShapeEngine (Some replay) in
  match both_started with
  | Some (p, q) =>
      let st := engine_of st (subscribe_seeded (Some replay) [] p st) in
      engine_of st (subscribe_seeded (Some replay) [] q st)
  | None => st
  end.

(** Fact: of two clients that subscribe to one shape for the first time at the same time, the
    first is left out: its entry is replaced, it gets no change and no resync, and the
    engine counts one subscriber. *)
Theorem concurrent_subscribe_starves_first :
  option_map (fun pq => (pe_id pq.1, pe_id pq.2)) both_started =
    Some (shapeId (in_room room_a), shapeId (in_room room_a)) /\
  option_map en_subscribers (map_get (shapeId (in_room room_a)) (shapes both_joined)) = Some [1%nat] /\
  map (fun e => match e with OnChange s _ _ => Some s | _ => None end) (commit "0/10" "1" both_joined).2 = [Some 1%nat].
Proof. split; [vm_compute; auto|]. split; vm_compute; reflexivity. Qed.

(** ** A column no table declares *)

Definition odd_columns : ShapeDefinition :=
  mkShape "messages" "id" ["id"; "constructor"]%string [] None.

(** Fact: the column check asks [in], which finds the members of every object: a shape may
    name the column [constructor], which no table declares; a made-up name is refused. *)
Theorem inherited_column_accepted :
  resolveTable [room_messages] odd_columns = Ok room_messages /\
  map_get "constructor" (byKey room_messages) = None /\
  resolveTable [room_messages] (mkShape "messages" "id" ["id"; "nope"]%string [] None) = Throw LIVE_SERVER_UNKNOWN_COLUMN.
Proof. split; [vm_compute; auto|]. split; vm_compute; reflexivity. Qed.
