(* ===== verification/PgOutput.v ===== *)
(** * Live queries: the replication wire

    [packages/live-server/src/pgoutput.ts] and [replication-frames.ts]: the decoder of the
    messages of PostgreSQL's [pgoutput] plugin and the frames of the copy stream around
    them. A byte is a [Z] below 256; the decoding of UTF-8 is a parameter. *)
From S2P Require Import Prelude JsString JsMap JsNumber LiveShape LiveDiff LiveClassify LiveClassifyProps LiveResume LiveEngine LiveEngineProps LiveSystem.
From stdpp Require Import gmap.

#[local] Open Scope Z_scope.

Definition bytes : Type := list Z.

(** The value of big-endian bytes. *)
Definition big_endian (l : bytes) : Z := fold_left (fun n b => n * 256 + b) l 0.

(** [toUpperCase] on the digits of a number. *)
Definition upper_hex (c : ascii) : ascii :=
  let n := Z.of_nat (nat_of_ascii c) in
  if (97 <=? n) && (n <=? 102) then ascii_of_nat (Z.to_nat (n - 32)) else c.

Fixpoint toUpperCase (s : string) : string :=
  match s with EmptyString => EmptyString | String c s' => String (upper_hex c) (toUpperCase s') end.

Definition formatLsn (lsn : Z) : string :=
  (toUpperCase (digits_in 16 (Z.shiftr lsn 32)) ++ "/" ++ toUpperCase (digits_in 16 (Z.land lsn 4294967295)))%string.

(** A cached relation. *)
Record Relation : Type := mkRelation { r_table : string; r_columns : list string }.

(** ** The reader: the bytes that remain *)

(** A read: a value and what remains, or the refusal. *)
Definition Read (A : Type) : Type := bytes -> outcome LiveError (A * bytes).

Definition malformed {A} : outcome LiveError A := Throw LIVE_SERVER_REPLICATION_MALFORMED_FRAME.

Definition ret {A} (a : A) : Read A := fun buf => Ok (a, buf).
Definition bind {A B} (m : Read A) (k : A -> Read B) : Read B := fun buf => let! (a, rest) := m buf in k a rest.

#[local] Notation "x '<-' m ';;' k" := (bind m (fun x => k)) (at level 100, m at next level, right associativity).

(** [bytes(length)]: refused when fewer remain. *)
Definition take_bytes (length : Z) : Read bytes := fun buf =>
  if Z.of_nat (List.length buf) <? length then malformed
  else Ok (firstn (Z.to_nat length) buf, skipn (Z.to_nat length) buf).

(** The fixed-width reads: [#need] first, then the bytes. *)
Definition fixed (width : Z) : Read Z := b <- take_bytes width;; ret (big_endian b).
Definition uint8 : Read Z := fixed 1.
Definition uint32 : Read Z := fixed 4.
Definition bigUint64 : Read Z := fixed 8.
Definition int16 : Read Z := n <- fixed 2;; ret (if 32768 <=? n then n - 65536 else n).

Section Decoder.
Context (utf8 : bytes -> string).

(** [cstring]: up to the first NUL, which is consumed. *)
Fixpoint cstring_bytes (buf : bytes) : outcome LiveError (bytes * bytes) :=
  match buf with
  | [] => malformed
  | b :: buf' => if b =? 0 then Ok ([], buf') else let! (value, rest) := cstring_bytes buf' in Ok (b :: value, rest)
  end.
Definition cstring : Read string := fun buf => let! (value, rest) := cstring_bytes buf in Ok (utf8 value, rest).

(** [columns[i]!] as a property name: past the end it is [undefined]. *)
Definition column_name (columns : list string) (i : nat) : string := nth i columns "undefined"%string.

(** The loop of [readTuple], [n] columns from the [i]th on. *)
Fixpoint tuple_loop (n i : nat) (columns : list string) (image : RowImage) : Read RowImage :=
  match n with
  | O => ret image
  | S n' =>
      kind <- uint8;;
      let column := column_name columns i in
      if kind =? 110 then tuple_loop n' (S i) columns (map_set column CNull image)
      else if kind =? 117 then tuple_loop n' (S i) columns (map_set column CUndefined image)
      else
        length <- uint32;;
        value <- take_bytes length;;
        tuple_loop n' (S i) columns (map_set column (CStr (utf8 value)) image)
  end.

Definition readTuple (columns : list string) : Read RowImage :=
  count <- int16;; tuple_loop (Z.to_nat count) 0 columns [].

(** ** The decoder *)

(** A [DecodedChange]: the operation, its table, the position of its commit. *)
Record DecodedChange : Type := mkDecoded { d_op : RowOp; d_table : string; d_commitLSN : string }.

Record PgOutputDecoder : Type := mkDecoder { relations : gmap Z Relation; commitLSN : string }.

Definition createPgOutputDecoder : PgOutputDecoder := mkDecoder ∅ "0/0".

Definition relation (st : PgOutputDecoder) (oid : Z) : Read Relation := fun buf =>
  match relations st !! oid with
  | Some r => Ok (r, buf)
  | None => Throw LIVE_SERVER_REPLICATION_UNKNOWN_RELATION
  end.

(** The column definitions of a [Relation] message. *)
Fixpoint column_loop (n : nat) (columns : list string) : Read (list string) :=
  match n with
  | O => ret columns
  | S n' =>
      _ <- uint8;; name <- cstring;; _ <- uint32;; _ <- uint32;; column_loop n' (columns ++ [name])%list
  end.

Definition expect_marker (ok : bool) : Read unit := fun buf => if ok then Ok (tt, buf) else malformed.

Definition decode_relation (st : PgOutputDecoder) : Read PgOutputDecoder :=
  oid <- uint32;; _ <- cstring;; table <- cstring;; _ <- uint8;; columnCount <- int16;;
  columns <- column_loop (Z.to_nat columnCount) [];;
  ret (mkDecoder (<[oid := mkRelation table columns]> (relations st)) (commitLSN st)).

Definition decode_insert (st : PgOutputDecoder) : Read DecodedChange :=
  oid <- uint32;; r <- relation st oid;;
  marker <- uint8;; _ <- expect_marker (marker =? 78);;
  newImage <- readTuple (r_columns r);;
  ret (mkDecoded (RInsert newImage) (r_table r) (commitLSN st)).

(** The old tuple of an update, if its marker announces one; and the marker after it. *)
Definition old_tuple (columns : list string) (marker : Z) : Read (RowImage * OldImageKind * Z) :=
  if (marker =? 79) || (marker =? 75) then
    oldImage <- readTuple columns;; next <- uint8;;
    ret (oldImage, if marker =? 79 then KindFull else KindKey, next)
  else ret ([], KindNone, marker).

Definition decode_update (st : PgOutputDecoder) : Read DecodedChange :=
  oid <- uint32;; r <- relation st oid;;
  first <- uint8;; old <- old_tuple (r_columns r) first;;
  _ <- expect_marker (old.2 =? 78);;
  newImage <- readTuple (r_columns r);;
  ret (mkDecoded (RUpdate newImage old.1.1 old.1.2) (r_table r) (commitLSN st)).

Definition decode_delete (st : PgOutputDecoder) : Read DecodedChange :=
  oid <- uint32;; r <- relation st oid;;
  marker <- uint8;; _ <- expect_marker ((marker =? 79) || (marker =? 75));;
  oldImage <- readTuple (r_columns r);;
  ret (mkDecoded (RDelete oldImage (if marker =? 79 then KindFull else KindKey)) (r_table r) (commitLSN st)).

(** [decode]: a refusal leaves the decoder as it was. *)
Definition decode (message : bytes) (st : PgOutputDecoder) : outcome LiveError (PgOutputDecoder * option DecodedChange) :=
  let! (type, buf) := uint8 message in
  if type =? 66 then let! (lsn, _) := bigUint64 buf in Ok (mkDecoder (relations st) (formatLsn lsn), None)
  else if type =? 82 then let! (st', _) := decode_relation st buf in Ok (st', None)
  else if type =? 73 then let! (change, _) := decode_insert st buf in Ok (st, Some change)
  else if type =? 85 then let! (change, _) := decode_update st buf in Ok (st, Some change)
  else if type =? 68 then let! (change, _) := decode_delete st buf in Ok (st, Some change)
  else Ok (st, None).

(** The messages of a connection in order: the changes, up to the first refusal. *)
Fixpoint decode_all (messages : list bytes) (st : PgOutputDecoder) : outcome LiveError (list DecodedChange) :=
  match messages with
  | [] => Ok []
  | m :: messages' =>
      let! (st', change) := decode m st in
      let! changes := decode_all messages' st' in
      Ok (option_list change ++ changes)%list
  end.
End Decoder.

(** ** The copy stream *)

Definition PG_EPOCH_MS : Z := 946684800000.
Definition XLOG_DATA_HEADER_BYTES : Z := 1 + 8 + 8 + 8.

(** [writeBigUInt64BE]. *)
Fixpoint to_big_endian (width : nat) (n : Z) : bytes :=
  match width with O => [] | S w => to_big_endian w (n / 256) ++ [n mod 256] end.

Definition in_uint64 (n : Z) : bool := (0 <=? n) && (n <? 18446744073709551616).

(** [buildStandbyStatus]: [writeBigUInt64BE] throws a [RangeError] out of range. *)
Definition buildStandbyStatus (lastLsn clockUs : Z) : option bytes :=
  if in_uint64 lastLsn && in_uint64 clockUs then
    Some ([114] ++ to_big_endian 8 lastLsn ++ to_big_endian 8 lastLsn ++ to_big_endian 8 lastLsn ++
          to_big_endian 8 clockUs ++ [0])%list
  else None.

Inductive CopyDataFrame : Type :=
| Keepalive (walEnd : Z) (replyRequested : bool)
| Xlog (walStart : Z) (payload : bytes)
| OtherFrame.

(** [readBigUInt64BE(offset)], [readUInt8(offset)]: out of the buffer they throw. *)
Definition read_at (offset width : nat) (buf : bytes) : option Z :=
  if Nat.leb (offset + width) (length buf) then Some (big_endian (firstn width (skipn offset buf))) else None.

Definition parseCopyDataFrame (buf : bytes) : option CopyDataFrame :=
  match buf with
  | [] => Some OtherFrame
  | lead :: _ =>
      if lead =? 107 then
        walEnd ← read_at 1 8 buf; reply ← read_at 17 1 buf; Some (Keepalive walEnd (reply =? 1))
      else if lead =? 119 then
        walStart ← read_at 1 8 buf; Some (Xlog walStart (skipn (Z.to_nat XLOG_DATA_HEADER_BYTES) buf))
      else Some OtherFrame
  end.

(** * Live queries: the replication wire, read back

    What PostgreSQL writes is what the decoder reads: an encoder of the messages a
    replication stream carries, the round trip of whole streams, and the refusal of every
    cut-short message. *)
#[local] Open Scope Z_scope.

#[local] Notation "x '<-' m ';;' k" := (bind m (fun x => k)) (at level 100, m at next level, right associativity).

(** ** Big-endian numbers *)

Lemma big_endian_app l l' : big_endian (l ++ l') = big_endian l * 256 ^ Z.of_nat (length l') + big_endian l'.
Proof.
  unfold big_endian. induction l' as [|b l' IH] using rev_ind; [rewrite app_nil_r; simpl; lia|].
  rewrite app_assoc, fold_left_app, IH, (fold_left_app _ l'), length_app, Nat2Z.inj_add, Z.pow_add_r by lia.
  cbn [fold_left length]. change (256 ^ Z.of_nat 1) with 256. lia.
Qed.

Lemma to_big_endian_length w n : length (to_big_endian w n) = w.
Proof. revert n. induction w as [|w IH]; intros n; [done|]. cbn [to_big_endian]. rewrite length_app, IH. simpl. lia. Qed.

Lemma big_endian_inverse w n : 0 <= n < 256 ^ Z.of_nat w -> big_endian (to_big_endian w n) = n.
Proof.
  revert n. induction w as [|w IH]; intros n H; [change (0 = n); change (0 <= n < 1) in H; lia|]. cbn [to_big_endian].
  rewrite big_endian_app, IH.
  - unfold big_endian. cbn [fold_left length]. change (256 ^ Z.of_nat 1) with 256. pose proof (Z.div_mod n 256). lia.
  - rewrite Nat2Z.inj_succ, Z.pow_succ_r in H by lia. split; [apply Z.div_pos; lia|]. apply Z.div_lt_upper_bound; lia.
Qed.

(** ** Reads of exactly some bytes *)

(** The read consumes exactly these bytes, and any strict prefix of them is refused. *)
Definition exact {A} (m : Read A) (l : bytes) (a : A) : Prop :=
  (forall rest, m (l ++ rest) = Ok (a, rest)) /\
  (forall cut more, l = cut ++ more -> more <> [] -> m cut = malformed).

Lemma exact_ret {A} (a : A) : exact (ret a) [] a.
Proof. split; [done|]. intros cut more E H. destruct cut, more; done. Qed.

Lemma exact_bind {A B} (m : Read A) (k : A -> Read B) l l' a b :
  exact m l a -> exact (k a) l' b -> exact (bind m k) (l ++ l') b.
Proof.
  intros [M1 M2] [K1 K2]. split.
  - intros rest. unfold bind. rewrite <- app_assoc, M1. cbn [outcome_bind]. apply K1.
  - intros cut more E H. unfold bind. apply app_eq_app in E as (x & [[-> E]|[-> E]]).
    + destruct x as [|b0 x].
      * rewrite app_nil_r in *. specialize (M1 []). rewrite app_nil_r in M1. rewrite M1. cbn [outcome_bind].
        apply (K2 [] more); [by rewrite E|done].
      * by rewrite (M2 cut (b0 :: x)).
    + rewrite M1. cbn [outcome_bind]. by apply (K2 x more).
Qed.

Lemma exact_bind' {A B} (m : Read A) (k : A -> Read B) l l1 l' a b :
  l = l1 ++ l' -> exact m l1 a -> exact (k a) l' b -> exact (bind m k) l b.
Proof. intros ->. apply exact_bind. Qed.

Lemma exact_pure {A B} (m : Read A) (k : A -> Read B) a l' b :
  exact m [] a -> exact (k a) l' b -> exact (bind m k) l' b.
Proof. intros Hm Hk. change l' with ([] ++ l'). by eapply exact_bind. Qed.

Lemma exact_bytes l : exact (take_bytes (Z.of_nat (length l))) l l.
Proof.
  unfold take_bytes. split.
  - intros rest. rewrite length_app, Nat2Z.id. replace (_ <? _) with false by (symmetry; apply Z.ltb_ge; lia).
    by rewrite firstn_app, Nat.sub_diag, firstn_all, skipn_app, skipn_all, Nat.sub_diag, firstn_0, skipn_0, app_nil_r.
  - intros cut more -> H. rewrite length_app. replace (_ <? _) with true; [done|]. symmetry. apply Z.ltb_lt.
    destruct more; [done|]. simpl. lia.
Qed.

Lemma exact_fixed w n : 0 <= n < 256 ^ Z.of_nat w -> exact (fixed (Z.of_nat w)) (to_big_endian w n) n.
Proof.
  intros H. unfold fixed. eapply exact_bind'; [symmetry; apply app_nil_r| |].
  - pose proof (exact_bytes (to_big_endian w n)) as E. by rewrite to_big_endian_length in E.
  - rewrite <- (big_endian_inverse w n) at 2 by done. apply exact_ret.
Qed.

Lemma exact_uint8 n : 0 <= n < 256 -> exact uint8 [n] n.
Proof.
  intros H. pose proof (exact_fixed 1 n ltac:(done)) as E. simpl in E. by rewrite Z.mod_small in E.
Qed.

Lemma exact_uint32 n : 0 <= n < 4294967296 -> exact uint32 (to_big_endian 4 n) n.
Proof. apply (exact_fixed 4). Qed.

Lemma exact_uint64 n : 0 <= n < 18446744073709551616 -> exact bigUint64 (to_big_endian 8 n) n.
Proof. apply (exact_fixed 8). Qed.

Lemma exact_int16 n : 0 <= n < 32768 -> exact int16 (to_big_endian 2 n) n.
Proof.
  intros H. unfold int16. eapply exact_bind'; [symmetry; apply app_nil_r|apply (exact_fixed 2); lia|].
  replace (32768 <=? n) with false by (symmetry; apply Z.leb_gt; lia). apply exact_ret.
Qed.

Lemma exact_marker : exact (expect_marker true) [] tt.
Proof. split; [done|]. intros cut more E H. destruct cut, more; done. Qed.

(** ** Names *)

Definition no_nul (l : bytes) : Prop := List.Forall (fun b => b <> 0) l.

Lemma exact_cstring utf8 l : no_nul l -> exact (cstring utf8) (l ++ [0]) (utf8 l).
Proof.
  intros H. assert (forall rest, cstring_bytes (l ++ 0 :: rest) = Ok (l, rest)) as G.
  { induction H as [|b l Hb _ IH]; intros rest; [done|]. simpl. destruct (Z.eqb_spec b 0); [done|]. by rewrite IH. }
  unfold cstring. split.
  - intros rest. rewrite <- app_assoc. simpl. by rewrite G.
  - intros cut more E Hm. assert (cstring_bytes cut = malformed) as ->; [|done].
    assert (List.Forall (fun b => b <> 0) cut) as Hc.
    { destruct more as [|m more] using rev_ind; [done|]. rewrite app_assoc in E. apply app_inj_tail in E as [-> _].
      by apply List.Forall_app in H as [H _]. }
    clear E. induction Hc as [|b cut Hb _ IH]; [done|]. simpl. destruct (Z.eqb_spec b 0); [done|]. by rewrite IH.
Qed.

(** ** What the server writes *)

Inductive TupleCell : Type :=
| TNull
| TUnchanged
| TValue (binary : bool) (value : bytes).

Definition encode_cell (c : TupleCell) : bytes :=
  match c with
  | TNull => [110]
  | TUnchanged => [117]
  | TValue binary value => [if binary then 98 else 116] ++ to_big_endian 4 (Z.of_nat (length value)) ++ value
  end.

Definition encode_cells (t : list TupleCell) : bytes := List.concat (map encode_cell t).

Definition encode_tuple (t : list TupleCell) : bytes := to_big_endian 2 (Z.of_nat (length t)) ++ encode_cells t.

Definition cell_fits (c : TupleCell) : Prop :=
  match c with TValue _ value => Z.of_nat (length value) < 4294967296 | _ => True end.

(** A column of a [Relation] message: its flags, its name, its type and the type's modifier. *)
Record ColumnDef : Type := mkColumnDef { c_flags : Z; c_name : bytes; c_type : Z; c_mod : Z }.

Definition encode_column (c : ColumnDef) : bytes :=
  [c_flags c] ++ (c_name c ++ [0]) ++ to_big_endian 4 (c_type c) ++ to_big_endian 4 (c_mod c).

Definition column_fits (c : ColumnDef) : Prop :=
  0 <= c_flags c < 256 /\ no_nul (c_name c) /\ 0 <= c_type c < 4294967296 /\ 0 <= c_mod c < 4294967296.

(** The messages of a stream. A row message carries its relation, and an old tuple as the
    replica identity has it. *)
Inductive Message : Type :=
| MBegin (finalLsn timestamp xid : Z)
| MRelation (oid : Z) (namespace name : bytes) (identity : Z) (columns : list ColumnDef)
| MInsert (oid : Z) (new : list TupleCell)
| MUpdate (oid : Z) (old : option (bool * list TupleCell)) (new : list TupleCell)
| MDelete (oid : Z) (full : bool) (old : list TupleCell)
| MOther (tag : Z) (payload : bytes).

Definition old_marker (full : bool) : Z := if full then 79 else 75.

Definition encode_old (old : option (bool * list TupleCell)) : bytes :=
  match old with Some (full, t) => [old_marker full] ++ encode_tuple t | None => [] end.

Definition encode_relation (oid : Z) (namespace name : bytes) (identity : Z) (columns : list ColumnDef) : bytes :=
  to_big_endian 4 oid ++ (namespace ++ [0]) ++ (name ++ [0]) ++ [identity] ++
  to_big_endian 2 (Z.of_nat (length columns)) ++ List.concat (map encode_column columns).

Definition encode (m : Message) : bytes :=
  match m with
  | MBegin lsn timestamp xid => [66] ++ to_big_endian 8 lsn ++ to_big_endian 8 timestamp ++ to_big_endian 4 xid
  | MRelation oid namespace name identity columns => [82] ++ encode_relation oid namespace name identity columns
  | MInsert oid new => [73] ++ to_big_endian 4 oid ++ [78] ++ encode_tuple new
  | MUpdate oid old new => [85] ++ to_big_endian 4 oid ++ encode_old old ++ [78] ++ encode_tuple new
  | MDelete oid full old => [68] ++ to_big_endian 4 oid ++ [old_marker full] ++ encode_tuple old
  | MOther tag payload => [tag] ++ payload
  end.

Section Stream.
Context (utf8 : bytes -> string).

Definition cell_value (c : TupleCell) : cell :=
  match c with TNull => CNull | TUnchanged => CUndefined | TValue _ value => CStr (utf8 value) end.

(** The image of a tuple: each column with its value. *)
Definition image_of (columns : list string) (t : list TupleCell) : RowImage := zip columns (map cell_value t).

Definition old_image (columns : list string) (old : option (bool * list TupleCell)) : RowImage * OldImageKind :=
  match old with
  | Some (full, t) => (image_of columns t, if full then KindFull else KindKey)
  | None => ([], KindNone)
  end.

(** What a message means, for a reader that has seen those before it. *)
Definition meaning (st : PgOutputDecoder) (m : Message) : PgOutputDecoder * option DecodedChange :=
  match m with
  | MBegin lsn _ _ => (mkDecoder (relations st) (formatLsn lsn), None)
  | MRelation oid _ name _ columns =>
      (mkDecoder (<[oid := mkRelation (utf8 name) (map (fun c => utf8 (c_name c)) columns)]> (relations st)) (commitLSN st), None)
  | MInsert oid new =>
      (st, option_map (fun r => mkDecoded (RInsert (image_of (r_columns r) new)) (r_table r) (commitLSN st)) (relations st !! oid))
  | MUpdate oid old new =>
      (st, option_map (fun r => mkDecoded (RUpdate (image_of (r_columns r) new) (old_image (r_columns r) old).1
                                             (old_image (r_columns r) old).2) (r_table r) (commitLSN st)) (relations st !! oid))
  | MDelete oid full old =>
      (st, option_map (fun r => mkDecoded (RDelete (image_of (r_columns r) old) (if full then KindFull else KindKey))
                                  (r_table r) (commitLSN st)) (relations st !! oid))
  | MOther _ _ => (st, None)
  end.

(** A tuple of a relation: one cell a column, the columns distinct. *)
Definition tuple_fits (r : Relation) (t : list TupleCell) : Prop :=
  length t = length (r_columns r) /\ Z.of_nat (length t) < 32768 /\ List.NoDup (r_columns r) /\ List.Forall cell_fits t.

Definition fits (st : PgOutputDecoder) (m : Message) : Prop :=
  match m with
  | MBegin lsn timestamp xid => 0 <= lsn < 18446744073709551616
  | MRelation oid namespace name identity columns =>
      0 <= oid < 4294967296 /\ no_nul namespace /\ no_nul name /\ 0 <= identity < 256 /\
      Z.of_nat (length columns) < 32768 /\ List.Forall column_fits columns
  | MInsert oid t | MDelete oid _ t =>
      0 <= oid < 4294967296 /\ exists r, relations st !! oid = Some r /\ tuple_fits r t
  | MUpdate oid old new =>
      0 <= oid < 4294967296 /\ exists r, relations st !! oid = Some r /\ tuple_fits r new /\
        forall full t, old = Some (full, t) -> tuple_fits r t
  | MOther tag _ => 0 <= tag < 256 /\ ~ List.In tag [66; 82; 73; 85; 68]
  end.

(** ** Tuples *)

Fixpoint fill (t : list TupleCell) (i : nat) (columns : list string) (image : RowImage) : RowImage :=
  match t with [] => image | c :: t' => fill t' (S i) columns (map_set (column_name columns i) (cell_value c) image) end.

Lemma exact_loop t i columns image :
  List.Forall cell_fits t -> exact (tuple_loop utf8 (length t) i columns image) (encode_cells t) (fill t i columns image).
Proof.
  intros H. revert i image. induction H as [|c t Hc _ IH]; intros i image; [apply exact_ret|].
  unfold encode_cells. cbn [length tuple_loop map List.concat fill]. fold (encode_cells t).
  destruct c as [| |binary value]; cbn [encode_cell].
  - eapply exact_bind; [by apply exact_uint8|]. apply IH.
  - eapply exact_bind; [by apply exact_uint8|]. apply IH.
  - rewrite <- !app_assoc. eapply exact_bind; [apply exact_uint8; by destruct binary|].
    replace (_ =? 110) with false by (by destruct binary). replace (_ =? 117) with false by (by destruct binary).
    eapply exact_bind; [apply exact_uint32; simpl in Hc; lia|]. eapply exact_bind; [apply exact_bytes|]. apply IH.
Qed.

Lemma fill_zip t i columns image :
  List.NoDup (map fst image ++ drop i columns) -> (i + length t <= length columns)%nat ->
  fill t i columns image = image ++ zip (drop i columns) (map cell_value t).
Proof.
  revert i image. induction t as [|c t IH]; intros i image Hn Hl; simpl in *; [by destruct (drop i columns); rewrite app_nil_r|].
  destruct (drop i columns) as [|x l] eqn:Ed.
  { apply (f_equal length) in Ed. rewrite length_drop in Ed. simpl in Ed. lia. }
  assert (drop (S i) columns = l) as El by (rewrite <- Nat.add_1_r, <- drop_drop, Ed; done).
  assert (column_name columns i = x) as ->.
  { unfold column_name. rewrite <- (take_drop i columns), Ed, app_nth2; rewrite length_take; [|lia].
    by replace (i - min i (length columns))%nat with 0%nat by lia. }
  rewrite map_set_absent.
  2:{ intros Hx%list_elem_of_In. apply List.NoDup_remove_2 in Hn. apply Hn, in_app_iff. by left. }
  rewrite IH, El, <- app_assoc; [done| |lia]. by rewrite El, map_app, <- app_assoc.
Qed.

Lemma exact_tuple r t : tuple_fits r t -> exact (readTuple utf8 (r_columns r)) (encode_tuple t) (image_of (r_columns r) t).
Proof.
  intros (Hl & Hs & Hn & Hf). unfold readTuple, encode_tuple. eapply exact_bind; [apply exact_int16; lia|].
  rewrite Nat2Z.id. replace (image_of _ t) with (fill t 0 (r_columns r) []); [by apply exact_loop|].
  rewrite fill_zip; [done|done|lia].
Qed.

(** ** Messages *)

Lemma exact_relation st oid r : relations st !! oid = Some r -> exact (PgOutput.relation st oid) [] r.
Proof.
  intros H. unfold PgOutput.relation. rewrite H. split; [done|]. intros cut more E Hm. destruct cut, more; done.
Qed.

Lemma exact_end {A B} (m : Read A) (f : A -> B) l a : exact m l a -> exact (x <- m;; ret (f x)) l (f a).
Proof. intros H. eapply exact_bind'; [symmetry; apply app_nil_r|exact H|apply exact_ret]. Qed.

Lemma exact_insert st oid r t :
  0 <= oid < 4294967296 -> relations st !! oid = Some r -> tuple_fits r t ->
  exact (decode_insert utf8 st) (to_big_endian 4 oid ++ [78] ++ encode_tuple t)
    (mkDecoded (RInsert (image_of (r_columns r) t)) (r_table r) (commitLSN st)).
Proof.
  intros Ho Hr Ht. unfold decode_insert. eapply exact_bind; [by apply exact_uint32|].
  eapply exact_pure; [by apply exact_relation|]. eapply exact_bind; [by apply exact_uint8|].
  eapply exact_pure; [apply exact_marker|].
  apply (exact_end _ (fun image => mkDecoded (RInsert image) _ _)). by apply exact_tuple.
Qed.

Lemma exact_delete st oid r full t :
  0 <= oid < 4294967296 -> relations st !! oid = Some r -> tuple_fits r t ->
  exact (decode_delete utf8 st) (to_big_endian 4 oid ++ [old_marker full] ++ encode_tuple t)
    (mkDecoded (RDelete (image_of (r_columns r) t) (if full then KindFull else KindKey)) (r_table r) (commitLSN st)).
Proof.
  intros Ho Hr Ht. unfold decode_delete. eapply exact_bind; [by apply exact_uint32|].
  eapply exact_pure; [by apply exact_relation|]. eapply exact_bind; [apply exact_uint8; by destruct full|].
  replace ((old_marker full =? 79) || (old_marker full =? 75)) with true by (by destruct full).
  eapply exact_pure; [apply exact_marker|].
  replace (old_marker full =? 79) with full by (by destruct full).
  apply (exact_end _ (fun image => mkDecoded (RDelete image _) _ _)). by apply exact_tuple.
Qed.

Lemma exact_update st oid r old t :
  0 <= oid < 4294967296 -> relations st !! oid = Some r -> tuple_fits r t ->
  (forall full o, old = Some (full, o) -> tuple_fits r o) ->
  exact (decode_update utf8 st) (to_big_endian 4 oid ++ encode_old old ++ [78] ++ encode_tuple t)
    (mkDecoded (RUpdate (image_of (r_columns r) t) (old_image (r_columns r) old).1 (old_image (r_columns r) old).2)
               (r_table r) (commitLSN st)).
Proof.
  intros Ho Hr Ht Hold. unfold decode_update. eapply exact_bind; [by apply exact_uint32|].
  eapply exact_pure; [by apply exact_relation|]. destruct old as [[full o]|]; cbn [encode_old old_image].
  - rewrite <- !app_assoc. eapply exact_bind; [apply exact_uint8; by destruct full|]. unfold old_tuple.
    replace ((old_marker full =? 79) || (old_marker full =? 75)) with true by (by destruct full).
    replace (old_marker full =? 79) with full by (by destruct full).
    rewrite (app_assoc (encode_tuple o) [78]).
    eapply exact_bind;
      [eapply exact_bind; [by eapply exact_tuple, Hold|eapply (exact_end _ (fun next => (_, _, next))); by apply exact_uint8]|].
    eapply exact_pure; [apply exact_marker|]. apply (exact_end _ (fun image => mkDecoded (RUpdate image _ _) _ _)). by apply exact_tuple.
  - rewrite app_nil_l. eapply exact_bind; [by apply exact_uint8|]. unfold old_tuple. cbn [Z.eqb Pos.eqb orb].
    eapply exact_pure; [apply exact_ret|]. eapply exact_pure; [apply exact_marker|].
    apply (exact_end _ (fun image => mkDecoded (RUpdate image _ _) _ _)). by apply exact_tuple.
Qed.

Lemma exact_columns columns acc :
  List.Forall column_fits columns ->
  exact (column_loop utf8 (length columns) acc) (List.concat (map encode_column columns))
    (acc ++ map (fun c => utf8 (c_name c)) columns)%list.
Proof.
  intros H. revert acc. induction H as [|c columns (Hf & Hn & Ht & Hm) _ IH]; intros acc.
  { rewrite app_nil_r. apply exact_ret. }
  cbn [length column_loop map List.concat]. unfold encode_column at 1. rewrite <- !(app_assoc [c_flags c]), <- !(app_assoc (_ ++ [0])).
  eapply exact_bind; [by apply exact_uint8|]. eapply exact_bind; [by apply exact_cstring|].
  rewrite <- !app_assoc. eapply exact_bind; [by apply exact_uint32|]. eapply exact_bind; [by apply exact_uint32|].
  specialize (IH (acc ++ [utf8 (c_name c)])%list). by rewrite <- app_assoc in IH.
Qed.

Lemma exact_decode_relation st oid namespace name identity columns :
  fits st (MRelation oid namespace name identity columns) ->
  exact (decode_relation utf8 st) (encode_relation oid namespace name identity columns)
    (meaning st (MRelation oid namespace name identity columns)).1.
Proof.
  intros (Ho & Hns & Hn & Hi & Hl & Hc). unfold decode_relation, encode_relation, meaning. cbn [fst].
  eapply exact_bind; [by apply exact_uint32|]. eapply exact_bind; [by apply exact_cstring|].
  eapply exact_bind; [by apply exact_cstring|]. eapply exact_bind; [by apply exact_uint8|].
  eapply exact_bind; [apply exact_int16; lia|]. rewrite Nat2Z.id.
  apply (exact_end _ (fun columns => mkDecoder (<[oid:=mkRelation _ columns]> _) _)). by apply (exact_columns columns []).
Qed.

Lemma decode_head tag (rest : bytes) :
  0 <= tag < 256 -> uint8 (tag :: rest) = Ok (tag, rest).
Proof. intros H. apply (proj1 (exact_uint8 tag H)). Qed.

(** One message is read as what it means. *)
Lemma decodes_message st m : fits st m -> PgOutput.decode utf8 (encode m) st = Ok (meaning st m).
Proof.
  intros H. destruct m as [lsn ts xid|oid ns name ident cols|oid t|oid old t|oid full t|tag payload]; unfold PgOutput.decode; cbn [encode].
  - cbn [app]. rewrite decode_head by lia. cbn [outcome_bind Z.eqb Pos.eqb].
    by rewrite (proj1 (exact_uint64 lsn H)).
  - cbn [app]. rewrite decode_head by lia. cbn [outcome_bind Z.eqb Pos.eqb].
    pose proof (proj1 (exact_decode_relation st _ _ _ _ _ H) []) as E. rewrite app_nil_r in E. by rewrite E.
  - destruct H as (Ho & r & Hr & Ht). cbn [app]. rewrite decode_head by lia. cbn [outcome_bind Z.eqb Pos.eqb].
    pose proof (proj1 (exact_insert st oid r t Ho Hr Ht) []) as E. rewrite app_nil_r in E.
    change (to_big_endian 4 oid ++ 78 :: encode_tuple t) with (to_big_endian 4 oid ++ [78] ++ encode_tuple t).
    rewrite E. cbn [outcome_bind meaning]. by rewrite Hr.
  - destruct H as (Ho & r & Hr & Ht & Hold). cbn [app]. rewrite decode_head by lia. cbn [outcome_bind Z.eqb Pos.eqb].
    pose proof (proj1 (exact_update st oid r old t Ho Hr Ht Hold) []) as E. rewrite app_nil_r in E.
    change (78 :: encode_tuple t) with ([78] ++ encode_tuple t). rewrite E. cbn [outcome_bind meaning]. by rewrite Hr.
  - destruct H as (Ho & r & Hr & Ht). cbn [app]. rewrite decode_head by lia. cbn [outcome_bind Z.eqb Pos.eqb].
    pose proof (proj1 (exact_delete st oid r full t Ho Hr Ht) []) as E. rewrite app_nil_r in E.
    change (old_marker full :: encode_tuple t) with ([old_marker full] ++ encode_tuple t).
    rewrite E. cbn [outcome_bind meaning]. by rewrite Hr.
  - destruct H as (Ht & Hn). cbn [app]. rewrite decode_head by done. cbn [outcome_bind meaning].
    simpl in Hn. repeat match goal with |- context [if ?t =? ?n then _ else _] => destruct (Z.eqb_spec t n); [lia|] end. done.
Qed.

(** A stream in which every row message comes after its relation. *)
Fixpoint stream_fits (st : PgOutputDecoder) (l : list Message) : Prop :=
  match l with [] => True | m :: l' => fits st m /\ stream_fits (meaning st m).1 l' end.

Fixpoint stream_meaning (st : PgOutputDecoder) (l : list Message) : list DecodedChange :=
  match l with [] => [] | m :: l' => option_list (meaning st m).2 ++ stream_meaning (meaning st m).1 l' end.

Lemma decode_stream l st : stream_fits st l -> decode_all utf8 (map encode l) st = Ok (stream_meaning st l).
Proof.
  revert st. induction l as [|m l IH]; intros st; [done|]. intros [Hm Hl]. cbn [map decode_all stream_meaning].
  rewrite decodes_message by done. destruct (meaning st m) as [st' change]. cbn [outcome_bind]. by rewrite IH.
Qed.

(** Messages the decoder reads to their end. *)
Definition read_whole (m : Message) : Prop :=
  match m with MBegin _ _ _ | MOther _ _ => False | _ => True end.

Lemma exact_cut {A} (m : Read A) l a cut more :
  exact m l a -> l = cut ++ more -> more <> [] -> m cut = malformed.
Proof. intros [_ H]. apply H. Qed.

Lemma cut_message st m cut more :
  fits st m -> read_whole m -> encode m = cut ++ more -> more <> [] -> PgOutput.decode utf8 cut st = malformed.
Proof.
  intros H Hw E Hm. unfold PgOutput.decode. destruct cut as [|tag cut]; [done|].
  destruct m as [| oid ns name ident cols|oid t|oid old t|oid full t|]; try done; cbn [encode app] in E;
    injection E as <- E; rewrite decode_head by lia; cbn [outcome_bind Z.eqb Pos.eqb].
  - by rewrite (exact_cut _ _ _ _ _ (exact_decode_relation st _ _ _ _ _ H) E Hm).
  - destruct H as (Ho & r & Hr & Ht). by rewrite (exact_cut _ _ _ _ _ (exact_insert st oid r t Ho Hr Ht) E Hm).
  - destruct H as (Ho & r & Hr & Ht & Hold). by rewrite (exact_cut _ _ _ _ _ (exact_update st oid r old t Ho Hr Ht Hold) E Hm).
  - destruct H as (Ho & r & Hr & Ht). by rewrite (exact_cut _ _ _ _ _ (exact_delete st oid r full t Ho Hr Ht) E Hm).
Qed.
End Stream.

(** ** Positions *)

Lemma hex_digit_of d : 0 <= d < 16 -> digit_of (upper_hex (digit_char d)) = Some d /\ is_hex (upper_hex (digit_char d)) = true.
Proof.
  intros H. assert (List.In d [0; 1; 2; 3; 4; 5; 6; 7; 8; 9; 10; 11; 12; 13; 14; 15]) as Hd by (simpl; lia).
  clear H. repeat (destruct Hd as [<-|Hd]; [by split|]). done.
Qed.

Lemma digits_hex fuel z acc :
  0 <= z -> all_chars is_hex (toUpperCase acc) = true ->
  all_chars is_hex (toUpperCase (digits_from fuel 16 z acc)) = true /\
  (nonempty acc = true \/ fuel <> O -> nonempty (toUpperCase (digits_from fuel 16 z acc)) = true) /\
  (z < 16 ^ Z.of_nat fuel -> exists k, forall a n,
     (take_digits 16 a n (toUpperCase (digits_from fuel 16 z acc))).1.1 =
     (take_digits 16 (a * 16 ^ k + z) (n + Z.to_nat k) (toUpperCase acc)).1.1 /\ 0 <= k).
Proof.
  revert z acc. induction fuel as [|fuel IH]; intros z acc Hz Ha; cbn [digits_from].
  - split; [done|]. split; [by intros [H|H]; [destruct acc|]|]. intros H. change (z < 1) in H. assert (z = 0) as -> by lia.
    exists 0. intros a n. rewrite Z.mul_1_r, Z.add_0_r, Nat.add_0_r. done.
  - assert (0 <= z mod 16 < 16) as Hd by (apply Z.mod_pos_bound; lia). destruct (hex_digit_of _ Hd) as [D1 D2].
    assert (all_chars is_hex (toUpperCase (String (digit_char (z mod 16)) acc)) = true) as Ha' by (cbn [toUpperCase all_chars]; by rewrite D2).
    assert (forall a n, (take_digits 16 a n (toUpperCase (String (digit_char (z mod 16)) acc))).1.1 =
                        (take_digits 16 (a * 16 + z mod 16) (S n) (toUpperCase acc)).1.1) as Ht.
    { intros a n. cbn [toUpperCase take_digits]. rewrite D1. by destruct (Z.ltb_spec (z mod 16) 16); [|lia]. }
    destruct (Z.ltb_spec z 16) as [Hs|Hs].
    + split; [done|]. split; [done|]. intros _. exists 1. intros a n. rewrite Ht, Z.mod_small by lia. split; [|lia].
      replace (n + Z.to_nat 1)%nat with (S n) by lia. by rewrite Z.pow_1_r.
    + destruct (IH (z / 16) (String (digit_char (z mod 16)) acc) ltac:(apply Z.div_pos; lia) Ha') as (I1 & I2 & I3).
      split; [done|]. split; [intros _; apply I2; by left|]. intros Hf.
      rewrite Nat2Z.inj_succ, Z.pow_succ_r in Hf by lia. destruct I3 as [k Hk]; [apply Z.div_lt_upper_bound; lia|].
      exists (k + 1). intros a n. destruct (Hk a n) as [E Hk0]. split; [|lia]. rewrite E, Ht.
      replace (n + Z.to_nat (k + 1))%nat with (S (n + Z.to_nat k)) by lia. do 3 f_equal.
      rewrite Z.pow_add_r by lia. pose proof (Z.div_mod z 16). lia.
Qed.

Lemma upper_digits n :
  0 <= n -> all_chars is_hex (toUpperCase (digits_in 16 n)) = true /\ nonempty (toUpperCase (digits_in 16 n)) = true /\
            hex_value (toUpperCase (digits_in 16 n)) = n.
Proof.
  intros Hn. unfold digits_in, hex_value. destruct (digits_hex (S (Z.to_nat (Z.log2 n))) n EmptyString Hn eq_refl) as (H1 & H2 & H3).
  split; [done|]. split; [apply H2; by right|]. destruct H3 as [k Hk].
  - pose proof (Z.log2_nonneg n). rewrite Nat2Z.inj_succ, Z2Nat.id by lia. destruct (Z.eq_dec n 0) as [->|]; [done|].
    pose proof (Z.log2_spec n ltac:(lia)) as [_ L]. eapply Z.lt_le_trans; [exact L|]. apply Z.pow_le_mono_l; lia.
  - destruct (Hk 0 0%nat) as [E _]. rewrite E. simpl. lia.
Qed.

Lemma formatLsn_valid n :
  0 <= n < 18446744073709551616 -> isValidLsn (formatLsn n) = true /\ lsnToBigInt (formatLsn n) = n.
Proof.
  intros H. unfold formatLsn, isValidLsn, lsnToBigInt. set (hi := Z.shiftr n 32). set (lo := Z.land n 4294967295).
  assert (0 <= hi) by (apply Z.shiftr_nonneg; lia). assert (0 <= lo) by (apply Z.land_nonneg; lia).
  destruct (upper_digits hi ltac:(done)) as (A1 & B1 & C1). destruct (upper_digits lo ltac:(done)) as (A2 & B2 & C2).
  change (toUpperCase (digits_in 16 hi) ++ "/" ++ toUpperCase (digits_in 16 lo))%string with
    (String.append (toUpperCase (digits_in 16 hi)) (String "/" (toUpperCase (digits_in 16 lo)))).
  rewrite cut_app.
  2:{ rewrite has_char_all, negb_false_iff. eapply all_chars_impl; [|exact A1].
      intros c Hc. destruct (Ascii.eqb_spec c "/") as [->|]; done. }
  rewrite A1, B1, A2, B2, C1, C2. split; [done|].
  unfold hi, lo. change 4294967295 with (Z.ones 32). rewrite Z.land_ones, Z.shiftr_div_pow2, Z.shiftl_mul_pow2 by lia.
  pose proof (Z.div_mod n (2 ^ 32)). lia.
Qed.

(** ** The theorems *)

(** C36: what PostgreSQL writes is what the decoder reads: of any stream in which each row
    message comes after its relation, the decoder makes exactly the row changes, in order,
    each with its table, its typed images (null, not transmitted, or text), its old-image
    kind, and the position of its transaction's commit. *)
Theorem pgoutput_round_trip (utf8 : bytes -> string) (stream : list Message) :
  stream_fits utf8 createPgOutputDecoder stream ->
  decode_all utf8 (map encode stream) createPgOutputDecoder = Ok (stream_meaning utf8 createPgOutputDecoder stream).
Proof. apply decode_stream. Qed.

(** Fact: a row or relation message cut short anywhere, even inside a length or a marker, is
    refused with the coded error, in whatever state the decoder is; it is never read as a
    shorter row. *)
Theorem cut_short_is_refused (utf8 : bytes -> string) (st : PgOutputDecoder) (m : Message) (cut more : bytes) :
  fits st m -> read_whole m -> encode m = cut ++ more -> more <> [] ->
  PgOutput.decode utf8 cut st = Throw LIVE_SERVER_REPLICATION_MALFORMED_FRAME.
Proof. apply cut_message. Qed.

(** Fact: the position a transaction is stamped with always passes the engine's check, and
    reads back as the 64-bit number it was: no change is dropped for its stamp, and
    positions compare as the log orders them. *)
Theorem commit_position_is_valid (lsn : Z) :
  0 <= lsn < 18446744073709551616 -> isValidLsn (formatLsn lsn) = true /\ lsnToBigInt (formatLsn lsn) = lsn.
Proof. apply formatLsn_valid. Qed.

(** ** The copy stream *)

Lemma read_app w n pre rest :
  0 <= n < 256 ^ Z.of_nat w -> read_at (length pre) w (pre ++ to_big_endian w n ++ rest) = Some n.
Proof.
  intros H. unfold read_at. rewrite !length_app, to_big_endian_length.
  replace (Nat.leb _ _) with true by (symmetry; apply Nat.leb_le; lia).
  rewrite skipn_app, skipn_all, Nat.sub_diag, skipn_0, app_nil_l.
  rewrite firstn_app, to_big_endian_length, Nat.sub_diag, firstn_0, app_nil_r.
  rewrite <- (to_big_endian_length w n) at 1. by rewrite firstn_all, big_endian_inverse.
Qed.

(** Fact: a data frame gives back the position it starts at and the message it carries,
    byte for byte; a status update is 34 bytes that carry the acknowledged position three
    times, and the clock, where the protocol puts them. *)
Theorem copy_frames_round_trip (start end_ time lsn clock : Z) (payload : bytes) :
  in_uint64 start = true -> in_uint64 lsn = true -> in_uint64 clock = true ->
  parseCopyDataFrame ([119] ++ to_big_endian 8 start ++ to_big_endian 8 end_ ++ to_big_endian 8 time ++ payload) =
    Some (Xlog start payload) /\
  exists status, buildStandbyStatus lsn clock = Some status /\ length status = 34%nat /\ nth_error status 0 = Some 114 /\
    read_at 1 8 status = Some lsn /\ read_at 9 8 status = Some lsn /\ read_at 17 8 status = Some lsn /\
    read_at 25 8 status = Some clock /\ read_at 33 1 status = Some 0.
Proof.
  intros Hs Hl Hc. unfold buildStandbyStatus. rewrite Hl, Hc. cbn [andb]. unfold in_uint64 in *. bools. split.
  - unfold parseCopyDataFrame. cbn [app]. change (119 =? 107) with false. change (119 =? 119) with true. cbn iota.
    pose proof (read_app 8 start [119] (to_big_endian 8 end_ ++ to_big_endian 8 time ++ payload) ltac:(lia)) as R.
    cbn [app length] in R. by rewrite R.
  - eexists. split; [done|]. split; [rewrite !length_app, !to_big_endian_length; done|]. split; [done|].
    pose proof (to_big_endian_length 8 lsn) as L. set (l := to_big_endian 8 lsn) in *.
    assert (forall pre rest, read_at (length pre) 8 (pre ++ l ++ rest) = Some lsn) as R by (intros; apply read_app; lia).
    assert (forall pre rest, read_at (length pre) 8 (pre ++ to_big_endian 8 clock ++ rest) = Some clock) as C by (intros; apply read_app; lia).
    repeat split.
    + apply (R [114]).
    + specialize (R ([114] ++ l) (l ++ to_big_endian 8 clock ++ [0])). rewrite length_app, L in R. by rewrite <- app_assoc in R.
    + specialize (R ([114] ++ l ++ l) (to_big_endian 8 clock ++ [0])). rewrite !length_app, L in R. by rewrite <- !app_assoc in R.
    + specialize (C ([114] ++ l ++ l ++ l) [0]). rewrite !length_app, L in C. by rewrite <- !app_assoc in C.
Qed.

(** ** A captured stream *)

Definition ascii_text (l : bytes) : string := string_of_list_ascii (map (fun b => ascii_of_nat (Z.to_nat b)) l).
Definition text_bytes (s : string) : bytes := map (fun c => Z.of_nat (nat_of_ascii c)) (list_ascii_of_string s).
Definition text (s : string) : TupleCell := TValue false (text_bytes s).

Definition messages_oid : Z := 16400.
Definition captured : list Message :=
  [MBegin 27616160 835987519340528 754;
   MRelation messages_oid (text_bytes "public") (text_bytes "messages") 102
     [mkColumnDef 1 (text_bytes "id") 23 4294967295; mkColumnDef 1 (text_bytes "room_id") 23 4294967295;
      mkColumnDef 1 (text_bytes "body") 25 4294967295];
   MInsert messages_oid [text "1"; text "42"; text "hello"];
   MUpdate messages_oid (Some (true, [text "1"; text "42"; text "hello"])) [text "1"; text "99"; TUnchanged];
   MDelete messages_oid true [text "1"; text "99"; TNull];
   MOther 67 [0]].

Example captured_changes : decode_all ascii_text (map encode captured) createPgOutputDecoder = Ok
  [mkDecoded (RInsert [("id", CStr "1"); ("room_id", CStr "42"); ("body", CStr "hello")]) "messages" "0/1A563A0";
   mkDecoded (RUpdate [("id", CStr "1"); ("room_id", CStr "99"); ("body", CUndefined)]
                [("id", CStr "1"); ("room_id", CStr "42"); ("body", CStr "hello")] KindFull) "messages" "0/1A563A0";
   mkDecoded (RDelete [("id", CStr "1"); ("room_id", CStr "99"); ("body", CNull)] KindFull) "messages" "0/1A563A0"]%string.
Proof. vm_compute. reflexivity. Qed.

Definition messages_relation : Relation := mkRelation "messages" ["id"; "room_id"; "body"]%string.

Lemma fits_of_cells t : length t = 3%nat -> List.Forall cell_fits t -> tuple_fits messages_relation t.
Proof.
  intros Hl Hf. split; [done|]. rewrite Hl. split; [done|]. split; [|done].
  by apply NoDup_ListNoDup, (bool_decide_unpack _).
Qed.

Lemma captured_fits : stream_fits ascii_text createPgOutputDecoder captured.
Proof.
  cbn [stream_fits captured].
  assert (forall t, length t = 3%nat -> List.Forall cell_fits t -> tuple_fits messages_relation t) as F by apply fits_of_cells.
  assert (forall st r oid, relations st = <[oid := r]> ∅ -> relations st !! oid = Some r) as G
    by (intros st r oid ->; apply lookup_insert_eq).
  repeat split; try lia; try (by repeat constructor); try (by apply NoDup_ListNoDup, (bool_decide_unpack _)).
  all: try (exists messages_relation; split; [by apply G|]).
  all: try (apply F; [done|by repeat constructor]).
  all: try (split; [apply F; [done|by repeat constructor]|intros full o [= <- <-]; apply F; [done|by repeat constructor]]).
  simpl. lia.
Qed.

Lemma pgoutput_round_trip_witness :
  decode_all ascii_text (map encode captured) createPgOutputDecoder = Ok (stream_meaning ascii_text createPgOutputDecoder captured).
Proof. apply pgoutput_round_trip. exact captured_fits. Defined.

Definition after_relation : PgOutputDecoder := mkDecoder (<[messages_oid := messages_relation]> ∅) "0/1A563A0".
Definition one_insert : Message := MInsert messages_oid [text "1"; text "42"; text "hello"].

Lemma cut_short_is_refused_witness :
  PgOutput.decode ascii_text (firstn 20 (encode one_insert)) after_relation = Throw LIVE_SERVER_REPLICATION_MALFORMED_FRAME.
Proof.
  apply (cut_short_is_refused ascii_text after_relation one_insert _ (skipn 20 (encode one_insert))).
  - split; [unfold messages_oid; lia|]. exists messages_relation. split; [apply lookup_insert_eq|]. apply fits_of_cells; [done|by repeat constructor].
  - exact I.
  - symmetry. apply firstn_skipn.
  - vm_compute. discriminate.
Defined.

Lemma commit_position_is_valid_witness : isValidLsn (formatLsn 27616160) = true /\ lsnToBigInt (formatLsn 27616160) = 27616160.
Proof. apply (commit_position_is_valid 27616160). lia. Defined.

Lemma copy_frames_round_trip_witness :
  parseCopyDataFrame ([119] ++ to_big_endian 8 5 ++ to_big_endian 8 6 ++ to_big_endian 8 7 ++ [73; 0]) = Some (Xlog 5 [73; 0]) /\
  exists status, buildStandbyStatus 9 10 = Some status /\ length status = 34%nat /\ nth_error status 0 = Some 114 /\
    read_at 1 8 status = Some 9 /\ read_at 9 8 status = Some 9 /\ read_at 17 8 status = Some 9 /\
    read_at 25 8 status = Some 10 /\ read_at 33 1 status = Some 0.
Proof. by apply (copy_frames_round_trip 5 6 7 9 10 [73; 0]). Defined.

(** Fact: a TRUNCATE goes unnoticed: its message (tag 84) decodes to no change, whatever it
    holds, so a live shape keeps every row of a table that has none left. *)
Theorem truncate_leaves_rows :
  (forall utf8 st payload, PgOutput.decode utf8 (encode (MOther 84 payload)) st = Ok (st, None)) /\
  match map_get (shapeId room42) (shapes (engine demo_sys0)) with
  | Some e => length (en_rows e) = 2%nat /\ authorized (set_table "messages" [] (store demo_sys0)) e = []
  | None => False
  end.
Proof.
  split; [|vm_compute; auto]. intros utf8 st payload. apply (decodes_message utf8 st (MOther 84 payload)).
  split; [lia|]. simpl. lia.
Qed.
