(* ===== verification/LiveFrames.v ===== *)
(** * Live queries: frames, the connection, and the consumer's decoding

    [packages/live-protocol/src/frames.ts], [packages/live-server/src/connection.ts], and
    the frame handlers of [packages/live/src/consumer.ts]: how rows become the lines of an
    event stream and come back, and what a connection writes under backpressure. *)
From S2P Require Import Prelude JsString JsMap JsTime JsNumber JsJson LiveShape LiveDiff LiveResume.

#[local] Open Scope string_scope.
#[local] Open Scope Z_scope.

(** ** Rows as JSON *)

(** What [JSON.stringify] makes of a cell: an [undefined] one is left out of its object, a
    date is its ISO text, and a number that is not finite prints as [null]. *)
Definition json_of_cell (c : cell) : option json :=
  match c with
  | CUndefined => None
  | CNull => Some JNull
  | CBool b => Some (JBool b)
  | CNum n => Some (JNum n)
  | CStr s => Some (JStr s)
  | CDate (Units k) => Some (JStr (toISOString (Z.quot k one)))
  | CDate NegZero => Some (JStr (toISOString 0))
  | CDate _ => Some JNull
  end.

Definition json_of_row (row : Row) : json :=
  JObj (omap (fun kv => option_map (pair kv.1) (json_of_cell kv.2)) row).

(** A cell of a parsed row; a nested value is no scalar, so no cell. *)
Definition cell_of_json (v : json) : cell :=
  match v with
  | JNull => CNull
  | JBool b => CBool b
  | JNum n => CNum n
  | JStr s => CStr s
  | JArr _ | JObj _ => CUndefined
  end.

(** The value as a row object, if it is one ([isRow]). *)
Definition row_of_json (v : json) : option Row :=
  match v with JObj fields => Some (map (fun kv => (kv.1, cell_of_json kv.2)) fields) | _ => None end.

Definition change_op (c : ShapeChange) : string :=
  match c with SInsert _ _ => "insert" | SUpdate _ _ => "update" | SDelete _ => "delete" end.

Definition json_of_change (c : ShapeChange) : json :=
  match c with
  | SDelete key => JObj [("op", JStr "delete"); ("key", JStr key)]
  | SInsert key row | SUpdate key row => JObj [("op", JStr (change_op c)); ("key", JStr key); ("row", json_of_row row)]
  end.

(** ** The frames *)

Definition newline : ascii := "010".
Definition carriage_return : ascii := "013".
Definition nl : string := String newline EmptyString.

Definition isValidCursor (cursor : string) : bool :=
  negb (String.eqb cursor EmptyString) && negb (has_char newline cursor) && negb (has_char carriage_return cursor).

Definition malformed_frame {A} : outcome LiveProtocolError A := Throw LIVE_PROTOCOL_MALFORMED_FRAME.

Definition assertCursor (cursor : string) : outcome LiveProtocolError unit :=
  if isValidCursor cursor then Ok tt else malformed_frame.

Definition event_frame (event data cursor : string) : string :=
  "event: " ++ event ++ nl ++ "data: " ++ data ++ nl ++ "id: " ++ cursor ++ nl ++ nl.

Definition snapshotFrame (rows : list Row) (cursor : string) : outcome LiveProtocolError string :=
  let! _ := assertCursor cursor in
  Ok (event_frame "snapshot" (stringify (JObj [("rows", JArr (map json_of_row rows))])) cursor).

Definition changeFrame (change : ShapeChange) (cursor : string) : outcome LiveProtocolError string :=
  let! _ := assertCursor cursor in Ok (event_frame "change" (stringify (json_of_change change)) cursor).

Definition resyncFrame (cursor : string) : outcome LiveProtocolError string :=
  let! _ := assertCursor cursor in Ok (event_frame "resync" EmptyString cursor).

Definition commentFrame (text : string) : string := ": " ++ text ++ nl ++ nl.

(** ** Decoding *)

Definition parseObject (data : string) : outcome LiveProtocolError (list (string * json)) :=
  match parse data with Some (JObj fields) => Ok fields | _ => malformed_frame end.

Definition decodeSnapshotData (data : string) : outcome LiveProtocolError (list Row) :=
  let! fields := parseObject data in
  match map_get "rows" fields with
  | Some (JArr items) => map_outcome (fun v => match row_of_json v with Some row => Ok row | None => malformed_frame end) items
  | _ => malformed_frame
  end.

Definition decodeChangeData (data : string) : outcome LiveProtocolError ShapeChange :=
  let! fields := parseObject data in
  match map_get "key" fields with
  | Some (JStr key) =>
      let row := match map_get "row" fields with Some v => row_of_json v | None => None end in
      match map_get "op" fields with
      | Some (JStr op) =>
          if String.eqb op "delete" then Ok (SDelete key)
          else if String.eqb op "insert" then match row with Some row => Ok (SInsert key row) | None => malformed_frame end
          else if String.eqb op "update" then match row with Some row => Ok (SUpdate key row) | None => malformed_frame end
          else malformed_frame
      | _ => malformed_frame
      end
  | _ => malformed_frame
  end.

(** ** The connection *)

(** What the controller answers to a call: its [desiredSize], and whether [enqueue] and
    [close] return. *)
Record FrameController : Type := mkController { desiredSize : option Z; enqueue_ok : bool; close_ok : bool }.

Inductive ConnectionEffect : Type :=
| Enqueued (frame : string)
| Closed
| Overflow.

Definition isFull (controller : FrameController) : bool :=
  match desiredSize controller with None => true | Some n => n <=? 0 end.

(** [#emit]: an [enqueue] that throws means the connection is closed. *)
Definition emit (frame : string) (controller : FrameController) (closed : bool) : bool * list ConnectionEffect :=
  if enqueue_ok controller then (closed, [Enqueued frame]) else (true, []).

(** [#safeClose]. *)
Definition safeClose (controller : FrameController) : list ConnectionEffect := if close_ok controller then [Closed] else [].

Definition resync (controller : FrameController) (closed : bool) : outcome LiveProtocolError (bool * list ConnectionEffect) :=
  if closed then Ok (closed, [])
  else let! frame := resyncFrame RESYNC_CURSOR in Ok (true, ((emit frame controller closed).2 ++ safeClose controller)%list).

Inductive ConnectionCall : Type :=
| CallSnapshot (rows : list Row) (cursor : string)
| CallDeliver (change : ShapeChange) (cursor : string)
| CallHeartbeat
| CallResync
| CallClose.

(** One call on a connection: whether it is closed after, and what it did. *)
Definition call (c : ConnectionCall) (controller : FrameController) (closed : bool)
  : outcome LiveProtocolError (bool * list ConnectionEffect) :=
  if closed then Ok (closed, [])
  else match c with
       | CallSnapshot rows cursor => let! frame := snapshotFrame rows cursor in Ok (emit frame controller closed)
       | CallDeliver change cursor =>
           if isFull controller then
             let! (closed', effects) := resync controller closed in Ok (closed', (effects ++ [Overflow])%list)
           else let! frame := changeFrame change cursor in Ok (emit frame controller closed)
       | CallHeartbeat => Ok (emit (commentFrame "ping") controller closed)
       | CallResync => resync controller closed
       | CallClose => Ok (true, safeClose controller)
       end.

(** The calls of a connection's life, in order; a call that throws leaves it as it was. *)
Fixpoint calls (l : list (ConnectionCall * FrameController)) (closed : bool) : bool * list ConnectionEffect :=
  match l with
  | [] => (closed, [])
  | (c, controller) :: l' =>
      let '(closed1, effects1) := match call c controller closed with Ok r => r | Throw _ => (closed, []) end in
      let '(closed2, effects2) := calls l' closed1 in
      (closed2, (effects1 ++ effects2)%list)
  end.

(** * Live queries: frames survive the wire

    A frame is one event of one data line that decodes to what it was made from; every
    malformed payload is refused with one code; and what a connection writes, in any order
    of calls and under any backpressure, is a clean run of frames that ends at most one
    resync. *)
#[local] Open Scope string_scope.
#[local] Open Scope Z_scope.

(** ** Texts without control characters *)

Definition visible (c : ascii) : bool := 32 <=? Z.of_nat (nat_of_ascii c).

Lemma escape_char_visible c : all_chars visible (escape_char c) = true.
Proof. destruct c as [[] [] [] [] [] [] [] []]; vm_compute; reflexivity. Qed.

Lemma escape_visible s : all_chars visible (escape s) = true.
Proof. induction s as [|c s IH]; [done|]. cbn [escape]. by rewrite all_chars_app, escape_char_visible, IH. Qed.

Lemma quote_visible s : all_chars visible (quote s) = true.
Proof. unfold quote. cbn [all_chars]. by rewrite all_chars_app, escape_visible. Qed.

Lemma number_char_visible c : number_char c = true -> visible c = true.
Proof. destruct c as [[] [] [] [] [] [] [] []]; vm_compute; done. Qed.

Lemma join_visible (parts : list string) :
  List.Forall (fun p => all_chars visible p = true) parts -> all_chars visible (join "," parts) = true.
Proof.
  intros H. induction H as [|p parts Hp H IH]; [done|]. destruct parts as [|q parts]; [done|].
  change (join "," (p :: q :: parts)) with (p ++ "," ++ join "," (q :: parts)). by rewrite !all_chars_app, Hp, IH.
Qed.

(** What [JSON.stringify] writes has no line break. *)
Lemma stringify_visible v : wire_safe v = true -> all_chars visible (stringify v) = true.
Proof.
  induction v as [|b|n|s|l IH|l IH] using json_nested_ind; intros H; [done|by destruct b| |apply quote_visible| |].
  - cbn [stringify wire_safe] in *. unfold number_prints in H. bools. rewrite H.
    eapply all_chars_impl; [apply number_char_visible|done].
  - cbn [stringify wire_safe] in *. rewrite !all_chars_app, join_visible; [done|].
    apply List.Forall_map. rewrite List.Forall_forall in *. rewrite forallb_forall in H. auto.
  - cbn [stringify wire_safe] in *. apply andb_true_iff in H as [_ H]. rewrite !all_chars_app, join_visible; [done|].
    apply List.Forall_map. rewrite List.Forall_forall in *. rewrite forallb_forall in H.
    intros kv Hkv. rewrite !all_chars_app, quote_visible, IH; auto.
Qed.

Lemma visible_has c s : visible c = false -> all_chars visible s = true -> has_char c s = false.
Proof.
  intros Hc H. rewrite has_char_all, negb_false_iff. eapply all_chars_impl; [|exact H].
  intros d Hd. destruct (Ascii.eqb_spec d c) as [->|]; [congruence|done].
Qed.

(** ** Rows *)

(** A cell the wire carries as it is. *)
Definition wire_cell (c : cell) : bool :=
  match c with CUndefined | CDate _ => false | CNum n => number_prints n | _ => true end.

Definition clean_row (row : Row) : bool := bool_decide (NoDup (map fst row)) && forallb (fun kv => wire_cell kv.2) row.

Definition clean_change (c : ShapeChange) : bool :=
  match c with SDelete _ => true | SInsert _ row | SUpdate _ row => clean_row row end.

Lemma wire_cell_json c : wire_cell c = true -> exists v, json_of_cell c = Some v /\ cell_of_json v = c /\ wire_safe v = true.
Proof. destruct c; cbn; try discriminate; intros H; eexists; repeat split; done. Qed.

Lemma json_of_row_clean row :
  clean_row row = true -> row_of_json (json_of_row row) = Some row /\ wire_safe (json_of_row row) = true.
Proof.
  unfold clean_row, json_of_row, row_of_json. intros [Hn%bool_decide_eq_true Hc]%andb_true_iff.
  assert (map (fun kv => (kv.1, cell_of_json kv.2)) (omap (fun kv => option_map (pair kv.1) (json_of_cell kv.2)) row) = row /\
          map fst (omap (fun kv => option_map (pair kv.1) (json_of_cell kv.2)) row) = map fst row /\
          forallb (fun kv => wire_safe kv.2) (omap (fun kv => option_map (pair kv.1) (json_of_cell kv.2)) row) = true) as (E1 & E2 & E3).
  { clear Hn. induction row as [|[k c] row IH]; [done|]. cbn [forallb snd] in Hc. apply andb_true_iff in Hc as [Hc Hrow].
    destruct (wire_cell_json c Hc) as (v & Ev & Ec & Hv). destruct (IH Hrow) as (I1 & I2 & I3). simpl. rewrite Ev. simpl.
    rewrite Ec, Hv. split; [f_equal; exact I1|]. split; [f_equal; exact I2|exact I3]. }
  split; [exact (f_equal Some E1)|]. cbn [wire_safe]. rewrite E2, E3, andb_true_r. by apply bool_decide_eq_true.
Qed.

Lemma map_outcome_rows rows :
  List.Forall (fun row => clean_row row = true) rows ->
  map_outcome (fun v => match row_of_json v with Some row => Ok row | None => malformed_frame end) (map json_of_row rows) = Ok rows.
Proof.
  intros H. induction H as [|row rows Hr _ IH]; [done|]. cbn [map map_outcome].
  rewrite (proj1 (json_of_row_clean row Hr)). cbn [outcome_bind]. by rewrite IH.
Qed.

Lemma rows_safe rows : List.Forall (fun row => clean_row row = true) rows -> wire_safe (JObj [("rows", JArr (map json_of_row rows))]) = true.
Proof.
  intros H. cbn [wire_safe map fst snd forallb]. rewrite andb_true_r. apply andb_true_iff. split; [done|].
  apply forallb_forall. intros v (row & <- & Hrow)%in_map_iff. rewrite List.Forall_forall in H. by apply json_of_row_clean, H.
Qed.

Lemma change_safe c : clean_change c = true -> wire_safe (json_of_change c) = true.
Proof.
  destruct c as [key row|key row|key]; cbn [clean_change json_of_change]; intros H; [| |done];
    cbn [wire_safe map fst snd forallb]; by rewrite (proj2 (json_of_row_clean row H)).
Qed.

Lemma decode_change c : clean_change c = true -> decodeChangeData (stringify (json_of_change c)) = Ok c.
Proof.
  intros H. unfold decodeChangeData, parseObject. rewrite parse_stringify by (by apply change_safe).
  destruct c as [key row|key row|key]; cbn [clean_change json_of_change outcome_bind] in *; [| |done];
    unfold map_get; cbn -[row_of_json json_of_row]; by rewrite (proj1 (json_of_row_clean row H)).
Qed.

Lemma decode_snapshot rows :
  List.Forall (fun row => clean_row row = true) rows ->
  decodeSnapshotData (stringify (JObj [("rows", JArr (map json_of_row rows))])) = Ok rows.
Proof.
  intros H. unfold decodeSnapshotData, parseObject. rewrite parse_stringify by (by apply rows_safe).
  cbn [outcome_bind]. unfold map_get. cbn -[row_of_json json_of_row map_outcome]. by apply map_outcome_rows.
Qed.

(** ** Frames *)

Lemma event_frame_lines event data cursor :
  has_char newline event = false -> has_char newline data = false -> has_char newline cursor = false ->
  split newline (event_frame event data cursor) =
    ["event: " ++ event; "data: " ++ data; "id: " ++ cursor; EmptyString; EmptyString].
Proof.
  intros He Hd Hc. unfold event_frame, nl.
  change (split newline (("event: " ++ event ++ String newline EmptyString ++ "data: " ++ data ++ String newline EmptyString ++
    "id: " ++ cursor ++ String newline EmptyString ++ String newline EmptyString))) with
    (split newline ("event: " ++ event ++ String newline ("data: " ++ data ++ String newline ("id: " ++ cursor ++
       String newline (String newline EmptyString))))).
  rewrite <- (append_assoc "event: "), <- (append_assoc "data: "), <- (append_assoc "id: ").
  assert (forall p s, has_char newline p = false -> has_char newline s = false -> has_char newline (p ++ s) = false) as A
    by (intros p s Hp Hs; by rewrite has_char_app, Hp, Hs).
  rewrite split_app by (by apply A). rewrite split_app by (by apply A). rewrite split_app by (by apply A). done.
Qed.

Lemma assertCursor_ok cursor : isValidCursor cursor = true -> assertCursor cursor = Ok tt /\ has_char newline cursor = false.
Proof. unfold assertCursor. intros H. rewrite H. unfold isValidCursor in H. bools. done. Qed.

(** Fact: a frame survives the wire: the text of a snapshot or a change frame is one event
    with one data line (no row value can break out of it) and the cursor as its id, and the
    payload of that line decodes to the very rows, or the very change, the frame was made of. *)
Theorem frame_round_trip (rows : list Row) (c : ShapeChange) (cursor : string) :
  List.Forall (fun row => clean_row row = true) rows -> clean_change c = true -> isValidCursor cursor = true ->
  (exists data, snapshotFrame rows cursor = Ok (event_frame "snapshot" data cursor) /\
     split newline (event_frame "snapshot" data cursor) =
       ["event: snapshot"; "data: " ++ data; "id: " ++ cursor; EmptyString; EmptyString] /\
     decodeSnapshotData data = Ok rows) /\
  (exists data, changeFrame c cursor = Ok (event_frame "change" data cursor) /\
     split newline (event_frame "change" data cursor) =
       ["event: change"; "data: " ++ data; "id: " ++ cursor; EmptyString; EmptyString] /\
     decodeChangeData data = Ok c).
Proof.
  intros Hr Hc Hv. destruct (assertCursor_ok cursor Hv) as [Ha Hn]. unfold snapshotFrame, changeFrame. rewrite Ha. cbn [outcome_bind].
  split; (eexists; split; [done|]; split; [apply event_frame_lines; [done| |done]|]).
  - apply visible_has; [done|]. by apply stringify_visible, rows_safe.
  - by apply decode_snapshot.
  - apply visible_has; [done|]. by apply stringify_visible, change_safe.
  - by apply decode_change.
Qed.

(** ** The connection *)

Definition resync_text : string := event_frame "resync" EmptyString RESYNC_CURSOR.

Lemma resync_frame : resyncFrame RESYNC_CURSOR = Ok resync_text.
Proof. done. Qed.

(** A frame that carries rows, a change, or nothing. *)
Definition content_frame (f : string) : Prop :=
  (exists rows cursor, snapshotFrame rows cursor = Ok f) \/ (exists c cursor, changeFrame c cursor = Ok f) \/ f = commentFrame "ping".

(** How a connection ends: perhaps a resync, then perhaps a close, then perhaps the overflow signal. *)
Definition ending (l : list ConnectionEffect) : Prop :=
  exists a b c : bool,
    l = ((if a then [Enqueued resync_text] else []) ++ (if b then [Closed] else []) ++ (if c then [Overflow] else []))%list.

Lemma ending_nil : ending [].
Proof. by exists false, false, false. Qed.

Lemma calls_closed l : calls l true = (true, []).
Proof. induction l as [|[c controller] l IH]; [done|]. simpl. by rewrite IH. Qed.

Lemma call_spec c controller :
  match call c controller false with
  | Throw e => e = LIVE_PROTOCOL_MALFORMED_FRAME
  | Ok (false, effects) => exists f, effects = [Enqueued f] /\ content_frame f
  | Ok (true, effects) => ending effects
  end.
Proof.
  assert (forall f, content_frame f -> match emit f controller false with
            | (false, effects) => exists f, effects = [Enqueued f] /\ content_frame f
            | (true, effects) => ending effects end) as E.
  { intros f Hf. unfold emit. destruct (enqueue_ok controller); [by exists f|apply ending_nil]. }
  assert (exists a b : bool, ((emit resync_text controller false).2 ++ safeClose controller =
            (if a then [Enqueued resync_text] else []) ++ (if b then [Closed] else []))%list) as (a & b & R).
  { unfold emit, safeClose. destruct (enqueue_ok controller), (close_ok controller);
      [exists true, true|exists true, false|exists false, true|exists false, false]; done. }
  destruct c as [rows cursor|change cursor| | |]; unfold call, resync; cbn [negb].
  - destruct (snapshotFrame rows cursor) as [f|e] eqn:F; cbn [outcome_bind].
    + specialize (E f ltac:(left; eauto)). by destruct (emit f controller false) as [[] effects].
    + unfold snapshotFrame, assertCursor in F. destruct (isValidCursor cursor); simpl in F; congruence.
  - destruct (isFull controller).
    + rewrite resync_frame. cbn [outcome_bind]. rewrite R. exists a, b, true. by rewrite app_assoc.
    + destruct (changeFrame change cursor) as [f|e] eqn:F; cbn [outcome_bind].
      * specialize (E f ltac:(right; left; eauto)). by destruct (emit f controller false) as [[] effects].
      * unfold changeFrame, assertCursor in F. destruct (isValidCursor cursor); simpl in F; congruence.
  - specialize (E (commentFrame "ping") ltac:(right; by right)). by destruct (emit _ controller false) as [[] effects].
  - rewrite resync_frame. cbn [outcome_bind]. rewrite R. exists a, b, false. by rewrite app_nil_r.
  - unfold safeClose. destruct (close_ok controller); [exists false, true, false|apply ending_nil]; done.
Qed.

(** Fact: whatever calls a connection gets, in whatever order, and whatever its controller
    answers: it writes well-formed frames, then at most one resync, then closes at most
    once, and signals overflow at most once, last; nothing follows; the resync carries a
    cursor no reconnect can resume from; and a full buffer is never given a change. *)
Theorem connection_writes_clean_run (l : list (ConnectionCall * FrameController)) :
  (exists frames rest,
     (calls l false).2 = (map Enqueued frames ++ rest)%list /\ List.Forall content_frame frames /\ ending rest /\
     ((calls l false).1 = false -> rest = [])) /\
  decodeResumeCursor (Some RESYNC_CURSOR) = None /\
  (forall change cursor controller, isFull controller = true ->
     call (CallDeliver change cursor) controller false =
     Ok (true, ((if enqueue_ok controller then [Enqueued resync_text] else []) ++ safeClose controller ++ [Overflow])%list)).
Proof.
  split; [|split; [by vm_compute|]].
  - induction l as [|[c controller] l IH]; [exists [], []; split; [done|]; split; [constructor|]; split; [apply ending_nil|done]|].
    cbn [calls]. pose proof (call_spec c controller) as S. destruct (call c controller false) as [[[] effects]|e].
    + rewrite calls_closed. exists [], effects. rewrite app_nil_r. split; [done|]. split; [constructor|]. by split.
    + destruct S as (f & -> & Hf). destruct (calls l false) as [closed effects]. destruct IH as (frames & rest & E & Hfs & He & Hr).
      simpl in *. exists (f :: frames), rest. rewrite E. split; [done|]. split; [by constructor|]. by split.
    + destruct (calls l false) as [closed effects]. destruct IH as (frames & rest & E & H). simpl in *. exists frames, rest. by rewrite E.
  - intros change cursor controller H. unfold call. rewrite H. unfold resync. rewrite resync_frame. cbn [outcome_bind].
    unfold emit. destruct (enqueue_ok controller); by rewrite <- ?app_assoc.
Qed.

(** Fact: a number that JSON cannot say arrives as something else: the server's rows may hold
    NaN (a text a numeric column cannot be read as) or -0; on the wire they become null and
    0, so the client's row is not the row the server filters and diffs by, although the
    wire form is documented as the exact form both sides see. *)
Theorem unprintable_numbers_change :
  decodeChangeData (stringify (json_of_change (SInsert "1" [("id", CStr "1"); ("n", CNum NaN); ("z", CNum NegZero)]))) =
    Ok (SInsert "1" [("id", CStr "1"); ("n", CNull); ("z", CNum (Units 0))]).
Proof. vm_compute. reflexivity. Qed.

Lemma frame_round_trip_witness :
  let rows := [[("id", CNum (int 1)); ("body", CStr "hi")]; [("id", CNum (int 2)); ("body", CNull)]] in
  let c := SUpdate "2" [("id", CNum (int 2)); ("body", CStr nl)] in
  (exists data, snapshotFrame rows "v1:s:1:0/0" = Ok (event_frame "snapshot" data "v1:s:1:0/0") /\
     split newline (event_frame "snapshot" data "v1:s:1:0/0") =
       ["event: snapshot"; "data: " ++ data; "id: " ++ "v1:s:1:0/0"; EmptyString; EmptyString] /\
     decodeSnapshotData data = Ok rows) /\
  (exists data, changeFrame c "v1:s:1:0/0" = Ok (event_frame "change" data "v1:s:1:0/0") /\
     split newline (event_frame "change" data "v1:s:1:0/0") =
       ["event: change"; "data: " ++ data; "id: " ++ "v1:s:1:0/0"; EmptyString; EmptyString] /\
     decodeChangeData data = Ok c).
Proof. apply frame_round_trip; [repeat constructor; vm_compute; reflexivity|vm_compute; reflexivity|reflexivity]. Defined.
