(* ===== verification/LiveStore.v ===== *)
(** * Live queries: the client's stores

    [packages/live/src/read-model.ts], [store.ts] and [sqlite-store.ts]: the read model
    with its optimistic overlay, the keyed authorized set it is merged over, and the
    durable tier behind a FIFO of writes that may each fail. *)
From S2P Require Import Prelude JsString JsMap JsNumber JsJson LiveShape LiveDiff LiveFrames.

#[local] Open Scope string_scope.

(** ** The read model *)

Record OverlayEntry : Type := mkOverlay { ov_key : string; ov_change : ShapeChange; ov_held : bool }.

(** The overlay by mutation id, the cursor, and the lazily sorted rows: [cacheRef] names the
    array handed out, a new one at each recomputation. *)
Record ReadModel : Type := mkReadModel {
  overlay : JsMap OverlayEntry;
  rm_cursor : option string;
  cache : list Row;
  cacheRef : nat;
  dirty : bool
}.

Definition createReadModel : ReadModel := mkReadModel [] None [] 0 true.

Definition set_overlay (o : JsMap OverlayEntry) (rm : ReadModel) : ReadModel :=
  mkReadModel o (rm_cursor rm) (cache rm) (cacheRef rm) (dirty rm).

Definition setCursor (cursor : option string) (rm : ReadModel) : ReadModel :=
  mkReadModel (overlay rm) cursor (cache rm) (cacheRef rm) (dirty rm).

(** [mutated]: the listeners it calls are not modelled. *)
Definition mutated (rm : ReadModel) : ReadModel := mkReadModel (overlay rm) (rm_cursor rm) (cache rm) (cacheRef rm) true.

Definition setOptimistic (id : string) (change : ShapeChange) (rm : ReadModel) : ReadModel :=
  set_overlay (map_set id (mkOverlay (change_key change) change false) (overlay rm)) rm.

Definition rm_holdOptimistic (id : string) (rm : ReadModel) : ReadModel :=
  match map_get id (overlay rm) with
  | Some e => set_overlay (map_set id (mkOverlay (ov_key e) (ov_change e) true) (overlay rm)) rm
  | None => rm
  end.

Definition rm_clearOptimistic (id : string) (rm : ReadModel) : ReadModel := set_overlay (map_delete id (overlay rm)) rm.

(** The oldest held entry of a row key. *)
Definition oldest_held (key : string) (o : JsMap OverlayEntry) : option string :=
  option_map fst (List.find (fun kv => String.eqb (ov_key kv.2) key && ov_held kv.2) o).

(** [settleEcho]: the id reported to the echo listeners, if any. *)
Definition settleEcho (key : string) (rm : ReadModel) : ReadModel * option string :=
  match oldest_held key (overlay rm) with
  | Some id => (set_overlay (map_delete id (overlay rm)) rm, Some id)
  | None => (rm, None)
  end.

(** The overlay applied oldest first. *)
Definition merge_overlay (o : JsMap OverlayEntry) (rows : Rows) : Rows :=
  fold_left (fun merged kv => match ov_change kv.2 with
                              | SDelete _ => map_delete (ov_key kv.2) merged
                              | SInsert _ row | SUpdate _ row => map_set (ov_key kv.2) row merged
                              end) o rows.

(** The rows [getRows] sorts. *)
Definition merged_rows (def : ShapeDefinition) (rows : list Row) (o : JsMap OverlayEntry) : outcome LiveProtocolError (list Row) :=
  match o with
  | [] => Ok rows
  | _ =>
      let! pairs := key_rows def rows in
      Ok (map snd (merge_overlay o (fold_left (fun m kr => map_set kr.1 kr.2 m) pairs [])))
  end.

Definition getRows (def : ShapeDefinition) (rows : list Row) (rm : ReadModel) : outcome LiveProtocolError (list Row * ReadModel) :=
  if dirty rm then
    let! merged := merged_rows def rows (overlay rm) in
    let sorted := toSorted (compareRows def) merged in
    Ok (sorted, mkReadModel (overlay rm) (rm_cursor rm) sorted (S (cacheRef rm)) false)
  else Ok (cache rm, rm).

(** ** The store *)

Record LiveStore : Type := mkStore { rowsByKey : Rows; readModel : ReadModel }.

Definition createLiveStore : LiveStore := mkStore [] createReadModel.

(** A hydrated store. *)
Definition open_store (rows : Rows) (cursor : option string) : LiveStore := mkStore rows (setCursor cursor createReadModel).

Definition getCursor (st : LiveStore) : option string := rm_cursor (readModel st).

(** The echoes of a snapshot's rows, in order. *)
Fixpoint settle_all (keys : list string) (rm : ReadModel) : ReadModel * list string :=
  match keys with
  | [] => (rm, [])
  | key :: keys' =>
      let '(rm1, settled) := settleEcho key rm in
      let '(rm2, ids) := settle_all keys' rm1 in
      (rm2, (option_list settled ++ ids)%list)
  end.

(** [applySnapshot]: the new store and the ids whose echo it was. *)
Definition applySnapshot (def : ShapeDefinition) (rows : list Row) (cursor : option string) (st : LiveStore)
  : outcome LiveProtocolError (LiveStore * list string) :=
  let! pairs := key_rows def rows in
  let next := fold_left (fun m kr => map_set kr.1 kr.2 m) pairs [] in
  let '(rm, ids) := settle_all (map fst pairs) (setCursor cursor (readModel st)) in
  Ok (mkStore next (mutated rm), ids).

(** The store's [applyChange]. *)
Definition store_applyChange (change : ShapeChange) (cursor : option string) (st : LiveStore) : LiveStore * option string :=
  let '(rm, settled) := settleEcho (change_key change) (setCursor cursor (readModel st)) in
  (mkStore (applyChange (rowsByKey st) change) (mutated rm), settled).

Definition applyResync (st : LiveStore) : LiveStore := mkStore [] (mutated (setCursor None (readModel st))).

Definition applyOptimistic (id : string) (change : ShapeChange) (st : LiveStore) : LiveStore :=
  mkStore (rowsByKey st) (mutated (setOptimistic id change (readModel st))).

Definition holdOptimistic (id : string) (st : LiveStore) : LiveStore :=
  mkStore (rowsByKey st) (rm_holdOptimistic id (readModel st)).

Definition clearOptimistic (id : string) (st : LiveStore) : LiveStore :=
  mkStore (rowsByKey st) (mutated (rm_clearOptimistic id (readModel st))).

Definition store_getRows (def : ShapeDefinition) (st : LiveStore) : outcome LiveProtocolError (list Row * LiveStore) :=
  let! (rows, rm) := getRows def (map snd (rowsByKey st)) (readModel st) in Ok (rows, mkStore (rowsByKey st) rm).

(** ** The durable tier *)

(** One queued mutation: the mutation to replay and what it shows meanwhile. *)
Record OutboxEntry : Type := mkEntry { o_id : string; o_name : string; o_input : option json; o_optimistic : ShapeChange }.

(** A persisted one: the texts of its columns, and its flag. *)
Record OutboxRow : Type := mkOutboxRow { l_id : string; l_name : string; l_input : string; l_optimistic : string; l_held : bool }.

(** The three tables of one shape. *)
Record Tier : Type := mkTier {
  t_rows : JsMap string;
  t_cursor : option string;
  t_outbox : list OutboxRow
}.

Definition empty_tier : Tier := mkTier [] None [].

(** The writes on the chain. *)
Inductive DurableWrite : Type :=
| WSnapshot (rows : list Row) (cursor : option string)
| WChange (change : ShapeChange) (cursor : option string)
| WAppend (e : OutboxEntry)
| WMarkHeld (id : string)
| WRemove (id : string).

(** The writes the freeze gates. *)
Definition gated (w : DurableWrite) : bool := match w with WSnapshot _ _ | WChange _ _ => true | _ => false end.
Definition replaces (w : DurableWrite) : bool := match w with WSnapshot _ _ => true | _ => false end.

Definition row_text (row : Row) : string := stringify (json_of_row row).

Definition outbox_row (e : OutboxEntry) : OutboxRow :=
  mkOutboxRow (o_id e) (o_name e) (stringify (default JNull (o_input e))) (stringify (json_of_change (o_optimistic e))) false.

(** The upsert of an outbox row: it keeps the place of a row with its id. *)
Definition upsert_outbox (r : OutboxRow) (log : list OutboxRow) : list OutboxRow :=
  if existsb (fun x => String.eqb (l_id x) (l_id r)) log
  then map (fun x => if String.eqb (l_id x) (l_id r) then r else x) log
  else (log ++ [r])%list.

Definition mark_held (id : string) (log : list OutboxRow) : list OutboxRow :=
  map (fun x => if String.eqb (l_id x) id then mkOutboxRow (l_id x) (l_name x) (l_input x) (l_optimistic x) true else x) log.

Definition remove_outbox (id : string) (log : list OutboxRow) : list OutboxRow :=
  List.filter (fun x => negb (String.eqb (l_id x) id)) log.

(** The effect of a committed write. A snapshot's rows have keys: the mirror built them first. *)
Definition commit_write (def : ShapeDefinition) (w : DurableWrite) (t : Tier) : Tier :=
  match w with
  | WSnapshot rows cursor =>
      let pairs := match key_rows def rows with Ok pairs => pairs | Throw _ => [] end in
      mkTier (fold_left (fun m kr => map_set kr.1 (row_text kr.2) m) pairs []) cursor (t_outbox t)
  | WChange (SDelete key) cursor => mkTier (map_delete key (t_rows t)) cursor (t_outbox t)
  | WChange (SInsert key row) cursor | WChange (SUpdate key row) cursor =>
      mkTier (map_set key (row_text row) (t_rows t)) cursor (t_outbox t)
  | WAppend e => mkTier (t_rows t) (t_cursor t) (upsert_outbox (outbox_row e) (t_outbox t))
  | WMarkHeld id => mkTier (t_rows t) (t_cursor t) (mark_held id (t_outbox t))
  | WRemove id => mkTier (t_rows t) (t_cursor t) (remove_outbox id (t_outbox t))
  end.

(** [runWrite] and [runRaw]: whether the transaction commits is an argument; a gated write
    is not run while the tier is frozen, unless it replaces everything. *)
Definition runWrite (def : ShapeDefinition) (commits : bool) (w : DurableWrite) (t : Tier) (frozen : bool) : Tier * bool :=
  if gated w then
    if frozen && negb (replaces w) then (t, frozen)
    else if commits then (commit_write def w t, if replaces w then false else frozen)
    else (t, true)
  else if commits then (commit_write def w t, frozen) else (t, frozen).

(** A whole chain of writes with their outcomes. *)
Definition run_chain (def : ShapeDefinition) (l : list (DurableWrite * bool)) (t : Tier) (frozen : bool) : Tier * bool :=
  fold_left (fun tf wb => runWrite def wb.2 wb.1 tf.1 tf.2) l (t, frozen).

(** ** Hydration *)

Definition row_of_text (text : string) : option Row := match parse text with Some v => row_of_json v | None => None end.

Definition change_of_text (text : string) : option ShapeChange :=
  match decodeChangeData text with Ok c => Some c | Throw _ => None end.

(** A persisted entry read back. *)
Record LoadedOutboxEntry : Type := mkLoaded { lo_entry : OutboxEntry; lo_held : bool }.

(** [hydrate]: a text that does not parse throws. The casts of the parsed texts are not
    checked by the code; here a text that is no row, or no change, throws as well. *)
Definition load_rows (rows : JsMap string) : option Rows :=
  mapM (fun kt => row ← row_of_text kt.2; Some (kt.1, row)) rows.

Definition load_entry (r : OutboxRow) : option LoadedOutboxEntry :=
  input ← parse (l_input r);
  optimistic ← change_of_text (l_optimistic r);
  Some (mkLoaded (mkEntry (l_id r) (l_name r) (Some input) optimistic) (l_held r)).

Definition hydrate (t : Tier) : option (Rows * option string * list LoadedOutboxEntry) :=
  rows ← load_rows (t_rows t);
  outbox ← mapM load_entry (t_outbox t);
  Some (rows, t_cursor t, outbox).

(** * Live queries: what the client reads, and what survives a reload

    The cached, merged, sorted view is always the authorized rows under the optimistic
    ones, and one array between mutations. The durable slice is the live one as it was
    after some prefix of the wire's mutations, rows and cursor together, whatever writes
    failed. *)
#[local] Open Scope nat_scope.

(** ** Texts of rows *)

Definition texts (rows : Rows) : JsMap string := map (fun kv => (kv.1, row_text kv.2)) rows.

Lemma existsb_texts key rows : existsb (fun kv => String.eqb (fst kv) key) (texts rows) = existsb (fun kv => String.eqb (fst kv) key) rows.
Proof. unfold texts. induction rows as [|[k r] rows IH]; [done|]. simpl. by rewrite IH. Qed.

Lemma texts_set key row rows : texts (map_set key row rows) = map_set key (row_text row) (texts rows).
Proof.
  unfold map_set. rewrite existsb_texts. destruct (existsb _ rows).
  - unfold texts. rewrite !map_map. apply map_ext. intros [k r]. simpl. by destruct (String.eqb k key).
  - unfold texts. by rewrite map_app.
Qed.

Lemma texts_delete key rows : texts (map_delete key rows) = map_delete key (texts rows).
Proof.
  unfold map_delete, texts. induction rows as [|[k r] rows IH]; [done|]. simpl. destruct (String.eqb k key); simpl; by rewrite IH.
Qed.

Lemma texts_fold pairs rows :
  texts (fold_left (fun m kr => map_set kr.1 kr.2 m) pairs rows) =
  fold_left (fun m kr => map_set kr.1 (row_text kr.2) m) pairs (texts rows).
Proof. revert rows. induction pairs as [|[k r] pairs IH]; intros rows; [done|]. simpl. by rewrite IH, texts_set. Qed.

(** ** The wire's mutations *)

Inductive WireOp : Type :=
| WireSnapshot (rows : list Row) (cursor : option string)
| WireChange (change : ShapeChange) (cursor : option string)
| WireResync.

Section Store.
Context (def : ShapeDefinition).

(** A snapshot whose rows all have keys; one that does not throws, and mutates nothing. *)
Definition applicable (op : WireOp) : Prop :=
  match op with WireSnapshot rows _ => exists pairs, key_rows def rows = Ok pairs | _ => True end.

Definition wire_apply (st : LiveStore) (op : WireOp) : LiveStore :=
  match op with
  | WireSnapshot rows cursor => match applySnapshot def rows cursor st with Ok (st', _) => st' | Throw _ => st end
  | WireChange change cursor => (store_applyChange change cursor st).1
  | WireResync => applyResync st
  end.

(** The write the durable store enqueues for a mutation. *)
Definition wire_write (op : WireOp) : DurableWrite :=
  match op with
  | WireSnapshot rows cursor => WSnapshot rows cursor
  | WireChange change cursor => WChange change cursor
  | WireResync => WSnapshot [] None
  end.

Definition after (ops : list WireOp) (st : LiveStore) : LiveStore := fold_left wire_apply ops st.

Lemma settleEcho_cursor key rm : rm_cursor (settleEcho key rm).1 = rm_cursor rm.
Proof. unfold settleEcho. by destruct (oldest_held key (overlay rm)). Qed.

Lemma settle_all_cursor keys rm : rm_cursor (settle_all keys rm).1 = rm_cursor rm.
Proof.
  revert rm. induction keys as [|key keys IH]; intros rm; [done|]. cbn [settle_all].
  pose proof (settleEcho_cursor key rm) as H. destruct (settleEcho key rm) as [rm1 s]. specialize (IH rm1).
  destruct (settle_all keys rm1) as [rm2 ids]. simpl in *. congruence.
Qed.

(** What a mutation leaves: the rows and the cursor. *)
Lemma wire_apply_slice op st :
  applicable op ->
  match op with
  | WireSnapshot rows cursor =>
      exists pairs, key_rows def rows = Ok pairs /\
        rowsByKey (wire_apply st op) = fold_left (fun m kr => map_set kr.1 kr.2 m) pairs [] /\ getCursor (wire_apply st op) = cursor
  | WireChange change cursor =>
      rowsByKey (wire_apply st op) = applyChange (rowsByKey st) change /\ getCursor (wire_apply st op) = cursor
  | WireResync => rowsByKey (wire_apply st op) = [] /\ getCursor (wire_apply st op) = None
  end.
Proof.
  destruct op as [rows cursor|change cursor|]; cbn [applicable wire_apply]; [| |done].
  - intros [pairs E]. exists pairs. split; [done|]. unfold applySnapshot. rewrite E. cbn [outcome_bind].
    pose proof (settle_all_cursor (map fst pairs) (setCursor cursor (readModel st))) as H.
    destruct (settle_all _ _) as [rm ids]. by split.
  - intros _. unfold store_applyChange. pose proof (settleEcho_cursor (change_key change) (setCursor cursor (readModel st))) as H.
    destruct (settleEcho _ _) as [rm s]. by split.
Qed.

(** The tier holds the slice of a store. *)
Definition holds (t : Tier) (st : LiveStore) : Prop := t_rows t = texts (rowsByKey st) /\ t_cursor t = getCursor st.

Lemma commit_holds op t st : applicable op -> (replaces (wire_write op) = true \/ holds t st) ->
  holds (commit_write def (wire_write op) t) (wire_apply st op).
Proof.
  intros Ha H. pose proof (wire_apply_slice op st Ha) as S. unfold holds.
  destruct op as [rows cursor|change cursor|]; cbn [wire_write commit_write replaces] in *.
  - destruct S as (pairs & E & -> & ->). rewrite E. cbn [t_rows t_cursor]. by rewrite texts_fold.
  - destruct S as [-> ->]. destruct H as [H|[Hr Hc]]; [done|]. destruct change as [key row|key row|key]; cbn [t_rows t_cursor applyChange];
      by rewrite Hr, ?texts_set, ?texts_delete.
  - destruct S as [-> ->]. done.
Qed.

Lemma ungated_keeps w commits t frozen :
  gated w = false -> let '(t', f') := runWrite def commits w t frozen in f' = frozen /\ t_rows t' = t_rows t /\ t_cursor t' = t_cursor t.
Proof. intros H. unfold runWrite. rewrite H. destruct commits; [|done]. by destruct w. Qed.

Lemma wire_write_gated op : gated (wire_write op) = true.
Proof. by destruct op. Qed.

(** The durable slice after a run of writes. *)
Lemma chain_prefix ops l st t0 :
  holds t0 st -> List.Forall applicable ops -> List.filter gated (map fst l) = map wire_write ops ->
  let '(t, frozen) := run_chain def l t0 false in
  exists n, n <= length ops /\ (frozen = false -> n = length ops) /\ holds t (after (firstn n ops) st).
Proof.
  intros H0. revert ops. induction l as [|[w b] l IH] using rev_ind; intros ops Ha Hf.
  - destruct ops; [|done]. by exists 0.
  - rewrite map_app, List.filter_app in Hf. unfold run_chain in *. rewrite fold_left_app. cbn [fold_left fst snd map List.filter] in *.
    destruct (gated w) eqn:G.
    + destruct ops as [|op ops _] using rev_ind; [by destruct (List.filter gated (map fst l))|].
      rewrite map_app in Hf. apply app_inj_tail in Hf as [Hf ->]. apply List.Forall_app in Ha as [Ha Hop].
      inversion Hop as [|? ? Hap _]; subst. specialize (IH ops Ha Hf).
      destruct (fold_left _ l (t0, false)) as [t frozen]. destruct IH as (n & Hn & Hfr & Hh). cbn [fst snd].
      assert (firstn n (ops ++ [op]) = firstn n ops) as En by (rewrite firstn_app; replace (n - length ops) with 0 by lia; apply app_nil_r).
      unfold runWrite. rewrite wire_write_gated.
      destruct (frozen && negb (replaces (wire_write op))) eqn:F.
      { exists n. rewrite En, length_app. apply andb_true_iff in F as [-> _]. split; [lia|]. by split. }
      destruct b; [|exists n; rewrite En, length_app; split; [lia|]; by split].
      exists (length (ops ++ [op])). split; [done|]. split; [done|]. rewrite firstn_all. unfold after. rewrite fold_left_app. cbn [fold_left].
      apply commit_holds; [done|]. destruct (replaces (wire_write op)); [by left|]. right.
      destruct frozen; [done|]. rewrite Hfr in Hh by done. by rewrite firstn_all in Hh.
    + rewrite app_nil_r in Hf. specialize (IH ops Ha Hf). destruct (fold_left _ l (t0, false)) as [t frozen]. cbn [fst snd].
      pose proof (ungated_keeps w b t frozen G) as U. destruct (runWrite _ _ _ _ _) as [t' f']. destruct U as (-> & Er & Ec).
      destruct IH as (n & Hn & Hfr & Hh). exists n. split; [done|]. split; [done|]. unfold holds in *. by rewrite Er, Ec.
Qed.

(** ** Reading it back *)

Definition clean_rows (rows : Rows) : Prop := List.Forall (fun kv => clean_row kv.2 = true) rows.

Definition clean_op (op : WireOp) : Prop :=
  match op with
  | WireSnapshot rows _ => List.Forall (fun row => clean_row row = true) rows
  | WireChange change _ => clean_change change = true
  | WireResync => True
  end.

Lemma row_text_reads row : clean_row row = true -> row_of_text (row_text row) = Some row.
Proof.
  intros H. destruct (json_of_row_clean row H) as [Hr Hs]. unfold row_of_text, row_text. by rewrite parse_stringify.
Qed.

Lemma load_texts rows : clean_rows rows -> load_rows (texts rows) = Some rows.
Proof.
  intros H. unfold load_rows, texts. induction H as [|[k r] rows Hr _ IH]; [done|]. simpl in *.
  rewrite row_text_reads by done. simpl. by rewrite IH.
Qed.

Lemma clean_set key row rows : clean_row row = true -> clean_rows rows -> clean_rows (map_set key row rows).
Proof.
  intros Hr H. unfold clean_rows, map_set in *. destruct (existsb _ rows).
  - apply List.Forall_map. rewrite List.Forall_forall in *. intros [k r] Hin. simpl. destruct (String.eqb k key); [done|]. by apply (H (k, r)).
  - apply List.Forall_app. split; [done|by repeat constructor].
Qed.

Lemma clean_delete key rows : clean_rows rows -> clean_rows (map_delete key rows).
Proof. unfold clean_rows, map_delete. rewrite !List.Forall_forall. intros H kv [Hin _]%filter_In. by apply H. Qed.

Lemma clean_fold pairs rows :
  List.Forall (fun kr => clean_row kr.2 = true) pairs -> clean_rows rows ->
  clean_rows (fold_left (fun m kr => map_set kr.1 kr.2 m) pairs rows).
Proof. intros H. revert rows. induction H as [|[k r] pairs Hr _ IH]; intros rows Hrows; [done|]. simpl. by apply IH, clean_set. Qed.

Lemma wire_apply_clean op st : applicable op -> clean_op op -> clean_rows (rowsByKey st) -> clean_rows (rowsByKey (wire_apply st op)).
Proof.
  intros Ha Hc H. pose proof (wire_apply_slice op st Ha) as S. destruct op as [rows cursor|change cursor|]; cbn [clean_op] in Hc.
  - destruct S as (pairs & E & -> & _). apply key_rows_In in E as [E _]. apply clean_fold; [|constructor].
    rewrite <- E in Hc. by apply List.Forall_map in Hc.
  - destruct S as [-> _]. destruct change; cbn [applyChange clean_change] in *; [by apply clean_set..|by apply clean_delete].
  - destruct S as [-> _]. constructor.
Qed.

Lemma after_clean ops st :
  List.Forall applicable ops -> List.Forall clean_op ops -> clean_rows (rowsByKey st) -> clean_rows (rowsByKey (after ops st)).
Proof.
  intros Ha. revert st. induction Ha as [|op ops Hap _ IH]; intros st Hc H; [done|]. inversion Hc; subst.
  cbn. apply IH; [done|]. by apply wire_apply_clean.
Qed.
End Store.

(** C19: a reload resumes from a slice the client really had: whatever snapshots, changes and
    resyncs the wire brought, whatever outbox writes were queued among them, and whichever
    transactions failed, the durable rows and the durable cursor are together those of the
    live store after some prefix of the wire's mutations (all of them, unless a failure has
    the tier frozen): the cursor never points past a row that was not written. *)
Theorem reload_is_a_past_slice (def : ShapeDefinition) (rows : Rows) (cursor : option string) (log : list OutboxRow)
    (ops : list WireOp) (l : list (DurableWrite * bool)) :
  clean_rows rows -> List.Forall (applicable def) ops -> List.Forall clean_op ops ->
  List.filter gated (map fst l) = map wire_write ops ->
  let '(t, frozen) := run_chain def l (mkTier (texts rows) cursor log) false in
  exists n, n <= length ops /\ (frozen = false -> n = length ops) /\
    load_rows (t_rows t) = Some (rowsByKey (after def (firstn n ops) (open_store rows cursor))) /\
    t_cursor t = getCursor (after def (firstn n ops) (open_store rows cursor)).
Proof.
  intros Hr Ha Hc Hf. pose proof (chain_prefix def ops l (open_store rows cursor) (mkTier (texts rows) cursor log) ltac:(done) Ha Hf) as P.
  destruct (run_chain _ _ _ _) as [t frozen]. destruct P as (n & Hn & Hfr & Et & Ec). exists n. split; [done|]. split; [done|].
  split; [|done]. rewrite Et. apply load_texts, after_clean; [| |done].
  - rewrite <- (firstn_skipn n ops) in Ha. by apply List.Forall_app in Ha as [Ha _].
  - rewrite <- (firstn_skipn n ops) in Hc. by apply List.Forall_app in Hc as [Hc _].
Qed.

(** ** Reads *)

Inductive StoreOp : Type :=
| OpWire (op : WireOp)
| OpOptimistic (id : string) (change : ShapeChange)
| OpHold (id : string)
| OpClear (id : string)
| OpRead.

Section Reads.
Context (def : ShapeDefinition).

Definition store_step (st : LiveStore) (op : StoreOp) : LiveStore :=
  match op with
  | OpWire op => wire_apply def st op
  | OpOptimistic id change => applyOptimistic id change st
  | OpHold id => holdOptimistic id st
  | OpClear id => clearOptimistic id st
  | OpRead => match store_getRows def st with Ok (_, st') => st' | Throw _ => st end
  end.

(** What a reader is shown, recomputed: the authorized rows under the optimistic ones. *)
Definition shown (st : LiveStore) : outcome LiveProtocolError (list Row) :=
  merged_rows def (map snd (rowsByKey st)) (overlay (readModel st)).

(** A cache that is not dirty is what would be recomputed; mutation ids are distinct. *)
Definition coherent (st : LiveStore) : Prop :=
  (dirty (readModel st) = false -> exists m, shown st = Ok m /\ cache (readModel st) = toSorted (compareRows def) m) /\
  List.NoDup (map fst (overlay (readModel st))).

Lemma merge_overlay_map (g : string * OverlayEntry -> string * OverlayEntry) o rows :
  (forall kv, ov_change (g kv).2 = ov_change kv.2 /\ ov_key (g kv).2 = ov_key kv.2) ->
  merge_overlay (map g o) rows = merge_overlay o rows.
Proof.
  intros H. unfold merge_overlay. revert rows. induction o as [|kv o IH]; intros rows; [done|]. simpl.
  destruct (H kv) as [-> ->]. apply IH.
Qed.

Lemma merged_rows_map (g : string * OverlayEntry -> string * OverlayEntry) rows o :
  (forall kv, ov_change (g kv).2 = ov_change kv.2 /\ ov_key (g kv).2 = ov_key kv.2) ->
  merged_rows def rows (map g o) = merged_rows def rows o.
Proof. intros H. pose proof (fun r => merge_overlay_map g o r H) as E. unfold merged_rows. destruct o; [done|]. cbn [map] in *. destruct (key_rows def rows); [|done]. cbn [outcome_bind]. by rewrite E. Qed.

(** Holding an entry, as an update in place. *)
Definition hold_in_place (id : string) (kv : string * OverlayEntry) : string * OverlayEntry :=
  if String.eqb (fst kv) id then (fst kv, mkOverlay (ov_key (snd kv)) (ov_change (snd kv)) true) else kv.

Lemma holdOptimistic_overlay id rm :
  List.NoDup (map fst (overlay rm)) -> overlay (rm_holdOptimistic id rm) = map (hold_in_place id) (overlay rm).
Proof.
  intros Hn. unfold rm_holdOptimistic. destruct (map_get id (overlay rm)) as [e|] eqn:E.
  - cbn [overlay set_overlay]. by apply (map_set_update id (fun e => mkOverlay (ov_key e) (ov_change e) true)).
  - rewrite <- (map_id (overlay rm)) at 1. apply map_ext_in. intros [k e] Hin. unfold hold_in_place. simpl.
    destruct (String.eqb_spec k id) as [->|]; [|done]. by destruct (map_get_None _ _ E e).
Qed.

Lemma hold_in_place_same id kv : ov_change (hold_in_place id kv).2 = ov_change kv.2 /\ ov_key (hold_in_place id kv).2 = ov_key kv.2.
Proof. unfold hold_in_place. by destruct (String.eqb _ _). Qed.

Lemma hold_in_place_ids id o : map fst (map (hold_in_place id) o) = map fst o.
Proof. rewrite map_map. apply map_ext. intros kv. unfold hold_in_place. by destruct (String.eqb _ _). Qed.

Lemma settleEcho_NoDup key rm : List.NoDup (map fst (overlay rm)) -> List.NoDup (map fst (overlay (settleEcho key rm).1)).
Proof. intros H. unfold settleEcho. destruct (oldest_held key (overlay rm)); [|done]. by apply map_delete_NoDup. Qed.

Lemma settle_all_NoDup keys rm : List.NoDup (map fst (overlay rm)) -> List.NoDup (map fst (overlay (settle_all keys rm).1)).
Proof.
  revert rm. induction keys as [|key keys IH]; intros rm H; [done|]. cbn [settle_all].
  pose proof (settleEcho_NoDup key rm H) as H1. destruct (settleEcho key rm) as [rm1 s]. specialize (IH rm1 H1).
  by destruct (settle_all keys rm1).
Qed.

Lemma read_view st :
  coherent st ->
  match shown st with
  | Ok m => exists st', store_getRows def st = Ok (toSorted (compareRows def) m, st') /\
              rowsByKey st' = rowsByKey st /\ overlay (readModel st') = overlay (readModel st) /\
              dirty (readModel st') = false /\ cache (readModel st') = toSorted (compareRows def) m
  | Throw e => store_getRows def st = Throw e
  end.
Proof.
  intros [H _]. unfold store_getRows, getRows. destruct (dirty (readModel st)) eqn:D.
  - fold (shown st). destruct (shown st) as [m|e]; [|done]. cbn [outcome_bind]. by eexists.
  - destruct (H eq_refl) as (m & -> & E). cbn [outcome_bind]. exists (mkStore (rowsByKey st) (readModel st)). by rewrite E.
Qed.

Lemma step_coherent st op : coherent st -> coherent (store_step st op).
Proof.
  intros [Hc Hn]. destruct op as [op|id change|id|id|]; cbn [store_step].
  - destruct op as [rows cursor|change cursor|]; cbn [wire_apply].
    + unfold applySnapshot. destruct (key_rows def rows) as [pairs|]; cbn [outcome_bind]; [|done].
      pose proof (settle_all_NoDup (map fst pairs) (setCursor cursor (readModel st)) Hn) as H.
      destruct (settle_all _ _) as [rm ids]. by split.
    + unfold store_applyChange. pose proof (settleEcho_NoDup (change_key change) (setCursor cursor (readModel st)) Hn) as H.
      destruct (settleEcho _ _) as [rm s]. by split.
    + by split.
  - split; [done|]. by apply map_set_NoDup.
  - unfold holdOptimistic. split; cbn [readModel].
    + intros D. unfold shown. cbn [rowsByKey readModel]. rewrite holdOptimistic_overlay by done.
      rewrite merged_rows_map by apply hold_in_place_same. unfold rm_holdOptimistic in *. destruct (map_get id _); by apply Hc.
    + rewrite holdOptimistic_overlay by done. by rewrite hold_in_place_ids.
  - split; [done|]. by apply map_delete_NoDup.
  - assert (coherent st) as C by (by split). pose proof (read_view st C) as R. clear Hc. destruct (shown st) as [m|e] eqn:E.
    + destruct R as (st' & -> & Er & Eo & Ed & Ec). split; [|by rewrite Eo]. intros _. exists m. split; [|done].
      unfold shown. by rewrite Er, Eo.
    + by rewrite R.
Qed.

Lemma steps_coherent ops st : coherent st -> coherent (fold_left store_step ops st).
Proof. revert st. induction ops as [|op ops IH]; intros st H; [done|]. by apply IH, step_coherent. Qed.
End Reads.

(** Fact: what is read is always the view, recomputed: after any operations on a store, reads
    included, [getRows] gives the authorized rows under the optimistic ones, sorted; a
    second read gives that very array and changes nothing; and a row without its key is an
    error, never a stale answer. *)
Theorem reads_are_the_view (def : ShapeDefinition) (rows : Rows) (cursor : option string) (ops : list StoreOp) :
  let st := fold_left (store_step def) ops (open_store rows cursor) in
  match shown def st with
  | Ok m => exists st', store_getRows def st = Ok (toSorted (compareRows def) m, st') /\
              store_getRows def st' = Ok (toSorted (compareRows def) m, st') /\ shown def st' = Ok m
  | Throw e => store_getRows def st = Throw e
  end.
Proof.
  intros st. assert (coherent def st) as C by (apply steps_coherent; split; [done|constructor]).
  pose proof (read_view def st C) as R. destruct (shown def st) as [m|e] eqn:E; [|done].
  destruct R as (st' & E1 & Er & Eo & Ed & Ec). exists st'. split; [done|]. split; [|unfold shown in *; by rewrite Er, Eo].
  unfold store_getRows, getRows. rewrite Ed. cbn [outcome_bind]. rewrite Ec. by destruct st' as [? []].
Qed.

(** ** An example: the change's transaction fails, the snapshot stays *)

Definition some_ops : list WireOp :=
  [WireSnapshot [note "1" "a"] (Some "c1"%string); WireChange (SUpdate "1" (note "1" "b")) (Some "c2"%string)].
Definition some_writes : list (DurableWrite * bool) :=
  [(WSnapshot [note "1" "a"] (Some "c1"%string), true); (WRemove "m0", true); (WChange (SUpdate "1" (note "1" "b")) (Some "c2"%string), false)].

Lemma reload_is_a_past_slice_witness :
  let '(t, frozen) := run_chain notes_shape some_writes (mkTier (texts []) None []) false in
  frozen = true /\ exists n, n <= 2 /\
    load_rows (t_rows t) = Some (rowsByKey (after notes_shape (firstn n some_ops) (open_store [] None))) /\
    t_cursor t = getCursor (after notes_shape (firstn n some_ops) (open_store [] None)).
Proof.
  pose proof (reload_is_a_past_slice notes_shape [] None [] some_ops some_writes) as T.
  destruct T as (n & Hn & _ & Er & Ec).
  - constructor.
  - constructor; [by eexists|]. constructor; [done|constructor].
  - constructor; [constructor; [reflexivity|constructor]|]. constructor; [reflexivity|constructor].
  - reflexivity.
  - split; [reflexivity|]. by exists n.
Defined.
