(* ===== verification/LiveOutbox.v ===== *)
(** * Live queries: the client's outbox

    [packages/live/src/outbox.ts] over the stores, and the handlers of [consumer.ts]: the
    queue of offline writes, its drain, the writes held until their echo, and the log that
    brings them back after a reload. Awaiting a verdict is the time between two operations. *)
From S2P Require Import Prelude JsString JsMap JsNumber JsJson LiveShape LiveDiff LiveFrames LiveStore.

#[local] Open Scope string_scope.

Inductive MutationOutcome : Type := OutcomeOk | OutcomeRejected | OutcomeRetry | OutcomeThrown.

(** The outbox and its store: the store, the writes not yet run, the pending writes (front
    oldest), the held ids, whether a drain awaits the verdict on the front, and the armed
    grace timers. *)
Record Client : Type := mkClient {
  c_store : LiveStore;
  c_chain : list DurableWrite;
  c_queue : list OutboxEntry;
  c_heldIds : list string;
  c_draining : bool;
  c_timers : list string
}.

Definition set_store (st : LiveStore) (c : Client) : Client :=
  mkClient st (c_chain c) (c_queue c) (c_heldIds c) (c_draining c) (c_timers c).
Definition set_queue (q : list OutboxEntry) (c : Client) : Client :=
  mkClient (c_store c) (c_chain c) q (c_heldIds c) (c_draining c) (c_timers c).
Definition set_heldIds (h : list string) (c : Client) : Client :=
  mkClient (c_store c) (c_chain c) (c_queue c) h (c_draining c) (c_timers c).
Definition set_draining (b : bool) (c : Client) : Client :=
  mkClient (c_store c) (c_chain c) (c_queue c) (c_heldIds c) b (c_timers c).
Definition set_timers (l : list string) (c : Client) : Client :=
  mkClient (c_store c) (c_chain c) (c_queue c) (c_heldIds c) (c_draining c) l.

Definition remove_id (id : string) (l : list string) : list string := List.filter (fun x => negb (String.eqb x id)) l.
Definition add_id (id : string) (l : list string) : list string := if existsb (String.eqb id) l then l else (l ++ [id])%list.

Section Outbox.
(** The shape, and whether the store has a durable tier. *)
Context (def : ShapeDefinition) (durable : bool).

(** A write on the store's chain; without a durable tier there is none. *)
Definition enqueue (w : DurableWrite) (c : Client) : Client :=
  if durable then mkClient (c_store c) (c_chain c ++ [w])%list (c_queue c) (c_heldIds c) (c_draining c) (c_timers c) else c.

(** [onGrace]. *)
Definition onGrace (id : string) (c : Client) : Client :=
  if negb (existsb (String.eqb id) (c_heldIds c)) then c
  else enqueue (WRemove id) (set_store (clearOptimistic id (c_store c)) (set_heldIds (remove_id id (c_heldIds c)) c)).

Definition hold (id : string) (c : Client) : Client :=
  set_timers (c_timers c ++ [id])%list (set_heldIds (add_id id (c_heldIds c)) c).

(** The listener of [onEchoSettled]. *)
Definition echo_settled (id : string) (c : Client) : Client :=
  enqueue (WRemove id) (set_heldIds (remove_id id (c_heldIds c)) c).

(** [settle], on the front of the queue. *)
Definition settle (entry : OutboxEntry) (ok : bool) (c : Client) : Client :=
  let c := set_queue (tl (c_queue c)) c in
  if ok then hold (o_id entry) (enqueue (WMarkHeld (o_id entry)) (set_store (holdOptimistic (o_id entry) (c_store c)) c))
  else enqueue (WRemove (o_id entry)) (set_store (clearOptimistic (o_id entry) (c_store c)) c).

(** The loop's next pass: the queue is drained, or its front is posted. *)
Definition drain_next (c : Client) : Client * list OutboxEntry :=
  match c_queue c with
  | [] => (set_draining false c, [])
  | entry :: _ => (c, [entry])
  end.

(** The verdict on the posted front has arrived. *)
Definition drain_verdict (o : MutationOutcome) (c : Client) : Client * list OutboxEntry :=
  match c_queue c with
  | [] => (set_draining false c, [])
  | entry :: _ =>
      match o with
      | OutcomeRetry | OutcomeThrown => (set_draining false c, [])
      | OutcomeOk => drain_next (settle entry true c)
      | OutcomeRejected => drain_next (settle entry false c)
      end
  end.

Definition flush (c : Client) : Client * list OutboxEntry :=
  if c_draining c then (c, []) else drain_next (set_draining true c).

(** [submit], under the id it was given or minted. *)
Definition submit (entry : OutboxEntry) (c : Client) : Client * list OutboxEntry :=
  let c := set_queue (c_queue c ++ [entry])%list c in
  let c := enqueue (WAppend entry) c in
  flush (set_store (applyOptimistic (o_id entry) (o_optimistic entry) (c_store c)) c).

Definition pending (c : Client) : nat := length (c_queue c).

(** One entry of the log, at construction. *)
Definition rehydrate_entry (c : Client) (e : LoadedOutboxEntry) : Client :=
  let id := o_id (lo_entry e) in
  let c := set_store (applyOptimistic id (o_optimistic (lo_entry e)) (c_store c)) c in
  if lo_held e then hold id (set_store (holdOptimistic id (c_store c)) c)
  else set_queue (c_queue c ++ [lo_entry e])%list c.

(** [createLiveMutations] over a store and what its outbox loads. *)
Definition createLiveMutations (st : LiveStore) (loaded : list LoadedOutboxEntry) : Client :=
  fold_left rehydrate_entry loaded (mkClient st [] [] [] false []).

(** ** The wire *)

(** The store's mutations, with the outbox listening to the echoes they settle. *)
Definition client_snapshot (rows : list Row) (cursor : option string) (c : Client) : outcome LiveProtocolError Client :=
  let! (st, ids) := applySnapshot def rows cursor (c_store c) in
  Ok (enqueue (WSnapshot rows cursor) (fold_left (fun c id => echo_settled id c) ids (set_store st c))).

Definition client_change (change : ShapeChange) (cursor : option string) (c : Client) : Client :=
  let '(st, settled) := store_applyChange change cursor (c_store c) in
  enqueue (WChange change cursor) (fold_left (fun c id => echo_settled id c) (option_list settled) (set_store st c)).

Definition client_resync (c : Client) : Client := enqueue (WSnapshot [] None) (set_store (applyResync (c_store c)) c).

(** The frame handlers of [connectLiveData]: a frame that does not decode, or does not
    apply, drops the slice. *)
Definition on_snapshot (data : string) (cursor : string) (c : Client) : Client :=
  match let! rows := decodeSnapshotData data in client_snapshot rows (Some cursor) c with
  | Ok c' => c'
  | Throw _ => client_resync c
  end.

Definition on_change (data : string) (cursor : string) (c : Client) : Client :=
  match decodeChangeData data with
  | Ok change => client_change change (Some cursor) c
  | Throw _ => client_resync c
  end.

Definition on_resync (c : Client) : Client := client_resync c.
End Outbox.
