(* ===== verification/LiveOutboxProps.v ===== *)
(** * Live queries: offline writes survive

    What is shown, what is queued or held, and what the log will hold are one list of
    writes in every state the client reaches, but for the writes a transaction of which
    did not commit. *)
From S2P Require Import Prelude JsString JsMap JsNumber JsJson LiveShape LiveDiff LiveFrames LiveStore LiveOutbox.

#[local] Open Scope nat_scope.

(** ** The writes of a client, as the overlay and as the log *)

(** The writes in the order of their submission, each with its flag: held, or pending. *)
Definition Writes : Type := list (OutboxEntry * bool).

Definition logged (x : OutboxEntry * bool) : OutboxRow :=
  mkOutboxRow (o_id x.1) (o_name x.1) (stringify (default JNull (o_input x.1))) (stringify (json_of_change (o_optimistic x.1))) x.2.

Definition overlaid (x : OutboxEntry * bool) : string * OverlayEntry :=
  (o_id x.1, mkOverlay (change_key (o_optimistic x.1)) (o_optimistic x.1) x.2).

Definition log_of (L : Writes) : list OutboxRow := map logged L.
Definition overlay_of (L : Writes) : JsMap OverlayEntry := map overlaid L.
Definition ids_of (L : Writes) : list string := map (fun x => o_id x.1) L.
Definition pending_of (L : Writes) : list OutboxEntry := map fst (List.filter (fun x => negb x.2) L).
Definition held_of (L : Writes) : list string := ids_of (List.filter snd L).

Definition drop_id (id : string) (L : Writes) : Writes := List.filter (fun x => negb (String.eqb (o_id x.1) id)) L.
Definition flag_id (id : string) (L : Writes) : Writes := map (fun x => if String.eqb (o_id x.1) id then (x.1, true) else x) L.

(** A write whose texts survive JSON. *)
Definition fits (e : OutboxEntry) : Prop :=
  clean_change (o_optimistic e) = true /\ wire_safe (default JNull (o_input e)) = true.

Definition writes_ok (L : Writes) : Prop := List.NoDup (ids_of L) /\ List.Forall (fun x => fits x.1) L.

(** A filter on a field that the map keeps. *)
Lemma filter_id {A} (f : OutboxEntry * bool -> A) (g : A -> string) id L :
  (forall x, g (f x) = o_id x.1) ->
  List.filter (fun x => negb (String.eqb (g x) id)) (map f L) = map f (drop_id id L).
Proof.
  intros H. unfold drop_id. induction L as [|x L IH]; [done|]. simpl. rewrite H. destruct (String.eqb (o_id x.1) id); simpl; by rewrite IH.
Qed.

Lemma remove_log id L : remove_outbox id (log_of L) = log_of (drop_id id L).
Proof. by apply (filter_id logged l_id). Qed.

Lemma delete_overlay id L : map_delete id (overlay_of L) = overlay_of (drop_id id L).
Proof. by apply (filter_id overlaid fst). Qed.

Lemma overlay_ids L : map fst (overlay_of L) = ids_of L.
Proof. unfold overlay_of. by rewrite map_map. Qed.

Lemma mark_log id L : mark_held id (log_of L) = log_of (flag_id id L).
Proof.
  unfold mark_held, log_of, flag_id. rewrite !map_map. apply map_ext. intros [e h]. cbn. by destruct (String.eqb (o_id e) id).
Qed.

Lemma hold_overlay id L : map (hold_in_place id) (overlay_of L) = overlay_of (flag_id id L).
Proof.
  unfold overlay_of, flag_id. rewrite !map_map. apply map_ext. intros [e h]. unfold hold_in_place. cbn. by destruct (String.eqb (o_id e) id).
Qed.

Lemma flag_ids id L : ids_of (flag_id id L) = ids_of L.
Proof. unfold ids_of, flag_id. rewrite map_map. apply map_ext. intros [e h]. cbn. by destruct (String.eqb _ _). Qed.

Lemma upsert_log e L : ~ List.In (o_id e) (ids_of L) -> upsert_outbox (outbox_row e) (log_of L) = log_of (L ++ [(e, false)]).
Proof.
  intros H0. unfold upsert_outbox. replace (existsb _ (log_of L)) with false.
  - unfold log_of. by rewrite map_app.
  - symmetry. apply existsb_false. intros x (d & <- & Hd)%in_map_iff. apply String.eqb_neq. intros E. apply H0.
    apply in_map_iff. by exists d.
Qed.

Lemma add_overlay e L :
  ~ List.In (o_id e) (ids_of L) ->
  map_set (o_id e) (mkOverlay (change_key (o_optimistic e)) (o_optimistic e) false) (overlay_of L) = overlay_of (L ++ [(e, false)]).
Proof.
  intros H0. rewrite map_set_absent.
  - unfold overlay_of. by rewrite map_app.
  - rewrite overlay_ids. by rewrite list_elem_of_In.
Qed.

Lemma drop_absent id L : ~ List.In id (ids_of L) -> drop_id id L = L.
Proof.
  unfold drop_id, ids_of. induction L as [|x L IH]; [done|]. simpl. intros H. destruct (String.eqb_spec (o_id x.1) id); [tauto|].
  simpl. rewrite IH; tauto.
Qed.

Lemma flag_absent id L : ~ List.In id (ids_of L) -> flag_id id L = L.
Proof.
  intros H. unfold flag_id. rewrite <- (map_id L) at 2. apply map_ext_in. intros x Hx. destruct (String.eqb_spec (o_id x.1) id) as [E|]; [|done].
  destruct H. rewrite <- E. by apply (in_map (fun x => o_id x.1)).
Qed.

Lemma drop_ok id L : writes_ok L -> writes_ok (drop_id id L).
Proof.
  intros [Hn Hf]. split; [by apply NoDup_map_filter|]. rewrite List.Forall_forall in *. intros x [Hx _]%filter_In. auto.
Qed.

Lemma flag_ok id L : writes_ok L -> writes_ok (flag_id id L).
Proof.
  intros [Hn Hf]. split; [by rewrite flag_ids|]. rewrite List.Forall_forall in *. intros x (y & <- & Hy)%in_map_iff. specialize (Hf y Hy).
  by destruct (String.eqb _ _).
Qed.

Lemma snoc_ok e h L : writes_ok L -> ~ List.In (o_id e) (ids_of L) -> fits e -> writes_ok (L ++ [(e, h)]).
Proof.
  intros [Hn Hf] H0 He. split.
  - unfold ids_of in *. rewrite map_app. apply List.NoDup_app; [done|apply List.NoDup_cons; [by intros []|apply List.NoDup_nil]|]. by intros x Hx [<-|[]].
  - apply List.Forall_app. split; [done|by apply List.Forall_cons; [|apply List.Forall_nil]].
Qed.

(** The pending front, and where it is. *)
Lemma pending_front L p q :
  writes_ok L -> pending_of L = p :: q ->
  exists L1 L2, L = L1 ++ (p, false) :: L2 /\ pending_of L1 = [] /\ q = pending_of L2 /\
    ~ List.In (o_id p) (ids_of L1) /\ ~ List.In (o_id p) (ids_of L2).
Proof.
  intros [Hn _]. induction L as [|[e h] L IH]; [done|]. unfold pending_of, ids_of in *. cbn [List.filter negb snd map fst] in *.
  inversion Hn as [|? ? He Hn']; subst. destruct h; cbn [negb] in *.
  - intros E. destruct (IH Hn' E) as (L1 & L2 & -> & E1 & E2 & N1 & N2). exists ((e, true) :: L1), L2. cbn. split_and!; [done..| |done].
    intros [Ee|H]; [|done]. apply He. rewrite Ee, map_app, in_app_iff. cbn. auto.
  - cbn [map fst]. intros [= <- <-]. exists [], L. by split_and!; [..|intros []|].
Qed.

Lemma pending_app L1 L2 : pending_of (L1 ++ L2) = pending_of L1 ++ pending_of L2.
Proof. unfold pending_of. by rewrite List.filter_app, map_app. Qed.

Lemma flag_front L p q :
  writes_ok L -> pending_of L = p :: q ->
  pending_of (flag_id (o_id p) L) = q /\ forall id, List.In id (held_of (flag_id (o_id p) L)) <-> id = o_id p \/ List.In id (held_of L).
Proof.
  intros Hok E. destruct (pending_front L p q Hok E) as (L1 & L2 & -> & E1 & -> & N1 & N2).
  assert (flag_id (o_id p) (L1 ++ (p, false) :: L2) = L1 ++ (p, true) :: L2) as ->.
  { pose proof (flag_absent (o_id p) L1 N1) as F1. pose proof (flag_absent (o_id p) L2 N2) as F2. unfold flag_id in *. rewrite map_app. cbn.
    by rewrite String.eqb_refl, F1, F2. }
  split; [rewrite pending_app, E1; done|]. intros id. unfold held_of, ids_of. rewrite !List.filter_app, !map_app, !in_app_iff. cbn. naive_solver.
Qed.

Lemma drop_front L p q :
  writes_ok L -> pending_of L = p :: q ->
  pending_of (drop_id (o_id p) L) = q /\ forall id, List.In id (held_of (drop_id (o_id p) L)) <-> List.In id (held_of L).
Proof.
  intros Hok E. destruct (pending_front L p q Hok E) as (L1 & L2 & -> & E1 & -> & N1 & N2).
  assert (drop_id (o_id p) (L1 ++ (p, false) :: L2) = L1 ++ L2) as ->.
  { pose proof (drop_absent (o_id p) L1 N1) as F1. pose proof (drop_absent (o_id p) L2 N2) as F2. unfold drop_id in *. rewrite List.filter_app. cbn.
    by rewrite String.eqb_refl, F1, F2. }
  split; [by rewrite pending_app, E1|]. intros id. unfold held_of, ids_of. rewrite !List.filter_app, !map_app, !in_app_iff. cbn. naive_solver.
Qed.

Lemma held_of_In L id : List.In id (held_of L) <-> exists e, List.In (e, true) L /\ o_id e = id.
Proof.
  unfold held_of, ids_of. rewrite in_map_iff. split.
  - intros ([e h] & <- & [H E]%filter_In). cbn in E. subst h. by exists e.
  - intros (e & H & <-). exists (e, true). split; [done|]. by apply filter_In.
Qed.

Lemma filter_swap {A} (f g : A -> bool) l : List.filter f (List.filter g l) = List.filter g (List.filter f l).
Proof. induction l as [|a l IH]; [done|]. cbn. destruct (f a) eqn:F, (g a) eqn:G; cbn; rewrite ?F, ?G, ?IH; done. Qed.

Lemma filter_kept {A} (f : A -> bool) l : (forall x, List.In x l -> f x = true) -> List.filter f l = l.
Proof. induction l as [|a l IH]; intros H; [done|]. cbn. rewrite (H a) by (by left). by rewrite IH by (intros; apply H; by right). Qed.

(** Removing a held write leaves the pending ones. *)
Lemma drop_held L id :
  writes_ok L -> List.In id (held_of L) ->
  pending_of (drop_id id L) = pending_of L /\ forall x, List.In x (held_of (drop_id id L)) <-> List.In x (held_of L) /\ x <> id.
Proof.
  intros [Hn _] (e & He & <-)%held_of_In. split.
  - unfold pending_of, drop_id. f_equal. rewrite filter_swap. apply filter_kept.
    intros [d h] [Hd Hh]%filter_In. apply negb_true_iff, String.eqb_neq. intros E.
    assert ((d, h) = (e, true)) as [= -> ->]; [|done]. by apply (NoDup_map_inj_in (fun x => o_id x.1) L).
  - intros x. rewrite !held_of_In. unfold drop_id. split.
    + intros (d & [Hd E]%filter_In & <-). apply negb_true_iff, String.eqb_neq in E. split; [by exists d|done].
    + intros [(d & Hd & <-) E]. exists d. split; [|done]. apply filter_In. split; [done|]. by apply negb_true_iff, String.eqb_neq.
Qed.

(** The echo settles the oldest held write under its key. *)
Lemma oldest_held_of key L :
  oldest_held key (overlay_of L) =
  option_map (fun x => o_id x.1) (List.find (fun x => String.eqb (change_key (o_optimistic x.1)) key && x.2) L).
Proof. unfold oldest_held, overlay_of. induction L as [|x L IH]; [done|]. simpl. by destruct (String.eqb _ key && _). Qed.

(** ** The log to come *)

(** The effect of a write on the log. *)
Definition log_write (log : list OutboxRow) (w : DurableWrite) : list OutboxRow :=
  match w with
  | WAppend e => upsert_outbox (outbox_row e) log
  | WMarkHeld id => mark_held id log
  | WRemove id => remove_outbox id log
  | _ => log
  end.

(** The log once the chain has run. *)
Definition log_after (chain : list DurableWrite) (log : list OutboxRow) : list OutboxRow := fold_left log_write chain log.

Lemma commit_log def w t : t_outbox (commit_write def w t) = log_write (t_outbox t) w.
Proof. by destruct w as [| [] | | |]. Qed.

Lemma log_after_snoc chain w log : log_after (chain ++ [w]) log = log_write (log_after chain log) w.
Proof. unfold log_after. by rewrite fold_left_app. Qed.

(** A log that loads: distinct ids, texts of writes that fit. *)
Definition good_log (log : list OutboxRow) : Prop := exists L, log = log_of L /\ writes_ok L.

Definition write_fits (w : DurableWrite) : Prop := match w with WAppend e => fits e | _ => True end.

Lemma good_log_write log w : good_log log -> write_fits w -> good_log (log_write log w).
Proof.
  intros (L & -> & Hok) Hw. destruct w as [| |e|id|id]; [by exists L..| | |].
  - unfold log_write, upsert_outbox. destruct (existsb _ _) eqn:E.
    + exists (map (fun x => if String.eqb (o_id x.1) (o_id e) then (e, false) else x) L). split.
      * unfold log_of. rewrite !map_map. apply map_ext. intros [d h]. cbn. by destruct (String.eqb _ _).
      * destruct Hok as [Hn Hf]. split.
        -- unfold ids_of in *. rewrite map_map. erewrite map_ext; [exact Hn|]. intros [d h]. cbn. by destruct (String.eqb_spec (o_id d) (o_id e)).
        -- rewrite List.Forall_forall in *. intros x (y & <- & Hy)%in_map_iff. specialize (Hf y Hy). by destruct (String.eqb _ _).
    + exists (L ++ [(e, false)]). split; [unfold log_of; by rewrite map_app|]. apply snoc_ok; [done| |done].
      rewrite existsb_false in E. intros (x & Ex & Hx)%in_map_iff. specialize (E (logged x) (in_map logged _ _ Hx)). cbn in E.
      rewrite Ex, String.eqb_refl in E. done.
  - exists (flag_id id L). split; [by rewrite <- mark_log|by apply flag_ok].
  - exists (drop_id id L). split; [by rewrite <- remove_log|by apply drop_ok].
Qed.

(** ** Writes a transaction of which did not commit *)

Definition spared (lost : list string) (id : string) : bool := negb (existsb (String.eqb id) lost).

(** The rows of the writes that are not lost. *)
Definition kept (lost : list string) (log : list OutboxRow) : list OutboxRow := List.filter (fun r => spared lost (l_id r)) log.

(** The write a log write is of. *)
Definition write_id (w : DurableWrite) : option string :=
  match w with WAppend e => Some (o_id e) | WMarkHeld id | WRemove id => Some id | _ => None end.

Lemma spared_spec lost id : spared lost id = true <-> ~ List.In id lost.
Proof.
  unfold spared. rewrite negb_true_iff, existsb_false. split.
  - intros H Hin. specialize (H id Hin). by rewrite String.eqb_refl in H.
  - intros H x Hx. apply String.eqb_neq. by intros ->.
Qed.

Lemma kept_map lost (f : OutboxRow -> OutboxRow) log : (forall r, l_id (f r) = l_id r) -> kept lost (map f log) = map f (kept lost log).
Proof.
  intros H. unfold kept. induction log as [|r log IH]; [done|]. cbn. rewrite H. destruct (spared lost (l_id r)); cbn; by rewrite IH.
Qed.

Lemma existsb_kept lost id log :
  spared lost id = true -> existsb (fun x => String.eqb (l_id x) id) (kept lost log) = existsb (fun x => String.eqb (l_id x) id) log.
Proof.
  intros Hs. unfold kept. induction log as [|r log IH]; [done|]. cbn. destruct (String.eqb_spec (l_id r) id) as [E|N].
  - rewrite E, Hs. cbn. by rewrite E, String.eqb_refl.
  - destruct (spared lost (l_id r)); cbn; [|done]. by rewrite (proj2 (String.eqb_neq _ _) N).
Qed.

Lemma map_absent id r log :
  existsb (fun x => String.eqb (l_id x) id) log = false ->
  map (fun x => if String.eqb (l_id x) id then r else x) log = log.
Proof.
  intros H. rewrite existsb_false in H. rewrite <- (map_id log) at 2. apply map_ext_in. intros x Hx. by rewrite (H x Hx).
Qed.

Lemma kept_upsert lost r log :
  kept lost (upsert_outbox r log) = if spared lost (l_id r) then upsert_outbox r (kept lost log) else kept lost log.
Proof.
  unfold upsert_outbox. destruct (spared lost (l_id r)) eqn:Hs.
  - rewrite existsb_kept by done. destruct (existsb _ log).
    + unfold kept. induction log as [|x log IH]; [done|]. cbn. destruct (String.eqb_spec (l_id x) (l_id r)) as [E|N]; cbn.
      * rewrite Hs, E, Hs. cbn. by rewrite E, String.eqb_refl, IH.
      * destruct (spared lost (l_id x)); cbn; [|done]. by rewrite (proj2 (String.eqb_neq _ _) N), IH.
    + unfold kept. rewrite List.filter_app. cbn. by rewrite Hs.
  - destruct (existsb _ log).
    + unfold kept. induction log as [|x log IH]; [done|]. cbn. destruct (String.eqb_spec (l_id x) (l_id r)) as [E|N]; cbn.
      * by rewrite E, Hs.
      * destruct (spared lost (l_id x)); cbn; by rewrite IH.
    + unfold kept. rewrite List.filter_app. cbn. by rewrite Hs, app_nil_r.
Qed.

Lemma kept_remove lost id log : kept lost (remove_outbox id log) = remove_outbox id (kept lost log).
Proof. unfold kept, remove_outbox. apply filter_swap. Qed.

(** Two logs that agree but for the lost writes still do after any write. *)
Lemma kept_log_write lost w log log' : kept lost log = kept lost log' -> kept lost (log_write log w) = kept lost (log_write log' w).
Proof.
  intros H. destruct w as [| |e|id|id]; cbn [log_write]; [done..| | |].
  - by rewrite !kept_upsert, H.
  - unfold mark_held. rewrite !kept_map by (intros r; by destruct (String.eqb _ _)). by rewrite H.
  - by rewrite !kept_remove, H.
Qed.

Lemma kept_log_after lost chain log log' : kept lost log = kept lost log' -> kept lost (log_after chain log) = kept lost (log_after chain log').
Proof. revert log log'. induction chain as [|w chain IH]; intros log log' H; [done|]. cbn. apply IH. by apply kept_log_write. Qed.

(** A write to a lost row is not seen. *)
Lemma kept_log_skip lost w log : (forall id, write_id w = Some id -> List.In id lost) -> kept lost (log_write log w) = kept lost log.
Proof.
  intros H. assert (forall id, write_id w = Some id -> spared lost id = false) as Hs.
  { intros id E. destruct (spared lost id) eqn:S; [|done]. apply spared_spec in S. destruct S. auto. }
  destruct w as [| |e|id|id]; cbn [log_write write_id] in *; [done..| | |].
  - rewrite kept_upsert. cbn. by rewrite Hs.
  - unfold mark_held. rewrite kept_map by (intros r; by destruct (String.eqb _ _)). rewrite <- (map_id (kept lost log)) at 2.
    apply map_ext_in. intros r [_ Hr]%filter_In. destruct (String.eqb_spec (l_id r) id) as [E|]; [|done]. by rewrite E, Hs in Hr.
  - rewrite kept_remove. apply filter_kept. intros r [_ Hr]%filter_In. destruct (String.eqb_spec (l_id r) id) as [E|]; [|done]. by rewrite E, Hs in Hr.
Qed.

Lemma spared_cons id lost x : spared (id :: lost) x = negb (String.eqb x id) && spared lost x.
Proof. unfold spared. cbn. apply negb_orb. Qed.

Lemma kept_cons id lost l : kept (id :: lost) l = remove_outbox id (kept lost l).
Proof.
  unfold kept, remove_outbox. induction l as [|r l IH]; [done|]. cbn. rewrite spared_cons.
  destruct (spared lost (l_id r)), (String.eqb (l_id r) id) eqn:E; cbn; rewrite ?E; cbn; by rewrite IH.
Qed.

Lemma kept_more lost id log log' : kept lost log = kept lost log' -> kept (id :: lost) log = kept (id :: lost) log'.
Proof. intros H. by rewrite !kept_cons, H. Qed.

(** ** The invariant *)

(** The client is one list of writes, and the log to come is that list, but for the lost. *)
Record tied (lost : list string) (log : list OutboxRow) (c : Client) (L : Writes) : Prop := {
  tied_overlay : overlay (readModel (c_store c)) = overlay_of L;
  tied_queue : c_queue c = pending_of L;
  tied_held : forall id, List.In id (c_heldIds c) <-> List.In id (held_of L);
  tied_ok : writes_ok L;
  tied_log : kept lost (log_after (c_chain c) log) = kept lost (log_of L);
  tied_good : good_log log;
  tied_chain : List.Forall write_fits (c_chain c)
}.

Section Steps.
Context (def : ShapeDefinition).
Context (lost : list string) (log : list OutboxRow).
Abbreviation enqueue := (enqueue true).
Abbreviation tied := (tied lost log).

(** A write joins the chain. *)
Lemma tied_enqueue c L w L' :
  tied c L -> write_fits w -> kept lost (log_write (log_of L) w) = kept lost (log_of L') ->
  kept lost (log_after (c_chain (enqueue w c)) log) = kept lost (log_of L') /\ List.Forall write_fits (c_chain (enqueue w c)).
Proof.
  intros T Hw Hl. cbn [c_chain LiveOutbox.enqueue]. split.
  - rewrite log_after_snoc, <- Hl. apply kept_log_write, T.
  - apply List.Forall_app. split; [apply T|]. by repeat constructor.
Qed.

Lemma remove_id_In id x l : List.In x (remove_id id l) <-> List.In x l /\ x <> id.
Proof. unfold remove_id. rewrite filter_In, negb_true_iff, String.eqb_neq. done. Qed.

Lemma add_id_In id x l : List.In x (add_id id l) <-> x = id \/ List.In x l.
Proof.
  unfold add_id. destruct (existsb (String.eqb id) l) eqn:E.
  - apply existsb_exists in E as (y & Hy & ->%String.eqb_eq). naive_solver.
  - rewrite in_app_iff. simpl. naive_solver.
Qed.

Lemma draining_tied b c L : tied c L -> tied (set_draining b c) L.
Proof. intros []. by split. Qed.

Lemma drain_next_tied c L : tied c L -> tied (drain_next c).1 L.
Proof. intros T. unfold drain_next. destruct (c_queue c); [by apply draining_tied|done]. Qed.

Lemma flush_tied c L : tied c L -> tied (flush c).1 L.
Proof. intros T. unfold flush. destruct (c_draining c); [done|]. by apply drain_next_tied, draining_tied. Qed.

(** A submitted write joins the pending ones. *)
Lemma submit_tied c L e :
  tied c L -> fits e -> ~ List.In (o_id e) (ids_of L) -> tied (submit true e c).1 (L ++ [(e, false)]).
Proof.
  intros T He Hid. pose proof (snoc_ok e false L (tied_ok _ _ _ _ T) Hid He) as Hok.
  destruct (tied_enqueue c L (WAppend e) (L ++ [(e, false)]) T He) as [Hl Hc]; [cbn [log_write]; by rewrite upsert_log|].
  unfold submit. apply flush_tied. split; try done.
  - change (map_set (o_id e) (mkOverlay (change_key (o_optimistic e)) (o_optimistic e) false) (overlay (readModel (c_store c))) = overlay_of (L ++ [(e, false)])).
    rewrite (tied_overlay _ _ _ _ T). by apply add_overlay.
  - cbn [c_queue set_store set_queue LiveOutbox.enqueue]. by rewrite (tied_queue _ _ _ _ T), pending_app.
  - intros id. change (List.In id (c_heldIds c) <-> List.In id (held_of (L ++ [(e, false)]))). rewrite (tied_held _ _ _ _ T).
    unfold held_of. rewrite List.filter_app. cbn. by rewrite app_nil_r.
  - apply T.
Qed.

(** Removing a write everywhere. *)
Lemma removed_tied c L id st queue heldIds draining timers :
  tied c L -> overlay (readModel st) = map_delete id (overlay (readModel (c_store c))) ->
  queue = pending_of (drop_id id L) -> (forall x, List.In x heldIds <-> List.In x (held_of (drop_id id L))) ->
  tied (enqueue (WRemove id) (mkClient st (c_chain c) queue heldIds draining timers)) (drop_id id L).
Proof.
  intros T Ho Hq Hh. pose proof (drop_ok id _ (tied_ok _ _ _ _ T)) as Hok.
  destruct (tied_enqueue c L (WRemove id) (drop_id id L) T I) as [Hl Hc]; [cbn [log_write]; by rewrite remove_log|].
  split; try done.
  - cbn [c_store LiveOutbox.enqueue]. by rewrite Ho, (tied_overlay _ _ _ _ T), delete_overlay.
  - apply T.
Qed.

(** An acknowledged front is held. *)
Lemma ack_tied c L p q : tied c L -> pending_of L = p :: q -> tied (settle true p true c) (flag_id (o_id p) L).
Proof.
  intros T E. destruct (flag_front L p q (tied_ok _ _ _ _ T) E) as [Fq Fh]. pose proof (flag_ok (o_id p) _ (tied_ok _ _ _ _ T)) as Hok.
  destruct (tied_enqueue c L (WMarkHeld (o_id p)) (flag_id (o_id p) L) T I) as [Hl Hc]; [cbn [log_write]; by rewrite mark_log|].
  split; try done.
  - change (overlay (rm_holdOptimistic (o_id p) (readModel (c_store c))) = overlay_of (flag_id (o_id p) L)).
    rewrite holdOptimistic_overlay; rewrite (tied_overlay _ _ _ _ T); [by apply hold_overlay|]. rewrite overlay_ids. apply T.
  - change (tl (c_queue c) = pending_of (flag_id (o_id p) L)). by rewrite (tied_queue _ _ _ _ T), E, Fq.
  - intros x. change (List.In x (add_id (o_id p) (c_heldIds c)) <-> List.In x (held_of (flag_id (o_id p) L))).
    by rewrite add_id_In, (tied_held _ _ _ _ T), Fh.
  - apply T.
Qed.

(** A rejected front is gone. *)
Lemma reject_tied c L p q : tied c L -> pending_of L = p :: q -> tied (settle true p false c) (drop_id (o_id p) L).
Proof.
  intros T E. destruct (drop_front L p q (tied_ok _ _ _ _ T) E) as [Fq Fh].
  apply (removed_tied c L (o_id p) (clearOptimistic (o_id p) (c_store c)) (tl (c_queue c)) (c_heldIds c) (c_draining c) (c_timers c) T); [done|by rewrite (tied_queue _ _ _ _ T), E, Fq|].
  intros x. by rewrite Fh, (tied_held _ _ _ _ T).
Qed.

Lemma verdict_tied c L o : tied c L -> exists L', tied (drain_verdict true o c).1 L'.
Proof.
  intros T. unfold drain_verdict. pose proof (tied_queue _ _ _ _ T) as Eq. destruct (c_queue c) as [|p q].
  - exists L. by apply draining_tied.
  - symmetry in Eq. destruct o; [eexists; by eapply drain_next_tied, ack_tied|eexists; by eapply drain_next_tied, reject_tied|..];
      exists L; by apply draining_tied.
Qed.

(** A held write is dropped: its grace is over, or its echo has come. *)
Lemma held_gone_tied c L id st timers :
  tied c L -> List.In id (held_of L) -> overlay (readModel st) = map_delete id (overlay (readModel (c_store c))) ->
  tied (enqueue (WRemove id) (mkClient st (c_chain c) (c_queue c) (remove_id id (c_heldIds c)) (c_draining c) timers)) (drop_id id L).
Proof.
  intros T Hid Ho. destruct (drop_held L id (tied_ok _ _ _ _ T) Hid) as [Fq Fh].
  apply removed_tied; [done|done|by rewrite (tied_queue _ _ _ _ T), Fq|]. intros x. by rewrite remove_id_In, Fh, (tied_held _ _ _ _ T).
Qed.

Lemma grace_tied c L id : tied c L -> exists L', tied (onGrace true id c) L'.
Proof.
  intros T. unfold onGrace. destruct (existsb (String.eqb id) (c_heldIds c)) eqn:E; [|by exists L]. cbn [negb].
  apply existsb_exists in E as (x & Hx & ->%String.eqb_eq). exists (drop_id x L).
  apply (held_gone_tied c L x (clearOptimistic x (c_store c)) (c_timers c) T); [by apply (tied_held _ _ _ _ T)|done].
Qed.

Lemma timers_tied c L l : tied c L -> tied (set_timers l c) L.
Proof. intros []. by split. Qed.

(** ** The wire *)

Lemma store_tied c L st : tied c L -> overlay (readModel st) = overlay (readModel (c_store c)) -> tied (set_store st c) L.
Proof. intros [] E. split; try done. cbn [c_store set_store]. congruence. Qed.

Abbreviation echoes := (fold_left (fun c id => echo_settled true id c)).

(** One echo, and its listener. *)
Lemma echo_tied c L key :
  tied c L ->
  let '(rm, settled) := settleEcho key (readModel (c_store c)) in
  exists L', forall rows, tied (echoes (option_list settled) (set_store (mkStore rows rm) c)) L'.
Proof.
  intros T. unfold settleEcho. rewrite (tied_overlay _ _ _ _ T), oldest_held_of.
  destruct (List.find _ L) as [[e h]|] eqn:F; cbn [option_map option_list fold_left fst].
  - apply List.find_some in F as [Hin [_ E]%andb_true_iff]. cbn in E. subst h.
    exists (drop_id (o_id e) L). intros rows.
    apply (held_gone_tied c L (o_id e) (mkStore rows (set_overlay (map_delete (o_id e) (overlay_of L)) (readModel (c_store c)))) (c_timers c) T).
    + apply held_of_In. by exists e.
    + cbn [readModel overlay set_overlay]. by rewrite (tied_overlay _ _ _ _ T).
  - exists L. intros rows. by apply store_tied.
Qed.

Lemma echoes_store ids st c : echoes ids (set_store st c) = set_store st (echoes ids c).
Proof. revert c. induction ids as [|id ids IH]; intros c; [done|]. simpl. apply (IH (echo_settled true id c)). Qed.

Lemma echoes_store2 ids st st' c : echoes ids (set_store st (set_store st' c)) = set_store st (echoes ids c).
Proof. by rewrite !echoes_store. Qed.

(** The echoes of a snapshot. *)
Lemma echoes_tied keys c L :
  tied c L ->
  let '(rm, ids) := settle_all keys (readModel (c_store c)) in
  exists L', forall rows, tied (echoes ids (set_store (mkStore rows rm) c)) L'.
Proof.
  revert c L. induction keys as [|key keys IH]; intros c L T; cbn [settle_all].
  - exists L. intros rows. by apply store_tied.
  - pose proof (echo_tied c L key T) as E. destruct (settleEcho key (readModel (c_store c))) as [rm1 s].
    destruct E as [L1 E]. specialize (IH _ _ (E [])). rewrite echoes_store in IH. cbn [c_store set_store readModel] in IH.
    destruct (settle_all keys rm1) as [rm2 ids]. destruct IH as [L2 G]. exists L2. intros rows. specialize (G rows).
    rewrite fold_left_app, !echoes_store in *. exact G.
Qed.

Lemma wire_tied c L w : tied c L -> gated w = true -> tied (enqueue w c) L.
Proof.
  intros T G. destruct (tied_enqueue c L w L T) as [Hl Hc]; [by destruct w|by destruct w|]. destruct T. by split.
Qed.

Lemma resync_tied c L : tied c L -> tied (client_resync true c) L.
Proof. intros T. apply wire_tied; [|done]. by apply store_tied. Qed.

Lemma change_tied c L change cursor : tied c L -> exists L', tied (client_change true change cursor c) L'.
Proof.
  intros T. unfold client_change, store_applyChange.
  assert (tied (set_store (mkStore (rowsByKey (c_store c)) (setCursor cursor (readModel (c_store c)))) c) L) as T1 by (by apply store_tied).
  pose proof (echo_tied _ L (change_key change) T1) as E. cbn [c_store set_store readModel] in E.
  destruct (settleEcho _ _) as [rm settled]. destruct E as [L' E]. exists L'. apply wire_tied; [|done].
  specialize (E (applyChange (rowsByKey (c_store c)) change)). rewrite echoes_store2 in E. rewrite echoes_store. exact (store_tied _ _ (mkStore _ (mutated rm)) E eq_refl).
Qed.

Lemma snapshot_tied c L rows cursor c' :
  tied c L -> client_snapshot def true rows cursor c = Ok c' -> exists L', tied c' L'.
Proof.
  intros T. unfold client_snapshot, applySnapshot. destruct (key_rows def rows) as [pairs|]; [|done]. cbn [outcome_bind].
  assert (tied (set_store (mkStore (rowsByKey (c_store c)) (setCursor cursor (readModel (c_store c)))) c) L) as T1 by (by apply store_tied).
  pose proof (echoes_tied (map fst pairs) _ L T1) as E. cbn [c_store set_store readModel] in E.
  destruct (settle_all _ _) as [rm ids]. destruct E as [L' E]. cbn [outcome_bind]. intros [= <-]. exists L'. apply wire_tied; [|done].
  specialize (E (fold_left (fun m kr => map_set kr.1 kr.2 m) pairs [])). rewrite echoes_store2 in E. rewrite echoes_store. exact (store_tied _ _ (mkStore _ (mutated rm)) E eq_refl).
Qed.

Lemma on_snapshot_tied c L data cursor : tied c L -> exists L', tied (on_snapshot def true data cursor c) L'.
Proof.
  intros T. unfold on_snapshot. destruct (decodeSnapshotData data) as [rows|]; cbn [outcome_bind]; [|exists L; by apply resync_tied].
  destruct (client_snapshot def true rows (Some cursor) c) as [c'|] eqn:E; [exact (snapshot_tied _ _ _ _ _ T E)|exists L; by apply resync_tied].
Qed.

Lemma on_change_tied c L data cursor : tied c L -> exists L', tied (on_change true data cursor c) L'.
Proof.
  intros T. unfold on_change. destruct (decodeChangeData data); [exact (change_tied c L _ _ T)|exists L; by apply resync_tied].
Qed.
End Steps.
