(* ===== verification/LiveOffline.v ===== *)
(** * Live queries: offline writes survive

    The client as a transition system with its durable tier, whose transactions may fail,
    and a reload possible at any moment: what the log holds brings the same writes back, but
    for those a transaction of whose own failed. The drain delivers the queue in order, and
    neither an ack nor its echo moves what is shown. *)
From S2P Require Import Prelude JsString JsMap JsNumber JsJson LiveShape LiveDiff LiveFrames LiveStore LiveOutbox LiveOutboxProps.

#[local] Open Scope nat_scope.

(** ** Loading the log *)

(** A write as its texts bring it back: an absent input is [null]. *)
Definition restored (e : OutboxEntry) : OutboxEntry := mkEntry (o_id e) (o_name e) (Some (default JNull (o_input e))) (o_optimistic e).
Definition restored_writes (L : Writes) : Writes := map (fun x => (restored x.1, x.2)) L.

Definition loaded_writes (loaded : list LoadedOutboxEntry) : Writes := map (fun l => (lo_entry l, lo_held l)) loaded.
Definition loaded_of (L : Writes) : list LoadedOutboxEntry := map (fun x => mkLoaded (restored x.1) x.2) L.

Lemma load_logged x : fits x.1 -> load_entry (logged x) = Some (mkLoaded (restored x.1) x.2).
Proof.
  intros [Hc Hi]. unfold load_entry, change_of_text. cbn [logged l_id l_name l_input l_optimistic l_held].
  by rewrite (parse_stringify _ Hi), (decode_change _ Hc).
Qed.

Lemma load_log L : List.Forall (fun x => fits x.1) L -> mapM load_entry (log_of L) = Some (loaded_of L).
Proof.
  intros Hf. apply mapM_Some. unfold log_of, loaded_of. induction Hf; cbn [map]; constructor; try done. by apply load_logged.
Qed.

Lemma loaded_restored L : loaded_writes (loaded_of L) = restored_writes L.
Proof. unfold loaded_writes, loaded_of. by rewrite map_map. Qed.

(** A client as far as the log has been loaded. *)
Record built (c : Client) (L : Writes) : Prop := {
  built_overlay : overlay (readModel (c_store c)) = overlay_of L;
  built_chain : c_chain c = [];
  built_queue : c_queue c = pending_of L;
  built_held : forall id, List.In id (c_heldIds c) <-> List.In id (held_of L);
  built_timers : c_timers c = held_of L
}.

Lemma rehydrate_one c L e h :
  built c L -> ~ List.In (o_id e) (ids_of L) -> List.NoDup (ids_of L) -> built (rehydrate_entry c (mkLoaded e h)) (L ++ [(e, h)]).
Proof.
  intros B Hid Hn. set (st := applyOptimistic (o_id e) (o_optimistic e) (c_store c)).
  assert (overlay (readModel st) = overlay_of (L ++ [(e, false)])) as O.
  { unfold st, applyOptimistic. cbn [readModel mutated overlay setOptimistic set_overlay]. rewrite (built_overlay _ _ B). by apply add_overlay. }
  assert (forall b, held_of (L ++ [(e, b)]) = held_of L ++ (if b then [o_id e] else [])) as Hh.
  { intros b. unfold held_of, ids_of. rewrite List.filter_app, map_app. by destruct b. }
  destruct h.
  - split.
    + change (overlay (rm_holdOptimistic (o_id e) (readModel st)) = overlay_of (L ++ [(e, true)])).
      rewrite holdOptimistic_overlay, O, hold_overlay.
      * f_equal. unfold flag_id. rewrite map_app. cbn. rewrite String.eqb_refl. f_equal. by apply flag_absent.
      * rewrite O, overlay_ids. unfold ids_of in *. rewrite map_app. apply List.NoDup_app; [done|by repeat constructor; intros []|]. by intros x Hx [<-|[]].
    + apply B.
    + cbn. by rewrite pending_app, (built_queue _ _ B), app_nil_r.
    + intros id. change (List.In id (add_id (o_id e) (c_heldIds c)) <-> List.In id (held_of (L ++ [(e, true)]))).
      rewrite add_id_In, (built_held _ _ B), Hh, in_app_iff. simpl. naive_solver.
    + change (c_timers c ++ [o_id e] = held_of (L ++ [(e, true)])). by rewrite Hh, (built_timers _ _ B).
  - split; [exact O|apply B| | |].
    + change (c_queue c ++ [e] = pending_of (L ++ [(e, false)])). by rewrite pending_app, (built_queue _ _ B).
    + intros id. rewrite Hh, app_nil_r. apply B.
    + rewrite Hh, app_nil_r. apply B.
Qed.

(** A client rebuilt from loaded writes. *)
Lemma rebuilt rows cursor loaded :
  List.NoDup (ids_of (loaded_writes loaded)) -> built (createLiveMutations (open_store rows cursor) loaded) (loaded_writes loaded).
Proof.
  unfold createLiveMutations. induction loaded as [|[e h] l IH] using rev_ind; intros Hn; [by split|].
  rewrite fold_left_app. unfold loaded_writes, ids_of in *. rewrite !map_app in *. cbn [map fold_left lo_entry lo_held] in *.
  apply rehydrate_one; [apply IH; by apply List.NoDup_app_remove_r in Hn|..].
  - apply List.NoDup_remove_2 in Hn. by rewrite app_nil_r in Hn.
  - by apply List.NoDup_app_remove_r in Hn.
Qed.

Lemma restored_ids L : ids_of (restored_writes L) = ids_of L.
Proof. unfold ids_of, restored_writes. by rewrite map_map. Qed.

Lemma restored_ok L : writes_ok L -> writes_ok (restored_writes L).
Proof.
  intros [Hn Hf]. split; [by rewrite restored_ids|]. apply List.Forall_map. eapply List.Forall_impl; [|exact Hf]. by intros x [Hc Hi].
Qed.

Lemma restored_log L : log_of (restored_writes L) = log_of L.
Proof. unfold log_of, restored_writes. by rewrite map_map. Qed.

Lemma restored_overlay L : overlay_of (restored_writes L) = overlay_of L.
Proof. unfold overlay_of, restored_writes. by rewrite map_map. Qed.

Lemma restored_pending L : pending_of (restored_writes L) = map restored (pending_of L).
Proof.
  unfold pending_of, restored_writes. rewrite map_map. induction L as [|[e h] L IH]; [done|]. cbn. destruct h; cbn; by rewrite IH.
Qed.

Lemma restored_held L : held_of (restored_writes L) = held_of L.
Proof. unfold held_of, ids_of, restored_writes. induction L as [|[e h] L IH]; [done|]. cbn. destruct h; cbn; by rewrite IH. Qed.

Lemma rebuilt_tied rows cursor L :
  writes_ok L -> tied [] (log_of L) (createLiveMutations (open_store rows cursor) (loaded_of L)) (restored_writes L).
Proof.
  intros Hok. pose proof (restored_ok _ Hok) as Hr. pose proof (rebuilt rows cursor (loaded_of L)) as B. rewrite loaded_restored in B.
  specialize (B (proj1 Hr)). split; try apply B; try done.
  - by rewrite (built_chain _ _ B), restored_log.
  - by exists L.
  - rewrite (built_chain _ _ B). constructor.
Qed.

(** ** What is not lost *)

Definition spared_writes (lost : list string) (L : Writes) : Writes := List.filter (fun x => spared lost (o_id x.1)) L.

Lemma kept_log lost L : kept lost (log_of L) = log_of (spared_writes lost L).
Proof. unfold kept, log_of, spared_writes. by rewrite <- (map_filter_comm logged (fun x => spared lost (o_id x.1))). Qed.

Lemma spared_overlay lost L : List.filter (fun kv => spared lost kv.1) (overlay_of L) = overlay_of (spared_writes lost L).
Proof. unfold overlay_of, spared_writes. by rewrite <- (map_filter_comm overlaid (fun x => spared lost (o_id x.1))). Qed.

Lemma spared_pending lost L : List.filter (fun e => spared lost (o_id e)) (pending_of L) = pending_of (spared_writes lost L).
Proof. unfold pending_of, spared_writes. rewrite <- (map_filter_comm fst (fun x => spared lost (o_id x.1))) by done. by rewrite filter_swap. Qed.

Lemma spared_held lost L id : spared lost id = true -> List.In id (held_of L) <-> List.In id (held_of (spared_writes lost L)).
Proof.
  intros Hs. rewrite !held_of_In. unfold spared_writes. setoid_rewrite filter_In. cbn [fst]. split; [intros (e & H & <-)|intros (e & [H _] & <-)]; exists e; auto.
Qed.

Lemma restored_spared lost L : restored_writes (spared_writes lost L) = spared_writes lost (restored_writes L).
Proof. unfold restored_writes, spared_writes. by apply (map_filter_comm (fun x => (restored x.1, x.2)) (fun x => spared lost (o_id x.1))). Qed.

(** Logs that agree on the spared writes bring the same ones back. *)
Lemma same_log_restored lost M L :
  writes_ok M -> writes_ok L -> kept lost (log_of M) = kept lost (log_of L) ->
  spared_writes lost (restored_writes M) = spared_writes lost (restored_writes L).
Proof.
  intros HM HL E. rewrite !kept_log in E. rewrite <- !restored_spared, <- !loaded_restored. f_equal.
  assert (forall W, writes_ok W -> List.Forall (fun x => fits x.1) (spared_writes lost W)) as F.
  { intros W [_ Hf]. rewrite List.Forall_forall in *. intros x [Hx _]%filter_In. auto. }
  pose proof (load_log _ (F M HM)) as E1. pose proof (load_log _ (F L HL)) as E2. congruence.
Qed.

(** ** The client and its tier *)

(** [w_lost]: the writes a transaction of which has not committed, since the client was
    built; no part of the program keeps it. *)
Record World : Type := mkWorld { w_client : Client; w_tier : Tier; w_frozen : bool; w_lost : list string }.

Definition fresh_id (id : string) (c : Client) : Prop := ~ List.In id (map fst (overlay (readModel (c_store c)))).
Definition set_chain (chain : list DurableWrite) (c : Client) : Client :=
  mkClient (c_store c) chain (c_queue c) (c_heldIds c) (c_draining c) (c_timers c).

(** A transaction of a write of the log that does not commit makes that write a lost one. *)
Definition lost_by (w : DurableWrite) (commits : bool) (lost : list string) : list string :=
  if commits then lost else match write_id w with Some id => id :: lost | None => lost end.

Section World.
Context (def : ShapeDefinition).

(** Whatever may happen next: an application's submit, flush or read; a verdict on the
    posted front; a timer; a frame with any data; the next durable write, whose transaction
    commits or not; or a reload, which drops the writes that have not run. *)
Inductive wstep : World -> World -> Prop :=
| step_submit e c t f l : fits e -> fresh_id (o_id e) c -> wstep (mkWorld c t f l) (mkWorld (submit true e c).1 t f l)
| step_flush c t f l : wstep (mkWorld c t f l) (mkWorld (flush c).1 t f l)
| step_verdict o c t f l : c_draining c = true -> wstep (mkWorld c t f l) (mkWorld (drain_verdict true o c).1 t f l)
| step_grace id before after c t f l :
    c_timers c = before ++ id :: after ->
    wstep (mkWorld c t f l) (mkWorld (onGrace true id (set_timers (before ++ after) c)) t f l)
| step_snapshot data cursor c t f l : wstep (mkWorld c t f l) (mkWorld (on_snapshot def true data cursor c) t f l)
| step_change data cursor c t f l : wstep (mkWorld c t f l) (mkWorld (on_change true data cursor c) t f l)
| step_resync c t f l : wstep (mkWorld c t f l) (mkWorld (on_resync true c) t f l)
| step_read rows st c t f l : store_getRows def (c_store c) = Ok (rows, st) -> wstep (mkWorld c t f l) (mkWorld (set_store st c) t f l)
| step_write w chain commits c t f l :
    c_chain c = w :: chain ->
    wstep (mkWorld c t f l)
      (mkWorld (set_chain chain c) (runWrite def commits w t f).1 (runWrite def commits w t f).2 (lost_by w commits l))
| step_reload rows cursor loaded c t f l :
    hydrate t = Some (rows, cursor, loaded) -> wstep (mkWorld c t f l) (mkWorld (createLiveMutations (open_store rows cursor) loaded) t false []).

Definition first_world : World := mkWorld (createLiveMutations createLiveStore []) empty_tier false [].

Inductive reachable : World -> Prop :=
| reach_first : reachable first_world
| reach_step w w' : reachable w -> wstep w w' -> reachable w'.

Lemma read_overlay st rows st' : store_getRows def st = Ok (rows, st') -> overlay (readModel st') = overlay (readModel st).
Proof.
  unfold store_getRows, getRows. destruct (dirty (readModel st)); [|by intros [= <- <-]].
  destruct (merged_rows _ _ _); cbn [outcome_bind]; [|done]. by intros [= <- <-].
Qed.

Lemma run_log w commits t f :
  t_outbox (runWrite def commits w t f).1 = if negb (gated w) && commits then log_write (t_outbox t) w else t_outbox t.
Proof.
  unfold runWrite. destruct (gated w) eqn:W; cbn [negb andb].
  - destruct (f && _); [done|]. destruct commits; [|done]. cbn [fst]. rewrite commit_log. by destruct w.
  - destruct commits; [apply commit_log|done].
Qed.

Lemma write_tied w chain commits c t f l L :
  tied l (t_outbox t) c L -> c_chain c = w :: chain ->
  tied (lost_by w commits l) (t_outbox (runWrite def commits w t f).1) (set_chain chain c) L.
Proof.
  intros [To Tq Th Tk Tl Tg Tc] E. rewrite run_log. rewrite E in *. inversion Tc as [|? ? Hw Hchain]; subst. unfold lost_by.
  destruct commits; rewrite ?andb_true_r, ?andb_false_r.
  - destruct (gated w) eqn:W; split; try done; [by destruct w|by apply good_log_write].
  - split; try done. cbn [c_chain set_chain]. cbn [log_after fold_left] in Tl. fold (log_after chain (log_write (t_outbox t) w)) in Tl.
    assert (forall l', (forall id, write_id w = Some id -> List.In id l') -> kept l' (log_after chain (log_write (t_outbox t) w)) = kept l' (log_of L) ->
      kept l' (log_after chain (t_outbox t)) = kept l' (log_of L)) as G.
    { intros l' Hl <-. apply kept_log_after. symmetry. by apply kept_log_skip. }
    destruct (write_id w) as [id|]; apply G; [intros ? [= <-]; by left|by apply kept_more|done|done].
Qed.

Lemma reload_tied t rows cursor loaded :
  good_log (t_outbox t) -> hydrate t = Some (rows, cursor, loaded) ->
  exists L, tied [] (t_outbox t) (createLiveMutations (open_store rows cursor) loaded) L.
Proof.
  intros (M & E & Hok). unfold hydrate. rewrite E, (load_log _ (proj2 Hok)). destruct (load_rows (t_rows t)); [|done].
  cbn. intros [= <- <- <-]. eexists. by apply rebuilt_tied.
Qed.

Lemma wstep_tied w w' L :
  tied (w_lost w) (t_outbox (w_tier w)) (w_client w) L -> wstep w w' -> exists L', tied (w_lost w') (t_outbox (w_tier w')) (w_client w') L'.
Proof.
  intros T S. destruct S; cbn [w_client w_tier w_lost] in *.
  - eexists. apply submit_tied; [done..|]. unfold fresh_id in *. by rewrite (tied_overlay _ _ _ _ T), overlay_ids in *.
  - exists L. by apply flush_tied.
  - exact (verdict_tied _ _ _ _ o T).
  - apply (grace_tied _ _ _ L). by apply timers_tied.
  - exact (on_snapshot_tied def _ _ _ _ data cursor T).
  - exact (on_change_tied _ _ _ _ data cursor T).
  - exists L. by apply resync_tied.
  - exists L. apply store_tied; [done|]. by eapply read_overlay.
  - exists L. by apply write_tied.
  - eapply reload_tied; [|done]. apply T.
Qed.

Lemma first_tied : tied (w_lost first_world) (t_outbox (w_tier first_world)) (w_client first_world) [].
Proof. apply (rebuilt_tied [] None []). by split; constructor. Qed.

Lemma reachable_tied w : reachable w -> exists L, tied (w_lost w) (t_outbox (w_tier w)) (w_client w) L.
Proof.
  induction 1 as [|w w' _ (L & T) S]; [exists []; apply first_tied|]. by eapply wstep_tied.
Qed.
End World.


(** ** The drain *)

Definition is_final (o : MutationOutcome) : bool := match o with OutcomeOk | OutcomeRejected => true | _ => false end.

Fixpoint finals (os : list MutationOutcome) : nat :=
  match os with o :: os' => if is_final o then S (finals os') else 0 | [] => 0 end.

(** The verdicts on the posted writes, one after another, and all that is posted. *)
Fixpoint deliver (durable : bool) (os : list MutationOutcome) (r : Client * list OutboxEntry) : Client * list OutboxEntry :=
  match os, r.2 with
  | o :: os', _ :: _ => let '(c', posted) := deliver durable os' (drain_verdict durable o r.1) in (c', r.2 ++ posted)
  | _, _ => r
  end.

Lemma settle_queue durable e ok c : c_queue (settle durable e ok c) = tl (c_queue c) /\ c_draining (settle durable e ok c) = c_draining c.
Proof. by destruct durable, ok. Qed.

Lemma drain_verdict_final durable o c e q :
  is_final o = true -> c_queue c = e :: q -> c_draining c = true ->
  exists c', drain_verdict durable o c = drain_next c' /\ c_queue c' = q /\ c_draining c' = true.
Proof.
  intros F E D. unfold drain_verdict. rewrite E. destruct o; [exists (settle durable e true c)|exists (settle durable e false c)|done..];
    (split; [done|]); rewrite (proj1 (settle_queue _ _ _ _)), (proj2 (settle_queue _ _ _ _)), E; done.
Qed.

Lemma deliver_drain durable os c :
  c_draining c = true ->
  let q := c_queue c in
  let n := Nat.min (finals os) (length q) in
  let '(c', posted) := deliver durable os (drain_next c) in
  c_queue c' = skipn n q /\ posted = firstn (S n) q /\ c_draining c' = (n <? length q) && (n =? length os).
Proof.
  revert c. induction os as [|o os IH]; intros c D; cbn [deliver finals].
  - unfold drain_next. destruct (c_queue c) as [|e q] eqn:E; simpl; by rewrite E.
  - destruct (c_queue c) as [|e q] eqn:E.
    { assert (drain_next c = (set_draining false c, [])) as -> by (unfold drain_next; by rewrite E). cbn. by rewrite E, Nat.min_0_r. }
    assert (drain_next c = (c, [e])) as -> by (unfold drain_next; by rewrite E). cbn [snd fst].
    destruct (is_final o) eqn:F.
    + destruct (drain_verdict_final durable o c e q F E D) as (c1 & -> & E1 & D1). specialize (IH c1 D1). rewrite E1 in IH. cbn zeta in IH.
      destruct (deliver durable os (drain_next c1)) as [c' posted]. destruct IH as (I1 & I2 & I3). cbn [length Nat.min skipn firstn app].
      rewrite I1, I2, I3. done.
    + unfold drain_verdict. rewrite E. destruct os as [|o' os], o; try done; cbn; by rewrite E.
Qed.

(** Fact: a drain delivers the queue in order: from its front, each write is posted once, after
    the final verdict on the one before; accepted and rejected writes leave the queue, and
    the first transient failure stops the drain with that write and every later one still
    queued, in order; a drain that is not stopped ends with the queue empty. *)
Theorem drain_in_order (durable : bool) (os : list MutationOutcome) (c : Client) :
  c_draining c = false ->
  let q := c_queue c in
  let n := Nat.min (finals os) (length q) in
  let '(c', posted) := deliver durable os (flush c) in
  c_queue c' = skipn n q /\ posted = firstn (S n) q /\ c_draining c' = (n <? length q) && (n =? length os).
Proof.
  intros D. unfold flush. rewrite D. exact (deliver_drain durable os (set_draining true c) eq_refl).
Qed.

(** ** No flash *)

Section Shown.
Context (def : ShapeDefinition).

(** Rows under their own keys. *)
Definition own_keys (rows : Rows) : Prop :=
  List.NoDup (map fst rows) /\ forall key row, map_get key rows = Some row -> rowKey row (s_key def) = Ok key.

Definition keyed_change (change : ShapeChange) : Prop :=
  match payload change with Some row => rowKey row (s_key def) = Ok (change_key change) | None => True end.

Lemma own_key_rows rows : own_keys rows -> key_rows def (map snd rows) = Ok rows.
Proof.
  intros [Hn Hk]. assert (forall kr, List.In kr rows -> rowKey kr.2 (s_key def) = Ok kr.1) as G.
  { intros [k r] H. apply Hk. by apply map_get_In. }
  clear Hn Hk. unfold key_rows. induction rows as [|[k r] rows IH]; [done|]. cbn [map snd map_outcome].
  pose proof (G (k, r) (or_introl eq_refl)) as E. cbn [fst snd] in E. rewrite E. cbn [outcome_bind].
  rewrite IH; [done|]. intros kr H. apply G. by right.
Qed.

(** The rows shown are the overlay's, over the authorized ones, by key. *)
Lemma shown_merged st :
  own_keys (rowsByKey st) -> shown def st = Ok (map snd (merge_overlay (overlay (readModel st)) (rowsByKey st))).
Proof.
  intros H. unfold shown, merged_rows. destruct (overlay (readModel st)) as [|kv o]; [done|].
  rewrite own_key_rows by done. cbn [outcome_bind]. by rewrite (key_rows_NoDup_next _ (proj1 H)).
Qed.

Lemma applyChange_keys rows c : own_keys rows -> keyed_change c -> own_keys (applyChange rows c).
Proof.
  intros [Hn Hk] Hc. split.
  - destruct c; cbn [applyChange]; [by apply map_set_NoDup..|by apply map_delete_NoDup].
  - intros key row. rewrite applyChange_get. destruct (String.eqb_spec key (change_key c)) as [->|]; [|apply Hk].
    unfold keyed_change, payload in Hc. destruct c; [by intros [= <-]..|done].
Qed.

Definition changes_of (L : Writes) : list ShapeChange := map (fun x => o_optimistic x.1) L.

Lemma overlay_changes L rows : merge_overlay (overlay_of L) rows = applyAll (changes_of L) rows.
Proof.
  revert rows. induction L as [|x L IH]; intros rows; [done|]. unfold merge_overlay, applyAll, overlay_of, changes_of in *.
  cbn [map fold_left overlaid snd ov_change ov_key]. rewrite <- IH. by destruct (o_optimistic x.1).
Qed.

Lemma applyAll_NoDup cs rows : List.NoDup (map fst rows) -> List.NoDup (map fst (applyAll cs rows)).
Proof.
  revert rows. induction cs as [|c cs IH]; intros rows H; [done|]. cbn. apply IH.
  destruct c; cbn [applyChange]; [by apply map_set_NoDup..|by apply map_delete_NoDup].
Qed.

Lemma map_get_perm (s t : Rows) :
  List.NoDup (map fst s) -> List.NoDup (map fst t) -> (forall key, map_get key s = map_get key t) -> s ≡ₚ t.
Proof.
  intros Hs Ht E. apply NoDup_Permutation; [apply NoDup_ListNoDup; by eapply List.NoDup_map_inv..|].
  intros [k r]. rewrite !list_elem_of_In. split; intros H; apply map_get_Some_In; [rewrite <- E|rewrite E]; by apply map_get_In.
Qed.

Lemma find_split {A} (f : A -> bool) l x :
  List.find f l = Some x -> exists l1 l2, l = l1 ++ x :: l2 /\ f x = true /\ forall y, List.In y l1 -> f y = false.
Proof.
  induction l as [|a l IH]; [done|]. simpl. destruct (f a) eqn:E.
  - intros [= <-]. by exists [], l.
  - intros H. destruct (IH H) as (l1 & l2 & -> & Fx & Fl). exists (a :: l1), l2. split; [done|]. split; [done|]. by intros y [<-|Hy]; [|apply Fl].
Qed.

(** Moving the first write of a key under the others changes no key's row. *)
Lemma settled_get key L1 e h L2 change rows :
  change_key (o_optimistic e) = change_key change -> (forall x, List.In x L1 -> change_key (o_optimistic x.1) <> change_key change) ->
  payload (o_optimistic e) = payload change ->
  map_get key (applyAll (changes_of (L1 ++ L2)) (applyChange rows change)) =
  map_get key (applyAll (changes_of (L1 ++ (e, h) :: L2)) rows).
Proof.
  intros Fe F1 Hp. unfold changes_of. rewrite !map_app. cbn [map fst]. rewrite !applyAll_get.
  change (o_optimistic e :: map (fun x => o_optimistic x.1) L2) with ([o_optimistic e] ++ map (fun x => o_optimistic x.1) L2).
  rewrite !last_effect_app, applyChange_get. destruct (last_effect key (map (fun x => o_optimistic x.1) L2)); [done|].
  unfold last_effect at 2. cbn [fold_left]. rewrite Fe. destruct (String.eqb_spec key (change_key change)) as [->|]; [|done].
  rewrite (last_effect_absent _ (map (fun x => o_optimistic x.1) L1)), Hp; [by destruct change|].
  intros c (x & <- & Hx)%in_map_iff. by apply F1.
Qed.

(** The first write under a key, held: where it is. *)
Lemma first_under key L id ov :
  List.find (fun kv => String.eqb (ov_key kv.2) key) (overlay_of L) = Some (id, ov) -> ov_held ov = true ->
  exists L1 e L2, L = L1 ++ (e, true) :: L2 /\ id = o_id e /\ ov_change ov = o_optimistic e /\ change_key (o_optimistic e) = key /\
    (forall x, List.In x L1 -> change_key (o_optimistic x.1) <> key) /\ oldest_held key (overlay_of L) = Some id.
Proof.
  intros F H. apply find_split in F as (o1 & o2 & E & Fe & F1). unfold overlay_of in E. apply List.map_eq_app in E as (L1 & L' & -> & <- & E).
  destruct L' as [|[e h] L2]; [done|]. cbn in E. injection E as <- <- <-. cbn in *. subst h. apply String.eqb_eq in Fe.
  assert (forall x, List.In x L1 -> String.eqb (change_key (o_optimistic x.1)) key = false) as G.
  { intros x Hx. exact (F1 _ (in_map overlaid _ _ Hx)). }
  exists L1, e, L2. split_and!; [done..| |].
  - intros x Hx. apply String.eqb_neq. by apply G.
  - rewrite oldest_held_of. clear F1. induction L1 as [|x L1 IH]; cbn; [by rewrite Fe, String.eqb_refl|].
    rewrite (G x) by (by left). cbn. apply IH. intros y Hy. apply G. by right.
Qed.

(** An ack changes a flag, and nothing that is shown. *)
Lemma ack_shown durable e c :
  List.NoDup (map fst (overlay (readModel (c_store c)))) -> shown def (c_store (settle durable e true c)) = shown def (c_store c).
Proof.
  intros Hn. assert (c_store (settle durable e true c) = holdOptimistic (o_id e) (c_store c)) as -> by (by destruct durable).
  unfold shown. cbn [holdOptimistic rowsByKey readModel]. rewrite holdOptimistic_overlay by done.
  apply merged_rows_map, hold_in_place_same.
Qed.
End Shown.

(** Fact: no flash: neither an ack nor its echo moves what is shown. Acking the posted write
    leaves the shown rows; and when the change the wire brings leaves under its key what the
    first write under that key, held, predicted, the rows shown are the same ones, the write
    is no longer held, and no other write is touched. *)
Theorem no_flash (def : ShapeDefinition) (w : World) (change : ShapeChange) (cursor : option string) (id : string) (ov : OverlayEntry) :
  let c := w_client w in
  let c' := client_change true change cursor c in
  reachable def w ->
  own_keys def (rowsByKey (c_store c)) -> keyed_change def change ->
  List.find (fun kv => String.eqb (ov_key kv.2) (change_key change)) (overlay (readModel (c_store c))) = Some (id, ov) ->
  ov_held ov = true -> payload (ov_change ov) = payload change ->
  (forall e q, c_queue c = e :: q -> shown def (c_store (settle true e true c)) = shown def (c_store c)) /\
  (exists m m', shown def (c_store c) = Ok m /\ shown def (c_store c') = Ok m' /\ m' ≡ₚ m) /\
  (forall x, List.In x (c_heldIds c') <-> List.In x (c_heldIds c) /\ x <> id) /\
  overlay (readModel (c_store c')) = map_delete id (overlay (readModel (c_store c))) /\ c_queue c' = c_queue c.
Proof.
  intros c c' R Hk Hc Hf Hh Hp. destruct (reachable_tied def w R) as (L & T). fold c in T.
  pose proof (tied_ok _ _ _ _ T) as [Hn _]. pose proof (tied_overlay _ _ _ _ T) as To. rewrite To in Hf.
  assert (List.NoDup (map fst (overlay (readModel (c_store c))))) as Ho' by (by rewrite To, overlay_ids).
  destruct (first_under _ _ _ _ Hf Hh) as (L1 & e & L2 & -> & -> & Eov & Ek & F1 & Ho). rewrite <- To in Ho. rewrite Eov in Hp.
  split. { intros e0 q _. apply ack_shown. done. }
  assert (c_store c' = mkStore (applyChange (rowsByKey (c_store c)) change)
            (mutated (set_overlay (map_delete (o_id e) (overlay (readModel (c_store c)))) (setCursor cursor (readModel (c_store c))))) /\
          c_heldIds c' = remove_id (o_id e) (c_heldIds c) /\ c_queue c' = c_queue c) as (Es & Eh & Eq).
  { unfold c', client_change, store_applyChange, settleEcho. cbn [overlay setCursor]. rewrite Ho. done. }
  split; [|split; [intros x; rewrite Eh; apply remove_id_In|split; [by rewrite Es|done]]].
  rewrite Es. eexists _, _. split; [by apply shown_merged|]. split; [apply shown_merged; by apply applyChange_keys|].
  apply Permutation_map. cbn [readModel rowsByKey mutated overlay set_overlay].
  unfold ids_of in Hn. rewrite map_app in Hn. pose proof (List.NoDup_remove_2 _ _ _ Hn) as Hid. rewrite in_app_iff in Hid.
  assert (drop_id (o_id e) (L1 ++ (e, true) :: L2) = L1 ++ L2) as Ed.
  { unfold drop_id. rewrite List.filter_app. cbn. rewrite String.eqb_refl. f_equal; (apply drop_absent; tauto). }
  rewrite To, delete_overlay, Ed, !overlay_changes.
  destruct (applyChange_keys def _ change Hk Hc) as [Hn1 _]. destruct Hk as [Hn2 _].
  apply map_get_perm; [by apply applyAll_NoDup..|]. intros key. by apply settled_get.
Qed.

(** ** An example: an edit, written to disk, acknowledged, echoed *)

Definition an_edit : OutboxEntry := mkEntry "m1" "edit" (Some (JStr "b")) (SUpdate "1" (note "1" "b")).
Definition a_snapshot : string := stringify (JObj [("rows"%string, JArr [json_of_row (note "1" "a")])]).

Definition w_seen : World := mkWorld (on_snapshot notes_shape true a_snapshot "c1" (w_client first_world)) empty_tier false [].
Definition w_edited : World := mkWorld (submit true an_edit (w_client w_seen)).1 empty_tier false [].
Definition w_acked : World := mkWorld (drain_verdict true OutcomeOk (w_client w_edited)).1 empty_tier false [].

Lemma edited_reachable : reachable notes_shape w_edited.
Proof.
  apply (reach_step _ w_seen); [apply (reach_step _ first_world); [apply reach_first|apply step_snapshot]|].
  apply step_submit; [by split; vm_compute|by vm_compute].
Qed.

Lemma acked_reachable : reachable notes_shape w_acked.
Proof. apply (reach_step _ w_edited); [apply edited_reachable|]. by apply step_verdict. Qed.

(** The next durable write. *)
Definition run_next (commits : bool) (w : World) : World :=
  match c_chain (w_client w) with
  | x :: chain =>
      mkWorld (set_chain chain (w_client w)) (runWrite notes_shape commits x (w_tier w) (w_frozen w)).1
        (runWrite notes_shape commits x (w_tier w) (w_frozen w)).2 (lost_by x commits (w_lost w))
  | [] => w
  end.

Lemma run_next_reachable commits w : reachable notes_shape w -> reachable notes_shape (run_next commits w).
Proof.
  intros R. unfold run_next. destruct (c_chain (w_client w)) as [|x chain] eqn:E; [done|].
  apply (reach_step _ w); [done|]. destruct w. by apply step_write.
Qed.

(** A second edit whose append does not commit. *)
Definition another_edit : OutboxEntry := mkEntry "m2" "edit" None (SDelete "2").
Definition w_two : World := mkWorld (submit true another_edit (w_client w_edited)).1 empty_tier false [].
Definition w_on_disk : World := run_next false (run_next true (run_next true w_two)).

Lemma on_disk_reachable : reachable notes_shape w_on_disk.
Proof.
  do 3 apply run_next_reachable. apply (reach_step _ w_edited); [apply edited_reachable|]. apply step_submit; [by split; vm_compute|].
  vm_compute. intros [[=]|[]].
Qed.


Lemma drain_in_order_witness :
  let c := set_queue [an_edit; mkEntry "m2" "edit" None (SDelete "2")] (w_client first_world) in
  let r := deliver true [OutcomeOk; OutcomeRetry] (flush c) in
  c_draining c = false /\ c_queue r.1 = [mkEntry "m2" "edit" None (SDelete "2")] /\ map o_id r.2 = ["m1"; "m2"]%string.
Proof.
  intros c r. split; [reflexivity|]. pose proof (drain_in_order true [OutcomeOk; OutcomeRetry] c eq_refl) as T. cbv zeta in T.
  fold r in T. destruct r as [c' posted]. destruct T as (E1 & E2 & _). cbn [fst snd]. rewrite E1, E2. split; reflexivity.
Defined.

Lemma no_flash_witness :
  let c := w_client w_acked in
  let c' := client_change true (SUpdate "1" (note "1" "b")) (Some "c2"%string) c in
  reachable notes_shape w_acked /\
  exists m m', shown notes_shape (c_store c) = Ok m /\ shown notes_shape (c_store c') = Ok m' /\ m' ≡ₚ m.
Proof.
  intros c c'. split; [apply acked_reachable|].
  refine (proj1 (proj2 (no_flash notes_shape w_acked (SUpdate "1" (note "1" "b")) (Some "c2"%string) "m1" _ acked_reachable _ _ _ _ _))).
  - split; [by repeat constructor; intros []|]. intros key row H. apply map_get_Some_In in H. by destruct H as [[= <- <-]|[]].
  - reflexivity.
  - reflexivity.
  - reflexivity.
  - reflexivity.
Defined.
