(* ===== verification/NodeCrypto.v ===== *)
(** * Bytes, hexadecimal text and the platform's hashes

    What the packages use of [node:buffer] and [node:crypto]: UTF-8 and hexadecimal text as
    byte lists, the constant-time comparison, JavaScript's 32-bit shifts; HMAC and SHA-256
    are the platform's, an interface with the laws the callers rely on. *)
From S2P Require Import Prelude JsString Base64.
#[local] Open Scope Z_scope.

(** ** Text as bytes *)

(** [Buffer.from(s)]: the UTF-8 bytes of a string of code units below 256. *)
Fixpoint utf8 (s : string) : list Z :=
  match s with
  | EmptyString => []
  | String c s' =>
      let n := Z.of_nat (nat_of_ascii c) in
      if n <? 128 then n :: utf8 s' else (192 + n / 64) :: (128 + n mod 64) :: utf8 s'
  end.

(** [Buffer.byteLength(s, "utf8")]. *)
Definition byteLength (s : string) : Z := Z.of_nat (length (utf8 s)).

Definition hex_char (d : Z) : ascii := ascii_of_nat (Z.to_nat (if d <? 10 then d + 48 else d + 87)).

(** [bytes.toString("hex")]. *)
Fixpoint toHex (bytes : list Z) : string :=
  match bytes with
  | [] => EmptyString
  | b :: bytes' => String (hex_char (b / 16)) (String (hex_char (b mod 16)) (toHex bytes'))
  end.

Definition hex_value (c : ascii) : option Z :=
  let n := Z.of_nat (nat_of_ascii c) in
  if (48 <=? n) && (n <=? 57) then Some (n - 48)
  else if (97 <=? n) && (n <=? 102) then Some (n - 87)
  else if (65 <=? n) && (n <=? 70) then Some (n - 55)
  else None.

(** [Buffer.from(s, "hex")]: the leading pairs of hexadecimal digits. *)
Fixpoint fromHex_buffer (s : string) : list Z :=
  match s with
  | String a (String b s') =>
      match hex_value a, hex_value b with
      | Some x, Some y => 16 * x + y :: fromHex_buffer s'
      | _, _ => []
      end
  | _ => []
  end.

(** ** Comparison and shifts *)

(** [timingSafeEqual(a, b)], which throws on buffers of different lengths: [None]. *)
Definition timingSafeEqual (a b : list Z) : option bool :=
  if Nat.eqb (length a) (length b) then Some (bool_decide (a = b)) else None.

(** The 32-bit signed integer of a bitwise operator's operand. *)
Definition to_int32 (n : Z) : Z := let m := n mod 4294967296 in if m <? 2147483648 then m else m - 4294967296.

(** [a << k], [a >>> k], for [0 <= k < 32]. *)
Definition js_shl (a k : Z) : Z := to_int32 (Z.shiftl (to_int32 a) k).
Definition js_ushr (a k : Z) : Z := Z.shiftr (to_int32 a mod 4294967296) k.
Definition js_or (a b : Z) : Z := to_int32 (Z.lor (to_int32 a) (to_int32 b)).
Definition js_and (a b : Z) : Z := to_int32 (Z.land (to_int32 a) (to_int32 b)).

(** ** The hashes *)

Class Crypto := {
  hmac_sha256 : list Z -> list Z -> list Z;
  hmac_sha1 : list Z -> list Z -> list Z;
  sha256_bytes : list Z -> list Z
}.

(** Digests are bytes, of their widths. *)
Class CryptoLaws `{cr : !Crypto} : Prop := {
  hmac_sha256_bytes key msg : List.Forall is_byte (hmac_sha256 key msg) /\ length (hmac_sha256 key msg) = 32%nat;
  hmac_sha1_bytes key msg : List.Forall is_byte (hmac_sha1 key msg) /\ length (hmac_sha1 key msg) = 20%nat;
  sha256_is_bytes msg : List.Forall is_byte (sha256_bytes msg) /\ length (sha256_bytes msg) = 32%nat
}.

(** Two messages one key cannot tell apart: what no caller knows how to find. *)
Definition collision `{Crypto} (key : list Z) (m m' : list Z) : Prop := m <> m' /\ hmac_sha256 key m = hmac_sha256 key m'.

(** [createHmac("sha256", secret).update(message).digest("hex")]. *)
Definition hmac_hex `{Crypto} (message secret : string) : string := toHex (hmac_sha256 (utf8 secret) (utf8 message)).

(** The platform's decoding of UTF-8 bytes, which gives a text its bytes encode back. *)
Class TextDecoder := utf8_decode : list Z -> string.
Class TextDecoderLaw `{TextDecoder} : Prop := decode_utf8 s : utf8_decode (utf8 s) = s.

(** ** Laws of the text codecs *)

Lemma utf8_byte s : List.Forall is_byte (utf8 s).
Proof.
  induction s as [|c s IH]; simpl; [constructor|]. pose proof (nat_ascii_bounded c) as B.
  assert (0 <= Z.of_nat (nat_of_ascii c) < 256) as R by lia. revert R. generalize (Z.of_nat (nat_of_ascii c)). intros n R.
  unfold is_byte in *. destruct (n <? 128) eqn:E; [apply Z.ltb_lt in E|apply Z.ltb_ge in E].
  - constructor; [lia|done].
  - constructor; [Z.to_euclidean_division_equations; lia|]. constructor; [Z.to_euclidean_division_equations; lia|done].
Qed.

Lemma nat_of_ascii_inj c d : nat_of_ascii c = nat_of_ascii d -> c = d.
Proof. intros H. rewrite <- (ascii_nat_embedding c), <- (ascii_nat_embedding d). by f_equal. Qed.

Lemma utf8_inj a b : utf8 a = utf8 b -> a = b.
Proof.
  revert b. induction a as [|c a IH]; intros [|d b]; simpl; [done| | |].
  - by destruct (_ <? 128).
  - by destruct (_ <? 128).
  - pose proof (nat_ascii_bounded c) as B1. pose proof (nat_ascii_bounded d) as B2.
    destruct (Z.of_nat (nat_of_ascii c) <? 128) eqn:E1, (Z.of_nat (nat_of_ascii d) <? 128) eqn:E2; bools.
    + intros [= H1 H2]. rewrite (IH _ H2). f_equal. apply nat_of_ascii_inj. lia.
    + intros [= H1 H2]. Z.to_euclidean_division_equations; lia.
    + intros [= H1 H2]. Z.to_euclidean_division_equations; lia.
    + intros [= H1 H2 H3]. rewrite (IH _ H3). f_equal. apply nat_of_ascii_inj.
      Z.to_euclidean_division_equations; lia.
Qed.

Lemma utf8_app a b : utf8 (String.append a b) = (utf8 a ++ utf8 b)%list.
Proof. induction a as [|c a IH]; [done|]. simpl. rewrite IH. by destruct (_ <? 128). Qed.

Lemma hex_digits_ok : forallb (fun n => bool_decide (hex_value (hex_char (Z.of_nat n)) = Some (Z.of_nat n))) (List.seq 0 16) = true.
Proof. vm_compute. reflexivity. Qed.

Lemma hex_value_char d : 0 <= d < 16 -> hex_value (hex_char d) = Some d.
Proof.
  intros H. pose proof hex_digits_ok as F. rewrite forallb_forall in F. specialize (F (Z.to_nat d)).
  rewrite bool_decide_eq_true, Z2Nat.id in F by lia. apply F, in_seq. lia.
Qed.

Lemma nibbles b : is_byte b -> 0 <= b / 16 < 16 /\ 0 <= b mod 16 < 16 /\ 16 * (b / 16) + b mod 16 = b.
Proof.
  intros [H1 H2]. split; [split; [by apply Z.div_pos|apply Z.div_lt_upper_bound; lia]|].
  split; [by apply Z.mod_pos_bound|symmetry; by apply Z.div_mod].
Qed.

Lemma fromHex_toHex bytes rest :
  List.Forall is_byte bytes -> fromHex_buffer (String.append (toHex bytes) rest) = (bytes ++ fromHex_buffer rest)%list.
Proof.
  induction 1 as [|b bytes Hb _ IH]; [done|]. destruct (nibbles b Hb) as (H1 & H2 & E).
  cbn [toHex String.append fromHex_buffer]. by rewrite !hex_value_char, IH, E by done.
Qed.

Lemma toHex_inj a b : List.Forall is_byte a -> List.Forall is_byte b -> toHex a = toHex b -> a = b.
Proof.
  intros Ha Hb E. pose proof (fromHex_toHex a EmptyString Ha) as A. pose proof (fromHex_toHex b EmptyString Hb) as B.
  rewrite append_nil_r in *. cbn [fromHex_buffer] in *. rewrite app_nil_r in *. congruence.
Qed.

Definition is_hex_char (c : ascii) : bool := match hex_value c with Some _ => true | None => false end.

Lemma toHex_chars bytes : List.Forall is_byte bytes -> all_chars is_hex_char (toHex bytes) = true.
Proof.
  induction 1 as [|b bytes Hb _ IH]; [done|]. destruct (nibbles b Hb) as (H1 & H2 & _).
  cbn [toHex all_chars]. unfold is_hex_char at 1 2. by rewrite !hex_value_char, IH by done.
Qed.

Lemma toHex_length bytes : String.length (toHex bytes) = (2 * length bytes)%nat.
Proof. induction bytes as [|b bytes IH]; [done|]. cbn [toHex String.length length]. lia. Qed.

Lemma hex_no_char c bytes : is_hex_char c = false -> List.Forall is_byte bytes -> has_char c (toHex bytes) = false.
Proof.
  intros Hc Hb. rewrite has_char_all. apply negb_false_iff. eapply all_chars_impl; [|by apply toHex_chars].
  intros d Hd. apply negb_true_iff, Ascii.eqb_neq. intros ->. congruence.
Qed.

(** The guarded comparison of two texts. *)
Definition same_bytes (a b : string) : bool :=
  if Nat.eqb (length (utf8 a)) (length (utf8 b)) then default false (timingSafeEqual (utf8 a) (utf8 b)) else false.

Lemma same_bytes_eq a b : same_bytes a b = true <-> a = b.
Proof.
  unfold same_bytes, timingSafeEqual. destruct (Nat.eqb_spec (length (utf8 a)) (length (utf8 b))) as [E|N]; cbn [from_option id].
  - rewrite bool_decide_eq_true. split; [apply utf8_inj|by intros ->].
  - split; [done|]. intros ->. done.
Qed.

Section Hmac.
Context `{CryptoLaws}.

Lemma hmac_hex_length message secret : String.length (hmac_hex message secret) = 64%nat.
Proof. unfold hmac_hex. rewrite toHex_length, (proj2 (hmac_sha256_bytes _ _)). done. Qed.

Lemma hmac_hex_no c message secret : is_hex_char c = false -> has_char c (hmac_hex message secret) = false.
Proof. intros Hc. apply hex_no_char; [done|apply hmac_sha256_bytes]. Qed.

(** One signature for two messages is a collision, or one message. *)
Lemma hmac_hex_binds m m' secret :
  hmac_hex m secret = hmac_hex m' secret -> m = m' \/ collision (utf8 secret) (utf8 m) (utf8 m').
Proof.
  intros E. apply toHex_inj in E; [|apply hmac_sha256_bytes..]. destruct (decide (m = m')) as [|N]; [by left|].
  right. split; [|done]. intros U. by apply utf8_inj in U.
Qed.
End Hmac.

(** ** A concrete instance, for runs *)

(** A checksum in place of the hashes: what it needs is the widths. *)
Definition checksum (width : nat) (key msg : list Z) : list Z :=
  map (fun i => (fold_left (fun acc b => (acc * 31 + b + Z.of_nat i) mod 65521) (key ++ 255 :: msg)%list 7) mod 256) (List.seq 0 width).

Definition toy_crypto : Crypto := {| hmac_sha256 := checksum 32; hmac_sha1 := checksum 20; sha256_bytes := checksum 32 [] |}.

Lemma checksum_bytes width key msg : List.Forall is_byte (checksum width key msg) /\ length (checksum width key msg) = width.
Proof.
  unfold checksum. split; [|by rewrite length_map, length_seq]. apply List.Forall_map, List.Forall_forall. intros i _.
  unfold is_byte. pose proof (Z.mod_pos_bound (fold_left (fun acc b => (acc * 31 + b + Z.of_nat i) mod 65521) (key ++ 255 :: msg)%list 7) 256). lia.
Qed.

Lemma toy_crypto_laws : @CryptoLaws toy_crypto.
Proof. constructor; intros; apply checksum_bytes. Qed.

(** A decoder for the texts of code units below 256. *)
Fixpoint decode_latin (bytes : list Z) : string :=
  match bytes with
  | [] => EmptyString
  | b :: rest =>
      if (b <? 128)%Z then String (ascii_of_nat (Z.to_nat b)) (decode_latin rest)
      else match rest with
           | c :: rest' => String (ascii_of_nat (Z.to_nat ((b - 192) * 64 + (c - 128)))) (decode_latin rest')
           | [] => EmptyString
           end
  end.

Lemma decode_latin_utf8 s : decode_latin (utf8 s) = s.
Proof.
  induction s as [|c s IH]; [done|]. cbn [utf8].
  destruct (Z.of_nat (nat_of_ascii c) <? 128)%Z eqn:E; cbn [decode_latin].
  - rewrite E, Nat2Z.id, ascii_nat_embedding. by rewrite IH.
  - apply Z.ltb_ge in E. replace (192 + Z.of_nat (nat_of_ascii c) / 64 <? 128)%Z with false
      by (symmetry; apply Z.ltb_ge; Z.to_euclidean_division_equations; lia).
    replace ((192 + Z.of_nat (nat_of_ascii c) / 64 - 192) * 64 + (128 + Z.of_nat (nat_of_ascii c) mod 64 - 128))%Z
      with (Z.of_nat (nat_of_ascii c)) by (Z.to_euclidean_division_equations; lia).
    rewrite Nat2Z.id, ascii_nat_embedding. by rewrite IH.
Qed.
