(* ===== verification/Web.v ===== *)
(** * The request pipeline

    [packages/web/src/middleware.ts], [types.ts] and [harden.ts]: requests and responses, the
    onion of middleware, the merge of header maps, the hardening headers and the status of
    an error. A computation is the events it leaves (what ran, what was reported) and its
    outcome, so a property can say what a layer let through. *)
From S2P Require Import Prelude JsString JsMap.
#[local] Open Scope string_scope.
#[local] Open Scope Z_scope.

(** ** Requests, responses, errors *)

(** A decoded body: the raw text of a form, or another shape. *)
Inductive Body : Type := BodyText (s : string) | BodyOther.

(** The fields the middleware read. *)
Record Request : Type := mkRequest { method : string; path : string; req_headers : JsMap string; req_body : Body }.

Inductive HeaderValue : Type := One (s : string) | Many (l : list string).
Definition HeaderMap : Type := JsMap HeaderValue.

Record Response : Type := mkResponse { status : Z; headers : HeaderMap; res_body : string }.

(** A thrown value: one with the brand of a coded error, or any other. *)
Inductive JsThrown : Type := LestoError (code : string) | OtherError.

(** ** Computations *)

(** What happened, as far as the properties ask: the dispatch ran; a refusal was reported. *)
Inductive WebEvent : Type := Dispatched | DeniedAs (kind : string).

(** A promise: the events and the outcome. *)
Definition Run (A : Type) : Type := list WebEvent * outcome JsThrown A.

Definition resolve {A} (a : A) : Run A := ([], Ok a).
Definition reject {A} (e : JsThrown) : Run A := ([], Throw e).
Definition and_then {A B} (m : Run A) (k : A -> Run B) : Run B :=
  match m.2 with
  | Ok a => ((m.1 ++ (k a).1)%list, (k a).2)
  | Throw e => (m.1, Throw e)
  end.

Definition Next : Type := unit -> Run Response.
Definition Middleware : Type := Request -> Next -> Run Response.

(** [runPipeline]: the first layer is the outermost. *)
Definition chain (middleware : list Middleware) (request : Request) (dispatch : Next) : Next :=
  fold_right (fun (layer : Middleware) (next : Next) => fun _ => layer request next) dispatch middleware.

Definition runPipeline (middleware : list Middleware) (request : Request) (dispatch : Next) : Run Response :=
  chain middleware request dispatch tt.

(** ** Lower case *)

(** [toLowerCase] of a code unit below 256. *)
Definition lower_char (c : ascii) : ascii :=
  let n := nat_of_ascii c in
  if ((65 <=? n) && (n <=? 90))%nat || ((192 <=? n) && (n <=? 222) && negb (n =? 215))%nat then ascii_of_nat (n + 32) else c.

Fixpoint toLowerCase (s : string) : string :=
  match s with EmptyString => EmptyString | String c s' => String (lower_char c) (toLowerCase s') end.

(** ** Header maps *)

Definition asList (v : HeaderValue) : list string := match v with One s => [s] | Many l => l end.

Definition varyTokens (v : HeaderValue) : list string :=
  List.filter (fun t => negb (String.eqb t EmptyString)) (map trim (flat_map (split ",") (asList v))).

(** The tokens first seen under their lower-case names. *)
Definition see_token (seen : JsMap string) (token : string) : JsMap string :=
  match map_get (toLowerCase token) seen with Some _ => seen | None => map_set (toLowerCase token) token seen end.

Definition unionVary (under over : HeaderValue) : string :=
  join ", " (map snd (fold_left see_token (varyTokens under ++ varyTokens over) [])).

(** The chosen value of a lower-case name, and the name it lives under. *)
Definition Chosen : Type := JsMap (string * HeaderValue).

Definition put (byLower : Chosen) (nv : string * HeaderValue) : Chosen :=
  let '(name, value) := nv in
  let lower := toLowerCase name in
  match map_get lower byLower with
  | Some (key, old) =>
      if String.eqb lower "set-cookie" then map_set lower (key, Many (asList old ++ asList value)) byLower
      else if String.eqb lower "vary" then map_set lower (key, One (unionVary old value)) byLower
      else map_set lower (key, value) byLower
  | None => map_set lower (name, value) byLower
  end.

Definition chosen (under over : HeaderMap) : Chosen := fold_left put over (fold_left put under []).

Definition mergeHeaders (under over : HeaderMap) : HeaderMap :=
  fold_left (fun merged kv => map_set kv.1 kv.2 merged) (map snd (chosen under over)) [].

(** ** Hardening *)

Definition DEFAULT_PERMISSIONS_POLICY : string := "camera=(), microphone=(), geolocation=(), interest-cohort=()".

Definition DEFAULT_SECURITY_HEADERS : JsMap string :=
  [("X-Content-Type-Options", "nosniff"); ("Referrer-Policy", "strict-origin-when-cross-origin");
   ("X-Frame-Options", "DENY"); ("Strict-Transport-Security", "max-age=63072000; includeSubDomains");
   ("Cross-Origin-Opener-Policy", "same-origin"); ("Permissions-Policy", DEFAULT_PERMISSIONS_POLICY)].

Definition RECOMMENDED_CSP : string :=
  "default-src 'self'; object-src 'none'; base-uri 'self'; frame-ancestors 'none'; upgrade-insecure-requests".

Definition COEP_HEADER : string := "Cross-Origin-Embedder-Policy".

Definition header_map (m : JsMap string) : HeaderMap := map (fun kv => (kv.1, One kv.2)) m.

(** [None] is [false]: headers disabled. *)
Definition withSecurityHeaders (response : Response) (defaults : option (JsMap string)) : Response :=
  match defaults with
  | None => response
  | Some d => mkResponse (status response) (mergeHeaders (header_map d) (headers response)) (res_body response)
  end.

Inductive CspMode : Type := enforce | report_only.
Record SecurityHeaderOptions : Type := mkSecurity { csp : option (string * CspMode); coep : option bool }.

Definition csp_header (m : CspMode) : string :=
  match m with report_only => "Content-Security-Policy-Report-Only" | enforce => "Content-Security-Policy" end.

Definition securityDefaults (base : option (JsMap string)) (o : SecurityHeaderOptions) : option (JsMap string) :=
  match base with
  | None => None
  | Some b =>
      let h := match csp o with Some (policy, mode) => map_set (csp_header mode) policy b | None => b end in
      Some (match coep o with Some true => map_set COEP_HEADER "require-corp" h | _ => h end)
  end.

Definition statusForError (error : JsThrown) : Z :=
  match error with
  | LestoError code =>
      if String.eqb code "RUNTIME_INVALID_JSON" then 400
      else if String.eqb code "RUNTIME_INVALID_REQUEST_TARGET" then 400
      else if String.eqb code "ROUTER_MALFORMED_PARAM" then 400
      else if String.eqb code "WEB_VALIDATION_FAILED" then 422
      else if String.eqb code "RUNTIME_BODY_TOO_LARGE" then 413
      else if String.eqb code "RUNTIME_HANDLER_TIMEOUT" then 503
      else if String.eqb code "CLOUDFLARE_DISPATCH_TIMEOUT" then 503
      else 500
  | OtherError => 500
  end.

Definition bodyForStatus (s : Z) : string :=
  if s =? 400 then "Bad Request" else if s =? 422 then "Unprocessable Entity" else if s =? 413 then "Payload Too Large"
  else if s =? 503 then "Service Unavailable" else "Internal Server Error".

(** * The request pipeline: what merging and layering guarantee

    A merged header map holds one entry for each name, whatever its casing, and what that
    entry holds depends only on the values given under the name, in order; every token of a
    [Vary] on either side is in the merged one. *)
#[local] Open Scope string_scope.
#[local] Open Scope nat_scope.
#[local] Open Scope list_scope.

Lemma filter_all {A} (p : A -> bool) l : (forall x, List.In x l -> p x = true) -> List.filter p l = l.
Proof. induction l as [|a l IH]; simpl; intros H; [done|]. rewrite (H a) by (by left). f_equal. auto. Qed.

(** ** Reading a header map *)

(** The values under a lower-case name, in order. *)
Definition values (n : string) (m : HeaderMap) : list HeaderValue :=
  map snd (List.filter (fun kv => String.eqb (toLowerCase kv.1) n) m).

(** The entries under a lower-case name. *)
Definition named (n : string) (m : HeaderMap) : HeaderMap := List.filter (fun kv => String.eqb (toLowerCase kv.1) n) m.

(** Two values under one name. *)
Definition join_values (n : string) (old value : HeaderValue) : HeaderValue :=
  if String.eqb n "set-cookie" then Many (asList old ++ asList value)
  else if String.eqb n "vary" then One (unionVary old value) else value.

(** What a name holds, given its values. *)
Definition held (n : string) (vs : list HeaderValue) : option HeaderValue :=
  match vs with [] => None | v :: vs' => Some (fold_left (join_values n) vs' v) end.

Lemma held_snoc n vs v : held n (vs ++ [v]) = Some (match held n vs with Some old => join_values n old v | None => v end).
Proof. destruct vs as [|w vs]; [done|]. simpl. by rewrite fold_left_app. Qed.

Lemma values_snoc n m k v : values n (m ++ [(k, v)]) = if String.eqb (toLowerCase k) n then values n m ++ [v] else values n m.
Proof. unfold values. rewrite List.filter_app, map_app. simpl. destruct (String.eqb _ n); simpl; [done|by rewrite app_nil_r]. Qed.

Lemma values_app n a b : values n (a ++ b) = values n a ++ values n b.
Proof. unfold values. by rewrite List.filter_app, map_app. Qed.

(** ** The chosen values *)

Lemma put_get ch k v n :
  map_get n (put ch (k, v)) =
  if String.eqb n (toLowerCase k)
  then Some (match map_get n ch with Some (key, old) => (key, join_values n old v) | None => (k, v) end)
  else map_get n ch.
Proof.
  unfold put. destruct (map_get (toLowerCase k) ch) as [[key old]|] eqn:E.
  - unfold join_values. destruct (String.eqb_spec n (toLowerCase k)) as [->|N].
    + rewrite E. repeat case_match; by rewrite map_get_set, String.eqb_refl.
    + repeat case_match; rewrite map_get_set; by rewrite (proj2 (String.eqb_neq _ _) N).
  - rewrite map_get_set. destruct (String.eqb_spec n (toLowerCase k)) as [->|N]; [by rewrite E|done].
Qed.

(** The chosen values, and the names they live under. *)
Record choice_ok (l : HeaderMap) (ch : Chosen) : Prop := {
  choice_keys : List.NoDup (map fst ch);
  choice_names : forall n key v, List.In (n, (key, v)) ch -> toLowerCase key = n;
  choice_held : forall n, option_map snd (map_get n ch) = held n (values n l)
}.

Lemma put_keys ch kv : List.NoDup (map fst ch) -> List.NoDup (map fst (put ch kv)).
Proof.
  destruct kv as [k v]. intros H. unfold put. destruct (map_get _ ch) as [[key old]|]; [|by apply map_set_NoDup].
  destruct (String.eqb _ "set-cookie"); [by apply map_set_NoDup|]. destruct (String.eqb _ "vary"); by apply map_set_NoDup.
Qed.

Lemma put_ok l ch k v : choice_ok l ch -> choice_ok (l ++ [(k, v)]) (put ch (k, v)).
Proof.
  intros [Hk Hn Hh]. pose proof (put_keys ch (k, v) Hk) as Hk'. split; [done| |].
  - intros n key w H. apply (map_get_In _ _ _ Hk') in H. rewrite put_get in H.
    destruct (String.eqb_spec n (toLowerCase k)) as [->|N].
    + destruct (map_get (toLowerCase k) ch) as [[key' old]|] eqn:E; injection H as <- <-; [|done].
      apply map_get_Some_In in E. by apply Hn in E.
    + apply map_get_Some_In in H. by apply Hn in H.
  - intros n. rewrite put_get, values_snoc, (String.eqb_sym (toLowerCase k)). destruct (String.eqb n (toLowerCase k)) eqn:E; [|apply Hh].
    rewrite held_snoc, <- Hh. by destruct (map_get n ch) as [[key old]|].
Qed.

Lemma chosen_ok under over : choice_ok (under ++ over) (chosen under over).
Proof.
  unfold chosen. rewrite <- fold_left_app. induction (under ++ over) as [|[k v] l IH] using rev_ind.
  - split; [constructor|by intros ? ? ? []|done].
  - rewrite fold_left_app. by apply put_ok.
Qed.

(** ** The merge *)

Lemma names_distinct (ch : Chosen) :
  List.NoDup (map fst ch) -> (forall n key v, List.In (n, (key, v)) ch -> toLowerCase key = n) ->
  List.NoDup (map toLowerCase (map fst (map snd (ch : list (string * (string * HeaderValue)))))).
Proof.
  intros Hn H. assert (map toLowerCase (map fst (map snd ch)) = map fst ch) as ->; [|done].
  rewrite !map_map. apply map_ext_in. intros [n [key v]] Hin. by eapply H.
Qed.

Lemma merged_entries under over : mergeHeaders under over = map snd (chosen under over).
Proof.
  destruct (chosen_ok under over) as [Hk Hn _]. unfold mergeHeaders. rewrite fold_set_fresh; [done|].
  simpl. apply NoDup_ListNoDup. eapply List.NoDup_map_inv. by apply names_distinct.
Qed.

Lemma named_merged under over n :
  named n (mergeHeaders under over) = match map_get n (chosen under over) with Some kv => [kv] | None => [] end.
Proof.
  rewrite merged_entries. destruct (chosen_ok under over) as [Hk Hn _]. unfold named.
  assert (forall ch : Chosen, (forall m key v, List.In (m, (key, v)) ch -> toLowerCase key = m) ->
            List.filter (fun kv => String.eqb (toLowerCase kv.1) n) (map snd ch) =
            map snd (List.filter (fun e => String.eqb (fst e) n) ch)) as F.
  { intros ch. induction ch as [|[m [key v]] ch IH]; intros H; [done|]. simpl. rewrite (H m key v) by (by left).
    rewrite IH; [by destruct (String.eqb m n)|]. intros. by eapply H; right. }
  rewrite F by done. clear F Hn. induction (chosen under over) as [|[m kv] ch IH]; [done|].
  inversion Hk as [|? ? Hm Hk']; subst. unfold map_get. simpl. destruct (String.eqb_spec m n) as [->|N]; [|by apply IH].
  simpl. f_equal. assert (List.filter (fun e : string * (string * HeaderValue) => String.eqb (fst e) n) ch = []) as ->; [|done].
  apply filter_none. intros [m w] Hin. apply String.eqb_neq. simpl. intros ->. apply Hm. change n with (fst (n, w)). by apply in_map.
Qed.

(** ** Vary *)

Lemma trim_start_head s : trim_start s = EmptyString \/ exists c t, trim_start s = String c t /\ is_space c = false.
Proof. induction s as [|c s IH]; simpl; [by left|]. destruct (is_space c) eqn:E; [exact IH|]. right. by exists c, s. Qed.

Lemma trim_end_twice s : trim_end (trim_end s) = trim_end s.
Proof.
  induction s as [|c s IH]; [done|]. simpl. destruct (trim_end s) as [|d t] eqn:E.
  - destruct (is_space c) eqn:Ec; [done|]. simpl. by rewrite Ec.
  - change (trim_end (String c (String d t))) with
      (match trim_end (String d t) with EmptyString => if is_space c then EmptyString else String c EmptyString | u => String c u end).
    by rewrite IH.
Qed.

Lemma trim_twice s : trim (trim s) = trim s.
Proof.
  unfold trim. destruct (trim_start_head s) as [E|(c & t & E & Hc)]; rewrite E; [done|].
  assert (exists u, trim_end (String c t) = String c u) as [u Eu].
  { simpl. destruct (trim_end t); [rewrite Hc|]; by eexists. }
  rewrite Eu. replace (trim_start (String c u)) with (String c u) by (simpl; by rewrite Hc). rewrite <- Eu. apply trim_end_twice.
Qed.

Lemma trim_space s : trim (String " " s) = trim s.
Proof. done. Qed.

Lemma trim_end_no c s : has_char c s = false -> has_char c (trim_end s) = false.
Proof.
  induction s as [|d s IH]; simpl; [done|]. intros [Hd Hs]%orb_false_iff. specialize (IH Hs).
  destruct (trim_end s) as [|e t]; [destruct (is_space d); simpl; [done|by rewrite Hd]|]. simpl in *. by rewrite Hd, IH.
Qed.

Lemma trim_start_no c s : has_char c s = false -> has_char c (trim_start s) = false.
Proof. induction s as [|d s IH]; simpl; [done|]. intros [Hd Hs]%orb_false_iff. destruct (is_space d); [auto|]. simpl. by rewrite Hd, Hs. Qed.

(** A token as [varyTokens] gives them. *)
Definition token (t : string) : Prop := trim t = t /\ t <> EmptyString /\ has_char "," t = false.

Lemma varyTokens_token v : List.Forall token (varyTokens v).
Proof.
  unfold varyTokens. apply List.Forall_forall. intros t [Ht Hne]%filter_In. apply negb_true_iff, String.eqb_neq in Hne.
  apply in_map_iff in Ht as (p & <- & Hp). apply in_flat_map in Hp as (x & _ & Hp). pose proof (split_parts "," x) as F.
  rewrite Forall_forall in F. specialize (F p). rewrite list_elem_of_In in F. split; [apply trim_twice|]. split; [done|].
  apply trim_end_no, trim_start_no. by apply F.
Qed.

Lemma split_space s p ps : split "," s = p :: ps -> split "," (String " " s) = String " " p :: ps.
Proof. intros E. simpl. by rewrite E. Qed.

Lemma trim_split_join ts :
  ts <> [] -> List.Forall token ts -> map trim (split "," (join ", " ts)) = ts.
Proof.
  intros Hn H. induction H as [|t ts (Ht & _ & Hc) Hts IH]; [done|]. destruct ts as [|t' ts].
  - simpl. rewrite split_none by done. simpl. by rewrite Ht.
  - change (join ", " (t :: t' :: ts)) with (String.append t (String "," (String " " (join ", " (t' :: ts))))).
    rewrite split_app by done. destruct (split_cons "," (join ", " (t' :: ts))) as (p & ps & E).
    rewrite (split_space _ _ _ E). rewrite E in IH. cbn [map] in *. rewrite trim_space, Ht. f_equal. by apply IH.
Qed.

Lemma tokens_join ts : List.Forall token ts -> varyTokens (One (join ", " ts)) = ts.
Proof.
  intros H. unfold varyTokens. cbn [asList flat_map]. rewrite app_nil_r. destruct ts as [|t ts]; [done|].
  rewrite trim_split_join by done. apply filter_all. intros x Hx. rewrite List.Forall_forall in H.
  apply negb_true_iff, String.eqb_neq. by apply H.
Qed.

(** The tokens seen are the tokens given, by lower-case name. *)
Lemma see_tokens ts seen :
  List.NoDup (map fst seen) -> (forall n t, List.In (n, t) seen -> toLowerCase t = n) -> List.Forall token (map snd seen) -> List.Forall token ts ->
  let seen' := fold_left see_token ts seen in
  List.Forall token (map snd seen') /\
  forall n, List.In n (map toLowerCase (map snd seen')) <-> List.In n (map toLowerCase (map snd seen)) \/ List.In n (map toLowerCase ts).
Proof.
  revert seen. induction ts as [|t ts IH]; intros seen Hn Hl Ht Hts; cbn [fold_left]; [simpl; split; [done|tauto]|].
  inversion Hts as [|? ? Ht1 Hts']; subst. unfold see_token at 2 4. destruct (map_get (toLowerCase t) seen) as [u|] eqn:E.
  - destruct (IH seen Hn Hl Ht Hts') as [I1 I2]. split; [done|]. intros n. rewrite I2. simpl. apply map_get_Some_In in E.
    assert (List.In (toLowerCase t) (map toLowerCase (map snd seen))) by (rewrite <- (Hl _ _ E); apply in_map; exact (in_map snd seen (toLowerCase t, u) E)).
    naive_solver.
  - assert (toLowerCase t ∉ map fst seen) as Hf.
    { rewrite list_elem_of_In, in_map_iff. intros ([n u] & En & Hin). simpl in En. subst n. by destruct (map_get_None _ _ E u). }
    rewrite map_set_absent by done. destruct (IH (seen ++ [(toLowerCase t, t)])) as [I1 I2].
    + rewrite map_app. simpl. apply NoDup_ListNoDup, NoDup_app. rewrite NoDup_ListNoDup. split; [done|]. split; [|apply NoDup_singleton].
      intros x Hx ->%list_elem_of_singleton. done.
    + intros n u [H|[[= <- <-]|[]]]%in_app_iff; [by apply Hl|done].
    + rewrite map_app. apply List.Forall_app. split; [done|]. simpl. by constructor.
    + done.
    + split; [done|]. intros n. rewrite I2, !map_app, in_app_iff. simpl. tauto.
Qed.

(** The lower-case tokens of the [Vary] headers of a map. *)
Definition varies_on (m : HeaderMap) : list string := map toLowerCase (flat_map varyTokens (values "vary" m)).

Lemma unionVary_tokens a b n :
  List.In n (map toLowerCase (varyTokens (One (unionVary a b)))) <->
  List.In n (map toLowerCase (varyTokens a)) \/ List.In n (map toLowerCase (varyTokens b)).
Proof.
  pose proof (see_tokens (varyTokens a ++ varyTokens b) [] ltac:(constructor) ltac:(by intros ? ? []) ltac:(constructor)
                ltac:(apply List.Forall_app; split; apply varyTokens_token)) as [H1 H2].
  unfold unionVary. rewrite tokens_join by done. rewrite H2, map_app, in_app_iff. simpl. tauto.
Qed.

Lemma flat_map_cons {A B} (f : A -> list B) a l : flat_map f (a :: l) = f a ++ flat_map f l.
Proof. done. Qed.

Lemma varies_held vs n :
  List.In n (map toLowerCase (flat_map varyTokens (option_list (held "vary" vs)))) <->
  List.In n (map toLowerCase (flat_map varyTokens vs)).
Proof.
  destruct vs as [|v vs]; [done|]. change (option_list (held "vary" (v :: vs))) with [fold_left (join_values "vary") vs v]. revert v.
  induction vs as [|w vs IH]; intros v; cbn [fold_left]; [done|].
  change (join_values "vary" v w) with (One (unionVary v w)). rewrite IH, !flat_map_cons.
  rewrite !map_app, !in_app_iff, unionVary_tokens. tauto.
Qed.

Lemma values_merged under over n : values n (mergeHeaders under over) = option_list (held n (values n under ++ values n over)).
Proof.
  unfold values at 1. fold (named n (mergeHeaders under over)). rewrite named_merged.
  destruct (chosen_ok under over) as [_ _ Hh]. rewrite <- values_app, <- Hh. by destruct (map_get n _).
Qed.

Lemma varies_merged under over n :
  List.In n (varies_on (mergeHeaders under over)) <-> List.In n (varies_on under) \/ List.In n (varies_on over).
Proof. unfold varies_on. by rewrite values_merged, varies_held, flat_map_app, map_app, in_app_iff. Qed.

(** Fact: merging headers loses and doubles nothing: the merged map has one entry for each
    name, whatever casings the two layers used; what it holds is the last value given,
    except that cookies accumulate in order and [Vary] is the union of the tokens of both
    layers, under any casing: no layer can drop another's. *)
Theorem merge_by_name (under over : HeaderMap) :
  List.NoDup (map toLowerCase (map fst (mergeHeaders under over))) /\
  (forall n, values n (mergeHeaders under over) = option_list (held n (values n under ++ values n over))) /\
  (forall n, n <> "set-cookie" -> n <> "vary" ->
     values n (mergeHeaders under over) = option_list (last (values n under ++ values n over))) /\
  flat_map asList (values "set-cookie" (mergeHeaders under over)) = flat_map asList (values "set-cookie" under ++ values "set-cookie" over) /\
  (forall t, List.In t (varies_on (mergeHeaders under over)) <-> List.In t (varies_on under) \/ List.In t (varies_on over)).
Proof.
  split; [rewrite merged_entries; destruct (chosen_ok under over); by apply names_distinct|].
  split; [intros n; apply values_merged|]. split; [|split; [|intros t; apply varies_merged]].
  - intros n N1 N2. rewrite values_merged. generalize (values n under ++ values n over). intros vs.
    destruct vs as [|v vs _] using rev_ind; [done|]. rewrite last_snoc, held_snoc. unfold join_values.
    apply String.eqb_neq in N1, N2. rewrite N1, N2. by destruct (held n vs).
  - rewrite values_merged. generalize (values "set-cookie" under ++ values "set-cookie" over). intros vs.
    induction vs as [|v vs IH] using rev_ind; [done|]. rewrite held_snoc, flat_map_app, <- IH. unfold join_values. simpl.
    destruct (held "set-cookie" vs); simpl; by rewrite !app_nil_r.
Qed.
