(* ===== verification/Csrf.v ===== *)
(** * Cross-site request forgery

    [packages/csrf/src]: the session-bound double-submit token ([token.ts], [issue.ts],
    [cookie.ts]), the middleware that demands it ([middleware.ts]) and the origin check
    ([origin.ts]). *)
From S2P Require Import Prelude JsString JsMap NodeCrypto Web.
#[local] Open Scope string_scope.
#[local] Open Scope Z_scope.

(** ** Tokens *)

Definition SEPARATOR : ascii := ".".
Definition BINDING_DELIMITER : ascii := "000".
Definition MIN_SECRET_BYTES : Z := 32.

Definition assertStrongSecret (secret : string) : outcome JsThrown unit :=
  if byteLength secret <? MIN_SECRET_BYTES then Throw (LestoError "CSRF_WEAK_SECRET") else Ok tt.

Section Tokens.
Context `{Crypto}.

Definition sign (nonce sessionId secret : string) : string := hmac_hex (nonce ++ String BINDING_DELIMITER sessionId) secret.

(** [generateToken], given the 16 random bytes it draws. *)
Definition generateToken (nonceBytes : list Z) (sessionId secret : string) : outcome JsThrown string :=
  let! _ := assertStrongSecret secret in
  let nonce := toHex nonceBytes in
  Ok (nonce ++ String SEPARATOR (sign nonce sessionId secret)).

Definition verifyToken (token sessionId secret : string) : bool :=
  match split SEPARATOR token with
  | [nonce; signature] => same_bytes signature (sign nonce sessionId secret)
  | _ => false
  end.

(** ** Issuance *)

Definition CSRF_COOKIE : string := "csrf_token".

Definition companionCookie (name value : string) : string := name ++ "=" ++ value ++ "; Path=/; Secure; SameSite=Strict".

Record IssuedCsrfToken : Type := mkIssued { token : string; cookie : string }.

Definition csrfToken (nonceBytes : list Z) (sessionId secret : string) (cookieName : option string) : outcome JsThrown IssuedCsrfToken :=
  let! t := generateToken nonceBytes sessionId secret in
  Ok (mkIssued t (companionCookie (default CSRF_COOKIE cookieName) t)).
End Tokens.

(** ** A form body *)

(** [+] is a space; [%XY] is a byte; anything else stands for itself. *)
Fixpoint percent_decode (bytes : list Z) : list Z :=
  match bytes with
  | [] => []
  | b :: rest =>
      let other := (if b =? 43 then 32 else b) :: percent_decode rest in
      if b =? 37 then
        match rest with
        | x :: y :: rest' =>
            match hex_value (ascii_of_nat (Z.to_nat x)), hex_value (ascii_of_nat (Z.to_nat y)) with
            | Some h, Some l => 16 * h + l :: percent_decode rest'
            | _, _ => other
            end
        | _ => other
        end
      else other
  end.

Section Form.
Context `{TextDecoder}.

Definition decode_component (s : string) : string := utf8_decode (percent_decode (utf8 s)).

(** [new URLSearchParams(body)]: the pairs of the parts that are not empty. *)
Definition form_pairs (body : string) : list (string * string) :=
  let text := if startsWith "?" body then drop_chars 1 body else body in
  map (fun part => match cut "=" part with
                   | Some (name, value) => (decode_component name, decode_component value)
                   | None => (decode_component part, EmptyString)
                   end)
      (List.filter (fun part => negb (String.eqb part EmptyString)) (split "&" text)).

(** [.get(name)]: the first value under the name. *)
Definition form_get (name body : string) : option string :=
  option_map snd (List.find (fun kv => String.eqb (fst kv) name) (form_pairs body)).

Definition TOKEN_HEADER : string := "x-csrf-token".
Definition TOKEN_FIELD : string := "_csrf".

Definition nonempty (s : string) : bool := negb (String.eqb s EmptyString).

Definition defaultExtractToken (request : Request) : option string :=
  match (match map_get TOKEN_HEADER (req_headers request) with Some h => if nonempty h then Some h else None | None => None end) with
  | Some h => Some h
  | None =>
      match req_body request with
      | BodyText s => match form_get TOKEN_FIELD s with Some f => if nonempty f then Some f else None | None => None end
      | BodyOther => None
      end
  end.
End Form.

(** ** The middleware *)

Definition FORBIDDEN : Z := 403.
Definition CSRF_DENIED_KIND : string := "csrf_token_invalid".
Definition DEFAULT_GUARDED_METHODS : list string := ["POST"; "PUT"; "PATCH"; "DELETE"].

Definition forbidden : Response := mkResponse FORBIDDEN [("content-type", One "text/plain")] "Forbidden".

(** An audit hook: it may do anything that leaves no response, and may reject. *)
Definition Hook : Type := string -> Request -> Run unit.

Record CsrfOptions : Type := mkCsrf {
  secret : string;
  sessionFor : Request -> string;
  extractToken : option (Request -> option string);
  methods : option (list string);
  onDenied : option Hook
}.

Definition includes (l : list string) (s : string) : bool := existsb (String.eqb s) l.

(** Reporting a refusal, then answering it. *)
Definition deny (hook : option Hook) (kind : string) (request : Request) : Run Response :=
  match hook with
  | Some h => and_then (h kind request) (fun _ => resolve forbidden)
  | None => resolve forbidden
  end.

Section Guards.
Context `{Crypto} `{TextDecoder}.

Definition csrf (options : CsrfOptions) : outcome JsThrown Middleware :=
  let! _ := assertStrongSecret (secret options) in
  let guarded := default DEFAULT_GUARDED_METHODS (methods options) in
  let extract := default defaultExtractToken (extractToken options) in
  Ok (fun request next =>
        if negb (includes guarded (method request)) then next tt
        else
          let ok := match extract request with
                    | Some t => verifyToken t (sessionFor options request) (secret options)
                    | None => false
                    end in
          if negb ok then deny (onDenied options) CSRF_DENIED_KIND request else next tt).
End Guards.

(** ** The origin check *)

Definition CROSS_SITE : string := "cross-site".
Definition SAME_ORIGIN : string := "same-origin".
Definition ORIGIN_DENIED_KIND : string := "origin_cross_site".
Definition ORIGIN_STRICT_DENIED_KIND : string := "origin_not_same_origin".

Record OriginCheckOptions : Type := mkOriginCheck {
  allowedOrigins : option (list string);
  oc_methods : option (list string);
  allowNoOrigin : option bool;
  strict : option bool;
  oc_onDenied : option Hook
}.

Definition originCheck (options : OriginCheckOptions) : Middleware := fun request next =>
  let guarded := default DEFAULT_GUARDED_METHODS (oc_methods options) in
  let allowed := map toLowerCase (default [] (allowedOrigins options)) in
  let refuse kind := deny (oc_onDenied options) kind request in
  if negb (includes guarded (method request)) then next tt
  else
    match map_get "sec-fetch-site" (req_headers request) with
    | Some site =>
        let value := toLowerCase site in
        if default false (strict options) then
          if String.eqb value SAME_ORIGIN then next tt else refuse ORIGIN_STRICT_DENIED_KIND
        else if String.eqb value CROSS_SITE then refuse ORIGIN_DENIED_KIND else next tt
    | None =>
        match map_get "origin" (req_headers request) with
        | Some origin => if includes allowed (toLowerCase origin) then next tt else refuse ORIGIN_DENIED_KIND
        | None => if default false (allowNoOrigin options) then next tt else refuse ORIGIN_DENIED_KIND
        end
    end.
