(* ===== verification/CsrfProps.v ===== *)
(** * Cross-site request forgery: what the guards let through

    A minted token verifies for its session and, short of a collision of the hash, for no
    other; the page that resubmits it is let through, by header or by form; and a guarded
    pipeline never dispatches a state-changing request that the token check or the origin
    check does not vouch for. *)
From S2P Require Import Prelude JsString JsMap Base64 NodeCrypto Web Csrf.
#[local] Open Scope string_scope.
#[local] Open Scope list_scope.

(** ** Tokens *)

Section Tokens.
Context `{CryptoLaws}.

Lemma minted_parts nonceBytes sessionId secret t :
  List.Forall is_byte nonceBytes -> generateToken nonceBytes sessionId secret = Ok t ->
  split SEPARATOR t = [toHex nonceBytes; sign (toHex nonceBytes) sessionId secret].
Proof.
  intros Hb. unfold generateToken. destruct (assertStrongSecret secret); [|done]. cbn [outcome_bind]. intros [= <-].
  rewrite split_app by (by apply hex_no_char). by rewrite split_none by (by apply hmac_hex_no).
Qed.

Lemma minted_verifies nonceBytes sessionId secret t :
  List.Forall is_byte nonceBytes -> generateToken nonceBytes sessionId secret = Ok t -> verifyToken t sessionId secret = true.
Proof. intros Hb E. unfold verifyToken. rewrite (minted_parts _ _ _ _ Hb E). by apply same_bytes_eq. Qed.

Lemma bound_payload nonce s s' :
  String.append nonce (String BINDING_DELIMITER s) = String.append nonce (String BINDING_DELIMITER s') -> s = s'.
Proof. induction nonce as [|c n IH]; simpl; intros [= E]; auto. Qed.

(** A token tells its sessions apart, or the hash collides. *)
Lemma minted_binds nonceBytes sessionId sessionId' secret t :
  List.Forall is_byte nonceBytes -> generateToken nonceBytes sessionId secret = Ok t -> verifyToken t sessionId' secret = true ->
  sessionId' = sessionId \/ exists m m', collision (utf8 secret) m m'.
Proof.
  intros Hb E V. unfold verifyToken in V. rewrite (minted_parts _ _ _ _ Hb E) in V. apply same_bytes_eq in V.
  apply hmac_hex_binds in V as [V|V]; [left; symmetry; by eapply bound_payload|right; eauto].
Qed.
End Tokens.

(** ** Forms *)

Definition plain_char (c : ascii) : bool := is_hex_char c || Ascii.eqb c SEPARATOR.

Lemma plain_chars_ok :
  forallb (fun n => let c := ascii_of_nat n in
    negb (plain_char c) || (Nat.ltb n 128 && negb (Nat.eqb n 43) && negb (Nat.eqb n 37))) (List.seq 0 256) = true.
Proof. vm_compute. reflexivity. Qed.

Lemma plain_char_byte c :
  plain_char c = true -> (nat_of_ascii c < 128)%nat /\ nat_of_ascii c <> 43%nat /\ nat_of_ascii c <> 37%nat.
Proof.
  intros Hc. pose proof plain_chars_ok as F. rewrite forallb_forall in F. specialize (F (nat_of_ascii c)).
  cbv zeta in F. rewrite ascii_nat_embedding, Hc in F. cbn [negb orb] in F. pose proof (nat_ascii_bounded c) as B.
  rewrite !andb_true_iff, !negb_true_iff, !Nat.eqb_neq, Nat.ltb_lt in F. destruct F as [[F1 F2] F3]; [apply in_seq; lia|]. done.
Qed.

Lemma percent_decode_plain s : all_chars plain_char s = true -> percent_decode (utf8 s) = utf8 s.
Proof.
  induction s as [|c s IH]; [done|]. cbn [all_chars]. intros [Hc Hs]%andb_true_iff. destruct (plain_char_byte c Hc) as (H1 & H2 & H3).
  cbn [utf8]. replace (Z.of_nat (nat_of_ascii c) <? 128)%Z with true by (symmetry; apply Z.ltb_lt; lia).
  cbn [percent_decode]. replace (Z.of_nat (nat_of_ascii c) =? 37)%Z with false by (symmetry; apply Z.eqb_neq; lia).
  replace (Z.of_nat (nat_of_ascii c) =? 43)%Z with false by (symmetry; apply Z.eqb_neq; lia). by rewrite IH.
Qed.

Section Form.
Context `{TextDecoderLaw}.

Lemma decode_plain s : all_chars plain_char s = true -> decode_component s = s.
Proof. intros Hs. unfold decode_component. rewrite percent_decode_plain by done. apply decode_utf8. Qed.

Lemma decode_field : decode_component TOKEN_FIELD = TOKEN_FIELD.
Proof. unfold decode_component. change (percent_decode (utf8 TOKEN_FIELD)) with (utf8 TOKEN_FIELD). apply decode_utf8. Qed.

(** A part of a form body, for another field. *)
Definition other_field (part : string) : Prop :=
  has_char "&" part = false /\
  match cut "=" part with Some (name, _) => decode_component name <> TOKEN_FIELD | None => decode_component part <> TOKEN_FIELD end.

Lemma form_get_token before after t :
  List.Forall other_field before -> List.Forall other_field after -> all_chars plain_char t = true ->
  startsWith "?" (join "&" (before ++ [String.append "_csrf=" t] ++ after)) = false ->
  form_get TOKEN_FIELD (join "&" (before ++ [String.append "_csrf=" t] ++ after)) = Some t.
Proof.
  intros Hb Ha Ht Hq. pose proof decode_field as Hd. unfold form_get, form_pairs. rewrite Hq. change "&"%string with (String "&" EmptyString).
  assert (has_char "&" (String.append "_csrf=" t) = false) as Hamp.
  { rewrite has_char_app. apply orb_false_iff. split; [done|]. rewrite has_char_all. apply negb_false_iff.
    eapply all_chars_impl; [|exact Ht]. intros c Hc. apply negb_true_iff, Ascii.eqb_neq. by intros ->. }
  rewrite split_join.
  2: { by destruct before. }
  2: { apply Forall_forall. intros p. rewrite list_elem_of_In, !in_app_iff. rewrite List.Forall_forall in Hb, Ha.
       intros [Hp|[[<-|[]]|Hp]]; [by apply Hb|done|by apply Ha]. }
  rewrite List.filter_app, map_app. clear Hq Ha. induction Hb as [|part before [_ Hp] Hb IH]; cbn [List.filter map app List.find].
  - replace (String.eqb (String.append "_csrf=" t) EmptyString) with false by done. cbn [negb map app List.find].
    replace (cut "=" (String.append "_csrf=" t)) with (Some (TOKEN_FIELD, t)) by done. cbn [fst].
    rewrite Hd, String.eqb_refl. cbn [option_map snd]. by rewrite decode_plain.
  - destruct (String.eqb part EmptyString); cbn [negb]; [exact IH|]. cbn [map app List.find].
    destruct (cut "=" part) as [[name value]|]; cbn [fst]; (rewrite (proj2 (String.eqb_neq _ _) Hp)); exact IH.
Qed.
End Form.

(** ** The guards *)

(** A layer that only delegates dispatches only through its [next]. *)
Definition delegates (layer : Middleware) : Prop :=
  forall request next, List.In Dispatched (layer request next).1 -> List.In Dispatched (next tt).1.

Definition quiet (hook : option Hook) : Prop :=
  match hook with Some h => forall kind request, ~ List.In Dispatched (h kind request).1 | None => True end.

Lemma deny_quiet hook kind request : quiet hook -> ~ List.In Dispatched (deny hook kind request).1.
Proof.
  destruct hook as [h|]; simpl; [|tauto]. intros Q. specialize (Q kind request). unfold and_then.
  destruct (h kind request) as [events [u|e]]; simpl in *; [by rewrite app_nil_r|exact Q].
Qed.

Lemma pipeline_delegates layers request dispatch :
  List.Forall delegates layers -> List.In Dispatched (runPipeline layers request dispatch).1 -> List.In Dispatched (dispatch tt).1.
Proof.
  unfold runPipeline, chain. induction 1 as [|layer layers Hl _ IH]; [done|]. simpl. intros D. apply Hl in D. auto.
Qed.

Lemma pipeline_app l l' request dispatch : runPipeline (l ++ l') request dispatch = runPipeline l request (chain l' request dispatch).
Proof. unfold runPipeline, chain. by rewrite fold_right_app. Qed.

(** A layer in the way of the dispatch. *)
Lemma layer_in_the_way before after (layer : Middleware) request dispatch :
  List.Forall delegates before -> List.In Dispatched (runPipeline (before ++ layer :: after) request dispatch).1 ->
  List.In Dispatched (layer request (chain after request dispatch)).1.
Proof. intros Hb. rewrite pipeline_app. by apply pipeline_delegates. Qed.

(** What the origin check takes for evidence. *)
Definition vouched (o : OriginCheckOptions) (request : Request) : Prop :=
  match map_get "sec-fetch-site" (req_headers request) with
  | Some site =>
      if default false (strict o) then toLowerCase site = SAME_ORIGIN else toLowerCase site <> CROSS_SITE
  | None =>
      match map_get "origin" (req_headers request) with
      | Some origin => exists a, List.In a (default [] (allowedOrigins o)) /\ toLowerCase a = toLowerCase origin
      | None => allowNoOrigin o = Some true
      end
  end.

Lemma includes_In l s : includes l s = true <-> List.In s l.
Proof.
  unfold includes. rewrite existsb_exists. split; [by intros (x & Hx & ->%String.eqb_eq)|]. intros Hs. exists s. split; [done|by apply String.eqb_refl].
Qed.

Lemma originCheck_cases o request next :
  (includes (default DEFAULT_GUARDED_METHODS (oc_methods o)) (method request) = false \/ vouched o request) /\ originCheck o request next = next tt \/
  (~ vouched o request /\ exists kind, originCheck o request next = deny (oc_onDenied o) kind request).
Proof.
  unfold originCheck, vouched. destruct (includes _ (method request)); cbn [negb]; [|by left; split; [left|]].
  destruct (map_get "sec-fetch-site" _) as [site|].
  - destruct (default false (strict o)).
    + destruct (String.eqb_spec (toLowerCase site) SAME_ORIGIN); [left|right]; eauto.
    + destruct (String.eqb_spec (toLowerCase site) CROSS_SITE) as [->|]; [right|left]; eauto.
  - destruct (map_get "origin" _) as [origin|].
    + destruct (includes _ (toLowerCase origin)) eqn:E.
      * apply includes_In, in_map_iff in E as (a & Ea & Ha). left. split; [right; by exists a|done].
      * right. split; [|eauto]. intros (a & Ha & Ea). enough (includes (map toLowerCase (default [] (allowedOrigins o))) (toLowerCase origin) = true) by congruence.
        apply includes_In. rewrite <- Ea. by apply in_map.
    + destruct (allowNoOrigin o) as [[]|]; cbn [default from_option id]; [left|right|right]; eauto; by split; [|eauto].
Qed.

Section Guards.
Context `{CryptoLaws} `{TextDecoderLaw}.

(** What the token check takes for evidence. *)
Definition carries_token (o : CsrfOptions) (request : Request) : Prop :=
  exists t, default defaultExtractToken (extractToken o) request = Some t /\ verifyToken t (sessionFor o request) (secret o) = true.

Lemma csrf_cases o layer request next :
  csrf o = Ok layer ->
  (includes (default DEFAULT_GUARDED_METHODS (methods o)) (method request) = false \/ carries_token o request) /\ layer request next = next tt \/
  (~ carries_token o request /\ layer request next = deny (onDenied o) CSRF_DENIED_KIND request).
Proof.
  unfold csrf. destruct (assertStrongSecret _); [|done]. cbn [outcome_bind]. intros [= <-].
  destruct (includes _ (method request)); cbn [negb]; [|by left; split; [left|]]. unfold carries_token.
  destruct (default defaultExtractToken (extractToken o) request) as [t|]; cbn [negb].
  - destruct (verifyToken t _ _) eqn:V; cbn [negb]; [left; split; [right; by exists t|done]|right].
    split; [|done]. intros (t' & [= <-] & V'). congruence.
  - right. split; [|done]. by intros (t' & ? & _).
Qed.
End Guards.

(** C10: a guarded pipeline never dispatches a forgery: whatever other layers stand around
    the token check and the origin check, so long as they reach the application only through
    their [next], a request with a guarded method is dispatched only when it carries a token
    that verifies for its session, and only when its origin is vouched for; a refusal is
    the 403 after the report. *)
Theorem guarded_dispatch `{Crypto} `{TextDecoder} (o : CsrfOptions) (oo : OriginCheckOptions) (layer : Middleware)
    (before between after : list Middleware) (request : Request) (dispatch : Next) :
  csrf o = Ok layer -> quiet (onDenied o) -> quiet (oc_onDenied oo) ->
  List.Forall delegates before -> List.Forall delegates between ->
  List.In Dispatched (runPipeline (before ++ originCheck oo :: between ++ layer :: after) request dispatch).1 ->
  (includes (default DEFAULT_GUARDED_METHODS (oc_methods oo)) (method request) = true -> vouched oo request) /\
  (includes (default DEFAULT_GUARDED_METHODS (methods o)) (method request) = true -> carries_token o request).
Proof.
  intros E Q1 Q2 Hb Hm D. apply layer_in_the_way in D; [|done].
  destruct (originCheck_cases oo request (chain (between ++ layer :: after) request dispatch)) as [[V Eq]|(_ & kind & Eq)];
    rewrite Eq in D; [|by apply deny_quiet in D]. split; [intros G; destruct V; congruence|]. intros G.
  apply layer_in_the_way in D; [|done].
  destruct (csrf_cases o layer request (chain after request dispatch) E) as [[W Eq']|(_ & Eq')];
    rewrite Eq' in D; [|by apply deny_quiet in D]. destruct W; congruence.
Qed.

(** Fact: the double submit works, for its own session only: a token issued to a page passes
    the check when the page resubmits it, in the header or among the fields of a form; and
    for any session it verifies for, that session is the one it was issued to, or the hash
    has a collision. *)
Theorem issued_token_admits `{CryptoLaws} `{TextDecoderLaw} (o : CsrfOptions) (layer : Middleware) (nonceBytes : list Z)
    (cookieName : option string) (issued : IssuedCsrfToken) (sid : string) (request : Request) (before after : list string) :
  csrf o = Ok layer -> extractToken o = None -> List.Forall is_byte nonceBytes ->
  csrfToken nonceBytes sid (secret o) cookieName = Ok issued ->
  (map_get TOKEN_HEADER (req_headers request) = Some (token issued) \/
   map_get TOKEN_HEADER (req_headers request) = None /\
   List.Forall other_field before /\ List.Forall other_field after /\
   req_body request = BodyText (join "&" (before ++ [String.append "_csrf=" (token issued)] ++ after)) /\
   startsWith "?" (join "&" (before ++ [String.append "_csrf=" (token issued)] ++ after)) = false) ->
  (sessionFor o request = sid -> forall next, layer request next = next tt) /\
  (carries_token o request -> sessionFor o request = sid \/ exists m m', collision (utf8 (secret o)) m m').
Proof.
  intros E Hx Hb Ei Hr. unfold csrfToken in Ei. destruct (generateToken nonceBytes sid (secret o)) as [t|] eqn:G; [|done].
  cbn [outcome_bind] in Ei. injection Ei as <-. cbn [token] in Hr.
  assert (t <> EmptyString /\ all_chars plain_char t = true) as [Hne Hp].
  { pose proof G as G'. unfold generateToken in G'. destruct (assertStrongSecret _); [|done]. cbn [outcome_bind] in G'. injection G' as <-.
    split; [by destruct (toHex nonceBytes)|]. rewrite all_chars_app. cbn [all_chars]. unfold sign, hmac_hex.
    assert (forall bs, List.Forall is_byte bs -> all_chars plain_char (toHex bs) = true) as P.
    { intros bs Hbs. eapply all_chars_impl; [|by apply toHex_chars]. intros c Hc. unfold plain_char. by rewrite Hc. }
    rewrite !P; [done|apply hmac_sha256_bytes|done]. }
  assert (default defaultExtractToken (extractToken o) request = Some t) as Ex.
  { rewrite Hx. cbn [default from_option id]. unfold defaultExtractToken. destruct Hr as [->|(-> & Hbe & Ha & -> & Hq)].
    - unfold nonempty. by rewrite (proj2 (String.eqb_neq _ _) Hne).
    - rewrite form_get_token by done. unfold nonempty. by rewrite (proj2 (String.eqb_neq _ _) Hne). }
  split.
  - intros Es next. destruct (csrf_cases o layer request next E) as [[_ Eq]|(N & _)]; [done|]. destruct N.
    exists t. split; [done|]. rewrite Es. by eapply minted_verifies.
  - intros (t' & Et & V). rewrite Ex in Et. injection Et as <-. by eapply minted_binds.
Qed.

(** The evidence of the strict check is evidence for the default one. *)
Lemma strict_vouches o request :
  strict o = Some true -> vouched o request ->
  vouched (mkOriginCheck (allowedOrigins o) (oc_methods o) (allowNoOrigin o) None (oc_onDenied o)) request.
Proof.
  unfold vouched. intros ->. cbn. destruct (map_get "sec-fetch-site" _); [|done]. intros ->. done.
Qed.

(** Fact: the default check lets an unrecognized [Sec-Fetch-Site] through, with an [Origin]
    that is not ours beside it, where the module says that everything ambiguous is refused. *)
Theorem unknown_fetch_site_passes :
  let o := mkOriginCheck (Some ["https://app.example.com"%string]) None None None None in
  let request := mkRequest "POST" "/transfer" [("sec-fetch-site", "unknown"); ("origin", "https://evil.example")]%string BodyOther in
  forall next, originCheck o request next = next tt.
Proof. intros o request next. reflexivity. Qed.

(** ** An example *)

Lemma decode_latin_law : @TextDecoderLaw decode_latin.
Proof. exact decode_latin_utf8. Qed.

#[local] Existing Instance toy_crypto.
#[local] Existing Instance toy_crypto_laws.
#[local] Instance latin_decoder : TextDecoder := decode_latin.
#[local] Existing Instance decode_latin_law.

Definition a_secret : string := "0123456789abcdef0123456789abcdef".
Definition a_session (request : Request) : string := default EmptyString (map_get "cookie" (req_headers request)).
Definition csrf_options : CsrfOptions := mkCsrf a_secret a_session None None None.
Definition csrf_layer : Middleware := match csrf csrf_options with Ok l => l | Throw _ => fun _ next => next tt end.
Definition origin_options : OriginCheckOptions := mkOriginCheck None None None (Some true) None.
Definition some_bytes : list Z := [7; 8; 9]%Z.
Definition an_issue : IssuedCsrfToken :=
  match csrfToken some_bytes "s1" a_secret None with Ok i => i | Throw _ => mkIssued EmptyString EmptyString end.
Definition a_post : Request :=
  mkRequest "POST" "/notes" [("cookie", "s1"); ("sec-fetch-site", "same-origin"); ("x-csrf-token", token an_issue)]%string BodyOther.
Definition a_form : Request :=
  mkRequest "POST" "/notes" [("cookie", "s1")]%string (BodyText (join "&" (["title=a"%string] ++ [String.append "_csrf=" (token an_issue)] ++ []))).
Definition dispatched : Next := fun _ => ([Dispatched], Ok (mkResponse 200 [] "ok")).

Lemma guarded_dispatch_witness :
  List.In Dispatched (runPipeline ([] ++ originCheck origin_options :: [] ++ csrf_layer :: []) a_post dispatched).1 /\
  vouched origin_options a_post /\ carries_token csrf_options a_post.
Proof.
  assert (List.In Dispatched (runPipeline ([] ++ originCheck origin_options :: [] ++ csrf_layer :: []) a_post dispatched).1) as D
    by (vm_compute; tauto).
  split; [exact D|].
  destruct (guarded_dispatch csrf_options origin_options csrf_layer [] [] [] a_post dispatched eq_refl I I
              (List.Forall_nil _) (List.Forall_nil _) D) as [V W].
  split; [by apply V|by apply W].
Defined.

Lemma issued_token_admits_witness :
  csrfToken some_bytes "s1" a_secret None = Ok an_issue /\ forall next, csrf_layer a_form next = next tt.
Proof.
  split; [reflexivity|].
  apply (issued_token_admits csrf_options csrf_layer some_bytes None an_issue "s1" a_form ["title=a"%string] []); try reflexivity.
  - repeat constructor; unfold is_byte; lia.
  - right. split; [reflexivity|]. split; [|split; [constructor|split; reflexivity]].
    constructor; [|constructor]. split; [reflexivity|]. vm_compute. discriminate.
Defined.
