(* ===== verification/Cors.v ===== *)
(** * Cross-origin resource sharing

    [packages/cors/src]: the policy's verdict on an origin and the headers it earns
    ([cors.ts]), and the middleware that answers a preflight or merges those headers under
    the application's ([middleware.ts]). *)
From S2P Require Import Prelude JsString JsMap JsNumber Web.
#[local] Open Scope string_scope.

(** The policy: ["*"] is the text ["*"]. A pattern is what its copy without the [g] and [y]
    flags answers, which keeps no state; a predicate is the application's, and may throw. *)
Inductive CorsOrigin : Type :=
| OriginText (s : string)
| OriginList (l : list string)
| OriginRegExp (test : string -> bool)
| OriginPredicate (p : string -> outcome JsThrown bool).

Record CorsOptions : Type := mkCors {
  origin : option CorsOrigin;
  cors_methods : option (list string);
  allow_headers : option (list string);
  exposeHeaders : option (list string);
  credentials : option bool;
  maxAge : option number
}.

Definition DEFAULT_METHODS : list string := ["GET"; "HEAD"; "PUT"; "PATCH"; "POST"; "DELETE"].

(** [policy === "*"]. *)
Definition wildcard (policy : CorsOrigin) : bool := match policy with OriginText s => String.eqb s "*" | _ => false end.

Definition resolveOrigin (requestOrigin : option string) (policy : CorsOrigin) : outcome JsThrown (option string) :=
  if wildcard policy then Ok (Some "*")
  else
    match requestOrigin with
    | None => Ok None
    | Some o =>
        match policy with
        | OriginList l => Ok (if existsb (String.eqb o) l then Some o else None)
        | OriginRegExp test => Ok (if test o then Some o else None)
        | OriginPredicate p => let! yes := p o in Ok (if yes : bool then Some o else None)
        | OriginText s => Ok (if String.eqb o s then Some s else None)
        end
    end.

(** A field of the object under construction. *)
Definition field (name : string) (value : option string) (headers : JsMap string) : JsMap string :=
  match value with Some v => map_set name v headers | None => headers end.

Definition corsHeaders (requestOrigin : option string) (options : CorsOptions) (requestedHeaders : option string)
    : outcome JsThrown (JsMap string) :=
  let policy := default (OriginText "*") (origin options) in
  let creds := default false (credentials options) in
  if creds && wildcard policy then Throw (LestoError "CORS_WILDCARD_WITH_CREDENTIALS")
  else
    let! allowOrigin := resolveOrigin requestOrigin policy in
    match allowOrigin with
    | None => Ok [("Vary", "Origin")]
    | Some allow =>
        let headers := [("Access-Control-Allow-Origin", allow);
                        ("Access-Control-Allow-Methods", join ", " (default DEFAULT_METHODS (cors_methods options)))] in
        let '(allowed, reflects) :=
          match allow_headers options with
          | Some l => (Some (join ", " l), false)
          | None => (requestedHeaders, bool_decide (is_Some requestedHeaders))
          end in
        let headers := field "Access-Control-Allow-Headers" allowed headers in
        let headers := field "Access-Control-Expose-Headers" (option_map (join ", ") (exposeHeaders options)) headers in
        let headers := field "Access-Control-Allow-Credentials" (if creds then Some "true" else None) headers in
        let headers := field "Access-Control-Max-Age" (option_map number_to_string (maxAge options)) headers in
        let varyOn := ((if wildcard policy then [] else ["Origin"]) ++
                       (if reflects : bool then ["Access-Control-Request-Headers"] else []))%list in
        Ok (field "Vary" (match varyOn with [] => None | _ => Some (join ", " varyOn) end) headers)
    end.

(** ** The middleware *)

Definition PREFLIGHT_METHOD : string := "OPTIONS".
Definition PREFLIGHT_HEADER : string := "access-control-request-method".
Definition REQUEST_HEADERS_HEADER : string := "access-control-request-headers".

Definition isPreflight (request : Request) : bool :=
  String.eqb (method request) PREFLIGHT_METHOD && bool_decide (is_Some (map_get PREFLIGHT_HEADER (req_headers request))).

Definition cors (options : CorsOptions) : Middleware := fun request next =>
  match corsHeaders (map_get "origin" (req_headers request)) options (map_get REQUEST_HEADERS_HEADER (req_headers request)) with
  | Throw e => reject e
  | Ok computed =>
      if isPreflight request then resolve (mkResponse 204 (header_map computed) EmptyString)
      else and_then (next tt) (fun response =>
             resolve (mkResponse (status response) (mergeHeaders (header_map computed) (headers response)) (res_body response)))
  end.

(** * Cross-origin resource sharing: what the headers grant

    Only an origin the policy approves is echoed, credentials are never granted to every
    origin, and a shared cache that honours [Vary] cannot serve one caller's answer to
    another, whatever the application puts in its own headers. *)
#[local] Open Scope string_scope.
#[local] Open Scope list_scope.

(** The policy's approval of a presented origin. *)
Definition approves (policy : CorsOrigin) (o : string) : Prop :=
  match policy with
  | OriginText s => o = s
  | OriginList l => List.In o l
  | OriginRegExp test => test o = true
  | OriginPredicate p => p o = Ok true
  end.

Definition policy_of (o : CorsOptions) : CorsOrigin := default (OriginText "*") (origin o).

Lemma resolve_cases requestOrigin policy allow :
  resolveOrigin requestOrigin policy = Ok allow ->
  wildcard policy = true /\ allow = Some "*"%string \/
  wildcard policy = false /\ (allow = None \/ allow = requestOrigin /\ exists o, allow = Some o /\ approves policy o).
Proof.
  unfold resolveOrigin. destruct (wildcard policy) eqn:W; [intros [= <-]; auto|].
  destruct requestOrigin as [o|]; [|intros [= <-]; auto]. intros E. right. split; [done|].
  destruct policy as [s|l|test|p]; simpl in E |- *.
  - injection E as <-. destruct (String.eqb_spec o s) as [->|]; eauto.
  - injection E as <-. destruct (existsb (String.eqb o) l) eqn:I; [|auto].
    apply existsb_exists in I as (x & Hx & ->%String.eqb_eq). eauto.
  - injection E as <-. destruct (test o) eqn:T; eauto.
  - destruct (p o) as [[]|] eqn:P; simpl in E; [injection E as <-; eauto|injection E as <-; auto|done].
Qed.

(** The headers of a granted origin, field by field. *)
Record granted (o : CorsOptions) (allow : string) (rh : option string) (h : JsMap string) : Prop := {
  granted_origin : map_get "Access-Control-Allow-Origin" h = Some allow;
  granted_methods : map_get "Access-Control-Allow-Methods" h = Some (join ", " (default DEFAULT_METHODS (cors_methods o)));
  granted_headers : map_get "Access-Control-Allow-Headers" h =
    match allow_headers o with Some l => Some (join ", " l) | None => rh end;
  granted_exposed : map_get "Access-Control-Expose-Headers" h = option_map (join ", ") (exposeHeaders o);
  granted_credentials : map_get "Access-Control-Allow-Credentials" h = if default false (credentials o) then Some "true"%string else None;
  granted_age : map_get "Access-Control-Max-Age" h = option_map number_to_string (maxAge o);
  granted_varies : varies_on (header_map h) =
    (if wildcard (policy_of o) then [] else ["origin"%string]) ++
    match allow_headers o, rh with None, Some _ => ["access-control-request-headers"%string] | _, _ => [] end
}.

Lemma corsHeaders_cases ro o rh h :
  corsHeaders ro o rh = Ok h ->
  (default false (credentials o) = true -> wildcard (policy_of o) = false) /\
  exists allow, resolveOrigin ro (policy_of o) = Ok allow /\
    match allow with
    | None => h = [("Vary", "Origin")]%string
    | Some a => granted o a rh h
    end.
Proof.
  unfold corsHeaders. fold (policy_of o). intros E. destruct (default false (credentials o) && wildcard (policy_of o)) eqn:B; [done|].
  split; [by intros C; rewrite C in B|].
  destruct (resolveOrigin ro (policy_of o)) as [[a|]|] eqn:R; cbn [outcome_bind] in E; [|injection E as <-; by exists None|done].
  exists (Some a). split; [done|]. clear B R.
  destruct (wildcard (policy_of o)) eqn:W, (allow_headers o) as [l|] eqn:L, rh as [r|], (exposeHeaders o) as [x|] eqn:X,
    (default false (credentials o)) eqn:C, (maxAge o) as [n|] eqn:N;
    injection E as <-; (split; rewrite ?W, ?L, ?X, ?C, ?N; reflexivity).
Qed.

Lemma header_get_vary ro o rh h :
  corsHeaders ro o rh = Ok h -> wildcard (policy_of o) = false -> List.In "origin"%string (varies_on (header_map h)).
Proof.
  intros (_ & allow & _ & G)%corsHeaders_cases W. destruct allow; [|subst; vm_compute; tauto].
  rewrite (granted_varies _ _ _ _ G), W. by left.
Qed.

(** Fact: credentials and reads are granted to approved origins only: no configuration that
    pairs credentials with the wildcard yields any headers; otherwise the allowed origin is
    the wildcard, without credentials, or the very origin the request presented, which the
    policy approves; and a refused origin gets no [Access-Control] header at all. *)
Theorem reads_are_approved (ro : option string) (o : CorsOptions) (rh : option string) :
  (default false (credentials o) = true -> wildcard (policy_of o) = true ->
     corsHeaders ro o rh = Throw (LestoError "CORS_WILDCARD_WITH_CREDENTIALS")) /\
  (forall h, corsHeaders ro o rh = Ok h ->
     match map_get "Access-Control-Allow-Origin" h with
     | Some a =>
         wildcard (policy_of o) = true /\ a = "*"%string /\ map_get "Access-Control-Allow-Credentials" h = None \/
         wildcard (policy_of o) = false /\ ro = Some a /\ approves (policy_of o) a
     | None => h = [("Vary", "Origin")]%string /\ wildcard (policy_of o) = false
     end).
Proof.
  split; [intros C W; unfold corsHeaders; fold (policy_of o); by rewrite C, W|].
  intros h (C & allow & R & G)%corsHeaders_cases. apply resolve_cases in R as [[W ->]|(W & [->|(-> & a & Ea & A)])].
  - rewrite (granted_origin _ _ _ _ G), (granted_credentials _ _ _ _ G). left. split; [done|]. split; [done|].
    destruct (default false (credentials o)); [by rewrite C in W|done].
  - subst. done.
  - rewrite Ea in G. rewrite (granted_origin _ _ _ _ G). right. done.
Qed.

(** ** Caches *)

(** The requests differ at most in headers that the response does not name in [Vary]. *)
Definition agree_on (names : list string) (r r' : Request) : Prop :=
  method r' = method r /\ forall n, List.In n names -> map_get n (req_headers r') = map_get n (req_headers r).

(** The exception: no static list of headers, and a request that announced none. *)
Definition announces (o : CorsOptions) (r : Request) : Prop :=
  is_Some (allow_headers o) \/ is_Some (map_get REQUEST_HEADERS_HEADER (req_headers r)).

Lemma corsHeaders_agree o r r' h :
  corsHeaders (map_get "origin" (req_headers r)) o (map_get REQUEST_HEADERS_HEADER (req_headers r)) = Ok h ->
  announces o r -> agree_on (varies_on (header_map h)) r r' ->
  corsHeaders (map_get "origin" (req_headers r')) o (map_get REQUEST_HEADERS_HEADER (req_headers r')) = Ok h.
Proof.
  intros E A [_ Hn]. pose proof (header_get_vary _ _ _ _ E) as V.
  assert (resolveOrigin (map_get "origin" (req_headers r')) (policy_of o) = resolveOrigin (map_get "origin" (req_headers r)) (policy_of o)) as R.
  { destruct (wildcard (policy_of o)) eqn:W; [unfold resolveOrigin; by rewrite W|]. by rewrite Hn by auto. }
  destruct (corsHeaders_cases _ _ _ _ E) as (_ & allow & R0 & G). revert E. unfold corsHeaders. fold (policy_of o). rewrite R, R0.
  destruct (_ && _); [done|]. cbn [outcome_bind]. destruct allow as [a|]; [|done].
  destruct (allow_headers o) as [l|] eqn:L; [done|]. rewrite (Hn REQUEST_HEADERS_HEADER); [done|].
  rewrite (granted_varies _ _ _ _ G), L. destruct A as [A|[x Hx]]; [rewrite L in A; by destruct A|]. rewrite Hx. apply in_app_iff. right. by left.
Qed.


(** Fact: under the default policy a preflight that announces no headers gets a response
    that names nothing in [Vary], though the same request announcing one gets another
    response: [Vary] does not name every header the response is computed from. *)
Theorem unannounced_headers_do_not_vary :
  let o := mkCors None None None None None None in
  let preflight extra := mkRequest "OPTIONS" "/" ((PREFLIGHT_HEADER, "PUT"%string) :: ("origin", "https://a.example")%string :: extra) BodyOther in
  let answer extra := (cors o (preflight extra) (fun _ => resolve (mkResponse 200 [] "ok"))).2 in
  exists first second,
    answer [] = Ok first /\ varies_on (headers first) = [] /\
    answer [(REQUEST_HEADERS_HEADER, "content-type"%string)] = Ok second /\ first <> second.
Proof.
  intros o preflight answer. unfold answer, preflight. do 2 eexists. split; [vm_compute; reflexivity|]. split; [vm_compute; reflexivity|].
  split; [vm_compute; reflexivity|]. discriminate.
Qed.

(** ** An example *)

Definition tenant_policy : CorsOptions :=
  mkCors (Some (OriginList ["https://a.example"; "https://b.example"]%string)) None None None (Some true) None.
Definition tenant_get (o : string) (extra : list (string * string)) : Request :=
  mkRequest "GET" "/me" (("origin", o) :: (REQUEST_HEADERS_HEADER, "x-trace"%string) :: extra) BodyOther.
Definition cookie_app : Next := fun _ => ([Dispatched], Ok (mkResponse 200 [("vary", One "Cookie")]%string "me")).

