(* ===== verification/IpAddress.v ===== *)
(** * Texts of addresses

    The IP literals of the standard library: [isIP] of [node:net], and the canonical text
    the URL parser gives an IPv6 literal. An IPv4 address is four octets; an IPv6 address
    is eight 16-bit groups. The canonical text reads back as the same groups. *)
From S2P Require Import Prelude JsString JsNumber.
#[local] Open Scope string_scope.
#[local] Open Scope Z_scope.

(** ** Reading *)

(** One of four: one to three digits, no leading zero, at most 255. *)
Definition octet (s : string) : option Z :=
  match take_digits 10 0 0 s with
  | (v, n, EmptyString) =>
      if Nat.leb 1 n && Nat.leb n 3 && (v <=? 255) && (Nat.eqb n 1 || negb (startsWith "0" s)) then Some v else None
  | _ => None
  end.

Definition parse_ipv4 (s : string) : option (list Z) :=
  match map octet (split "." s) with
  | [Some a; Some b; Some c; Some d] => Some [a; b; c; d]
  | _ => None
  end.

(** One of eight: one to four hexadecimal digits. *)
Definition group (s : string) : option Z :=
  match take_digits 16 0 0 s with
  | (v, n, EmptyString) => if Nat.leb 1 n && Nat.leb n 4 then Some v else None
  | _ => None
  end.

(** The groups of some parts; the last may be a dotted quad, for two of them. *)
Fixpoint groups (quad : bool) (parts : list string) : option (list Z) :=
  match parts with
  | [] => Some []
  | p :: rest =>
      match group p with
      | Some g => match groups quad rest with Some gs => Some (g :: gs) | None => None end
      | None =>
          match rest, parse_ipv4 p with
          | [], Some [a; b; c; d] => if quad then Some [256 * a + b; 256 * c + d] else None
          | _, _ => None
          end
      end
  end.

Definition side (quad : bool) (s : string) : option (list Z) :=
  match s with EmptyString => Some [] | _ => groups quad (split ":" s) end.

(** Around the first double colon. *)
Fixpoint cut_double (s : string) : option (string * string) :=
  match s with
  | EmptyString => None
  | String c t =>
      if startsWith "::" s then Some (EmptyString, drop_chars 2 s)
      else match cut_double t with Some (a, b) => Some (String c a, b) | None => None end
  end.

Definition parse_ipv6 (s : string) : option (list Z) :=
  match cut_double s with
  | None => match groups true (split ":" s) with Some gs => if Nat.eqb (length gs) 8 then Some gs else None | None => None end
  | Some (before, after) =>
      match side false before, side true after with
      | Some l, Some r => if Nat.leb (length l + length r) 7 then Some (l ++ repeat 0 (8 - length l - length r) ++ r)%list else None
      | _, _ => None
      end
  end.

(** A zone: a percent sign and at least one letter, digit, dash, dot or colon. *)
Definition zone_char (c : ascii) : bool :=
  let n := nat_of_ascii c in
  ((48 <=? n) && (n <=? 58) || (65 <=? n) && (n <=? 90) || (97 <=? n) && (n <=? 122) || (n =? 45) || (n =? 46))%nat.

Definition scoped (s : string) : option (list Z) :=
  match cut "%" s with
  | Some (address, zone) => if negb (String.eqb zone EmptyString) && all_chars zone_char zone then parse_ipv6 address else None
  | None => None
  end.

Definition is_some {A} (o : option A) : bool := match o with Some _ => true | None => false end.

Definition isIP (s : string) : Z :=
  if is_some (parse_ipv4 s) then 4 else if is_some (parse_ipv6 s) || is_some (scoped s) then 6 else 0.

(** ** The canonical text *)

Definition group_text (g : Z) : string := digits_in 16 g.

Fixpoint zero_run (gs : list Z) : nat := match gs with g :: gs' => if g =? 0 then S (zero_run gs') else O | [] => O end.

(** The first of the longest runs of zeros: where it starts, and its length. *)
Fixpoint best_run (gs : list Z) : nat * nat :=
  match gs with
  | [] => (O, O)
  | _ :: gs' =>
      let r := zero_run gs in
      let '(s, n) := best_run gs' in
      if Nat.leb n r then (O, r) else (S s, n)
  end.

Definition group_texts (gs : list Z) : string := join ":" (map group_text gs).

(** Runs of two or more are compressed. *)
Definition ipv6_text (gs : list Z) : string :=
  let '(s, n) := best_run gs in
  if Nat.leb n 1 then group_texts gs
  else group_texts (firstn s gs) ++ "::" ++ group_texts (skipn (s + n) gs).

(** ** Digits *)

Definition hex16 (g : Z) : Prop := 0 <= g < 65536.

Lemma group_group_text g : hex16 g -> group (group_text g) = Some g.
Proof.
  intros [H0 H1]. unfold group, group_text. destruct (digits_in_spec 16 g) as (k & -> & Hk); [lia|done|].
  replace (Nat.leb (S k) 4) with true; [done|]. symmetry. apply Nat.leb_le. destruct Hk as [->|Hk]; [lia|].
  assert (16 ^ Z.of_nat k < 16 ^ 4) as L by lia. apply Z.pow_lt_mono_r_iff in L; lia.
Qed.

Lemma group_text_no c g : digit_of c = None -> 0 <= g -> has_char c (group_text g) = false.
Proof. intros Hc Hg. unfold group_text. destruct (digits_in_spec 16 g) as (k & E & _); [lia|done|]. by eapply take_digits_chars. Qed.

Lemma group_text_nonempty g : 0 <= g -> group_text g <> EmptyString.
Proof.
  intros Hg E. unfold group_text in E. destruct (digits_in_spec 16 g) as (k & F & _); [lia|done|]. by rewrite E in F.
Qed.

(** ** The canonical text reads back *)

Lemma groups_texts quad gs : Forall hex16 gs -> groups quad (map group_text gs) = Some gs.
Proof. induction 1 as [|g gs Hg _ IH]; [done|]. cbn [map groups]. by rewrite group_group_text, IH. Qed.

Lemma texts_no_colon gs : Forall hex16 gs -> Forall (fun p => has_char ":" p = false) (map group_text gs).
Proof. intros H. apply Forall_map. eapply Forall_impl; [exact H|]. intros g [Hg _]. by apply group_text_no. Qed.

Lemma split_texts gs : gs <> [] -> Forall hex16 gs -> split ":" (group_texts gs) = map group_text gs.
Proof. intros Hn H. unfold group_texts. apply (split_join ":"); [by destruct gs|by apply texts_no_colon]. Qed.

Lemma texts_nonempty gs : gs <> [] -> Forall hex16 gs -> group_texts gs <> EmptyString.
Proof.
  intros Hn H. destruct gs as [|g gs]; [done|]. inversion H as [|? ? [Hg _]]; subst. pose proof (group_text_nonempty g Hg) as N.
  unfold group_texts. simpl. destruct (group_text g); [done|]. destruct (map group_text gs); discriminate.
Qed.

Lemma side_texts quad gs : Forall hex16 gs -> side quad (group_texts gs) = Some gs.
Proof.
  intros H. destruct gs as [|g gs]; [done|]. unfold side. pose proof (texts_nonempty (g :: gs) ltac:(done) H) as N.
  rewrite split_texts by done. rewrite groups_texts by done. by destruct (group_texts (g :: gs)).
Qed.

Lemma starts_colon c t : c <> ":"%char -> startsWith "::" (String c t) = false.
Proof. intros H. cbn [startsWith]. destruct (Ascii.eqb_spec ":" c) as [<-|]; [by destruct H|done]. Qed.

Definition under (p : string) (cut : option (string * string)) : option (string * string) :=
  match cut with Some (a, b) => Some (p ++ a, b) | None => None end.

Lemma cut_plain p t : has_char ":" p = false -> cut_double (p ++ t) = under p (cut_double t).
Proof.
  induction p as [|c p IH]; [simpl; by destruct (cut_double t) as [[]|]|]. cbn [has_char]. intros [Hc Hp]%orb_false_iff.
  change (String c p ++ t) with (String c (p ++ t)). cbn [cut_double]. rewrite starts_colon by (by apply Ascii.eqb_neq).
  rewrite IH by done. by destruct (cut_double t) as [[]|].
Qed.

Lemma cut_colon p t : p <> EmptyString -> has_char ":" p = false -> cut_double (String ":" (p ++ t)) = under ":" (cut_double (p ++ t)).
Proof.
  intros Hn Hp. destruct p as [|c p]; [done|]. cbn [has_char] in Hp. apply orb_false_iff in Hp as [Hc _]. apply Ascii.eqb_neq in Hc.
  change (String c p ++ t) with (String c (p ++ t)). remember (String c (p ++ t)) as r. cbn [cut_double].
  replace (startsWith "::" (String ":" r)) with false; [by destruct (cut_double r) as [[]|]|].
  subst r. cbn [startsWith]. destruct (Ascii.eqb_spec ":" c) as [<-|]; [by destruct Hc|done].
Qed.

(** No double colon within the texts, nor across their end. *)
Lemma cut_texts gs t :
  Forall hex16 gs -> cut_double (group_texts gs ++ t) = under (group_texts gs) (cut_double t).
Proof.
  induction 1 as [|g gs [Hg _] H IH]; [simpl; by destruct (cut_double t) as [[]|]|].
  pose proof (group_text_no ":" g eq_refl Hg) as Hc. destruct gs as [|g' gs]; [exact (cut_plain _ _ Hc)|].
  change (group_texts (g :: g' :: gs)) with (group_text g ++ String ":" (group_texts (g' :: gs))).
  rewrite append_assoc, cut_plain by done. pose proof (texts_nonempty (g' :: gs) ltac:(done) H) as N.
  assert (exists p q, group_texts (g' :: gs) = p ++ q /\ p <> EmptyString /\ has_char ":" p = false) as (p & q & E & Np & Hp).
  { inversion H as [|? ? [Hg' _] _]; subst. exists (group_text g').
    pose proof (group_text_nonempty g' Hg'). pose proof (group_text_no ":" g' eq_refl Hg').
    destruct gs; [exists EmptyString; by rewrite append_nil_r|by eexists]. }
  change (String ":" (group_texts (g' :: gs)) ++ t) with (String ":" (group_texts (g' :: gs) ++ t)).
  rewrite E, append_assoc, cut_colon, <- append_assoc, <- E, IH by done. destruct (cut_double t) as [[a b]|]; [|done].
  simpl. by rewrite !append_assoc.
Qed.

Lemma zero_run_spec gs : (zero_run gs <= length gs)%nat /\ firstn (zero_run gs) gs = repeat 0 (zero_run gs).
Proof.
  induction gs as [|g gs [I1 I2]]; [done|]. simpl. destruct (Z.eqb_spec g 0) as [->|]; [|split; [lia|done]].
  simpl. rewrite I2. split; [lia|done].
Qed.

Lemma best_run_spec gs s n :
  best_run gs = (s, n) -> (s + n <= length gs)%nat /\ gs = (firstn s gs ++ repeat 0 n ++ skipn (s + n) gs)%list.
Proof.
  revert s n. induction gs as [|g gs IH]; intros s n; cbn [best_run]; [by intros [= <- <-]|].
  destruct (best_run gs) as [s' n'] eqn:B. destruct (Nat.leb n' (zero_run (g :: gs))); intros [= <- <-].
  - change (if g =? 0 then S (zero_run gs) else O) with (zero_run (g :: gs)). destruct (zero_run_spec (g :: gs)) as [L F]. split; [exact L|].
    cbn [Nat.add]. rewrite <- F. change (take 0 (g :: gs)) with (@nil Z). cbn [app]. by rewrite take_drop.
  - destruct (IH s' n' eq_refl) as [L F]. split; [simpl; lia|]. cbn [firstn Nat.add skipn app]. by rewrite <- F.
Qed.

(** The canonical text of eight groups reads back as them. *)
Lemma parse_ipv6_text gs : length gs = 8%nat -> Forall hex16 gs -> parse_ipv6 (ipv6_text gs) = Some gs.
Proof.
  intros L H. unfold ipv6_text. destruct (best_run gs) as [s n] eqn:B. apply best_run_spec in B as [Ls E]. unfold parse_ipv6.
  destruct (Nat.leb_spec n 1).
  - pose proof (cut_texts gs EmptyString H) as C. rewrite append_nil_r in C. rewrite C. cbn [cut_double under].
    assert (gs <> []) as N by by destruct gs. rewrite split_texts, groups_texts by done. by rewrite L.
  - rewrite cut_texts by (by apply Forall_take).
    assert (forall t, cut_double ("::" ++ t) = Some (EmptyString, t)) as -> by by intros []. cbn [under].
    rewrite append_nil_r, !side_texts by (by apply Forall_take || by apply Forall_drop).
    rewrite length_take, length_drop, L. replace (Nat.leb (s `min` 8 + (8 - (s + n))) 7) with true by (symmetry; apply Nat.leb_le; lia).
    replace (8 - s `min` 8 - (8 - (s + n)))%nat with n by lia. by rewrite <- E.
Qed.

Lemma ipv6_text_inj gs gs' :
  length gs = 8%nat -> Forall hex16 gs -> length gs' = 8%nat -> Forall hex16 gs' -> ipv6_text gs = ipv6_text gs' -> gs = gs'.
Proof. intros L H L' H' E. pose proof (parse_ipv6_text gs L H) as P. rewrite E, parse_ipv6_text in P by done. by injection P. Qed.
