(* ===== verification/Webhooks.v ===== *)
(** * Webhooks

    [packages/webhooks/src]: signatures, the check of an inbound request, the judgement of
    addresses and of destination URLs, the delivery that the queue runs ([webhooks.ts]) and
    the lookup that pins a connection to judged addresses ([pinning-fetch.ts]). The hash and
    the URL parser are the platform's. *)
From S2P Require Import Prelude JsString JsMap JsNumber JsJson Json JsTime Queue NodeCrypto IpAddress Web.
#[local] Open Scope string_scope.
#[local] Open Scope Z_scope.

(** ** Signatures *)

(** A text, or the bytes a transport captured. *)
Inductive Payload : Type := Text (s : string) | Bytes (b : list Z).

Definition payload_bytes (p : Payload) : list Z := match p with Text s => utf8 s | Bytes b => b end.

(** What is thrown: the code of a [WebhookError], the message, the queue's permanent mark. *)
Record Thrown : Type := mkThrown { code : option string; text : string; marked : bool }.

Definition WebhookError (c t : string) : Thrown := mkThrown (Some c) t false.
Definition permanentFailure (e : Thrown) : Thrown := mkThrown (code e) (text e) true.

Definition EVENT_HEADER : string := "x-lesto-event".
Definition SIGNATURE_HEADER : string := "x-lesto-signature".
Definition TIMESTAMP_HEADER : string := "x-lesto-timestamp".
Definition TRACEPARENT_HEADER : string := "traceparent".
Definition DEFAULT_TOLERANCE_MS : number := int 300000.

Section Signatures.
Context `{Crypto}.

Definition sign (body : Payload) (secret : string) : string := toHex (hmac_sha256 (utf8 secret) (payload_bytes body)).

Definition signedPayload (timestamp : number) (body : Payload) : Payload :=
  match body with
  | Text s => Text (number_to_string timestamp ++ "." ++ s)
  | Bytes b => Bytes (utf8 (number_to_string timestamp ++ ".") ++ b)%list
  end.

Record VerifyOptions : Type := mkVerifyOptions { vo_timestamp : option number; vo_toleranceMs : option number; vo_now : option number }.

(** [clock] is [Date.now()]. *)
Definition verify (clock : number) (body : Payload) (signature secret : string) (options : VerifyOptions) : bool :=
  let compare message := same_bytes (sign message secret) signature in
  match vo_timestamp options with
  | Some timestamp =>
      let toleranceMs := default DEFAULT_TOLERANCE_MS (vo_toleranceMs options) in
      let now := default clock (vo_now options) in
      if num_lt toleranceMs (num_abs (num_sub now timestamp)) then false
      else compare (signedPayload timestamp body)
  | None => compare body
  end.

(** ** Inbound requests *)

Inductive VerifyFailureReason : Type :=
| missing_signature | missing_timestamp | malformed_timestamp | stale_timestamp | signature_mismatch.

Record VerifyRequestInput : Type := mkInput { in_body : Payload; in_headers : JsMap string }.
Record SecretResolverContext : Type := mkContext { ctx_input : VerifyRequestInput; ctx_timestamp : number }.

(** A resolver may throw, and from JavaScript may give nothing. *)
Definition SecretResolver : Type := SecretResolverContext -> outcome Thrown (option string).
Inductive SecretOption : Type := StaticSecret (s : string) | PerRequest (r : SecretResolver).

Record VerifyRequestOptions : Type := mkVerifyRequest { vr_secret : SecretOption; vr_toleranceMs : option number; vr_now : option number }.

Inductive VerifyRequestResult : Type := Verified (event : option string) | Refused (reason : VerifyFailureReason).

Record VerifyPrecheckOk : Type := mkPrecheck { pre_signature : string; pre_timestamp : number; pre_now : number; pre_toleranceMs : number }.

Definition precheckVerifyRequest (clock : number) (input : VerifyRequestInput) (options : VerifyRequestOptions)
    : VerifyRequestResult + VerifyPrecheckOk :=
  match map_get SIGNATURE_HEADER (in_headers input) with
  | None => inl (Refused missing_signature)
  | Some signature =>
      match map_get TIMESTAMP_HEADER (in_headers input) with
      | None => inl (Refused missing_timestamp)
      | Some timestampHeader =>
          let timestamp := Number_of_string timestampHeader in
          if negb (is_finite timestamp) then inl (Refused malformed_timestamp)
          else
            let now := default clock (vr_now options) in
            let toleranceMs := default DEFAULT_TOLERANCE_MS (vr_toleranceMs options) in
            if num_lt toleranceMs (num_abs (num_sub now timestamp)) then inl (Refused stale_timestamp)
            else inr (mkPrecheck signature timestamp now toleranceMs)
      end
  end.

(** The decoding of a body's bytes, for the event's name only. *)
Context (decode : list Z -> string).

Definition body_text (p : Payload) : string := match p with Text s => s | Bytes b => decode b end.

(** [parsed.event]: the last member of that name, when it is a text. *)
Definition event_of (v : json) : option string :=
  match v with
  | JObj fields => match map_get "event" (rev fields) with Some (JStr e) => Some e | _ => None end
  | _ => None
  end.

Definition completeVerifyRequest (clock : number) (input : VerifyRequestInput) (pre : VerifyPrecheckOk) (secret : string)
    : VerifyRequestResult :=
  let options := mkVerifyOptions (Some (pre_timestamp pre)) (Some (pre_toleranceMs pre)) (Some (pre_now pre)) in
  if verify clock (in_body input) (pre_signature pre) secret options then
    Verified (match parse (body_text (in_body input)) with Some parsed => event_of parsed | None => None end)
  else Refused signature_mismatch.

(** The outcome, and whether the resolver was called. *)
Definition verifyRequest (clock : number) (input : VerifyRequestInput) (options : VerifyRequestOptions)
    : outcome Thrown VerifyRequestResult * bool :=
  match precheckVerifyRequest clock input options with
  | inl result => (Ok result, false)
  | inr pre =>
      match vr_secret options with
      | StaticSecret secret => (Ok (completeVerifyRequest clock input pre secret), false)
      | PerRequest resolveSecret =>
          (match resolveSecret (mkContext input (pre_timestamp pre)) with
           | Throw _ => Throw (WebhookError "WEBHOOK_SECRET_UNRESOLVED" "The per-request secret resolver threw while resolving the signing secret.")
           | Ok (Some (String _ _ as secret)) => Ok (completeVerifyRequest clock input pre secret)
           | Ok _ => Throw (WebhookError "WEBHOOK_SECRET_UNRESOLVED" "The per-request secret resolver returned no signing secret.")
           end, true)
      end
  end.
End Signatures.

(** ** Addresses *)

(** [Number(octet)] of digits. *)
Definition octet_number (s : string) : Z := (take_digits 10 0 0 s).1.1.

Definition isPrivateIPv4 (address : string) : bool :=
  match map octet_number (split "." address) with
  | a :: b :: _ =>
      (a =? 0) || (a =? 10) || (a =? 127) || (a =? 169) && (b =? 254) || (a =? 172) && (16 <=? b) && (b <=? 31)
      || (a =? 192) && (b =? 168) || (a =? 100) && (64 <=? b) && (b <=? 127) || (224 <=? a)
  | _ => false
  end.

(** Lower-case hexadecimal digits, one to four of them. *)
Definition hex_part (s : string) : bool :=
  Nat.leb 1 (String.length s) && Nat.leb (String.length s) 4 &&
  all_chars (fun c => let n := nat_of_ascii c in ((48 <=? n) && (n <=? 57) || (97 <=? n) && (n <=? 102))%nat) s.

Definition mappedIPv4 (lower : string) : option string :=
  if startsWith "::ffff:" lower then
    match split ":" (drop_chars 7 lower) with
    | [h; l] =>
        if hex_part h && hex_part l then
          let high := (take_digits 16 0 0 h).1.1 in
          let low := (take_digits 16 0 0 l).1.1 in
          Some (decimal_of (Z.shiftr high 8) ++ "." ++ decimal_of (Z.land high 255) ++ "." ++
                decimal_of (Z.shiftr low 8) ++ "." ++ decimal_of (Z.land low 255))
        else None
    | _ => None
    end
  else None.

(** The host of [http://[address]/]: an address without a zone, in canonical form; any
    other text is left as it is. *)
Definition canonicalizeIPv6 (address : string) : string :=
  match parse_ipv6 address with Some gs => ipv6_text gs | None => address end.

Definition isPrivateIPv6 (address : string) : bool :=
  let lower := toLowerCase (canonicalizeIPv6 address) in
  if String.eqb lower "::1" then true
  else if String.eqb lower "::" then true
  else if startsWith "fe80" lower then true
  else if startsWith "fc" lower || startsWith "fd" lower then true
  else match mappedIPv4 lower with Some embedded => isPrivateIPv4 embedded | None => false end.

Definition isPrivateAddress (address : string) : bool :=
  let family := isIP address in
  if family =? 4 then isPrivateIPv4 address else if family =? 6 then isPrivateIPv6 address else true.

(** ** Destinations *)

Record Url : Type := mkUrl { protocol : string; hostname : string }.

(** [new URL(text)]: [None] where it throws. *)
Class UrlParser := parse_url : string -> option Url.

Definition Resolver : Type := string -> outcome Thrown (list string).

Definition drop_last (s : string) : string := substring 0 (String.length s - 1) s.
Definition ends_bracket (s : string) : bool := String.eqb (substring (String.length s - 1) 1 s) "]".

(** [.replace(/^\[|\]$/g, "")]. *)
Definition strip_brackets (s : string) : string :=
  let t := if startsWith "[" s then drop_chars 1 s else s in
  if ends_bracket t then drop_last t else t.

(** What a delivery does, in order. *)
Record Post : Type := mkPost { post_url : string; post_headers : JsMap string; post_body : string }.
Inductive Effect : Type := Resolved (host : string) | SecretRead (secretId : string) | Posted (p : Post).

Definition Task (A : Type) : Type := list Effect * outcome Thrown A.
Definition done_with {A} (a : A) : Task A := ([], Ok a).
Definition throw {A} (e : Thrown) : Task A := ([], Throw e).
Definition await {A B} (m : Task A) (k : A -> Task B) : Task B :=
  match m.2 with Ok a => ((m.1 ++ (k a).1)%list, (k a).2) | Throw e => (m.1, Throw e) end.
Notation "'let*' x ':=' m 'in' k" := (await m (fun x => k)) (at level 10, x name, k at level 200).

(** In double quotes. *)
Definition in_quotes (s : string) : string := String quote_mark (s ++ String quote_mark EmptyString).

Section Delivery.
Context `{Crypto} `{UrlParser}.

Fixpoint first_private (addresses : list string) : option string :=
  match addresses with
  | [] => None
  | a :: rest => if isPrivateAddress a then Some a else first_private rest
  end.

Definition defaultUrlGuard (url : string) (resolver : Resolver) : Task (option string) :=
  match parse_url url with
  | None => done_with (Some "URL is not parseable.")
  | Some parsed =>
      if negb (String.eqb (protocol parsed) "http:") && negb (String.eqb (protocol parsed) "https:") then
        done_with (Some ("scheme " ++ in_quotes (protocol parsed) ++ " is not allowed (http/https only)."))
      else
        let host := strip_brackets (hostname parsed) in
        if negb (isIP host =? 0) then
          done_with (if isPrivateAddress host then Some ("host " ++ host ++ " is a private/reserved address.") else None)
        else if String.eqb host "localhost" then done_with (Some "host localhost is not allowed.")
        else
          let* addresses := ([Resolved host], resolver host) in
          match addresses with
          | [] => done_with (Some ("host " ++ host ++ " did not resolve."))
          | _ =>
              done_with (match first_private addresses with
                         | Some a => Some ("host " ++ host ++ " resolves to a private/reserved address (" ++ a ++ ").")
                         | None => None
                         end)
          end
  end.

(** What the transport answers to a POST: a response, or an error, with the state of the
    deadline's signal when it is caught. *)
Inductive FetchResult : Type := Answered (ok : bool) (status : Z) | Failed (e : Thrown) (aborted : bool).

Definition UrlGuard : Type := string -> Resolver -> Task (option string).

Record Webhooks : Type := mkWebhooks {
  fetchFn : Post -> FetchResult;
  secrets : option (string -> outcome Thrown (option string));
  resolver : Resolver;
  urlGuard : UrlGuard;
  deliveryTimeoutMs : number
}.

Record DeliverPayload : Type := mkDeliver {
  d_url : string;
  d_event : string;
  d_payload : json;
  d_secretId : option string;
  d_traceparent : option string
}.

Definition resolveSecret (this : Webhooks) (secretId : string) : Task string :=
  match secrets this with
  | None => throw (WebhookError "WEBHOOK_SECRET_NOT_FOUND" "A secretId was given but no secrets source is configured.")
  | Some source =>
      let* secret := ([SecretRead secretId], source secretId) in
      match secret with
      | None => throw (WebhookError "WEBHOOK_SECRET_NOT_FOUND" ("No secret is registered for secretId " ++ in_quotes secretId ++ "."))
      | Some s => done_with s
      end
  end.

Definition body_of (p : DeliverPayload) : string := stringify (JObj [("event", JStr (d_event p)); ("data", d_payload p)]).

Definition post_of (timestamp : number) (p : DeliverPayload) (signature : option string) : Post :=
  let headers := [("content-type", "application/json"); (EVENT_HEADER, d_event p); (TIMESTAMP_HEADER, number_to_string timestamp)] in
  let headers := match d_traceparent p with Some t => map_set TRACEPARENT_HEADER t headers | None => headers end in
  let headers := match signature with Some s => map_set SIGNATURE_HEADER s headers | None => headers end in
  mkPost (d_url p) headers (body_of p).

(** The verdict on what the transport gave back (the hyphen stands for a long dash). *)
Definition judge (this : Webhooks) (url : string) (result : FetchResult) : outcome Thrown unit :=
  match result with
  | Failed e aborted =>
      if is_some (code e) then Throw e
      else if aborted then
        Throw (WebhookError "WEBHOOK_DELIVERY_TIMEOUT"
                 ("Webhook delivery to " ++ url ++ " did not complete within " ++ number_to_string (deliveryTimeoutMs this) ++ "ms."))
      else
        Throw (WebhookError "WEBHOOK_DELIVERY_FAILED"
                 ("Webhook delivery to " ++ url ++ " failed before its " ++ number_to_string (deliveryTimeoutMs this) ++ "ms deadline."))
  | Answered ok status =>
      if ok then Ok tt
      else
        let reason :=
          if (300 <=? status) && (status <? 400) then "redirected (" ++ decimal_of status ++ ") - refusing to follow past the SSRF guard"
          else "returned " ++ decimal_of status in
        Throw (WebhookError "WEBHOOK_DELIVERY_FAILED" ("Webhook to " ++ url ++ " " ++ reason ++ "."))
  end.

(** [clock] is [Date.now()]. *)
Definition deliver (this : Webhooks) (clock : number) (p : DeliverPayload) : Task unit :=
  let* blockedReason := urlGuard this (d_url p) (resolver this) in
  match blockedReason with
  | Some reason => throw (permanentFailure (WebhookError "WEBHOOK_URL_BLOCKED" ("Refusing to deliver webhook: " ++ reason)))
  | None =>
      let* signature :=
        match d_secretId p with
        | Some secretId =>
            let* secret := resolveSecret this secretId in
            done_with (Some (sign (Text (number_to_string clock ++ "." ++ body_of p)) secret))
        | None => done_with None
        end in
      let post := post_of clock p signature in
      ([Posted post], judge this (d_url p) (fetchFn this post))
  end.
End Delivery.

(** ** On the queue *)

Definition DELIVER_JOB : string := "lesto.webhook.deliver".

Definition text_field (name : string) (v : option string) : list (string * json) :=
  match v with Some s => [(name, JStr s)] | None => [] end.

Definition json_of_payload (p : DeliverPayload) : json :=
  JObj ([("url", JStr (d_url p)); ("event", JStr (d_event p)); ("payload", d_payload p)] ++
        text_field "secretId" (d_secretId p) ++ text_field "traceparent" (d_traceparent p))%list.

(** The fields of a payload [send] wrote. *)
Definition payload_of_json (v : json) : option DeliverPayload :=
  match v with
  | JObj fields =>
      let string_of name := match map_get name fields with Some (JStr s) => Some s | _ => None end in
      match string_of "url", string_of "event", map_get "payload" fields with
      | Some url, Some event, Some data => Some (mkDeliver url event data (string_of "secretId") (string_of "traceparent"))
      | _, _, _ => None
      end
  | _ => None
  end.

Definition send (queue : QueueOptions) (clock clock' : Z) (traceparent : option (unit -> option string))
    (url event : string) (data : json) (secretId : option string) (maxAttempts : option Z) (d : DB) : DB * Z :=
  let trace := match traceparent with Some capture => capture tt | None => None end in
  enqueue queue clock clock' DELIVER_JOB (json_of_payload (mkDeliver url event data secretId trace))
    (mkEnqueueOptions None None maxAttempts None None) d.

Definition js_error (e : Thrown) : JsError := mkJsError (text e) (marked e).

(** The registered handler. It writes nothing of the queue's; [other] is what the cast of a
    payload of another shape leads to. *)
Definition deliver_handler `{Crypto} `{UrlParser} (this : Webhooks) (clock : number) (other : @Handler json) : @Handler json :=
  fun job d =>
    match payload_of_json (j_payload job) with
    | Some p => (d, match (deliver this clock p).2 with Ok _ => None | Throw e => Some (js_error e) end)
    | None => other job d
    end.

(** ** Pinning *)

Definition blockedError (reason : string) : Thrown := WebhookError "WEBHOOK_URL_BLOCKED" ("Refusing to connect: " ++ reason).

Definition resolveValidatedAddresses (host : string) (resolver : Resolver) : outcome Thrown (list string) :=
  let! addresses := resolver host in
  match addresses with
  | [] => Throw (blockedError ("host " ++ host ++ " did not resolve."))
  | _ =>
      match first_private addresses with
      | Some a => Throw (blockedError ("host " ++ host ++ " resolves to a private/reserved address (" ++ a ++ ")."))
      | None => Ok addresses
      end
  end.

(** [options.family] when it is a number, [options.all]. *)
Record LookupOptions : Type := mkLookup { family : option Z; all : bool }.

(** What the callback gets: every address with its family, or one. *)
Definition pinnedLookup (resolver : Resolver) (host : string) (options : LookupOptions) : outcome Thrown (list (string * Z)) :=
  let! addresses := resolveValidatedAddresses host resolver in
  let wanted := default 0 (family options) in
  let matching := if wanted =? 0 then addresses else List.filter (fun a => isIP a =? wanted) addresses in
  match matching with
  | [] => Throw (blockedError ("host " ++ host ++ " has no public address for family " ++ number_to_string (int wanted) ++ "."))
  | pinned :: _ =>
      Ok (if all options then map (fun a => (a, isIP a)) matching else [(pinned, isIP pinned)])
  end.
