(* ===== verification/AddressProps.v ===== *)
(** * Judging addresses

    The textual rules of the guard against private destinations, compared with the blocks
    of addresses they stand for: an IPv4 address is a 32-bit number, an IPv6 address eight
    16-bit groups, and a block is a prefix. *)
From S2P Require Import Prelude JsString JsNumber IpAddress Web Webhooks.
#[local] Open Scope string_scope.
#[local] Open Scope Z_scope.

(** ** Blocks *)

Definition quad (a b c d : Z) : Z := ((a * 256 + b) * 256 + c) * 256 + d.

(** The addresses that share the first [len] bits of the base. *)
Definition in_block4 (n : Z) (block : Z * Z) : bool :=
  let '(base, len) := block in Z.shiftr n (32 - len) =? Z.shiftr base (32 - len).

Definition RESERVED4 : list (Z * Z) :=
  [(quad 0 0 0 0, 8); (quad 10 0 0 0, 8); (quad 127 0 0 0, 8); (quad 169 254 0 0, 16); (quad 172 16 0 0, 12);
   (quad 192 168 0 0, 16); (quad 100 64 0 0, 10); (quad 224 0 0 0, 4); (quad 240 0 0 0, 4)].

Definition reserved4 (n : Z) : bool := existsb (in_block4 n) RESERVED4.

Definition octet_ok (v : Z) : Prop := 0 <= v <= 255.

(** The leading bits of a dotted quad: [k] of the second octet, or of the first. *)
Lemma quad_prefix a b c d k :
  octet_ok a -> octet_ok b -> octet_ok c -> octet_ok d -> 0 <= k <= 8 -> quad a b c d / 2 ^ (24 - k) = 2 ^ k * a + b / 2 ^ (8 - k).
Proof.
  unfold octet_ok, quad. intros Ha Hb Hc Hd Hk. symmetry.
  assert (0 < 2 ^ (8 - k)) by (apply Z.pow_pos_nonneg; lia).
  assert (2 ^ (24 - k) = 65536 * 2 ^ (8 - k)) as -> by (replace (24 - k) with (16 + (8 - k)) by lia; rewrite Z.pow_add_r by lia; lia).
  assert (2 ^ (8 - k) * 2 ^ k = 256) as P by (rewrite <- Z.pow_add_r by lia; by replace (8 - k + k) with 8 by lia).
  pose proof (Z.div_mod b (2 ^ (8 - k)) ltac:(lia)) as E. pose proof (Z.mod_pos_bound b (2 ^ (8 - k)) ltac:(lia)) as M.
  set (p := 2 ^ (8 - k)) in *. set (q := b / p) in *. set (m := b mod p) in *. clearbody p q m.
  apply (Z.div_unique _ _ _ ((m * 256 + c) * 256 + d)); [left; nia|]. subst b. nia.
Qed.

Lemma reserved4_octets a b c d :
  octet_ok a -> octet_ok b -> octet_ok c -> octet_ok d ->
  reserved4 (quad a b c d) =
    (a =? 0) || (a =? 10) || (a =? 127) || (a =? 169) && (b =? 254) || (a =? 172) && (16 <=? b) && (b <=? 31)
    || (a =? 192) && (b =? 168) || (a =? 100) && (64 <=? b) && (b <=? 127) || (224 <=? a).
Proof.
  intros Ha Hb Hc Hd. pose proof (fun k => quad_prefix a b c d k Ha Hb Hc Hd) as Q.
  pose proof (Q 0 ltac:(lia)) as Q8. pose proof (Q 8 ltac:(lia)) as Q16. pose proof (Q 4 ltac:(lia)) as Q12. pose proof (Q 2 ltac:(lia)) as Q10.
  assert (quad a b c d / 2 ^ 28 = a / 16) as Q4.
  { change (2 ^ 28) with (2 ^ 24 * 16). rewrite <- Z.div_div by lia. change (2 ^ 24) with (2 ^ (24 - 0)). rewrite Q8.
    unfold octet_ok in Hb. rewrite (Z.div_small b) by (change (2 ^ (8 - 0)) with 256; lia). f_equal. lia. }
  unfold reserved4, RESERVED4. cbn [existsb in_block4]. rewrite !Z.shiftr_div_pow2 by lia. unfold octet_ok in *.
  change (32 - 8) with (24 - 0). change (32 - 16) with (24 - 8). change (32 - 12) with (24 - 4). change (32 - 10) with (24 - 2). change (32 - 4) with 28.
  rewrite Q8, Q16, Q12, Q10, Q4. rewrite (Z.div_small b (2 ^ (8 - 0))) by (change (2 ^ (8 - 0)) with 256; lia).
  clear Q Q8 Q16 Q12 Q10 Q4.
  change (quad 0 0 0 0 / 2 ^ (24 - 0)) with 0. change (quad 10 0 0 0 / 2 ^ (24 - 0)) with 10.
  change (quad 127 0 0 0 / 2 ^ (24 - 0)) with 127. change (quad 169 254 0 0 / 2 ^ (24 - 8)) with 43518.
  change (quad 172 16 0 0 / 2 ^ (24 - 4)) with 2753. change (quad 192 168 0 0 / 2 ^ (24 - 8)) with 49320.
  change (quad 100 64 0 0 / 2 ^ (24 - 2)) with 401. change (quad 224 0 0 0 / 2 ^ 28) with 14. change (quad 240 0 0 0 / 2 ^ 28) with 15.
  change (2 ^ (8 - 8)) with 1. change (2 ^ (8 - 4)) with 16. change (2 ^ (8 - 2)) with 64.
  change (2 ^ 0) with 1. change (2 ^ 8) with 256. change (2 ^ 4) with 16. change (2 ^ 2) with 4.
  apply eq_true_iff_eq. rewrite !orb_true_iff, !andb_true_iff, !Z.eqb_eq, !Z.leb_le.
  Z.to_euclidean_division_equations. intuition lia.
Qed.

(** ** IPv4 *)

Lemma take_digits_nonneg base a n s : 0 <= base -> 0 <= a -> 0 <= (take_digits base a n s).1.1.
Proof.
  intros Hb. revert a n. induction s as [|c s IH]; intros a n Ha; [done|]. cbn [take_digits].
  destruct (digit_of c) as [d|] eqn:D; [|done]. destruct (d <? base); [|done]. apply IH.
  unfold digit_of in D. repeat case_match; simplify_eq; bools; nia.
Qed.

Lemma octet_spec p v : octet p = Some v -> octet_number p = v /\ octet_ok v.
Proof.
  unfold octet, octet_number, octet_ok. pose proof (take_digits_nonneg 10 0 0 p ltac:(lia) ltac:(lia)).
  destruct (take_digits 10 0 0 p) as [[v' n] [|]]; [|done]. destruct (_ && _) eqn:E; [|done]. intros [= <-]. bools.
  cbn in *. split; [done|]. lia.
Qed.

Lemma isPrivateIPv4_parts address a b c d :
  map octet_number (split "." address) = [a; b; c; d] -> octet_ok a -> octet_ok b -> octet_ok c -> octet_ok d ->
  isPrivateIPv4 address = reserved4 (quad a b c d).
Proof. intros E Ha Hb Hc Hd. unfold isPrivateIPv4. by rewrite E, reserved4_octets. Qed.

Lemma isPrivateIPv4_spec address a b c d :
  parse_ipv4 address = Some [a; b; c; d] -> isPrivateIPv4 address = reserved4 (quad a b c d).
Proof.
  unfold parse_ipv4. intros E. destruct (split "." address) as [|p1 [|p2 [|p3 [|p4 [|]]]]] eqn:S; cbn [map] in E; try done;
    repeat (case_match; try done).
  injection E as <- <- <- <-. repeat match goal with H : octet _ = Some _ |- _ => apply octet_spec in H as [? ?] end.
  apply isPrivateIPv4_parts; try done. rewrite S. cbn [map]. by repeat f_equal.
Qed.

(** A dotted quad of decimal texts. *)
Lemma octet_number_decimal v : 0 <= v -> octet_number (decimal_of v) = v.
Proof. intros Hv. unfold octet_number, decimal_of. by destruct (digits_in_spec 10 v) as (k & -> & _). Qed.

Lemma isPrivateIPv4_dotted a b c d :
  octet_ok a -> octet_ok b -> octet_ok c -> octet_ok d ->
  isPrivateIPv4 (decimal_of a ++ "." ++ decimal_of b ++ "." ++ decimal_of c ++ "." ++ decimal_of d) = reserved4 (quad a b c d).
Proof.
  intros Ha Hb Hc Hd. unfold octet_ok in *. apply isPrivateIPv4_parts; try done.
  change (decimal_of a ++ "." ++ decimal_of b ++ "." ++ decimal_of c ++ "." ++ decimal_of d)
    with (join "." (map decimal_of [a; b; c; d])).
  rewrite (split_join "."); [|done|repeat constructor; by apply decimal_has_no].
  cbn [map]. by rewrite !octet_number_decimal by lia.
Qed.

(** ** Hexadecimal texts *)

Definition lower_hex (c : ascii) : bool := let n := nat_of_ascii c in ((48 <=? n) && (n <=? 57) || (97 <=? n) && (n <=? 102))%nat.

Lemma lower_hex_digit d : 0 <= d < 16 -> lower_hex (digit_char d) = true.
Proof.
  intros H. assert (List.In d [0; 1; 2; 3; 4; 5; 6; 7; 8; 9; 10; 11; 12; 13; 14; 15]) as Hd by (simpl; lia).
  clear H. repeat (destruct Hd as [<-|Hd]; [done|]). done.
Qed.

Lemma digits_from_chars fuel z acc :
  all_chars lower_hex acc = true -> all_chars lower_hex (digits_from fuel 16 z acc) = true.
Proof.
  revert z acc. induction fuel as [|fuel IH]; intros z acc Ha; [done|]. cbn [digits_from].
  assert (all_chars lower_hex (String (digit_char (z mod 16)) acc) = true) as Ha'.
  { cbn [all_chars]. rewrite lower_hex_digit; [done|]. apply Z.mod_pos_bound. lia. }
  destruct (z <? 16); [done|]. by apply IH.
Qed.

Lemma group_text_chars g : all_chars lower_hex (group_text g) = true.
Proof. by apply digits_from_chars. Qed.

Lemma group_inv s g : group s = Some g -> take_digits 16 0 0 s = (g, String.length s, EmptyString) /\ (1 <= String.length s <= 4)%nat.
Proof.
  unfold group. destruct (take_digits 16 0 0 s) as [[v n] [|]] eqn:E; [|done]. pose proof (take_digits_count _ _ _ _ _ _ E) as Hn.
  destruct (_ && _) eqn:B; [|done]. intros [= <-]. apply andb_true_iff in B as [B1%Nat.leb_le B2%Nat.leb_le].
  simpl in Hn. subst n. split; [done|lia].
Qed.

Lemma lower_hex_ok :
  forallb (fun n => let c := ascii_of_nat n in
    negb (lower_hex c) || match digit_of c with Some d => d <? 16 | None => false end) (List.seq 0 256) = true.
Proof. vm_compute. reflexivity. Qed.

Lemma lower_hex_value c : lower_hex c = true -> exists d, digit_of c = Some d /\ (d <? 16) = true.
Proof.
  intros Hc. pose proof lower_hex_ok as F. rewrite forallb_forall in F. specialize (F (nat_of_ascii c)).
  cbv zeta in F. rewrite ascii_nat_embedding, Hc in F. cbn [negb orb] in F. pose proof (nat_ascii_bounded c) as B.
  assert (List.In (nat_of_ascii c) (List.seq 0 256)) as I by (apply in_seq; clear F; lia). specialize (F I).
  destruct (digit_of c) as [d|]; [by exists d|done].
Qed.

Lemma take_hex a n s :
  all_chars lower_hex s = true -> exists v, take_digits 16 a n s = (v, (n + String.length s)%nat, EmptyString).
Proof.
  revert a n. induction s as [|c s IH]; intros a n H; [exists a; simpl; by rewrite Nat.add_0_r|]. cbn [all_chars] in H. bools.
  destruct (lower_hex_value c) as (d & D & Hd); [done|]. cbn [take_digits]. rewrite D, Hd.
  edestruct IH as [v ->]; [done|]. exists v. simpl. by rewrite <- plus_n_Sm.
Qed.

Lemma hex_part_group s : hex_part s = true -> group s = Some (take_digits 16 0 0 s).1.1.
Proof.
  unfold hex_part, group. fold lower_hex. rewrite !andb_true_iff. intros [[H1 H2] H3].
  destruct (take_hex 0 0 s H3) as [v ->]. cbn [Nat.add fst]. by rewrite H1, H2.
Qed.

Lemma group_text_part g : hex16 g -> hex_part (group_text g) = true.
Proof.
  intros H. destruct (group_inv _ _ (group_group_text g H)) as [_ L]. unfold hex_part. fold lower_hex.
  change (all_chars _ (group_text g)) with (all_chars lower_hex (group_text g)). rewrite group_text_chars.
  rewrite !andb_true_iff, !Nat.leb_le. lia.
Qed.

(** ** The canonical text of a scoped or plain address is lower-case *)

Definition text_char (c : ascii) : bool := lower_hex c || Ascii.eqb c ":".

Lemma text_chars_ok :
  forallb (fun n => let c := ascii_of_nat n in negb (text_char c) || Ascii.eqb (lower_char c) c) (List.seq 0 256) = true.
Proof. vm_compute. reflexivity. Qed.

Lemma lower_text s : all_chars text_char s = true -> toLowerCase s = s.
Proof.
  induction s as [|c s IH]; [done|]. cbn [all_chars toLowerCase]. rewrite andb_true_iff. intros [Hc Hs]. rewrite IH by done. f_equal.
  pose proof text_chars_ok as F. rewrite forallb_forall in F. specialize (F (nat_of_ascii c)). pose proof (nat_ascii_bounded c) as B.
  cbv zeta in F. rewrite ascii_nat_embedding, Hc in F. apply Ascii.eqb_eq, F, in_seq. clear F. lia.
Qed.

Lemma group_texts_chars gs : all_chars text_char (group_texts gs) = true.
Proof.
  assert (forall g, all_chars text_char (group_text g) = true) as G.
  { intros g. eapply all_chars_impl; [|apply group_text_chars]. intros c Hc. unfold text_char. by rewrite Hc. }
  induction gs as [|g gs IH]; [done|]. destruct gs as [|g' gs]; [exact (G g)|].
  change (group_texts (g :: g' :: gs)) with (group_text g ++ String ":" (group_texts (g' :: gs))).
  rewrite all_chars_app, G. exact IH.
Qed.

Lemma lower_ipv6_text gs : toLowerCase (ipv6_text gs) = ipv6_text gs.
Proof.
  apply lower_text. unfold ipv6_text. destruct (best_run gs) as [s n]. destruct (Nat.leb n 1); [apply group_texts_chars|].
  by rewrite !all_chars_app, !group_texts_chars.
Qed.

(** ** The first group *)

Definition ends_group (u : string) : Prop := u = EmptyString \/ exists w, u = String ":" w.

Lemma group_texts_head a rest t :
  ends_group t -> exists u, group_texts (a :: rest) ++ t = group_text a ++ u /\ ends_group u.
Proof.
  intros Ht. destruct rest as [|b rest]; [by exists t|]. exists (String ":" (group_texts (b :: rest) ++ t)). split; [|right; eauto].
  change (group_texts (a :: b :: rest)) with (group_text a ++ String ":" (group_texts (b :: rest))). by rewrite append_assoc.
Qed.

Lemma ipv6_text_head a rest :
  (exists u, ipv6_text (a :: rest) = "::" ++ u /\ a = 0) \/ exists u, ipv6_text (a :: rest) = group_text a ++ u /\ ends_group u.
Proof.
  unfold ipv6_text. destruct (best_run (a :: rest)) as [s n] eqn:B. destruct (Nat.leb_spec n 1).
  - right. destruct (group_texts_head a rest EmptyString) as (u & E & Hu); [by left|]. rewrite append_nil_r in E. eauto.
  - apply best_run_spec in B as [_ E]. destruct s as [|s].
    + left. eexists. split; [reflexivity|]. destruct n as [|n]; [lia|]. simpl in E. by injection E.
    + right. cbn [firstn]. apply group_texts_head. right. simpl. eauto.
Qed.

Lemma starts_group p x u :
  has_char ":" p = false -> ends_group u -> startsWith p (x ++ u) = startsWith p x.
Proof.
  intros Hp Hu. revert x. induction p as [|c p IH]; intros x; [done|]. cbn [has_char] in Hp. apply orb_false_iff in Hp as [Hc Hp].
  destruct x as [|d x].
  - destruct Hu as [->|[w ->]]; [done|]. cbn. by rewrite Hc.
  - cbn. by rewrite IH.
Qed.

(** [p] heads the canonical text, for hexadecimal digits [p]: it heads the first group's. *)
Lemma starts_text p a rest :
  has_char ":" p = false -> startsWith p (group_text 0) = false -> startsWith p (ipv6_text (a :: rest)) = startsWith p (group_text a).
Proof.
  intros Hp H0. destruct (ipv6_text_head a rest) as [(u & -> & ->)|(u & -> & Hu)]; [|by apply starts_group].
  rewrite H0. destruct p as [|c p]; [done|]. cbn [has_char] in Hp. apply orb_false_iff in Hp as [Hc _]. cbn. by rewrite Hc.
Qed.

Lemma startsWith_split p s : startsWith p s = true -> exists u, s = p ++ u.
Proof.
  revert s. induction p as [|c p IH]; intros s H; [by exists s|]. destruct s as [|d s]; [done|]. cbn in H.
  apply andb_true_iff in H as [->%Ascii.eqb_eq H]. destruct (IH _ H) as [u ->]. by exists u.
Qed.

(** Reading some digits behind others. *)
Lemma take_hex_bounds s a n :
  all_chars lower_hex s = true ->
  16 ^ Z.of_nat (String.length s) * a <= (take_digits 16 a n s).1.1 < 16 ^ Z.of_nat (String.length s) * (a + 1).
Proof.
  revert a n. induction s as [|c s IH]; intros a n H; [cbn; lia|]. cbn [all_chars] in H. apply andb_true_iff in H as [Hc Hs].
  destruct (lower_hex_value c Hc) as (d & D & Hd). assert (0 <= d) as Hd0.
  { unfold digit_of in D. repeat case_match; simplify_eq; bools; lia. }
  cbn [take_digits String.length]. rewrite D, Hd. apply Z.ltb_lt in Hd. specialize (IH (a * 16 + d) (S n) Hs).
  rewrite Nat2Z.inj_succ, Z.pow_succ_r by lia. set (p := 16 ^ _) in *. assert (0 < p) by (apply Z.pow_pos_nonneg; lia). nia.
Qed.

Definition unique_local (a : Z) : bool := (Z.shiftr a 9 =? 126) || (Z.shiftr a 5 =? 126) || (Z.shiftr a 1 =? 126).

Lemma unique_local_ok :
  forallb (fun a => startsWith "fc" (group_text a) || startsWith "fd" (group_text a))
    (map (fun n => 252 + Z.of_nat n) (List.seq 0 2) ++ map (fun n => 4032 + Z.of_nat n) (List.seq 0 32) ++
     map (fun n => 64512 + Z.of_nat n) (List.seq 0 512)) = true.
Proof. vm_compute. reflexivity. Qed.

Lemma shifted_in a base k : 0 <= base -> 0 <= k -> (Z.shiftr a k =? 126) = true -> 126 * 2 ^ k <= a < 127 * 2 ^ k.
Proof.
  intros _ Hk H. apply Z.eqb_eq in H. rewrite Z.shiftr_div_pow2 in H by lia. assert (0 < 2 ^ k) by (apply Z.pow_pos_nonneg; lia).
  pose proof (Z.div_mod a (2 ^ k) ltac:(lia)). pose proof (Z.mod_pos_bound a (2 ^ k) ltac:(lia)). nia.
Qed.

Lemma shifted_from a k : 0 <= k -> 126 * 2 ^ k <= a < 127 * 2 ^ k -> (Z.shiftr a k =? 126) = true.
Proof.
  intros Hk H. apply Z.eqb_eq. rewrite Z.shiftr_div_pow2 by lia. symmetry. apply (Z.div_unique _ _ _ (a - 2 ^ k * 126)); lia.
Qed.

Lemma in_offsets base len a : base <= a < base + Z.of_nat len -> List.In a (map (fun n => base + Z.of_nat n) (List.seq 0 len)).
Proof. intros H. apply in_map_iff. exists (Z.to_nat (a - base)). split; [lia|]. apply in_seq. lia. Qed.

Lemma group_text_starts p v a :
  all_chars lower_hex p = true -> hex16 a -> startsWith p (group_text a) = true -> (take_digits 16 0 0 p).1.1 = v ->
  exists k, (String.length p + k <= 4)%nat /\ 16 ^ Z.of_nat k * v <= a < 16 ^ Z.of_nat k * (v + 1).
Proof.
  intros Hp Ha Hs Hv. destruct (group_inv _ _ (group_group_text a Ha)) as [E L]. destruct (startsWith_split _ _ Hs) as [u Eu].
  pose proof (group_text_chars a) as C. rewrite Eu in E, C, L. rewrite all_chars_app, Hp in C. rewrite length_append in L.
  assert (forall x n, take_digits 16 x n (p ++ u) = take_digits 16 (take_digits 16 x n p).1.1 (n + String.length p) u) as T.
  { clear -Hp. induction p as [|c p IH]; intros x n; [cbn; by rewrite Nat.add_0_r|]. cbn [all_chars] in Hp. apply andb_true_iff in Hp as [Hc Hp].
    destruct (lower_hex_value c Hc) as (d & D & Hd). change (String c p ++ u) with (String c (p ++ u)). cbn [take_digits String.length].
    rewrite D, Hd, IH by done. by rewrite <- plus_n_Sm. }
  rewrite T, Hv in E. exists (String.length u). split; [lia|]. pose proof (take_hex_bounds u v (0 + String.length p) C) as B.
  rewrite E in B. exact B.
Qed.

Lemma unique_local_text a :
  hex16 a -> startsWith "fc" (group_text a) || startsWith "fd" (group_text a) = unique_local a.
Proof.
  intros Ha. apply eq_true_iff_eq. unfold unique_local. rewrite !orb_true_iff. split.
  - assert (forall p v, all_chars lower_hex p = true -> String.length p = 2%nat -> (take_digits 16 0 0 p).1.1 = v -> 252 <= v <= 253 ->
              startsWith p (group_text a) = true -> (Z.shiftr a 9 =? 126) = true \/ (Z.shiftr a 5 =? 126) = true \/ (Z.shiftr a 1 =? 126) = true) as G.
    { intros p v Hp L Hv Bv H. destruct (group_text_starts p v a Hp Ha H Hv) as (k & Lk & B). rewrite L in Lk.
      destruct k as [|[|[|]]]; [..|lia]; [do 2 right|right; left|left]; (apply shifted_from; [lia|]); cbn in B |- *; lia. }
    intros [H|H]; [apply (G "fc" 252) in H|apply (G "fd" 253) in H]; try done; tauto.
  - intros H. apply orb_true_iff. pose proof unique_local_ok as F. rewrite forallb_forall in F. apply F. rewrite !in_app_iff.
    destruct H as [[H|H]|H]; apply (shifted_in a 0) in H; try lia; [right; right|right; left|left]; apply in_offsets; lia.
Qed.

Lemma link_local_text a : hex16 a -> startsWith "fe80" (group_text a) = (a =? 65152).
Proof.
  intros Ha. apply eq_true_iff_eq. rewrite Z.eqb_eq. split; [|by intros ->]. intros H.
  destruct (group_text_starts "fe80" 65152 a eq_refl Ha H eq_refl) as (k & L & B). destruct k; [|simpl in L; lia]. cbn in B. lia.
Qed.

(** ** IPv4 addresses inside *)

Lemma canonical_mapped g h :
  hex16 g -> hex16 h -> ipv6_text [0; 0; 0; 0; 0; 65535; g; h] = "::ffff:" ++ group_text g ++ ":" ++ group_text h.
Proof.
  intros _ _. unfold ipv6_text. cbn [best_run zero_run]. change (65535 =? 0) with false. change (0 =? 0) with true. cbn iota beta.
  destruct (h =? 0), (g =? 0); reflexivity.
Qed.

Lemma mapped_text g h :
  hex16 g -> hex16 h ->
  mappedIPv4 (ipv6_text [0; 0; 0; 0; 0; 65535; g; h]) =
    Some (decimal_of (Z.shiftr g 8) ++ "." ++ decimal_of (Z.land g 255) ++ "." ++ decimal_of (Z.shiftr h 8) ++ "." ++ decimal_of (Z.land h 255)).
Proof.
  intros Hg Hh. rewrite canonical_mapped by done. unfold mappedIPv4.
  change (startsWith "::ffff:" ("::ffff:" ++ ?x)) with true. change (drop_chars 7 ("::ffff:" ++ ?x)) with x.
  change (group_text g ++ ":" ++ group_text h) with (join ":" [group_text g; group_text h]).
  rewrite (split_join ":"); [|done|].
  2: { destruct Hg as [Hg _], Hh as [Hh _]. repeat constructor; by apply group_text_no. }
  rewrite !group_text_part by done. cbn [andb].
  destruct (group_inv _ _ (group_group_text g Hg)) as [-> _]. by destruct (group_inv _ _ (group_group_text h Hh)) as [-> _].
Qed.

Lemma mapped_inv gs e :
  length gs = 8%nat -> Forall hex16 gs -> mappedIPv4 (ipv6_text gs) = Some e -> exists g h, gs = [0; 0; 0; 0; 0; 65535; g; h].
Proof.
  intros L H. pose proof (parse_ipv6_text gs L H) as P. unfold mappedIPv4. destruct (startsWith "::ffff:" (ipv6_text gs)) eqn:S; [|done].
  apply startsWith_split in S as [u E]. rewrite E in P |- *. change (drop_chars 7 ("::ffff:" ++ u)) with u.
  destruct (split ":" u) as [|p [|q [|]]] eqn:Su; try done. destruct (hex_part p && hex_part q) eqn:HX; [|done]. intros _.
  apply andb_true_iff in HX as [Hp%hex_part_group Hq%hex_part_group].
  assert (cut_double ("::ffff:" ++ u) = Some (EmptyString, "ffff:" ++ u)) as C by done. unfold parse_ipv6 in P. rewrite C in P.
  change (side false EmptyString) with (Some (@nil Z)) in P. cbv beta iota in P.
  assert (side true ("ffff:" ++ u) = Some [65535; (take_digits 16 0 0 p).1.1; (take_digits 16 0 0 q).1.1]) as Es.
  { unfold side. change ("ffff:" ++ u) with (String.append "ffff" (String ":" u)). rewrite split_app by done.
    rewrite Su. cbn [groups]. by rewrite Hp, Hq. }
  rewrite Es in P. cbn in P. injection P as <-. eauto.
Qed.

(** ** The judgement *)

(** The addresses refused: unspecified, loopback, fe80::/16, unique local (and the short
    groups that share their spelling), and the refused IPv4 addresses, mapped. *)
Definition reserved6 (gs : list Z) : bool :=
  match gs with
  | [a; b; c; d; e; f; g; h] =>
      let low := (b =? 0) && (c =? 0) && (d =? 0) && (e =? 0) in
      (a =? 0) && low && (f =? 0) && (g =? 0) && ((h =? 0) || (h =? 1))
      || (a =? 65152) || unique_local a
      || (a =? 0) && low && (f =? 65535) && reserved4 (g * 65536 + h)
  | _ => false
  end.

Lemma embedded_quad g h :
  hex16 g -> hex16 h ->
  isPrivateIPv4 (decimal_of (Z.shiftr g 8) ++ "." ++ decimal_of (Z.land g 255) ++ "." ++ decimal_of (Z.shiftr h 8) ++ "." ++ decimal_of (Z.land h 255)) =
  reserved4 (g * 65536 + h).
Proof.
  unfold hex16. intros Hg Hh. rewrite !Z.shiftr_div_pow2 by lia. change 255 with (Z.ones 8). rewrite !Z.land_ones by lia.
  change (2 ^ 8) with 256. pose proof (Z.div_mod g 256 ltac:(lia)) as G1. pose proof (Z.mod_pos_bound g 256 ltac:(lia)) as G2.
  pose proof (Z.div_mod h 256 ltac:(lia)) as H1. pose proof (Z.mod_pos_bound h 256 ltac:(lia)) as H2.
  set (x := g / 256) in *. set (y := g mod 256) in *. set (z := h / 256) in *. set (w := h mod 256) in *. clearbody x y z w.
  rewrite isPrivateIPv4_dotted by (unfold octet_ok; lia). f_equal. unfold quad. lia.
Qed.

Lemma isPrivateIPv6_spec address gs :
  parse_ipv6 address = Some gs -> length gs = 8%nat -> Forall hex16 gs -> isPrivateIPv6 address = reserved6 gs.
Proof.
  intros P L H. unfold isPrivateIPv6, canonicalizeIPv6. rewrite P, lower_ipv6_text.
  destruct gs as [|a [|b [|c [|d [|e [|f [|g [|h [|]]]]]]]]]; try done. pose proof H as H'.
  rewrite !Forall_cons in H'. destruct H' as (Ha & Hb & Hc & Hd & He & Hf & Hg & Hh & _).
  rewrite !starts_text by done. rewrite link_local_text, unique_local_text by done. unfold reserved6.
  assert (forall l t, length l = 8%nat -> Forall hex16 l -> ipv6_text l = t ->
            String.eqb (ipv6_text [a; b; c; d; e; f; g; h]) t = bool_decide ([a; b; c; d; e; f; g; h] = l)) as Eq.
  { intros l t Ll Hl <-. apply eq_true_iff_eq. rewrite String.eqb_eq, bool_decide_eq_true. split; [|by intros ->].
    by apply ipv6_text_inj. }
  assert (forall z, 0 <= z < 65536 -> hex16 z) as Hx by done.
  rewrite (Eq [0; 0; 0; 0; 0; 0; 0; 1] "::1"), (Eq [0; 0; 0; 0; 0; 0; 0; 0] "::"); [|done|repeat constructor; done|done|done|repeat constructor; done|done].
  clear Eq. assert (match mappedIPv4 (ipv6_text [a; b; c; d; e; f; g; h]) with Some embedded => isPrivateIPv4 embedded | None => false end =
    (a =? 0) && ((b =? 0) && (c =? 0) && (d =? 0) && (e =? 0)) && (f =? 65535) && reserved4 (g * 65536 + h)) as ->.
  { destruct (mappedIPv4 _) as [t|] eqn:M.
    - pose proof M as M'. apply mapped_inv in M' as (g' & h' & [= -> -> -> -> -> -> -> ->]); [|done|done].
      rewrite mapped_text in M by done. rewrite <- (Some_inj _ _ M). by rewrite embedded_quad.
    - symmetry. apply not_true_iff_false. rewrite !andb_true_iff, !Z.eqb_eq. intros [[[-> [[[-> ->] ->] ->]] ->] _].
      by rewrite mapped_text in M. }
  assert ((a =? 0) && ((b =? 0) && (c =? 0) && (d =? 0) && (e =? 0)) && (f =? 0) && (g =? 0) && ((h =? 0) || (h =? 1)) =
          bool_decide ([a; b; c; d; e; f; g; h] = [0; 0; 0; 0; 0; 0; 0; 1]) || bool_decide ([a; b; c; d; e; f; g; h] = [0; 0; 0; 0; 0; 0; 0; 0])) as ->.
  { apply eq_true_iff_eq. rewrite !orb_true_iff, !andb_true_iff, !orb_true_iff, !bool_decide_eq_true, !Z.eqb_eq. split; [|by intros [[= -> -> -> -> -> -> -> ->]|[= -> -> -> -> -> -> -> ->]]; auto 10].
    intros [[[[-> [[[-> ->] ->] ->]] ->] ->] [->| ->]]; auto. }
  by repeat case_bool_decide; destruct (a =? 65152), (unique_local a).
Qed.

(** ** What is read is in range *)

Lemma group_hex16 s g : group s = Some g -> hex16 g.
Proof.
  intros H. destruct (group_inv s g H) as [E L]. pose proof (take_digits_nonneg 16 0 0 s ltac:(lia) ltac:(lia)) as P. rewrite E in P. cbn in P.
  split; [done|]. assert (forall t a n, 0 <= a -> (take_digits 16 a n t).1.1 < 16 ^ Z.of_nat (String.length t) * (a + 1)) as B.
  { clear. induction t as [|c t IH]; intros a n Ha; [cbn; lia|]. cbn [take_digits String.length]. rewrite Nat2Z.inj_succ, Z.pow_succ_r by lia.
    set (p := 16 ^ _) in *. assert (0 < p) by (apply Z.pow_pos_nonneg; lia). destruct (digit_of c) as [d|] eqn:D; [|cbn; nia].
    destruct (Z.ltb_spec d 16); [|cbn; nia]. assert (0 <= d) by (unfold digit_of in D; repeat case_match; simplify_eq; bools; lia).
    specialize (IH (a * 16 + d) (S n) ltac:(lia)). nia. }
  specialize (B s 0 0%nat ltac:(lia)). rewrite E in B. cbn [fst] in B. assert (16 ^ Z.of_nat (String.length s) <= 16 ^ 4) by (apply Z.pow_le_mono_r; lia). lia.
Qed.

Lemma groups_hex16 quad parts gs : groups quad parts = Some gs -> Forall hex16 gs.
Proof.
  revert gs. induction parts as [|p parts IH]; intros gs; cbn [groups]; [by intros [= <-]|].
  destruct (group p) as [g|] eqn:G.
  - destruct (groups quad parts) as [l|]; [|done]. intros [= <-]. constructor; [by eapply group_hex16|by apply IH].
  - destruct parts; [|done]. destruct (parse_ipv4 p) as [[|a [|b [|c [|d [|]]]]]|] eqn:P; try done. destruct quad; [|done]. intros [= <-].
    unfold parse_ipv4 in P. destruct (map octet _) as [|[] [|[] [|[] [|[] [|]]]]] eqn:M; try done. injection P as -> -> -> ->.
    assert (forall v, List.In (Some v) (map octet (split "." p)) -> octet_ok v) as O.
    { intros v (q & Hq & _)%in_map_iff. by destruct (octet_spec _ _ Hq). }
    rewrite M in O. pose proof (O a ltac:(simpl; tauto)). pose proof (O b ltac:(simpl; tauto)).
    pose proof (O c ltac:(simpl; tauto)). pose proof (O d ltac:(simpl; tauto)). unfold octet_ok in *. clear O.
    constructor; [unfold hex16; lia|]. constructor; [unfold hex16; lia|constructor].
Qed.

Lemma side_hex16 quad s gs : side quad s = Some gs -> Forall hex16 gs.
Proof. unfold side. destruct s; [by intros [= <-]|apply groups_hex16]. Qed.

Lemma parse_ipv6_ok s gs : parse_ipv6 s = Some gs -> length gs = 8%nat /\ Forall hex16 gs.
Proof.
  unfold parse_ipv6. destruct (cut_double s) as [[before after]|].
  - destruct (side false before) as [l|] eqn:El; [|done]. destruct (side true after) as [r|] eqn:Er; [|done].
    destruct (Nat.leb_spec (length l + length r) 7); [|done]. intros [= <-]. split.
    + rewrite !length_app, repeat_length. lia.
    + rewrite !Forall_app. split; [by eapply side_hex16|]. split; [|by eapply side_hex16].
      apply Forall_forall. intros x Hx%list_elem_of_In%repeat_spec. subst. done.
  - destruct (groups true _) as [l|] eqn:E; [|done]. destruct (Nat.eqb_spec (length l) 8); [|done]. intros [= <-].
    split; [done|by eapply groups_hex16].
Qed.

Lemma judged address :
  has_char "%" address = false ->
  isPrivateAddress address =
    match parse_ipv4 address, parse_ipv6 address with
    | Some [a; b; c; d], _ => reserved4 (quad a b c d)
    | _, Some gs => reserved6 gs
    | _, None => true
    end.
Proof.
  intros Hz. unfold isPrivateAddress, isIP. replace (scoped address) with (@None (list Z)) by (unfold scoped; by rewrite (proj2 (cut_none _ _) Hz)).
  destruct (parse_ipv4 address) as [l|] eqn:P4.
  - pose proof P4 as P. unfold parse_ipv4 in P. repeat (case_match; try done). injection P as <-. by apply isPrivateIPv4_spec.
  - destruct (parse_ipv6 address) as [gs|] eqn:P6; [|done]. destruct (parse_ipv6_ok _ _ P6) as [L H]. by apply isPrivateIPv6_spec.
Qed.

(** Fact: the textual rules are rules on numbers: an address without a zone is refused exactly
    when its 32-bit number is in one of nine blocks, or its eight groups are those of an
    address the rules name, whatever its spelling: upper case, leading zeros, compression
    and an embedded dotted quad change nothing; and a text that is no address is refused. *)
Theorem judged_by_value (address : string) :
  has_char "%" address = false ->
  isPrivateAddress address =
    match parse_ipv4 address, parse_ipv6 address with
    | Some [a; b; c; d], _ => reserved4 (quad a b c d)
    | _, Some gs => reserved6 gs
    | _, None => true
    end.
Proof. apply judged. Qed.

Lemma judged_by_value_witness :
  has_char "%" "0:0:0:0:0:FFFF:169.254.169.254" = false /\ isPrivateAddress "0:0:0:0:0:FFFF:169.254.169.254" = true.
Proof. split; [reflexivity|]. rewrite (judged_by_value "0:0:0:0:0:FFFF:169.254.169.254" eq_refl). vm_compute. reflexivity. Defined.

(** Fact: a scoped spelling evades the rules: loopback with a zone, and an IPv4-mapped
    loopback with a zone, are addresses for [isIP] and are judged public; so are the
    link-local addresses past fe80::/16. *)
Theorem scoped_loopback_is_public :
  (isIP "::1%lo" = 6 /\ isPrivateAddress "::1%lo" = false) /\
  (isIP "::ffff:127.0.0.1%lo" = 6 /\ isPrivateAddress "::ffff:127.0.0.1%lo" = false) /\
  isPrivateAddress "fe90::1" = false /\ isPrivateAddress "64:ff9b::7f00:1" = false.
Proof. repeat split; vm_compute; reflexivity. Qed.
