(* ===== verification/WebhooksProps.v ===== *)
(** * Webhooks: what is delivered and what is believed

    A delivery posts only to destinations whose addresses are judged public, and its request
    is believed by a receiver that holds the secret, within the window, however the queue
    stored it; a receiver believes nothing else, and a refused destination is never tried
    again. *)
From S2P Require Import Prelude JsString JsMap JsNumber JsJson Json Queue NodeCrypto IpAddress Web Webhooks.
#[local] Open Scope string_scope.
#[local] Open Scope Z_scope.
#[local] Open Scope list_scope.

(** ** Signatures *)

Section Signatures.
Context `{CryptoLaws}.

(** The bytes under a signature. *)
Definition signed_bytes (timestamp : number) (body : Payload) : list Z :=
  utf8 (number_to_string timestamp) ++ 46 :: payload_bytes body.

Lemma utf8_dot s : utf8 (String.append s ".") = utf8 s ++ [46].
Proof. by rewrite utf8_app. Qed.

Lemma payload_signed timestamp body : payload_bytes (signedPayload timestamp body) = signed_bytes timestamp body.
Proof.
  unfold signed_bytes. destruct body as [s|b]; cbn [signedPayload payload_bytes].
  - rewrite !utf8_app. done.
  - rewrite utf8_app, <- app_assoc. done.
Qed.

Definition hmac_text (secret : string) (message : list Z) : string := toHex (hmac_sha256 (utf8 secret) message).

Lemma verify_timestamped clock body signature secret timestamp tolerance now :
  verify clock body signature secret (mkVerifyOptions (Some timestamp) (Some tolerance) (Some now)) = true <->
  num_lt tolerance (num_abs (num_sub now timestamp)) = false /\ signature = hmac_text secret (signed_bytes timestamp body).
Proof.
  unfold verify. cbn [vo_timestamp vo_toleranceMs vo_now default from_option id]. destruct (num_lt _ _); [by split; [|intros []]|].
  rewrite same_bytes_eq. unfold sign. rewrite payload_signed. split; [by intros <-|by intros [_ ->]].
Qed.

(** ** Inbound requests *)

Context (decode : list Z -> string).

(** The request is fresh: both headers, a finite timestamp in the window. *)
Definition fresh (clock : number) (input : VerifyRequestInput) (options : VerifyRequestOptions) (signature : string) (timestamp : number) : Prop :=
  map_get SIGNATURE_HEADER (in_headers input) = Some signature /\
  (exists stamp, map_get TIMESTAMP_HEADER (in_headers input) = Some stamp /\ timestamp = Number_of_string stamp) /\
  is_finite timestamp = true /\
  num_lt (default DEFAULT_TOLERANCE_MS (vr_toleranceMs options)) (num_abs (num_sub (default clock (vr_now options)) timestamp)) = false.

Lemma precheck_fresh clock input options pre :
  precheckVerifyRequest clock input options = inr pre <->
  fresh clock input options (pre_signature pre) (pre_timestamp pre) /\
  pre_now pre = default clock (vr_now options) /\ pre_toleranceMs pre = default DEFAULT_TOLERANCE_MS (vr_toleranceMs options).
Proof.
  unfold precheckVerifyRequest, fresh. destruct pre as [s t n tol]; cbn [pre_signature pre_timestamp pre_now pre_toleranceMs].
  destruct (map_get SIGNATURE_HEADER _) as [sig|]; [|split; [done|by intros [[? _] _]]].
  destruct (map_get TIMESTAMP_HEADER _) as [stamp|]; [|split; [done|by intros [(_ & (? & ? & _) & _) _]]].
  destruct (is_finite (Number_of_string stamp)) eqn:F; cbn [negb].
  - destruct (num_lt _ _) eqn:L; (split; [intros E|intros [(E1 & (st & E2 & ->) & E3 & E4) [-> ->]]]); try done.
    + simplify_eq. congruence.
    + injection E as <- <- <- <-. split; [|done]. split; [done|]. split; [by eexists|]. done.
    + by simplify_eq.
  - split; [done|]. intros [(_ & (st & [= <-] & ->) & E & _) _]. congruence.
Qed.

(** The secret a receiver checks a fresh request against; never an empty one of a resolver. *)
Definition picks (options : VerifyRequestOptions) (input : VerifyRequestInput) (timestamp : number) (secret : string) : Prop :=
  match vr_secret options with
  | StaticSecret s => secret = s
  | PerRequest resolve => resolve (mkContext input timestamp) = Ok (Some secret) /\ secret <> EmptyString
  end.

Definition event_signed (input : VerifyRequestInput) : option string :=
  match parse (body_text decode (in_body input)) with Some parsed => event_of parsed | None => None end.

Lemma complete_verified clock input pre secret :
  num_lt (pre_toleranceMs pre) (num_abs (num_sub (pre_now pre) (pre_timestamp pre))) = false ->
  completeVerifyRequest decode clock input pre secret =
    if bool_decide (pre_signature pre = hmac_text secret (signed_bytes (pre_timestamp pre) (in_body input)))
    then Verified (event_signed input) else Refused signature_mismatch.
Proof.
  intros L. unfold completeVerifyRequest, event_signed. destruct (verify _ _ _ _ _) eqn:V.
  - apply verify_timestamped in V as [_ ->]. by rewrite bool_decide_eq_true_2.
  - rewrite bool_decide_eq_false_2; [done|]. intros E. apply not_true_iff_false in V. apply V. by apply verify_timestamped.
Qed.

Lemma verified_cases clock input options event :
  (verifyRequest decode clock input options).1 = Ok (Verified event) <->
  exists signature timestamp secret,
    fresh clock input options signature timestamp /\ picks options input timestamp secret /\
    signature = hmac_text secret (signed_bytes timestamp (in_body input)) /\ event = event_signed input.
Proof.
  unfold verifyRequest. destruct (precheckVerifyRequest clock input options) as [r|pre] eqn:P.
  - split.
    + cbn. intros [= ->]. unfold precheckVerifyRequest in P. repeat (case_match; try done).
    + intros (sig & ts & secret & F & _). exfalso.
      assert (precheckVerifyRequest clock input options =
              inr (mkPrecheck sig ts (default clock (vr_now options)) (default DEFAULT_TOLERANCE_MS (vr_toleranceMs options)))) as P'
        by by apply precheck_fresh. congruence.
  - pose proof P as P'. apply precheck_fresh in P as (F & Hn & Ht). pose proof F as (F1 & (st & F2 & F3) & F4 & F5).
    rewrite <- Hn, <- Ht in F5. unfold picks.
    assert (forall secret, completeVerifyRequest decode clock input pre secret = Verified event <->
              pre_signature pre = hmac_text secret (signed_bytes (pre_timestamp pre) (in_body input)) /\ event = event_signed input) as C.
    { intros secret. rewrite complete_verified by done. case_bool_decide; split; intros E; try done; [by injection E as <-|by destruct E as [_ ->]|by destruct E]. }
    assert (forall sig ts, fresh clock input options sig ts -> sig = pre_signature pre /\ ts = pre_timestamp pre) as U.
    { intros sig ts (G1 & (st' & G2 & ->) & _). by simplify_eq. }
    destruct (vr_secret options) as [s|resolve]; cbn [fst].
    + split.
      * intros [= E]. apply C in E. exists (pre_signature pre), (pre_timestamp pre), s. split; [done|]. split; [done|exact E].
      * intros (sig & ts & secret & Fr & -> & E & ->). apply U in Fr as [-> ->]. f_equal. by apply C.
    + split.
      * destruct (resolve _) as [[[|c s]|]|] eqn:R; try done. intros [= E]. apply C in E.
        exists (pre_signature pre), (pre_timestamp pre), (String c s). split; [done|]. split; [done|exact E].
      * intros (sig & ts & secret & Fr & [R Ne] & E & ->). apply U in Fr as [-> ->]. rewrite R. destruct secret as [|c s]; [done|].
        f_equal. by apply C.
Qed.
End Signatures.

(** Fact: a receiver believes exactly what was signed for it: a request is verified when, and
    only when, it has both headers, its timestamp is finite and in the window, a secret is
    picked for it, never an empty one of a resolver, and its signature is the keyed hash of
    its own timestamp and raw body; the event reported is the signed one. The resolver is
    asked about fresh requests only, and without a secret from it the check throws. *)
Theorem believed_iff_signed `{CryptoLaws} (decode : list Z -> string) (clock : number) (input : VerifyRequestInput) (options : VerifyRequestOptions) :
  (forall event, (verifyRequest decode clock input options).1 = Ok (Verified event) <->
     exists signature timestamp secret,
       fresh clock input options signature timestamp /\ picks options input timestamp secret /\
       signature = hmac_text secret (signed_bytes timestamp (in_body input)) /\ event = event_signed decode input) /\
  ((verifyRequest decode clock input options).2 = true -> exists signature timestamp, fresh clock input options signature timestamp) /\
  (forall e, (verifyRequest decode clock input options).1 = Throw e ->
     code e = Some "WEBHOOK_SECRET_UNRESOLVED"%string /\
     exists signature timestamp, fresh clock input options signature timestamp /\ forall secret, ~ picks options input timestamp secret).
Proof.
  split; [intros event; apply verified_cases|]. unfold verifyRequest, picks.
  destruct (precheckVerifyRequest clock input options) as [r|pre] eqn:P; [split; [done|]; intros e; cbn; discriminate|].
  apply precheck_fresh in P as (F & _). split; [intros _; eauto|]. intros e. destruct (vr_secret options) as [s|resolve]; cbn [fst]; [done|].
  destruct (resolve _) as [[[|c s]|]|] eqn:R; try done; intros [= <-]; (split; [done|]); exists (pre_signature pre), (pre_timestamp pre);
    (split; [done|]); intros secret [R' N]; congruence.
Qed.

(** ** Deliveries *)

Lemma payload_safe p : wire_safe (d_payload p) = true -> wire_safe (json_of_payload p) = true.
Proof.
  destruct p as [u e data si tp]. cbn [d_payload]. intros W.
  destruct si, tp; cbn [json_of_payload d_url d_event d_payload d_secretId d_traceparent text_field app wire_safe map fst snd forallb];
    rewrite W; (rewrite bool_decide_eq_true_2; [done|]); repeat constructor; set_solver.
Qed.

Lemma payload_survives p : payload_of_json (json_of_payload p) = Some p.
Proof. by destruct p as [u e data [] []]. Qed.

Section Delivery.
Context `{CryptoLaws} `{UrlParser}.

(** A guard that posts nothing itself. *)
Definition quiet_guard (this : Webhooks) : Prop := forall url post, ~ List.In (Posted post) (urlGuard this url (resolver this)).1.

Lemma default_guard_quiet url r post : ~ List.In (Posted post) (defaultUrlGuard url r).1.
Proof.
  unfold defaultUrlGuard. destruct (parse_url url) as [u|]; [|tauto]. destruct (_ && _); [tauto|]. destruct (negb _); [tauto|].
  destruct (String.eqb _ _); [tauto|]. unfold await. cbn [fst snd]. destruct (r _) as [[|a l]|]; cbn; intuition discriminate.
Qed.

Lemma secret_quiet this sid post : ~ List.In (Posted post) (resolveSecret this sid).1.
Proof.
  unfold resolveSecret, await. destruct (secrets this) as [source|]; [|tauto]. cbn [fst snd].
  destruct (source sid) as [[s|]|]; cbn; intuition discriminate.
Qed.

(** The signature of a delivery: none without a secret's name, else under the secret it names. *)
Definition signature_for (this : Webhooks) (clock : number) (p : DeliverPayload) (signature : option string) : Prop :=
  match d_secretId p with
  | None => signature = None
  | Some sid =>
      exists source secret, secrets this = Some source /\ source sid = Ok (Some secret) /\
        signature = Some (hmac_text secret (signed_bytes clock (Text (body_of p))))
  end.

Lemma signature_await this clock p :
  let m := match d_secretId p with
           | Some secretId =>
               let* secret := resolveSecret this secretId in
               done_with (Some (sign (Text (String.append (number_to_string clock) (String.append "." (body_of p)))) secret))
           | None => done_with None
           end in
  (forall post, ~ List.In (Posted post) m.1) /\ forall signature, m.2 = Ok signature -> signature_for this clock p signature.
Proof.
  unfold signature_for. destruct (d_secretId p) as [sid|]; cbn zeta; [|split; [tauto|by intros s [= <-]]]. split.
  - intros post. unfold await. destruct (resolveSecret this sid) as [e [s|]] eqn:R; cbn; rewrite ?app_nil_r; pose proof (secret_quiet this sid post) as Q; by rewrite R in Q.
  - intros signature. unfold resolveSecret, await. destruct (secrets this) as [source|]; [|done]. cbn [fst snd].
    destruct (source sid) as [[secret|]|] eqn:E; cbn; try done. intros [= <-]. exists source, secret. split; [done|]. split; [done|].
    f_equal. unfold sign, hmac_text. by rewrite <- payload_signed.
Qed.

Lemma deliver_cases this clock p :
  let guard := urlGuard this (d_url p) (resolver this) in
  (exists e, (deliver this clock p).2 = Throw e /\ (forall post, List.In (Posted post) (deliver this clock p).1 -> List.In (Posted post) guard.1) /\
     (marked e = true -> guard.2 = Throw e \/ (exists reason, guard.2 = Ok (Some reason) /\ e = permanentFailure (WebhookError "WEBHOOK_URL_BLOCKED" (String.append "Refusing to deliver webhook: " reason)))
        \/ exists sid source, secrets this = Some source /\ d_secretId p = Some sid /\ source sid = Throw e) /\
     forall reason, guard.2 = Ok (Some reason) -> e = permanentFailure (WebhookError "WEBHOOK_URL_BLOCKED" (String.append "Refusing to deliver webhook: " reason)))
  \/ exists quiet_events signature, guard.2 = Ok None /\ signature_for this clock p signature /\
     (forall post, ~ List.In (Posted post) quiet_events) /\
     deliver this clock p = (guard.1 ++ quiet_events ++ [Posted (post_of clock p signature)], judge this (d_url p) (fetchFn this (post_of clock p signature))).
Proof.
  cbn zeta. pose proof (signature_await this clock p) as [Q S]. cbn zeta in Q, S. unfold deliver.
  destruct (urlGuard this (d_url p) (resolver this)) as [ge [[reason|]|e]] eqn:G; unfold await at 1; cbn [fst snd].
  - left. eexists. split; [reflexivity|]. split; [intros post; cbn; by rewrite app_nil_r|]. split; [eauto|]. by intros r [= ->].
  - set (m := match d_secretId p with Some _ => _ | None => _ end) in *. unfold await. destruct m as [me [signature|e]] eqn:M; cbn [fst snd] in *.
    + right. exists me, signature. split; [done|]. split; [by apply S|]. split; [done|]. done.
    + left. exists e. split; [done|]. split; [intros post [|I]%in_app_iff; [done|by apply Q in I]|]. split; [|done]. intros Hm. right. right.
      revert M. unfold m. destruct (d_secretId p) as [sid|]; [|done]. unfold resolveSecret, await. destruct (secrets this) as [source|].
      * cbn [fst snd]. destruct (source sid) as [[secret|]|] eqn:E; cbn; [done|by intros [= <- <-]|intros [= <- <-]; eauto 10].
      * by intros [= <- <-].
  - left. exists e. split; [done|]. split; [done|]. split; [tauto|done].
Qed.

Lemma posted_cases this clock p post :
  quiet_guard this -> List.In (Posted post) (deliver this clock p).1 ->
  exists signature, signature_for this clock p signature /\ post = post_of clock p signature /\
    (urlGuard this (d_url p) (resolver this)).2 = Ok None /\ (deliver this clock p).2 = judge this (d_url p) (fetchFn this post).
Proof.
  intros Q I. destruct (deliver_cases this clock p) as [(e & _ & C & _)|(me & signature & G & S & N & E)]; [by apply C, Q in I|].
  exists signature. split; [done|]. rewrite E in I |- *. cbn [fst snd] in *. rewrite !in_app_iff in I.
  destruct I as [I|[I|[[= <-]|[]]]]; [by apply Q in I|by apply N in I|done].
Qed.

Lemma post_signature clock p s : map_get SIGNATURE_HEADER (post_headers (post_of clock p (Some s))) = Some s.
Proof. unfold post_of. destruct (d_traceparent p); reflexivity. Qed.

Lemma post_stamp clock p s : map_get TIMESTAMP_HEADER (post_headers (post_of clock p (Some s))) = Some (number_to_string clock).
Proof. unfold post_of. destruct (d_traceparent p); reflexivity. Qed.

Lemma body_reads p : wire_safe (d_payload p) = true -> parse (body_of p) = Some (JObj [("event"%string, JStr (d_event p)); ("data"%string, d_payload p)]).
Proof.
  intros W. apply parse_stringify. cbn [wire_safe map fst snd forallb]. rewrite W, bool_decide_eq_true_2; [done|].
  repeat constructor; set_solver.
Qed.
End Delivery.

(** C28: what a delivery posts is believed, end to end: when a worker posts a signed
    webhook, the body and headers it sends are verified by a receiver that holds the
    secret its name stands for, from the text or from the raw bytes of the body, any time
    within the receiver's tolerance, and the event reported is the one sent; the payload
    itself is the one that was queued. *)
Theorem delivered_is_believed `{CryptoLaws} `{UrlParser} (decode : list Z -> string) (this : Webhooks) (clock : number)
    (p : DeliverPayload) (post : Post) (sid : string) :
  (forall s, decode (utf8 s) = s) -> quiet_guard this -> List.In (Posted post) (deliver this clock p).1 ->
  d_secretId p = Some sid -> wire_safe (d_payload p) = true -> number_prints clock = true ->
  option_map payload_of_json (parse (stringify (json_of_payload p))) = Some (Some p) /\
  exists source secret, secrets this = Some source /\ source sid = Ok (Some secret) /\
    forall receiver_clock now tolerance body,
      body = Text (post_body post) \/ body = Bytes (utf8 (post_body post)) ->
      num_lt tolerance (num_abs (num_sub now clock)) = false ->
      verifyRequest decode receiver_clock (mkInput body (post_headers post))
        (mkVerifyRequest (StaticSecret secret) (Some tolerance) (Some now)) = (Ok (Verified (Some (d_event p))), false).
Proof.
  intros Hd Q I Hs W N. split.
  { rewrite parse_stringify by (by apply payload_safe). cbn [option_map]. by rewrite payload_survives. }
  destruct (posted_cases this clock p post Q I) as (signature & S & -> & _). unfold signature_for in S. rewrite Hs in S.
  destruct S as (source & secret & E1 & E2 & ->). exists source, secret. split; [done|]. split; [done|].
  intros rc now tol body Hb L. unfold number_prints in N. rewrite !andb_true_iff in N. destruct N as [[[F _] _] V%same_value_eq].
  set (input := mkInput body _). set (options := mkVerifyRequest _ _ _).
  assert ((verifyRequest decode rc input options).1 = Ok (Verified (Some (d_event p)))) as E.
  { apply verified_cases. do 2 eexists. exists secret. split.
    - split; [apply post_signature|]. split; [eexists; split; [apply post_stamp|reflexivity]|]. rewrite V. done.
    - split; [done|]. split.
      + rewrite V. unfold signed_bytes. by replace (payload_bytes (in_body input)) with (utf8 (body_of p)) by by destruct Hb as [-> | ->].
      + unfold event_signed. replace (body_text decode (in_body input)) with (body_of p) by (destruct Hb as [-> | ->]; [done|symmetry; apply Hd]).
        by rewrite body_reads. }
  unfold verifyRequest in E |- *. destruct (precheckVerifyRequest _ _ _); cbn in E |- *; by rewrite E.
Qed.

(** ** Destinations *)

Definition judged_public (address : string) : Prop := isPrivateAddress address = false.

(** A destination the default guard lets through: an http or https URL whose host is a
    public address, or a name with addresses, every one of them public. *)
Definition vouched_destination `{UrlParser} (r : Resolver) (url : string) : Prop :=
  exists u, parse_url url = Some u /\ (protocol u = "http:"%string \/ protocol u = "https:"%string) /\
    let host := strip_brackets (hostname u) in
    (isIP host <> 0 -> judged_public host) /\
    (isIP host = 0 -> host <> "localhost"%string /\ exists addresses, r host = Ok addresses /\ addresses <> [] /\ List.Forall judged_public addresses).

Lemma first_private_none l : first_private l = None <-> List.Forall judged_public l.
Proof.
  induction l as [|a l IH]; [split; [constructor|done]|]. cbn [first_private]. rewrite List.Forall_cons_iff, <- IH. unfold judged_public.
  destruct (isPrivateAddress a); [split; [done|by intros [? _]]|tauto].
Qed.

Lemma default_guard_passes `{UrlParser} r url : (defaultUrlGuard url r).2 = Ok None <-> vouched_destination r url.
Proof.
  unfold defaultUrlGuard, vouched_destination. destruct (parse_url url) as [u|]; [|split; [done|by intros (? & ? & _)]].
  assert (forall P : Url -> Prop, (exists v, Some u = Some v /\ P v) <-> P u) as Ex by (intros P; split; [by intros (v & [= <-] & ?)|by exists u]).
  rewrite Ex. cbn zeta. destruct (String.eqb_spec (protocol u) "http:") as [Ep|Ep], (String.eqb_spec (protocol u) "https:") as [Es|Es]; cbn [negb andb];
    try (split; [done|by intros [[?|?] _]]);
    (destruct (Z.eqb_spec (isIP (strip_brackets (hostname u))) 0) as [I|I]; cbn [negb];
     [destruct (String.eqb_spec (strip_brackets (hostname u)) "localhost") as [El|El];
        [split; [done|]; intros (_ & _ & K); by destruct (K I)|
         unfold await; cbn [fst snd]; destruct (r _) as [[|a l]|];
           [split; [done|]; intros (_ & _ & K); destruct (K I) as (_ & ? & [= <-] & N & _); done|
            pose proof (first_private_none (a :: l)) as FP; destruct (first_private (a :: l)); cbn;
              (split; [intros E; first [discriminate E|split; [tauto|]; split; [done|]; intros _; split; [done|]; eexists; split; [reflexivity|]; split; [done|by apply FP]]|
                       intros (_ & _ & K); destruct (K I) as (_ & ? & [= <-] & _ & F); apply FP in F; congruence])|
            split; [done|]; intros (_ & _ & K); destruct (K I) as (_ & ? & ? & _); done]]|
      unfold judged_public; destruct (isPrivateAddress _); cbn; (split; [intros E; first [discriminate E|split; [tauto|]; split; [done|]; intros ?; done]|
        intros (_ & K & _); specialize (K I); congruence])]).
Qed.

Lemma pinned_cases r host options l :
  pinnedLookup r host options = Ok l ->
  exists addresses, r host = Ok addresses /\ List.Forall judged_public addresses /\ l <> [] /\
    forall a f, List.In (a, f) l -> List.In a addresses /\ f = isIP a /\ (default 0 (family options) = 0 \/ f = default 0 (family options)).
Proof.
  unfold pinnedLookup, resolveValidatedAddresses. destruct (r host) as [[|x xs]|]; cbn [outcome_bind]; try done.
  destruct (first_private (x :: xs)) eqn:FP; cbn [outcome_bind]; [done|]. apply first_private_none in FP.
  set (addresses := x :: xs) in *. set (w := default 0 (family options)). set (m := if w =? 0 then addresses else _).
  assert (forall a, List.In a m -> List.In a addresses /\ (w = 0 \/ isIP a = w)) as Hm.
  { intros a. unfold m. destruct (Z.eqb_spec w 0); [by auto|]. intros [Ha Ea]%filter_In. bools. auto. }
  destruct m as [|p ps] eqn:E; [done|]. intros [= <-]. exists addresses. split; [done|]. split; [done|].
  destruct (all options); (split; [done|]); intros a f I.
  - change (List.In (a, f) (map (fun b => (b, isIP b)) (p :: ps))) in I. apply in_map_iff in I as (b & [= <- <-] & I). apply Hm in I. tauto.
  - destruct I as [[= <- <-]|[]]. destruct (Hm p ltac:(by left)). tauto.
Qed.

(** C12: no post to a private destination: with the default guard a delivery posts only to
    the very URL it was asked for, an http or https one, whose host is a public address or
    a name that resolves to public addresses and no other; one private address refuses the
    whole name, and nothing is posted. With the pinned lookup the connection itself is to
    an address that was judged, from the one resolution that it makes. *)
Theorem posts_are_vouched `{CryptoLaws} `{UrlParser} (this : Webhooks) (clock : number) (p : DeliverPayload) :
  urlGuard this = defaultUrlGuard ->
  (forall post, List.In (Posted post) (deliver this clock p).1 ->
     post_url post = d_url p /\ vouched_destination (resolver this) (d_url p)) /\
  (~ vouched_destination (resolver this) (d_url p) -> exists e, (deliver this clock p).2 = Throw e /\ forall post, ~ List.In (Posted post) (deliver this clock p).1) /\
  (forall host options l, pinnedLookup (resolver this) host options = Ok l ->
     l <> [] /\ forall a f, List.In (a, f) l -> judged_public a /\ f = isIP a /\
       exists addresses, resolver this host = Ok addresses /\ List.In a addresses).
Proof.
  intros G. assert (quiet_guard this) as Q by (intros url post; rewrite G; apply default_guard_quiet). split; [|split].
  - intros post I. destruct (posted_cases this clock p post Q I) as (signature & _ & -> & E & _). split; [done|].
    rewrite G in E. by apply default_guard_passes.
  - intros N. destruct (deliver_cases this clock p) as [(e & E & C & _)|(me & signature & E & _)].
    + exists e. split; [done|]. intros post I. by apply C, Q in I.
    + destruct N. rewrite G in E. by apply default_guard_passes.
  - intros host options l E. apply pinned_cases in E as (addresses & Er & F & N & K). split; [done|]. intros a f I.
    destruct (K a f I) as (Ha & -> & _). rewrite List.Forall_forall in F. split; [by apply F|]. split; [done|]. eauto.
Qed.

(** ** On the queue *)

(** Fact: the queue retries what may succeed and nothing else: a pass of a worker over a
    webhook job ends as the delivery does: done when the post was answered well, to be
    retried after a failure while attempts are left, but retired at once, with its message
    on the row and without a post, when the guard refuses the destination. *)
Theorem blocked_delivery_is_retired `{CryptoLaws} `{UrlParser} (queue : QueueOptions) (this : Webhooks) (clock : number) (other : @Handler json)
    pe ne (handlers : gmap string (@Handler json)) (t : Readings) q v (d d' : DB) (res : RunResult) (p : DeliverPayload) :
  handlers !! DELIVER_JOB = Some (deliver_handler this clock other) ->
  runOnce queue pe ne handlers t q v d = (d', Some res) ->
  j_name (res_job res) = DELIVER_JOB -> payload_of_json (j_payload (res_job res)) = Some p ->
  res_outcome res =
    (match (deliver this clock p).2 with
     | Ok _ => ODone
     | Throw e => if (j_maxAttempts (res_job res) <=? j_attempts (res_job res)) || marked e then OFailed else ORetry
     end) /\
  (forall reason, (urlGuard this (d_url p) (resolver this)).2 = Ok (Some reason) ->
     res_outcome res = OFailed /\ (quiet_guard this -> forall post, ~ List.In (Posted post) (deliver this clock p).1) /\
     exists rows, jobs d' = map (fun r => if fence (res_job res) r
       then retire_set (String.append "Refusing to deliver webhook: " reason) (JsTime.nowIso (t_end t)) r else r) rows).
Proof.
  intros Hh R Hn Hp. unfold runOnce in R. destruct (claimRow _ _ _ _ d) as [d1 [r|]]; [|done].
  destruct (json_parse (row_payload r)) as [pl|].
  2: { destruct (fail _ _ _ _ _ _) as [d2 o]. injection R as <- <-. cbn in Hp. discriminate. }
  set (job := with_payload (hydrateMeta r) pl) in *. destruct (handlers !! j_name job) as [h|] eqn:Eh.
  2: { destruct (fail _ _ _ _ _ _) as [d2 o]. injection R as <- <-. cbn [res_job] in Hn. rewrite Hn in Eh. by pose proof (eq_trans (eq_sym Hh) Eh). }
  assert (h = deliver_handler this clock other /\ payload_of_json (j_payload job) = Some p) as [-> Hpl].
  { destruct (h job d1) as [d2 [e|]]; [destruct (fail _ _ _ _ _ _) as [d3 o]|]; injection R as <- <-; cbn [res_job] in Hn, Hp;
      (split; [|done]); rewrite Hn in Eh; pose proof (eq_trans (eq_sym Hh) Eh) as Q; by injection Q as <-. }
  unfold deliver_handler in R. rewrite Hpl in R. destruct (deliver this clock p).2 as [u|e] eqn:D.
  - injection R as <- <-. split; [done|]. intros reason Er. exfalso.
    destruct (deliver_cases this clock p) as [(e & E & _)|(me & signature & E & _)]; congruence.
  - unfold fail, js_error in R. cbn [message permanent] in R. destruct (_ || marked e) eqn:L; injection R as <- <-; cbn [res_job res_outcome];
      (split; [by rewrite L|]); intros reason Er;
      destruct (deliver_cases this clock p) as [(e' & E & C & _ & K)|(me & signature & E & _)]; try congruence;
      assert (e = e') as <- by congruence; rewrite (K reason Er) in *.
    + split; [done|]. split; [intros Q post I; by apply C, Q in I|]. by eexists.
    + cbn in L. by rewrite orb_true_r in L.
Qed.

(** ** What a signature binds *)

Lemma dot_free_utf8 s : has_char "." s = false -> ~ List.In 46 (utf8 s).
Proof.
  induction s as [|c s IH]; [tauto|]. cbn [has_char utf8]. intros [Hc Hs]%orb_false_iff. apply Ascii.eqb_neq in Hc.
  pose proof (nat_ascii_bounded c) as B. assert (nat_of_ascii c <> 46%nat) as N by (intros E; apply Hc; by apply nat_of_ascii_inj).
  destruct (Z.ltb_spec (Z.of_nat (nat_of_ascii c)) 128); cbn [List.In].
  - intros [E|I]; [lia|exact (IH Hs I)].
  - intros [E|[E|I]]; [|pose proof (Z.mod_pos_bound (Z.of_nat (nat_of_ascii c)) 64); lia|exact (IH Hs I)].
    pose proof (Z.div_pos (Z.of_nat (nat_of_ascii c)) 64). lia.
Qed.

Lemma split_at_dot (a b x y : list Z) : ~ List.In 46 a -> ~ List.In 46 b -> a ++ 46 :: x = b ++ 46 :: y -> a = b /\ x = y.
Proof.
  revert b. induction a as [|c a IH]; intros [|e b]; cbn [app]; intros Ha Hb E.
  - by injection E as ->.
  - injection E as <- _. destruct Hb. by left.
  - injection E as -> _. destruct Ha. by left.
  - injection E as -> E. apply IH in E as [-> ->]; [done|..]; intros I; [apply Ha|apply Hb]; by right.
Qed.

(** Fact: a captured signature serves its own request only: a signature minted over one
    timestamp and body verifies, for whole timestamps, only with a timestamp of the same
    text and a body of the same bytes, or the hash has a collision; and never outside the
    window around the receiver's clock. *)
Theorem capture_serves_one_request `{CryptoLaws} (clock timestamp timestamp' tolerance now : number) (body body' : Payload) (secret : string) :
  has_char "." (number_to_string timestamp) = false -> has_char "." (number_to_string timestamp') = false ->
  verify clock body' (sign (signedPayload timestamp body) secret) secret (mkVerifyOptions (Some timestamp') (Some tolerance) (Some now)) = true ->
  num_lt tolerance (num_abs (num_sub now timestamp')) = false /\
  (number_to_string timestamp' = number_to_string timestamp /\ payload_bytes body' = payload_bytes body \/
   collision (utf8 secret) (signed_bytes timestamp body) (signed_bytes timestamp' body')).
Proof.
  intros H1 H2 V. apply verify_timestamped in V as [L E]. split; [done|]. unfold sign in E. rewrite payload_signed in E.
  apply toHex_inj in E; [|apply hmac_sha256_bytes..].
  destruct (decide (signed_bytes timestamp body = signed_bytes timestamp' body')) as [S|N]; [left|right; by split].
  apply split_at_dot in S as [S ->]; [|by apply dot_free_utf8..]. split; [|done]. by apply utf8_inj.
Qed.

(** Fact: for a timestamp that is not whole the binding is ambiguous: a body that begins
    with digits and a dot lends them to the timestamp, and the same signature verifies
    what is left of it, with a timestamp that the window takes. *)
Theorem fractional_timestamp_shifts_the_body `{CryptoLaws} (secret : string) :
  let sent := int 17 in
  verify sent (Text "x=1") (sign (signedPayload sent (Text "5.x=1")) secret) secret
    (mkVerifyOptions (Some (Number_of_string "17.5")) None (Some sent)) = true.
Proof.
  cbn zeta. unfold verify. cbn [vo_timestamp vo_toleranceMs vo_now default from_option id].
  match goal with |- (if ?b then _ else _) = _ => replace b with false by (vm_compute; reflexivity) end.
  apply same_bytes_eq. unfold sign.
  assert (payload_bytes (signedPayload (Number_of_string "17.5") (Text "x=1")) = payload_bytes (signedPayload (int 17) (Text "5.x=1"))) as E
    by (vm_compute; reflexivity).
  exact (f_equal (fun m => toHex (hmac_sha256 (utf8 secret) m)) E).
Qed.

(** ** Examples *)

#[local] Existing Instance toy_crypto.
#[local] Existing Instance toy_crypto_laws.

(** Hosts by name, for two URLs. *)
#[local] Instance two_urls : UrlParser := fun text =>
  if String.eqb text "https://hooks.example/in" then Some (mkUrl "https:" "hooks.example")
  else if String.eqb text "http://[::1]/" then Some (mkUrl "http:" "[::1]") else None.

Definition a_deployment : Webhooks :=
  mkWebhooks (fun _ => Answered true 200) (Some (fun _ => Ok (Some "s3cret"%string)))
    (fun _ => Ok ["93.184.216.34"%string]) defaultUrlGuard (int 10000).
Definition a_delivery : DeliverPayload := mkDeliver "https://hooks.example/in" "note.created" (JObj [("id"%string, JStr "7")]) (Some "k1"%string) None.
Definition a_clock : number := int 5.
Definition a_signature : string := sign (Text (String.append (number_to_string a_clock) (String.append "." (body_of a_delivery)))) "s3cret".
Definition a_post : Post := post_of a_clock a_delivery (Some a_signature).

Lemma a_post_sent : List.In (Posted a_post) (deliver a_deployment a_clock a_delivery).1.
Proof. vm_compute. do 2 right. left. reflexivity. Qed.

Lemma delivered_is_believed_witness :
  exists secret, verifyRequest decode_latin (int 0) (mkInput (Bytes (utf8 (post_body a_post))) (post_headers a_post))
    (mkVerifyRequest (StaticSecret secret) (Some DEFAULT_TOLERANCE_MS) (Some (int 6))) = (Ok (Verified (Some "note.created"%string)), false).
Proof.
  destruct (delivered_is_believed decode_latin a_deployment a_clock a_delivery a_post "k1" decode_latin_utf8
              (fun url post => default_guard_quiet url _ post) a_post_sent eq_refl eq_refl ltac:(vm_compute; reflexivity))
    as [_ (source & secret & _ & _ & V)].
  exists secret. apply V; [right; reflexivity|vm_compute; reflexivity].
Defined.

Definition a_request : VerifyRequestInput := mkInput (Bytes (utf8 (post_body a_post))) (post_headers a_post).
Definition a_check : VerifyRequestOptions := mkVerifyRequest (StaticSecret "s3cret") (Some DEFAULT_TOLERANCE_MS) (Some (int 6)).

Lemma believed_iff_signed_witness :
  exists timestamp secret, (verifyRequest decode_latin (int 0) a_request a_check).1 = Ok (Verified (Some "note.created"%string)) /\
    a_signature = hmac_text secret (signed_bytes timestamp (in_body a_request)).
Proof.
  assert (V : (verifyRequest decode_latin (int 0) a_request a_check).1 = Ok (Verified (Some "note.created"%string))) by (vm_compute; reflexivity).
  destruct (proj1 (proj1 (believed_iff_signed decode_latin (int 0) a_request a_check) (Some "note.created"%string)) V)
    as (signature & timestamp & secret & [Hs _] & _ & E & _).
  exists timestamp, secret. split; [exact V|]. injection Hs as <-. exact E.
Defined.

Lemma posts_are_vouched_witness : vouched_destination (resolver a_deployment) "https://hooks.example/in".
Proof. exact (proj2 (proj1 (posts_are_vouched a_deployment a_clock a_delivery eq_refl) a_post a_post_sent)). Defined.

Lemma capture_serves_one_request_witness :
  verify a_clock (Text "x") (sign (signedPayload a_clock (Text "x")) "s3cret") "s3cret" (mkVerifyOptions (Some a_clock) (Some (int 5)) (Some a_clock)) = true /\
  num_lt (int 5) (num_abs (num_sub a_clock a_clock)) = false.
Proof.
  assert (verify a_clock (Text "x") (sign (signedPayload a_clock (Text "x")) "s3cret") "s3cret" (mkVerifyOptions (Some a_clock) (Some (int 5)) (Some a_clock)) = true) as V
    by (vm_compute; reflexivity).
  split; [exact V|].
  exact (proj1 (capture_serves_one_request a_clock a_clock a_clock (int 5) a_clock (Text "x") (Text "x") "s3cret"
           ltac:(vm_compute; reflexivity) ltac:(vm_compute; reflexivity) V)).
Defined.

Definition queue0 : QueueOptions := default_options.
Definition blocked_db : DB := Eval vm_compute in fst (send queue0 0 0 None "http://[::1]/" "note.created" JNull (Some "k1"%string) None installSchema).
Definition webhook_handlers : gmap string (@Handler json) := {[DELIVER_JOB := deliver_handler a_deployment a_clock (fun _ d => (d, None))]}.
Definition plain_error : JsError := mkJsError "error" false.
Definition a_pass : DB * option RunResult :=
  runOnce queue0 (fun _ => plain_error) (fun _ => plain_error) webhook_handlers (mkReadings 1 1 2 2) None None blocked_db.

Definition a_refused : DeliverPayload := mkDeliver "http://[::1]/" "note.created" JNull (Some "k1"%string) None.
Definition passed : DB * RunResult :=
  Eval vm_compute in match a_pass with (d, Some res) => (d, res) | (d, None) => (d, mkRunResult (hydrateMeta (mkRow 0 "" "" "" Ready 0 0 0 "" None None None "" "" None)) OFailed) end.

Lemma a_pass_eq :
  runOnce queue0 (fun _ => plain_error) (fun _ => plain_error) webhook_handlers (mkReadings 1 1 2 2) None None blocked_db = (passed.1, Some passed.2).
Proof. vm_compute. reflexivity. Qed.

Lemma handler_registered : webhook_handlers !! DELIVER_JOB = Some (deliver_handler a_deployment a_clock (fun _ d => (d, None))).
Proof. apply lookup_singleton_eq. Qed.

Lemma passed_job : j_name (res_job passed.2) = DELIVER_JOB /\ payload_of_json (j_payload (res_job passed.2)) = Some a_refused.
Proof. split; vm_compute; reflexivity. Qed.

Lemma refused_guard :
  (urlGuard a_deployment (d_url a_refused) (resolver a_deployment)).2 = Ok (Some "host ::1 is a private/reserved address."%string).
Proof. vm_compute. reflexivity. Qed.

Lemma blocked_delivery_is_retired_witness : res_outcome passed.2 = OFailed.
Proof.
  exact (proj1 (proj2 (blocked_delivery_is_retired queue0 a_deployment a_clock (fun _ d => (d, None)) (fun _ => plain_error) (fun _ => plain_error)
    webhook_handlers (mkReadings 1 1 2 2) None None blocked_db passed.1 passed.2 a_refused
    handler_registered a_pass_eq (proj1 passed_job) (proj2 passed_job)) "host ::1 is a private/reserved address."%string refused_guard)).
Defined.
