(* ===== verification/Totp.v ===== *)
(** * One-time passwords

    [packages/auth/src/totp.ts]: secrets in base32, written and read through 32-bit
    registers; the code of a counter; the check of a code against the steps around now. *)
From S2P Require Import Prelude JsString Base64 JsNumber LiveShape NodeCrypto Web IpAddress.
#[local] Open Scope string_scope.
#[local] Open Scope Z_scope.

(** ** Base32 *)

Definition BASE32_ALPHABET : string := "ABCDEFGHIJKLMNOPQRSTUVWXYZ234567".
Definition DEFAULT_TIME_STEP_SECONDS : number := int 30.
Definition DEFAULT_DIGITS : Z := 6.
Definition DEFAULT_WINDOW : Z := 1.
Definition SECRET_BYTES : nat := 20.

(** The while loop of both directions: the [out] bits on top of the register, as long as
    there are that many; the outputs, and the bits left. One turn per bit is enough. *)
Fixpoint drain (fuel : nat) (out bits value : Z) : list Z * Z :=
  match fuel with
  | O => ([], bits)
  | S fuel' =>
      if out <=? bits then
        let bits := bits - out in
        let '(rest, remaining) := drain fuel' out bits value in
        (js_and (js_ushr value bits) (2 ^ out - 1) :: rest, remaining)
      else ([], bits)
  end.

(** The for loop: [inp] bits of every item pushed into the register. *)
Fixpoint repack (inp out bits value : Z) (items : list Z) : list Z :=
  match items with
  | [] => []
  | item :: rest =>
      let value := js_or (js_shl value inp) item in
      let '(emitted, bits) := drain (Z.to_nat (bits + inp)) out (bits + inp) value in
      (emitted ++ repack inp out bits value rest)%list
  end.

Definition symbol (i : Z) : ascii := default "A"%char (String.get (Z.to_nat i) BASE32_ALPHABET).

Definition base32Encode (bytes : list Z) : string := string_of_list_ascii (map symbol (repack 8 5 0 0 bytes)).

(** [BASE32_ALPHABET.indexOf(char)]; [None] for -1. *)
Fixpoint index_in (c : ascii) (i : Z) (s : string) : option Z :=
  match s with EmptyString => None | String d s' => if Ascii.eqb c d then Some i else index_in c (i + 1) s' end.

(** [toUpperCase]: the sharp s becomes two letters; the capitals of two more are beyond
    these code units, and as little in the alphabet as they are. *)
Definition upper_chars (c : ascii) : string :=
  let n := nat_of_ascii c in
  if ((97 <=? n) && (n <=? 122) || (224 <=? n) && (n <=? 254) && negb (n =? 247))%nat then String (ascii_of_nat (n - 32)) EmptyString
  else if (n =? 223)%nat then "SS" else String c EmptyString.

(** [input.replace(/[\s=]/g, "").toUpperCase()]. *)
Fixpoint cleaned (s : string) : string :=
  match s with
  | EmptyString => EmptyString
  | String c s' => if is_space c || Ascii.eqb c "=" then cleaned s' else upper_chars c ++ cleaned s'
  end.

Fixpoint indices (s : string) : option (list Z) :=
  match s with
  | EmptyString => Some []
  | String c s' =>
      match index_in c 0 BASE32_ALPHABET, indices s' with
      | Some i, Some l => Some (i :: l)
      | _, _ => None
      end
  end.

Definition base32Decode (input : string) : option (list Z) :=
  let c := cleaned input in
  if String.eqb c EmptyString then None
  else match indices c with Some l => Some (repack 5 8 0 0 l) | None => None end.

(** Given the random bytes it draws. *)
Definition generateTotpSecret (randomBytes : list Z) : string := base32Encode randomBytes.

(** ** Codes *)

(** A whole number as an integer; [None] where [BigInt] throws. *)
Definition whole (a : number) : option Z :=
  match a with NegZero => Some 0 | Units k => if k mod one =? 0 then Some (k / one) else None | _ => None end.

(** Eight bytes, big-endian; [None] where [writeBigUInt64BE] throws. *)
Fixpoint big_endian_bytes (n : nat) (v : Z) : list Z :=
  match n with O => [] | S n' => (big_endian_bytes n' (v / 256) ++ [v mod 256])%list end.

Definition counterBuffer (counter : Z) : option (list Z) :=
  if (0 <=? counter) && (counter <? 18446744073709551616) then Some (big_endian_bytes 8 counter) else None.

Definition padStart (digits : Z) (s : string) : string := pad_start (Z.to_nat digits) s.

Section Codes.
Context `{Crypto}.

(** The four bytes the last nibble points to, without the sign. *)
Definition truncation (hmac : list Z) : Z :=
  let at_ i := nth (Z.to_nat i) hmac 0 in
  let offset := js_and (List.last hmac 0) 15 in
  js_or (js_or (js_or (js_shl (js_and (at_ offset) 127) 24) (js_shl (js_and (at_ (offset + 1)) 255) 16))
           (js_shl (js_and (at_ (offset + 2)) 255) 8)) (js_and (at_ (offset + 3)) 255).

(** [None] for a secret that is no base32. *)
Definition hotp (secret : string) (counter digits : Z) : outcome JsThrown (option string) :=
  match base32Decode secret with
  | None => Ok None
  | Some key =>
      match counterBuffer counter with
      | None => Throw OtherError
      | Some buffer => Ok (Some (padStart digits (decimal_of (truncation (hmac_sha1 key buffer) mod 10 ^ digits))))
      end
  end.

Definition counterFor (clock timeStep : number) : number := num_floor (num_div (num_div clock (int 1000)) timeStep).

Record TotpOptions : Type := mkTotp { timeStep : option number; digits : option Z; window : option Z }.

(** [clock] is what the clock reads. *)
Definition totpCode (clock : number) (secret : string) (options : TotpOptions) : outcome JsThrown (option string) :=
  match whole (counterFor clock (default DEFAULT_TIME_STEP_SECONDS (timeStep options))) with
  | Some counter => hotp secret counter (default DEFAULT_DIGITS (digits options))
  | None => match base32Decode secret with None => Ok None | Some _ => Throw OtherError end
  end.

(** It throws on texts of different lengths. *)
Definition codesMatch (a b : string) : outcome JsThrown bool :=
  match timingSafeEqual (utf8 a) (utf8 b) with Some r => Ok r | None => Throw OtherError end.

Definition is_decimal (c : ascii) : bool := let n := nat_of_ascii c in ((48 <=? n) && (n <=? 57))%nat.

(** The for loop, over the steps that are left. *)
Fixpoint search (secret code : string) (digits : Z) (steps : list Z) : outcome JsThrown (option Z) :=
  match steps with
  | [] => Ok None
  | step :: rest =>
      let! expected := hotp secret step digits in
      match expected with
      | None => Ok None
      | Some e => let! same := codesMatch e code in if same : bool then Ok (Some step) else search secret code digits rest
      end
  end.

(** From -[window] to [window], around [base]. *)
Definition steps_around (base window : Z) : list Z :=
  map (fun i => base - window + Z.of_nat i) (List.seq 0 (Z.to_nat (2 * window + 1))).

Definition verifyTotpStep (clock : number) (secret code : string) (options : TotpOptions) : outcome JsThrown (option Z) :=
  let digits := default DEFAULT_DIGITS (digits options) in
  let window := default DEFAULT_WINDOW (window options) in
  if negb (Nat.eqb (String.length code) (Z.to_nat digits) && all_chars is_decimal code) then Ok None
  else
    match whole (counterFor clock (default DEFAULT_TIME_STEP_SECONDS (timeStep options))) with
    | Some base => search secret code digits (steps_around base window)
    | None => if window <? 0 then Ok None else match base32Decode secret with None => Ok None | Some _ => Throw OtherError end
    end.

Definition verifyTotp (clock : number) (secret code : string) (options : TotpOptions) : outcome JsThrown bool :=
  let! step := verifyTotpStep clock secret code options in Ok (bool_decide (is_Some step)).
End Codes.

(** ** The provisioning URI *)

Definition upper_hex (d : Z) : ascii := ascii_of_nat (Z.to_nat (if d <? 10 then d + 48 else d + 55)).

Definition alphanumeric (c : ascii) : bool :=
  let n := nat_of_ascii c in ((48 <=? n) && (n <=? 57) || (65 <=? n) && (n <=? 90) || (97 <=? n) && (n <=? 122))%nat.

Definition escaped (bytes : list Z) : string :=
  fold_right (fun b s => String "%" (String (upper_hex (b / 16)) (String (upper_hex (b mod 16)) s))) EmptyString bytes.

(** Characters kept as they are, the others as the escapes of their UTF-8 bytes. *)
Fixpoint percent (keep : ascii -> option ascii) (s : string) : string :=
  match s with
  | EmptyString => EmptyString
  | String c s' => match keep c with Some d => String d EmptyString | None => escaped (utf8 (String c EmptyString)) end ++ percent keep s'
  end.

(** [encodeURIComponent], which throws on no code unit below 256. *)
Definition encodeURIComponent (s : string) : string :=
  percent (fun c => if alphanumeric c || existsb (Ascii.eqb c) (list_ascii_of_string "-_.!~*'()") then Some c else None) s.

(** [new URLSearchParams(entries).toString()]. *)
Definition form_encode (s : string) : string :=
  percent (fun c => if alphanumeric c || existsb (Ascii.eqb c) (list_ascii_of_string "*-._") then Some c
                    else if Ascii.eqb c " " then Some "+"%char else None) s.

Definition form_text (entries : list (string * string)) : string :=
  join "&" (map (fun kv => form_encode kv.1 ++ "=" ++ form_encode kv.2) entries).

(** [digits] is a whole number. *)
Definition totpKeyUri (secret issuer_ account_ : string) (digits : option Z) (timeStep : option number) : string :=
  let issuer := encodeURIComponent issuer_ in
  let account := encodeURIComponent account_ in
  let params := form_text
    [("secret", secret); ("issuer", issuer_); ("algorithm", "SHA1"); ("digits", decimal_of (default DEFAULT_DIGITS digits));
     ("period", number_to_string (default DEFAULT_TIME_STEP_SECONDS timeStep))] in
  "otpauth://totp/" ++ issuer ++ ":" ++ account ++ "?" ++ params.

(** * One-time passwords: what a code proves

    A secret's text reads back as its bytes, spaced or in small letters too; a code is the
    fixed number of digits; and a code is accepted exactly for a step of the window, the
    earliest that has it, without an exception while the window holds counters. *)
#[local] Open Scope string_scope.
#[local] Open Scope Z_scope.
#[local] Open Scope list_scope.

(** ** Registers *)

Lemma to_int32_low n k : 0 <= k <= 32 -> to_int32 n mod 2 ^ k = n mod 2 ^ k.
Proof.
  intros Hk. unfold to_int32. assert (2 ^ k * 2 ^ (32 - k) = 4294967296) as P by (rewrite <- Z.pow_add_r by lia; by replace (k + (32 - k)) with 32 by lia).
  assert (0 < 2 ^ k) by (apply Z.pow_pos_nonneg; lia). assert (0 < 2 ^ (32 - k)) by (apply Z.pow_pos_nonneg; lia).
  set (p := 2 ^ k) in *. set (q := 2 ^ (32 - k)) in *.
  assert ((n mod 4294967296) mod p = n mod p) as E.
  { rewrite <- P, Z.rem_mul_r by lia. rewrite Z.mul_comm, Z.mod_add by lia. apply Z.mod_mod. lia. }
  case_match; [done|]. rewrite <- E, <- P. replace (n mod (p * q) - p * q) with (n mod (p * q) + - q * p) by lia. apply Z.mod_add. lia.
Qed.

Lemma js_or_low a b k : 0 <= k <= 32 -> js_or a b mod 2 ^ k = Z.lor (a mod 2 ^ k) (b mod 2 ^ k).
Proof.
  intros Hk. unfold js_or. rewrite to_int32_low by done. rewrite <- (to_int32_low a k), <- (to_int32_low b k) by done.
  rewrite <- !Z.land_ones by lia. apply Z.land_lor_distr_l.
Qed.

Lemma js_shl_low a w k : 0 <= w -> w <= k <= 32 -> js_shl a w mod 2 ^ k = 2 ^ w * (a mod 2 ^ (k - w)).
Proof.
  intros Hw Hk. unfold js_shl. rewrite to_int32_low by lia. rewrite Z.shiftl_mul_pow2 by lia.
  replace (2 ^ k) with (2 ^ (k - w) * 2 ^ w) by (rewrite <- Z.pow_add_r by lia; f_equal; lia).
  rewrite Z.mul_mod_distr_r by (apply Z.pow_nonzero; lia). rewrite to_int32_low by lia. lia.
Qed.

Lemma lor_add a b w : 0 <= w -> 0 <= b < 2 ^ w -> Z.lor (2 ^ w * a) b = 2 ^ w * a + b.
Proof.
  intros Hw Hb. rewrite <- Z.lxor_lor, <- Z.add_nocarry_lxor; [done|..];
    apply Z.bits_inj'; intros i Hi; rewrite Z.land_spec, Z.bits_0, Z.mul_comm, <- Z.shiftl_mul_pow2, Z.shiftl_spec by lia;
    (destruct (Z.lt_ge_cases i w);
     [rewrite (Z.testbit_neg_r a) by lia; done|
      rewrite <- (Z.mod_small b (2 ^ w)), Z.mod_pow2_bits_high, andb_false_r by lia; done]).
Qed.

(** Pushing an item into the low bits. *)
Lemma push_low value item inp k :
  0 <= inp -> 0 <= k -> k + inp <= 32 -> 0 <= item < 2 ^ inp ->
  js_or (js_shl value inp) item mod 2 ^ (k + inp) = 2 ^ inp * (value mod 2 ^ k) + item.
Proof.
  intros Hi Hk Hs Hb. rewrite js_or_low, js_shl_low by lia. replace (k + inp - inp) with k by lia.
  rewrite (Z.mod_small item); [by apply lor_add|]. split; [lia|]. eapply Z.lt_le_trans; [apply Hb|]. apply Z.pow_le_mono_r; lia.
Qed.

(** Reading the bits above the low [k]. *)
Lemma read_top value out k :
  0 <= out <= 31 -> 0 <= k -> k + out <= 32 -> js_and (js_ushr value k) (2 ^ out - 1) = value mod 2 ^ (k + out) / 2 ^ k.
Proof.
  intros Ho Hk Hs. unfold js_and, js_ushr. assert (to_int32 (2 ^ out - 1) mod 2 ^ 32 = 2 ^ out - 1) as M.
  { rewrite to_int32_low by lia. apply Z.mod_small. assert (0 < 2 ^ out <= 2 ^ 31) by (split; [apply Z.pow_pos_nonneg; lia|apply Z.pow_le_mono_r; lia]).
    change (2 ^ 31) with 2147483648 in *. change (2 ^ 32) with 4294967296. lia. }
  assert (0 <= 2 ^ out - 1 < 2147483648) as B.
  { assert (0 < 2 ^ out <= 2 ^ 31) by (split; [apply Z.pow_pos_nonneg; lia|apply Z.pow_le_mono_r; lia]). change (2 ^ 31) with 2147483648 in *. lia. }
  assert (to_int32 (2 ^ out - 1) = 2 ^ out - 1) as ->.
  { unfold to_int32. rewrite Z.mod_small by lia. case_match; [done|]. bools. lia. }
  replace (2 ^ out - 1) with (Z.ones out) by (rewrite Z.ones_equiv; lia). rewrite Z.land_ones by lia. rewrite to_int32_low by lia.
  assert (to_int32 value mod 4294967296 = value mod 4294967296) as -> by exact (to_int32_low value 32 ltac:(lia)).
  rewrite Z.shiftr_div_pow2 by lia.
  assert (0 <= value mod 2 ^ (k + out) / 2 ^ k < 2 ^ out) as R.
  { assert (0 < 2 ^ (k + out)) by (apply Z.pow_pos_nonneg; lia). assert (0 < 2 ^ k) by (apply Z.pow_pos_nonneg; lia).
    pose proof (Z.mod_pos_bound value (2 ^ (k + out)) ltac:(lia)). split; [apply Z.div_pos; lia|].
    apply Z.div_lt_upper_bound; [lia|]. rewrite <- Z.pow_add_r by lia. lia. }
  assert ((value mod 4294967296 / 2 ^ k) mod 2 ^ out = value mod 2 ^ (k + out) / 2 ^ k) as ->.
  { rewrite Z.pow_add_r by lia. assert (0 < 2 ^ k) by (apply Z.pow_pos_nonneg; lia). assert (0 < 2 ^ out) by (apply Z.pow_pos_nonneg; lia).
    change 4294967296 with (2 ^ 32). replace (2 ^ 32) with (2 ^ k * (2 ^ out * 2 ^ (32 - k - out)))
      by (rewrite <- !Z.pow_add_r by lia; f_equal; lia).
    assert (0 < 2 ^ (32 - k - out)) by (apply Z.pow_pos_nonneg; lia).
    rewrite !Z.rem_mul_r by lia. rewrite !(Z.mul_comm (2 ^ k)), !Z.div_add by lia. rewrite !Z.div_small by (apply Z.mod_pos_bound; lia).
    rewrite Z.add_0_l, Z.mul_comm, Z.mod_add by lia. rewrite Z.mod_mod by lia. lia. }
  unfold to_int32. assert (2 ^ out <= 2 ^ 31) by (apply Z.pow_le_mono_r; lia). change (2 ^ 31) with 2147483648 in *.
  rewrite Z.mod_small by lia. case_match; [done|]. bools. lia.
Qed.

(** ** Bits *)

Fixpoint to_bits (w : nat) (n : Z) : list bool := match w with O => [] | S w' => to_bits w' (n / 2) ++ [Z.odd n] end.
Definition of_bits (bs : list bool) : Z := fold_left (fun a b => 2 * a + Z.b2z b) bs 0.
Definition width (bs : list bool) : Z := Z.of_nat (length bs).

Lemma of_bits_snoc bs b : of_bits (bs ++ [b]) = 2 * of_bits bs + Z.b2z b.
Proof. unfold of_bits. by rewrite fold_left_app. Qed.

Lemma of_bits_range bs : 0 <= of_bits bs < 2 ^ width bs.
Proof.
  induction bs as [|b bs IH] using rev_ind; [by vm_compute|]. unfold width in *. rewrite of_bits_snoc, length_app, Nat2Z.inj_add, Z.pow_add_r by lia.
  change (2 ^ Z.of_nat (length [b])) with 2. destruct b; cbn [Z.b2z]; lia.
Qed.

Lemma of_bits_app a b : of_bits (a ++ b) = 2 ^ width b * of_bits a + of_bits b.
Proof.
  induction b as [|x b IH] using rev_ind; [rewrite app_nil_r; change (of_bits []) with 0; change (2 ^ width []) with 1; lia|].
  rewrite app_assoc, !of_bits_snoc, IH. unfold width. rewrite length_app, Nat2Z.inj_add, Z.pow_add_r by lia.
  change (2 ^ Z.of_nat (length [x])) with 2. lia.
Qed.

Lemma to_bits_length w n : length (to_bits w n) = w.
Proof. revert n. induction w as [|w IH]; intros n; [done|]. cbn [to_bits]. rewrite length_app, IH. simpl. lia. Qed.

Lemma of_to_bits w n : 0 <= n < 2 ^ Z.of_nat w -> of_bits (to_bits w n) = n.
Proof.
  revert n. induction w as [|w IH]; intros n Hn; [change (2 ^ Z.of_nat 0) with 1 in Hn; cbn; lia|]. cbn [to_bits].
  rewrite Nat2Z.inj_succ, Z.pow_succ_r in Hn by lia. rewrite of_bits_snoc, IH by (split; [apply Z.div_pos; lia|apply Z.div_lt_upper_bound; lia]).
  pose proof (Z.div_mod n 2 ltac:(lia)) as D. rewrite Zmod_odd in D. destruct (Z.odd n); cbn [Z.b2z]; lia.
Qed.

Lemma to_of_bits bs : to_bits (length bs) (of_bits bs) = bs.
Proof.
  induction bs as [|b bs IH] using rev_ind; [done|]. rewrite of_bits_snoc, length_app, Nat.add_comm. cbn [length Nat.add to_bits].
  assert ((2 * of_bits bs + Z.b2z b) / 2 = of_bits bs) as -> by (destruct b; cbn [Z.b2z]; Z.to_euclidean_division_equations; lia).
  rewrite IH. f_equal. rewrite Z.add_comm, Z.odd_add_mul_2. by destruct b.
Qed.

Lemma to_bits_inj w m n : 0 <= m < 2 ^ Z.of_nat w -> 0 <= n < 2 ^ Z.of_nat w -> to_bits w m = to_bits w n -> m = n.
Proof. intros Hm Hn E. rewrite <- (of_to_bits w m), <- (of_to_bits w n) by done. by rewrite E. Qed.

Definition in_width (w : nat) (n : Z) : Prop := 0 <= n < 2 ^ Z.of_nat w.
Definition bits_of (w : nat) (l : list Z) : list bool := flat_map (to_bits w) l.

Lemma bits_of_length w l : length (bits_of w l) = (w * length l)%nat.
Proof. induction l as [|n l IH]; [simpl; lia|]. cbn [bits_of flat_map]. rewrite length_app, to_bits_length. fold (bits_of w l). rewrite IH. simpl. lia. Qed.

(** The pending bits of a register. *)
Definition pending (value bits : Z) (p : list bool) : Prop := bits = width p /\ value mod 2 ^ bits = of_bits p.

Lemma drain_spec (out : nat) fuel bits value p :
  (1 <= out <= 31)%nat -> pending value bits p -> (length p <= fuel)%nat -> bits <= 32 ->
  exists outs p', drain fuel (Z.of_nat out) bits value = (outs, width p') /\ bits_of out outs ++ p' = p /\
    (length p' < out)%nat /\ List.Forall (in_width out) outs /\ pending value (width p') p'.
Proof.
  intros Ho. revert bits p. induction fuel as [|fuel IH]; intros bits p [Hb Hv] Hf Hs.
  { destruct p; [|simpl in Hf; lia]. exists [], []. subst bits. split; [done|]. split; [done|]. split; [simpl; lia|]. by split; [constructor|]. }
  cbn [drain]. destruct (Z.leb_spec (Z.of_nat out) bits) as [L|L].
  - set (h := firstn out p). set (t := skipn out p). assert (p = h ++ t) as Ep by (symmetry; apply firstn_skipn).
    unfold width in Hb. assert (length h = out) as Lh by (unfold h; rewrite length_take; lia).
    assert (bits - Z.of_nat out = width t) as Et by (unfold width, t; rewrite length_drop; lia).
    assert (pending value (width t) t) as Pt.
    { split; [done|]. rewrite <- Et. assert (value mod 2 ^ (bits - Z.of_nat out) = (value mod 2 ^ bits) mod 2 ^ (bits - Z.of_nat out)) as ->.
      { replace (2 ^ bits) with (2 ^ (bits - Z.of_nat out) * 2 ^ Z.of_nat out) by (rewrite <- Z.pow_add_r by lia; f_equal; lia).
        rewrite Z.rem_mul_r by (apply Z.pow_nonzero || apply Z.pow_pos_nonneg; lia).
        rewrite Z.mul_comm, Z.mod_add by (apply Z.pow_nonzero; lia). by rewrite Z.mod_mod by (apply Z.pow_nonzero; lia). }
      rewrite Hv, Et, Ep, of_bits_app, Z.add_comm, Z.mul_comm, Z.mod_add by (apply Z.pow_nonzero; unfold width; lia).
      apply Z.mod_small, of_bits_range. }
    destruct (IH (bits - Z.of_nat out) t) as (outs & p' & E & Ea & Hl & Hr & Hp); [by rewrite Et|unfold t; rewrite length_drop; lia|lia|].
    rewrite E. exists (js_and (js_ushr value (bits - Z.of_nat out)) (2 ^ Z.of_nat out - 1) :: outs), p'. split; [done|].
    assert (js_and (js_ushr value (bits - Z.of_nat out)) (2 ^ Z.of_nat out - 1) = of_bits h) as Eh.
    { rewrite read_top by lia. replace (bits - Z.of_nat out + Z.of_nat out) with bits by lia. rewrite Hv, Ep, of_bits_app, Et.
      rewrite Z.mul_comm, Z.div_add_l by (apply Z.pow_nonzero; unfold width; lia). rewrite (Z.div_small (of_bits t)) by apply of_bits_range. lia. }
    rewrite Eh. split; [|split; [done|split; [constructor; [|done]|done]]].
    + cbn [bits_of flat_map]. fold (bits_of out outs). rewrite <- app_assoc, Ea.
      transitivity (h ++ t); [f_equal; rewrite <- Lh; apply to_of_bits|by symmetry].
    + unfold in_width. rewrite <- Lh. apply of_bits_range.
  - exists [], p. subst bits. split; [done|]. split; [done|]. unfold width in L. split; [lia|]. split; [constructor|by split].
Qed.

Lemma repack_spec (inp out : nat) items bits value p :
  (1 <= out <= 31)%nat -> (inp + out <= 32)%nat -> pending value bits p -> (length p < out)%nat -> List.Forall (in_width inp) items ->
  exists p', bits_of out (repack (Z.of_nat inp) (Z.of_nat out) bits value items) ++ p' = p ++ bits_of inp items /\
    (length p' < out)%nat /\ List.Forall (in_width out) (repack (Z.of_nat inp) (Z.of_nat out) bits value items).
Proof.
  intros Ho Hs. revert bits value p. induction items as [|item items IH]; intros bits value p Hp Hl Hi.
  { exists p. cbn [repack bits_of flat_map]. rewrite app_nil_r. by split; [|split; [|constructor]]. }
  inversion Hi as [|? ? Hit Hrest]; subst. destruct Hp as [Hb Hv]. unfold in_width in Hit. unfold width in Hb. cbn [repack].
  set (value' := js_or (js_shl value (Z.of_nat inp)) item).
  assert (pending value' (bits + Z.of_nat inp) (p ++ to_bits inp item)) as P.
  { split; [unfold width; rewrite length_app, to_bits_length; lia|]. unfold value'. rewrite push_low by lia.
    rewrite Hv, of_bits_app. unfold width. rewrite to_bits_length, of_to_bits by done. done. }
  destruct (drain_spec out (Z.to_nat (bits + Z.of_nat inp)) (bits + Z.of_nat inp) value' _ Ho P) as (outs & p1 & E & Ea & Hl1 & Hr & Hp1).
  { rewrite length_app, to_bits_length. lia. } { lia. }
  rewrite E. destruct (IH (width p1) value' p1 Hp1 Hl1 Hrest) as (p' & Ea' & Hl' & Hr'). exists p'.
  unfold bits_of at 1. rewrite flat_map_app. fold (bits_of out outs). fold (bits_of out (repack (Z.of_nat inp) (Z.of_nat out) (width p1) value' items)).
  split; [|split; [done|by apply List.Forall_app]].
  rewrite <- app_assoc, Ea', app_assoc, Ea, <- app_assoc. done.
Qed.

(** Out of one width and back: the items return, when they fill whole outputs. *)
Lemma repack_round_trip (a b : nat) items :
  (1 <= a <= 31)%nat -> (1 <= b <= 31)%nat -> (a + b <= 32)%nat -> List.Forall (in_width a) items -> ((a * length items) mod b = 0)%nat ->
  repack (Z.of_nat b) (Z.of_nat a) 0 0 (repack (Z.of_nat a) (Z.of_nat b) 0 0 items) = items.
Proof.
  intros Ha Hb Hs Hi Hm. assert (pending 0 0 []) as P0 by done.
  destruct (repack_spec a b items 0 0 [] Hb Hs P0 ltac:(simpl; lia) Hi) as (p1 & E1 & L1 & R1).
  set (mid := repack _ _ 0 0 items) in *. destruct (repack_spec b a mid 0 0 [] Ha ltac:(lia) P0 ltac:(simpl; lia) R1) as (p2 & E2 & L2 & R2).
  set (back := repack _ _ 0 0 mid) in *. cbn [app] in E1, E2.
  pose proof (f_equal (@length bool) E1) as N1. pose proof (f_equal (@length bool) E2) as N2.
  rewrite !length_app, !bits_of_length in N1, N2. assert (length p1 = 0%nat) as Z1.
  { pose proof (Nat.div_mod (a * length items) b ltac:(lia)) as D. rewrite Hm in D. set (q := (a * length items / b)%nat) in *.
    destruct (Nat.le_gt_cases q (length mid)); nia. }
  destruct p1; [|done]. rewrite app_nil_r in E1. assert (a * length back + length p2 = a * length items)%nat as N by (simpl in N1; lia).
  assert (length p2 = 0%nat) as Z2 by (destruct (Nat.le_gt_cases (length items) (length back)); nia). destruct p2; [|done]. rewrite app_nil_r, E1 in E2. cbn [length] in N. assert (length back = length items) as Lb by (apply (Nat.mul_cancel_l _ _ a); lia).
  clearbody back. clear -E2 R2 Hi Lb. revert items Hi E2 Lb R2. induction back as [|x back IH]; intros [|y items] Hi E L R2; try done.
  inversion R2; inversion Hi; subst. cbn [bits_of flat_map] in E. apply app_inj_1 in E as [Ex E]; [|by rewrite !to_bits_length].
  f_equal; [by eapply to_bits_inj|]. apply IH; try done. by injection L.
Qed.

(** ** Secrets *)

Lemma symbols_ok :
  forallb (fun i => let c := symbol (Z.of_nat i) in
    bool_decide (index_in c 0 BASE32_ALPHABET = Some (Z.of_nat i)) && String.eqb (upper_chars c) (String c EmptyString) &&
    String.eqb (upper_chars (lower_char c)) (String c EmptyString) && negb (is_space c) && negb (is_space (lower_char c)) &&
    negb (Ascii.eqb c "=") && negb (Ascii.eqb (lower_char c) "=")) (List.seq 0 32) = true.
Proof. vm_compute. reflexivity. Qed.

Definition symbol_char (c : ascii) : Prop := exists i, in_width 5 i /\ c = symbol i.

Lemma symbol_spec i :
  in_width 5 i -> index_in (symbol i) 0 BASE32_ALPHABET = Some i /\
    forall c, c = symbol i \/ c = lower_char (symbol i) -> upper_chars c = String (symbol i) EmptyString /\ is_space c = false /\ Ascii.eqb c "=" = false.
Proof.
  unfold in_width. change (2 ^ Z.of_nat 5) with 32. intros Hi. pose proof symbols_ok as F. rewrite forallb_forall in F.
  assert (List.In (Z.to_nat i) (List.seq 0 32)) as I by (apply in_seq; lia). specialize (F _ I). cbv zeta in F. rewrite Z2Nat.id in F by lia.
  rewrite !andb_true_iff, !negb_true_iff, !String.eqb_eq, bool_decide_eq_true in F. destruct F as [[[[[[F1 F2] F3] F4] F5] F6] F7].
  split; [done|]. intros c [-> | ->]; done.
Qed.

(** A text typed for another: spaces and padding between the characters, letters of either case. *)
Inductive typed : string -> string -> Prop :=
| typed_end : typed EmptyString EmptyString
| typed_blank c s t : is_space c = true \/ c = "="%char -> typed s t -> typed (String c s) t
| typed_char c d s t : c = d \/ c = lower_char d -> typed s t -> typed (String c s) (String d t).

Lemma typed_cleaned s l : List.Forall (in_width 5) l -> typed s (string_of_list_ascii (map symbol l)) -> cleaned s = string_of_list_ascii (map symbol l).
Proof.
  intros Hl H. remember (string_of_list_ascii (map symbol l)) as t eqn:E. revert l Hl E. induction H as [|c s t Hc H IH|c d s t Hc H IH]; intros l Hl E; [done|..].
  - cbn [cleaned]. replace (is_space c || Ascii.eqb c "=") with true by (symmetry; apply orb_true_iff; destruct Hc as [->| ->]; auto). by eapply IH.
  - destruct l as [|i l]; [done|]. cbn [map string_of_list_ascii] in E. injection E as -> ->. inversion Hl; subst.
    destruct (symbol_spec i) as [_ Hs]; [done|]. destruct (Hs c Hc) as (U & S & P). cbn [cleaned]. rewrite S, P, U. cbn [orb]. by rewrite (IH l).
Qed.

Lemma indices_symbols l : List.Forall (in_width 5) l -> indices (string_of_list_ascii (map symbol l)) = Some l.
Proof. induction 1 as [|i l Hi _ IH]; [done|]. cbn [map string_of_list_ascii indices]. rewrite (proj1 (symbol_spec i Hi)), IH. done. Qed.

(** Fact: a secret survives its text: bytes written in base32, whole groups of them, read back
    as themselves, through registers of 32 bits whatever the length, and from any typing of
    the text: in groups, padded, in capitals or small letters. *)
Theorem secret_round_trip (bytes : list Z) (s : string) :
  List.Forall is_byte bytes -> bytes <> [] -> (length bytes mod 5 = 0)%nat -> typed s (base32Encode bytes) -> base32Decode s = Some bytes.
Proof.
  intros Hb Hn Hm T. assert (List.Forall (in_width 8) bytes) as Hw by exact Hb.
  assert ((8 * length bytes) mod 5 = 0)%nat as Hm'.
  { pose proof (Nat.div_mod (length bytes) 5 ltac:(lia)) as D. rewrite Hm in D. rewrite D.
    replace (8 * (5 * (length bytes / 5) + 0))%nat with (0 + (8 * (length bytes / 5)) * 5)%nat by lia. by rewrite Nat.Div0.mod_add. }
  pose proof (repack_round_trip 8 5 bytes ltac:(lia) ltac:(lia) ltac:(lia) Hw Hm') as R. change (Z.of_nat 8) with 8 in R. change (Z.of_nat 5) with 5 in R.
  destruct (repack_spec 8 5 bytes 0 0 [] ltac:(lia) ltac:(lia) ltac:(done) ltac:(simpl; lia) Hw) as (p & E & _ & Hr).
  change (Z.of_nat 8) with 8 in E, Hr. change (Z.of_nat 5) with 5 in E, Hr. unfold base32Encode in T. unfold base32Decode.
  set (l := repack 8 5 0 0 bytes) in *. rewrite (typed_cleaned s l Hr T), indices_symbols by done. rewrite R.
  destruct l as [|i l']; [|done]. exfalso. destruct bytes; [done|]. by rewrite <- R in Hn.
Qed.

(** ** Codes *)

Section Codes.
Context `{CryptoLaws}.

Lemma js_and_low a m w : 0 <= w <= 31 -> m = 2 ^ w - 1 -> js_and a m = a mod 2 ^ w.
Proof.
  intros Hw ->. pose proof (read_top a w 0 Hw ltac:(lia) ltac:(lia)) as R. rewrite Z.div_1_r, Z.add_0_l in R. rewrite <- R.
  unfold js_and, js_ushr. f_equal. f_equal. unfold to_int32 at 2. rewrite Z.shiftr_0_r.
  assert (to_int32 a mod 4294967296 mod 4294967296 = a mod 4294967296) as ->; [|done]. rewrite Z.mod_mod by lia. exact (to_int32_low a 32 ltac:(lia)).
Qed.

Lemma js_or_nonneg a b : 0 <= a < 2147483648 -> 0 <= b < 2147483648 -> js_or a b = Z.lor a b /\ 0 <= Z.lor a b < 2147483648.
Proof.
  intros Ha Hb. assert (forall x, 0 <= x < 2147483648 -> to_int32 x = x) as I.
  { intros x Hx. unfold to_int32. rewrite Z.mod_small by lia. case_match; [done|]. bools. lia. }
  assert (0 <= Z.lor a b < 2 ^ 31) as R.
  { assert (0 <= Z.lor a b) by (apply Z.lor_nonneg; lia). split; [done|]. destruct (Z.eq_dec (Z.lor a b) 0) as [->|N]; [done|].
    apply Z.log2_lt_pow2; [lia|]. rewrite Z.log2_lor by lia.
    assert (forall x, 0 <= x < 2147483648 -> Z.log2 x < 31) as L by (intros x Hx; destruct (Z.eq_dec x 0) as [->|]; [done|apply Z.log2_lt_pow2; lia]).
    specialize (L a Ha) as La. specialize (L b Hb). lia. }
  unfold js_or. rewrite (I a), (I b) by done. split; [apply I|]; exact R.
Qed.

Lemma truncation_range hmac : 0 <= truncation hmac < 2147483648.
Proof.
  unfold truncation. assert (forall a m w k, 0 <= w -> 0 <= k -> w + k <= 31 -> m = 2 ^ w - 1 -> 0 <= js_shl (js_and a m) k < 2147483648) as S.
  { intros a m w k Hw Hk Hs ->. rewrite (js_and_low a _ w) by lia. unfold js_shl.
    assert (0 <= a mod 2 ^ w < 2 ^ w) as B by (apply Z.mod_pos_bound, Z.pow_pos_nonneg; lia).
    assert (2 ^ w * 2 ^ k <= 2147483648) as P by (rewrite <- Z.pow_add_r by lia; change 2147483648 with (2 ^ 31); apply Z.pow_le_mono_r; lia).
    assert (0 < 2 ^ k) by (apply Z.pow_pos_nonneg; lia). assert (2 ^ w <= 2 ^ w * 2 ^ k) by nia.
    assert (forall x, 0 <= x < 2147483648 -> to_int32 x = x) as I.
    { intros x Hx. unfold to_int32. rewrite Z.mod_small by lia. case_match; [done|]. bools. lia. }
    rewrite (I (a mod 2 ^ w)) by lia. rewrite Z.shiftl_mul_pow2 by lia. rewrite I; nia. }
  repeat match goal with
  | |- context [js_shl (js_and ?a 127) 24] => pose proof (S a 127 7 24 ltac:(lia) ltac:(lia) ltac:(lia) eq_refl); generalize dependent (js_shl (js_and a 127) 24); intros
  | |- context [js_shl (js_and ?a 255) 16] => pose proof (S a 255 8 16 ltac:(lia) ltac:(lia) ltac:(lia) eq_refl); generalize dependent (js_shl (js_and a 255) 16); intros
  | |- context [js_shl (js_and ?a 255) 8] => pose proof (S a 255 8 8 ltac:(lia) ltac:(lia) ltac:(lia) eq_refl); generalize dependent (js_shl (js_and a 255) 8); intros
  end.
  rewrite (js_and_low _ 255 8) by lia. set (l := _ mod 2 ^ 8). assert (0 <= l < 2147483648) by (unfold l; change (2 ^ 8) with 256; pose proof (Z.mod_pos_bound (nth (Z.to_nat (js_and (List.last hmac 0) 15 + 3)) hmac 0) 256); lia).
  repeat match goal with |- context [js_or ?x ?y] => destruct (js_or_nonneg x y) as [-> ?]; [done|done|] end. done.
Qed.

Lemma decimal_chars z : 0 <= z -> all_chars is_decimal (decimal_of z) = true.
Proof.
  intros Hz. unfold decimal_of, digits_in. assert (forall fuel v acc, all_chars is_decimal acc = true -> all_chars is_decimal (digits_from fuel 10 v acc) = true) as G.
  { induction fuel as [|fuel IH]; intros v acc Ha; [done|]. cbn [digits_from].
    assert (all_chars is_decimal (String (digit_char (v mod 10)) acc) = true) as Ha'.
    { cbn [all_chars]. rewrite Ha, andb_true_r. pose proof (Z.mod_pos_bound v 10 ltac:(lia)) as B.
      assert (List.In (v mod 10) [0; 1; 2; 3; 4; 5; 6; 7; 8; 9]) as Hd by (simpl; lia). clear -Hd.
      repeat (destruct Hd as [<-|Hd]; [done|]). done. }
    destruct (v <? 10); [done|]. by apply IH. }
  by apply G.
Qed.

Lemma decimal_length z d : (1 <= d)%nat -> 0 <= z < 10 ^ Z.of_nat d -> (String.length (decimal_of z) <= d)%nat.
Proof.
  intros Hd Hz. destruct (digits_in_spec 10 z) as (k & E & Hk); [lia..|]. apply take_digits_count in E. cbn [Nat.add] in E.
  unfold decimal_of. rewrite <- E. destruct Hk as [->|Hk]; [lia|]. assert (10 ^ Z.of_nat k < 10 ^ Z.of_nat d) as L by lia.
  apply Z.pow_lt_mono_r_iff in L; lia.
Qed.

Lemma zeros_spec n : String.length (zeros n) = n /\ all_chars is_decimal (zeros n) = true.
Proof. induction n as [|n [I1 I2]]; [done|]. cbn. by rewrite I1. Qed.

(** The code of a step under a key. *)
Definition code_at (key : list Z) (digits step : Z) : string :=
  padStart digits (decimal_of (truncation (hmac_sha1 key (big_endian_bytes 8 step)) mod 10 ^ digits)).

Definition well_formed (digits : Z) (code : string) : bool := Nat.eqb (String.length code) (Z.to_nat digits) && all_chars is_decimal code.

Lemma code_at_shape key digits step : 1 <= digits -> well_formed digits (code_at key digits step) = true.
Proof.
  intros Hd. unfold code_at. set (v := _ mod _). assert (0 <= v < 10 ^ digits) as Hv by (apply Z.mod_pos_bound, Z.pow_pos_nonneg; lia).
  unfold padStart, pad_start, well_formed. set (t := decimal_of v). assert (String.length t <= Z.to_nat digits)%nat as L
    by (apply decimal_length; [lia|rewrite Z2Nat.id by lia; done]).
  destruct (zeros_spec (Z.to_nat digits - String.length t)) as [Z1 Z2]. rewrite length_append, all_chars_app, Z1, Z2. unfold t. rewrite decimal_chars by lia.
  rewrite andb_true_r. apply Nat.eqb_eq. fold t. lia.
Qed.

(** Steps that have an eight-byte counter. *)
Definition counter_ok (step : Z) : Prop := 0 <= step < 18446744073709551616.

Lemma hotp_code secret key step digits : base32Decode secret = Some key -> counter_ok step -> hotp secret step digits = Ok (Some (code_at key digits step)).
Proof.
  intros E [H1 H2]. unfold hotp, counterBuffer. rewrite E. rewrite (proj2 (Z.leb_le _ _) H1), (proj2 (Z.ltb_lt _ _) H2). done.
Qed.

Lemma utf8_decimal s : all_chars is_decimal s = true -> length (utf8 s) = String.length s.
Proof.
  induction s as [|c s IH]; [done|]. cbn [all_chars utf8 String.length]. intros [Hc Hs]%andb_true_iff. unfold is_decimal in Hc.
  apply andb_true_iff in Hc as [_ Hc%Nat.leb_le]. replace (Z.of_nat (nat_of_ascii c) <? 128) with true by (symmetry; apply Z.ltb_lt; lia).
  simpl. by rewrite IH.
Qed.

Lemma codesMatch_eq digits a b : well_formed digits a = true -> well_formed digits b = true -> codesMatch a b = Ok (String.eqb a b).
Proof.
  unfold well_formed. intros [Ha Ca]%andb_true_iff [Hb Cb]%andb_true_iff. apply Nat.eqb_eq in Ha, Hb. unfold codesMatch, timingSafeEqual.
  rewrite !utf8_decimal by done. rewrite Ha, Hb, Nat.eqb_refl. f_equal. apply eq_true_iff_eq. rewrite bool_decide_eq_true, String.eqb_eq.
  split; [apply utf8_inj|by intros ->].
Qed.

Lemma search_find secret key code digits steps :
  base32Decode secret = Some key -> 1 <= digits -> well_formed digits code = true -> List.Forall counter_ok steps ->
  search secret code digits steps = Ok (List.find (fun s => String.eqb (code_at key digits s) code) steps).
Proof.
  intros E Hd Hc. induction 1 as [|s steps Hs _ IH]; [done|]. cbn [search List.find]. rewrite (hotp_code _ _ _ _ E Hs). cbn [outcome_bind].
  rewrite (codesMatch_eq digits) by (try done; by apply code_at_shape). cbn [outcome_bind]. by destruct (String.eqb _ _).
Qed.

(** The first of the ascending steps that passes. *)
Lemma find_first (p : Z -> bool) lo n :
  match List.find p (map (fun i => lo + Z.of_nat i) (List.seq 0 n)) with
  | Some s => lo <= s < lo + Z.of_nat n /\ p s = true /\ forall s', lo <= s' < s -> p s' = false
  | None => forall s, lo <= s < lo + Z.of_nat n -> p s = false
  end.
Proof.
  assert (forall k, match List.find p (map (fun i => lo + Z.of_nat i) (List.seq k n)) with
    | Some s => lo + Z.of_nat k <= s < lo + Z.of_nat (k + n) /\ p s = true /\ forall s', lo + Z.of_nat k <= s' < s -> p s' = false
    | None => forall s, lo + Z.of_nat k <= s < lo + Z.of_nat (k + n) -> p s = false end) as G.
  { induction n as [|n IH]; intros k; cbn [List.seq map List.find]; [lia|]. destruct (p (lo + Z.of_nat k)) eqn:P.
    - split; [lia|]. split; [done|]. lia.
    - specialize (IH (S k)). destruct (List.find _ _) as [s|].
      + destruct IH as (I1 & I2 & I3). split; [lia|]. split; [done|]. intros s' Hs. destruct (Z.eq_dec s' (lo + Z.of_nat k)) as [->|]; [done|]. apply I3. lia.
      + intros s Hs. destruct (Z.eq_dec s (lo + Z.of_nat k)) as [->|]; [done|]. apply IH. lia. }
  specialize (G O). rewrite Z.add_0_r in G. exact G.
Qed.

Definition the_step (o : TotpOptions) : number := default DEFAULT_TIME_STEP_SECONDS (timeStep o).
Definition the_digits (o : TotpOptions) : Z := default DEFAULT_DIGITS (digits o).
Definition the_window (o : TotpOptions) : Z := default DEFAULT_WINDOW (window o).

Lemma verify_find secret key clock base code o :
  base32Decode secret = Some key -> whole (counterFor clock (the_step o)) = Some base ->
  0 <= the_window o <= base -> base + the_window o < 18446744073709551616 -> 1 <= the_digits o ->
  verifyTotpStep clock secret code o =
    Ok (List.find (fun s => String.eqb (code_at key (the_digits o) s) code) (steps_around base (the_window o))).
Proof.
  intros E B W1 W2 D. unfold verifyTotpStep. fold (the_digits o) (the_window o) (the_step o). rewrite B. fold (well_formed (the_digits o) code).
  assert (List.Forall counter_ok (steps_around base (the_window o))) as C.
  { apply List.Forall_forall. intros s (i & <- & I%in_seq)%in_map_iff. unfold counter_ok. lia. }
  destruct (well_formed (the_digits o) code) eqn:F; cbn [negb]; [by apply search_find|]. f_equal. symmetry.
  destruct (List.find _ _) as [s|] eqn:S; [|done]. apply List.find_some in S as [_ S%String.eqb_eq]. by rewrite <- S, code_at_shape in F.
Qed.
End Codes.

(** Fact: a code proves the secret for one step near now: for a readable secret and a clock
    whose window holds counters the check never throws; it answers the earliest step of the
    window whose code it is, or nothing when no step has it; so the code another clock
    shows is accepted exactly as far as the window reaches, for its own step or an earlier
    one, whatever digits and step size both sides chose. *)
Theorem code_accepted_in_window `{CryptoLaws} (secret : string) (key : list Z) (clock : number) (base : Z) (o : TotpOptions) :
  base32Decode secret = Some key -> whole (counterFor clock (the_step o)) = Some base ->
  0 <= the_window o <= base -> base + the_window o < 18446744073709551616 -> 1 <= the_digits o ->
  (forall code, exists r, verifyTotpStep clock secret code o = Ok r /\
     match r with
     | Some s => base - the_window o <= s <= base + the_window o /\ code_at key (the_digits o) s = code /\
                 forall s', base - the_window o <= s' < s -> code_at key (the_digits o) s' <> code
     | None => forall s, base - the_window o <= s <= base + the_window o -> code_at key (the_digits o) s <> code
     end) /\
  (forall clock' counter code, whole (counterFor clock' (the_step o)) = Some counter ->
     base - the_window o <= counter <= base + the_window o -> totpCode clock' secret o = Ok (Some code) ->
     exists s, s <= counter /\ verifyTotpStep clock secret code o = Ok (Some s)).
Proof.
  intros E B W1 W2 D. pose proof (fun code => verify_find secret key clock base code o E B W1 W2 D) as V.
  assert (forall code, match List.find (fun s => String.eqb (code_at key (the_digits o) s) code) (steps_around base (the_window o)) with
     | Some s => base - the_window o <= s <= base + the_window o /\ code_at key (the_digits o) s = code /\
                 forall s', base - the_window o <= s' < s -> code_at key (the_digits o) s' <> code
     | None => forall s, base - the_window o <= s <= base + the_window o -> code_at key (the_digits o) s <> code end) as F.
  { intros code. unfold steps_around. pose proof (find_first (fun s => String.eqb (code_at key (the_digits o) s) code) (base - the_window o) (Z.to_nat (2 * the_window o + 1))) as G.
    rewrite Z2Nat.id in G by lia. destruct (List.find _ _) as [s|].
    - destruct G as (G1 & G2%String.eqb_eq & G3). split; [lia|]. split; [done|]. intros s' Hs. by apply String.eqb_neq, G3.
    - intros s Hs. apply String.eqb_neq, G. lia. }
  split; [intros code; eexists; split; [apply V|apply F]|]. intros clock' counter code C R T.
  unfold totpCode in T. fold (the_step o) (the_digits o) in T. rewrite C, (hotp_code _ key) in T; [|done|unfold counter_ok; lia]. injection T as T.
  rewrite V. specialize (F code). destruct (List.find _ _) as [s|]; [|by destruct (F counter R)]. exists s. split; [|done].
  destruct F as (_ & _ & F). destruct (Z.le_gt_cases s counter); [done|]. by destruct (F counter); [lia|].
Qed.

(** Fact: near the epoch the check throws: the first step of the window has a negative
    counter, which has no eight bytes, for any well-formed code and readable secret. *)
Theorem early_clock_throws `{Crypto} :
  base32Decode "AAAAAAAA" = Some [0; 0; 0; 0; 0] /\
  verifyTotpStep (int 0) "AAAAAAAA" "123456" (mkTotp None None None) = Throw OtherError.
Proof. split; [vm_compute; reflexivity|]. vm_compute. reflexivity. Qed.

(** ** Examples *)

#[local] Existing Instance toy_crypto.
#[local] Existing Instance toy_crypto_laws.

Lemma secret_round_trip_witness : base32Decode "aeba gbaf===" = Some [1; 2; 3; 4; 5].
Proof.
  apply (secret_round_trip [1; 2; 3; 4; 5] "aeba gbaf==="); [|discriminate|reflexivity|].
  - repeat constructor; unfold is_byte; lia.
  - change (base32Encode [1; 2; 3; 4; 5]) with "AEBAGBAF"%string. do 4 (apply typed_char; [by right|]). apply typed_blank; [by left|].
    do 4 (apply typed_char; [by right|]). do 3 (apply typed_blank; [by right|]). apply typed_end.
Defined.

Definition small_steps : TotpOptions := mkTotp (Some (int 1)) (Some 2) None.

Definition shown_code : string := Eval vm_compute in match totpCode (int 4000) "AEBAGBAF" small_steps with Ok (Some c) => c | _ => EmptyString end.

Lemma code_shown : totpCode (int 4000) "AEBAGBAF" small_steps = Ok (Some shown_code).
Proof. vm_compute. reflexivity. Qed.

Lemma secret_read : base32Decode "AEBAGBAF" = Some [1; 2; 3; 4; 5].
Proof. vm_compute. reflexivity. Qed.

Lemma steps_read : whole (counterFor (int 5000) (the_step small_steps)) = Some 5 /\ whole (counterFor (int 4000) (the_step small_steps)) = Some 4.
Proof. split; vm_compute; reflexivity. Qed.

Lemma code_accepted_in_window_witness :
  exists s, s <= 4 /\ verifyTotpStep (int 5000) "AEBAGBAF" shown_code small_steps = Ok (Some s).
Proof.
  assert (0 <= the_window small_steps <= 5 /\ 5 + the_window small_steps < 18446744073709551616 /\ 1 <= the_digits small_steps) as (W1 & W2 & D)
    by (change (the_window small_steps) with 1; change (the_digits small_steps) with 2; lia).
  apply (proj2 (code_accepted_in_window "AEBAGBAF" [1; 2; 3; 4; 5] (int 5000) 5 small_steps secret_read (proj1 steps_read) W1 W2 D)
    (int 4000) 4 shown_code (proj2 steps_read)); [change (the_window small_steps) with 1; lia|exact code_shown].
Defined.
