(* ===== verification/Sessions.v ===== *)
(** * Sessions

    [packages/auth/src]: the opaque token ([token.ts]) and its digest ([hash.ts]), the store
    interface and its two substrates ([sessions.ts], [sql-session-store.ts]), the lifecycle
    over it, and the stateless signed sessions ([signed-sessions.ts]). *)
From S2P Require Import Prelude JsString JsMap Sql Base64 JsNumber JsJson NodeCrypto Web.
#[local] Open Scope string_scope.
#[local] Open Scope Z_scope.

(** ** Stores *)

(** [generateToken], given the random bytes it draws. *)
Definition generateToken (randomBytes : list Z) : string := toHex randomBytes.

(** Times are whole milliseconds. *)
Record Session : Type := mkSession { token : string; userId : string; expiresAt : Z }.

Class SessionStore (S : Type) : Type := {
  save : Session -> S -> S;
  find : string -> S -> option Session;
  delete : string -> S -> S
}.

(** A Map from tokens to sessions. *)
#[export] Instance MemorySessionStore : SessionStore (JsMap Session) := {
  save session sessions := map_set (token session) session sessions;
  find tok sessions := map_get tok sessions;
  delete tok sessions := map_delete tok sessions
}.

Definition sha256 `{Crypto} (value : string) : string := toHex (sha256_bytes (utf8 value)).

(** A row of [lesto_sessions], keyed by the digest. *)
Record SessionRow : Type := mkRow { row_token : string; row_user_id : string; row_expires_at : Z }.

Definition keyed (digest : string) (r : SessionRow) : bool := String.eqb (row_token r) digest.

(** INSERT ... ON CONFLICT(token) DO UPDATE. *)
Definition upsert (r : SessionRow) (rows : list SessionRow) : list SessionRow :=
  if existsb (keyed (row_token r)) rows then (update_where (keyed (row_token r)) (fun _ => r) rows).1 else (rows ++ [r])%list.

#[export] Instance sqlSessionStore `{Crypto} : SessionStore (list SessionRow) := {
  save session rows := upsert (mkRow (sha256 (token session)) (userId session) (expiresAt session)) rows;
  find tok rows :=
    match List.find (keyed (sha256 tok)) rows with
    | Some r => Some (mkSession tok (row_user_id r) (row_expires_at r))
    | None => None
    end;
  delete tok rows := (delete_where (keyed (sha256 tok)) rows).1
}.

(** The rows left, and how many went. *)
Definition deleteByUserId (user : string) (rows : list SessionRow) : list SessionRow * Z :=
  delete_where (fun r => String.eqb (row_user_id r) user) rows.

Definition deleteExpired (now : Z) (rows : list SessionRow) : list SessionRow * Z :=
  delete_where (fun r => row_expires_at r <? now) rows.

(** ** The lifecycle *)

Section Lifecycle.
Context {S : Type} `{!SessionStore S}.

Definition create (randomBytes : list Z) (clock : Z) (user : string) (ttlMs : Z) (store : S) : S * Session :=
  let session := mkSession (generateToken randomBytes) user (clock + ttlMs) in
  (save session store, session).

Definition verify (clock : Z) (tok : string) (store : S) : S * option Session :=
  match find tok store with
  | None => (store, None)
  | Some session => if expiresAt session <=? clock then (delete tok store, None) else (store, Some session)
  end.

Definition revoke (tok : string) (store : S) : S := delete tok store.

(** A call, with what it reads of the clock and the random source; and its answer. *)
Inductive SessionCall : Type :=
| Create (randomBytes : list Z) (clock : Z) (user : string) (ttlMs : Z)
| Verify (clock : Z) (tok : string)
| Revoke (tok : string).

Definition call (c : SessionCall) (store : S) : S * option Session :=
  match c with
  | Create bytes clock user ttl => let '(store', s) := create bytes clock user ttl store in (store', Some s)
  | Verify clock tok => verify clock tok store
  | Revoke tok => (revoke tok store, None)
  end.

Fixpoint calls (cs : list SessionCall) (store : S) : S * list (option Session) :=
  match cs with
  | [] => (store, [])
  | c :: cs' =>
      let '(store1, answer) := call c store in
      let '(store2, answers) := calls cs' store1 in
      (store2, answer :: answers)
  end.
End Lifecycle.

(** ** Signed sessions *)

Record SignedClaim : Type := mkClaim { claim_userId : string; claim_expiresAt : number }.

Definition SEPARATOR : ascii := ".".
Definition MIN_SECRET_BYTES : Z := 32.

Definition assertStrongSecret (secret : string) : outcome JsThrown unit :=
  if byteLength secret <? MIN_SECRET_BYTES then Throw (LestoError "AUTH_WEAK_SECRET") else Ok tt.

Section Signed.
Context `{Crypto} `{TextDecoder}.

(** [Buffer.from(text, "base64url")], which never throws. *)
Variable lenient_decode : string -> list Z.

Definition sign (encodedClaim secret : string) : string := hmac_hex encodedClaim secret.

Definition signaturesMatch (presented expected : string) : bool := same_bytes presented expected.

(** The last member of a name. *)
Definition member_of (name : string) (fields : list (string * json)) : option json := map_get name (rev fields).

Definition decodeClaim (encodedClaim : string) : option SignedClaim :=
  match parse (utf8_decode (lenient_decode encodedClaim)) with
  | Some (JObj fields) =>
      match member_of "userId" fields, member_of "expiresAt" fields with
      | Some (JStr u), Some (JNum e) => Some (mkClaim u e)
      | _, _ => None
      end
  | _ => None
  end.

(** [new SignedSessions]: the secret, accepted. *)
Definition signedSessions (secret : string) : outcome JsThrown string :=
  let! _ := assertStrongSecret secret in Ok secret.

Definition issue (secret : string) (clock : number) (user : string) (ttlMs : number) : string :=
  let claim := JObj [("userId", JStr user); ("expiresAt", JNum (num_add clock ttlMs))] in
  let encodedClaim := base64urlEncode (utf8 (stringify claim)) in
  encodedClaim ++ String SEPARATOR (sign encodedClaim secret).

Definition verify_signed (secret : string) (clock : number) (tok : string) : option SignedClaim :=
  match split SEPARATOR tok with
  | [encodedClaim; signature] =>
      if negb (signaturesMatch signature (sign encodedClaim secret)) then None
      else
        match decodeClaim encodedClaim with
        | Some claim => if num_ge clock (claim_expiresAt claim) then None else Some claim
        | None => None
        end
  | _ => None
  end.
End Signed.

(** * Sessions: who is signed in

    Against the store interface, a token resolves exactly while its session is live; both
    substrates implement the interface, the hashed table for tokens whose digests differ;
    sweeps are invisible; and a signed session verifies exactly when it was signed here
    and is in date. *)
#[local] Open Scope string_scope.
#[local] Open Scope Z_scope.
#[local] Open Scope list_scope.

(** ** The interface *)

(** What a substrate promises, of the tokens in [known]: reading back what was last
    written, and nothing after a delete. *)
Class SessionStoreLaws (S : Type) `{!SessionStore S} (known : string -> Prop) (ok : S -> Prop) : Prop := {
  save_ok s st : ok st -> ok (save s st);
  delete_ok t st : ok st -> ok (delete t st);
  find_save s t st : ok st -> known (token s) -> known t -> find t (save s st) = if String.eqb t (token s) then Some s else find t st;
  find_delete t t' st : ok st -> known t' -> known t -> find t (delete t' st) = if String.eqb t t' then None else find t st
}.

#[export] Instance memory_laws known : SessionStoreLaws (JsMap Session) known (fun _ => True).
Proof.
  constructor; [done|done|..]; intros; cbn [find save delete MemorySessionStore].
  - rewrite map_get_set. by rewrite String.eqb_sym.
  - rewrite map_get_delete. by rewrite String.eqb_sym.
Qed.

(** The primary key. *)
Definition keys_unique (rows : list SessionRow) : Prop := List.NoDup (map row_token rows).

(** Different tokens, different digests. *)
Definition digests_differ `{Crypto} (known : string -> Prop) : Prop := forall t t', known t -> known t' -> sha256 t = sha256 t' -> t = t'.

Lemma upsert_keys r rows : keys_unique rows -> keys_unique (upsert r rows).
Proof.
  unfold keys_unique, upsert. intros H. destruct (existsb (keyed (row_token r)) rows) eqn:E; cbn [update_where fst].
  - rewrite map_map. replace (map _ rows) with (map row_token rows); [done|]. apply map_ext. intros x. unfold keyed.
    destruct (String.eqb_spec (row_token x) (row_token r)); congruence.
  - rewrite map_app. apply NoDup_ListNoDup in H. apply NoDup_ListNoDup, NoDup_app. split; [done|]. split; [|apply NoDup_singleton].
    intros k Hk%list_elem_of_In ->%list_elem_of_singleton. apply in_map_iff in Hk as (x & Ek & Hx).
    assert (existsb (keyed (row_token r)) rows = true); [|congruence]. apply existsb_exists. exists x. split; [done|]. unfold keyed. by apply String.eqb_eq.
Qed.

Lemma find_upsert digest r rows :
  keys_unique rows ->
  List.find (keyed digest) (upsert r rows) = if String.eqb (row_token r) digest then Some r else List.find (keyed digest) rows.
Proof.
  unfold upsert, keys_unique. intros H. destruct (existsb (keyed (row_token r)) rows) eqn:E; cbn [update_where fst].
  - revert E H. unfold keyed.
    induction rows as [|x rows IH]; [done|]. cbn [map List.find existsb]. intros E H. inversion H as [|? ? Hx Hr]; subst.
    destruct (String.eqb_spec (row_token x) (row_token r)) as [Ex|Nx].
    + destruct (String.eqb_spec (row_token r) digest) as [Ed|Nd]; [done|].
      replace (String.eqb (row_token x) digest) with false by (symmetry; apply String.eqb_neq; congruence).
      f_equal. rewrite <- (map_id rows) at 2. apply map_ext_in. intros y Hy. destruct (String.eqb_spec (row_token y) (row_token r)) as [Ey|]; [|done].
      destruct Hx. rewrite Ex, <- Ey. by apply in_map.
    + destruct (String.eqb_spec (row_token x) digest) as [Ed|Nd]; [|by apply IH].
      destruct (String.eqb_spec (row_token r) digest); [congruence|done].
  - clear H. unfold keyed in *. induction rows as [|x rows IH]; [done|]. cbn [existsb app List.find] in *.
    apply orb_false_iff in E as [Ex E]. destruct (String.eqb_spec (row_token x) digest) as [Ed|]; [|by apply IH].
    rewrite <- Ed. rewrite String.eqb_sym, Ex. done.
Qed.

Lemma find_deleted k k' rows :
  List.find (keyed k) (List.filter (fun r => negb (keyed k' r)) rows) = if String.eqb k k' then None else List.find (keyed k) rows.
Proof.
  unfold keyed. induction rows as [|x rows IH]; [by destruct (String.eqb k k')|]. cbn [List.filter List.find].
  destruct (String.eqb_spec (row_token x) k') as [E'|N']; cbn [negb].
  - rewrite IH. destruct (String.eqb_spec k k') as [|N]; [done|].
    replace (String.eqb (row_token x) k) with false by (symmetry; apply String.eqb_neq; congruence). done.
  - cbn [List.find]. destruct (String.eqb_spec (row_token x) k) as [E|]; [|exact IH].
    destruct (String.eqb_spec k k'); [congruence|done].
Qed.

#[export] Instance sql_laws `{Crypto} known : digests_differ known -> SessionStoreLaws (list SessionRow) known keys_unique.
Proof.
  intros D. constructor; cbn [find save delete sqlSessionStore].
  - intros s st Hk. by apply upsert_keys.
  - intros t st Hk. unfold delete_where, keys_unique. by apply NoDup_map_filter.
  - intros s t st Hk Hs Ht. rewrite find_upsert by done. cbn [row_token].
    destruct (String.eqb_spec (sha256 (token s)) (sha256 t)) as [E|N].
    + apply D in E as <-; [|done|done]. rewrite String.eqb_refl. by destruct s.
    + destruct (String.eqb_spec t (token s)) as [->|]; [done|]. done.
  - intros t t' st Hk Hs Ht. cbn [delete_where fst].
    rewrite find_deleted.
    destruct (String.eqb_spec (sha256 t) (sha256 t')) as [E|N].
    + apply D in E as <-; [|done|done]. by rewrite String.eqb_refl.
    + destruct (String.eqb_spec t t') as [->|]; [done|]. done.
Qed.

(** ** The lifecycle, against the interface *)

Definition token_of (c : SessionCall) : string :=
  match c with Create bytes _ _ _ => generateToken bytes | Verify _ t => t | Revoke t => t end.

(** What a call does to the session of one token. *)
Definition seen (tok : string) (c : SessionCall) (held : option Session) : option Session :=
  if String.eqb tok (token_of c) then
    match c with
    | Create bytes clock user ttl => Some (mkSession (generateToken bytes) user (clock + ttl))
    | Verify clock _ => match held with Some s => if expiresAt s <=? clock then None else Some s | None => None end
    | Revoke _ => None
    end
  else held.

Section Lifecycle.
Context {S : Type} `{!SessionStore S} (known : string -> Prop) (ok : S -> Prop) `{!SessionStoreLaws S known ok}.

Lemma session_call_spec c st :
  ok st -> known (token_of c) -> ok (call c st).1 /\ forall t, known t -> find t (call c st).1 = seen t c (find t st).
Proof.
  intros Hok Hc. unfold seen. destruct c as [bytes clock user ttl|clock tok|tok]; cbn [call token_of create revoke] in *.
  - cbn [fst]. split; [by apply save_ok|]. intros t Ht. by rewrite (find_save (mkSession (generateToken bytes) user (clock + ttl)) t st) by done.
  - unfold verify. destruct (find tok st) as [s|] eqn:F.
    + destruct (Z.leb_spec (expiresAt s) clock) as [L|L]; cbn [fst].
      * split; [by apply delete_ok|]. intros t Ht. rewrite find_delete by done. destruct (String.eqb_spec t tok) as [->|]; [|done].
        rewrite F. by rewrite (proj2 (Z.leb_le _ _) L).
      * split; [done|]. intros t Ht. destruct (String.eqb_spec t tok) as [->|]; [|done]. rewrite F. by rewrite (proj2 (Z.leb_gt _ _) L).
    + split; [done|]. intros t Ht. cbn [fst]. destruct (String.eqb_spec t tok) as [->|]; [by rewrite F|done].
  - split; [by apply delete_ok|]. intros t Ht. by apply find_delete.
Qed.

Definition answer_to (c : SessionCall) (held : option Session) : option Session :=
  match c with
  | Create bytes clock user ttl => Some (mkSession (generateToken bytes) user (clock + ttl))
  | Verify clock _ => match held with Some s => if expiresAt s <=? clock then None else Some s | None => None end
  | Revoke _ => None
  end.

Lemma call_answer c st : (call c st).2 = answer_to c (find (token_of c) st).
Proof.
  destruct c as [bytes clock user ttl|clock tok|tok]; [done| |done]. cbn [call token_of answer_to]. unfold verify.
  destruct (find tok st) as [s|]; [|done]. by destruct (_ <=? _).
Qed.

Lemma calls_snoc cs c (st : S) : (calls (cs ++ [c]) st).1 = (call c (calls cs st).1).1.
Proof.
  revert st. induction cs as [|d cs IH]; intros st; cbn [calls app fst]; [by destruct (call c st)|].
  destruct (call d st) as [st1 a]. specialize (IH st1). destruct (calls (cs ++ [c]) st1), (calls cs st1). exact IH.
Qed.

Lemma calls_held cs st :
  ok st -> List.Forall (fun c => known (token_of c)) cs ->
  ok (calls cs st).1 /\ forall t, known t -> find t (calls cs st).1 = fold_left (fun held c => seen t c held) cs (find t st).
Proof.
  intros Hok. induction cs as [|c cs IH] using rev_ind; intros Hk; [done|]. apply List.Forall_app in Hk as [Hk Hc]. inversion Hc; subst.
  destruct (IH Hk) as [I1 I2]. rewrite calls_snoc. destruct (session_call_spec c (calls cs st).1 I1) as [C1 C2]; [done|]. split; [done|].
  intros t Ht. rewrite fold_left_app. cbn [fold_left]. by rewrite C2, I2.
Qed.
End Lifecycle.

(** Two lawful substrates that hold the same answer the same. *)
Lemma calls_agree {S1 S2 : Type} `{!SessionStore S1, !SessionStore S2} (known : string -> Prop) ok1 ok2
    `{!SessionStoreLaws S1 known ok1, !SessionStoreLaws S2 known ok2} cs (s1 : S1) (s2 : S2) :
  ok1 s1 -> ok2 s2 -> List.Forall (fun c => known (token_of c)) cs -> (forall t, known t -> find t s1 = find t s2) ->
  (calls cs s1).2 = (calls cs s2).2.
Proof.
  revert s1 s2. induction cs as [|c cs IH]; intros s1 s2 H1 H2 Hk E; [done|]. inversion Hk as [|? ? Hc Hr]; subst. cbn [calls].
  pose proof (call_answer c s1) as A1. pose proof (call_answer c s2) as A2. rewrite E in A1 by done.
  destruct (session_call_spec known ok1 c s1 H1 Hc) as [O1 F1]. destruct (session_call_spec known ok2 c s2 H2 Hc) as [O2 F2].
  destruct (call c s1) as [t1 a1], (call c s2) as [t2 a2]. cbn [fst snd] in *. subst.
  assert ((calls cs t1).2 = (calls cs t2).2) as E2 by (apply IH; [done|done|done|]; intros t Ht; rewrite F1, F2 by done; by rewrite E).
  destruct (calls cs t1), (calls cs t2). cbn [snd] in *. by subst.
Qed.

(** The table whose tokens are hashed answers every history of calls as the map does,
    unless two of the tokens named share a digest. *)
Lemma sql_agrees `{Crypto} cs :
  digests_differ (fun t => List.In t (map token_of cs)) -> (calls cs ([] : list SessionRow)).2 = (calls cs ([] : JsMap Session)).2.
Proof.
  intros D. pose proof (sql_laws _ D) as L. apply (calls_agree (fun t => List.In t (map token_of cs)) keys_unique (fun _ => True)).
  - constructor.
  - done.
  - apply List.Forall_forall. intros c Hc. by apply in_map.
  - done.
Qed.

(** Fact: the hashed table is the map: over any history of creations, verifications and
    revocations the SQL store, which keeps digests only, gives the answers the in-memory
    store gives, unless two different tokens of the history have one digest. *)
Theorem sql_sessions_refine_memory `{Crypto} (history : list SessionCall) :
  digests_differ (fun t => List.In t (map token_of history)) ->
  (calls history ([] : list SessionRow)).2 = (calls history ([] : JsMap Session)).2.
Proof. apply sql_agrees. Qed.

(** A call after which the session of the token, expiring at [e], is gone or another. *)
Definition ends (tok : string) (e : Z) (c : SessionCall) : Prop :=
  token_of c = tok /\ match c with Verify clock _ => e <= clock | _ => True end.

Lemma held_since tok cs :
  forall s, fold_left (fun held c => seen tok c held) cs None = Some s <->
    exists before after bytes clock user ttl,
      cs = before ++ Create bytes clock user ttl :: after /\ tok = generateToken bytes /\ s = mkSession tok user (clock + ttl) /\
      List.Forall (fun c => ~ ends tok (clock + ttl) c) after.
Proof.
  induction cs as [|c cs IH] using rev_ind; intros s.
  { split; [done|]. intros (b & a & ? & ? & ? & ? & E & _). by destruct b. }
  rewrite fold_left_app. cbn [fold_left]. unfold seen at 1. destruct (String.eqb_spec tok (token_of c)) as [Et|Nt].
  - destruct c as [bytes clock user ttl|clock t|t]; cbn [token_of] in Et; subst.
    + split.
      * intros [= <-]. exists cs, [], bytes, clock, user, ttl. split; [done|]. split; [done|]. split; [done|constructor].
      * intros (b & a & bytes' & clock' & user' & ttl' & E & Et & -> & F). destruct a as [|x a] using rev_ind.
        -- apply app_inj_tail in E as [_ [= <- <- <- <-]]. done.
        -- rewrite app_comm_cons, app_assoc in E. apply app_inj_tail in E as [_ <-]. apply List.Forall_app in F as [_ F]. inversion F; subst.
           match goal with H : ~ ends _ _ _ |- _ => destruct H; split; [done|exact I] end.
    + split.
      * destruct (fold_left _ cs None) as [s0|] eqn:H0; [|done]. destruct (Z.leb_spec (expiresAt s0) clock) as [L|L]; [done|]. intros [= <-].
        pose proof (proj1 (IH s0) eq_refl) as (b & a & bytes & clock0 & user & ttl & Ec & -> & -> & F). rewrite Ec.
        exists b, (a ++ [Verify clock (generateToken bytes)]), bytes, clock0, user, ttl. split; [by rewrite <- app_assoc|]. split; [done|]. split; [done|].
        apply List.Forall_app. split; [done|]. constructor; [|constructor]. intros [_ K]. cbn in *. lia.
      * intros (b & a & bytes & clock0 & user & ttl & E & Et & -> & F). destruct a as [|x a] using rev_ind.
        { apply app_inj_tail in E as [_ E]. discriminate E. }
        rewrite app_comm_cons, app_assoc in E. apply app_inj_tail in E as [E <-]. apply List.Forall_app in F as [F Fx]. inversion Fx; subst.
        rewrite (proj2 (IH (mkSession (generateToken bytes) user (clock0 + ttl)))) by by eexists _, _, bytes, clock0, user, ttl.
        cbn [expiresAt]. destruct (Z.leb_spec (clock0 + ttl) clock); [|done]. match goal with H : ~ ends _ _ _ |- _ => by destruct H end.
    + split; [done|]. intros (b & a & bytes & clock0 & user & ttl & E & Et & -> & F). destruct a as [|x a] using rev_ind.
      { apply app_inj_tail in E as [_ E]. discriminate E. }
      rewrite app_comm_cons, app_assoc in E. apply app_inj_tail in E as [_ <-]. apply List.Forall_app in F as [_ F]. inversion F; subst.
      match goal with H : ~ ends _ _ _ |- _ => by destruct H end.
  - rewrite IH. split; intros (b & a & bytes & clock0 & user & ttl & E & Et & Es & F).
    + exists b, (a ++ [c]), bytes, clock0, user, ttl. rewrite E, <- app_assoc. split; [done|]. split; [done|]. split; [done|].
      apply List.Forall_app. split; [done|]. constructor; [|constructor]. intros [K _]. congruence.
    + destruct a as [|x a] using rev_ind.
      { apply app_inj_tail in E as [_ E]. subst c. by destruct Nt. }
      rewrite app_comm_cons, app_assoc in E. apply app_inj_tail in E as [-> <-]. apply List.Forall_app in F as [F _].
      by exists b, a, bytes, clock0, user, ttl.
Qed.

(** C23: a token resolves exactly while its session lives: over any lawful store and after
    any history of calls, a verification answers a session if and only if that session was
    created under the token, with the user and expiry it answers, was not revoked, replaced
    or seen expired since, and is not expired now; the boundary instant counts as expired. *)
Theorem session_is_live {S : Type} `{!SessionStore S} (known : string -> Prop) (ok : S -> Prop) `{!SessionStoreLaws S known ok}
    (history : list SessionCall) (empty : S) (clock : Z) (tok : string) (s : Session) :
  ok empty -> (forall t, find t empty = None) -> List.Forall (fun c => known (token_of c)) history -> known tok ->
  (verify clock tok (calls history empty).1).2 = Some s <->
  clock < expiresAt s /\
  exists before after bytes clock0 user ttl,
    history = before ++ Create bytes clock0 user ttl :: after /\ tok = generateToken bytes /\ s = mkSession tok user (clock0 + ttl) /\
    List.Forall (fun c => ~ ends tok (clock0 + ttl) c) after.
Proof.
  intros Hok He Hk Ht. destruct (calls_held known ok history empty Hok Hk) as [_ F]. specialize (F tok Ht). rewrite He in F.
  rewrite <- (held_since tok history s), <- F. unfold verify. destruct (find tok (calls history empty).1) as [s0|] eqn:E; [|split; [done|by intros [_ ?]]].
  destruct (Z.leb_spec (expiresAt s0) clock); cbn [snd]; split; [done|intros [? [= ->]]; lia|intros [= ->]; by split|by intros [_ ?]].
Qed.

(** Removing rows that do not matter to a lookup. *)
Lemma find_filtered (q : SessionRow -> bool) k rows :
  keys_unique rows ->
  List.find (keyed k) (List.filter q rows) = match List.find (keyed k) rows with Some r => if q r then Some r else None | None => None end.
Proof.
  unfold keys_unique, keyed. induction rows as [|x rows IH]; [done|]. cbn [map List.filter List.find]. intros H. inversion H as [|? ? Hx Hr]; subst.
  destruct (String.eqb_spec (row_token x) k) as [E|N].
  - destruct (q x); cbn [List.find]; [by rewrite (proj2 (String.eqb_eq _ _) E)|]. rewrite IH by done. destruct (List.find _ rows) as [r|] eqn:F; [|done].
    apply List.find_some in F as [F1 F2%String.eqb_eq]. destruct Hx. rewrite E, <- F2. by apply in_map.
  - destruct (q x); cbn [List.find]; [rewrite (proj2 (String.eqb_neq _ _) N)|]; by apply IH.
Qed.

(** Fact: the sweeps are what they say: removing the rows expired before an instant changes
    no verification from that instant on, and counts what it removed; removing a user's
    rows ends that user's sessions and no other's. *)
Theorem session_sweeps `{Crypto} (rows : list SessionRow) (now clock : Z) (user tok : string) :
  keys_unique rows ->
  (now <= clock -> (verify clock tok (deleteExpired now rows).1).2 = (verify clock tok rows).2) /\
  (deleteExpired now rows).2 = Z.of_nat (length rows) - Z.of_nat (length (deleteExpired now rows).1) /\
  (verify clock tok (deleteByUserId user rows).1).2 =
    (match (verify clock tok rows).2 with Some s => if String.eqb (userId s) user then None else Some s | None => None end).
Proof.
  intros K. unfold deleteExpired, deleteByUserId, delete_where. cbn [fst snd]. split; [|split].
  - intros L. unfold verify. cbn [find sqlSessionStore]. rewrite find_filtered by done. destruct (List.find _ rows) as [r|]; [|done].
    destruct (Z.ltb_spec (row_expires_at r) now); cbn [negb expiresAt]; [|by destruct (_ <=? _)]. replace (row_expires_at r <=? clock) with true by (symmetry; apply Z.leb_le; lia). done.
  - pose proof (filter_length (fun r => row_expires_at r <? now) rows). lia.
  - unfold verify. cbn [find sqlSessionStore]. rewrite find_filtered by done. destruct (List.find _ rows) as [r|]; [|done].
    destruct (String.eqb_spec (row_user_id r) user) as [E|N]; cbn [negb expiresAt]; destruct (_ <=? _); try done; cbn [snd userId];
      [by rewrite (proj2 (String.eqb_eq _ _) E)|by rewrite (proj2 (String.eqb_neq _ _) N)].
Qed.

(** ** Signed sessions *)

Lemma signed_parts `{Crypto} lenient (D : TextDecoder) secret clock tok claim :
  @verify_signed _ D lenient secret clock tok = Some claim ->
  exists encoded, tok = String.append encoded (String SEPARATOR (hmac_hex encoded secret)) /\
    @decodeClaim D lenient encoded = Some claim /\ num_ge clock (claim_expiresAt claim) = false.
Proof.
  unfold verify_signed. destruct (split SEPARATOR tok) as [|e [|sig [|]]] eqn:S; try done. unfold signaturesMatch, sign.
  destruct (same_bytes sig (hmac_hex e secret)) eqn:M; cbn [negb]; [|done]. apply same_bytes_eq in M as ->.
  destruct (decodeClaim lenient e) as [c|] eqn:Dc; [|done]. destruct (num_ge clock (claim_expiresAt c)) eqn:G; [done|]. intros [= <-].
  exists e. split; [|done]. rewrite <- (join_split SEPARATOR tok), S. done.
Qed.

(** An issued token yields its claim until it expires. *)
Lemma issue_verifies `{CryptoLaws} `{TextDecoderLaw} (lenient : string -> list Z) (secret : string) (clock clock' ttl : number) (user : string) :
  (forall bytes, List.Forall is_byte bytes -> lenient (base64urlEncode bytes) = bytes) -> number_prints (num_add clock ttl) = true ->
  verify_signed lenient secret clock' (issue secret clock user ttl) =
    if num_ge clock' (num_add clock ttl) then None else Some (mkClaim user (num_add clock ttl)).
Proof.
  intros L N. unfold issue, verify_signed. set (claim := JObj _). set (encoded := base64urlEncode (utf8 (stringify claim))).
  assert (has_char SEPARATOR encoded = false) as Hd by (apply base64url_no_dot, utf8_byte).
  rewrite split_app, split_none by (done || by apply hmac_hex_no). unfold signaturesMatch, sign. rewrite (proj2 (same_bytes_eq _ _) eq_refl). cbn [negb].
  assert (decodeClaim lenient encoded = Some (mkClaim user (num_add clock ttl))) as ->; [|done].
  unfold decodeClaim, encoded. rewrite L by apply utf8_byte. rewrite decode_utf8, parse_stringify; [reflexivity|].
  unfold claim. cbn [wire_safe map fst snd forallb]. rewrite N, bool_decide_eq_true_2; [done|]. repeat constructor; set_solver.
Qed.

(** Fact: a signed session is its own proof: for any token the check never throws and answers
    a claim only when the token is that claim's encoding with its keyed hash under the
    secret, in date; a token issued here is answered with the user it was issued to and
    the expiry it was given, at every clock before that expiry and at none from it on. *)
Theorem signed_session_proves_itself `{CryptoLaws} `{TextDecoderLaw} (lenient : string -> list Z) (secret : string)
    (clock clock' ttl : number) (user : string) :
  (forall bytes, List.Forall is_byte bytes -> lenient (base64urlEncode bytes) = bytes) ->
  number_prints (num_add clock ttl) = true ->
  (verify_signed lenient secret clock' (issue secret clock user ttl) =
     if num_ge clock' (num_add clock ttl) then None else Some (mkClaim user (num_add clock ttl))) /\
  (forall tok claim, verify_signed lenient secret clock' tok = Some claim ->
     exists encoded, tok = String.append encoded (String SEPARATOR (hmac_hex encoded secret)) /\
       decodeClaim lenient encoded = Some claim /\ num_ge clock' (claim_expiresAt claim) = false).
Proof.
  intros L N. split; [by apply issue_verifies|intros tok claim; apply signed_parts].
Qed.

(** ** Examples *)

#[local] Existing Instance toy_crypto.
#[local] Existing Instance toy_crypto_laws.
#[local] Instance latin : TextDecoder := decode_latin.
#[local] Instance latin_law : TextDecoderLaw := decode_latin_utf8.

Definition two_tokens : list SessionCall :=
  [Create [1] 0 "ada" 100; Create [2] 10 "bob" 100; Verify 50 "01"; Revoke "02"; Verify 60 "02"; Verify 100 "01"].

Lemma sql_sessions_refine_memory_witness :
  (calls two_tokens ([] : list SessionRow)).2 = (calls two_tokens ([] : JsMap Session)).2.
Proof.
  apply sql_sessions_refine_memory. intros t t' Ht Ht'. cbn [map token_of two_tokens List.In] in Ht, Ht'.
  change (generateToken [1]) with "01"%string in *. change (generateToken [2]) with "02"%string in *.
  destruct Ht as [<-|[<-|[<-|[<-|[<-|[<-|[]]]]]]], Ht' as [<-|[<-|[<-|[<-|[<-|[<-|[]]]]]]];
    first [intros _; reflexivity|intros E; exfalso; revert E; vm_compute; discriminate].
Defined.

Lemma session_is_live_witness :
  (verify 50 "01" (calls [Create [1] 0 "ada" 100; Verify 20 "01"] ([] : JsMap Session)).1).2 = Some (mkSession "01" "ada" 100).
Proof.
  apply (session_is_live (fun _ => True) (fun _ => True) [Create [1] 0 "ada" 100; Verify 20 "01"] ([] : JsMap Session) 50 "01" (mkSession "01" "ada" 100));
    [exact I|reflexivity|repeat constructor|exact I|].
  split; [reflexivity|]. exists [], [Verify 20 "01"], [1], 0, "ada"%string, 100. split; [reflexivity|]. split; [reflexivity|]. split; [reflexivity|].
  constructor; [|constructor]. intros [_ K]. vm_compute in K. apply K. reflexivity.
Defined.

Lemma session_sweeps_witness :
  let rows := [mkRow (sha256 "01") "ada" 100; mkRow (sha256 "02") "bob" 30] in
  (verify 50 "01" (deleteExpired 40 rows).1).2 = (verify 50 "01" rows).2.
Proof.
  apply (session_sweeps [mkRow (sha256 "01") "ada" 100; mkRow (sha256 "02") "bob" 30] 40 50 "ada" "01"); [|lia].
  unfold keys_unique. cbn [map row_token]. constructor; [|constructor; [intros []|constructor]]. intros [E|[]]. revert E. vm_compute. discriminate.
Defined.

(** A lenient decoder that reads what the strict one reads. *)
Definition some_lenient (s : string) : list Z := default [] (base64urlDecode s).

Lemma signed_session_proves_itself_witness :
  verify_signed some_lenient "0123456789abcdef0123456789abcdef" (int 3) (issue "0123456789abcdef0123456789abcdef" (int 1) "ada" (int 4)) =
    Some (mkClaim "ada" (num_add (int 1) (int 4))).
Proof.
  assert (forall bytes, List.Forall is_byte bytes -> some_lenient (base64urlEncode bytes) = bytes) as L
    by (intros bytes Hb; unfold some_lenient; rewrite base64url_round_trip by exact Hb; reflexivity).
  assert (number_prints (num_add (int 1) (int 4)) = true) as N by (vm_compute; reflexivity).
  assert (num_ge (int 3) (num_add (int 1) (int 4)) = false) as G by (vm_compute; reflexivity).
  rewrite (proj1 (signed_session_proves_itself some_lenient "0123456789abcdef0123456789abcdef" (int 1) (int 3) (int 4) "ada" L N)). rewrite G. reflexivity.
Defined.
