(* ===== verification/Passwords.v ===== *)
(** * Passwords

    [packages/auth/src]: the runtime probe ([runtime.ts]), the two self-describing hash
    formats ([password-scrypt.ts], [password-web.ts]), the facade that mints under one and
    verifies under either ([password.ts]), and the recovery codes ([recovery-codes.ts]).
    The key derivations are the platform's; a computation here is the derivations it asks
    for and its outcome. *)
From S2P Require Import Prelude JsString JsNumber Base64 NodeCrypto Web Totp.
#[local] Open Scope string_scope.
#[local] Open Scope Z_scope.

(** ** The runtime *)

(** The globals the probe reads: [navigator.userAgent], whether [WebSocketPair] is a
    function, [process.versions.node]. *)
Record Globals : Type := mkGlobals { userAgent : option string; webSocketPair : bool; nodeVersion : option string }.

Inductive PasswordAlgorithm : Type := Scrypt | Pbkdf2.

(** [s.includes(part)]. *)
Fixpoint contains (part s : string) : bool :=
  startsWith part s || match s with EmptyString => false | String _ s' => contains part s' end.

Definition isWorkerd (g : Globals) : bool :=
  match userAgent g with
  | Some agent =>
      if contains "Cloudflare-Workers" agent then true
      else if contains "Node.js" agent || contains "Bun" agent || contains "Deno" agent then false
      else webSocketPair g
  | None => webSocketPair g
  end.

Definition selectPasswordAlgorithm (g : Globals) : PasswordAlgorithm :=
  if isWorkerd g then Pbkdf2 else match nodeVersion g with Some _ => Scrypt | None => Pbkdf2 end.

(** ** Derivations *)

(** The platform's [scrypt], for a key of 64 bytes and the ceiling below, and [PBKDF2] over
    SHA-256, for 32 bytes; either may throw. *)
Class Kdf := {
  scrypt : string -> list Z -> Z -> Z -> Z -> outcome JsThrown (list Z);
  pbkdf2 : string -> list Z -> Z -> outcome JsThrown (list Z)
}.

Definition MAXMEM : Z := 256 * 1024 * 1024.
Definition DEFAULT_N : Z := 2 ^ 17.
Definition DEFAULT_R : Z := 8.
Definition DEFAULT_P : Z := 1.

(** What they are documented to do. *)
Class KdfLaws `{kdf : !Kdf} : Prop := {
  scrypt_key pw salt N r p key : scrypt pw salt N r p = Ok key -> length key = 64%nat /\ List.Forall is_byte key;
  scrypt_fits pw salt : exists key, scrypt pw salt DEFAULT_N DEFAULT_R DEFAULT_P = Ok key;
  scrypt_memory pw salt N r p : MAXMEM < 128 * N * r -> exists e, scrypt pw salt N r p = Throw e;
  pbkdf2_key pw salt i key : pbkdf2 pw salt i = Ok key -> length key = 32%nat /\ List.Forall is_byte key;
  pbkdf2_fits pw salt : exists key, pbkdf2 pw salt 100000 = Ok key;
  pbkdf2_range pw salt i : 4294967295 < i -> exists e, pbkdf2 pw salt i = Throw e
}.

Inductive Derivation : Type := DeriveScrypt (N r p : Z) | DerivePbkdf2 (iterations : Z).

Definition Derived (A : Type) : Type := list Derivation * outcome JsThrown A.

Definition isPositiveInteger (value : number) : option Z :=
  match whole value with Some n => if 0 <? n then Some n else None | None => None end.

Definition isPowerOfTwo (value : Z) : bool := (1 <? value) && (js_and value (value - 1) =? 0).

(** ** The scrypt format *)

Definition PREFIX : string := "scrypt".
Definition dollar : ascii := "$".

Record ScryptParams : Type := mkParams { N_ : Z; r_ : Z; p_ : Z }.
Record ScryptParsed : Type := mkScrypt { params : ScryptParams; s_salt : list Z; s_expected : list Z }.

Definition sized (ps : ScryptParams) (saltHex hashHex : string) : option ScryptParsed :=
  let salt := fromHex_buffer saltHex in
  let expected := fromHex_buffer hashHex in
  if negb (Nat.eqb (length salt) 16) || negb (Nat.eqb (length expected) 64) then None else Some (mkScrypt ps salt expected).

Definition parseStoredScrypt (stored : string) : option ScryptParsed :=
  match split dollar stored with
  | [prefix; nRaw; rRaw; pRaw; salt; hash] =>
      if negb (String.eqb prefix PREFIX) then None
      else
        match isPositiveInteger (Number_of_string nRaw), isPositiveInteger (Number_of_string rRaw), isPositiveInteger (Number_of_string pRaw) with
        | Some N, Some r, Some p =>
            if negb (isPowerOfTwo N) then None else if DEFAULT_N <? N then None else sized (mkParams N r p) salt hash
        | _, _, _ => None
        end
  | [prefix; salt; hash] => if negb (String.eqb prefix PREFIX) then None else sized (mkParams (2 ^ 14) 8 1) salt hash
  | _ => None
  end.

(** [crypto.timingSafeEqual] of two keys: it throws on different lengths. *)
Definition same_key (a b : list Z) : outcome JsThrown bool :=
  match timingSafeEqual a b with Some r => Ok r | None => Throw OtherError end.

Section Scrypt.
Context `{Kdf}.

Definition scrypt_text (N r p : Z) (salt key : list Z) : string :=
  PREFIX ++ "$" ++ decimal_of N ++ "$" ++ decimal_of r ++ "$" ++ decimal_of p ++ "$" ++ toHex salt ++ "$" ++ toHex key.

(** Given the salt it draws. *)
Definition hashPasswordScrypt (salt : list Z) (password : string) : Derived string :=
  ([DeriveScrypt DEFAULT_N DEFAULT_R DEFAULT_P],
   let! key := scrypt password salt DEFAULT_N DEFAULT_R DEFAULT_P in Ok (scrypt_text DEFAULT_N DEFAULT_R DEFAULT_P salt key)).

Definition verifyPasswordScrypt (password stored : string) : Derived bool :=
  match parseStoredScrypt stored with
  | None => ([], Ok false)
  | Some (mkScrypt (mkParams N r p) salt expected) =>
      ([DeriveScrypt N r p], let! actual := scrypt password salt N r p in same_key actual expected)
  end.

Definition needsRehashScrypt (stored : string) : bool :=
  match parseStoredScrypt stored with
  | None => false
  | Some (mkScrypt (mkParams N r p) _ _) => (N <? DEFAULT_N) || (r <? DEFAULT_R) || (p <? DEFAULT_P)
  end.

Inductive PasswordHashCost : Type := CostScrypt (n r p : Z) | CostPbkdf2 (iterations : Z) | CostUnknown.

Definition describeCostScrypt (stored : string) : option PasswordHashCost :=
  match parseStoredScrypt stored with Some (mkScrypt (mkParams N r p) _ _) => Some (CostScrypt N r p) | None => None end.
End Scrypt.

(** ** The PBKDF2 format *)

Definition PBKDF2_PREFIX : string := "pbkdf2".
Definition DEFAULT_DIGEST_TAG : string := "sha256".
Definition EDGE_MAX_ITERATIONS : Z := 100000.
Definition DEFAULT_ITERATIONS : Z := EDGE_MAX_ITERATIONS.

Record Pbkdf2Parsed : Type := mkPbkdf2 { iterations : Z; w_salt : list Z; w_expected : list Z }.

(** Hexadecimal pairs, and nothing else. *)
Definition fromHex (hex : string) : option (list Z) :=
  if negb (Nat.even (String.length hex)) || negb (all_chars is_hex_char hex) then None else Some (fromHex_buffer hex).

Definition parseStoredWeb (stored : string) : option Pbkdf2Parsed :=
  match split dollar stored with
  | [prefix; digestTag; iterRaw; saltHex; keyHex] =>
      if negb (String.eqb prefix PBKDF2_PREFIX) then None
      else if negb (String.eqb digestTag DEFAULT_DIGEST_TAG) then None
      else
        match isPositiveInteger (Number_of_string iterRaw) with
        | None => None
        | Some i =>
            match fromHex saltHex, fromHex keyHex with
            | Some salt, Some expected =>
                if negb (Nat.eqb (length salt) 16) || negb (Nat.eqb (length expected) 32) then None else Some (mkPbkdf2 i salt expected)
            | _, _ => None
            end
        end
  | _ => None
  end.

(** The loop that compares every byte. *)
Fixpoint diff_bytes (diff : Z) (a b : list Z) : Z :=
  match a with
  | [] => diff
  | x :: a' => diff_bytes (Z.lor diff (Z.lxor x (hd 0 b))) a' (tl b)
  end.

Definition timingSafeEqualWeb (a b : list Z) : bool := diff_bytes 0 a b =? 0.

Section Web.
Context `{Kdf} (g : Globals).

Definition pbkdf2_text (i : Z) (salt key : list Z) : string :=
  PBKDF2_PREFIX ++ "$" ++ DEFAULT_DIGEST_TAG ++ "$" ++ decimal_of i ++ "$" ++ toHex salt ++ "$" ++ toHex key.

Definition hashPasswordWeb (salt : list Z) (password : string) : Derived string :=
  ([DerivePbkdf2 DEFAULT_ITERATIONS],
   let! key := pbkdf2 password salt DEFAULT_ITERATIONS in Ok (pbkdf2_text DEFAULT_ITERATIONS salt key)).

Definition KDF_UNAVAILABLE : JsThrown := LestoError "AUTH_KDF_UNAVAILABLE".

Definition verifyPasswordWeb (password stored : string) : Derived bool :=
  match parseStoredWeb stored with
  | None => ([], Ok false)
  | Some (mkPbkdf2 i salt expected) =>
      if isWorkerd g && (EDGE_MAX_ITERATIONS <? i) then ([], Throw KDF_UNAVAILABLE)
      else ([DerivePbkdf2 i], let! actual := pbkdf2 password salt i in Ok (timingSafeEqualWeb actual expected))
  end.

Definition needsRehashWeb (stored : string) : bool :=
  match parseStoredWeb stored with Some parsed => negb (iterations parsed =? DEFAULT_ITERATIONS) | None => false end.

Definition describeCostWeb (stored : string) : option PasswordHashCost :=
  match parseStoredWeb stored with Some parsed => Some (CostPbkdf2 (iterations parsed)) | None => None end.

(** ** The facade *)

Definition isPbkdf2 (stored : string) : bool := startsWith (PBKDF2_PREFIX ++ "$") stored.

Definition hashPassword (salt : list Z) (password : string) : Derived string :=
  match selectPasswordAlgorithm g with Pbkdf2 => hashPasswordWeb salt password | Scrypt => hashPasswordScrypt salt password end.

Definition verifyPassword (password stored : string) : Derived bool :=
  if isPbkdf2 stored then verifyPasswordWeb password stored
  else match selectPasswordAlgorithm g with Scrypt => verifyPasswordScrypt password stored | Pbkdf2 => ([], Throw KDF_UNAVAILABLE) end.

Definition needsRehash (stored : string) : bool := if isPbkdf2 stored then needsRehashWeb stored else needsRehashScrypt stored.

Definition describeHashCost (stored : string) : PasswordHashCost :=
  default CostUnknown (if isPbkdf2 stored then describeCostWeb stored else describeCostScrypt stored).

(** ** Recovery codes *)

Definition DEFAULT_COUNT : Z := 10.
Definition CODE_BYTES : nat := 10.
Definition CODE_ALPHABET : string := "ABCDEFGHJKMNPQRSTVWXYZ23456789".

Definition code_symbol (b : Z) : ascii := default "A"%char (String.get (Z.to_nat (b mod Z.of_nat (String.length CODE_ALPHABET))) CODE_ALPHABET).

(** A hyphen after every fourth character that another follows. *)
Fixpoint grouped (s : string) : string :=
  match s with
  | String a (String b (String c (String d (String _ _ as rest)))) => String a (String b (String c (String d (String "-" (grouped rest)))))
  | _ => s
  end.

Definition formatCode (bytes : list Z) : string := toLowerCase (grouped (string_of_list_ascii (map code_symbol bytes))).

(** Given the bytes each code draws. *)
Definition generateRecoveryCodes (draws : list (list Z)) : list string := map formatCode draws.

(** Given the salts; [Promise.all]: the first failure, or every digest. *)
Fixpoint hashRecoveryCodes (salts : list (list Z)) (codes : list string) : Derived (list string) :=
  match codes with
  | [] => ([], Ok [])
  | c :: codes' =>
      let first := hashPassword (hd [] salts) c in
      let rest := hashRecoveryCodes (tl salts) codes' in
      ((first.1 ++ rest.1)%list, let! h := first.2 in let! hs := rest.2 in Ok (h :: hs))
  end.

Definition verifyRecoveryCode (c storedHash : string) : Derived bool := verifyPassword c storedHash.
End Web.
