(* ===== verification/PasswordsProps.v ===== *)
(** * Passwords: what a stored hash proves

    A minted hash verifies for its password and, short of a collision of the derivation,
    no other, on every runtime that can derive it; no stored text verifies without a whole
    key that the derivation reproduces; and the edge never asks for a derivation it cannot
    run. *)
From S2P Require Import Prelude JsString JsNumber Base64 NodeCrypto IpAddress Web Totp Passwords.
#[local] Open Scope string_scope.
#[local] Open Scope Z_scope.
#[local] Open Scope list_scope.

(** ** Comparisons *)

Lemma diff_bytes_zero d a b : length a = length b -> (diff_bytes d a b =? 0) = true <-> d = 0 /\ a = b.
Proof.
  revert d b. induction a as [|x a IH]; intros d [|y b] L; try done; cbn [diff_bytes hd tl].
  - rewrite Z.eqb_eq. tauto.
  - rewrite IH by (by injection L). rewrite Z.lor_eq_0_iff, Z.lxor_eq_0_iff. split; [by intros [[-> ->] ->]|by intros [-> [= -> ->]]].
Qed.

Lemma same_key_web a b : length a = length b -> timingSafeEqualWeb a b = bool_decide (a = b).
Proof. intros L. apply eq_true_iff_eq. unfold timingSafeEqualWeb. rewrite diff_bytes_zero, bool_decide_eq_true by done. tauto. Qed.

(** ** Texts *)

Lemma hex_no_dollar bytes : List.Forall is_byte bytes -> has_char dollar (toHex bytes) = false.
Proof. by apply hex_no_char. Qed.

Lemma fromHex_all bytes : List.Forall is_byte bytes -> fromHex_buffer (toHex bytes) = bytes.
Proof. intros H. pose proof (fromHex_toHex bytes EmptyString H) as E. by rewrite append_nil_r, app_nil_r in E. Qed.

Lemma fromHex_strict bytes : List.Forall is_byte bytes -> fromHex (toHex bytes) = Some bytes.
Proof.
  intros H. unfold fromHex. rewrite toHex_length, toHex_chars by done. replace (Nat.even (2 * length bytes)) with true by (by rewrite Nat.even_mul).
  cbn [negb orb]. by rewrite fromHex_all.
Qed.

Lemma fromHex_bytes s bytes : fromHex s = Some bytes -> fromHex_buffer s = bytes.
Proof. unfold fromHex. destruct (_ || _); [done|]. by intros [= <-]. Qed.

(** The costs the minters write read back. *)
Lemma scrypt_costs_read :
  isPositiveInteger (Number_of_string (decimal_of DEFAULT_N)) = Some DEFAULT_N /\
  isPositiveInteger (Number_of_string (decimal_of DEFAULT_R)) = Some DEFAULT_R /\
  isPositiveInteger (Number_of_string (decimal_of DEFAULT_P)) = Some DEFAULT_P /\ isPowerOfTwo DEFAULT_N = true.
Proof. split; [vm_compute; reflexivity|]. split; [vm_compute; reflexivity|]. split; vm_compute; reflexivity. Qed.

Lemma web_cost_read : isPositiveInteger (Number_of_string (decimal_of DEFAULT_ITERATIONS)) = Some DEFAULT_ITERATIONS.
Proof. vm_compute. reflexivity. Qed.

Lemma decimal_no_dollar n : 0 <= n -> has_char dollar (decimal_of n) = false.
Proof. intros Hn. destruct (digits_in_spec 10 n) as (k & E & _); [lia|done|]. by eapply take_digits_chars. Qed.

Lemma parse_scrypt_text salt key :
  List.Forall is_byte salt -> List.Forall is_byte key -> length salt = 16%nat -> length key = 64%nat ->
  parseStoredScrypt (scrypt_text DEFAULT_N DEFAULT_R DEFAULT_P salt key) = Some (mkScrypt (mkParams DEFAULT_N DEFAULT_R DEFAULT_P) salt key).
Proof.
  intros Hs Hk Ls Lk. unfold parseStoredScrypt, scrypt_text.
  change (split dollar ?t) with (split dollar t).
  assert (split dollar (String.append PREFIX (String.append "$" (String.append (decimal_of DEFAULT_N) (String.append "$" (String.append (decimal_of DEFAULT_R)
            (String.append "$" (String.append (decimal_of DEFAULT_P) (String.append "$" (String.append (toHex salt) (String.append "$" (toHex key)))))))))))
          = [PREFIX; decimal_of DEFAULT_N; decimal_of DEFAULT_R; decimal_of DEFAULT_P; toHex salt; toHex key]) as ->.
  { transitivity (split dollar (join "$" [PREFIX; decimal_of DEFAULT_N; decimal_of DEFAULT_R; decimal_of DEFAULT_P; toHex salt; toHex key])); [done|].
    apply split_join; [done|]. repeat constructor; by apply hex_no_dollar || by apply decimal_no_dollar. }
  destruct scrypt_costs_read as (-> & -> & -> & ->). rewrite String.eqb_refl. cbn [negb]. rewrite Z.ltb_irrefl. unfold sized.
  rewrite !fromHex_all by done. by rewrite Ls, Lk.
Qed.

Lemma parse_pbkdf2_text salt key :
  List.Forall is_byte salt -> List.Forall is_byte key -> length salt = 16%nat -> length key = 32%nat ->
  parseStoredWeb (pbkdf2_text DEFAULT_ITERATIONS salt key) = Some (mkPbkdf2 DEFAULT_ITERATIONS salt key).
Proof.
  intros Hs Hk Ls Lk. unfold parseStoredWeb.
  assert (split dollar (pbkdf2_text DEFAULT_ITERATIONS salt key) = [PBKDF2_PREFIX; DEFAULT_DIGEST_TAG; decimal_of DEFAULT_ITERATIONS; toHex salt; toHex key]) as ->.
  { transitivity (split dollar (join "$" [PBKDF2_PREFIX; DEFAULT_DIGEST_TAG; decimal_of DEFAULT_ITERATIONS; toHex salt; toHex key])); [done|].
    apply split_join; [done|]. repeat constructor; by apply hex_no_dollar || by apply decimal_no_dollar. }
  rewrite !String.eqb_refl. cbn [negb]. rewrite web_cost_read, !fromHex_strict by done. by rewrite Ls, Lk.
Qed.

(** ** Widths *)

Lemma scrypt_parsed_width stored parsed : parseStoredScrypt stored = Some parsed -> length (s_salt parsed) = 16%nat /\ length (s_expected parsed) = 64%nat.
Proof.
  assert (forall ps a b, sized ps a b = Some parsed -> length (s_salt parsed) = 16%nat /\ length (s_expected parsed) = 64%nat) as W.
  { intros ps a b. unfold sized. destruct (_ || _) eqn:E; [done|]. intros [= <-]. cbn. apply orb_false_iff in E as [E1 E2].
    apply negb_false_iff, Nat.eqb_eq in E1, E2. done. }
  unfold parseStoredScrypt. repeat (case_match; try done); apply W.
Qed.

Lemma web_parsed_width stored parsed : parseStoredWeb stored = Some parsed -> length (w_salt parsed) = 16%nat /\ length (w_expected parsed) = 32%nat.
Proof.
  unfold parseStoredWeb. destruct (split dollar stored) as [|? [|? [|? [|? [|? [|]]]]]]; try done. destruct (negb _); [done|]. destruct (negb _); [done|].
  destruct (isPositiveInteger _); [|done]. destruct (fromHex _) as [a|]; [|done]. destruct (fromHex _) as [b|]; [|done].
  destruct (_ || _) eqn:E; [done|]. intros [= <-]. cbn. apply orb_false_iff in E as [E1 E2]. apply negb_false_iff, Nat.eqb_eq in E1, E2. done.
Qed.

Lemma prefix_text i salt key : isPbkdf2 (pbkdf2_text i salt key) = true.
Proof. reflexivity. Qed.

Lemma prefix_scrypt N r p salt key : isPbkdf2 (scrypt_text N r p salt key) = false.
Proof. reflexivity. Qed.

Section Laws.
Context `{KdfLaws}.

Lemma scrypt_verify g password stored parsed :
  parseStoredScrypt stored = Some parsed -> isPbkdf2 stored = false -> selectPasswordAlgorithm g = Scrypt ->
  let ps := params parsed in
  verifyPassword g password stored =
    ([DeriveScrypt (N_ ps) (r_ ps) (p_ ps)],
     let! actual := scrypt password (s_salt parsed) (N_ ps) (r_ ps) (p_ ps) in Ok (bool_decide (actual = s_expected parsed))).
Proof.
  intros P I S. destruct (scrypt_parsed_width _ _ P) as [_ L]. unfold verifyPassword. rewrite I, S. unfold verifyPasswordScrypt. rewrite P.
  destruct parsed as [[N r p] salt expected]. cbn in *. f_equal. destruct (scrypt password salt N r p) as [key|] eqn:K; [|done]. cbn [outcome_bind].
  apply scrypt_key in K as [K _]. unfold same_key, timingSafeEqual. by rewrite K, L.
Qed.

Lemma web_verify g password stored parsed :
  parseStoredWeb stored = Some parsed -> isPbkdf2 stored = true -> isWorkerd g && (EDGE_MAX_ITERATIONS <? iterations parsed) = false ->
  verifyPassword g password stored =
    ([DerivePbkdf2 (iterations parsed)],
     let! actual := pbkdf2 password (w_salt parsed) (iterations parsed) in Ok (bool_decide (actual = w_expected parsed))).
Proof.
  intros P I S. destruct (web_parsed_width _ _ P) as [_ L]. unfold verifyPassword. rewrite I. unfold verifyPasswordWeb. rewrite P.
  destruct parsed as [i salt expected]. cbn in *. rewrite S. f_equal. destruct (pbkdf2 password salt i) as [key|] eqn:K; [|done]. cbn [outcome_bind].
  apply pbkdf2_key in K as [K _]. by rewrite same_key_web by lia.
Qed.

(** A minted hash: of the derived key, under the default cost. *)
Lemma minted g salt password stored :
  (hashPassword g salt password).2 = Ok stored ->
  match selectPasswordAlgorithm g with
  | Scrypt => exists key, scrypt password salt DEFAULT_N DEFAULT_R DEFAULT_P = Ok key /\ stored = scrypt_text DEFAULT_N DEFAULT_R DEFAULT_P salt key
  | Pbkdf2 => exists key, pbkdf2 password salt DEFAULT_ITERATIONS = Ok key /\ stored = pbkdf2_text DEFAULT_ITERATIONS salt key
  end.
Proof.
  unfold hashPassword. destruct (selectPasswordAlgorithm g); unfold hashPasswordScrypt, hashPasswordWeb; cbn [snd].
  - destruct (scrypt _ _ _ _ _) as [key|]; [|done]. intros [= <-]. eauto.
  - destruct (pbkdf2 _ _ _) as [key|]; [|done]. intros [= <-]. eauto.
Qed.
End Laws.

(** The runtimes that can check a hash minted on [g]: any, for PBKDF2; the same kind, for
    scrypt. *)
Definition can_check (g g' : Globals) : Prop := selectPasswordAlgorithm g = Pbkdf2 \/ selectPasswordAlgorithm g' = Scrypt.

(** Fact: a hash proves its password: minting never fails under the default cost; the hash
    verifies, on every runtime that can check it, for exactly the passwords that derive the
    minted key from its salt, the minted one among them, and is not stale there; on a
    runtime that cannot, the check refuses with its code and derives nothing. *)
Theorem minted_hash_proves_password `{KdfLaws} (g g' : Globals) (salt : list Z) (password candidate : string) :
  List.Forall is_byte salt -> length salt = 16%nat ->
  exists stored, (hashPassword g salt password).2 = Ok stored /\ needsRehash stored = false /\
    (can_check g g' ->
       (verifyPassword g' password stored).2 = Ok true /\
       forall answer, (verifyPassword g' candidate stored).2 = Ok answer ->
         (answer = true <->
            match selectPasswordAlgorithm g with
            | Scrypt => scrypt candidate salt DEFAULT_N DEFAULT_R DEFAULT_P = scrypt password salt DEFAULT_N DEFAULT_R DEFAULT_P
            | Pbkdf2 => pbkdf2 candidate salt DEFAULT_ITERATIONS = pbkdf2 password salt DEFAULT_ITERATIONS
            end)) /\
    (~ can_check g g' -> verifyPassword g' candidate stored = ([], Throw KDF_UNAVAILABLE)).
Proof.
  intros Hs Ls. unfold can_check. destruct (selectPasswordAlgorithm g) eqn:G.
  - destruct (scrypt_fits password salt) as [key K]. pose proof (scrypt_key _ _ _ _ _ _ K) as [Lk Bk].
    pose proof (parse_scrypt_text salt key Hs Bk Ls Lk) as P. exists (scrypt_text DEFAULT_N DEFAULT_R DEFAULT_P salt key).
    split; [unfold hashPassword; rewrite G; unfold hashPasswordScrypt; cbn [snd]; by rewrite K|].
    split; [unfold needsRehash; rewrite prefix_scrypt; unfold needsRehashScrypt; by rewrite P|]. split.
    + intros [C|C]; [done|]. pose proof (fun pw => scrypt_verify g' pw _ _ P (prefix_scrypt _ _ _ _ _) C) as V. cbn [params N_ r_ p_ s_salt s_expected] in V.
      rewrite !V. cbn [snd]. rewrite K. cbn [outcome_bind]. split; [by rewrite bool_decide_eq_true_2|].
      intros answer. destruct (scrypt candidate _ _ _ _) as [k|]; [|done]. cbn [outcome_bind]. intros [= <-]. rewrite bool_decide_eq_true.
      split; [by intros ->|by intros [= ->]].
    + intros N. unfold verifyPassword. rewrite prefix_scrypt. destruct (selectPasswordAlgorithm g'); [|done]. destruct N. by right.
  - destruct (pbkdf2_fits password salt) as [key K]. change 100000 with DEFAULT_ITERATIONS in K. pose proof (pbkdf2_key _ _ _ _ K) as [Lk Bk].
    pose proof (parse_pbkdf2_text salt key Hs Bk Ls Lk) as P. exists (pbkdf2_text DEFAULT_ITERATIONS salt key).
    split; [unfold hashPassword; rewrite G; unfold hashPasswordWeb; cbn [snd]; by rewrite K|].
    split; [unfold needsRehash; rewrite prefix_text; unfold needsRehashWeb; by rewrite P|]. split; [|intros N; destruct N; by left].
    intros _. pose proof (fun pw => web_verify g' pw _ _ P (prefix_text _ _ _) (andb_false_r _)) as V. cbn [iterations w_salt w_expected] in V.
    rewrite !V. cbn [snd]. rewrite K. cbn [outcome_bind]. split; [by rewrite bool_decide_eq_true_2|].
    intros answer. destruct (pbkdf2 candidate _ _) as [k|]; [|done]. cbn [outcome_bind]. intros [= <-]. rewrite bool_decide_eq_true.
    split; [by intros ->|by intros [= ->]].
Qed.

(** C20: the check fails closed: a stored text verifies only when it parses to a salt of 16
    bytes and a whole key, of 64 bytes under scrypt or 32 under PBKDF2, that the derivation
    reproduces from the candidate under the parsed cost; and the check throws only when the
    derivation itself throws, or before it, with the code, for a hash this runtime cannot
    derive: on the edge no scrypt is ever asked for, nor PBKDF2 beyond the ceiling. *)
Theorem verify_fails_closed `{KdfLaws} (g : Globals) (candidate stored : string) :
  ((verifyPassword g candidate stored).2 = Ok true ->
     (exists parsed, parseStoredScrypt stored = Some parsed /\ length (s_salt parsed) = 16%nat /\ length (s_expected parsed) = 64%nat /\
        N_ (params parsed) <= DEFAULT_N /\
        scrypt candidate (s_salt parsed) (N_ (params parsed)) (r_ (params parsed)) (p_ (params parsed)) = Ok (s_expected parsed)) \/
     (exists parsed, parseStoredWeb stored = Some parsed /\ length (w_salt parsed) = 16%nat /\ length (w_expected parsed) = 32%nat /\
        pbkdf2 candidate (w_salt parsed) (iterations parsed) = Ok (w_expected parsed))) /\
  (selectPasswordAlgorithm g <> Scrypt -> forall N r p, ~ List.In (DeriveScrypt N r p) (verifyPassword g candidate stored).1) /\
  (isWorkerd g = true -> forall i, List.In (DerivePbkdf2 i) (verifyPassword g candidate stored).1 -> i <= EDGE_MAX_ITERATIONS) /\
  (forall e, (verifyPassword g candidate stored).2 = Throw e ->
     (verifyPassword g candidate stored).1 = [] /\ e = KDF_UNAVAILABLE \/
     exists d, (verifyPassword g candidate stored).1 = [d] /\
       match d with
       | DeriveScrypt N r p => exists salt, scrypt candidate salt N r p = Throw e
       | DerivePbkdf2 i => exists salt, pbkdf2 candidate salt i = Throw e
       end).
Proof.
  destruct (isPbkdf2 stored) eqn:I.
  - destruct (parseStoredWeb stored) as [parsed|] eqn:P.
    + destruct (isWorkerd g && (EDGE_MAX_ITERATIONS <? iterations parsed)) eqn:B.
      * assert (verifyPassword g candidate stored = ([], Throw KDF_UNAVAILABLE)) as ->.
        { unfold verifyPassword, verifyPasswordWeb. rewrite I, P. destruct parsed. cbn in B. by rewrite B. }
        split; [done|]. split; [by intros _ ? ? ? []|]. split; [by intros _ ? []|]. intros e [= <-]. by left.
      * rewrite (web_verify g candidate stored parsed P I B). cbn [fst snd]. destruct (web_parsed_width _ _ P) as [L1 L2].
        destruct (pbkdf2 candidate (w_salt parsed) (iterations parsed)) as [key|e] eqn:K; cbn [outcome_bind].
        -- split; [intros [= E]; apply bool_decide_eq_true in E; subst key; right; by exists parsed|]. split; [intros _ N r p [?|[]]; done|].
           split; [intros W i [[= <-]|[]]|done]. rewrite W in B. cbn [andb] in B. by apply Z.ltb_ge.
        -- split; [done|]. split; [intros _ N r p [?|[]]; done|]. split; [intros W i [[= <-]|[]]; rewrite W in B; cbn [andb] in B; by apply Z.ltb_ge|].
           intros e' [= <-]. right. eexists. split; [reflexivity|]. by exists (w_salt parsed).
    + assert (verifyPassword g candidate stored = ([], Ok false)) as -> by (unfold verifyPassword, verifyPasswordWeb; by rewrite I, P).
      split; [done|]. split; [by intros _ ? ? ? []|]. split; [by intros _ ? []|done].
  - destruct (selectPasswordAlgorithm g) eqn:G.
    + destruct (parseStoredScrypt stored) as [parsed|] eqn:P.
      * rewrite (scrypt_verify g candidate stored parsed P I G). cbn [fst snd]. destruct (scrypt_parsed_width _ _ P) as [L1 L2].
        assert (N_ (params parsed) <= DEFAULT_N) as LN.
        { revert P. unfold parseStoredScrypt, sized, DEFAULT_N. repeat (case_match; try done); intros [= <-]; cbn; [lia|]. by apply Z.ltb_ge. }
        destruct (scrypt candidate _ _ _ _) as [key|e] eqn:K; cbn [outcome_bind].
        -- split; [intros [= E]; apply bool_decide_eq_true in E; subst key; left; by exists parsed|]. split; [done|]. split; [intros W i [?|[]]; done|done].
        -- split; [done|]. split; [done|]. split; [intros W i [?|[]]; done|]. intros e' [= <-]. right. eexists. split; [reflexivity|]. by exists (s_salt parsed).
      * assert (verifyPassword g candidate stored = ([], Ok false)) as -> by (unfold verifyPassword, verifyPasswordScrypt; by rewrite I, G, P).
        split; [done|]. split; [done|]. split; [by intros _ ? []|done].
    + assert (verifyPassword g candidate stored = ([], Throw KDF_UNAVAILABLE)) as -> by (unfold verifyPassword; by rewrite I, G).
      split; [done|]. split; [by intros _ ? ? ? []|]. split; [by intros _ ? []|]. intros e [= <-]. by left.
Qed.

(** ** Concrete runtimes and a concrete derivation *)

Definition node : Globals := mkGlobals (Some "Node.js/22") false (Some "22.11.0").
Definition edge : Globals := mkGlobals (Some "Cloudflare-Workers") true None.

(** A checksum of the password and the salt, repeated to the key's length. *)
Definition checksum (password : string) (salt : list Z) : Z :=
  fold_left (fun acc b => (acc * 31 + b) mod 256) (map (fun c => Z.of_N (N_of_ascii c)) (list_ascii_of_string password) ++ salt) 7.

Lemma key_checksum_byte password salt : is_byte (checksum password salt).
Proof.
  unfold checksum. set (l := _ ++ _). assert (forall acc, is_byte acc -> is_byte (fold_left (fun acc b => (acc * 31 + b) mod 256) l acc)) as G.
  { induction l as [|b l IH]; intros acc B; [done|]. cbn. apply IH. apply Z.mod_pos_bound. lia. }
  apply G. unfold is_byte. lia.
Qed.

Definition toy_kdf : Kdf := {|
  scrypt pw salt N r p := if MAXMEM <? 128 * N * r then Throw OtherError else Ok (repeat (checksum pw salt) 64);
  pbkdf2 pw salt i := if 4294967295 <? i then Throw OtherError else Ok (repeat (checksum pw salt) 32)
|}.

Lemma repeated_key b n : is_byte b -> length (repeat b n) = n /\ List.Forall is_byte (repeat b n).
Proof. intros B. split; [apply repeat_length|]. apply List.Forall_forall. intros x X. by apply repeat_spec in X as ->. Qed.

Lemma toy_kdf_laws : @KdfLaws toy_kdf.
Proof.
  constructor; cbn.
  - intros pw salt N r p key. destruct (_ <? _); [done|]. intros [= <-]. apply (repeated_key _ 64), key_checksum_byte.
  - eauto.
  - intros pw salt N r p E. apply Z.ltb_lt in E. rewrite E. eauto.
  - intros pw salt i key. destruct (_ <? _); [done|]. intros [= <-]. apply (repeated_key _ 32), key_checksum_byte.
  - eauto.
  - intros pw salt i E. apply Z.ltb_lt in E. rewrite E. eauto.
Qed.

Definition a_salt : list Z := repeat 171 16.

Lemma a_salt_bytes : List.Forall is_byte a_salt.
Proof. apply repeated_key. unfold is_byte. lia. Qed.

(** A hash minted on a Node process, refused on the
    edge; one minted on the edge, checked on Node. *)
Lemma minted_hash_proves_password_witness :
  (exists stored, (@hashPassword toy_kdf node a_salt "hunter2").2 = Ok stored /\ @verifyPassword toy_kdf edge "hunter2" stored = ([], Throw KDF_UNAVAILABLE)) /\
  (exists stored, (@hashPassword toy_kdf edge a_salt "hunter2").2 = Ok stored /\ (@verifyPassword toy_kdf node "hunter2" stored).2 = Ok true).
Proof.
  split.
  - destruct (@minted_hash_proves_password toy_kdf toy_kdf_laws node edge a_salt "hunter2" "hunter2" a_salt_bytes eq_refl) as (stored & M & _ & _ & R).
    exists stored. split; [exact M|]. apply R. intros [C|C]; discriminate C.
  - destruct (@minted_hash_proves_password toy_kdf toy_kdf_laws edge node a_salt "hunter2" "hunter3" a_salt_bytes eq_refl) as (stored & M & _ & V & _).
    exists stored. split; [exact M|]. apply V. left. reflexivity.
Defined.

(** ** Costs the parsers let through *)

Definition zeros (n : nat) : string := string_of_list_ascii (repeat "0"%char n).

(** A well-formed scrypt hash whose block size needs more than the memory ceiling. *)
Definition huge_block : string := "scrypt$131072$1000000$1$" ++ zeros 32 ++ "$" ++ zeros 128.

(** A well-formed PBKDF2 hash with more iterations than the platform takes. *)
Definition huge_count : string := "pbkdf2$sha256$4294967296$" ++ zeros 32 ++ "$" ++ zeros 64.

(** On the edge a scrypt hash is refused before any derivation. *)
Lemma verify_fails_closed_witness : ~ List.In (DeriveScrypt 131072 1000000 1) (@verifyPassword toy_kdf edge "hunter2" huge_block).1.
Proof. apply (proj1 (proj2 (@verify_fails_closed toy_kdf toy_kdf_laws edge "hunter2" huge_block))). discriminate. Defined.

Lemma huge_block_parses : parseStoredScrypt huge_block = Some (mkScrypt (mkParams 131072 1000000 1) (repeat 0 16) (repeat 0 64)).
Proof. vm_compute. reflexivity. Qed.

Lemma huge_count_parses : parseStoredWeb huge_count = Some (mkPbkdf2 4294967296 (repeat 0 16) (repeat 0 32)).
Proof. vm_compute. reflexivity. Qed.

(** Fact: a stored scrypt hash whose block size passes the parser but not the memory ceiling
    makes the check throw on Node, whatever the password; so does, off the edge, a PBKDF2
    hash with more iterations than the platform takes. *)
Theorem oversized_costs_throw `{KdfLaws} (password : string) :
  (exists e, (verifyPassword node password huge_block).2 = Throw e) /\
  (exists e, (verifyPassword node password huge_count).2 = Throw e).
Proof.
  split.
  - rewrite (scrypt_verify node password huge_block _ huge_block_parses) by (vm_compute; reflexivity). cbn [snd params N_ r_ p_ s_salt s_expected].
    destruct (scrypt_memory password (repeat 0 16) 131072 1000000 1) as [e ->]; [unfold MAXMEM; lia|]. by exists e.
  - rewrite (web_verify node password huge_count _ huge_count_parses) by (vm_compute; reflexivity). cbn [snd iterations w_salt w_expected].
    destruct (pbkdf2_range password (repeat 0 16) 4294967296) as [e ->]; [lia|]. by exists e.
Qed.

(** ** Recovery codes *)

(** The symbol of a remainder, as it is shown. *)
Definition shown (k : nat) : ascii := lower_char (default "A"%char (String.get k CODE_ALPHABET)).

Lemma shown_once :
  forallb (fun a => forallb (fun b => implb (Ascii.eqb (shown a) (shown b)) (Nat.eqb a b)) (List.seq 0 30)) (List.seq 0 30) = true.
Proof. vm_compute. reflexivity. Qed.

Lemma shown_inj a b : (a < 30)%nat -> (b < 30)%nat -> shown a = shown b -> a = b.
Proof.
  intros Ha Hb E. pose proof shown_once as A. rewrite forallb_forall in A. specialize (A a ltac:(apply in_seq; lia)).
  rewrite forallb_forall in A. specialize (A b ltac:(apply in_seq; lia)). rewrite E, Ascii.eqb_refl in A. by apply Nat.eqb_eq in A.
Qed.

Lemma symbol_inj b b' : lower_char (code_symbol b) = lower_char (code_symbol b') -> b mod 30 = b' mod 30.
Proof.
  intros E. change (shown (Z.to_nat (b mod 30)) = shown (Z.to_nat (b' mod 30))) in E.
  pose proof (Z.mod_pos_bound b 30 ltac:(lia)). pose proof (Z.mod_pos_bound b' 30 ltac:(lia)). apply shown_inj in E; lia.
Qed.

Lemma code_text b0 b1 b2 b3 b4 b5 b6 b7 b8 b9 :
  list_ascii_of_string (formatCode [b0; b1; b2; b3; b4; b5; b6; b7; b8; b9]) =
    let s b := lower_char (code_symbol b) in [s b0; s b1; s b2; s b3; "-"%char; s b4; s b5; s b6; s b7; "-"%char; s b8; s b9].
Proof. reflexivity. Qed.

Ltac ten bytes L := do 10 (destruct bytes as [|? bytes]; [discriminate L|]); destruct bytes; [clear L|discriminate L].

(** The symbols a batch of codes can hold, each byte folded onto them. *)
Definition folds_to (k : Z) : nat := length (filter (fun b => b mod 30 = k) (map Z.of_nat (List.seq 0 256))).

(** Fact: a recovery code is two groups of four symbols and one of two, in lower case, and two
    draws give one code exactly when their bytes agree modulo 30: there are 30^10 codes. The
    fold is uneven: 9 bytes of 256 fall on each of the first 16 symbols and 8 on the rest. *)
Theorem recovery_codes_counted (bytes bytes' : list Z) :
  length bytes = CODE_BYTES -> length bytes' = CODE_BYTES ->
  (formatCode bytes = formatCode bytes' <-> map (fun b => b mod 30) bytes = map (fun b => b mod 30) bytes') /\
  String.length (formatCode bytes) = 12%nat /\ String.get 4 (formatCode bytes) = Some "-"%char /\ String.get 9 (formatCode bytes) = Some "-"%char /\
  map folds_to (map Z.of_nat (List.seq 0 30)) = repeat 9%nat 16 ++ repeat 8%nat 14.
Proof.
  intros L L'. split; [|ten bytes L; split; [reflexivity|]; split; [reflexivity|]; split; [reflexivity|vm_compute; reflexivity]].
  ten bytes L. ten bytes' L'. split; intros E.
  - apply (f_equal list_ascii_of_string) in E. rewrite !code_text in E. cbv zeta in E. cbn [map].
    assert (forall x y : list ascii, x = y -> map (fun n => nth n x "-"%char) [0; 1; 2; 3; 5; 6; 7; 8; 10; 11]%nat = map (fun n => nth n y "-"%char) [0; 1; 2; 3; 5; 6; 7; 8; 10; 11]%nat) as P by (by intros ? ? ->).
    apply P in E. cbn [map nth] in E. clear P. simplify_list_eq.
    repeat (apply (f_equal2 cons); [by apply symbol_inj|]). reflexivity.
  - cbn [map] in E. simplify_list_eq. unfold formatCode. cbn [map]. unfold code_symbol. change (Z.of_nat (String.length CODE_ALPHABET)) with 30.
    repeat match goal with X : _ mod 30 = _ mod 30 |- _ => rewrite X; clear X end. reflexivity.
Qed.

Lemma recovery_codes_counted_witness : formatCode (repeat 0 10) = formatCode (repeat 30 10) /\ formatCode (repeat 0 10) = "aaaa-aaaa-aa"%string.
Proof.
  split; [|reflexivity].
  apply (recovery_codes_counted (repeat 0 10) (repeat 30 10)); [reflexivity|reflexivity|reflexivity].
Defined.
