(* ===== verification/Async.v ===== *)
(** * Asynchronous programs

    What an [async] function does between one [await] and the next, as far as others can see
    it, is one atomic action on the shared state. A program is a tree of such actions; run
    alone it is a function of the state, and several in flight interleave at their
    actions, with the environment's own steps in between. *)
From S2P Require Import Prelude Web.

Section Programs.
Context {W : Type}.

Inductive Prog (A : Type) : Type :=
| Done (r : outcome JsThrown A)
| Atom (X : Type) (f : W -> W * X) (k : X -> Prog A).
#[global] Arguments Done {A} r.
#[global] Arguments Atom {A} X f k.

Definition ret {A} (a : A) : Prog A := Done (Ok a).
Definition throw {A} (e : JsThrown) : Prog A := Done (Throw e).
Definition lift {A} (r : outcome JsThrown A) : Prog A := Done r.

(** One action, and what it yields. *)
Definition atomic {X} (f : W -> W * X) : Prog X := Atom X f (fun x => Done (Ok x)).
Definition modify (f : W -> W) : Prog unit := atomic (fun w => (f w, tt)).
Definition query {X} (f : W -> X) : Prog X := atomic (fun w => (w, f w)).

(** [await p], then the rest; a rejection ends the program. *)
Fixpoint bind {A B} (p : Prog A) (k : A -> Prog B) : Prog B :=
  match p with
  | Done (Ok a) => k a
  | Done (Throw e) => Done (Throw e)
  | Atom X f k' => Atom X f (fun x => bind (k' x) k)
  end.

(** [try { await p }]: the outcome as a value. *)
Fixpoint attempt {A} (p : Prog A) : Prog (outcome JsThrown A) :=
  match p with
  | Done r => Done (Ok r)
  | Atom X f k => Atom X f (fun x => attempt (k x))
  end.

(** Alone. *)
Fixpoint run {A} (p : Prog A) (w : W) : W * outcome JsThrown A :=
  match p with
  | Done r => (w, r)
  | Atom X f k => let '(w', x) := f w in run (k x) w'
  end.

(** ** Interleaving *)

(** The environment's steps: the passing of time. *)
Context (environment : W -> W -> Prop).

Inductive step {A} : W * list (Prog A) -> W * list (Prog A) -> Prop :=
| step_program w before X f k after :
    step (w, before ++ Atom X f k :: after) ((f w).1, before ++ k (f w).2 :: after)
| step_environment w w' ps : environment w w' -> step (w, ps) (w', ps).

Inductive steps {A} (start : W * list (Prog A)) : W * list (Prog A) -> Prop :=
| steps_none : steps start start
| steps_more s s' : steps start s -> step s s' -> steps start s'.

(** A schedule: whose turn it is. *)
Definition turn {A} (i : nat) (s : W * list (Prog A)) : W * list (Prog A) :=
  match nth_error s.2 i with
  | Some (Atom X f k) => ((f s.1).1, firstn i s.2 ++ k (f s.1).2 :: skipn (S i) s.2)
  | _ => s
  end.

Definition scheduled {A} (turns : list nat) (s : W * list (Prog A)) : W * list (Prog A) := fold_left (fun s i => turn i s) turns s.

(** Every action a program may come to satisfies [G], whatever the others did before it. *)
Fixpoint guarantees {A} (G : W -> W -> Prop) (p : Prog A) : Prop :=
  match p with
  | Done _ => True
  | Atom X f k => forall w, G w (f w).1 /\ guarantees G (k (f w).2)
  end.

(** Every result a program may come to satisfies [Q]. *)
Fixpoint returns {A} (Q : A -> Prop) (p : Prog A) : Prop :=
  match p with
  | Done (Ok a) => Q a
  | Done (Throw _) => True
  | Atom X f k => forall w, returns Q (k (f w).2)
  end.

(** ** Laws *)

Lemma run_bind {A B} (p : Prog A) (k : A -> Prog B) w :
  run (bind p k) w = match run p w with (w', Ok a) => run (k a) w' | (w', Throw e) => (w', Throw e) end.
Proof.
  revert w. induction p as [[a|e]|X f k' IH]; intros w; [done|done|]. cbn [bind run]. destruct (f w) as [w' x]. apply IH.
Qed.

Lemma run_attempt {A} (p : Prog A) w : run (attempt p) w = ((run p w).1, Ok (run p w).2).
Proof. revert w. induction p as [r|X f k IH]; intros w; [done|]. cbn [attempt run]. destruct (f w) as [w' x]. apply IH. Qed.

Lemma guarantees_post {A B} (G : W -> W -> Prop) (Q : A -> Prop) (p : Prog A) (k : A -> Prog B) :
  guarantees G p -> returns Q p -> (forall a, Q a -> guarantees G (k a)) -> guarantees G (bind p k).
Proof.
  intros Hp Hq Hk. induction p as [[a|e]|X f k' IH]; [by apply Hk|done|]. cbn [guarantees returns bind] in *. intros w. destruct (Hp w). split; [done|].
  by apply IH.
Qed.

Lemma returns_any {A} (p : Prog A) : returns (fun _ => True) p.
Proof. by induction p as [[a|e]|X f k IH]; cbn. Qed.

Lemma guarantees_bind {A B} (G : W -> W -> Prop) (p : Prog A) (k : A -> Prog B) :
  guarantees G p -> (forall a, guarantees G (k a)) -> guarantees G (bind p k).
Proof. intros Hp Hk. apply (guarantees_post G (fun _ => True)); [done|apply returns_any|auto]. Qed.

Lemma guarantees_attempt {A} (G : W -> W -> Prop) (p : Prog A) : guarantees G p -> guarantees G (attempt p).
Proof. induction p as [r|X f k IH]; [done|]. cbn. intros Hp w. destruct (Hp w). split; [done|]. by apply IH. Qed.

Lemma guarantees_impl {A} (G G' : W -> W -> Prop) (p : Prog A) :
  (forall w w', G w w' -> G' w w') -> guarantees G p -> guarantees G' p.
Proof. intros I. induction p as [r|X f k IH]; [done|]. cbn. intros Hp w. destruct (Hp w). split; [auto|]. by apply IH. Qed.

Lemma returns_bind {A B} (Q : A -> Prop) (R : B -> Prop) (p : Prog A) (k : A -> Prog B) :
  returns Q p -> (forall a, Q a -> returns R (k a)) -> returns R (bind p k).
Proof. intros Hp Hk. induction p as [[a|e]|X f k' IH]; [by apply Hk|done|]. cbn in *. intros w. by apply IH. Qed.

Lemma returns_attempt {A} (Q : A -> Prop) (p : Prog A) : returns Q p -> returns (fun r => forall a, r = Ok a -> Q a) (attempt p).
Proof. induction p as [[a|e]|X f k IH]; cbn; [by intros Hq ? [= <-]|done|]. intros Hp w. by apply IH. Qed.

Lemma run_guarantees {A} (G : W -> W -> Prop) (p : Prog A) w :
  (forall w, G w w) -> (forall w1 w2 w3, G w1 w2 -> G w2 w3 -> G w1 w3) -> guarantees G p -> G w (run p w).1.
Proof.
  intros HR HT. revert w. induction p as [r|X f k IH]; intros w; [intros _; apply HR|]. cbn [run guarantees]. intros Hp.
  destruct (Hp w) as [H1 H2]. destruct (f w) as [w' x]. apply (HT w w'); [exact H1|]. by apply IH.
Qed.

(** A turn is a step; a scheduled run is an interleaving. *)
Lemma turn_step {A} i (s : W * list (Prog A)) X f k : nth_error s.2 i = Some (Atom X f k) -> step s (turn i s).
Proof.
  intros E. unfold turn. rewrite E. destruct s as [w ps]. cbn [fst snd] in *. apply nth_error_split in E as (before & after & -> & L). subst i.
  rewrite firstn_app, firstn_all, Nat.sub_diag, skipn_app, skipn_all2 by lia. cbn [firstn]. rewrite app_nil_r.
  replace (S (length before) - length before)%nat with 1%nat by lia. cbn [skipn app]. apply step_program.
Qed.

Lemma turn_steps {A} i (start s : W * list (Prog A)) : steps start s -> steps start (turn i s).
Proof.
  intros H. destruct (nth_error s.2 i) as [[r|X f k]|] eqn:E; [unfold turn; by rewrite E| |unfold turn; by rewrite E].
  apply (steps_more start s); [done|]. by apply (turn_step i s X f k).
Qed.

Lemma scheduled_steps {A} turns (start : W * list (Prog A)) : steps start (scheduled turns start).
Proof.
  unfold scheduled. assert (forall s, steps start s -> steps start (fold_left (fun s i => turn i s) turns s)) as G; [|apply G, steps_none].
  induction turns as [|i turns IH]; intros s H; [done|]. cbn [fold_left]. by apply IH, turn_steps.
Qed.

(** An interleaving keeps an invariant when each program carries the guarantee that keeps
    it. *)
Lemma steps_invariant {A} (I : W -> Prop) (P : Prog A -> Prop) :
  (forall w w', I w -> environment w w' -> I w') ->
  (forall w X f k, I w -> P (Atom X f k) -> I (f w).1 /\ P (k (f w).2)) ->
  forall start s, I start.1 -> List.Forall P start.2 -> steps start s -> I s.1 /\ List.Forall P s.2.
Proof.
  intros HE HP start s H0 H1 S. induction S as [|s s' S IH St]; [done|]. destruct IH as [Hi Hps]. destruct St as [w before X f k after|w w' ps E]; cbn [fst snd] in *.
  - apply List.Forall_app in Hps as [Hb Ha]. inversion Ha as [|? ? Hh Ht]; subst. destruct (HP w X f k Hi Hh) as [Hi' Hk].
    split; [done|]. apply List.Forall_app. split; [done|]. by constructor.
  - split; [|done]. by apply (HE w).
Qed.
(** ** Rely and guarantee

    Every action, of any program and of the environment, keeps [I] and moves the state along
    the preorder [R]; what a program has learned it may use as long as [R] preserves it.
    [Q] is what holds of a result, at the state it comes with and at any later one. *)
Section RelyGuarantee.
Context (I : W -> Prop) (R : W -> W -> Prop) `{!PreOrder R}.

Fixpoint secured {A} (Q : A -> W -> Prop) (p : Prog A) (w0 : W) : Prop :=
  match p with
  | Done (Ok a) => forall w, R w0 w -> I w -> Q a w
  | Done (Throw _) => True
  | Atom X f k => forall w, R w0 w -> I w -> I (f w).1 /\ R w (f w).1 /\ secured Q (k (f w).2) (f w).1
  end.

Lemma secured_later {A} (Q : A -> W -> Prop) (p : Prog A) w0 w1 : secured Q p w0 -> R w0 w1 -> secured Q p w1.
Proof. destruct p as [[a|e]|X f k]; [|done|]; intros S Hr w Hw; exact (S w (transitivity Hr Hw)). Qed.

Lemma secured_intro {A} (Q : A -> W -> Prop) (p : Prog A) w0 : (forall w, R w0 w -> I w -> secured Q p w) -> secured Q p w0.
Proof. destruct p as [[a|e]|X f k]; [|done|]; intros S w Hw Hi; exact (S w Hw Hi w (reflexivity w) Hi). Qed.

Lemma secured_bind {A B} (Q : B -> W -> Prop) (p : Prog A) (k : A -> Prog B) w0 :
  secured (fun a w => secured Q (k a) w) p w0 -> secured Q (bind p k) w0.
Proof.
  revert w0. induction p as [[a|e]|X f k' IH]; intros w0 S; [by apply secured_intro|done|]. cbn [bind secured] in *. intros w Hw Hi.
  destruct (S w Hw Hi) as (S1 & S2 & S3). split; [done|]. split; [done|]. by apply IH.
Qed.

Lemma secured_impl {A} (Q Q' : A -> W -> Prop) (p : Prog A) w0 : (forall a w, Q a w -> Q' a w) -> secured Q p w0 -> secured Q' p w0.
Proof.
  intros Hq. revert w0. induction p as [[a|e]|X f k IH]; intros w0 S; [intros w Hw Hi; exact (Hq a w (S w Hw Hi))|done|]. cbn [secured] in *. intros w Hw Hi.
  destruct (S w Hw Hi) as (S1 & S2 & S3). eauto.
Qed.

(** A single action. *)
Lemma secured_atomic {X} (Q : X -> W -> Prop) (f : W -> W * X) w0 :
  (forall w, R w0 w -> I w -> I (f w).1 /\ R w (f w).1) ->
  (forall w w', R w0 w -> I w -> I w' -> R (f w).1 w' -> Q (f w).2 w') -> secured Q (atomic f) w0.
Proof. intros S HQ w Hw Hi. destruct (S w Hw Hi). split; [done|]. split; [done|]. intros w' Hr Hi'. by apply (HQ w). Qed.

Lemma secured_lift {A} (Q : A -> W -> Prop) (r : outcome JsThrown A) w0 :
  (forall a w, r = Ok a -> R w0 w -> I w -> Q a w) -> secured Q (lift r) w0.
Proof. destruct r; [|done]. intros HQ w Hw Hi. by apply HQ. Qed.

(** Programs in flight keep what they are secured for. *)
Lemma steps_secured {A} (Q : A -> W -> Prop) (start s : W * list (Prog A)) :
  (forall w w', I w -> environment w w' -> I w' /\ R w w') ->
  I start.1 -> List.Forall (fun p => secured Q p start.1) start.2 -> steps start s ->
  I s.1 /\ R start.1 s.1 /\ List.Forall (fun p => secured Q p s.1) s.2.
Proof.
  intros HE H0 H1 S. induction S as [|s s' S IH St]; [done|]. destruct IH as (Hi & Hr & Hps).
  assert (forall w' l, R s.1 w' -> List.Forall (fun p => secured Q p s.1) l -> List.Forall (fun p : Prog A => secured Q p w') l) as Later.
  { intros w' l Hw. apply List.Forall_impl. intros p Hp. by apply (secured_later Q p s.1). }
  destruct St as [w before X f k after|w w' ps E]; cbn [fst snd] in *.
  - apply List.Forall_app in Hps as [Hb Ha]. inversion Ha as [|? ? Hh Ht]; subst. destruct (Hh w ltac:(reflexivity) Hi) as (S1 & S2 & S3).
    split; [done|]. split; [by transitivity w|]. apply List.Forall_app. split; [by apply Later|]. constructor; [done|by apply Later].
  - destruct (HE w w' Hi E). split; [done|]. split; [by transitivity w|]. by apply Later.
Qed.
End RelyGuarantee.

(** ** Crashes *)

(** The first [n] actions, and no more: the process dies. *)
Fixpoint crash {A} (n : nat) (p : Prog A) (w : W) : W :=
  match n, p with
  | S n', Atom X f k => let '(w', x) := f w in crash n' (k x) w'
  | _, _ => w
  end.
End Programs.
#[global] Arguments Prog W A : clear implicits.

Declare Scope prog_scope.
Delimit Scope prog_scope with prog.
Notation "'do!' x ':=' p 'in' k" := (bind p (fun x => k))
  (at level 10, x pattern, p at level 100, k at level 200) : prog_scope.
