(* ===== verification/Identity.v ===== *)
(** * Identity

    [packages/identity/src]: accounts, sessions and second factors over the tables and the
    store of [auth]. An operation of [identity.ts] is a program (see [Async]): every
    awaited call of the database, the session store, a limiter, the hasher or the mailer is
    one action on the state below, so operations in flight can interleave as they do on a
    server. Statements do not fail except for the violation that [register] expects. *)
From Stdlib Require Import QArith.
From S2P Require Import Prelude JsString JsMap JsNumber JsTime Sql NodeCrypto Web Sessions Totp Passwords RateLimit Async.
#[local] Open Scope string_scope.
#[local] Open Scope Z_scope.
#[local] Open Scope prog_scope.

(** ** Tables *)

Record User := mkUser { u_id : Z; u_email : string; u_passwordHash : string; u_emailVerifiedAt : option string; u_createdAt : string; u_updatedAt : string }.

(** Dates as milliseconds. *)
Record TotpFactor := mkFactor { f_userId : Z; f_secret : string; f_confirmed : bool; f_confirmedAt : option Z; f_lastUsedStep : option Z; f_createdAt : Z; f_updatedAt : Z }.

Record RecoveryCode := mkCode { c_id : Z; c_userId : Z; c_codeHash : string; c_usedAt : option Z; c_createdAt : Z }.

(** The tables, with the last identifier each sequence gave out. *)
Record Tables := mkTables { users : list User; users_seq : Z; factors : list TotpFactor; codes : list RecoveryCode; codes_seq : Z }.

Definition set_users (t : list User) (d : Tables) : Tables := mkTables t (users_seq d) (factors d) (codes d) (codes_seq d).
Definition set_factors (t : list TotpFactor) (d : Tables) : Tables := mkTables (users d) (users_seq d) t (codes d) (codes_seq d).
Definition set_codes (t : list RecoveryCode) (d : Tables) : Tables := mkTables (users d) (users_seq d) (factors d) t (codes_seq d).

Definition isEmailVerified (user : User) : bool := match u_emailVerifiedAt user with Some _ => true | None => false end.

(** An identifier in a query is a number. *)
Definition has_id (n : number) (id : Z) : bool := num_eq (int id) n.

Definition findUserByEmail (email : string) (d : Tables) : option User := List.find (fun u => String.eqb (u_email u) email) (users d).
Definition findUserById (id : number) (d : Tables) : option User := List.find (fun u => has_id id (u_id u)) (users d).

(** [None]: the unique index on [email] refuses. *)
Definition insertUser (date : Z) (email passwordHash : string) (emailVerifiedAt : option string) (d : Tables) : Tables * option User :=
  match findUserByEmail email d with
  | Some _ => (d, None)
  | None =>
      let now := toISOString date in
      let user := mkUser (users_seq d + 1) email passwordHash emailVerifiedAt now now in
      (mkTables (users d ++ [user]) (users_seq d + 1) (factors d) (codes d) (codes_seq d), Some user)
  end.

Definition with_hash (date : Z) (hash : string) (u : User) : User :=
  mkUser (u_id u) (u_email u) hash (u_emailVerifiedAt u) (u_createdAt u) (toISOString date).

Definition setPasswordHash (date : Z) (id : number) (hash : string) (d : Tables) : Tables :=
  set_users (update_where (fun u => has_id id (u_id u)) (with_hash date hash) (users d)).1 d.

Definition setPasswordHashIf (date : Z) (id : number) (hash expected : string) (d : Tables) : Tables * bool :=
  let '(t, changes) := update_where (fun u => has_id id (u_id u) && String.eqb (u_passwordHash u) expected) (with_hash date hash) (users d) in
  (set_users t d, changes >? 0).

Definition markEmailVerified (date : Z) (id : number) (atIso : string) (d : Tables) : Tables :=
  set_users (update_where (fun u => has_id id (u_id u))
    (fun u => mkUser (u_id u) (u_email u) (u_passwordHash u) (Some atIso) (u_createdAt u) (toISOString date)) (users d)).1 d.

Definition normalizeEmail (email : string) : string := toLowerCase (trim email).

Definition findTotpFactor (id : number) (d : Tables) : option TotpFactor := List.find (fun f => has_id id (f_userId f)) (factors d).

(** The two statements of [upsertUnconfirmedFactor]. *)
Definition deleteFactor (id : Z) (d : Tables) : Tables := set_factors (delete_where (fun f => f_userId f =? id) (factors d)).1 d.
Definition insertFactor (date : Z) (id : Z) (secret : string) (d : Tables) : Tables :=
  set_factors (factors d ++ [mkFactor id secret false None None date date]) d.

Definition confirmFactor (date : Z) (id : number) (d : Tables) : Tables :=
  set_factors (update_where (fun f => has_id id (f_userId f))
    (fun f => mkFactor (f_userId f) (f_secret f) true (Some date) (f_lastUsedStep f) (f_createdAt f) date) (factors d)).1 d.

Definition recordTotpStep (date : Z) (id : number) (step : Z) (d : Tables) : Tables :=
  set_factors (update_where (fun f => has_id id (f_userId f))
    (fun f => mkFactor (f_userId f) (f_secret f) (f_confirmed f) (f_confirmedAt f) (Some step) (f_createdAt f) date) (factors d)).1 d.

(** The statements of [replaceRecoveryCodes]. *)
Definition deleteCodes (id : Z) (d : Tables) : Tables := set_codes (delete_where (fun c => c_userId c =? id) (codes d)).1 d.
Definition insertCode (date : Z) (id : Z) (hash : string) (d : Tables) : Tables :=
  mkTables (users d) (users_seq d) (factors d) (codes d ++ [mkCode (codes_seq d + 1) id hash None date]) (codes_seq d + 1).

Definition unused (c : RecoveryCode) : bool := match c_usedAt c with None => true | Some _ => false end.
Definition findUnusedRecoveryCodes (id : number) (d : Tables) : list RecoveryCode :=
  List.filter (fun c => has_id id (c_userId c) && unused c) (codes d).

Definition markRecoveryCodeUsed (date : Z) (id : Z) (d : Tables) : Tables * bool :=
  let '(t, changes) := update_where (fun c => (c_id c =? id) && unused c)
    (fun c => mkCode (c_id c) (c_userId c) (c_codeHash c) (Some date) (c_createdAt c)) (codes d) in
  (set_codes t d, changes >? 0).

(** ** Options *)

(** The hasher's surface. Hashing draws its salts first. *)
Record PasswordHasher := mkHasher {
  hash_password : list Z -> string -> Derived string;
  verify_password : string -> string -> Derived bool;
  needs_rehash : string -> bool;
  hash_codes : list (list Z) -> list string -> Derived (list string);
  verify_code : string -> string -> Derived bool
}.

Definition productionHasher `{Kdf} (g : Globals) : PasswordHasher :=
  mkHasher (hashPassword g) (verifyPassword g) needsRehash (hashRecoveryCodes g) (verifyRecoveryCode g).

Definition pbkdf2MigrationHasher `{Kdf} (g : Globals) : PasswordHasher :=
  mkHasher hashPasswordWeb (verifyPassword g) (fun stored => if startsWith "pbkdf2$" stored then needsRehashWeb stored else true)
    (hashRecoveryCodes g) (verifyRecoveryCode g).

Inductive MailKind := VerificationEmail | PasswordResetEmail.
Record Mail := mkMail { mail_kind : MailKind; mail_to : string; mail_url : string; mail_token : string }.

Inductive IdentityEvent :=
| LoginSucceeded (userId : string) (at_ : Z)
| LoginFailed (at_ : Z)
| PasswordReset (userId : string) (at_ : Z)
| PasswordRehashed (userId : string) (at_ : Z) (from to_ : PasswordHashCost)
| EmailVerified (userId : string) (at_ : Z)
| SessionRevoked (userId : string) (at_ : Z).

Inductive OnUnverifiable := InvalidCredentials | RequireReset.

(** A limiter left unset is the default one; [Some None] opts out. *)
Record IdentityOptions (S : Type) := mkOptions {
  o_secret : string;
  o_hasher : option PasswordHasher;
  o_mailer : Mail -> outcome JsThrown unit;
  o_verificationUrl : string -> string;
  o_resetUrl : string -> string;
  o_requireVerifiedEmail : option bool;
  o_sessionTtlMs : option Z;
  o_verificationTtlMs : option Z;
  o_resetTtlMs : option Z;
  o_totpChallengeTtlMs : option Z;
  o_loginRateLimiter : option (option Policy);
  o_totpRateLimiter : option (option Policy);
  o_deleteByUserId : option (string -> S -> S);
  o_revokeUserSessions : option (string -> outcome JsThrown unit);
  o_appName : option string;
  o_onUnverifiableHash : option OnUnverifiable;
  o_onEvent : bool
}.
#[global] Arguments o_secret {S}. #[global] Arguments o_hasher {S}. #[global] Arguments o_mailer {S}. #[global] Arguments o_verificationUrl {S}.
#[global] Arguments o_resetUrl {S}. #[global] Arguments o_requireVerifiedEmail {S}. #[global] Arguments o_sessionTtlMs {S}.
#[global] Arguments o_verificationTtlMs {S}. #[global] Arguments o_resetTtlMs {S}. #[global] Arguments o_totpChallengeTtlMs {S}.
#[global] Arguments o_loginRateLimiter {S}. #[global] Arguments o_totpRateLimiter {S}. #[global] Arguments o_deleteByUserId {S}.
#[global] Arguments o_revokeUserSessions {S}. #[global] Arguments o_appName {S}. #[global] Arguments o_onUnverifiableHash {S}. #[global] Arguments o_onEvent {S}.

(** What the closure captures. *)
Record Identity (S : Type) := mkIdentity {
  options : IdentityOptions S;
  hasher : PasswordHasher;
  onUnverifiableHash : OnUnverifiable;
  requireVerifiedEmail : bool;
  sessionTtlMs : Z;
  verificationTtlMs : Z;
  resetTtlMs : Z;
  totpChallengeTtlMs : Z;
  verifyTokens : string;
  challengeTokens : string;
  loginRateLimiter : option Policy;
  totpRateLimiter : option Policy
}.
#[global] Arguments options {S}. #[global] Arguments hasher {S}. #[global] Arguments onUnverifiableHash {S}. #[global] Arguments requireVerifiedEmail {S}.
#[global] Arguments sessionTtlMs {S}. #[global] Arguments verificationTtlMs {S}. #[global] Arguments resetTtlMs {S}. #[global] Arguments totpChallengeTtlMs {S}.
#[global] Arguments verifyTokens {S}. #[global] Arguments challengeTokens {S}. #[global] Arguments loginRateLimiter {S}. #[global] Arguments totpRateLimiter {S}.

Definition MIN_PASSWORD_LENGTH : nat := 8.
Definition MAX_PASSWORD_LENGTH : nat := 128.
Definition DEFAULT_SESSION_TTL_MS : Z := 7 * 24 * 60 * 60 * 1000.
Definition DEFAULT_VERIFICATION_TTL_MS : Z := 24 * 60 * 60 * 1000.
Definition DEFAULT_RESET_TTL_MS : Z := 60 * 60 * 1000.
Definition DEFAULT_TOTP_CHALLENGE_TTL_MS : Z := 5 * 60 * 1000.
Definition DEFAULT_THROTTLE_CAPACITY : Z := 5.
Definition DEFAULT_THROTTLE_WINDOW_MS : Z := 15 * 60 * 1000.

Definition defaultRateLimiter `{Rounding} : Policy :=
  mkLimits (inject_Z DEFAULT_THROTTLE_CAPACITY)
    (rnd (inject_Z DEFAULT_THROTTLE_CAPACITY / rnd (inject_Z DEFAULT_THROTTLE_WINDOW_MS / 1000))%Q).

Definition resolveLimiter `{Rounding} (limiter : option (option Policy)) : option Policy :=
  match limiter with None => Some defaultRateLimiter | Some l => l end.

(** ** Signers *)

Definition IDENTITY_WEAK_SECRET : JsThrown := LestoError "IDENTITY_WEAK_SECRET".

Definition assertStrongSecret (secret : string) : outcome JsThrown unit :=
  if byteLength secret <? 32 then Throw IDENTITY_WEAK_SECRET else Ok tt.

Definition verifySigner (masterSecret : string) : outcome JsThrown string := signedSessions (masterSecret ++ ":verify_email").
Definition totpChallengeSigner (masterSecret : string) : outcome JsThrown string := signedSessions (masterSecret ++ ":totp_challenge").
Definition resetSigner (masterSecret passwordHash : string) : outcome JsThrown string :=
  signedSessions (masterSecret ++ ":reset_password:" ++ passwordHash).

Definition packResetToken (userId signed : string) : string := userId ++ "." ++ signed.

Definition unpackResetToken (token : string) : option (string * string) :=
  match cut "." token with
  | Some (userId, signed) => if String.eqb userId EmptyString || String.eqb signed EmptyString then None else Some (userId, signed)
  | None => None
  end.

Definition createIdentity `{Kdf} `{Rounding} {S} (g : Globals) (o : IdentityOptions S) : outcome JsThrown (Identity S) :=
  let! _ := assertStrongSecret (o_secret o) in
  let! verifyTokens := verifySigner (o_secret o) in
  let! challengeTokens := totpChallengeSigner (o_secret o) in
  Ok (mkIdentity S o (default (productionHasher g) (o_hasher o)) (default InvalidCredentials (o_onUnverifiableHash o))
    (default true (o_requireVerifiedEmail o)) (default DEFAULT_SESSION_TTL_MS (o_sessionTtlMs o))
    (default DEFAULT_VERIFICATION_TTL_MS (o_verificationTtlMs o)) (default DEFAULT_RESET_TTL_MS (o_resetTtlMs o))
    (default DEFAULT_TOTP_CHALLENGE_TTL_MS (o_totpChallengeTtlMs o)) verifyTokens challengeTokens
    (resolveLimiter (o_loginRateLimiter o)) (resolveLimiter (o_totpRateLimiter o))).

(** ** Input checks *)

(** A dot with something before and after it. *)
Fixpoint dot_before_end (s : string) : bool :=
  match s with
  | EmptyString => false
  | String c s' => Ascii.eqb c "." && negb (String.eqb s' EmptyString) || dot_before_end s'
  end.

(** [/^[^@]+@[^@]+\.[^@]+$/]. *)
Definition EMAIL_PATTERN (s : string) : bool :=
  match split "@" s with
  | [local; String _ domain] => negb (String.eqb local EmptyString) && dot_before_end domain
  | _ => false
  end.

Definition email_forbidden (c : ascii) : bool :=
  is_space c || existsb (Ascii.eqb c) (ascii_of_nat 34 :: list_ascii_of_string ",;<>'`\()[]{}").

Definition assertValidEmail (email : string) : outcome JsThrown unit :=
  let trimmed := trim email in
  if negb (EMAIL_PATTERN trimmed) || negb (all_chars (fun c => negb (email_forbidden c)) trimmed)
  then Throw (LestoError "IDENTITY_INVALID_EMAIL") else Ok tt.

Definition assertValidPassword (password : string) : outcome JsThrown unit :=
  if Nat.ltb (String.length password) MIN_PASSWORD_LENGTH then Throw (LestoError "IDENTITY_WEAK_PASSWORD")
  else if Nat.ltb MAX_PASSWORD_LENGTH (String.length password) then Throw (LestoError "IDENTITY_WEAK_PASSWORD")
  else Ok tt.

(** ** The state *)

(** What happens outside: a derivation runs, a mail is handed over, an event is emitted, the
    hook runs. *)
Inductive Trace := Derives (d : Derivation) | Mails (m : Mail) | Emits (e : IdentityEvent) | Revokes (userId : string).

(** [decoy] is the memoized promise; [clock] the injected clock, [date] the system's;
    [drawn] counts what was asked of the random source. *)
Record IdentityWorld (S L : Type) := mkWorld {
  db : Tables; store : S; logins : L; totps : L; decoy : option (outcome JsThrown string);
  clock : Z; date : Z; drawn : nat; trace : list Trace
}.
#[global] Arguments mkWorld {S L}. #[global] Arguments db {S L}. #[global] Arguments store {S L}. #[global] Arguments logins {S L}. #[global] Arguments totps {S L}.
#[global] Arguments decoy {S L}. #[global] Arguments clock {S L}. #[global] Arguments date {S L}. #[global] Arguments drawn {S L}. #[global] Arguments trace {S L}.

Definition LOGIN_FAILED : JsThrown := LestoError "IDENTITY_INVALID_CREDENTIALS".
Definition PASSWORD_RESET_REQUIRED : JsThrown := LestoError "IDENTITY_PASSWORD_RESET_REQUIRED".
Definition EMAIL_NOT_VERIFIED : JsThrown := LestoError "IDENTITY_EMAIL_NOT_VERIFIED".
Definition LOGIN_THROTTLED : JsThrown := LestoError "IDENTITY_LOGIN_THROTTLED".
Definition TOTP_THROTTLED : JsThrown := LestoError "IDENTITY_TOTP_THROTTLED".
Definition INVALID_TOTP : JsThrown := LestoError "IDENTITY_INVALID_TOTP".
Definition INVALID_CHALLENGE : JsThrown := LestoError "IDENTITY_INVALID_CHALLENGE".
Definition invalidToken : JsThrown := LestoError "IDENTITY_INVALID_TOKEN".
Definition NOT_AUTHENTICATED : JsThrown := LestoError "IDENTITY_NOT_AUTHENTICATED".
Definition TOTP_ALREADY_ENROLLED : JsThrown := LestoError "IDENTITY_TOTP_ALREADY_ENROLLED".
Definition TOTP_NOT_ENROLLED : JsThrown := LestoError "IDENTITY_TOTP_NOT_ENROLLED".

Definition hasCode (e : JsThrown) (code : string) : bool := match e with LestoError c => String.eqb c code | OtherError => false end.

(** A limiter's rejection. *)
Definition store_thrown {A} (r : outcome StoreError A) : outcome JsThrown A :=
  match r with Ok a => Ok a | Throw (RATELIMIT_STORE_CONFLICT _) => Throw (LestoError "RATELIMIT_STORE_CONFLICT") | Throw STORE_FAILED => Throw OtherError end.

Inductive LoginResult := Authenticated (user : User) (session : Session) | TotpRequired (user : User) (challenge : string).

Definition id_text (user : User) : string := decimal_of (u_id user).

Section Operations.
Context `{Crypto} `{TextDecoder} `{Rounding} {S L : Type} `{!SessionStore S} `{!RateLimitStore L}.
(** The lenient base64url decoder; the random source; the service. *)
Context (lenient_decode : string -> list Z) (random : nat -> list Z) (self : Identity S).

#[local] Abbreviation World := (IdentityWorld S L).
#[local] Abbreviation Prog := (Prog World).

Definition set_db (d : Tables) (w : World) : World := mkWorld d (store w) (logins w) (totps w) (decoy w) (clock w) (date w) (drawn w) (trace w).
Definition set_store (s : S) (w : World) : World := mkWorld (db w) s (logins w) (totps w) (decoy w) (clock w) (date w) (drawn w) (trace w).
Definition set_logins (l : L) (w : World) : World := mkWorld (db w) (store w) l (totps w) (decoy w) (clock w) (date w) (drawn w) (trace w).
Definition set_totps (l : L) (w : World) : World := mkWorld (db w) (store w) (logins w) l (decoy w) (clock w) (date w) (drawn w) (trace w).
Definition set_decoy (r : outcome JsThrown string) (w : World) : World :=
  mkWorld (db w) (store w) (logins w) (totps w) (Some r) (clock w) (date w) (drawn w) (trace w).
Definition logged (t : list Trace) (w : World) : World :=
  mkWorld (db w) (store w) (logins w) (totps w) (decoy w) (clock w) (date w) (drawn w) (trace w ++ t).
Definition draws (n : nat) (w : World) : World :=
  mkWorld (db w) (store w) (logins w) (totps w) (decoy w) (clock w) (date w) (drawn w + n) (trace w).

(** ** Actions *)

Definition now : Prog Z := query clock.
Definition draw : Prog (list Z) := atomic (fun w => (draws 1 w, random (drawn w))).
Definition draw_many (n : nat) : Prog (list (list Z)) := atomic (fun w => (draws n w, map random (List.seq (drawn w) n))).
Definition derive {A} (d : Derived A) : Prog A :=
  do! r := atomic (fun w => (logged (map Derives d.1) w, d.2)) in lift r.
Definition reading {A} (f : Tables -> A) : Prog A := query (fun w => f (db w)).
Definition writing {A} (f : Z -> Tables -> Tables * A) : Prog A := atomic (fun w => let '(d, a) := f (date w) (db w) in (set_db d w, a)).
Definition updating (f : Z -> Tables -> Tables) : Prog unit := writing (fun date d => (f date d, tt)).

Definition check_login (p : Policy) (key : string) (cost : Q) : Prog RateLimitResult :=
  do! r := atomic (fun w => let '(l, r) := check p (clock w) (clock w) key cost (logins w) in (set_logins l w, r)) in lift (store_thrown r).
Definition check_totp (p : Policy) (key : string) (cost : Q) : Prog RateLimitResult :=
  do! r := atomic (fun w => let '(l, r) := check p (clock w) (clock w) key cost (totps w) in (set_totps l w, r)) in lift (store_thrown r).

(** Whatever the sink does, the caller goes on. *)
Definition emit (e : Z -> IdentityEvent) : Prog unit :=
  if o_onEvent (options self) then do! at_ := now in modify (logged [Emits (e at_)]) else ret tt.

Definition sends (m : Mail) : Prog unit :=
  do! _ := modify (logged [Mails m]) in lift (o_mailer (options self) m).

(** [sessions]. *)
Definition sessions_create (user : string) (ttlMs : Z) : Prog Session :=
  do! bytes := draw in atomic (fun w => let '(s, session) := create bytes (clock w) user ttlMs (store w) in (set_store s w, session)).
Definition sessions_verify (token : string) : Prog (option Session) :=
  atomic (fun w => let '(s, session) := verify (clock w) token (store w) in (set_store s w, session)).
Definition sessions_revoke (token : string) : Prog unit := modify (fun w => set_store (revoke token (store w)) w).

Definition hash (password : string) : Prog string := do! salt := draw in derive (hash_password (hasher self) salt password).

(** ** The shared parts *)

Definition requireUser (token : option string) : Prog User :=
  match token with
  | None => throw NOT_AUTHENTICATED
  | Some token =>
      do! session := sessions_verify token in
      match session with
      | None => throw NOT_AUTHENTICATED
      | Some session =>
          do! user := reading (findUserById (Number_of_string (userId session))) in
          match user with Some user => ret user | None => throw NOT_AUTHENTICATED end
      end
  end.

Definition totp_key (id : number) : string := "totp:" ++ number_to_string id.

Definition assertTotpNotThrottled (id : number) : Prog unit :=
  match totpRateLimiter self with
  | None => ret tt
  | Some p =>
      do! peek := check_totp p (totp_key id) 0 in
      if remaining peek <? 1 then do! _ := check_totp p (totp_key id) 1 in throw TOTP_THROTTLED else ret tt
  end.

Definition penalizeTotp (id : number) : Prog unit :=
  match totpRateLimiter self with
  | None => ret tt
  | Some p => do! _ := check_totp p (totp_key id) 1 in ret tt
  end.

Definition DECOY : string := "__lesto_identity_timing_decoy__".

(** The first call mints, every later one gets what the first got. *)
Definition dummyHash : Prog string :=
  do! r := atomic (fun w =>
    match decoy w with
    | Some r => (w, r)
    | None =>
        let d := hash_password (hasher self) (random (drawn w)) DECOY in
        (set_decoy d.2 (logged (map Derives d.1) (draws 1 w)), d.2)
    end) in lift r.

Definition unverifiableHashError : JsThrown :=
  match onUnverifiableHash self with RequireReset => PASSWORD_RESET_REQUIRED | InvalidCredentials => LOGIN_FAILED end.

Definition plain_totp : TotpOptions := mkTotp None None None.

Definition runTotpChallenge (id : number) (code : string) : Prog unit :=
  do! _ := assertTotpNotThrottled id in
  do! factor := reading (findTotpFactor id) in
  match factor with
  | Some factor =>
      if negb (f_confirmed factor) then do! _ := penalizeTotp id in throw INVALID_TOTP
      else
        do! clock := now in
        do! step := lift (verifyTotpStep (int clock) (f_secret factor) code plain_totp) in
        match step with
        | None => do! _ := penalizeTotp id in throw INVALID_TOTP
        | Some step =>
            if match f_lastUsedStep factor with Some last => step <=? last | None => false end
            then do! _ := penalizeTotp id in throw INVALID_TOTP
            else updating (fun date => recordTotpStep date id step)
        end
  | None => do! _ := penalizeTotp id in throw INVALID_TOTP
  end.

(** The for loop: whether a code was claimed. *)
Fixpoint tryCodes (code : string) (candidates : list RecoveryCode) : Prog bool :=
  match candidates with
  | [] => ret false
  | candidate :: rest =>
      do! matched := attempt (derive (verify_code (hasher self) code (c_codeHash candidate))) in
      match matched with
      | Throw e => if hasCode e "AUTH_KDF_UNAVAILABLE" then ret false else throw e
      | Ok true => writing (fun date => markRecoveryCodeUsed date (c_id candidate))
      | Ok false => tryCodes code rest
      end
  end.

Definition runRecoveryChallenge (id : number) (code : string) : Prog unit :=
  do! _ := assertTotpNotThrottled id in
  do! candidates := reading (findUnusedRecoveryCodes id) in
  do! claimed := tryCodes code candidates in
  if claimed : bool then ret tt else do! _ := penalizeTotp id in throw INVALID_TOTP.

(** ** Operations *)

Definition register (email password : string) : Prog (option User) :=
  do! _ := lift (assertValidEmail email) in
  do! _ := lift (assertValidPassword password) in
  let normalized := normalizeEmail email in
  do! existing := reading (findUserByEmail normalized) in
  match existing with
  | Some _ => do! _ := hash password in ret None
  | None =>
      do! hashed := hash password in
      do! user := writing (fun date => insertUser date normalized hashed None) in
      match user with
      | None => ret None
      | Some user =>
          do! clock := now in
          let token := issue (verifyTokens self) (int clock) (id_text user) (int (verificationTtlMs self)) in
          do! _ := sends (mkMail VerificationEmail normalized (o_verificationUrl (options self) token) token) in
          ret (Some user)
      end
  end.

Definition verifyEmail (token : string) : Prog User :=
  do! clock := now in
  match verify_signed lenient_decode (verifyTokens self) (int clock) token with
  | None => throw invalidToken
  | Some claim =>
      do! user := reading (findUserById (Number_of_string (claim_userId claim))) in
      match user with
      | None => throw invalidToken
      | Some user =>
          if isEmailVerified user then ret user
          else
            do! today := query date in
            let now := toISOString today in
            do! _ := updating (fun date => markEmailVerified date (int (u_id user)) now) in
            do! _ := emit (EmailVerified (id_text user)) in
            ret (mkUser (u_id user) (u_email user) (u_passwordHash user) (Some now) (u_createdAt user) (u_updatedAt user))
      end
  end.

Definition login_key (normalized : string) : string := "login:" ++ normalized.

Definition assertLoginNotThrottled (key : string) : Prog unit :=
  match loginRateLimiter self with
  | None => ret tt
  | Some p =>
      do! peek := check_login p key 0 in
      if remaining peek <? 1 then
        do! _ := check_login p key 1 in
        do! _ := emit LoginFailed in
        throw LOGIN_THROTTLED
      else ret tt
  end.

Definition penalize (key : string) : Prog unit :=
  match loginRateLimiter self with
  | None => ret tt
  | Some p => do! _ := check_login p key 1 in ret tt
  end.

Definition failLogin (key password : string) (spendDecoy : bool) (error : JsThrown) : Prog LoginResult :=
  do! decoy := dummyHash in
  do! _ := (if spendDecoy then derive (verify_password (hasher self) password decoy) else ret false) in
  do! _ := penalize key in
  do! _ := emit LoginFailed in
  throw error.

(** The upgrade of a stale hash: never a failure. *)
Definition rehash (user : User) (password : string) : Prog unit :=
  if needs_rehash (hasher self) (u_passwordHash user) then
    do! upgraded := attempt (
      do! rehashed := hash password in
      do! won := writing (fun date => setPasswordHashIf date (int (u_id user)) rehashed (u_passwordHash user)) in
      ret (if won : bool then Some rehashed else None)) in
    match upgraded with
    | Ok (Some rehashed) =>
        emit (fun at_ => PasswordRehashed (id_text user) at_ (describeHashCost (u_passwordHash user)) (describeHashCost rehashed))
    | _ => ret tt
    end
  else ret tt.

Definition login (email password : string) : Prog LoginResult :=
  let normalized := normalizeEmail email in
  let throttleKey := login_key normalized in
  do! _ := assertLoginNotThrottled throttleKey in
  do! user := reading (findUserByEmail normalized) in
  match user with
  | None => failLogin throttleKey password true LOGIN_FAILED
  | Some user =>
      do! passwordOk := attempt (derive (verify_password (hasher self) password (u_passwordHash user))) in
      match passwordOk with
      | Throw e => if hasCode e "AUTH_KDF_UNAVAILABLE" then failLogin throttleKey password true unverifiableHashError else throw e
      | Ok false => failLogin throttleKey password false LOGIN_FAILED
      | Ok true =>
          if requireVerifiedEmail self && negb (isEmailVerified user) then throw EMAIL_NOT_VERIFIED
          else
            do! _ := rehash user password in
            do! factor := reading (findTotpFactor (int (u_id user))) in
            if match factor with Some f => f_confirmed f | None => false end then
              do! clock := now in
              ret (TotpRequired user (issue (challengeTokens self) (int clock) (id_text user) (int (totpChallengeTtlMs self))))
            else
              do! session := sessions_create (id_text user) (sessionTtlMs self) in
              do! _ := emit (LoginSucceeded (id_text user)) in
              ret (Authenticated user session)
      end
  end.

Definition requestPasswordReset (email : string) : Prog unit :=
  let normalized := normalizeEmail email in
  do! user := reading (findUserByEmail normalized) in
  match user with
  | None =>
      do! _ := lift (resetSigner (o_secret (options self)) "missing-user-dummy") in ret tt
  | Some user =>
      do! signer := lift (resetSigner (o_secret (options self)) (u_passwordHash user)) in
      do! clock := now in
      let token := packResetToken (id_text user) (issue signer (int clock) (id_text user) (int (resetTtlMs self))) in
      sends (mkMail PasswordResetEmail normalized (o_resetUrl (options self) token) token)
  end.

Definition resetPassword (token newPassword : string) : Prog User :=
  do! _ := lift (assertValidPassword newPassword) in
  match unpackResetToken token with
  | None => throw invalidToken
  | Some (outer, signed) =>
      do! user := reading (findUserById (Number_of_string outer)) in
      match user with
      | None => throw invalidToken
      | Some user =>
          do! signer := lift (resetSigner (o_secret (options self)) (u_passwordHash user)) in
          do! clock := now in
          if match verify_signed lenient_decode signer (int clock) signed with Some claim => String.eqb (claim_userId claim) outer | None => false end then
            do! newHash := hash newPassword in
            do! _ := updating (fun date => setPasswordHash date (int (u_id user)) newHash) in
            do! _ := emit (PasswordReset (id_text user)) in
            do! _ := (match o_deleteByUserId (options self) with
                      | Some deleteByUserId =>
                          do! _ := modify (fun w => set_store (deleteByUserId (id_text user) (store w)) w) in
                          emit (SessionRevoked (id_text user))
                      | None => ret tt
                      end) in
            do! _ := (match o_revokeUserSessions (options self) with
                      | Some hook => do! _ := modify (logged [Revokes (id_text user)]) in lift (hook (id_text user))
                      | None => ret tt
                      end) in
            ret (mkUser (u_id user) (u_email user) newHash (u_emailVerifiedAt user) (u_createdAt user) (u_updatedAt user))
          else throw invalidToken
      end
  end.

Definition logout (token : option string) : Prog unit :=
  match token with
  | None => ret tt
  | Some token =>
      do! session := (if o_onEvent (options self) then sessions_verify token else ret None) in
      do! _ := sessions_revoke token in
      match session with Some session => emit (SessionRevoked (userId session)) | None => ret tt end
  end.

Definition currentUser (token : option string) : Prog (option User) :=
  match token with
  | None => ret None
  | Some token =>
      do! session := sessions_verify token in
      match session with
      | None => ret None
      | Some session => reading (findUserById (Number_of_string (userId session)))
      end
  end.

(** The secret, and its URI. *)
Definition enrollTotp (token : option string) : Prog (string * string) :=
  do! user := requireUser token in
  do! existing := reading (findTotpFactor (int (u_id user))) in
  if match existing with Some f => f_confirmed f | None => false end then throw TOTP_ALREADY_ENROLLED
  else
    do! bytes := draw in
    let secret := generateTotpSecret bytes in
    do! _ := updating (fun _ => deleteFactor (u_id user)) in
    do! _ := updating (fun date => insertFactor date (u_id user) secret) in
    ret (secret, totpKeyUri secret (default "Lesto" (o_appName (options self))) (u_email user) None None).

Fixpoint insertCodes (id : Z) (hashes : list string) : Prog unit :=
  match hashes with
  | [] => ret tt
  | h :: hashes' => do! _ := updating (fun date => insertCode date id h) in insertCodes id hashes'
  end.

Definition confirmTotp (token : option string) (code : string) : Prog (list string) :=
  do! user := requireUser token in
  do! factor := reading (findTotpFactor (int (u_id user))) in
  match factor with
  | None => throw TOTP_NOT_ENROLLED
  | Some factor =>
      if f_confirmed factor then throw TOTP_ALREADY_ENROLLED
      else
        do! clock := now in
        do! step := lift (verifyTotpStep (int clock) (f_secret factor) code plain_totp) in
        match step with
        | None => throw INVALID_TOTP
        | Some step =>
            do! draws := draw_many (Z.to_nat DEFAULT_COUNT) in
            let recoveryCodes := generateRecoveryCodes draws in
            do! salts := draw_many (length recoveryCodes) in
            do! hashes := derive (hash_codes (hasher self) salts recoveryCodes) in
            do! _ := updating (fun _ => deleteCodes (u_id user)) in
            do! _ := insertCodes (u_id user) hashes in
            do! _ := updating (fun date => recordTotpStep date (int (u_id user)) step) in
            do! _ := updating (fun date => confirmFactor date (int (u_id user))) in
            ret recoveryCodes
        end
  end.

Definition hasTotp (id : number) : Prog bool :=
  do! factor := reading (findTotpFactor id) in ret (match factor with Some f => f_confirmed f | None => false end).

Definition completeTotpChallenge (challenge code : string) (recovery : bool) : Prog (User * Session) :=
  do! clock := now in
  match verify_signed lenient_decode (challengeTokens self) (int clock) challenge with
  | None => throw INVALID_CHALLENGE
  | Some claim =>
      let id := Number_of_string (claim_userId claim) in
      do! _ := (if recovery then runRecoveryChallenge id code else runTotpChallenge id code) in
      do! user := reading (findUserById id) in
      match user with
      | None => throw INVALID_CHALLENGE
      | Some user =>
          do! session := sessions_create (id_text user) (sessionTtlMs self) in
          do! _ := emit (LoginSucceeded (id_text user)) in
          ret (user, session)
      end
  end.
End Operations.

(** ** Cookies *)

Definition SESSION_COOKIE : string := "__Host-lesto_session".
Definition sessionCookie (token : string) : string := SESSION_COOKIE ++ "=" ++ token ++ "; Path=/; Secure; HttpOnly; SameSite=Lax".
Definition clearSessionCookie : string := SESSION_COOKIE ++ "=; Path=/; Secure; HttpOnly; SameSite=Lax; Max-Age=0".

Fixpoint read_pairs (name : string) (pairs : list string) : option string :=
  match pairs with
  | [] => None
  | one :: pairs' =>
      match split "=" (trim one) with
      | key :: rest => if String.eqb key name then Some (join "=" rest) else read_pairs name pairs'
      | [] => read_pairs name pairs'
      end
  end.

Definition readCookie (header : option string) (name : string) : option string :=
  match header with Some header => read_pairs name (split ";" header) | None => None end.

Definition readSessionToken (header : option string) : option string := readCookie header SESSION_COOKIE.

(** ** Roles *)

(** A row of [user_roles]. *)
Definition RoleRow : Type := string * string.
Definition granted (user role : string) (r : RoleRow) : bool := String.eqb r.1 user && String.eqb r.2 role.

Definition rolesOf (user : string) (rows : list RoleRow) : list string := map snd (List.filter (fun r => String.eqb r.1 user) rows).
Definition grantRole (user role : string) (rows : list RoleRow) : list RoleRow :=
  match List.find (granted user role) rows with Some _ => rows | None => (rows ++ [(user, role)])%list end.
Definition revokeRole (user role : string) (rows : list RoleRow) : list RoleRow := (delete_where (granted user role) rows).1.
