(* ===== verification/IdentityProps.v ===== *)
(** * Identity: who gets a session

    A session takes the account's password, its verified address and, once a second factor
    is confirmed, a code that was never spent; failures tell nobody which of them was
    missing; a reset restores access and ends the sessions; whatever logins are in flight,
    none of them changes what the password is, and no recovery code serves twice. *)
From Stdlib Require Import QArith Sorting.Permutation.
From S2P Require Import Prelude JsString JsMap JsNumber JsTime Sql Base64 NodeCrypto IpAddress Web Sessions Totp Passwords RateLimit Async Identity.
#[local] Open Scope string_scope.
#[local] Open Scope Z_scope.
#[local] Open Scope list_scope.

(** ** Identifiers in texts *)

Lemma has_id_int n m : has_id (int n) m = (m =? n).
Proof.
  unfold has_id, num_eq, int, same_value. pose proof one_pos. destruct (Z.eqb_spec m n) as [->|N].
  - apply bool_decide_eq_true_2. done.
  - apply bool_decide_eq_false_2. intros [= E]. apply N. nia.
Qed.

(** ** Running the actions *)



Section Runs.
Context `{Crypto} `{TextDecoder} `{Rounding} {S L : Type} `{!SessionStore S} `{!RateLimitStore L}.
Context (lenient_decode : string -> list Z) (random : nat -> list Z) (self : Identity S).
Implicit Types w : IdentityWorld S L.

(** What the log of events takes. *)
Definition announced (e : Z -> IdentityEvent) w : IdentityWorld S L := if o_onEvent (options self) then logged [Emits (e (clock w))] w else w.

Lemma run_reading {A} (f : Tables -> A) w : run (reading f) w = (w, Ok (f (db w))).
Proof. reflexivity. Qed.
Lemma run_now w : run now w = (w, Ok (clock w)).
Proof. reflexivity. Qed.
Lemma run_date w : run (query date) w = (w, Ok (date w)).
Proof. reflexivity. Qed.
Lemma run_writing {A} (f : Z -> Tables -> Tables * A) w : run (writing f) w = (set_db (f (date w) (db w)).1 w, Ok (f (date w) (db w)).2).
Proof. unfold writing. cbn. by destruct (f (date w) (db w)). Qed.
Lemma run_updating (f : Z -> Tables -> Tables) w : run (updating f) w = (set_db (f (date w) (db w)) w, Ok tt).
Proof. reflexivity. Qed.
Lemma run_derive {A} (d : Derived A) w : run (derive d) w = (logged (map Derives d.1) w, d.2).
Proof. unfold derive. rewrite run_bind. cbn. by destruct d.2. Qed.
Lemma run_draw w : run (draw random) w = (draws 1 w, Ok (random (drawn w))).
Proof. reflexivity. Qed.
Lemma run_emit e w : run (emit self e) w = (announced e w, Ok tt).
Proof. unfold emit, announced. by destruct (o_onEvent (options self)). Qed.
Lemma run_modify f w : run (modify f) w = (f w, Ok tt).
Proof. reflexivity. Qed.
Lemma run_ret {A} (a : A) w : run (ret a) w = (w, Ok a).
Proof. reflexivity. Qed.
Lemma run_throw {A} e w : run (@throw _ A e) w = (w, Throw e).
Proof. reflexivity. Qed.
Lemma run_lift {A} (r : outcome JsThrown A) w : run (lift r) w = (w, r).
Proof. reflexivity. Qed.
Lemma run_check_login p key cost w :
  run (check_login p key cost) w = (set_logins (check p (clock w) (clock w) key cost (logins w)).1 w, store_thrown (check p (clock w) (clock w) key cost (logins w)).2).
Proof. unfold check_login. rewrite run_bind. cbn. destruct (check _ _ _ _ _ _) as [l [r|[|]]]; done. Qed.
Lemma run_check_totp p key cost w :
  run (check_totp p key cost) w = (set_totps (check p (clock w) (clock w) key cost (totps w)).1 w, store_thrown (check p (clock w) (clock w) key cost (totps w)).2).
Proof. unfold check_totp. rewrite run_bind. cbn. destruct (check _ _ _ _ _ _) as [l [r|[|]]]; done. Qed.
Lemma run_sessions_create user ttl w :
  run (sessions_create random user ttl) w =
    (set_store (save (mkSession (generateToken (random (drawn w))) user (clock w + ttl)) (store w)) (draws 1 w),
     Ok (mkSession (generateToken (random (drawn w))) user (clock w + ttl))).
Proof. reflexivity. Qed.
Lemma run_sessions_verify t w : run (sessions_verify t) w = (set_store (verify (clock w) t (store w)).1 w, Ok (verify (clock w) t (store w)).2).
Proof. unfold sessions_verify. cbn. by destruct (verify _ _ _). Qed.
Lemma run_sessions_revoke t w : run (sessions_revoke t) w = (set_store (revoke t (store w)) w, Ok tt).
Proof. reflexivity. Qed.

(** The decoy this state would give. *)
Definition decoy_of w : outcome JsThrown string :=
  match decoy w with Some r => r | None => (hash_password (hasher self) (random (drawn w)) DECOY).2 end.

Definition decoyed w : IdentityWorld S L :=
  match decoy w with
  | Some _ => w
  | None => let d := hash_password (hasher self) (random (drawn w)) DECOY in set_decoy d.2 (logged (map Derives d.1) (draws 1 w))
  end.

Lemma run_dummyHash w : run (dummyHash random self) w = (decoyed w, decoy_of w).
Proof. unfold dummyHash, decoyed, decoy_of. rewrite run_bind. cbn. destruct (decoy w) as [r|]; cbn; [by destruct r|]. by destruct (hash_password _ _ _) as [ds [h|e]]. Qed.

Lemma run_hash pw w : run (hash random self pw) w = (logged (map Derives (hash_password (hasher self) (random (drawn w)) pw).1) (draws 1 w), (hash_password (hasher self) (random (drawn w)) pw).2).
Proof. unfold hash. rewrite run_bind, run_draw. by rewrite run_derive. Qed.
End Runs.

Create Rewrite HintDb runs.
#[export] Hint Rewrite @run_bind @run_attempt @run_reading @run_now @run_date @run_updating @run_writing @run_derive @run_draw @run_emit @run_modify @run_ret @run_throw @run_lift
  @run_check_login @run_check_totp @run_sessions_create @run_sessions_verify @run_sessions_revoke @run_dummyHash @run_hash : runs.

(** Symbolic execution, and the same of the guarantees. *)
(** [emit] takes its event explicitly. *)
Ltac emits := match goal with |- context [run (emit ?s ?e) ?w] => rewrite (run_emit s e w) end.
Ltac exec := repeat (progress (autorewrite with runs; try emits; cbv beta iota)).
Ltac walk :=
  repeat first
    [ progress intros | apply guarantees_bind | apply guarantees_attempt
    | match goal with |- guarantees _ (match ?x with _ => _ end) => destruct x end
    | match goal with |- guarantees _ (if ?b then _ else _) => destruct b end
    | exact I | done ].

(** ** Who signs in *)

Section Login.
Context `{Crypto} `{TextDecoder} `{Rounding} {S L : Type} `{!SessionStore S} `{!RateLimitStore L}.
Context (lenient_decode : string -> list Z) (random : nat -> list Z) (self : Identity S).
Implicit Types w : IdentityWorld S L.

(** Neither the tables nor the sessions nor the time changed. *)
Definition kept w w' : Prop := db w' = db w /\ store w' = store w /\ clock w' = clock w /\ date w' = date w.

Lemma kept_refl w : kept w w.
Proof. done. Qed.
Lemma kept_trans w1 w2 w3 : kept w1 w2 -> kept w2 w3 -> kept w1 w3.
Proof. intros (? & ? & ? & ?) (? & ? & ? & ?). unfold kept. split; [congruence|]. split; [congruence|]. split; congruence. Qed.

Lemma kept_derive {A} (d : Derived A) : guarantees kept (derive (S := S) (L := L) d).
Proof. unfold derive. walk. Qed.
Lemma kept_emit e : guarantees kept (emit (L := L) self e).
Proof. unfold emit. walk. Qed.
Lemma kept_check_login p key cost : guarantees kept (check_login (S := S) (L := L) p key cost).
Proof. unfold check_login. apply guarantees_bind; [|walk]. cbn. intros w. split; [|done]. by destruct (check _ _ _ _ _ _). Qed.
Lemma kept_check_totp p key cost : guarantees kept (check_totp (S := S) (L := L) p key cost).
Proof. unfold check_totp. apply guarantees_bind; [|walk]. cbn. intros w. split; [|done]. by destruct (check _ _ _ _ _ _). Qed.
Lemma kept_draw : guarantees kept (draw (S := S) (L := L) random).
Proof. done. Qed.
Lemma kept_hash pw : guarantees kept (hash (L := L) random self pw).
Proof. unfold hash. apply guarantees_bind; [apply kept_draw|intros; apply kept_derive]. Qed.
Lemma kept_dummyHash : guarantees kept (dummyHash (L := L) random self).
Proof. unfold dummyHash. apply guarantees_bind; [|walk]. cbn. intros w. split; [|done]. by destruct (decoy w). Qed.

Lemma kept_admission key : guarantees kept (assertLoginNotThrottled (L := L) self key).
Proof. unfold assertLoginNotThrottled. walk; by apply kept_check_login || apply kept_emit. Qed.

Lemma kept_failure key pw spend e : guarantees kept (failLogin (L := L) random self key pw spend e).
Proof. unfold failLogin, penalize. walk; by apply kept_dummyHash || apply kept_derive || apply kept_check_login || apply kept_emit. Qed.

Lemma kept_run {A} (p : Prog (IdentityWorld S L) A) w : guarantees kept p -> kept w (run p w).1.
Proof. apply run_guarantees; [apply kept_refl|apply kept_trans]. Qed.

(** The bucket has a token left. *)
Definition unthrottled w (key : string) : Prop :=
  match loginRateLimiter self with
  | None => True
  | Some p => exists peek, (check p (clock w) (clock w) key 0 (logins w)).2 = Ok peek /\ 1 <= remaining peek
  end.

Lemma admission_iff w key : unthrottled w key <-> (run (assertLoginNotThrottled self key) w).2 = Ok tt.
Proof.
  unfold unthrottled, assertLoginNotThrottled. destruct (loginRateLimiter self) as [p|]; [|done].
  rewrite run_bind, run_check_login. destruct (check p _ _ key 0 _) as [l r]. cbn [fst snd].
  destruct r as [peek|[|]]; cbn [store_thrown]; [|split; [by intros (? & ? & ?)|done]..].
  destruct (Z.ltb_spec (remaining peek) 1) as [T|T].
  - split; [intros (peek' & [= <-] & T'); lia|]. rewrite run_bind, run_check_login. destruct (store_thrown _); [|done].
    rewrite run_bind. emits. done.
  - split; [done|]. intros _. by exists peek.
Qed.

(** The password and the address are those of [user]. *)
Definition first_factor w (email password : string) (user : User) : Prop :=
  findUserByEmail (normalizeEmail email) (db w) = Some user /\
  (verify_password (hasher self) password (u_passwordHash user)).2 = Ok true /\
  (requireVerifiedEmail self = true -> isEmailVerified user = true).

Definition second_factor (d : Tables) (user : User) : bool :=
  match findTotpFactor (int (u_id user)) d with Some f => f_confirmed f | None => false end.

(** The upgrade of the hash runs to its end, and changes nothing but users, and them only
    when the hash is stale. *)
Lemma run_rehash user pw w :
  exists w1, run (rehash random self user pw) w = (w1, Ok tt) /\ store w1 = store w /\ clock w1 = clock w /\
    factors (db w1) = factors (db w) /\ (needs_rehash (hasher self) (u_passwordHash user) = false -> w1 = w).
Proof.
  unfold rehash. destruct (needs_rehash _ _); [|by exists w].
  rewrite run_bind, run_attempt. rewrite run_bind, run_hash. destruct (hash_password _ _ _).2 as [h|e] eqn:Eh; [|eexists; split; [reflexivity|done]].
  rewrite run_bind, run_writing. rewrite run_ret. cbn [fst snd]. unfold setPasswordHashIf. cbn [update_where fst snd].
  destruct (_ >? 0); cbv beta iota; [emits|rewrite run_ret]; (eexists; split; [reflexivity|]).
  - unfold announced. destruct (o_onEvent _); done.
  - done.
Qed.

(** What follows the password, from the tables the upgrade left. *)
Definition admitted (w1 : IdentityWorld S L) (user : User) : IdentityWorld S L * LoginResult :=
  if second_factor (db w1) user then
    (w1, TotpRequired user (issue (challengeTokens self) (int (clock w1)) (id_text user) (int (totpChallengeTtlMs self))))
  else
    let session := mkSession (generateToken (random (drawn w1))) (id_text user) (clock w1 + sessionTtlMs self) in
    (announced self (LoginSucceeded (id_text user)) (set_store (save session (store w1)) (draws 1 w1)), Authenticated user session).

Lemma run_login email pw w :
  let key := login_key (normalizeEmail email) in
  match run (assertLoginNotThrottled self key) w with
  | (w1, Throw e) => run (login random self email pw) w = (w1, Throw e)
  | (w1, Ok _) =>
      match findUserByEmail (normalizeEmail email) (db w) with
      | None => run (login random self email pw) w = run (failLogin random self key pw true LOGIN_FAILED) w1
      | Some user =>
          let d := verify_password (hasher self) pw (u_passwordHash user) in
          let w2 := logged (map Derives d.1) w1 in
          match d.2 with
          | Throw e => run (login random self email pw) w =
              if hasCode e "AUTH_KDF_UNAVAILABLE" then run (failLogin random self key pw true (unverifiableHashError self)) w2 else (w2, Throw e)
          | Ok false => run (login random self email pw) w = run (failLogin random self key pw false LOGIN_FAILED) w2
          | Ok true =>
              if requireVerifiedEmail self && negb (isEmailVerified user) then run (login random self email pw) w = (w2, Throw EMAIL_NOT_VERIFIED)
              else run (login random self email pw) w = let '(w4, r) := admitted (run (rehash random self user pw) w2).1 user in (w4, Ok r)
          end
      end
  end.
Proof.
  cbv zeta. unfold login. rewrite run_bind. pose proof (kept_run _ w (kept_admission (login_key (normalizeEmail email)))) as (Kd & _).
  destruct (run (assertLoginNotThrottled self _) w) as [w1 [[]|e]]; [|done]. cbn [fst] in Kd.
  rewrite run_bind, run_reading, Kd. destruct (findUserByEmail _ _) as [user|]; [|done].
  rewrite run_bind, run_attempt, run_derive. cbn [fst snd]. destruct (verify_password _ _ _).2 as [[]|e] eqn:V; [|done|by destruct (hasCode _ _)].
  destruct (_ && _); [done|]. rewrite run_bind. destruct (run_rehash user pw (logged (map Derives (verify_password (hasher self) pw (u_passwordHash user)).1) w1)) as (w3 & E & _).
  rewrite E. cbn [fst]. rewrite run_bind, run_reading. unfold admitted, second_factor.
  destruct (match findTotpFactor _ _ with Some f => _ | None => _ end); exec; done.
Qed.

(** The epilogue of a failure throws, and touches neither tables nor sessions. *)
Lemma failure_throws key pw spend e w :
  exists w' e', run (failLogin random self key pw spend e) w = (w', Throw e') /\ kept w w'.
Proof.
  pose proof (kept_run _ w (kept_failure key pw spend e)) as K.
  assert (exists w' e', run (failLogin random self key pw spend e) w = (w', Throw e')) as (w' & e' & E); [|rewrite E in K; eauto].
  unfold failLogin. rewrite run_bind, run_dummyHash. destruct (decoy_of _ _ _) as [dh|e1]; [|eauto]. rewrite run_bind.
  destruct (run (if spend then _ else _) _) as [w5 [b|e1]]; [|eauto]. rewrite run_bind. destruct (run (penalize _ _) _) as [w6 [b2|e2]]; [|eauto].
  rewrite run_bind. emits. eauto.
Qed.

(** C4: who signs in: a login succeeds exactly when its bucket holds a token, the address has
    an account whose hash the password verifies, and the address is verified where that is
    required. It then answers the account: without a confirmed second factor, with a session
    of that account, saved, for the configured time; with one, with a signed challenge and no
    session. A login that fails leaves tables and sessions as they were. *)
Theorem login_decides (w : IdentityWorld S L) (email password : string) :
  let w' := (run (login random self email password) w).1 in
  match (run (login random self email password) w).2 with
  | Ok r =>
      unthrottled w (login_key (normalizeEmail email)) /\
      exists user, first_factor w email password user /\ factors (db w') = factors (db w) /\
        (needs_rehash (hasher self) (u_passwordHash user) = false -> db w' = db w) /\
        if second_factor (db w) user then
          store w' = store w /\
          r = TotpRequired user (issue (challengeTokens self) (int (clock w)) (id_text user) (int (totpChallengeTtlMs self)))
        else exists session, r = Authenticated user session /\ store w' = save session (store w) /\
               userId session = id_text user /\ expiresAt session = clock w + sessionTtlMs self
  | Throw _ =>
      db w' = db w /\ store w' = store w /\
      ~ (unthrottled w (login_key (normalizeEmail email)) /\ exists user, first_factor w email password user)
  end.
Proof.
  cbv zeta. pose proof (run_login email password w) as E. cbv zeta in E. pose proof (admission_iff w (login_key (normalizeEmail email))) as A.
  pose proof (kept_run _ w (kept_admission (login_key (normalizeEmail email)))) as (Kd & Ks & Kc & _).
  destruct (run (assertLoginNotThrottled self _) w) as [w1 [[]|e]]; cbn [fst snd] in *;
    [|rewrite E; cbn [fst snd]; split; [done|]; split; [done|]; intros [T _]; by apply A in T].
  assert (forall key pw spend e w2, db w2 = db w -> store w2 = store w -> (forall user, ~ first_factor w email password user) ->
    run (login random self email password) w = run (failLogin random self key pw spend e) w2 ->
    match (run (login random self email password) w).2 with
    | Ok _ => False
    | Throw _ => db (run (login random self email password) w).1 = db w /\ store (run (login random self email password) w).1 = store w /\
        ~ (unthrottled w (login_key (normalizeEmail email)) /\ exists user, first_factor w email password user)
    end) as F.
  { intros key pw spend e w2 D2 S2 N E2. rewrite E2.
    destruct (failure_throws key pw spend e w2) as (w4 & e' & E4 & Fd & Fs & _). rewrite E4. cbn [fst snd] in *. split; [congruence|]. split; [congruence|]. intros [_ [user U]]. by apply (N user). }
  destruct (findUserByEmail _ _) as [user|] eqn:U.
  - destruct (verify_password _ _ _).2 as [[]|e] eqn:V.
    + destruct (requireVerifiedEmail self && negb (isEmailVerified user)) eqn:R.
      * rewrite E. cbn [fst snd]. split; [done|]. split; [done|]. intros (_ & user' & U' & _ & R'). rewrite U in U'. injection U' as <-.
        apply andb_true_iff in R as [R1 R2]. rewrite R' in R2; done.
      * destruct (run_rehash user password (logged (map Derives (verify_password (hasher self) password (u_passwordHash user)).1) w1)) as (w3 & Er & Sr & Cr & Fr & Nr).
        rewrite Er in E. cbn [fst] in E. rewrite E. assert (first_factor w email password user) as FF.
        { split; [done|]. split; [done|]. intros Q. rewrite Q in R. cbn [andb] in R. by apply negb_false_iff in R. }
        change (factors (db w3) = factors (db w1)) in Fr. change (store w3 = store w1) in Sr. change (clock w3 = clock w1) in Cr.
        assert (second_factor (db w3) user = second_factor (db w) user) as S2 by (unfold second_factor, findTotpFactor; by rewrite Fr, Kd).
        assert (needs_rehash (hasher self) (u_passwordHash user) = false -> db w3 = db w) as N2 by (intros Q; rewrite (Nr Q); exact Kd).
        unfold admitted. rewrite S2. destruct (second_factor (db w) user) eqn:SF; cbn [fst snd].
        -- split; [by apply A|]. exists user. rewrite SF. split; [done|]. split; [congruence|]. split; [done|]. split; [congruence|]. by rewrite Cr, Kc.
        -- assert (forall e w4, db (announced self e w4) = db w4 /\ store (announced self e w4) = store w4) as An by (intros e w4; unfold announced; by destruct (o_onEvent _)).
           match goal with |- context [announced self ?e ?w4] => destruct (An e w4) as [-> ->] end. cbn [db store set_store draws].
           split; [by apply A|]. exists user. rewrite SF. split; [done|]. split; [congruence|]. split; [done|]. eexists. split; [reflexivity|]. split; [by rewrite Sr, Ks|].
           split; [done|]. cbn [expiresAt]. by rewrite Cr, Kc.
    + assert (forall u, ~ first_factor w email password u) as N by (intros u (U' & V' & _); rewrite U in U'; injection U' as <-; congruence).
      pose proof (F _ _ _ _ (logged _ w1) Kd Ks N E). by destruct (run (login _ _ _ _) w) as [? [|]].
    + assert (forall u, ~ first_factor w email password u) as N by (intros u (U' & V' & _); rewrite U in U'; injection U' as <-; congruence).
      destruct (hasCode e _).
      * pose proof (F _ _ _ _ (logged _ w1) Kd Ks N E). by destruct (run (login _ _ _ _) w) as [? [|]].
      * rewrite E. cbn [fst snd]. split; [done|]. split; [done|]. intros [_ [u Hu]]. by apply (N u).
  - assert (forall u, ~ first_factor w email password u) as N by (intros u (U' & _); congruence).
    pose proof (F _ _ _ _ _ Kd Ks N E). by destruct (run (login _ _ _ _) w) as [? [|]].
Qed.
End Login.

(** ** What a failure tells *)

Section Failures.
Context `{Crypto} `{TextDecoder} `{Rounding} {S L : Type} `{!SessionStore S} `{!RateLimitStore L}.
Context (lenient_decode : string -> list Z) (random : nat -> list Z) (self : Identity S).
Implicit Types w : IdentityWorld S L.

(** All but the tables, the trace up to its order: what anyone without the database sees. *)
Definition alike w w' : Prop :=
  (store w, logins w, totps w, decoy w, clock w, date w, drawn w) = (store w', logins w', totps w', decoy w', clock w', date w', drawn w') /\
  Permutation (trace w) (trace w').

Definition respects {A} (p : Prog (IdentityWorld S L) A) : Prop :=
  forall w w', alike w w' -> alike (run p w).1 (run p w').1 /\ (run p w).2 = (run p w').2.

Lemma respects_bind {A B} (p : Prog (IdentityWorld S L) A) (k : A -> Prog (IdentityWorld S L) B) : respects p -> (forall a, respects (k a)) -> respects (bind p k).
Proof.
  intros Hp Hk w w' Hw. rewrite !run_bind. destruct (Hp w w' Hw) as [E1 E2]. destruct (run p w) as [w1 r1], (run p w') as [w2 r2].
  cbn [fst snd] in *. subst r2. destruct r1 as [a|e]; [by apply Hk|done].
Qed.

Lemma respects_done {A} (r : outcome JsThrown A) : respects (Done r).
Proof. by intros w w' Hw. Qed.

Ltac alike_tac := intros w w' [[= E1 E2 E3 E4 E5 E6 E7] P].

Lemma respects_check_login p key cost : respects (check_login p key cost).
Proof.
  apply respects_bind; [|intros; apply respects_done]. alike_tac. cbn. rewrite E2, E5. destruct (check _ _ _ _ _ _) as [l r]. split; [|done].
  split; [cbn; congruence|done].
Qed.
Lemma respects_emit e : respects (emit self e).
Proof.
  unfold emit. destruct (o_onEvent (options self)); [|apply respects_done]. alike_tac. cbn. rewrite E5. split; [|done]. split; [cbn; congruence|]. cbn. by apply Permutation_app_tail.
Qed.
Lemma respects_derive {A} (d : Derived A) : respects (derive d).
Proof.
  apply respects_bind; [|intros; apply respects_done]. alike_tac. split; [|done]. split; [cbn; congruence|]. cbn. by apply Permutation_app_tail.
Qed.
Lemma respects_admission key : respects (assertLoginNotThrottled self key).
Proof.
  unfold assertLoginNotThrottled. destruct (loginRateLimiter self); [|apply respects_done]. apply respects_bind; [apply respects_check_login|]. intros peek.
  destruct (_ <? _); [|apply respects_done]. apply respects_bind; [apply respects_check_login|]. intros _. apply respects_bind; [apply respects_emit|]. intros _. apply respects_done.
Qed.
Lemma respects_epilogue key e : respects (bind (penalize self key) (fun _ => bind (emit self LoginFailed) (fun _ => @throw _ LoginResult e))).
Proof.
  apply respects_bind.
  - unfold penalize. destruct (loginRateLimiter self); [|apply respects_done]. apply respects_bind; [apply respects_check_login|]. intros _. apply respects_done.
  - intros _. apply respects_bind; [apply respects_emit|]. intros _. apply respects_done.
Qed.

(** The decoy is minted the same way in states alike. *)
Lemma alike_decoyed w w' : alike w w' -> alike (decoyed random self w) (decoyed random self w') /\ decoy_of random self w = decoy_of random self w'.
Proof.
  revert w w'. alike_tac. unfold decoyed, decoy_of. rewrite <- E4, <- E7. destruct (decoy w) as [r|] eqn:Ed; [split; [split; [cbn; congruence|done]|done]|]. split; [|done]. split; [cbn; congruence|]. cbn. by apply Permutation_app_tail.
Qed.

Lemma alike_logged ds w : alike (logged ds (decoyed random self w)) (decoyed random self (logged ds w)).
Proof.
  unfold decoyed. cbn [decoy logged]. destruct (decoy w); [by split|]. split; [done|]. cbn. rewrite <- !app_assoc. apply Permutation_app_head, Permutation_app_comm.
Qed.

Lemma alike_trans w1 w2 w3 : alike w1 w2 -> alike w2 w3 -> alike w1 w3.
Proof. intros [E1 P1] [E2 P2]. split; [congruence|]. by transitivity (trace w2). Qed.

Lemma alike_log ds w w' : alike w w' -> alike (logged ds w) (logged ds w').
Proof. revert w w'. alike_tac. split; [cbn; congruence|]. cbn. by apply Permutation_app_tail. Qed.

(** The epilogue with a decoy derivation, and the one after a real derivation of the same
    cost. *)
Lemma epilogues_alike key pw e w w' d ds b :
  alike w w' -> decoy_of random self w = Ok d -> verify_password (hasher self) pw d = (ds, Ok b) ->
  let r := run (failLogin random self key pw true e) w in
  let r' := run (failLogin random self key pw false e) (logged (map Derives ds) w') in
  alike r.1 r'.1 /\ r.2 = r'.2.
Proof.
  intros Hw D V. cbv zeta. unfold failLogin. rewrite !(run_bind (dummyHash random self)), !run_dummyHash.
  destruct (alike_decoyed w w' Hw) as [Hd Ed]. assert (decoy_of random self (logged (map Derives ds) w') = decoy_of random self w') as -> by done.
  rewrite <- Ed, D. rewrite (run_bind (derive _)), run_derive, V. cbn [fst snd].
  rewrite (run_bind (ret false)), run_ret. apply respects_epilogue. eapply alike_trans; [apply alike_log, Hd|]. apply alike_logged.
Qed.

(** What an account does to a login that fails: the hash refuses the password after the
    derivation the decoy costs, or cannot be derived on this runtime. *)
Definition refused (pw : string) (ds : list Derivation) (user : User) : Prop :=
  verify_password (hasher self) pw (u_passwordHash user) = (ds, Ok false) \/
  verify_password (hasher self) pw (u_passwordHash user) = ([], Throw KDF_UNAVAILABLE).

(** C14: failures look alike: an address with no account, an account whose hash refuses the
    password at the cost of the decoy, and an account whose hash this runtime cannot derive
    fail with the same error, the same derivations, the same events, and the same effect on
    the throttle, the sessions and the decoy, throttled or not and whether the decoy was
    minted before or not. So under the default answer to hashes that cannot be derived
    here ([onUnverifiableHash] is [InvalidCredentials]), for account hashes of the decoy's
    cost, and where the decoy was minted or can be: what a decoy that cannot be minted does
    is [failed_decoy_sticks]. *)
Theorem failures_look_alike (w : IdentityWorld S L) (accounts : Tables) (email password : string) (user : User) (d : string) (ds : list Derivation) (b : bool) :
  findUserByEmail (normalizeEmail email) (db w) = None ->
  findUserByEmail (normalizeEmail email) accounts = Some user -> refused password ds user ->
  onUnverifiableHash self = InvalidCredentials ->
  decoy_of random self w = Ok d -> verify_password (hasher self) password d = (ds, Ok b) ->
  let without := run (login random self email password) w in
  let with_account := run (login random self email password) (set_db accounts w) in
  alike without.1 with_account.1 /\ without.2 = with_account.2 /\ exists e, without.2 = Throw e.
Proof.
  intros N U R O D V. cbv zeta. set (key := login_key (normalizeEmail email)).
  assert (alike w (set_db accounts w)) as Hw by (by split).
  pose proof (run_login random self email password w) as E0. pose proof (run_login random self email password (set_db accounts w)) as E1.
  cbv zeta in E0, E1. fold key in E0, E1. rewrite N in E0. cbn [db set_db] in E1. rewrite U in E1.
  destruct (respects_admission key w (set_db accounts w) Hw) as [Ha Hr].
  assert (decoy_of random self (run (assertLoginNotThrottled self key) w).1 = Ok d) as D1.
  { rewrite <- D. unfold assertLoginNotThrottled. destruct (loginRateLimiter self) as [p|]; [|done]. rewrite run_bind, run_check_login.
    destruct (store_thrown _) as [peek|]; [|done]. destruct (_ <? _); [|done]. rewrite run_bind, run_check_login. destruct (store_thrown _); [|done].
    rewrite run_bind. emits. unfold announced. by destruct (o_onEvent _). }
  destruct (run (assertLoginNotThrottled self key) w) as [w1 [[]|e]]; destruct (run (assertLoginNotThrottled self key) (set_db accounts w)) as [w1' r1'];
    cbn [fst snd] in *; subst r1'; [|rewrite E0, E1; eauto].
  rewrite E0. destruct (failure_throws random self key password true LOGIN_FAILED w1) as (w2 & e2 & E2 & _).
  destruct R as [R|R]; rewrite R in E1; cbn [fst snd map] in E1; rewrite E1.
  - destruct (epilogues_alike key password LOGIN_FAILED w1 w1' d ds b Ha D1 V) as [A1 A2]. split; [done|]. split; [done|]. rewrite E2. eauto.
  - cbn [hasCode KDF_UNAVAILABLE]. rewrite String.eqb_refl. unfold unverifiableHashError. rewrite O.
    assert (respects (failLogin random self key password true LOGIN_FAILED)) as Rf.
    { unfold failLogin. apply respects_bind; [|intros dh; apply respects_bind; [apply respects_derive|intros _; apply respects_epilogue]].
      intros v v' Hv. rewrite !run_dummyHash. by destruct (alike_decoyed v v' Hv). }
    destruct (Rf w1 (logged [] w1')) as [A1 A2]; [|split; [done|]; split; [done|]; rewrite E2; eauto].
    eapply alike_trans; [exact Ha|]. split; [done|]. cbn. by rewrite app_nil_r.
Qed.
End Failures.

(** ** Second factors *)

Section SecondFactor.
Context `{Crypto} `{TextDecoder} `{Rounding} {S L : Type} `{!SessionStore S} `{!RateLimitStore L}.
Context (lenient_decode : string -> list Z) (random : nat -> list Z) (self : Identity S).
Implicit Types w : IdentityWorld S L.

Lemma kept_throttle id : guarantees kept (assertTotpNotThrottled (L := L) self id).
Proof. unfold assertTotpNotThrottled. walk; apply kept_check_totp. Qed.

Lemma kept_penalty id : guarantees kept (penalizeTotp (L := L) self id).
Proof. unfold penalizeTotp. walk; apply kept_check_totp. Qed.

Lemma penalty_throws {A} id e w : exists w' e', run (bind (penalizeTotp self id) (fun _ => @throw _ A e)) w = (w', Throw e') /\ kept w w'.
Proof.
  rewrite run_bind. pose proof (kept_run _ w (kept_penalty id)) as K. destruct (run (penalizeTotp self id) w) as [w' [[]|e']]; cbn [fst] in K; eauto.
Qed.

(** The confirmed factor whose code it is, for a step it has not used. *)
Definition accepts_totp w (id : number) (code : string) (factor : TotpFactor) (step : Z) : Prop :=
  findTotpFactor id (db w) = Some factor /\ f_confirmed factor = true /\
  verifyTotpStep (int (clock w)) (f_secret factor) code plain_totp = Ok (Some step) /\
  match f_lastUsedStep factor with Some last => last < step | None => True end.

Lemma totp_challenge id code w :
  match run (runTotpChallenge self id code) w with
  | (w', Ok _) => exists factor step, accepts_totp w id code factor step /\
      db w' = recordTotpStep (date w) id step (db w) /\ store w' = store w /\ clock w' = clock w
  | (w', Throw _) => kept w w'
  end.
Proof.
  unfold runTotpChallenge. rewrite run_bind. pose proof (kept_run _ w (kept_throttle id)) as K.
  destruct (run (assertTotpNotThrottled self id) w) as [w1 [[]|e]]; cbn [fst] in K; [|done]. pose proof K as (Kd & Ks & Kc & Kt).
  assert (forall e v, kept w v -> match run (bind (penalizeTotp self id) (fun _ => @throw _ unit e)) v with
     | (w', Ok _) => exists factor step, accepts_totp w id code factor step /\ db w' = recordTotpStep (date w) id step (db w) /\ store w' = store w /\ clock w' = clock w
     | (w', Throw _) => kept w w' end) as P.
  { intros e v Kv. destruct (penalty_throws (A := unit) id e v) as (v' & e' & -> & Kv'). by eapply kept_trans. }
  rewrite run_bind, run_reading, Kd. destruct (findTotpFactor id (db w)) as [factor|] eqn:F; [|by apply P].
  destruct (f_confirmed factor) eqn:C; cbn [negb]; [|by apply P]. rewrite run_bind, run_now, Kc. rewrite run_bind, run_lift.
  destruct (verifyTotpStep _ _ _ _) as [[step|]|e] eqn:V; [|by apply P|done].
  destruct (match f_lastUsedStep factor with Some last => step <=? last | None => false end) eqn:U; [by apply P|].
  rewrite run_updating. exists factor, step. split.
  - split; [done|]. split; [done|]. split; [done|]. destruct (f_lastUsedStep factor); [|done]. by apply Z.leb_gt.
  - cbn [db set_db store clock]. rewrite Kt, Kd. done.
Qed.

(** The unused code it is. *)
Definition accepts_code w (id : number) (code : string) (c : RecoveryCode) : Prop :=
  In c (codes (db w)) /\ has_id id (c_userId c) = true /\ unused c = true /\ (verify_code (hasher self) code (c_codeHash c)).2 = Ok true.

Lemma mark_lost date id d : (markRecoveryCodeUsed date id d).2 = false -> (markRecoveryCodeUsed date id d).1 = d.
Proof.
  unfold markRecoveryCodeUsed. destruct (update_where _ _ _) as [t changes] eqn:U. cbn [fst snd]. intros C.
  pose proof (changes_pos (fun c => (c_id c =? id) && unused c) (fun c => mkCode (c_id c) (c_userId c) (c_codeHash c) (Some date) (c_createdAt c)) (codes d)) as E.
  rewrite U in E. cbn [snd] in E. rewrite C in E. symmetry in E. rewrite existsb_false in E.
  rewrite update_none in U by done. injection U as <- _. by destruct d.
Qed.

Lemma tried_codes code cands w :
  match run (tryCodes self code cands) w with
  | (w', Ok true) => exists c, In c cands /\ (verify_code (hasher self) code (c_codeHash c)).2 = Ok true /\
      (markRecoveryCodeUsed (date w) (c_id c) (db w)).2 = true /\
      db w' = (markRecoveryCodeUsed (date w) (c_id c) (db w)).1 /\ store w' = store w /\ clock w' = clock w
  | (w', _) => kept w w'
  end.
Proof.
  revert w. induction cands as [|c cands IH]; intros w; [done|]. cbn [tryCodes]. rewrite run_bind, run_attempt, run_derive. cbn [fst snd].
  destruct (verify_code _ _ _).2 as [[]|e] eqn:V.
  - rewrite run_writing. cbn [date logged db]. destruct (markRecoveryCodeUsed (date w) (c_id c) (db w)).2 eqn:M.
    + exists c. split; [by left|]. done.
    + apply mark_lost in M. unfold kept. cbn [db set_db]. rewrite M. done.
  - specialize (IH (logged (map Derives (verify_code (hasher self) code (c_codeHash c)).1) w)).
    destruct (run (tryCodes self code cands) _) as [w' [[]|e]]; [|done|done]. destruct IH as (c' & I & R). exists c'. split; [by right|done].
  - destruct (hasCode e _); [done|]. done.
Qed.

Lemma recovery_challenge id code w :
  match run (runRecoveryChallenge self id code) w with
  | (w', Ok _) => exists c, accepts_code w id code c /\ db w' = (markRecoveryCodeUsed (date w) (c_id c) (db w)).1 /\ store w' = store w /\ clock w' = clock w
  | (w', Throw _) => kept w w'
  end.
Proof.
  unfold runRecoveryChallenge. rewrite run_bind. pose proof (kept_run _ w (kept_throttle id)) as K.
  destruct (run (assertTotpNotThrottled self id) w) as [w1 [[]|e]]; cbn [fst] in K; [|done]. pose proof K as (Kd & Ks & Kc & Kt).
  rewrite run_bind, run_reading, Kd. rewrite run_bind. pose proof (tried_codes code (findUnusedRecoveryCodes id (db w)) w1) as T.
  destruct (run (tryCodes self code _) w1) as [w2 [[]|e]].
  - rewrite run_ret. destruct T as (c & I & V & _ & D & St & Cl). apply filter_In in I as [I [I1 I2]%andb_true_iff]. exists c.
    rewrite Kt, Kd in D. split; [done|]. split; [done|]. split; congruence.
  - destruct (penalty_throws (A := unit) id INVALID_TOTP w2) as (w3 & e3 & -> & K3). eapply kept_trans; [|exact K3]. by eapply kept_trans.
  - by eapply kept_trans.
Qed.

(** C17: a session after a challenge takes both factors: the token is the encoding of a claim
    signed under the challenge key and in date, which only a login past its password
    issues, and the code is either that of an unused step of the confirmed factor of the
    claim's account, which is then recorded, or an unused recovery code of it, which is
    then marked; the session is the account's, saved, for the configured time. A challenge
    that fails leaves tables and sessions as they were, but for what was spent. *)
Theorem session_takes_both_factors (w : IdentityWorld S L) (challenge code : string) (recovery : bool) :
  let w' := (run (completeTotpChallenge lenient_decode random self challenge code recovery) w).1 in
  match (run (completeTotpChallenge lenient_decode random self challenge code recovery) w).2 with
  | Ok (user, session) =>
      exists encoded claim, challenge = String.append encoded (String SEPARATOR (hmac_hex encoded (challengeTokens self))) /\
        decodeClaim lenient_decode encoded = Some claim /\ num_ge (int (clock w)) (claim_expiresAt claim) = false /\
        let id := Number_of_string (claim_userId claim) in
        findUserById id (db w) = Some user /\
        store w' = save session (store w) /\ userId session = id_text user /\ expiresAt session = clock w + sessionTtlMs self /\
        if recovery then exists c, accepts_code w id code c /\ db w' = (markRecoveryCodeUsed (date w) (c_id c) (db w)).1
        else exists factor step, accepts_totp w id code factor step /\ db w' = recordTotpStep (date w) id step (db w)
  | Throw _ => store w' = store w /\ users (db w') = users (db w)
  end.
Proof.
  cbv zeta. unfold completeTotpChallenge. rewrite run_bind, run_now. destruct (verify_signed _ _ _ _) as [claim|] eqn:V; [|done].
  apply signed_parts in V as (encoded & -> & D & E). set (id := Number_of_string (claim_userId claim)). rewrite run_bind.
  assert (match run (if recovery then runRecoveryChallenge self id code else runTotpChallenge self id code) w with
          | (w', Ok _) => users (db w') = users (db w) /\ store w' = store w /\ clock w' = clock w /\
              (if recovery then exists c, accepts_code w id code c /\ db w' = (markRecoveryCodeUsed (date w) (c_id c) (db w)).1
               else exists factor step, accepts_totp w id code factor step /\ db w' = recordTotpStep (date w) id step (db w))
          | (w', Throw _) => kept w w' end) as C.
  { destruct recovery.
    - pose proof (recovery_challenge id code w) as C. destruct (run _ w) as [w1 [[]|e]]; [|done]. destruct C as (c & A & Dc & St & Cl).
      split; [|split; [done|]; split; [done|]; eauto]. rewrite Dc. unfold markRecoveryCodeUsed. by destruct (update_where _ _ _).
    - pose proof (totp_challenge id code w) as C. destruct (run _ w) as [w1 [[]|e]]; [|done]. destruct C as (f & step & A & Dc & St & Cl).
      split; [by rewrite Dc|]. split; [done|]. split; [done|]. eauto. }
  destruct (run (if recovery then _ else _) w) as [w1 [[]|e]]; [|destruct C as (Cd & Cs & _); cbn [fst snd]; split; [done|by rewrite Cd]].
  destruct C as (Cu & Cs & Cc & Cr). rewrite run_bind, run_reading. unfold findUserById. rewrite Cu.
  destruct (List.find _ (users (db w))) as [user|] eqn:U; [|cbn [run throw fst snd]; done].
  rewrite run_bind, run_sessions_create. rewrite run_bind. emits. rewrite run_ret. cbn [fst snd].
  assert (forall e (v : IdentityWorld S L), db (announced self e v) = db v /\ store (announced self e v) = store v) as An by (intros e v; unfold announced; by destruct (o_onEvent _)).
  exists encoded, claim. split; [done|]. split; [done|]. split; [done|]. match goal with |- context [announced self ?e ?v] => destruct (An e v) as [-> ->] end. cbn [db store set_store draws userId expiresAt].
  split; [done|]. split; [by rewrite Cs|]. split; [done|]. split; [by rewrite Cc|]. exact Cr.
Qed.

Lemma find_update {R} (p : R -> bool) (f : R -> R) l :
  (forall r, p (f r) = p r) -> List.find p (update_where p f l).1 = option_map f (List.find p l).
Proof.
  intros Hp. cbn [update_where fst]. induction l as [|r l IH]; [done|]. cbn [map List.find]. destruct (p r) eqn:E.
  - by rewrite Hp, E.
  - by rewrite E.
Qed.

Lemma find_recorded date id step d factor :
  findTotpFactor id d = Some factor ->
  exists f', findTotpFactor id (recordTotpStep date id step d) = Some f' /\ f_lastUsedStep f' = Some step /\ f_secret f' = f_secret factor /\ f_confirmed f' = f_confirmed factor.
Proof.
  unfold findTotpFactor, recordTotpStep, set_factors. cbn [factors]. intros F. rewrite find_update by done. rewrite F. cbn [option_map]. eexists. split; [reflexivity|done].
Qed.

Lemma Ok_inj {E A} (a b : A) : @Ok E A a = Ok b -> a = b.
Proof. by intros [= ->]. Qed.

Lemma search_sound secret code digits steps s :
  search secret code digits steps = Ok (Some s) ->
  exists e, hotp secret s digits = Ok (Some e) /\ codesMatch e code = Ok true.
Proof.
  induction steps as [|t steps IH]; [done|]. cbn [search]. destruct (hotp secret t digits) as [[e|]|] eqn:E; cbn [outcome_bind]; [|done|done].
  destruct (codesMatch e code) as [[]|] eqn:M; cbn [outcome_bind]; [|exact IH|done]. intros [= <-]. eauto.
Qed.

Lemma accepted_code secret key code clock o s :
  base32Decode secret = Some key -> verifyTotpStep clock secret code o = Ok (Some s) -> code_at key (the_digits o) s = code.
Proof.
  intros K V. unfold verifyTotpStep in V. destruct (negb _); [done|]. destruct (whole _) as [base|].
  - apply search_sound in V as (e & Ho & M). unfold hotp in Ho. rewrite K in Ho. destruct (counterBuffer s) as [buffer|] eqn:B; [|done].
    unfold counterBuffer in B. destruct (_ && _); [|done]. injection B as <-. injection Ho as Ho.
    transitivity e; [exact Ho|]. unfold codesMatch, timingSafeEqual in M. destruct (Nat.eqb _ _); [|done]. injection M as M%bool_decide_eq_true. by apply utf8_inj.
  - destruct (_ <? 0); [done|]. rewrite K in V. done.
Qed.

(** C30: a code serves once, for challenges that run one after the other: after a challenge
    that passes, the factor holds the step of its code, and in every world that still has
    the factors it left no code of that step or an earlier one passes again; in particular
    the same code fails at every later clock whose window still holds its step. Of two
    challenges in flight together both can pass: [code_spent_twice]. *)
Theorem code_serves_once `{!CryptoLaws} (w w2 : IdentityWorld S L) (id : number) (code : string) :
  (run (runTotpChallenge self id code) w).2 = Ok tt -> factors (db w2) = factors (db (run (runTotpChallenge self id code) w).1) ->
  exists factor step, accepts_totp w id code factor step /\
    (forall code2 step2, verifyTotpStep (int (clock w2)) (f_secret factor) code2 plain_totp = Ok (Some step2) -> step2 <= step ->
       exists e, (run (runTotpChallenge self id code2) w2).2 = Throw e) /\
    (forall key base, base32Decode (f_secret factor) = Some key -> whole (counterFor (int (clock w2)) DEFAULT_TIME_STEP_SECONDS) = Some base ->
       1 <= base < 18446744073709551615 -> base - 1 <= step <= base + 1 -> exists e, (run (runTotpChallenge self id code) w2).2 = Throw e).
Proof.
  intros R F. pose proof (totp_challenge id code w) as T. destruct (run (runTotpChallenge self id code) w) as [w' r]; cbn [fst snd] in *; subst r.
  destruct T as (factor & step & A & D & _). pose proof A as (A1 & A2 & A3 & A4). exists factor, step. split; [done|].
  destruct (find_recorded (date w) id step (db w) factor A1) as (f' & F1 & F2 & F3 & F4).
  assert (findTotpFactor id (db w2) = Some f') as F' by (unfold findTotpFactor; rewrite F, D; exact F1).
  assert (forall code2, match run (runTotpChallenge self id code2) w2 with
     | (_, Ok _) => exists step2, verifyTotpStep (int (clock w2)) (f_secret factor) code2 plain_totp = Ok (Some step2) /\ step < step2
     | (_, Throw _) => True end) as Later.
  { intros code2. pose proof (totp_challenge id code2 w2) as T. destruct (run _ w2) as [w3 [[]|]]; [|done].
    destruct T as (f2 & step2 & (B1 & _ & B3 & B4) & _). rewrite F' in B1. injection B1 as <-. rewrite F3 in B3. rewrite F2 in B4. eauto. }
  split.
  - intros code2 step2 V Le. specialize (Later code2). destruct (run _ w2) as [w3 [[]|e]]; [|by exists e]. destruct Later as (s & V' & Lt). rewrite V in V'. injection V' as <-. lia.
  - intros key base K B Hb Hw. specialize (Later code). destruct (run _ w2) as [w3 [[]|e]]; [|by exists e]. destruct Later as (s & V' & Lt).
    pose proof (accepted_code _ _ _ _ _ _ K A3) as Hc.
    assert (0 <= the_window plain_totp <= base /\ base + the_window plain_totp < 18446744073709551616 /\ 1 <= the_digits plain_totp) as (W1 & W2 & W3)
      by (change (the_window plain_totp) with 1; change (the_digits plain_totp) with 6; clear -Hb; lia).
    change DEFAULT_TIME_STEP_SECONDS with (the_step plain_totp) in B.
    rewrite (verify_find (f_secret factor) key (int (clock w2)) base code plain_totp K B W1 W2 W3) in V'. apply Ok_inj in V'.
    pose proof (find_first (fun s => String.eqb (code_at key (the_digits plain_totp) s) code) (base - 1) 3) as G. unfold steps_around in V'. change (the_window plain_totp) with 1 in V'.
    change (Z.to_nat (2 * 1 + 1)) with 3%nat in V'. rewrite V' in G. destruct G as (_ & _ & G). specialize (G step ltac:(clear -Lt Hw; lia)). by apply String.eqb_neq in G.
Qed.
End SecondFactor.
