(* ===== verification/IdentityFlows.v ===== *)
(** * Identity: from one operation to the next

    A reset link works once and ends the sessions; a reset account signs in with its new
    password; a fresh account is registered, verified and signed in; and a decoy that
    could not be minted stays so. *)
From Stdlib Require Import QArith.
From S2P Require Import Prelude JsString JsMap JsNumber JsTime JsJson Sql Base64 NodeCrypto IpAddress Web Sessions Totp Passwords RateLimit Async Identity IdentityProps.
#[local] Open Scope string_scope.
#[local] Open Scope Z_scope.
#[local] Open Scope list_scope.

(** ** Helpers *)

Lemma find_map_same {R} (p : R -> bool) (f : R -> R) l : (forall r, p (f r) = p r) -> List.find p (map f l) = option_map f (List.find p l).
Proof. intros Hp. induction l as [|r l IH]; [done|]. cbn [map List.find]. rewrite Hp. by destruct (p r). Qed.

Lemma signed_shape `{Crypto} `{TextDecoder} lenient key clock tok claim :
  verify_signed lenient key clock tok = Some claim -> exists e, split SEPARATOR tok = [e; hmac_hex e key].
Proof.
  unfold verify_signed. destruct (split SEPARATOR tok) as [|e [|sig [|]]]; try done. unfold signaturesMatch, sign.
  destruct (same_bytes sig (hmac_hex e key)) eqn:M; cbn [negb]; [|done]. apply same_bytes_eq in M as ->. by exists e.
Qed.

Lemma decimal_nonempty n : safe_id n -> decimal_of n <> EmptyString.
Proof. intros Hn. destruct (digits_in_spec 10 n) as (k & E & _); [lia|unfold safe_id in Hn; lia|]. intros D. unfold decimal_of in D. by rewrite D in E. Qed.

Section Flows.
Context `{Crypto} `{TextDecoder} `{Rounding} {S L : Type} `{!SessionStore S} `{!RateLimitStore L}.
Context (lenient_decode : string -> list Z) (random : nat -> list Z) (self : Identity S).
Implicit Types w : IdentityWorld S L.

(** The key of a reset link, while the account has that hash. *)
Definition reset_key (passwordHash : string) : string := String.append (o_secret (options self)) (String.append ":reset_password:" passwordHash).

(** The store after the revocation the options ask for. *)
Definition revoked (user : User) (s : S) : S :=
  match o_deleteByUserId (options self) with Some deleteByUserId => deleteByUserId (id_text user) s | None => s end.

(** The hook, when there is one, does not fail. *)
Definition hook_ok : Prop := forall hook u, o_revokeUserSessions (options self) = Some hook -> hook u = Ok tt.

Lemma announced_fields e w : db (announced self e w) = db w /\ store (announced self e w) = store w /\ clock (announced self e w) = clock w.
Proof. unfold announced. by destruct (o_onEvent _). Qed.

Lemma has_id_inj n a b : has_id n a = true -> has_id n b = true -> a = b.
Proof.
  unfold has_id, num_eq, int, same_value. pose proof one_pos. destruct n; try done.
  - rewrite !Z.eqb_eq. nia.
  - intros [= Ea]%bool_decide_eq_true [= Eb]%bool_decide_eq_true. nia.
Qed.

(** The account a link names, when the link is good. *)
Definition link_ok (w : IdentityWorld S L) (token : string) (user : User) (e : string) : Prop :=
  exists outer signed, unpackResetToken token = Some (outer, signed) /\ findUserById (Number_of_string outer) (db w) = Some user /\
    split SEPARATOR signed = [e; hmac_hex e (reset_key (u_passwordHash user))].

Lemma run_reset w token new :
  hook_ok ->
  match run (resetPassword lenient_decode random self token new) w with
  | (w', Ok _) => exists user e salt h, link_ok w token user e /\ (hash_password (hasher self) salt new).2 = Ok h /\
      db w' = setPasswordHash (date w) (int (u_id user)) h (db w) /\ store w' = revoked user (store w)
  | (w', Throw _) => db w' = db w /\ store w' = store w
  end.
Proof.
  intros Hk. unfold resetPassword. rewrite run_bind, run_lift. destruct (assertValidPassword new) as [[]|]; [|done].
  destruct (unpackResetToken token) as [[outer signed]|] eqn:P; [|done]. rewrite run_bind, run_reading.
  destruct (findUserById _ _) as [user|] eqn:U; [|done]. rewrite run_bind, run_lift.
  destruct (resetSigner _ _) as [key|] eqn:K; [|done]. rewrite run_bind, run_now.
  assert (key = reset_key (u_passwordHash user)) as ->.
  { unfold resetSigner, signedSessions in K. destruct (Sessions.assertStrongSecret _); [|done]. by injection K as <-. }
  destruct (verify_signed _ _ _ signed) as [claim|] eqn:V; [|done]. destruct (String.eqb _ _); [|done].
  apply signed_shape in V as (e & V). assert (link_ok w token user e) as LK by (by exists outer, signed).
  rewrite run_bind, run_hash. destruct (hash_password _ _ _).2 as [h|] eqn:Hh; [|done].
  rewrite run_bind, run_updating. rewrite run_bind. emits. rewrite run_bind.
  match goal with |- context [announced self ?e ?v] => destruct (announced_fields e v) as (A1 & A2 & _); set (w1 := announced self e v) in * end.
  assert (forall w2, db w2 = db w1 -> store w2 = revoked user (store w1) ->
    match run (bind (match o_revokeUserSessions (options self) with
                     | Some hook => bind (modify (logged [Revokes (id_text user)])) (fun _ => lift (hook (id_text user)))
                     | None => ret tt end)
                (fun _ => ret (mkUser (u_id user) (u_email user) h (u_emailVerifiedAt user) (u_createdAt user) (u_updatedAt user)))) w2 with
    | (w', Ok _) => exists user e salt h, link_ok w token user e /\ (hash_password (hasher self) salt new).2 = Ok h /\
        db w' = setPasswordHash (date w) (int (u_id user)) h (db w) /\ store w' = revoked user (store w)
    | (w', Throw _) => db w' = db w /\ store w' = store w end) as Tail.
  { intros w2 D2 S2. rewrite run_bind. rewrite A1 in D2. rewrite A2 in S2. destruct (o_revokeUserSessions (options self)) as [hook|] eqn:Ho.
    - rewrite run_bind, run_modify, run_lift. rewrite (Hk hook) by done. rewrite run_ret. exists user, e, (random (drawn w)), h. done.
    - rewrite !run_ret. exists user, e, (random (drawn w)), h. done. }
  destruct (o_deleteByUserId (options self)) as [del|] eqn:Hd.
  - rewrite run_bind, run_modify. emits. match goal with |- context [announced self ?e ?v] => destruct (announced_fields e v) as (B1 & B2 & _); set (w2 := announced self e v) in * end.
    apply Tail; [exact B1|]. rewrite B2. unfold revoked. by rewrite Hd.
  - rewrite run_ret. apply Tail; [done|]. unfold revoked. by rewrite Hd.
Qed.

(** C32: a reset link works once: a reset that succeeds presented a link signed with the key
    that binds the account's hash of the moment; it replaces that account's hash by one of
    the new password and nothing else in the tables, and ends the account's sessions where
    the store has a [deleteByUserId] (without one they live on); from then on the same link
    fails in every state in which no hash of the account signs the link's text as the old one
    did. A reset that fails leaves tables and sessions as they were. The hook that revokes
    sessions elsewhere, if there is one, does not throw ([hook_ok]). *)
Theorem reset_link_works_once (w : IdentityWorld S L) (token new : string) :
  hook_ok ->
  let w' := (run (resetPassword lenient_decode random self token new) w).1 in
  match (run (resetPassword lenient_decode random self token new) w).2 with
  | Ok _ => exists user e salt h, link_ok w token user e /\ (hash_password (hasher self) salt new).2 = Ok h /\
      db w' = setPasswordHash (date w) (int (u_id user)) h (db w) /\ store w' = revoked user (store w) /\
      (forall row, In row (users (db w')) -> u_id row = u_id user -> u_passwordHash row = h) /\
      forall w2 new2,
        (forall row, In row (users (db w2)) -> u_id row = u_id user -> hmac_hex e (reset_key (u_passwordHash row)) <> hmac_hex e (reset_key (u_passwordHash user))) ->
        exists err, (run (resetPassword lenient_decode random self token new2) w2).2 = Throw err
  | Throw _ => db w' = db w /\ store w' = store w
  end.
Proof.
  intros Hk. cbv zeta. pose proof (run_reset w token new Hk) as R. destruct (run (resetPassword lenient_decode random self token new) w) as [w' [r|e]]; cbn [fst snd] in *; [|done].
  destruct R as (user & e & salt & h & LK & Hh & D & St). exists user, e, salt, h. split; [done|]. split; [done|]. split; [done|]. split; [done|]. split.
  { rewrite D. cbn [setPasswordHash users set_users update_where fst]. intros row (u & <- & _)%in_map_iff Eid.
    destruct (has_id (int (u_id user)) (u_id u)) eqn:Hid; [done|]. by rewrite has_id_int, Eid, Z.eqb_refl in Hid. }
  intros w2 new2 N. pose proof (run_reset w2 token new2 Hk) as R. destruct (run (resetPassword lenient_decode random self token new2) w2) as [w3 [r2|err]]; [|by exists err].
  destruct R as (user2 & e2 & _ & _ & (outer2 & signed2 & P2 & F2 & V2) & _). destruct LK as (outer & signed & P & F & V). rewrite P in P2. injection P2 as <- <-.
  rewrite V in V2. injection V2 as <- V2. exfalso. apply List.find_some in F as [_ F], F2 as [F2 F3].
  apply (N user2 F2); [by eapply has_id_inj|]. by rewrite V2.
Qed.

(** ** Links *)

(** What the round trips ask of the platform and the options: the lenient decoder reads what
    the encoder wrote; the secret is as long as [createIdentity] asks; hashes are minted and
    verify for their password; the mailer takes what it is given. *)
Class Usable : Prop := {
  reads_back bytes : List.Forall is_byte bytes -> lenient_decode (base64urlEncode bytes) = bytes;
  strong_secret : 32 <= byteLength (o_secret (options self));
  hash_total salt pw : exists h, (hash_password (hasher self) salt pw).2 = Ok h;
  hash_verifies salt pw h : (hash_password (hasher self) salt pw).2 = Ok h -> (verify_password (hasher self) pw h).2 = Ok true;
  mailer_takes m : o_mailer (options self) m = Ok tt
}.

Lemma strong_extended rest : 32 <= byteLength (o_secret (options self)) -> signedSessions (String.append (o_secret (options self)) rest) = Ok (String.append (o_secret (options self)) rest).
Proof.
  intros Hs. unfold signedSessions, Sessions.assertStrongSecret. rewrite (proj2 (Z.ltb_ge _ _)); [done|]. unfold byteLength, Sessions.MIN_SECRET_BYTES in *.
  rewrite utf8_app, length_app. lia.
Qed.

Lemma unpack_packed id signed : safe_id id -> signed <> EmptyString -> unpackResetToken (packResetToken (decimal_of id) signed) = Some (decimal_of id, signed).
Proof.
  intros Hi Hs. unfold unpackResetToken, packResetToken. change (String.append (decimal_of id) (String.append "." signed)) with (String.append (decimal_of id) (String "." signed)).
  rewrite cut_app by by apply decimal_has_no. apply decimal_nonempty in Hi. by rewrite !(proj2 (String.eqb_neq _ _)).
Qed.

Lemma append_cons_nonempty a c b : String.append a (String c b) <> EmptyString.
Proof. by destruct a. Qed.

(** The mail a request sends. *)
Lemma run_request w email user :
  Usable -> findUserByEmail (normalizeEmail email) (db w) = Some user ->
  let token := packResetToken (id_text user) (issue (reset_key (u_passwordHash user)) (int (clock w)) (id_text user) (int (resetTtlMs self))) in
  run (requestPasswordReset self email) w = (logged [Mails (mkMail PasswordResetEmail (normalizeEmail email) (o_resetUrl (options self) token) token)] w, Ok tt).
Proof.
  intros Us U. cbv zeta. unfold requestPasswordReset. rewrite run_bind, run_reading, U. rewrite run_bind, run_lift. unfold resetSigner.
  rewrite strong_extended by apply strong_secret. rewrite run_bind, run_now. unfold sends. rewrite run_bind, run_modify, run_lift. by rewrite mailer_takes.
Qed.

(** C34: a reset restores access: for an address with an account, a request mails one link,
    and in whatever state the account still has that row and the link is in date, the link
    sets any password of an allowed length; from then on the address and the new password
    are the first factor of that account. *)
Theorem reset_restores_access `{!CryptoLaws} `{!TextDecoderLaw} (w : IdentityWorld S L) (email new : string) (user : User) :
  Usable -> hook_ok -> findUserByEmail (normalizeEmail email) (db w) = Some user -> safe_id (u_id user) ->
  (requireVerifiedEmail self = true -> isEmailVerified user = true) -> assertValidPassword new = Ok tt ->
  number_prints (num_add (int (clock w)) (int (resetTtlMs self))) = true ->
  exists url token, run (requestPasswordReset self email) w = (logged [Mails (mkMail PasswordResetEmail (normalizeEmail email) url token)] w, Ok tt) /\
    forall w2, findUserByEmail (normalizeEmail email) (db w2) = Some user -> findUserById (int (u_id user)) (db w2) = Some user ->
      num_ge (int (clock w2)) (num_add (int (clock w)) (int (resetTtlMs self))) = false ->
      exists w3 user3, run (resetPassword lenient_decode random self token new) w2 = (w3, Ok user3) /\ u_id user3 = u_id user /\
        exists row, first_factor self w3 email new row /\ u_id row = u_id user.
Proof.
  intros Us Hk U Si Ve Va Pr. pose proof (run_request w email user Us U) as Rq. cbv zeta in Rq.
  set (token := packResetToken _ _) in *. exists (o_resetUrl (options self) token), token. split; [exact Rq|]. intros w2 U2 I2 G.
  pose proof (run_reset w2 token new Hk) as R.
  assert (exists w3 r, run (resetPassword lenient_decode random self token new) w2 = (w3, Ok r) /\ u_id r = u_id user) as (w3 & r & E & Er).
  { unfold resetPassword. rewrite run_bind, run_lift, Va. unfold token, id_text. rewrite unpack_packed by (done || apply append_cons_nonempty).
    rewrite run_bind, run_reading, Number_decimal by done. rewrite I2. rewrite run_bind, run_lift. unfold resetSigner. rewrite strong_extended by apply strong_secret.
    rewrite run_bind, run_now. fold (reset_key (u_passwordHash user)). rewrite (issue_verifies lenient_decode) by (apply reads_back || done). rewrite G. cbn [claim_userId].
    rewrite String.eqb_refl. rewrite run_bind, run_hash. destruct (hash_total (random (drawn w2)) new) as [h ->].
    rewrite run_bind, run_updating. rewrite run_bind. emits. rewrite run_bind. destruct (o_deleteByUserId (options self)).
    - rewrite run_bind, run_modify. emits. rewrite run_bind. destruct (o_revokeUserSessions (options self)) as [hook|] eqn:Ho.
      + rewrite run_bind, run_modify, run_lift. rewrite (Hk hook) by done. eauto.
      + rewrite !run_ret. eauto.
    - rewrite run_ret. rewrite run_bind. destruct (o_revokeUserSessions (options self)) as [hook|] eqn:Ho.
      + rewrite run_bind, run_modify, run_lift. rewrite (Hk hook) by done. eauto.
      + rewrite !run_ret. eauto. }
  rewrite E in R. exists w3, r. split; [done|]. split; [done|].
  destruct R as (user' & e & salt & h & (outer & signed & P & F & V) & Hh & D & _). unfold token, id_text in P.
  rewrite unpack_packed in P by (done || apply append_cons_nonempty). injection P as <- <-. rewrite Number_decimal, I2 in F by done. injection F as <-.
  exists (with_hash (date w2) h user). split; [|done]. split.
  - rewrite D. unfold findUserByEmail, setPasswordHash. cbn [users set_users update_where fst]. rewrite find_map_same.
    + unfold findUserByEmail in U2. rewrite U2. cbn [option_map]. by rewrite has_id_int, Z.eqb_refl.
    + intros u. by destruct (has_id _ _).
  - split; [cbn; by apply (hash_verifies salt)|exact Ve].
Qed.

(** ** A fresh account *)

Definition verified (atIso updated : string) (u : User) : User := mkUser (u_id u) (u_email u) (u_passwordHash u) (Some atIso) (u_createdAt u) updated.

Lemma find_fresh {R} (p : R -> bool) l x : (forall r, In r l -> p r = false) -> p x = true -> List.find p (l ++ [x]) = Some x.
Proof. intros N Px. induction l as [|r l IH]; cbn [app List.find]; [by rewrite Px|]. rewrite N by (by left). apply IH. intros; apply N; by right. Qed.

Lemma find_none_all {R} (p : R -> bool) l : List.find p l = None -> forall r, In r l -> p r = false.
Proof. intros F r Hr. by eapply List.find_none. Qed.

(** What a registration of a free address leaves. *)
Lemma run_register w email pw :
  Usable -> assertValidEmail email = Ok tt -> assertValidPassword pw = Ok tt -> findUserByEmail (normalizeEmail email) (db w) = None ->
  exists h w1, let user := mkUser (users_seq (db w) + 1) (normalizeEmail email) h None (toISOString (date w)) (toISOString (date w)) in
    let token := issue (verifyTokens self) (int (clock w)) (id_text user) (int (verificationTtlMs self)) in
    (exists salt, (hash_password (hasher self) salt pw).2 = Ok h) /\
    run (register random self email pw) w = (w1, Ok (Some user)) /\ users (db w1) = users (db w) ++ [user] /\
    In (Mails (mkMail VerificationEmail (normalizeEmail email) (o_verificationUrl (options self) token) token)) (trace w1).
Proof.
  intros Us Ve Vp N. unfold register. rewrite !run_bind, !run_lift, Ve. rewrite run_bind, run_lift, Vp. rewrite run_bind, run_reading, N.
  rewrite run_bind, run_hash. destruct (hash_total (random (drawn w)) pw) as [h Hh]. rewrite Hh. rewrite run_bind, run_writing.
  unfold insertUser. cbn [db logged draws date]. rewrite N. cbn [fst snd]. rewrite run_bind, run_now. unfold sends. rewrite !run_bind, run_modify, run_lift. rewrite mailer_takes.
  rewrite run_ret. exists h. eexists. cbv zeta. split; [eauto|]. split; [reflexivity|]. split; [done|]. cbn. apply in_or_app. right. by left.
Qed.

(** C35: an account is born: registering a free address mails one link and answers the new
    account; where verification is required its owner is not yet let in; in whatever state
    the row is as it was and the link is in date, the link verifies it, and from then on
    the address and the password are the first factor of that account. *)
Theorem account_is_born `{!CryptoLaws} `{!TextDecoderLaw} (w : IdentityWorld S L) (email pw : string) :
  Usable -> assertValidEmail email = Ok tt -> assertValidPassword pw = Ok tt -> findUserByEmail (normalizeEmail email) (db w) = None ->
  (forall u, In u (users (db w)) -> u_id u <= users_seq (db w)) -> safe_id (users_seq (db w) + 1) ->
  number_prints (num_add (int (clock w)) (int (verificationTtlMs self))) = true ->
  exists w1 user url token, run (register random self email pw) w = (w1, Ok (Some user)) /\
    In (Mails (mkMail VerificationEmail (normalizeEmail email) url token)) (trace w1) /\
    (requireVerifiedEmail self = true -> forall row, ~ first_factor self w1 email pw row) /\
    forall w2, users (db w2) = users (db w1) -> num_ge (int (clock w2)) (num_add (int (clock w)) (int (verificationTtlMs self))) = false ->
      exists w3 user3, run (verifyEmail lenient_decode self token) w2 = (w3, Ok user3) /\ isEmailVerified user3 = true /\
        exists row, first_factor self w3 email pw row /\ u_id row = u_id user.
Proof.
  intros Us Ve Vp N Ids Si Pr. destruct (run_register w email pw Us Ve Vp N) as (h & w1 & (salt & Hh) & R & U1 & M). cbv zeta in R, U1, M.
  set (user := mkUser (users_seq (db w) + 1) _ h None _ _) in *. set (token := issue _ _ _ _) in *.
  exists w1, user, (o_verificationUrl (options self) token), token. split; [exact R|]. split; [exact M|].
  assert (findUserByEmail (normalizeEmail email) (db w1) = Some user) as F1.
  { unfold findUserByEmail. rewrite U1. apply find_fresh; [by apply find_none_all|apply String.eqb_refl]. }
  split; [intros Rq row (F & _ & V); rewrite F1 in F; injection F as <-; specialize (V Rq); done|].
  intros w2 U2 G. unfold verifyEmail. rewrite run_bind, run_now. unfold token. rewrite (issue_verifies lenient_decode) by (apply reads_back || done). rewrite G. cbn [claim_userId].
  rewrite run_bind, run_reading. unfold id_text. rewrite Number_decimal by exact Si.
  assert (findUserById (int (u_id user)) (db w2) = Some user) as F2.
  { unfold findUserById. rewrite U2, U1. apply find_fresh; [|rewrite has_id_int; apply Z.eqb_refl].
    intros u Hu. rewrite has_id_int. apply Z.eqb_neq. specialize (Ids u Hu). cbn. lia. }
  change (users_seq (db w) + 1) with (u_id user). rewrite F2. change (isEmailVerified user) with false. cbv iota. rewrite run_bind, run_date. rewrite run_bind, run_updating. rewrite run_bind. emits. rewrite run_ret.
  match goal with |- context [announced self ?e ?v] => destruct (announced_fields e v) as (A1 & _); set (w3 := announced self e v) in * end.
  eexists w3, _. split; [reflexivity|]. split; [done|].
  exists (verified (toISOString (date w2)) (toISOString (date w2)) user). split; [|done]. split; [|split; [cbn; by apply (hash_verifies salt)|done]].
  rewrite A1. cbn [db set_db]. unfold findUserByEmail, markEmailVerified. cbn [users set_users update_where fst]. rewrite find_map_same.
  - unfold findUserByEmail in F1. rewrite U2, F1. cbn [option_map]. by rewrite has_id_int, Z.eqb_refl.
  - intros u. by destruct (has_id _ _).
Qed.

(** ** A session *)

(** Fact: a session names its account until it ends: over any store that keeps the interface's
    laws, the token of a session saved for an account answers the account while it is in
    date, nothing from its expiry on, and nothing after a logout, which leaves every other
    token's session alone. *)
Theorem session_names_its_account (known : string -> Prop) (ok : S -> Prop) `{!SessionStoreLaws S known ok} (w : IdentityWorld S L) (session : Session) (user : User) :
  ok (store w) -> known (Sessions.token session) -> Sessions.find (Sessions.token session) (store w) = Some session ->
  userId session = id_text user -> safe_id (u_id user) -> findUserById (int (u_id user)) (db w) = Some user ->
  (run (currentUser (Some (Sessions.token session))) w).2 = Ok (if expiresAt session <=? clock w then None else Some user) /\
  (forall w2, db w2 = db w -> clock w <= clock w2 -> store w2 = store (run (logout self (Some (Sessions.token session))) w).1 ->
     (run (currentUser (Some (Sessions.token session))) w2).2 = Ok None /\
     forall t, known t -> t <> Sessions.token session -> Sessions.find t (store w2) = Sessions.find t (store w)).
Proof.
  intros Hok Kn F E Si U. split.
  - unfold currentUser. rewrite run_bind, run_sessions_verify. unfold verify. rewrite F. destruct (_ <=? _) eqn:X; cbn [fst snd]; [done|].
    rewrite run_reading. cbn [db set_store]. unfold id_text in E. by rewrite E, Number_decimal, U by done.
  - intros w2 D2 C2 S2.
    assert (forall w0, ok (store w0) -> ok (store (run (logout self (Some (Sessions.token session))) w0).1) /\
      forall t, known t -> Sessions.find t (store (run (logout self (Some (Sessions.token session))) w0).1) = if String.eqb t (Sessions.token session) then None else Sessions.find t (store w0)) as Lo.
    { intros w0 Ho. unfold logout. rewrite run_bind. destruct (o_onEvent (options self)).
      - rewrite run_sessions_verify. rewrite run_bind, run_sessions_revoke. unfold verify.
        assert (forall e (v : IdentityWorld S L), store (run (match e with Some s => emit self (SessionRevoked (userId s)) | None => ret tt end) v).1 = store v) as Em.
        { intros [s|] v; [|done]. emits. by destruct (announced_fields (SessionRevoked (userId s)) v) as (_ & ? & _). }
        rewrite Em. cbn [store set_store revoke]. destruct (Sessions.find _ (store w0)) as [s0|] eqn:F0; [destruct (_ <=? _)|]; cbn [fst]; unfold revoke.
        + split; [by apply delete_ok, delete_ok|]. intros t Kt. rewrite !find_delete by (done || by apply delete_ok). by destruct (String.eqb t _).
        + split; [by apply delete_ok|]. intros t Kt. by rewrite find_delete by done.
        + split; [by apply delete_ok|]. intros t Kt. by rewrite find_delete by done.
      - rewrite run_ret. rewrite run_bind, run_sessions_revoke. rewrite run_ret. cbn [fst store set_store]. unfold revoke.
        split; [by apply delete_ok|]. intros t Kt. by rewrite find_delete by done. }
    destruct (Lo w Hok) as [_ Lf]. rewrite <- S2 in Lf. split.
    + unfold currentUser. rewrite run_bind, run_sessions_verify. unfold verify. rewrite (Lf _ Kn), String.eqb_refl. done.
    + intros t Kt Nt. rewrite (Lf t Kt). by rewrite (proj2 (String.eqb_neq _ _)).
Qed.

(** ** A decoy that was not minted *)

(** Fact: a decoy whose minting failed once stays failed: every later login of an address
    with no account throws that failure, and takes nothing from its bucket. *)
Theorem failed_decoy_sticks (w : IdentityWorld S L) (email pw : string) (e : JsThrown) :
  decoy w = Some (Throw e) -> findUserByEmail (normalizeEmail email) (db w) = None -> unthrottled self w (login_key (normalizeEmail email)) ->
  run (login random self email pw) w = ((run (assertLoginNotThrottled self (login_key (normalizeEmail email))) w).1, Throw e).
Proof.
  intros D N U. apply admission_iff in U. pose proof (run_login random self email pw w) as E. cbv zeta in E. rewrite N in E.
  assert (decoy (run (assertLoginNotThrottled self (login_key (normalizeEmail email))) w).1 = decoy w) as Dw.
  { unfold assertLoginNotThrottled. destruct (loginRateLimiter self) as [p|]; [|done]. rewrite run_bind, run_check_login.
    destruct (store_thrown _) as [peek|]; [|done]. destruct (_ <? _); [|done]. rewrite run_bind, run_check_login. destruct (store_thrown _); [|done].
    rewrite run_bind. emits. unfold announced. by destruct (o_onEvent _). }
  destruct (run (assertLoginNotThrottled self _) w) as [w1 [[]|e1]]; cbn [fst snd] in *; [|done]. rewrite E. unfold failLogin. rewrite run_bind, run_dummyHash.
  unfold decoyed, decoy_of. by rewrite Dw, D.
Qed.
End Flows.
