(* ===== verification/IdentityRaces.v ===== *)
(** * Identity: operations in flight

    What holds however the operations interleave: a recovery code serves one challenge, and
    a login never changes which password an account has. What does not: two challenges in
    flight can spend one time-based code, and logins in flight can outrun their bucket. *)
From Stdlib Require Import QArith.
From S2P Require Import Prelude JsString JsMap JsNumber JsTime JsJson Sql Base64 NodeCrypto Web Sessions Totp Passwords RateLimit RateLimitSpec Async Identity IdentityProps IdentityFlows.
#[local] Open Scope string_scope.
#[local] Open Scope Z_scope.
#[local] Open Scope list_scope.

(** ** Recovery codes *)

Section Recovery.
Context `{Crypto} `{TextDecoder} `{Rounding} {S L : Type} `{!SessionStore S} `{!RateLimitStore L}.
Context (random : nat -> list Z) (self : Identity S).
Implicit Types w : IdentityWorld S L.

Definition unused_count w : nat := length (List.filter unused (codes (db w))).
Definition same_codes w w' : Prop := codes (db w') = codes (db w).

(** A program that claims a code before it comes to a [good] result, and changes no code
    otherwise. *)
Fixpoint pays {A} (good : A -> bool) (p : Prog (IdentityWorld S L) A) : Prop :=
  match p with
  | Done (Ok a) => good a = false
  | Done (Throw _) => True
  | Atom X f k => forall w,
      same_codes w (f w).1 /\ pays good (k (f w).2) \/
      (unused_count (f w).1 < unused_count w)%nat /\ guarantees same_codes (k (f w).2)
  end.

Lemma pays_after {A B} (good : B -> bool) (p : Prog (IdentityWorld S L) A) (k : A -> Prog (IdentityWorld S L) B) :
  guarantees same_codes p -> (forall a, pays good (k a)) -> pays good (bind p k).
Proof.
  intros Hp Hk. induction p as [[a|e]|X f k' IH]; [apply Hk|done|]. cbn in *. intros w. destruct (Hp w). left. split; [done|]. by apply IH.
Qed.

Lemma pays_before {A B} (good : A -> bool) (good' : B -> bool) (p : Prog (IdentityWorld S L) A) (k : A -> Prog (IdentityWorld S L) B) :
  pays good p -> (forall a, guarantees same_codes (k a)) -> (forall a, good a = false -> pays good' (k a)) -> pays good' (bind p k).
Proof.
  intros Hp Hs Hk. induction p as [[a|e]|X f k' IH]; [by apply Hk|done|]. cbn in *. intros w. destruct (Hp w) as [[Hc Hd]|[Hc Hd]].
  - left. split; [done|]. by apply IH.
  - right. split; [done|]. by apply guarantees_bind.
Qed.

Lemma claim_counts date id (d : Tables) :
  (markRecoveryCodeUsed date id d).2 = true ->
  (length (List.filter unused (codes (markRecoveryCodeUsed date id d).1)) < length (List.filter unused (codes d)))%nat.
Proof.
  unfold markRecoveryCodeUsed. set (mark := fun c => mkCode _ _ _ _ _).
  pose proof (changes_pos (fun c => (c_id c =? id) && unused c) mark (codes d)) as E. destruct (update_where _ _ _) as [t changes] eqn:U.
  cbn [fst snd] in *. intros C. rewrite C in E. symmetry in E. injection U as <- _. cbn [codes set_codes].
  assert (forall l : list RecoveryCode, (length (List.filter unused (map (fun r => if Z.eqb (c_id r) id && unused r then mark r else r) l)) <= length (List.filter unused l))%nat) as Le.
  { induction l as [|c l IH]; [done|]. cbn [map List.filter]. destruct (_ && _) eqn:P.
    - apply andb_true_iff in P as [_ P]. rewrite P. cbn. lia.
    - destruct (unused c); cbn; lia. }
  induction (codes d) as [|c l IH]; [done|]. cbn [existsb] in E. cbn [map List.filter]. destruct (_ && _) eqn:P.
  - apply andb_true_iff in P as [_ P]. rewrite P. specialize (Le l). cbn. lia.
  - specialize (IH E). destruct (unused c); cbn; lia.
Qed.

Lemma same_derive {A} (d : Derived A) : guarantees same_codes (derive (S := S) (L := L) d).
Proof. unfold derive. walk. Qed.
Lemma same_check_totp p key cost : guarantees same_codes (check_totp (S := S) (L := L) p key cost).
Proof. unfold check_totp. apply guarantees_bind; [|walk]. cbn. intros w. split; [|done]. by destruct (check _ _ _ _ _ _). Qed.

Lemma same_penalty {A} id e : guarantees same_codes (bind (penalizeTotp (S := S) (L := L) self id) (fun _ => @throw _ A e)).
Proof. apply guarantees_bind; [|done]. unfold penalizeTotp. walk. apply same_check_totp. Qed.

Lemma penalty_pays id e : pays (fun _ : unit => true) (bind (penalizeTotp self id) (fun _ => throw e)).
Proof. apply pays_after; [|done]. unfold penalizeTotp. walk. apply same_check_totp. Qed.

Lemma try_pays code cands : pays (fun claimed => claimed) (tryCodes self code cands).
Proof.
  induction cands as [|c cands IH]; [done|]. cbn [tryCodes]. apply pays_after; [apply guarantees_attempt, same_derive|]. intros [[]|e]; [|exact IH|by destruct (hasCode e _)].
  unfold writing, atomic. cbn [pays]. intros w. destruct (markRecoveryCodeUsed (date w) (c_id c) (db w)) as [d a] eqn:M. cbn [fst snd]. destruct a.
  - right. split; [|done]. pose proof (claim_counts (date w) (c_id c) (db w)) as Q. rewrite M in Q. by apply Q.
  - left. split; [|done]. pose proof (mark_lost (date w) (c_id c) (db w)) as Q. rewrite M in Q. cbn [fst snd] in Q. unfold same_codes. cbn [db set_db]. by rewrite (Q eq_refl).
Qed.

Lemma recovery_pays id code : pays (fun _ => true) (runRecoveryChallenge self id code).
Proof.
  unfold runRecoveryChallenge. apply pays_after; [unfold assertTotpNotThrottled; walk; apply same_check_totp|].
  intros _. apply pays_after; [by cbn|]. intros cands. apply (pays_before (fun claimed => claimed)); [apply try_pays|..].
  - intros []; [done|apply same_penalty].
  - intros [] Hg; [done|apply penalty_pays].
Qed.

Definition succeeded {A} (p : Prog (IdentityWorld S L) A) : bool := match p with Done (Ok _) => true | _ => false end.

(** What one program in flight stands at: past its claim, or before it. *)
Definition stands (paid : bool) (p : Prog (IdentityWorld S L) unit) : Prop := if paid then guarantees same_codes p else pays (fun _ => true) p.

Lemma stands_count bs ps : Forall2 stands bs ps -> (length (List.filter succeeded ps) <= length (List.filter (fun b : bool => b) bs))%nat.
Proof.
  induction 1 as [|b p bs ps Hs _ IH]; [done|]. cbn [List.filter]. destruct (succeeded p) eqn:E; destruct b; cbn; try lia.
  destruct p as [[]|]; done.
Qed.

Definition true_count (bs : list bool) : nat := length (List.filter (fun b : bool => b) bs).

Lemma true_count_app bs bs' : true_count (bs ++ bs') = (true_count bs + true_count bs')%nat.
Proof. unfold true_count. by rewrite List.filter_app, length_app. Qed.

(** C5: a recovery code serves one challenge: however challenges interleave, of one account
    or of many, with each other and with anything that issues no codes, as many of them
    succeed as there are codes that were unused before and are used now, at most. *)
Theorem recovery_codes_serve_once (environment : IdentityWorld S L -> IdentityWorld S L -> Prop) (calls : list (number * string)) (w0 w : IdentityWorld S L)
    (ps : list (Prog (IdentityWorld S L) unit)) :
  (forall v v', environment v v' -> (unused_count v' <= unused_count v)%nat) ->
  steps environment (w0, map (fun c => runRecoveryChallenge self c.1 c.2) calls) (w, ps) ->
  (length (List.filter succeeded ps) + unused_count w <= unused_count w0)%nat.
Proof.
  intros HE St. set (start := (w0, map _ calls)) in *.
  assert (forall s, steps environment start s -> exists bs, Forall2 stands bs s.2 /\ (true_count bs + unused_count s.1 <= unused_count w0)%nat) as Inv;
    [|destruct (Inv _ St) as (bs & F & Le); pose proof (stands_count bs ps F); cbn [fst] in Le; unfold true_count in Le; lia].
  clear w ps St. intros s St. induction St as [|s s' St IH Sp].
  - exists (map (fun _ => false) calls). cbn [start fst snd]. split.
    + clear. induction calls as [|c cs IHc]; cbn [map]; constructor; [apply recovery_pays|exact IHc].
    + unfold true_count. replace (List.filter _ _) with (@nil bool); [cbn; lia|]. symmetry. clear. induction calls; done.
  - destruct IH as (bs & F & Le). destruct Sp as [v before X f k after|v v' ps' E]; cbn [fst snd] in *.
    + apply Forall2_app_inv_r in F as (b1 & b2 & F1 & F2 & ->). inversion F2 as [|b p b3 ? Hs F3]; subst. destruct b; cbn [stands guarantees pays] in Hs.
      * destruct (Hs v) as [Hc Hk]. exists (b1 ++ true :: b3). split; [apply Forall2_app; [done|by constructor]|]. unfold same_codes in Hc. unfold unused_count in *. by rewrite Hc.
      * destruct (Hs v) as [[Hc Hk]|[Hc Hk]].
        -- exists (b1 ++ false :: b3). split; [apply Forall2_app; [done|by constructor]|]. unfold same_codes in Hc. unfold unused_count in *. by rewrite Hc.
        -- exists (b1 ++ true :: b3). split; [apply Forall2_app; [done|by constructor]|]. rewrite true_count_app in *. cbn in *. lia.
    + exists bs. split; [done|]. specialize (HE v v' E). lia.
Qed.
End Recovery.

(** ** Upgrades of the hash *)

Section Upgrades.
Context `{Crypto} `{TextDecoder} `{Rounding} {S L : Type} `{!SessionStore S} `{!RateLimitStore L}.
Context (random : nat -> list Z) (self : Identity S).
Implicit Types w : IdentityWorld S L.

(** The row as it was, or with another hash of the password its hash verified. *)
Definition rehashed_for (pw : string) (u u' : User) : Prop :=
  u' = u \/
  (verify_password (hasher self) pw (u_passwordHash u)).2 = Ok true /\
  exists salt date, (hash_password (hasher self) salt pw).2 = Ok (u_passwordHash u') /\ u' = with_hash date (u_passwordHash u') u.

Definition upgrades (pw : string) w w' : Prop := List.Forall2 (rehashed_for pw) (users (db w)) (users (db w')).

Lemma upgrades_same pw w w' : users (db w') = users (db w) -> upgrades pw w w'.
Proof. unfold upgrades. intros ->. induction (users (db w)); constructor; [by left|done]. Qed.

Lemma kept_upgrades {A} pw (p : Prog (IdentityWorld S L) A) : guarantees kept p -> guarantees (upgrades pw) p.
Proof. apply guarantees_impl. intros w w' (Kd & _). apply upgrades_same. by rewrite Kd. Qed.

Lemma hash_returns pw : returns (fun h => exists salt, (hash_password (hasher self) salt pw).2 = Ok h) (hash (L := L) random self pw).
Proof. unfold hash, derive. cbn. intros w _. destruct (hash_password (hasher self) (random (drawn w)) pw).2 as [h|] eqn:E; cbn; eauto. Qed.

Lemma derive_returns {A} (d : Derived A) : returns (fun a => d.2 = Ok a) (derive (S := S) (L := L) d).
Proof. unfold derive. cbn. intros _. by destruct d.2. Qed.

Lemma swap_upgrades user pw h salt :
  (verify_password (hasher self) pw (u_passwordHash user)).2 = Ok true -> (hash_password (hasher self) salt pw).2 = Ok h ->
  guarantees (upgrades pw) (writing (S := S) (L := L) (fun date => setPasswordHashIf date (int (u_id user)) h (u_passwordHash user))).
Proof.
  intros V Hh. unfold writing, atomic. cbn [guarantees]. intros w. split; [|done]. unfold setPasswordHashIf. cbn [update_where fst snd]. unfold upgrades. cbn [db set_db users set_users].
  induction (users (db w)) as [|u us IH]; [constructor|]. cbn [map]. constructor; [|exact IH]. destruct (_ && _) eqn:E; [|by left].
  apply andb_true_iff in E as [_ E%String.eqb_eq]. right. rewrite E. split; [done|]. exists salt, (date w). done.
Qed.

Lemma rehash_upgrades user pw :
  (verify_password (hasher self) pw (u_passwordHash user)).2 = Ok true -> guarantees (upgrades pw) (rehash (L := L) random self user pw).
Proof.
  intros V. unfold rehash. destruct (needs_rehash _ _); [|done]. apply guarantees_bind.
  - apply guarantees_attempt. apply (guarantees_post _ _ _ _ (kept_upgrades pw _ (kept_hash random self pw)) (hash_returns pw)).
    intros h (salt & Hh). apply guarantees_bind; [by apply (swap_upgrades user pw h salt)|]. by intros [].
  - intros [[h|]|e]; [|done|done]. apply kept_upgrades, kept_emit.
Qed.

Lemma login_upgrades email pw : guarantees (upgrades pw) (login (L := L) random self email pw).
Proof.
  unfold login. apply guarantees_bind; [apply kept_upgrades, kept_admission|]. intros _.
  apply guarantees_bind; [by cbn; intros w; split; [apply upgrades_same|]|]. intros [user|]; [|apply kept_upgrades, kept_failure].
  apply (guarantees_post _ (fun r => forall a, r = Ok a -> (verify_password (hasher self) pw (u_passwordHash user)).2 = Ok a)).
  - apply guarantees_attempt, kept_upgrades, kept_derive.
  - apply returns_attempt, derive_returns.
  - intros [[]|e] R; [|apply kept_upgrades, kept_failure|destruct (hasCode e _); [apply kept_upgrades, kept_failure|done]].
    destruct (_ && _); [done|]. apply guarantees_bind; [apply rehash_upgrades; by apply R|]. intros _.
    apply guarantees_bind; [by cbn; intros w; split; [apply upgrades_same|]|]. intros factor. destruct (match factor with Some f => _ | None => _ end).
    + by cbn; intros w; split; [apply upgrades_same|].
    + apply guarantees_bind; [|intros session; apply guarantees_bind; [apply kept_upgrades, kept_emit|done]].
      unfold sessions_create, draw. cbn. intros w. split; [by apply upgrades_same|]. intros w'. split; [by apply upgrades_same|done].
Qed.

(** C16: a login never changes which password an account has: however logins interleave with
    each other and with anything else, a stored hash that one of them replaces is a hash its
    own password verifies under, and what replaces it is a hash of that password; so an
    account whose hash no password in flight verifies under, as after a reset, keeps it. *)
Theorem login_keeps_the_password (environment : IdentityWorld S L -> IdentityWorld S L -> Prop) (logins : list (string * string)) (w0 w w' : IdentityWorld S L)
    (ps ps' : list (Prog (IdentityWorld S L) LoginResult)) :
  steps environment (w0, map (fun l => login random self l.1 l.2) logins) (w, ps) -> step (fun _ _ => False) (w, ps) (w', ps') ->
  (exists email pw, In (email, pw) logins /\ upgrades pw w w') /\
  (forall u, In u (users (db w)) -> (forall email pw, In (email, pw) logins -> (verify_password (hasher self) pw (u_passwordHash u)).2 <> Ok true) ->
     In u (users (db w'))).
Proof.
  intros St Sp.
  set (P := fun p : Prog (IdentityWorld S L) LoginResult => exists email pw, In (email, pw) logins /\ guarantees (upgrades pw) p).
  assert (True /\ List.Forall P ps) as [_ F].
  { apply (steps_invariant environment (fun _ => True) P) with (start := (w0, map (fun l => login random self l.1 l.2) logins)) (s := (w, ps)); [done| |done| |exact St].
    - intros v X f k _ (email & pw & I & G). cbn in G. destruct (G v). split; [done|]. by exists email, pw.
    - apply List.Forall_forall. cbn [snd]. intros p (l & <- & I)%in_map_iff. exists l.1, l.2. split; [by destruct l|apply login_upgrades]. }
  assert (exists email pw, In (email, pw) logins /\ upgrades pw w w') as (email & pw & I & U).
  { inversion Sp as [v before X f k after E1 E2|]; subst; [|done]. apply List.Forall_app in F as [_ F]. inversion F as [|? ? (email & pw & I & G) _]; subst.
    exists email, pw. split; [done|]. cbn in G. by destruct (G w). }
  split; [by exists email, pw|]. intros u Hu N. unfold upgrades in U. revert Hu. induction U as [|a a' l l' R _ IH]; [done|]. intros [->|Hu]; [|right; by apply IH].
  destruct R as [->|[V _]]; [by left|]. by destruct (N email pw I).
Qed.
End Upgrades.

(** ** A concrete service *)

#[local] Existing Instance toy_crypto.
#[local] Existing Instance toy_crypto_laws.
#[local] Existing Instance exact.
#[local] Instance latin : TextDecoder := decode_latin.
#[local] Instance latin_law : TextDecoderLaw := decode_latin_utf8.

(** A hasher that keeps what it is given, and a service over in-memory stores. *)
Definition plain_hasher : PasswordHasher :=
  mkHasher (fun _ pw => ([], Ok (String "h" pw))) (fun pw h => ([], Ok (String.eqb h (String "h" pw)))) (fun _ => false)
    (fun _ l => ([], Ok (map (String "h") l))) (fun c h => ([], Ok (String.eqb h (String "h" c)))).

Definition a_secret : string := "0123456789abcdef0123456789abcdef".

Definition some_options : IdentityOptions (JsMap Session) :=
  mkOptions _ a_secret (Some plain_hasher) (fun _ => Ok tt) (fun t => t) (fun t => t) None None None None None None None None None None None false.

Definition service (limiter : option Policy) : Identity (JsMap Session) :=
  mkIdentity _ some_options plain_hasher InvalidCredentials true 1000 1000 1000 1000 "v" "c" limiter limiter.

Definition open_service : Identity (JsMap Session) := service None.

Definition counting (n : nat) : list Z := [Z.of_nat n].

Definition ada : User := mkUser 1 "ada@x.org" "hhunter22" (Some "") "" "".
Definition ada_factor : TotpFactor := mkFactor 1 "AEBAGBAF" true None None 0 0.
Definition ada_code : RecoveryCode := mkCode 1 1 "haaaa-aaaa-aa" None 0.
Definition ada_tables : Tables := mkTables [ada] 1 [ada_factor] [ada_code] 1.
Definition no_tables : Tables := mkTables [] 0 [] [] 0.

Definition empty_bucket : MemoryRateLimitStore :=
  mkMemoryStore (mkStoreOptions (Some (capacity defaultRateLimiter)) (Some (refillPerSecond defaultRateLimiter)) 10000 0) [] 0 false.

Definition world_at (t : Z) (d : Tables) : IdentityWorld (JsMap Session) MemoryRateLimitStore :=
  mkWorld d [] empty_bucket empty_bucket (Some (Ok "hdecoy"%string)) t 0 0 [].

Definition later (t : Z) (w : IdentityWorld (JsMap Session) MemoryRateLimitStore) : IdentityWorld (JsMap Session) MemoryRateLimitStore :=
  mkWorld (db w) (store w) (logins w) (totps w) (decoy w) t (date w) (drawn w) (trace w).

(** The code ada's authenticator shows after thirty seconds. *)
Definition shown_now : string := Eval vm_compute in match totpCode (int 30000) "AEBAGBAF" plain_totp with Ok (Some c) => c | _ => EmptyString end.

Lemma shown_step : verifyTotpStep (int 30000) "AEBAGBAF" shown_now plain_totp = Ok (Some 1).
Proof. vm_compute. reflexivity. Qed.

(** ** What races *)

(** Fact: two challenges in flight spend one code: one after the other the second fails, yet
    an interleaving has both succeed. *)
Theorem code_spent_twice :
  let challenge := runTotpChallenge (service (Some defaultRateLimiter)) (int 1) shown_now in
  let w := world_at 30000 ada_tables in
  (run challenge (run challenge w).1).2 = Throw INVALID_TOTP /\
  exists w', steps (fun _ _ => False) (w, [challenge; challenge]) (w', [Done (Ok tt); Done (Ok tt)]).
Proof.
  cbv zeta. split; [vm_compute; reflexivity|].
  set (start := (world_at 30000 ada_tables, _)). set (s := scheduled [0; 1; 0; 1; 0; 1; 0; 1]%nat start). exists s.1.
  assert (s.2 = [Done (Ok tt); Done (Ok tt)]) as <- by (vm_compute; reflexivity). rewrite <- surjective_pairing. apply scheduled_steps.
Qed.

(** Fact: logins in flight outrun the bucket: of six wrong passwords one after the other the
    sixth is refused unseen, yet an interleaving has all six come to a verdict on the
    password. *)
Theorem logins_outrun_the_bucket :
  let guess := login counting (service (Some defaultRateLimiter)) "ada@x.org" "wrong" in
  let w := world_at 0 ada_tables in
  (run guess (Nat.iter 5 (fun w => (run guess w).1) w)).2 = Throw LOGIN_THROTTLED /\
  exists w', steps (fun _ _ => False) (w, repeat guess 6) (w', repeat (Done (Throw LOGIN_FAILED)) 6).
Proof.
  cbv zeta. split; [vm_compute; reflexivity|].
  set (start := (world_at 0 ada_tables, _)). set (s := scheduled (concat (repeat [0; 1; 2; 3; 4; 5]%nat 8)) start). exists s.1.
  assert (s.2 = repeat (Done (Throw LOGIN_FAILED)) 6) as <- by (vm_compute; reflexivity). rewrite <- surjective_pairing. apply scheduled_steps.
Qed.

(** ** The theorems at concrete states *)

Lemma lenient_reads bytes : List.Forall is_byte bytes -> some_lenient (base64urlEncode bytes) = bytes.
Proof. intros Hb. unfold some_lenient. by rewrite base64url_round_trip. Qed.

Lemma some_usable : Usable some_lenient open_service.
Proof.
  constructor.
  - apply lenient_reads.
  - vm_compute. discriminate.
  - intros salt pw. by eexists.
  - intros salt pw h [= <-]. apply (f_equal Ok), String.eqb_refl.
  - done.
Qed.

Lemma no_hook : hook_ok open_service.
Proof. intros hook u E. discriminate E. Qed.

Lemma small_ttl : number_prints (num_add (int 5) (int 1000)) = true /\ num_ge (int 6) (num_add (int 5) (int 1000)) = false.
Proof. split; vm_compute; reflexivity. Qed.

Lemma ada_is_found : findUserById (int 1) ada_tables = Some ada.
Proof. vm_compute. reflexivity. Qed.

Lemma failures_look_alike_witness :
  (run (login counting open_service "ada@x.org" "wrong") (world_at 5 no_tables)).2 =
  (run (login counting open_service "ada@x.org" "wrong") (set_db ada_tables (world_at 5 no_tables))).2.
Proof.
  apply (failures_look_alike counting open_service (world_at 5 no_tables) ada_tables "ada@x.org" "wrong" ada "hdecoy" [] false);
    [reflexivity|reflexivity|left; reflexivity|reflexivity|reflexivity|reflexivity].
Defined.

Definition spent_world : IdentityWorld (JsMap Session) MemoryRateLimitStore :=
  later 60000 (run (runTotpChallenge open_service (int 1) shown_now) (world_at 30000 ada_tables)).1.

Lemma later_db t w : db (later t w) = db w.
Proof. reflexivity. Qed.

Lemma first_use : (run (runTotpChallenge open_service (int 1) shown_now) (world_at 30000 ada_tables)).2 = Ok tt.
Proof. vm_compute. reflexivity. Qed.

Lemma ada_steps w factor step : w = world_at 30000 ada_tables -> accepts_totp w (int 1) shown_now factor step -> factor = ada_factor /\ step = 1.
Proof.
  intros -> (F & _ & V & _). cbn [db clock world_at] in F, V. assert (findTotpFactor (int 1) ada_tables = Some ada_factor) as F' by (vm_compute; reflexivity).
  rewrite F' in F. injection F as <-. cbn [f_secret ada_factor] in V. rewrite shown_step in V. by injection V as <-.
Qed.

Lemma later_base : whole (counterFor (int 60000) DEFAULT_TIME_STEP_SECONDS) = Some 2 /\ base32Decode "AEBAGBAF" = Some [1; 2; 3; 4; 5].
Proof. split; vm_compute; reflexivity. Qed.

Lemma code_serves_once_witness : exists e, (run (runTotpChallenge open_service (int 1) shown_now) spent_world).2 = Throw e.
Proof.
  destruct (code_serves_once open_service (world_at 30000 ada_tables) spent_world (int 1) shown_now first_use (f_equal factors (later_db _ _))) as (factor & step & A & _ & R).
  destruct (ada_steps _ factor step eq_refl A) as [-> ->]. apply (R [1; 2; 3; 4; 5] 2); [exact (proj2 later_base)|exact (proj1 later_base)|lia|lia].
Defined.

Definition two_claims : list (number * string) := [(int 1, "aaaa-aaaa-aa"%string); (int 1, "aaaa-aaaa-aa"%string)].

Definition after_claims : IdentityWorld (JsMap Session) MemoryRateLimitStore * list (Prog (IdentityWorld (JsMap Session) MemoryRateLimitStore) unit) :=
  scheduled [0; 1; 0; 1; 0; 1; 1]%nat (world_at 5 ada_tables, map (fun c => runRecoveryChallenge open_service c.1 c.2) two_claims).

Lemma recovery_codes_serve_once_witness :
  (length (List.filter succeeded after_claims.2) + unused_count after_claims.1 <= unused_count (world_at 5 ada_tables))%nat.
Proof.
  apply (recovery_codes_serve_once open_service (fun _ _ => False) two_claims (world_at 5 ada_tables) after_claims.1 after_claims.2); [intros v v' []|].
  rewrite <- surjective_pairing. apply scheduled_steps.
Defined.

Definition one_login : IdentityWorld (JsMap Session) MemoryRateLimitStore * list (Prog (IdentityWorld (JsMap Session) MemoryRateLimitStore) LoginResult) :=
  (world_at 5 ada_tables, map (fun l => login counting open_service l.1 l.2) [("ada@x.org", "wrong")]).

Lemma login_keeps_the_password_witness : In ada (users (db (turn 0 one_login).1)).
Proof.
  apply (login_keeps_the_password counting open_service (fun _ _ => False) [("ada@x.org"%string, "wrong"%string)] (world_at 5 ada_tables)
    (world_at 5 ada_tables) (turn 0 one_login).1 one_login.2 (turn 0 one_login).2).
  - apply steps_none.
  - rewrite <- surjective_pairing. apply (turn_step _ 0%nat one_login _ _ _ eq_refl).
  - left. reflexivity.
  - intros email pw [E|[]] V. injection E as <- <-. discriminate V.
Defined.

(** The link that a request mails at the fifth millisecond. *)
Definition ada_link : string :=
  packResetToken (id_text ada) (issue (reset_key open_service (u_passwordHash ada)) (int 5) (id_text ada) (int 1000)).

Lemma link_works : exists user, (run (resetPassword some_lenient counting open_service ada_link "new-password") (world_at 6 ada_tables)).2 = Ok user.
Proof. vm_compute. by eexists. Qed.

Lemma reset_link_works_once_witness :
  exists user h, db (run (resetPassword some_lenient counting open_service ada_link "new-password") (world_at 6 ada_tables)).1 =
    setPasswordHash 0 (int (u_id user)) h ada_tables.
Proof.
  pose proof (reset_link_works_once some_lenient counting open_service (world_at 6 ada_tables) ada_link "new-password" no_hook) as R.
  cbv zeta in R. destruct link_works as [user' E]. rewrite E in R. destruct R as (user & _ & _ & h & _ & _ & D & _). exists user, h. exact D.
Defined.

Lemma reset_restores_access_witness :
  exists url token, run (requestPasswordReset open_service "Ada@x.org ") (world_at 5 ada_tables) =
    (logged [Mails (mkMail PasswordResetEmail "ada@x.org" url token)] (world_at 5 ada_tables), Ok tt) /\
    exists w3 user3, run (resetPassword some_lenient counting open_service token "new-password") (world_at 6 ada_tables) = (w3, Ok user3).
Proof.
  destruct (reset_restores_access some_lenient counting open_service (world_at 5 ada_tables) "Ada@x.org " "new-password" ada some_usable no_hook eq_refl
    ltac:(unfold safe_id; cbn; lia) ltac:(reflexivity) eq_refl (proj1 small_ttl)) as (url & token & R & Later).
  exists url, token. split; [exact R|]. destruct (Later (world_at 6 ada_tables) eq_refl ada_is_found (proj2 small_ttl)) as (w3 & user3 & E & _). exists w3, user3. exact E.
Defined.

Lemma account_is_born_witness :
  exists w1 user, run (register counting open_service "ada@x.org" "hunter22") (world_at 5 no_tables) = (w1, Ok (Some user)) /\
    exists token w3 user3, run (verifyEmail some_lenient open_service token) (later 6 w1) = (w3, Ok user3) /\ isEmailVerified user3 = true.
Proof.
  destruct (account_is_born some_lenient counting open_service (world_at 5 no_tables) "ada@x.org" "hunter22" some_usable eq_refl eq_refl eq_refl
    ltac:(intros u []) ltac:(unfold safe_id; cbn; lia) (proj1 small_ttl)) as (w1 & user & url & token & R & _ & _ & Later).
  exists w1, user. split; [exact R|]. destruct (Later (later 6 w1) eq_refl (proj2 small_ttl)) as (w3 & user3 & E & V & _). exists token, w3, user3. split; [exact E|exact V].
Defined.

(** Ada's session, for a second. *)
Definition ada_session : Session := mkSession "01" "1" 1000.
Definition signed_in : IdentityWorld (JsMap Session) MemoryRateLimitStore := set_store (save ada_session []) (world_at 5 ada_tables).

Lemma session_names_its_account_witness : (run (currentUser (Some "01"%string)) signed_in).2 = Ok (Some ada).
Proof.
  apply (session_names_its_account open_service (fun _ => True) (fun _ => True) signed_in ada_session ada);
    [exact I|exact I|reflexivity|reflexivity|unfold safe_id; cbn; lia|exact ada_is_found].
Defined.
