(* ===== verification/Realtime.v ===== *)
(** * Realtime: topics over event streams

    [packages/realtime/src]: the replay ring ([replay-ring.ts]), the text of frames and
    cursors ([sse.ts]), which topics a connection gets ([authz.ts]), one connection
    ([connection.ts]), the process that fans topics out to its streams ([bus.ts],
    [http-handlers.ts], over the hub of [packages/pubsub/src/pubsub.ts]), and the transport
    that listens to Postgres ([pg-transport.ts]). *)
From S2P Require Import Prelude JsString JsMap JsNumber Web PubSub.
#[local] Open Scope string_scope.
#[local] Open Scope Z_scope.
#[local] Open Scope list_scope.

(** ** The replay ring *)

Record Cursor : Type := mkCursor { instanceId : string; generation : Z; index : Z }.

Inductive Reconcile : Type :=
| Replay (topics : list string)
| Resync.

Record Entry : Type := mkEntry { e_index : Z; e_topic : string; e_at : Z }.

Record ReplayRing : Type := mkRing {
  r_instanceId : string;
  r_maxEntries : Z;
  r_maxAgeMs : Z;
  r_generation : Z;
  r_lastIndex : Z;
  r_entries : list Entry
}.

Definition new_ring (instanceId : string) (maxEntries maxAgeMs : Z) (generation : option Z) : ReplayRing :=
  mkRing instanceId maxEntries maxAgeMs (default 0 generation) 0 [].

Definition set_entries (entries : list Entry) (ring : ReplayRing) : ReplayRing :=
  mkRing (r_instanceId ring) (r_maxEntries ring) (r_maxAgeMs ring) (r_generation ring) (r_lastIndex ring) entries.

Definition cursor (ring : ReplayRing) : Cursor := mkCursor (r_instanceId ring) (r_generation ring) (r_lastIndex ring).

(** How many entries at the front are older than the cutoff. *)
Fixpoint aged (cutoff : Z) (entries : list Entry) : nat :=
  match entries with
  | e :: entries' => if cutoff <=? e_at e then O else S (aged cutoff entries')
  | [] => O
  end.

(** [#evict], at the clock's reading [now]. *)
Definition evict (now : Z) (ring : ReplayRing) : ReplayRing :=
  let drop := Z.of_nat (aged (now - r_maxAgeMs ring) (r_entries ring)) in
  let overflow := Z.of_nat (length (r_entries ring)) - drop - r_maxEntries ring in
  let drop := if 0 <? overflow then drop + overflow else drop in
  if 0 <? drop then set_entries (skipn (Z.to_nat drop) (r_entries ring)) ring else ring.

(** [record]: the clock is read for the entry, then again to evict. *)
Definition record (topic : string) (at_ now : Z) (ring : ReplayRing) : ReplayRing * Cursor :=
  let last := r_lastIndex ring + 1 in
  let ring := evict now (mkRing (r_instanceId ring) (r_maxEntries ring) (r_maxAgeMs ring) (r_generation ring) last
                           (r_entries ring ++ [mkEntry last topic at_])) in
  (ring, cursor ring).

Definition bumpGeneration (ring : ReplayRing) : ReplayRing :=
  mkRing (r_instanceId ring) (r_maxEntries ring) (r_maxAgeMs ring) (r_generation ring + 1) 0 [].

(** The loop over the entries; [topics] are those pushed so far, the set [seen] too. *)
Fixpoint missed (since : Z) (entries : list Entry) (topics : list string) : list string :=
  match entries with
  | [] => topics
  | e :: entries' =>
      if e_index e <=? since then missed since entries' topics
      else if has (e_topic e) topics then missed since entries' topics
      else missed since entries' (topics ++ [e_topic e])
  end.

Definition reconcile (ring : ReplayRing) (since : Cursor) : Reconcile :=
  if negb (String.eqb (instanceId since) (r_instanceId ring)) then Resync
  else if negb (generation since =? r_generation ring) then Resync
  else if r_lastIndex ring <=? index since then Replay []
  else
    let oldest := match r_entries ring with e :: _ => e_index e | [] => r_lastIndex ring + 1 end in
    if index since + 1 <? oldest then Resync else Replay (missed (index since) (r_entries ring) []).

(** ** Frames and cursors as texts *)

Definition newline : ascii := "010".
Definition nl : string := String newline EmptyString.

Definition encodeCursor (c : Cursor) : string :=
  (instanceId c ++ "." ++ decimal_of (generation c) ++ "." ++ decimal_of (index c))%string.

(** [Number.isInteger] and not negative; as an integer. *)
Definition isNonNegativeInt (value : number) : option Z :=
  match value with
  | NegZero => Some 0
  | Units k => if (k mod one =? 0) && (0 <=? k) then Some (k / one) else None
  | _ => None
  end.

Definition decodeCursor (token : option string) : option Cursor :=
  match token with
  | None => None
  | Some token =>
      match rev (split "." token) with
      | index :: generation :: front =>
          let instanceId := join "." (rev front) in
          if Nat.eqb (length front) 0 || String.eqb instanceId EmptyString then None
          else match isNonNegativeInt (Number_of_string generation), isNonNegativeInt (Number_of_string index) with
               | Some generation, Some index => Some (mkCursor instanceId generation index)
               | _, _ => None
               end
      | _ => None
      end
  end.

Definition invalidateFrame (topic cursor : string) : string :=
  ("event: invalidate" ++ nl ++ "data: " ++ topic ++ nl ++ "id: " ++ cursor ++ nl ++ nl)%string.
Definition resyncFrame (cursor : string) : string :=
  ("event: resync" ++ nl ++ "data: " ++ nl ++ "id: " ++ cursor ++ nl ++ nl)%string.
Definition commentFrame (text : string) : string := (": " ++ text ++ nl ++ nl)%string.

(** The loop over the parts; [topics] are those pushed so far, the set [seen] too. *)
Fixpoint clean_topics (parts topics : list string) : list string :=
  match parts with
  | [] => topics
  | part :: parts' =>
      let topic := trim part in
      if String.eqb topic EmptyString then clean_topics parts' topics
      else if has topic topics then clean_topics parts' topics
      else clean_topics parts' (topics ++ [topic])
  end.

Definition parseTopics (raw : option string) : list string :=
  match raw with None => [] | Some raw => clean_topics (split "," raw) [] end.

(** ** Which topics a connection gets *)

Record TopicSelection : Type := mkSelection { authorized : list string; dropped : list string }.

Section Authorization.
Context {P : Type}.

(** [authorize], awaited: it answers or it throws. *)
Variable authorize : P -> string -> outcome JsThrown bool.

(** The loop, and the topics that were asked about. *)
Fixpoint select_from (principal : P) (i : Z) (requested : list string) (maxTopics : Z) (selection : TopicSelection)
    : list string * outcome JsThrown TopicSelection :=
  match requested with
  | [] => ([], Ok selection)
  | topic :: requested' =>
      if maxTopics <=? i then
        select_from principal (i + 1) requested' maxTopics (mkSelection (authorized selection) (dropped selection ++ [topic]))
      else
        match authorize principal topic with
        | Throw e => ([topic], Throw e)
        | Ok answer =>
            let selection :=
              if answer then mkSelection (authorized selection ++ [topic]) (dropped selection)
              else mkSelection (authorized selection) (dropped selection ++ [topic]) in
            let '(asked, r) := select_from principal (i + 1) requested' maxTopics selection in
            (topic :: asked, r)
        end
  end.

Definition selectAuthorizedTopics (principal : P) (requested : list string) (maxTopics : Z)
    : list string * outcome JsThrown TopicSelection :=
  select_from principal 0 requested maxTopics (mkSelection [] []).
End Authorization.

(** ** The controller of a stream

    A readable stream with a counting strategy: chunks wait between the two ends, in order;
    [ct_written] are all that were ever enqueued, of which the consumer took [ct_read];
    [ct_wanted] reads wait for a chunk. *)

Inductive StreamState : Type := Readable | CloseRequested | StreamClosed | Errored.

Record Controller : Type := mkController {
  ct_state : StreamState; ct_written : list string; ct_read : nat; ct_wanted : nat; ct_highWaterMark : Z
}.

Definition desiredSize (c : Controller) : option Z :=
  match ct_state c with
  | Errored => None
  | StreamClosed => Some 0
  | _ => Some (ct_highWaterMark c - Z.of_nat (length (ct_written c) - ct_read c))
  end.

(** [None] where it throws. A chunk goes to a waiting read at once. *)
Definition enqueue (frame : string) (c : Controller) : option Controller :=
  match ct_state c with
  | Readable =>
      let written := ct_written c ++ [frame] in
      Some match ct_wanted c with
           | S wanted => mkController Readable written (S (ct_read c)) wanted (ct_highWaterMark c)
           | O => mkController Readable written (ct_read c) O (ct_highWaterMark c)
           end
  | _ => None
  end.

(** [controller.close()]: it closes once the waiting chunks are taken; [None] where it
    throws. *)
Definition close_controller (c : Controller) : option Controller :=
  match ct_state c with
  | Readable =>
      Some (if Nat.leb (length (ct_written c)) (ct_read c)
            then mkController StreamClosed (ct_written c) (ct_read c) O (ct_highWaterMark c)
            else mkController CloseRequested (ct_written c) (ct_read c) O (ct_highWaterMark c))
  | _ => None
  end.

(** The consumer reads: a chunk that waits, or the next one to come. *)
Definition read_chunk (c : Controller) : Controller :=
  if Nat.ltb (ct_read c) (length (ct_written c)) then
    let read := S (ct_read c) in
    match ct_state c with
    | Readable => mkController Readable (ct_written c) read (ct_wanted c) (ct_highWaterMark c)
    | CloseRequested =>
        mkController (if Nat.leb (length (ct_written c)) read then StreamClosed else CloseRequested)
          (ct_written c) read (ct_wanted c) (ct_highWaterMark c)
    | _ => c
    end
  else
    match ct_state c with
    | Readable => mkController Readable (ct_written c) (ct_read c) (S (ct_wanted c)) (ct_highWaterMark c)
    | _ => c
    end.

(** The consumer gives up: what waits is dropped. *)
Definition cancel_stream (c : Controller) : Controller :=
  match ct_state c with
  | Readable | CloseRequested => mkController StreamClosed (ct_written c) (ct_read c) O (ct_highWaterMark c)
  | _ => c
  end.

(** What the client was sent over the wire. *)
Definition taken (c : Controller) : list string := firstn (ct_read c) (ct_written c).

(** ** One connection *)

Record LiveConnection : Type := mkConnection { closed : bool; controller : Controller }.

Definition set_closed (conn : LiveConnection) : LiveConnection := mkConnection true (controller conn).

(** [#emit]. *)
Definition emit (frame : string) (conn : LiveConnection) : LiveConnection :=
  match enqueue frame (controller conn) with
  | Some c => mkConnection (closed conn) c
  | None => set_closed conn
  end.

(** [#safeClose]. *)
Definition safeClose (conn : LiveConnection) : LiveConnection :=
  match close_controller (controller conn) with Some c => mkConnection (closed conn) c | None => conn end.

Definition isFull (conn : LiveConnection) : bool :=
  match desiredSize (controller conn) with None => true | Some n => n <=? 0 end.

Definition open (ring : ReplayRing) (since : option Cursor) (authorizedTopics : list string) (conn : LiveConnection)
    : LiveConnection :=
  match since with
  | None => conn
  | Some since =>
      match reconcile ring since with
      | Resync => emit (resyncFrame (encodeCursor (cursor ring))) conn
      | Replay topics =>
          fold_left (fun conn topic => emit (invalidateFrame topic (encodeCursor (cursor ring))) conn)
            (List.filter (fun topic => has topic authorizedTopics) topics) conn
      end
  end.

(** The connection, and whether [onOverflow] is called. *)
Definition deliver (topic : string) (c : Cursor) (conn : LiveConnection) : LiveConnection * bool :=
  if closed conn then (conn, false)
  else if isFull conn then (safeClose (set_closed (emit (resyncFrame (encodeCursor c)) conn)), true)
  else (emit (invalidateFrame topic (encodeCursor c)) conn, false).

Definition heartbeat (conn : LiveConnection) : LiveConnection :=
  if closed conn then conn else emit (commentFrame "ping") conn.

Definition close (conn : LiveConnection) : LiveConnection :=
  if closed conn then conn else safeClose (set_closed conn).

(** ** The process

    A listener of the hub is the closure of one stream for one of its topics: the number of
    the stream, and the place of the topic. *)

Definition Listener : Type := (nat * nat)%type.

Record LiveStream : Type := mkStream {
  st_topics : list string;
  st_connection : LiveConnection;
  st_torn : bool;
  st_unsubscribes : list (string * Listener)
}.

(** A [hub.publish] between two listeners: who is left of its snapshot. *)
Record Publication : Type := mkPublication { pb_topic : string; pb_cursor : Cursor; pb_left : list Listener }.

Record Process : Type := mkProcess {
  ring : ReplayRing;
  hub : JsMap (list Listener);
  streams : list LiveStream;
  microtasks : list Publication
}.

Definition set_ring (r : ReplayRing) (p : Process) : Process := mkProcess r (hub p) (streams p) (microtasks p).
Definition set_hub (h : JsMap (list Listener)) (p : Process) : Process := mkProcess (ring p) h (streams p) (microtasks p).
Definition set_microtasks (m : list Publication) (p : Process) : Process := mkProcess (ring p) (hub p) (streams p) m.
Definition update_stream (id : nat) (f : LiveStream -> LiveStream) (p : Process) : Process :=
  mkProcess (ring p) (hub p) (alter f id (streams p)) (microtasks p).

Definition set_connection (conn : LiveConnection) (s : LiveStream) : LiveStream :=
  mkStream (st_topics s) conn (st_torn s) (st_unsubscribes s).

(** [teardown]; clearing the timers is that no timer fires for a torn stream. *)
Definition teardown (id : nat) (p : Process) : Process :=
  match streams p !! id with
  | None => p
  | Some s =>
      if st_torn s then p
      else
        let hub := fold_left (fun h off => unsubscribe off.1 off.2 h) (st_unsubscribes s) (hub p) in
        update_stream id (fun s => mkStream (st_topics s) (close (st_connection s)) true (st_unsubscribes s)) (set_hub hub p)
  end.

(** A listener's call: [connection?.deliver(topic, message)]. *)
Definition listen (l : Listener) (c : Cursor) (p : Process) : Process :=
  match streams p !! l.1 with
  | None => p
  | Some s =>
      match st_topics s !! l.2 with
      | None => p
      | Some topic =>
          let '(conn, overflow) := deliver topic c (st_connection s) in
          let p := update_stream l.1 (set_connection conn) p in
          if overflow : bool then teardown l.1 p else p
      end
  end.

(** From a listener's call to the [await] of what it returned. *)
Definition resume (pb : Publication) (p : Process) : Process :=
  match pb_left pb with
  | [] => p
  | l :: others =>
      let p := listen l (pb_cursor pb) p in
      set_microtasks (microtasks p ++ [mkPublication (pb_topic pb) (pb_cursor pb) others]) p
  end.

(** [hub.publish], up to its first [await]. *)
Definition publish (topic : string) (c : Cursor) (p : Process) : Process :=
  match map_get topic (hub p) with
  | None => p
  | Some snapshot => resume (mkPublication topic c snapshot) p
  end.

(** The handler the bus gives the transport. *)
Definition land (topic : string) (at_ now : Z) (p : Process) : Process :=
  let '(r, c) := record topic at_ now (ring p) in publish topic c (set_ring r p).

(** The microtasks run one after the other until none is left. *)
Fixpoint run_microtasks (fuel : nat) (p : Process) : Process :=
  match fuel, microtasks p with
  | S fuel', pb :: rest => run_microtasks fuel' (resume pb (set_microtasks rest p))
  | _, _ => p
  end.

(** Each runs once per listener it has left, and once more. *)
Definition turns (p : Process) : nat := fold_right (fun pb n => (S (length (pb_left pb)) + n)%nat) O (microtasks p).
Definition drain (p : Process) : Process := run_microtasks (turns p) p.

(** Notifications that arrive together land together; then the microtasks run. *)
Definition receive (batch : list (string * Z * Z)) (p : Process) : Process :=
  drain (fold_left (fun p n => land n.1.1 n.1.2 n.2 p) batch p).

(** [openLiveStream], as the next stream of the process. *)
Definition openLiveStream (authorizedTopics : list string) (since : option Cursor) (aborted : bool) (maxQueue : Z) (p : Process)
    : Process :=
  let id := length (streams p) in
  let conn := mkConnection false (mkController Readable [] O O maxQueue) in
  if aborted then teardown id (mkProcess (ring p) (hub p) (streams p ++ [mkStream authorizedTopics conn false []]) (microtasks p))
  else
    let conn := open (ring p) since authorizedTopics conn in
    let subs := imap (fun i topic => (topic, (id, i))) authorizedTopics in
    let hub := fold_left (fun h sub => subscribe sub.1 sub.2 h) subs (hub p) in
    mkProcess (ring p) hub (streams p ++ [mkStream authorizedTopics conn false subs]) (microtasks p).

(** What the timers, the client and the runtime do to a stream. A [revalidate] that throws
    or rejects counts as a refusal. *)
Inductive StreamEvent : Type :=
| Heartbeat
| Revalidated (verdict : outcome JsThrown bool)
| LifetimeOver
| Aborted
| Cancelled
| ReadChunk.

Definition on_stream (id : nat) (e : StreamEvent) (p : Process) : Process :=
  match streams p !! id with
  | None => p
  | Some s =>
      match e with
      | Heartbeat => if st_torn s then p else update_stream id (set_connection (heartbeat (st_connection s))) p
      | Revalidated (Ok true) => p
      | Revalidated _ => teardown id p
      | LifetimeOver | Aborted => teardown id p
      | Cancelled =>
          teardown id (update_stream id (fun s =>
            set_connection (mkConnection (closed (st_connection s)) (cancel_stream (controller (st_connection s)))) s) p)
      | ReadChunk =>
          update_stream id (fun s =>
            set_connection (mkConnection (closed (st_connection s)) (read_chunk (controller (st_connection s)))) s) p
      end
  end.

(** The options of the handler; the callbacks are the application's. *)
Record RealtimeHttpOptions (P : Type) : Type := mkOptions {
  o_authorizeTopic : P -> string -> outcome JsThrown bool;
  o_maxTopicsPerConnection : option Z;
  o_maxQueue : option Z
}.
Arguments o_authorizeTopic {P} _ _ _.
Arguments o_maxTopicsPerConnection {P} _.
Arguments o_maxQueue {P} _.

Definition DEFAULT_MAX_TOPICS : Z := 64.
Definition DEFAULT_MAX_QUEUE : Z := 256.

(** The request, as far as the handler reads it. *)
Record LiveRequest : Type := mkLiveRequest {
  q_topics : option string; q_lastEventId : option string; h_lastEventId : option string; q_aborted : bool
}.

(** [live], once the principal is resolved: the process and the topics dropped, or what
    [authorizeTopic] threw. *)
Definition live {P} (options : RealtimeHttpOptions P) (principal : P) (c : LiveRequest) (p : Process)
    : outcome JsThrown (Process * list string) :=
  let maxTopics := default DEFAULT_MAX_TOPICS (o_maxTopicsPerConnection options) in
  let requested := parseTopics (q_topics c) in
  let! selection := (selectAuthorizedTopics (o_authorizeTopic options) principal requested maxTopics).2 in
  let since := decodeCursor (match h_lastEventId c with Some id => Some id | None => q_lastEventId c end) in
  Ok (openLiveStream (authorized selection) since (q_aborted c) (default DEFAULT_MAX_QUEUE (o_maxQueue options)) p,
      dropped selection).

(** ** The transport

    What its promises and its clients do, as events. A client is the number of its minting;
    [t_ended] are those whose [end] was called. *)

(** Where a reconnect session stands: nowhere, or at the [await] it is in. *)
Inductive Session : Type := Idle | Ending | Delaying | Connecting (client : nat) | Listening (client : nat).

#[export] Instance Session_eq_dec : EqDecision Session.
Proof. solve_decision. Defined.

(** Where the call of [start] stands. *)
Inductive Start : Type := NotStarted | StartConnecting (client : nat) | StartListening (client : nat) | Started | StartFailed.

#[export] Instance Start_eq_dec : EqDecision Start.
Proof. solve_decision. Defined.

Record Transport : Type := mkTransport {
  t_channel : string;
  t_handled : bool;
  t_client : option nat;
  t_closed : bool;
  t_reconnecting : bool;
  t_session : Session;
  t_start : Start;
  t_minted : nat;
  t_ended : list nat
}.

Definition DEFAULT_CHANNEL : string := "lesto_invalidate".

(** A transport whose handler the bus registered. *)
Definition new_transport (channel : option string) : Transport :=
  mkTransport (default DEFAULT_CHANNEL channel) true None false false Idle NotStarted O [].

Inductive TransportEffect : Type :=
| Mints (client : nat)
| Connects (client : nat)
| Listens (client : nat)
| Notifies (client : nat) (topic : string)
| Ends (client : nat)
| Reports
| BumpsGeneration
| Lands (topic : string).

Inductive TransportEvent : Type :=
| CallStart (minted : bool)
| CallPublish (topic : string)
| CallClose
| Connected (client : nat) (ok : bool)
| Listened (client : nat) (ok : bool)
| EndSettled (ok : bool)
| DelayOver (minted : bool)
| CloseSettled (ok : bool)
| PublishFailed
| ClientError (client : nat)
| Notification (client : nat) (channel : string) (payload : option string).

Definition set_session (session : Session) (t : Transport) : Transport :=
  mkTransport (t_channel t) (t_handled t) (t_client t) (t_closed t) (t_reconnecting t) session (t_start t) (t_minted t) (t_ended t).
Definition set_reconnecting (b : bool) (t : Transport) : Transport :=
  mkTransport (t_channel t) (t_handled t) (t_client t) (t_closed t) b (t_session t) (t_start t) (t_minted t) (t_ended t).
Definition set_start (start : Start) (t : Transport) : Transport :=
  mkTransport (t_channel t) (t_handled t) (t_client t) (t_closed t) (t_reconnecting t) (t_session t) start (t_minted t) (t_ended t).
Definition set_client (client : option nat) (t : Transport) : Transport :=
  mkTransport (t_channel t) (t_handled t) client (t_closed t) (t_reconnecting t) (t_session t) (t_start t) (t_minted t) (t_ended t).
Definition set_shut (t : Transport) : Transport :=
  mkTransport (t_channel t) false (t_client t) true (t_reconnecting t) (t_session t) (t_start t) (t_minted t) (t_ended t).

(** [#createClient], wired and made the current one. *)
Definition mint (t : Transport) : Transport * list TransportEffect :=
  (mkTransport (t_channel t) (t_handled t) (Some (t_minted t)) (t_closed t) (t_reconnecting t) (t_session t) (t_start t)
     (S (t_minted t)) (t_ended t), [Mints (t_minted t); Connects (t_minted t)]).

(** [#endClient], up to its [await]: whether there is one. *)
Definition endClient (t : Transport) : bool * Transport * list TransportEffect :=
  match t_client t with
  | None => (false, t, [])
  | Some c =>
      (true, mkTransport (t_channel t) (t_handled t) (t_client t) (t_closed t) (t_reconnecting t) (t_session t) (t_start t)
               (t_minted t) (t_ended t ++ [c]), [Ends c])
  end.

(** The head of the session's loop. *)
Definition session_turn (t : Transport) : Transport * list TransportEffect :=
  let '(ending, t, effects) := endClient t in (set_session (if ending : bool then Ending else Delaying) t, effects).

Definition session_failed (t : Transport) : Transport * list TransportEffect :=
  let '(t, effects) := session_turn t in (t, Reports :: effects).

Definition session_over (t : Transport) : Transport := set_reconnecting false (set_session Idle t).

Definition reports (ok : bool) : list TransportEffect := if ok then [] else [Reports].

(** [#onNotification]. *)
Definition onNotification (channel : string) (payload : option string) (t : Transport) : list TransportEffect :=
  if negb (String.eqb channel (t_channel t)) then []
  else match payload with
       | Some topic => if String.eqb topic EmptyString then [] else if t_handled t then [Lands topic] else []
       | None => []
       end.

(** What each event makes of the transport. [start] is called once. *)
Definition on_event (e : TransportEvent) (t : Transport) : Transport * list TransportEffect :=
  match e with
  | CallStart minted =>
      match t_start t with
      | NotStarted =>
          if minted : bool then let '(t', effects) := mint t in (set_start (StartConnecting (t_minted t)) t', effects)
          else (set_start StartFailed t, [])
      | _ => (t, [])
      end
  | CallPublish topic => match t_client t with None => (t, []) | Some c => (t, [Notifies c topic]) end
  | PublishFailed => (t, [Reports])
  | CallClose =>
      let '(ending, t, effects) := endClient (set_shut t) in
      (if ending : bool then t else set_client None t, effects)
  | CloseSettled ok => if t_closed t then (set_client None t, reports ok) else (t, [])
  | Connected c ok =>
      if bool_decide (t_session t = Connecting c) then
        if ok : bool then (set_session (Listening c) t, [Listens c]) else session_failed t
      else if bool_decide (t_start t = StartConnecting c) then
        if ok : bool then (set_start (StartListening c) t, [Listens c]) else (set_start StartFailed t, [])
      else (t, [])
  | Listened c ok =>
      if bool_decide (t_session t = Listening c) then
        if ok : bool then (session_over t, [BumpsGeneration]) else session_failed t
      else if bool_decide (t_start t = StartListening c) then (set_start (if ok : bool then Started else StartFailed) t, [])
      else (t, [])
  | EndSettled ok => if bool_decide (t_session t = Ending) then (set_session Delaying t, reports ok) else (t, [])
  | DelayOver minted =>
      if bool_decide (t_session t = Delaying) then
        if t_closed t then (session_over t, [])
        else if minted : bool then let '(t', effects) := mint t in (set_session (Connecting (t_minted t)) t', effects)
        else session_failed t
      else (t, [])
  | ClientError c =>
      if t_reconnecting t || t_closed t then (t, [Reports])
      else let '(t, effects) := session_turn (set_reconnecting true t) in (t, Reports :: effects)
  | Notification c channel payload => (t, onNotification channel payload t)
  end.

Fixpoint on_events (events : list TransportEvent) (t : Transport) : Transport * list TransportEffect :=
  match events with
  | [] => (t, [])
  | e :: events' =>
      let '(t1, effects1) := on_event e t in
      let '(t2, effects2) := on_events events' t1 in
      (t2, effects1 ++ effects2)
  end.

(** ** The bus: one server *)

Record Server : Type := mkServer { transport : Transport; process : Process }.

Inductive ServerEvent : Type :=
| Data (client : nat) (batch : list (string * option string * Z * Z))
| OnTransport (e : TransportEvent)
| OnStream (id : nat) (e : StreamEvent)
| Opens (authorizedTopics : list string) (since : option Cursor) (aborted : bool) (maxQueue : Z).

(** [bumpGeneration: () => ring.bumpGeneration()] is how the bus is wired. *)
Definition apply_effect (p : Process) (e : TransportEffect) : Process :=
  match e with BumpsGeneration => set_ring (bumpGeneration (ring p)) p | _ => p end.

(** The topics a batch of notifications lands. *)
Definition landing (t : Transport) (batch : list (string * option string * Z * Z)) : list (string * Z * Z) :=
  flat_map (fun n => flat_map (fun e => match e with Lands topic => [(topic, n.1.2, n.2)] | _ => [] end)
                       (onNotification n.1.1.1 n.1.1.2 t)) batch.

Definition serve (e : ServerEvent) (s : Server) : Server :=
  match e with
  | Data c batch => mkServer (transport s) (receive (landing (transport s) batch) (process s))
  | OnTransport (Notification c channel payload) => s
  | OnTransport e => let '(t, effects) := on_event e (transport s) in mkServer t (fold_left apply_effect effects (process s))
  | OnStream id e => mkServer (transport s) (on_stream id e (process s))
  | Opens topics since aborted maxQueue => mkServer (transport s) (openLiveStream topics since aborted maxQueue (process s))
  end.
