(* ===== verification/RealtimeProps.v ===== *)
(** * Realtime: replay, cursors, selection, reconnection

    What the ring replays is exactly what was recorded after the cursor, or it asks for a
    resync; cursors survive the wire; a connection gets the topics it may see and no others;
    the transport ends every client it replaces and none comes back after [close]. *)
From S2P Require Import Prelude JsString JsMap JsNumber Web PubSub PubSubProps Realtime.
#[local] Open Scope string_scope.
#[local] Open Scope Z_scope.
#[local] Open Scope list_scope.

(** ** First occurrences *)

Lemma has_not_In {S} `{EqDecision S} (x : S) l : has x l = false <-> ~ In x l.
Proof. rewrite <- has_In. by destruct (has x l). Qed.

Lemma missed_spec since entries topics :
  List.NoDup topics ->
  List.NoDup (missed since entries topics) /\
  (forall t, In t (missed since entries topics) <-> In t topics \/ exists e, In e entries /\ since < e_index e /\ e_topic e = t).
Proof.
  revert topics. induction entries as [|e entries IH]; intros topics Hn; [split; [done|]; intros t; split; [by left|]; by intros [|(? & [] & _)]|].
  cbn [missed]. destruct (Z.leb_spec (e_index e) since) as [L|L]; [|destruct (has (e_topic e) topics) eqn:Hh].
  - destruct (IH topics Hn) as [H1 H2]. split; [done|]. intros t. rewrite H2. split; [|intros [|(x & [<-|] & ? & ?)]; [by left|lia|right; eauto]].
    intros [|(x & ? & ?)]; [by left|]. right. exists x. split; [by right|done].
  - destruct (IH topics Hn) as [H1 H2]. split; [done|]. apply has_In in Hh. intros t. rewrite H2.
    split; [intros [|(x & ? & ?)]; [by left|]; right; exists x; split; [by right|done]|].
    intros [|(x & [<-|] & ? & <-)]; [by left|by left|right; eauto].
  - apply has_not_In in Hh. destruct (IH (topics ++ [e_topic e])) as [H1 H2]; [by apply NoDup_snoc|]. split; [done|]. intros t. rewrite H2, in_app_iff.
    cbn [In]. split; [intros [[|[<-|[]]]|(x & ? & ?)]|intros [|(x & [<-|] & ? & <-)]]; eauto 6.
Qed.

(** ** The ring holds the end of its generation *)

(** A topic as it was recorded, with the two readings of the clock. *)
Definition Heard : Type := (string * Z * Z)%type.

Definition record_all (h : list Heard) (ring : ReplayRing) : ReplayRing :=
  fold_left (fun r n => (record n.1.1 n.1.2 n.2 r).1) h ring.

(** The entries of a history, from an index on. *)
Fixpoint entries_from (i : Z) (h : list Heard) : list Entry :=
  match h with [] => [] | n :: h' => mkEntry (i + 1) n.1.1 n.1.2 :: entries_from (i + 1) h' end.

Lemma entries_from_app i h h' : entries_from i (h ++ h') = entries_from i h ++ entries_from (i + Z.of_nat (length h)) h'.
Proof.
  revert i. induction h as [|n h IH]; intros i; [cbn; by rewrite Z.add_0_r|]. cbn [app entries_from length]. rewrite IH. do 3 f_equal. lia.
Qed.

Lemma entries_from_length i h : length (entries_from i h) = length h.
Proof. revert i. induction h as [|n h IH]; intros i; cbn; [done|]. by rewrite IH. Qed.

Lemma entries_from_skip i h n : (n <= length h)%nat -> skipn n (entries_from i h) = entries_from (i + Z.of_nat n) (skipn n h).
Proof.
  revert i h. induction n as [|n IH]; intros i h Hn; [cbn; by rewrite Z.add_0_r|]. destruct h as [|x h]; [cbn in Hn; lia|].
  cbn [skipn entries_from]. cbn in Hn. rewrite IH by lia. f_equal. lia.
Qed.

Lemma entries_from_nth i h k n : nth_error h k = Some n -> nth_error (entries_from i h) k = Some (mkEntry (i + Z.of_nat k + 1) n.1.1 n.1.2).
Proof.
  revert i k. induction h as [|x h IH]; intros i [|k] E; try done; cbn [entries_from nth_error] in *; [injection E as ->; do 2 f_equal; lia|].
  rewrite (IH (i + 1) k E). do 2 f_equal. lia.
Qed.

Lemma entries_from_In i h e :
  In e (entries_from i h) <-> exists k n, nth_error h k = Some n /\ e = mkEntry (i + Z.of_nat k + 1) n.1.1 n.1.2.
Proof.
  revert i. induction h as [|x h IH]; intros i; cbn [entries_from In].
  - split; [done|]. by intros ([|k] & n & ? & _).
  - rewrite IH. split.
    + intros [<-|(k & n & Hk & ->)]; [exists O, x; split; [done|]; by rewrite Z.add_0_r|]. exists (S k), n. split; [done|]. f_equal. lia.
    + intros ([|k] & n & Hk & ->); [left; injection Hk as ->; f_equal; lia|]. right. exists k, n. split; [done|]. f_equal. lia.
Qed.

(** The ring in a generation in which [h] was heard, of which the first [n] are gone. *)
Definition holds (ring0 ring : ReplayRing) (h : list Heard) (n : nat) : Prop :=
  (n <= length h)%nat /\
  ring = mkRing (r_instanceId ring0) (r_maxEntries ring0) (r_maxAgeMs ring0) (r_generation ring0) (Z.of_nat (length h))
           (entries_from (Z.of_nat n) (skipn n h)).

(** Not evicted: the window has room, and every entry was young enough each time. *)
Definition within (ring0 : ReplayRing) (h : list Heard) (n : nat) : Prop :=
  Z.of_nat (length h - n) <= r_maxEntries ring0 /\
  forall k x j y, (n <= k <= j)%nat -> nth_error h k = Some x -> nth_error h j = Some y -> y.2 - r_maxAgeMs ring0 <= x.1.2.

Lemma aged_le cutoff entries : (aged cutoff entries <= length entries)%nat.
Proof. induction entries as [|e l IH]; cbn; [done|]. destruct (_ <=? _); lia. Qed.

Lemma aged_young cutoff entries k e : nth_error entries k = Some e -> cutoff <= e_at e -> (aged cutoff entries <= k)%nat.
Proof.
  revert k. induction entries as [|e' l IH]; intros k H L; [by destruct k|]. cbn [aged]. destruct (Z.leb_spec cutoff (e_at e')); [lia|].
  destruct k as [|k]; [injection H as ->; lia|]. specialize (IH k H L). lia.
Qed.

(** Eviction drops a front part, no more than the bounds ask for. *)
Lemma evict_front now ring :
  exists d, evict now ring = set_entries (skipn d (r_entries ring)) ring /\ (d <= length (r_entries ring))%nat /\
    forall m, Z.of_nat (length (r_entries ring)) - Z.of_nat m <= r_maxEntries ring ->
      (aged (now - r_maxAgeMs ring) (r_entries ring) <= m)%nat -> (d <= m)%nat.
Proof.
  unfold evict. set (es := r_entries ring). set (a := aged _ es). pose proof (aged_le (now - r_maxAgeMs ring) es) as Ha. fold a in Ha.
  set (ov := _ - r_maxEntries ring). set (drop := if 0 <? ov then _ else _).
  exists (Nat.min (Z.to_nat drop) (length es)). split; [|split; [lia|]].
  - assert (skipn (Nat.min (Z.to_nat drop) (length es)) es = skipn (Z.to_nat drop) es) as ->.
    { destruct (Nat.le_ge_cases (Z.to_nat drop) (length es)); [by rewrite Nat.min_l|]. rewrite Nat.min_r by done. by rewrite !skipn_all2 by lia. }
    clearbody drop. destruct (Z.ltb_spec 0 drop); [done|]. assert (Z.to_nat drop = O) as -> by (clear -H; lia). by destruct ring.
  - intros m Hm Hd. assert (drop <= Z.of_nat m) as L; [|clear -L; lia]. unfold drop. fold es a in Hd. destruct (Z.ltb_spec 0 ov); subst ov; fold es in Hm; lia.
Qed.

Lemma ring_record_holds ring0 ring h n x :
  holds ring0 ring h n ->
  exists n', (n <= n')%nat /\ holds ring0 (record x.1.1 x.1.2 x.2 ring).1 (h ++ [x]) n' /\
    (record x.1.1 x.1.2 x.2 ring).2 = mkCursor (r_instanceId ring0) (r_generation ring0) (Z.of_nat (length h) + 1) /\
    (forall m, (n <= m <= length h)%nat -> within ring0 (h ++ [x]) m -> (n' <= m)%nat).
Proof.
  intros (Hn & ->). unfold record. cbn [r_instanceId r_maxEntries r_maxAgeMs r_generation r_lastIndex r_entries fst snd].
  assert (entries_from (Z.of_nat n) (skipn n h) ++ [mkEntry (Z.of_nat (length h) + 1) x.1.1 x.1.2] = entries_from (Z.of_nat n) (skipn n (h ++ [x]))) as ->.
  { rewrite skipn_app. replace (n - length h)%nat with O by lia. cbn [skipn]. rewrite entries_from_app, length_skipn. cbn [entries_from].
    do 3 f_equal. lia. }
  destruct (evict_front x.2 (mkRing (r_instanceId ring0) (r_maxEntries ring0) (r_maxAgeMs ring0) (r_generation ring0) (Z.of_nat (length h) + 1)
    (entries_from (Z.of_nat n) (skipn n (h ++ [x]))))) as (d & E & Hd & Least).
  cbn [r_entries r_maxEntries r_maxAgeMs] in *. rewrite entries_from_length, length_skipn, length_app in Hd, Least. cbn [length] in Hd, Least.
  rewrite E. exists (n + d)%nat. split; [lia|]. split; [|split; [done|]].
  - split; [rewrite length_app; cbn; lia|]. unfold set_entries. cbn. rewrite length_app. cbn [length]. f_equal; [lia|].
    rewrite entries_from_skip by (rewrite length_skipn, length_app; cbn; lia). rewrite skipn_skipn, Nat2Z.inj_add. do 2 f_equal. lia.
  - intros m Hm [W1 W2]. rewrite length_app in W1. cbn [length] in W1. assert (d <= m - n)%nat; [|lia]. apply Least; [lia|].
    destruct (nth_error (h ++ [x]) m) as [y|] eqn:Ey; [|apply nth_error_None in Ey; rewrite length_app in Ey; cbn in Ey; lia].
    apply (aged_young _ _ (m - n)%nat (mkEntry (Z.of_nat n + Z.of_nat (m - n) + 1) y.1.1 y.1.2)).
    + apply entries_from_nth. rewrite nth_error_skipn. by replace (n + (m - n))%nat with m by lia.
    + cbn [e_at]. apply (W2 m y (length h) x); [lia|done|]. rewrite nth_error_app2 by lia. by rewrite Nat.sub_diag.
Qed.

Lemma within_prefix ring0 h x m : within ring0 (h ++ [x]) m -> within ring0 h m.
Proof.
  intros [W1 W2]. rewrite length_app in W1. cbn in W1. split; [lia|]. intros k y j z Hk Hy Hz.
  apply (W2 k y j z Hk); rewrite nth_error_app1; try done; by apply nth_error_Some; rewrite ?Hy, ?Hz.
Qed.

(** A ring in which nothing was recorded since its generation began. *)
Definition fresh (ring : ReplayRing) : Prop := r_entries ring = [] /\ r_lastIndex ring = 0.

Lemma fresh_holds ring : fresh ring -> holds ring ring [] 0.
Proof. destruct ring. intros [E1 E2]. cbn in *. subst. by split. Qed.

Lemma ring_record_all_holds ring0 h :
  fresh ring0 -> exists n, holds ring0 (record_all h ring0) h n /\ forall m, (m <= length h)%nat -> within ring0 h m -> (n <= m)%nat.
Proof.
  intros F. induction h as [|x h (n & Hh & Least)] using rev_ind; [exists O; split; [by apply fresh_holds|lia]|].
  unfold record_all in *. rewrite fold_left_app. cbn [fold_left]. destruct (ring_record_holds ring0 _ h n x Hh) as (n' & Hn & Hh' & _ & Le).
  exists n'. split; [done|]. intros m Hm W. rewrite length_app in Hm. cbn in Hm. destruct (Nat.le_gt_cases m (length h)) as [L|L].
  - apply Le; [|done]. split; [|done]. apply Least; [done|]. by apply within_prefix in W.
  - destruct Hh' as [Hn' _]. rewrite length_app in Hn'. cbn in Hn'. lia.
Qed.

Definition topic_of (n : Heard) : string := n.1.1.

Lemma holds_reconcile ring0 ring h n since :
  holds ring0 ring h n -> 0 <= index since ->
  match reconcile ring since with
  | Replay topics =>
      instanceId since = r_instanceId ring0 /\ generation since = r_generation ring0 /\ List.NoDup topics /\
      forall t, In t topics <-> In t (map topic_of (skipn (Z.to_nat (index since)) h))
  | Resync =>
      instanceId since = r_instanceId ring0 -> generation since = r_generation ring0 -> (Z.to_nat (index since) < n)%nat
  end.
Proof.
  intros (Hn & ->) Hi. unfold reconcile. cbn [r_instanceId r_generation r_lastIndex r_entries].
  destruct (String.eqb_spec (instanceId since) (r_instanceId ring0)) as [Ei|Ni]; [|by intros Ei]. cbn [negb].
  destruct (Z.eqb_spec (generation since) (r_generation ring0)) as [Eg|Ng]; [|by intros _ Eg]. cbn [negb].
  destruct (Z.leb_spec (Z.of_nat (length h)) (index since)) as [L|L].
  { split; [done|]. split; [done|]. split; [constructor|]. rewrite skipn_all2 by lia. intros t. reflexivity. }
  set (oldest := match entries_from _ _ with [] => _ | _ => _ end).
  assert (oldest = Z.of_nat n + 1) as ->.
  { unfold oldest. destruct (skipn n h) as [|x l] eqn:E; cbn [entries_from e_index]; [|lia].
    apply (f_equal (@length _)) in E. rewrite length_skipn in E. cbn in E. lia. }
  destruct (Z.ltb_spec (index since + 1) (Z.of_nat n + 1)) as [Lo|Lo]; [intros _ _; lia|].
  destruct (missed_spec (index since) (entries_from (Z.of_nat n) (skipn n h)) []) as [H1 H2]; [constructor|].
  split; [done|]. split; [done|]. split; [done|]. intros t. rewrite H2. clear H1 H2.
  replace (Z.to_nat (index since)) with (Z.to_nat (index since) - n + n)%nat by lia. rewrite <- skipn_skipn. rewrite in_map_iff. split.
  - intros [[]|(e & He & Hs & <-)]. apply entries_from_In in He as (k & x & Hk & ->). cbn [e_index e_topic] in *. exists x. split; [done|].
    set (a := (Z.to_nat (index since) - n)%nat) in *. assert (a <= k)%nat as La by lia. apply (nth_error_In _ (k - a)). rewrite nth_error_skipn.
    by replace (a + (k - a))%nat with k by lia.
  - intros (x & <- & Hx). right. apply In_nth_error in Hx as (k & Hk). rewrite nth_error_skipn in Hk. exists (mkEntry (Z.of_nat n + Z.of_nat (Z.to_nat (index since) - n + k) + 1) x.1.1 x.1.2).
    split; [apply entries_from_In; eauto|]. cbn [e_index e_topic]. split; [lia|done].
Qed.

(** Fact: what a generation replays is exact: a cursor with this process's id and generation
    is replayed the topics recorded after it, each once and no others; a cursor of another
    process or generation is not replayed; and the ring asks for a resync within a
    generation only once the window is too small for what came after the cursor. *)
Theorem replay_is_exact (ring0 : ReplayRing) (h : list Heard) (since : Cursor) :
  fresh ring0 -> 0 <= index since ->
  match reconcile (record_all h ring0) since with
  | Replay topics =>
      instanceId since = r_instanceId ring0 /\ generation since = r_generation ring0 /\ List.NoDup topics /\
      forall t, In t topics <-> In t (map topic_of (skipn (Z.to_nat (index since)) h))
  | Resync =>
      instanceId since = r_instanceId ring0 -> generation since = r_generation ring0 ->
      ~ within ring0 h (Z.to_nat (index since)) /\ (Z.to_nat (index since) < length h)%nat
  end.
Proof.
  intros F Hi. destruct (ring_record_all_holds ring0 h F) as (n & Hh & Least). pose proof (holds_reconcile _ _ _ _ since Hh Hi) as R.
  destruct (reconcile _ since); [exact R|]. intros E1 E2. specialize (R E1 E2). destruct Hh as [Hn _]. split; [|lia].
  intros W. apply Least in W; lia.
Qed.

(** ** Cursors and topics as texts *)

Lemma int_nonneg n : 0 <= n -> isNonNegativeInt (int n) = Some n.
Proof.
  intros Hn. unfold isNonNegativeInt, int. pose proof one_pos. rewrite Z_mod_mult. cbn [Z.eqb andb].
  rewrite (proj2 (Z.leb_le _ _)) by nia. by rewrite Z_div_mult by lia.
Qed.

Lemma split_append sep a b : split sep (String.append a (String sep b)) = split sep a ++ split sep b.
Proof.
  induction a as [|c a IH]; simpl; [by rewrite Ascii.eqb_refl|]. rewrite IH. destruct (Ascii.eqb c sep); [done|].
  by destruct (split_cons sep a) as (p & ps & ->).
Qed.

(** A cursor that a ring can hand out. *)
Definition sendable (c : Cursor) : Prop := instanceId c <> EmptyString /\ safe_id (generation c) /\ safe_id (index c).

Lemma decodes c : sendable c -> decodeCursor (Some (encodeCursor c)) = Some c.
Proof.
  intros (Hi & Hg & Hx). unfold decodeCursor, encodeCursor.
  assert (rev (split "." (instanceId c ++ "." ++ decimal_of (generation c) ++ "." ++ decimal_of (index c))%string) =
          decimal_of (index c) :: decimal_of (generation c) :: rev (split "." (instanceId c))) as ->.
  { change ("." ++ decimal_of (generation c) ++ "." ++ decimal_of (index c))%string
      with (String "." (decimal_of (generation c) ++ String "." (decimal_of (index c))))%string.
    rewrite split_append, split_append, (split_none "." (decimal_of (index c))), (split_none "." (decimal_of (generation c)))
      by by apply decimal_has_no. rewrite rev_app_distr. done. }
  rewrite rev_involutive, join_split, length_rev. destruct (split_cons "." (instanceId c)) as (p & ps & ->). cbn [length Nat.eqb orb].
  rewrite (proj2 (String.eqb_neq _ _) Hi), !Number_decimal, !int_nonneg by (unfold safe_id in *; try lia; done). by destruct c.
Qed.

(** Fact: a cursor survives the client: what a ring hands out decodes to itself; whatever
    text a client presents, what decodes has a process id and two indices; and a text with
    less than two points does not decode. *)
Theorem cursors_round_trip :
  (forall c, sendable c -> decodeCursor (Some (encodeCursor c)) = Some c) /\
  (forall token c, decodeCursor (Some token) = Some c -> instanceId c <> EmptyString /\ 0 <= generation c /\ 0 <= index c) /\
  (forall token, (length (split "." token) < 3)%nat -> decodeCursor (Some token) = None) /\ decodeCursor None = None.
Proof.
  split; [exact decodes|]. assert (forall v n, isNonNegativeInt v = Some n -> 0 <= n) as Nn.
  { intros [] n; cbn; try done; [by intros [= <-]|]. destruct (_ && _) eqn:E; [|done]. intros [= <-]. bools. apply Z.div_pos; [done|apply one_pos]. }
  split; [|split; [|done]].
  - intros token c. unfold decodeCursor. destruct (rev (split "." token)) as [|x [|g front]]; try done.
    destruct (_ || _) eqn:E; [done|]. apply orb_false_iff in E as [_ E%String.eqb_neq].
    destruct (isNonNegativeInt (Number_of_string g)) eqn:Eg; [|done]. destruct (isNonNegativeInt (Number_of_string x)) eqn:Ex; [|done].
    intros [= <-]. cbn. eauto.
  - intros token L. unfold decodeCursor. rewrite <- length_rev in L. destruct (rev (split "." token)) as [|x [|g [|f front]]]; try done. cbn in L. lia.
Qed.

Lemma clean_topics_spec parts topics :
  List.NoDup topics ->
  List.NoDup (clean_topics parts topics) /\
  (forall t, In t (clean_topics parts topics) <-> In t topics \/ t <> EmptyString /\ exists part, In part parts /\ trim part = t).
Proof.
  revert topics. induction parts as [|p parts IH]; intros topics Hn; [split; [done|]; intros t; split; [by left|]; by intros [|(_ & ? & [] & _)]|].
  cbn [clean_topics]. destruct (String.eqb_spec (trim p) EmptyString) as [E|E]; [|destruct (has (trim p) topics) eqn:Hh].
  - destruct (IH topics Hn) as [H1 H2]. split; [done|]. intros t. rewrite H2. split; (intros [|(Ht & q & Hq & E')]; [by left|]); right; split; [done| |done|]; exists q; [split; [by right|done]|].
    destruct Hq as [->|Hq]; [congruence|done].
  - destruct (IH topics Hn) as [H1 H2]. split; [done|]. apply has_In in Hh. intros t. rewrite H2.
    split; (intros [|(Ht & q & Hq & E')]; [by left|]); [right; split; [done|]; exists q; split; [by right|done]|].
    destruct Hq as [->|Hq]; [left; congruence|]. right. eauto.
  - apply has_not_In in Hh. destruct (IH (topics ++ [trim p])) as [H1 H2]; [by apply NoDup_snoc|]. split; [done|]. intros t. rewrite H2, in_app_iff. cbn [In].
    split; [intros [[|[<-|[]]]|(Ht & q & Hq & E')]|intros [|(Ht & q & [<-|Hq] & E')]]; eauto 7.
Qed.

Lemma parseTopics_spec raw :
  List.NoDup (parseTopics (Some raw)) /\
  (forall t, In t (parseTopics (Some raw)) <-> t <> EmptyString /\ exists part, In part (split "," raw) /\ trim part = t).
Proof.
  destruct (clean_topics_spec (split "," raw) []) as [H1 H2]; [constructor|]. split; [done|]. intros t. unfold parseTopics. rewrite H2. cbn. tauto.
Qed.

Lemma parseTopics_NoDup raw : List.NoDup (parseTopics raw).
Proof. destruct raw as [raw|]; [apply parseTopics_spec|constructor]. Qed.

(** ** Selection *)

Section Selection.
Context {P : Type} (authorize : P -> string -> outcome JsThrown bool) (principal : P).

Definition allowed (topic : string) : bool := match authorize principal topic with Ok b => b | Throw _ => false end.
Definition answered (topic : string) : Prop := exists b, authorize principal topic = Ok b.

Lemma select_spec i requested maxTopics selection :
  let cap := Z.to_nat (maxTopics - i) in
  let '(asked, r) := select_from authorize principal i requested maxTopics selection in
  match r with
  | Ok s =>
      asked = firstn cap requested /\ List.Forall answered asked /\
      authorized s = authorized selection ++ List.filter allowed asked /\
      dropped s = dropped selection ++ List.filter (fun t => negb (allowed t)) asked ++ skipn cap requested
  | Throw e => exists asked' t after, asked = asked' ++ [t] /\ firstn cap requested = asked ++ after /\ List.Forall answered asked' /\ authorize principal t = Throw e
  end.
Proof.
  revert i selection. induction requested as [|t requested IH]; intros i selection; cbn [select_from].
  { rewrite firstn_nil, skipn_nil. cbn. by rewrite !app_nil_r. }
  destruct (Z.leb_spec maxTopics i) as [L|L].
  - specialize (IH (i + 1) (mkSelection (authorized selection) (dropped selection ++ [t]))). cbv zeta in IH |- *.
    replace (Z.to_nat (maxTopics - i)) with O by lia. replace (Z.to_nat (maxTopics - (i + 1))) with O in IH by lia. cbn [firstn skipn] in *.
    destruct (select_from _ _ _ _ _ _) as [asked [s|e]]; [|exact IH]. destruct IH as (-> & F & -> & ->). cbn. rewrite <- app_assoc. done.
  - replace (Z.to_nat (maxTopics - i)) with (S (Z.to_nat (maxTopics - (i + 1)))) by lia. cbn [firstn skipn].
    destruct (authorize principal t) as [b|e] eqn:A; [|by exists [], t, (firstn (Z.to_nat (maxTopics - (i + 1))) requested)].
    assert (allowed t = b) as Ab by (unfold allowed; by rewrite A).
    specialize (IH (i + 1) (if b then mkSelection (authorized selection ++ [t]) (dropped selection) else mkSelection (authorized selection) (dropped selection ++ [t]))).
    cbv zeta in IH. destruct (select_from _ _ _ _ _ _) as [asked [s|e]].
    + destruct IH as (-> & F & Ea & Ed). split; [done|]. split; [constructor; [by exists b|done]|]. cbn [List.filter]. rewrite Ab, Ea, Ed.
      by destruct b; cbn [authorized dropped negb]; rewrite <- ?app_assoc.
    + destruct IH as (asked' & t' & after & -> & Hf & F & Ht). exists (t :: asked'), t', after. split; [done|]. split; [by rewrite Hf|]. split; [by constructor; [exists b|]|done].
Qed.

(** Fact: which topics a connection gets: those the check allows among the first
    [maxTopics], in order; the rest is dropped, what is past the cap without being asked
    about; and a check that throws ends the selection with its error. *)
Theorem selection_is_exact (requested : list string) (maxTopics : Z) :
  let '(asked, r) := selectAuthorizedTopics authorize principal requested maxTopics in
  (length asked <= Z.to_nat maxTopics)%nat /\
  match r with
  | Ok s =>
      asked = firstn (Z.to_nat maxTopics) requested /\ List.Forall answered asked /\
      authorized s = List.filter allowed asked /\
      Permutation.Permutation (authorized s ++ dropped s) requested
  | Throw e => exists t, In t (firstn (Z.to_nat maxTopics) requested) /\ authorize principal t = Throw e
  end.
Proof.
  unfold selectAuthorizedTopics. pose proof (select_spec 0 requested maxTopics (mkSelection [] [])) as S. cbv zeta in S.
  rewrite Z.sub_0_r in S. destruct (select_from _ _ _ _ _ _) as [asked [s|e]].
  - destruct S as (-> & F & Ea & Ed). split; [apply firstn_le_length|]. split; [done|]. split; [done|]. split; [exact Ea|]. rewrite Ea, Ed. cbn [authorized dropped app].
    rewrite app_assoc. rewrite <- (firstn_skipn (Z.to_nat maxTopics) requested) at 4. apply Permutation.Permutation_app_tail.
    generalize (firstn (Z.to_nat maxTopics) requested). clear. induction l as [|t l IH]; [done|]. cbn [List.filter]. destruct (allowed t); cbn [negb app].
    + by constructor.
    + etransitivity; [symmetry; apply Permutation.Permutation_middle|]. by constructor.
  - destruct S as (asked' & t & after & -> & Hf & _ & Ht). split.
    + apply (f_equal (@length _)) in Hf. rewrite !length_app in Hf. pose proof (firstn_le_length (Z.to_nat maxTopics) requested). rewrite !length_app. lia.
    + exists t. split; [|done]. rewrite Hf. apply in_app_iff. left. apply in_app_iff. right. by left.
Qed.
End Selection.

(** ** The transport *)

(** [start] is not called on a closed transport, and only a client that exists can fail. *)
Definition admissible (e : TransportEvent) (t : Transport) : Prop :=
  match e with CallStart _ => t_closed t = false | ClientError c => (c < t_minted t)%nat | _ => True end.

Inductive transport_reachable (channel : option string) : Transport -> Prop :=
| transport_new : transport_reachable channel (new_transport channel)
| transport_step t e : transport_reachable channel t -> admissible e t -> transport_reachable channel (on_event e t).1.

Record transport_ok (t : Transport) : Prop := {
  ok_replaced : forall c, (c < t_minted t)%nat -> t_client t = Some c \/ In c (t_ended t);
  ok_session : t_reconnecting t = bool_decide (t_session t <> Idle);
  ok_ended : t_session t = Ending \/ t_session t = Delaying -> forall c, (c < t_minted t)%nat -> In c (t_ended t);
  ok_start : t_start t = NotStarted -> t_minted t = O;
  ok_begun : t_session t <> Idle -> (0 < t_minted t)%nat;
  ok_closed : t_closed t = true -> forall c, (c < t_minted t)%nat -> In c (t_ended t)
}.

Lemma session_turn_ok t :
  transport_ok t -> t_reconnecting t = true -> (0 < t_minted t)%nat -> transport_ok (session_turn t).1.
Proof.
  intros [O1 O2 O3 O4 O5 O6] Hr Hm. unfold session_turn, endClient. destruct (t_client t) as [c|] eqn:C; cbn.
  - assert (forall d, (d < t_minted t)%nat -> In d (t_ended t ++ [c])) as All.
    { intros d Hd. apply in_app_iff. destruct (O1 d Hd) as [[= ->]|]; [right; by left|by left]. }
    constructor; cbn; try done; auto.
  - assert (forall d, (d < t_minted t)%nat -> In d (t_ended t)) as All by (intros d Hd; by destruct (O1 d Hd)).
    constructor; cbn; try done; auto.
Qed.

Lemma set_session_ok session t :
  transport_ok t -> t_session t <> Idle -> session <> Idle -> (t_session t = Ending \/ t_session t = Delaying \/ session <> Ending /\ session <> Delaying) ->
  transport_ok (set_session session t).
Proof.
  intros [O1 O2 O3 O4 O5 O6] Ht Hs Hc. constructor; cbn; try done; auto.
  - rewrite O2. by rewrite !bool_decide_eq_true_2.
  - intros Hs' d Hd. apply O3; [|done]. destruct Hc as [|[|[N1 N2]]]; [by left|by right|]. by destruct Hs'.
Qed.

Lemma session_over_ok t : transport_ok t -> transport_ok (session_over t).
Proof. intros [O1 O2 O3 O4 O5 O6]. constructor; cbn; try done; auto. by intros []. Qed.

Lemma set_start_ok start t : transport_ok t -> start <> NotStarted -> transport_ok (set_start start t).
Proof. intros [O1 O2 O3 O4 O5 O6] Hs. by constructor. Qed.

Lemma set_client_None_ok t : transport_ok t -> t_closed t = true -> transport_ok (set_client None t).
Proof. intros [O1 O2 O3 O4 O5 O6] Hc. constructor; cbn; auto. Qed.

Lemma failed_ok t : transport_ok t -> t_session t <> Idle -> transport_ok (session_failed t).1.
Proof.
  intros Ok Hs. unfold session_failed. pose proof (session_turn_ok t Ok) as S. destruct (session_turn t) as [t' e]. apply S.
  - rewrite (ok_session _ Ok). by apply bool_decide_eq_true_2.
  - by apply (ok_begun _ Ok).
Qed.

Lemma on_event_ok e t : transport_ok t -> admissible e t -> transport_ok (on_event e t).1.
Proof.
  intros Ok A. destruct e as [minted|topic| |c ok|c ok|ok|minted|ok| |c|c channel payload]; cbn [on_event admissible] in *; try exact Ok.
  - destruct (t_start t) eqn:S; try exact Ok. destruct minted; [|by apply set_start_ok]. pose proof (ok_start _ Ok S) as M.
    destruct Ok as [O1 O2 O3 O4 O5 O6]. constructor; cbn; rewrite ?M in *; try done; try lia; try congruence.
    + intros c Hc. left. f_equal. lia.
    + intros Hs. assert (t_session t <> Idle) as N by (destruct Hs; congruence). apply O5 in N. lia.
  - by destruct (t_client t).
  - unfold endClient, set_shut. cbn. destruct Ok as [O1 O2 O3 O4 O5 O6]. destruct (t_client t) as [c|] eqn:C; cbn.
    + assert (forall d, (d < t_minted t)%nat -> In d (t_ended t ++ [c])) as All.
      { intros d Hd. apply in_app_iff. destruct (O1 d Hd) as [[= ->]|]; [right; by left|by left]. }
      constructor; cbn; try done; auto.
    + assert (forall d, (d < t_minted t)%nat -> In d (t_ended t)) as All by (intros d Hd; by destruct (O1 d Hd)).
      constructor; cbn; try done; auto.
  - destruct (bool_decide (t_session t = Connecting c)) eqn:D.
    + apply bool_decide_eq_true in D. destruct ok; [|by apply failed_ok; [|rewrite D]]. apply set_session_ok; [done|by rewrite D|done|by right; right].
    + destruct (bool_decide (t_start t = _)); [|exact Ok]. destruct ok; by apply set_start_ok.
  - destruct (bool_decide (t_session t = Listening c)) eqn:D.
    + apply bool_decide_eq_true in D. destruct ok; [by apply session_over_ok|by apply failed_ok; [|rewrite D]].
    + destruct (bool_decide (t_start t = _)); [|exact Ok]. apply set_start_ok; [done|]. by destruct ok.
  - destruct (bool_decide (t_session t = Ending)) eqn:D; [|exact Ok]. apply bool_decide_eq_true in D. apply set_session_ok; [done|by rewrite D|done|by left].
  - destruct (bool_decide (t_session t = Delaying)) eqn:D; [|exact Ok]. apply bool_decide_eq_true in D.
    destruct (t_closed t) eqn:C; [by apply session_over_ok|]. destruct minted; [|by apply failed_ok; [|rewrite D]].
    destruct Ok as [O1 O2 O3 O4 O5 O6]. pose proof (O3 (or_intror D)) as All. constructor; cbn; try done; try congruence.
    + intros c Hc. destruct (Nat.eq_dec c (t_minted t)) as [->|]; [by left|]. right. apply All. lia.
    + rewrite O2, D. by rewrite !bool_decide_eq_true_2.
    + by intros [].
    + intros Ns. specialize (O4 Ns). assert (t_session t <> Idle) as N by by rewrite D. apply O5 in N. lia.
    + lia.
  - destruct (t_closed t) eqn:C; [|exact Ok]. by apply set_client_None_ok.
  - destruct (t_reconnecting t || t_closed t) eqn:R; [exact Ok|]. apply orb_false_iff in R as [R C].
    assert (transport_ok (session_turn (set_reconnecting true t)).1) as S; [|by destruct (session_turn _)].
    unfold session_turn, endClient. cbn. destruct Ok as [O1 O2 O3 O4 O5 O6]. destruct (t_client t) as [d|] eqn:D; cbn.
    + assert (forall x, (x < t_minted t)%nat -> In x (t_ended t ++ [d])) as All.
      { intros x Hx. apply in_app_iff. destruct (O1 x Hx) as [[= ->]|]; [right; by left|by left]. }
      constructor; cbn; try done; auto. lia.
    + assert (forall x, (x < t_minted t)%nat -> In x (t_ended t)) as All by (intros x Hx; by destruct (O1 x Hx)).
      constructor; cbn; try done; auto. lia.
Qed.

Lemma transport_reachable_ok channel t : transport_reachable channel t -> transport_ok t.
Proof.
  induction 1 as [|t e _ IH A]; [|by apply on_event_ok]. constructor; cbn; try done; lia.
Qed.

Definition is_mint (e : TransportEffect) : bool := match e with Mints _ => true | _ => false end.

Lemma session_turn_mints t : existsb is_mint (session_turn t).2 = false.
Proof. unfold session_turn, endClient. by destruct (t_client t). Qed.

(** C27: no client leaks: in every reachable state each client but the current one has been
    ended, so has the current one while its replacement is prepared, and after [close] every
    one of them; a closed transport stays closed and mints no client; and at most one
    reconnect session runs, an error during it changing nothing. This is the life of a
    transport on which [start] is called once: a [start] after [close] would mint again. *)
Theorem transport_never_leaks (channel : option string) (t : Transport) :
  transport_reachable channel t ->
  (forall c, (c < t_minted t)%nat -> t_client t = Some c \/ In c (t_ended t)) /\
  (t_session t = Ending \/ t_session t = Delaying \/ t_closed t = true -> forall c, (c < t_minted t)%nat -> In c (t_ended t)) /\
  (t_closed t = true -> forall e, admissible e t -> t_closed (on_event e t).1 = true /\ existsb is_mint (on_event e t).2 = false) /\
  (t_session t <> Idle -> forall c, on_event (ClientError c) t = (t, [Reports])).
Proof.
  intros R. pose proof (transport_reachable_ok _ _ R) as Ok. split; [apply (ok_replaced _ Ok)|]. split; [|split].
  - intros [|[|]]; [apply (ok_ended _ Ok); by left|apply (ok_ended _ Ok); by right|by apply (ok_closed _ Ok)].
  - intros C e A. assert (forall t', t_closed t' = true -> t_closed (session_failed t').1 = true /\ existsb is_mint (session_failed t').2 = false) as SF.
    { intros t' C'. unfold session_failed. pose proof (session_turn_mints t') as M. unfold session_turn, endClient in *. by destruct (t_client t'). }
    destruct e as [minted|topic| |c ok|c ok|ok|minted|ok| |c|c ch payload]; cbn [on_event admissible] in *.
    + congruence.
    + by destruct (t_client t).
    + unfold endClient. by destruct (t_client (set_shut t)).
    + destruct (bool_decide _); [destruct ok; [done|by apply SF]|]. destruct (bool_decide _); [by destruct ok|done].
    + destruct (bool_decide _); [destruct ok; [done|by apply SF]|]. by destruct (bool_decide _).
    + destruct (bool_decide _); [|done]. by destruct ok.
    + destruct (bool_decide _); [|done]. by rewrite C.
    + rewrite C. by destruct ok.
    + done.
    + rewrite C, orb_true_r. done.
    + split; [done|]. unfold onNotification. destruct (negb _); [done|]. destruct payload as [p|]; [|done]. destruct (String.eqb _ _); [done|]. by destruct (t_handled t).
  - intros Hs c. cbn [on_event]. rewrite (ok_session _ Ok), bool_decide_eq_true_2 by done. done.
Qed.

(** How an attempt to reconnect fails. *)
Inductive Failure : Type := MintFails | ConnectFails | ListenFails.

(** The promises of a session, from an [end] that settles: the failed attempts, then one
    that works. Clients are numbered from [next]. *)
Fixpoint attempts (next : nat) (failures : list Failure) : list TransportEvent :=
  match failures with
  | [] => [EndSettled true; DelayOver true; Connected next true; Listened next true]
  | MintFails :: failures' => EndSettled true :: DelayOver false :: attempts next failures'
  | ConnectFails :: failures' => EndSettled true :: DelayOver true :: Connected next false :: attempts (S next) failures'
  | ListenFails :: failures' => EndSettled true :: DelayOver true :: Connected next true :: Listened next false :: attempts (S next) failures'
  end.

Definition is_bump (e : TransportEffect) : bool := match e with BumpsGeneration => true | _ => false end.

Lemma on_events_app l l' t :
  on_events (l ++ l') t = ((on_events l' (on_events l t).1).1, (on_events l t).2 ++ (on_events l' (on_events l t).1).2).
Proof.
  revert t. induction l as [|e l IH]; intros t; cbn; [by destruct (on_events l' t)|]. destruct (on_event e t) as [t1 e1]. rewrite (IH t1).
  destruct (on_events l t1) as [t2 e2]. cbn. by rewrite app_assoc.
Qed.

(** A promise that the session is waiting for. *)
Ltac awaits := repeat match goal with |- context [bool_decide (?x = ?x)] => rewrite (bool_decide_eq_true_2 (x = x)) by done; cbn end.

(** C40: a reconnect session recovers: however many attempts fail, and wherever, once one
    works the transport listens on the client minted last, the session is over and the
    generation was bumped once, at the end. *)
Theorem reconnect_recovers (t : Transport) (failures : list Failure) :
  t_session t = Ending -> t_reconnecting t = true -> t_closed t = false -> t_client t <> None ->
  let '(t', effects) := on_events (attempts (t_minted t) failures) t in
  t_session t' = Idle /\ t_reconnecting t' = false /\ t_client t' = Some (pred (t_minted t')) /\
  exists before, effects = before ++ [Listens (pred (t_minted t')); BumpsGeneration] /\ existsb is_bump before = false.
Proof.
  revert t. induction failures as [|f failures IH]; intros t Hs Hr Hc Hn.
  - destruct t as [ch h cl cd rc ses st mi en]. cbn in Hs, Hr, Hc, Hn |- *. subst ses rc cd.
    awaits. split; [done|]. split; [done|]. split; [done|]. by exists [Mints mi; Connects mi].
  - assert (exists events t1 effects1, attempts (t_minted t) (f :: failures) = events ++ attempts (t_minted t1) failures /\ on_events events t = (t1, effects1) /\
      t_session t1 = Ending /\ t_reconnecting t1 = true /\ t_closed t1 = false /\ t_client t1 <> None /\ existsb is_bump effects1 = false) as
      (events & t1 & effects1 & -> & E & S1 & R1 & C1 & N1 & B1).
    { destruct t as [ch h cl cd rc ses st mi en]. cbn in Hs, Hr, Hc, Hn |- *. subst ses rc cd. destruct cl as [c|]; [|done]. destruct f.
      - exists [EndSettled true; DelayOver false]. do 2 eexists. split; [|split].
        2: { cbn. awaits. reflexivity. } all: done.
      - exists [EndSettled true; DelayOver true; Connected mi false]. do 2 eexists. split; [|split].
        2: { cbn. awaits. reflexivity. } all: done.
      - exists [EndSettled true; DelayOver true; Connected mi true; Listened mi false]. do 2 eexists. split; [|split].
        2: { cbn. awaits. reflexivity. } all: done. }
    rewrite on_events_app, E. cbn [fst snd]. specialize (IH t1 S1 R1 C1 N1). destruct (on_events (attempts (t_minted t1) failures) t1) as [t2 e2].
    cbn [fst snd]. destruct IH as (I1 & I2 & I3 & before & -> & I4). split; [done|]. split; [done|]. split; [done|]. exists (effects1 ++ before).
    split; [by rewrite app_assoc|]. by rewrite existsb_app, B1.
Qed.

(** ** The theorems at concrete states *)

Lemma replay_is_exact_witness :
  let ring := record_all [("a", 1, 1); ("b", 2, 2); ("a", 3, 3)]%string (new_ring "n1" 100 60000 None) in
  exists topics, reconcile ring (mkCursor "n1" 0 1) = Replay topics /\ List.NoDup topics /\ (In "a"%string topics <-> True).
Proof.
  cbv zeta. pose proof (replay_is_exact (new_ring "n1" 100 60000 None) [("a"%string, 1, 1); ("b"%string, 2, 2); ("a"%string, 3, 3)] (mkCursor "n1" 0 1)
    (conj eq_refl eq_refl) ltac:(cbn; lia)) as R.
  eexists. split; [vm_compute; reflexivity|]. destruct R as (_ & _ & N & I). split; [exact N|]. rewrite I. vm_compute. tauto.
Defined.

Definition replaced : Transport :=
  (on_events [CallStart true; Connected 0 true; Listened 0 true; ClientError 0; EndSettled true; DelayOver true; CallClose] (new_transport None)).1.

Lemma replaced_reachable : transport_reachable None replaced.
Proof.
  assert (forall es t, transport_reachable None t -> (forall e, In e es -> match e with CallStart _ | ClientError _ => False | _ => True end) ->
    transport_reachable None (on_events es t).1) as Steps.
  { induction es as [|e es IH]; intros t R H; [exact R|]. cbn [on_events]. pose proof (transport_step None t e R) as S. specialize (H e (or_introl eq_refl)) as He.
    destruct (on_event e t) as [t1 e1]. specialize (IH t1). destruct (on_events es t1) as [t2 e2]. apply IH; [apply S; by destruct e|]. intros x Hx. apply H. by right. }
  assert (replaced = (on_events [EndSettled true; DelayOver true; CallClose]
    (on_event (ClientError 0) (on_events [Connected 0 true; Listened 0 true] (on_event (CallStart true) (new_transport None)).1).1).1).1) as -> by (vm_compute; reflexivity).
  apply Steps; [|intros e [<-|[<-|[<-|[]]]]; exact I]. apply transport_step; [|vm_compute; lia].
  apply Steps; [|intros e [<-|[<-|[]]]; exact I]. apply transport_step; [apply transport_new|reflexivity].
Qed.

Lemma transport_never_leaks_witness : In 1%nat (t_ended replaced) /\ existsb is_mint (on_event (DelayOver true) replaced).2 = false.
Proof.
  destruct (transport_never_leaks None replaced replaced_reachable) as (_ & E & C & _). split.
  - apply E; [right; right; reflexivity|vm_compute; lia].
  - apply C; [reflexivity|exact I].
Defined.

Definition interrupted : Transport :=
  (on_events [CallStart true; Connected 0 true; Listened 0 true; ClientError 0] (new_transport None)).1.

Lemma reconnect_recovers_witness :
  t_session (on_events (attempts (t_minted interrupted) [ConnectFails; MintFails; ListenFails]) interrupted).1 = Idle.
Proof.
  pose proof (reconnect_recovers interrupted [ConnectFails; MintFails; ListenFails] eq_refl eq_refl eq_refl ltac:(discriminate)) as R.
  destruct (on_events _ interrupted) as [t effects]. exact (proj1 R).
Defined.
