(* ===== verification/RealtimeStreams.v ===== *)
(** * Realtime: what open streams are told

    Every frame of a stream names a topic the stream was authorized for; a stream that stays
    open is sent every topic its process hears, and one that reconnects with a cursor is
    told of all it missed. Where continuity is assumed rather than proved, topics are lost. *)
From Stdlib Require Import Sorting.Permutation.
From S2P Require Import Prelude JsString JsMap JsNumber Web PubSub PubSubProps Realtime RealtimeProps.
#[local] Open Scope string_scope.
#[local] Open Scope Z_scope.
#[local] Open Scope list_scope.

(** ** What holds of a process *)

Definition live_listener (p : Process) (topic : string) (l : Listener) : Prop :=
  exists s, streams p !! l.1 = Some s /\ st_torn s = false /\ st_topics s !! l.2 = Some topic.

Definition subscriptions (id : nat) (topics : list string) : list (string * Listener) := imap (fun i topic => (topic, (id, i))) topics.

(** A frame a stream for these topics may be sent. *)
Definition scoped (topics : list string) (frame : string) : Prop :=
  frame = commentFrame "ping" \/ (exists c, frame = resyncFrame c) \/ exists topic c, In topic topics /\ frame = invalidateFrame topic c.

Record stream_ok (id : nat) (s : LiveStream) : Prop := {
  ok_torn : closed (st_connection s) = st_torn s;
  ok_live : st_torn s = false -> ct_state (controller (st_connection s)) = Readable /\ st_unsubscribes s = subscriptions id (st_topics s);
  ok_scoped : List.Forall (scoped (st_topics s)) (ct_written (controller (st_connection s)))
}.

Record process_ok (p : Process) : Prop := {
  ok_hub : hub_wf (hub p);
  ok_listeners : forall topic l, In l (members (hub p) topic) <-> live_listener p topic l;
  ok_streams : forall id s, streams p !! id = Some s -> stream_ok id s
}.

Lemma unsubscribe_all_spec offs (h : JsMap (list Listener)) :
  hub_wf h ->
  hub_wf (fold_left (fun h off => unsubscribe off.1 off.2 h) offs h) /\
  forall c l, In l (members (fold_left (fun h off => unsubscribe off.1 off.2 h) offs h) c) <-> In l (members h c) /\ ~ In (c, l) offs.
Proof.
  revert h. induction offs as [|[t x] offs IH]; intros h W; cbn [fold_left]; [split; [done|]; intros c l; cbn; tauto|].
  destruct (IH (unsubscribe t x h) (unsubscribe_wf t x h W)) as [W' M]. split; [done|]. intros c l. cbn [fst snd] in M. rewrite M, members_unsubscribe.
  cbn [In fst snd]. destruct (String.eqb_spec c t) as [->|N].
  - unfold set_delete. rewrite filter_negb_In, bool_decide_eq_false. split.
    + intros [[? Hn] ?]. split; [done|]. intros [[= <-]|]; done.
    + intros [? Hn]. repeat split; [done| |]; intros H'; apply Hn; [left; by rewrite H'|by right].
  - split; [intros [? Hn]; split; [done|]; intros [[= <- <-]|]; done|]. intros [? Hn]. split; [done|]. intros H'. apply Hn. by right.
Qed.

Lemma subscribe_all_spec subs (h : JsMap (list Listener)) :
  hub_wf h ->
  hub_wf (fold_left (fun h sub => subscribe sub.1 sub.2 h) subs h) /\
  forall c l, In l (members (fold_left (fun h sub => subscribe sub.1 sub.2 h) subs h) c) <-> In l (members h c) \/ In (c, l) subs.
Proof.
  revert h. induction subs as [|[t x] subs IH]; intros h W; cbn [fold_left]; [split; [done|]; intros c l; cbn; tauto|].
  destruct (IH (subscribe t x h) (subscribe_wf t x h W)) as [W' M]. split; [done|]. intros c l. cbn [fst snd] in M. rewrite M, members_subscribe.
  cbn [In fst snd]. destruct (String.eqb_spec c t) as [->|N].
  - unfold set_add. assert (In l (if has x (members h t) then members h t else members h t ++ [x]) <-> In l (members h t) \/ x = l) as ->.
    { destruct (has x (members h t)) eqn:Hx; [apply has_In in Hx|rewrite in_app_iff; cbn]; [|tauto]. split; [by left|]. by intros [|<-]. }
    clear. naive_solver.
  - clear -N. naive_solver.
Qed.

Lemma In_subscriptions id topics c l : In (c, l) (subscriptions id topics) <-> l.1 = id /\ topics !! l.2 = Some c.
Proof.
  unfold subscriptions. rewrite <- list_elem_of_In, elem_of_lookup_imap. split.
  - intros (i & t & [= -> ->] & Ht). done.
  - intros [<- Ht]. exists l.2, c. split; [by destruct l|done].
Qed.

Lemma teardown_ok id p : process_ok p -> process_ok (teardown id p).
Proof.
  intros [W M S]. unfold teardown. destruct (streams p !! id) as [s|] eqn:E; [|by constructor]. destruct (st_torn s) eqn:T; [by constructor|].
  destruct (S id s E) as [S1 S2 S3]. destruct (S2 T) as [R U]. destruct (unsubscribe_all_spec (st_unsubscribes s) (hub p) W) as [W' M'].
  constructor; cbn [hub set_hub update_stream streams]; [done| |].
  - intros topic l. rewrite M', M, U, In_subscriptions. unfold live_listener. cbn [update_stream streams set_hub]. rewrite list_lookup_alter.
    destruct (decide (id = l.1)) as [<-|N]; cbn.
    + rewrite E. cbn. split; [|by intros (s' & [= <-] & F & _)]. intros [(s' & [= <-] & _ & Ht) Hn]. exfalso. by apply Hn.
    + split; [by intros [H _]|]. intros H. split; [done|]. by intros [Hl _].
  - intros id' s'. rewrite list_lookup_alter. destruct (decide (id = id')) as [<-|N]; cbn; [|apply S]. rewrite E. cbn. intros [= <-].
    unfold close. rewrite S1, T. unfold safeClose, set_closed. cbn [controller closed]. unfold close_controller. rewrite R.
    constructor; cbn; try done. destruct (Nat.leb _ _); cbn; exact S3.
Qed.

(** ** What a stream is sent, and what it is owed *)

(** The frames of a stream that is still open; [None] once it is torn down. *)
Definition sent (id : nat) (p : Process) : option (list string) :=
  match streams p !! id with
  | Some s => if st_torn s then None else Some (ct_written (controller (st_connection s)))
  | None => None
  end.

Definition topics_of (id : nat) (p : Process) : list string :=
  match streams p !! id with Some s => st_topics s | None => [] end.

Definition frame_of (topic : string) (c : Cursor) : string := invalidateFrame topic (encodeCursor c).

(** The frames that listeners still to be called are about to write to a stream. *)
Definition owed (id : nat) (topics : list string) (ls : list Listener) (c : Cursor) : list string :=
  flat_map (fun l => if Nat.eqb l.1 id then match topics !! l.2 with Some topic => [frame_of topic c] | None => [] end else []) ls.

Definition owed_all (id : nat) (topics : list string) (m : list Publication) : list string :=
  flat_map (fun pb => owed id topics (pb_left pb) (pb_cursor pb)) m.

Lemma owed_cons id topics l ls c : owed id topics (l :: ls) c = owed id topics [l] c ++ owed id topics ls c.
Proof. unfold owed. cbn [flat_map]. by rewrite app_nil_r. Qed.

Lemma owed_all_app id topics m m' : owed_all id topics (m ++ m') = owed_all id topics m ++ owed_all id topics m'.
Proof. apply flat_map_app. Qed.

Lemma emit_readable frame conn :
  ct_state (controller conn) = Readable ->
  exists ct, emit frame conn = mkConnection (closed conn) ct /\ ct_state ct = Readable /\ ct_written ct = ct_written (controller conn) ++ [frame].
Proof. intros R. unfold emit, enqueue. rewrite R. destruct (ct_wanted (controller conn)); by eexists. Qed.

Lemma safeClose_readable conn :
  ct_state (controller conn) = Readable -> closed (safeClose conn) = closed conn /\ ct_written (controller (safeClose conn)) = ct_written (controller conn).
Proof. intros R. unfold safeClose, close_controller. rewrite R. by destruct (Nat.leb _ _). Qed.

Lemma scoped_resync topics c : scoped topics (resyncFrame c).
Proof. right. left. by exists c. Qed.
Lemma scoped_invalidate topics topic c : In topic topics -> scoped topics (invalidateFrame topic c).
Proof. intros Ht. right. right. by exists topic, c. Qed.
Lemma scoped_snoc topics l f : List.Forall (scoped topics) l -> scoped topics f -> List.Forall (scoped topics) (l ++ [f]).
Proof. intros Hl Hf. apply List.Forall_app. split; [done|]. constructor; [done|constructor]. Qed.

Lemma stream_deliver_ok id s topic c :
  stream_ok id s -> st_torn s = false -> In topic (st_topics s) ->
  let '(conn, overflow) := deliver topic c (st_connection s) in
  if overflow : bool then
    closed conn = true /\ List.Forall (scoped (st_topics s)) (ct_written (controller conn))
  else closed conn = false /\ ct_state (controller conn) = Readable /\
    ct_written (controller conn) = ct_written (controller (st_connection s)) ++ [frame_of topic c].
Proof.
  intros [S1 S2 S3] T Ht. destruct (S2 T) as [R _]. unfold deliver. rewrite S1, T. destruct (isFull (st_connection s)).
  - destruct (emit_readable (resyncFrame (encodeCursor c)) _ R) as (ct & -> & Rc & Ew).
    destruct (safeClose_readable (set_closed (mkConnection (closed (st_connection s)) ct)) Rc) as [-> ->]. split; [done|].
    cbn [set_closed controller]. rewrite Ew. apply scoped_snoc; [done|apply scoped_resync].
  - destruct (emit_readable (invalidateFrame topic (encodeCursor c)) _ R) as (ct & -> & Rc & Ew). cbn [closed controller]. by rewrite S1, T.
Qed.

Lemma update_ok id f p s :
  process_ok p -> streams p !! id = Some s -> st_topics (f s) = st_topics s -> st_torn (f s) = st_torn s -> stream_ok id (f s) ->
  process_ok (update_stream id f p).
Proof.
  intros [W M S] E Ht Hn Ok. constructor; cbn [hub update_stream streams]; [done| |].
  - intros topic l. rewrite M. unfold live_listener. cbn [update_stream streams]. rewrite list_lookup_alter.
    destruct (decide (id = l.1)) as [<-|]; [|done]. rewrite E. cbn. split; intros (x & [= <-] & H1 & H2).
    + exists (f s). rewrite Ht, Hn. done.
    + exists s. rewrite <- Ht, <- Hn. done.
  - intros id' s'. rewrite list_lookup_alter. destruct (decide (id = id')) as [<-|]; [|apply S]. rewrite E. cbn. by intros [= <-].
Qed.

(** Nothing but the streams' connections and the hub moves. *)
Definition kept (p p' : Process) : Prop := ring p' = ring p /\ length (streams p') = length (streams p) /\ forall id, topics_of id p' = topics_of id p.

Lemma same_streams_refl p : kept p p.
Proof. by split. Qed.

Lemma same_streams_trans p1 p2 p3 : kept p1 p2 -> kept p2 p3 -> kept p1 p3.
Proof. intros (A1 & A2 & A3) (B1 & B2 & B3). split; [congruence|]. split; [congruence|]. intros id. by rewrite B3. Qed.

Lemma kept_update id f p : (forall s, st_topics (f s) = st_topics s) -> kept p (update_stream id f p).
Proof.
  intros Hf. split; [done|]. split; [apply length_alter|]. intros id'. unfold topics_of. cbn [update_stream streams]. rewrite list_lookup_alter.
  destruct (decide (id = id')) as [<-|]; [|done]. destruct (streams p !! id); cbn; [apply Hf|done].
Qed.

Lemma kept_set_hub h p : kept p (set_hub h p).
Proof. by split. Qed.

Lemma kept_teardown id p : kept p (teardown id p).
Proof.
  unfold teardown. destruct (streams p !! id) as [s|] eqn:E; [|apply same_streams_refl]. destruct (st_torn s); [apply same_streams_refl|].
  by apply (same_streams_trans _ (set_hub (fold_left (fun h off => unsubscribe off.1 off.2 h) (st_unsubscribes s) (hub p)) p)); [|apply kept_update].
Qed.

Lemma sent_teardown id id' p : sent id' (teardown id p) = if Nat.eqb id id' then None else sent id' p.
Proof.
  unfold teardown, sent. destruct (streams p !! id) as [s|] eqn:E.
  - destruct (st_torn s) eqn:T; [|cbn [update_stream streams set_hub]; rewrite list_lookup_alter];
      destruct (Nat.eqb_spec id id') as [<-|N]; rewrite ?E, ?T; try done.
    + by rewrite decide_True by done.
    + by rewrite decide_False by done.
  - destruct (Nat.eqb_spec id id') as [<-|N]; [by rewrite E|done].
Qed.

Lemma microtasks_teardown id p : microtasks (teardown id p) = microtasks p.
Proof. unfold teardown. destruct (streams p !! id) as [s|]; [|done]. by destruct (st_torn s). Qed.

(** A stream that is torn down as it is changed. *)
Lemma torn_with id f p s :
  streams p !! id = Some s -> st_torn (f s) = false -> st_torn s = false -> st_unsubscribes (f s) = st_unsubscribes s ->
  teardown id (update_stream id f p) =
    set_hub (hub (teardown id p)) (update_stream id (fun _ => mkStream (st_topics (f s)) (close (st_connection (f s))) true (st_unsubscribes (f s))) p).
Proof.
  intros E Hf T Hu. unfold teardown, update_stream, set_hub. cbn [streams hub]. rewrite list_lookup_alter, decide_True, E by done.
  cbn [fmap option_fmap option_map]. rewrite Hf, T. cbn. rewrite Hu. f_equal. rewrite list_alter_alter, decide_True by done.
  apply list_alter_ext; [|done]. intros x Hx. rewrite E in Hx. injection Hx as <-. cbn. by rewrite Hu.
Qed.

Lemma replace_torn id p s s' :
  process_ok p -> streams p !! id = Some s -> st_torn s = false -> stream_ok id s' -> st_topics s' = st_topics s -> st_torn s' = true ->
  let p' := set_hub (hub (teardown id p)) (update_stream id (fun _ => s') p) in
  process_ok p' /\ kept p p' /\ forall id', sent id' p' = if Nat.eqb id id' then None else sent id' p.
Proof.
  intros Ok E T Ok' Et T'. cbv zeta. pose proof (teardown_ok id p Ok) as [W M S]. split; [|split].
  - constructor; cbn [hub set_hub streams update_stream]; [exact W| |].
    + intros t x. rewrite M. unfold live_listener. cbn [set_hub streams update_stream]. rewrite list_lookup_alter. unfold teardown. rewrite E, T.
      cbn [update_stream streams set_hub]. rewrite list_lookup_alter. destruct (decide (id = x.1)) as [_|]; [|done]. rewrite E. cbn.
      split; intros (y & [= <-] & F & _); cbn in F; congruence.
    + intros id' x. rewrite list_lookup_alter. destruct (decide (id = id')) as [<-|N]; [rewrite E; cbn; by intros [= <-]|apply (ok_streams _ Ok)].
  - split; [done|]. split; [apply length_alter|]. intros id'. unfold topics_of. cbn [set_hub update_stream streams]. rewrite list_lookup_alter.
    destruct (decide (id = id')) as [<-|]; [by rewrite E|done].
  - intros id'. unfold sent. cbn [set_hub streams update_stream]. rewrite list_lookup_alter.
    destruct (Nat.eqb_spec id id') as [<-|N]; [rewrite decide_True, E by done; cbn; by rewrite T'|by rewrite decide_False by done].
Qed.

(** A listener's call: its stream is sent the frame or torn down, the others are left
    alone. *)
Lemma listen_spec l c p :
  process_ok p ->
  process_ok (listen l c p) /\ kept p (listen l c p) /\ microtasks (listen l c p) = microtasks p /\
  forall id, sent id (listen l c p) = None \/ exists w, sent id p = Some w /\ sent id (listen l c p) = Some (w ++ owed id (topics_of id p) [l] c).
Proof.
  intros Ok. unfold listen. destruct (streams p !! l.1) as [s|] eqn:E.
  2: { split; [done|]. split; [apply same_streams_refl|]. split; [done|]. intros id. destruct (sent id p) as [w|] eqn:Sw; [|by left]. right. exists w. split; [done|].
       cbn [owed flat_map app]. destruct (Nat.eqb_spec l.1 id) as [<-|]; [|by rewrite app_nil_r]. unfold topics_of. rewrite E. by rewrite app_nil_r. }
  destruct (st_topics s !! l.2) as [topic|] eqn:Et.
  2: { split; [done|]. split; [apply same_streams_refl|]. split; [done|]. intros id. destruct (sent id p) as [w|] eqn:Sw; [|by left]. right. exists w. split; [done|].
       cbn [owed flat_map app]. destruct (Nat.eqb_spec l.1 id) as [<-|]; [|by rewrite app_nil_r]. unfold topics_of. rewrite E, Et. by rewrite app_nil_r. }
  pose proof (ok_streams _ Ok _ _ E) as So. assert (In topic (st_topics s)) as It by (apply list_elem_of_In; by apply list_elem_of_lookup_2 in Et).
  destruct (st_torn s) eqn:T.
  - unfold deliver. rewrite (ok_torn _ _ So), T. split; [|split; [by apply kept_update|split; [done|]]].
    + apply (update_ok _ _ _ s); try done. destruct s; exact So.
    + intros id. destruct (sent id p) as [w|] eqn:Sw.
      * right. exists w. split; [done|]. unfold sent in *. cbn [update_stream streams]. rewrite list_lookup_alter. cbn [owed flat_map].
        destruct (decide (l.1 = id)) as [<-|N]; [rewrite E, T in Sw; done|]. rewrite (proj2 (Nat.eqb_neq _ _) N). by rewrite app_nil_r.
      * left. unfold sent in *. cbn [update_stream streams]. rewrite list_lookup_alter. destruct (decide (l.1 = id)) as [<-|N]; [|done]. rewrite E in *. cbn. by rewrite T.
  - pose proof (stream_deliver_ok _ s topic c So T It) as D. destruct (deliver topic c (st_connection s)) as [conn overflow]. destruct overflow.
    + destruct D as [D1 D2]. rewrite (torn_with l.1 (set_connection conn) p s) by done.
      set (s1 := mkStream _ _ true _). assert (stream_ok l.1 s1) as So1 by (constructor; cbn; unfold close; by rewrite D1).
      destruct (replace_torn l.1 p s s1 Ok E T So1 eq_refl eq_refl) as (Ok1 & K1 & Sent1). split; [done|]. split; [done|]. split; [done|].
      intros id. rewrite Sent1. cbn [owed flat_map]. destruct (Nat.eqb_spec l.1 id) as [|N]; [by left|].
      destruct (sent id p) as [w|]; [|by left]. right. exists w. split; [done|]. by rewrite app_nil_r.
    + destruct D as (D1 & D2 & D3). split; [|split; [by apply kept_update|split; [done|]]].
      * apply (update_ok _ _ _ s); try done. constructor; cbn; rewrite ?T, ?D1; [done| |].
        -- intros _. split; [done|]. by apply (ok_live _ _ So).
        -- rewrite D3. apply scoped_snoc; [apply (ok_scoped _ _ So)|by apply scoped_invalidate].
      * intros id. unfold sent. cbn [update_stream streams]. rewrite list_lookup_alter. cbn [owed flat_map].
        destruct (decide (l.1 = id)) as [<-|N].
        -- rewrite E. cbn. rewrite T, Nat.eqb_refl. right. eexists. split; [done|]. unfold topics_of. rewrite E, Et. by rewrite D3.
        -- rewrite (proj2 (Nat.eqb_neq _ _) N). destruct (streams p !! id) as [s'|]; [|by left]. destruct (st_torn s'); [by left|]. right. eexists. split; [done|]. by rewrite app_nil_r.
Qed.

(** From [p] to [p'] a stream that is still open was sent what it was owed, and [extra]. *)
Definition pays (id : nat) (extra : list string) (p p' : Process) : Prop :=
  sent id p' = None \/
  exists w w', sent id p = Some w /\ sent id p' = Some w' /\
    Permutation (w' ++ owed_all id (topics_of id p) (microtasks p')) (w ++ extra ++ owed_all id (topics_of id p) (microtasks p)).

Lemma pays_trans id x y p1 p2 p3 : kept p1 p2 -> pays id x p1 p2 -> pays id y p2 p3 -> pays id (x ++ y) p1 p3.
Proof.
  intros (_ & _ & K) [A|(w1 & w2 & A1 & A2 & A3)] [B|(v2 & v3 & B1 & B2 & B3)]; try by left.
  - congruence.
  - right. rewrite A2 in B1. injection B1 as <-. exists w1, v3. split; [done|]. split; [done|]. rewrite K in B3. etransitivity; [exact B3|].
    rewrite (Permutation_app_comm y), app_assoc, A3, <- !app_assoc. do 2 apply Permutation_app_head. apply Permutation_app_comm.
Qed.

Lemma pays_refl id p : pays id [] p p.
Proof. unfold pays. destruct (sent id p) as [w|]; [right; by exists w, w|by left]. Qed.

Lemma resume_spec pb p :
  process_ok p ->
  process_ok (resume pb p) /\ kept p (resume pb p) /\
  forall id, pays id (owed id (topics_of id p) (pb_left pb) (pb_cursor pb)) p (resume pb p).
Proof.
  intros Ok. unfold resume. destruct (pb_left pb) as [|l others]; [split; [done|]; split; [apply same_streams_refl|]; intros id; apply pays_refl|].
  destruct (listen_spec l (pb_cursor pb) p Ok) as (Ok' & K & Em & Sent). split; [destruct Ok'; by constructor|]. split; [destruct K; by split|].
  intros id. destruct (Sent id) as [N|(w & Ew & Ew')]; [left; exact N|]. right. exists w, (w ++ owed id (topics_of id p) [l] (pb_cursor pb)). split; [exact Ew|]. split; [exact Ew'|].
  cbn [set_microtasks microtasks]. rewrite Em, owed_all_app. cbn [owed_all flat_map pb_left pb_cursor]. rewrite app_nil_r, <- app_assoc.
  apply Permutation_app_head. rewrite (owed_cons _ _ l others), <- app_assoc. apply Permutation_app_head. apply Permutation_app_comm.
Qed.

Lemma run_microtasks_spec fuel p :
  process_ok p ->
  process_ok (run_microtasks fuel p) /\ kept p (run_microtasks fuel p) /\ forall id, pays id [] p (run_microtasks fuel p).
Proof.
  revert p. induction fuel as [|fuel IH]; intros p Ok; [split; [done|]; split; [apply same_streams_refl|]; intros id; apply pays_refl|].
  cbn [run_microtasks]. destruct (microtasks p) as [|pb rest] eqn:M; [split; [done|]; split; [apply same_streams_refl|]; intros id; apply pays_refl|].
  assert (process_ok (set_microtasks rest p)) as Ok1 by (destruct Ok; by constructor).
  destruct (resume_spec pb _ Ok1) as (Ok2 & K2 & P2). destruct (IH _ Ok2) as (Ok3 & K3 & P3).
  split; [done|]. split; [by eapply same_streams_trans; [|exact K3]; destruct K2; split|]. intros id.
  assert (pays id [] p (resume pb (set_microtasks rest p))) as P1.
  { destruct (P2 id) as [N|(w & w' & E1 & E2 & E3)]; [by left|]. right. exists w, w'. split; [exact E1|]. split; [exact E2|]. rewrite M. exact E3. }
  change (@nil string) with (@nil string ++ []). apply (pays_trans id [] [] p _ _ (same_streams_trans _ (set_microtasks rest p) _ (conj eq_refl (conj eq_refl (fun _ => eq_refl))) K2) P1 (P3 id)).
Qed.

Lemma turns_app m m' (p : Process) :
  fold_right (fun pb n => (S (length (pb_left pb)) + n)%nat) O (m ++ m') =
  (fold_right (fun pb n => (S (length (pb_left pb)) + n)%nat) O m + fold_right (fun pb n => (S (length (pb_left pb)) + n)%nat) O m')%nat.
Proof. induction m as [|pb m IH]; cbn in *; [done|]. rewrite IH. lia. Qed.

(** The microtasks come to an end. *)
Lemma run_microtasks_ends fuel p : process_ok p -> (turns p <= fuel)%nat -> microtasks (run_microtasks fuel p) = [].
Proof.
  revert p. induction fuel as [|fuel IH]; intros p Ok L; cbn [run_microtasks].
  - unfold turns in L. destruct (microtasks p); [done|]. cbn in L. lia.
  - destruct (microtasks p) as [|pb rest] eqn:M; [done|]. assert (process_ok (set_microtasks rest p)) as Ok1 by (destruct Ok; by constructor).
    apply IH; [by apply resume_spec|]. unfold turns in *. rewrite M in L. cbn [fold_right] in L. unfold resume.
    destruct (pb_left pb) as [|l others]; [cbn in *; lia|]. destruct (listen_spec l (pb_cursor pb) _ Ok1) as (_ & _ & Em & _).
    cbn [set_microtasks microtasks]. rewrite Em. cbn [set_microtasks microtasks]. rewrite (turns_app _ _ p). cbn in *. lia.
Qed.

Lemma turns_spec p :
  process_ok p -> process_ok (drain p) /\ kept p (drain p) /\ microtasks (drain p) = [] /\ forall id, pays id [] p (drain p).
Proof.
  intros Ok. unfold drain. destruct (run_microtasks_spec (turns p) p Ok) as (A & B & C). split; [done|]. split; [done|]. split; [by apply run_microtasks_ends|done].
Qed.

(** A stream that is open listens to a topic once, if it is one of its own. *)
Lemma owed_members id p s topic c :
  process_ok p -> streams p !! id = Some s -> st_torn s = false -> List.NoDup (st_topics s) ->
  owed id (st_topics s) (members (hub p) topic) c = if has topic (st_topics s) then [frame_of topic c] else [].
Proof.
  intros [W M _] E T Nd. assert (List.NoDup (members (hub p) topic)) as Nm.
  { destruct W as [_ W]. unfold members. destruct (map_get topic (hub p)) as [l|] eqn:G; [by apply (W topic)|constructor]. }
  assert (forall l, In l (members (hub p) topic) -> l.1 = id -> st_topics s !! l.2 = Some topic) as Own.
  { intros l Hl <-. apply M in Hl as (s' & E' & _ & Ht). congruence. }
  assert (has topic (st_topics s) = existsb (fun l : Listener => Nat.eqb l.1 id) (members (hub p) topic)) as ->.
  { apply eq_true_iff_eq. rewrite has_In, existsb_exists. split.
    - intros (i & Hi)%list_elem_of_In%list_elem_of_lookup. exists (id, i). split; [apply M; by exists s|apply Nat.eqb_refl].
    - intros (l & Hl & El%Nat.eqb_eq). apply list_elem_of_In, list_elem_of_lookup. exists l.2. by apply Own. }
  clear M W. revert Nm Own. generalize (members (hub p) topic). induction l as [|l ls IH]; intros Nm Own; [done|].
  inversion Nm as [|? ? Hl Nm']; subst. unfold owed in *. cbn [flat_map existsb]. destruct (Nat.eqb_spec l.1 id) as [El|N].
  - rewrite (Own l (or_introl eq_refl) El). cbn [orb]. rewrite IH; [|done|by intros x Hx; apply Own; right].
    replace (existsb _ ls) with false; [done|]. symmetry. apply existsb_false. intros x Hx. apply Nat.eqb_neq. intros Ex. apply Hl.
    assert (x.2 = l.2) as E2; [|replace l with x; [done|]; destruct x, l; cbn in *; congruence].
    apply (NoDup_lookup (st_topics s) _ _ topic); [by apply NoDup_ListNoDup|apply Own; [by right|done]|apply Own; [by left|done]].
  - cbn [app orb]. apply IH; [done|]. intros x Hx. apply Own. by right.
Qed.

Lemma publish_spec topic c p :
  process_ok p -> process_ok (publish topic c p) /\ kept p (publish topic c p) /\
  forall id s, streams p !! id = Some s -> List.NoDup (st_topics s) ->
    pays id (if has topic (st_topics s) then [frame_of topic c] else []) p (publish topic c p).
Proof.
  intros Ok. assert (exists pb, publish topic c p = resume pb p /\ pb_left pb = members (hub p) topic /\ pb_cursor pb = c) as (pb & -> & El & Ec).
  { unfold publish, members. destruct (map_get topic (hub p)) as [l|]; [by exists (mkPublication topic c l)|by exists (mkPublication topic c [])]. }
  destruct (resume_spec pb p Ok) as (A & B & C). split; [done|]. split; [done|]. intros id s E Nd. specialize (C id). rewrite El, Ec in C.
  unfold topics_of in C. rewrite E in C. destruct (st_torn s) eqn:T; [|by rewrite (owed_members id p s) in C].
  left. destruct C as [N|(w & w' & Ew & _)]; [exact N|]. unfold sent in Ew. by rewrite E, T in Ew.
Qed.

(** The topics a batch records, each with the cursor it gets. *)
Fixpoint recorded (batch : list Heard) (r : ReplayRing) : list (string * Cursor) :=
  match batch with
  | [] => []
  | n :: batch' => let '(r', c) := record n.1.1 n.1.2 n.2 r in (n.1.1, c) :: recorded batch' r'
  end.

(** The frames of a stream for those topics, of all of them. *)
Definition frames_for (topics : list string) (rs : list (string * Cursor)) : list string :=
  map (fun tc => frame_of tc.1 tc.2) (List.filter (fun tc => has tc.1 topics) rs).

Lemma frames_for_app topics rs rs' : frames_for topics (rs ++ rs') = frames_for topics rs ++ frames_for topics rs'.
Proof. unfold frames_for. by rewrite List.filter_app, map_app. Qed.

Lemma kept_topics id p p' s : kept p p' -> streams p !! id = Some s -> exists s', streams p' !! id = Some s' /\ st_topics s' = st_topics s.
Proof.
  intros (_ & L & K) E. destruct (streams p' !! id) as [s'|] eqn:E'.
  - exists s'. split; [done|]. specialize (K id). unfold topics_of in K. by rewrite E, E' in K.
  - exfalso. apply lookup_ge_None_1 in E'. apply lookup_lt_Some in E. lia.
Qed.

Lemma process_ok_ring r p : process_ok p -> process_ok (set_ring r p).
Proof. intros [A B C]. by constructor. Qed.

Lemma lands_spec batch p :
  process_ok p ->
  let p' := fold_left (fun p n => land n.1.1 n.1.2 n.2 p) batch p in
  process_ok p' /\ kept (set_ring (record_all batch (ring p)) p) p' /\
  forall id s, streams p !! id = Some s -> List.NoDup (st_topics s) -> pays id (frames_for (st_topics s) (recorded batch (ring p))) p p'.
Proof.
  revert p. induction batch as [|n batch IH]; intros p Ok; cbn [fold_left].
  { split; [done|]. split; [destruct p; apply same_streams_refl|]. intros id s _ _. apply pays_refl. }
  unfold land at 2 4 6. cbn [recorded]. change (record_all (n :: batch) (ring p)) with (record_all batch (record n.1.1 n.1.2 n.2 (ring p)).1).
  destruct (record n.1.1 n.1.2 n.2 (ring p)) as [r c] eqn:Er. cbn [fst snd].
  destruct (publish_spec n.1.1 c _ (process_ok_ring r p Ok)) as (Ok1 & K1 & P1). destruct (IH _ Ok1) as (Ok2 & K2 & P2).
  assert (ring (publish n.1.1 c (set_ring r p)) = r) as Rr by (destruct K1 as (-> & _); done). rewrite Rr in *.
  split; [exact Ok2|]. split.
  - destruct K1 as (_ & L1 & T1), K2 as (R2 & L2 & T2). split; [exact R2|]. split; [cbn in *; congruence|]. intros id. rewrite T2. cbn. apply T1.
  - intros id s E Nd. assert (streams (set_ring r p) !! id = Some s) as E1 by exact E. pose proof (P1 id s E1 Nd) as Q1.
    destruct (kept_topics id _ _ s K1 E1) as (s' & E' & Et). specialize (P2 id s' E'). rewrite Et in P2. specialize (P2 Nd).
    replace (frames_for (st_topics s) ((n.1.1, c) :: recorded batch r))
      with ((if has n.1.1 (st_topics s) then [frame_of n.1.1 c] else []) ++ frames_for (st_topics s) (recorded batch r))
      by (unfold frames_for; cbn; by destruct (has n.1.1 (st_topics s))).
    apply (pays_trans id _ _ (set_ring r p) _ _ K1 Q1 P2).
Qed.

Lemma receive_spec batch p :
  process_ok p -> microtasks p = [] ->
  let p' := receive batch p in
  process_ok p' /\ kept (set_ring (record_all batch (ring p)) p) p' /\ microtasks p' = [] /\
  forall id s, streams p !! id = Some s -> List.NoDup (st_topics s) ->
    sent id p' = None \/ exists w w', sent id p = Some w /\ sent id p' = Some w' /\ Permutation w' (w ++ frames_for (st_topics s) (recorded batch (ring p))).
Proof.
  intros Ok M. unfold receive. destruct (lands_spec batch p Ok) as (Ok1 & K1 & P1). destruct (turns_spec _ Ok1) as (Ok2 & K2 & M2 & P2).
  split; [exact Ok2|]. split; [by eapply same_streams_trans|]. split; [exact M2|]. intros id s E Nd. specialize (P1 id s E Nd).
  pose proof (pays_trans id _ [] (set_ring (record_all batch (ring p)) p) _ _ K1 P1 (P2 id)) as [N|(w & w' & A & B & C)]; [by left|right].
  exists w, w'. split; [exact A|]. split; [exact B|]. rewrite M2 in C. cbn [owed_all flat_map set_ring microtasks] in C. rewrite M in C. cbn [flat_map] in C.
  by rewrite !app_nil_r in C.
Qed.

(** ** Streams that open *)

Lemma emits_readable frames conn :
  ct_state (controller conn) = Readable ->
  exists ct, fold_left (fun conn frame => emit frame conn) frames conn = mkConnection (closed conn) ct /\ ct_state ct = Readable /\
    ct_written ct = ct_written (controller conn) ++ frames.
Proof.
  revert conn. induction frames as [|f frames IH]; intros conn R; cbn [fold_left].
  - exists (controller conn). rewrite app_nil_r. by destruct conn.
  - destruct (emit_readable f conn R) as (ct & -> & R1 & E1). destruct (IH (mkConnection (closed conn) ct) R1) as (ct' & -> & R2 & E2). exists ct'. cbn in *. split; [done|]. split; [done|].
    by rewrite E2, E1, <- app_assoc.
Qed.

(** The frames a stream opens with. *)
Definition opening (r : ReplayRing) (since : option Cursor) (topics : list string) : list string :=
  match since with
  | None => []
  | Some since =>
      match reconcile r since with
      | Resync => [resyncFrame (encodeCursor (cursor r))]
      | Replay missed => map (fun topic => frame_of topic (cursor r)) (List.filter (fun topic => has topic topics) missed)
      end
  end.

Lemma open_spec r since topics conn :
  ct_state (controller conn) = Readable ->
  exists ct, open r since topics conn = mkConnection (closed conn) ct /\ ct_state ct = Readable /\
    ct_written ct = ct_written (controller conn) ++ opening r since topics.
Proof.
  intros R. unfold open, opening. destruct since as [since|].
  2: { exists (controller conn). rewrite app_nil_r. by destruct conn. }
  destruct (reconcile r since) as [missed|]; [|by apply emit_readable].
  destruct (emits_readable (map (fun topic => frame_of topic (cursor r)) (List.filter (fun topic => has topic topics) missed)) conn R) as (ct & E & H1 & H2).
  exists ct. split; [|done]. rewrite <- E. generalize (List.filter (fun topic => has topic topics) missed). clear. intros l. revert conn. induction l as [|t l IH]; intros conn; [done|]. cbn. apply IH.
Qed.

Lemma opening_scoped r since topics : List.Forall (scoped topics) (opening r since topics).
Proof.
  unfold opening. destruct since as [since|]; [|constructor]. destruct (reconcile r since) as [missed|].
  - apply List.Forall_forall. intros f (t & <- & [_ Ht]%filter_In)%in_map_iff. apply has_In in Ht. by apply scoped_invalidate.
  - constructor; [apply scoped_resync|constructor].
Qed.

Lemma openLiveStream_spec topics since q p :
  process_ok p ->
  let p' := openLiveStream topics since false q p in
  process_ok p' /\ ring p' = ring p /\ microtasks p' = microtasks p /\
  exists s, streams p' = streams p ++ [s] /\ st_topics s = topics /\ st_torn s = false /\
    ct_written (controller (st_connection s)) = opening (ring p) since topics.
Proof.
  intros [W M S]. unfold openLiveStream. set (id := length (streams p)). set (conn := mkConnection false _).
  destruct (open_spec (ring p) since topics conn eq_refl) as (ct & -> & R & Ew). cbn [closed conn]. cbn [controller conn ct_written app] in Ew.
  change (imap (fun i topic => (topic, (id, i))) topics) with (subscriptions id topics).
  destruct (subscribe_all_spec (subscriptions id topics) (hub p) W) as [W' M'].
  assert (forall i s, (streams p ++ [mkStream topics (mkConnection false ct) false (subscriptions id topics)]) !! i = Some s <->
     streams p !! i = Some s \/ i = id /\ s = mkStream topics (mkConnection false ct) false (subscriptions id topics)) as L.
  { intros i s. rewrite lookup_app_Some. split.
    - intros [|[Hle Hs]]; [by left|]. apply list_lookup_singleton_Some in Hs as [Hi <-]. right. split; [unfold id; lia|done].
    - intros [|[-> ->]]; [by left|]. right. split; [done|]. apply list_lookup_singleton_Some. split; [unfold id; lia|done]. }
  split; [|split; [done|split; [done|]]].
  2: { eexists. split; [reflexivity|]. split; [done|]. split; [done|]. exact Ew. }
  constructor; cbn [hub streams]; [done| |].
  - intros t l. rewrite M', M, In_subscriptions. unfold live_listener. cbn [streams]. split.
    + intros [(s & Hs & Ht)|[El Et]]; [exists s; rewrite L; by split; [left|]|]. eexists. rewrite L. split; [by right|done].
    + intros (s & [Hs|[-> ->]]%L & Ht & Et); [left; by exists s|right; done].
  - intros i s [Hs|[-> ->]]%L; [by apply S|]. constructor; cbn; [done|done|]. rewrite Ew. apply opening_scoped.
Qed.

(** ** Everything else that happens to a stream *)

Definition pinged (id id' : nat) (e : StreamEvent) : list string :=
  match e with Heartbeat => if Nat.eqb id' id then [commentFrame "ping"] else [] | _ => [] end.

Lemma sent_Some id p w : sent id p = Some w -> exists s, streams p !! id = Some s /\ st_torn s = false /\ w = ct_written (controller (st_connection s)).
Proof. unfold sent. destruct (streams p !! id) as [s|]; [|done]. destruct (st_torn s) eqn:T; [done|]. intros [= <-]. by exists s. Qed.

Lemma same_sent id id' p p' f s :
  streams p !! id' = Some s -> p' = update_stream id' f p -> st_torn (f s) = st_torn s ->
  ct_written (controller (st_connection (f s))) = ct_written (controller (st_connection s)) -> sent id p' = sent id p.
Proof.
  intros E -> T Ew. unfold sent. cbn [update_stream streams]. rewrite list_lookup_alter. destruct (decide (id' = id)) as [<-|]; [|done].
  rewrite E. cbn. by rewrite T, Ew.
Qed.

Lemma read_chunk_written c : ct_written (read_chunk c) = ct_written c /\ (ct_state c = Readable -> ct_state (read_chunk c) = Readable).
Proof. unfold read_chunk. destruct (Nat.ltb _ _); destruct (ct_state c); done. Qed.

Lemma cancel_written c : ct_written (cancel_stream c) = ct_written c.
Proof. unfold cancel_stream. by destruct (ct_state c). Qed.

Definition event_spec (id' : nat) (e : StreamEvent) (p p' : Process) : Prop :=
  process_ok p' /\ kept p p' /\ microtasks p' = microtasks p /\
  forall id, sent id p' = None \/ exists w, sent id p = Some w /\ sent id p' = Some (w ++ pinged id id' e).

Lemma event_same id' e p : process_ok p -> (forall id, sent id p <> None -> pinged id id' e = []) -> event_spec id' e p p.
Proof.
  intros Ok Hp. split; [done|]. split; [apply same_streams_refl|]. split; [done|]. intros id. destruct (sent id p) as [w|] eqn:Sw; [|by left]. right. exists w.
  split; [done|]. rewrite Hp by by rewrite Sw. by rewrite app_nil_r.
Qed.

Lemma event_teardown id' e p : process_ok p -> (forall id, pinged id id' e = []) -> event_spec id' e p (teardown id' p).
Proof.
  intros Ok Hp. split; [by apply teardown_ok|]. split; [apply kept_teardown|]. split; [apply microtasks_teardown|]. intros id. rewrite sent_teardown.
  destruct (Nat.eqb id' id); [by left|]. destruct (sent id p) as [w|]; [right; exists w; by rewrite Hp, app_nil_r|by left].
Qed.

Lemma on_stream_spec id' e p : process_ok p -> event_spec id' e p (on_stream id' e p).
Proof.
  intros Ok. unfold on_stream. destruct (streams p !! id') as [s|] eqn:E.
  2: { apply event_same; [done|]. intros id Hs. destruct e; try done. cbn. destruct (Nat.eqb_spec id' id) as [<-|]; [|done]. unfold sent in Hs. by rewrite E in Hs. }
  pose proof (ok_streams _ Ok _ _ E) as So. destruct e as [|[[]|]| | | |]; try (by apply event_teardown).
  - destruct (st_torn s) eqn:T.
    { apply event_same; [done|]. intros id Hs. cbn. destruct (Nat.eqb_spec id' id) as [<-|]; [|done]. unfold sent in Hs. by rewrite E, T in Hs. }
    destruct (ok_live _ _ So T) as [R U]. unfold heartbeat. rewrite (ok_torn _ _ So), T.
    destruct (emit_readable (commentFrame "ping") _ R) as (ct & Em & Rc & Ew). rewrite Em.
    split; [|split; [by apply kept_update|split; [done|]]].
    + apply (update_ok _ _ _ s); try done. constructor; cbn; [by rewrite T, (ok_torn _ _ So), T|done|]. rewrite Ew. apply scoped_snoc; [apply (ok_scoped _ _ So)|by left].
    + intros id. unfold sent. cbn [update_stream streams pinged]. rewrite list_lookup_alter. destruct (decide (id' = id)) as [<-|N].
      * rewrite E, Nat.eqb_refl. cbn. rewrite T. right. eexists. split; [done|]. by rewrite Ew.
      * rewrite (proj2 (Nat.eqb_neq _ _) N). destruct (streams p !! id) as [x|]; [|by left]. destruct (st_torn x); [by left|right]. eexists. by rewrite app_nil_r.
  - by apply event_same.
  - set (f := fun s => set_connection _ s). destruct (st_torn s) eqn:T.
    + assert (teardown id' (update_stream id' f p) = update_stream id' f p) as ->.
      { unfold teardown. cbn [update_stream streams]. rewrite list_lookup_alter, decide_True, E by done. cbn. by rewrite T. }
      split; [|split; [by apply kept_update|split; [done|]]].
      * apply (update_ok _ _ _ s); try done. destruct So as [S1 S2 S3]. constructor; cbn; [done|by rewrite T|]. by rewrite cancel_written.
      * intros id. assert (sent id (update_stream id' f p) = sent id p) as ->; [|destruct (sent id p) as [w|]; [right; exists w; cbn; by rewrite app_nil_r|by left]].
        apply (same_sent id id' p _ f s E); [done|done|]. cbn. apply cancel_written.
    + rewrite (torn_with id' f p s) by done. set (s1 := mkStream _ _ true _).
      assert (stream_ok id' s1) as So1.
      { constructor; [|done|]; cbn; unfold close; cbn; rewrite (ok_torn _ _ So), T; unfold safeClose, set_closed, close_controller; cbn.
        - unfold cancel_stream. by rewrite (proj1 (ok_live _ _ So T)).
        - unfold cancel_stream. rewrite (proj1 (ok_live _ _ So T)). cbn. apply (ok_scoped _ _ So). }
      destruct (replace_torn id' p s s1 Ok E T So1 eq_refl eq_refl) as (Ok1 & K1 & Sent1). split; [done|]. split; [done|]. split; [done|].
      intros id. rewrite Sent1. destruct (Nat.eqb id' id); [by left|]. destruct (sent id p) as [w|]; [right; exists w; cbn; by rewrite app_nil_r|by left].
  - set (f := fun s => set_connection _ s). split; [|split; [by apply kept_update|split; [done|]]].
    + apply (update_ok _ _ _ s); try done. destruct So as [S1 S2 S3]. destruct (read_chunk_written (controller (st_connection s))) as [Rw Rs].
      constructor; cbn; [done| |by rewrite Rw]. intros T. destruct (S2 T). auto.
    + intros id. assert (sent id (update_stream id' f p) = sent id p) as ->; [|destruct (sent id p) as [w|]; [right; exists w; cbn; by rewrite app_nil_r|by left]].
      apply (same_sent id id' p _ f s E); [done|done|]. cbn. apply read_chunk_written.
Qed.

(** ** Servers *)

Definition new_server (channel : option string) (instanceId : string) (maxEntries maxAgeMs : Z) : Server :=
  mkServer (new_transport channel) (mkProcess (new_ring instanceId maxEntries maxAgeMs None) [] [] []).

Inductive server_reachable : Server -> Prop :=
| server_new channel instanceId maxEntries maxAgeMs : server_reachable (new_server channel instanceId maxEntries maxAgeMs)
| server_step s e : server_reachable s -> server_reachable (serve e s).

Definition serve_all (es : list ServerEvent) (s : Server) : Server := fold_left (fun s e => serve e s) es s.

(** What an event lets the server hear, and the cursors it gets. *)
Definition heard (e : ServerEvent) (s : Server) : list Heard := match e with Data _ batch => landing (transport s) batch | _ => [] end.
Definition noted (e : ServerEvent) (s : Server) : list (string * Cursor) := recorded (heard e s) (ring (process s)).

Fixpoint all_heard (es : list ServerEvent) (s : Server) : list Heard :=
  match es with [] => [] | e :: es' => heard e s ++ all_heard es' (serve e s) end.
Fixpoint all_noted (es : list ServerEvent) (s : Server) : list (string * Cursor) :=
  match es with [] => [] | e :: es' => noted e s ++ all_noted es' (serve e s) end.

Definition pings (id : nat) (e : ServerEvent) : list string := match e with OnStream id' e' => pinged id id' e' | _ => [] end.

Record server_ok (s : Server) : Prop := {
  ok_process : process_ok (process s);
  ok_quiet : microtasks (process s) = [];
  ok_ring : exists r0 h n, holds r0 (ring (process s)) h n
}.

Lemma effects_spec effects p :
  exists k, fold_left apply_effect effects p = set_ring (Nat.iter k bumpGeneration (ring p)) p.
Proof.
  revert p. induction effects as [|e effects IH]; intros p; cbn [fold_left]; [exists O; by destruct p|]. destruct (IH (apply_effect p e)) as (k & ->).
  destruct e; try (by exists k). exists (S k). by rewrite Nat.iter_succ_r.
Qed.

(** What an event does to the ring. *)
Lemma serve_ring e s :
  process_ok (process s) -> microtasks (process s) = [] ->
  ring (process (serve e s)) = record_all (heard e s) (ring (process s)) \/
  heard e s = [] /\ exists k, ring (process (serve e s)) = Nat.iter (S k) bumpGeneration (ring (process s)).
Proof.
  intros Ok M. destruct e as [c batch|e|id e|topics since aborted q]; cbn [serve heard process].
  - left. destruct (receive_spec (landing (transport s) batch) _ Ok M) as (_ & K & _). by destruct K as (-> & _).
  - assert (forall e', (exists k, ring (process (let '(t, effects) := on_event e' (transport s) in mkServer t (fold_left apply_effect effects (process s)))) = Nat.iter k bumpGeneration (ring (process s)))) as H.
    { intros e'. destruct (on_event e' (transport s)) as [t effects]. destruct (effects_spec effects (process s)) as (k & ->). by exists k. }
    destruct (H e) as ([|k] & Hk); (destruct e; first [left; exact Hk|right; split; [done|]; by exists k|by left]).
  - left. destruct (on_stream_spec id e _ Ok) as (_ & (-> & _) & _). done.
  - left. unfold openLiveStream. destruct aborted; [|done]. by destruct (kept_teardown (length (streams (process s)))
      (mkProcess (ring (process s)) (hub (process s)) (streams (process s) ++ [mkStream topics (mkConnection false (mkController Readable [] O O q)) false []]) (microtasks (process s)))) as (-> & _).
Qed.

(** An opening stream leaves the others as they are. *)
Lemma opens_keeps topics since aborted q p :
  process_ok p ->
  process_ok (openLiveStream topics since aborted q p) /\ microtasks (openLiveStream topics since aborted q p) = microtasks p /\
  forall id st, streams p !! id = Some st -> streams (openLiveStream topics since aborted q p) !! id = Some st.
Proof.
  intros Ok. destruct aborted.
  - unfold openLiveStream. set (p1 := mkProcess _ _ _ _). unfold teardown.
    assert (streams p1 !! length (streams p) = Some (mkStream topics (mkConnection false (mkController Readable [] 0 0 q)) false [])) as El by (cbn; by apply list_lookup_middle).
    rewrite El. cbn [st_torn st_unsubscribes fold_left]. split; [|split; [done|]].
    + destruct Ok as [W Ml S]. constructor; cbn [hub set_hub update_stream streams p1]; [done| |].
      * intros t l. rewrite Ml. unfold live_listener. cbn [streams update_stream set_hub p1]. rewrite list_lookup_alter. destruct (decide (_ = l.1)) as [<-|N].
        -- rewrite list_lookup_middle by done. cbn. rewrite (lookup_ge_None_2 (streams p)) by done. split; [by intros (x & ? & _)|by intros (x & [= <-] & ? & _)].
        -- split; intros (x & Hx & Hr); exists x; (split; [|done]); [by apply lookup_app_l_Some|].
           apply lookup_app_Some in Hx as [|[Hle Hx]]; [done|]. apply list_lookup_singleton_Some in Hx as [Hi _]. lia.
      * intros i x. rewrite list_lookup_alter. destruct (decide (_ = i)) as [<-|N]; [rewrite list_lookup_middle by done; cbn; intros [= <-]; by constructor|].
        intros Hx. apply lookup_app_Some in Hx as [|[Hle Hx]]; [by apply S|]. apply list_lookup_singleton_Some in Hx as [Hi _]. lia.
    + intros id st E. cbn [update_stream streams set_hub p1]. rewrite list_lookup_alter_ne; [by apply lookup_app_l_Some|]. apply lookup_lt_Some in E. lia.
  - destruct (openLiveStream_spec topics since q _ Ok) as (A & B & C & x & D & _). split; [done|]. split; [done|]. intros id st E. rewrite D. by apply lookup_app_l_Some.
Qed.

(** One event: the server stays well formed, and a stream that is still open was sent the
    topics it may see and its heartbeat. *)
Lemma serve_spec e s :
  server_ok s ->
  server_ok (serve e s) /\
  forall id st, streams (process s) !! id = Some st -> List.NoDup (st_topics st) ->
    (exists st', streams (process (serve e s)) !! id = Some st' /\ st_topics st' = st_topics st) /\
    (sent id (process (serve e s)) = None \/ exists w w', sent id (process s) = Some w /\ sent id (process (serve e s)) = Some w' /\
       Permutation w' (w ++ frames_for (st_topics st) (noted e s) ++ pings id e)).
Proof.
  intros [Ok M (r0 & h & n & Hh)].
  assert (exists r0 h n, holds r0 (ring (process (serve e s))) h n) as R.
  { destruct (serve_ring e s Ok M) as [E|(_ & k & E)].
    - rewrite E. exists r0. generalize (heard e s). intros l. revert h n Hh. generalize (ring (process s)). induction l as [|x l IH]; intros r h n Hh; [by exists h, n|].
      destruct (ring_record_holds r0 r h n x Hh) as (n' & _ & Hh' & _). unfold record_all. cbn [fold_left]. by apply (IH _ (h ++ [x]) n').
    - exists (Nat.iter (S k) bumpGeneration (ring (process s))), [], O. rewrite E. by apply fresh_holds. }
  destruct e as [c batch|e|id' e|topics since aborted q].
  - destruct (receive_spec (landing (transport s) batch) _ Ok M) as (Ok' & K & M' & P). split; [by constructor|]. intros id st E Nd.
    split; [by apply (kept_topics id (set_ring (record_all (landing (transport s) batch) (ring (process s))) (process s)) _ st K)|].
    destruct (P id st E Nd) as [N|(w & w' & A & B & C)]; [by left|right]. exists w, w'. split; [done|]. split; [done|]. cbn [pings]. by rewrite app_nil_r.
  - assert (exists r, process (serve (OnTransport e) s) = set_ring r (process s)) as (r & Er).
    { cbn [serve]. assert (exists r, process s = set_ring r (process s)) as Self by (exists (ring (process s)); by destruct (process s)).
      destruct e; try exact Self; match goal with |- context [on_event ?x (transport s)] => destruct (on_event x (transport s)) as [t effects] end; cbn [process];
        destruct (effects_spec effects (process s)) as (k & ->); by eexists. }
    rewrite Er in *. split; [constructor; rewrite Er; [by apply process_ok_ring|done|exact R]|]. intros id st E Nd. split; [by exists st|].
    change (sent id (set_ring r (process s))) with (sent id (process s)). destruct (sent id (process s)) as [w|]; [right; exists w, w|by left]. split; [done|]. split; [done|]. cbn. by rewrite app_nil_r.
  - destruct (on_stream_spec id' e _ Ok) as (Ok' & K & M' & P). split; [constructor; cbn [serve process]; [done|by rewrite M'|exact R]|]. intros id st E Nd.
    split; [by apply (kept_topics id (process s))|]. destruct (P id) as [N|(w & A & B)]; [by left|right]. exists w, (w ++ pinged id id' e). by split.
  - cbn [serve process] in *. destruct (opens_keeps topics since aborted q _ Ok) as (Ok' & M' & L). rewrite M in M'.
    split; [constructor; done|]. intros id st E Nd. split; [exists st; split; [by apply L|done]|]. cbn. unfold sent. cbn [process]. rewrite (L id st E), E.
    destruct (st_torn st); [by left|right]. do 2 eexists. split; [done|]. split; [done|]. by rewrite app_nil_r.
Qed.

Lemma new_ok channel instanceId maxEntries maxAgeMs : server_ok (new_server channel instanceId maxEntries maxAgeMs).
Proof.
  constructor; [|done|].
  - constructor; cbn; [by split; [constructor|]| |by intros []]. intros t l. split; [done|]. by intros (x & E & _).
  - exists (new_ring instanceId maxEntries maxAgeMs None), [], O. by apply fresh_holds.
Qed.

Lemma reachable_server_ok s : server_reachable s -> server_ok s.
Proof. induction 1; [apply new_ok|by apply serve_spec]. Qed.

Definition all_pings (id : nat) (es : list ServerEvent) : list string := flat_map (pings id) es.

Lemma trace_spec es s id st :
  server_ok s -> streams (process s) !! id = Some st -> List.NoDup (st_topics st) ->
  let s' := serve_all es s in
  server_ok s' /\ (exists st', streams (process s') !! id = Some st' /\ st_topics st' = st_topics st) /\
  (sent id (process s') = None \/ exists w w', sent id (process s) = Some w /\ sent id (process s') = Some w' /\
     Permutation w' (w ++ frames_for (st_topics st) (all_noted es s) ++ all_pings id es)).
Proof.
  revert s st. induction es as [|e es IH]; intros s st Ok E Nd; cbn [serve_all fold_left all_noted all_pings flat_map].
  { split; [done|]. split; [by exists st|]. destruct (sent id (process s)) as [w|]; [right; exists w, w|by left]. by rewrite app_nil_r. }
  destruct (serve_spec e s Ok) as (Ok1 & P). destruct (P id st E Nd) as ((st1 & E1 & T1) & P1). destruct (IH (serve e s) st1 Ok1 E1) as (Ok2 & (st2 & E2 & T2) & P2); [by rewrite T1|].
  split; [exact Ok2|]. split; [exists st2; split; [exact E2|congruence]|]. destruct P2 as [N|(w1 & w2 & A2 & B2 & C2)]; [by left|].
  destruct P1 as [N|(w & w' & A1 & B1 & C1)]; [congruence|]. right. exists w, w2. split; [exact A1|]. split; [exact B2|]. rewrite B1 in A2. injection A2 as <-.
  rewrite C2, C1, T1, frames_for_app, <- !app_assoc. do 2 apply Permutation_app_head. rewrite !app_assoc. apply Permutation_app_tail. apply Permutation_app_comm.
Qed.

(** ** The theorems *)

(** C6: a stream is told of what its principal may see, and of nothing else: whatever the
    request asks for, the stream it opens has at most [maxTopics] topics, each asked for and
    allowed by the check; and whatever happens to the server after that, every frame the
    stream is ever written is a heartbeat, a resync, or names one of these topics. *)
Theorem streams_stay_scoped {P} (options : RealtimeHttpOptions P) (principal : P) (request : LiveRequest) (s : Server) (p1 : Process) (gone : list string)
    (es : list ServerEvent) :
  server_reachable s -> live options principal request (process s) = Ok (p1, gone) ->
  exists st, streams (process (serve_all es (mkServer (transport s) p1))) !! length (streams (process s)) = Some st /\
    List.NoDup (st_topics st) /\ (length (st_topics st) <= Z.to_nat (default DEFAULT_MAX_TOPICS (o_maxTopicsPerConnection options)))%nat /\
    (forall topic, In topic (st_topics st) -> In topic (parseTopics (q_topics request)) /\ o_authorizeTopic options principal topic = Ok true) /\
    forall frame, In frame (ct_written (controller (st_connection st))) ->
      frame = commentFrame "ping" \/ (exists c, frame = resyncFrame c) \/
      exists topic c, In topic (st_topics st) /\ frame = invalidateFrame topic c.
Proof.
  intros R L. apply reachable_server_ok in R. unfold live in L. set (cap := default DEFAULT_MAX_TOPICS _) in *.
  pose proof (selection_is_exact (o_authorizeTopic options) principal (parseTopics (q_topics request)) cap) as S.
  destruct (selectAuthorizedTopics _ _ _ _) as [asked [sel|e]]; [|done]. cbn [snd outcome_bind] in L. injection L as <- <-.
  destruct S as (Le & Ea & Ans & Au & Pm). pose proof (parseTopics_NoDup (q_topics request)) as Nd.
  assert (List.NoDup (authorized sel)) as Ns.
  { rewrite Au, Ea. apply List.NoDup_filter. rewrite <- (firstn_skipn (Z.to_nat cap) (parseTopics _)) in Nd. by apply NoDup_app_remove_r in Nd. }
  set (since := decodeCursor _). set (q := default DEFAULT_MAX_QUEUE _).
  assert (exists st0, streams (openLiveStream (authorized sel) since (q_aborted request) q (process s)) !! length (streams (process s)) = Some st0 /\ st_topics st0 = authorized sel) as (st0 & E0 & T0).
  { destruct (q_aborted request); [|destruct (openLiveStream_spec (authorized sel) since q _ (ok_process _ R)) as (_ & _ & _ & x & -> & Tx & _); exists x; split; [by apply list_lookup_middle|done]].
    unfold openLiveStream. set (p2 := mkProcess _ _ _ _). pose proof (kept_teardown (length (streams (process s))) p2) as K.
    apply (kept_topics _ _ _ (mkStream (authorized sel) (mkConnection false (mkController Readable [] 0 0 q)) false []) K). cbn. by apply list_lookup_middle. }
  assert (server_ok (mkServer (transport s) (openLiveStream (authorized sel) since (q_aborted request) q (process s)))) as Ok1.
  { exact (proj1 (serve_spec (Opens (authorized sel) since (q_aborted request) q) s R)). }
  destruct (trace_spec es _ _ st0 Ok1 E0) as (Ok2 & (st & E & T) & _); [by rewrite T0|]. exists st. rewrite T, T0. split; [exact E|]. split; [exact Ns|].
  split; [rewrite Au; etransitivity; [apply List.filter_length_le|exact Le]|]. split.
  - intros topic Ht. split.
    + apply (Permutation_in topic Pm). apply in_app_iff. by left.
    + rewrite Au in Ht. apply filter_In in Ht as [_ Ht]. unfold allowed in Ht. destruct (o_authorizeTopic options principal topic) as [[]|]; done.
  - intros frame Hf. pose proof (ok_scoped _ _ (ok_streams _ (ok_process _ Ok2) _ _ E)) as F. rewrite List.Forall_forall in F. specialize (F _ Hf).
    unfold scoped in F. by rewrite T, T0 in F.
Qed.

Lemma sent_intro id p st : streams p !! id = Some st -> st_torn st = false -> sent id p = Some (ct_written (controller (st_connection st))).
Proof. intros E T. unfold sent. by rewrite E, T. Qed.

Lemma written_since (s : Server) (es : list ServerEvent) (id : nat) (st st' : LiveStream) :
  server_reachable s -> streams (process s) !! id = Some st -> List.NoDup (st_topics st) ->
  streams (process (serve_all es s)) !! id = Some st' -> st_torn st' = false ->
  Permutation (ct_written (controller (st_connection st')))
    (ct_written (controller (st_connection st)) ++ frames_for (st_topics st) (all_noted es s) ++ all_pings id es).
Proof.
  intros R E Nd E' T'. destruct (trace_spec es s id st (reachable_server_ok _ R) E Nd) as (_ & _ & P). rewrite (sent_intro _ _ _ E' T') in P.
  destruct P as [|(w & w' & A & [= <-] & C)]; [done|]. apply sent_Some in A as (x & Ex & _ & ->). rewrite E in Ex. injection Ex as <-. exact C.
Qed.

(** Fact: an open stream misses nothing the server hears: as long as it is not torn down, what
    it is written is what it was written before, one frame per topic of its own that the
    server heard since, and the heartbeats, whatever else happens and however notifications
    are batched. *)
Theorem open_streams_miss_nothing (s : Server) (es : list ServerEvent) (id : nat) (st st' : LiveStream) :
  server_reachable s -> streams (process s) !! id = Some st -> List.NoDup (st_topics st) ->
  streams (process (serve_all es s)) !! id = Some st' -> st_torn st' = false ->
  Permutation (ct_written (controller (st_connection st')))
    (ct_written (controller (st_connection st)) ++ frames_for (st_topics st) (all_noted es s) ++ all_pings id es).
Proof. apply written_since. Qed.

(** ** Cursors of the past *)

(** A cursor that the ring handed out. *)
Definition before (c : Cursor) (r : ReplayRing) : Prop :=
  instanceId c = r_instanceId r /\ (generation c < r_generation r \/ generation c = r_generation r /\ 0 <= index c <= r_lastIndex r).

Lemma evict_ring now r : exists es, evict now r = set_entries es r.
Proof. unfold evict. destruct (0 <? _); [by eexists|]. exists (r_entries r). by destruct r. Qed.

Lemma record_before n r c :
  before c r -> before c (record n.1.1 n.1.2 n.2 r).1.
Proof.
  intros [B1 B2]. unfold record. destruct (evict_ring n.2 (mkRing (r_instanceId r) (r_maxEntries r) (r_maxAgeMs r) (r_generation r) (r_lastIndex r + 1)
    (r_entries r ++ [mkEntry (r_lastIndex r + 1) n.1.1 n.1.2]))) as (es & ->). split; [done|]. cbn. lia.
Qed.

Lemma record_cursor n r : 0 <= r_lastIndex r -> before (record n.1.1 n.1.2 n.2 r).2 (record n.1.1 n.1.2 n.2 r).1 /\ 0 <= r_lastIndex (record n.1.1 n.1.2 n.2 r).1.
Proof.
  intros L. unfold record. destruct (evict_ring n.2 (mkRing (r_instanceId r) (r_maxEntries r) (r_maxAgeMs r) (r_generation r) (r_lastIndex r + 1)
    (r_entries r ++ [mkEntry (r_lastIndex r + 1) n.1.1 n.1.2]))) as (es & ->). cbn. split; [|lia]. split; [done|]. right. cbn. lia.
Qed.

Lemma record_all_before h r c : before c r -> before c (record_all h r).
Proof. revert r. induction h as [|n h IH]; intros r B; [done|]. apply IH. by apply record_before. Qed.

Lemma recorded_before h r tc : 0 <= r_lastIndex r -> In tc (recorded h r) -> before tc.2 (record_all h r).
Proof.
  revert r. induction h as [|n h IH]; intros r L; [done|]. cbn [recorded]. destruct (record_cursor n r L) as [B L'].
  destruct (record n.1.1 n.1.2 n.2 r) as [r' c] eqn:Er. unfold record_all. cbn [fold_left]. rewrite Er. cbn [fst snd] in *.
  intros [<-|Hin]; [by apply record_all_before|by apply IH].
Qed.

Lemma bump_before k r c : before c r -> before c (Nat.iter (S k) bumpGeneration r) /\ generation c < r_generation (Nat.iter (S k) bumpGeneration r).
Proof.
  intros [B1 B2]. assert (forall k, r_instanceId (Nat.iter k bumpGeneration r) = r_instanceId r /\ r_generation (Nat.iter k bumpGeneration r) = r_generation r + Z.of_nat k) as I.
  { induction k0 as [|k0 [I1 I2]]; cbn; [by rewrite Z.add_0_r|]. split; [done|]. change (r_generation (Nat.iter k0 bumpGeneration r) + 1 = r_generation r + Z.of_nat (S k0)). lia. }
  destruct (I (S k)) as [I1 I2]. split; [split; [congruence|]; left|]; lia.
Qed.

Lemma holds_last r0 r h n : holds r0 r h n -> 0 <= r_lastIndex r.
Proof. intros (_ & ->). cbn. lia. Qed.

Lemma serve_before e s c : server_ok s -> before c (ring (process s)) -> before c (ring (process (serve e s))).
Proof.
  intros Ok B. destruct (serve_ring e s (ok_process _ Ok) (ok_quiet _ Ok)) as [->|(_ & k & ->)]; [by apply record_all_before|by apply bump_before].
Qed.

Lemma serve_all_before es s c : server_ok s -> before c (ring (process s)) -> before c (ring (process (serve_all es s))).
Proof.
  revert s. induction es as [|e es IH]; intros s Ok B; [done|]. apply (IH (serve e s)); [by apply serve_spec|by apply serve_before].
Qed.

Lemma noted_before es s tc : server_ok s -> In tc (all_noted es s) -> before tc.2 (ring (process (serve_all es s))).
Proof.
  revert s. induction es as [|e es IH]; intros s Ok; [done|]. cbn [all_noted]. intros [Hin|Hin]%in_app_iff.
  - apply (serve_all_before es (serve e s)); [by apply serve_spec|].
    destruct (serve_ring e s (ok_process _ Ok) (ok_quiet _ Ok)) as [->|(N & _)]; [|unfold noted in Hin; by rewrite N in Hin].
    apply recorded_before; [|done]. destruct (ok_ring _ Ok) as (r0 & h & n & Hh). by apply (holds_last r0 _ h n).
  - apply (IH (serve e s)); [by apply serve_spec|done].
Qed.

Lemma record_all_more r0 h n l r : holds r0 r h n -> exists n', holds r0 (record_all l r) (h ++ l) n'.
Proof.
  revert r h n. induction l as [|x l IH]; intros r h n Hh; [exists n; by rewrite app_nil_r|]. destruct (ring_record_holds r0 r h n x Hh) as (n' & _ & Hh' & _).
  destruct (IH _ _ _ Hh') as (n2 & H2). exists n2. by rewrite <- app_assoc in H2.
Qed.

Lemma bump_generation k r : r_generation r <= r_generation (Nat.iter k bumpGeneration r).
Proof. induction k as [|k IH]; cbn in *; [lia|]. change (r_generation r <= r_generation (Nat.iter k bumpGeneration r) + 1). lia. Qed.

Lemma record_all_generation l r : r_generation (record_all l r) = r_generation r.
Proof.
  revert r. induction l as [|x l IH]; intros r; [done|]. unfold record_all in *. cbn [fold_left]. rewrite IH. unfold record. by destruct (evict_ring x.2
    (mkRing (r_instanceId r) (r_maxEntries r) (r_maxAgeMs r) (r_generation r) (r_lastIndex r + 1) (r_entries r ++ [mkEntry (r_lastIndex r + 1) x.1.1 x.1.2]))) as (es & ->).
Qed.

(** Either the generation moved on, or the ring holds the end of one longer history. *)
Lemma history es s r0 h n :
  server_ok s -> holds r0 (ring (process s)) h n ->
  r_generation (ring (process s)) < r_generation (ring (process (serve_all es s))) \/
  exists n', holds r0 (ring (process (serve_all es s))) (h ++ all_heard es s) n'.
Proof.
  revert s h n. induction es as [|e es IH]; intros s h n Ok Hh; [right; exists n; by rewrite app_nil_r|]. cbn [all_heard].
  pose proof (proj1 (serve_spec e s Ok)) as Ok1. assert (forall es s, server_ok s -> r_generation (ring (process s)) <= r_generation (ring (process (serve_all es s)))) as Mono.
  { clear. induction es as [|e es IH]; intros s Ok; [done|]. etransitivity; [|exact (IH (serve e s) (proj1 (serve_spec e s Ok)))].
    destruct (serve_ring e s (ok_process _ Ok) (ok_quiet _ Ok)) as [->|(_ & k & ->)]; [by rewrite record_all_generation|apply (bump_generation (S k))]. }
  destruct (serve_ring e s (ok_process _ Ok) (ok_quiet _ Ok)) as [E|(N & k & E)].
  - rewrite <- (record_all_generation (heard e s)), <- E. destruct (record_all_more r0 h n (heard e s) _ Hh) as (n1 & H1). rewrite <- E in H1.
    destruct (IH (serve e s) _ n1 Ok1 H1) as [L|(n' & H')]; [by left|right]. exists n'. by rewrite <- app_assoc in H'.
  - left. pose proof (Mono es (serve e s) Ok1) as Le. rewrite E in Le. cbn [serve_all fold_left]. fold (serve_all es (serve e s)).
    pose proof (bump_generation k (ring (process s))) as Lk. change (r_generation (Nat.iter (S k) bumpGeneration (ring (process s)))) with (r_generation (Nat.iter k bumpGeneration (ring (process s))) + 1) in Le. lia.
Qed.

Lemma recorded_topics h r : map fst (recorded h r) = map topic_of h.
Proof. revert r. induction h as [|n h IH]; intros r; [done|]. cbn. destruct (record n.1.1 n.1.2 n.2 r) as [r' c]. cbn. by rewrite IH. Qed.

Lemma noted_topics es s : map fst (all_noted es s) = map topic_of (all_heard es s).
Proof. revert s. induction es as [|e es IH]; intros s; [done|]. cbn [all_noted all_heard]. unfold noted. by rewrite !map_app, IH, recorded_topics. Qed.

(** A stream that opens with a cursor of the past is told of all that was heard since. *)
Lemma opening_covers es s c topics :
  server_ok s -> before c (ring (process s)) ->
  let r := ring (process (serve_all es s)) in
  opening r (Some c) topics = [resyncFrame (encodeCursor (cursor r))] \/
  forall topic, In topic topics -> In topic (map fst (all_noted es s)) -> In (frame_of topic (cursor r)) (opening r (Some c) topics).
Proof.
  intros Ok B. pose proof (serve_all_before es s c Ok B) as [Bi Bg]. destruct (ok_ring _ Ok) as (r0 & h & n & Hh). pose proof (history es s r0 h n Ok Hh) as Hist.
  set (r := ring (process (serve_all es s))) in *. unfold opening. cbv zeta.
  assert (reconcile r c = Resync \/ exists missed, reconcile r c = Replay missed /\ forall t, In t (map topic_of (all_heard es s)) -> In t missed) as [->|(missed & -> & Cov)]; [|by left|].
  - destruct (Z.eq_dec (generation c) (r_generation r)) as [Eg|Ng].
    2: { left. unfold reconcile. rewrite (proj2 (String.eqb_eq _ _) Bi), (proj2 (Z.eqb_neq _ _) Ng). done. }
    destruct B as [Bi' Bg']. destruct Hist as [Lt|(n' & H')]; [lia|]. assert (0 <= index c) as Hi by lia.
    assert (index c <= r_lastIndex (ring (process s))) as Hle.
    { assert (r_generation r = r_generation (ring (process s))) as Er; [|lia]. destruct H' as (_ & ->), Hh as (_ & ->). done. }
    pose proof (holds_reconcile _ _ _ _ c H' Hi) as Rc. destruct (reconcile r c) as [missed|]; [right; exists missed; split; [done|]|by left].
    destruct Rc as (_ & _ & _ & Rc). intros t Ht. apply Rc. destruct Hh as (_ & Eh). rewrite Eh in Hle. cbn in Hle. rewrite skipn_app.
    apply in_map_iff in Ht as (x & <- & Hx). apply in_map. apply in_app_iff. right. replace (Z.to_nat (index c) - length h)%nat with O by lia. exact Hx.
  - right. intros topic Ht Hn. apply in_map_iff. exists topic. split; [done|]. apply filter_In. split; [|by apply has_In]. apply Cov. by rewrite <- noted_topics.
Qed.

(** C8: no topic the server heard is lost on a client that reconnects: take any stream, the
    cursor of any topic heard while it was open, and any later moment, re-listens and
    evictions included, at which the client opens a stream for the same topics with that
    cursor. Each of its topics heard while the first stream was open was written to that
    stream, and each heard after is named by the frames the new stream opens with, unless
    these are a resync. *)
Theorem no_heard_topic_is_lost (s : Server) (es es' : list ServerEvent) (id : nat) (st st1 : LiveStream) (topic : string) (c : Cursor) (maxQueue : Z) :
  server_reachable s -> streams (process s) !! id = Some st -> List.NoDup (st_topics st) ->
  streams (process (serve_all es s)) !! id = Some st1 -> st_torn st1 = false -> In (topic, c) (all_noted es s) ->
  let s2 := serve_all es' (serve_all es s) in
  exists st2, streams (process (serve (Opens (st_topics st) (Some c) false maxQueue) s2)) !! length (streams (process s2)) = Some st2 /\
    (forall t ct, In t (st_topics st) -> In (t, ct) (all_noted es s) -> In (frame_of t ct) (ct_written (controller (st_connection st1)))) /\
    (ct_written (controller (st_connection st2)) = [resyncFrame (encodeCursor (cursor (ring (process s2))))] \/
     forall t ct, In t (st_topics st) -> In (t, ct) (all_noted es' (serve_all es s)) ->
       exists ct2, In (frame_of t ct2) (ct_written (controller (st_connection st2)))).
Proof.
  intros R E Nd E1 T1 Hc s2. pose proof (reachable_server_ok _ R) as Ok. destruct (trace_spec es s id st Ok E Nd) as (Ok1 & _ & _).
  assert (server_ok s2) as Ok2.
  { unfold s2. generalize (serve_all es s) Ok1. clear. induction es' as [|e es IH]; intros s Ok; [done|]. apply (IH (serve e s)). by apply serve_spec. }
  destruct (openLiveStream_spec (st_topics st) (Some c) maxQueue _ (ok_process _ Ok2)) as (_ & _ & _ & st2 & Es & _ & _ & Ew).
  exists st2. cbn [serve process]. rewrite Es. split; [by apply list_lookup_middle|]. split.
  - intros t ct Ht Hin. pose proof (written_since s es id st st1 R E Nd E1 T1) as P. apply (Permutation_in _ (Permutation_sym P)).
    apply in_app_iff. right. apply in_app_iff. left. apply in_map_iff. exists (t, ct). split; [done|]. apply filter_In. split; [done|]. by apply has_In.
  - rewrite Ew. destruct (opening_covers es' (serve_all es s) c (st_topics st) Ok1 (noted_before es s (topic, c) Ok Hc)) as [Eq|Cov]; [left; exact Eq|right].
    intros t ct Ht Hin. eexists. apply Cov; [done|]. apply in_map_iff. by exists (t, ct).
Qed.

(** ** Where topics are lost *)

(** A server that listens; a notification of its channel; what a stream was written. *)
Definition listening : Server :=
  serve_all [OnTransport (CallStart true); OnTransport (Connected 0 true); OnTransport (Listened 0 true)] (new_server None "n1" 100 60000).
Definition notify (client : nat) (topics : list string) : ServerEvent := Data client (map (fun t => (DEFAULT_CHANNEL, Some t, 1, 1)) topics).
Definition written_to (id : nat) (s : Server) : option (list string) :=
  (fun st => ct_written (controller (st_connection st))) <$> streams (process s) !! id.

(** The transport's client fails and its replacement listens. *)
Definition relisten : list ServerEvent :=
  map OnTransport [ClientError 0; EndSettled true; DelayOver true; Connected 1 true; Listened 1 true].

(** Fact: a cursor that does not decode opens a stream with no frame: a client whose stream
    was quiet has no cursor yet, and what the server hears while it is away is lost on it;
    so is it on a client that presents a malformed one. *)
Theorem quiet_stream_loses :
  let s1 := serve_all [Opens ["org:1"] None false 256; OnStream 0 Aborted; notify 0 ["org:1"]] listening in
  let reopened token := written_to 1 (serve (Opens ["org:1"] (decodeCursor token) false 256) s1) in
  all_noted [notify 0 ["org:1"]] (serve_all [Opens ["org:1"] None false 256; OnStream 0 Aborted] listening) = [("org:1"%string, mkCursor "n1" 0 1)] /\
  reopened None = Some [] /\ reopened (Some "n1.0") = Some [] /\ reopened (Some "n1.0.x") = Some [] /\
  reopened (Some "n1.0.0") = Some [frame_of "org:1" (mkCursor "n1" 0 1)].
Proof. vm_compute. repeat split. Qed.

(** Fact: the frames of a replay all carry the newest cursor: a client cut off after the
    first of them comes back with that cursor and is told nothing of the others. *)
Theorem replay_cut_short_loses :
  let c0 := mkCursor "n1" 0 0 in
  let s1 := serve (notify 0 ["org:1"; "org:2"]) listening in
  let s2 := serve (Opens ["org:1"; "org:2"] (Some c0) false 256) s1 in
  written_to 0 s2 = Some [frame_of "org:1" (mkCursor "n1" 0 2); frame_of "org:2" (mkCursor "n1" 0 2)] /\
  written_to 1 (serve (Opens ["org:1"; "org:2"] (Some (mkCursor "n1" 0 2)) false 256) s2) = Some [].
Proof. vm_compute. repeat split. Qed.

(** Fact: a gap in listening is silent to the streams that are open: the re-listen bumps the
    generation, writes nothing to them and keeps them open, and the next topic hands them a
    cursor of the new generation, with which they are replayed nothing. *)
Theorem gap_is_silent :
  let topics := ["org:1"; "org:2"]%string in
  let s1 := serve_all [Opens topics None false 256; notify 0 ["org:1"]] listening in
  let s2 := serve_all relisten s1 in
  let s3 := serve (notify 1 ["org:2"]) s2 in
  r_generation (ring (process s2)) = 1 /\
  written_to 0 s2 = written_to 0 s1 /\ st_torn <$> (streams (process s2) !! 0%nat) = Some false /\
  written_to 0 s3 = Some [frame_of "org:1" (mkCursor "n1" 0 1); frame_of "org:2" (mkCursor "n1" 1 1)] /\
  written_to 1 (serve (Opens topics (Some (mkCursor "n1" 1 1)) false 256) s3) = Some [].
Proof. vm_compute. repeat split. Qed.

(** Fact: frames can overtake one another: of two topics that arrive together, a stream whose
    listener is second on the first topic is sent the second topic first; cut off between
    the two frames, it comes back with the newer cursor and the first topic is lost. *)
Theorem reordered_frames_lose :
  let s1 := serve_all [Opens ["org:1"] None false 256; Opens ["org:1"; "org:2"] None false 256; notify 0 ["org:1"; "org:2"]] listening in
  written_to 1 s1 = Some [frame_of "org:2" (mkCursor "n1" 0 2); frame_of "org:1" (mkCursor "n1" 0 1)] /\
  written_to 2 (serve (Opens ["org:1"; "org:2"] (Some (mkCursor "n1" 0 2)) false 256) s1) = Some [].
Proof. vm_compute. repeat split. Qed.

(** ** The theorems at concrete states *)

Lemma listening_reachable : server_reachable listening.
Proof. unfold listening, serve_all. cbn [fold_left]. do 3 apply server_step. apply server_new. Qed.

Definition readers : RealtimeHttpOptions string := mkOptions string (fun principal topic => Ok (String.eqb topic principal)) (Some 2) None.
Definition asks : LiveRequest := mkLiveRequest (Some "org:2,org:1,org:3"%string) None None false.

Lemma streams_stay_scoped_witness :
  exists p1 gone, live readers "org:1"%string asks (process listening) = Ok (p1, gone) /\
  exists st, streams (process (serve_all [notify 0 ["org:1"; "org:2"]] (mkServer (transport listening) p1))) !! 0%nat = Some st /\
    (forall topic, In topic (st_topics st) -> o_authorizeTopic readers "org:1"%string topic = Ok true).
Proof.
  eexists. eexists. split; [vm_compute; reflexivity|].
  edestruct (streams_stay_scoped readers "org:1"%string asks listening _ _ [notify 0 ["org:1"; "org:2"]%string] listening_reachable eq_refl)
    as (st & E & _ & _ & A & _).
  exists st. split; [exact E|]. intros topic Ht. apply (A topic Ht).
Defined.

Definition opened : Server := serve (Opens ["org:1"; "org:2"]%string None false 256) listening.

Lemma opened_reachable : server_reachable opened.
Proof. apply server_step, listening_reachable. Qed.

Lemma two_topics : List.NoDup ["org:1"; "org:2"]%string.
Proof. repeat constructor; [intros [E|[]]; discriminate|intros []]. Qed.

Lemma open_streams_miss_nothing_witness :
  exists st', streams (process (serve_all [notify 0 ["org:2"]; OnStream 0 Heartbeat; notify 0 ["org:3"; "org:1"]]%string opened)) !! 0%nat = Some st' /\
    length (ct_written (controller (st_connection st'))) = 3%nat.
Proof.
  eexists. split; [vm_compute; reflexivity|]. apply (fun P => Permutation_length (l' := [frame_of "org:2" (mkCursor "n1" 0 1); frame_of "org:1" (mkCursor "n1" 0 3); commentFrame "ping"]) P).
  apply (open_streams_miss_nothing opened [notify 0 ["org:2"]; OnStream 0 Heartbeat; notify 0 ["org:3"; "org:1"]]%string 0
    (mkStream ["org:1"; "org:2"]%string (mkConnection false (mkController Readable [] 0 0 256)) false (subscriptions 0 ["org:1"; "org:2"]%string)));
    [exact opened_reachable|reflexivity|exact two_topics|vm_compute; reflexivity|reflexivity].
Defined.

Lemma no_heard_topic_is_lost_witness :
  let s1 := serve_all [notify 0 ["org:2"]%string] opened in
  let s2 := serve_all [OnStream 0 Aborted; notify 0 ["org:1"]%string] s1 in
  exists st2, streams (process (serve (Opens ["org:1"; "org:2"]%string (Some (mkCursor "n1" 0 1)) false 256) s2)) !! 1%nat = Some st2.
Proof.
  cbv zeta.
  destruct (no_heard_topic_is_lost opened [notify 0 ["org:2"]%string] [OnStream 0 Aborted; notify 0 ["org:1"]%string] 0
    (mkStream ["org:1"; "org:2"]%string (mkConnection false (mkController Readable [] 0 0 256)) false (subscriptions 0 ["org:1"; "org:2"]%string))
    (mkStream ["org:1"; "org:2"]%string (mkConnection false (mkController Readable [frame_of "org:2" (mkCursor "n1" 0 1)] 0 0 256)) false (subscriptions 0 ["org:1"; "org:2"]%string))
    "org:2" (mkCursor "n1" 0 1) 256 opened_reachable eq_refl two_topics ltac:(vm_compute; reflexivity) eq_refl ltac:(left; vm_compute; reflexivity))
    as (st2 & E & _).
  exists st2. exact E.
Defined.
