(* ===== verification/MailingLists.v ===== *)
(** * Mailing lists

    [packages/mailing-lists/src]: the tables and statements of [models.ts], and the service
    of [mailing-lists.ts] over them, the mailer ([packages/mail/src/mailer.ts], [send]) and
    the job queue. An operation is a program (see [Async]): every statement, every batch
    transaction and every call of the mailer is one action, so that operations in flight
    interleave and a crash stops one between two actions. *)
From S2P Require Import Prelude JsString JsMap JsNumber JsJson Json JsTime Sql Queue Web Async.
#[local] Open Scope string_scope.
#[local] Open Scope Z_scope.
#[local] Open Scope list_scope.
#[local] Open Scope prog_scope.

(** ** Tables *)

Inductive SubscriberStatus : Type := SPending | SSubscribed | SUnsubscribed.
Inductive BroadcastStatus : Type := BPending | BSent.
Inductive DeliveryStatus : Type := DPending | DEnqueued.

#[export] Instance SubscriberStatus_eq_dec : EqDecision SubscriberStatus.
Proof. solve_decision. Defined.
#[export] Instance BroadcastStatus_eq_dec : EqDecision BroadcastStatus.
Proof. solve_decision. Defined.
#[export] Instance DeliveryStatus_eq_dec : EqDecision DeliveryStatus.
Proof. solve_decision. Defined.

Record MailList : Type := mkList { l_id : Z; l_name : option string }.

Record Subscriber : Type := mkSubscriber {
  s_id : Z; s_listId : Z; s_email : string; s_status : SubscriberStatus;
  s_confirmToken : option string; s_unsubscribeToken : option string; s_createdAt : string; s_updatedAt : string
}.

Record Broadcast : Type := mkBroadcast {
  b_id : Z; b_listId : Z; b_mailer : string; b_params : string; b_status : BroadcastStatus; b_createdAt : string; b_updatedAt : string
}.

Record BroadcastDelivery : Type := mkDelivery {
  d_id : Z; d_broadcastId : Z; d_subscriberId : Z; d_email : string; d_unsubscribeToken : option string;
  d_status : DeliveryStatus; d_jobId : option Z; d_createdAt : string; d_updatedAt : string
}.

(** The four tables, with the last identifier each sequence gave out. *)
Record Tables : Type := mkTables {
  lists : list MailList; lists_seq : Z;
  subscribers : list Subscriber; subscribers_seq : Z;
  broadcasts : list Broadcast; broadcasts_seq : Z;
  broadcastDeliveries : list BroadcastDelivery; deliveries_seq : Z
}.

(** The tables as the migration creates them. *)
Definition created : Tables := mkTables [] 0 [] 0 [] 0 [] 0.

Definition set_subscribers (t : list Subscriber) (seq : Z) (d : Tables) : Tables :=
  mkTables (lists d) (lists_seq d) t seq (broadcasts d) (broadcasts_seq d) (broadcastDeliveries d) (deliveries_seq d).
Definition set_broadcasts (t : list Broadcast) (seq : Z) (d : Tables) : Tables :=
  mkTables (lists d) (lists_seq d) (subscribers d) (subscribers_seq d) t seq (broadcastDeliveries d) (deliveries_seq d).
Definition set_deliveries (t : list BroadcastDelivery) (seq : Z) (d : Tables) : Tables :=
  mkTables (lists d) (lists_seq d) (subscribers d) (subscribers_seq d) (broadcasts d) (broadcasts_seq d) t seq.

Definition insertList (name : option string) (d : Tables) : Tables * MailList :=
  let row := mkList (lists_seq d + 1) name in
  (mkTables (lists d ++ [row]) (lists_seq d + 1) (subscribers d) (subscribers_seq d) (broadcasts d) (broadcasts_seq d)
     (broadcastDeliveries d) (deliveries_seq d), row).

(** The unique indexes of [subscribers]: [(list_id, email)] and each token. *)
Definition collide (a b : Subscriber) : bool :=
  (s_listId a =? s_listId b) && String.eqb (s_email a) (s_email b) ||
  sql_eq (s_confirmToken a) (s_confirmToken b) || sql_eq (s_unsubscribeToken a) (s_unsubscribeToken b).

Fixpoint subscribers_unique (t : list Subscriber) : bool :=
  match t with [] => true | a :: t' => forallb (fun b => negb (collide a b)) t' && subscribers_unique t' end.

(** The unique index of [broadcast_deliveries]. *)
Definition same_delivery (a b : BroadcastDelivery) : bool :=
  (d_broadcastId a =? d_broadcastId b) && (d_subscriberId a =? d_subscriberId b).

Fixpoint deliveries_unique (t : list BroadcastDelivery) : bool :=
  match t with [] => true | a :: t' => forallb (fun b => negb (same_delivery a b)) t' && deliveries_unique t' end.

(** [None]: an index refuses. *)
Definition insertSubscriber (date listId : Z) (email : string) (status : SubscriberStatus) (confirmToken unsubscribeToken : option string)
    (d : Tables) : Tables * option Subscriber :=
  let now := toISOString date in
  let row := mkSubscriber (subscribers_seq d + 1) listId email status confirmToken unsubscribeToken now now in
  if subscribers_unique (subscribers d ++ [row]) then (set_subscribers (subscribers d ++ [row]) (subscribers_seq d + 1) d, Some row)
  else (d, None).

Definition findSubscriberById (id : Z) (d : Tables) : option Subscriber := List.find (fun s => s_id s =? id) (subscribers d).

Definition findSubscriberByEmail (listId : Z) (email : string) (d : Tables) : option Subscriber :=
  List.find (fun s => (s_listId s =? listId) && String.eqb (s_email s) email) (subscribers d).

Definition findPendingSubscriberByConfirmToken (token : string) (d : Tables) : option Subscriber :=
  List.find (fun s => sql_eq (s_confirmToken s) (Some token) && bool_decide (s_status s = SPending)) (subscribers d).

Definition findSubscriberByUnsubscribeToken (token : string) (d : Tables) : option Subscriber :=
  List.find (fun s => sql_eq (s_unsubscribeToken s) (Some token)) (subscribers d).

Definition reset_pending (date : Z) (confirmToken unsubscribeToken : string) (s : Subscriber) : Subscriber :=
  mkSubscriber (s_id s) (s_listId s) (s_email s) SPending (Some confirmToken) (Some unsubscribeToken) (s_createdAt s) (toISOString date).

(** [upsertPendingSubscriber] once its SELECT is answered: the statement that writes, and
    the commit. *)
Definition upsertPendingSubscriber (existing : option Subscriber) (date listId : Z) (email confirmToken unsubscribeToken : string) (d : Tables)
    : Tables * option Subscriber :=
  match existing with
  | Some e =>
      let t := (update_where (fun s => s_id s =? s_id e) (reset_pending date confirmToken unsubscribeToken) (subscribers d)).1 in
      if subscribers_unique t then (set_subscribers t (subscribers_seq d) d, Some (reset_pending date confirmToken unsubscribeToken e))
      else (d, None)
  | None => insertSubscriber date listId email SPending (Some confirmToken) (Some unsubscribeToken) d
  end.

Definition confirmSubscriber (date id : Z) (d : Tables) : Tables :=
  set_subscribers (update_where (fun s => s_id s =? id)
    (fun s => mkSubscriber (s_id s) (s_listId s) (s_email s) SSubscribed None (s_unsubscribeToken s) (s_createdAt s) (toISOString date))
    (subscribers d)).1 (subscribers_seq d) d.

Definition unsubscribeSubscriber (date id : Z) (d : Tables) : Tables :=
  set_subscribers (update_where (fun s => s_id s =? id)
    (fun s => mkSubscriber (s_id s) (s_listId s) (s_email s) SUnsubscribed (s_confirmToken s) (s_unsubscribeToken s) (s_createdAt s) (toISOString date))
    (subscribers d)).1 (subscribers_seq d) d.

Definition subscribedRecipients (listId : Z) (d : Tables) : list Subscriber :=
  List.filter (fun s => (s_listId s =? listId) && bool_decide (s_status s = SSubscribed)) (subscribers d).

Definition insertBroadcast (date listId : Z) (mailer params : string) (d : Tables) : Tables * Broadcast :=
  let now := toISOString date in
  let row := mkBroadcast (broadcasts_seq d + 1) listId mailer params BPending now now in
  (set_broadcasts (broadcasts d ++ [row]) (broadcasts_seq d + 1) d, row).

Definition findBroadcastById (id : Z) (d : Tables) : option Broadcast := List.find (fun b => b_id b =? id) (broadcasts d).

Definition markBroadcastSent (date id : Z) (d : Tables) : Tables :=
  set_broadcasts (update_where (fun b => b_id b =? id)
    (fun b => mkBroadcast (b_id b) (b_listId b) (b_mailer b) (b_params b) BSent (b_createdAt b) (toISOString date))
    (broadcasts d)).1 (broadcasts_seq d) d.

Definition insertBroadcastDelivery (date broadcastId subscriberId : Z) (email : string) (unsubscribeToken : option string) (d : Tables)
    : option Tables :=
  let now := toISOString date in
  let row := mkDelivery (deliveries_seq d + 1) broadcastId subscriberId email unsubscribeToken DPending None now now in
  if deliveries_unique (broadcastDeliveries d ++ [row])
  then Some (set_deliveries (broadcastDeliveries d ++ [row]) (deliveries_seq d + 1) d) else None.

Definition pendingBroadcastDeliveries (broadcastId : Z) (d : Tables) : list BroadcastDelivery :=
  List.filter (fun r => (d_broadcastId r =? broadcastId) && bool_decide (d_status r = DPending)) (broadcastDeliveries d).

Definition enqueued_as (date jobId : Z) (r : BroadcastDelivery) : BroadcastDelivery :=
  mkDelivery (d_id r) (d_broadcastId r) (d_subscriberId r) (d_email r) (d_unsubscribeToken r) DEnqueued (Some jobId)
    (d_createdAt r) (toISOString date).

Definition markDeliveryEnqueued (date id jobId : Z) (d : Tables) : Tables :=
  set_deliveries (update_where (fun r => d_id r =? id) (enqueued_as date jobId) (broadcastDeliveries d)).1 (deliveries_seq d) d.

(** ** The service *)

(** [/^[^\s@]+@[^\s@.]+(?:\.[^\s@.]+)+$/]. *)
Definition unspaced (s : string) : bool := all_chars (fun c => negb (is_space c)) s.
Definition filled (s : string) : bool := negb (String.eqb s EmptyString).

Definition EMAIL_RE (s : string) : bool :=
  match split "@" s with
  | [local; domain] =>
      let labels := split "." domain in
      filled local && unspaced local && Nat.ltb 1 (length labels) && forallb (fun l => filled l && unspaced l) labels
  | _ => false
  end.

Definition assertEmailShape (email : string) : outcome JsThrown unit :=
  if negb (EMAIL_RE email) then Throw (LestoError "MAILING_LIST_INVALID_EMAIL") else Ok tt.

Definition invalidToken : JsThrown := LestoError "MAILING_LIST_INVALID_TOKEN".

Definition DEFAULT_CHUNK_SIZE : Z := 1000.

(** [items.slice(i, i + size)] while [i] is short of the end; [None] where it goes on for
    ever. *)
Fixpoint chunk_from {A} (fuel : nat) (items : list A) (size i : Z) : option (list (list A)) :=
  if i <? Z.of_nat (length items) then
    match fuel with
    | O => None
    | S fuel' =>
        match chunk_from fuel' items size (i + size) with
        | Some out => Some (firstn (Z.to_nat size) (skipn (Z.to_nat i) items) :: out)
        | None => None
        end
    end
  else Some [].

Definition chunk {A} (items : list A) (size : Z) : option (list (list A)) := chunk_from (length items) items size 0.

Record ConfirmationMailer : Type := mkConfirmationMailer { cm_name : string; cm_confirmUrl : string -> string }.

(** [mailer_refuses n] is what call [n] of the mailer rejects with, if it does. *)
Record MailingListsOptions : Type := mkOptions {
  o_confirmationMailer : option ConfirmationMailer;
  o_unsubscribeUrl : option (string -> string);
  o_token : nat -> string;
  o_chunkSize : option Z;
  queue_options : QueueOptions;
  mailer_refuses : nat -> option JsThrown
}.

Definition DELIVER_JOB : string := "lesto.mail.deliver".

(** What happened, in order: the tokens minted for an address, those presented, and the
    mails enqueued, with the delivery a broadcast enqueued them for. *)
Inductive Trace : Type :=
| Minted (listId : Z) (email confirmToken unsubscribeToken : string)
| Confirms (token : string)
| Declines (token : string)
| Sends (delivery : option BroadcastDelivery) (job : Z) (mailer : string) (params : list (string * json)).

Record MailingWorld : Type := mkWorld {
  tables : Tables; jobs_db : DB; date : Z; minted : nat; calls : nat; trace : list Trace
}.

Definition set_tables (d : Tables) (w : MailingWorld) : MailingWorld := mkWorld d (jobs_db w) (date w) (minted w) (calls w) (trace w).
Definition logged (t : list Trace) (w : MailingWorld) : MailingWorld :=
  mkWorld (tables w) (jobs_db w) (date w) (minted w) (calls w) (trace w ++ t).

#[local] Abbreviation Prog := (Prog MailingWorld).

Definition reading {A} (f : Tables -> A) : Prog A := query (fun w => f (tables w)).
Definition writing {A} (f : Z -> Tables -> Tables * A) : Prog A :=
  atomic (fun w => let '(d, a) := f (date w) (tables w) in (set_tables d w, a)).
Definition updating (f : Z -> Tables -> Tables) : Prog unit := writing (fun date d => (f date d, tt)).
Definition noting (t : Trace) : Prog unit := modify (logged [t]).

Section Service.
Context (options : MailingListsOptions).

(** [mailer.send]. *)
Definition mailer_call (delivery : option BroadcastDelivery) (mailer : string) (params : list (string * json)) (w : MailingWorld)
    : MailingWorld * outcome JsThrown Z :=
  match mailer_refuses options (calls w) with
  | Some e => (mkWorld (tables w) (jobs_db w) (date w) (minted w) (S (calls w)) (trace w), Throw e)
  | None =>
      let '(q, job) := enqueue (queue_options options) (date w) (date w) DELIVER_JOB
        (JObj [("mailer", JStr mailer); ("params", JObj params)]) no_options (jobs_db w) in
      (mkWorld (tables w) q (date w) (minted w) (S (calls w)) (trace w ++ [Sends delivery job mailer params]), Ok job)
  end.

Definition mailer_send (delivery : option BroadcastDelivery) (mailer : string) (params : list (string * json)) : Prog Z :=
  do! r := atomic (mailer_call delivery mailer params) in lift r.

(** The two calls of [token]. *)
Definition mint (listId : Z) (email : string) (w : MailingWorld) : MailingWorld * (string * string) :=
  let confirmToken := o_token options (minted w) in
  let unsubscribeToken := o_token options (S (minted w)) in
  (mkWorld (tables w) (jobs_db w) (date w) (S (S (minted w))) (calls w) (trace w ++ [Minted listId email confirmToken unsubscribeToken]),
   (confirmToken, unsubscribeToken)).

Definition subscribe (listId : Z) (email : string) : Prog Subscriber :=
  do! _ := lift (assertEmailShape email) in
  do! tokens := atomic (mint listId email) in
  do! existing := reading (findSubscriberByEmail listId email) in
  do! written := writing (fun date => upsertPendingSubscriber existing date listId email tokens.1 tokens.2) in
  match written with
  | None => throw OtherError
  | Some subscriber =>
      match o_confirmationMailer options with
      | None => ret subscriber
      | Some m =>
          do! _ := mailer_send None (cm_name m)
            [("to", JStr email); ("confirmUrl", JStr (cm_confirmUrl m (default EmptyString (s_confirmToken subscriber))))] in
          ret subscriber
      end
  end.

Definition confirm (presented : string) : Prog Subscriber :=
  do! _ := noting (Confirms presented) in
  do! found := reading (findPendingSubscriberByConfirmToken presented) in
  match found with
  | None => throw invalidToken
  | Some s =>
      do! _ := updating (fun date => confirmSubscriber date (s_id s)) in
      ret (mkSubscriber (s_id s) (s_listId s) (s_email s) SSubscribed None (s_unsubscribeToken s) (s_createdAt s) (s_updatedAt s))
  end.

Definition unsubscribe (presented : string) : Prog Subscriber :=
  do! _ := noting (Declines presented) in
  do! found := reading (findSubscriberByUnsubscribeToken presented) in
  match found with
  | None => throw invalidToken
  | Some s =>
      do! _ := updating (fun date => unsubscribeSubscriber date (s_id s)) in
      ret (mkSubscriber (s_id s) (s_listId s) (s_email s) SUnsubscribed (s_confirmToken s) (s_unsubscribeToken s) (s_createdAt s) (s_updatedAt s))
  end.

Definition listUnsubscribeHeaders (unsubscribeToken : option string) : option json :=
  match o_unsubscribeUrl options, unsubscribeToken with
  | Some url, Some token =>
      Some (JObj [("List-Unsubscribe", JStr ("<" ++ url token ++ ">")%string); ("List-Unsubscribe-Post", JStr "List-Unsubscribe=One-Click")])
  | _, _ => None
  end.

(** The params of one recipient's mail. *)
Definition mail_params (params : list (string * json)) (r : BroadcastDelivery) : list (string * json) :=
  let params := map_set "to" (JStr (d_email r)) params in
  match listUnsubscribeHeaders (d_unsubscribeToken r) with Some headers => map_set "headers" headers params | None => params end.

Fixpoint drainDeliveries (broadcastId : Z) (mailerName : string) (params : list (string * json)) (pending : list BroadcastDelivery) (enqueued : Z)
    : Prog Z :=
  match pending with
  | [] =>
      do! _ := updating (fun date => markBroadcastSent date broadcastId) in
      ret enqueued
  | r :: pending' =>
      do! jobId := mailer_send (Some r) mailerName (mail_params params r) in
      do! _ := updating (fun date => markDeliveryEnqueued date (d_id r) jobId) in
      drainDeliveries broadcastId mailerName params pending' (enqueued + 1)
  end.

(** The rows of a batch, in one transaction; [None]: an insert is refused, all of it is
    rolled back. *)
Fixpoint insert_batch (date broadcastId : Z) (batch : list Subscriber) (d : Tables) : option Tables :=
  match batch with
  | [] => Some d
  | s :: batch' =>
      match insertBroadcastDelivery date broadcastId (s_id s) (s_email s) (s_unsubscribeToken s) d with
      | Some d' => insert_batch date broadcastId batch' d'
      | None => None
      end
  end.

Definition batch_transaction (broadcastId : Z) (batch : list Subscriber) : Prog unit :=
  do! r := writing (fun date d =>
    match insert_batch date broadcastId batch d with Some d' => (d', Ok tt) | None => (d, Throw OtherError) end) in
  lift r.

Fixpoint record_batches (broadcastId : Z) (batches : list (list Subscriber)) : Prog unit :=
  match batches with
  | [] => ret tt
  | batch :: batches' =>
      do! _ := batch_transaction broadcastId batch in
      record_batches broadcastId batches'
  end.

Record BroadcastResult : Type := mkBroadcastResult { broadcastId : Z; enqueued : Z }.

(** A chunk size below one makes chunks until the memory is used up. *)
Definition broadcast (listId : Z) (mailerName : string) (params : list (string * json)) : Prog BroadcastResult :=
  do! recipients := reading (subscribedRecipients listId) in
  do! row := writing (fun date => insertBroadcast date listId mailerName (json_stringify (JObj params))) in
  do! batches := lift (match chunk recipients (default DEFAULT_CHUNK_SIZE (o_chunkSize options)) with
                       | Some batches => Ok batches | None => Throw OtherError end) in
  do! _ := record_batches (b_id row) batches in
  do! pending := reading (pendingBroadcastDeliveries (b_id row)) in
  do! enqueued := drainDeliveries (b_id row) mailerName params pending 0 in
  ret (mkBroadcastResult (b_id row) enqueued).

(** [JSON.parse(row.params)]: the column holds the text of an object. *)
Definition parsed_params (row : Broadcast) : outcome JsThrown (list (string * json)) :=
  match json_parse (b_params row) with
  | Some (JObj params) => Ok params
  | _ => Throw OtherError
  end.

Definition resumeBroadcast (id : Z) : Prog BroadcastResult :=
  do! found := reading (findBroadcastById id) in
  match found with
  | None => throw (LestoError "MAILING_LIST_UNKNOWN_BROADCAST")
  | Some row =>
      do! params := lift (parsed_params row) in
      do! pending := reading (pendingBroadcastDeliveries id) in
      do! enqueued := drainDeliveries id (b_mailer row) params pending 0 in
      ret (mkBroadcastResult id enqueued)
  end.
End Service.
