(* ===== verification/MailingConsent.v ===== *)
(** * Mailing lists: consent

    Whatever operations are in flight and however they interleave, a broadcast mails only
    addresses that opted in. *)
From S2P Require Import Prelude JsString JsMap JsJson Json JsTime Sql Queue Web Async MailingLists.
#[local] Open Scope string_scope.
#[local] Open Scope Z_scope.
#[local] Open Scope list_scope.
#[local] Open Scope prog_scope.

(** ** Calls of the service *)

Inductive Call : Type :=
| CallSubscribe (listId : Z) (email : string)
| CallConfirm (token : string)
| CallUnsubscribe (token : string)
| CallBroadcast (listId : Z) (mailer : string) (params : list (string * json))
| CallResume (broadcastId : Z).

Definition serving (options : MailingListsOptions) (c : Call) : Prog MailingWorld unit :=
  match c with
  | CallSubscribe l e => do! _ := subscribe options l e in ret tt
  | CallConfirm t => do! _ := confirm t in ret tt
  | CallUnsubscribe t => do! _ := unsubscribe t in ret tt
  | CallBroadcast l m ps => do! _ := broadcast options l m ps in ret tt
  | CallResume b => do! _ := resumeBroadcast options b in ret tt
  end.

(** Time passes, and the workers do what they do with the jobs. *)
Definition outside (w w' : MailingWorld) : Prop :=
  tables w' = tables w /\ minted w' = minted w /\ calls w' = calls w /\ trace w' = trace w /\ date w <= date w'.

(** The service on new tables. *)
Definition opened (q : DB) (now : Z) : MailingWorld := mkWorld created q now 0 0 [].

(** ** What consent is *)

(** A token minted for the address was presented. *)
Definition consented (listId : Z) (email : string) (t : list Trace) : Prop :=
  exists c u, In (Minted listId email c u) t /\ In (Confirms c) t.

Definition subscriber_known (s : Subscriber) (w : MailingWorld) : Prop :=
  exists s', In s' (subscribers (tables w)) /\ s_id s' = s_id s /\ s_listId s' = s_listId s /\ s_email s' = s_email s.

Definition broadcast_of (id listId : Z) (w : MailingWorld) : Prop :=
  exists b, In b (broadcasts (tables w)) /\ b_id b = id /\ b_listId b = listId.

Definition minted_for (listId : Z) (email token : string) (w : MailingWorld) : Prop :=
  exists u, In (Minted listId email token u) (trace w).

Definition recipient_of (id : Z) (email : string) (w : MailingWorld) : Prop :=
  exists listId, broadcast_of id listId w /\ consented listId email (trace w).

Definition tokens_of (t : Trace) : list string := match t with Minted _ _ c u => [c; u] | _ => [] end.

Definition drawn (token : string) (w : MailingWorld) : Prop := In token (flat_map tokens_of (trace w)).

Section Consent.
Context (options : MailingListsOptions).

(** The trace, event by event: what went before each mail. *)
Definition event_ok (w : MailingWorld) (before : list Trace) (e : Trace) : Prop :=
  match e with
  | Sends (Some r) _ _ ps =>
      (exists listId, broadcast_of (d_broadcastId r) listId w /\ consented listId (d_email r) before) /\ map_get "to" ps = Some (JStr (d_email r))
  | Sends None _ _ ps =>
      exists m listId email c u, o_confirmationMailer options = Some m /\ In (Minted listId email c u) before /\
        ps = [("to", JStr email); ("confirmUrl", JStr (cm_confirmUrl m c))]
  | _ => True
  end.

Record consent_ok (w : MailingWorld) : Prop := {
  ok_ids : List.NoDup (map s_id (subscribers (tables w)));
  ok_seq : forall s, In s (subscribers (tables w)) -> s_id s <= subscribers_seq (tables w);
  ok_tokens : forall s c, In s (subscribers (tables w)) -> s_confirmToken s = Some c -> minted_for (s_listId s) (s_email s) c w;
  ok_unsubs : forall s u, In s (subscribers (tables w)) -> s_unsubscribeToken s = Some u -> drawn u w;
  ok_subscribed : forall s, In s (subscribers (tables w)) -> s_status s = SSubscribed -> consented (s_listId s) (s_email s) (trace w);
  ok_deliveries : forall r, In r (broadcastDeliveries (tables w)) -> recipient_of (d_broadcastId r) (d_email r) w;
  ok_trace : forall before e after, trace w = before ++ e :: after -> event_ok w before e;
  ok_minted : flat_map tokens_of (trace w) = map (o_token options) (List.seq 0 (minted w))
}.

(** Rows keep who they are about, and the past is kept. *)
Record later (w w' : MailingWorld) : Prop := {
  later_trace : exists more, trace w' = trace w ++ more;
  later_subscribers : forall s, subscriber_known s w -> subscriber_known s w';
  later_broadcasts : forall id listId, broadcast_of id listId w -> broadcast_of id listId w'
}.

#[local] Instance later_preorder : PreOrder later.
Proof.
  split.
  - intros w. split; [exists []; by rewrite app_nil_r|done|done].
  - intros w1 w2 w3 [(m1 & E1) S1 B1] [(m2 & E2) S2 B2]. split; [exists (m1 ++ m2); by rewrite E2, E1, app_assoc|auto|auto].
Qed.

Lemma later_in e w w' : later w w' -> In e (trace w) -> In e (trace w').
Proof. intros [(m & ->) _ _] H. apply in_app_iff. by left. Qed.

Lemma later_consented l e w w' : later w w' -> consented l e (trace w) -> consented l e (trace w').
Proof. intros L (c & u & H1 & H2). exists c, u. split; by apply (later_in _ w). Qed.

Lemma later_minted l e c w w' : later w w' -> minted_for l e c w -> minted_for l e c w'.
Proof. intros L (u & H). exists u. by apply (later_in _ w). Qed.

Lemma later_drawn u w w' : later w w' -> drawn u w -> drawn u w'.
Proof. intros [(m & E) _ _] H. unfold drawn. rewrite E, flat_map_app. apply in_app_iff. by left. Qed.

Lemma later_recipient id e w w' : later w w' -> recipient_of id e w -> recipient_of id e w'.
Proof. intros L (l & B & C). exists l. split; [by apply (later_broadcasts w)|by apply (later_consented _ _ w)]. Qed.

Lemma later_event w w' before e : later w w' -> event_ok w before e -> event_ok w' before e.
Proof.
  intros L. destruct e as [| | |[r|] j m ps]; try done. intros [(l & B & C) T]. split; [|done]. exists l. split; [|done]. by apply (later_broadcasts w).
Qed.

Lemma consented_in l e before more : consented l e before -> consented l e (before ++ more).
Proof. intros (c & u & H1 & H2). exists c, u. rewrite !in_app_iff. auto. Qed.

(** ** Actions keep it *)

#[local] Abbreviation ok w' w := (consent_ok w' /\ later w w').

Lemma ok_logged w e q n :
  consent_ok w -> event_ok w (trace w) e -> flat_map tokens_of (trace w ++ [e]) = map (o_token options) (List.seq 0 n) ->
  forall k, ok (mkWorld (tables w) q (date w) n k (trace w ++ [e])) w.
Proof.
  intros O Ev T k. assert (later w (mkWorld (tables w) q (date w) n k (trace w ++ [e]))) as L by (split; [by exists [e]|done|done]).
  split; [|exact L]. split; cbn.
  - apply (ok_ids _ O).
  - apply (ok_seq _ O).
  - intros s c H1 H2. apply (later_minted _ _ _ w); [done|]. by apply (ok_tokens _ O).
  - intros s u H1 H2. apply (later_drawn _ _ _ L). by apply (ok_unsubs _ O s).
  - intros s H1 H2. apply (later_consented _ _ w _ L). by apply (ok_subscribed _ O).
  - intros r H. apply (later_recipient _ _ w); [done|]. by apply (ok_deliveries _ O).
  - intros before e' after E. apply (later_event w); [done|]. destruct after as [|a after _] using rev_ind.
    + apply app_inj_tail in E as [<- <-]. exact Ev.
    + rewrite app_comm_cons, app_assoc in E. apply app_inj_tail in E as [E _]. by apply (ok_trace _ O _ _ after).
  - exact T.
Qed.

Lemma ok_plain w e q k :
  consent_ok w -> event_ok w (trace w) e -> tokens_of e = [] -> ok (mkWorld (tables w) q (date w) (minted w) k (trace w ++ [e])) w.
Proof. intros O Ev T. apply ok_logged; [done|done|]. rewrite flat_map_app. cbn. rewrite T, app_nil_r. apply (ok_minted _ O). Qed.

Lemma ok_same w q k : consent_ok w -> ok (mkWorld (tables w) q (date w) (minted w) k (trace w)) w.
Proof.
  intros [O1 O2 O3 O4 O5 O6 O7 O8]. split; [by split|]. split; [exists []; by rewrite app_nil_r|done|done].
Qed.

(** A statement. *)
Lemma ok_tables w d :
  consent_ok w -> List.NoDup (map s_id (subscribers d)) ->
  (forall s, In s (subscribers d) ->
     s_id s <= subscribers_seq d /\ (forall c, s_confirmToken s = Some c -> minted_for (s_listId s) (s_email s) c w) /\
     (forall u, s_unsubscribeToken s = Some u -> drawn u w) /\
     (s_status s = SSubscribed -> consented (s_listId s) (s_email s) (trace w))) ->
  (forall r, In r (broadcastDeliveries d) -> recipient_of (d_broadcastId r) (d_email r) (set_tables d w)) ->
  (forall s, In s (subscribers (tables w)) -> subscriber_known s (set_tables d w)) ->
  (forall id l, broadcast_of id l w -> broadcast_of id l (set_tables d w)) -> ok (set_tables d w) w.
Proof.
  intros O H1 H2 H3 H4 H5. assert (later w (set_tables d w)) as L.
  { split; [exists []; by rewrite app_nil_r| |done]. intros s (s' & Hin & E1 & E2 & E3). destruct (H4 s' Hin) as (s2 & Hin2 & F1 & F2 & F3). exists s2. split; [exact Hin2|]. split; [congruence|]. split; congruence. }
  split; [|exact L]. split; cbn; [exact H1|intros s Hs; by apply H2|intros s c Hs; by apply H2|intros s u Hs; by apply H2|intros s Hs; by apply H2|exact H3| |apply (ok_minted _ O)].
  intros before e after E. apply (later_event w); [done|]. by apply (ok_trace _ O _ _ after).
Qed.

Lemma recipient_same w d id e :
  broadcasts d = broadcasts (tables w) -> recipient_of id e w -> recipient_of id e (set_tables d w).
Proof. intros E (l & (b & B1 & B2) & C). exists l. split; [|done]. exists b. cbn. by rewrite E. Qed.

(** Only subscribers are written. *)
Lemma ok_subscribers w t seq :
  consent_ok w -> List.NoDup (map s_id t) ->
  (forall s, In s t ->
     s_id s <= seq /\ (forall c, s_confirmToken s = Some c -> minted_for (s_listId s) (s_email s) c w) /\
     (forall u, s_unsubscribeToken s = Some u -> drawn u w) /\
     (s_status s = SSubscribed -> consented (s_listId s) (s_email s) (trace w))) ->
  (forall s, In s (subscribers (tables w)) -> exists s', In s' t /\ s_id s' = s_id s /\ s_listId s' = s_listId s /\ s_email s' = s_email s) ->
  ok (set_tables (set_subscribers t seq (tables w)) w) w.
Proof.
  intros O H1 H2 H3. apply ok_tables; try done. intros r Hr. apply recipient_same; [done|]. by apply (ok_deliveries _ O).
Qed.

Lemma ok_update w p f :
  consent_ok w ->
  (forall s, s_id (f s) = s_id s /\ s_listId (f s) = s_listId s /\ s_email (f s) = s_email s) ->
  (forall s, In s (subscribers (tables w)) -> p s = true ->
     (forall c, s_confirmToken (f s) = Some c -> minted_for (s_listId s) (s_email s) c w) /\
     (forall u, s_unsubscribeToken (f s) = Some u -> drawn u w) /\
     (s_status (f s) = SSubscribed -> consented (s_listId s) (s_email s) (trace w))) ->
  ok (set_tables (set_subscribers (update_where p f (subscribers (tables w))).1 (subscribers_seq (tables w)) (tables w)) w) w.
Proof.
  intros O Hf Hp. apply ok_subscribers; [done| | |].
  - cbn. rewrite map_map, (map_ext _ s_id); [apply (ok_ids _ O)|]. intros s. destruct (p s); [apply Hf|done].
  - intros s' Hs. apply In_update in Hs as (s & Hs & ->). destruct (Hf s) as (E1 & E2 & E3). destruct (p s) eqn:E.
    + rewrite E1, E2, E3. split; [by apply (ok_seq _ O)|]. by apply Hp.
    + split; [by apply (ok_seq _ O)|]. split; [intros c; by apply (ok_tokens _ O)|]. split; [intros u; by apply (ok_unsubs _ O s)|by apply (ok_subscribed _ O)].
  - intros s Hs. exists (if p s then f s else s). split; [apply In_update; by exists s|]. destruct (p s); [apply Hf|done].
Qed.

(** The row an identifier names is about who it was about when it was read. *)
Lemma same_row w s s' : consent_ok w -> subscriber_known s w -> In s' (subscribers (tables w)) -> s_id s' = s_id s -> s_listId s' = s_listId s /\ s_email s' = s_email s.
Proof.
  intros O (s2 & H2 & E1 & E2 & E3) Hs E. assert (s' = s2) as -> by (apply (NoDup_map_inj_in s_id (subscribers (tables w))); [apply (ok_ids _ O)|done|done|congruence]).
  done.
Qed.

(** ** Operations keep it *)

#[local] Abbreviation safe p w := (secured consent_ok later (fun _ _ => True) p w).

(** An action, then the rest. *)
Lemma safe_do {X A} (f : MailingWorld -> MailingWorld * X) (k : X -> Prog MailingWorld A) w0 :
  (forall w, later w0 w -> consent_ok w -> ok (f w).1 w /\ safe (k (f w).2) (f w).1) -> safe (bind (atomic f) k) w0.
Proof. intros H w L O. destruct (H w L O) as ((O' & L') & S). done. Qed.

Lemma safe_read {X A} (f : Tables -> X) (k : X -> Prog MailingWorld A) w0 :
  (forall w, later w0 w -> consent_ok w -> safe (k (f (tables w))) w) -> safe (bind (reading f) k) w0.
Proof. intros H. apply safe_do. intros w L O. split; [done|]. by apply H. Qed.

Lemma safe_lift {X A} (r : outcome JsThrown X) (k : X -> Prog MailingWorld A) w0 :
  (forall x, r = Ok x -> safe (k x) w0) -> safe (bind (lift r) k) w0.
Proof. destruct r as [x|e]; [|done]. intros H. by apply H. Qed.

(** A program, then the rest. *)
Lemma safe_bind {A B} (p : Prog MailingWorld A) (k : A -> Prog MailingWorld B) w0 : safe p w0 -> (forall a w, safe (k a) w) -> safe (bind p k) w0.
Proof. intros Hp Hk. apply (secured_bind consent_ok later). apply (secured_impl consent_ok later (fun _ _ => True)); [by intros a w _|done]. Qed.

Lemma safe_ret {A} (a : A) w0 : safe (ret a) w0.
Proof. by intros w _ _. Qed.

Lemma safe_send {A} delivery m ps (k : Z -> Prog MailingWorld A) w0 :
  (forall w, later w0 w -> consent_ok w -> forall j, event_ok w (trace w) (Sends delivery j m ps)) ->
  (forall j w, later w0 w -> consent_ok w -> safe (k j) w) -> safe (bind (mailer_send options delivery m ps) k) w0.
Proof.
  intros He Hk w L O. unfold mailer_call. destruct (mailer_refuses options (calls w)) as [e|]; [destruct (ok_same w (jobs_db w) (S (calls w)) O); done|].
  destruct (enqueue _ _ _ _ _ _ _) as [q j]. cbn [fst snd lift bind].
  destruct (ok_plain w (Sends delivery j m ps) q (S (calls w)) O (He w L O j) eq_refl) as [O' L'].
  split; [done|]. split; [done|]. apply Hk; [by transitivity w|done].
Qed.

Lemma find_email_spec l e d s : findSubscriberByEmail l e d = Some s -> In s (subscribers d) /\ s_listId s = l /\ s_email s = e.
Proof. by intros [H [E1%Z.eqb_eq E2%String.eqb_eq]%andb_true_iff]%List.find_some. Qed.

Lemma ok_mint w l e : consent_ok w -> ok (mint options l e w).1 w.
Proof.
  intros O. apply ok_logged; [done|done|]. rewrite flat_map_app, (ok_minted _ O). cbn [flat_map tokens_of app].
  replace (S (S (minted w))) with (minted w + 2)%nat by lia. by rewrite List.seq_app, map_app.
Qed.

Lemma ok_upsert w existing l e c u :
  consent_ok w -> minted_for l e c w -> drawn u w ->
  (forall s, existing = Some s -> subscriber_known s w /\ s_listId s = l /\ s_email s = e) ->
  ok (set_tables (upsertPendingSubscriber existing (date w) l e c u (tables w)).1 w) w /\
  (forall s, (upsertPendingSubscriber existing (date w) l e c u (tables w)).2 = Some s -> s_confirmToken s = Some c).
Proof.
  intros O M Dr Hex. assert (ok (set_tables (tables w) w) w) as Same by (pose proof (ok_same w (jobs_db w) (calls w) O); by destruct w).
  destruct existing as [s|]; cbn [upsertPendingSubscriber].
  - destruct (Hex s eq_refl) as (K & <- & <-). destruct (subscribers_unique _); [|done]. split; [|by intros ? [= <-]]. cbn [fst].
    apply ok_update; [done|done|]. intros s' Hs E%Z.eqb_eq. destruct (same_row w s s' O K Hs E) as [-> ->]. split; [by intros ? [= <-]|]. split; [by intros ? [= <-]|done].
  - unfold insertSubscriber. destruct (subscribers_unique _); [|done]. split; [|by intros ? [= <-]]. cbn [fst]. apply ok_subscribers; [done| | |].
    + rewrite map_app. apply NoDup_snoc; [apply (ok_ids _ O)|]. cbn. intros (s & E & Hs)%in_map_iff. pose proof (ok_seq _ O s Hs). lia.
    + intros s [Hs|[<-|[]]]%in_app_iff.
      * split; [pose proof (ok_seq _ O s Hs); lia|]. split; [intros c'; by apply (ok_tokens _ O)|]. split; [intros u'; by apply (ok_unsubs _ O s)|by apply (ok_subscribed _ O)].
      * cbn. split; [lia|]. split; [by intros ? [= <-]|]. split; [by intros ? [= <-]|done].
    + intros s Hs. exists s. split; [|done]. apply in_app_iff. by left.
Qed.

Lemma safe_subscribe l e w0 : safe (subscribe options l e) w0.
Proof.
  apply safe_lift. intros _ _. apply safe_do. intros w1 L1 O1. destruct (ok_mint w1 l e O1) as [O2 L2]. split; [done|].
  set (w2 := (mint options l e w1).1) in *. set (tokens := (mint options l e w1).2).
  assert (minted_for l e tokens.1 w2 /\ drawn tokens.2 w2) as [M Dr].
  { split; [exists tokens.2; apply in_app_iff; right; by left|]. unfold drawn, w2. cbn. rewrite flat_map_app. apply in_app_iff. right. cbn. tauto. }
  clearbody w2 tokens.
  apply safe_read. intros w3 L3 O3. apply safe_do. intros w4 L4 O4.
  assert (minted_for l e tokens.1 w4) as M4 by (apply (later_minted _ _ _ w3); [done|]; by apply (later_minted _ _ _ w2)).
  assert (drawn tokens.2 w4) as Dr4 by (apply (later_drawn _ w3); [done|]; by apply (later_drawn _ w2)).
  destruct (ok_upsert w4 (findSubscriberByEmail l e (tables w3)) l e tokens.1 tokens.2 O4 M4 Dr4) as [O5 Tok].
  { intros s (Hs & El & Ee)%find_email_spec. split; [|done]. apply (later_subscribers w3); [done|]. by exists s. }
  destruct (upsertPendingSubscriber _ _ _ _ _ _ _) as [d s]. cbn [fst snd] in *. split; [done|]. destruct O5 as [O5 L5].
  destruct s as [s|]; [|exact I]. rewrite (Tok s eq_refl). cbn [default]. destruct (o_confirmationMailer options) as [m|] eqn:Em; [|apply safe_ret].
  apply safe_send; [|intros; apply safe_ret]. intros w L O j. destruct (later_minted _ _ _ w4 w ltac:(by transitivity (set_tables d w4)) M4) as (u & Hu).
  by exists m, l, e, tokens.1, u.
Qed.

Lemma safe_confirm t w0 : safe (confirm t) w0.
Proof.
  apply safe_do. intros w1 L1 O1. split; [by apply ok_plain|]. apply safe_read. intros w2 L2 O2.
  destruct (findPendingSubscriberByConfirmToken t (tables w2)) as [s|] eqn:E; [|exact I]. apply List.find_some in E as [Hs [E _]%andb_true_iff].
  assert (s_confirmToken s = Some t) as Et by (destruct (s_confirmToken s); [|done]; apply String.eqb_eq in E; by subst).
  apply safe_do. intros w3 L3 O3. split; [|apply safe_ret]. apply ok_update; [done|done|]. intros s' Hs' Ei%Z.eqb_eq. split; [done|]. split; [intros u Hu; by apply (ok_unsubs _ O3 s')|]. intros _.
  destruct (same_row w3 s s' O3) as [-> ->]; [apply (later_subscribers w2); [done|]; by exists s|done|done|].
  apply (later_consented _ _ w2); [done|]. destruct (ok_tokens _ O2 s t Hs Et) as (u & Hu). exists t, u. split; [done|].
  apply (later_in _ _ _ L2). apply in_app_iff. right. by left.
Qed.

Lemma safe_unsubscribe t w0 : safe (unsubscribe t) w0.
Proof.
  apply safe_do. intros w1 L1 O1. split; [by apply ok_plain|]. apply safe_read. intros w2 L2 O2.
  destruct (findSubscriberByUnsubscribeToken t (tables w2)) as [s|]; [|exact I].
  apply safe_do. intros w3 L3 O3. split; [|apply safe_ret]. apply ok_update; [done|done|]. intros s' Hs' _. split; [intros c Hc; by apply (ok_tokens _ O3 s')|].
  split; [intros u Hu; by apply (ok_unsubs _ O3 s')|done].
Qed.

(** ** Broadcasts *)

Lemma chunk_from_In {A} fuel (items : list A) size i batches batch x :
  chunk_from fuel items size i = Some batches -> In batch batches -> In x batch -> In x items.
Proof.
  revert i batches. induction fuel as [|fuel IH]; intros i batches; cbn [chunk_from]; (destruct (_ <? _); [|by intros [= <-]]); [done|].
  destruct (chunk_from fuel items size (i + size)) as [out|] eqn:E; [|done]. intros [= <-] [<-|Hb] Hx; [|by apply (IH (i + size) out)].
  rewrite <- (firstn_skipn (Z.to_nat i) items), <- (firstn_skipn (Z.to_nat size) (skipn (Z.to_nat i) items)), !in_app_iff. auto.
Qed.

Lemma insert_batch_ok w id batch : consent_ok w ->
  (forall s, In s batch -> recipient_of id (s_email s) w) ->
  forall now d', insert_batch now id batch (tables w) = Some d' -> ok (set_tables d' w) w.
Proof.
  intros O Hb now d'. assert (forall d, (subscribers d = subscribers (tables w) /\ subscribers_seq d = subscribers_seq (tables w) /\ broadcasts d = broadcasts (tables w)) /\
      (forall r, In r (broadcastDeliveries d) -> recipient_of (d_broadcastId r) (d_email r) w) -> insert_batch now id batch d = Some d' ->
      (subscribers d' = subscribers (tables w) /\ subscribers_seq d' = subscribers_seq (tables w) /\ broadcasts d' = broadcasts (tables w)) /\
      (forall r, In r (broadcastDeliveries d') -> recipient_of (d_broadcastId r) (d_email r) w)) as G.
  { induction batch as [|s batch IH]; intros d [Hd Hr]; cbn [insert_batch]; [by intros [= <-]|]. unfold insertBroadcastDelivery. destruct (deliveries_unique _); [|done].
    apply IH; [intros s' H; apply Hb; by right|]. split; [done|]. intros r [H|[<-|[]]]%in_app_iff; [by apply Hr|]. apply Hb. by left. }
  intros E. destruct (G (tables w)) as [(E1 & E2 & E3) Hr]; [split; [done|apply (ok_deliveries _ O)]|exact E|]. apply ok_tables; [done|by rewrite E1; apply (ok_ids _ O)| | | |].
  - intros s. rewrite E1, E2. intros Hs. split; [by apply (ok_seq _ O)|]. split; [intros c; by apply (ok_tokens _ O)|]. split; [intros u; by apply (ok_unsubs _ O s)|by apply (ok_subscribed _ O)].
  - intros r H. by apply recipient_same; [|apply Hr].
  - intros s Hs. exists s. cbn. by rewrite E1.
  - intros b l (x & Hx & Hl). exists x. cbn. by rewrite E3.
Qed.

Lemma safe_batches id batches w0 :
  (forall batch s, In batch batches -> In s batch -> recipient_of id (s_email s) w0) -> safe (record_batches id batches) w0.
Proof.
  revert w0. induction batches as [|batch batches IH]; intros w0 Hb; [apply safe_ret|]. cbn [record_batches]. intros w L O.
  assert (forall s, In s batch -> recipient_of id (s_email s) w) as Hs by (intros s Hs; apply (later_recipient _ _ w0); [done|]; apply (Hb batch s); [by left|done]).
  pose proof (insert_batch_ok w id batch O Hs (date w)) as Ok'. destruct (insert_batch (date w) id batch (tables w)) as [d'|]; cbn [fst snd lift bind].
  - destruct (Ok' d' eq_refl) as [O' L']. split; [done|]. split; [done|]. apply IH. intros b s Hin Hin'. apply (later_recipient _ _ w0); [by transitivity w|].
    apply (Hb b s); [by right|done].
  - pose proof (ok_same w (jobs_db w) (calls w) O) as [O' L']. by destruct w.
Qed.

Lemma ok_mark_sent w id : consent_ok w -> ok (set_tables (markBroadcastSent (date w) id (tables w)) w) w.
Proof.
  intros O. assert (forall b l, broadcast_of b l w -> broadcast_of b l (set_tables (markBroadcastSent (date w) id (tables w)) w)) as B.
  { intros i l (b & Hb & Hi & Hl). eexists (if b_id b =? id then _ else b). split; [apply In_update; by exists b|]. by destruct (b_id b =? id). }
  apply ok_tables; [done|apply (ok_ids _ O)| | | |done].
  - intros s Hs. split; [by apply (ok_seq _ O)|]. split; [intros c; by apply (ok_tokens _ O)|]. split; [intros u; by apply (ok_unsubs _ O s)|by apply (ok_subscribed _ O)].
  - intros r Hr. destruct (ok_deliveries _ O r Hr) as (l & Hl & C). exists l. split; [by apply B|done].
  - intros s Hs. by exists s.
Qed.

Lemma ok_mark_enqueued w id j : consent_ok w -> ok (set_tables (markDeliveryEnqueued (date w) id j (tables w)) w) w.
Proof.
  intros O. apply ok_tables; [done|apply (ok_ids _ O)| | | |done].
  - intros s Hs. split; [by apply (ok_seq _ O)|]. split; [intros c; by apply (ok_tokens _ O)|]. split; [intros u; by apply (ok_unsubs _ O s)|by apply (ok_subscribed _ O)].
  - intros r' Hr. apply In_update in Hr as (r & Hr & ->). destruct (ok_deliveries _ O r Hr) as (l & Hl & C). exists l. by destruct (d_id r =? id).
  - intros s Hs. by exists s.
Qed.

Lemma mail_params_to params r : map_get "to" (mail_params options params r) = Some (JStr (d_email r)).
Proof.
  unfold mail_params. destruct (listUnsubscribeHeaders options (d_unsubscribeToken r)); rewrite !map_get_set; done.
Qed.

Lemma safe_drain id m params pending n w0 :
  (forall r, In r pending -> recipient_of (d_broadcastId r) (d_email r) w0) -> safe (drainDeliveries options id m params pending n) w0.
Proof.
  revert n w0. induction pending as [|r pending IH]; intros n w0 Hp; cbn [drainDeliveries].
  - apply safe_do. intros w L O. split; [by apply ok_mark_sent|apply safe_ret].
  - assert (forall w r', later w0 w -> In r' (r :: pending) -> recipient_of (d_broadcastId r') (d_email r') w) as Hp' by (intros w r' L H; apply (later_recipient _ _ w0); [done|by apply Hp]).
    apply safe_send.
    + intros w L O j. split; [apply (Hp' w r L); by left|apply mail_params_to].
    + intros j w L O. apply safe_do. intros w' L' O'. split; [by apply ok_mark_enqueued|]. apply IH. intros r' H. apply Hp'; [|by right].
      transitivity w; [done|]. transitivity w'; [done|]. by apply ok_mark_enqueued.
Qed.

Lemma pending_recipients id w : consent_ok w -> forall r, In r (pendingBroadcastDeliveries id (tables w)) -> recipient_of (d_broadcastId r) (d_email r) w.
Proof. intros O r [H _]%filter_In. by apply (ok_deliveries _ O). Qed.

Lemma ok_insert_broadcast w l m ps : consent_ok w ->
  ok (set_tables (insertBroadcast (date w) l m ps (tables w)).1 w) w /\
  broadcast_of (b_id (insertBroadcast (date w) l m ps (tables w)).2) l (set_tables (insertBroadcast (date w) l m ps (tables w)).1 w).
Proof.
  intros O. assert (forall b l', broadcast_of b l' w -> broadcast_of b l' (set_tables (insertBroadcast (date w) l m ps (tables w)).1 w)) as B.
  { intros i l' (b & Hb & E). exists b. split; [|done]. apply in_app_iff. by left. }
  split; [|eexists; split; [apply in_app_iff; right; left; reflexivity|done]]. apply ok_tables; [done|apply (ok_ids _ O)| | | |done].
  - intros s Hs. split; [by apply (ok_seq _ O)|]. split; [intros c; by apply (ok_tokens _ O)|]. split; [intros u; by apply (ok_unsubs _ O s)|by apply (ok_subscribed _ O)].
  - intros r Hr. destruct (ok_deliveries _ O r Hr) as (l' & Hl & C). exists l'. split; [by apply B|done].
  - intros s Hs. by exists s.
Qed.

Lemma safe_broadcast l m ps w0 : safe (broadcast options l m ps) w0.
Proof.
  apply safe_read. intros w1 L1 O1. apply safe_do. intros w2 L2 O2. destruct (ok_insert_broadcast w2 l m (json_stringify (JObj ps)) O2) as [[O3 L3] B].
  destruct (insertBroadcast _ _ _ _ _) as [d b]. cbn [fst snd] in *. split; [done|]. apply safe_lift. intros batches E. apply safe_bind.
  2: { intros [] w4. apply safe_read. intros w5 L5 O5. apply safe_bind; [by apply safe_drain, pending_recipients|]. intros n w. apply safe_ret. }
  apply safe_batches. intros batch s Hb Hs. destruct (chunk _ _) as [bs|] eqn:Ec; [|done]. injection E as ->. pose proof (chunk_from_In _ _ _ _ _ _ s Ec Hb Hs) as Hr.
  apply filter_In in Hr as [Hr [El%Z.eqb_eq Est%bool_decide_eq_true_1]%andb_true_iff]. exists l. split; [done|]. subst l.
  apply (later_consented _ _ w1); [by transitivity w2|]. by apply (ok_subscribed _ O1).
Qed.

Lemma safe_resume id w0 : safe (resumeBroadcast options id) w0.
Proof.
  apply safe_read. intros w1 L1 O1. destruct (findBroadcastById id (tables w1)) as [row|]; [|exact I]. apply safe_lift. intros params _.
  apply safe_read. intros w2 L2 O2. apply safe_bind; [by apply safe_drain, pending_recipients|]. intros n w. apply safe_ret.
Qed.

Lemma safe_call c w0 : safe (serving options c) w0.
Proof.
  destruct c; cbn [serving]; (apply safe_bind; [|intros x w; apply safe_ret]);
    [apply safe_subscribe|apply safe_confirm|apply safe_unsubscribe|apply safe_broadcast|apply safe_resume].
Qed.

Lemma ok_opened q now : consent_ok (opened q now).
Proof. split; try done; [constructor|]. by intros []. Qed.

Lemma serving_ok q now cs w ps : steps outside (opened q now, map (serving options) cs) (w, ps) -> consent_ok w.
Proof.
  intros S. refine (proj1 (steps_secured outside consent_ok later (fun _ _ => True) (opened q now, _) (w, ps) _ (ok_opened q now) _ S)).
  - intros v v' O (E1 & E2 & E3 & E4 & _). pose proof (ok_same v (jobs_db v') (calls v') O) as Ok. destruct v as [ta jb da mi ca tr], v' as [ta' jb' da' mi' ca' tr']. cbn in *. subst.
    destruct Ok as [O' L']. split.
    + destruct O as [P1 P2 P3 P4 P5 P6 P7 P8]. by split.
    + split; [exists []; by rewrite app_nil_r|done|done].
  - apply List.Forall_forall. intros p (c & <- & _)%in_map_iff. apply safe_call.
Qed.
End Consent.

(** ** The theorem *)

Lemma tokens_once options w l e c u l' e' u' :
  consent_ok options w -> (forall i j, o_token options i = o_token options j -> i = j) ->
  In (Minted l e c u) (trace w) -> In (Minted l' e' c u') (trace w) -> l' = l /\ e' = e.
Proof.
  intros O Inj. assert (List.NoDup (flat_map tokens_of (trace w))) as Nd.
  { rewrite (ok_minted _ _ O). apply Finite.Injective_map_NoDup; [exact Inj|apply seq_NoDup]. }
  revert Nd. generalize (trace w). clear. intros t. induction t as [|x t IH]; [done|]. cbn [flat_map]. intros Nd H H'.
  assert (forall l e u, In (Minted l e c u) t -> In c (flat_map tokens_of t)) as Later by (intros ? ? ? Hin; apply in_flat_map; eexists; split; [exact Hin|by left]).
  assert (In (Minted l e c u) t -> In (Minted l' e' c u') t -> l' = l /\ e' = e) as Both by (apply IH; by apply NoDup_app_remove_l in Nd).
  destruct H as [->|H], H' as [E|H']; [by injection E as -> -> ->| | |by apply Both].
  - cbn in Nd. inversion Nd as [|? ? Hn]; subst. destruct Hn. right. by eapply Later.
  - subst x. cbn in Nd. inversion Nd as [|? ? Hn]; subst. destruct Hn. right. by eapply Later.
Qed.

(** C7: nobody is mailed without having opted in: whatever operations of the service are in
    flight and however they interleave with each other, with the workers and with the clock,
    every mail a broadcast enqueues goes to an address for which a token was minted, for the
    broadcast's list, and presented, before the mail; that token was minted for no other
    address; and the mails that carry a confirmation link go to the address its token was
    minted for. *)
Theorem only_consenting_addresses_are_mailed (options : MailingListsOptions) (q : DB) (now : Z) (cs : list Call) (w : MailingWorld)
    (ps : list (Prog MailingWorld unit)) :
  (forall i j, o_token options i = o_token options j -> i = j) ->
  steps outside (opened q now, map (serving options) cs) (w, ps) ->
  (forall before r job mailer params after, trace w = before ++ Sends (Some r) job mailer params :: after ->
     map_get "to" params = Some (JStr (d_email r)) /\
     exists b c u, In b (broadcasts (tables w)) /\ b_id b = d_broadcastId r /\
       In (Minted (b_listId b) (d_email r) c u) before /\ In (Confirms c) before /\
       forall l e u', In (Minted l e c u') (trace w) -> l = b_listId b /\ e = d_email r) /\
  (forall job mailer params, In (Sends None job mailer params) (trace w) ->
     exists m l e c u, o_confirmationMailer options = Some m /\ In (Minted l e c u) (trace w) /\
       params = [("to", JStr e); ("confirmUrl", JStr (cm_confirmUrl m c))]).
Proof.
  intros Inj S. pose proof (serving_ok options q now cs w ps S) as O. split.
  - intros before r j m params after E. destruct (ok_trace _ _ O _ _ _ E) as [(l & (b & Hb & Hi & <-) & c & u & Hm & Hc) T]. split; [done|].
    exists b, c, u. split; [done|]. split; [done|]. split; [done|]. split; [done|]. intros l e u' H'. apply (tokens_once options w _ _ c u _ _ u' O Inj); [|done].
    rewrite E. apply in_app_iff. by left.
  - intros j m params (before & after & E)%in_split. destruct (ok_trace _ _ O _ _ _ E) as (cm & l & e & c & u & H1 & H2 & H3).
    exists cm, l, e, c, u. split; [done|]. split; [|done]. rewrite E. apply in_app_iff. by left.
Qed.

(** ** At concrete calls *)

(** A token generator that never repeats itself. *)
Definition tally (i : nat) : string := string_of_list_ascii (repeat "x"%char i).

Lemma tally_inj i j : tally i = tally j -> i = j.
Proof. intros E%(f_equal list_ascii_of_string). unfold tally in E. rewrite !list_ascii_of_string_of_list_ascii in E. by apply (f_equal (@length _)) in E; rewrite !repeat_length in E. Qed.

Definition plain_options : MailingListsOptions :=
  mkOptions (Some (mkConfirmationMailer "confirm" (fun t => ("https://x.com/confirm/" ++ t)%string)))
    (Some (fun t => ("https://x.com/unsubscribe/" ++ t)%string)) tally None default_options (fun _ => None).

(** A schedule in which the calls take turns. *)
Definition played (cs : list Call) (turns : list nat) : MailingWorld * list (Prog MailingWorld unit) :=
  scheduled turns (opened installSchema 0, map (serving plain_options) cs).

Definition one_reader : list Call := [CallSubscribe 1 "ada@x.com"; CallConfirm (tally 0); CallBroadcast 1 "digest" []].
Definition in_order : list nat := [0;0;0;0;1;1;1;2;2;2;2;2;2;2]%nat.

Lemma only_consenting_addresses_are_mailed_witness :
  let w := (played one_reader in_order).1 in
  exists before r job params after, trace w = before ++ Sends (Some r) job "digest" params :: after /\
    d_email r = "ada@x.com" /\ map_get "to" params = Some (JStr (d_email r)) /\
    exists b c u, In b (broadcasts (tables w)) /\ b_id b = d_broadcastId r /\
      In (Minted (b_listId b) (d_email r) c u) before /\ In (Confirms c) before.
Proof.
  pose proof (only_consenting_addresses_are_mailed plain_options installSchema 0 one_reader (played one_reader in_order).1 (played one_reader in_order).2 tally_inj) as T.
  destruct T as [T _]; [rewrite <- surjective_pairing; apply scheduled_steps|].
  let t := eval vm_compute in (trace (played one_reader in_order).1) in
  assert (trace (played one_reader in_order).1 = t) as E by (vm_compute; reflexivity).
  destruct (T [_; _; _] _ _ _ _ [] E) as (H1 & b & c & u & H2 & H3 & H4 & H5 & _).
  eexists [_; _; _], _, _, _, []. split; [exact E|]. split; [reflexivity|]. split; [exact H1|]. exists b, c, u. exact (conj H2 (conj H3 (conj H4 H5))).
Defined.

(** ** What the interleavings allow *)

(** Fact: a confirmation outruns an opt-out: the address confirms and at once unsubscribes;
    the confirmation read its row first and writes it last, so the address stays
    subscribed, although the opt-out reported success after the confirmation was asked
    for. *)
Theorem confirm_outruns_unsubscribe :
  let '(w, ps) := played [CallSubscribe 1 "ada@x.com"; CallConfirm (tally 0); CallUnsubscribe (tally 1)] [0;0;0;0; 1;1; 2;2;2; 1]%nat in
  ps = [ret tt; ret tt; ret tt] /\ map s_email (subscribedRecipients 1 (tables w)) = ["ada@x.com"].
Proof. vm_compute. done. Qed.

(** Fact: anyone can take an address off a list, and its unsubscribe links with it: after the
    address opted in, a [subscribe] of that address by someone else resets the row to
    pending, so a broadcast does not reach it any more, and mints a new unsubscribe token,
    so the link of the mails already sent is refused. *)
Theorem resubscribe_resets_a_reader :
  let '(w, _) := played [CallSubscribe 1 "ada@x.com"; CallConfirm (tally 0); CallSubscribe 1 "ada@x.com"] [0;0;0;0;1;1;1;2;2;2;2]%nat in
  subscribedRecipients 1 (tables w) = [] /\ (run (unsubscribe (tally 1)) w).2 = Throw invalidToken.
Proof. vm_compute. done. Qed.

(** Fact: two calls of [resumeBroadcast] in flight both read the pending deliveries, and the
    reader is mailed twice. *)
Theorem resumes_in_flight_mail_twice :
  let w0 := crash 3 (broadcast plain_options 1 "digest" [])
    (played [CallSubscribe 1 "ada@x.com"; CallConfirm (tally 0)] [0;0;0;0;1;1;1]%nat).1 in
  let '(w, ps) := scheduled [0;0;1;1;0;0;0;1;1;1]%nat (w0, map (serving plain_options) [CallResume 1; CallResume 1]) in
  ps = [ret tt; ret tt] /\
  map (fun e => match e with Sends (Some r) _ _ _ => d_email r | _ => EmptyString end) (skipn 3 (trace w)) = ["ada@x.com"; "ada@x.com"].
Proof. vm_compute. done. Qed.

(** Fact: a resumed broadcast mails an address that unsubscribed in between. *)
Theorem resume_mails_the_unsubscribed :
  let w0 := crash 3 (broadcast plain_options 1 "digest" [])
    (played [CallSubscribe 1 "ada@x.com"; CallConfirm (tally 0)] [0;0;0;0;1;1;1]%nat).1 in
  let w1 := (run (unsubscribe (tally 1)) w0).1 in
  let w2 := (run (resumeBroadcast plain_options 1) w1).1 in
  map s_status (subscribers (tables w1)) = [SUnsubscribed] /\
  map (fun e => match e with Sends (Some r) _ _ _ => d_email r | _ => EmptyString end) (skipn 4 (trace w2)) = ["ada@x.com"].
Proof. vm_compute. done. Qed.
