(* ===== verification/MailingListsProps.v ===== *)
(** * Mailing lists: the fan-out

    Broadcasts that crash and are resumed reach everyone; the life of a subscription. *)
From S2P Require Import Prelude JsString JsMap JsJson Json JsTime Sql Queue Web Async MailingLists MailingConsent.
#[local] Open Scope string_scope.
#[local] Open Scope Z_scope.
#[local] Open Scope list_scope.
#[local] Open Scope prog_scope.

(** ** Chunks *)

Lemma chunk_from_spec {A} fuel (items : list A) size i :
  0 < size -> 0 <= i -> Z.of_nat (length items) <= i + Z.of_nat fuel ->
  exists out, chunk_from fuel items size i = Some out /\ concat out = skipn (Z.to_nat i) items /\
    List.Forall (fun c => (length c <= Z.to_nat size)%nat) out.
Proof.
  intros Hs. revert i. induction fuel as [|fuel IH]; intros i Hi Hf; cbn [chunk_from]; destruct (Z.ltb_spec i (Z.of_nat (length items))) as [L|L]; [lia| | |].
  1, 3: exists []; cbn; rewrite skipn_all2 by lia; done.
  destruct (IH (i + size)) as (out & -> & E & F); [lia|lia|]. eexists. split; [done|]. cbn [concat]. rewrite E. split.
  - replace (Z.to_nat (i + size)) with (Z.to_nat size + Z.to_nat i)%nat by lia. rewrite <- skipn_skipn. apply firstn_skipn.
  - constructor; [|done]. apply firstn_le_length.
Qed.

Lemma chunk_spec {A} (items : list A) size : 0 < size ->
  exists out, chunk items size = Some out /\ concat out = items /\ List.Forall (fun c => (length c <= Z.to_nat size)%nat) out.
Proof. intros Hs. apply (chunk_from_spec (length items) items size 0); [done|lia|lia]. Qed.

Lemma crash_ret {W A B} (g : A -> B) (p : Prog W A) n w : crash n (bind p (fun a => ret (g a))) w = crash n p w.
Proof. revert n w. induction p as [[a|e]|X f k IH]; intros [|n] w; try done. cbn [bind crash]. destruct (f w). apply IH. Qed.

(** ** What has been mailed *)

Definition mails_of (t : list Trace) : list (BroadcastDelivery * string * list (string * json)) :=
  flat_map (fun e => match e with Sends (Some r) _ m ps => [(r, m, ps)] | _ => [] end) t.

Lemma mails_of_app t t' : mails_of (t ++ t') = mails_of t ++ mails_of t'.
Proof. apply flat_map_app. Qed.

Abbreviation pending id w := (pendingBroadcastDeliveries id (tables w)).
Definition ids_distinct (w : MailingWorld) : Prop := List.NoDup (map d_id (broadcastDeliveries (tables w))).

(** The broadcast is the one it was. *)
Definition row_kept (id : Z) (w w' : MailingWorld) : Prop :=
  forall row, findBroadcastById id (tables w) = Some row ->
    exists row', findBroadcastById id (tables w') = Some row' /\ b_mailer row' = b_mailer row /\ b_params row' = b_params row.

Lemma row_kept_refl id w : row_kept id w w.
Proof. intros row H. by exists row. Qed.

Lemma row_kept_trans id w1 w2 w3 : row_kept id w1 w2 -> row_kept id w2 w3 -> row_kept id w1 w3.
Proof. intros H1 H2 row (r2 & E2 & M2 & P2)%H1. destruct (H2 r2 E2) as (r3 & E3 & M3 & P3). exists r3. split; [done|]. split; congruence. Qed.

Lemma mark_enqueued_pending id r rest d j date :
  List.NoDup (map d_id (broadcastDeliveries d)) -> pendingBroadcastDeliveries id d = r :: rest ->
  pendingBroadcastDeliveries id (markDeliveryEnqueued date (d_id r) j d) = rest.
Proof.
  unfold pendingBroadcastDeliveries. cbn. generalize (broadcastDeliveries d). intros t. induction t as [|x t IH]; [done|]. cbn [map List.filter].
  intros Nd E. inversion Nd as [|? ? Hn Nd']; subst. destruct ((d_broadcastId x =? id) && bool_decide (d_status x = DPending)) eqn:Ex.
  - injection E as -> <-. rewrite Z.eqb_refl. cbn. rewrite andb_false_r, map_ext_in with (g := fun r => r); [by rewrite map_id|].
    intros y Hy. destruct (Z.eqb_spec (d_id y) (d_id r)) as [Ei|]; [|done]. destruct Hn. rewrite <- Ei. by apply in_map.
  - destruct (Z.eqb_spec (d_id x) (d_id r)) as [Ei|]; [|by rewrite Ex; apply IH]. destruct Hn. rewrite Ei. apply in_map.
    assert (In r (r :: rest)) as Hr by (by left). rewrite <- E in Hr. by apply filter_In in Hr as [].
Qed.

Lemma mark_enqueued_ids date id j d : map d_id (broadcastDeliveries (markDeliveryEnqueued date id j d)) = map d_id (broadcastDeliveries d).
Proof. cbn. rewrite map_map. apply map_ext. intros r. by destruct (d_id r =? id). Qed.

Lemma mark_sent_find date id d row : findBroadcastById id d = Some row ->
  findBroadcastById id (markBroadcastSent date id d) = Some (mkBroadcast (b_id row) (b_listId row) (b_mailer row) (b_params row) BSent (b_createdAt row) (toISOString date)).
Proof.
  unfold findBroadcastById. cbn. induction (broadcasts d) as [|b t IH]; [done|]. cbn [map List.find]. destruct (b_id b =? id) eqn:E; cbn [b_id]; rewrite E; [|done].
  by intros [= ->].
Qed.

(** ** The fan-out, cut short anywhere *)

Section FanOut.
Context (options : MailingListsOptions).

Definition mail (m : string) (params : list (string * json)) (r : BroadcastDelivery) : BroadcastDelivery * string * list (string * json) :=
  (r, m, mail_params options params r).

(** How far a run got: [sent] mails, [marked] of them on record. *)
Definition advanced (id : Z) (m : string) (params : list (string * json)) (l : list BroadcastDelivery) (w w' : MailingWorld) (sent marked : nat) : Prop :=
  (marked <= sent <= S marked)%nat /\ (sent <= length l)%nat /\
  mails_of (trace w') = mails_of (trace w) ++ map (mail m params) (firstn sent l) /\
  pending id w' = skipn marked l /\ ids_distinct w' /\ row_kept id w w'.

Lemma advanced_none id m params l w : ids_distinct w -> l = pending id w -> advanced id m params l w w O O.
Proof. intros Nd El. split; [lia|]. split; [lia|]. split; [by rewrite app_nil_r|]. split; [done|]. split; [done|]. apply row_kept_refl. Qed.

Lemma crash_drain id m params l k w n :
  ids_distinct w -> l = pending id w ->
  exists sent marked, advanced id m params l w (crash n (drainDeliveries options id m params l k) w) sent marked.
Proof.
  revert k w n. induction l as [|r l IH]; intros k w n Nd El; (destruct n as [|n]; [by exists O, O; apply advanced_none|]).
  - exists O, O. cbn [drainDeliveries crash]. assert (forall v : Z, crash n (ret v) (set_tables (markBroadcastSent (date w) id (tables w)) w) = set_tables (markBroadcastSent (date w) id (tables w)) w) as Ec by (by destruct n).
    cbn. rewrite Ec. split; [lia|]. split; [cbn; lia|]. split; [by rewrite app_nil_r|]. split; [by rewrite El|]. split; [done|].
    intros row H. eexists. split; [apply (mark_sent_find _ _ _ _ H)|done].
  - cbn [drainDeliveries bind mailer_send atomic crash]. unfold mailer_call. destruct (mailer_refuses options (calls w)) as [e|].
    + exists O, O. assert (forall v, crash n (Done (Throw e) : Prog MailingWorld Z) v = v) as Ec by (by destruct n). cbn. rewrite Ec.
      split; [lia|]. split; [cbn; lia|]. split; [by rewrite app_nil_r|]. split; [done|]. split; [done|]. intros row H. by exists row.
    + destruct (enqueue _ _ _ _ _ _ _) as [q j]. cbn [fst snd lift bind]. set (w1 := mkWorld _ _ _ _ _ _). destruct n as [|n].
      * exists 1%nat, O. cbn [crash]. split; [lia|]. split; [cbn; lia|]. split; [cbn; by rewrite mails_of_app|]. split; [done|]. split; [done|]. intros row H. by exists row.
      * cbn [crash updating writing atomic bind fst snd]. set (w2 := set_tables _ w1).
        assert (ids_distinct w2) as Nd2 by (unfold ids_distinct, w2; cbn [tables set_tables]; by rewrite mark_enqueued_ids).
        destruct (IH (k + 1) w2 n Nd2) as (sent & marked & H1 & H2 & H3 & H4 & H5 & H6).
        { symmetry. by apply mark_enqueued_pending. }
        exists (S sent), (S marked). split; [lia|]. split; [cbn; lia|]. split; [|split; [exact H4|]; split; [exact H5|]; exact H6].
        rewrite H3. cbn. by rewrite mails_of_app, <- app_assoc.
Qed.

Lemma run_drain id m params l k w row :
  ids_distinct w -> l = pending id w -> findBroadcastById id (tables w) = Some row ->
  (forall c, (calls w <= c)%nat -> mailer_refuses options c = None) ->
  exists w', run (drainDeliveries options id m params l k) w = (w', Ok (k + Z.of_nat (length l))) /\
    mails_of (trace w') = mails_of (trace w) ++ map (mail m params) l /\ pending id w' = [] /\
    exists row', findBroadcastById id (tables w') = Some row' /\ b_status row' = BSent.
Proof.
  revert k w row. induction l as [|r l IH]; intros k w row Nd El Er Hc.
  - eexists. split; [cbn; by rewrite Z.add_0_r|]. split; [by rewrite app_nil_r|]. split; [by rewrite El|]. eexists. split; [apply (mark_sent_find _ _ _ _ Er)|done].
  - cbn [drainDeliveries bind mailer_send atomic run]. unfold mailer_call. rewrite (Hc _ (Nat.le_refl _)). destruct (enqueue _ _ _ _ _ _ _) as [q j].
    cbn [fst snd lift bind run updating writing atomic]. set (w2 := set_tables _ _).
    assert (ids_distinct w2) as Nd2 by (unfold ids_distinct, w2; cbn [tables set_tables]; by rewrite mark_enqueued_ids).
    destruct (IH (k + 1) w2 row Nd2) as (w' & E & H1 & H2 & H3).
    + symmetry. by apply mark_enqueued_pending.
    + done.
    + intros c Hle. apply Hc. cbn in Hle. lia.
    + exists w'. split; [etransitivity; [exact E|]; do 2 f_equal; cbn [length]; lia|]. split; [|done]. rewrite H1. cbn. by rewrite mails_of_app, <- app_assoc.
Qed.

(** A resume, cut short anywhere. *)
Lemma crash_resume id w n row params :
  ids_distinct w -> findBroadcastById id (tables w) = Some row -> parsed_params row = Ok params ->
  exists sent marked, advanced id (b_mailer row) params (pending id w) w (crash n (resumeBroadcast options id) w) sent marked.
Proof.
  intros Nd Er Ep. destruct n as [|[|n]]; [by exists O, O; apply advanced_none|by exists O, O; apply advanced_none|].
  cbn [resumeBroadcast crash bind reading query atomic fst snd]. rewrite Er, Ep. cbn [lift bind crash]. rewrite crash_ret. by apply crash_drain.
Qed.

Lemma run_resume id w row params :
  ids_distinct w -> findBroadcastById id (tables w) = Some row -> parsed_params row = Ok params ->
  (forall c, (calls w <= c)%nat -> mailer_refuses options c = None) ->
  exists w', run (resumeBroadcast options id) w = (w', Ok (mkBroadcastResult id (Z.of_nat (length (pending id w))))) /\
    mails_of (trace w') = mails_of (trace w) ++ map (mail (b_mailer row) params) (pending id w) /\ pending id w' = [] /\
    exists row', findBroadcastById id (tables w') = Some row' /\ b_status row' = BSent.
Proof.
  intros Nd Er Ep Hc. destruct (run_drain id (b_mailer row) params (pending id w) 0 w row Nd eq_refl Er Hc) as (w' & E & H). exists w'. split; [|exact H].
  cbn [resumeBroadcast run bind reading query atomic]. rewrite Er, Ep. cbn [lift bind run]. by rewrite run_bind, E.
Qed.

(** Resumes that crash, one after the other. *)
Definition crashes_of (id : Z) (ns : list nat) (w : MailingWorld) : MailingWorld :=
  fold_left (fun w n => crash n (resumeBroadcast options id) w) ns w.

(** How far they got: the first [marked] deliveries are on record, and mailed; [mails] are
    those sent. *)
Lemma crashed_resumes id ns w row params :
  ids_distinct w -> findBroadcastById id (tables w) = Some row -> parsed_params row = Ok params ->
  let w' := crashes_of id ns w in
  exists marked mails row', ids_distinct w' /\ findBroadcastById id (tables w') = Some row' /\ parsed_params row' = Ok params /\ b_mailer row' = b_mailer row /\
    pending id w' = skipn marked (pending id w) /\ mails_of (trace w') = mails_of (trace w) ++ map (mail (b_mailer row) params) mails /\
    (forall r, In r mails -> In r (pending id w)) /\ (forall r, In r (firstn marked (pending id w)) -> In r mails) /\
    (length mails <= marked + length ns)%nat /\ (marked <= length (pending id w))%nat.
Proof.
  cbv zeta. revert w row. induction ns as [|n ns IH]; intros w row Nd Er Ep.
  - exists O, [], row. cbn. rewrite app_nil_r. repeat split; try done; lia.
  - destruct (crash_resume id w n row params Nd Er Ep) as (sent & mk1 & H1 & H2 & H3 & H4 & H5 & H6). destruct (H6 row Er) as (row1 & Er1 & M1 & P1).
    assert (parsed_params row1 = Ok params) as Ep1 by (unfold parsed_params; by rewrite P1). change (crashes_of id (n :: ns) w) with (crashes_of id ns (crash n (resumeBroadcast options id) w)).
    set (w1 := crash n (resumeBroadcast options id) w) in *.
    destruct (IH w1 row1 H5 Er1 Ep1) as (mk2 & mails & row' & I1 & I2 & I3 & I4 & I5 & I6 & I7 & I8 & I9 & I10).
    rewrite H4 in I5, I7, I8, I10. rewrite length_skipn in I10. exists (mk1 + mk2)%nat, (firstn sent (pending id w) ++ mails), row'.
    split; [done|]. split; [done|]. split; [done|]. split; [congruence|]. split; [by rewrite I5, skipn_skipn, Nat.add_comm|].
    split; [by rewrite I6, H3, M1, map_app, app_assoc|]. split; [|split; [|split]].
    + intros r [H|H%I7]%in_app_iff; [by apply (firstn_In _ sent)|by apply (skipn_In _ mk1)].
    + intros r H. rewrite <- (firstn_skipn mk1 (pending id w)), firstn_app in H. rewrite length_firstn, (Nat.min_l mk1) in H by lia.
      replace (mk1 + mk2 - mk1)%nat with mk2 in H by lia. apply in_app_iff in H as [H|H].
      * apply in_app_iff. left. apply firstn_In in H. by apply (firstn_mono _ mk1); [lia|].
      * apply in_app_iff. right. by apply I8.
    + rewrite length_app, length_firstn. cbn [length]. lia.
    + lia.
Qed.

(** ** Keys of the tables *)

Record keys_ok (d : Tables) : Prop := {
  k_ids : List.NoDup (map d_id (broadcastDeliveries d));
  k_seq : forall r, In r (broadcastDeliveries d) -> d_id r <= deliveries_seq d;
  k_unique : deliveries_unique (broadcastDeliveries d) = true;
  k_broadcasts : forall b, In b (broadcasts d) -> b_id b <= broadcasts_seq d;
  k_subscribers : subscribers_unique (subscribers d) = true
}.

Lemma subscribers_unique_map f t :
  (forall a b, collide (f a) (f b) = true -> collide a b = true) -> subscribers_unique t = true -> subscribers_unique (map f t) = true.
Proof.
  intros Hf. induction t as [|a t IH]; [done|]. cbn [map subscribers_unique]. intros [H1 H2]%andb_true_iff. rewrite IH, andb_true_r by done.
  rewrite forallb_forall in H1 |- *. intros b' (b & <- & Hb)%in_map_iff. specialize (H1 b Hb). specialize (Hf a b). destruct (collide (f a) (f b)); [|done].
  by rewrite Hf in H1.
Qed.

Lemma sql_eq_None a : sql_eq a None = false.
Proof. by destruct a. Qed.

Lemma deliveries_unique_map f t :
  (forall r, d_broadcastId (f r) = d_broadcastId r /\ d_subscriberId (f r) = d_subscriberId r) -> deliveries_unique (map f t) = deliveries_unique t.
Proof.
  intros Hf. induction t as [|a t IH]; [done|]. cbn [map deliveries_unique]. rewrite IH. f_equal. clear IH. induction t as [|b t IH]; [done|]. cbn [map forallb]. rewrite IH.
  unfold same_delivery. by rewrite !(proj1 (Hf _)), !(proj2 (Hf _)).
Qed.

Lemma deliveries_unique_snoc t x : deliveries_unique (t ++ [x]) = deliveries_unique t && forallb (fun a => negb (same_delivery a x)) t.
Proof.
  induction t as [|a t IH]; [done|]. cbn [app deliveries_unique forallb]. rewrite IH, forallb_app. cbn [forallb]. rewrite andb_true_r.
  rewrite <- !andb_assoc. f_equal. rewrite andb_assoc, (andb_comm (negb _)). by rewrite <- andb_assoc.
Qed.

Lemma insert_delivery_keys date id s e u d d' : keys_ok d -> insertBroadcastDelivery date id s e u d = Some d' -> keys_ok d'.
Proof.
  intros [K1 K2 K3 K4 K5]. unfold insertBroadcastDelivery. destruct (deliveries_unique (_ ++ _)) eqn:E; [|done]. intros [= <-]. split; cbn; [| |exact E|exact K4|exact K5].
  - rewrite map_app. apply NoDup_snoc; [exact K1|]. cbn. intros (r & Er & Hr)%in_map_iff. pose proof (K2 r Hr). lia.
  - intros r [H|[<-|[]]]%in_app_iff; [pose proof (K2 r H); lia|]. cbn. lia.
Qed.

Lemma insert_batch_keys date id batch d d' : keys_ok d -> insert_batch date id batch d = Some d' -> keys_ok d'.
Proof.
  revert d. induction batch as [|s batch IH]; intros d K; cbn [insert_batch]; [by intros [= <-]|].
  destruct (insertBroadcastDelivery _ _ _ _ _ _) as [d1|] eqn:E; [|done]. apply IH. by eapply insert_delivery_keys.
Qed.

Lemma confirm_unique date id d : subscribers_unique (subscribers d) = true -> subscribers_unique (subscribers (confirmSubscriber date id d)) = true.
Proof.
  cbn. apply subscribers_unique_map. intros a b. unfold collide. destruct (s_id a =? id), (s_id b =? id); cbn; rewrite ?sql_eq_None, ?orb_false_r; try done;
    by destruct (_ && _), (sql_eq (s_confirmToken a) _).
Qed.

Lemma unsubscribe_unique date id d : subscribers_unique (subscribers d) = true -> subscribers_unique (subscribers (unsubscribeSubscriber date id d)) = true.
Proof. cbn. apply subscribers_unique_map. intros a b. unfold collide. by destruct (s_id a =? id), (s_id b =? id). Qed.

Definition keeps_keys (w w' : MailingWorld) : Prop := keys_ok (tables w) -> keys_ok (tables w').

Lemma keys_subscribers d t seq : keys_ok d -> subscribers_unique t = true -> keys_ok (set_subscribers t seq d).
Proof. intros [K1 K2 K3 K4 K5] H. by split. Qed.

Lemma keeps_atomic {X} (f : MailingWorld -> MailingWorld * X) : (forall w, keeps_keys w (f w).1) -> guarantees keeps_keys (atomic f).
Proof. intros H w. split; [apply H|done]. Qed.

Lemma keeps_still {X} (f : MailingWorld -> MailingWorld * X) : (forall w, tables (f w).1 = tables w) -> guarantees keeps_keys (atomic f).
Proof. intros H. apply keeps_atomic. intros w. unfold keeps_keys. by rewrite H. Qed.

Lemma keeps_send delivery m ps : guarantees keeps_keys (mailer_send options delivery m ps).
Proof.
  apply guarantees_bind; [|by intros []]. apply keeps_atomic. intros w. unfold mailer_call. destruct (mailer_refuses _ _); [exact (fun K => K)|]. destruct (enqueue _ _ _ _ _ _ _). exact (fun K => K).
Qed.

Lemma keeps_drain id m ps l k : guarantees keeps_keys (drainDeliveries options id m ps l k).
Proof.
  revert k. induction l as [|r l IH]; intros k; cbn [drainDeliveries]; (apply guarantees_bind; [|intros j]); [|done|apply keeps_send|].
  - apply keeps_atomic. intros w [K1 K2 K3 K4 K5]. split; [exact K1|exact K2|exact K3| |exact K5]. intros b Hb. apply In_update in Hb as (b0 & Hb & ->). destruct (b_id b0 =? id); exact (K4 b0 Hb).
  - apply guarantees_bind; [|intros _; apply IH]. apply keeps_atomic. intros w [K1 K2 K3 K4 K5]. split; [rewrite <- (mark_enqueued_ids (date w) (d_id r) j) in K1; exact K1| | |exact K4|exact K5].
    + intros x Hx. apply In_update in Hx as (r0 & Hr & ->). destruct (d_id r0 =? d_id r); exact (K2 r0 Hr).
    + cbn. rewrite deliveries_unique_map; [done|]. intros r0. by destruct (d_id r0 =? d_id r).
Qed.

Lemma keeps_call c : guarantees keeps_keys (serving options c).
Proof.
  destruct c as [l e|t|t|l m ps|id]; cbn [serving]; (apply guarantees_bind; [|done]).
  - unfold subscribe. apply guarantees_bind; [by destruct (assertEmailShape e)|]. intros _. apply guarantees_bind; [by apply keeps_still|]. intros tok.
    apply guarantees_bind; [by apply keeps_still|]. intros ex. apply guarantees_bind.
    + apply keeps_atomic. intros w. unfold upsertPendingSubscriber, insertSubscriber. intros K. destruct ex; cbn [fst]; (destruct (subscribers_unique _) eqn:E; [by apply keys_subscribers|exact K]).
    + intros [s|]; [|done]. destruct (o_confirmationMailer options); [|done]. apply guarantees_bind; [apply keeps_send|done].
  - unfold confirm. apply guarantees_bind; [by apply keeps_still|]. intros _. apply guarantees_bind; [by apply keeps_still|]. intros [s|]; [|done].
    apply guarantees_bind; [|done]. apply keeps_atomic. intros w K. apply keys_subscribers; [done|]. by apply confirm_unique, (k_subscribers _ K).
  - unfold unsubscribe. apply guarantees_bind; [by apply keeps_still|]. intros _. apply guarantees_bind; [by apply keeps_still|]. intros [s|]; [|done].
    apply guarantees_bind; [|done]. apply keeps_atomic. intros w K. apply keys_subscribers; [done|]. by apply unsubscribe_unique, (k_subscribers _ K).
  - unfold broadcast. apply guarantees_bind; [by apply keeps_still|]. intros rs. apply guarantees_bind.
    + apply keeps_atomic. intros w [K1 K2 K3 K4 K5]. split; try done. cbn. intros b [Hb|[<-|[]]]%in_app_iff; [pose proof (K4 b Hb); lia|cbn; lia].
    + intros row. apply guarantees_bind; [by destruct (chunk _ _)|]. intros bs. apply guarantees_bind.
      * induction bs as [|b bs IH]; [done|]. cbn [record_batches]. apply guarantees_bind; [|intros _; exact IH]. apply guarantees_bind; [|by intros []].
        apply keeps_atomic. intros w K. cbn. destruct (insert_batch _ _ _ _) as [d'|] eqn:E; [|done]. by apply (insert_batch_keys _ _ _ _ _ K E).
      * intros _. apply guarantees_bind; [by apply keeps_still|]. intros pd. apply guarantees_bind; [apply keeps_drain|done].
  - unfold resumeBroadcast. apply guarantees_bind; [by apply keeps_still|]. intros [row|]; [|done]. apply guarantees_bind; [by destruct (parsed_params row)|]. intros ps.
    apply guarantees_bind; [by apply keeps_still|]. intros pd. apply guarantees_bind; [apply keeps_drain|done].
Qed.

Lemma serving_keys q now cs w ps : steps outside (opened q now, map (serving options) cs) (w, ps) -> keys_ok (tables w).
Proof.
  intros S. refine (proj1 (steps_invariant outside (fun w => keys_ok (tables w)) (guarantees keeps_keys) _ _ (opened q now, _) (w, ps) _ _ S)).
  - intros v v' K (E & _). by rewrite E.
  - intros v X f k K [G1 G2]%(fun H => H v). split; [by apply G1|done].
  - split; try done; constructor.
  - apply List.Forall_forall. intros p (c & <- & _)%in_map_iff. apply keeps_call.
Qed.

(** ** Recording the recipients *)

Definition of_broadcast (id : Z) (d : Tables) : list BroadcastDelivery := List.filter (fun r => d_broadcastId r =? id) (broadcastDeliveries d).
Definition unmailed (r : BroadcastDelivery) : Prop := d_status r = DPending.
Definition delivery_key (r : BroadcastDelivery) : Z * string * option string := (d_subscriberId r, d_email r, d_unsubscribeToken r).
Definition reader_key (s : Subscriber) : Z * string * option string := (s_id s, s_email s, s_unsubscribeToken s).

Lemma pending_all id d : List.Forall unmailed (of_broadcast id d) -> pendingBroadcastDeliveries id d = of_broadcast id d.
Proof.
  unfold pendingBroadcastDeliveries, of_broadcast. induction (broadcastDeliveries d) as [|r t IH]; [done|]. cbn [List.filter]. destruct (d_broadcastId r =? id); [|done].
  cbn [andb]. inversion 1 as [|? ? Hr Ht]; subst. rewrite bool_decide_eq_true_2 by done. f_equal. by apply IH.
Qed.

Lemma insert_batch_spec date id batch d L :
  keys_ok d -> of_broadcast id d = L -> List.Forall unmailed L -> List.NoDup (map d_subscriberId L ++ map s_id batch) ->
  exists d' more, insert_batch date id batch d = Some d' /\ of_broadcast id d' = L ++ more /\ List.Forall unmailed more /\
    map delivery_key more = map reader_key batch /\ broadcasts d' = broadcasts d /\ keys_ok d'.
Proof.
  revert d L. induction batch as [|s batch IH]; intros d L K EL FL Nd; [exists d, []; by rewrite app_nil_r|]. cbn [insert_batch map] in *.
  set (row := mkDelivery (deliveries_seq d + 1) id (s_id s) (s_email s) (s_unsubscribeToken s) DPending None (toISOString date) (toISOString date)).
  assert (insertBroadcastDelivery date id (s_id s) (s_email s) (s_unsubscribeToken s) d = Some (set_deliveries (broadcastDeliveries d ++ [row]) (deliveries_seq d + 1) d)) as E.
  { unfold insertBroadcastDelivery. fold row. rewrite deliveries_unique_snoc, (k_unique _ K). rewrite (proj2 (forallb_forall _ _)); [done|]. intros a Ha.
    apply negb_true_iff, andb_false_iff. cbn. destruct (Z.eqb_spec (d_broadcastId a) id) as [Ea|]; [right|by left]. apply Z.eqb_neq. intros Es.
    apply NoDup_remove_2 in Nd. destruct Nd. apply in_app_iff. left. rewrite <- Es, <- EL. apply in_map, filter_In. split; [done|]. by apply Z.eqb_eq. }
  rewrite E. destruct (IH _ (L ++ [row]) (insert_delivery_keys _ _ _ _ _ _ _ K E)) as (d' & more & H1 & H2 & H3 & H4 & H5 & H6).
  - unfold of_broadcast. cbn. rewrite List.filter_app, <- EL. cbn. by rewrite Z.eqb_refl.
  - apply List.Forall_app. split; [done|]. by constructor.
  - rewrite map_app, <- app_assoc. exact Nd.
  - exists d', (row :: more). split; [exact H1|]. split; [by rewrite H2, <- app_assoc|]. split; [by constructor|]. split; [by cbn; rewrite H4|]. by split.
Qed.

Lemma batches_spec id batches w L :
  keys_ok (tables w) -> of_broadcast id (tables w) = L -> List.Forall unmailed L -> List.NoDup (map d_subscriberId L ++ map s_id (concat batches)) ->
  exists w' more,
    (forall A n (k : unit -> Prog MailingWorld A), crash (length batches + n) (bind (record_batches id batches) k) w = crash n (k tt) w') /\
    (forall A (k : unit -> Prog MailingWorld A), run (bind (record_batches id batches) k) w = run (k tt) w') /\
    of_broadcast id (tables w') = L ++ more /\ List.Forall unmailed more /\ map delivery_key more = map reader_key (concat batches) /\
    broadcasts (tables w') = broadcasts (tables w) /\ keys_ok (tables w') /\ trace w' = trace w /\ calls w' = calls w.
Proof.
  revert w L. induction batches as [|batch batches IH]; intros w L K EL FL Nd; [exists w, []; by rewrite app_nil_r|]. cbn [concat] in Nd. rewrite map_app, app_assoc in Nd.
  destruct (insert_batch_spec (date w) id batch (tables w) L K EL FL) as (d1 & m1 & E & H2 & H3 & H4 & H5 & H6); [by apply NoDup_app_remove_r in Nd|].
  assert (map d_subscriberId m1 = map s_id batch) as Ek.
  { apply (f_equal (map (fun k => k.1.1))) in H4. by rewrite !map_map in H4. }
  destruct (IH (set_tables d1 w) (L ++ m1) H6 H2) as (w' & m2 & I1 & I2 & I3 & I4 & I5 & I6 & I7 & I8 & I9).
  - by apply List.Forall_app.
  - by rewrite map_app, Ek.
  - exists w', (m1 ++ m2). split; [|split; [|split; [by rewrite I3, app_assoc|split; [by apply List.Forall_app|split; [by cbn [concat]; rewrite !map_app, H4, I5|]]]]].
    + intros A n k. rewrite <- I1. cbn [length Nat.add record_batches batch_transaction writing bind atomic crash]. by rewrite E.
    + intros A k. rewrite <- I2. cbn [record_batches batch_transaction writing bind atomic run]. by rewrite E.
    + split; [by rewrite I6|]. by split.
Qed.

(** What a broadcast does once its recipients are recorded. *)
Definition fan_out (id : Z) (m : string) (params : list (string * json)) : Prog MailingWorld BroadcastResult :=
  do! pending := reading (pendingBroadcastDeliveries id) in
  do! enqueued := drainDeliveries options id m params pending 0 in
  ret (mkBroadcastResult id enqueued).

Lemma broadcast_recorded l m params w batches :
  keys_ok (tables w) -> consent_ok options w -> wire_safe (JObj params) = true ->
  chunk (subscribedRecipients l (tables w)) (default DEFAULT_CHUNK_SIZE (o_chunkSize options)) = Some batches ->
  concat batches = subscribedRecipients l (tables w) ->
  let id := broadcasts_seq (tables w) + 1 in
  exists w' row,
    (forall n, crash (2 + length batches + n) (broadcast options l m params) w = crash n (fan_out id m params) w') /\
    run (broadcast options l m params) w = run (fan_out id m params) w' /\
    map delivery_key (pending id w') = map reader_key (subscribedRecipients l (tables w)) /\ ids_distinct w' /\
    findBroadcastById id (tables w') = Some row /\ b_mailer row = m /\ parsed_params row = Ok params /\ trace w' = trace w /\ calls w' = calls w.
Proof.
  intros K O Hw Ec Ecat id. set (readers := subscribedRecipients l (tables w)) in *.
  set (d1 := (insertBroadcast (date w) l m (json_stringify (JObj params)) (tables w)).1). set (row := (insertBroadcast (date w) l m (json_stringify (JObj params)) (tables w)).2).
  assert (keys_ok d1) as K1.
  { destruct K as [K1 K2 K3 K4 K5]. split; [exact K1|exact K2|exact K3| |exact K5]. cbn. intros b [Hb|[<-|[]]]%in_app_iff; [pose proof (K4 b Hb); lia|cbn; lia]. }
  assert (of_broadcast id d1 = []) as E0.
  { apply filter_none. intros r Hr. apply Z.eqb_neq. destruct (ok_deliveries _ _ O r Hr) as (l' & (b & Hb & Ei & _) & _). pose proof (k_broadcasts _ K b Hb). subst id. lia. }
  destruct (batches_spec id batches (set_tables d1 w) [] K1 E0) as (w' & more & B1 & B2 & B3 & B4 & B5 & B6 & B7 & B8 & B9); [done| |].
  { cbn [map app]. rewrite Ecat. unfold readers, subscribedRecipients. pose proof (ok_ids _ _ O) as Nd. by apply NoDup_map_filter. }
  exists w', row. cbn [app] in B3. assert (b_id row = id) as Ei by done. split; [|split; [|split; [|split; [|split; [|split; [|split; [|split]]]]]]].
  - intros n. rewrite <- (B1 _ n (fun _ => fan_out id m params)). cbn [Nat.add broadcast crash bind reading writing query atomic fst snd]. fold readers. rewrite Ec. cbn. reflexivity.
  - rewrite <- (B2 _ (fun _ => fan_out id m params)). cbn [broadcast run bind reading writing query atomic]. fold readers. rewrite Ec. cbn. reflexivity.
  - rewrite pending_all by (by rewrite B3). by rewrite B3, B5, Ecat.
  - apply (k_ids _ B7).
  - unfold findBroadcastById. rewrite B6. cbn. assert (forall b, In b (broadcasts (tables w)) -> (b_id b =? id) = false) as N.
    { intros b Hb. apply Z.eqb_neq. pose proof (k_broadcasts _ K b Hb). subst id. lia. }
    revert N. generalize (broadcasts (tables w)). intros t N. induction t as [|b t IH]; [cbn; fold id; by rewrite Z.eqb_refl|]. cbn [app List.find].
    rewrite (N b) by (by left). apply IH. intros b' Hb. apply N. by right.
  - done.
  - unfold parsed_params. cbn [row b_params snd insertBroadcast json_parse json_stringify js_codec]. by rewrite parse_stringify.
  - done.
  - done.
Qed.

Lemma keys_In {A B C} (f : A -> C) (g : B -> C) l l' x : map f l = map g l' -> In x l -> exists y, In y l' /\ g y = f x.
Proof. intros E H. apply (in_map f) in H. rewrite E in H. apply in_map_iff in H as (y & Ey & Hy). by exists y. Qed.

Lemma crash_fan_out id m params w n :
  ids_distinct w -> exists sent marked, advanced id m params (pending id w) w (crash n (fan_out id m params) w) sent marked.
Proof.
  intros Nd. destruct n as [|n]; [by exists O, O; apply advanced_none|]. cbn [fan_out crash bind reading query atomic]. rewrite crash_ret. by apply crash_drain.
Qed.
End FanOut.

Section Broadcasts.
Context (options : MailingListsOptions).

(** A state of the service that some interleaving of calls reaches. *)
Definition served (w : MailingWorld) : Prop :=
  exists q now cs ps, steps outside (opened q now, map (serving options) cs) (w, ps).

Definition size_of_chunks : Z := default DEFAULT_CHUNK_SIZE (o_chunkSize options).

(** C13: a broadcast that dies is finished by resuming it: let a broadcast of a list stop after
    any number of actions, at least those that record its recipients, and let any number of
    resumes stop anywhere, too; a resume during which the mailer refuses nothing returns, and
    then every address that was subscribed when the broadcast began has been mailed, with
    the broadcast's template and params, and nobody else; all the runs together sent at most
    one mail more than there are readers for each of them that was cut short; and the
    broadcast is marked sent. *)
Theorem crashed_broadcast_is_finished (w : MailingWorld) (listId : Z) (mailer : string) (params : list (string * json))
    (batches : list (list Subscriber)) (n : nat) (ns : list nat) :
  served w -> wire_safe (JObj params) = true -> 0 < size_of_chunks ->
  let readers := subscribedRecipients listId (tables w) in
  let id := broadcasts_seq (tables w) + 1 in
  chunk readers size_of_chunks = Some batches ->
  let w0 := crash (2 + length batches + n) (broadcast options listId mailer params) w in
  let w1 := crashes_of options id ns w0 in
  (forall c, (calls w1 <= c)%nat -> mailer_refuses options c = None) ->
  exists w2 count sent row,
    run (resumeBroadcast options id) w1 = (w2, Ok (mkBroadcastResult id count)) /\
    mails_of (trace w2) = mails_of (trace w) ++ map (fun r => (r, mailer, mail_params options params r)) sent /\
    (forall r, In r sent -> exists s, In s readers /\ d_subscriberId r = s_id s /\ d_email r = s_email s /\ d_unsubscribeToken r = s_unsubscribeToken s) /\
    (forall s, In s readers -> exists r, In r sent /\ d_subscriberId r = s_id s /\ d_email r = s_email s) /\
    (length sent <= length readers + S (length ns))%nat /\
    pendingBroadcastDeliveries id (tables w2) = [] /\ findBroadcastById id (tables w2) = Some row /\ b_status row = BSent.
Proof.
  intros (q & now & cs & ps & St) Hw Hs readers id Ec w0 w1 Hc. pose proof (serving_keys options _ _ _ _ _ St) as K. pose proof (serving_ok options _ _ _ _ _ St) as O.
  destruct (chunk_spec readers size_of_chunks Hs) as (bs & Eb & Ecat & _). assert (bs = batches) as -> by congruence.
  destruct (broadcast_recorded options listId mailer params w batches K O Hw Ec Ecat) as (v & row & Ev & _ & Keys & Nd & Er & <- & Ep & Et & _). fold id in Ev, Keys, Er. fold readers in Keys.
  set (L := pending id v) in *. destruct (crash_fan_out options id (b_mailer row) params v n Nd) as (s0 & m0 & A1 & A2 & A3 & A4 & A5 & A6). fold L in A2, A3, A4.
  rewrite <- Ev in A3, A4, A5, A6. fold w0 in A3, A4, A5, A6. destruct (A6 row Er) as (row0 & Er0 & M0 & P0).
  assert (parsed_params row0 = Ok params) as Ep0 by (unfold parsed_params; by rewrite P0).
  destruct (crashed_resumes options id ns w0 row0 params A5 Er0 Ep0) as (mk & mails & row1 & B1 & B2 & B3 & B4 & B5 & B6 & B7 & B8 & B9 & B10). fold w1 in B1, B2, B5, B6.
  destruct (run_resume options id w1 row1 params B1 B2 B3 Hc) as (w2 & E2 & C1 & C2 & row2 & C3 & C4). rewrite A4 in B5, B7, B8, B10.
  rewrite B5 in C1. rewrite length_skipn in B10. set (sent := firstn s0 L ++ mails ++ skipn mk (skipn m0 L)).
  assert (forall r, In r sent -> In r L) as In1.
  { intros r [H|[H%B7|H]%in_app_iff]%in_app_iff; [by apply firstn_In in H|by apply skipn_In in H|by apply skipn_In, skipn_In in H]. }
  assert (forall r, In r L -> In r sent) as In2.
  { intros r H. rewrite <- (firstn_skipn m0 L) in H. apply in_app_iff. apply in_app_iff in H as [H|H]; [left; by apply (firstn_mono _ m0); [lia|]|right].
    rewrite <- (firstn_skipn mk (skipn m0 L)) in H. apply in_app_iff. apply in_app_iff in H as [H|H]; [left; by apply B8|by right]. }
  exists w2, (Z.of_nat (length (pending id w1))), sent, row2. split; [exact E2|]. split; [|split; [|split; [|split; [|by split]]]].
  - rewrite C1, B6, A3, Et, B4, M0. unfold sent. rewrite !map_app, <- !app_assoc. reflexivity.
  - intros r H%In1. destruct (keys_In _ _ _ _ _ Keys H) as (s & Hin & E). exists s. injection E as -> -> ->. by split.
  - intros s H. destruct (keys_In _ _ _ _ _ (eq_sym Keys) H) as (r & Hin & E). exists r. injection E as -> -> _. split; [by apply In2|done].
  - apply (f_equal (@length _)) in Keys. rewrite !length_map in Keys. unfold sent. rewrite !length_app, length_firstn, !length_skipn. lia.
Qed.

(** Fact: a broadcast that is left alone mails each subscribed address once, in the order of
    the table, and reports how many. *)
Theorem broadcast_mails_each_once (w : MailingWorld) (listId : Z) (mailer : string) (params : list (string * json)) :
  served w -> wire_safe (JObj params) = true -> 0 < size_of_chunks -> (forall c, mailer_refuses options c = None) ->
  let readers := subscribedRecipients listId (tables w) in
  exists w' sent, run (broadcast options listId mailer params) w = (w', Ok (mkBroadcastResult (broadcasts_seq (tables w) + 1) (Z.of_nat (length readers)))) /\
    mails_of (trace w') = mails_of (trace w) ++ map (fun r => (r, mailer, mail_params options params r)) sent /\
    map d_email sent = map s_email readers /\ map d_unsubscribeToken sent = map s_unsubscribeToken readers.
Proof.
  intros (q & now & cs & ps & St) Hw Hs Hc readers. pose proof (serving_keys options _ _ _ _ _ St) as K. pose proof (serving_ok options _ _ _ _ _ St) as O.
  destruct (chunk_spec readers size_of_chunks Hs) as (batches & Ec & Ecat & _).
  destruct (broadcast_recorded options listId mailer params w batches K O Hw Ec Ecat) as (v & row & _ & Ev & Keys & Nd & Er & Em & Ep & Et & _). fold readers in Keys.
  set (id := broadcasts_seq (tables w) + 1) in *. destruct (run_drain options id mailer params (pending id v) 0 v row Nd eq_refl Er (fun c _ => Hc c)) as (w' & E & E1 & _).
  exists w', (pending id v). pose proof (f_equal (@length _) Keys) as Len. rewrite !length_map in Len. split; [|split; [|split]].
  - rewrite Ev. cbn [fan_out run bind reading query atomic]. rewrite run_bind, E. by rewrite Z.add_0_l, Len.
  - by rewrite E1, Et.
  - apply (f_equal (map (fun k => k.1.2))) in Keys. by rewrite !map_map in Keys.
  - apply (f_equal (map snd)) in Keys. by rewrite !map_map in Keys.
Qed.
End Broadcasts.

(** ** The life of a subscription *)

Lemma find_at {A} (p : A -> bool) before x after : (forall y, In y before -> p y = false) -> p x = true -> List.find p (before ++ x :: after) = Some x.
Proof.
  intros Hb Hx. induction before as [|y before IH]; cbn; [by rewrite Hx|]. rewrite (Hb y) by (by left). apply IH. intros z Hz. apply Hb. by right.
Qed.

Lemma find_nowhere {A} (p : A -> bool) l : (forall y, In y l -> p y = false) -> List.find p l = None.
Proof. induction l as [|y l IH]; [done|]. intros H. cbn. rewrite (H y) by (by left). apply IH. intros z Hz. apply H. by right. Qed.

Lemma update_at {A} (p : A -> bool) f before x after :
  (forall y, In y (before ++ after) -> p y = false) -> p x = true -> (update_where p f (before ++ x :: after)).1 = before ++ f x :: after.
Proof.
  intros H Hx. cbn. rewrite map_app. cbn [map]. rewrite Hx. f_equal; [|f_equal]; rewrite <- map_id; apply map_ext_in; intros y Hy; (rewrite H; [done|]);
    apply in_app_iff; auto.
Qed.

Lemma sql_eq_sym a b : sql_eq a b = sql_eq b a.
Proof. destruct a, b; cbn; [apply String.eqb_sym|done..]. Qed.

Lemma collide_sym a b : collide a b = collide b a.
Proof. unfold collide. by rewrite (Z.eqb_sym (s_listId a)), (String.eqb_sym (s_email a)), (sql_eq_sym (s_confirmToken a)), (sql_eq_sym (s_unsubscribeToken a)). Qed.

Lemma unique_middle before x after :
  subscribers_unique (before ++ x :: after) = subscribers_unique (before ++ after) && forallb (fun y => negb (collide x y)) (before ++ after).
Proof.
  induction before as [|y before IH]; cbn [app subscribers_unique forallb]; [by rewrite andb_comm|]. rewrite IH, !forallb_app. cbn [forallb]. rewrite (collide_sym y x).
  destruct (forallb _ before), (forallb _ after), (negb _); cbn; by rewrite ?andb_false_r, ?andb_true_r.
Qed.

Section Life.
Context (options : MailingListsOptions) (listId : Z) (email : string).

Definition ours (s : Subscriber) : bool := (s_listId s =? listId) && String.eqb (s_email s) email.
Definition reads (w : MailingWorld) : Prop := In email (map s_email (subscribedRecipients listId (tables w))).

(** Our row among the others, of which none shares a key with it. *)
Definition placed (w : MailingWorld) (before : list Subscriber) (x : Subscriber) (after : list Subscriber) (c u : string) : Prop :=
  subscribers (tables w) = before ++ x :: after /\ ours x = true /\ s_unsubscribeToken x = Some u /\
  forall y, In y (before ++ after) ->
    (s_id y =? s_id x) = false /\ ours y = false /\ sql_eq (s_confirmToken y) (Some c) = false /\ sql_eq (s_unsubscribeToken y) (Some u) = false.

Lemma placed_reads w before x after c u : placed w before x after c u -> reads w <-> s_status x = SSubscribed.
Proof.
  intros (E & Hx & _ & Hy). unfold reads, subscribedRecipients. rewrite E. split.
  - intros (y & Ey & [Hin [E1 E2]%andb_true_iff]%filter_In)%in_map_iff. apply in_app_iff in Hin as [Hin|[<-|Hin]]; [|by apply bool_decide_eq_true_1 in E2|];
      (destruct (Hy y) as (_ & O & _); [apply in_app_iff; auto|]); unfold ours in O; by rewrite E1, Ey, String.eqb_refl in O.
  - intros Es. apply andb_true_iff in Hx as [E1 E2%String.eqb_eq]. apply in_map_iff. exists x. split; [done|]. apply filter_In. split; [apply in_app_iff; right; by left|].
    rewrite E1. by apply bool_decide_eq_true_2.
Qed.

Lemma placed_others w before x after c u : placed w before x after c u -> List.filter (fun s => negb (ours s)) (subscribers (tables w)) = before ++ after.
Proof.
  intros (E & Hx & _ & Hy). rewrite E, List.filter_app. cbn. rewrite Hx. cbn. rewrite <- List.filter_app. apply forallb_filter_id. apply forallb_forall. intros y H.
  by destruct (Hy y H) as (_ & -> & _).
Qed.

Lemma confirm_placed w before x after c u :
  placed w before x after c u ->
  (s_confirmToken x = Some c -> s_status x = SPending ->
     exists w' s x', run (confirm c) w = (w', Ok s) /\ s_status s = SSubscribed /\ placed w' before x' after c u /\ s_status x' = SSubscribed /\ s_confirmToken x' = None) /\
  (s_status x <> SPending -> (run (confirm c) w).2 = Throw invalidToken).
Proof.
  intros (E & Hx & Hu & Hy). assert (forall y, In y (before ++ after) -> sql_eq (s_confirmToken y) (Some c) && bool_decide (s_status y = SPending) = false) as N.
  { intros y H. by destruct (Hy y H) as (_ & _ & -> & _). }
  cbn [confirm run noting modify atomic reading query bind updating writing]. cbn [tables logged]. unfold findPendingSubscriberByConfirmToken. rewrite E. split.
  - intros Ec Es. rewrite find_at; [|intros y H; apply N, in_app_iff; by left|by rewrite Ec, bool_decide_eq_true_2 by done; cbn; rewrite String.eqb_refl].
    cbn [run bind updating writing atomic ret]. eexists _, _, _. split; [reflexivity|]. split; [done|]. split; [|split].
    + split; [cbn [tables set_tables confirmSubscriber subscribers set_subscribers logged fst]; rewrite E; apply update_at; [|apply Z.eqb_refl]|].
      * intros y H. by destruct (Hy y H) as (-> & _).
      * split; [exact Hx|]. split; [exact Hu|]. exact Hy.
    + done.
    + done.
  - intros Es. rewrite find_nowhere; [done|]. intros y [H|[<-|H]]%in_app_iff; [apply N, in_app_iff; by left| |apply N, in_app_iff; by right].
    rewrite bool_decide_eq_false_2 by done. apply andb_false_r.
Qed.

Lemma unsubscribe_placed w before x after c u :
  placed w before x after c u ->
  exists w' s x', run (unsubscribe u) w = (w', Ok s) /\ placed w' before x' after c u /\ s_status x' = SUnsubscribed.
Proof.
  intros (E & Hx & Hu & Hy). cbn [unsubscribe run noting modify atomic reading query bind]. cbn [tables logged]. unfold findSubscriberByUnsubscribeToken. rewrite E.
  rewrite find_at; [|intros y H; destruct (Hy y) as (_ & _ & _ & ->); [apply in_app_iff; by left|done]|by rewrite Hu; cbn; rewrite String.eqb_refl].
  cbn [run bind updating writing atomic ret]. eexists _, _, _. split; [reflexivity|]. split.
  - split; [cbn [tables set_tables unsubscribeSubscriber subscribers set_subscribers logged fst]; rewrite E; apply update_at; [|apply Z.eqb_refl]|].
    + intros y H. by destruct (Hy y H) as (-> & _).
    + split; [exact Hx|]. split; [exact Hu|]. exact Hy.
  - done.
Qed.

Lemma fresh_token w i y : (forall i j, o_token options i = o_token options j -> i = j) -> consent_ok options w -> (minted w <= i)%nat -> In y (subscribers (tables w)) ->
  sql_eq (s_confirmToken y) (Some (o_token options i)) = false /\ sql_eq (s_unsubscribeToken y) (Some (o_token options i)) = false.
Proof.
  intros Inj O Hi Hy. assert (forall t, drawn t w -> (t =? o_token options i)%string = false) as N.
  { intros t Ht. apply String.eqb_neq. intros ->. unfold drawn in Ht. rewrite (ok_minted _ _ O) in Ht. apply in_map_iff in Ht as (j & Ej & Hj). apply Inj in Ej as ->.
    apply in_seq in Hj. lia. }
  split.
  - destruct (s_confirmToken y) as [t|] eqn:E; [|done]. apply N. destruct (ok_tokens _ _ O y t Hy E) as (u & Hu). apply in_flat_map. eexists. split; [exact Hu|]. by left.
  - destruct (s_unsubscribeToken y) as [t|] eqn:E; [|done]. apply N. by apply (ok_unsubs _ _ O y).
Qed.

Lemma upsert_placed w now c u :
  keys_ok (tables w) -> consent_ok options w ->
  (forall y, In y (subscribers (tables w)) -> sql_eq (s_confirmToken y) (Some c) = false /\ sql_eq (s_unsubscribeToken y) (Some u) = false) ->
  exists d s before x after, upsertPendingSubscriber (findSubscriberByEmail listId email (tables w)) now listId email c u (tables w) = (d, Some s) /\
    s_status s = SPending /\ s_confirmToken s = Some c /\ placed (set_tables d w) before x after c u /\ s_confirmToken x = Some c /\ s_status x = SPending /\
    before ++ after = List.filter (fun s => negb (ours s)) (subscribers (tables w)).
Proof.
  intros K O Fresh. pose proof (k_subscribers _ K) as Uq. pose proof (ok_ids _ _ O) as Nd. destruct (findSubscriberByEmail listId email (tables w)) as [e|] eqn:E.
  - apply List.find_some in E as [He Eo]. fold (ours e) in Eo. apply in_split in He as (before & after & Es). rewrite Es, map_app in Nd. cbn in Nd. apply NoDup_remove_2 in Nd.
    rewrite Es, unique_middle in Uq. apply andb_true_iff in Uq as [U1 U2]. rewrite forallb_forall in U2.
    assert (forall y, In y (before ++ after) -> (s_id y =? s_id e) = false /\ ours y = false /\ sql_eq (s_confirmToken y) (Some c) = false /\ sql_eq (s_unsubscribeToken y) (Some u) = false) as Hy.
    { intros y Hin. assert (In y (subscribers (tables w))) as Hin' by (rewrite Es, in_app_iff; apply in_app_iff in Hin as []; [by left|right; by right]).
      split; [apply Z.eqb_neq; intros Ei; apply Nd; rewrite <- map_app, <- Ei; by apply in_map|]. split; [|by apply Fresh].
      specialize (U2 y Hin). unfold collide in U2. unfold ours in *. apply andb_true_iff in Eo as [<-%Z.eqb_eq <-%String.eqb_eq].
      rewrite (Z.eqb_sym (s_listId y)), (String.eqb_sym (s_email y)). by destruct (_ && _). }
    set (x := reset_pending now c u e). cbn [upsertPendingSubscriber]. rewrite Es, (update_at _ _ before e after) by (try apply Z.eqb_refl; intros y H; by destruct (Hy y H) as (-> & _)).
    fold x. rewrite unique_middle, U1. cbn [andb]. rewrite (proj2 (forallb_forall _ _)).
    + eexists _, _, before, x, after. split; [reflexivity|]. split; [done|]. split; [done|]. assert (placed (set_tables (set_subscribers (before ++ x :: after) (subscribers_seq (tables w)) (tables w)) w) before x after c u) as P.
      { split; [done|]. split; [exact Eo|]. split; [done|]. exact Hy. }
      split; [exact P|]. split; [done|]. split; [done|]. rewrite <- (placed_others _ _ _ _ _ _ P). cbn. rewrite !List.filter_app. cbn. fold (ours x). change (ours x) with (ours e). by rewrite Eo.
    + intros y Hin. destruct (Hy y Hin) as (_ & Ho & Hc & Hu). unfold collide. change (s_confirmToken x) with (Some c). change (s_unsubscribeToken x) with (Some u).
      rewrite (sql_eq_sym (Some c)), Hc, (sql_eq_sym (Some u)), Hu, !orb_false_r. change (s_listId x) with (s_listId e). change (s_email x) with (s_email e).
      unfold ours in Ho, Eo. apply andb_true_iff in Eo as [->%Z.eqb_eq ->%String.eqb_eq]. by rewrite (Z.eqb_sym listId), (String.eqb_sym email), Ho.
  - cbn [upsertPendingSubscriber]. unfold insertSubscriber. set (x := mkSubscriber _ _ _ _ _ _ _ _). assert (forall y, In y (subscribers (tables w)) -> ours y = false) as No by (apply List.find_none; exact E).
    rewrite unique_middle, app_nil_r, Uq. cbn [andb]. rewrite (proj2 (forallb_forall _ _)).
    + eexists _, _, (subscribers (tables w)), x, []. split; [reflexivity|]. split; [done|]. split; [done|].
      split; [|split; [done|split; [done|rewrite app_nil_r; symmetry; apply forallb_filter_id, forallb_forall; intros y H; by rewrite No]]].
      split; [done|]. split; [unfold ours; cbn; by rewrite Z.eqb_refl, String.eqb_refl|]. split; [done|]. rewrite app_nil_r. intros y H.
      split; [apply Z.eqb_neq; cbn; pose proof (ok_seq _ _ O y H); lia|]. split; [by apply No|by apply Fresh].
    + intros y H. destruct (Fresh y H) as [Hc Hu]. specialize (No y H). unfold collide. change (s_confirmToken x) with (Some c). change (s_unsubscribeToken x) with (Some u).
      rewrite (sql_eq_sym (Some c)), Hc, (sql_eq_sym (Some u)), Hu, !orb_false_r. cbn [s_listId s_email x].
      unfold ours in No. by rewrite (Z.eqb_sym listId), (String.eqb_sym email), No.
Qed.

(** C24: the double opt-in does what it says: at any state the service reaches, [subscribe] of a
    well-formed address leaves it pending, so no broadcast of the list reads it; the token
    minted for it confirms it, and then every broadcast does; the same token is refused from
    then on; the unsubscribe token takes the address off again, which the spent token does
    not undo; and no other row is touched by any of this. *)
Theorem double_opt_in (w : MailingWorld) :
  served options w -> (forall i j, o_token options i = o_token options j -> i = j) -> EMAIL_RE email = true ->
  o_confirmationMailer options = None \/ mailer_refuses options (calls w) = None ->
  let c := o_token options (minted w) in let u := o_token options (S (minted w)) in
  exists w1 w2 w3 s1 s2 s3,
    run (subscribe options listId email) w = (w1, Ok s1) /\ s_status s1 = SPending /\ ~ reads w1 /\
    run (confirm c) w1 = (w2, Ok s2) /\ s_status s2 = SSubscribed /\ reads w2 /\ (run (confirm c) w2).2 = Throw invalidToken /\
    run (unsubscribe u) w2 = (w3, Ok s3) /\ ~ reads w3 /\ (run (confirm c) w3).2 = Throw invalidToken /\
    List.filter (fun s => negb (ours s)) (subscribers (tables w3)) = List.filter (fun s => negb (ours s)) (subscribers (tables w)).
Proof.
  intros (q & now & cs & ps & St) Inj He Hm c u. pose proof (serving_keys options _ _ _ _ _ St) as K. pose proof (serving_ok options _ _ _ _ _ St) as O.
  set (wm := (mint options listId email w).1). destruct (ok_mint options w listId email O) as [Om _]. fold wm in Om.
  destruct (upsert_placed wm (date wm) c u K Om) as (d & s1 & before & x & after & Eu & Es & Et & P & Ex & Sx & Eo).
  { intros y Hy. split; [apply (fresh_token w (minted w) y Inj O (Nat.le_refl _) Hy)|apply (fresh_token w (S (minted w)) y Inj O (Nat.le_succ_diag_r _) Hy)]. }
  assert (exists w1, run (subscribe options listId email) w = (w1, Ok s1) /\ placed w1 before x after c u) as (w1 & E1 & P1).
  { unfold subscribe, assertEmailShape. rewrite He. cbn [negb lift bind run atomic reading writing query ret]. fold wm. cbn [fst snd].
    change (mint options listId email w) with (wm, (c, u)). cbn [run fst snd]. rewrite Eu. cbn [run].
    destruct (o_confirmationMailer options) as [m|] eqn:Em; [|by eexists]. cbn [run bind mailer_send atomic]. unfold mailer_call. change (calls (set_tables d wm)) with (calls w).
    destruct Hm as [|Hm]; [done|]. rewrite Hm. destruct (enqueue _ _ _ _ _ _ _) as [q' j]. cbn. by eexists. }
  destruct (proj1 (confirm_placed w1 before x after c u P1) Ex Sx) as (w2 & s2 & x2 & E2 & S2 & P2 & Sx2 & _).
  destruct (unsubscribe_placed w2 before x2 after c u P2) as (w3 & s3 & x3 & E3 & P3 & Sx3).
  exists w1, w2, w3, s1, s2, s3. split; [exact E1|]. split; [exact Es|]. split; [rewrite (placed_reads _ _ _ _ _ _ P1), Sx; congruence|].
  split; [exact E2|]. split; [exact S2|]. split; [by rewrite (placed_reads _ _ _ _ _ _ P2)|]. split; [apply (confirm_placed w2 before x2 after c u P2); congruence|].
  split; [exact E3|]. split; [rewrite (placed_reads _ _ _ _ _ _ P3), Sx3; congruence|]. split; [apply (confirm_placed w3 before x3 after c u P3); congruence|].
  by rewrite (placed_others _ _ _ _ _ _ P3), Eo.
Qed.
End Life.

(** ** At concrete states *)

Lemma played_served cs turns : served plain_options (played cs turns).1.
Proof. exists installSchema, 0, cs, (played cs turns).2. rewrite <- surjective_pairing. apply scheduled_steps. Qed.

(** One reader, who opted in. *)
Definition one_subscribed : MailingWorld := (played one_reader [0;0;0;0;1;1;1]%nat).1.

Lemma double_opt_in_witness :
  exists w1 s1, run (subscribe plain_options 1 "bob@x.com") one_subscribed = (w1, Ok s1) /\ s_status s1 = SPending /\ ~ reads 1 "bob@x.com" w1.
Proof.
  destruct (double_opt_in plain_options 1 "bob@x.com" one_subscribed (played_served _ _) tally_inj ltac:(vm_compute; reflexivity) ltac:(right; reflexivity))
    as (w1 & w2 & w3 & s1 & s2 & s3 & E & S & N & _).
  by exists w1, s1.
Defined.

Lemma crashed_broadcast_is_finished_witness :
  let w0 := crash 4 (broadcast plain_options 1 "digest" []) one_subscribed in
  let w1 := crashes_of plain_options 1 [3%nat] w0 in
  exists w2 count sent row,
    run (resumeBroadcast plain_options 1) w1 = (w2, Ok (mkBroadcastResult 1 count)) /\ sent <> [] /\
    mails_of (trace w2) = mails_of (trace one_subscribed) ++ map (fun r => (r, "digest", mail_params plain_options [] r)) sent /\
    (length sent <= 3)%nat /\ findBroadcastById 1 (tables w2) = Some row /\ b_status row = BSent.
Proof.
  destruct (crashed_broadcast_is_finished plain_options one_subscribed 1 "digest" [] [subscribedRecipients 1 (tables one_subscribed)] 1 [3%nat]
    (played_served _ _) eq_refl ltac:(by vm_compute) ltac:(vm_compute; reflexivity) (fun c _ => eq_refl)) as (w2 & count & sent & row & E1 & E2 & _ & In2 & E3 & _ & E4 & E5).
  exists w2, count, sent, row. split; [exact E1|]. split; [|split; [exact E2|]; split; [exact E3|]; split; [exact E4|exact E5]].
  intros ->. assert (exists s, In s (subscribedRecipients 1 (tables one_subscribed))) as (s & Hs) by (eexists; vm_compute; left; reflexivity).
  by destruct (In2 s Hs) as (r & [] & _).
Defined.

Lemma broadcast_mails_each_once_witness :
  exists w' sent, run (broadcast plain_options 1 "digest" []) one_subscribed = (w', Ok (mkBroadcastResult 1 1)) /\
    mails_of (trace w') = mails_of (trace one_subscribed) ++ map (fun r => (r, "digest", mail_params plain_options [] r)) sent /\ map d_email sent = ["ada@x.com"].
Proof.
  destruct (broadcast_mails_each_once plain_options one_subscribed 1 "digest" [] (played_served _ _) eq_refl ltac:(by vm_compute) (fun _ => eq_refl)) as (w' & sent & E1 & E2 & E3 & _).
  exists w', sent. split; [exact E1|]. split; [exact E2|]. exact E3.
Defined.

(** ** What a crash can lose *)

Definition two_readers : MailingWorld :=
  (played [CallSubscribe 1 "ada@x.com"; CallConfirm (tally 0); CallSubscribe 1 "bob@x.com"; CallConfirm (tally 2)] [0;0;0;0;1;1;1;2;2;2;2;3;3;3]%nat).1.

Definition one_by_one : MailingListsOptions :=
  mkOptions (o_confirmationMailer plain_options) (o_unsubscribeUrl plain_options) tally (Some 1) default_options (fun _ => None).

(** Fact: a broadcast that dies between two of its batches is finished without the readers of
    the batches that were not written: the resume mails those on record and marks the
    broadcast sent. *)
Theorem cut_recording_forgets :
  let w0 := crash 3 (broadcast one_by_one 1 "digest" []) two_readers in
  let '(w1, r) := run (resumeBroadcast one_by_one 1) w0 in
  map s_email (subscribedRecipients 1 (tables two_readers)) = ["ada@x.com"; "bob@x.com"] /\ r = Ok (mkBroadcastResult 1 1) /\
  map (fun x => d_email x.1.1) (mails_of (trace w1)) = ["ada@x.com"] /\ map b_status (broadcasts (tables w1)) = [BSent].
Proof. vm_compute. done. Qed.

(** Fact: a crash after a mail is enqueued and before its delivery is marked makes the resume
    mail that reader again. *)
Theorem crash_mails_twice :
  let w0 := crash 5 (broadcast plain_options 1 "digest" []) one_subscribed in
  let '(w1, _) := run (resumeBroadcast plain_options 1) w0 in
  map (fun x => d_email x.1.1) (mails_of (trace w1)) = ["ada@x.com"; "ada@x.com"].
Proof. vm_compute. done. Qed.

(** Fact: a chunk size below one never ends, whatever there is to cut. *)
Theorem empty_chunks_never_end {A} (items : list A) (size : Z) : items <> [] -> size <= 0 -> forall fuel, chunk_from fuel items size 0 = None.
Proof.
  intros Hn Hs. assert (0 < Z.of_nat (length items)) as L by (destruct items; [done|cbn; lia]). assert (forall fuel i, i <= 0 -> chunk_from fuel items size i = None) as G; [|intros fuel; by apply G].
  induction fuel as [|fuel IH]; intros i Hi; cbn [chunk_from]; rewrite (proj2 (Z.ltb_lt _ _)) by lia; [done|]. by rewrite IH by lia.
Qed.

Lemma empty_chunks_never_end_witness : forall fuel, chunk_from fuel ["ada@x.com"] 0 0 = None.
Proof. apply (empty_chunks_never_end ["ada@x.com"] 0); [done|lia]. Defined.
