(* ===== verification/QueryClient.v ===== *)
(** * Client data: the query cache and its live connection

    [packages/ui/src/data-client.ts]: the [QueryClient] (snapshots, requests in flight,
    topics), the effects of [useQuery] and the steps of [useMutation];
    [packages/ui/src/live.ts]: [connectLive] over an [EventSource]. The rendering library
    is not modelled: what its effects run is, as operations. A listener is called, and does
    not call back. Data is what a request read of the server: a version of its state. *)
From S2P Require Import Prelude JsString JsMap JsNumber JsJson Web PubSub.
#[local] Open Scope string_scope.
#[local] Open Scope Z_scope.
#[local] Open Scope list_scope.

(** ** Keys and snapshots *)

(** A string, or a tuple of scalars. *)
Inductive QueryKey : Type :=
| KeyText (s : string)
| KeyTuple (parts : list json).

Definition serializeQueryKey (key : QueryKey) : string :=
  match key with KeyText s => s | KeyTuple parts => stringify (JArr parts) end.

Inductive QueryStatus : Type := Idle | Loading | Success | Failed.

#[export] Instance QueryStatus_eq_dec : EqDecision QueryStatus.
Proof. solve_decision. Defined.

Record QuerySnapshot : Type := mkSnapshot { q_status : QueryStatus; q_data : option Z; q_error : option JsThrown }.

Definition IDLE_SNAPSHOT : QuerySnapshot := mkSnapshot Idle None None.

(** ** The state

    [listeners] holds the addresses of the sets in [sets]: an unsubscribe holds on to its
    set. A fetcher and a listener are numbers. *)

Record QueryClient : Type := mkClient {
  snapshots : JsMap QuerySnapshot;
  inflight : JsMap nat;
  fetchers : JsMap nat;
  listeners : JsMap nat;
  sets : list (list nat);
  fetchedAt : JsMap Z;
  topicKeyCounts : JsMap (JsMap Z)
}.

(** A request the client waits for: its key, the server's version when it was sent. *)
Record Request : Type := mkRequest { rq_key : string; rq_since : Z; rq_settled : bool }.

(** The client, its requests, the server's version, the clock, and the listeners called. *)
Record Page : Type := mkPage {
  client : QueryClient; requests : list Request; version : Z; clock : Z; notified : list (string * nat)
}.

Definition empty_client : QueryClient := mkClient [] [] [] [] [] [] [].
Definition new_page (version clock : Z) : Page := mkPage empty_client [] version clock [].

Definition set_client (c : QueryClient) (p : Page) : Page := mkPage c (requests p) (version p) (clock p) (notified p).
Definition set_snapshots (m : JsMap QuerySnapshot) (c : QueryClient) : QueryClient :=
  mkClient m (inflight c) (fetchers c) (listeners c) (sets c) (fetchedAt c) (topicKeyCounts c).
Definition set_inflight (m : JsMap nat) (c : QueryClient) : QueryClient :=
  mkClient (snapshots c) m (fetchers c) (listeners c) (sets c) (fetchedAt c) (topicKeyCounts c).
Definition set_fetchers (m : JsMap nat) (c : QueryClient) : QueryClient :=
  mkClient (snapshots c) (inflight c) m (listeners c) (sets c) (fetchedAt c) (topicKeyCounts c).
Definition set_listeners (m : JsMap nat) (s : list (list nat)) (c : QueryClient) : QueryClient :=
  mkClient (snapshots c) (inflight c) (fetchers c) m s (fetchedAt c) (topicKeyCounts c).
Definition set_fetchedAt (m : JsMap Z) (c : QueryClient) : QueryClient :=
  mkClient (snapshots c) (inflight c) (fetchers c) (listeners c) (sets c) m (topicKeyCounts c).
Definition set_topics (m : JsMap (JsMap Z)) (c : QueryClient) : QueryClient :=
  mkClient (snapshots c) (inflight c) (fetchers c) (listeners c) (sets c) (fetchedAt c) m.

(** ** Snapshots and subscribers *)

Definition getSnapshot (key : string) (c : QueryClient) : QuerySnapshot := default IDLE_SNAPSHOT (map_get key (snapshots c)).

Definition getData (key : string) (c : QueryClient) : option Z :=
  match map_get key (snapshots c) with Some s => q_data s | None => None end.

(** [subscribe]: the page, and the set the unsubscribe holds. *)
Definition subscribe (key : string) (listener : nat) (p : Page) : Page * nat :=
  let c := client p in
  let '(m, s, address) :=
    match map_get key (listeners c) with
    | Some address => (listeners c, sets c, address)
    | None => (map_set key (length (sets c)) (listeners c), sets c ++ [[]], length (sets c))
    end in
  (set_client (set_listeners m (alter (set_add listener) address s) c) p, address).

(** The thunk it returned. *)
Definition unsubscribe (key : string) (address listener : nat) (p : Page) : Page :=
  let c := client p in
  let s := alter (set_delete listener) address (sets c) in
  let m := match s !! address with Some [] => map_delete key (listeners c) | _ => listeners c end in
  set_client (set_listeners m s c) p.

(** [#publish]. *)
Definition publish (key : string) (snapshot : QuerySnapshot) (p : Page) : Page :=
  let c := set_snapshots (map_set key snapshot (snapshots (client p))) (client p) in
  let c := if bool_decide (q_status snapshot = Success) then set_fetchedAt (map_set key (clock p) (fetchedAt c)) c else c in
  let called := match map_get key (listeners c) with Some address => default [] (sets c !! address) | None => [] end in
  mkPage c (requests p) (version p) (clock p) (notified p ++ map (fun l => (key, l)) called).

Definition setData (key : string) (data : Z) (p : Page) : Page := publish key (mkSnapshot Success (Some data) None) p.

(** ** Requests *)

Section Requests.
(** Which calls of a fetcher throw at once, by the number of requests before. *)
Context (throws_at_once : nat -> nat -> bool).

(** [#track]: the request is the next one of the page. *)
Definition track (key : string) (since : Z) (p : Page) : Page * nat :=
  let r := length (requests p) in
  let c := client p in
  (mkPage (set_inflight (map_set key r (inflight c)) c) (requests p ++ [mkRequest key since false]) (version p) (clock p) (notified p), r).

Definition loading (key : string) (p : Page) : Page := publish key (mkSnapshot Loading (getData key (client p)) None) p.

Definition fetch (key : string) (fetcher : nat) (p : Page) : Page * outcome JsThrown nat :=
  let p := set_client (set_fetchers (map_set key fetcher (fetchers (client p))) (client p)) p in
  match map_get key (inflight (client p)) with
  | Some existing => (p, Ok existing)
  | None =>
      let p := loading key p in
      if throws_at_once fetcher (length (requests p)) then (p, Throw OtherError)
      else let '(p, r) := track key (version p) p in (p, Ok r)
  end.

(** [prime]: the promise is of a request that was sent when the server was at [since]. *)
Definition prime (key : string) (since : Z) (p : Page) : Page :=
  if match map_get key (inflight (client p)) with Some _ => true | None => false end || bool_decide (q_status (getSnapshot key (client p)) = Success) then p
  else (track key since (loading key p)).1.

Definition invalidate (key : string) (p : Page) : Page * outcome JsThrown (option nat) :=
  match map_get key (fetchers (client p)) with
  | None => (publish key IDLE_SNAPSHOT p, Ok None)
  | Some fetcher =>
      match fetch key fetcher p with
      | (p, Ok r) => (p, Ok (Some r))
      | (p, Throw e) => (p, Throw e)
      end
  end.

(** The handlers of [#track], when the request settles. *)
Definition settle (r : nat) (result : outcome JsThrown Z) (p : Page) : Page :=
  match requests p !! r with
  | None => p
  | Some rq =>
      if rq_settled rq then p
      else
        let key := rq_key rq in
        let c := client p in
        let p := mkPage (set_inflight (map_delete key (inflight c)) c) (alter (fun q => mkRequest (rq_key q) (rq_since q) true) r (requests p))
                   (version p) (clock p) (notified p) in
        publish key match result with Ok data => mkSnapshot Success (Some data) None | Throw e => mkSnapshot Failed None (Some e) end p
  end.

(** ** Topics *)

(** One topic of [registerTopics]. *)
Definition count_up (key topic : string) (m : JsMap (JsMap Z)) : JsMap (JsMap Z) :=
  let counts := default [] (map_get topic m) in
  map_set topic (map_set key (default 0 (map_get key counts) + 1) counts) m.

Definition registerTopics (key : string) (topics : list string) (p : Page) : Page :=
  set_client (set_topics (fold_left (fun m topic => count_up key topic m) topics (topicKeyCounts (client p))) (client p)) p.

(** One topic of the thunk it returns. *)
Definition count_down (key topic : string) (m : JsMap (JsMap Z)) : JsMap (JsMap Z) :=
  match map_get topic m with
  | None => m
  | Some counts =>
      let remaining := default 0 (map_get key counts) - 1 in
      if 0 <? remaining then map_set topic (map_set key remaining counts) m
      else
        match map_delete key counts with
        | [] => map_delete topic m
        | counts => map_set topic counts m
        end
  end.

Definition unregisterTopics (key : string) (topics : list string) (p : Page) : Page :=
  set_client (set_topics (fold_left (fun m topic => count_down key topic m) topics (topicKeyCounts (client p))) (client p)) p.

(** The keys registered to any of the topics, each once. *)
Definition keys_of (topics : list string) (c : QueryClient) : list string :=
  fold_left (fun keys topic => fold_left (fun keys key => set_add key keys) (map fst (default [] (map_get topic (topicKeyCounts c)))) keys) topics [].

(** What throws ends the loop. *)
Fixpoint invalidate_keys (keys : list string) (p : Page) : Page * outcome JsThrown unit :=
  match keys with
  | [] => (p, Ok tt)
  | key :: keys' =>
      match invalidate key p with
      | (p, Ok _) => invalidate_keys keys' p
      | (p, Throw e) => (p, Throw e)
      end
  end.

Definition invalidateTopics (topics : list string) (p : Page) : Page * outcome JsThrown unit := invalidate_keys (keys_of topics (client p)) p.
Definition invalidateTopic (topic : string) (p : Page) : Page * outcome JsThrown unit := invalidateTopics [topic] p.

Definition isStale (key : string) (staleTimeMs : Z) (p : Page) : bool :=
  match map_get key (fetchedAt (client p)) with None => true | Some at_ => staleTimeMs <=? clock p - at_ end.

(** ** The effects of [useQuery] *)

(** On a mount, or a change of the key. *)
Definition mount_effect (key : string) (fetcher : nat) (staleTime : option Z) (p : Page) : Page :=
  let status := q_status (getSnapshot key (client p)) in
  if bool_decide (status = Idle) || bool_decide (status = Failed) ||
     bool_decide (status = Success) && match staleTime with Some ms => isStale key ms p | None => false end
  then (fetch key fetcher p).1 else p.

(** On focus, or back online. *)
Definition revalidate (key : string) (fetcher : nat) (staleTime : option Z) (p : Page) : Page :=
  if bool_decide (q_status (getSnapshot key (client p)) = Success) && isStale key (default 0 staleTime) p then (fetch key fetcher p).1 else p.

(** The dependency by which the registration effect runs again. *)
Definition topicsKey (topics : option (list string)) : string := match topics with None => EmptyString | Some ts => join " " ts end.

(** What a component reads: data, error, [isLoading]. *)
Definition query_result (key : string) (p : Page) : option Z * option JsThrown * bool :=
  let s := getSnapshot key (client p) in
  (q_data s, q_error s, bool_decide (q_status s = Idle) || bool_decide (q_status s = Loading)).

(** ** The steps of [useMutation] *)

Inductive MutationStatus : Type := MIdle | MPending | MSuccess | MError.

Record MutationState : Type := mkMutation { m_status : MutationStatus; m_data : option Z; m_error : option JsThrown }.

(** [onMutate] writes the page and may give a rollback; the other hooks only observe. *)
Record MutationOptions : Type := mkMutationOptions {
  onMutate : option (Z -> Page -> Page * option (Page -> Page));
  invalidates : option (list string)
}.

(** [mutate], up to its [await]. *)
Definition mutate_begins (o : MutationOptions) (input : Z) (p : Page) : MutationState * Page * option (Page -> Page) :=
  let '(p, rollback) := match onMutate o with Some f => f input p | None => (p, None) end in
  (mkMutation MPending None None, p, rollback).

(** And after it. The invalidation is inside the [try]: what it throws at once is an error
    of the mutation. *)
Definition mutate_settles (o : MutationOptions) (rollback : option (Page -> Page)) (result : outcome JsThrown Z) (p : Page) : MutationState * Page :=
  let failed e p := (mkMutation MError None (Some e), match rollback with Some undo => undo p | None => p end) in
  match result with
  | Throw e => failed e p
  | Ok data =>
      match invalidates o with
      | Some ((_ :: _) as topics) =>
          match invalidateTopics topics p with
          | (p, Ok _) => (mkMutation MSuccess (Some data) None, p)
          | (p, Throw e) => failed e p
          end
      | _ => (mkMutation MSuccess (Some data) None, p)
      end
  end.
End Requests.

(** ** The event source

    How the platform reads a stream of events (the language's host, as its standard has it):
    lines; fields, of which [event], [data] and [id] count; an empty line dispatches what has
    data. A carriage return would end a line too: the texts here have none. *)

Record EventSource : Type := mkSource { es_type : string; es_data : string; es_id : string; es_lastEventId : string }.
Record SourceEvent : Type := mkEvent { ev_type : string; ev_data : string; ev_lastEventId : string }.

Definition new_source (lastEventId : string) : EventSource := mkSource EmptyString EmptyString lastEventId lastEventId.

Definition lf : ascii := "010".

(** All but the last character. *)
Fixpoint chop (s : string) : string :=
  match s with EmptyString => EmptyString | String c EmptyString => EmptyString | String c s' => String c (chop s') end.

Definition after_space (s : string) : string := match s with String " " s' => s' | _ => s end.

(** One line, its end removed: the source, and the event it dispatches. *)
Definition process_line (line : string) (s : EventSource) : EventSource * list SourceEvent :=
  if String.eqb line EmptyString then
    let s' := mkSource EmptyString EmptyString (es_id s) (es_id s) in
    if String.eqb (es_data s) EmptyString then (s', [])
    else (s', [mkEvent (if String.eqb (es_type s) EmptyString then "message" else es_type s) (chop (es_data s)) (es_id s)])
  else
    let '(field, value) := match cut ":" line with Some (field, rest) => (field, after_space rest) | None => (line, EmptyString) end in
    if String.eqb field "event" then (mkSource value (es_data s) (es_id s) (es_lastEventId s), [])
    else if String.eqb field "data" then (mkSource (es_type s) (es_data s ++ value ++ String lf EmptyString)%string (es_id s) (es_lastEventId s), [])
    else if String.eqb field "id" then (if has_char "000" value then s else mkSource (es_type s) (es_data s) value (es_lastEventId s), [])
    else (s, []).

Fixpoint process_lines (lines : list string) (s : EventSource) : EventSource * list SourceEvent :=
  match lines with
  | [] => (s, [])
  | line :: lines' =>
      let '(s1, events1) := process_line line s in
      let '(s2, events2) := process_lines lines' s1 in
      (s2, events1 ++ events2)
  end.

(** A text of whole lines; lines end with a line feed. *)
Definition receive_text (text : string) (s : EventSource) : EventSource * list SourceEvent := process_lines (removelast (split lf text)) s.

(** ** [connectLive]: what the listeners do with an event *)

Definition on_live_event (throws_at_once : nat -> nat -> bool) (topics : list string) (e : SourceEvent) (p : Page) : Page :=
  if String.eqb (ev_type e) "invalidate" then (invalidateTopic throws_at_once (ev_data e) p).1
  else if String.eqb (ev_type e) "resync" then (invalidateTopics throws_at_once topics p).1
  else p.
