(* ===== verification/QueryClientProps.v ===== *)
(** * Client data: what the cache promises

    The registry of topics, the requests in flight, and what a reader is shown after an
    invalidation. *)
From S2P Require Import Prelude JsString JsMap JsNumber JsJson Web PubSub PubSubProps QueryClient.
#[local] Open Scope string_scope.
#[local] Open Scope Z_scope.
#[local] Open Scope list_scope.

(** ** A page over time *)

Inductive PageEvent : Type :=
| Subscribes (key : string) (listener : nat)
| Unsubscribes (key : string) (address listener : nat)
| SetsData (key : string) (data : Z)
| Fetches (key : string) (fetcher : nat)
| Primes (key : string) (since : Z)
| Invalidates (key : string)
| Settles (r : nat) (result : outcome JsThrown Z)
| Registers (key : string) (topics : list string)
| Unregisters (i : nat)
| InvalidatesTopics (topics : list string)
| Writes
| Ticks (ms : Z).

(** The registrations not undone yet, beside the page. *)
Abbreviation Registrations := (list (string * list string)).

Section Page.
Context (throws_at_once : nat -> nat -> bool).

Definition happens (e : PageEvent) (s : Page * Registrations) : Page * Registrations :=
  let '(p, regs) := s in
  match e with
  | Subscribes key l => ((subscribe key l p).1, regs)
  | Unsubscribes key a l => (unsubscribe key a l p, regs)
  | SetsData key data => (setData key data p, regs)
  | Fetches key f => ((fetch throws_at_once key f p).1, regs)
  | Primes key since => (prime key since p, regs)
  | Invalidates key => ((invalidate throws_at_once key p).1, regs)
  | Settles r result => (settle r result p, regs)
  | Registers key topics => (registerTopics key topics p, regs ++ [(key, topics)])
  | Unregisters i =>
      match regs !! i with Some (key, topics) => (unregisterTopics key topics p, delete i regs) | None => (p, regs) end
  | InvalidatesTopics topics => ((invalidateTopics throws_at_once topics p).1, regs)
  | Writes => (mkPage (client p) (requests p) (version p + 1) (clock p) (notified p), regs)
  | Ticks ms => (mkPage (client p) (requests p) (version p) (clock p + Z.max 0 ms) (notified p), regs)
  end.

(** A response is of the server's state at some moment between the request and its
    settling; a primed promise is of a request sent before. *)
Definition possible (e : PageEvent) (p : Page) : Prop :=
  match e with
  | Settles r (Ok v) => forall rq, requests p !! r = Some rq -> rq_since rq <= v <= version p
  | Primes _ since => since <= version p
  | _ => True
  end.

Fixpoint history (es : list PageEvent) (s : Page * Registrations) : Page * Registrations :=
  match es with [] => s | e :: es' => history es' (happens e s) end.

Fixpoint all_possible (es : list PageEvent) (s : Page * Registrations) : Prop :=
  match es with [] => True | e :: es' => possible e s.1 /\ all_possible es' (happens e s) end.

Definition visited (s : Page * Registrations) : Prop :=
  exists v now es, all_possible es (new_page v now, []) /\ s = history es (new_page v now, []).

Lemma history_app es es' s : history (es ++ es') s = history es' (history es s).
Proof. revert s. induction es as [|e es IH]; [done|]. intros s. apply IH. Qed.

Lemma possible_app es es' s : all_possible (es ++ es') s <-> all_possible es s /\ all_possible es' (history es s).
Proof. revert s. induction es as [|e es IH]; [cbn; tauto|]. intros s. cbn. rewrite IH. tauto. Qed.

(** An invariant of the pages. *)
Lemma visited_invariant (I : Page * Registrations -> Prop) :
  (forall v now, I (new_page v now, [])) -> (forall e s, I s -> possible e s.1 -> I (happens e s)) -> forall s, visited s -> I s.
Proof.
  intros I0 IS. assert (forall es s, I s -> all_possible es s -> I (history es s)) as G.
  { induction es as [|e es IH]; intros s Is; [done|]. intros [A1 A2]. apply IH; [by apply IS|done]. }
  intros s (v & now & es & A & ->). by apply G.
Qed.
End Page.

(** ** The registry *)

Definition count (topic key : string) (m : JsMap (JsMap Z)) : Z := default 0 (map_get key (default [] (map_get topic m))).

(** How often [key] is registered under [topic]. *)
Definition occurrences (topic : string) (topics : list string) : Z := Z.of_nat (count_occ string_dec topics topic).
Definition registered (topic key : string) (regs : Registrations) : Z :=
  fold_right (fun reg n => (if String.eqb key reg.1 then occurrences topic reg.2 else 0) + n) 0 regs.

Record registry_ok (m : JsMap (JsMap Z)) : Prop := {
  reg_topics : List.NoDup (map fst m);
  reg_counts : forall topic counts, map_get topic m = Some counts ->
    counts <> [] /\ List.NoDup (map fst counts) /\ forall key n, map_get key counts = Some n -> 0 < n
}.

Lemma count_nonneg topic key m : registry_ok m -> 0 <= count topic key m.
Proof.
  intros [_ R]. unfold count. destruct (map_get topic m) as [counts|] eqn:E; [|done]. cbn. destruct (map_get key counts) as [n|] eqn:En; [|done]. cbn.
  destruct (R _ _ E) as (_ & _ & P). specialize (P _ _ En). lia.
Qed.

Lemma map_set_not_nil {V} k (e : V) m : map_set k e m <> [].
Proof. intros E. pose proof (map_get_set k k e m) as H. by rewrite E, String.eqb_refl in H. Qed.

Lemma count_up_spec key topic m :
  registry_ok m -> registry_ok (count_up key topic m) /\
  forall t k, count t k (count_up key topic m) = count t k m + (if String.eqb t topic && String.eqb k key then 1 else 0).
Proof.
  intros R. split.
  - destruct R as [R1 R2]. split; [by apply map_set_NoDup|]. intros t counts. unfold count_up. rewrite map_get_set. destruct (String.eqb_spec t topic) as [->|]; [|apply R2].
    intros [= <-]. split; [apply map_set_not_nil|]. assert (List.NoDup (map fst (default [] (map_get topic m))) /\ forall k n, map_get k (default [] (map_get topic m)) = Some n -> 0 < n) as [N P].
    { destruct (map_get topic m) as [c|] eqn:E; [apply (R2 _ _ E)|]. by split; [constructor|]. }
    split; [by apply map_set_NoDup|]. intros k n. rewrite map_get_set. destruct (String.eqb_spec k key) as [->|]; [|apply P]. intros [= <-].
    destruct (map_get key _) as [n'|] eqn:En; cbn; [specialize (P _ _ En)|]; lia.
  - intros t k. unfold count, count_up. rewrite map_get_set. destruct (String.eqb_spec t topic) as [->|]; cbn [andb]; [|lia]. cbn [from_option id]. rewrite map_get_set.
    destruct (String.eqb_spec k key) as [->|]; [|lia]. done.
Qed.

Lemma count_down_spec key topic m :
  registry_ok m -> 0 < count topic key m -> registry_ok (count_down key topic m) /\
  forall t k, count t k (count_down key topic m) = count t k m - (if String.eqb t topic && String.eqb k key then 1 else 0).
Proof.
  intros R Pos. pose proof R as [R1 R2]. unfold count_down. unfold count in Pos. destruct (map_get topic m) as [counts|] eqn:E; [|done]. cbn [from_option id] in Pos.
  destruct (R2 _ _ E) as (C1 & C2 & C3). destruct (map_get key counts) as [n|] eqn:En; [|done]. cbn [from_option id] in *. destruct (Z.ltb_spec 0 (n - 1)) as [L|L].
  - split.
    + split; [by apply map_set_NoDup|]. intros t c. rewrite map_get_set. destruct (String.eqb_spec t topic) as [->|]; [|apply R2]. intros [= <-].
      split; [apply map_set_not_nil|]. split; [by apply map_set_NoDup|]. intros k v. rewrite map_get_set. destruct (String.eqb_spec k key); [|apply C3]. intros [= <-]. lia.
    + intros t k. unfold count. rewrite map_get_set. destruct (String.eqb_spec t topic) as [->|]; cbn [andb]; [|lia]. rewrite E. cbn [from_option id]. rewrite map_get_set.
      destruct (String.eqb_spec k key) as [->|]; [|lia]. by rewrite En.
  - assert (n = 1) as -> by lia. assert (forall k, default 0 (map_get k (map_delete key counts)) = default 0 (map_get k counts) - (if String.eqb k key then 1 else 0)) as D.
    { intros k. rewrite map_get_delete. destruct (String.eqb_spec k key) as [->|]; [by rewrite En|lia]. }
    destruct (map_delete key counts) as [|x rest] eqn:Ed.
    + split.
      * split; [by apply map_delete_NoDup|]. intros t c. rewrite map_get_delete. destruct (String.eqb_spec t topic); [done|apply R2].
      * intros t k. unfold count. rewrite map_get_delete. destruct (String.eqb_spec t topic) as [->|]; cbn [andb]; [|lia]. rewrite E. cbn [from_option id]. specialize (D k). cbn in D. cbn. lia.
    + rewrite <- Ed in *. split.
      * split; [by apply map_set_NoDup|]. intros t c. rewrite map_get_set. destruct (String.eqb_spec t topic) as [->|]; [|apply R2]. intros [= <-].
        split; [by rewrite Ed|]. split; [by apply map_delete_NoDup|]. intros k v. rewrite map_get_delete. destruct (String.eqb_spec k key); [done|apply C3].
      * intros t k. unfold count. rewrite map_get_set. destruct (String.eqb_spec t topic) as [->|]; cbn [andb]; [|lia]. rewrite E. cbn [from_option id]. apply D.
Qed.

Lemma occurrences_cons t topic topics : occurrences t (topic :: topics) = (if String.eqb t topic then 1 else 0) + occurrences t topics.
Proof. unfold occurrences. cbn. destruct (string_dec topic t) as [->|N]; [rewrite String.eqb_refl; lia|]. destruct (String.eqb_spec t topic); [congruence|lia]. Qed.

Lemma occurrences_pos t topics : 0 < occurrences t topics <-> In t topics.
Proof. unfold occurrences. rewrite (count_occ_In string_dec). lia. Qed.

Lemma fold_up key topics m :
  registry_ok m -> let m' := fold_left (fun m topic => count_up key topic m) topics m in registry_ok m' /\
  forall t k, count t k m' = count t k m + (if String.eqb k key then occurrences t topics else 0).
Proof.
  cbv zeta. revert m. induction topics as [|topic topics IH]; intros m R; cbn [fold_left].
  - split; [done|]. intros t k. unfold occurrences. cbn. destruct (String.eqb k key); lia.
  - destruct (count_up_spec key topic m R) as [R1 C1]. destruct (IH _ R1) as [R2 C2]. split; [done|]. intros t k. rewrite C2, C1, occurrences_cons.
    destruct (String.eqb k key), (String.eqb t topic); cbn; lia.
Qed.

Lemma fold_down key topics m :
  registry_ok m -> (forall t, occurrences t topics <= count t key m) ->
  let m' := fold_left (fun m topic => count_down key topic m) topics m in registry_ok m' /\
  forall t k, count t k m' = count t k m - (if String.eqb k key then occurrences t topics else 0).
Proof.
  cbv zeta. revert m. induction topics as [|topic topics IH]; intros m R L; cbn [fold_left].
  - split; [done|]. intros t k. unfold occurrences. cbn. destruct (String.eqb k key); lia.
  - assert (forall t, 0 <= occurrences t topics) as Nn by (intros t; unfold occurrences; lia).
    destruct (count_down_spec key topic m R) as [R1 C1]; [specialize (L topic); specialize (Nn topic); rewrite occurrences_cons, String.eqb_refl in L; lia|].
    destruct (IH _ R1) as [R2 C2].
    + intros t. rewrite C1, String.eqb_refl. specialize (L t). rewrite occurrences_cons in L. destruct (String.eqb t topic); cbn; lia.
    + split; [done|]. intros t k. rewrite C2, C1, occurrences_cons. destruct (String.eqb k key), (String.eqb t topic); cbn; lia.
Qed.

Lemma registered_app t k r1 r2 : registered t k (r1 ++ r2) = registered t k r1 + registered t k r2.
Proof. unfold registered in *. induction r1 as [|x r1 IH]; [done|]. cbn [app fold_right]. lia. Qed.

Lemma registered_nonneg t k regs : 0 <= registered t k regs.
Proof. unfold registered. induction regs as [|x regs IH]; [done|]. cbn [fold_right]. assert (0 <= occurrences t x.2) by (unfold occurrences; lia). destruct (String.eqb k x.1); lia. Qed.

Lemma registered_delete t k regs i key topics :
  regs !! i = Some (key, topics) -> registered t k regs = registered t k (delete i regs) + (if String.eqb k key then occurrences t topics else 0).
Proof.
  intros H. rewrite delete_take_drop. rewrite <- (take_drop_middle regs i _ H) at 1. rewrite !registered_app. unfold registered. cbn [fold_right fst snd]. lia.
Qed.

Lemma registered_pos t k regs : 0 < registered t k regs <-> exists topics, In (k, topics) regs /\ In t topics.
Proof.
  induction regs as [|[k' ts] regs IH]; [cbn; split; [lia|by intros (? & [] & _)]|]. cbn [registered fold_right fst snd]. pose proof (registered_nonneg t k regs) as N. unfold registered in N.
  destruct (String.eqb_spec k k') as [->|Ne].
  - pose proof (occurrences_pos t ts) as O. split.
    + intros H. destruct (Z.ltb_spec 0 (occurrences t ts)) as [L|L]; [exists ts; split; [by left|by apply O]|]. assert (0 < registered t k' regs) as P by (unfold registered; lia).
      apply IH in P as (ts' & H1 & H2). exists ts'. split; [by right|done].
    + intros (ts' & [[= <-]|H] & H2); [apply O in H2; lia|]. assert (0 < registered t k' regs) as P by (apply IH; eauto). unfold registered in P.
      assert (0 <= occurrences t ts) by (unfold occurrences; lia). lia.
  - fold (registered t k regs). rewrite Z.add_0_l, IH. split; intros (ts' & H & H2); exists ts'; [split; [by right|done]|]. destruct H as [[= ->]|H]; [done|by split].
Qed.

(** ** What the operations leave alone *)

Lemma publish_counts key s p : topicKeyCounts (client (publish key s p)) = topicKeyCounts (client p).
Proof. unfold publish. cbn. by destruct (bool_decide _). Qed.

Section Registry.
Context (throws_at_once : nat -> nat -> bool).

Lemma fetch_counts key f p : topicKeyCounts (client (fetch throws_at_once key f p).1) = topicKeyCounts (client p).
Proof.
  unfold fetch. cbn [client set_client set_fetchers inflight]. destruct (map_get key (inflight (client p))); [done|]. unfold loading, track.
  destruct (throws_at_once _ _); cbn [fst client set_inflight topicKeyCounts]; by rewrite publish_counts.
Qed.

Lemma invalidate_counts key p : topicKeyCounts (client (invalidate throws_at_once key p).1) = topicKeyCounts (client p).
Proof.
  unfold invalidate. destruct (map_get key (fetchers (client p))) as [f|]; [|cbn [fst]; by rewrite publish_counts].
  pose proof (fetch_counts key f p) as E. by destruct (fetch _ _ _ _) as [p' [r|e]].
Qed.

Lemma invalidate_keys_counts keys p : topicKeyCounts (client (invalidate_keys throws_at_once keys p).1) = topicKeyCounts (client p).
Proof.
  revert p. induction keys as [|key keys IH]; intros p; [done|]. cbn [invalidate_keys]. pose proof (invalidate_counts key p) as E.
  destruct (invalidate _ _ _) as [p' [r|e]]; [|done]. by rewrite IH.
Qed.

Lemma settle_counts r result p : topicKeyCounts (client (settle r result p)) = topicKeyCounts (client p).
Proof. unfold settle. destruct (requests p !! r) as [rq|]; [|done]. destruct (rq_settled rq); [done|]. by rewrite publish_counts. Qed.

Lemma prime_counts key since p : topicKeyCounts (client (prime key since p)) = topicKeyCounts (client p).
Proof. unfold prime. destruct (_ || _); [done|]. unfold loading, track. cbn [fst client set_inflight topicKeyCounts]. by rewrite publish_counts. Qed.

Lemma unsubscribe_counts key a l p : topicKeyCounts (client (unsubscribe key a l p)) = topicKeyCounts (client p).
Proof. done. Qed.

Lemma subscribe_counts key l p : topicKeyCounts (client (subscribe key l p).1) = topicKeyCounts (client p).
Proof. unfold subscribe. by destruct (map_get key (listeners (client p))). Qed.

Definition tallied (s : Page * Registrations) : Prop :=
  registry_ok (topicKeyCounts (client s.1)) /\ forall t k, count t k (topicKeyCounts (client s.1)) = registered t k s.2.

Lemma tallied_happens e s : tallied s -> tallied (happens throws_at_once e s).
Proof.
  destruct s as [p regs]. intros [R C]. cbn [fst snd] in R, C. unfold tallied.
  destruct e as [key l|key a l|key d|key f|key since|key|r result|key ts|i|ts| |ms]; cbn [happens fst snd];
    rewrite ?subscribe_counts, ?unsubscribe_counts, ?fetch_counts, ?prime_counts, ?invalidate_counts, ?settle_counts; try exact (conj R C).
  - destruct (fold_up key ts _ R) as [R' C']. split; [exact R'|]. intros t k. cbn. rewrite C', C, registered_app. cbn. lia.
  - destruct (regs !! i) as [[key ts]|] eqn:E; [|exact (conj R C)]. cbn [fst snd]. destruct (fold_down key ts _ R) as [R' C'].
    + intros t. rewrite C, (registered_delete t key _ _ _ _ E), String.eqb_refl. pose proof (registered_nonneg t key (delete i regs)). lia.
    + split; [exact R'|]. intros t k. cbn. rewrite C', C, (registered_delete t k _ _ _ _ E). lia.
  - unfold invalidateTopics. rewrite invalidate_keys_counts. exact (conj R C).
Qed.

Lemma visited_tallied s : visited throws_at_once s -> tallied s.
Proof.
  apply visited_invariant; [|intros e s0 T _; by apply tallied_happens]. intros v now. split; [|done]. split; [constructor|done].
Qed.

Lemma keys_of_spec topics c :
  registry_ok (topicKeyCounts c) ->
  List.NoDup (keys_of topics c) /\ forall key, In key (keys_of topics c) <-> exists t, In t topics /\ 0 < count t key (topicKeyCounts c).
Proof.
  intros [R1 R2]. unfold keys_of.
  assert (forall l acc : list string, List.NoDup acc -> List.NoDup (fold_left (fun keys key => set_add key keys) l acc) /\
    forall key, In key (fold_left (fun keys key => set_add key keys) l acc) <-> In key acc \/ In key l) as G1.
  { induction l as [|x l IH]; intros acc N; cbn [fold_left]; [split; [done|]; intros key; cbn; tauto|]. destruct (IH (set_add x acc) (set_add_NoDup x acc N)) as [I1 I2].
    split; [done|]. intros key. rewrite I2. assert (In key (set_add x acc) <-> In key acc \/ key = x) as ->; [|cbn; split; intuition congruence].
    unfold set_add. destruct (has x acc) eqn:E; [apply has_In in E; split; [by left|]; by intros [| ->]|]. rewrite in_app_iff. cbn. intuition congruence. }
  assert (forall t key, 0 < count t key (topicKeyCounts c) <-> In key (map fst (default [] (map_get t (topicKeyCounts c))))) as G2.
  { intros t key. unfold count. destruct (map_get t (topicKeyCounts c)) as [counts|] eqn:E; cbn; [|split; [lia|done]]. destruct (R2 _ _ E) as (_ & N & P). split.
    - destruct (map_get key counts) as [n|] eqn:En; cbn; [|lia]. intros _. apply map_get_Some_In in En. apply in_map_iff. by exists (key, n).
    - intros ([k n] & <- & H)%in_map_iff. cbn. apply (map_get_In _ _ _ N) in H. rewrite H. cbn. by apply (P k). }
  assert (forall acc : list string, List.NoDup acc -> List.NoDup (fold_left (fun keys t => fold_left (fun keys key => set_add key keys) (map fst (default [] (map_get t (topicKeyCounts c)))) keys) topics acc) /\
    forall key, In key (fold_left (fun keys t => fold_left (fun keys key => set_add key keys) (map fst (default [] (map_get t (topicKeyCounts c)))) keys) topics acc) <->
      In key acc \/ exists t, In t topics /\ 0 < count t key (topicKeyCounts c)) as G3.
  { induction topics as [|t topics IH]; intros acc N; cbn [fold_left]; [split; [done|]; intros key; split; [by left|]; by intros [|(? & [] & _)]|].
    destruct (G1 (map fst (default [] (map_get t (topicKeyCounts c)))) acc N) as [N1 I1]. destruct (IH _ N1) as [N2 I2]. split; [done|]. intros key. rewrite I2, I1, <- G2.
    split; [intros [[|]|(t' & ? & ?)]; [by left|right; exists t; split; [by left|done]|right; exists t'; split; [by right|done]]|].
    intros [|(t' & [->|] & ?)]; [left; by left|left; by right|right; by exists t']. }
  destruct (G3 [] (List.NoDup_nil _)) as [N I]. split; [done|]. intros key. rewrite I. cbn. tauto.
Qed.

(** C22: the registry is the readers that are mounted: whatever else happens on the page, a
    topic's count of a key is how often the registrations not undone name it, no empty entry
    is kept, and an invalidation of topics goes to the keys that are registered under one of
    them, each once. *)
Theorem registry_is_the_mounted_readers (p : Page) (regs : Registrations) :
  visited throws_at_once (p, regs) ->
  (forall topic key, count topic key (topicKeyCounts (client p)) = registered topic key regs) /\
  (forall topic counts, map_get topic (topicKeyCounts (client p)) = Some counts -> counts <> [] /\ exists key topics, In (key, topics) regs /\ In topic topics) /\
  (forall topics, List.NoDup (keys_of topics (client p)) /\
     forall key, In key (keys_of topics (client p)) <-> exists ts topic, In (key, ts) regs /\ In topic ts /\ In topic topics).
Proof.
  intros [R C]%visited_tallied. cbn [fst snd] in *. split; [exact C|]. split.
  - intros topic counts E. destruct (reg_counts _ R _ _ E) as (H1 & H2 & H3). split; [done|]. destruct counts as [|[key n] rest]; [done|]. exists key. apply registered_pos. rewrite <- C.
    unfold count. rewrite E. cbn [from_option id]. assert (map_get key ((key, n) :: rest) = Some n) as En by (apply map_get_In; [done|by left]). rewrite En. cbn. by apply (H3 key).
  - intros topics. destruct (keys_of_spec topics (client p) R) as [N I]. split; [done|]. intros key. rewrite I. split.
    + intros (t & Ht & P). rewrite C in P. apply registered_pos in P as (ts & H1 & H2). by exists ts, t.
    + intros (ts & t & H1 & H2 & H3). exists t. split; [done|]. rewrite C. apply registered_pos. by exists ts.
Qed.
End Registry.

(** ** Requests *)

Lemma publish_snapshot k key s p : getSnapshot k (client (publish key s p)) = if String.eqb k key then s else getSnapshot k (client p).
Proof. unfold publish, getSnapshot. destruct (bool_decide _); cbn [client snapshots set_snapshots set_fetchedAt]; rewrite map_get_set; by destruct (String.eqb k key). Qed.

Lemma publish_inflight key s p : inflight (client (publish key s p)) = inflight (client p).
Proof. unfold publish. by destruct (bool_decide _). Qed.

Lemma publish_fetchers key s p : fetchers (client (publish key s p)) = fetchers (client p).
Proof. unfold publish. by destruct (bool_decide _). Qed.

(** A request in flight for the key. *)
Definition in_flight (key : string) (r : nat) (p : Page) : Prop :=
  exists rq, requests p !! r = Some rq /\ rq_key rq = key /\ rq_settled rq = false.

Definition status_of (key : string) (p : Page) : QueryStatus := q_status (getSnapshot key (client p)).

(** The invariant; [Q] is what a key that is shown as loading takes to have a request. *)
Section PageOk.
Context (Q : Prop).

Record page_ok (p : Page) : Prop := {
  ok_inflight : forall key r, map_get key (inflight (client p)) = Some r <-> in_flight key r p;
  ok_since : forall r rq, requests p !! r = Some rq -> rq_since rq <= version p;
  ok_loading : Q -> forall key, status_of key p = Loading -> exists r, in_flight key r p
}.

Lemma page_ok_publish key s p : page_ok p -> (Q -> q_status s = Loading -> exists r, in_flight key r p) -> page_ok (publish key s p).
Proof.
  intros [P1 P2 P3] H. split; [by rewrite publish_inflight|done|]. intros q k. unfold status_of. rewrite publish_snapshot. destruct (String.eqb_spec k key) as [->|]; [exact (H q)|by apply P3].
Qed.

(** The client's state is not among what these speak of. *)
Lemma page_ok_client c p : inflight c = inflight (client p) -> snapshots c = snapshots (client p) -> page_ok p -> page_ok (set_client c p).
Proof. intros E1 E2 [P1 P2 P3]. split; [cbn; by rewrite E1|done|]. intros q key. unfold status_of, getSnapshot. cbn. rewrite E2. by apply P3. Qed.

(** A request that begins. *)
Definition started (key : string) (since : Z) (p : Page) : Page := (track key since (loading key p)).1.

Lemma started_inflight key since p :
  inflight (client (started key since p)) = map_set key (length (requests p)) (inflight (client p)) /\
  requests (started key since p) = requests p ++ [mkRequest key since false] /\ version (started key since p) = version p /\
  fetchers (client (started key since p)) = fetchers (client p) /\
  forall k, status_of k (started key since p) = if String.eqb k key then Loading else status_of k p.
Proof.
  unfold started, track, loading, status_of. cbn [fst client inflight set_inflight requests version fetchers]. rewrite publish_inflight, publish_fetchers.
  split; [done|]. split; [done|]. split; [done|]. split; [done|]. intros k.
  match goal with |- q_status (getSnapshot k (set_inflight _ (client ?p'))) = _ => change (q_status (getSnapshot k (client p')) = if String.eqb k key then Loading else q_status (getSnapshot k (client p))) end.
  rewrite publish_snapshot. by destruct (String.eqb k key).
Qed.

Lemma in_flight_started k r key since p :
  in_flight k r (started key since p) <-> in_flight k r p \/ k = key /\ r = length (requests p).
Proof.
  destruct (started_inflight key since p) as (_ & E & _). unfold in_flight. rewrite E. split.
  - intros (rq & Hr & Hk & Hs). destruct (decide (r < length (requests p))%nat) as [L|L]; [rewrite lookup_app_l in Hr by done; left; by exists rq|].
    right. rewrite lookup_app_r in Hr by lia. apply list_lookup_singleton_Some in Hr as [Hr <-]. split; [by symmetry|]. lia.
  - intros [(rq & Hr & H)|[-> ->]]; [exists rq; split; [by apply lookup_app_l_Some|done]|]. exists (mkRequest key since false). by rewrite list_lookup_middle.
Qed.

Lemma page_ok_started key since p : page_ok p -> map_get key (inflight (client p)) = None -> since <= version p -> page_ok (started key since p).
Proof.
  intros [P1 P2 P3] N Hs. destruct (started_inflight key since p) as (E1 & E2 & E3 & _ & E4). split.
  - intros k r. rewrite E1, map_get_set, in_flight_started. destruct (String.eqb_spec k key) as [->|Ne].
    + split; [intros [= <-]; by right|]. intros [H|[_ ->]]; [|done]. apply P1 in H. congruence.
    + rewrite P1. split; [by left|]. by intros [|[]].
  - intros r rq. rewrite E2, E3. intros [H|[_ H]]%lookup_app_Some; [by apply (P2 r)|]. apply list_lookup_singleton_Some in H as [_ <-]. done.
  - intros q k. rewrite E4. destruct (String.eqb_spec k key) as [->|Ne].
    + intros _. eexists. apply in_flight_started. right. done.
    + intros (r & H)%(P3 q). exists r. apply in_flight_started. by left.
Qed.

Lemma page_ok_settle r result p : page_ok p -> page_ok (settle r result p).
Proof.
  intros [P1 P2 P3]. unfold settle. destruct (requests p !! r) as [rq|] eqn:E; [|by split]. destruct (rq_settled rq) eqn:Es; [by split|].
  set (p1 := mkPage _ _ _ _ _). set (s := match result with Ok _ => _ | Throw _ => _ end).
  assert (forall q, requests p1 !! r = Some q -> q = mkRequest (rq_key rq) (rq_since rq) true) as Er.
  { intros q H. unfold p1 in H. cbn [requests] in H. rewrite list_lookup_alter_eq, E in H. cbn in H. by injection H as <-. }
  assert (forall r', r' <> r -> requests p1 !! r' = requests p !! r') as Eo by (intros r' N; by apply list_lookup_alter_ne).
  assert (forall k r', in_flight k r' p1 <-> in_flight k r' p /\ r' <> r) as F.
  { intros k r'. unfold in_flight. destruct (decide (r' = r)) as [->|Ne].
    - split; [|by intros [_ []]]. intros (q & H & _ & Hs). apply Er in H as ->. done.
    - rewrite (Eo r') by done. tauto. }
  assert (map_get (rq_key rq) (inflight (client p)) = Some r) as G by (apply P1; by exists rq).
  assert (inflight (client (publish (rq_key rq) s p1)) = map_delete (rq_key rq) (inflight (client p))) as Ei by (by rewrite publish_inflight).
  assert (forall k, status_of k (publish (rq_key rq) s p1) = if String.eqb k (rq_key rq) then q_status s else status_of k p) as St.
  { intros k. unfold status_of. rewrite publish_snapshot. by destruct (String.eqb k (rq_key rq)). }
  assert (forall r' q, in_flight (rq_key rq) r' p -> requests p !! r' = Some q -> r' = r) as Only by (intros r' q H _; apply P1 in H; congruence).
  split.
  - intros k r'. rewrite Ei, map_get_delete. change (in_flight k r' (publish (rq_key rq) s p1)) with (in_flight k r' p1). rewrite F, <- P1.
    destruct (String.eqb_spec k (rq_key rq)) as [->|Ne]; [rewrite G; split; [done|]; by intros [[= <-] []]|]. split; [|by intros []]. intros H. split; [done|]. intros ->.
    apply P1 in H as (q & H & Hk & _). rewrite E in H. injection H as <-. by destruct Ne.
  - intros r' q H. change (requests p1 !! r' = Some q) in H. destruct (decide (r' = r)) as [->|Ne]; [apply Er in H as ->; exact (P2 r rq E)|]. rewrite Eo in H by done. exact (P2 r' q H).
  - intros Hq k. rewrite St. destruct (String.eqb_spec k (rq_key rq)) as [->|Ne]; [by destruct result|]. intros (r' & H)%(P3 Hq). exists r'. apply F. split; [done|]. intros ->.
    destruct H as (q & H & Hk & _). rewrite E in H. injection H as <-. by destruct Ne.
Qed.
End PageOk.

Section Requests.
Context (throws_at_once : nat -> nat -> bool).

(** Every fetcher gives its promise. *)
Definition quiet : Prop := forall f n, throws_at_once f n = false.

Abbreviation page_ok := (page_ok quiet).

Lemma fetch_spec key f p :
  let p0 := set_client (set_fetchers (map_set key f (fetchers (client p))) (client p)) p in
  fetch throws_at_once key f p =
    match map_get key (inflight (client p)) with
    | Some r => (p0, Ok r)
    | None => if throws_at_once f (length (requests p)) then (loading key p0, Throw OtherError)
              else (started key (version p) p0, Ok (length (requests p)))
    end.
Proof.
  cbv zeta. unfold fetch, started. cbn [client set_client set_fetchers inflight]. destruct (map_get key (inflight (client p))) as [r|]; [done|].
  cbn [requests loading publish set_client]. by destruct (throws_at_once f (length (requests p))).
Qed.

Lemma page_ok_fetch key f p : page_ok p -> page_ok (fetch throws_at_once key f p).1.
Proof.
  intros P. rewrite fetch_spec. assert (page_ok (set_client (set_fetchers (map_set key f (fetchers (client p))) (client p)) p)) as P0 by (by apply page_ok_client).
  destruct (map_get key (inflight (client p))) as [r|] eqn:E; [exact P0|]. destruct (throws_at_once f (length (requests p))) eqn:T.
  - apply page_ok_publish; [done|]. intros q. by rewrite q in T.
  - by apply page_ok_started.
Qed.

(** The page an invalidation leaves, whether it throws or not. *)
Lemma invalidate_spec key p :
  (invalidate throws_at_once key p).1 =
    match map_get key (fetchers (client p)) with
    | None => publish key IDLE_SNAPSHOT p
    | Some f => (fetch throws_at_once key f p).1
    end.
Proof.
  unfold invalidate. destruct (map_get key (fetchers (client p))) as [f|]; [|done]. by destruct (fetch _ _ _ _) as [p' [r|e]].
Qed.

Lemma invalidate_keys_cons key keys p :
  invalidate_keys throws_at_once (key :: keys) p =
    match (invalidate throws_at_once key p).2 with
    | Ok _ => invalidate_keys throws_at_once keys (invalidate throws_at_once key p).1
    | Throw e => ((invalidate throws_at_once key p).1, Throw e)
    end.
Proof. cbn [invalidate_keys]. by destruct (invalidate _ _ _) as [p' [r|e]]. Qed.

(** What every invalidation of a list of keys keeps, the whole loop keeps. *)
Lemma invalidate_keys_keeps (I : Page -> Prop) keys p :
  (forall key q, In key keys -> I q -> I (invalidate throws_at_once key q).1) -> I p -> I (invalidate_keys throws_at_once keys p).1.
Proof.
  revert p. induction keys as [|key keys IH]; intros p H P; [done|]. rewrite invalidate_keys_cons.
  pose proof (H key p (or_introl eq_refl) P) as P1. destruct (invalidate throws_at_once key p).2; [|done]. apply IH; [|done]. intros k q Hk. apply H. by right.
Qed.

Lemma page_ok_invalidate key p : page_ok p -> page_ok (invalidate throws_at_once key p).1.
Proof.
  intros P. rewrite invalidate_spec. destruct (map_get key (fetchers (client p))) as [f|]; [by apply page_ok_fetch|]. by apply page_ok_publish.
Qed.

Lemma page_ok_invalidate_keys keys p : page_ok p -> page_ok (invalidate_keys throws_at_once keys p).1.
Proof. apply invalidate_keys_keeps. intros key q _. apply page_ok_invalidate. Qed.

Lemma page_ok_happens e s : page_ok s.1 -> possible e s.1 -> page_ok (happens throws_at_once e s).1.
Proof.
  destruct s as [p regs]. cbn [fst]. intros P A. destruct e as [key l|key a l|key d|key f|key since|key|r result|key ts|i|ts| |ms]; cbn [happens fst].
  - unfold subscribe. by destruct (map_get key (listeners (client p))); apply page_ok_client.
  - by apply page_ok_client.
  - by apply page_ok_publish.
  - by apply page_ok_fetch.
  - unfold prime. destruct (map_get key (inflight (client p))) eqn:E; cbn [orb]; [done|]. destruct (bool_decide _); [done|]. by apply page_ok_started.
  - by apply page_ok_invalidate.
  - by apply page_ok_settle.
  - by apply page_ok_client.
  - destruct (regs !! i) as [[key ts]|]; [by apply page_ok_client|done].
  - by apply page_ok_invalidate_keys.
  - destruct P as [P1 P2 P3]. split; [done| |done]. intros r rq H. cbn in H |- *. pose proof (P2 r rq H). lia.
  - destruct P as [P1 P2 P3]. by split.
Qed.

Lemma visited_page_ok s : visited throws_at_once s -> page_ok s.1.
Proof.
  apply (visited_invariant throws_at_once (fun s => page_ok s.1)); [|intros e s0 P A; by apply page_ok_happens]. intros v now. split; [|done|done]. intros key r. split; [done|]. by intros (rq & H & _).
Qed.

(** C26: one request per key: whatever happens on the page, no two requests of a key are in
    flight; as long as there is one, fetches and primes of the key send nothing and a fetch is
    answered by it; and if no fetcher throws before it returns its promise, a reader that is
    shown a key as loading waits for one. *)
Theorem one_request_per_key (p : Page) (regs : Registrations) (key : string) :
  visited throws_at_once (p, regs) ->
  (forall r r', in_flight key r p -> in_flight key r' p -> r = r') /\
  (forall r, in_flight key r p ->
     (forall f, (fetch throws_at_once key f p).2 = Ok r /\ requests (fetch throws_at_once key f p).1 = requests p) /\
     (forall since, prime key since p = p)) /\
  ((forall f n, throws_at_once f n = false) -> q_status (getSnapshot key (client p)) = Loading -> exists r, in_flight key r p).
Proof.
  intros [P1 P2 P3]%visited_page_ok. cbn [fst] in *. split; [|split].
  - intros r r' H H'. apply P1 in H, H'. congruence.
  - intros r H%P1. split; [intros f; rewrite fetch_spec; by rewrite H|]. intros since. unfold prime. by rewrite H.
  - intros q. by apply P3.
Qed.
End Requests.

(** ** Freshness *)

Section Freshness.
Context (throws_at_once : nat -> nat -> bool).
Context (key : string) (V : Z).

(** What the key shows, and what is on its way to it, is of the server at [V] or later. *)
Record fresh (p : Page) : Prop := {
  fresh_version : V <= version p;
  fresh_requests : forall r rq, requests p !! r = Some rq -> rq_key rq = key -> rq_settled rq = false -> V <= rq_since rq;
  fresh_shown : status_of key p = Success -> exists v, q_data (getSnapshot key (client p)) = Some v /\ V <= v
}.

(** The page itself does not write the key, nor prime it with an older request. *)
Definition unforced (e : PageEvent) : Prop :=
  match e with
  | SetsData k _ => k <> key
  | Primes k since => k = key -> V <= since
  | _ => True
  end.

Lemma fresh_publish k s p : fresh p -> (k = key -> q_status s <> Success) -> fresh (publish k s p).
Proof.
  intros [F1 F2 F3] H. split; [done|exact F2|]. unfold status_of. rewrite publish_snapshot. destruct (String.eqb_spec key k) as [<-|]; [|exact F3]. by intros E%H.
Qed.

Lemma fresh_client c p : snapshots c = snapshots (client p) -> fresh p -> fresh (set_client c p).
Proof. intros E [F1 F2 F3]. split; [done|exact F2|]. unfold status_of, getSnapshot. cbn. by rewrite E. Qed.

Lemma fresh_started k since p : fresh p -> (k = key -> V <= since) -> fresh (started k since p).
Proof.
  intros F H. assert (fresh (loading k p)) as [F1 F2 F3] by (by apply fresh_publish). split; [exact F1| |exact F3].
  intros r rq Hr. unfold started, track in Hr. cbn [fst requests] in Hr. apply lookup_app_Some in Hr as [Hr|[_ Hr]]; [by apply (F2 r)|].
  apply list_lookup_singleton_Some in Hr as [_ <-]. cbn. auto.
Qed.

Lemma fresh_fetch k f p : fresh p -> fresh (fetch throws_at_once k f p).1.
Proof.
  intros F. rewrite fetch_spec. assert (fresh (set_client (set_fetchers (map_set k f (fetchers (client p))) (client p)) p)) as F0 by (by apply fresh_client).
  destruct (map_get k (inflight (client p))); [exact F0|]. destruct (throws_at_once _ _); [by apply fresh_publish|].
  apply fresh_started; [exact F0|]. intros _. apply (fresh_version _ F).
Qed.

Lemma fresh_invalidate k p : fresh p -> fresh (invalidate throws_at_once k p).1.
Proof. intros F. rewrite invalidate_spec. destruct (map_get k (fetchers (client p))); [by apply fresh_fetch|]. by apply fresh_publish. Qed.

Lemma fresh_invalidate_keys keys p : fresh p -> fresh (invalidate_keys throws_at_once keys p).1.
Proof. apply invalidate_keys_keeps. intros k q _. apply fresh_invalidate. Qed.

Lemma fresh_settle r result p : fresh p -> possible (Settles r result) p -> fresh (settle r result p).
Proof.
  intros F A. unfold settle. destruct (requests p !! r) as [rq|] eqn:E; [|done]. destruct (rq_settled rq) eqn:Es; [done|]. destruct F as [F1 F2 F3].
  set (p1 := mkPage _ _ _ _ _). assert (forall r' q, requests p1 !! r' = Some q -> rq_key q = key -> rq_settled q = false -> V <= rq_since q) as G2.
  { intros r' q H. unfold p1 in H. cbn [requests] in H. rewrite list_lookup_alter in H. case_decide as D; [|by apply (F2 r')]. subst r'. rewrite E in H. cbn in H. by injection H as <-. }
  split; [exact F1|exact G2|]. unfold status_of. rewrite publish_snapshot. destruct (String.eqb_spec key (rq_key rq)) as [Ek|]; [|exact F3].
  destruct result as [v|e]; [|done]. intros _. exists v. split; [done|]. pose proof (F2 r rq E (eq_sym Ek) Es). pose proof (A rq E). lia.
Qed.

Lemma fresh_happens e s : fresh s.1 -> possible e s.1 -> unforced e -> fresh (happens throws_at_once e s).1.
Proof.
  destruct s as [p regs]. cbn [fst]. intros F A U. destruct e as [k l|k a l|k d|k f|k since|k|r result|k ts|i|ts| |ms]; cbn [happens fst].
  - unfold subscribe. by destruct (map_get k (listeners (client p))); apply fresh_client.
  - by apply fresh_client.
  - by apply fresh_publish.
  - by apply fresh_fetch.
  - unfold prime. destruct (_ || _); [done|]. by apply fresh_started.
  - by apply fresh_invalidate.
  - by apply fresh_settle.
  - by apply fresh_client.
  - destruct (regs !! i) as [[k ts]|]; [by apply fresh_client|done].
  - by apply fresh_invalidate_keys.
  - destruct F as [F1 F2 F3]. split; [cbn; lia|exact F2|exact F3].
  - destruct F as [F1 F2 F3]. by split.
Qed.

Lemma fresh_history es s : fresh s.1 -> all_possible throws_at_once es s -> List.Forall unforced es -> fresh (history throws_at_once es s).1.
Proof.
  revert s. induction es as [|e es IH]; intros s F; [done|]. intros [A1 A2] U. inversion U as [|? ? U1 U2]; subst. apply IH; [by apply fresh_happens|done|done].
Qed.
End Freshness.

Section Invalidation.
Context (throws_at_once : nat -> nat -> bool).
Abbreviation page_ok := (page_ok (quiet throws_at_once)).

(** What an invalidation of other keys leaves alone. *)
Lemma invalidate_other key k p :
  k <> key -> let p' := (invalidate throws_at_once k p).1 in
  map_get key (inflight (client p')) = map_get key (inflight (client p)) /\ map_get key (fetchers (client p')) = map_get key (fetchers (client p)) /\
  getSnapshot key (client p') = getSnapshot key (client p) /\ version p' = version p /\ (forall r, in_flight key r p -> in_flight key r p').
Proof.
  intros Ne. cbv zeta. rewrite invalidate_spec. assert (String.eqb key k = false) as Ek by (by apply String.eqb_neq). destruct (map_get k (fetchers (client p))) as [f|].
  - rewrite fetch_spec. set (p0 := set_client _ p). destruct (map_get k (inflight (client p))); [|destruct (throws_at_once _ _)]; cbn [fst].
    + unfold p0. cbn [client set_client fetchers set_fetchers inflight version]. rewrite map_get_set, Ek. done.
    + unfold loading. rewrite publish_inflight, publish_fetchers, publish_snapshot, Ek. unfold p0. cbn [client set_client fetchers set_fetchers inflight version].
      rewrite map_get_set, Ek. done.
    + destruct (started_inflight k (version p) p0) as (E1 & E2 & E3 & E4 & _). rewrite E1, E3, E4, map_get_set, Ek. split; [done|]. split; [unfold p0; cbn [client set_client fetchers set_fetchers]; by rewrite map_get_set, Ek|].
      split; [|split; [done|]; intros r H; apply in_flight_started; by left].
      unfold started, track. cbn [fst client]. change (getSnapshot key (set_inflight (map_set k (length (requests (loading k p0))) (inflight (client (loading k p0)))) (client (loading k p0))))
        with (getSnapshot key (client (loading k p0))). unfold loading. rewrite publish_snapshot, Ek. done.
  - cbn [fst]. rewrite publish_inflight, publish_fetchers, publish_snapshot, Ek. done.
Qed.

Lemma invalidate_keys_other key keys p :
  ~ In key keys -> let p' := (invalidate_keys throws_at_once keys p).1 in
  map_get key (inflight (client p')) = map_get key (inflight (client p)) /\ map_get key (fetchers (client p')) = map_get key (fetchers (client p)) /\
  getSnapshot key (client p') = getSnapshot key (client p) /\ version p' = version p /\ (forall r, in_flight key r p -> in_flight key r p').
Proof.
  intros N. cbv zeta. apply (invalidate_keys_keeps throws_at_once (fun q =>
    map_get key (inflight (client q)) = map_get key (inflight (client p)) /\ map_get key (fetchers (client q)) = map_get key (fetchers (client p)) /\
    getSnapshot key (client q) = getSnapshot key (client p) /\ version q = version p /\ (forall r, in_flight key r p -> in_flight key r q))); [|done].
  intros k q Hk (F1 & F2 & F3 & F4 & F5). destruct (invalidate_other key k q) as (E1 & E2 & E3 & E4 & E5); [by intros ->|].
  rewrite E1, E2, E3, E4. repeat split; auto.
Qed.

Lemma invalidate_keys_app l1 l2 p :
  (invalidate_keys throws_at_once (l1 ++ l2) p).2 = Ok tt ->
  (invalidate_keys throws_at_once l1 p).2 = Ok tt /\
  invalidate_keys throws_at_once (l1 ++ l2) p = invalidate_keys throws_at_once l2 (invalidate_keys throws_at_once l1 p).1.
Proof.
  revert p. induction l1 as [|k l1 IH]; intros p H; [done|]. cbn [app] in *. rewrite invalidate_keys_cons in H |- *. rewrite invalidate_keys_cons.
  destruct (invalidate throws_at_once k p).2; [|done]. by apply IH.
Qed.

(** The request an invalidation sends. *)
Lemma invalidate_keys_sends key keys p :
  page_ok p -> List.NoDup keys -> In key keys -> map_get key (fetchers (client p)) <> None -> map_get key (inflight (client p)) = None ->
  (invalidate_keys throws_at_once keys p).2 = Ok tt ->
  let p' := (invalidate_keys throws_at_once keys p).1 in
  fresh key (version p) p' /\ version p' = version p /\ status_of key p' = Loading /\ exists r, in_flight key r p'.
Proof.
  intros P Nd H Hf Hn Hok. cbv zeta. apply in_split in H as (before & after & ->). assert (~ In key (before ++ after)) as N by (by apply NoDup_remove_2 in Nd).
  rewrite in_app_iff in N. destruct (invalidate_keys_app _ _ _ Hok) as [_ App]. rewrite App in *.
  pose proof (page_ok_invalidate_keys throws_at_once before p P) as P1. destruct (invalidate_keys_other key before p) as (E1 & E2 & _ & E4 & _); [tauto|].
  set (p1 := (invalidate_keys throws_at_once before p).1) in *. rewrite invalidate_keys_cons in *. rewrite <- E1 in Hn. rewrite <- E2 in Hf.
  destruct (invalidate throws_at_once key p1).2 eqn:Er; [|done].
  set (p2 := (invalidate throws_at_once key p1).1) in *. destruct (invalidate_keys_other key after p2) as (_ & _ & G3 & G4 & G5); [tauto|].
  assert (exists q, p2 = started key (version p) q /\ version q = version p /\ requests q = requests p1) as (q & Eq & Vq & Rq).
  { unfold p2. rewrite invalidate_spec. unfold invalidate in Er. destruct (map_get key (fetchers (client p1))) as [f|]; [|done].
    rewrite fetch_spec in Er |- *. rewrite Hn in Er |- *. destruct (throws_at_once _ _); [done|]. cbn [fst]. rewrite E4. by eexists. }
  destruct (started_inflight key (version p) q) as (S1 & S2 & S3 & S4 & S5). rewrite <- Eq in S1, S2, S3, S4, S5.
  assert (fresh key (version p) p2) as F2.
  { split; [lia| |rewrite S5, String.eqb_refl; done]. intros r rq. rewrite S2, Rq. intros [Hr|[_ Hr]]%lookup_app_Some Hk Hs.
    - assert (in_flight key r p1) as Hi by (by exists rq). apply (ok_inflight _ _ P1) in Hi. congruence.
    - apply list_lookup_singleton_Some in Hr as [_ <-]. cbn. lia. }
  split; [by apply fresh_invalidate_keys|]. split; [by rewrite G4, S3, Vq|]. split; [unfold status_of; rewrite G3; fold (status_of key p2); by rewrite S5, String.eqb_refl|].
  eexists. apply G5. rewrite Eq. apply in_flight_started. right. done.
Qed.

(** The mounted readers of a topic, and the others. *)
Lemma invalidateTopics_sends p regs key ts topics topic :
  visited throws_at_once (p, regs) -> In (key, ts) regs -> In topic ts -> In topic topics ->
  map_get key (fetchers (client p)) <> None -> map_get key (inflight (client p)) = None -> (invalidateTopics throws_at_once topics p).2 = Ok tt ->
  let p1 := (invalidateTopics throws_at_once topics p).1 in
  fresh key (version p) p1 /\ status_of key p1 = Loading /\ exists r, in_flight key r p1.
Proof.
  intros Vi Hr Ht1 Ht2 Hf Hn Hok. pose proof (visited_page_ok throws_at_once _ Vi) as P. pose proof (visited_tallied throws_at_once _ Vi) as [R C]. cbn [fst snd] in *.
  destruct (keys_of_spec topics (client p) R) as [Nd In_keys].
  assert (In key (keys_of topics (client p))) as Hk by (apply In_keys; exists topic; split; [done|]; rewrite C; apply registered_pos; by exists ts).
  destruct (invalidate_keys_sends key (keys_of topics (client p)) p P Nd Hk Hf Hn Hok) as (F & _ & L & I). split; [exact F|]. by split.
Qed.

Lemma invalidateTopics_other p regs k topics :
  visited throws_at_once (p, regs) -> (forall ts topic, In (k, ts) regs -> In topic ts -> ~ In topic topics) ->
  let p1 := (invalidateTopics throws_at_once topics p).1 in
  getSnapshot k (client p1) = getSnapshot k (client p) /\ map_get k (inflight (client p1)) = map_get k (inflight (client p)).
Proof.
  intros Vi Hk. pose proof (visited_tallied throws_at_once _ Vi) as [R C]. cbn [fst snd] in *. destruct (keys_of_spec topics (client p) R) as [_ In_keys].
  destruct (invalidate_keys_other k (keys_of topics (client p)) p) as (E1 & _ & E3 & _); [|by split].
  intros (t & Ht & Pos)%In_keys. rewrite C in Pos. apply registered_pos in Pos as (ts & H1 & H2). by apply (Hk ts t).
Qed.

(** C11: a reader sees what was written: when topics are invalidated, no fetcher called for it
    throws at once, and a mounted reader of one of the topics has no request in flight, a
    request is sent, and from then on, as long as the page does not write the key itself or
    prime it with an older request, a value the reader is shown as settled is of the server
    as it was at the invalidation or later, whatever else happens and whenever responses
    come; and if no fetcher ever throws at once, a request is in flight while the reader is
    shown the key as loading. Other keys are left as they are. *)
Theorem invalidation_is_fresh (p : Page) (regs : Registrations) (key : string) (ts topics : list string) :
  visited throws_at_once (p, regs) -> In (key, ts) regs -> (exists topic, In topic ts /\ In topic topics) ->
  map_get key (fetchers (client p)) <> None -> map_get key (inflight (client p)) = None ->
  (invalidateTopics throws_at_once topics p).2 = Ok tt ->
  let p1 := (invalidateTopics throws_at_once topics p).1 in
  q_status (getSnapshot key (client p1)) = Loading /\ (exists r, in_flight key r p1) /\
  (forall es, all_possible throws_at_once es (p1, regs) -> List.Forall (unforced key (version p)) es ->
     let p2 := (history throws_at_once es (p1, regs)).1 in
     (q_status (getSnapshot key (client p2)) = Success -> exists v, q_data (getSnapshot key (client p2)) = Some v /\ version p <= v) /\
     ((forall f n, throws_at_once f n = false) -> q_status (getSnapshot key (client p2)) = Loading -> exists r, in_flight key r p2)) /\
  (forall k, (forall ts' topic, In (k, ts') regs -> In topic ts' -> ~ In topic topics) ->
     getSnapshot k (client p1) = getSnapshot k (client p) /\ map_get k (inflight (client p1)) = map_get k (inflight (client p))).
Proof.
  intros Vi Hr (topic & Ht1 & Ht2) Hf Hn Hok. pose proof (visited_page_ok throws_at_once _ Vi) as P. cbn [fst] in P. cbv zeta.
  destruct (invalidateTopics_sends p regs key ts topics topic Vi Hr Ht1 Ht2 Hf Hn Hok) as (F & L & I). split; [exact L|]. split; [exact I|]. split.
  - intros es A U. pose proof (fresh_history throws_at_once key (version p) es ((invalidateTopics throws_at_once topics p).1, regs) F A U) as F2. split; [apply (fresh_shown _ _ _ F2)|].
    assert (page_ok (invalidateTopics throws_at_once topics p).1) as P1 by (by apply page_ok_invalidate_keys).
    assert (forall es s, page_ok s.1 -> all_possible throws_at_once es s -> page_ok (history throws_at_once es s).1) as G.
    { induction es0 as [|e es0 IH]; intros s Ps; [done|]. intros [A1 A2]. apply IH; [by apply page_ok_happens|done]. }
    intros Hq. exact (ok_loading _ _ (G es ((invalidateTopics throws_at_once topics p).1, regs) P1 A) Hq key).
  - intros k Hk. by apply (invalidateTopics_other p regs).
Qed.
End Invalidation.

(** ** At concrete pages *)

Ltac all_happened :=
  vm_compute; repeat match goal with
                     | |- _ /\ _ => split
                     | H : Some _ = Some _ |- _ => injection H as <-; vm_compute
                     | H : _ = Gt |- _ => discriminate H
                     | |- True => exact I
                     | |- forall _, _ => intro
                     end.

Definition never : nat -> nat -> bool := fun _ _ => false.

(** A reader of the key mounts, and its request settles. *)
Definition mounted : list PageEvent := [Registers "list" ["posts"]; Fetches "list" 0; Settles 0 (Ok 5)].
Definition read_page : Page * Registrations := history never mounted (new_page 5 0, []).

Lemma read_page_visited : visited never read_page.
Proof. exists 5, 0, mounted. split; [|done]. all_happened. Qed.

Lemma registry_is_the_mounted_readers_witness :
  keys_of ["users"; "posts"] (client read_page.1) = ["list"] /\ registered "posts" "list" read_page.2 = 1 /\ count "posts" "list" (topicKeyCounts (client read_page.1)) = 1.
Proof.
  destruct (registry_is_the_mounted_readers never read_page.1 read_page.2 read_page_visited) as (C & _ & _).
  split; [reflexivity|]. split; [reflexivity|]. rewrite C. reflexivity.
Defined.

(** A reader whose key was invalidated after its first request settled. *)
Definition refetching : Page * Registrations := history never (mounted ++ [Invalidates "list"]) (new_page 5 0, []).

Lemma refetching_visited : visited never (refetching.1, refetching.2).
Proof. exists 5, 0, (mounted ++ [Invalidates "list"]). split; [|vm_compute; reflexivity]. all_happened. Qed.

Lemma one_request_per_key_witness : in_flight "list" 1 refetching.1 /\ forall r, in_flight "list" r refetching.1 -> r = 1%nat.
Proof.
  destruct (one_request_per_key never refetching.1 refetching.2 "list" refetching_visited) as (Only & _ & _).
  assert (in_flight "list" 1 refetching.1) as F by (exists (mkRequest "list" 5 false); done).
  split; [exact F|]. intros r H. apply Only; [exact H|exact F].
Defined.

(** The reader settled, then the server was written. *)
Definition written_page : Page * Registrations := happens never Writes read_page.

Lemma written_page_visited : visited never (written_page.1, read_page.2).
Proof. exists 5, 0, (mounted ++ [Writes]). split; [|vm_compute; reflexivity]. all_happened. Qed.

Lemma invalidation_is_fresh_witness :
  let p1 := (invalidateTopics never ["posts"] written_page.1).1 in
  version written_page.1 = 6 /\ q_status (getSnapshot "list" (client p1)) = Loading /\
  exists v, q_data (getSnapshot "list" (client (history never [Settles 1 (Ok 6)] (p1, read_page.2)).1)) = Some v /\ 6 <= v.
Proof.
  destruct (invalidation_is_fresh never written_page.1 read_page.2 "list" ["posts"] ["posts"] written_page_visited) as (L & _ & F & _);
    [by left|exists "posts"; split; by left|done|done|vm_compute; reflexivity|]. split; [reflexivity|]. split; [exact L|].
  destruct (F [Settles 1 (Ok 6)]) as [F1 _]; [all_happened|by repeat constructor|]. exact (F1 eq_refl).
Defined.

(** Fact: an invalidation during a request is lost: the request in flight was sent before the
    write, the invalidation that follows the write is answered by it, and the reader is left
    with the old value, settled, and nothing on its way. *)
Theorem invalidation_in_flight_is_lost :
  let s := history never [Registers "list" ["posts"]; Fetches "list" 0; Writes; InvalidatesTopics ["posts"]; Settles 0 (Ok 5)] (new_page 5 0, []) in
  version s.1 = 6 /\ getSnapshot "list" (client s.1) = mkSnapshot Success (Some 5) None /\ map_get "list" (inflight (client s.1)) = None /\ length (requests s.1) = 1%nat.
Proof. done. Qed.

(** Fact: an optimistic write during a request is overwritten by the response, though the page
    wrote later. *)
Theorem optimistic_write_is_overwritten :
  let s := history never [Fetches "list" 0; SetsData "list" 6; Settles 0 (Ok 5)] (new_page 5 0, []) in
  getData "list" (client s.1) = Some 5.
Proof. done. Qed.

(** Fact: an unsubscribe that is called twice detaches another reader: the first call dropped
    the key's set, a new reader got a new set, and the second call, whose own set is empty,
    drops that one. The new reader is never called again. *)
Theorem second_unsubscribe_detaches :
  let s := history never [Subscribes "list" 1; Unsubscribes "list" 0 1; Subscribes "list" 2; Unsubscribes "list" 0 1; SetsData "list" 6] (new_page 5 0, []) in
  notified s.1 = [].
Proof. done. Qed.

(** Fact: an unregister that is called twice undoes the registration of another reader. *)
Theorem second_unregister_undoes_another :
  let p := registerTopics "list" ["posts"] (registerTopics "list" ["posts"] (new_page 5 0)) in
  keys_of ["posts"] (client (unregisterTopics "list" ["posts"] p)) = ["list"] /\
  keys_of ["posts"] (client (unregisterTopics "list" ["posts"] (unregisterTopics "list" ["posts"] p))) = [].
Proof. done. Qed.

(** Fact: a fetcher that throws at once leaves its key loading for ever: nothing is in flight,
    and neither a mount nor a focus fetches it again; and it ends the loop, so the topics'
    other keys are not invalidated. *)
Theorem thrown_fetch_keeps_loading :
  let throws f n := Nat.eqb f 1 in
  let s := history throws [Registers "a" ["posts"]; Registers "b" ["posts"]; Fetches "b" 0; Settles 0 (Ok 5); Fetches "a" 1; Writes; InvalidatesTopics ["posts"]] (new_page 5 0, []) in
  query_result "a" s.1 = (None, None, true) /\ map_get "a" (inflight (client s.1)) = None /\
  mount_effect throws "a" 0 (Some 0) s.1 = s.1 /\ revalidate throws "a" 0 (Some 0) s.1 = s.1 /\
  getSnapshot "b" (client s.1) = mkSnapshot Success (Some 5) None /\ map_get "b" (inflight (client s.1)) = None.
Proof. vm_compute. done. Qed.

(** Fact: the registration of topics does not follow some changes of the topics: two sets of
    topics have one dependency key. *)
Theorem topic_sets_share_a_key : topicsKey (Some ["a b"]) = topicsKey (Some ["a"; "b"]) /\ topicsKey (Some []) = topicsKey None.
Proof. done. Qed.

(** Fact: tuple keys are told apart by their parts. *)
Theorem tuple_keys_are_distinct (parts parts' : list json) :
  wire_safe (JArr parts) = true -> wire_safe (JArr parts') = true -> serializeQueryKey (KeyTuple parts) = serializeQueryKey (KeyTuple parts') -> parts = parts'.
Proof. intros W W' E%(f_equal parse). cbn [serializeQueryKey] in E. rewrite !parse_stringify in E by done. by injection E. Qed.

Lemma tuple_keys_are_distinct_witness : serializeQueryKey (KeyTuple [JStr "a"]) <> serializeQueryKey (KeyTuple [JStr "b"]).
Proof. intros E. assert ([JStr "a"] = [JStr "b"]) as H by exact (tuple_keys_are_distinct [JStr "a"] [JStr "b"] eq_refl eq_refl E). discriminate H. Defined.
