(* ===== verification/QueryClientLive.v ===== *)
(** * Client data: from the server's streams to the readers

    The frames a realtime stream writes, read by the event source of a page: what each frame
    tells, what a cut connection leaves, and that a topic the server heard ends in a request
    for every reader of it. *)
From Stdlib Require Import Sorting.Permutation.
From S2P Require Import Prelude JsString JsMap JsNumber JsJson Web PubSub PubSubProps Realtime RealtimeProps RealtimeStreams QueryClient QueryClientProps.
#[local] Open Scope string_scope.
#[local] Open Scope Z_scope.
#[local] Open Scope list_scope.

(** ** Frames, and what they tell *)

(** Texts that are one line, for the source. *)
Definition plain_text (s : string) : bool := negb (has_char lf s) && negb (has_char "013" s) && negb (has_char "000" s).

Inductive Told : Type :=
| Invalidated (topic cursor : string)
| Resynced (cursor : string)
| Pinged.

Definition frame_text (t : Told) : string :=
  match t with
  | Invalidated topic cursor => invalidateFrame topic cursor
  | Resynced cursor => resyncFrame cursor
  | Pinged => commentFrame "ping"
  end.

Definition told_plain (t : Told) : Prop :=
  match t with
  | Invalidated topic cursor => plain_text topic = true /\ plain_text cursor = true
  | Resynced cursor => plain_text cursor = true
  | Pinged => True
  end.

Definition event_of (t : Told) : list SourceEvent :=
  match t with
  | Invalidated topic cursor => [mkEvent "invalidate" topic cursor]
  | Resynced cursor => [mkEvent "resync" EmptyString cursor]
  | Pinged => []
  end.

(** The last event id, after a frame. *)
Definition id_after (last : string) (t : Told) : string :=
  match t with Invalidated _ cursor | Resynced cursor => cursor | Pinged => last end.

(** The text of a body: its chunks, one after another. *)
Fixpoint body (chunks : list string) : string :=
  match chunks with [] => EmptyString | chunk :: chunks' => (chunk ++ body chunks')%string end.

(** The lines of a frame. *)
Definition frame_lines (t : Told) : list string :=
  match t with
  | Invalidated topic cursor => ["event: invalidate"; String.append "data: " topic; String.append "id: " cursor; EmptyString]
  | Resynced cursor => ["event: resync"; "data: "; String.append "id: " cursor; EmptyString]
  | Pinged => [": ping"; EmptyString]
  end.

(** ** Lines *)

Definition one_line (s : string) : bool := negb (has_char lf s).

Lemma split_lines lines rest :
  List.Forall (fun l => has_char lf l = false) lines ->
  split lf (String.append (body (map (fun l => String.append l nl) lines)) rest) = lines ++ split lf rest.
Proof.
  induction 1 as [|l lines Hl _ IH]; [done|]. cbn [map body app]. rewrite !append_assoc. change (String.append nl ?x) with (String lf x).
  by rewrite split_app, IH.
Qed.

Lemma body_app cs ds : body (cs ++ ds) = String.append (body cs) (body ds).
Proof. induction cs as [|c cs IH]; [done|]. cbn [app body]. by rewrite IH, append_assoc. Qed.

Lemma frame_text_lines t : frame_text t = body (map (fun l => String.append l nl) (frame_lines t)).
Proof.
  destruct t as [topic cursor|cursor|]; cbn [frame_text frame_lines map body]; unfold invalidateFrame, resyncFrame; [| |done];
    rewrite ?append_assoc; cbn [String.append]; by rewrite ?append_nil_r.
Qed.

Lemma body_frames ts : body (map frame_text ts) = body (map (fun l => String.append l nl) (flat_map frame_lines ts)).
Proof. induction ts as [|t ts IH]; [done|]. cbn [map body flat_map]. by rewrite map_app, body_app, frame_text_lines, IH. Qed.

Lemma plain_line s : plain_text s = true -> has_char lf s = false.
Proof. unfold plain_text. intros H. by apply andb_true_iff in H as [[H%negb_true_iff _]%andb_true_iff _]. Qed.

Lemma plain_no_nul s : plain_text s = true -> has_char "000" s = false.
Proof. unfold plain_text. intros H. by apply andb_true_iff in H as [_ H%negb_true_iff]. Qed.

Lemma field_plain f v : has_char lf f = false -> plain_text v = true -> has_char lf (String.append f v) = false.
Proof. intros Hf Hv. by rewrite has_char_app, Hf, plain_line. Qed.

Lemma frame_lines_plain ts : List.Forall told_plain ts -> List.Forall (fun l => has_char lf l = false) (flat_map frame_lines ts).
Proof.
  induction 1 as [|t ts Ht _ IH]; [constructor|]. cbn [flat_map]. apply List.Forall_app. split; [|exact IH].
  destruct t as [topic cursor|cursor|]; cbn [frame_lines told_plain] in *;
    repeat (constructor; [first [done|apply field_plain; [done|tauto]]|]); constructor.
Qed.

(** ** Reading frames *)

Lemma process_lines_app ls ls' s :
  process_lines (ls ++ ls') s =
    let '(s1, e1) := process_lines ls s in let '(s2, e2) := process_lines ls' s1 in (s2, e1 ++ e2).
Proof.
  revert s. induction ls as [|l ls IH]; intros s; cbn [app process_lines]; [by destruct (process_lines ls' s)|].
  destruct (process_line l s) as [s1 e1]. rewrite IH. destruct (process_lines ls s1) as [s2 e2]. destruct (process_lines ls' s2) as [s3 e3]. by rewrite app_assoc.
Qed.

Lemma process_event name s : process_line (String.append "event: " name) s = (mkSource name (es_data s) (es_id s) (es_lastEventId s), []).
Proof. done. Qed.
Lemma process_data value s : process_line (String.append "data: " value) s = (mkSource (es_type s) (es_data s ++ value ++ String lf EmptyString)%string (es_id s) (es_lastEventId s), []).
Proof. done. Qed.
Lemma process_id value s : has_char "000" value = false -> process_line (String.append "id: " value) s = (mkSource (es_type s) (es_data s) value (es_lastEventId s), []).
Proof. intros H. unfold process_line. cbn. by rewrite H. Qed.

Lemma chop_line s : chop (String.append s (String lf EmptyString)) = s.
Proof. induction s as [|c s IH]; [done|]. cbn [String.append]. destruct s as [|d s]; [done|]. change (String c (chop (String.append (String d s) (String lf EmptyString))) = String c (String d s)). by rewrite IH. Qed.

Lemma line_not_empty s : String.eqb (String.append s (String lf EmptyString)) EmptyString = false.
Proof. by destruct s. Qed.

Lemma read_frame t last : told_plain t -> process_lines (frame_lines t) (new_source last) = (new_source (id_after last t), event_of t).
Proof.
  destruct t as [topic cursor|cursor|]; cbn [told_plain frame_lines process_lines]; [intros [_ Hc]|intros Hc|done].
  - change "event: invalidate" with (String.append "event: " "invalidate"). rewrite process_event, process_data, process_id by (by apply plain_no_nul). cbn [es_type es_data es_id es_lastEventId].
    unfold process_line. cbn [String.eqb es_data es_id es_type String.append new_source]. rewrite line_not_empty, chop_line. done.
  - change "event: resync" with (String.append "event: " "resync"). change "data: " with (String.append "data: " EmptyString).
    rewrite process_event, process_data, process_id by (by apply plain_no_nul). done.
Qed.

Lemma read_frames ts last :
  List.Forall told_plain ts -> process_lines (flat_map frame_lines ts) (new_source last) = (new_source (fold_left id_after ts last), flat_map event_of ts).
Proof.
  intros H. revert last. induction H as [|t ts Ht _ IH]; intros last; [done|]. cbn [flat_map fold_left]. by rewrite process_lines_app, read_frame, IH.
Qed.

(** A frame that is cut tells nothing. *)
Lemma cut_frame t last n :
  told_plain t -> (n < length (frame_lines t))%nat ->
  exists s, process_lines (firstn n (frame_lines t)) (new_source last) = (s, []) /\ es_lastEventId s = last.
Proof.
  destruct t as [topic cursor|cursor|]; cbn [told_plain frame_lines length]; intros Hc L.
  - destruct Hc as [_ Hc%plain_no_nul]. change "event: invalidate" with (String.append "event: " "invalidate").
    destruct n as [|[|[|[|n]]]]; [| | | |lia]; cbn [firstn process_lines]; rewrite ?process_event, ?process_data, ?process_id by done; by eexists.
  - apply plain_no_nul in Hc. change "event: resync" with (String.append "event: " "resync"). change "data: " with (String.append "data: " EmptyString).
    destruct n as [|[|[|[|n]]]]; [| | | |lia]; cbn [firstn process_lines]; rewrite ?process_event, ?process_data, ?process_id by done; by eexists.
  - destruct n as [|[|n]]; [| |lia]; by eexists.
Qed.

Lemma cut_frames ts last n :
  List.Forall told_plain ts ->
  exists k s, process_lines (firstn n (flat_map frame_lines ts)) (new_source last) = (s, flat_map event_of (firstn k ts)) /\
    es_lastEventId s = fold_left id_after (firstn k ts) last.
Proof.
  intros H. revert last n. induction H as [|t ts Ht _ IH]; intros last n.
  { exists O, (new_source last). split; [|done]. cbn [flat_map]. by rewrite firstn_nil. }
  cbn [flat_map]. destruct (Nat.lt_ge_cases n (length (frame_lines t))) as [L|G].
  - destruct (cut_frame t last n Ht L) as (s & E & El). exists O, s. split; [|exact El]. rewrite firstn_app. replace (n - length (frame_lines t))%nat with O by lia.
    cbn [firstn]. by rewrite app_nil_r.
  - rewrite firstn_app, (firstn_all2 (frame_lines t)) by done. destruct (IH (id_after last t) (n - length (frame_lines t))%nat) as (k & s & E & El).
    exists (S k), s. split; [|exact El]. by rewrite process_lines_app, read_frame, E.
Qed.

Lemma split_not_nil sep s : split sep s <> [].
Proof. destruct (split_cons sep s) as (p & ps & ->). done. Qed.

(** The whole lines of a prefix are the first lines of the text. *)
Lemma split_prefix sep a b : exists n, removelast (split sep a) = firstn n (removelast (split sep (String.append a b))).
Proof.
  induction a as [|c a IH]; [by exists O|]. cbn [String.append split]. destruct IH as [n IH].
  destruct (Ascii.eqb c sep).
  - exists (S n). pose proof (split_not_nil sep a). pose proof (split_not_nil sep (String.append a b)).
    destruct (split sep a) as [|p ps], (split sep (String.append a b)) as [|q qs]; try done. cbn [removelast] in *. cbn [firstn]. by rewrite IH.
  - destruct (split_cons sep a) as (p & ps & Ea), (split_cons sep (String.append a b)) as (q & qs & Eb). rewrite Ea, Eb in *.
    destruct ps as [|p' ps]; [by exists O|]. destruct qs as [|q' qs]; [cbn [removelast] in IH; by rewrite firstn_nil in IH|].
    destruct n as [|n]; [done|]. cbn [removelast firstn] in *. injection IH as -> IH. exists (S n). cbn [firstn]. by rewrite IH.
Qed.


(** C31: what a stream's text tells: the frames the server writes, read by the source of a page,
    give one event for each invalidation and each resync, in order, with the topic and the
    cursor they were written with, and none for a heartbeat; and wherever the connection is
    cut, the events dispatched are those of the first frames, and the id with which the
    source comes back is the cursor of the last of them. *)
Theorem frames_are_read (ts : list Told) (last : string) :
  List.Forall told_plain ts ->
  receive_text (body (map frame_text ts)) (new_source last) = (new_source (fold_left id_after ts last), flat_map event_of ts) /\
  forall arrived rest, body (map frame_text ts) = String.append arrived rest ->
    exists k, (receive_text arrived (new_source last)).2 = flat_map event_of (firstn k ts) /\
      es_lastEventId (receive_text arrived (new_source last)).1 = fold_left id_after (firstn k ts) last.
Proof.
  intros P. pose proof (frame_lines_plain ts P) as L.
  assert (removelast (split lf (body (map frame_text ts))) = flat_map frame_lines ts) as Lines.
  { rewrite body_frames, <- (append_nil_r (body _)), split_lines by done. apply removelast_last. }
  split; [unfold receive_text; by rewrite Lines, read_frames|]. intros arrived rest E.
  destruct (split_prefix lf arrived rest) as [n En]. rewrite <- E, Lines in En. destruct (cut_frames ts last n P) as (k & s & Er & El).
  exists k. unfold receive_text. rewrite En, Er. by split.
Qed.

Lemma received_all ts last :
  List.Forall told_plain ts -> receive_text (body (map frame_text ts)) (new_source last) = (new_source (fold_left id_after ts last), flat_map event_of ts).
Proof.
  intros P. unfold receive_text. rewrite body_frames, <- (append_nil_r (body _)), split_lines by by apply frame_lines_plain. change (split lf EmptyString) with [EmptyString]. rewrite removelast_last. by apply read_frames.
Qed.

(** A frame tells one thing. *)
Lemma same_frame t t' : frame_text t = frame_text t' -> told_plain t -> told_plain t' -> event_of t = event_of t'.
Proof.
  intros E Pt Pt'. assert (forall x, told_plain x -> event_of x = (receive_text (frame_text x) (new_source EmptyString)).2) as R.
  { intros x Px. pose proof (received_all [x] EmptyString ltac:(by constructor)) as H. cbn [map body flat_map] in H. rewrite append_nil_r, app_nil_r in H. by rewrite H. }
  by rewrite (R t Pt), (R t' Pt'), E.
Qed.

(** ** What a stream is written *)

Definition told_of (topics : list string) (t : Told) : Prop :=
  told_plain t /\ match t with Invalidated topic _ => In topic topics | _ => True end.

Lemma plain_text_app a b : plain_text (String.append a b) = plain_text a && plain_text b.
Proof. unfold plain_text. rewrite !has_char_app, !negb_orb. destruct (negb (has_char lf a)), (negb (has_char "013" a)), (negb (has_char "000" a)), (negb (has_char lf b)), (negb (has_char "013" b)), (negb (has_char "000" b)); done. Qed.

Lemma plain_decimal z : plain_text (decimal_of z) = true.
Proof. unfold plain_text. by rewrite !decimal_has_no. Qed.

Lemma plain_cursor c : plain_text (instanceId c) = true -> plain_text (encodeCursor c) = true.
Proof. intros H. unfold encodeCursor. by rewrite !plain_text_app, H, !plain_decimal. Qed.

Lemma told_frames (P : Told -> Prop) frames :
  List.Forall (fun f => exists t, f = frame_text t /\ P t) frames -> exists ts, frames = map frame_text ts /\ List.Forall P ts.
Proof.
  induction 1 as [|f frames (t & -> & Ht) _ (ts & -> & Hts)]; [by exists []|]. exists (t :: ts). split; [done|by constructor].
Qed.

Lemma opening_told r since topics :
  List.Forall (fun t => plain_text t = true) topics -> plain_text (r_instanceId r) = true ->
  List.Forall (fun f => exists t, f = frame_text t /\ told_of topics t) (opening r since topics).
Proof.
  intros Pt Pi. assert (plain_text (encodeCursor (cursor r)) = true) as Pc by (by apply plain_cursor).
  destruct since as [c|]; [|constructor]. cbn [opening]. destruct (reconcile r c) as [missed|].
  - apply List.Forall_forall. intros f (t & <- & Ht)%in_map_iff. apply filter_In in Ht as [_ Ht%has_In].
    exists (Invalidated t (encodeCursor (cursor r))). split; [done|]. split; [split; [by apply (proj1 (List.Forall_forall _ _) Pt)|done]|done].
  - constructor; [|constructor]. by exists (Resynced (encodeCursor (cursor r))).
Qed.

Section Stream.
(** A stream opened at a server for some topics, and what happened since. *)
Context (s : Server) (topics : list string) (since : option Cursor) (maxQueue : Z) (es : list ServerEvent).
Context (reachable : server_reachable s) (distinct : List.NoDup topics).
Context (plain_topics : List.Forall (fun t => plain_text t = true) topics) (plain_instance : plain_text (r_instanceId (ring (process s))) = true).

Let s0 := serve (Opens topics since false maxQueue) s.
Let id := length (streams (process s)).

Lemma noted_plain tc : In tc (all_noted es s0) -> plain_text (encodeCursor tc.2) = true.
Proof.
  intros H. pose proof (reachable_server_ok _ reachable) as Ok. assert (server_ok s0) as Ok0 by (by apply serve_spec).
  destruct (noted_before es s0 tc Ok0 H) as [Ei _]. apply plain_cursor. rewrite Ei.
  assert (before (cursor (ring (process s))) (ring (process s))) as B.
  { split; [done|]. right. destruct (ok_ring _ Ok) as (r0 & h & n & Hh). pose proof (holds_last _ _ _ _ Hh). cbn. split; [done|lia]. }
  pose proof (serve_before (Opens topics since false maxQueue) s _ Ok B) as B0. by destruct (serve_all_before es s0 _ Ok0 B0) as [<- _].
Qed.

Lemma written_told st :
  streams (process (serve_all es s0)) !! id = Some st -> st_torn st = false ->
  exists ts, ct_written (controller (st_connection st)) = map frame_text ts /\ List.Forall (told_of topics) ts /\
    forall topic c, In (topic, c) (all_noted es s0) -> In topic topics -> In (frame_of topic c) (map frame_text ts).
Proof.
  intros E T. pose proof (reachable_server_ok _ reachable) as Ok.
  destruct (openLiveStream_spec topics since maxQueue _ (ok_process _ Ok)) as (_ & _ & _ & st0 & Es & Et & _ & Ew).
  assert (streams (process s0) !! id = Some st0) as E0 by (unfold s0; cbn [serve process]; rewrite Es; by apply list_lookup_middle).
  assert (server_reachable s0) as R0 by (by apply server_step). rewrite <- Et in distinct. pose proof (written_since s0 es id st0 st R0 E0 distinct E T) as P. rewrite Et, Ew in P.
  assert (forall topic c, In (topic, c) (all_noted es s0) -> In topic topics -> In (frame_of topic c) (ct_written (controller (st_connection st)))) as In_w.
  { intros topic c Hn Ht. apply (Permutation_in _ (Permutation_sym P)). apply in_app_iff. right. apply in_app_iff. left. apply in_map_iff. exists (topic, c).
    split; [done|]. apply filter_In. split; [done|]. by apply has_In. }
  destruct (told_frames (told_of topics) (ct_written (controller (st_connection st)))) as (ts & Ets & Pts).
  - apply (Permutation_Forall (Permutation_sym P)). apply List.Forall_app. split; [by apply opening_told|]. apply List.Forall_app. split; apply List.Forall_forall.
    + intros f ((t & c) & <- & [Hn Ht%has_In]%filter_In)%in_map_iff. exists (Invalidated t (encodeCursor c)). split; [done|]. split; [|done].
      split; [by apply (proj1 (List.Forall_forall _ _) plain_topics)|]. exact (noted_plain (t, c) Hn).
    + intros f (e & _ & Hf)%in_flat_map. exists Pinged. split; [|done]. destruct e as [| |id' e|]; try done. cbn in Hf. destruct e; try done. cbn in Hf. destruct (Nat.eqb id' id); [|done]. by destruct Hf as [<-|[]].
  - exists ts. split; [done|]. split; [done|]. intros topic c. rewrite <- Ets. apply In_w.
Qed.
End Stream.

(** C9: what the server hears reaches the readers: take a page's source on a stream that stays
    open, for topics that are lines of text. Every topic of the stream that the server heard
    since it opened is among the events dispatched, with its cursor as the source's id. On
    whatever page an event is handled, if no fetcher called for it throws at once, it leaves
    every mounted reader of its topic that had nothing in flight waiting for a request; and
    from then on, as long as the page does not write the key itself or prime it with an older
    request, that reader is shown as settled only what the server held at that moment or
    later. Readers of other topics than the stream's are left alone. *)
Theorem heard_topic_reaches_the_readers (throws_at_once : nat -> nat -> bool) (s : Server) (topics : list string) (since : option Cursor) (maxQueue : Z)
    (es : list ServerEvent) (st : LiveStream) (last : string) :
  server_reachable s -> List.NoDup topics -> List.Forall (fun t => plain_text t = true) topics -> plain_text (r_instanceId (ring (process s))) = true ->
  let s0 := serve (Opens topics since false maxQueue) s in
  streams (process (serve_all es s0)) !! length (streams (process s)) = Some st -> st_torn st = false ->
  let events := (receive_text (body (ct_written (controller (st_connection st)))) (new_source last)).2 in
  (forall topic c, In (topic, c) (all_noted es s0) -> In topic topics -> In (mkEvent "invalidate" topic (encodeCursor c)) events) /\
  (forall topic cursor p regs key ts,
     visited throws_at_once (p, regs) -> In (key, ts) regs -> In topic ts -> map_get key (fetchers (client p)) <> None -> map_get key (inflight (client p)) = None ->
     (invalidateTopic throws_at_once topic p).2 = Ok tt ->
     let p1 := on_live_event throws_at_once topics (mkEvent "invalidate" topic cursor) p in
     status_of key p1 = Loading /\ (exists r, in_flight key r p1) /\
     forall later, all_possible throws_at_once later (p1, regs) -> List.Forall (unforced key (version p)) later ->
       let p2 := (history throws_at_once later (p1, regs)).1 in
       status_of key p2 = Success -> exists v, q_data (getSnapshot key (client p2)) = Some v /\ version p <= v) /\
  (forall e p regs key, In e events -> visited throws_at_once (p, regs) -> (forall ts topic, In (key, ts) regs -> In topic ts -> ~ In topic topics) ->
     getSnapshot key (client (on_live_event throws_at_once topics e p)) = getSnapshot key (client p)).
Proof.
  intros R Nd Pt Pi s0 E T events. destruct (written_told s topics since maxQueue es R Nd Pt Pi st E T) as (ts & Ew & Pts & Cov).
  assert (List.Forall told_plain ts) as Pp by (by eapply List.Forall_impl; [|exact Pts]; intros t []).
  assert (events = flat_map event_of ts) as Ee by (unfold events; by rewrite Ew, received_all). split; [|split].
  - intros topic c Hn Ht. rewrite Ee. destruct (proj1 (in_map_iff _ _ _) (Cov topic c Hn Ht)) as (t & Ef & Hin). apply in_flat_map. exists t. split; [done|].
    rewrite (same_frame t (Invalidated topic (encodeCursor c)) Ef); [by left| |].
    + by apply (proj1 (List.Forall_forall _ _) Pp).
    + split; [by apply (proj1 (List.Forall_forall _ _) Pt)|]. exact (noted_plain s topics since maxQueue es R Pi (topic, c) Hn).
  - intros topic cursor p regs key ts0 V Hr Ht Hf Hn Hok. destruct (invalidateTopics_sends throws_at_once p regs key ts0 [topic] topic V Hr Ht (or_introl eq_refl) Hf Hn Hok) as (F & L & I).
    split; [exact L|]. split; [exact I|]. intros later A U. apply (fresh_shown _ _ _ (fresh_history throws_at_once key (version p) later ((invalidateTopics throws_at_once [topic] p).1, regs) F A U)).
  - intros e p regs key He V Other. rewrite Ee in He. apply in_flat_map in He as (t & Ht & He). pose proof (proj1 (List.Forall_forall _ _) Pts t Ht) as [_ Pin].
    destruct t as [topic cursor|cursor|]; [destruct He as [<-|[]]|destruct He as [<-|[]]|done];
      (apply (invalidateTopics_other throws_at_once p regs key); [exact V|]); intros ts0 t0 H1 H2 H3; apply (Other ts0 t0 H1 H2); [|exact H3]. by destruct H3 as [<-|[]].
Qed.

(** ** The theorems at concrete streams *)

Lemma frames_are_read_witness :
  receive_text (body (map frame_text [Pinged; Invalidated "org:1" "n1.0.1"])) (new_source EmptyString) =
    (new_source "n1.0.1", [mkEvent "invalidate" "org:1" "n1.0.1"]).
Proof. apply (frames_are_read [Pinged; Invalidated "org:1" "n1.0.1"] EmptyString). by repeat constructor. Defined.

(** A stream for two topics, and a page with a reader of the second, at rest. *)
Definition stream_text : string :=
  match written_to 0 (serve_all [notify 0 ["org:2"]; OnStream 0 Heartbeat] opened) with Some frames => body frames | None => EmptyString end.

Definition org_mounted : list PageEvent := [Registers "list" ["org:2"]; Fetches "list" 0; Settles 0 (Ok 5); Writes].
Definition org_page : Page * Registrations := QueryClientProps.history never org_mounted (new_page 5 0, []).

Lemma org_page_visited : visited never (org_page.1, org_page.2).
Proof. exists 5, 0, org_mounted. split; [|vm_compute; reflexivity]. all_happened. Qed.

Lemma heard_topic_reaches_the_readers_witness :
  In (mkEvent "invalidate" "org:2" "n1.0.1") (receive_text stream_text (new_source EmptyString)).2 /\
  status_of "list" (on_live_event never ["org:1"; "org:2"] (mkEvent "invalidate" "org:2" "n1.0.1") org_page.1) = Loading.
Proof.
  destruct (heard_topic_reaches_the_readers never listening ["org:1"; "org:2"] None 256 [notify 0 ["org:2"]; OnStream 0 Heartbeat]
    (mkStream ["org:1"; "org:2"] (mkConnection false (mkController Readable [frame_of "org:2" (mkCursor "n1" 0 1); commentFrame "ping"] 0 0 256)) false (subscriptions 0 ["org:1"; "org:2"]))
    EmptyString listening_reachable two_topics) as (E & H & _); [by repeat constructor|reflexivity|vm_compute; reflexivity|reflexivity|]. split.
  - apply (E "org:2" (mkCursor "n1" 0 1)); [vm_compute; by left|right; by left].
  - apply (H "org:2" "n1.0.1" org_page.1 org_page.2 "list" ["org:2"] org_page_visited); [by left|by left|vm_compute; discriminate|vm_compute; reflexivity|vm_compute; reflexivity].
Defined.
